(* ===== verification/_CoqProject ===== *)
-Q . S2P
Prelude.v
Types.v
Encoding.v
Wal.v
WalFacts.v
WalSync.v
WalSyncFacts.v
Floats.v
PropertyValue.v
PropertyValueFacts.v
FilterBase.v
FilterFacts.v
NodeFilter.v
NodeFilterFacts.v
EdgeMetadata.v
CompoundKey.v
CompoundKeyFacts.v
Slots.v
Memtable.v
MemtableCells.v
MemtableSteps.v
MemtableFacts.v
MemtableEdges.v
MemtableReads.v
MemtableSnapshots.v
MemtableReadFacts.v
MemtableKeys.v
MemtableNeighbors.v
MemtableWitness.v
DegreeCache.v
DegreeLookup.v
DegreeFold.v
Manifest.v
ManifestStore.v
ManifestStoreFacts.v
LabelCatalog.v
LabelCatalogFacts.v
NodeQuery.v
NodeQueryFacts.v
FilterWitness.v
SourceList.v
SourceListFacts.v
SourceKeys.v
SourceKeysFacts.v
LayeredKeys.v
LayeredKeysWitness.v
Vectors.v
DegreeEngine.v
DegreeCounts.v
Engine.v
EngineDegrees.v
EngineRecovery.v
Walks.v
Adjacency.v
Components.v
AdjacencyFacts.v
Freeze.v
DegreeWalk.v
DegreeWalkFacts.v
EngineFastPath.v
EngineWitness.v
ComponentsFacts.v
GraphSearch.v
GraphSearchFacts.v
ComponentWitness.v
WritePlan.v
WritePlanFacts.v
WritePatchFacts.v
WriteSession.v
EndpointScan.v
EndpointFacts.v
Txn.v
TxnPlan.v
TxnFacts.v
WriteCascade.v
GraphWitness.v
WriteWitness.v
