(* ===== verification/Prelude.v ===== *)
(** * OverGraph: a verification development

    OverGraph is an embedded property-graph database on a log-structured merge
    tree, written in Rust.  File names below are under src/ of its repository.

    ** How the program works, and what models it

    A request to write is planned against the current view (engine/write.rs,
    and engine/txn.rs for a transaction): labels get ids, the records touched
    are looked up, and a list of operations comes out.  The operations are
    numbered, encoded (encoding.rs), framed into the write-ahead log (wal.rs,
    wal_sync.rs), applied to the memtable (memtable.rs), whose slots keep the
    versions older readers need, and counted in the degree cache
    (degree_cache.rs).  A full memtable is frozen and becomes a segment.  A read
    view is the active memtable, the frozen ones and the segments, newest first
    (source_list.rs): lookups, scans, graph searches and queries merge them.  On
    opening, the manifest (manifest.rs) is loaded and the logs are replayed.

    The files, from the bottom up; [XFacts] proves what [X] defines, and the
    witness files apply the theorems to concrete inputs.

    - Prelude: the error monad, machine integers, byte strings, UTF-8, lemmas.
    - Types (types.rs, error.rs): records, operations, values, label sets.
    - Encoding (encoding.rs): the operation codec; round trip.
    - Wal, WalFacts (wal.rs): frames, atomic batches, recovery, truncation over
      the bytes of a file; what a torn log recovers.
    - WalSync, WalSyncFacts (wal_sync.rs): group commit as the sections under its
      lock and their interleavings; crash safety, bounds, progress.
    - Floats: IEEE 754 comparison on bit patterns, and arithmetic.
    - PropertyValue, PropertyValueFacts (property_value_semantics.rs): numeric
      keys, semantic equality, range keys; key order is the order of numbers.
    - EdgeMetadata (edge_metadata.rs), CompoundKey, CompoundKeyFacts
      (secondary_index_key.rs, its first part): keys of indexes and scan bounds.
    - FilterBase, NodeFilter (engine/query_ir.rs, query_exec.rs), with their
      facts: normalization of a filter keeps its meaning and cannot panic.
    - Slots, Memtable, MemtableReads (memtable.rs): versioned slots, setters,
      index maintenance, operations; lookups and scans at a snapshot.
      MemtableCells and MemtableSteps see the state as cells written by
      numbered writes; MemtableFacts, MemtableEdges and MemtableSnapshots prove
      snapshot isolation and the coherence of every index on that view;
      MemtableReadFacts, MemtableKeys and MemtableNeighbors the reads.
    - DegreeCache, DegreeLookup, DegreeFold
      (degree_cache.rs): deltas, the overlay, the sidecar file and its folding.
    - Manifest, ManifestStore, ManifestStoreFacts (manifest.rs): validation, and
      the files with the directories a crash can leave.
    - LabelCatalog, LabelCatalogFacts (engine/mod.rs): labels across
      checkpoints and logs.  Vectors: canonical vectors.
    - SourceList, SourceKeys, LayeredKeys (source_list.rs), with their facts:
      reads by id, by name and by triple over the layers answer as one merged
      view.  EndpointScan, EndpointFacts: the limited scan of the edges at nodes.
    - DegreeEngine, DegreeCounts, Engine, EngineDegrees, EngineRecovery
      (engine/mod.rs, graph_ops.rs): commits, replay, the degree cache as a
      count of edges, recovery after a crash; what a failed sync leaves behind
      is at the head of EngineWitness.
    - Walks, Adjacency, Components, GraphSearch (engine/graph_ops.rs),
      with their facts: frontier expansion over the layers, shortest paths by
      hops, connectivity, connected components.  AdjacencyFacts states what
      the theorems ask of a view: [layered] (ids are never reused) says what an
      expansion visits in every case, [steady] (and no active edge is at a
      deleted node) makes it the live edges.  Freeze (engine/mod.rs): what
      freezing the active memtable changes when a view is not steady.
    - DegreeWalk, DegreeWalkFacts, EngineFastPath (engine/graph_ops.rs): the
      degree of a node by the walk and from the cache, and by how much the two
      may differ.
    - NodeQuery, NodeQueryFacts (engine/query_exec.rs, mod.rs): normalizing a
      query, verifying candidates in chunks, cutting pages.
    - WritePlan, WritePlanFacts, WritePatchFacts, WriteSession,
      WriteCascade (engine/write.rs): planning every core request; sessions of
      planned and committed writes keep names and triples unique; the cascade of
      a delete.
    - Txn, TxnPlan, TxnFacts (engine/txn.rs): planning the commit of an
      optimistic transaction; the first committer wins.

    ** Interfaces

    Where components meet, a class states what one promises the other, and the
    client's theorems assume the laws.  What a segment answers:
    [SourceList.SegmentReads] by id, [SourceKeys.SegmentKeys] by name,
    [Adjacency.SegmentAdjacency], [DegreeWalk.SegmentWalk] and
    [EndpointScan.SegmentEndpoints] by end point, [Txn.SegmentTombstones], each with a class of laws ([SegmentLaws],
    [SegmentKeyLaws], ...) that the segments of the witnesses satisfy.  What a
    query asks of a view is [NodeQuery.NodeSources]; [source_list_laws]
    discharges its laws for the layers.  What a planned write asks of the current
    view is the record [WritePlanFacts.planner_reads]; the lookups over layers
    discharge it.  Libraries the sources call are parameters with the laws the
    code relies on: rmp_serde ([Encoding.RmpSerde], [PropertyValue.RmpValue]),
    crc32fast ([Wal.Crc32]), serde_json ([ManifestStore]).

    ** Conventions

    Rust integers are [Z] in the range of their type.  [Result] is [result]; a
    panic ([expect], [unreachable!], an inverted [BTreeMap::range]) is [None].
    Messages of errors keep their format strings.  A [HashMap] is a [gmap] whose
    iteration order is a parameter ([Slots.HashOrder]); a [BTreeMap] iterates its
    keys in order; an unstable sort may permute equals ([UnstableSort]).  Code
    that threads a state uses the error monad with the state made explicit.  The
    clock readings of one call are one number, [now].  Id counters wrap as in
    a release build where the code does not check them; theorems that need room
    say so.

    Fuel: loops over bytes carry the number of bytes left; the searches more
    than the depth asked for; union-find the size of its parent map; the
    endpoint merge the number of entries of the lists it merges; the order of
    replacements their number.  Each is shown to be enough where a theorem needs
    the result.

    ** Not modelled

    Edge filters, graph-row and pipeline operators, the choice of candidate
    sources and the statistics behind it; GQL; schema rules and the records'
    checks against them; the overlay through which a transaction reads its own
    staged writes; segment files, their writers, readers and identities,
    compaction; HNSW graphs and sparse postings; weighted paths, all shortest
    paths, PageRank and top-k expansions, whose costs are floats; the [neighbors]
    request beyond what the cascades use; paged reads and published views;
    scrub, statistics, thread pools and the language bindings.  They are file
    formats over memory maps, float heuristics or glue, or wait for their turn;
    the inventory of components gives the reason for each.
  *)
From Stdlib Require Export ZArith Lia Strings.Byte Sorted.
From stdpp Require Export base option gmap strings numbers sorting list.

#[global] Open Scope Z_scope.

Declare Scope og_scope.
Delimit Scope og_scope with og.

(** ** The outcome of fallible code: Rust's [Result], as a monad. *)
Inductive result (E A : Type) : Type :=
| Ok (a : A)
| Err (e : E).
Arguments Ok {E A} a.
Arguments Err {E A} e.

#[export] Instance result_ret E : MRet (result E) := fun A => Ok.
#[export] Instance result_bind E : MBind (result E) :=
  fun A B f m => match m with Ok a => f a | Err e => Err e end.
#[export] Instance result_fmap E : FMap (result E) :=
  fun A B f m => match m with Ok a => Ok (f a) | Err e => Err e end.

Lemma bind_Ok_l {E A B} (a : A) (f : A -> result E B) : (Ok a ≫= f) = f a.
Proof. reflexivity. Qed.
Lemma bind_Err_l {E A B} (e : E) (f : A -> result E B) : (Err e ≫= f) = Err e.
Proof. reflexivity. Qed.
Lemma bind_Ok_inv {E A B} (m : result E A) (f : A -> result E B) b :
  (m ≫= f) = Ok b -> exists a, m = Ok a /\ f a = Ok b.
Proof. destruct m as [a|e]; [eauto | discriminate]. Qed.
Lemma bind_Err_inv {E A B} (m : result E A) (f : A -> result E B) e :
  (m ≫= f) = Err e -> m = Err e \/ exists a, m = Ok a /\ f a = Err e.
Proof. destruct m as [a|e']; cbn; [eauto | intros [= ->]; auto]. Qed.

Lemma Ok_inj {E A} (a b : A) : @Ok E A a = Ok b -> a = b.
Proof. by intros [= ->]. Qed.

Definition is_ok {E A} (m : result E A) : bool := match m with Ok _ => true | Err _ => false end.

Create HintDb og.
Create Rewrite HintDb og.
#[export] Hint Rewrite @bind_Ok_l @bind_Err_l : og.

(** [inv_bind H] opens every successful bind in [H]. *)
Ltac inv_bind H :=
  repeat lazymatch type of H with
  | (_ ≫= _) = Ok _ =>
      let a := fresh "v" in let E := fresh "Hv" in
      apply bind_Ok_inv in H as (a & E & H)
  end.

(** [case_all] splits on every scrutinee of a [match] or [if] in a
    hypothesis or the goal, closing the contradictory branches. *)
Ltac case_all :=
  repeat (case_match; simplify_eq/=; try done).

(** Concatenating the images of a list. *)
Lemma join_fmap_cons {A B} (f : A -> list B) x l : mjoin (f <$> x :: l) = f x ++ mjoin (f <$> l).
Proof. reflexivity. Qed.
Lemma join_fmap_app {A B} (f : A -> list B) l k :
  mjoin (f <$> l ++ k) = mjoin (f <$> l) ++ mjoin (f <$> k).
Proof. rewrite fmap_app. apply join_app. Qed.

(** ** Machine integers.  A value of a [w]-bit Rust integer is a [Z] in the
    type's range; arithmetic that can leave the range states its wrap. *)
Definition u8 (z : Z) : Prop := 0 <= z < 2 ^ 8.
Definition u16 (z : Z) : Prop := 0 <= z < 2 ^ 16.
Definition u32 (z : Z) : Prop := 0 <= z < 2 ^ 32.
Definition u64 (z : Z) : Prop := 0 <= z < 2 ^ 64.
Definition i64 (z : Z) : Prop := - 2 ^ 63 <= z < 2 ^ 63.
Definition u64_max : Z := 2 ^ 64 - 1.
Definition u32_max : Z := 2 ^ 32 - 1.
Definition i64_max : Z := 2 ^ 63 - 1.

#[export] Instance u8_dec z : Decision (u8 z) := _.
#[export] Instance u16_dec z : Decision (u16 z) := _.
#[export] Instance u32_dec z : Decision (u32 z) := _.
#[export] Instance u64_dec z : Decision (u64 z) := _.
#[export] Instance i64_dec z : Decision (i64 z) := _.
#[export] Hint Unfold u8 u16 u32 u64 i64 : og.

(** Two's complement reading and writing of a [w]-bit pattern. *)
Definition to_bits (w : Z) (z : Z) : Z := z mod 2 ^ w.
Definition of_bits (w : Z) (z : Z) : Z :=
  if z <? 2 ^ (w - 1) then z else z - 2 ^ w.

Lemma of_to_bits w z : 1 <= w -> - 2 ^ (w - 1) <= z < 2 ^ (w - 1) -> of_bits w (to_bits w z) = z.
Proof.
  intros Hw Hz. unfold of_bits, to_bits.
  replace (2 ^ w) with (2 * 2 ^ (w - 1)) by (rewrite <- Z.pow_succ_r by lia; f_equal; lia).
  set (p := 2 ^ (w - 1)) in *. destruct (Z.leb_spec 0 z).
  - rewrite Z.mod_small by lia. destruct (Z.ltb_spec z p); lia.
  - rewrite <- (Z.mod_add z 1), Z.mod_small by lia. destruct (Z.ltb_spec (z + 1 * (2 * p)) p); lia.
Qed.
Lemma of_to_bits_64 z : i64 z -> of_bits 64 (to_bits 64 z) = z.
Proof. exact (of_to_bits 64 z ltac:(lia)). Qed.

Lemma to_bits_range w z : 0 <= w -> 0 <= to_bits w z < 2 ^ w.
Proof. intros. apply Z.mod_pos_bound. lia. Qed.

(** Comparisons that agree on order and equality agree. *)
Lemma compare_ext a b c d : (a < b <-> c < d) -> (a = b <-> c = d) -> (a ?= b) = (c ?= d).
Proof.
  intros Hlt Heq. destruct (Z.compare_spec a b); symmetry;
    [apply Z.compare_eq_iff | apply Z.compare_lt_iff | apply Z.compare_gt_iff]; lia.
Qed.
Lemma mul_compare_mono_r p n m : 0 < p -> (n * p ?= m * p) = (n ?= m).
Proof. intros. apply compare_ext; nia. Qed.

(** Bitwise operations stay in the width. *)
Lemma lxor_range w a b :
  0 <= w -> 0 <= a < 2 ^ w -> 0 <= b < 2 ^ w -> 0 <= Z.lxor a b < 2 ^ w.
Proof.
  intros Hw Ha Hb. assert (0 <= Z.lxor a b) by (apply Z.lxor_nonneg; lia).
  apply Z.bounded_iff_bits_nonneg'; [done..|]. intros l Hl. rewrite Z.lxor_spec.
  apply (Z.bounded_iff_bits_nonneg' w) with (l := l) in Ha, Hb; [|lia..]. by rewrite Ha, Hb.
Qed.

(** A power of two above [f] and [f] share no bit. *)
Lemma lor_pow2_add n f : 0 <= n -> 0 <= f < 2 ^ n -> Z.lor (2 ^ n) f = 2 ^ n + f.
Proof.
  intros Hn Hf. symmetry. apply Z.add_nocarry_lor. apply Z.bits_inj'. intros i Hi.
  rewrite Z.land_spec, Z.bits_0, Z.pow2_bits_eqb by lia.
  destruct (Z.eqb_spec n i) as [->|]; [|done]. cbn.
  apply (proj1 (Z.bounded_iff_bits_nonneg' i f ltac:(lia) ltac:(lia))); lia.
Qed.

Lemma lxor_top x : 0 <= x < 2 ^ 32 -> Z.lxor x (2 ^ 31) = (x + 2 ^ 31) mod 2 ^ 32.
Proof.
  intros Hx.
  assert (forall y, 0 <= y < 2 ^ 31 -> Z.lxor y (2 ^ 31) = y + 2 ^ 31) as Hlow.
  { intros y Hy. rewrite Z.add_comm, <- (lor_pow2_add 31 y), Z.lor_comm by lia.
    apply Z.bits_inj'. intros i Hi. rewrite Z.lxor_spec, Z.lor_spec, Z.pow2_bits_eqb by lia.
    destruct (Z.eqb_spec 31 i) as [<-|]; [|by rewrite orb_false_r, xorb_false_r].
    rewrite (proj1 (Z.bounded_iff_bits_nonneg' 31 y ltac:(lia) ltac:(lia))) by lia. done. }
  destruct (Z.lt_ge_cases x (2 ^ 31)).
  - rewrite Hlow, Z.mod_small by lia. done.
  - replace x with (x - 2 ^ 31 + 2 ^ 31) at 1 by lia.
    rewrite <- (Hlow (x - 2 ^ 31)) at 1 by lia.
    rewrite Z.lxor_assoc, Z.lxor_nilpotent, Z.lxor_0_r.
    replace (x + 2 ^ 31) with (x - 2 ^ 31 + 1 * 2 ^ 32) by lia.
    rewrite Z.mod_add by lia. rewrite Z.mod_small; lia.
Qed.

(** ** Bytes *)
Abbreviation len l := (Z.of_nat (length l)).

Definition b2z (b : byte) : Z := Z.of_N (Byte.to_N b).
Definition z2b (z : Z) : byte :=
  match Byte.of_N (Z.to_N (z mod 256)) with Some b => b | None => Byte.x00 end.

Lemma b2z_range b : 0 <= b2z b < 256.
Proof. unfold b2z. pose proof (Byte.to_N_bounded b). lia. Qed.
Lemma z2b_b2z b : z2b (b2z b) = b.
Proof.
  unfold z2b. rewrite Z.mod_small by apply b2z_range.
  unfold b2z. by rewrite N2Z.id, Byte.of_to_N.
Qed.
Lemma b2z_z2b z : b2z (z2b z) = z mod 256.
Proof.
  unfold z2b. assert (0 <= z mod 256 < 256) by (apply Z.mod_pos_bound; lia).
  destruct (Byte.of_N _) eqn:E.
  - apply Byte.to_of_N in E. unfold b2z. rewrite E. lia.
  - apply Byte.of_N_None_iff in E. lia.
Qed.
Lemma b2z_inj b1 b2 : b2z b1 = b2z b2 -> b1 = b2.
Proof. intros H. rewrite <- (z2b_b2z b1), <- (z2b_b2z b2). by rewrite H. Qed.

#[export] Instance byte_eq_dec : EqDecision byte.
Proof. intros a b. destruct (Byte.byte_eq_dec a b); [by left | by right]. Defined.
#[export] Program Instance byte_countable : Countable byte :=
  inj_countable b2z (fun z => Some (z2b z)) _.
Next Obligation. intros b. cbn. by rewrite z2b_b2z. Qed.

(** [to_le_bytes]/[to_be_bytes] of an [n]-byte integer, and their inverses. *)
Fixpoint le_bytes (n : nat) (z : Z) : list byte :=
  match n with O => [] | S n => z2b z :: le_bytes n (z / 256) end.
Fixpoint le_val (l : list byte) : Z :=
  match l with [] => 0 | b :: l => b2z b + 256 * le_val l end.
Definition be_bytes (n : nat) (z : Z) : list byte := reverse (le_bytes n z).
Definition be_val (l : list byte) : Z := le_val (reverse l).

Lemma length_le_bytes n z : length (le_bytes n z) = n.
Proof. revert z. induction n; cbn; auto. Qed.
Lemma length_be_bytes n z : length (be_bytes n z) = n.
Proof. unfold be_bytes. by rewrite length_reverse, length_le_bytes. Qed.

Lemma le_val_range l : 0 <= le_val l < 2 ^ (8 * len l).
Proof.
  induction l as [|b l IH]; cbn -[Z.pow Z.mul Z.of_nat]; [lia|].
  pose proof (b2z_range b). rewrite Nat2Z.inj_succ.
  replace (2 ^ (8 * Z.succ (len l))) with (256 * 2 ^ (8 * len l)); [lia|].
  replace (8 * Z.succ (len l)) with (8 + 8 * len l) by lia.
  rewrite Z.pow_add_r by lia. lia.
Qed.

Lemma le_val_le_bytes n z : le_val (le_bytes n z) = z mod 2 ^ (8 * Z.of_nat n).
Proof.
  revert z. induction n as [|n IH]; intros z; cbn -[Z.pow Z.mul Z.of_nat].
  - change (8 * Z.of_nat 0) with 0. by rewrite Z.mod_1_r.
  - rewrite b2z_z2b, IH, Nat2Z.inj_succ.
    replace (8 * Z.succ (Z.of_nat n)) with (8 + 8 * Z.of_nat n) by lia.
    rewrite Z.pow_add_r by lia. change (2 ^ 8) with 256.
    rewrite Z.rem_mul_r by lia. lia.
Qed.

Lemma le_bytes_le_val l : le_bytes (length l) (le_val l) = l.
Proof.
  induction l as [|b l IH]; cbn -[Z.mul]; [done|].
  pose proof (b2z_range b).
  assert (z2b (b2z b + 256 * le_val l) = b) as ->.
  { rewrite <- (z2b_b2z b) at 2. unfold z2b.
    rewrite Z.mul_comm, Z.mod_add, (Z.mod_small (b2z b)) by lia. done. }
  rewrite (Z.mul_comm 256), Z.div_add, Z.div_small, Z.add_0_l by lia. by rewrite IH.
Qed.

Lemma be_val_be_bytes n z : be_val (be_bytes n z) = z mod 2 ^ (8 * Z.of_nat n).
Proof. unfold be_val, be_bytes. by rewrite reverse_involutive, le_val_le_bytes. Qed.
Lemma be_bytes_be_val l : be_bytes (length l) (be_val l) = l.
Proof.
  unfold be_val, be_bytes. rewrite <- (length_reverse l), le_bytes_le_val.
  apply reverse_involutive.
Qed.

#[export] Hint Rewrite length_le_bytes length_be_bytes @length_app @length_reverse : og.

(** ** Reading from the front of a byte string *)
Definition split_at (n : nat) (l : list byte) : option (list byte * list byte) :=
  if decide (n <= length l)%nat then Some (take n l, drop n l) else None.

Lemma split_at_app n l1 l2 : length l1 = n -> split_at n (l1 ++ l2) = Some (l1, l2).
Proof.
  intros <-. unfold split_at. rewrite length_app.
  case_decide; [|lia]. by rewrite take_app_length, drop_app_length.
Qed.
Lemma split_at_Some n l a b : split_at n l = Some (a, b) -> l = a ++ b /\ length a = n.
Proof.
  unfold split_at. case_decide; intros [= <- <-].
  rewrite take_drop, length_take. split; [done | lia].
Qed.
Lemma split_at_None n l : split_at n l = None <-> (length l < n)%nat.
Proof. unfold split_at. case_decide; split; intros; try done; lia. Qed.

(** ** Ordered byte strings: Rust's [Ord] on [\[u8\]], [Vec<u8>] and [String]. *)
Fixpoint bytes_cmp (a b : list byte) : comparison :=
  match a, b with
  | [], [] => Eq
  | [], _ :: _ => Lt
  | _ :: _, [] => Gt
  | x :: a, y :: b =>
      match b2z x ?= b2z y with Eq => bytes_cmp a b | c => c end
  end.
Definition bytes_lt (a b : list byte) : Prop := bytes_cmp a b = Lt.

#[export] Instance bytes_lt_dec a b : Decision (bytes_lt a b).
Proof. unfold bytes_lt. apply _. Defined.

Lemma bytes_cmp_refl a : bytes_cmp a a = Eq.
Proof. induction a as [|x a IH]; cbn; [done|]. by rewrite Z.compare_refl. Qed.
Lemma bytes_cmp_Eq a b : bytes_cmp a b = Eq <-> a = b.
Proof.
  split; [|intros ->; apply bytes_cmp_refl].
  revert b. induction a as [|x a IH]; intros [|y b]; cbn; try done.
  destruct (b2z x ?= b2z y) eqn:E; try done. intros H.
  apply Z.compare_eq_iff, b2z_inj in E. f_equal; auto.
Qed.
Lemma bytes_cmp_antisym a b : bytes_cmp b a = CompOpp (bytes_cmp a b).
Proof.
  revert b. induction a as [|x a IH]; intros [|y b]; cbn; try done.
  rewrite (Z.compare_antisym (b2z x) (b2z y)). destruct (b2z x ?= b2z y); cbn; auto.
Qed.
Lemma bytes_cmp_app_eq a b c d :
  length a = length b ->
  bytes_cmp (a ++ c) (b ++ d) =
    match bytes_cmp a b with Eq => bytes_cmp c d | r => r end.
Proof.
  revert b. induction a as [|x a IH]; intros [|y b] H; try discriminate; cbn; [done|].
  injection H as H. destruct (b2z x ?= b2z y); auto.
Qed.
#[export] Instance bytes_lt_trans : Transitive bytes_lt.
Proof.
  unfold bytes_lt. intros a. induction a as [|x a IH]; intros [|y b] [|z c]; cbn; try done.
  destruct (Z.compare_spec (b2z x) (b2z y)), (Z.compare_spec (b2z y) (b2z z)); try done;
    intros; (destruct (Z.compare_spec (b2z x) (b2z z)); try lia; eauto).
Qed.
Lemma bytes_lt_irrefl a : ~ bytes_lt a a.
Proof. unfold bytes_lt. by rewrite bytes_cmp_refl. Qed.

(** Big-endian encodings of one width compare like the integers. *)
Lemma bytes_cmp_be l1 l2 :
  length l1 = length l2 -> bytes_cmp l1 l2 = (be_val l1 ?= be_val l2).
Proof.
  revert l2. induction l1 as [|x l1 IH]; intros [|y l2] H; try discriminate; [done|].
  injection H as H. cbn [bytes_cmp]. rewrite (IH l2 H).
  assert (forall b l, be_val (b :: l) = b2z b * 2 ^ (8 * len l) + be_val l) as Hc.
  { clear. intros b l. unfold be_val. rewrite reverse_cons.
    induction (reverse l) as [|a r IHr] eqn:E in l |- *.
    - apply (f_equal reverse) in E. rewrite reverse_involutive in E. subst. cbn. lia.
    - assert (len l = Z.succ (len r)) as Hl.
      { rewrite <- (length_reverse l), E. cbn [length]. lia. }
      specialize (IHr (reverse r) (reverse_involutive r)). rewrite length_reverse in IHr.
      cbn [app le_val]. rewrite IHr, Hl.
      replace (8 * Z.succ (len r)) with (8 + 8 * len r) by lia.
      rewrite Z.pow_add_r by lia. lia. }
  rewrite !Hc. rewrite <- H.
  pose proof (le_val_range (reverse l1)) as R1. pose proof (le_val_range (reverse l2)) as R2.
  rewrite length_reverse in R1, R2. fold (be_val l1) in R1. fold (be_val l2) in R2.
  rewrite <- H in R2. set (p := 2 ^ (8 * len l1)) in *.
  destruct (Z.compare_spec (b2z x) (b2z y)) as [->|Hxy|Hxy].
  - destruct (Z.compare_spec (be_val l1) (be_val l2)); symmetry;
      [apply Z.compare_eq_iff | apply Z.compare_lt_iff | apply Z.compare_gt_iff]; lia.
  - symmetry. apply Z.compare_lt_iff. nia.
  - symmetry. apply Z.compare_gt_iff. nia.
Qed.

(** [BTreeMap<String, V>]: an association list in strictly ascending key order. *)
Abbreviation btree V := (list (list byte * V)).

Fixpoint btree_get {V} (k : list byte) (m : btree V) : option V :=
  match m with
  | [] => None
  | (k', v) :: m => if decide (k = k') then Some v else btree_get k m
  end.

Fixpoint btree_insert {V} (k : list byte) (v : V) (m : btree V) : btree V :=
  match m with
  | [] => [(k, v)]
  | (k', v') :: m' =>
      match bytes_cmp k k' with
      | Lt => (k, v) :: m
      | Eq => (k, v) :: m'
      | Gt => (k', v') :: btree_insert k v m'
      end
  end.
Lemma btree_get_insert {V} k k' v (m : btree V) :
  btree_get k' (btree_insert k v m) = if decide (k' = k) then Some v else btree_get k' m.
Proof.
  induction m as [|[k0 v0] m IH]; cbn [btree_insert btree_get]; [done|].
  destruct (bytes_cmp k k0) eqn:E; cbn [btree_get]; [apply bytes_cmp_Eq in E as ->|done|].
  - by repeat case_decide.
  - rewrite IH. repeat case_decide; subst; try done. by rewrite bytes_cmp_refl in E.
Qed.

Definition btree_wf {V} (m : btree V) : Prop := StronglySorted bytes_lt (fst <$> m).

Lemma btree_get_elem {V} k v (m : btree V) : btree_get k m = Some v -> (k, v) ∈ m.
Proof.
  induction m as [|[k' v'] m IH]; cbn; [done|].
  case_decide; [intros [= ->]; subst; left | right; auto].
Qed.

Definition key_lt {V} (a b : list byte * V) : Prop := bytes_lt (fst a) (fst b).
#[export] Instance key_lt_antisymm {V} : AntiSymm (=) (@key_lt V).
Proof.
  intros a b H1 H2. destruct (bytes_lt_irrefl (fst a)). by transitivity (fst b).
Qed.
Lemma btree_wf_sorted {V} (m : btree V) : btree_wf m <-> StronglySorted key_lt m.
Proof.
  unfold btree_wf. induction m as [|kv m IH]; [split; constructor|]. cbn. split.
  - intros [Hs Ha]%StronglySorted_inv. rewrite Forall_fmap in Ha. constructor; [by apply IH | done].
  - intros [Hs Ha]%StronglySorted_inv. constructor; [by apply IH | by rewrite Forall_fmap].
Qed.

(** Two maps of the same size, one inside the other, are the same list. *)
Lemma btree_incl_eq {V} (m1 m2 : btree V) :
  btree_wf m1 -> btree_wf m2 -> length m1 = length m2 -> (forall kv, kv ∈ m1 -> kv ∈ m2) -> m1 = m2.
Proof.
  intros H1%btree_wf_sorted H2%btree_wf_sorted Hl Hin.
  assert (NoDup m1) as Hn.
  { clear - H1. induction H1 as [|kv m Hs IH Ha]; constructor; [|done].
    intros Hk. rewrite Forall_forall in Ha. apply (bytes_lt_irrefl (fst kv)), (Ha _ Hk). }
  apply (StronglySorted_unique key_lt); [done..|].
  apply submseteq_length_Permutation; [by apply NoDup_submseteq | lia].
Qed.

(** ** Binary search, as [slice::binary_search_by] promises it on sorted input:
    the classical half-open [lo, hi) loop. *)
Fixpoint bsearch {A} (fuel : nat) (cmp : A -> comparison) (l : list A) (lo hi : nat) : option nat :=
  match fuel with
  | O => None
  | S fuel =>
      if decide (lo < hi)%nat then
        let mid := (lo + (hi - lo) / 2)%nat in
        match cmp <$> l !! mid with
        | Some Eq => Some mid
        | Some Lt => bsearch fuel cmp l (S mid) hi
        | Some Gt => bsearch fuel cmp l lo mid
        | None => None
        end
      else None
  end.
Definition binary_search_by {A} (cmp : A -> comparison) (l : list A) : option nat :=
  bsearch (S (length l)) cmp l 0 (length l).
Definition binary_search (x : Z) (l : list Z) : option nat := binary_search_by (fun y => y ?= x) l.

Lemma bsearch_sound {A} fuel (cmp : A -> comparison) l lo hi i :
  bsearch fuel cmp l lo hi = Some i -> exists x, l !! i = Some x /\ cmp x = Eq.
Proof.
  revert lo hi. induction fuel as [|fuel IH]; intros lo hi; cbn [bsearch]; [done|].
  case_decide; [|done]. destruct (l !! (_ + _)%nat) as [x|] eqn:Hx; cbn [fmap option_fmap option_map]; [|done].
  destruct (cmp x) eqn:E; [intros [= <-]; by exists x|apply IH|apply IH].
Qed.

(** The element sought, with smaller ones before it and greater ones after. *)
Lemma bsearch_complete {A} fuel (cmp : A -> comparison) l lo hi j x :
  l !! j = Some x -> cmp x = Eq ->
  (forall i y, (i < j)%nat -> l !! i = Some y -> cmp y = Lt) ->
  (forall i y, (j < i)%nat -> l !! i = Some y -> cmp y = Gt) ->
  (lo <= j < hi)%nat -> (hi <= length l)%nat -> (hi - lo < fuel)%nat ->
  bsearch fuel cmp l lo hi = Some j.
Proof.
  intros Hj Hx Hlt Hgt. revert lo hi. induction fuel as [|fuel IH]; intros lo hi Hlo Hhi Hf; [lia|].
  cbn [bsearch]. case_decide; [|lia]. set (mid := (lo + (hi - lo) / 2)%nat).
  assert (mid < hi)%nat by (unfold mid; pose proof (Nat.div_lt (hi - lo) 2); lia).
  assert (lo <= mid)%nat by (unfold mid; lia).
  destruct (lookup_lt_is_Some_2 l mid) as [y Hy]; [lia|]. rewrite Hy. cbn [fmap option_fmap option_map].
  destruct (Nat.lt_trichotomy mid j) as [Hm|[->|Hm]].
  - rewrite (Hlt mid y) by done. apply IH; lia.
  - rewrite Hj in Hy. injection Hy as <-. by rewrite Hx.
  - rewrite (Hgt mid y) by done. apply IH; lia.
Qed.

(** In a list sorted by a key without repetition, the element with that key. *)
Lemma binary_search_by_spec {A} (cmp : A -> comparison) l j x :
  l !! j = Some x -> cmp x = Eq ->
  (forall i y, (i < j)%nat -> l !! i = Some y -> cmp y = Lt) ->
  (forall i y, (j < i)%nat -> l !! i = Some y -> cmp y = Gt) ->
  binary_search_by cmp l = Some j.
Proof.
  intros Hj Hx Hlt Hgt. pose proof (lookup_lt_Some _ _ _ Hj).
  by apply bsearch_complete with x; try done; lia.
Qed.
Lemma sorted_lookup {A} (R : A -> A -> Prop) l i j x y :
  StronglySorted R l -> (i < j)%nat -> l !! i = Some x -> l !! j = Some y -> R x y.
Proof.
  intros Hs. revert i j. induction Hs as [|z l Hs IH Hz]; intros i j Hij Hx Hy; [done|].
  destruct j as [|j]; [lia|]. destruct i as [|i].
  - injection Hx as <-. rewrite Forall_forall in Hz. by apply Hz, list_elem_of_lookup_2 with j.
  - apply (IH i j); [lia|done|done].
Qed.

Definition ascending (l : list Z) : Prop := StronglySorted Z.lt l.
Lemma binary_search_spec x l : ascending l -> is_Some (binary_search x l) <-> x ∈ l.
Proof.
  intros Hs. unfold binary_search. split.
  - intros [i Hi]. apply bsearch_sound in Hi as (y & Hy & E). apply Z.compare_eq_iff in E as <-.
    by apply list_elem_of_lookup_2 with i.
  - intros [j Hj]%list_elem_of_lookup_1. exists j. apply binary_search_by_spec with x; [done|apply Z.compare_refl|..].
    + intros i y Hij Hy. apply Z.compare_lt_iff. by apply (sorted_lookup Z.lt l i j).
    + intros i y Hij Hy. apply Z.compare_gt_iff. by apply (sorted_lookup Z.lt l j i).
Qed.

(** ** Filters *)
Lemma filter_ext_in {A} (P Q : A -> Prop) `{!forall x, Decision (P x), !forall x, Decision (Q x)} (l : list A) :
  (forall x, x ∈ l -> P x <-> Q x) -> filter P l = filter Q l.
Proof.
  induction l as [|x l IH]; [done|]. intros HPQ.
  assert (filter P l = filter Q l) as E by (apply IH; intros y Hy; apply HPQ; by right).
  destruct (decide (P x)) as [HP|HP].
  - rewrite !filter_cons_True; [by f_equal | by apply (HPQ x); [left|] | done].
  - rewrite !filter_cons_False; [done | | done]. intros HQ. apply HP, (HPQ x); [left | done].
Qed.
Lemma filter_all {A} (P : A -> Prop) `{!forall x, Decision (P x)} (l : list A) : Forall P l -> filter P l = l.
Proof. induction 1 as [|x l Hx _ IH]; [done|]. by rewrite filter_cons, decide_True, IH. Qed.
Lemma sorted_filter {A} (P : A -> Prop) `{!forall x, Decision (P x)} (R : A -> A -> Prop) l :
  StronglySorted R l -> StronglySorted R (filter P l).
Proof.
  induction 1 as [|x l Hs IH Hx]; [constructor|]. rewrite filter_cons. case_decide; [|done]. constructor; [done|].
  rewrite Forall_forall in *. intros y [_ Hy]%list_elem_of_filter. by apply Hx.
Qed.
