(* ===== verification/Types.v ===== *)
(** The data model of src/src/types.rs that the storage layer shares: errors,
    strings, property values, node label sets, node and edge records and the
    write-ahead-log operations. *)

From S2P Require Import Prelude.

(** ** Errors (src/src/error.rs).  The message of a formatted error is the
    constant text of its format string. *)
Inductive EngineError : Type :=
| IoError (msg : string)
| CorruptRecord (msg : string)
| CorruptWal (msg : string)
| SerializationError (msg : string)
| ManifestError (msg : string)
| DatabaseNotFound (msg : string)
| DatabaseClosed
| TxnConflict (msg : string)
| TxnClosed
| InvalidOperation (msg : string)
| InvalidCursor (msg : string)
| CompactionCancelled
| WalSyncFailed (msg : string).

Abbreviation res := (result EngineError).

(** ** UTF-8, as [String::from_utf8] and [str::chars] read it *)
Definition cont (b : Z) : bool := (128 <=? b) && (b <=? 191).

Definition utf8_next (l : list byte) : option (Z * list byte) :=
  match l with
  | [] => None
  | b0 :: l =>
      let x := b2z b0 in
      if x <? 128 then Some (x, l)
      else if (194 <=? x) && (x <=? 223) then
        match l with
        | b1 :: l => if cont (b2z b1) then Some ((x - 192) * 64 + (b2z b1 - 128), l) else None
        | _ => None
        end
      else if (224 <=? x) && (x <=? 239) then
        match l with
        | b1 :: b2 :: l =>
            let y := b2z b1 in
            if cont y && cont (b2z b2)
               && (if x =? 224 then 160 <=? y else true)
               && (if x =? 237 then y <=? 159 else true)
            then Some ((x - 224) * 4096 + (y - 128) * 64 + (b2z b2 - 128), l) else None
        | _ => None
        end
      else if (240 <=? x) && (x <=? 244) then
        match l with
        | b1 :: b2 :: b3 :: l =>
            let y := b2z b1 in
            if cont y && cont (b2z b2) && cont (b2z b3)
               && (if x =? 240 then 144 <=? y else true)
               && (if x =? 244 then y <=? 143 else true)
            then Some ((x - 240) * 262144 + (y - 128) * 4096
                       + (b2z b2 - 128) * 64 + (b2z b3 - 128), l) else None
        | _ => None
        end
      else None
  end.

Fixpoint utf8_chars_fuel (fuel : nat) (l : list byte) : option (list Z) :=
  match l, fuel with
  | [], _ => Some []
  | _, O => None
  | _, S fuel =>
      match utf8_next l with
      | Some (c, l) => cons c <$> utf8_chars_fuel fuel l
      | None => None
      end
  end.
(** Each character takes at least one byte, so [length l] steps suffice. *)
Definition utf8_chars (l : list byte) : option (list Z) := utf8_chars_fuel (length l) l.
Definition utf8_valid (l : list byte) : bool :=
  match utf8_chars l with Some _ => true | None => false end.

(** A Rust [String] is a byte string for which [utf8_valid] holds. *)
Abbreviation str := (list byte).
Definition str_of (s : string) : str := String.list_byte_of_string s.
Definition chars (s : str) : list Z := default [] (utf8_chars s).

(** [char::is_whitespace]: Unicode White_Space. *)
Definition is_whitespace (c : Z) : bool :=
  ((9 <=? c) && (c <=? 13)) || (c =? 32) || (c =? 133) || (c =? 160) || (c =? 5760)
  || ((8192 <=? c) && (c <=? 8202)) || (c =? 8232) || (c =? 8233) || (c =? 8239)
  || (c =? 8287) || (c =? 12288).
Definition is_ascii_control (c : Z) : bool := (c <? 32) || (c =? 127).

Fixpoint trim_start (p : Z -> bool) (l : list Z) : list Z :=
  match l with [] => [] | c :: l' => if p c then trim_start p l' else l end.
Definition trim_matches (p : Z -> bool) (l : list Z) : list Z :=
  reverse (trim_start p (reverse (trim_start p l))).

Definition MAX_NODE_LABELS_PER_NODE : nat := 10.

Definition validate_label_token_name (name : str) : res unit :=
  if decide (name = []) then Err (InvalidOperation "label token name must not be empty")
  else if 255 <? len name then
    Err (InvalidOperation "label token name must be at most 255 UTF-8 bytes")
  else if negb (length (trim_matches is_whitespace (chars name)) =? length (chars name))%nat then
    Err (InvalidOperation "label token name must not contain leading or trailing whitespace")
  else if existsb (fun ch => (ch =? 0) || ((ch <? 128) && is_ascii_control ch)) (chars name) then
    Err (InvalidOperation "label token name must not contain ASCII control characters or NUL")
  else Ok tt.

(** ** Property values.  An [f64] is its 64-bit pattern, an [f32] its 32-bit
    pattern; a map is kept in ascending key order like the [BTreeMap]. *)
Inductive PropValue : Type :=
| PNull
| PBool (b : bool)
| PInt (z : Z)
| PUInt (z : Z)
| PFloat (bits : Z)
| PString (s : str)
| PBytes (b : list byte)
| PArray (l : list PropValue)
| PMap (m : list (str * PropValue)).

Abbreviation props := (btree PropValue).

(** Induction through arrays and maps. *)
Section PropValueInd.
Variable P : PropValue -> Prop.
Hypotheses (Hnull : P PNull) (Hbool : forall b, P (PBool b)) (Hint : forall z, P (PInt z))
  (Huint : forall z, P (PUInt z)) (Hfloat : forall z, P (PFloat z))
  (Hstring : forall s, P (PString s)) (Hbytes : forall b, P (PBytes b))
  (Harray : forall l, Forall P l -> P (PArray l))
  (Hmap : forall m, Forall (fun kv => P (snd kv)) m -> P (PMap m)).

Fixpoint PropValue_nested_ind (v : PropValue) : P v :=
  match v with
  | PNull => Hnull
  | PBool b => Hbool b
  | PInt z => Hint z
  | PUInt z => Huint z
  | PFloat z => Hfloat z
  | PString s => Hstring s
  | PBytes b => Hbytes b
  | PArray l =>
      Harray l ((fix all l : Forall P l :=
        match l with
        | [] => Forall_nil_2 P
        | x :: l => Forall_cons_2 P x l (PropValue_nested_ind x) (all l)
        end) l)
  | PMap m =>
      Hmap m ((fix all m : Forall (fun kv => P (snd kv)) m :=
        match m with
        | [] => Forall_nil_2 _
        | kv :: m => Forall_cons_2 _ kv m (PropValue_nested_ind (snd kv)) (all m)
        end) m)
  end.
End PropValueInd.

(** ** FNV-1a, 64 bit *)
Definition fnv1a (bytes : list byte) : Z :=
  foldl (fun hash b => (Z.lxor hash (b2z b) * 0x100000001b3) mod 2 ^ 64)
    0xcbf29ce484222325 bytes.
Definition hash_prop_key (key : str) : Z := fnv1a key.

(** ** Node label sets: a count and a fixed array of ten slots, unused slots 0. *)
Record NodeLabelSet : Type := mkNodeLabelSet {
  nls_count : Z;
  nls_label_ids : list Z
}.

Module NodeLabels.

(** The array filled from the front. *)
Definition pad (ids : list Z) : list Z :=
  ids ++ replicate (MAX_NODE_LABELS_PER_NODE - length ids) 0.

(** The loop of [from_sorted_prefix] over the first [count] slots. *)
Fixpoint check_sorted_prefix (prev : option Z) (ids : list Z) : res unit :=
  match ids with
  | [] => Ok tt
  | x :: ids =>
      if x =? 0 then Err (InvalidOperation "node label token ID 0 is reserved")
      else if decide (prev = Some x) then
        Err (InvalidOperation "node label set contains duplicate label ID")
      else check_sorted_prefix (Some x) ids
  end.

Definition from_sorted_prefix (label_ids : list Z) (count : nat) : res NodeLabelSet :=
  _ ← check_sorted_prefix None (take count label_ids);
  Ok (mkNodeLabelSet (to_bits 8 (Z.of_nat count)) label_ids).

(** The collecting loop of [from_label_ids]. *)
Fixpoint collect_ids (acc label_ids : list Z) : res (list Z) :=
  match label_ids with
  | [] => Ok acc
  | x :: label_ids =>
      if (length acc =? MAX_NODE_LABELS_PER_NODE)%nat then
        Err (InvalidOperation "node label set must contain at most 10 labels")
      else collect_ids (acc ++ [x]) label_ids
  end.

Definition from_label_ids (label_ids : list Z) : res NodeLabelSet :=
  ids ← collect_ids [] label_ids;
  if (length ids =? 0)%nat then
    Err (InvalidOperation "node label set must contain at least one label")
  else from_sorted_prefix (pad (merge_sort Z.le ids)) (length ids).

(** The loop of [from_canonical_ids]. *)
Fixpoint check_canonical (prev : option Z) (ids : list Z) : res unit :=
  match ids with
  | [] => Ok tt
  | x :: ids =>
      if x =? 0 then Err (InvalidOperation "node label token ID 0 is reserved")
      else match prev with
           | Some p =>
               if x <=? p then
                 Err (InvalidOperation "node label IDs must be sorted ascending and unique")
               else check_canonical (Some x) ids
           | None => check_canonical (Some x) ids
           end
  end.

Definition from_canonical_ids (label_ids : list Z) : res NodeLabelSet :=
  if (length label_ids =? 0)%nat then
    Err (InvalidOperation "node label set must contain at least one label")
  else if (MAX_NODE_LABELS_PER_NODE <? length label_ids)%nat then
    Err (InvalidOperation "node label set must contain at most 10 labels")
  else
    _ ← check_canonical None label_ids;
    Ok (mkNodeLabelSet (to_bits 8 (len label_ids)) (pad label_ids)).

Definition single (label_id : Z) : res NodeLabelSet := from_canonical_ids [label_id].

Definition as_slice (s : NodeLabelSet) : list Z := take (Z.to_nat (nls_count s)) (nls_label_ids s).
Definition contains (s : NodeLabelSet) (label_id : Z) : bool :=
  bool_decide (is_Some (binary_search label_id (as_slice s))).
Definition contains_all (s required : NodeLabelSet) : bool :=
  forallb (contains s) (as_slice required).
Definition contains_any (s candidates : NodeLabelSet) : bool :=
  existsb (contains s) (as_slice candidates).
Definition require_single_label_id (s : NodeLabelSet) : res Z :=
  if nls_count s =? 1 then Ok (nth 0 (as_slice s) 0)
  else Err (InvalidOperation "currently supports exactly one node label").

(** The canonical set with a given ascending slice, and well-formedness. *)
Definition mk (ids : list Z) : NodeLabelSet := mkNodeLabelSet (len ids) (pad ids).
Definition canonical (ids : list Z) : Prop :=
  ids ≠ [] /\ (length ids <= MAX_NODE_LABELS_PER_NODE)%nat /\ ascending ids /\ 0 ∉ ids.
Definition wf (s : NodeLabelSet) : Prop :=
  exists ids, s = mk ids /\ canonical ids.

Lemma as_slice_mk ids : as_slice (mk ids) = ids.
Proof. unfold as_slice, mk, pad. cbn. by rewrite Nat2Z.id, take_app_length. Qed.

Lemma mk_inj a b : mk a = mk b -> a = b.
Proof. intros H. by rewrite <- (as_slice_mk a), H, as_slice_mk. Qed.

Lemma pad_take ids n : length ids = n -> take n (pad ids) = ids.
Proof. intros <-. unfold pad. by rewrite take_app_length. Qed.

Lemma collect_ids_spec acc ids :
  (length acc <= MAX_NODE_LABELS_PER_NODE)%nat ->
  collect_ids acc ids =
    if decide (length acc + length ids <= MAX_NODE_LABELS_PER_NODE)%nat then Ok (acc ++ ids)
    else Err (InvalidOperation "node label set must contain at most 10 labels").
Proof.
  revert acc. induction ids as [|x ids IH]; intros acc Ha; cbn [collect_ids length].
  - rewrite app_nil_r. case_decide; [done | lia].
  - destruct (Nat.eqb_spec (length acc) MAX_NODE_LABELS_PER_NODE).
    + case_decide; [lia | done].
    + rewrite IH by (rewrite length_app; cbn; lia). rewrite length_app, <- app_assoc. cbn.
      repeat case_decide; try done; lia.
Qed.

(** On sorted input the duplicate check is exactly strictness. *)
Lemma check_sorted_prefix_spec prev ids :
  StronglySorted Z.le (option_list prev ++ ids) ->
  is_ok (check_sorted_prefix prev ids) = true <->
  (0 ∉ ids /\ ascending (option_list prev ++ ids)).
Proof.
  revert prev. induction ids as [|x ids IH]; intros prev Hs; cbn.
  - rewrite app_nil_r. split; [intros _ | done]. split; [set_solver|].
    destruct prev; cbn; repeat constructor.
  - destruct (Z.eqb_spec x 0) as [->|Hx].
    { split; [done | intros [H _]; set_solver]. }
    assert (StronglySorted Z.le (x :: ids)) as Hs'.
    { destruct prev; cbn in Hs; [by apply StronglySorted_inv in Hs as [? _] | done]. }
    case_decide as Hp.
    { subst prev. split; [done|]. intros [_ Ha]. cbn in Ha.
      apply StronglySorted_inv in Ha as [_ Ha]. apply Forall_inv in Ha. lia. }
    rewrite (IH (Some x)) by done. cbn. split; intros [H0 Ha]; split.
    + set_solver.
    + destruct prev as [p|]; cbn in *; [|done]. constructor; [done|].
      apply StronglySorted_inv in Hs as [_ Hall].
      apply StronglySorted_inv in Ha as [_ Ha'].
      pose proof (Forall_inv Hall). assert (p ≠ x) by congruence.
      constructor; [lia|]. eapply Forall_impl; [done|]. intros; cbn in *. lia.
    + set_solver.
    + destruct prev; cbn in *; [by apply StronglySorted_inv in Ha as [? _] | done].
Qed.

Lemma ascending_StronglySorted_le ids : ascending ids -> StronglySorted Z.le ids.
Proof.
  induction 1 as [|x l Hl IH Hx]; constructor; [done|].
  eapply Forall_impl; [done|]. intros; cbn in *; lia.
Qed.
Lemma ascending_NoDup ids : ascending ids -> NoDup ids.
Proof.
  induction 1 as [|x l Hl IH Hx]; constructor; [|done].
  rewrite Forall_forall in Hx. intros Hin. specialize (Hx _ Hin). lia.
Qed.
Lemma sorted_NoDup_ascending ids : StronglySorted Z.le ids -> NoDup ids -> ascending ids.
Proof.
  induction 1 as [|x l Hl IH Hx]; intros Hn; [constructor|].
  apply NoDup_cons in Hn as [Hxl Hn]. constructor; [by apply IH|].
  apply Forall_forall. intros y Hy. rewrite Forall_forall in Hx.
  specialize (Hx _ Hy). assert (x ≠ y) by congruence. lia.
Qed.

Lemma merge_sort_ascending ids : NoDup ids -> ascending (merge_sort Z.le ids).
Proof.
  intros Hn. apply sorted_NoDup_ascending; [apply StronglySorted_merge_sort; apply _|].
  by rewrite merge_sort_Permutation.
Qed.

Lemma canonical_mk_eq ids :
  (length ids <= MAX_NODE_LABELS_PER_NODE)%nat ->
  mkNodeLabelSet (to_bits 8 (len ids)) (pad ids) = mk ids.
Proof.
  unfold mk, to_bits, MAX_NODE_LABELS_PER_NODE. intros H. f_equal. apply Z.mod_small. lia.
Qed.

Lemma from_label_ids_Ok ids s :
  from_label_ids ids = Ok s <->
  ids ≠ [] /\ (length ids <= MAX_NODE_LABELS_PER_NODE)%nat /\ 0 ∉ ids /\ NoDup ids
  /\ s = mk (merge_sort Z.le ids).
Proof.
  unfold from_label_ids. rewrite collect_ids_spec by (cbn; lia). cbn [length app Nat.add].
  case_decide as Hl; cbn; [|split; [done | intros (_ & ? & _); lia]].
  destruct (Nat.eqb_spec (length ids) 0) as [E|E].
  { apply nil_length_inv in E as ->. split; [done | intros (? & _); done]. }
  assert (ids ≠ []) by (intros ->; done).
  set (srt := merge_sort Z.le ids).
  assert (srt ≡ₚ ids) as HP by apply merge_sort_Permutation.
  assert (length srt = length ids) as HL by (by rewrite HP).
  unfold from_sorted_prefix. rewrite (pad_take srt) by done.
  pose proof (check_sorted_prefix_spec None srt) as HC. cbn in HC.
  specialize (HC (StronglySorted_merge_sort _ ids)). rewrite <- HL.
  destruct (check_sorted_prefix None srt) as [[]|e] eqn:EC; cbn in *.
  - destruct HC as [[H0 Ha] _]; [done|].
    rewrite canonical_mk_eq by lia. split.
    + intros [= <-]. split_and!; [done | lia | by rewrite <- HP | rewrite <- HP; by apply ascending_NoDup | done].
    + by intros (_ & _ & _ & _ & ->).
  - split; [done|]. intros (_ & _ & H0 & Hn & _). destruct HC as [_ HC].
    discriminate HC. split; [by rewrite HP | by apply merge_sort_ascending].
Qed.

Lemma check_canonical_Ok prev ids :
  check_canonical prev ids = Ok tt <->
  0 ∉ ids /\ ascending ids /\ (forall p, prev = Some p -> Forall (Z.lt p) ids).
Proof.
  revert prev. induction ids as [|x ids IH]; intros prev; cbn.
  { split; [|done]. intros _. repeat split; [set_solver | constructor | by constructor]. }
  destruct (Z.eqb_spec x 0) as [->|Hx]; [split; [done | intros [? _]; set_solver]|].
  assert (check_canonical (Some x) ids = Ok tt <-> 0 ∉ x :: ids /\ ascending (x :: ids)) as Hs.
  { rewrite IH. split.
    - intros (? & ? & Hp). split; [set_solver|]. constructor; auto.
    - intros [? Ha]. apply StronglySorted_inv in Ha as [? ?].
      repeat split; [set_solver | done | by intros ? [= ->]]. }
  destruct prev as [p|]; [|rewrite Hs; naive_solver].
  destruct (Z.leb_spec x p).
  - split; [done|]. intros (_ & _ & Hp). specialize (Hp p eq_refl).
    apply Forall_inv in Hp. lia.
  - rewrite Hs. split; [|naive_solver]. intros [? Ha]. repeat split; try done.
    intros ? [= <-]. constructor; [done|]. apply StronglySorted_inv in Ha as [_ Ha].
    eapply Forall_impl; [done|]. intros; cbn in *; lia.
Qed.

Lemma from_canonical_ids_Ok ids s :
  from_canonical_ids ids = Ok s <-> canonical ids /\ s = mk ids.
Proof.
  unfold from_canonical_ids, canonical.
  destruct (Nat.eqb_spec (length ids) 0) as [E|E].
  { apply nil_length_inv in E as ->. split; [done | by intros [[? _] _]]. }
  assert (ids ≠ []) as Hne by (intros ->; done).
  destruct (Nat.ltb_spec MAX_NODE_LABELS_PER_NODE (length ids)).
  { split; [done | intros [(_ & Hl & _) _]; lia]. }
  pose proof (check_canonical_Ok None ids) as HC.
  rewrite canonical_mk_eq by lia.
  destruct (check_canonical None ids) as [[]|e]; cbn.
  - destruct HC as [(? & ? & _) _]; [done|]. split; [by intros [= <-] | by intros [_ ->]].
  - split; [done|]. intros [(_ & _ & Ha & Hz) _]. destruct HC as [_ HC].
    discriminate HC. by split_and!.
Qed.

Lemma wf_from_label_ids ids s : from_label_ids ids = Ok s -> wf s.
Proof.
  intros (Hne & Hl & H0 & Hn & ->)%from_label_ids_Ok. exists (merge_sort Z.le ids).
  split; [done|]. pose proof (merge_sort_Permutation Z.le ids) as HP.
  repeat split; [|by rewrite HP | by apply merge_sort_ascending | by rewrite HP].
  intros E. rewrite E in HP. by apply Permutation_nil_l in HP.
Qed.

Lemma contains_spec s x : wf s -> contains s x = true <-> x ∈ as_slice s.
Proof.
  intros (ids & -> & _ & _ & Ha & _). unfold contains.
  rewrite bool_decide_eq_true, as_slice_mk. by apply binary_search_spec.
Qed.

Lemma wf_as_slice_inj s t : wf s -> wf t -> as_slice s = as_slice t -> s = t.
Proof. intros (a & -> & _) (b & -> & _). rewrite !as_slice_mk. by intros ->. Qed.
End NodeLabels.

(** ** Records *)
Record NodeRecord : Type := mkNodeRecord {
  nr_id : Z;
  nr_label_ids : NodeLabelSet;
  nr_key : str;
  nr_props : props;
  nr_created_at : Z;
  nr_updated_at : Z;
  nr_weight : Z;
  nr_dense_vector : option (list Z);
  nr_sparse_vector : option (list (Z * Z));
  nr_last_write_seq : Z
}.

Record EdgeRecord : Type := mkEdgeRecord {
  er_id : Z;
  er_from : Z;
  er_to : Z;
  er_label_id : Z;
  er_props : props;
  er_created_at : Z;
  er_updated_at : Z;
  er_weight : Z;
  er_valid_from : Z;
  er_valid_to : Z;
  er_last_write_seq : Z
}.

Record TombstoneEntry : Type := mkTombstoneEntry {
  ts_deleted_at : Z;
  ts_last_write_seq : Z
}.

(** ** Write-ahead-log operations and their tags *)
Inductive WalOp : Type :=
| UpsertNode (node : NodeRecord)
| UpsertEdge (edge : EdgeRecord)
| DeleteNode (id deleted_at : Z)
| DeleteEdge (id deleted_at : Z)
| EnsureNodeLabel (label : str) (label_id : Z)
| EnsureEdgeLabel (label : str) (label_id : Z)
| BeginAtomicBatch (first_seq op_count : Z)
| CommitAtomicBatch (first_seq op_count : Z).

Inductive OpTag : Type :=
| TagUpsertNode | TagUpsertEdge | TagDeleteNode | TagDeleteEdge
| TagEnsureNodeLabel | TagEnsureEdgeLabel | TagBeginAtomicBatch | TagCommitAtomicBatch.

Definition OpTag_as_u8 (t : OpTag) : Z :=
  match t with
  | TagUpsertNode => 1 | TagUpsertEdge => 2 | TagDeleteNode => 3 | TagDeleteEdge => 4
  | TagEnsureNodeLabel => 5 | TagEnsureEdgeLabel => 6
  | TagBeginAtomicBatch => 7 | TagCommitAtomicBatch => 8
  end.

Definition OpTag_from_u8 (v : Z) : option OpTag :=
  match v with
  | 1 => Some TagUpsertNode
  | 2 => Some TagUpsertEdge
  | 3 => Some TagDeleteNode
  | 4 => Some TagDeleteEdge
  | 5 => Some TagEnsureNodeLabel
  | 6 => Some TagEnsureEdgeLabel
  | 7 => Some TagBeginAtomicBatch
  | 8 => Some TagCommitAtomicBatch
  | _ => None
  end.

Lemma OpTag_roundtrip t : OpTag_from_u8 (OpTag_as_u8 t) = Some t.
Proof. by destruct t. Qed.

#[export] Instance OpTag_eq_dec : EqDecision OpTag.
Proof. solve_decision. Defined.

(** ** Secondary index declarations *)
Inductive SecondaryIndexKind : Type := Equality | Range.
Inductive NodeMetadataIndexField : Type := NId | NKey | NWeight | NCreatedAt | NUpdatedAt.
Inductive EdgeMetadataIndexField : Type :=
| EId | EFrom | ETo | EWeight | ECreatedAt | EUpdatedAt | EValidFrom | EValidTo.
Inductive SecondaryIndexFieldManifest : Type :=
| Property (key : str)
| NodeMetadata (field : NodeMetadataIndexField)
| EdgeMetadata (field : EdgeMetadataIndexField).

Inductive SecondaryIndexTarget : Type :=
| NodeProperty (label_id : Z) (prop_key : str)
| EdgeProperty (label_id : Z) (prop_key : str)
| NodeFieldIndex (label_id : Z) (fields : list SecondaryIndexFieldManifest)
| EdgeFieldIndex (label_id : Z) (fields : list SecondaryIndexFieldManifest).

Inductive SecondaryIndexState : Type := Building | Ready | Failed.

Record SecondaryIndexManifestEntry : Type := mkIndexEntry {
  ie_index_id : Z;
  ie_target : SecondaryIndexTarget;
  ie_kind : SecondaryIndexKind;
  ie_state : SecondaryIndexState;
  ie_last_error : option str
}.

Definition node_metadata_index_field_name (f : NodeMetadataIndexField) : str :=
  str_of match f with
  | NId => "id" | NKey => "key" | NWeight => "weight"
  | NCreatedAt => "created_at" | NUpdatedAt => "updated_at"
  end.
Definition edge_metadata_index_field_name (f : EdgeMetadataIndexField) : str :=
  str_of match f with
  | EId => "id" | EFrom => "from" | ETo => "to" | EWeight => "weight"
  | ECreatedAt => "created_at" | EUpdatedAt => "updated_at"
  | EValidFrom => "valid_from" | EValidTo => "valid_to"
  end.
