(* ===== verification/Encoding.v ===== *)
(** The write-ahead-log payload codec of src/src/encoding.rs: a writer appends
    to a byte buffer, a reader consumes the front of a byte slice (the cursor
    is the unread rest).  MessagePack (the crate rmp_serde) is not part of the
    repository and enters as an interface. *)
From S2P Require Import Prelude Types.

(** rmp_serde's encoder and decoder on the property maps. *)
Class RmpSerde : Type := {
  rmp_to_vec : props -> option (list byte);
  rmp_from_slice : list byte -> option props
}.

(** What the code relies on: a map that was encoded decodes to itself. *)
Class RmpSerdeLaws `{RmpSerde} : Prop := {
  rmp_roundtrip p bs : rmp_to_vec p = Some bs -> rmp_from_slice bs = Some p
}.

Definition reader (A : Type) : Type := list byte -> res (A * list byte).

(** ** Write helpers *)
Definition write_u8 (v : Z) : list byte := le_bytes 1 v.
Definition write_u16 (v : Z) : list byte := le_bytes 2 v.
Definition write_u32 (v : Z) : list byte := le_bytes 4 v.
Definition write_u64 (v : Z) : list byte := le_bytes 8 v.
Definition write_i64 (v : Z) : list byte := le_bytes 8 (to_bits 64 v).
Definition write_f32 (bits : Z) : list byte := le_bytes 4 bits.
Definition write_sparse_vector_entry (e : Z * Z) : list byte := write_u32 (fst e) ++ write_f32 (snd e).

Definition MAX_BYTES_LEN : Z := 64 * 1024 * 1024.

Definition write_bytes (data : list byte) : res (list byte) :=
  if MAX_BYTES_LEN <? len data then Err (SerializationError "bytes payload too large")
  else Ok (write_u32 (len data) ++ data).

Definition write_str (s : str) : res (list byte) :=
  if 65535 <? len s then Err (SerializationError "string too long")
  else Ok (write_u16 (len s) ++ s).

Arguments write_u8 _ : simpl never.
Arguments write_u16 _ : simpl never.
Arguments write_u32 _ : simpl never.
Arguments write_u64 _ : simpl never.
Arguments write_i64 _ : simpl never.
Arguments write_f32 _ : simpl never.

(** ** Read helpers *)
Definition read_exact (n : nat) (what : string) : reader (list byte) := fun bs =>
  match split_at n bs with
  | Some r => Ok r
  | None => Err (CorruptRecord ("unexpected EOF reading " +:+ what))
  end.

Definition read_le (n : nat) (what : string) : reader Z := fun bs =>
  '(buf, bs) ← read_exact n what bs; Ok (le_val buf, bs).

Definition read_u8 : reader Z := read_le 1 "u8".
Definition read_u16 : reader Z := read_le 2 "u16".
Definition read_u32 : reader Z := read_le 4 "u32".
Definition read_u64 : reader Z := read_le 8 "u64".
Definition read_i64 : reader Z := fun bs =>
  '(z, bs) ← read_le 8 "i64" bs; Ok (of_bits 64 z, bs).
Definition read_f32 : reader Z := read_le 4 "f32".

Definition read_bytes : reader (list byte) := fun bs =>
  '(n, bs) ← read_u32 bs;
  if MAX_BYTES_LEN <? n then Err (CorruptRecord "bytes payload too large")
  else read_exact (Z.to_nat n) "bytes" bs.

Definition read_str : reader str := fun bs =>
  '(n, bs) ← read_u16 bs;
  '(buf, bs) ← read_exact (Z.to_nat n) "string" bs;
  if utf8_valid buf then Ok (buf, bs) else Err (CorruptRecord "invalid UTF-8 in string").

(** The label loop of [read_node_label_set]: [n] more ids, each above the last. *)
Fixpoint read_label_ids (n : nat) (prev : option Z) : reader (list Z) := fun bs =>
  match n with
  | O => Ok ([], bs)
  | S n =>
      '(x, bs) ← read_u32 bs;
      if match prev with Some p => x <=? p | None => false end then
        Err (CorruptRecord "node WAL label IDs must be sorted ascending and unique")
      else
        '(xs, bs) ← read_label_ids n (Some x) bs; Ok (x :: xs, bs)
  end.

Definition read_node_label_set : reader NodeLabelSet := fun bs =>
  '(count, bs) ← read_u8 bs;
  if count =? 0 then Err (CorruptRecord "node WAL label_count must be at least 1")
  else if Z.of_nat MAX_NODE_LABELS_PER_NODE <? count then
    Err (CorruptRecord "node WAL label_count exceeds maximum")
  else
    '(ids, bs) ← read_label_ids (Z.to_nat count) None bs;
    match NodeLabels.from_canonical_ids ids with
    | Ok s => Ok (s, bs)
    | Err _ => Err (CorruptRecord "invalid node WAL label set")
    end.

Fixpoint read_many {A} (n : nat) (r : reader A) : reader (list A) := fun bs =>
  match n with
  | O => Ok ([], bs)
  | S n => '(x, bs) ← r bs; '(xs, bs) ← read_many n r bs; Ok (x :: xs, bs)
  end.

Definition read_sparse_entry : reader (Z * Z) := fun bs =>
  '(dimension_id, bs) ← read_u32 bs;
  '(weight, bs) ← read_f32 bs;
  Ok ((dimension_id, weight), bs).

(** The two vector branches of a node payload, taken when their flag is set. *)
Definition read_dense_if (present : bool) : reader (option (list Z)) := fun bs =>
  if present then
    '(n, bs) ← read_u32 bs;
    '(values, bs) ← read_many (Z.to_nat n) read_f32 bs;
    Ok (Some values, bs)
  else Ok (None, bs).
Definition read_sparse_if (present : bool) : reader (option (list (Z * Z))) := fun bs =>
  if present then
    '(n, bs) ← read_u32 bs;
    '(values, bs) ← read_many (Z.to_nat n) read_sparse_entry bs;
    Ok (Some values, bs)
  else Ok (None, bs).

Definition reject_trailing_bytes (bs : list byte) : res unit :=
  if (length bs =? 0)%nat then Ok tt else Err (CorruptRecord "unexpected trailing bytes").

Definition encode_dense (d : option (list Z)) : list byte :=
  match d with Some d => write_u32 (len d) ++ mjoin (write_f32 <$> d) | None => [] end.
Definition encode_sparse (d : option (list (Z * Z))) : list byte :=
  match d with
  | Some d => write_u32 (len d) ++ mjoin (write_sparse_vector_entry <$> d)
  | None => []
  end.
Definition vector_flags (node : NodeRecord) : Z :=
  Z.lor (match nr_dense_vector node with Some _ => 1 | None => 0 end)
        (match nr_sparse_vector node with Some _ => 2 | None => 0 end).

(** ** The codec *)
Section Codec.
Context `{RmpSerde}.

Definition encode_props (p : props) : res (list byte) :=
  match rmp_to_vec p with
  | Some bs => write_bytes bs
  | None => Err (SerializationError "rmp_serde")
  end.

Definition encode_node (node : NodeRecord) : res (list byte) :=
  key ← write_str (nr_key node);
  props_bytes ← encode_props (nr_props node);
  Ok (write_u8 (OpTag_as_u8 TagUpsertNode)
      ++ write_u64 (nr_id node)
      ++ write_u8 (len (NodeLabels.as_slice (nr_label_ids node)))
      ++ mjoin (write_u32 <$> NodeLabels.as_slice (nr_label_ids node))
      ++ key
      ++ write_i64 (nr_created_at node) ++ write_i64 (nr_updated_at node)
      ++ write_f32 (nr_weight node)
      ++ props_bytes
      ++ write_u8 (vector_flags node)
      ++ encode_dense (nr_dense_vector node)
      ++ encode_sparse (nr_sparse_vector node)).

Definition encode_edge (edge : EdgeRecord) : res (list byte) :=
  props_bytes ← encode_props (er_props edge);
  Ok (write_u8 (OpTag_as_u8 TagUpsertEdge)
      ++ write_u64 (er_id edge) ++ write_u64 (er_from edge) ++ write_u64 (er_to edge)
      ++ write_u32 (er_label_id edge)
      ++ write_i64 (er_created_at edge) ++ write_i64 (er_updated_at edge)
      ++ write_f32 (er_weight edge)
      ++ props_bytes
      ++ write_i64 (er_valid_from edge) ++ write_i64 (er_valid_to edge)).

Definition encode_wal_op (op : WalOp) : res (list byte) :=
  match op with
  | UpsertNode node => encode_node node
  | UpsertEdge edge => encode_edge edge
  | DeleteNode id deleted_at =>
      Ok (write_u8 (OpTag_as_u8 TagDeleteNode) ++ write_u64 id ++ write_i64 deleted_at)
  | DeleteEdge id deleted_at =>
      Ok (write_u8 (OpTag_as_u8 TagDeleteEdge) ++ write_u64 id ++ write_i64 deleted_at)
  | EnsureNodeLabel label label_id =>
      l ← write_str label;
      Ok (write_u8 (OpTag_as_u8 TagEnsureNodeLabel) ++ l ++ write_u32 label_id)
  | EnsureEdgeLabel label label_id =>
      l ← write_str label;
      Ok (write_u8 (OpTag_as_u8 TagEnsureEdgeLabel) ++ l ++ write_u32 label_id)
  | BeginAtomicBatch first_seq op_count =>
      Ok (write_u8 (OpTag_as_u8 TagBeginAtomicBatch) ++ write_u64 first_seq ++ write_u32 op_count)
  | CommitAtomicBatch first_seq op_count =>
      Ok (write_u8 (OpTag_as_u8 TagCommitAtomicBatch) ++ write_u64 first_seq ++ write_u32 op_count)
  end.

Definition decode_props : reader props := fun bs =>
  '(props_bytes, bs) ← read_bytes bs;
  match rmp_from_slice props_bytes with
  | Some p => Ok (p, bs)
  | None => Err (SerializationError "rmp_serde")
  end.

(** The optional vector tail of a node payload: absent, or flags and vectors
    up to the end of the payload. *)
Definition decode_vectors (bs : list byte)
    : res (option (list Z) * option (list (Z * Z))) :=
  if (length bs =? 0)%nat then Ok (None, None)
  else
    '(flags, bs) ← read_u8 bs;
    if negb (Z.ldiff flags 3 =? 0) then
      Err (CorruptRecord "invalid vector flags on node WAL op")
    else
      '(dense, bs) ← read_dense_if (negb (Z.land flags 1 =? 0)) bs;
      '(sparse, bs) ← read_sparse_if (negb (Z.land flags 2 =? 0)) bs;
      _ ← reject_trailing_bytes bs;
      Ok (dense, sparse).

Definition decode_node (bs : list byte) : res WalOp :=
  '(id, bs) ← read_u64 bs;
  '(label_ids, bs) ← read_node_label_set bs;
  '(key, bs) ← read_str bs;
  '(created_at, bs) ← read_i64 bs;
  '(updated_at, bs) ← read_i64 bs;
  '(weight, bs) ← read_f32 bs;
  '(p, bs) ← decode_props bs;
  '(dense, sparse) ← decode_vectors bs;
  Ok (UpsertNode (mkNodeRecord id label_ids key p created_at updated_at weight dense sparse 0)).

Definition decode_edge (bs : list byte) : res WalOp :=
  '(id, bs) ← read_u64 bs;
  '(from, bs) ← read_u64 bs;
  '(to, bs) ← read_u64 bs;
  '(label_id, bs) ← read_u32 bs;
  '(created_at, bs) ← read_i64 bs;
  '(updated_at, bs) ← read_i64 bs;
  '(weight, bs) ← read_f32 bs;
  '(p, bs) ← decode_props bs;
  '(valid_from, bs) ← read_i64 bs;
  '(valid_to, bs) ← read_i64 bs;
  _ ← reject_trailing_bytes bs;
  Ok (UpsertEdge (mkEdgeRecord id from to label_id p created_at updated_at weight
                    valid_from valid_to 0)).

(** The payloads made of two fixed or string fields. *)
Definition decode_pair {A} (r : reader A) (s : reader Z) (mk : A -> Z -> WalOp)
    (bs : list byte) : res WalOp :=
  '(a, bs) ← r bs;
  '(b, bs) ← s bs;
  _ ← reject_trailing_bytes bs;
  Ok (mk a b).

Definition decode_wal_op (data : list byte) : res WalOp :=
  '(op_tag, bs) ← read_u8 data;
  match OpTag_from_u8 op_tag with
  | Some TagUpsertNode => decode_node bs
  | Some TagUpsertEdge => decode_edge bs
  | Some TagDeleteNode => decode_pair read_u64 read_i64 DeleteNode bs
  | Some TagDeleteEdge => decode_pair read_u64 read_i64 DeleteEdge bs
  | Some TagEnsureNodeLabel => decode_pair read_str read_u32 EnsureNodeLabel bs
  | Some TagEnsureEdgeLabel => decode_pair read_str read_u32 EnsureEdgeLabel bs
  | Some TagBeginAtomicBatch => decode_pair read_u64 read_u32 BeginAtomicBatch bs
  | Some TagCommitAtomicBatch => decode_pair read_u64 read_u32 CommitAtomicBatch bs
  | None => Err (CorruptRecord "unknown op tag")
  end.
End Codec.

(** ** Reading back what was written *)
Definition reads {A} (r : reader A) (x : A) (bs : list byte) : Prop :=
  forall rest, r (bs ++ rest) = Ok (x, rest).

Lemma reads_bind {A B} (r : reader A) x bs rest (k : A * list byte -> res B) :
  reads r x bs -> (r (bs ++ rest) ≫= k) = k (x, rest).
Proof. intros H. by rewrite H. Qed.

(** The same at the end of the input. *)
Lemma reads_bind_nil {A B} (r : reader A) x bs (k : A * list byte -> res B) :
  reads r x bs -> (r bs ≫= k) = k (x, []).
Proof. intros H. rewrite <- (app_nil_r bs) at 1. by rewrite H. Qed.

Lemma reads_exact n what bs : length bs = n -> reads (read_exact n what) bs bs.
Proof. intros Hn rest. unfold read_exact. by rewrite split_at_app. Qed.

Lemma reads_le n what z :
  0 <= z < 2 ^ (8 * Z.of_nat n) -> reads (read_le n what) z (le_bytes n z).
Proof.
  intros Hz rest. unfold read_le.
  rewrite (reads_bind _ (le_bytes n z)) by (apply reads_exact, length_le_bytes).
  rewrite le_val_le_bytes, Z.mod_small by done. done.
Qed.

Lemma reads_u8 z : u8 z -> reads read_u8 z (write_u8 z).
Proof. intros Hz. apply (reads_le 1). exact Hz. Qed.
Lemma reads_u16 z : u16 z -> reads read_u16 z (write_u16 z).
Proof. intros Hz. apply (reads_le 2). exact Hz. Qed.
Lemma reads_u32 z : u32 z -> reads read_u32 z (write_u32 z).
Proof. intros Hz. apply (reads_le 4). exact Hz. Qed.
Lemma reads_u64 z : u64 z -> reads read_u64 z (write_u64 z).
Proof. intros Hz. apply (reads_le 8). exact Hz. Qed.
Lemma reads_f32 z : u32 z -> reads read_f32 z (write_f32 z).
Proof. intros Hz. apply (reads_le 4). exact Hz. Qed.
Lemma reads_i64 z : i64 z -> reads read_i64 z (write_i64 z).
Proof.
  intros Hz rest. unfold read_i64, write_i64.
  rewrite (reads_bind _ (to_bits 64 z)) by (apply reads_le, (to_bits_range 64); lia).
  by rewrite of_to_bits_64.
Qed.

Lemma reads_bytes data bs : write_bytes data = Ok bs -> reads read_bytes data bs.
Proof.
  unfold write_bytes, MAX_BYTES_LEN. destruct (Z.ltb_spec (64 * 1024 * 1024) (len data)); [done|].
  intros <-%Ok_inj rest. unfold read_bytes. rewrite <- app_assoc.
  rewrite (reads_bind _ (len data)) by (apply reads_u32; unfold u32; lia).
  unfold MAX_BYTES_LEN. destruct (Z.ltb_spec (64 * 1024 * 1024) (len data)); [lia|].
  rewrite Nat2Z.id. by apply reads_exact.
Qed.

Lemma reads_str s bs : write_str s = Ok bs -> utf8_valid s = true -> reads read_str s bs.
Proof.
  unfold write_str. destruct (Z.ltb_spec 65535 (len s)); [done|]. intros <-%Ok_inj Hu rest.
  unfold read_str. rewrite <- app_assoc.
  rewrite (reads_bind _ (len s)) by (apply reads_u16; unfold u16; lia).
  rewrite Nat2Z.id, (reads_bind _ s) by by apply reads_exact. by rewrite Hu.
Qed.

Lemma reads_label_ids ids prev :
  Forall u32 ids -> ascending ids -> (forall p, prev = Some p -> Forall (Z.lt p) ids) ->
  reads (read_label_ids (length ids) prev) ids (mjoin (write_u32 <$> ids)).
Proof.
  revert prev. induction ids as [|x ids IH]; intros prev Hu Ha Hp rest; [done|].
  apply Forall_cons in Hu as [Hx Hu]. apply StronglySorted_inv in Ha as [Ha Hlt].
  cbn [length read_label_ids fmap list_fmap mjoin list_join]. rewrite <- app_assoc.
  rewrite (reads_bind _ x) by by apply reads_u32.
  assert (match prev with Some p => x <=? p | None => false end = false) as ->.
  { destruct prev as [p|]; [|done]. specialize (Hp p eq_refl). apply Forall_inv in Hp. lia. }
  rewrite (reads_bind _ ids); [done|]. apply IH; [done..|]. by intros p [= ->].
Qed.

Lemma reads_node_label_set s :
  NodeLabels.wf s -> Forall u32 (NodeLabels.as_slice s) ->
  reads read_node_label_set s
    (write_u8 (len (NodeLabels.as_slice s)) ++ mjoin (write_u32 <$> NodeLabels.as_slice s)).
Proof.
  intros (ids & -> & Hc) Hu rest. rewrite NodeLabels.as_slice_mk in *.
  pose proof Hc as (Hne & Hl & Ha & H0). unfold read_node_label_set. rewrite <- app_assoc.
  unfold MAX_NODE_LABELS_PER_NODE in *.
  rewrite (reads_bind _ (len ids)) by (apply reads_u8; unfold u8; lia).
  destruct (Z.eqb_spec (len ids) 0); [destruct ids; [done | cbn in *; lia]|].
  destruct (Z.ltb_spec (Z.of_nat 10) (len ids)); [lia|].
  rewrite Nat2Z.id, (reads_bind _ ids) by by apply reads_label_ids.
  by rewrite (proj2 (NodeLabels.from_canonical_ids_Ok ids _) (conj Hc eq_refl)).
Qed.

Lemma reads_many {A} (r : reader A) (w : A -> list byte) (P : A -> Prop) l :
  (forall x, P x -> reads r x (w x)) -> Forall P l ->
  reads (read_many (length l) r) l (mjoin (w <$> l)).
Proof.
  intros Hr. induction 1 as [|x l Hx _ IH]; intros rest; [done|].
  cbn [length read_many fmap list_fmap mjoin list_join]. rewrite <- app_assoc.
  rewrite (reads_bind _ x) by auto. by rewrite (reads_bind _ l) by done.
Qed.

Lemma reads_sparse_entry e :
  u32 (fst e) /\ u32 (snd e) -> reads read_sparse_entry e (write_sparse_vector_entry e).
Proof.
  destruct e as [d w]. intros [Hd Hw] rest. unfold read_sparse_entry, write_sparse_vector_entry.
  cbn [fst snd] in *. rewrite <- app_assoc.
  rewrite (reads_bind _ d) by by apply reads_u32. by rewrite (reads_bind _ w) by by apply reads_f32.
Qed.

(** ** Well-formed operations: every field in its Rust type's range. *)
Definition dense_wf (d : option (list Z)) : Prop :=
  match d with Some d => Forall u32 d /\ u32 (len d) | None => True end.
Definition sparse_wf (d : option (list (Z * Z))) : Prop :=
  match d with
  | Some d => Forall (fun e => u32 (fst e) /\ u32 (snd e)) d /\ u32 (len d)
  | None => True
  end.

Definition node_wf (n : NodeRecord) : Prop :=
  u64 (nr_id n) /\ NodeLabels.wf (nr_label_ids n)
  /\ Forall u32 (NodeLabels.as_slice (nr_label_ids n)) /\ utf8_valid (nr_key n) = true
  /\ i64 (nr_created_at n) /\ i64 (nr_updated_at n) /\ u32 (nr_weight n)
  /\ dense_wf (nr_dense_vector n) /\ sparse_wf (nr_sparse_vector n).

Definition edge_wf (e : EdgeRecord) : Prop :=
  u64 (er_id e) /\ u64 (er_from e) /\ u64 (er_to e) /\ u32 (er_label_id e)
  /\ i64 (er_created_at e) /\ i64 (er_updated_at e) /\ u32 (er_weight e)
  /\ i64 (er_valid_from e) /\ i64 (er_valid_to e).

Definition op_wf (op : WalOp) : Prop :=
  match op with
  | UpsertNode n => node_wf n
  | UpsertEdge e => edge_wf e
  | DeleteNode id t | DeleteEdge id t => u64 id /\ i64 t
  | EnsureNodeLabel l id | EnsureEdgeLabel l id => utf8_valid l = true /\ u32 id
  | BeginAtomicBatch s n | CommitAtomicBatch s n => u64 s /\ u32 n
  end.

Lemma reads_dense d :
  dense_wf d -> reads (read_dense_if (bool_decide (is_Some d))) d (encode_dense d).
Proof.
  destruct d as [d|]; cbn; [|done]. intros [Hd Hl] rest. unfold read_dense_if, read_sparse_if. rewrite <- app_assoc.
  rewrite (reads_bind _ (len d)) by by apply reads_u32. rewrite Nat2Z.id.
  by rewrite (reads_bind _ d) by by apply (reads_many _ _ u32); [apply reads_f32|].
Qed.
Lemma reads_sparse d :
  sparse_wf d -> reads (read_sparse_if (bool_decide (is_Some d))) d (encode_sparse d).
Proof.
  destruct d as [d|]; cbn; [|done]. intros [Hd Hl] rest. unfold read_dense_if, read_sparse_if. rewrite <- app_assoc.
  rewrite (reads_bind _ (len d)) by by apply reads_u32. rewrite Nat2Z.id.
  rewrite (reads_bind _ d); [done|].
  by apply (reads_many _ _ (fun e => u32 (fst e) /\ u32 (snd e))); [apply reads_sparse_entry|].
Qed.

(** The record's [last_write_seq] is not stored: a decoded record carries 0. *)
Definition forget_seq (op : WalOp) : WalOp :=
  match op with
  | UpsertNode n =>
      UpsertNode (mkNodeRecord (nr_id n) (nr_label_ids n) (nr_key n) (nr_props n)
        (nr_created_at n) (nr_updated_at n) (nr_weight n) (nr_dense_vector n)
        (nr_sparse_vector n) 0)
  | UpsertEdge e =>
      UpsertEdge (mkEdgeRecord (er_id e) (er_from e) (er_to e) (er_label_id e) (er_props e)
        (er_created_at e) (er_updated_at e) (er_weight e) (er_valid_from e) (er_valid_to e) 0)
  | op => op
  end.

Section Roundtrip.
Context `{RmpSerdeLaws}.

Lemma reads_props p bs : encode_props p = Ok bs -> reads decode_props p bs.
Proof.
  unfold encode_props. destruct (rmp_to_vec p) as [pb|] eqn:E; [|done]. intros Hb rest.
  unfold decode_props. rewrite (reads_bind _ pb) by by apply reads_bytes.
  by rewrite (rmp_roundtrip _ _ E).
Qed.

Lemma decode_vectors_encode node :
  dense_wf (nr_dense_vector node) -> sparse_wf (nr_sparse_vector node) ->
  decode_vectors (write_u8 (vector_flags node)
                  ++ encode_dense (nr_dense_vector node)
                  ++ encode_sparse (nr_sparse_vector node))
  = Ok (nr_dense_vector node, nr_sparse_vector node).
Proof.
  intros Hd Hs. unfold decode_vectors. set (fl := vector_flags node).
  assert (0 <= fl < 4 /\ Z.ldiff fl 3 = 0
          /\ negb (Z.land fl 1 =? 0) = bool_decide (is_Some (nr_dense_vector node))
          /\ negb (Z.land fl 2 =? 0) = bool_decide (is_Some (nr_sparse_vector node)))
    as (Hf & F3 & F1 & F2).
  { unfold fl, vector_flags. by destruct (nr_dense_vector node), (nr_sparse_vector node). }
  rewrite length_app. change (length (write_u8 fl)) with 1%nat. cbn [Nat.add Nat.eqb].
  rewrite (reads_bind _ fl) by (apply reads_u8; unfold u8; lia).
  rewrite F3, F1, F2. cbn [Z.eqb negb].
  rewrite (reads_bind _ (nr_dense_vector node)) by by apply reads_dense.
  by rewrite (reads_bind_nil _ (nr_sparse_vector node)) by by apply reads_sparse.
Qed.

Lemma decode_node_encode n bs :
  node_wf n -> encode_node n = Ok bs ->
  exists body, bs = write_u8 (OpTag_as_u8 TagUpsertNode) ++ body
            /\ decode_node body = Ok (forget_seq (UpsertNode n)).
Proof.
  intros (Hid & Hl & Hlu & Hk & Hc & Hu & Hw & Hd & Hs) He. unfold encode_node in He.
  inv_bind He. apply Ok_inj in He as <-. eexists. split; [done|]. unfold decode_node.
  rewrite (reads_bind _ (nr_id n)) by by apply reads_u64.
  rewrite (app_assoc (write_u8 _)).
  rewrite (reads_bind _ (nr_label_ids n)) by by apply reads_node_label_set.
  rewrite (reads_bind _ (nr_key n)) by by apply reads_str.
  rewrite (reads_bind _ (nr_created_at n)) by by apply reads_i64.
  rewrite (reads_bind _ (nr_updated_at n)) by by apply reads_i64.
  rewrite (reads_bind _ (nr_weight n)) by by apply reads_f32.
  rewrite (reads_bind _ (nr_props n)) by by apply reads_props.
  by rewrite decode_vectors_encode.
Qed.

Lemma decode_edge_encode e bs :
  edge_wf e -> encode_edge e = Ok bs ->
  exists body, bs = write_u8 (OpTag_as_u8 TagUpsertEdge) ++ body
            /\ decode_edge body = Ok (forget_seq (UpsertEdge e)).
Proof.
  intros (Hid & Hf & Ht & Hl & Hc & Hu & Hw & Hvf & Hvt) He. unfold encode_edge in He.
  inv_bind He. apply Ok_inj in He as <-. eexists. split; [done|]. unfold decode_edge.
  rewrite (reads_bind _ (er_id e)) by by apply reads_u64.
  rewrite (reads_bind _ (er_from e)) by by apply reads_u64.
  rewrite (reads_bind _ (er_to e)) by by apply reads_u64.
  rewrite (reads_bind _ (er_label_id e)) by by apply reads_u32.
  rewrite (reads_bind _ (er_created_at e)) by by apply reads_i64.
  rewrite (reads_bind _ (er_updated_at e)) by by apply reads_i64.
  rewrite (reads_bind _ (er_weight e)) by by apply reads_f32.
  rewrite (reads_bind _ (er_props e)) by by apply reads_props.
  rewrite (reads_bind _ (er_valid_from e)) by by apply reads_i64.
  by rewrite (reads_bind_nil _ (er_valid_to e)) by by apply reads_i64.
Qed.

Lemma decode_pair_reads {A} (r : reader A) s mk a b x y :
  reads r a x -> reads s b y -> decode_pair r s mk (x ++ y) = Ok (mk a b).
Proof.
  intros Ha Hb. unfold decode_pair. rewrite (reads_bind _ a) by done.
  by rewrite (reads_bind_nil _ b) by done.
Qed.

Lemma decode_wal_op_tag t body :
  decode_wal_op (write_u8 (OpTag_as_u8 t) ++ body) =
  match t with
  | TagUpsertNode => decode_node body
  | TagUpsertEdge => decode_edge body
  | TagDeleteNode => decode_pair read_u64 read_i64 DeleteNode body
  | TagDeleteEdge => decode_pair read_u64 read_i64 DeleteEdge body
  | TagEnsureNodeLabel => decode_pair read_str read_u32 EnsureNodeLabel body
  | TagEnsureEdgeLabel => decode_pair read_str read_u32 EnsureEdgeLabel body
  | TagBeginAtomicBatch => decode_pair read_u64 read_u32 BeginAtomicBatch body
  | TagCommitAtomicBatch => decode_pair read_u64 read_u32 CommitAtomicBatch body
  end.
Proof.
  unfold decode_wal_op. rewrite (reads_bind _ (OpTag_as_u8 t)).
  2:{ apply reads_u8. by destruct t. }
  rewrite OpTag_roundtrip. by destruct t.
Qed.

(** Decoding inverts encoding, up to the unstored [last_write_seq]. *)
Lemma decode_encode op bs :
  op_wf op -> encode_wal_op op = Ok bs -> decode_wal_op bs = Ok (forget_seq op).
Proof.
  destruct op; cbn [op_wf encode_wal_op]; intros Hwf He.
  1: by destruct (decode_node_encode _ _ Hwf He) as (body & -> & Hd); rewrite decode_wal_op_tag.
  1: by destruct (decode_edge_encode _ _ Hwf He) as (body & -> & Hd); rewrite decode_wal_op_tag.
  all: destruct Hwf as [Ha Hb]; inv_bind He; apply Ok_inj in He as <-;
    rewrite decode_wal_op_tag; apply decode_pair_reads;
    auto using reads_u64, reads_i64, reads_u32, reads_str.
Qed.
End Roundtrip.

Section Encodable.
Context `{RmpSerde}.

(** What the encoder accepts. *)
Definition props_encodable (p : props) : Prop :=
  exists pb, rmp_to_vec p = Some pb /\ len pb <= MAX_BYTES_LEN.
Definition encodable (op : WalOp) : Prop :=
  match op with
  | UpsertNode n => len (nr_key n) <= 65535 /\ props_encodable (nr_props n)
  | UpsertEdge e => props_encodable (er_props e)
  | EnsureNodeLabel l _ | EnsureEdgeLabel l _ => len l <= 65535
  | _ => True
  end.

Lemma encode_props_ok p : is_ok (encode_props p) = true <-> props_encodable p.
Proof.
  unfold encode_props, props_encodable, write_bytes.
  destruct (rmp_to_vec p) as [pb|]; [|naive_solver].
  destruct (Z.ltb_spec MAX_BYTES_LEN (len pb)); cbn; split; try done; [naive_solver lia|eauto].
Qed.
Lemma write_str_ok s : is_ok (write_str s) = true <-> len s <= 65535.
Proof. unfold write_str. destruct (Z.ltb_spec 65535 (len s)); cbn; split; (done || lia). Qed.

Lemma encode_ok_iff op : is_ok (encode_wal_op op) = true <-> encodable op.
Proof.
  destruct op; cbn [encode_wal_op encodable]; unfold encode_node, encode_edge; try done.
  all: rewrite <- ?encode_props_ok, <- ?write_str_ok.
  all: repeat match goal with |- context [?m ≫= _] => destruct m; cbn end; naive_solver.
Qed.
End Encodable.

(** ** What a reader can return *)
Definition yields {A} (r : reader A) (P : A -> Prop) : Prop :=
  forall bs x rest, r bs = Ok (x, rest) -> P x.

Lemma yields_bind {A B} (r : reader A) (P : A -> Prop) bs (k : A * list byte -> res B) y :
  yields r P -> (r bs ≫= k) = Ok y -> exists x rest, P x /\ k (x, rest) = Ok y.
Proof. intros Hr ([x rest] & Hx & Hk)%bind_Ok_inv. eauto. Qed.

Lemma read_exact_length n what bs x rest : read_exact n what bs = Ok (x, rest) -> length x = n.
Proof.
  unfold read_exact. destruct (split_at n bs) as [[a b]|] eqn:E; [|done].
  intros [= <- <-]. by apply split_at_Some in E as [_ ?].
Qed.
Lemma yields_le n what : yields (read_le n what) (fun z => 0 <= z < 2 ^ (8 * Z.of_nat n)).
Proof.
  intros bs x rest ([b r] & Hb & Hx)%bind_Ok_inv. apply Ok_inj in Hx as [= <- <-].
  apply read_exact_length in Hb as <-. apply le_val_range.
Qed.
Lemma yields_u8 : yields read_u8 u8. Proof. exact (yields_le 1 _). Qed.
Lemma yields_u32 : yields read_u32 u32. Proof. exact (yields_le 4 _). Qed.
Lemma yields_u64 : yields read_u64 u64. Proof. exact (yields_le 8 _). Qed.
Lemma yields_f32 : yields read_f32 u32. Proof. exact (yields_le 4 _). Qed.
Lemma yields_i64 : yields read_i64 i64.
Proof.
  intros bs x rest ([z r] & Hz & Hx)%bind_Ok_inv. apply Ok_inj in Hx as [= <- <-].
  apply yields_le in Hz. change (8 * Z.of_nat 8) with 64 in Hz.
  unfold i64, of_bits. case_match; lia.
Qed.
Lemma yields_str : yields read_str (fun s => utf8_valid s = true).
Proof.
  intros bs x rest. unfold read_str. intros ([n b] & _ & H)%bind_Ok_inv.
  apply bind_Ok_inv in H as ([buf r] & _ & H).
  destruct (utf8_valid buf) eqn:E; [|done]. by apply Ok_inj in H as [= <- <-].
Qed.
Lemma yields_many {A} n (r : reader A) P :
  yields r P -> yields (read_many n r) (fun l => Forall P l /\ length l = n).
Proof.
  intros Hr. induction n as [|n IH]; intros bs x rest; cbn.
  { intros [= <- <-]. by split. }
  intros ([y b] & Hy & H)%bind_Ok_inv. apply bind_Ok_inv in H as ([ys b'] & Hys & H).
  apply Ok_inj in H as [= <- <-]. apply Hr in Hy. apply IH in Hys as [? <-]. by repeat constructor.
Qed.
Lemma yields_label_ids n prev :
  yields (read_label_ids n prev) (fun ids => Forall u32 ids).
Proof.
  revert prev. induction n as [|n IH]; intros prev bs x rest; cbn.
  { intros [= <- <-]. constructor. }
  intros (y & b & Hy & H)%(yields_bind _ u32); [|apply yields_u32].
  case_match; [done|]. apply bind_Ok_inv in H as ([ys b'] & Hys & H).
  apply Ok_inj in H as [= <- <-]. constructor; [done|]. by eapply IH.
Qed.
Lemma yields_node_label_set :
  yields read_node_label_set (fun s => NodeLabels.wf s /\ Forall u32 (NodeLabels.as_slice s)).
Proof.
  intros bs x rest. unfold read_node_label_set.
  intros ([n b] & Hn & H)%bind_Ok_inv. do 2 (case_match; [done|]).
  apply (yields_bind _ _ _ _ _ (yields_label_ids _ _)) in H as (ids & b' & Hids & H).
  destruct (NodeLabels.from_canonical_ids ids) eqn:E; [|done].
  apply Ok_inj in H as [= <- <-]. apply NodeLabels.from_canonical_ids_Ok in E as [Hc ->].
  rewrite NodeLabels.as_slice_mk. split; [by eexists | done].
Qed.
Lemma yields_sparse_entry : yields read_sparse_entry (fun e => u32 (fst e) /\ u32 (snd e)).
Proof.
  intros bs x rest. unfold read_sparse_entry.
  intros (d & b & Hd & H)%(yields_bind _ u32); [|apply yields_u32].
  apply (yields_bind _ _ _ _ _ yields_f32) in H as (w & b' & Hw & H).
  by apply Ok_inj in H as [= <- <-].
Qed.
Lemma yields_dense p : yields (read_dense_if p) dense_wf.
Proof.
  intros bs x rest. unfold read_dense_if. destruct p; [|by intros [= <- <-]].
  intros (n & b & Hn & H)%(yields_bind _ u32); [|apply yields_u32].
  apply (yields_bind _ _ _ _ _ (yields_many _ _ _ yields_f32)) in H as (l & b' & [Hl Hn'] & H).
  apply Ok_inj in H as [= <- <-]. cbn. split; [done|]. unfold u32 in *. lia.
Qed.
Lemma yields_sparse p : yields (read_sparse_if p) sparse_wf.
Proof.
  intros bs x rest. unfold read_sparse_if. destruct p; [|by intros [= <- <-]].
  intros (n & b & Hn & H)%(yields_bind _ u32); [|apply yields_u32].
  apply (yields_bind _ _ _ _ _ (yields_many _ _ _ yields_sparse_entry))
    in H as (l & b' & [Hl Hn'] & H).
  apply Ok_inj in H as [= <- <-]. cbn. split; [done|]. unfold u32 in *. lia.
Qed.

Section DecodeWf.
Context `{RmpSerde}.

Lemma yields_True {A} (r : reader A) : yields r (fun _ => True).
Proof. done. Qed.

Ltac next H x Hx :=
  let b := fresh "bs" in
  eapply yields_bind in H as (x & b & Hx & H);
  [|first [apply yields_u64 | apply yields_u32 | apply yields_i64 | apply yields_f32
          | apply yields_str | apply yields_node_label_set | apply yields_True]].

Lemma decode_vectors_wf bs d s :
  decode_vectors bs = Ok (d, s) -> dense_wf d /\ sparse_wf s.
Proof.
  unfold decode_vectors. case_match; [by intros [= <- <-]|].
  intros ([fl b] & Hf & H')%bind_Ok_inv. case_match; [done|].
  apply (yields_bind _ _ _ _ _ (yields_dense _)) in H' as (d' & b' & Hd & H').
  apply (yields_bind _ _ _ _ _ (yields_sparse _)) in H' as (s' & b'' & Hs & H').
  apply bind_Ok_inv in H' as ([] & _ & H'). by apply Ok_inj in H' as [= <- <-].
Qed.

Lemma decode_wf bs op : decode_wal_op bs = Ok op -> op_wf op /\ forget_seq op = op.
Proof.
  unfold decode_wal_op. intros ([t b] & _ & Hd)%bind_Ok_inv.
  destruct (OpTag_from_u8 t) as [[]|]; [..|done].
  1: { unfold decode_node in Hd. next Hd i Hid. next Hd ls Hls. next Hd k Hk. next Hd c Hc.
    next Hd u Hu. next Hd w Hw. next Hd p Hp. apply bind_Ok_inv in Hd as ([d s] & Hv & Hd).
    apply decode_vectors_wf in Hv. apply Ok_inj in Hd as <-. split; [|done].
    red. unfold node_wf. cbn. naive_solver. }
  1: { unfold decode_edge in Hd. next Hd i Hid. next Hd f Hf. next Hd t' Ht. next Hd l Hl.
    next Hd c Hc. next Hd u Hu. next Hd w Hw. next Hd p Hp. next Hd vf Hvf. next Hd vt Hvt.
    apply bind_Ok_inv in Hd as ([] & _ & Hd). apply Ok_inj in Hd as <-. split; [|done].
    red. unfold edge_wf. cbn. naive_solver. }
  all: unfold decode_pair in Hd; next Hd x Hx; next Hd y Hy;
    apply bind_Ok_inv in Hd as ([] & _ & Hd); by apply Ok_inj in Hd as <-.
Qed.
End DecodeWf.

(** ** A concrete serializer and operations, for the witnesses: MessagePack
    writes the empty map as the single byte 0x80. *)
Module Sample.
Definition rmp : RmpSerde := {|
  rmp_to_vec p := match p with [] => Some [z2b 0x80] | _ => None end;
  rmp_from_slice bs := if decide (bs = [z2b 0x80]) then Some [] else None
|}.
Lemma rmp_laws : @RmpSerdeLaws rmp.
Proof. constructor. intros [|? ?] bs; cbn; intros [= <-]. by case_decide. Qed.

Definition node (id : Z) (labels : list Z) (key : string) : NodeRecord :=
  mkNodeRecord id (NodeLabels.mk labels) (str_of key) [] 1000 (-5) 0x3f800000
    (Some [0x3f800000; 0]) (Some [(7, 0x40000000)]) 0.
Definition edge (id from to : Z) : EdgeRecord :=
  mkEdgeRecord id from to 3 [] 1000 1000 0x3f800000 0 i64_max 0.

Lemma node_ok : op_wf (UpsertNode (node 42 [1; 9] "alice")).
Proof.
  red. unfold node_wf. cbn [node nr_id nr_label_ids nr_key nr_created_at nr_updated_at nr_weight
    nr_dense_vector nr_sparse_vector]. rewrite NodeLabels.as_slice_mk.
  split_and!.
  2: { exists [1; 9]. split; [done|]. unfold NodeLabels.canonical, MAX_NODE_LABELS_PER_NODE.
    split_and!; [done | cbn; lia | repeat constructor | set_solver by lia]. }
  3: by vm_compute.
  all: unfold dense_wf, sparse_wf, u32, u64, i64; repeat constructor; cbn; lia.
Qed.
Lemma edge_ok : op_wf (UpsertEdge (edge 5 42 43)).
Proof. red. unfold edge_wf, u32, u64, i64. by vm_compute. Qed.
End Sample.

(** ** Guarantees *)

(** C18.  WAL payload round trip.  Every well-formed operation the encoder
    accepts decodes to itself, except that the write sequence of a record is
    not stored (it travels in the frame) and comes back as 0.  The encoder
    refuses exactly keys and labels over 65535 bytes and property maps that do
    not serialize or serialize to more than 64 MB. *)
Theorem wal_op_roundtrip `{RmpSerdeLaws} op :
  op_wf op ->
  (is_ok (encode_wal_op op) = true <-> encodable op)
  /\ forall bs, encode_wal_op op = Ok bs -> decode_wal_op bs = Ok (forget_seq op).
Proof. split; [apply encode_ok_iff | by intros; apply decode_encode]. Qed.

(** The decoder is type safe.  Whatever the bytes, an operation the
    decoder returns has every field in the range of its Rust type, UTF-8 text
    and a canonical label set, and re-encoding it and decoding again gives the
    same operation. *)
Theorem wal_op_decoder_sound `{RmpSerdeLaws} bs op :
  decode_wal_op bs = Ok op ->
  op_wf op /\ forall bs', encode_wal_op op = Ok bs' -> decode_wal_op bs' = Ok op.
Proof.
  intros [Hw Hf]%decode_wf. split; [done|]. intros bs' He.
  by rewrite (decode_encode op bs' Hw He), Hf.
Qed.

Module CodecWitness.
#[local] Existing Instance Sample.rmp. #[local] Existing Instance Sample.rmp_laws.

Definition bytes : list byte :=
  match encode_wal_op (UpsertNode (Sample.node 42 [1; 9] "alice")) with Ok b => b | Err _ => [] end.
Lemma bytes_eq : encode_wal_op (UpsertNode (Sample.node 42 [1; 9] "alice")) = Ok bytes.
Proof. by vm_compute. Qed.

Lemma wal_op_roundtrip_witness :
  decode_wal_op bytes = Ok (UpsertNode (Sample.node 42 [1; 9] "alice")).
Proof. exact (proj2 (wal_op_roundtrip _ Sample.node_ok) bytes bytes_eq). Defined.

Lemma wal_op_decoder_sound_witness :
  op_wf (UpsertNode (Sample.node 42 [1; 9] "alice")).
Proof.
  apply (wal_op_decoder_sound bytes (UpsertNode (Sample.node 42 [1; 9] "alice"))).
  by vm_compute.
Defined.
End CodecWitness.
