(* ===== verification/Wal.v ===== *)
(** The write-ahead log of src/src/wal.rs: the framed writer, the recovering
    reader and the truncation to the durable prefix.  A log file is its bytes;
    reads fail only at the end of the file (device errors are not modelled).
    CRC-32 (the crate crc32fast) is an interface. *)
From S2P Require Import Prelude Types Encoding.

Class Crc32 : Type := { crc32_hash : list byte -> Z }.
(** crc32fast returns a [u32]. *)
Class Crc32Laws `{Crc32} : Prop := { crc32_range bs : u32 (crc32_hash bs) }.

Definition WAL_MAGIC : list byte := str_of "OVGR".
Definition WAL_VERSION : Z := 3.
Definition WAL_HEADER_SIZE : nat := 8.
Definition MAX_WAL_RECORD_SIZE : Z := 64 * 1024 * 1024.

(** ** The open atomic batch the reader keeps *)
Record WalReadAtomicBatch : Type := mkBatch {
  wb_first_seq : Z;
  wb_op_count : Z;
  wb_ops_read : Z
}.

Module ReadBatch.
Definition new (first_seq op_count : Z) : option WalReadAtomicBatch :=
  if (first_seq =? 0) || (op_count <? 2) then None
  else Some (mkBatch first_seq op_count 0).

(** [None] is the [false] of the code: the batch is left as it was. *)
Definition push_normal_op (b : WalReadAtomicBatch) (seq : Z) : option WalReadAtomicBatch :=
  if wb_op_count b <=? wb_ops_read b then None
  else
    let expected_seq := wb_first_seq b + wb_ops_read b in
    if 2 ^ 64 <=? expected_seq then None
    else if negb (seq =? expected_seq) then None
    else Some (mkBatch (wb_first_seq b) (wb_op_count b) (wb_ops_read b + 1)).

Definition matches_commit (b : WalReadAtomicBatch) (first_seq op_count : Z) : bool :=
  (wb_first_seq b =? first_seq) && (wb_op_count b =? op_count) && (wb_ops_read b =? op_count).
End ReadBatch.

Definition write_wal_header : list byte := WAL_MAGIC ++ le_bytes 4 WAL_VERSION.

Definition validate_wal_header (header : list byte) : res unit :=
  if negb (bool_decide (take 4 header = WAL_MAGIC)) then Err (CorruptWal "invalid WAL magic")
  else if negb (le_val (drop 4 header) =? WAL_VERSION) then
    Err (CorruptWal "unsupported WAL version")
  else Ok tt.

(** [WalWriter::open_generation]: the file's bytes after opening for append
    ([None]: no such file). *)
Definition open_generation (file : option (list byte)) : res (list byte) :=
  let bytes := default [] file in
  if (length bytes =? 0)%nat then Ok write_wal_header
  else if (length bytes <? WAL_HEADER_SIZE)%nat then
    Err (CorruptWal "WAL file too small for header")
  else
    _ ← validate_wal_header (take WAL_HEADER_SIZE bytes); Ok bytes.

Record WalReadResult : Type := mkReadResult {
  rr_records : list (Z * WalOp);
  rr_durable_len : Z
}.

Section Wal.
Context `{RmpSerde, Crc32}.

(** ** Writer *)
Definition mk_frame (payload : list byte) : list byte :=
  le_bytes 4 (len payload) ++ le_bytes 4 (crc32_hash payload) ++ payload.

Definition encode_frame (seq : Z) (op : WalOp) : res (list byte) :=
  buf ← encode_wal_op op; Ok (mk_frame (le_bytes 8 seq ++ buf)).

(** [append]: the log after the write and the returned size. *)
Definition append (file : list byte) (op : WalOp) (engine_seq : Z) : res (list byte * Z) :=
  buf ← encode_wal_op op;
  let total_payload := 8 + len buf in
  Ok (file ++ mk_frame (le_bytes 8 engine_seq ++ buf), 8 + total_payload).

(** The contiguity loop of [append_batch]. *)
Fixpoint check_contiguous (expected_seq : Z) (ops : list (Z * WalOp)) : res unit :=
  match ops with
  | [] => Ok tt
  | (seq, _) :: ops =>
      if 2 ^ 64 <=? expected_seq then
        Err (InvalidOperation "atomic WAL batch sequence range overflows u64")
      else if negb (seq =? expected_seq) then
        Err (InvalidOperation "atomic WAL batch sequences must be contiguous")
      else check_contiguous (expected_seq + 1) ops
  end.

Fixpoint encode_frames (ops : list (Z * WalOp)) : res (list byte) :=
  match ops with
  | [] => Ok []
  | (seq, op) :: ops => f ← encode_frame seq op; fs ← encode_frames ops; Ok (f ++ fs)
  end.

Definition batch_bytes (ops : list (Z * WalOp)) : res (list byte) :=
  match ops with
  | [] => Ok []
  | [(seq, op)] => encode_frame seq op
  | (first_seq, _) :: _ =>
      if u32_max <? len ops then
        Err (InvalidOperation "atomic WAL batch op_count exceeds u32::MAX")
      else if first_seq =? 0 then
        Err (InvalidOperation "atomic WAL batch first sequence must be nonzero")
      else
        _ ← check_contiguous first_seq ops;
        b ← encode_frame first_seq (BeginAtomicBatch first_seq (len ops));
        fs ← encode_frames ops;
        c ← encode_frame first_seq (CommitAtomicBatch first_seq (len ops));
        Ok (b ++ fs ++ c)
  end.

Definition append_batch (file : list byte) (ops : list (Z * WalOp)) : res (list byte * Z) :=
  batch_buf ← batch_bytes ops; Ok (file ++ batch_buf, len batch_buf).

(** ** Reader *)

(** One frame: its payload and the rest, or [None] where the loop breaks
    before decoding (end of file, bad length, bad checksum). *)
Definition read_frame (bs : list byte) : option (list byte * list byte) :=
  '(len_buf, bs) ← split_at 4 bs;
  let payload_len := le_val len_buf in
  if (payload_len =? 0) || (MAX_WAL_RECORD_SIZE <? payload_len) then None
  else
    '(crc_buf, bs) ← split_at 4 bs;
    '(payload, bs) ← split_at (Z.to_nat payload_len) bs;
    if negb (crc32_hash payload =? le_val crc_buf) then None
    else if (length payload <? 8)%nat then None
    else Some (payload, bs).

Record ReadState : Type := mkReadState {
  rs_ops : list (Z * WalOp);
  rs_open_batch : option WalReadAtomicBatch;
  rs_pos : Z;
  rs_durable_len : Z
}.

Inductive outcome : Type :=
| Continue (st : ReadState)
| Break
| Fail (e : EngineError).

(** The loop body once the frame decoded to [op]: batch markers open and
    close the batch, other operations extend it or stand alone. *)
Definition read_op (st : ReadState) (frame_end engine_seq : Z) (op : WalOp) : outcome :=
  let ops := rs_ops st ++ [(engine_seq, op)] in
  match op with
  | BeginAtomicBatch first_seq op_count =>
      match rs_open_batch st with
      | Some _ => Break
      | None =>
          match ReadBatch.new first_seq op_count with
          | None => Break
          | Some batch =>
              Continue (mkReadState ops (Some batch) frame_end (rs_durable_len st))
          end
      end
  | CommitAtomicBatch first_seq op_count =>
      match rs_open_batch st with
      | None => Break
      | Some batch =>
          if negb (ReadBatch.matches_commit batch first_seq op_count) then Break
          else Continue (mkReadState ops None frame_end frame_end)
      end
  | _ =>
      match rs_open_batch st with
      | Some batch =>
          match ReadBatch.push_normal_op batch engine_seq with
          | None => Break
          | Some batch =>
              Continue (mkReadState ops (Some batch) frame_end (rs_durable_len st))
          end
      | None => Continue (mkReadState ops None frame_end frame_end)
      end
  end.

(** The loop body after a checked payload. *)
Definition read_payload (st : ReadState) (payload : list byte) : outcome :=
  let frame_end := rs_pos st + 8 + len payload in
  let engine_seq := le_val (take 8 payload) in
  let walop_bytes := drop 8 payload in
  let recognized_tag := b ← head walop_bytes; OpTag_from_u8 (b2z b) in
  match decode_wal_op walop_bytes with
  | Ok op => read_op st frame_end engine_seq op
  | Err err =>
      match recognized_tag with
      | Some (TagBeginAtomicBatch | TagCommitAtomicBatch) => Break
      | Some _ =>
          match rs_open_batch st with
          | Some _ => Break
          | None => Fail (CorruptWal "failed to decode WAL record")
          end
      | None => Break
      end
  end.

Definition finish (st : ReadState) : res WalReadResult :=
  Ok (mkReadResult (rs_ops st) (rs_durable_len st)).

Fixpoint read_loop (fuel : nat) (st : ReadState) (bs : list byte) : res WalReadResult :=
  match fuel with
  | O => finish st
  | S fuel =>
      match read_frame bs with
      | None => finish st
      | Some (payload, bs) =>
          match read_payload st payload with
          | Continue st => read_loop fuel st bs
          | Break => finish st
          | Fail e => Err e
          end
      end
  end.

Definition initial : ReadState := mkReadState [] None (Z.of_nat WAL_HEADER_SIZE) (Z.of_nat WAL_HEADER_SIZE).

(** [read_path]: every iteration consumes at least one byte, so the file
    length is fuel enough. *)
Definition read_path (file : option (list byte)) : res WalReadResult :=
  match file with
  | None => Ok (mkReadResult [] 0)
  | Some bytes =>
      if (length bytes =? 0)%nat then Ok (mkReadResult [] 0)
      else if (length bytes <? WAL_HEADER_SIZE)%nat then
        Err (CorruptWal "WAL file too small for header")
      else
        _ ← validate_wal_header (take WAL_HEADER_SIZE bytes);
        let bs := drop WAL_HEADER_SIZE bytes in
        read_loop (S (length bs)) initial bs
  end.

(** [truncate_wal_generation_to] *)
Definition truncate_wal_generation_to (file : option (list byte)) (durable_len : Z)
    : option (list byte) :=
  match file with
  | None => None
  | Some bytes =>
      Some (if durable_len <? len bytes then take (Z.to_nat durable_len) bytes else bytes)
  end.
End Wal.
