(* ===== verification/WalFacts.v ===== *)
(** The write-ahead log's guarantees: what was appended is read back; a torn
    tail costs only the call it tore; recovery is idempotent on any file. *)
From S2P Require Import Prelude Types Encoding Wal.

Section Frames.
Context `{RmpSerdeLaws, Crc32Laws}.

Lemma length_mk_frame p : len (mk_frame p) = 8 + len p.
Proof. unfold mk_frame. rewrite !length_app, !length_le_bytes. lia. Qed.

Definition payload_fits (p : list byte) : Prop := 8 <= len p <= MAX_WAL_RECORD_SIZE.

Lemma read_frame_ok p rest :
  payload_fits p -> read_frame (mk_frame p ++ rest) = Some (p, rest).
Proof.
  unfold payload_fits, MAX_WAL_RECORD_SIZE. intros Hp. unfold read_frame, mk_frame.
  rewrite <- !app_assoc, split_at_app by apply length_le_bytes. cbn [mbind option_bind].
  rewrite le_val_le_bytes, Z.mod_small by lia.
  destruct (Z.eqb_spec (len p) 0); [lia|].
  destruct (Z.ltb_spec MAX_WAL_RECORD_SIZE (len p)); [unfold MAX_WAL_RECORD_SIZE in *; lia|].
  cbn [orb]. rewrite split_at_app by apply length_le_bytes. cbn [mbind option_bind].
  rewrite Nat2Z.id, split_at_app by done. cbn [mbind option_bind].
  rewrite le_val_le_bytes, Z.mod_small by apply crc32_range. rewrite Z.eqb_refl. cbn [negb].
  destruct (Nat.ltb_spec (length p) 8); [lia | done].
Qed.

(** A frame cut short is not read at all. *)
Lemma read_frame_torn p k :
  payload_fits p -> (k < length (mk_frame p))%nat -> read_frame (take k (mk_frame p)) = None.
Proof.
  unfold payload_fits, MAX_WAL_RECORD_SIZE. intros Hp Hk. unfold read_frame.
  destruct (split_at 4 (take k (mk_frame p))) as [[a b]|] eqn:E; [|done]. cbn [mbind option_bind].
  apply split_at_Some in E as [E Ha].
  assert (a = le_bytes 4 (len p)) as ->.
  { apply (f_equal (take 4)) in E. rewrite take_app_length' in E by done. rewrite <- E.
    rewrite take_take. unfold mk_frame.
    assert (4 <= k)%nat.
    { apply (f_equal length) in E. rewrite !length_take in E. lia. }
    rewrite Nat.min_l by lia. by rewrite take_app_length' by (by rewrite length_le_bytes). }
  rewrite le_val_le_bytes, Z.mod_small by lia.
  destruct (Z.eqb_spec (len p) 0); [lia|].
  destruct (Z.ltb_spec MAX_WAL_RECORD_SIZE (len p)); [done|]. cbn [orb].
  destruct (split_at 4 b) as [[c d]|] eqn:E2; [|done]. cbn [mbind option_bind].
  destruct (split_at _ d) as [[e f]|] eqn:E3; [|done]. exfalso.
  apply split_at_Some in E2 as [-> Hc]. apply split_at_Some in E3 as [-> He].
  apply (f_equal length) in E. rewrite length_take in E.
  rewrite !length_app, length_le_bytes, Hc, He in E.
  pose proof (length_mk_frame p). lia.
Qed.

Lemma read_frame_consumes bs p rest :
  read_frame bs = Some (p, rest) ->
  exists f, bs = f ++ rest /\ len f = 8 + len p /\ 8 <= len p.
Proof.
  unfold read_frame. intros E.
  destruct (split_at 4 bs) as [[a b]|] eqn:E1; [|done]. cbn [mbind option_bind] in E.
  destruct (_ || _); [done|].
  destruct (split_at 4 b) as [[c d]|] eqn:E2; [|done]. cbn [mbind option_bind] in E.
  destruct (split_at _ d) as [[e f]|] eqn:E3; [|done]. cbn [mbind option_bind] in E.
  destruct (negb _); [done|]. destruct (Nat.ltb_spec (length e) 8); [done|].
  injection E as <- <-.
  apply split_at_Some in E1 as [-> Ha]. apply split_at_Some in E2 as [-> Hc].
  apply split_at_Some in E3 as [-> He].
  exists (a ++ c ++ e). rewrite !length_app, <- !app_assoc. split; [done | lia].
Qed.

(** Reading a frame does not look past it. *)
Lemma read_frame_local f p rest rest' :
  read_frame (f ++ rest) = Some (p, rest) -> read_frame (f ++ rest') = Some (p, rest').
Proof.
  intros E. unfold read_frame in *.
  destruct (split_at 4 (f ++ rest)) as [[a b]|] eqn:E1; [|done]. cbn [mbind option_bind] in E.
  destruct (_ || _) eqn:Hlen; [done|].
  destruct (split_at 4 b) as [[c d]|] eqn:E2; [|done]. cbn [mbind option_bind] in E.
  destruct (split_at _ d) as [[e g]|] eqn:E3; [|done]. cbn [mbind option_bind] in E.
  destruct (negb _) eqn:Hcrc; [done|]. destruct (_ <? 8)%nat eqn:H8; [done|].
  injection E as -> ->.
  apply split_at_Some in E1 as [E1 Ha]. apply split_at_Some in E2 as [-> Hc].
  apply split_at_Some in E3 as [-> He].
  rewrite !app_assoc in E1. apply app_inv_tail in E1 as ->. rewrite <- !app_assoc.
  rewrite split_at_app by done. cbn [mbind option_bind]. rewrite Hlen.
  rewrite split_at_app by done. cbn [mbind option_bind].
  rewrite split_at_app by done. cbn [mbind option_bind]. by rewrite Hcrc, H8.
Qed.

Lemma read_loop_fuel f1 f2 st bs :
  (length bs < f1)%nat -> (length bs < f2)%nat -> read_loop f1 st bs = read_loop f2 st bs.
Proof.
  revert f2 st bs. induction f1 as [|f1 IH]; intros f2 st bs Hf1 Hf2; [lia|].
  destruct f2 as [|f2]; [lia|]. cbn [read_loop].
  destruct (read_frame bs) as [[p rest]|] eqn:E; [|done].
  destruct (read_payload st p); [|done..].
  apply read_frame_consumes in E as (f & -> & Hf & ?). rewrite length_app in *. apply IH; lia.
Qed.
End Frames.

(** ** Calls on the writer *)
Inductive call : Type :=
| CAppend (seq : Z) (op : WalOp)
| CBatch (ops : list (Z * WalOp)).

Definition is_marker (op : WalOp) : bool :=
  match op with BeginAtomicBatch _ _ | CommitAtomicBatch _ _ => true | _ => false end.

Definition forget_rec (r : Z * WalOp) : Z * WalOp := (fst r, forget_seq (snd r)).

(** The records a call leaves in the log, as the reader reports them. *)
Definition call_records (c : call) : list (Z * WalOp) :=
  match c with
  | CAppend seq op => [forget_rec (seq, op)]
  | CBatch [] => []
  | CBatch [r] => [forget_rec r]
  | CBatch ((first_seq, op) :: ops) =>
      let n := len ((first_seq, op) :: ops) in
      (first_seq, BeginAtomicBatch first_seq n)
        :: (forget_rec <$> (first_seq, op) :: ops) ++ [(first_seq, CommitAtomicBatch first_seq n)]
  end.

Section Log.
Context `{RmpSerdeLaws, Crc32Laws}.

Definition do_call (file : list byte) (c : call) : res (list byte * Z) :=
  match c with
  | CAppend seq op => append file op seq
  | CBatch ops => append_batch file ops
  end.

Fixpoint write_calls (file : list byte) (cs : list call) : res (list byte) :=
  match cs with
  | [] => Ok file
  | c :: cs => '(file, _) ← do_call file c; write_calls file cs
  end.

Definition call_bytes (c : call) : res (list byte) :=
  match c with CAppend seq op => encode_frame seq op | CBatch ops => batch_bytes ops end.

(** An operation whose frame the reader accepts. *)
Definition rec_ok (r : Z * WalOp) : Prop :=
  u64 (fst r) /\ op_wf (snd r) /\ is_marker (snd r) = false
  /\ (forall buf, encode_wal_op (snd r) = Ok buf -> 8 + len buf <= MAX_WAL_RECORD_SIZE).
Definition call_ok (c : call) : Prop :=
  match c with CAppend seq op => rec_ok (seq, op) | CBatch ops => Forall rec_ok ops end.

Lemma do_call_bytes file c file' n :
  do_call file c = Ok (file', n) <->
  exists bs, call_bytes c = Ok bs /\ file' = file ++ bs /\ n = len bs.
Proof.
  destruct c as [seq op|ops]; cbn [do_call call_bytes].
  - unfold append, encode_frame. destruct (encode_wal_op op) as [buf|e]; cbn [mbind result_bind].
    2:{ split; [done | by intros (? & ? & _)]. }
    assert (len (mk_frame (le_bytes 8 seq ++ buf)) = 8 + (8 + len buf)) as Hl.
    { by rewrite length_mk_frame, length_app, length_le_bytes, Nat2Z.inj_add. }
    split.
    + intros E. apply Ok_inj in E. injection E as <- <-. by eexists.
    + by intros (bs & <-%Ok_inj & -> & ->); rewrite Hl.
  - unfold append_batch. destruct (batch_bytes ops) as [buf|e]; cbn [mbind result_bind].
    2:{ split; [done | by intros (? & ? & _)]. }
    split; [intros E; apply Ok_inj in E; injection E as <- <-; by eexists|].
    by intros (bs & <-%Ok_inj & -> & ->).
Qed.

Lemma write_calls_cons file c cs file' :
  write_calls file (c :: cs) = Ok file' <->
  exists bs, call_bytes c = Ok bs /\ write_calls (file ++ bs) cs = Ok file'.
Proof.
  cbn [write_calls]. split.
  - intros H'. apply bind_Ok_inv in H' as ([f n] & Hc & H').
    apply do_call_bytes in Hc as (bs & ? & -> & _). eauto.
  - intros (bs & Hb & H').
    by rewrite (proj2 (do_call_bytes file c (file ++ bs) (len bs))) by eauto.
Qed.

(** ** Reading, with the fuel the reader uses *)
Definition rl (st : ReadState) (bs : list byte) : res WalReadResult :=
  read_loop (S (length bs)) st bs.

Lemma rl_None st bs : read_frame bs = None -> rl st bs = finish st.
Proof. unfold rl. cbn [read_loop]. by intros ->. Qed.

Lemma rl_Some st bs p rest :
  read_frame bs = Some (p, rest) ->
  rl st bs = match read_payload st p with
             | Continue st => rl st rest | Break => finish st | Fail e => Err e
             end.
Proof.
  intros E. unfold rl at 1. cbn [read_loop]. rewrite E.
  destruct (read_payload st p); [|done..].
  apply read_frame_consumes in E as (f & -> & Hf & ?). unfold rl.
  apply read_loop_fuel; rewrite ?length_app; lia.
Qed.

Lemma rl_frame st p rest :
  payload_fits p ->
  rl st (mk_frame p ++ rest) =
    match read_payload st p with
    | Continue st => rl st rest | Break => finish st | Fail e => Err e
    end.
Proof. intros. by apply rl_Some, read_frame_ok. Qed.

Lemma read_payload_encoded st seq op buf :
  u64 seq -> op_wf op -> encode_wal_op op = Ok buf ->
  read_payload st (le_bytes 8 seq ++ buf) =
    read_op st (rs_pos st + len (mk_frame (le_bytes 8 seq ++ buf))) seq (forget_seq op).
Proof.
  intros Hs Hw He. unfold read_payload.
  rewrite take_app_length', drop_app_length' by by rewrite length_le_bytes.
  rewrite (decode_encode _ _ Hw He), le_val_le_bytes, Z.mod_small by exact Hs.
  by rewrite length_mk_frame, Z.add_assoc.
Qed.

Lemma encode_frame_fits seq op fr :
  (forall buf, encode_wal_op op = Ok buf -> 8 + len buf <= MAX_WAL_RECORD_SIZE) ->
  encode_frame seq op = Ok fr ->
  exists buf, encode_wal_op op = Ok buf /\ fr = mk_frame (le_bytes 8 seq ++ buf)
           /\ payload_fits (le_bytes 8 seq ++ buf).
Proof.
  intros Hf He. unfold encode_frame in He. inv_bind He. apply Ok_inj in He as <-.
  eexists. split_and!; [done..|]. specialize (Hf _ Hv).
  unfold payload_fits. rewrite length_app, length_le_bytes. lia.
Qed.

(** One accepted frame is one [read_op]. *)
Lemma rl_encoded st seq op fr rest :
  u64 seq -> op_wf op ->
  (forall buf, encode_wal_op op = Ok buf -> 8 + len buf <= MAX_WAL_RECORD_SIZE) ->
  encode_frame seq op = Ok fr ->
  rl st (fr ++ rest) =
    match read_op st (rs_pos st + len fr) seq (forget_seq op) with
    | Continue st => rl st rest | Break => finish st | Fail e => Err e
    end.
Proof.
  intros Hs Hw Hf He. apply encode_frame_fits in He as (buf & He & -> & Hfit); [|done].
  by rewrite rl_frame, (read_payload_encoded st seq op buf).
Qed.

Lemma rl_torn st seq op fr k :
  (forall buf, encode_wal_op op = Ok buf -> 8 + len buf <= MAX_WAL_RECORD_SIZE) ->
  encode_frame seq op = Ok fr -> (k < length fr)%nat -> rl st (take k fr) = finish st.
Proof.
  intros Hf He Hk. apply encode_frame_fits in He as (buf & He & -> & Hfit); [|done].
  by apply rl_None, read_frame_torn.
Qed.

Lemma marker_fits op :
  is_marker op = true ->
  forall buf, encode_wal_op op = Ok buf -> 8 + len buf <= MAX_WAL_RECORD_SIZE.
Proof. destruct op; try done; cbn; intros _ buf <-%Ok_inj; done. Qed.

(** A normal operation is kept; its frame closes at its end when no batch is open. *)
Lemma read_op_normal st fe seq op :
  is_marker op = false ->
  read_op st fe seq (forget_seq op) =
    let ops := rs_ops st ++ [forget_rec (seq, op)] in
    match rs_open_batch st with
    | None => Continue (mkReadState ops None fe fe)
    | Some b =>
        match ReadBatch.push_normal_op b seq with
        | None => Break
        | Some b => Continue (mkReadState ops (Some b) fe (rs_durable_len st))
        end
    end.
Proof. by destruct op. Qed.

Lemma push_in_order f n r :
  0 <= r < n -> f + r < 2 ^ 64 ->
  ReadBatch.push_normal_op (mkBatch f n r) (f + r) = Some (mkBatch f n (r + 1)).
Proof.
  intros Hr Hf. unfold ReadBatch.push_normal_op. cbn [wb_op_count wb_ops_read wb_first_seq].
  destruct (Z.leb_spec n r); [lia|]. destruct (Z.leb_spec (2 ^ 64) (f + r)); [lia|].
  by rewrite Z.eqb_refl.
Qed.

Lemma check_contiguous_cons e seq op ops :
  check_contiguous e ((seq, op) :: ops) = Ok tt ->
  e < 2 ^ 64 /\ seq = e /\ check_contiguous (e + 1) ops = Ok tt.
Proof.
  cbn [check_contiguous]. destruct (Z.leb_spec (2 ^ 64) e); [done|].
  destruct (Z.eqb_spec seq e); [done | done].
Qed.

(** The frames of a batch, read while the batch is open. *)
Lemma rl_ops ops fs acc f n r pos dur rest :
  Forall rec_ok ops -> check_contiguous (f + r) ops = Ok tt -> encode_frames ops = Ok fs ->
  0 <= r -> r + len ops <= n ->
  rl (mkReadState acc (Some (mkBatch f n r)) pos dur) (fs ++ rest)
  = rl (mkReadState (acc ++ (forget_rec <$> ops)) (Some (mkBatch f n (r + len ops)))
          (pos + len fs) dur) rest.
Proof.
  revert fs acc r pos. induction ops as [|[seq op] ops IH]; intros fs acc r pos Hok Hc He Hr Hn.
  { apply Ok_inj in He as <-. cbn. by rewrite app_nil_r, !Z.add_0_r. }
  apply Forall_cons in Hok as [(Hs & Hw & Hm & Hf) Hok].
  apply check_contiguous_cons in Hc as (Hlt & -> & Hc).
  cbn [encode_frames] in He. inv_bind He. apply Ok_inj in He as <-. rewrite <- app_assoc.
  erewrite rl_encoded by done. rewrite read_op_normal by done.
  cbn [rs_open_batch rs_ops rs_pos rs_durable_len].
  cbn [length] in Hn. rewrite push_in_order by lia.
  rewrite IH by (rewrite ?Z.add_assoc; (done || lia)).
  cbn [fmap list_fmap length]. rewrite <- app_assoc, length_app.
  replace (r + 1 + len ops) with (r + Z.of_nat (S (length ops))) by lia.
  by replace (pos + len v + len v0) with (pos + Z.of_nat (length v + length v0)) by lia.
Qed.

Lemma rl_ops_torn ops fs cf acc f n r pos dur k :
  Forall rec_ok ops -> check_contiguous (f + r) ops = Ok tt -> encode_frames ops = Ok fs ->
  encode_frame f (CommitAtomicBatch f n) = Ok cf ->
  0 <= r -> r + len ops <= n -> (k < length (fs ++ cf))%nat ->
  exists recs, rl (mkReadState acc (Some (mkBatch f n r)) pos dur) (take k (fs ++ cf))
               = Ok (mkReadResult (acc ++ recs) dur)
    /\ Forall (fun r => is_marker r.2 = false) recs.
Proof.
  revert fs acc r pos k. induction ops as [|[seq op] ops IH];
    intros fs acc r pos k Hok Hc He Hcf Hr Hn Hk.
  { apply Ok_inj in He as <-. exists []. rewrite app_nil_r. cbn [app] in *. split; [|constructor].
    erewrite rl_torn; [done | by apply (marker_fits (CommitAtomicBatch f n)) | done | done]. }
  apply Forall_cons in Hok as [(Hs & Hw & Hm & Hf) Hok].
  apply check_contiguous_cons in Hc as (Hlt & -> & Hc).
  cbn [encode_frames] in He. inv_bind He. apply Ok_inj in He as <-.
  rewrite <- app_assoc in *. cbn [snd fst length] in *.
  destruct (decide (k < length v)%nat).
  { exists []. rewrite app_nil_r, take_app_le by lia. split; [by erewrite rl_torn | constructor]. }
  rewrite take_app_ge by lia. erewrite rl_encoded by done.
  rewrite read_op_normal by done. cbn [rs_open_batch rs_ops rs_pos rs_durable_len].
  rewrite push_in_order by lia. rewrite length_app in Hk.
  edestruct (IH v0 (acc ++ [forget_rec (f + r, op)]) (r + 1)) as (recs & Hrecs & Hnm);
    [done | by rewrite Z.add_assoc | done | done | lia | lia | | rewrite Hrecs].
  { lia. }
  rewrite <- app_assoc. eexists. split; [done|]. constructor; [by destruct op | done].
Qed.

(** A state with no batch open: everything read is durable. *)
Definition closed (ops : list (Z * WalOp)) (pos : Z) : ReadState := mkReadState ops None pos pos.

(** The shape of a multi-operation batch. *)
Lemma batch_bytes_multi r1 r2 ops bs :
  batch_bytes (r1 :: r2 :: ops) = Ok bs -> Forall rec_ok (r1 :: r2 :: ops) ->
  let all := r1 :: r2 :: ops in
  exists b fs c,
    fst r1 ≠ 0 /\ u64 (fst r1) /\ u32 (len all) /\ bs = b ++ fs ++ c
    /\ check_contiguous (fst r1 + 0) all = Ok tt
    /\ encode_frame (fst r1) (BeginAtomicBatch (fst r1) (len all)) = Ok b
    /\ encode_frames all = Ok fs
    /\ encode_frame (fst r1) (CommitAtomicBatch (fst r1) (len all)) = Ok c.
Proof.
  destruct r1 as [first op]. cbn [batch_bytes fst]. set (all := _ :: _ :: _). intros Hb Hok.
  destruct (Z.ltb_spec u32_max (len all)); [done|].
  destruct (Z.eqb_spec first 0); [done|]. inv_bind Hb. apply Ok_inj in Hb as <-.
  apply Forall_inv in Hok as (Hs & _). destruct v.
  exists v0, v1, v2. rewrite Z.add_0_r. split_and!; try done.
  unfold u32, u32_max in *. lia.
Qed.

Lemma read_begin ops pos fe first n :
  first ≠ 0 -> 2 <= n ->
  read_op (closed ops pos) fe first (BeginAtomicBatch first n)
  = Continue (mkReadState (ops ++ [(first, BeginAtomicBatch first n)])
                (Some (mkBatch first n 0)) fe pos).
Proof.
  intros Hf Hn. cbn. unfold ReadBatch.new.
  destruct (Z.eqb_spec first 0); [done|]. destruct (Z.ltb_spec n 2); [lia|]. done.
Qed.

(** A whole call is read, and leaves no batch open. *)
Lemma rl_call ops pos c bs rest :
  call_ok c -> call_bytes c = Ok bs ->
  rl (closed ops pos) (bs ++ rest) = rl (closed (ops ++ call_records c) (pos + len bs)) rest.
Proof.
  destruct c as [seq op|[|[seq op] [|r2 l]]]; intros Hok Hb.
  - destruct Hok as (Hs & Hw & Hm & Hf). erewrite rl_encoded by done.
    by rewrite read_op_normal by done.
  - apply Ok_inj in Hb as <-. cbn. by rewrite app_nil_r, Z.add_0_r.
  - apply Forall_inv in Hok as (Hs & Hw & Hm & Hf). erewrite rl_encoded by done.
    by rewrite read_op_normal by done.
  - cbn [call_bytes call_ok] in *.
    destruct (batch_bytes_multi _ _ _ _ Hb Hok) as (b & fs & c & Hn0 & Hu & Hl & -> & Hc & Eb & Ef & Ec).
    cbn [fst] in *. set (all := (seq, op) :: r2 :: l) in *.
    rewrite <- !app_assoc.
    rewrite (rl_encoded _ seq (BeginAtomicBatch seq (len all)) b)
      by (done || by apply marker_fits).
    cbn [forget_seq]. rewrite read_begin by (unfold all; cbn [length]; (done || lia)).
    erewrite rl_ops; [|done|done|done|lia|lia].
    rewrite (rl_encoded _ seq (CommitAtomicBatch seq (len all)) c)
      by (done || by apply marker_fits).
    cbn [forget_seq read_op rs_open_batch rs_ops rs_pos closed].
    unfold ReadBatch.matches_commit. cbn [wb_first_seq wb_op_count wb_ops_read].
    rewrite Z.add_0_l, !Z.eqb_refl. cbn [andb negb].
    rewrite !length_app. unfold closed.
    assert (pos + len b + len fs + len c = pos + Z.of_nat (length b + (length fs + length c))) as -> by lia.
    do 2 f_equal. unfold all. cbn [call_records]. rewrite <- !app_assoc. done.
Qed.

(** What a torn call leaves: nothing, or a batch that was begun and not
    committed. *)
Definition open_tail (recs : list (Z * WalOp)) : Prop :=
  recs = [] \/ exists f n l, recs = (f, BeginAtomicBatch f n) :: l /\ Forall (fun r => is_marker r.2 = false) l.

(** A call cut short leaves the durable length where it was. *)
Lemma rl_call_torn ops pos c bs k :
  call_ok c -> call_bytes c = Ok bs -> (k < length bs)%nat ->
  exists recs, rl (closed ops pos) (take k bs) = Ok (mkReadResult (ops ++ recs) pos) /\ open_tail recs.
Proof.
  destruct c as [seq op|[|[seq op] [|r2 l]]]; intros Hok Hb Hk.
  - destruct Hok as (Hs & Hw & Hm & Hf). erewrite rl_torn by done.
    exists []. rewrite app_nil_r. by split; [|left].
  - apply Ok_inj in Hb as <-. cbn in Hk. lia.
  - apply Forall_inv in Hok as (Hs & Hw & Hm & Hf). erewrite rl_torn by done.
    exists []. rewrite app_nil_r. by split; [|left].
  - cbn [call_bytes call_ok] in *.
    destruct (batch_bytes_multi _ _ _ _ Hb Hok) as (b & fs & c & Hn0 & Hu & Hl & -> & Hc & Eb & Ef & Ec).
    cbn [fst] in *. set (all := (seq, op) :: r2 :: l) in *.
    destruct (decide (k < length b)%nat).
    { rewrite take_app_le by lia. exists []. rewrite app_nil_r. split; [|by left].
      by rewrite (rl_torn _ seq (BeginAtomicBatch seq (len all)) b)
        by (done || by apply marker_fits). }
    rewrite take_app_ge by lia.
    rewrite (rl_encoded _ seq (BeginAtomicBatch seq (len all)) b)
      by (done || by apply marker_fits).
    cbn [forget_seq]. rewrite read_begin by (unfold all; cbn [length]; (done || lia)).
    rewrite length_app in Hk.
    edestruct (rl_ops_torn all fs c) as (recs & Hrecs & Hnm);
      [done | exact Hc | done | exact Ec | lia | lia | | rewrite Hrecs]; [lia|].
    rewrite <- app_assoc. eexists. split; [done|]. right. by eexists _, _, _.
Qed.

(** ** Whole logs *)
Definition calls_records (cs : list call) : list (Z * WalOp) := mjoin (call_records <$> cs).

Lemma write_calls_prefix file cs file' :
  write_calls file cs = Ok file' -> exists bs, file' = file ++ bs.
Proof.
  revert file. induction cs as [|c cs IH]; intros file Hw.
  { apply Ok_inj in Hw as <-. exists []. by rewrite app_nil_r. }
  apply write_calls_cons in Hw as (b & _ & Hw). apply IH in Hw as (bs & ->).
  rewrite <- app_assoc. by eexists.
Qed.

Lemma rl_calls cs file file' bs ops pos rest :
  Forall call_ok cs -> write_calls file cs = Ok file' -> file' = file ++ bs ->
  rl (closed ops pos) (bs ++ rest) = rl (closed (ops ++ calls_records cs) (pos + len bs)) rest.
Proof.
  revert file bs ops pos. induction cs as [|c cs IH]; intros file bs ops pos Hok Hw ->.
  { apply Ok_inj in Hw. symmetry in Hw. apply (f_equal length) in Hw as Hl.
    rewrite length_app in Hl. destruct bs; [|cbn in Hl; lia].
    cbn. by rewrite app_nil_r, Z.add_0_r. }
  apply Forall_cons in Hok as [Hc Hok]. apply write_calls_cons in Hw as (b & Hb & Hw).
  destruct (write_calls_prefix _ _ _ Hw) as (bs' & E).
  rewrite <- app_assoc in E. apply app_inv_head in E as ->.
  rewrite <- app_assoc, (rl_call _ _ c) by done.
  rewrite (IH (file ++ b) bs') by (done || by rewrite app_assoc).
  unfold calls_records. cbn [fmap list_fmap mjoin list_join]. rewrite length_app, <- app_assoc.
  by replace (pos + len b + len bs') with (pos + Z.of_nat (length b + length bs')) by lia.
Qed.

(** Cutting a log: some calls are whole, the next one is torn. *)
Lemma rl_calls_torn cs file file' bs ops pos k :
  Forall call_ok cs -> write_calls file cs = Ok file' -> file' = file ++ bs ->
  (k <= length bs)%nat ->
  exists n kept recs,
    (n <= length cs)%nat
    /\ write_calls file (take n cs) = Ok (file ++ take kept bs) /\ (kept <= k)%nat
    /\ (forall f, write_calls file (take (S n) cs) = Ok f ->
        n = length cs \/ (length file + k < length f)%nat)
    /\ rl (closed ops pos) (take k bs)
       = Ok (mkReadResult (ops ++ calls_records (take n cs) ++ recs) (pos + Z.of_nat kept))
    /\ open_tail recs.
Proof.
  revert file bs ops pos k. induction cs as [|c cs IH]; intros file bs ops pos k Hok Hw -> Hk.
  { apply Ok_inj in Hw. symmetry in Hw. apply (f_equal length) in Hw as Hl.
    rewrite length_app in Hl. destruct bs; [|cbn in Hl; lia].
    exists 0%nat, 0%nat, []. rewrite !take_nil.
    split_and!; [lia | by cbn; rewrite app_nil_r | lia | by left | | by left].
    cbn. by rewrite app_nil_r, Z.add_0_r. }
  apply Forall_cons in Hok as [Hc Hok]. apply write_calls_cons in Hw as (b & Hb & Hw).
  destruct (write_calls_prefix _ _ _ Hw) as (bs' & E).
  rewrite <- app_assoc in E. apply app_inv_head in E as ->.
  rewrite length_app in Hk.
  destruct (decide (k < length b)%nat) as [Hkb|Hkb].
  - destruct (rl_call_torn ops pos c b k) as (recs & Hr & Ht); [done..|].
    exists 0%nat, 0%nat, recs. rewrite (take_app_le b bs' k) by lia. cbn [take].
    rewrite app_nil_r, Z.add_0_r. split_and!; [lia | done | lia | | done | done].
    intros f Hf. apply write_calls_cons in Hf as (b2 & Hb2 & Hf).
    rewrite Hb in Hb2. apply Ok_inj in Hb2 as ->. apply Ok_inj in Hf as <-.
    right. rewrite length_app. lia.
  - destruct (IH (file ++ b) bs' (ops ++ call_records c) (pos + len b) (k - length b)%nat)
      as (n & kept & recs & Hn & Hwn & Hkept & Hmax & Hr & Ht); [done | done | | lia |].
    { by rewrite app_assoc. }
    exists (S n), (length b + kept)%nat, recs.
    rewrite (take_app_ge b bs' k) by lia. rewrite (rl_call _ _ c) by done. rewrite Hr.
    cbn [take length]. split_and!; [lia | | lia | | |done].
    + apply write_calls_cons. exists b. rewrite <- app_assoc in Hwn. split; [done|].
      by rewrite take_app_add.
    + intros f Hf. apply write_calls_cons in Hf as (b2 & Hb2 & Hf).
      rewrite Hb in Hb2. apply Ok_inj in Hb2 as ->.
      destruct (Hmax f Hf) as [->|Hm]; [by left | right; rewrite length_app in Hm; lia].
    + cbn [calls_records fmap list_fmap mjoin list_join]. rewrite <- !app_assoc.
      do 2 f_equal. lia.
Qed.
End Log.

(** ** Recovery of arbitrary files *)
Section Recovery.
Context `{RmpSerde, Crc32}.

Lemma read_op_Continue st fe seq op st' :
  read_op st fe seq op = Continue st' ->
  rs_ops st' = rs_ops st ++ [(seq, op)] /\ rs_pos st' = fe
  /\ (rs_durable_len st' = rs_durable_len st \/ rs_durable_len st' = fe).
Proof.
  destruct op; cbn; intros E;
    repeat (case_match; simplify_eq/=); split_and!; auto.
Qed.

Lemma read_payload_Continue st p st' :
  read_payload st p = Continue st' ->
  exists x, rs_ops st' = rs_ops st ++ [x] /\ rs_pos st' = rs_pos st + 8 + len p
    /\ (rs_durable_len st' = rs_durable_len st \/ rs_durable_len st' = rs_pos st').
Proof.
  unfold read_payload. destruct (decode_wal_op _) as [op|e].
  - intros (? & ? & Hd)%read_op_Continue. eexists. split_and!; [done..|].
    destruct Hd; [by left | right; congruence].
  - intros E. repeat (case_match; simplify_eq/=).
Qed.

Lemma rl_durable n st bs r :
  (length bs < n)%nat -> rl st bs = Ok r ->
  (exists more, rr_records r = rs_ops st ++ more)
  /\ (rr_durable_len r = rs_durable_len st
      \/ exists k recs more,
           (0 < k <= length bs)%nat
           /\ rr_durable_len r = rs_pos st + Z.of_nat k
           /\ rl st (take k bs) = Ok (mkReadResult (rs_ops st ++ recs) (rs_pos st + Z.of_nat k))
           /\ rr_records r = rs_ops st ++ recs ++ more).
Proof.
  revert st bs. induction n as [|n IH]; intros st bs Hn Hr; [lia|].
  destruct (read_frame bs) as [[p rest]|] eqn:Ef.
  2:{ rewrite rl_None in Hr by done. apply Ok_inj in Hr as <-. cbn.
      split; [exists []; by rewrite app_nil_r | by left]. }
  rewrite (rl_Some _ _ _ _ Ef) in Hr.
  destruct (read_payload st p) as [st'| |] eqn:Ep; [| |done].
  2:{ apply Ok_inj in Hr as <-. cbn. split; [exists []; by rewrite app_nil_r | by left]. }
  pose proof (read_frame_consumes _ _ _ Ef) as (f & -> & Hf & H8).
  assert (forall rest', rl st (f ++ rest') = rl st' rest') as Hstep.
  { intros rest'. by rewrite (rl_Some _ _ _ _ (read_frame_local _ _ _ rest' Ef)), Ep. }
  apply read_payload_Continue in Ep as (x & Hops & Hpos & Hdur).
  rewrite length_app in *. apply IH in Hr as [[more Hmore] Hcase]; [|lia].
  rewrite Hops, <- app_assoc in Hmore. split; [by eexists|].
  destruct Hcase as [Hd|(k & recs & more' & Hk & Hd & Hrk & Hrec)].
  - destruct Hdur as [Hdur|Hdur]; [left; congruence | right].
    exists (length f), [x], more. split_and!; [lia | lia | congruence || lia | | done].
    rewrite take_app_length, <- (app_nil_r f), Hstep, rl_None by done.
    unfold finish. rewrite Hops. do 2 f_equal. rewrite app_nil_r. lia.
  - right. exists (length f + k)%nat, (x :: recs), more'. split_and!; [lia | lia | lia | |].
    + rewrite take_app_add, Hstep, Hrk, Hops, <- app_assoc. do 2 f_equal. lia.
    + by rewrite Hrec, Hops, <- app_assoc.
Qed.

Lemma read_path_header c :
  (WAL_HEADER_SIZE <= length c)%nat ->
  read_path (Some c) =
    (_ ← validate_wal_header (take WAL_HEADER_SIZE c); rl initial (drop WAL_HEADER_SIZE c)).
Proof.
  unfold read_path, WAL_HEADER_SIZE. intros Hl.
  destruct (Nat.eqb_spec (length c) 0); [lia|]. by destruct (Nat.ltb_spec (length c) 8); [lia|].
Qed.

(** What truncating to the durable length leaves to be read. *)
Lemma read_path_truncated c r :
  read_path (Some c) = Ok r ->
  0 <= rr_durable_len r <= len c
  /\ exists recs more,
       read_path (truncate_wal_generation_to (Some c) (rr_durable_len r))
       = Ok (mkReadResult recs (rr_durable_len r))
       /\ rr_records r = recs ++ more.
Proof.
  intros Hr. cbn [truncate_wal_generation_to].
  destruct (decide (length c = 0)%nat) as [Hz|Hz].
  { destruct c; [|done]. apply Ok_inj in Hr as <-. cbn. split; [lia|]. by exists [], []. }
  destruct (decide (length c < WAL_HEADER_SIZE)%nat) as [Hs8|Hs8].
  { unfold read_path in Hr. destruct (Nat.eqb_spec (length c) 0); [done|].
    by destruct (Nat.ltb_spec (length c) WAL_HEADER_SIZE); [|lia]. }
  rewrite read_path_header in Hr by lia. apply bind_Ok_inv in Hr as ([] & Hh & Hr).
  assert (length (drop WAL_HEADER_SIZE c) = length c - WAL_HEADER_SIZE)%nat as Hld
    by apply length_drop.
  apply (rl_durable (S (length (drop WAL_HEADER_SIZE c)))) in Hr as [[more Hmore] Hcase]; [|lia].
  assert (exists k recs more,
            (k <= length (drop WAL_HEADER_SIZE c))%nat
            /\ rr_durable_len r = Z.of_nat (WAL_HEADER_SIZE + k)
            /\ rl initial (take k (drop WAL_HEADER_SIZE c))
               = Ok (mkReadResult recs (rr_durable_len r))
            /\ rr_records r = recs ++ more) as (k & recs & more' & Hk & Hd & Hrk & Hrec).
  { destruct Hcase as [Hd|(k & recs & more' & Hk & Hd & Hrk & Hrec)].
    - exists 0%nat, [], more. rewrite Hd. split_and!; [lia | done | done | done].
    - exists k, recs, more'. cbn [initial rs_pos rs_ops] in *. rewrite Hd, <- Nat2Z.inj_add in *.
      split_and!; [lia | done | done | done]. }
  rewrite Hd. unfold WAL_HEADER_SIZE in *. split; [lia|]. exists recs, more'. split; [|done].
  assert ((if Z.of_nat (8 + k) <? len c then take (Z.to_nat (Z.of_nat (8 + k))) c else c)
          = take (8 + k) c) as ->.
  { rewrite Nat2Z.id. destruct (Z.ltb_spec (Z.of_nat (8 + k)) (len c)); [done|].
    rewrite take_ge by lia. done. }
  rewrite read_path_header by (unfold WAL_HEADER_SIZE; rewrite length_take; lia).
  unfold WAL_HEADER_SIZE. rewrite take_take, Nat.min_l, Hh by lia.
  cbn [mbind result_bind]. rewrite <- take_drop_commute, Hrk, Hd. done.
Qed.
End Recovery.

(** ** Logs written from an empty file *)
Section Written.
Context `{RmpSerdeLaws, Crc32Laws}.

Lemma length_header : length write_wal_header = WAL_HEADER_SIZE.
Proof. reflexivity. Qed.

Lemma read_path_body bs : read_path (Some (write_wal_header ++ bs)) = rl initial bs.
Proof.
  rewrite read_path_header by (rewrite length_app, length_header; lia).
  by rewrite take_app_length', drop_app_length' by apply length_header.
Qed.

Lemma rl_closed_None ops pos bs :
  read_frame bs = None -> rl (closed ops pos) bs = Ok (mkReadResult ops pos).
Proof. intros Hr. by rewrite rl_None. Qed.

(** A log of whole calls, followed by bytes that are no frame. *)
Lemma read_path_calls cs file rest :
  Forall call_ok cs -> write_calls write_wal_header cs = Ok file -> read_frame rest = None ->
  read_path (Some (file ++ rest)) = Ok (mkReadResult (calls_records cs) (len file)).
Proof.
  intros Hok Hw Hr. destruct (write_calls_prefix _ _ _ Hw) as [bs ->].
  rewrite <- app_assoc, read_path_body.
  change initial with (closed [] (Z.of_nat WAL_HEADER_SIZE)).
  rewrite (rl_calls _ _ _ bs), rl_closed_None by done.
  by rewrite length_app, length_header, Nat2Z.inj_add.
Qed.

(** A frame whose length field the reader refuses ends the log. *)
Lemma read_frame_oversize p rest :
  MAX_WAL_RECORD_SIZE < len p < 2 ^ 32 -> read_frame (mk_frame p ++ rest) = None.
Proof.
  intros Hp. unfold read_frame, mk_frame, MAX_WAL_RECORD_SIZE in *.
  rewrite <- !app_assoc, split_at_app by apply length_le_bytes. cbn [mbind option_bind].
  rewrite le_val_le_bytes, Z.mod_small by lia.
  destruct (Z.eqb_spec (len p) 0); [done|].
  destruct (Z.ltb_spec (64 * 1024 * 1024) (len p)); [done | lia].
Qed.

Lemma truncate_prefix (file : list byte) k n :
  (n <= k)%nat -> (k <= length file)%nat ->
  truncate_wal_generation_to (Some (take k file)) (Z.of_nat n) = Some (take n file).
Proof.
  intros Hn Hk. cbn. rewrite length_take, Nat2Z.id. f_equal.
  destruct (Z.ltb_spec (Z.of_nat n) (Z.of_nat (k `min` length file))).
  - rewrite take_take. f_equal. lia.
  - replace n with k by lia. done.
Qed.

(** A torn log, with the shape of what the torn call left behind. *)
Lemma torn_log cs file k :
  Forall call_ok cs -> write_calls write_wal_header cs = Ok file ->
  (WAL_HEADER_SIZE <= k <= length file)%nat ->
  exists n kept torn,
    (n <= length cs)%nat /\ (kept <= k)%nat
    /\ write_calls write_wal_header (take n cs) = Ok (take kept file)
    /\ (forall f, write_calls write_wal_header (take (S n) cs) = Ok f ->
        n = length cs \/ (k < length f)%nat)
    /\ read_path (Some (take k file))
       = Ok (mkReadResult (calls_records (take n cs) ++ torn) (Z.of_nat kept))
    /\ read_path (truncate_wal_generation_to (Some (take k file)) (Z.of_nat kept))
       = Ok (mkReadResult (calls_records (take n cs)) (Z.of_nat kept))
    /\ open_tail torn.
Proof.
  intros Hok Hw Hk. destruct (write_calls_prefix _ _ _ Hw) as [bs ->].
  rewrite length_app, length_header in Hk.
  destruct (rl_calls_torn cs write_wal_header _ bs [] (Z.of_nat WAL_HEADER_SIZE)
              (k - WAL_HEADER_SIZE) Hok Hw eq_refl) as (n & kept & recs & Hn & Hwn & Hkept & Hmax & Hr & Htail);
    [lia|].
  assert (forall j, take (WAL_HEADER_SIZE + j) (write_wal_header ++ bs) = write_wal_header ++ take j bs)
    as Htake.
  { intros j. rewrite <- length_header at 1. apply take_app_add. }
  exists n, (WAL_HEADER_SIZE + kept)%nat, recs. rewrite Htake.
  split_and!; [done | lia | done | | | |done].
  - intros f Hf. destruct (Hmax f Hf) as [->|Hlt]; [by left | right].
    rewrite length_header in Hlt. lia.
  - replace k with (WAL_HEADER_SIZE + (k - WAL_HEADER_SIZE))%nat by lia.
    rewrite Htake, read_path_body. change initial with (closed [] (Z.of_nat WAL_HEADER_SIZE)).
    rewrite Hr. do 2 f_equal. lia.
  - rewrite truncate_prefix by (rewrite ?length_app, ?length_header; lia).
    rewrite Htake, <- (app_nil_r (take kept bs)), app_assoc.
    rewrite (read_path_calls (take n cs)) by (done || by apply Forall_take).
    do 2 f_equal. rewrite length_app, length_header, length_take. lia.
Qed.

(** C5.  Crash recovery of a torn log.  Whatever sequence of [append] and
    [append_batch] calls wrote the log, cutting it anywhere after its header
    leaves a file the reader accepts: it reports as durable exactly the bytes
    of the longest run of whole calls that fits, a torn batch counts for
    nothing, and after the truncation to the durable length the log reads
    back as exactly those calls. *)
Theorem torn_log_recovers_whole_calls cs file k :
  Forall call_ok cs -> write_calls write_wal_header cs = Ok file ->
  (WAL_HEADER_SIZE <= k <= length file)%nat ->
  exists n kept torn,
    (n <= length cs)%nat /\ (kept <= k)%nat
    /\ write_calls write_wal_header (take n cs) = Ok (take kept file)
    /\ (forall f, write_calls write_wal_header (take (S n) cs) = Ok f ->
        n = length cs \/ (k < length f)%nat)
    /\ read_path (Some (take k file))
       = Ok (mkReadResult (calls_records (take n cs) ++ torn) (Z.of_nat kept))
    /\ read_path (truncate_wal_generation_to (Some (take k file)) (Z.of_nat kept))
       = Ok (mkReadResult (calls_records (take n cs)) (Z.of_nat kept)).
Proof.
  intros Hok Hw Hk. destruct (torn_log cs file k Hok Hw Hk) as (n & kept & torn & Hn & Hkept & Hwn & Hmax & Hr & Ht & _).
  exists n, kept, torn. by split_and!.
Qed.

(** C17.  Durability of whole logs.  A log written by any sequence of accepted
    calls reads back as exactly the records of those calls, in order, and is
    durable to its last byte. *)
Theorem written_log_reads_back cs file :
  Forall call_ok cs -> write_calls write_wal_header cs = Ok file ->
  read_path (Some file) = Ok (mkReadResult (calls_records cs) (len file)).
Proof. intros. rewrite <- (app_nil_r file). by rewrite (read_path_calls cs), app_nil_r. Qed.

(** C27.  The writer's missing size check.  [append] accepts an operation
    whose payload is over the reader's limit; the record and everything
    written after it are lost to every later reader of the log. *)
Theorem oversize_append_is_lost cs file op seq buf later :
  Forall call_ok cs -> write_calls write_wal_header cs = Ok file ->
  encode_wal_op op = Ok buf -> MAX_WAL_RECORD_SIZE < 8 + len buf < 2 ^ 32 ->
  exists file' n,
    append file op seq = Ok (file', n)
    /\ read_path (Some (file' ++ later)) = Ok (mkReadResult (calls_records cs) (len file)).
Proof.
  intros Hok Hw He Hsz. eexists _, _. split; [unfold append; by rewrite He|].
  rewrite <- app_assoc. apply (read_path_calls cs); [done..|].
  apply read_frame_oversize. rewrite length_app, length_le_bytes. lia.
Qed.
End Written.

Section AnyFile.
Context `{RmpSerde, Crc32}.

(** Recovery is idempotent on any file, whatever its bytes: if a log
    opens at all, truncating it to its durable length leaves a log that opens,
    reads a prefix of the same records, is durable to its end, and which a
    second truncation leaves alone. *)
Theorem recovery_idempotent c r :
  read_path (Some c) = Ok r ->
  0 <= rr_durable_len r <= len c
  /\ exists recs more recovered,
       truncate_wal_generation_to (Some c) (rr_durable_len r) = recovered
       /\ rr_records r = recs ++ more
       /\ read_path recovered = Ok (mkReadResult recs (rr_durable_len r))
       /\ truncate_wal_generation_to recovered (rr_durable_len r) = recovered.
Proof.
  intros Hr. set (recovered := truncate_wal_generation_to (Some c) (rr_durable_len r)).
  destruct (read_path_truncated c r Hr) as [Hd (recs & more & Ht & Hrec)].
  split; [done|]. exists recs, more, recovered. split_and!; [done..|].
  unfold recovered. cbn [truncate_wal_generation_to]. f_equal. destruct (Z.ltb_spec (rr_durable_len r) (len c)) as [Hc|Hc].
  - rewrite length_take. by destruct (Z.ltb_spec (rr_durable_len r)
      (Z.of_nat (Z.to_nat (rr_durable_len r) `min` length c))); [lia|].
  - by destruct (Z.ltb_spec (rr_durable_len r) (len c)); [lia|].
Qed.
End AnyFile.

(** ** A concrete log, for the witnesses: the CRC-32 of IEEE 802.3, bit by bit. *)
Module SampleLog.
Definition crc_step (c : Z) : Z :=
  if Z.odd c then Z.lxor (Z.shiftr c 1) 0xEDB88320 else Z.shiftr c 1.
Definition crc_byte (c : Z) (b : byte) : Z := Nat.iter 8 crc_step (Z.lxor c (b2z b)).
Definition crc : Crc32 :=
  {| crc32_hash bs := Z.lxor (foldl crc_byte 0xFFFFFFFF bs) 0xFFFFFFFF |}.

Example crc_check : @crc32_hash crc (str_of "123456789") = 0xCBF43926.
Proof. by vm_compute. Qed.

Lemma crc_step_range c : u32 c -> u32 (crc_step c).
Proof.
  unfold crc_step, u32. intros Hc.
  assert (0 <= Z.shiftr c 1 < 2 ^ 32) by (rewrite Z.shiftr_div_pow2 by lia; split; [apply Z.div_pos | apply Z.div_lt_upper_bound]; lia).
  case_match; [|done]. apply lxor_range; lia.
Qed.
Lemma crc_laws : @Crc32Laws crc.
Proof.
  constructor. intros bs. cbn. apply (lxor_range 32); [lia | | lia].
  assert (u32 0xFFFFFFFF) as Hi by (unfold u32; lia). revert Hi. generalize 0xFFFFFFFF.
  induction bs as [|b bs IH]; intros c Hc; [exact Hc|]. cbn [foldl]. apply IH. unfold crc_byte.
  apply (Nat.iter_invariant 8 Z crc_step u32); [by intros; apply crc_step_range|].
  apply (lxor_range 32); [lia | exact Hc |]. pose proof (b2z_range b). lia.
Qed.

#[local] Existing Instance crc. #[local] Existing Instance crc_laws.
#[local] Existing Instance Sample.rmp. #[local] Existing Instance Sample.rmp_laws.

Definition calls : list call :=
  [CAppend 1 (EnsureNodeLabel (str_of "Person") 1);
   CBatch [(2, UpsertNode (Sample.node 42 [1; 9] "alice")); (3, UpsertEdge (Sample.edge 5 42 43))];
   CAppend 4 (DeleteNode 42 77)].
Definition log : list byte := match write_calls write_wal_header calls with Ok f => f | Err _ => [] end.

Lemma log_written : write_calls write_wal_header calls = Ok log.
Proof. by vm_compute. Qed.
Lemma calls_ok : Forall call_ok calls.
Proof.
  assert (forall seq op, u64 seq -> op_wf op -> is_marker op = false ->
    match encode_wal_op op with Ok b => 8 + len b <=? MAX_WAL_RECORD_SIZE | Err _ => true end = true ->
    rec_ok (seq, op)) as Hrec.
  { intros seq op Hs Hw Hm Hsz. red. cbn [fst snd]. split_and!; [done..|].
    intros buf Hb. rewrite Hb in Hsz. by apply Z.leb_le. }
  unfold calls. apply Forall_cons_2; [|apply Forall_cons_2; [|apply Forall_cons_2; [|constructor]]].
  - apply Hrec; [unfold u64; lia | split; [done | unfold u32; lia] | done | by vm_compute].
  - apply Forall_cons_2; [|apply Forall_cons_2; [|constructor]]; apply Hrec.
    1, 5: unfold u64; lia.
    1: exact Sample.node_ok. 3: exact Sample.edge_ok. 1, 3: reflexivity. all: by vm_compute.
  - apply Hrec; [unfold u64; lia | cbn; unfold u64, i64; lia | done | by vm_compute].
Qed.

(** Cut inside the batch: only the first call survives. *)
Lemma torn_log_witness :
  exists n kept torn,
    (n <= 3)%nat /\ write_calls write_wal_header (take n calls) = Ok (take kept log)
    /\ read_path (Some (take 100 log))
       = Ok (mkReadResult (calls_records (take n calls) ++ torn) (Z.of_nat kept)).
Proof.
  destruct (torn_log_recovers_whole_calls calls log 100 calls_ok log_written)
    as (n & kept & torn & Hn & _ & Hw & _ & Hr & _).
  - split; apply Nat.leb_le; by vm_compute.
  - exists n, kept, torn. exact (conj Hn (conj Hw Hr)).
Defined.

Lemma written_log_witness : read_path (Some log) = Ok (mkReadResult (calls_records calls) (len log)).
Proof. exact (written_log_reads_back calls log calls_ok log_written). Defined.

(** A node with a dense vector of [n] zeros. *)
Definition big (n : nat) : WalOp :=
  UpsertNode (mkNodeRecord 7 (NodeLabels.mk [1]) (str_of "big") [] 0 0 0
                (Some (replicate n 0)) None 0).

Lemma length_join_u32 l : length (mjoin (write_f32 <$> l)) = (4 * length l)%nat.
Proof.
  induction l as [|x l IH]; [done|].
  change (mjoin (write_f32 <$> x :: l)) with (write_f32 x ++ mjoin (write_f32 <$> l)).
  rewrite length_app, IH. cbn [length]. unfold write_f32. rewrite length_le_bytes. lia.
Qed.

Lemma big_encodes n : exists buf, encode_wal_op (big n) = Ok buf /\ len buf = 4 * Z.of_nat n + 49.
Proof.
  destruct (encode_wal_op (big n)) as [buf|e] eqn:He.
  - exists buf. split; [done|].
    cbn [encode_wal_op big] in He. unfold encode_node in He. inv_bind He. apply Ok_inj in He as <-.
    cbn [nr_dense_vector encode_dense nr_sparse_vector encode_sparse nr_label_ids].
    apply Ok_inj in Hv as <-. apply Ok_inj in Hv0 as <-.
    rewrite !length_app, (length_join_u32 (replicate n 0)), length_replicate, length_join_u32.
    unfold write_u8, write_u16, write_u64, write_i64, write_f32, write_u32.
    rewrite !length_le_bytes, NodeLabels.as_slice_mk.
    cbn -[Z.of_nat Z.to_nat Nat.mul le_bytes]. rewrite ?length_le_bytes. lia.
  - exfalso. assert (is_ok (encode_wal_op (big n)) = true) as Hok; [|by rewrite He in Hok].
    apply encode_ok_iff. split; [done|]. by exists [z2b 0x80].
Qed.

Lemma oversize_witness :
  exists n file' sz, append log (big n) 5 = Ok (file', sz)
    /\ read_path (Some (file' ++ write_wal_header))
       = Ok (mkReadResult (calls_records calls) (len log)).
Proof.
  exists (Z.to_nat (2 ^ 24)). destruct (big_encodes (Z.to_nat (2 ^ 24))) as (buf & He & Hl).
  apply (oversize_append_is_lost calls log (big (Z.to_nat (2 ^ 24))) 5 buf write_wal_header
           calls_ok log_written He).
  rewrite Hl. unfold MAX_WAL_RECORD_SIZE. lia.
Defined.

Definition torn_result : WalReadResult :=
  match read_path (Some (take 100 log)) with Ok r => r | Err _ => mkReadResult [] 0 end.
Lemma recovery_idempotent_witness :
  rr_durable_len torn_result = 37
  /\ exists recs, read_path (truncate_wal_generation_to (Some (take 100 log)) 37)
                  = Ok (mkReadResult recs 37).
Proof.
  assert (read_path (Some (take 100 log)) = Ok torn_result) as Hr by (vm_compute; reflexivity).
  assert (rr_durable_len torn_result = 37) as E by (vm_compute; reflexivity). split; [done|].
  destruct (recovery_idempotent _ _ Hr) as (_ & recs & more & recovered & <- & _ & Ht & _).
  rewrite E in Ht. by exists recs.
Defined.
End SampleLog.
