(* ===== verification/WalSync.v ===== *)
(** Group commit (src/wal_sync.rs, and [wal_append], [sync], [freeze_memtable] of
    src/engine/mod.rs): writes wait in a buffer; a thread syncs it.

    Every section under the lock of the sync state is a function of that state.
    The engine runs one write request at a time, so one writer can wait for
    room; the thread may wake at any time. *)
From S2P Require Import Prelude Types Encoding Wal WalFacts.

Definition MAX_SYNC_FAILURES : Z := 5.

(** The writer of a generation: the bytes given to it, and how many a sync that
    succeeded has made durable.  A sync that fails makes no promise. *)
Record WalWriter : Type := mkWriter { ww_bytes : list byte; ww_durable : nat }.
Definition writer_sync (outcome : res unit) (w : WalWriter) : WalWriter * res unit :=
  match outcome with
  | Ok _ => (mkWriter (ww_bytes w) (length (ww_bytes w)), Ok tt)
  | Err e => (w, Err e)
  end.

Record WalSyncState : Type := mkSync {
  wal_writer : WalWriter;
  buffered_bytes : Z;
  shutdown : bool;
  sync_error_count : Z;
  poisoned : option string
}.
Definition set_writer (w : WalWriter) (s : WalSyncState) : WalSyncState :=
  mkSync w (buffered_bytes s) (shutdown s) (sync_error_count s) (poisoned s).
Definition drained (w : WalWriter) (s : WalSyncState) : WalSyncState := mkSync w 0 (shutdown s) 0 (poisoned s).

Section Sections.
Context `{RmpSerde, Crc32}.
(** The configuration of the mode; opening requires [0 < soft < hard]. *)
Context (hard_cap_bytes : Z).

(** One turn of [sync_thread_loop], after its wait: the state, whether the
    waiting writers are notified, whether the loop goes on. *)
Definition sync_thread_turn (outcome : res unit) (s : WalSyncState) : WalSyncState * bool * bool :=
  if shutdown s && (buffered_bytes s =? 0) then (s, false, false)
  else if 0 <? buffered_bytes s then
    match writer_sync outcome (wal_writer s) with
    | (w, Ok _) => (drained w s, true, negb (shutdown s))
    | (w, Err e) =>
        let count := sync_error_count s + 1 in
        if MAX_SYNC_FAILURES <=? count
        then (mkSync w (buffered_bytes s) (shutdown s) count (Some "WAL sync failed consecutive times"%string), true, false)
        else (mkSync w (buffered_bytes s) (shutdown s) count (poisoned s), false, negb (shutdown s))
    end
  else (s, false, negb (shutdown s)).

(** [wal_append] from its start, or from its return of the wait for room, up to
    its end or its next wait ([None]). *)
Definition wal_append_group (c : call) (s : WalSyncState) : WalSyncState * option (res unit) :=
  match poisoned s with
  | Some msg => (s, Some (Err (WalSyncFailed msg)))
  | None =>
      if hard_cap_bytes <=? buffered_bytes s then (s, None)
      else
        match do_call (ww_bytes (wal_writer s)) c with
        | Err e => (s, Some (Err e))
        | Ok (bytes, bytes_written) =>
            (mkSync (mkWriter bytes (ww_durable (wal_writer s))) (buffered_bytes s + bytes_written)
               (shutdown s) (sync_error_count s) (poisoned s), Some (Ok tt))
        end
  end.

(** [sync], and the first step of [freeze_memtable]; notifies when it drains. *)
Definition sync_group (outcome : res unit) (s : WalSyncState) : WalSyncState * res unit :=
  match poisoned s with
  | Some msg => (s, Err (WalSyncFailed msg))
  | None =>
      if 0 <? buffered_bytes s then
        match writer_sync outcome (wal_writer s) with
        | (w, Ok _) => (drained w s, Ok tt)
        | (w, Err e) => (set_writer w s, Err e)
        end
      else (s, Ok tt)
  end.

(** [shutdown_sync_thread], before and after it joins the thread. *)
Definition request_shutdown (s : WalSyncState) : WalSyncState :=
  mkSync (wal_writer s) (buffered_bytes s) true (sync_error_count s) (poisoned s).
Definition final_sync (outcome : res unit) (s : WalSyncState) : WalSyncState * res unit :=
  if 0 <? buffered_bytes s then
    match writer_sync outcome (wal_writer s) with
    | (w, Ok _) => (mkSync w 0 (shutdown s) (sync_error_count s) (poisoned s), Ok tt)
    | (w, Err e) => (set_writer w s, Err e)
    end
  else (s, Ok tt).

(** ** The threads together *)
Inductive Writer : Type :=
| Idle
| Waiting (notified : bool) (c : call).
Record System : Type := mkSystem {
  sys_state : WalSyncState;
  sys_thread : bool;       (** the sync thread runs *)
  sys_writer : Writer;
  sys_accepted : list call; (** the calls of this generation that returned [Ok] *)
  sys_synced : nat         (** how many of them were there at the last sync that succeeded *)
}.

Definition notify (notified : bool) (w : Writer) : Writer :=
  match w with Waiting false c => Waiting notified c | w => w end.
(** What a writer's section leaves. *)
Definition after_append (c : call) (sys : System) : System :=
  match wal_append_group c (sys_state sys) with
  | (s, None) => mkSystem s (sys_thread sys) (Waiting false c) (sys_accepted sys) (sys_synced sys)
  | (s, Some (Ok _)) => mkSystem s (sys_thread sys) Idle (sys_accepted sys ++ [c]) (sys_synced sys)
  | (s, Some (Err _)) => mkSystem s (sys_thread sys) Idle (sys_accepted sys) (sys_synced sys)
  end.
(** What a request that synced leaves: everything accepted is durable. *)
Definition after_sync (r : WalSyncState * res unit) (sys : System) : System :=
  mkSystem r.1 (sys_thread sys) (sys_writer sys) (sys_accepted sys)
    (if is_ok r.2 then length (sys_accepted sys) else sys_synced sys).

Inductive Event : Type :=
| Tick (outcome : res unit)
| Append (c : call)
| Wake
| Sync (outcome : res unit)
| Freeze (outcome : res unit)
| Shutdown
| FinalSync (outcome : res unit).

(** [None]: the event cannot happen in this state. *)
Definition step (sys : System) (e : Event) : option System :=
  let s := sys_state sys in
  match e, sys_writer sys with
  | Tick outcome, writer =>
      if sys_thread sys then
        let '(s', notified, on) := sync_thread_turn outcome s in
        Some (mkSystem s' on (notify notified writer) (sys_accepted sys)
                (if (0 <? buffered_bytes s) && is_ok outcome then length (sys_accepted sys) else sys_synced sys))
      else None
  | Append c, Idle => if shutdown s then None else Some (after_append c sys)
  | Wake, Waiting _ c => Some (after_append c sys)
  | Sync outcome, Idle => if shutdown s then None else Some (after_sync (sync_group outcome s) sys)
  | Freeze outcome, Idle =>
      if shutdown s then None
      else
        match sync_group outcome s with
        | (s', Ok _) =>
            (** the next generation, opened with a header that is synced *)
            let w := mkWriter write_wal_header (length write_wal_header) in
            Some (mkSystem (set_writer w s') (sys_thread sys) Idle [] 0)
        | r => Some (after_sync r sys)
        end
  | Shutdown, Idle => Some (mkSystem (request_shutdown s) (sys_thread sys) Idle (sys_accepted sys) (sys_synced sys))
  | FinalSync outcome, Idle =>
      if shutdown s && negb (sys_thread sys) then Some (after_sync (final_sync outcome s) sys) else None
  | _, _ => None
  end.

Fixpoint run (sys : System) (es : list Event) : option System :=
  match es with [] => Some sys | e :: es => sys ← step sys e; run sys es end.

Definition opened : System :=
  mkSystem (mkSync (mkWriter write_wal_header (length write_wal_header)) 0 false 0 None) true Idle [] 0.
Definition reachable (sys : System) : Prop := exists es, run opened es = Some sys.
End Sections.
