(* ===== verification/WalSyncFacts.v ===== *)
(** Group commit: what a crash can lose, how much waits to be synced, and that a
    writer that waits for room is released. *)
From S2P Require Import Prelude Types Encoding Wal WalFacts WalSync.

Section Facts.
Context `{RmpSerdeLaws, Crc32Laws}.
Context (hard_cap_bytes : Z) (Hhard : 0 < hard_cap_bytes).

(** The log: its bytes are those of the accepted calls, and the counts agree. *)
Record log_inv (w : WalWriter) (buffered : Z) (accepted : list call) (synced : nat) : Prop := {
  li_bytes : write_calls write_wal_header accepted = Ok (ww_bytes w);
  li_durable : (WAL_HEADER_SIZE <= ww_durable w <= length (ww_bytes w))%nat;
  li_buffered : buffered = len (ww_bytes w) - Z.of_nat (ww_durable w);
  li_synced : (synced <= length accepted)%nat
              /\ exists f, write_calls write_wal_header (take synced accepted) = Ok f /\ (length f <= ww_durable w)%nat;
  li_cap : buffered < hard_cap_bytes
           \/ exists c bs, last accepted = Some c /\ call_bytes c = Ok bs /\ buffered < hard_cap_bytes + len bs
}.
(** The threads: who is poisoned, who runs, who waits for what. *)
Record control_inv (sys : System) : Prop := {
  ci_errors : 0 <= sync_error_count (sys_state sys) <= MAX_SYNC_FAILURES
              /\ (poisoned (sys_state sys) = None -> sync_error_count (sys_state sys) < MAX_SYNC_FAILURES);
  ci_stopped : sys_thread sys = false -> shutdown (sys_state sys) = true \/ is_Some (poisoned (sys_state sys));
  ci_poisoned : is_Some (poisoned (sys_state sys)) -> sys_thread sys = false;
  ci_writer : match sys_writer sys with
              | Idle => True
              | Waiting notified _ =>
                  shutdown (sys_state sys) = false
                  /\ if notified then is_Some (poisoned (sys_state sys)) \/ buffered_bytes (sys_state sys) < hard_cap_bytes
                     else poisoned (sys_state sys) = None /\ hard_cap_bytes <= buffered_bytes (sys_state sys)
              end
}.
Definition sync_inv (sys : System) : Prop :=
  log_inv (wal_writer (sys_state sys)) (buffered_bytes (sys_state sys)) (sys_accepted sys) (sys_synced sys)
  /\ control_inv sys.

(** ** The log *)
Lemma log_inv_opened : log_inv (mkWriter write_wal_header (length write_wal_header)) 0 [] 0.
Proof.
  split; cbn [ww_bytes ww_durable]; rewrite ?length_header; try done; try lia.
  split; [done|]. exists write_wal_header. by rewrite length_header.
Qed.
Lemma log_inv_buffered w b acc n : log_inv w b acc n -> 0 <= b.
Proof. intros [_ Hd -> _ _]. lia. Qed.
(** A sync that succeeds, and a state with nothing to sync, are durable whole. *)
Lemma log_inv_drained w b acc n :
  log_inv w b acc n -> log_inv (mkWriter (ww_bytes w) (length (ww_bytes w))) 0 acc (length acc).
Proof.
  intros [Hb Hd Hn _ _]. split; cbn [ww_bytes ww_durable]; [done|lia|lia| |by left].
  split; [done|]. exists (ww_bytes w). by rewrite firstn_all.
Qed.
Lemma log_inv_empty w acc n : log_inv w 0 acc n -> log_inv w 0 acc (length acc).
Proof.
  intros Hl. assert (w = mkWriter (ww_bytes w) (length (ww_bytes w))) as E.
  { destruct Hl as [_ Hd Hn _ _], w as [bytes durable]. cbn in *. f_equal. lia. }
  rewrite E. by eapply log_inv_drained.
Qed.
Lemma write_calls_app file cs1 cs2 file2 :
  write_calls file (cs1 ++ cs2) = Ok file2 <->
  exists file1, write_calls file cs1 = Ok file1 /\ write_calls file1 cs2 = Ok file2.
Proof.
  revert file. induction cs1 as [|c cs IH]; intros file; cbn [write_calls app].
  - split; [by exists file|]. by intros (f & <-%Ok_inj & E).
  - destruct (do_call file c) as [[f m]|e]; cbn [mbind result_bind]; [apply IH|]. split; [done|by intros (? & ? & _)].
Qed.
Lemma log_inv_append w b acc n c bytes m :
  log_inv w b acc n -> b < hard_cap_bytes -> do_call (ww_bytes w) c = Ok (bytes, m) ->
  log_inv (mkWriter bytes (ww_durable w)) (b + m) (acc ++ [c]) n.
Proof.
  intros [Hb Hd -> [Hs (f & Hf & Hlf)] _] Hcap Hc. pose proof Hc as Hcall.
  apply do_call_bytes in Hcall as (bs & Hbs & Ebytes & ->).
  split; cbn [ww_bytes ww_durable].
  - apply write_calls_app. exists (ww_bytes w). split; [done|]. cbn [write_calls]. by rewrite Hc.
  - rewrite Ebytes, length_app. lia.
  - rewrite Ebytes, length_app. lia.
  - rewrite length_app, take_app_le by done. split; [lia|eauto].
  - right. exists c, bs. rewrite last_snoc. split_and!; [done..|lia].
Qed.

(** ** The steps *)
Lemma after_append_inv c sys :
  sync_inv sys -> shutdown (sys_state sys) = false -> sync_inv (after_append hard_cap_bytes c sys).
Proof.
  intros [Hl [He Hst Hp Hw]] Hsd. unfold after_append, wal_append_group.
  destruct (poisoned (sys_state sys)) as [msg|] eqn:Ep.
  { split; [done|]. by split; cbn; rewrite ?Ep. }
  destruct (Z.leb_spec hard_cap_bytes (buffered_bytes (sys_state sys))).
  { split; [done|]. by split; cbn; rewrite ?Ep. }
  destruct (do_call _ c) as [[bytes m]|e] eqn:Ec; (split; [|split; cbn; by rewrite ?Ep]); [|done].
  by eapply log_inv_append.
Qed.

Lemma sync_group_spec outcome sys :
  sync_inv sys ->
  match sync_group outcome (sys_state sys) with
  | (s, Ok _) =>
      log_inv (wal_writer s) 0 (sys_accepted sys) (length (sys_accepted sys)) /\ buffered_bytes s = 0
      /\ shutdown s = shutdown (sys_state sys) /\ poisoned s = None /\ poisoned (sys_state sys) = None
      /\ 0 <= sync_error_count s < MAX_SYNC_FAILURES
  | (s, Err _) => s = sys_state sys
  end.
Proof.
  intros [Hl [[He Hn] _ _ _]]. unfold sync_group. destruct (poisoned (sys_state sys)) eqn:Ep; [done|].
  specialize (Hn eq_refl). destruct (Z.ltb_spec 0 (buffered_bytes (sys_state sys))).
  - destruct outcome as [[]|e]; cbn [writer_sync drained set_writer]; [|by destruct (sys_state sys)].
    split; [by eapply log_inv_drained|]. cbn. by rewrite Ep.
  - pose proof (log_inv_buffered _ _ _ _ Hl). assert (buffered_bytes (sys_state sys) = 0) as E0 by lia.
    rewrite E0 in Hl. split; [by eapply log_inv_empty|]. split_and!; try done; lia.
Qed.

Lemma after_sync_inv outcome sys :
  sync_inv sys -> sys_writer sys = Idle -> sync_inv (after_sync (sync_group outcome (sys_state sys)) sys).
Proof.
  intros Hinv Hidle. pose proof (sync_group_spec outcome sys Hinv) as Hs. destruct Hinv as [Hl Hc].
  destruct (sync_group outcome (sys_state sys)) as [s [[]|e]]; unfold after_sync; cbn [fst snd is_ok].
  - destruct Hs as (Hl' & Hb & Hsd & Hp & Hp' & Hcount). split; cbn; [by rewrite Hb|].
    destruct Hc as [_ Hst _ _]. split; cbn; rewrite ?Hidle, ?Hsd; try done; [split; [lia|by intros; lia]| |].
    + intros Ht. destruct (Hst Ht) as [->|[? E]]; [by left|congruence].
    + intros [? ?]. congruence.
  - subst s. by destruct sys.
Qed.

Lemma final_sync_inv outcome sys :
  sync_inv sys -> sys_writer sys = Idle -> sync_inv (after_sync (final_sync outcome (sys_state sys)) sys).
Proof.
  intros [Hl Hc] Hidle. pose proof (log_inv_buffered _ _ _ _ Hl). unfold final_sync, after_sync.
  destruct (Z.ltb_spec 0 (buffered_bytes (sys_state sys))).
  - destruct outcome as [[]|e]; cbn [writer_sync fst snd is_ok].
    + split; [by eapply log_inv_drained|]. destruct Hc as [He Hst Hp Hw]. split; cbn; try done. by rewrite Hidle.
    + destruct sys as [[] ? ? ? ?]. split; [done|]. by destruct Hc.
  - cbn [fst snd is_ok]. assert (buffered_bytes (sys_state sys) = 0) as E0 by lia.
    split; cbn; [rewrite E0 in *; by eapply log_inv_empty|]. by destruct Hc.
Qed.

(** A turn of the thread: after it, a writer that still waits, waits for one
    more failure. *)
Lemma turn_spec outcome sys s notified on :
  sync_inv sys -> sys_thread sys = true -> sync_thread_turn outcome (sys_state sys) = (s, notified, on) ->
  let synced := if (0 <? buffered_bytes (sys_state sys)) && is_ok outcome then length (sys_accepted sys) else sys_synced sys in
  log_inv (wal_writer s) (buffered_bytes s) (sys_accepted sys) synced
  /\ control_inv (mkSystem s on (notify notified (sys_writer sys)) (sys_accepted sys) synced)
  /\ (hard_cap_bytes <= buffered_bytes (sys_state sys) ->
      notified = true \/ sync_error_count s = sync_error_count (sys_state sys) + 1).
Proof.
  intros [Hl [[He Hn] Hst Hp Hw]] Ht E. unfold sync_thread_turn in E. pose proof (log_inv_buffered _ _ _ _ Hl) as Hb.
  assert (poisoned (sys_state sys) = None) as Ep.
  { apply eq_None_not_Some. intros Hpo. rewrite (Hp Hpo) in Ht. done. }
  specialize (Hn Ep).
  destruct (Z.ltb_spec 0 (buffered_bytes (sys_state sys))) as [Hpos|Hz].
  - rewrite (proj2 (Z.eqb_neq _ 0)), andb_false_r in E by lia. destruct outcome as [[]|e]; cbn [writer_sync is_ok andb] in *.
    + injection E as <- <- <-. split; [by eapply log_inv_drained|]. split; [|by left].
      split; cbn; rewrite ?Ep; [by split| | |].
      * intros Hsd. left. by destruct (shutdown (sys_state sys)).
      * by intros [].
      * destruct (sys_writer sys) as [|[] c]; [done| |]; cbn; (split; [by destruct Hw|by right]).
    + destruct (Z.leb_spec MAX_SYNC_FAILURES (sync_error_count (sys_state sys) + 1)); injection E as <- <- <-;
        (split; [done|]; split; [|by auto]); split; cbn; rewrite ?Ep.
      * split; [lia|done].
      * intros _. right. by eexists.
      * done.
      * destruct (sys_writer sys) as [|[] c]; [done| |]; cbn; (split; [by destruct Hw|left; by eexists]).
      * split; [lia|intros; lia].
      * intros Hsd. left. by destruct (shutdown (sys_state sys)).
      * by intros [].
      * destruct (sys_writer sys) as [|[] c]; [done| |]; by rewrite Ep in Hw.
  - assert (buffered_bytes (sys_state sys) = 0) as E0 by lia. rewrite E0, Z.eqb_refl, andb_true_r in E. cbn [andb].
    assert ((s, notified, on) = (sys_state sys, false, negb (shutdown (sys_state sys)))) as Es.
    { rewrite <- E. by destruct (shutdown (sys_state sys)). }
    injection Es as -> -> ->. split; [done|]. split; [|lia]. split; cbn; rewrite ?Ep; [by split|..].
    + intros Hsd. left. by destruct (shutdown (sys_state sys)).
    + by intros [].
    + rewrite Ep in Hw. by destruct (sys_writer sys) as [|[] c].
Qed.

Lemma step_inv sys e sys' : sync_inv sys -> step hard_cap_bytes sys e = Some sys' -> sync_inv sys'.
Proof.
  intros Hinv E. unfold step in E. destruct e as [outcome|c| |outcome|outcome| |outcome].
  - destruct (sys_thread sys) eqn:Et; [|done]. destruct (sync_thread_turn outcome (sys_state sys)) as [[s notified] on] eqn:Eturn.
    injection E as <-. destruct (turn_spec _ _ _ _ _ Hinv Et Eturn) as (Hl & Hc & _). by split.
  - destruct (sys_writer sys); [|done]. destruct (shutdown (sys_state sys)) eqn:Es; [done|]. injection E as <-.
    by apply after_append_inv.
  - destruct (sys_writer sys) eqn:Ew; [done|]. injection E as <-. apply after_append_inv; [done|].
    destruct Hinv as [_ [_ _ _ Hw]]. rewrite Ew in Hw. by destruct Hw.
  - destruct (sys_writer sys) eqn:Ew; [|done]. destruct (shutdown (sys_state sys)) eqn:Es; [done|]. injection E as <-.
    by apply after_sync_inv.
  - destruct (sys_writer sys) eqn:Ew; [|done]. destruct (shutdown (sys_state sys)) eqn:Es; [done|].
    pose proof (after_sync_inv outcome sys Hinv Ew) as Hs. pose proof (sync_group_spec outcome sys Hinv) as Hg.
    destruct (sync_group outcome (sys_state sys)) as [s [[]|e]]; injection E as <-; [|done].
    destruct Hg as (_ & Hb & _). destruct Hs as [_ [He Hst Hp _]]. split; cbn [sys_state wal_writer buffered_bytes set_writer sys_accepted sys_synced].
    + rewrite Hb. exact log_inv_opened.
    + by split.
  - destruct (sys_writer sys) eqn:Ew; [|done]. injection E as <-. destruct Hinv as [Hl [He Hst Hp Hw]].
    split; [done|]. split; cbn; auto.
  - destruct (sys_writer sys) eqn:Ew; [|done]. destruct (shutdown _ && _); [|done]. injection E as <-. by apply final_sync_inv.
Qed.

Lemma run_inv es sys sys' : sync_inv sys -> run hard_cap_bytes sys es = Some sys' -> sync_inv sys'.
Proof.
  revert sys. induction es as [|e es IH]; intros sys Hinv E; cbn [run] in E; [by injection E as <-|].
  destruct (step hard_cap_bytes sys e) eqn:Es; [|done]. eapply IH; [by eapply step_inv|exact E].
Qed.
Lemma opened_inv : sync_inv opened.
Proof. split; [exact log_inv_opened|]. split; cbn; try done; by intros []. Qed.
Lemma reachable_inv sys : reachable hard_cap_bytes sys -> sync_inv sys.
Proof. intros [es E]. eapply run_inv; [exact opened_inv|exact E]. Qed.

(** ** What the steps promise *)

(** C16.  Group commit loses nothing it promised.  However writes, syncs, the
    thread's turns and failures interleaved, cut the file anywhere past the
    bytes known durable: recovery reads the calls accepted so far up to some
    point, and that point is not before the last sync that succeeded.  A
    [sync] that answers [Ok] makes every accepted call durable. *)
Theorem group_commit_crash_safe sys k :
  reachable hard_cap_bytes sys -> Forall call_ok (sys_accepted sys) ->
  (ww_durable (wal_writer (sys_state sys)) <= k <= length (ww_bytes (wal_writer (sys_state sys))))%nat ->
  (exists n kept torn,
    (sys_synced sys <= n <= length (sys_accepted sys))%nat
    /\ read_path (Some (take k (ww_bytes (wal_writer (sys_state sys)))))
       = Ok (mkReadResult (calls_records (take n (sys_accepted sys)) ++ torn) (Z.of_nat kept))
    /\ read_path (truncate_wal_generation_to (Some (take k (ww_bytes (wal_writer (sys_state sys))))) (Z.of_nat kept))
       = Ok (mkReadResult (calls_records (take n (sys_accepted sys))) (Z.of_nat kept)))
  /\ forall outcome s, sync_group outcome (sys_state sys) = (s, Ok tt) ->
     ww_bytes (wal_writer s) = ww_bytes (wal_writer (sys_state sys))
     /\ ww_durable (wal_writer s) = length (ww_bytes (wal_writer s)).
Proof.
  intros Hr Hok Hk. apply reachable_inv in Hr as Hinv. split.
  - destruct Hinv as [[Hb Hd _ [Hn (f & Hf & Hlf)] _] _].
    destruct (torn_log _ _ k Hok Hb ltac:(lia)) as (n & kept & torn & Hlen & _ & _ & Hmax & Hread & Htrunc & _).
    exists n, kept, torn. split; [|by split]. split; [|done].
    destruct (le_lt_dec (sys_synced sys) n) as [|Hlt]; [done|exfalso].
    rewrite <- (take_drop (S n) (take (sys_synced sys) (sys_accepted sys))), take_take, Nat.min_l in Hf by lia.
    apply write_calls_app in Hf as (f1 & Hf1 & Hf2). destruct (write_calls_prefix _ _ _ Hf2) as [bs ->].
    rewrite length_app in Hlf. destruct (Hmax f1 Hf1); lia.
  - intros outcome s E. pose proof (sync_group_spec outcome sys Hinv) as Hs. rewrite E in Hs. destruct Hs as ([Hb Hd Hn _ _] & _).
    destruct Hinv as [[Hb' _ _ _ _] _]. rewrite Hb in Hb'. apply Ok_inj in Hb'. split; [done|lia].
Qed.

(** C33.  What waits for a sync is bounded by the cap and one write.  The count
    of buffered bytes is exact, and when no accepted call writes more than
    [limit] bytes, it is less than the cap and [limit] together. *)
Theorem unsynced_bytes_bounded sys limit :
  reachable hard_cap_bytes sys -> 0 <= limit ->
  (forall c bs, c ∈ sys_accepted sys -> call_bytes c = Ok bs -> len bs <= limit) ->
  let w := wal_writer (sys_state sys) in
  buffered_bytes (sys_state sys) = len (ww_bytes w) - Z.of_nat (ww_durable w)
  /\ 0 <= buffered_bytes (sys_state sys) < hard_cap_bytes + limit.
Proof.
  intros [Hl _]%reachable_inv Hlimit Hmax w. pose proof (log_inv_buffered _ _ _ _ Hl). destruct Hl as [_ _ Hb _ Hcap].
  split; [exact Hb|]. split; [done|]. destruct Hcap as [?|(c & bs & Hlast & Hbs & ?)]; [lia|].
  pose proof (Hmax c bs (last_Some_elem_of _ _ Hlast) Hbs). lia.
Qed.

(** ** Progress *)
Lemma wake_returns sys c :
  sync_inv sys -> sys_writer sys = Waiting true c ->
  exists sys', step hard_cap_bytes sys Wake = Some sys' /\ sys_writer sys' = Idle.
Proof.
  intros [_ [_ _ _ Hw]] Ew. rewrite Ew in Hw. destruct Hw as [_ Hw]. unfold step. rewrite Ew. eexists. split; [done|].
  unfold after_append, wal_append_group. destruct (poisoned (sys_state sys)) eqn:Ep; [done|].
  destruct Hw as [[? [=]]|Hw]. destruct (Z.leb_spec hard_cap_bytes (buffered_bytes (sys_state sys))); [lia|].
  by destruct (do_call _ c) as [[]|].
Qed.

(** The writer got its answer, or the thread has notified it and it gets its
    answer when it wakes: a writer nobody notified is not released, even when
    there is room. *)
Definition released (sys : System) : Prop :=
  sys_writer sys = Idle
  \/ exists c sys', sys_writer sys = Waiting true c /\ step hard_cap_bytes sys Wake = Some sys' /\ sys_writer sys' = Idle.

Lemma waiting_step sys c e sys' :
  sync_inv sys -> sys_writer sys = Waiting false c -> step hard_cap_bytes sys e = Some sys' ->
  released sys'
  \/ sys_writer sys' = Waiting false c
     /\ sync_error_count (sys_state sys')
        = sync_error_count (sys_state sys) + (match e with Tick _ => 1 | _ => 0 end).
Proof.
  intros Hinv Ew E. pose proof (step_inv _ _ _ Hinv E) as Hinv'. pose proof Hinv as [_ [_ _ _ Hw]]. rewrite Ew in Hw.
  destruct Hw as (_ & Ep & Hcap). unfold step in E. rewrite Ew in E. destruct e; try done.
  - destruct (sys_thread sys) eqn:Et; [|done]. destruct (sync_thread_turn outcome (sys_state sys)) as [[s notified] on] eqn:Eturn.
    injection E as <-. destruct (turn_spec _ _ _ _ _ Hinv Et Eturn) as (_ & _ & [->|Hc]); [done| |].
    + left. right. exists c. destruct (wake_returns _ c Hinv' eq_refl) as (woken & Hwake & Hidle). by exists woken.
    + destruct notified; [|right; by split]. left. right. exists c. destruct (wake_returns _ c Hinv' eq_refl) as (woken & Hwake & Hidle). by exists woken.
  - injection E as <-. right. unfold after_append, wal_append_group. rewrite Ep.
    rewrite (proj2 (Z.leb_le _ _)) by done. cbn. split; [done|lia].
Qed.

(** How many turns the thread takes. *)
Fixpoint turns (es : list Event) : Z :=
  match es with [] => 0 | e :: es => (match e with Tick _ => 1 | _ => 0 end) + turns es end.

(** C32.  A writer that waits for room is released.  The thread can always take
    its next turn, and whatever happens, by its fifth turn the writer has
    returned, or the thread has notified it and nothing is left to wait for: the
    buffer was drained, or the log was poisoned and the writer gets the error. *)
Theorem blocked_writer_released sys c :
  reachable hard_cap_bytes sys -> sys_writer sys = Waiting false c ->
  (forall outcome, exists sys', step hard_cap_bytes sys (Tick outcome) = Some sys')
  /\ forall es sys', run hard_cap_bytes sys es = Some sys' -> MAX_SYNC_FAILURES <= turns es ->
     exists es1 es2 sys1, es = es1 ++ es2 /\ run hard_cap_bytes sys es1 = Some sys1 /\ released sys1.
Proof.
  intros Hr%reachable_inv Ew. split.
  - intros outcome. pose proof Hr as [_ [_ Hst _ Hw]]. rewrite Ew in Hw. destruct Hw as (Hsd & Ep & _). unfold step.
    destruct (sys_thread sys); [|destruct (Hst eq_refl) as [?|[? ?]]; congruence].
    destruct (sync_thread_turn outcome (sys_state sys)) as [[? ?] ?]. by eexists.
  - intros es sys' E Hticks.
    assert (MAX_SYNC_FAILURES <= sync_error_count (sys_state sys) + turns es) as Hn.
    { destruct Hr as [_ [[He _] _ _ _]]. lia. }
    clear Hticks. revert sys Hr Ew E Hn. induction es as [|e es IH]; intros sys Hinv Ew E Hn.
    + pose proof Hinv as [_ [[_ He] _ _ Hw]]. rewrite Ew in Hw. destruct Hw as (_ & Ep & _). specialize (He Ep). cbn in Hn. lia.
    + cbn [run] in E. destruct (step hard_cap_bytes sys e) as [sys1|] eqn:Es; [|done]. cbn [mbind option_bind] in E.
      destruct (waiting_step _ _ _ _ Hinv Ew Es) as [Hrel|[Ew1 Hc]].
      { exists [e], es, sys1. cbn [run]. by rewrite Es. }
      destruct (IH sys1) as (es1 & es2 & sys2 & -> & Hrun & Hrel); [by eapply step_inv|done|done| |].
      * rewrite Hc. cbn [turns] in Hn. lia.
      * exists (e :: es1), es2, sys2. cbn [run]. by rewrite Es.
Qed.
End Facts.

(** ** A run: a call is synced, a batch fills the buffer, the next call waits. *)
Module GroupCommitWitness.
#[local] Existing Instance SampleLog.crc. #[local] Existing Instance SampleLog.crc_laws.
#[local] Existing Instance Sample.rmp. #[local] Existing Instance Sample.rmp_laws.
Definition label_call : call := CAppend 1 (EnsureNodeLabel (str_of "Person") 1).
Definition batch : call := CBatch [(2, UpsertNode (Sample.node 42 [1; 9] "alice")); (3, UpsertEdge (Sample.edge 5 42 43))].
Definition delete : call := CAppend 4 (DeleteNode 42 77).
Definition events : list Event := [Append label_call; Sync (Ok tt); Append batch; Append delete].
Definition full : System := default opened (run 100 opened events).
Definition disk : res unit := Err (IoError "disk").

Lemma run_full : run 100 opened events = Some full.
Proof. vm_compute. reflexivity. Qed.
Lemma full_reachable : reachable 100 full.
Proof. exists events. exact run_full. Qed.
Lemma full_accepted : sys_accepted full = [label_call; batch].
Proof. vm_compute. reflexivity. Qed.
Lemma full_calls_ok : Forall call_ok (sys_accepted full).
Proof.
  rewrite full_accepted. pose proof SampleLog.calls_ok as Hok. unfold SampleLog.calls in Hok.
  inversion_clear Hok as [|? ? H1 Hok']. inversion_clear Hok' as [|? ? H2 _]. by apply Forall_cons_2, Forall_cons_2, Forall_nil_2.
Qed.

(** Cut inside the batch: the synced call is there. *)
Lemma group_commit_witness :
  exists n kept torn, (1 <= n <= 2)%nat
    /\ read_path (Some (take 60 (ww_bytes (wal_writer (sys_state full)))))
       = Ok (mkReadResult (calls_records (take n [label_call; batch]) ++ torn) (Z.of_nat kept)).
Proof.
  destruct (group_commit_crash_safe 100 ltac:(lia) full 60 full_reachable full_calls_ok) as [(n & kept & torn & Hn & Hr & _) _].
  - split; apply Nat.leb_le; vm_compute; reflexivity.
  - rewrite full_accepted in Hn, Hr. exists n, kept, torn. exact (conj Hn Hr).
Defined.

Lemma unsynced_witness : 100 <= buffered_bytes (sys_state full) < 100 + 400.
Proof.
  split; [apply Z.leb_le; vm_compute; reflexivity|].
  refine (proj2 (proj2 (unsynced_bytes_bounded 100 ltac:(lia) full 400 full_reachable ltac:(lia) _))).
  intros c bs Hc Hbs. rewrite full_accepted in Hc.
  assert (forall c, match call_bytes c with Ok b => len b <=? 400 | Err _ => true end = true -> call_bytes c = Ok bs -> len bs <= 400) as Hlen.
  { intros c' Hl E. rewrite E in Hl. by apply Z.leb_le. }
  apply elem_of_cons in Hc as [->|Hc]; [by apply (Hlen label_call); [vm_compute; reflexivity|]|].
  apply elem_of_cons in Hc as [->|Hc]; [by apply (Hlen batch); [vm_compute; reflexivity|]|]. by apply elem_of_nil in Hc.
Defined.

Lemma full_waits : sys_writer full = Waiting false delete.
Proof. vm_compute. reflexivity. Qed.
(** Five turns whose sync fails poison the log; the writer is released. *)
Lemma released_witness :
  exists es1 es2 sys1, replicate 5 (Tick disk) = es1 ++ es2 /\ run 100 full es1 = Some sys1 /\ released 100 sys1.
Proof.
  destruct (run 100 full (replicate 5 (Tick disk))) as [last|] eqn:E; [|exfalso; revert E; vm_compute; discriminate].
  refine (proj2 (blocked_writer_released 100 ltac:(lia) full delete full_reachable full_waits) _ last E _).
  vm_compute. discriminate.
Defined.
End GroupCommitWitness.
