(* ===== verification/Floats.v ===== *)
(** IEEE 754 bit patterns, as far as the program compares and classifies
    floats: an [f32] is a 32-bit and an [f64] a 64-bit integer, split into sign,
    exponent and fraction; [scaled] is the exact value times a fixed power of
    two, so the order of values is the order of integers. *)
From Stdlib Require Import Floats.SpecFloat.
From S2P Require Import Prelude.

(** A format: [mb] fraction bits, [eb] exponent bits. *)
Record format : Type := mkFormat { mb : Z; eb : Z }.
Definition F32 : format := mkFormat 23 8.
Definition F64 : format := mkFormat 52 11.

Section Format.
Context (F : format).

Definition sign_bit (bits : Z) : bool := 2 ^ (mb F + eb F) <=? bits.
Definition magnitude (bits : Z) : Z := bits mod 2 ^ (mb F + eb F).
Definition exponent_bits (bits : Z) : Z := magnitude bits / 2 ^ mb F.
Definition fraction_bits (bits : Z) : Z := magnitude bits mod 2 ^ mb F.
Definition exponent_max : Z := 2 ^ eb F - 1.

Definition is_nan (bits : Z) : bool :=
  (exponent_bits bits =? exponent_max) && negb (fraction_bits bits =? 0).
Definition is_infinite (bits : Z) : bool :=
  (exponent_bits bits =? exponent_max) && (fraction_bits bits =? 0).
Definition is_finite (bits : Z) : bool := negb (exponent_bits bits =? exponent_max).
(** [x == 0.0] *)
Definition is_zero (bits : Z) : bool := magnitude bits =? 0.

(** The magnitude's value in units of the smallest subnormal. *)
Definition scaled_magnitude (m : Z) : Z :=
  let e := m / 2 ^ mb F in
  let f := m mod 2 ^ mb F in
  if e =? 0 then f else (2 ^ mb F + f) * 2 ^ (e - 1).
Definition scaled (bits : Z) : Z :=
  if sign_bit bits then - scaled_magnitude (magnitude bits) else scaled_magnitude (magnitude bits).

(** [partial_cmp]: unordered when either side is a NaN. *)
Definition partial_cmp (a b : Z) : option comparison :=
  if is_nan a || is_nan b then None else Some (scaled a ?= scaled b).
Definition flt (a b : Z) : bool := bool_decide (partial_cmp a b = Some Lt).
Definition fle (a b : Z) : bool :=
  match partial_cmp a b with Some (Lt | Eq) => true | _ => false end.
Definition feq (a b : Z) : bool := bool_decide (partial_cmp a b = Some Eq).

Definition wf_format : Prop := 0 < mb F /\ 1 < eb F.
Definition pattern (bits : Z) : Prop := 0 <= bits < 2 ^ (mb F + eb F + 1).

Hypothesis HF : wf_format.

Lemma magnitude_range bits : 0 <= magnitude bits < 2 ^ (mb F + eb F).
Proof. apply Z.mod_pos_bound. destruct HF. apply Z.pow_pos_nonneg; lia. Qed.

Lemma sign_magnitude bits :
  pattern bits -> bits = (if sign_bit bits then 2 ^ (mb F + eb F) else 0) + magnitude bits.
Proof.
  destruct HF. unfold pattern, sign_bit, magnitude. rewrite (Z.pow_add_r 2 (mb F + eb F) 1) by lia.
  intros Hb. set (p := 2 ^ (mb F + eb F)) in *.
  destruct (Z.leb_spec p bits).
  - rewrite <- (Z.mod_add _ (-1)) by lia. rewrite Z.mod_small by lia. lia.
  - rewrite Z.mod_small; lia.
Qed.

Lemma scaled_magnitude_nonneg m : 0 <= m -> 0 <= scaled_magnitude m.
Proof.
  destruct HF. intros Hm. unfold scaled_magnitude.
  assert (0 < 2 ^ mb F) by (apply Z.pow_pos_nonneg; lia).
  pose proof (Z.mod_pos_bound m (2 ^ mb F) ltac:(lia)).
  assert (0 <= m / 2 ^ mb F) by (apply Z.div_pos; lia).
  destruct (Z.eqb_spec (m / 2 ^ mb F) 0); [lia|].
  assert (0 < 2 ^ (m / 2 ^ mb F - 1)) by (apply Z.pow_pos_nonneg; lia). nia.
Qed.

(** Values grow with the magnitude bits. *)
Lemma scaled_magnitude_lt a b : 0 <= a < b -> scaled_magnitude a < scaled_magnitude b.
Proof.
  destruct HF. intros Hab. unfold scaled_magnitude.
  set (p := 2 ^ mb F). assert (0 < p) by (apply Z.pow_pos_nonneg; lia).
  pose proof (Z.div_mod a p ltac:(lia)) as Ea. pose proof (Z.div_mod b p ltac:(lia)) as Eb.
  pose proof (Z.mod_pos_bound a p ltac:(lia)). pose proof (Z.mod_pos_bound b p ltac:(lia)).
  assert (0 <= a / p) by (apply Z.div_pos; lia).
  set (ea := a / p) in *. set (eb' := b / p) in *. set (fa := a mod p) in *. set (fb := b mod p) in *.
  assert (ea < eb' \/ ea = eb' /\ fa < fb) as [He | [He Hf]] by nia.
  - destruct (Z.eqb_spec eb' 0); [lia|].
    assert (0 < 2 ^ (eb' - 1)) by (apply Z.pow_pos_nonneg; lia).
    destruct (Z.eqb_spec ea 0); [nia|].
    replace (eb' - 1) with (eb' - 1 - ea + 1 + (ea - 1)) by lia.
    rewrite (Z.pow_add_r 2 _ (ea - 1)) by lia.
    assert (0 < 2 ^ (ea - 1)) by (apply Z.pow_pos_nonneg; lia).
    assert (2 <= 2 ^ (eb' - 1 - ea + 1)).
    { replace (eb' - 1 - ea + 1) with (Z.succ (eb' - 1 - ea)) by lia. rewrite Z.pow_succ_r by lia.
      assert (0 < 2 ^ (eb' - 1 - ea)) by (apply Z.pow_pos_nonneg; lia). lia. }
    set (x := 2 ^ (ea - 1)) in *. set (y := 2 ^ (eb' - 1 - ea + 1)) in *. nia.
  - rewrite He. destruct (Z.eqb_spec eb' 0); [lia|].
    assert (0 < 2 ^ (eb' - 1)) by (apply Z.pow_pos_nonneg; lia). nia.
Qed.

Lemma scaled_magnitude_0 : scaled_magnitude 0 = 0.
Proof.
  destruct HF. unfold scaled_magnitude. rewrite Z.div_0_l, Z.mod_0_l by (apply Z.pow_nonzero; lia).
  done.
Qed.

Lemma scaled_magnitude_inj a b :
  0 <= a -> 0 <= b -> scaled_magnitude a = scaled_magnitude b -> a = b.
Proof.
  intros Ha Hb E. destruct (Z.lt_trichotomy a b) as [H|[H|H]]; [|done|].
  - pose proof (scaled_magnitude_lt a b). lia.
  - pose proof (scaled_magnitude_lt b a). lia.
Qed.

(** The order of values is the order of signed magnitudes. *)
Definition signed_magnitude (bits : Z) : Z :=
  if sign_bit bits then - magnitude bits else magnitude bits.

Lemma scaled_magnitude_compare a b :
  0 <= a -> 0 <= b -> (scaled_magnitude a ?= scaled_magnitude b) = (a ?= b).
Proof.
  intros Ha Hb. destruct (Z.compare_spec a b) as [->|H|H].
  - apply Z.compare_refl.
  - apply Z.compare_lt_iff, scaled_magnitude_lt. lia.
  - apply Z.compare_gt_iff, scaled_magnitude_lt. lia.
Qed.

Lemma scaled_compare a b : (scaled a ?= scaled b) = (signed_magnitude a ?= signed_magnitude b).
Proof.
  pose proof (magnitude_range a) as [Ha _]. pose proof (magnitude_range b) as [Hb _].
  unfold scaled, signed_magnitude.
  pose proof (scaled_magnitude_compare _ _ Ha Hb) as Hab.
  pose proof (scaled_magnitude_compare _ _ (Z.le_refl 0) Ha) as H0a.
  pose proof (scaled_magnitude_compare _ _ (Z.le_refl 0) Hb) as H0b.
  rewrite scaled_magnitude_0 in H0a, H0b.
  destruct (Z.compare_spec (magnitude a) (magnitude b)) as [E|E|E];
    destruct (Z.compare_spec 0 (magnitude a)) as [Ea|Ea|Ea]; try lia;
    destruct (Z.compare_spec 0 (magnitude b)) as [Eb|Eb|Eb]; try lia;
    rewrite ?Z.compare_eq_iff, ?Z.compare_lt_iff, ?Z.compare_gt_iff in *;
    destruct (sign_bit a), (sign_bit b); apply compare_ext; lia.
Qed.
End Format.

Lemma F32_wf : wf_format F32.
Proof. by vm_compute. Qed.
Lemma F64_wf : wf_format F64.
Proof. by vm_compute. Qed.
#[export] Hint Resolve F32_wf F64_wf : og.

(** ** The widening cast [f32 as f64]: exact on finite values; a NaN is quieted
    and keeps its payload. *)
Definition f32_to_f64 (bits : Z) : Z :=
  let sign := if sign_bit F32 bits then 2 ^ 63 else 0 in
  let exponent := exponent_bits F32 bits in
  let fraction := fraction_bits F32 bits in
  sign +
  (if exponent =? 255 then
     2047 * 2 ^ 52 + (if fraction =? 0 then 0 else Z.lor (2 ^ 51) (fraction * 2 ^ 29))
   else if exponent =? 0 then
     if fraction =? 0 then 0
     else (* a subnormal: fraction = 1.f * 2 ^ k, value fraction * 2 ^ -149 *)
       let k := Z.log2 fraction in
       (k + 874) * 2 ^ 52 + (fraction - 2 ^ k) * 2 ^ (52 - k)
   else (exponent + 896) * 2 ^ 52 + fraction * 2 ^ 29).

Example f32_to_f64_one : f32_to_f64 0x3f800000 = 0x3ff0000000000000.
Proof. reflexivity. Qed.
Example f32_to_f64_min_subnormal : f32_to_f64 0x80000001 = 0xb6a0000000000000.
Proof. reflexivity. Qed.

(** Examples: 1.0 and the infinities. *)
Example scaled_one : scaled F64 0x3ff0000000000000 = 2 ^ 1074.
Proof. by vm_compute. Qed.
Example inf_above_max : flt F32 0x7f7fffff 0x7f800000 = true /\ flt F32 0xff800000 0x80000001 = true.
Proof. by vm_compute. Qed.

(** ** IEEE 754 double arithmetic on bit patterns: the standard library's
    executable specification of floating point, read through the encoding. *)
Definition sf_of_bits (bits : Z) : spec_float :=
  let sign := sign_bit F64 bits in
  let exponent := exponent_bits F64 bits in
  let fraction := fraction_bits F64 bits in
  if exponent =? 2047 then
    if fraction =? 0 then S754_infinity sign else S754_nan
  else if exponent =? 0 then
    if fraction =? 0 then S754_zero sign else S754_finite sign (Z.to_pos fraction) (-1074)
  else S754_finite sign (Z.to_pos (2 ^ 52 + fraction)) (exponent - 1075).

(** The pattern of a double; every NaN is the quiet one. *)
Definition bits_of_sf (x : spec_float) : Z :=
  let signed (sign : bool) (magnitude : Z) := (if sign then 2 ^ 63 else 0) + magnitude in
  to_bits 64
    match x with
    | S754_nan => 0x7ff8000000000000
    | S754_infinity sign => signed sign (2047 * 2 ^ 52)
    | S754_zero sign => signed sign 0
    | S754_finite sign m e =>
        if Zpos m <? 2 ^ 52 then signed sign (Zpos m)
        else signed sign ((e + 1075) * 2 ^ 52 + (Zpos m - 2 ^ 52))
    end.

Definition f64_add (a b : Z) : Z := bits_of_sf (SFadd 53 1024 (sf_of_bits a) (sf_of_bits b)).
Definition f64_sub (a b : Z) : Z := bits_of_sf (SFsub 53 1024 (sf_of_bits a) (sf_of_bits b)).
(** Negation flips the sign bit, of a NaN too. *)
Definition f64_neg (a : Z) : Z := Z.lxor a (2 ^ 63).

(** Single precision. *)
Definition sf_of_bits32 (bits : Z) : spec_float :=
  let sign := sign_bit F32 bits in
  let exponent := exponent_bits F32 bits in
  let fraction := fraction_bits F32 bits in
  if exponent =? 255 then
    if fraction =? 0 then S754_infinity sign else S754_nan
  else if exponent =? 0 then
    if fraction =? 0 then S754_zero sign else S754_finite sign (Z.to_pos fraction) (-149)
  else S754_finite sign (Z.to_pos (2 ^ 23 + fraction)) (exponent - 150).
Definition bits_of_sf32 (x : spec_float) : Z :=
  let signed (sign : bool) (magnitude : Z) := (if sign then 2 ^ 31 else 0) + magnitude mod 2 ^ 31 in
  match x with
  | S754_nan => 0x7fc00000
  | S754_infinity sign => signed sign (255 * 2 ^ 23)
  | S754_zero sign => signed sign 0
  | S754_finite sign m e =>
      if Zpos m <? 2 ^ 23 then signed sign (Zpos m)
      else signed sign ((e + 150) * 2 ^ 23 + (Zpos m - 2 ^ 23))
  end.
Definition f32_add (a b : Z) : Z := bits_of_sf32 (SFadd 24 128 (sf_of_bits32 a) (sf_of_bits32 b)).

Lemma bits_of_sf32_range x : u32 (bits_of_sf32 x).
Proof.
  unfold bits_of_sf32, u32. pose proof (fun z => Z.mod_pos_bound z (2 ^ 31) ltac:(lia)) as Hm.
  destruct x as [s|s| |s m e]; [specialize (Hm 0)|specialize (Hm (255 * 2 ^ 23))| |destruct (_ <? _)]; try (destruct s; lia).
  - lia.
  - specialize (Hm (Zpos m)). destruct s; lia.
  - specialize (Hm ((e + 150) * 2 ^ 23 + (Zpos m - 2 ^ 23))). destruct s; lia.
Qed.
Lemma f32_add_range a b : u32 (f32_add a b).
Proof. apply bits_of_sf32_range. Qed.

(** A float with a sign bit of its own: [NaN] counts as positive. *)
Definition sf_sign (x : spec_float) : bool :=
  match x with S754_zero s | S754_infinity s | S754_finite s _ _ => s | S754_nan => false end.

Lemma round_aux_sign prec emax sx mx ex lx :
  sf_sign (binary_round_aux prec emax sx mx ex lx) = sx \/ binary_round_aux prec emax sx mx ex lx = S754_nan.
Proof.
  unfold binary_round_aux. repeat (case_match; cbn; auto).
Qed.
Lemma round_positive prec emax m e szero :
  sf_sign (binary_normalize prec emax (Zpos m) e szero) = false.
Proof.
  cbn. unfold binary_round. destruct (shl_align _ _ _) as [mx ex].
  destruct (round_aux_sign prec emax false (Zpos mx) ex loc_Exact) as [->| ->]; done.
Qed.

(** Adding numbers that are not negative. *)
Lemma SFadd_nonneg prec emax x y :
  sf_sign x = false -> sf_sign y = false -> sf_sign (SFadd prec emax x y) = false.
Proof.
  destruct x as [sx|sx| |sx mx ex], y as [sy|sy| |sy my ey]; cbn [sf_sign SFadd]; intros; subst; try done.
  unfold cond_Zopp. destruct (shl_align mx ex _) as [m1 e1], (shl_align my ey _) as [m2 e2]. apply round_positive.
Qed.
Lemma bits_sign32 x : sf_sign x = false -> sign_bit F32 (bits_of_sf32 x) = false.
Proof.
  intros Hs. unfold sign_bit, bits_of_sf32. apply Z.leb_gt.
  pose proof (fun z => Z.mod_pos_bound z (2 ^ 31) ltac:(lia)) as Hm. change (2 ^ (mb F32 + eb F32)) with (2 ^ 31).
  destruct x as [s|s| |s m e]; cbn [sf_sign] in Hs; try subst s;
    [specialize (Hm 0)|specialize (Hm (255 * 2 ^ 23))| |destruct (_ <? _);
       [specialize (Hm (Zpos m))|specialize (Hm ((e + 150) * 2 ^ 23 + (Zpos m - 2 ^ 23)))]]; lia.
Qed.
Lemma sf_sign_of_bits32 b : sign_bit F32 b = false -> sf_sign (sf_of_bits32 b) = false.
Proof. intros Hs. unfold sf_of_bits32. repeat case_match; cbn; done. Qed.
Lemma f32_add_nonneg a b :
  sign_bit F32 a = false -> sign_bit F32 b = false -> sign_bit F32 (f32_add a b) = false.
Proof. intros Ha Hb. by apply bits_sign32, SFadd_nonneg; apply sf_sign_of_bits32. Qed.

Example f32_one_plus_two : f32_add 0x3f800000 0x40000000 = 0x40400000.
Proof. reflexivity. Qed.
Example f32_subnormal_sum : f32_add 1 0x007fffff = 0x00800000.
Proof. reflexivity. Qed.
Example f32_overflow : f32_add 0x7f7fffff 0x7f7fffff = 0x7f800000.
Proof. reflexivity. Qed.

Lemma bits_of_sf_range x : u64 (bits_of_sf x).
Proof. apply to_bits_range. lia. Qed.
Lemma f64_add_range a b : u64 (f64_add a b).
Proof. apply bits_of_sf_range. Qed.

Example one_plus_two : f64_add 0x3ff0000000000000 0x4000000000000000 = 0x4008000000000000.
Proof. reflexivity. Qed.
Example tenth_plus_fifth : f64_add 0x3fb999999999999a 0x3fc999999999999a = 0x3fd3333333333334.
Proof. reflexivity. Qed.
Example cancel : f64_add 0x4008000000000000 (f64_neg 0x4008000000000000) = 0.
Proof. reflexivity. Qed.
Example overflow : f64_add 0x7fefffffffffffff 0x7fefffffffffffff = 0x7ff0000000000000.
Proof. reflexivity. Qed.
Example subnormal_sum : f64_add 1 0x000fffffffffffff = 0x0010000000000000.
Proof. reflexivity. Qed.
