(* ===== verification/PropertyValue.v ===== *)
(** Property value semantics (src/src/property_value_semantics.rs): integers,
    unsigned integers and finite floats are compared as exact numbers, whatever
    their representation; numbers get a 24-byte key whose byte order is the
    numeric order; every other value compares structurally. *)
From S2P Require Import Prelude Types Floats.

(** [rmp_serde::to_vec] of one property value. *)
Class RmpValue : Type := { rmp_value_to_vec : PropValue -> list byte }.

Definition NUMERIC_RANGE_KEY_BYTES : nat := 24.

Inductive NumericSign : Type := Negative | Zero | Positive.
#[export] Instance NumericSign_eq_dec : EqDecision NumericSign.
Proof. solve_decision. Defined.

Record NumericScalarKey : Type := mkKey {
  nk_sign : NumericSign;
  nk_exponent : Z;
  nk_significand : Z
}.
#[export] Instance NumericScalarKey_eq_dec : EqDecision NumericScalarKey.
Proof. solve_decision. Defined.

(** ** 128-bit counting operations *)
Fixpoint ctz (p : positive) : Z := match p with xO p => 1 + ctz p | _ => 0 end.
Definition trailing_zeros (x : Z) : Z := match x with Zpos p => ctz p | _ => 128 end.
Definition leading_zeros (x : Z) : Z := if x =? 0 then 128 else 127 - Z.log2 x.

Definition zero_key : NumericScalarKey := mkKey Zero 0 0.

Definition nonzero_key (sign : NumericSign) (significand exponent : Z) : NumericScalarKey :=
  let trailing := trailing_zeros significand in
  mkKey sign (exponent + trailing) (Z.shiftr significand trailing).

Definition bit_length (k : NumericScalarKey) : Z := 128 - leading_zeros (nk_significand k).
Definition magnitude_rank (k : NumericScalarKey) : Z := nk_exponent k + bit_length k - 1.
Definition normalized_fraction (k : NumericScalarKey) : Z :=
  Z.shiftl (nk_significand k) (128 - bit_length k) mod 2 ^ 128.

Definition numeric_key_from_i64 (value : Z) : NumericScalarKey :=
  if value =? 0 then zero_key
  else nonzero_key (if value <? 0 then Negative else Positive) (Z.abs value) 0.

Definition numeric_key_from_u64 (value : Z) : NumericScalarKey :=
  if value =? 0 then zero_key else nonzero_key Positive value 0.

Definition numeric_key_from_f64 (bits : Z) : option NumericScalarKey :=
  if negb (is_finite F64 bits) then None
  else if is_zero F64 bits then Some zero_key
  else
    let sign := if Z.shiftr bits 63 =? 0 then Positive else Negative in
    let exp_bits := Z.land (Z.shiftr bits 52) 0x7ff in
    let fraction := Z.land bits (2 ^ 52 - 1) in
    let '(significand, exponent) :=
      if exp_bits =? 0 then (fraction, 1 - 1023 - 52)
      else (Z.lor (2 ^ 52) fraction, exp_bits - 1023 - 52) in
    if significand =? 0 then Some zero_key else Some (nonzero_key sign significand exponent).

Definition numeric_key (value : PropValue) : option NumericScalarKey :=
  match value with
  | PInt z => Some (numeric_key_from_i64 z)
  | PUInt z => Some (numeric_key_from_u64 z)
  | PFloat bits => numeric_key_from_f64 bits
  | _ => None
  end.

Definition compare_magnitudes (left right : NumericScalarKey) : comparison :=
  match magnitude_rank left ?= magnitude_rank right with
  | Eq => normalized_fraction left ?= normalized_fraction right
  | ordering => ordering
  end.

Definition compare_numeric_keys (left right : NumericScalarKey) : comparison :=
  match nk_sign left, nk_sign right with
  | Negative, Negative => compare_magnitudes right left
  | Zero, Zero => Eq
  | Positive, Positive => compare_magnitudes left right
  | Negative, _ => Lt
  | _, Negative => Gt
  | Zero, Positive => Lt
  | Positive, Zero => Gt
  end.

Definition compare_numeric_prop_values (left right : PropValue) : option comparison :=
  l ← numeric_key left; r ← numeric_key right; Some (compare_numeric_keys l r).

Fixpoint raw_structural_property_eq (left right : PropValue) : bool :=
  match left, right with
  | PNull, PNull => true
  | PBool l, PBool r => Bool.eqb l r
  | PInt l, PInt r => l =? r
  | PUInt l, PUInt r => l =? r
  | PFloat l, PFloat r => negb (is_nan F64 l) && negb (is_nan F64 r) && (l =? r)
  | PString l, PString r => bool_decide (l = r)
  | PBytes l, PBytes r => bool_decide (l = r)
  | PArray l, PArray r =>
      (length l =? length r)%nat
      && (fix zip_all l r := match l, r with
          | x :: l, y :: r => raw_structural_property_eq x y && zip_all l r
          | _, _ => true
          end) l r
  | PMap l, PMap r =>
      (length l =? length r)%nat
      && forallb (fun kv => match btree_get (fst kv) r with
                            | Some right_value => raw_structural_property_eq (snd kv) right_value
                            | None => false
                            end) l
  | _, _ => false
  end.

Definition semantic_property_eq (left right : PropValue) : bool :=
  match numeric_key left, numeric_key right with
  | Some l, Some r => bool_decide (l = r)
  | _, _ => raw_structural_property_eq left right
  end.

(** [i32::to_be_bytes], [u128::to_be_bytes] *)
Definition push_numeric_key_bytes (k : NumericScalarKey) : list byte :=
  z2b (match nk_sign k with Negative => 0 | Zero => 1 | Positive => 2 end)
    :: be_bytes 4 (to_bits 32 (nk_exponent k)) ++ be_bytes 16 (nk_significand k).

Definition semantic_equality_key_bytes `{RmpValue} (value : PropValue) : list byte :=
  match numeric_key value with
  | Some k => z2b 1 :: push_numeric_key_bytes k
  | None => z2b 2 :: rmp_value_to_vec value
  end.

Definition hash_semantic_equality_key_bytes (bytes : list byte) : Z := fnv1a bytes.
Definition hash_prop_equality_key `{RmpValue} (value : PropValue) : Z :=
  hash_semantic_equality_key_bytes (semantic_equality_key_bytes value).

Fixpoint prop_value_contains_float_zero (value : PropValue) : bool :=
  match value with
  | PFloat bits => is_zero F64 bits
  | PArray values => existsb prop_value_contains_float_zero values
  | PMap values => existsb (fun kv => prop_value_contains_float_zero (snd kv)) values
  | _ => false
  end.

Definition structural_value_contains_float_zero (value : PropValue) : bool :=
  match value with
  | PArray values => existsb prop_value_contains_float_zero values
  | PMap values => existsb (fun kv => prop_value_contains_float_zero (snd kv)) values
  | _ => false
  end.

(** ** The sort key *)
Definition sort_key (class rank_bits fraction_bits : Z) : list byte :=
  z2b class :: be_bytes 4 rank_bits ++ be_bytes 16 fraction_bits ++ replicate 3 Byte.x00.

Definition numeric_range_sort_key (k : NumericScalarKey) : list byte :=
  match nk_sign k with
  | Zero => z2b 1 :: replicate 23 Byte.x00
  | Positive | Negative =>
      let rank_bits := Z.lxor (to_bits 32 (magnitude_rank k)) 0x80000000 in
      let fraction_bits := normalized_fraction k in
      match nk_sign k with
      | Negative => sort_key 0 (2 ^ 32 - 1 - rank_bits) (2 ^ 128 - 1 - fraction_bits)
      | _ => sort_key 2 rank_bits fraction_bits
      end
  end.

Definition numeric_range_sort_key_for_value (value : PropValue) : option (list byte) :=
  numeric_range_sort_key <$> numeric_key value.

(** The bytes [i..j) of a key. *)
Definition slice (i j : nat) (l : list byte) : list byte := take (j - i) (drop i l).

Definition decode_nonzero_numeric_range_sidecar_key (bytes : list byte)
    : res (NumericScalarKey * Z * Z) :=
  let sign := if b2z (nth 0 bytes Byte.x00) =? 0 then Negative else Positive in
  let encoded_rank := be_val (slice 1 5 bytes) in
  let encoded_fraction := be_val (slice 5 21 bytes) in
  let rank_bits := match sign with Negative => 2 ^ 32 - 1 - encoded_rank | _ => encoded_rank end in
  let fraction :=
    match sign with Negative => 2 ^ 128 - 1 - encoded_fraction | _ => encoded_fraction end in
  if fraction =? 0 then
    Err (CorruptRecord "numeric range sidecar key has zero nonzero-fraction payload")
  else if negb (leading_zeros fraction =? 0) then
    Err (CorruptRecord "numeric range sidecar key normalized fraction must set the top bit")
  else
    let rank := of_bits 32 (Z.lxor rank_bits 0x80000000) in
    let bit_length := 128 - trailing_zeros fraction in
    let significand := Z.shiftr fraction (128 - bit_length) in
    let rank_offset := bit_length - 1 in
    let exponent := rank - rank_offset in
    if exponent <? - 2 ^ 31 then
      Err (CorruptRecord "numeric range sidecar key exponent overflow")
    else Ok (mkKey sign exponent significand, rank, bit_length).

Definition numeric_scalar_key_is_emittable (k : NumericScalarKey) (rank bit_length : Z) : bool :=
  if (nk_significand k =? 0) || (Z.land (nk_significand k) 1 =? 0) then false
  else
    let f64_emittable := (-1074 <=? nk_exponent k) && (bit_length <=? 53) && (rank <=? 1023) in
    if f64_emittable then true
    else if nk_exponent k <? 0 then false
    else match nk_sign k with
         | Positive => rank <=? 63
         | Negative =>
             (rank <? 63) || ((rank =? 63) && (nk_significand k =? 1) && (nk_exponent k =? 63))
         | Zero => false
         end.

Definition validate_numeric_range_sidecar_key (bytes : list byte) : res unit :=
  match b2z (nth 0 bytes Byte.x00) with
  | 0 | 2 =>
      if existsb (fun b => negb (b2z b =? 0)) (slice 21 24 bytes) then
        Err (CorruptRecord "numeric range sidecar key reserved bytes must be zero")
      else
        '(k, rank, bit_length) ← decode_nonzero_numeric_range_sidecar_key bytes;
        if negb (numeric_scalar_key_is_emittable k rank bit_length) then
          Err (CorruptRecord "numeric range sidecar key is not a canonical finite numeric key")
        else if negb (bool_decide (numeric_range_sort_key k = bytes)) then
          Err (CorruptRecord
                 "numeric range sidecar key does not round-trip through canonical encoding")
        else Ok tt
  | 1 =>
      if existsb (fun b => negb (b2z b =? 0)) (slice 1 24 bytes) then
        Err (CorruptRecord "numeric range sidecar zero key must have zero payload")
      else Ok tt
  | _ => Err (CorruptRecord "numeric range sidecar key has invalid class")
  end.

Definition from_sidecar_bytes (bytes : list byte) : res (list byte) :=
  _ ← validate_numeric_range_sidecar_key bytes; Ok bytes.

(** ** Numeric ranges *)
Inductive PropertyRangeBound : Type :=
| Included (value : PropValue)
| Excluded (value : PropValue).

Definition bound_value (b : PropertyRangeBound) : PropValue :=
  match b with Included v | Excluded v => v end.
Definition is_inclusive (b : PropertyRangeBound) : bool :=
  match b with Included _ => true | Excluded _ => false end.

Record PropertyRangeCursor : Type := mkRangeCursor { rc_value : PropValue; rc_node_id : Z }.

Record NumericRangeBoundKey : Type := mkBoundKey { bk_key : NumericScalarKey; bk_inclusive : bool }.
Record ValidatedNumericRange : Type := mkRange {
  vr_lower : option NumericRangeBoundKey;
  vr_upper : option NumericRangeBoundKey;
  vr_is_empty : bool
}.

Definition validate_numeric_range_value (value : PropValue) : res NumericScalarKey :=
  match value with
  | PFloat bits =>
      if negb (is_finite F64 bits) then
        Err (InvalidOperation "non-finite float is not valid for numeric range bounds")
      else match numeric_key value with
           | Some k => Ok k
           | None => Err (InvalidOperation "must be a finite numeric scalar")
           end
  | PInt _ | PUInt _ =>
      match numeric_key value with
      | Some k => Ok k
      | None => Err (InvalidOperation "must be a finite numeric scalar")
      end
  | _ => Err (InvalidOperation "range bound must be a finite numeric scalar")
  end.

Definition validate_bound (b : PropertyRangeBound) : res NumericRangeBoundKey :=
  k ← validate_numeric_range_value (bound_value b); Ok (mkBoundKey k (is_inclusive b)).

(** [opt.map(validate).transpose()] *)
Definition validate_optional_bound (b : option PropertyRangeBound)
    : res (option NumericRangeBoundKey) :=
  match b with None => Ok None | Some b => k ← validate_bound b; Ok (Some k) end.

Definition range_bounds_are_empty (lower upper : NumericRangeBoundKey) : bool :=
  match compare_numeric_keys (bk_key lower) (bk_key upper) with
  | Gt => true
  | Eq => negb (bk_inclusive lower && bk_inclusive upper)
  | Lt => false
  end.

Definition bounds_are_empty (lower upper : option NumericRangeBoundKey) : bool :=
  match lower, upper with Some l, Some u => range_bounds_are_empty l u | _, _ => false end.

Definition validate_numeric_range_bounds (lower upper : option PropertyRangeBound)
    (cursor : option PropertyRangeCursor) : res ValidatedNumericRange :=
  match lower, upper with
  | None, None =>
      Err (InvalidOperation "range query requires at least one finite numeric bound")
  | _, _ =>
      lower ← validate_optional_bound lower;
      upper ← validate_optional_bound upper;
      _ ← match cursor with
          | Some c => validate_numeric_range_value (rc_value c)
          | None => Ok zero_key
          end;
      Ok (mkRange lower upper (bounds_are_empty lower upper))
  end.

Definition in_lower (inclusive : bool) (ordering : comparison) : bool :=
  if inclusive then bool_decide (ordering ≠ Lt) else bool_decide (ordering = Gt).
Definition in_upper (inclusive : bool) (ordering : comparison) : bool :=
  if inclusive then bool_decide (ordering ≠ Gt) else bool_decide (ordering = Lt).

Definition numeric_range_value_within_bounds (value : PropValue)
    (lower upper : option PropertyRangeBound) : option bool :=
  k ← numeric_key value;
  lower_ok ← match lower with
             | None => Some true
             | Some l => lk ← numeric_key (bound_value l);
                         Some (in_lower (is_inclusive l) (compare_numeric_keys k lk))
             end;
  if negb lower_ok then Some false
  else
    upper_ok ← match upper with
               | None => Some true
               | Some u => uk ← numeric_key (bound_value u);
                           Some (in_upper (is_inclusive u) (compare_numeric_keys k uk))
               end;
    Some upper_ok.

Definition numeric_key_within_validated_range (value : NumericScalarKey)
    (range : ValidatedNumericRange) : bool :=
  if vr_is_empty range then false
  else
    match vr_lower range with
    | Some l => in_lower (bk_inclusive l) (compare_numeric_keys value (bk_key l))
    | None => true
    end
    && match vr_upper range with
       | Some u => in_upper (bk_inclusive u) (compare_numeric_keys value (bk_key u))
       | None => true
       end.

Definition prop_value_within_validated_range (value : PropValue)
    (range : ValidatedNumericRange) : bool :=
  match numeric_key value with
  | Some k => numeric_key_within_validated_range k range
  | None => false
  end.

Definition max_lower_bound (left right : option NumericRangeBoundKey)
    : option NumericRangeBoundKey :=
  match left, right with
  | Some l, Some r =>
      match compare_numeric_keys (bk_key l) (bk_key r) with
      | Lt => Some r
      | Gt => Some l
      | Eq => Some (mkBoundKey (bk_key l) (bk_inclusive l && bk_inclusive r))
      end
  | Some b, None | None, Some b => Some b
  | None, None => None
  end.

Definition min_upper_bound (left right : option NumericRangeBoundKey)
    : option NumericRangeBoundKey :=
  match left, right with
  | Some l, Some r =>
      match compare_numeric_keys (bk_key l) (bk_key r) with
      | Lt => Some l
      | Gt => Some r
      | Eq => Some (mkBoundKey (bk_key l) (bk_inclusive l && bk_inclusive r))
      end
  | Some b, None | None, Some b => Some b
  | None, None => None
  end.

Definition intersect_validated_numeric_ranges (left right : ValidatedNumericRange)
    : ValidatedNumericRange :=
  let lower := max_lower_bound (vr_lower left) (vr_lower right) in
  let upper := min_upper_bound (vr_upper left) (vr_upper right) in
  mkRange lower upper (vr_is_empty left || vr_is_empty right || bounds_are_empty lower upper).
