(* ===== verification/PropertyValueFacts.v ===== *)
(** What property values mean: keys stand for exact numbers (in units of
    2^-1074), comparison, equality and byte order of keys are those of the
    numbers, sidecar validation accepts exactly the keys the encoder emits, and
    semantically equal values hash alike. *)
From S2P Require Import Prelude Types Floats PropertyValue.

(** ** Exact values *)
Definition key_scaled (k : NumericScalarKey) : Z :=
  match nk_sign k with
  | Zero => 0
  | Positive => nk_significand k * 2 ^ (nk_exponent k + 1074)
  | Negative => - (nk_significand k * 2 ^ (nk_exponent k + 1074))
  end.

(** A number in units of 2^-1074; [None] for what is not a finite number. *)
Definition exact_value (v : PropValue) : option Z :=
  match v with
  | PInt z | PUInt z => Some (z * 2 ^ 1074)
  | PFloat bits => if is_finite F64 bits then Some (scaled F64 bits) else None
  | _ => None
  end.

(** Canonical keys, and the range the encoder uses. *)
Definition key_wf (k : NumericScalarKey) : Prop :=
  match nk_sign k with
  | Zero => nk_exponent k = 0 /\ nk_significand k = 0
  | _ => Z.odd (nk_significand k) = true /\ 0 < nk_significand k < 2 ^ 128
         /\ -1074 <= nk_exponent k <= 1023
  end.

(** A value of the Rust type: numbers in range, text UTF-8, map keys ascending. *)
Fixpoint value_wf (v : PropValue) : Prop :=
  match v with
  | PInt z => i64 z
  | PUInt z | PFloat z => u64 z
  | PString s => utf8_valid s = true
  | PArray l => (fix all l := match l with [] => True | x :: l => value_wf x /\ all l end) l
  | PMap m =>
      btree_wf m
      /\ (fix all m := match m with [] => True | kv :: m => value_wf (snd kv) /\ all m end) m
  | _ => True
  end.

(** ** Trailing zeros *)
Lemma ctz_spec p :
  0 <= ctz p /\ Z.odd (Z.shiftr (Zpos p) (ctz p)) = true
  /\ Zpos p = Z.shiftr (Zpos p) (ctz p) * 2 ^ ctz p.
Proof.
  induction p as [p IH|p IH|]; cbn [ctz].
  - rewrite Z.shiftr_0_r, Z.mul_1_r. done.
  - destruct IH as (H0 & Ho & He). rewrite <- Z.shiftr_shiftr by lia.
    change (Z.shiftr (Zpos p~0) 1) with (Zpos p). split; [lia|]. split; [done|].
    rewrite Z.pow_add_r by lia. change (2 ^ 1) with 2. lia.
  - done.
Qed.

Lemma odd_pow_inj a b m n :
  Z.odd a = true -> Z.odd b = true -> 0 <= m -> 0 <= n -> a * 2 ^ m = b * 2 ^ n -> a = b /\ m = n.
Proof.
  assert (forall a b m n, Z.odd b = true -> 0 <= m <= n -> a * 2 ^ m = b * 2 ^ n ->
            a = b * 2 ^ (n - m)) as Hle.
  { clear. intros a b m n _ Hmn E.
    replace n with (n - m + m) in E by lia. rewrite Z.pow_add_r in E by lia.
    assert (0 < 2 ^ m) by (apply Z.pow_pos_nonneg; lia). nia. }
  assert (forall a b m n, Z.odd a = true -> Z.odd b = true -> 0 <= m <= n ->
            a * 2 ^ m = b * 2 ^ n -> a = b /\ m = n) as Heq.
  { intros a' b' m' n' Ha Hb Hmn E. apply Hle in E; [|done..].
    destruct (decide (m' = n')) as [->|Hne]; [rewrite Z.sub_diag in E; lia|].
    rewrite E in Ha. replace (n' - m') with (Z.succ (n' - m' - 1)) in Ha by lia.
    rewrite Z.pow_succ_r, Z.odd_mul, Z.odd_mul in Ha by lia. cbn in Ha.
    by rewrite andb_false_r in Ha. }
  intros Ha Hb Hm Hn E. destruct (Z.le_gt_cases m n).
  - apply Heq; auto.
  - destruct (Heq b a n m); auto with lia.
Qed.

Lemma nonzero_key_spec sign sig e :
  sign ≠ Zero -> 0 < sig < 2 ^ 128 -> -1074 <= e -> e + Z.log2 sig <= 1023 ->
  key_wf (nonzero_key sign sig e)
  /\ key_scaled (nonzero_key sign sig e)
     = (match sign with Negative => -1 | _ => 1 end) * (sig * 2 ^ (e + 1074)).
Proof.
  intros Hs Hsig He Hl. unfold nonzero_key.
  destruct sig as [|p|p]; [lia | | lia]. cbn [trailing_zeros].
  destruct (ctz_spec p) as (H0 & Ho & Hp). set (x := Z.shiftr (Z.pos p) (ctz p)) in *.
  assert (0 < 2 ^ ctz p) by (apply Z.pow_pos_nonneg; lia).
  assert (0 < x) by nia.
  assert (ctz p <= Z.log2 (Z.pos p)).
  { rewrite Hp, Z.log2_mul_pow2 by lia. pose proof (Z.log2_nonneg x). lia. }
  split.
  - unfold key_wf. cbn [nk_sign nk_significand nk_exponent].
    destruct sign; try done; (split; [done|]; split; [nia | lia]).
  - unfold key_scaled. cbn [nk_sign nk_significand nk_exponent].
    rewrite Hp. replace (e + ctz p + 1074) with (ctz p + (e + 1074)) by lia.
    rewrite (Z.pow_add_r 2 (ctz p)) by lia. destruct sign; [|done|]; lia.
Qed.

Lemma key_scaled_inj k1 k2 : key_wf k1 -> key_wf k2 -> key_scaled k1 = key_scaled k2 -> k1 = k2.
Proof.
  destruct k1 as [s1 e1 m1], k2 as [s2 e2 m2]. unfold key_wf, key_scaled.
  cbn [nk_sign nk_significand nk_exponent]. intros H1 H2 E.
  assert (forall m e, 0 < m -> -1074 <= e -> 0 < m * 2 ^ (e + 1074)) as Hpos.
  { intros m e Hm He. assert (0 < 2 ^ (e + 1074)) by (apply Z.pow_pos_nonneg; lia). nia. }
  pose proof (Hpos m1 e1). pose proof (Hpos m2 e2).
  destruct s1, s2; try lia.
  all: try (destruct H1 as [-> ->], H2 as [-> ->]; done).
  all: destruct H1 as (O1 & ? & ?), H2 as (O2 & ? & ?);
    destruct (odd_pow_inj m1 m2 (e1 + 1074) (e2 + 1074)); try done; try lia;
    f_equal; lia.
Qed.

(** ** The fields of an f64 *)
Lemma div_mod_split x b c : 0 < b -> 0 < c -> (x mod (b * c)) / b = (x / b) mod c.
Proof.
  intros. rewrite Z.rem_mul_r by lia.
  rewrite Z.add_comm, Z.mul_comm, Z.div_add_l by lia.
  rewrite (Z.div_small (x mod b)) by (apply Z.mod_pos_bound; lia). lia.
Qed.
Lemma mod_mod_mul x b c : 0 < b -> 0 < c -> (x mod (b * c)) mod b = x mod b.
Proof.
  intros. rewrite Z.rem_mul_r by lia. rewrite Z.add_comm, Z.mul_comm, Z.add_comm, Z.mod_add by lia.
  apply Z.mod_mod. lia.
Qed.

Lemma f64_exponent bits : Z.land (Z.shiftr bits 52) 0x7ff = exponent_bits F64 bits.
Proof.
  change 0x7ff with (Z.ones 11). rewrite Z.land_ones, Z.shiftr_div_pow2 by lia.
  unfold exponent_bits, magnitude. cbn [mb eb F64].
  change (2 ^ (52 + 11)) with (2 ^ 52 * 2 ^ 11). symmetry. by apply div_mod_split.
Qed.
Lemma f64_fraction bits : Z.land bits (2 ^ 52 - 1) = fraction_bits F64 bits.
Proof.
  change (2 ^ 52 - 1) with (Z.ones 52). rewrite Z.land_ones by lia.
  unfold fraction_bits, magnitude. cbn [mb eb F64].
  change (2 ^ (52 + 11)) with (2 ^ 52 * 2 ^ 11). symmetry. by apply mod_mod_mul.
Qed.
Lemma f64_sign bits : u64 bits -> (Z.shiftr bits 63 =? 0) = negb (sign_bit F64 bits).
Proof.
  unfold u64, sign_bit. cbn [mb eb F64]. intros Hb. rewrite Z.shiftr_div_pow2 by lia.
  change (52 + 11) with 63. destruct (Z.leb_spec (2 ^ 63) bits) as [H|H]; cbn [negb].
  - apply Z.eqb_neq. assert (1 <= bits / 2 ^ 63); [|lia]. apply Z.div_le_lower_bound; lia.
  - apply Z.eqb_eq, Z.div_small. lia.
Qed.

Lemma f64_key_form bits :
  u64 bits -> is_finite F64 bits = true ->
  (numeric_key_from_f64 bits = Some zero_key /\ scaled F64 bits = 0)
  \/ exists s sig e,
       s ≠ Zero /\ 0 < sig < 2 ^ 53 /\ -1074 <= e /\ e + Z.log2 sig <= 1023
       /\ numeric_key_from_f64 bits = Some (nonzero_key s sig e)
       /\ scaled F64 bits = (match s with Negative => -1 | _ => 1 end) * (sig * 2 ^ (e + 1074)).
Proof.
  intros Hb Hfin. unfold numeric_key_from_f64. rewrite Hfin. cbn [negb].
  pose proof (magnitude_range F64 F64_wf bits) as Hm. cbn [mb eb F64] in Hm.
  unfold is_zero. destruct (Z.eqb_spec (magnitude F64 bits) 0) as [E0|E0].
  { left. split; [done|]. unfold scaled. rewrite E0, (scaled_magnitude_0 F64 F64_wf).
    by destruct (sign_bit _ _). }
  right. rewrite f64_exponent, f64_fraction, (f64_sign bits Hb). unfold scaled, scaled_magnitude.
  fold (exponent_bits F64 bits) (fraction_bits F64 bits). cbn [mb F64].
  set (e := exponent_bits F64 bits) in *. set (f := fraction_bits F64 bits) in *.
  assert (0 <= f < 2 ^ 52) as Hf by (apply Z.mod_pos_bound; done).
  assert (0 <= e < 2047) as He.
  { unfold is_finite in Hfin. apply negb_true_iff, Z.eqb_neq in Hfin. fold e in Hfin.
    change (exponent_max F64) with 2047 in Hfin.
    assert (0 <= e) by (apply Z.div_pos; cbn; lia).
    assert (e < 2 ^ 11) by (apply Z.div_lt_upper_bound; cbn [mb F64]; lia). lia. }
  assert (magnitude F64 bits = 2 ^ 52 * e + f) as Hef by (apply Z.div_mod; done).
  exists (if negb (sign_bit F64 bits) then Positive else Negative).
  destruct (Z.eqb_spec e 0) as [Ee|Ee].
  - destruct (Z.eqb_spec f 0); [lia|]. exists f, (1 - 1023 - 52).
    assert (Z.log2 f < 52) by (apply Z.log2_lt_pow2; lia).
    change (2 ^ (1 - 1023 - 52 + 1074)) with 1.
    split_and!; try lia; try done; destruct (sign_bit F64 bits); cbn [negb]; done || lia.
  - rewrite (lor_pow2_add 52 f) by lia. destruct (Z.eqb_spec (2 ^ 52 + f) 0); [lia|].
    exists (2 ^ 52 + f), (e - 1023 - 52).
    assert (Z.log2 (2 ^ 52 + f) < 53) by (apply Z.log2_lt_pow2; lia).
    replace (e - 1023 - 52 + 1074) with (e - 1) by lia.
    split_and!; try lia; try done; destruct (sign_bit F64 bits); cbn [negb]; done || lia.
Qed.

Lemma numeric_key_from_f64_spec bits :
  u64 bits ->
  if is_finite F64 bits
  then exists k, numeric_key_from_f64 bits = Some k /\ key_wf k /\ key_scaled k = scaled F64 bits
  else numeric_key_from_f64 bits = None.
Proof.
  intros Hb. destruct (is_finite F64 bits) eqn:Hfin.
  2:{ unfold numeric_key_from_f64. by rewrite Hfin. }
  destruct (f64_key_form bits Hb Hfin) as [[-> ->]|(s & sig & e & Hs & Hsig & He & Hl & -> & ->)];
    eexists; (split; [done|]); [done | by apply nonzero_key_spec; [|lia..]].
Qed.

Lemma numeric_key_spec v :
  value_wf v ->
  match exact_value v with
  | Some x => exists k, numeric_key v = Some k /\ key_wf k /\ key_scaled k = x
  | None => numeric_key v = None
  end.
Proof.
  intros Hv.
  destruct v as [|b|z|z|bits|s|b|l|m]; cbn [exact_value numeric_key value_wf] in *; try done.
  - eexists. split; [done|]. unfold numeric_key_from_i64, i64 in *.
    destruct (Z.eqb_spec z 0) as [->|]; [done|].
    destruct (nonzero_key_spec (if z <? 0 then Negative else Positive) (Z.abs z) 0) as [Hw Hk];
      [by destruct (_ <? _) | lia | lia | |].
    { assert (Z.log2 (Z.abs z) < 64) by (apply Z.log2_lt_pow2; lia). lia. }
    split; [done|]. rewrite Hk, Z.add_0_l. destruct (Z.ltb_spec z 0); lia.
  - eexists. split; [done|]. unfold numeric_key_from_u64, u64 in *.
    destruct (Z.eqb_spec z 0) as [->|]; [done|].
    destruct (nonzero_key_spec Positive z 0) as [Hw Hk]; [done | lia | lia | |].
    { assert (Z.log2 z < 64) by (apply Z.log2_lt_pow2; lia). lia. }
    split; [done|]. rewrite Hk, Z.add_0_l. lia.
  - pose proof (numeric_key_from_f64_spec bits Hv) as H. by destruct (is_finite F64 bits).
Qed.

(** ** Magnitudes *)
Lemma bit_length_log2 k : 0 < nk_significand k -> bit_length k = Z.log2 (nk_significand k) + 1.
Proof.
  intros H. unfold bit_length, leading_zeros. destruct (Z.eqb_spec (nk_significand k) 0); lia.
Qed.

Definition nonzero_wf (k : NumericScalarKey) : Prop := key_wf k /\ nk_sign k ≠ Zero.
Definition magnitude_scaled (k : NumericScalarKey) : Z := nk_significand k * 2 ^ (nk_exponent k + 1074).

Lemma nonzero_wf_bounds k :
  nonzero_wf k ->
  0 < nk_significand k < 2 ^ 128 /\ -1074 <= nk_exponent k <= 1023
  /\ 0 <= Z.log2 (nk_significand k) < 128
  /\ magnitude_rank k = nk_exponent k + Z.log2 (nk_significand k)
  /\ -1074 <= magnitude_rank k < 2 ^ 11.
Proof.
  intros [Hw Hs]. unfold key_wf in Hw. assert (0 < nk_significand k < 2 ^ 128
    /\ -1074 <= nk_exponent k <= 1023) as [Hm He] by (destruct (nk_sign k); done || tauto).
  assert (Z.log2 (nk_significand k) < 128) by (apply Z.log2_lt_pow2; lia).
  pose proof (Z.log2_nonneg (nk_significand k)).
  unfold magnitude_rank. rewrite bit_length_log2 by lia. lia.
Qed.

(** Rank and fraction are the leading exponent and the left-aligned mantissa. *)
Lemma fraction_spec k :
  nonzero_wf k ->
  2 ^ 127 <= normalized_fraction k < 2 ^ 128
  /\ magnitude_scaled k * 2 ^ 127 = normalized_fraction k * 2 ^ (magnitude_rank k + 1074)
  /\ Z.log2 (magnitude_scaled k) = magnitude_rank k + 1074
  /\ normalized_fraction k = nk_significand k * 2 ^ (127 - Z.log2 (nk_significand k)).
Proof.
  intros H. apply nonzero_wf_bounds in H as (Hm & He & Hl & Hr & _).
  unfold normalized_fraction, magnitude_scaled. rewrite bit_length_log2 by lia.
  set (m := nk_significand k) in *. set (e := nk_exponent k) in *. set (l := Z.log2 m) in *.
  pose proof (Z.log2_spec m ltac:(lia)) as Hls. fold l in Hls.
  replace (128 - (l + 1)) with (127 - l) by lia. rewrite Z.shiftl_mul_pow2 by lia.
  assert (2 ^ 127 = 2 ^ l * 2 ^ (127 - l)) as E127 by (rewrite <- Z.pow_add_r by lia; f_equal; lia).
  assert (2 ^ 128 = 2 ^ Z.succ l * 2 ^ (127 - l)) as E128
    by (rewrite <- Z.pow_add_r by lia; f_equal; lia).
  assert (0 < 2 ^ (127 - l)) by (apply Z.pow_pos_nonneg; lia).
  assert (2 ^ 127 <= m * 2 ^ (127 - l) < 2 ^ 128) as Hf by (rewrite E127, E128; nia).
  rewrite Z.mod_small by lia. split; [done|]. split; [|split; [|done]].
  - rewrite Hr. replace (2 ^ (e + l + 1074)) with (2 ^ (e + 1074) * 2 ^ l)
      by (rewrite <- Z.pow_add_r by lia; f_equal; lia). rewrite E127. lia.
  - rewrite Z.log2_mul_pow2 by lia. fold l. lia.
Qed.

Lemma compare_magnitudes_spec a b :
  nonzero_wf a -> nonzero_wf b ->
  compare_magnitudes a b = (magnitude_scaled a ?= magnitude_scaled b).
Proof.
  intros Ha Hb. unfold compare_magnitudes.
  pose proof (fraction_spec a Ha) as (Fa & Ea & La & _).
  pose proof (fraction_spec b Hb) as (Fb & Eb & Lb & _).
  pose proof (nonzero_wf_bounds a Ha) as (_ & _ & _ & _ & Ra).
  destruct (Z.compare_spec (magnitude_rank a) (magnitude_rank b)) as [E|E|E].
  - assert (0 < 2 ^ (magnitude_rank a + 1074)) as Hp by (apply Z.pow_pos_nonneg; lia).
    rewrite <- E in Eb.
    rewrite <- (mul_compare_mono_r (2 ^ 127) (magnitude_scaled a)) by lia. rewrite Ea, Eb.
    by rewrite mul_compare_mono_r.
  - symmetry. apply Z.compare_lt_iff, Z.log2_lt_cancel. lia.
  - symmetry. apply Z.compare_gt_iff, Z.log2_lt_cancel. lia.
Qed.

Lemma magnitude_pos k : nonzero_wf k -> 0 < magnitude_scaled k.
Proof.
  intros H. apply nonzero_wf_bounds in H as (Hm & He & _). unfold magnitude_scaled.
  assert (0 < 2 ^ (nk_exponent k + 1074)) by (apply Z.pow_pos_nonneg; lia). nia.
Qed.

Lemma key_scaled_magnitude k :
  key_scaled k = match nk_sign k with Zero => 0 | Positive => magnitude_scaled k
                 | Negative => - magnitude_scaled k end.
Proof. done. Qed.

Lemma compare_opp a b : (- a ?= - b) = (b ?= a).
Proof. apply compare_ext; lia. Qed.

Lemma compare_numeric_keys_spec a b :
  key_wf a -> key_wf b -> compare_numeric_keys a b = (key_scaled a ?= key_scaled b).
Proof.
  intros Ha Hb. rewrite !key_scaled_magnitude. unfold compare_numeric_keys.
  assert (nk_sign a ≠ Zero -> 0 < magnitude_scaled a) as Pa by (intros; by apply magnitude_pos).
  assert (nk_sign b ≠ Zero -> 0 < magnitude_scaled b) as Pb by (intros; by apply magnitude_pos).
  destruct (nk_sign a) eqn:Sa, (nk_sign b) eqn:Sb;
    rewrite ?compare_opp, ?compare_magnitudes_spec by (split; congruence); try done;
    try specialize (Pa ltac:(done)); try specialize (Pb ltac:(done)); symmetry;
    first [apply Z.compare_lt_iff; lia | apply Z.compare_gt_iff; lia].
Qed.

(** ** The sort key's bytes *)
Lemma rank_bits_spec r :
  - 2 ^ 31 <= r < 2 ^ 31 -> Z.lxor (to_bits 32 r) 0x80000000 = r + 2 ^ 31.
Proof.
  intros Hr. change 0x80000000 with (2 ^ 31). rewrite lxor_top by (apply to_bits_range; lia). unfold to_bits.
  rewrite Zplus_mod_idemp_l. apply Z.mod_small. lia.
Qed.

Definition in_be (n : nat) (z : Z) : Prop := 0 <= z < 2 ^ (8 * Z.of_nat n).
Lemma be_cmp n x y : in_be n x -> in_be n y -> bytes_cmp (be_bytes n x) (be_bytes n y) = (x ?= y).
Proof.
  intros Hx Hy. rewrite bytes_cmp_be by (by rewrite !length_be_bytes).
  rewrite !be_val_be_bytes, !Z.mod_small by done. done.
Qed.

Lemma length_sort_key c r f : length (sort_key c r f) = 24%nat.
Proof. unfold sort_key. cbn [length]. rewrite !length_app, !length_be_bytes. done. Qed.

Lemma sort_key_cmp c r1 f1 r2 f2 :
  in_be 4 r1 -> in_be 4 r2 -> in_be 16 f1 -> in_be 16 f2 ->
  bytes_cmp (sort_key c r1 f1) (sort_key c r2 f2) =
    match r1 ?= r2 with Eq => f1 ?= f2 | o => o end.
Proof.
  intros. unfold sort_key. cbn [bytes_cmp]. rewrite Z.compare_refl.
  rewrite bytes_cmp_app_eq by (by rewrite !length_be_bytes). rewrite be_cmp by done.
  destruct (r1 ?= r2); [|done..].
  rewrite bytes_cmp_app_eq by (by rewrite !length_be_bytes). rewrite be_cmp by done.
  rewrite bytes_cmp_refl. by destruct (f1 ?= f2).
Qed.

Lemma numeric_range_sort_key_eq k :
  key_wf k ->
  numeric_range_sort_key k =
    match nk_sign k with
    | Zero => z2b 1 :: replicate 23 Byte.x00
    | Positive => sort_key 2 (magnitude_rank k + 2 ^ 31) (normalized_fraction k)
    | Negative => sort_key 0 (2 ^ 31 - 1 - magnitude_rank k) (2 ^ 128 - 1 - normalized_fraction k)
    end.
Proof.
  intros Hw. unfold numeric_range_sort_key. destruct (nk_sign k) eqn:Hs; [|done|].
  all: assert (nonzero_wf k) as Hn by (split; [done | congruence]);
    apply nonzero_wf_bounds in Hn as (_ & _ & _ & _ & Hr); rewrite rank_bits_spec by lia;
    f_equal; lia.
Qed.

Lemma length_numeric_range_sort_key k : length (numeric_range_sort_key k) = NUMERIC_RANGE_KEY_BYTES.
Proof. unfold numeric_range_sort_key. destruct (nk_sign k); [|done|]; apply length_sort_key. Qed.

Lemma numeric_range_sort_key_cmp a b :
  key_wf a -> key_wf b ->
  bytes_cmp (numeric_range_sort_key a) (numeric_range_sort_key b) = compare_numeric_keys a b.
Proof.
  intros Ha Hb. rewrite !numeric_range_sort_key_eq by done. unfold compare_numeric_keys.
  assert (forall k, key_wf k -> nk_sign k ≠ Zero ->
    in_be 4 (magnitude_rank k + 2 ^ 31) /\ in_be 4 (2 ^ 31 - 1 - magnitude_rank k)
    /\ in_be 16 (normalized_fraction k) /\ in_be 16 (2 ^ 128 - 1 - normalized_fraction k)) as Hin.
  { intros k Hk Hs. pose proof (fraction_spec k (conj Hk Hs)) as (Hf & _).
    pose proof (nonzero_wf_bounds k (conj Hk Hs)) as (_ & _ & _ & _ & Hr).
    unfold in_be. cbn [Z.of_nat]. change (8 * Z.of_nat 4) with 32. change (8 * Z.of_nat 16) with 128. lia. }
  pose proof (Hin a Ha) as Ia. pose proof (Hin b Hb) as Ib.
  destruct (nk_sign a), (nk_sign b); try done;
    destruct (Ia ltac:(done)) as (? & ? & ? & ?), (Ib ltac:(done)) as (? & ? & ? & ?);
    rewrite sort_key_cmp by done; unfold compare_magnitudes.
  - rewrite (compare_ext (2 ^ 31 - 1 - magnitude_rank a) _ (magnitude_rank b) (magnitude_rank a)),
      (compare_ext (2 ^ 128 - 1 - normalized_fraction a) _ (normalized_fraction b)
         (normalized_fraction a)) by lia. done.
  - by rewrite (compare_ext (magnitude_rank a + 2 ^ 31) _ (magnitude_rank a) (magnitude_rank b)) by lia.
Qed.

(** ** Decoding a sort key *)
Lemma nonzero_key_rank sign sig e :
  sign ≠ Zero -> 0 < sig < 2 ^ 128 ->
  let k := nonzero_key sign sig e in
  magnitude_rank k = e + Z.log2 sig /\ bit_length k <= Z.log2 sig + 1 /\ e <= nk_exponent k
  /\ 0 < nk_significand k /\ Z.odd (nk_significand k) = true.
Proof.
  intros Hs Hsig k. unfold k, magnitude_rank, nonzero_key.
  destruct sig as [|p|p]; [lia | | lia]. cbn [trailing_zeros].
  destruct (ctz_spec p) as (H0 & Ho & Hp). set (x := Z.shiftr (Z.pos p) (ctz p)) in *.
  assert (0 < 2 ^ ctz p) by (apply Z.pow_pos_nonneg; lia). assert (0 < x) by nia.
  rewrite bit_length_log2 by done. cbn [nk_exponent nk_significand].
  rewrite Hp, Z.log2_mul_pow2 by lia. split_and!; try done; lia.
Qed.

Lemma trailing_zeros_mul m n : Z.odd m = true -> 0 < m -> 0 <= n -> trailing_zeros (m * 2 ^ n) = n.
Proof.
  intros Ho Hm Hn. assert (0 < 2 ^ n) by (apply Z.pow_pos_nonneg; lia).
  destruct (m * 2 ^ n) as [|p|p] eqn:E; [nia | | nia]. cbn [trailing_zeros].
  destruct (ctz_spec p) as (H0 & Hop & Hp). rewrite <- E in *.
  destruct (odd_pow_inj m (Z.shiftr (m * 2 ^ n) (ctz p)) n (ctz p)); auto.
Qed.

Lemma slice_sort_key c r f :
  in_be 4 r -> in_be 16 f -> 0 <= c < 256 ->
  b2z (nth 0 (sort_key c r f) Byte.x00) = c
  /\ be_val (slice 1 5 (sort_key c r f)) = r /\ be_val (slice 5 21 (sort_key c r f)) = f
  /\ slice 21 24 (sort_key c r f) = replicate 3 Byte.x00.
Proof.
  intros Hr Hf Hc. unfold slice, sort_key. cbn [nth Nat.sub].
  split; [by rewrite b2z_z2b, Z.mod_small|].
  assert (forall i, drop (S i) (z2b c :: be_bytes 4 r ++ be_bytes 16 f ++ replicate 3 Byte.x00)
                    = drop i (be_bytes 4 r ++ be_bytes 16 f ++ replicate 3 Byte.x00)) as Hd by done.
  rewrite !Hd, drop_0. rewrite (drop_app_length' _ _ 4), take_app_length' by by rewrite length_be_bytes.
  rewrite (take_app_length' (be_bytes 16 f)) by by rewrite length_be_bytes.
  rewrite !be_val_be_bytes, !Z.mod_small by done. split_and!; [done..|].
  rewrite app_assoc, drop_app_length' by (rewrite length_app, !length_be_bytes; done). done.
Qed.

Lemma leading_zeros_top f : 2 ^ 127 <= f < 2 ^ 128 -> leading_zeros f = 0.
Proof.
  intros Hf. unfold leading_zeros. destruct (Z.eqb_spec f 0); [lia|].
  rewrite (Z.log2_unique f 127) by lia. lia.
Qed.

(** Decoding inverts encoding on canonical nonzero keys. *)
Lemma decode_sort_key k :
  nonzero_wf k ->
  decode_nonzero_numeric_range_sidecar_key (numeric_range_sort_key k)
  = Ok (k, magnitude_rank k, bit_length k).
Proof.
  intros Hk. pose proof Hk as [Hw Hs]. rewrite numeric_range_sort_key_eq by done.
  pose proof (fraction_spec k Hk) as (Hf & _ & _ & Hfr).
  pose proof (nonzero_wf_bounds k Hk) as (Hm & He & Hl & Hr & Hrr).
  set (r := magnitude_rank k) in *. set (f := normalized_fraction k) in *.
  assert (forall c r0 f0 (s : NumericSign),
    0 <= c < 256 -> in_be 4 r0 -> in_be 16 f0 ->
    s = (if c =? 0 then Negative else Positive) ->
    (match s with Negative => 2 ^ 32 - 1 - r0 | _ => r0 end) = r + 2 ^ 31 ->
    (match s with Negative => 2 ^ 128 - 1 - f0 | _ => f0 end) = f -> nk_sign k = s ->
    decode_nonzero_numeric_range_sidecar_key (sort_key c r0 f0) = Ok (k, r, bit_length k)) as Hdec.
  { intros c r0 f0 s Hc Hr0 Hf0 Es Er Ef Hsk. unfold decode_nonzero_numeric_range_sidecar_key.
    destruct (slice_sort_key c r0 f0 Hr0 Hf0 Hc) as (-> & -> & -> & _).
    rewrite <- Es, Er, Ef. destruct (Z.eqb_spec f 0); [lia|].
    rewrite leading_zeros_top by lia. cbn [Z.eqb negb].
    assert (Z.lxor (r + 2 ^ 31) 0x80000000 = to_bits 32 r) as ->.
    { rewrite <- (rank_bits_spec r) by lia. by rewrite Z.lxor_assoc, Z.lxor_nilpotent, Z.lxor_0_r. }
    assert (of_bits 32 (to_bits 32 r) = r) as ->.
    { apply of_to_bits; lia. }
    assert (Z.odd (nk_significand k) = true) as Ho.
    { unfold key_wf in Hw. destruct (nk_sign k); tauto. }
    assert (128 - trailing_zeros f = bit_length k) as Hbl.
    { rewrite Hfr, trailing_zeros_mul, bit_length_log2 by (done || lia). lia. }
    rewrite Hbl, bit_length_log2 by lia.
    replace (128 - (Z.log2 (nk_significand k) + 1)) with (127 - Z.log2 (nk_significand k)) by lia.
    rewrite Z.shiftr_div_pow2, Hfr, Z.div_mul by (try apply Z.pow_nonzero; lia).
    replace (r - (Z.log2 (nk_significand k) + 1 - 1)) with (nk_exponent k) by lia.
    destruct (Z.ltb_spec (nk_exponent k) (- 2 ^ 31)); [lia|]. destruct k. cbn in *. by subst. }
  unfold in_be in Hdec. change (8 * Z.of_nat 4) with 32 in Hdec. change (8 * Z.of_nat 16) with 128 in Hdec.
  destruct (nk_sign k) eqn:Hsk; [|done|].
  - apply (Hdec 0 _ _ Negative); try done; lia.
  - apply (Hdec 2 _ _ Positive); try done; lia.
Qed.

(** ** The keys the encoder emits *)
Lemma emittable_intro k rank bl :
  0 < nk_significand k -> Z.odd (nk_significand k) = true -> nk_sign k ≠ Zero ->
  (-1074 <= nk_exponent k /\ bl <= 53 /\ rank <= 1023)
  \/ (0 <= nk_exponent k
      /\ match nk_sign k with
         | Positive => rank <= 63
         | _ => rank < 63 \/ (rank = 63 /\ nk_significand k = 1 /\ nk_exponent k = 63)
         end) ->
  numeric_scalar_key_is_emittable k rank bl = true.
Proof.
  intros Hp Ho Hs H. unfold numeric_scalar_key_is_emittable.
  assert (Z.land (nk_significand k) 1 = 1) as Hl.
  { change 1 with (Z.ones 1). rewrite Z.land_ones by lia. change (2 ^ 1) with 2.
    rewrite Zmod_odd, Ho. done. }
  rewrite Hl. destruct (Z.eqb_spec (nk_significand k) 0); [lia|]. cbn [orb Z.eqb].
  destruct H as [(H1 & H2 & H3)|[H1 H2]].
  - rewrite (proj2 (Z.leb_le _ _) H1), (proj2 (Z.leb_le _ _) H2), (proj2 (Z.leb_le _ _) H3). done.
  - destruct (_ && _); [done|]. destruct (Z.ltb_spec (nk_exponent k) 0); [lia|].
    destruct (nk_sign k); [|done | by apply Z.leb_le].
    destruct H2 as [H2|(-> & -> & ->)]; [by rewrite (proj2 (Z.ltb_lt _ _) H2) | done].
Qed.

Lemma numeric_key_emittable v k :
  value_wf v -> numeric_key v = Some k -> nk_sign k ≠ Zero ->
  numeric_scalar_key_is_emittable k (magnitude_rank k) (bit_length k) = true.
Proof.
  assert (forall s sig e, 0 < sig < 2 ^ 128 -> s ≠ Zero -> nk_sign (nonzero_key s sig e) = s) as Hsg
    by done.
  destruct v as [|b|z|z|bits|s|b|l|m]; cbn [numeric_key value_wf]; try done; intros Hv Hk Hs.
  - injection Hk as <-. unfold numeric_key_from_i64, i64 in *.
    destruct (Z.eqb_spec z 0) as [->|Hz]; [done|].
    destruct (decide (z = - 2 ^ 63)) as [->|Hmin]; [by vm_compute|].
    set (s := if z <? 0 then Negative else Positive) in *.
    assert (s ≠ Zero) as Hs0 by (unfold s; by destruct (_ <? _)).
    destruct (nonzero_key_rank s (Z.abs z) 0 Hs0 ltac:(lia)) as (-> & _ & He & Hp & Ho).
    assert (Z.log2 (Z.abs z) < 63) by (apply Z.log2_lt_pow2; lia).
    apply emittable_intro; [done..|]. right. split; [done|]. cbn. unfold s. destruct (_ <? _); lia.
  - injection Hk as <-. unfold numeric_key_from_u64, u64 in *.
    destruct (Z.eqb_spec z 0) as [->|Hz]; [done|].
    destruct (nonzero_key_rank Positive z 0 ltac:(done) ltac:(lia)) as (-> & _ & He & Hp & Ho).
    assert (Z.log2 z < 64) by (apply Z.log2_lt_pow2; lia).
    apply emittable_intro; [done..|]. right. split; [done|]. cbn. lia.
  - destruct (is_finite F64 bits) eqn:Hfin.
    2:{ pose proof (numeric_key_from_f64_spec bits Hv) as H. rewrite Hfin in H. congruence. }
    destruct (f64_key_form bits Hv Hfin) as [[E _]|(s & sig & e & Hs0 & Hsig & He & Hl & E & _)];
      rewrite E in Hk; injection Hk as <-; [done|].
    destruct (nonzero_key_rank s sig e Hs0 ltac:(lia)) as (Hr & Hb & He' & Hp & Ho).
    apply emittable_intro; [done..|]. left. rewrite Hr.
    assert (Z.log2 sig < 53) by (apply Z.log2_lt_pow2; lia). lia.
Qed.

(** Every number with a 53-bit significand in the exponent range is an f64. *)
Lemma f64_magnitude_exists sig e :
  0 < sig < 2 ^ 53 -> -1074 <= e -> e + Z.log2 sig <= 1023 ->
  exists m, 0 <= m < 2047 * 2 ^ 52 /\ scaled_magnitude F64 m = sig * 2 ^ (e + 1074).
Proof.
  intros Hsig He Hr. set (l := Z.log2 sig) in *.
  pose proof (Z.log2_spec sig ltac:(lia)) as Hls. fold l in Hls.
  assert (0 <= l < 53) by (split; [apply Z.log2_nonneg | apply Z.log2_lt_pow2; lia]).
  unfold scaled_magnitude. cbn [mb F64].
  destruct (Z.lt_ge_cases (e + l) (-1022)) as [Hsub|Hnorm].
  - exists (sig * 2 ^ (e + 1074)).
    assert (0 < 2 ^ (e + 1074)) by (apply Z.pow_pos_nonneg; lia).
    assert (sig * 2 ^ (e + 1074) < 2 ^ 52) as Hlt.
    { apply Z.lt_le_trans with (2 ^ Z.succ l * 2 ^ (e + 1074)); [nia|].
      rewrite <- Z.pow_add_r by lia. apply Z.pow_le_mono_r; lia. }
    split; [nia|]. rewrite Z.div_small, Z.mod_small by nia. done.
  - assert (2 ^ 52 = 2 ^ l * 2 ^ (52 - l)) as E52 by (rewrite <- Z.pow_add_r by lia; f_equal; lia).
    assert (2 ^ 53 = 2 ^ Z.succ l * 2 ^ (52 - l)) as E53
      by (rewrite <- Z.pow_add_r by lia; f_equal; lia).
    assert (0 < 2 ^ (52 - l)) by (apply Z.pow_pos_nonneg; lia).
    set (f := sig * 2 ^ (52 - l) - 2 ^ 52).
    assert (0 <= f < 2 ^ 52) as Hf by (unfold f; nia).
    exists ((e + l + 1023) * 2 ^ 52 + f).
    rewrite Z.div_add_l, (Z.div_small f), Z.add_0_r by lia.
    assert (((e + l + 1023) * 2 ^ 52 + f) mod 2 ^ 52 = f) as ->.
    { rewrite Z.add_comm, Z.mod_add by lia. apply Z.mod_small. lia. }
    split; [nia|]. destruct (Z.eqb_spec (e + l + 1023) 0); [lia|].
    unfold f. replace (2 ^ 52 + (sig * 2 ^ (52 - l) - 2 ^ 52)) with (sig * 2 ^ (52 - l)) by lia.
    rewrite <- Z.mul_assoc, <- Z.pow_add_r by lia. do 2 f_equal. lia.
Qed.

Lemma f64_exists (neg : bool) sig e :
  0 < sig < 2 ^ 53 -> -1074 <= e -> e + Z.log2 sig <= 1023 ->
  exists bits, u64 bits /\ is_finite F64 bits = true
    /\ scaled F64 bits = (if neg then -1 else 1) * (sig * 2 ^ (e + 1074)).
Proof.
  intros Hsig He Hr. destruct (f64_magnitude_exists sig e Hsig He Hr) as (m & Hm & Hs).
  exists ((if neg then 2 ^ 63 else 0) + m).
  assert (magnitude F64 ((if neg then 2 ^ 63 else 0) + m) = m) as Hmag.
  { unfold magnitude. cbn [mb eb F64]. change (52 + 11) with 63. destruct neg.
    - rewrite Z.add_comm, <- (Z.mul_1_l (2 ^ 63)), Z.mod_add by lia. apply Z.mod_small. lia.
    - apply Z.mod_small. lia. }
  split; [unfold u64; destruct neg; lia|]. split.
  - unfold is_finite, exponent_bits. rewrite Hmag. cbn [mb F64].
    apply negb_true_iff, Z.eqb_neq. change (exponent_max F64) with 2047.
    assert (m / 2 ^ 52 < 2047) by (apply Z.div_lt_upper_bound; lia). lia.
  - unfold scaled. rewrite Hmag, Hs. unfold sign_bit. cbn [mb eb F64]. change (52 + 11) with 63.
    destruct neg.
    + destruct (Z.leb_spec (2 ^ 63) (2 ^ 63 + m)); lia.
    + destruct (Z.leb_spec (2 ^ 63) (0 + m)); lia.
Qed.

(** Every canonical key that passes the emittability test is a value's key. *)
Lemma emittable_value k :
  0 < nk_significand k < 2 ^ 128 -> Z.odd (nk_significand k) = true -> nk_sign k ≠ Zero ->
  numeric_scalar_key_is_emittable k (magnitude_rank k) (bit_length k) = true ->
  exists v, value_wf v /\ numeric_key v = Some k /\ key_wf k.
Proof.
  intros Hp Ho Hs Hem. unfold numeric_scalar_key_is_emittable in Hem.
  destruct (_ || _); [done|].
  assert (magnitude_rank k = nk_exponent k + Z.log2 (nk_significand k)) as Hr.
  { unfold magnitude_rank. rewrite bit_length_log2; lia. }
  pose proof (Z.log2_nonneg (nk_significand k)) as Hl0.
  assert (forall v x, value_wf v -> key_wf k -> exact_value v = Some x -> x = key_scaled k ->
            exists v, value_wf v /\ numeric_key v = Some k /\ key_wf k) as Hv.
  { intros v x Hv Hk Hx Hxk. exists v. split; [done|]. split; [|done].
    pose proof (numeric_key_spec v Hv) as Hspec. rewrite Hx in Hspec.
    destruct Hspec as (k' & -> & Hw' & Hk'). f_equal. apply key_scaled_inj; congruence. }
  destruct ((-1074 <=? _) && _ && _) eqn:Hf64.
  - apply andb_true_iff in Hf64 as [[H1 H2]%andb_true_iff H3].
    apply Z.leb_le in H1, H2, H3. rewrite bit_length_log2 in H2 by lia.
    destruct (f64_exists (bool_decide (nk_sign k = Negative)) (nk_significand k) (nk_exponent k))
      as (bits & Hb & Hfin & Hsc); [split; [lia | apply Z.log2_lt_pow2; lia] | lia | lia |].
    apply (Hv (PFloat bits) (scaled F64 bits)); [done | | by cbn; rewrite Hfin |].
    + unfold key_wf. destruct (nk_sign k); try done; (split_and!; [done | lia..]).
    + rewrite Hsc. unfold key_scaled. destruct (nk_sign k); [|done|].
      * rewrite bool_decide_true by done. lia.
      * rewrite bool_decide_false by done. lia.
  - destruct (Z.ltb_spec (nk_exponent k) 0); [done|].
    set (z := nk_significand k * 2 ^ nk_exponent k).
    assert (0 < 2 ^ nk_exponent k) by (apply Z.pow_pos_nonneg; lia).
    assert (Z.log2 z = magnitude_rank k) as Hlz by (unfold z; rewrite Z.log2_mul_pow2; lia).
    assert (z * 2 ^ 1074 = nk_significand k * 2 ^ (nk_exponent k + 1074)) as Hz.
    { unfold z. rewrite Z.pow_add_r by lia. lia. }
    assert (0 < z) by (unfold z; nia).
    assert (magnitude_rank k <= 63 -> key_wf k) as Hkw.
    { intros. unfold key_wf. destruct (nk_sign k); try done; (split_and!; [done | lia..]). }
    destruct (nk_sign k) eqn:Hsg; [| done |].
    + apply (Hv (PInt (- z)) (- z * 2 ^ 1074)); [| | done |].
      * cbn. unfold i64. apply orb_true_iff in Hem as [Hem|Hem].
        -- apply Z.ltb_lt in Hem. assert (z < 2 ^ 63) by (apply Z.log2_lt_pow2; lia). lia.
        -- apply andb_true_iff in Hem as [[_ Hm1]%andb_true_iff He63]. apply Z.eqb_eq in Hm1, He63.
           unfold z. rewrite Hm1, He63. lia.
      * apply Hkw. apply orb_true_iff in Hem as [Hem|Hem]; [lia|].
        apply andb_true_iff in Hem as [[Hr63 _]%andb_true_iff _]. lia.
      * unfold key_scaled. rewrite Hsg. lia.
    + apply Z.leb_le in Hem. apply (Hv (PUInt z) (z * 2 ^ 1074)); [| by apply Hkw | done |].
      * cbn. unfold u64. assert (z < 2 ^ 64) by (apply Z.log2_lt_pow2; lia). lia.
      * unfold key_scaled. by rewrite Hsg.
Qed.

Lemma decode_spec bytes k rank bl :
  length bytes = NUMERIC_RANGE_KEY_BYTES ->
  decode_nonzero_numeric_range_sidecar_key bytes = Ok (k, rank, bl) ->
  nk_sign k ≠ Zero /\ 0 < nk_significand k < 2 ^ 128 /\ Z.odd (nk_significand k) = true
  /\ rank = magnitude_rank k /\ bl = bit_length k.
Proof.
  intros Hl. unfold decode_nonzero_numeric_range_sidecar_key.
  set (sg := if b2z (nth 0 bytes Byte.x00) =? 0 then Negative else Positive).
  set (fr := match sg with Negative => _ | _ => _ end).
  assert (0 <= fr < 2 ^ 128) as Hfr.
  { assert (0 <= be_val (slice 5 21 bytes) < 2 ^ 128) as Hb.
    { unfold be_val. pose proof (le_val_range (reverse (slice 5 21 bytes))) as R.
      rewrite length_reverse in R. unfold slice in R |- *.
      rewrite length_take, length_drop, Hl in R. exact R. }
    unfold fr. destruct sg; lia. }
  destruct (Z.eqb_spec fr 0); [done|].
  destruct (Z.eqb_spec (leading_zeros fr) 0) as [Hlz|]; cbn [negb]; [|done].
  assert (Z.log2 fr = 127) as Hlog.
  { unfold leading_zeros in Hlz. destruct (Z.eqb_spec fr 0); lia. }
  destruct fr as [|p|p] eqn:Ef; [done | | lia]. cbn [trailing_zeros].
  destruct (ctz_spec p) as (H0 & Ho & Hp).
  replace (128 - (128 - ctz p)) with (ctz p) by lia.
  set (x := Z.shiftr (Z.pos p) (ctz p)) in *.
  assert (0 < 2 ^ ctz p) by (apply Z.pow_pos_nonneg; lia). assert (0 < x) by nia.
  assert (Z.log2 x + ctz p = 127) as Hlx.
  { rewrite <- Hlog, Hp, Z.log2_mul_pow2; lia. }
  destruct (_ <? _); [done|]. intros [= <- <- <-].
  cbn [nk_sign nk_significand]. unfold magnitude_rank. rewrite bit_length_log2 by done.
  cbn [nk_exponent nk_significand].
  split; [by unfold sg; destruct (_ =? _)|]. split; [nia|]. split; [done|]. split; lia.
Qed.

Lemma forallb_zero_bytes l : existsb (fun b => negb (b2z b =? 0)) l = false -> l = replicate (length l) Byte.x00.
Proof.
  induction l as [|b l IH]; cbn; [done|]. intros [Hb Hl]%orb_false_iff.
  apply negb_false_iff, Z.eqb_eq in Hb. rewrite <- IH by done. f_equal.
  apply b2z_inj. by rewrite Hb.
Qed.

Lemma validate_sort_key v bytes :
  value_wf v -> numeric_range_sort_key_for_value v = Some bytes ->
  validate_numeric_range_sidecar_key bytes = Ok tt.
Proof.
  intros Hv. unfold numeric_range_sort_key_for_value.
  pose proof (numeric_key_spec v Hv) as Hspec.
  destruct (exact_value v); [|by rewrite Hspec]. destruct Hspec as (k & Hk & Hw & _).
  rewrite Hk. intros [= <-].
  destruct (decide (nk_sign k = Zero)) as [Hz|Hz].
  { rewrite numeric_range_sort_key_eq, Hz by done. by vm_compute. }
  pose proof (decode_sort_key k (conj Hw Hz)) as Hd.
  pose proof (numeric_key_emittable v k Hv Hk Hz) as He.
  pose proof (numeric_range_sort_key_eq k Hw) as Heq.
  pose proof (fraction_spec k (conj Hw Hz)) as (Hf & _).
  pose proof (nonzero_wf_bounds k (conj Hw Hz)) as (_ & _ & _ & _ & Hr).
  assert (exists c r f, (c = 0 \/ c = 2) /\ in_be 4 r /\ in_be 16 f
            /\ numeric_range_sort_key k = sort_key c r f) as (c & r & f & Hc & Hr' & Hf' & E).
  { unfold in_be. change (8 * Z.of_nat 4) with 32. change (8 * Z.of_nat 16) with 128.
    destruct (nk_sign k); [| done |]; rewrite Heq;
      [exists 0, (2 ^ 31 - 1 - magnitude_rank k), (2 ^ 128 - 1 - normalized_fraction k)
      |exists 2, (magnitude_rank k + 2 ^ 31), (normalized_fraction k)];
      (split; [auto|]; split; [lia|]; split; [lia | done]). }
  destruct (slice_sort_key c r f) as (Hc0 & _ & _ & Hz3); [done | done | lia |].
  unfold validate_numeric_range_sidecar_key. rewrite Hd, E, Hc0, Hz3, <- E. cbn [mbind result_bind].
  rewrite He, bool_decide_true by done. cbn. by destruct Hc as [->| ->].
Qed.

Lemma validate_sound bytes :
  length bytes = NUMERIC_RANGE_KEY_BYTES ->
  validate_numeric_range_sidecar_key bytes = Ok tt ->
  exists v, value_wf v /\ numeric_range_sort_key_for_value v = Some bytes.
Proof.
  intros Hl. unfold validate_numeric_range_sidecar_key.
  assert ((if existsb (fun b => negb (b2z b =? 0)) (slice 21 24 bytes)
           then Err (CorruptRecord "numeric range sidecar key reserved bytes must be zero")
           else '(k, rank, bit_length) ← decode_nonzero_numeric_range_sidecar_key bytes;
             if negb (numeric_scalar_key_is_emittable k rank bit_length) then
               Err (CorruptRecord "numeric range sidecar key is not a canonical finite numeric key")
             else if negb (bool_decide (numeric_range_sort_key k = bytes)) then
               Err (CorruptRecord
                      "numeric range sidecar key does not round-trip through canonical encoding")
             else Ok tt) = Ok tt ->
          exists v, value_wf v /\ numeric_range_sort_key_for_value v = Some bytes) as Hnz.
  { destruct (existsb _ _); [done|]. intros ([[k rank] bl] & Hd & H)%bind_Ok_inv.
    destruct (numeric_scalar_key_is_emittable k rank bl) eqn:He; [|done]. cbn [negb] in H.
    case_bool_decide as Hb; [|done].
    destruct (decode_spec _ _ _ _ Hl Hd) as (Hs & Hp & Ho & -> & ->).
    destruct (emittable_value k Hp Ho Hs He) as (v & Hv & Hk & _). exists v. split; [done|].
    unfold numeric_range_sort_key_for_value. rewrite Hk. cbn. by rewrite Hb. }
  destruct (b2z (nth 0 bytes Byte.x00)) as [|[p|[p|p|]|]|p] eqn:Hc;
    first [exact Hnz | by intros | idtac].
  clear Hnz. destruct (existsb _ _) eqn:Hz; [done|]. intros _. exists (PInt 0). split; [done|].
  apply forallb_zero_bytes in Hz. unfold numeric_range_sort_key_for_value. cbn. f_equal.
  destruct bytes as [|b bytes]; [done|]. cbn [nth slice drop Nat.sub] in *.
  assert (length bytes = 23%nat) as Hl' by (injection Hl as Hl; exact Hl).
  unfold slice in Hz. change (drop 1 (b :: bytes)) with bytes in Hz.
  change (24 - 1)%nat with 23%nat in Hz. rewrite take_ge in Hz by lia.
  rewrite Hz, Hl'. change (z2b 1 :: replicate 23 Byte.x00 = b :: replicate 23 Byte.x00).
  f_equal. apply b2z_inj. by rewrite Hc.
Qed.

(** ** Structural equality is equality, on values that are their own equals *)
Lemma value_wf_array l : value_wf (PArray l) <-> Forall value_wf l.
Proof.
  cbn. induction l as [|x l IH]; [split; constructor|].
  rewrite Forall_cons. split; intros [Hx Hl]; (split; [done | by apply IH]).
Qed.
Lemma value_wf_map m :
  value_wf (PMap m) <-> btree_wf m /\ Forall (fun kv => value_wf (snd kv)) m.
Proof.
  cbn. assert (forall m : props,
    (fix all m := match m with [] => True | kv :: m => value_wf (snd kv) /\ all m end) m
    <-> Forall (fun kv => value_wf (snd kv)) m) as H; [|by rewrite H].
  clear m. induction m as [|kv m IH]; [split; constructor|].
  rewrite Forall_cons. split; intros [Hx Hl]; (split; [done | by apply IH]).
Qed.

Lemma raw_eq_sound l r :
  value_wf l -> value_wf r -> raw_structural_property_eq l r = true -> l = r.
Proof.
  revert r. induction l as [|b|z|z|z|s|b|l IH|m IH] using PropValue_nested_ind;
    intros [|b'|z'|z'|z'|s'|b'|l'|m'] Hl Hr; cbn [raw_structural_property_eq]; try done.
  - intros H. f_equal. by apply eqb_prop.
  - intros H%Z.eqb_eq. by subst.
  - intros H%Z.eqb_eq. by subst.
  - intros [_ H%Z.eqb_eq]%andb_true_iff. by subst.
  - intros H%bool_decide_eq_true. by subst.
  - intros H%bool_decide_eq_true. by subst.
  - intros [Hlen%Nat.eqb_eq H]%andb_true_iff. f_equal.
    apply value_wf_array in Hl, Hr. revert l' Hr Hlen H.
    induction l as [|x l IHl]; intros [|y l'] Hr Hlen H; try done.
    apply Forall_cons in IH as [IHx IH], Hl as [Hx Hl], Hr as [Hy Hr].
    apply andb_true_iff in H as [Hxy H]. f_equal; [by apply IHx|]. apply IHl; auto.
  - intros [Hlen%Nat.eqb_eq H]%andb_true_iff. f_equal.
    apply value_wf_map in Hl as [Hbl Hl], Hr as [Hbr Hr].
    apply btree_incl_eq; [done..|]. intros [k v] Hkv.
    rewrite forallb_forall in H. apply list_elem_of_In in Hkv as Hin. apply H in Hin. cbn in Hin.
    destruct (btree_get k m') as [v'|] eqn:Hg; [|done]. apply btree_get_elem in Hg.
    rewrite Forall_forall in IH, Hl, Hr.
    rewrite <- (IH _ Hkv v' (Hl _ Hkv) (Hr _ Hg) Hin) in Hg. exact Hg.
Qed.

(** ** Guarantees *)

(** C22.  Numbers compare exactly.  For any two in-range numeric property
    values, in any mix of signed, unsigned and floating point, the comparison,
    the semantic equality and the byte order of their 24-byte range keys are
    those of the exact mathematical values. *)
Theorem numeric_order_exact l r x y :
  value_wf l -> value_wf r -> exact_value l = Some x -> exact_value r = Some y ->
  compare_numeric_prop_values l r = Some (x ?= y)
  /\ semantic_property_eq l r = bool_decide (x = y)
  /\ exists a b, numeric_range_sort_key_for_value l = Some a
             /\ numeric_range_sort_key_for_value r = Some b
             /\ length a = NUMERIC_RANGE_KEY_BYTES /\ length b = NUMERIC_RANGE_KEY_BYTES
             /\ bytes_cmp a b = (x ?= y).
Proof.
  intros Hl Hr Hx Hy. pose proof (numeric_key_spec l Hl) as Sl. pose proof (numeric_key_spec r Hr) as Sr.
  rewrite Hx in Sl. rewrite Hy in Sr. destruct Sl as (kl & Kl & Wl & <-), Sr as (kr & Kr & Wr & <-).
  unfold compare_numeric_prop_values, semantic_property_eq, numeric_range_sort_key_for_value.
  rewrite Kl, Kr. cbn [mbind option_bind fmap option_fmap option_map].
  rewrite compare_numeric_keys_spec by done. split; [done|]. split.
  - apply bool_decide_ext. split; [by intros -> | by apply key_scaled_inj].
  - eexists _, _. split_and!; [done..| | |].
    1, 2: apply length_numeric_range_sort_key.
    by rewrite numeric_range_sort_key_cmp, compare_numeric_keys_spec.
Qed.

(** A range sidecar key is accepted exactly when it is the key of some
    in-range numeric property value: nothing the encoder emits is refused, and
    no other 24 bytes pass. *)
Theorem sidecar_key_accepted_iff_emitted bytes :
  length bytes = NUMERIC_RANGE_KEY_BYTES ->
  (from_sidecar_bytes bytes = Ok bytes
   <-> exists v, value_wf v /\ numeric_range_sort_key_for_value v = Some bytes).
Proof.
  intros Hl. unfold from_sidecar_bytes. split.
  - intros ([] & Hv & _)%bind_Ok_inv. by apply validate_sound.
  - intros (v & Hv & Hk). by rewrite (validate_sort_key v bytes).
Qed.

Lemma semantic_eq_bytes `{RmpValue} l r :
  value_wf l -> value_wf r -> semantic_property_eq l r = true ->
  semantic_equality_key_bytes l = semantic_equality_key_bytes r.
Proof.
  intros Hl Hr. unfold semantic_property_eq, semantic_equality_key_bytes.
  destruct (numeric_key l) as [kl|] eqn:Kl, (numeric_key r) as [kr|] eqn:Kr.
  - by intros ->%bool_decide_eq_true.
  - intros ->%raw_eq_sound; [congruence | done..].
  - intros ->%raw_eq_sound; [congruence | done..].
  - by intros ->%raw_eq_sound.
Qed.

(** C24.  Equality lookups are complete: two property values the query engine
    treats as equal have the same equality key bytes, hence the same equality
    hash, so an equality index keyed by the hash finds every match. *)
Theorem semantic_eq_same_hash `{RmpValue} l r :
  value_wf l -> value_wf r -> semantic_property_eq l r = true ->
  semantic_equality_key_bytes l = semantic_equality_key_bytes r
  /\ hash_prop_equality_key l = hash_prop_equality_key r.
Proof.
  intros Hl Hr E. pose proof (semantic_eq_bytes l r Hl Hr E) as Hb.
  split; [done|]. unfold hash_prop_equality_key. by rewrite Hb.
Qed.

(** ** Ranges as sets of numbers *)
Lemma in_lower_cases i c :
  in_lower i c = if i then match c with Lt => false | _ => true end
                 else match c with Gt => true | _ => false end.
Proof. by destruct i, c. Qed.
Lemma in_upper_cases i c :
  in_upper i c = if i then match c with Gt => false | _ => true end
                 else match c with Lt => true | _ => false end.
Proof. by destruct i, c. Qed.
Lemma in_lower_spec i x l : in_lower i (x ?= l) = if i then l <=? x else l <? x.
Proof. rewrite in_lower_cases. destruct i, (Z.compare_spec x l); lia. Qed.
Lemma in_upper_spec i x u : in_upper i (x ?= u) = if i then x <=? u else x <? u.
Proof. rewrite in_upper_cases. destruct i, (Z.compare_spec x u); lia. Qed.

Definition bound_wf (b : option NumericRangeBoundKey) : Prop :=
  match b with Some b => key_wf (bk_key b) | None => True end.
Definition range_wf (r : ValidatedNumericRange) : Prop :=
  bound_wf (vr_lower r) /\ bound_wf (vr_upper r).

Definition above (b : option NumericRangeBoundKey) (x : Z) : bool :=
  match b with
  | Some b => if bk_inclusive b then key_scaled (bk_key b) <=? x else key_scaled (bk_key b) <? x
  | None => true
  end.
Definition below (b : option NumericRangeBoundKey) (x : Z) : bool :=
  match b with
  | Some b => if bk_inclusive b then x <=? key_scaled (bk_key b) else x <? key_scaled (bk_key b)
  | None => true
  end.

Lemma within_spec k r :
  key_wf k -> range_wf r ->
  numeric_key_within_validated_range k r
  = negb (vr_is_empty r) && above (vr_lower r) (key_scaled k) && below (vr_upper r) (key_scaled k).
Proof.
  intros Hk [Hl Hu]. unfold numeric_key_within_validated_range.
  destruct (vr_is_empty r); [done|]. cbn [negb andb]. f_equal.
  - destruct (vr_lower r); [|done]. cbn in *. by rewrite compare_numeric_keys_spec, in_lower_spec.
  - destruct (vr_upper r); [|done]. cbn in *. by rewrite compare_numeric_keys_spec, in_upper_spec.
Qed.

Lemma max_lower_spec l r x :
  bound_wf l -> bound_wf r ->
  bound_wf (max_lower_bound l r) /\ above (max_lower_bound l r) x = above l x && above r x.
Proof.
  destruct l as [[kl il]|], r as [[kr ir]|]; cbn; intros Hl Hr; rewrite ?andb_true_r; try done.
  rewrite compare_numeric_keys_spec by done.
  destruct (Z.compare_spec (key_scaled kl) (key_scaled kr)); cbn; (split; [done|]);
    destruct il, ir; cbn; lia.
Qed.
Lemma min_upper_spec l r x :
  bound_wf l -> bound_wf r ->
  bound_wf (min_upper_bound l r) /\ below (min_upper_bound l r) x = below l x && below r x.
Proof.
  destruct l as [[kl il]|], r as [[kr ir]|]; cbn; intros Hl Hr; rewrite ?andb_true_r; try done.
  rewrite compare_numeric_keys_spec by done.
  destruct (Z.compare_spec (key_scaled kl) (key_scaled kr)); cbn; (split; [done|]);
    destruct il, ir; cbn; lia.
Qed.

Lemma bounds_are_empty_spec l u x :
  bound_wf l -> bound_wf u -> bounds_are_empty l u = true -> above l x && below u x = false.
Proof.
  destruct l as [[kl il]|], u as [[ku iu]|]; cbn; try done. intros Hl Hu.
  unfold range_bounds_are_empty. cbn. rewrite compare_numeric_keys_spec by done.
  destruct (Z.compare_spec (key_scaled kl) (key_scaled ku)); try done; destruct il, iu; cbn; lia.
Qed.

Lemma intersect_within k a b :
  key_wf k -> range_wf a -> range_wf b ->
  numeric_key_within_validated_range k (intersect_validated_numeric_ranges a b)
  = numeric_key_within_validated_range k a && numeric_key_within_validated_range k b.
Proof.
  intros Hk Ha Hb. pose proof Ha as [Hla Hua]. pose proof Hb as [Hlb Hub].
  set (x := key_scaled k).
  destruct (max_lower_spec (vr_lower a) (vr_lower b) x Hla Hlb) as [Wl El].
  destruct (min_upper_spec (vr_upper a) (vr_upper b) x Hua Hub) as [Wu Eu].
  rewrite !within_spec by (done || by split). cbn [intersect_validated_numeric_ranges vr_lower vr_upper vr_is_empty].
  fold x. pose proof (bounds_are_empty_spec _ _ x Wl Wu) as He. rewrite El, Eu in *.
  destruct (vr_is_empty a), (vr_is_empty b); cbn [orb negb andb]; rewrite ?andb_false_r; try done.
  destruct (bounds_are_empty _ _); [specialize (He eq_refl) | clear He];
    destruct (above (vr_lower a) x), (below (vr_upper a) x), (above (vr_lower b) x), (below (vr_upper b) x);
    done.
Qed.

Definition raw_bound_wf (b : option PropertyRangeBound) : Prop :=
  match b with Some b => value_wf (bound_value b) | None => True end.

Lemma validate_value_spec v :
  value_wf v ->
  match validate_numeric_range_value v with
  | Ok k => numeric_key v = Some k /\ key_wf k
  | Err _ => exact_value v = None
  end.
Proof.
  intros Hv. pose proof (numeric_key_spec v Hv) as Hs.
  destruct v as [|b|z|z|bits|s|b|l|m]; cbn [validate_numeric_range_value exact_value] in *; try done.
  - destruct Hs as (k & -> & Hw & _). done.
  - destruct Hs as (k & -> & Hw & _). done.
  - destruct (is_finite F64 bits); cbn [negb]; [|done]. destruct Hs as (k & -> & Hw & _). done.
Qed.

Lemma validate_optional_spec b o :
  raw_bound_wf b -> validate_optional_bound b = Ok o ->
  bound_wf o
  /\ match b with
     | Some b => exists k, numeric_key (bound_value b) = Some k /\ o = Some (mkBoundKey k (is_inclusive b))
     | None => o = None
     end.
Proof.
  destruct b as [b|]; cbn; [|by intros _ [= <-]]. intros Hv.
  pose proof (validate_value_spec _ Hv) as Hs. unfold validate_bound.
  destruct (validate_numeric_range_value (bound_value b)) as [k|e]; cbn; [|done].
  destruct Hs as [Hk Hw]. intros [= <-]. split; [done|]. by exists k.
Qed.

Lemma validate_bounds_inv lower upper cursor r :
  validate_numeric_range_bounds lower upper cursor = Ok r ->
  exists ol ou, validate_optional_bound lower = Ok ol /\ validate_optional_bound upper = Ok ou
            /\ r = mkRange ol ou (bounds_are_empty ol ou).
Proof.
  unfold validate_numeric_range_bounds. intros Hval.
  assert (forall (ol ou : res (option NumericRangeBoundKey)) (c : res NumericScalarKey),
    (lower ← ol; upper ← ou; _ ← c; Ok (mkRange lower upper (bounds_are_empty lower upper))) = Ok r ->
    exists l u, ol = Ok l /\ ou = Ok u /\ r = mkRange l u (bounds_are_empty l u)) as Hb.
  { intros ol ou c (l & -> & H)%bind_Ok_inv. apply bind_Ok_inv in H as (u & -> & H).
    apply bind_Ok_inv in H as (k & _ & H). apply Ok_inj in H as <-. by exists l, u. }
  destruct lower, upper; try done; by eapply Hb.
Qed.
Lemma validate_bounds_spec lower upper cursor r v :
  raw_bound_wf lower -> raw_bound_wf upper -> value_wf v ->
  validate_numeric_range_bounds lower upper cursor = Ok r ->
  range_wf r
  /\ prop_value_within_validated_range v r
     = bool_decide (numeric_range_value_within_bounds v lower upper = Some true)
  /\ prop_value_within_validated_range v r
     = match exact_value v with Some x => above (vr_lower r) x && below (vr_upper r) x | None => false end.
Proof.
  intros Hl Hu Hv Hval.
  destruct (validate_bounds_inv _ _ _ _ Hval) as (ol & ou & El & Eu & ->).
  destruct (validate_optional_spec _ _ Hl El) as [Wl Bl].
  destruct (validate_optional_spec _ _ Hu Eu) as [Wu Bu].
  assert (range_wf (mkRange ol ou (bounds_are_empty ol ou))) as Wr by by split.
  split; [done|]. pose proof (numeric_key_spec v Hv) as Hs.
  unfold prop_value_within_validated_range, numeric_range_value_within_bounds.
  destruct (exact_value v) as [x|].
  2:{ rewrite Hs. cbn. done. }
  destruct Hs as (k & -> & Wk & <-). cbn [mbind option_bind].
  assert (numeric_key_within_validated_range k (mkRange ol ou (bounds_are_empty ol ou))
          = above ol (key_scaled k) && below ou (key_scaled k)) as Hw.
  { rewrite within_spec by done. cbn [vr_lower vr_upper vr_is_empty].
    pose proof (bounds_are_empty_spec ol ou (key_scaled k) Wl Wu) as He.
    destruct (bounds_are_empty ol ou); [by rewrite He | done]. }
  rewrite Hw. cbn [vr_lower vr_upper]. split; [|done].
  destruct lower as [l|], upper as [u|];
    repeat match goal with H : exists k, _ |- _ => destruct H as (? & -> & ->) end; subst;
    cbn [mbind option_bind bound_wf above below bk_key bk_inclusive] in *;
    rewrite ?compare_numeric_keys_spec, ?in_lower_spec, ?in_upper_spec by done;
    repeat match goal with |- context [is_inclusive ?b] => destruct (is_inclusive b) end;
    repeat match goal with |- context [?a <=? ?b] => destruct (a <=? b)
                         | |- context [?a <? ?b] => destruct (a <? b) end; done.
Qed.
Lemma within_intersection v a b :
  value_wf v -> range_wf a -> range_wf b ->
  prop_value_within_validated_range v (intersect_validated_numeric_ranges a b)
  = prop_value_within_validated_range v a && prop_value_within_validated_range v b.
Proof.
  intros Hv Ha Hb. pose proof (numeric_key_spec v Hv) as Hs. unfold prop_value_within_validated_range.
  destruct (exact_value v) as [x|]; [|by rewrite Hs]. destruct Hs as (k & -> & Wk & _). by apply intersect_within.
Qed.

(** C23.  Numeric range filters.  A validated range accepts a property value
    exactly when the unvalidated bound test does, that is when its exact number
    lies within the bounds (so never a string, a NaN or an infinity); and the
    intersection of two ranges accepts exactly what both accept. *)
Theorem numeric_range_exact lower upper cursor r r2 v :
  raw_bound_wf lower -> raw_bound_wf upper -> range_wf r2 -> value_wf v ->
  validate_numeric_range_bounds lower upper cursor = Ok r ->
  range_wf r
  /\ prop_value_within_validated_range v r
     = bool_decide (numeric_range_value_within_bounds v lower upper = Some true)
  /\ prop_value_within_validated_range v r
     = match exact_value v with Some x => above (vr_lower r) x && below (vr_upper r) x | None => false end
  /\ prop_value_within_validated_range v (intersect_validated_numeric_ranges r r2)
     = prop_value_within_validated_range v r && prop_value_within_validated_range v r2.
Proof.
  intros Hl Hu H2 Hv Hval. destruct (validate_bounds_spec lower upper cursor r v Hl Hu Hv Hval) as (Wr & Hb & Hx).
  split; [done|]. split; [done|]. split; [done|]. by apply within_intersection.
Qed.

Module PropertyWitness.
(** 2^53 + 1 against the float 2^53, which an f64 comparison would call equal. *)
Lemma numeric_order_witness :
  compare_numeric_prop_values (PInt (2 ^ 53 + 1)) (PFloat 0x4340000000000000) = Some Gt.
Proof.
  destruct (numeric_order_exact (PInt (2 ^ 53 + 1)) (PFloat 0x4340000000000000)
              ((2 ^ 53 + 1) * 2 ^ 1074) (2 ^ 53 * 2 ^ 1074)) as [-> _].
  - cbn. unfold i64. lia.
  - cbn. unfold u64. lia.
  - reflexivity.
  - vm_compute. reflexivity.
  - vm_compute. reflexivity.
Defined.

Definition key_of_minus_three : list byte := numeric_range_sort_key (numeric_key_from_i64 (-3)).
Lemma sidecar_key_witness : from_sidecar_bytes key_of_minus_three = Ok key_of_minus_three.
Proof.
  apply (sidecar_key_accepted_iff_emitted key_of_minus_three); [vm_compute; reflexivity|].
  exists (PInt (-3)). split; [cbn; unfold i64; lia | reflexivity].
Defined.

Lemma same_hash_witness :
  @hash_prop_equality_key {| rmp_value_to_vec _ := [] |} (PUInt 1)
  = @hash_prop_equality_key {| rmp_value_to_vec _ := [] |} (PFloat 0x3ff0000000000000).
Proof.
  apply semantic_eq_same_hash; [cbn; unfold u64; lia | cbn; unfold u64; lia | vm_compute; reflexivity].
Defined.

Definition lo : option PropertyRangeBound := Some (Included (PInt 0)).
Definition hi : option PropertyRangeBound := Some (Excluded (PFloat 0x4004000000000000)).
Definition range : ValidatedNumericRange :=
  match validate_numeric_range_bounds lo hi None with Ok r => r | Err _ => mkRange None None true end.
Lemma numeric_range_witness :
  prop_value_within_validated_range (PUInt 2) range
  = bool_decide (numeric_range_value_within_bounds (PUInt 2) lo hi = Some true).
Proof.
  apply (numeric_range_exact lo hi None range (mkRange None None false) (PUInt 2)).
  - cbn. unfold i64. lia.
  - cbn. unfold u64. lia.
  - split; exact I.
  - cbn. unfold u64. lia.
  - vm_compute. reflexivity.
Defined.
End PropertyWitness.
