(* ===== verification/FilterBase.v ===== *)
(** What node and edge filters share (src/engine/query_ir.rs, query_exec.rs):
    structural keys, sorting and removing duplicates by key, the contradictions
    an AND looks for, and the tests of values against ranges and lists. *)
From S2P Require Import Prelude Types Floats PropertyValue.

(** Fallible code that can also panic ([None]). *)
Definition and_then {A B} (m : option (res A)) (f : A -> option (res B)) : option (res B) :=
  match m with
  | Some (Ok a) => f a
  | Some (Err e) => Some (Err e)
  | None => None
  end.

(** ** Range tests *)
Definition u64_flexible_range_matches (value : Z) (lower upper : option Z) (lower_inclusive upper_inclusive : bool) : bool :=
  if match lower with Some lower => (value <? lower) || (value =? lower) && negb lower_inclusive | None => false end then false
  else if match upper with Some upper => (upper <? value) || (value =? upper) && negb upper_inclusive | None => false end then false
  else true.
Definition i64_flexible_range_matches (value : Z) (lower upper : option Z) (lower_inclusive upper_inclusive : bool) : bool :=
  if match lower with Some lower => (value <? lower) || (value =? lower) && negb lower_inclusive | None => false end then false
  else if match upper with Some upper => (upper <? value) || (value =? upper) && negb upper_inclusive | None => false end then false
  else true.
Definition f32_flexible_range_matches (value : Z) (lower upper : option Z) (lower_inclusive upper_inclusive : bool) : bool :=
  if is_nan F32 value then false
  else if match lower with
          | Some lower => flt F32 value lower || feq F32 value lower && negb lower_inclusive
          | None => false
          end then false
  else if match upper with
          | Some upper => flt F32 upper value || feq F32 value upper && negb upper_inclusive
          | None => false
          end then false
  else true.

(** ** Normalizing ranges.  [Ok None]: no value is in the range. *)
Definition FlexibleRange : Type := option Z * option Z * bool * bool.
Definition flexible_range (lower upper : option Z) (lower_inclusive upper_inclusive : bool) (context : string)
  : res (option FlexibleRange) :=
  match lower, upper with
  | None, None => Err (InvalidOperation (String.append context " range filters require at least one bound"))
  | Some l, Some u =>
      if (u <? l) || (l =? u) && (negb lower_inclusive || negb upper_inclusive) then Ok None
      else Ok (Some (lower, upper, lower_inclusive, upper_inclusive))
  | _, _ => Ok (Some (lower, upper, lower_inclusive, upper_inclusive))
  end.
Definition normalize_u64_flexible_range := flexible_range.
Definition normalize_i64_flexible_range := flexible_range.
Definition i64_min : Z := - 2 ^ 63.
Definition normalize_i64_range (lower upper : option Z) (context : string) : res (option (Z * Z)) :=
  match lower, upper with
  | None, None => Err (InvalidOperation (String.append context " range filters require at least one bound"))
  | _, _ =>
      let lower := default i64_min lower in
      let upper := default i64_max upper in
      if upper <? lower then Ok None else Ok (Some (lower, upper))
  end.

(** ** Structural keys *)
Definition push_len_prefixed_bytes (bytes : list byte) : list byte := be_bytes 8 (len bytes) ++ bytes.
(** The range was validated: a bound that is not numeric panics. *)
Definition semantic_range_bound_key_bytes (bound : PropertyRangeBound) : option (list byte) :=
  k ← numeric_key (bound_value bound);
  Some (z2b (if is_inclusive bound then 1 else 0) :: push_numeric_key_bytes k).
Definition push_range_bound_structural_key (bound : option PropertyRangeBound) : option (list byte) :=
  match bound with
  | Some bound => k ← semantic_range_bound_key_bytes bound; Some (z2b 1 :: push_len_prefixed_bytes k)
  | None => Some [z2b 0]
  end.
Definition bool_byte (b : bool) : byte := z2b (if b then 1 else 0).
(** [is_some() as u8], then [unwrap_or(0).to_be_bytes()]. *)
Definition push_optional (width : nat) (bound : option Z) : list byte :=
  bool_byte (bool_decide (is_Some bound)) :: be_bytes width (default 0 bound).
Definition i64_be (v : Z) : list byte := be_bytes 8 (to_bits 64 v).

(** ** Sorting by key, stably, and removing repeated keys: [sort_by_key] and
    [dedup_by] on pairs of a key and an element. *)
Section SortDedup.
Context {A : Type}.
Fixpoint insert_by_key (x : list byte * A) (l : list (list byte * A)) : list (list byte * A) :=
  match l with
  | [] => [x]
  | y :: l' => match bytes_cmp (fst x) (fst y) with Gt => y :: insert_by_key x l' | _ => x :: l end
  end.
Definition sort_by_key (l : list (list byte * A)) : list (list byte * A) := foldr insert_by_key [] l.
Fixpoint dedup_by_key (l : list (list byte * A)) : list (list byte * A) :=
  match l with
  | [] => []
  | x :: l' =>
      match dedup_by_key l' with
      | [] => [x]
      | y :: l'' => if decide (fst x = fst y) then x :: l'' else x :: y :: l''
      end
  end.
Definition sort_dedup (l : list (list byte * A)) : list (list byte * A) := dedup_by_key (sort_by_key l).

Fixpoint keyed (structural_key : A -> option (list byte)) (children : list A) : option (list (list byte * A)) :=
  match children with
  | [] => Some []
  | child :: children => k ← structural_key child; l ← keyed structural_key children; Some ((k, child) :: l)
  end.
(** [filter_children_sorted_dedup] *)
Definition children_sorted_dedup (structural_key : A -> option (list byte)) (children : list A) : option (list A) :=
  l ← keyed structural_key children; Some (snd <$> sort_dedup l).
End SortDedup.

(** ** Three-valued AND and OR: the loops over the outcomes of the children;
    [None]: unknown. *)
Section Outcomes.
Context {A : Type} (outcome : A -> option bool).
Fixpoint and_outcome (children : list A) (unknown : bool) : option bool :=
  match children with
  | [] => if unknown then None else Some true
  | child :: children =>
      match outcome child with
      | Some false => Some false
      | Some true => and_outcome children unknown
      | None => and_outcome children true
      end
  end.
Fixpoint or_outcome (children : list A) (unknown : bool) : option bool :=
  match children with
  | [] => if unknown then None else Some false
  | child :: children =>
      match outcome child with
      | Some true => Some true
      | Some false => or_outcome children unknown
      | None => or_outcome children true
      end
  end.
End Outcomes.

Section Filters.
Context `{RmpValue}.

Definition prop_values_equal_for_filter : PropValue -> PropValue -> bool := semantic_property_eq.
Definition prop_value_canonical_bytes : PropValue -> list byte := semantic_equality_key_bytes.

(** [property_in_filter_matches]: by the list when it is short, or when a float
    zero inside the candidate makes keys unreliable; else by its sorted keys. *)
Definition PROPERTY_IN_LINEAR_VERIFY_THRESHOLD : nat := 16.
Definition property_in_filter_matches (candidate : PropValue) (values : list PropValue) (value_keys : list (list byte)) : bool :=
  if (length values <=? PROPERTY_IN_LINEAR_VERIFY_THRESHOLD)%nat
     || negb (length values =? length value_keys)%nat
     || structural_value_contains_float_zero candidate
  then existsb (prop_values_equal_for_filter candidate) values
  else
    let candidate_key := prop_value_canonical_bytes candidate in
    match binary_search_by (fun k => bytes_cmp k candidate_key) value_keys with
    | Some index =>
        match values !! index with
        | Some value => prop_values_equal_for_filter candidate value
        | None => false
        end
    | None => false
    end.

(** The values of an IN filter with their keys, sorted and without repetition. *)
Definition keyed_values (values : list PropValue) : list (list byte * PropValue) :=
  sort_dedup ((fun value => (prop_value_canonical_bytes value, value)) <$> values).

Definition require_non_empty_filter_key (key : str) (context : string) : res unit :=
  match key with [] => Err (InvalidOperation (String.append context " property key must be non-empty")) | _ => Ok tt end.

(** ** The contradictions of an AND *)
(** What a child of an AND demands of a property.  (An edge's IN counts as
    demanding presence; a node's does not.) *)
Inductive Demand : Type :=
| Equals (key : str) (value : PropValue)
| InRange (key : str) (lower upper : option PropertyRangeBound)
| Present (key : str)
| Absent (key : str)
| Nothing.
Record AndState : Type := mkAnd {
  eq_by_key : gmap str PropValue;
  ranges_by_key : gmap str ValidatedNumericRange;
  exists_keys : gset str;
  missing_keys : gset str
}.

(** [None]: the intersection is empty. *)
Definition insert_range_constraint (ranges : gmap str ValidatedNumericRange) (key : str) (range : ValidatedNumericRange)
  : option (gmap str ValidatedNumericRange) :=
  if vr_is_empty range then None
  else
    match ranges !! key with
    | Some existing =>
        let intersected := intersect_validated_numeric_ranges existing range in
        if vr_is_empty intersected then None else Some (<[key := intersected]> ranges)
    | None => Some (<[key := range]> ranges)
    end.

(** One turn of the loop; [Ok None]: the AND is always false. *)
Definition demand_step (st : AndState) (d : Demand) : res (option AndState) :=
  match d with
  | Equals key value =>
      match eq_by_key st !! key with
      | Some existing =>
          if prop_values_equal_for_filter existing value
          then Ok (Some (mkAnd (eq_by_key st) (ranges_by_key st) ({[key]} ∪ exists_keys st) (missing_keys st)))
          else Ok None
      | None => Ok (Some (mkAnd (<[key := value]> (eq_by_key st)) (ranges_by_key st) ({[key]} ∪ exists_keys st) (missing_keys st)))
      end
  | InRange key lower upper =>
      range ← validate_numeric_range_bounds lower upper None;
      Ok (ranges ← insert_range_constraint (ranges_by_key st) key range;
          Some (mkAnd (eq_by_key st) ranges ({[key]} ∪ exists_keys st) (missing_keys st)))
  | Present key => Ok (Some (mkAnd (eq_by_key st) (ranges_by_key st) ({[key]} ∪ exists_keys st) (missing_keys st)))
  | Absent key => Ok (Some (mkAnd (eq_by_key st) (ranges_by_key st) (exists_keys st) ({[key]} ∪ missing_keys st)))
  | Nothing => Ok (Some st)
  end.
Fixpoint demand_loop (st : AndState) (ds : list Demand) : res (option AndState) :=
  match ds with
  | [] => Ok (Some st)
  | d :: ds =>
      r ← demand_step st d;
      match r with Some st => demand_loop st ds | None => Ok None end
  end.
Definition no_demands : AndState := mkAnd ∅ ∅ ∅ ∅.
(** The checks after the loop; then the equalities found. *)
Definition and_equalities (ds : list Demand) : res (option (gmap str PropValue)) :=
  r ← demand_loop no_demands ds;
  match r with
  | None => Ok None
  | Some st =>
      if decide (exists_keys st ∩ missing_keys st = ∅) then
        if forallb (fun '(key, value) =>
             match ranges_by_key st !! key with
             | Some range => prop_value_within_validated_range value range
             | None => true
             end) (map_to_list (eq_by_key st))
        then Ok (Some (eq_by_key st)) else Ok None
      else Ok None
  end.
End Filters.
