(* ===== verification/FilterFacts.v ===== *)
(** What node and edge filters share, proved: structural keys determine what is
    keyed, sorting and removing duplicates keeps the meaning, the fast list test
    is the slow one, and the contradictions an AND finds are contradictions. *)
From S2P Require Import Prelude Types Floats PropertyValue PropertyValueFacts FilterBase.

(** ** Keys *)
Lemma be_bytes_inj n x y : in_be n x -> in_be n y -> be_bytes n x = be_bytes n y -> x = y.
Proof.
  unfold in_be. intros Hx Hy E. apply (f_equal be_val) in E. rewrite !be_val_be_bytes in E.
  by rewrite !Z.mod_small in E.
Qed.
Lemma be_app_inj n x y r s :
  in_be n x -> in_be n y -> be_bytes n x ++ r = be_bytes n y ++ s -> x = y /\ r = s.
Proof.
  intros Hx Hy E. apply app_inj_1 in E as [E ->]; [|by rewrite !length_be_bytes]. split; [by eapply be_bytes_inj|done].
Qed.
Lemma to_bits_64_inj x y : i64 x -> i64 y -> to_bits 64 x = to_bits 64 y -> x = y.
Proof. intros Hx Hy E. by rewrite <- (of_to_bits_64 x), <- (of_to_bits_64 y), E. Qed.
Lemma i64_be_app_inj x y r s : i64 x -> i64 y -> i64_be x ++ r = i64_be y ++ s -> x = y /\ r = s.
Proof.
  intros Hx Hy E. apply be_app_inj in E as [E ->]; [|apply to_bits_range; lia..].
  split; [by apply to_bits_64_inj|done].
Qed.

Definition short (bytes : list byte) : Prop := len bytes < 2 ^ 64.
Lemma short_app a b : short (a ++ b) -> short a /\ short b.
Proof. unfold short. rewrite length_app. lia. Qed.
Lemma short_cons x b : short (x :: b) -> short b.
Proof. unfold short. cbn [length]. lia. Qed.
Lemma short_push a : short (push_len_prefixed_bytes a) -> short a.
Proof. by intros [_ H]%short_app. Qed.

Lemma push_app_inj a b r s :
  short a -> short b -> push_len_prefixed_bytes a ++ r = push_len_prefixed_bytes b ++ s -> a = b /\ r = s.
Proof.
  intros Ha Hb E. unfold push_len_prefixed_bytes in E. rewrite <- !app_assoc in E.
  apply be_app_inj in E as [El E]; [|unfold in_be, short in *; lia..]. by apply app_inj_1 in E; [|lia].
Qed.
Lemma push_inj a b : short a -> short b -> push_len_prefixed_bytes a = push_len_prefixed_bytes b -> a = b.
Proof. intros Ha Hb E. apply (push_app_inj a b [] []); [done..|by rewrite !app_nil_r]. Qed.
Lemma join_push_inj l k :
  short (mjoin (push_len_prefixed_bytes <$> l)) -> mjoin (push_len_prefixed_bytes <$> l) = mjoin (push_len_prefixed_bytes <$> k) -> l = k.
Proof.
  revert k. induction l as [|a l IH]; intros [|b k] Hs E; try done; rewrite ?join_fmap_cons in *.
  pose proof Hs as Hs'. apply short_app in Hs as [Ha Hl]. apply short_push in Ha. rewrite E in Hs'.
  apply short_app in Hs' as [Hb%short_push _]. apply push_app_inj in E as [-> E]; [|done..]. f_equal. by apply IH.
Qed.

Lemma bool_byte_inj a b : bool_byte a = bool_byte b -> a = b.
Proof. by destruct a, b. Qed.
Definition optional_in (width : nat) (o : option Z) : Prop := match o with Some v => in_be width v | None => True end.
Lemma push_optional_app_inj width a b r s :
  optional_in width a -> optional_in width b -> push_optional width a ++ r = push_optional width b ++ s -> a = b /\ r = s.
Proof.
  intros Ha Hb E. unfold push_optional in E. injection E as Ef E. apply bool_byte_inj in Ef.
  assert (in_be width 0) as H0 by (unfold in_be; split; [done|apply Z.pow_pos_nonneg; lia]).
  apply be_app_inj in E as [Ev ->]; [|by destruct a|by destruct b]. split; [|done].
  destruct a, b; cbn in *; try done. by subst.
Qed.

Lemma push_numeric_key_inj a b r s :
  key_wf a -> key_wf b -> push_numeric_key_bytes a ++ r = push_numeric_key_bytes b ++ s -> a = b /\ r = s.
Proof.
  intros Ha Hb E. unfold push_numeric_key_bytes in E. cbn [app] in E. apply cons_eq_inj in E as [Es E]. rewrite <- !app_assoc in E.
  assert (nk_sign a = nk_sign b) as Hs by (by destruct (nk_sign a), (nk_sign b)).
  assert (forall k, key_wf k -> -1074 <= nk_exponent k <= 1023 /\ in_be 16 (nk_significand k)) as Hk.
  { intros k. unfold key_wf, in_be. destruct (nk_sign k); intros; split; lia. }
  destruct (Hk a Ha) as [Hea Hsa], (Hk b Hb) as [Heb Hsb].
  apply be_app_inj in E as [Ee E]; [|apply to_bits_range; lia..]. apply be_app_inj in E as [Esig ->]; [|done..].
  split; [|done]. destruct a, b; cbn in *; subst. f_equal.
  by rewrite <- (of_to_bits 32 nk_exponent), <- (of_to_bits 32 nk_exponent0), Ee by lia.
Qed.

(** ** Values *)
Class RmpValueLaws `{RmpValue} : Prop := {
  rmp_value_inj a b : value_wf a -> value_wf b -> rmp_value_to_vec a = rmp_value_to_vec b -> a = b
}.

Lemma numeric_key_wf v k : value_wf v -> numeric_key v = Some k -> key_wf k.
Proof.
  intros Hv Hk. pose proof (numeric_key_spec v Hv) as Hs. destruct (exact_value v).
  - destruct Hs as (k' & E & Hw & _). congruence.
  - congruence.
Qed.
(** Equal values have the same numeric key, or are the same. *)
Lemma semantic_eq_cases a b :
  value_wf a -> value_wf b -> semantic_property_eq a b = true ->
  (exists k, numeric_key a = Some k /\ numeric_key b = Some k) \/ a = b /\ numeric_key a = None /\ raw_structural_property_eq a a = true.
Proof.
  intros Ha Hb. unfold semantic_property_eq. destruct (numeric_key a) eqn:Ka, (numeric_key b) eqn:Kb.
  - intros ->%bool_decide_eq_true. left. eauto.
  - intros E%raw_eq_sound; [congruence|done..].
  - intros E%raw_eq_sound; [congruence|done..].
  - intros E. apply raw_eq_sound in E as Eq; [|done..]. subst b. auto.
Qed.
Lemma semantic_eq_numeric k a b :
  numeric_key a = Some k -> numeric_key b = Some k -> semantic_property_eq a b = true.
Proof. unfold semantic_property_eq. intros -> ->. by apply bool_decide_eq_true. Qed.
Lemma semantic_eq_join c a b :
  value_wf c -> value_wf a -> value_wf b ->
  semantic_property_eq c a = true -> semantic_property_eq c b = true -> semantic_property_eq a b = true.
Proof.
  intros Hc Ha Hb Ea Eb. apply semantic_eq_cases in Ea; [|done..]. apply semantic_eq_cases in Eb; [|done..].
  destruct Ea as [(k & Kc & Ka)|(<- & Kc & Er)], Eb as [(k' & Kc' & Kb)|(<- & Kc' & _)]; try congruence.
  - rewrite Kc in Kc'. injection Kc' as <-. by eapply semantic_eq_numeric.
  - unfold semantic_property_eq. by rewrite Kc.
Qed.
Lemma canonical_bytes_eq `{RmpValueLaws} v w c :
  value_wf v -> value_wf w -> value_wf c -> prop_value_canonical_bytes v = prop_value_canonical_bytes w ->
  semantic_property_eq c v = semantic_property_eq c w.
Proof.
  intros Hv Hw Hc. unfold prop_value_canonical_bytes, semantic_equality_key_bytes.
  destruct (numeric_key v) as [kv|] eqn:Kv, (numeric_key w) as [kw|] eqn:Kw; try done.
  - intros [_ E]%cons_eq_inj. rewrite <- (app_nil_r (push_numeric_key_bytes kv)), <- (app_nil_r (push_numeric_key_bytes kw)) in E.
    apply push_numeric_key_inj in E as [<- _]; [|by apply (numeric_key_wf v)|by apply (numeric_key_wf w)].
    unfold semantic_property_eq. rewrite Kv, Kw. destruct (numeric_key c) eqn:Kc; [done|].
    assert (forall x, value_wf x -> numeric_key x = Some kv -> raw_structural_property_eq c x = false) as Hraw.
    { intros x Hx Kx. apply not_true_is_false. intros E%raw_eq_sound; [congruence|done..]. }
    by rewrite !Hraw.
  - intros [_ E]%cons_eq_inj. by rewrite (rmp_value_inj v w).
Qed.

Lemma bound_key_inj a b ka kb :
  value_wf (bound_value a) -> value_wf (bound_value b) ->
  semantic_range_bound_key_bytes a = Some ka -> semantic_range_bound_key_bytes b = Some kb -> ka = kb ->
  is_inclusive a = is_inclusive b /\ numeric_key (bound_value a) = numeric_key (bound_value b).
Proof.
  intros Ha Hb. unfold semantic_range_bound_key_bytes.
  destruct (numeric_key (bound_value a)) as [na|] eqn:Na; [|done]. destruct (numeric_key (bound_value b)) as [nb|] eqn:Nb; [|done].
  cbn [mbind option_bind]. intros <-%(inj Some) <-%(inj Some) [Ei E]%cons_eq_inj.
  rewrite <- (app_nil_r (push_numeric_key_bytes na)), <- (app_nil_r (push_numeric_key_bytes nb)) in E.
  apply push_numeric_key_inj in E as [<- _]; [|by apply (numeric_key_wf (bound_value a))|by apply (numeric_key_wf (bound_value b))]. split; [|done].
  by destruct (is_inclusive a), (is_inclusive b).
Qed.
(** Two bounds with the same key. *)
Definition same_bound (a b : option PropertyRangeBound) : Prop :=
  match a, b with
  | Some a, Some b => is_inclusive a = is_inclusive b /\ numeric_key (bound_value a) = numeric_key (bound_value b)
  | None, None => True
  | _, _ => False
  end.
Lemma range_bound_key_inj a b ka kb r s :
  raw_bound_wf a -> raw_bound_wf b -> push_range_bound_structural_key a = Some ka ->
  push_range_bound_structural_key b = Some kb -> short ka -> short kb -> ka ++ r = kb ++ s -> same_bound a b /\ r = s.
Proof.
  destruct a as [a|], b as [b|]; cbn [push_range_bound_structural_key raw_bound_wf same_bound]; intros Ha Hb.
  - destruct (semantic_range_bound_key_bytes a) as [xa|] eqn:Xa; [|done].
    destruct (semantic_range_bound_key_bytes b) as [xb|] eqn:Xb; [|done]. cbn [mbind option_bind].
    intros <-%(inj Some) <-%(inj Some) Hsa Hsb [_ E]%cons_eq_inj.
    apply push_app_inj in E as [E ->]; [|by eapply short_push, short_cons..]. split; [|done]. by eapply bound_key_inj.
  - destruct (semantic_range_bound_key_bytes a); [|done]. by intros [= <-] [= <-].
  - destruct (semantic_range_bound_key_bytes b); [|done]. by intros [= <-] [= <-].
  - intros [= <-] [= <-] _ _ E. by injection E.
Qed.
Lemma same_bounds_within v l l' u u' :
  same_bound l l' -> same_bound u u' ->
  numeric_range_value_within_bounds v l u = numeric_range_value_within_bounds v l' u'.
Proof.
  intros Hl Hu. unfold numeric_range_value_within_bounds. destruct (numeric_key v); [|done]. cbn [mbind option_bind].
  destruct l as [l|], l' as [l'|]; try done; destruct u as [u|], u' as [u'|]; try done; cbn in Hl, Hu;
    repeat match goal with H : _ /\ _ |- _ => destruct H as [-> ->] end; done.
Qed.

(** ** Sorting by key and removing repeated keys *)
Section SortDedupFacts.
Context {A : Type}.
Implicit Types l : list (list byte * A).
Definition by_key (x y : list byte * A) : Prop := bytes_cmp (fst x) (fst y) <> Gt.

Lemma bytes_le_trans a b c : bytes_cmp a b <> Gt -> bytes_cmp b c <> Gt -> bytes_cmp a c <> Gt.
Proof.
  intros Hab Hbc. destruct (bytes_cmp a b) eqn:Eab; [by apply bytes_cmp_Eq in Eab as ->| |done].
  destruct (bytes_cmp b c) eqn:Ebc; [apply bytes_cmp_Eq in Ebc as <-; congruence| |done].
  assert (bytes_lt a c) as E by (by transitivity b). unfold bytes_lt in E. congruence.
Qed.
Lemma insert_by_key_perm x l : insert_by_key x l ≡ₚ x :: l.
Proof.
  induction l as [|y l IH]; cbn [insert_by_key]; [done|]. destruct (bytes_cmp _ _); [done..|].
  rewrite IH. by constructor.
Qed.
Lemma insert_by_key_sorted x l : StronglySorted by_key l -> StronglySorted by_key (insert_by_key x l).
Proof.
  intros Hs. induction Hs as [|y l Hs IH Hy]; cbn [insert_by_key]; [by repeat constructor|].
  destruct (bytes_cmp (fst x) (fst y)) eqn:E.
  3:{ constructor; [done|]. rewrite insert_by_key_perm. constructor; [|done].
      unfold by_key. rewrite bytes_cmp_antisym, E. done. }
  all: constructor; [by constructor|]; constructor; [unfold by_key; congruence|].
  all: eapply Forall_impl; [exact Hy|]; cbn; intros z Hz; apply (bytes_le_trans _ (fst y)); [congruence|exact Hz].
Qed.
Lemma sort_by_key_perm l : sort_by_key l ≡ₚ l.
Proof. induction l as [|x l IH]; cbn; [done|]. by rewrite insert_by_key_perm, IH. Qed.
Lemma sort_by_key_sorted l : StronglySorted by_key (sort_by_key l).
Proof. induction l as [|x l IH]; cbn; [constructor|]. by apply insert_by_key_sorted. Qed.

Lemma dedup_by_key_spec l :
  StronglySorted by_key l ->
  StronglySorted key_lt (dedup_by_key l) /\ dedup_by_key l ⊆ l /\ (forall x, x ∈ l -> fst x ∈ fst <$> dedup_by_key l).
Proof.
  induction 1 as [|x l Hs (IHs & IHsub & IHkeys) Hx]; cbn [dedup_by_key].
  { split; [constructor|]. split; [done|]. by intros x Hx%elem_of_nil. }
  rewrite Forall_forall in Hx. destruct (dedup_by_key l) as [|y d] eqn:Ed.
  { destruct l as [|z l]; [|by specialize (IHkeys z ltac:(left)); apply elem_of_nil in IHkeys].
    split; [by repeat constructor|]. split; [done|]. intros z [->|[]%elem_of_nil]%elem_of_cons. left. }
  assert (forall z, z ∈ d -> key_lt y z) as Hy.
  { inversion IHs as [|? ? _ Hall]. by rewrite Forall_forall in Hall. }
  assert (StronglySorted key_lt d) as Hd by (by inversion IHs).
  assert (y ∈ l) as Hyl by (apply IHsub; left).
  case_decide as E.
  - split; [constructor; [done|]; apply Forall_forall; intros z Hz; unfold key_lt; rewrite E; by apply Hy|]. split.
    + intros z [->|Hz]%elem_of_cons; [left|right; apply IHsub; by right].
    + intros z [->|Hz]%elem_of_cons; rewrite fmap_cons; [left|].
      apply IHkeys in Hz. rewrite fmap_cons in Hz. apply elem_of_cons in Hz as [->|Hz]; [rewrite <- E; left|by right].
  - assert (key_lt x y) as Hxy.
    { unfold key_lt, bytes_lt. destruct (bytes_cmp (fst x) (fst y)) eqn:C; [by apply bytes_cmp_Eq in C|done|].
      exfalso. by apply (Hx y Hyl). }
    split; [constructor; [done|]; apply Forall_forall; intros z [->|Hz]%elem_of_cons; [done|]; unfold key_lt in *;
            transitivity (fst y); [done|by apply Hy]|]. split.
    + intros z [->|Hz]%elem_of_cons; [left|right; by apply IHsub].
    + intros z [->|Hz]%elem_of_cons; rewrite fmap_cons; [left|right; by apply IHkeys].
Qed.
Lemma sort_dedup_spec l :
  StronglySorted key_lt (sort_dedup l) /\ (forall x, x ∈ sort_dedup l -> x ∈ l)
  /\ (forall x, x ∈ l -> exists y, y ∈ sort_dedup l /\ fst y = fst x).
Proof.
  destruct (dedup_by_key_spec (sort_by_key l) (sort_by_key_sorted l)) as (Hs & Hsub & Hkeys). split; [done|]. split.
  - intros x Hx%Hsub. by rewrite sort_by_key_perm in Hx.
  - intros x Hx. rewrite <- sort_by_key_perm in Hx. apply Hkeys, list_elem_of_fmap in Hx as (y & E & Hy). by exists y.
Qed.

(** A test that the key decides sees no difference. *)
Definition key_decides (P : A -> bool) l : Prop := forall x y, x ∈ l -> y ∈ l -> fst x = fst y -> P (snd x) = P (snd y).
Lemma sort_dedup_forallb P l : key_decides P l -> forallb P (snd <$> sort_dedup l) = forallb P (snd <$> l).
Proof.
  intros HP. destruct (sort_dedup_spec l) as (_ & Hsub & Hkeys). apply eq_iff_eq_true. rewrite !forallb_forall. split.
  - intros Hall a Ha%list_elem_of_In%list_elem_of_fmap. destruct Ha as (x & -> & Hx).
    destruct (Hkeys x Hx) as (y & Hy & E). rewrite <- (HP y x) by auto.
    apply Hall, list_elem_of_In, list_elem_of_fmap. eauto.
  - intros Hall a Ha%list_elem_of_In%list_elem_of_fmap. destruct Ha as (x & -> & Hx).
    apply Hall, list_elem_of_In, list_elem_of_fmap. eauto.
Qed.
Lemma existsb_negb (P : A -> bool) (l : list A) : existsb P l = negb (forallb (fun a => negb (P a)) l).
Proof. induction l as [|a l IH]; [done|]. cbn. rewrite IH. by destruct (P a). Qed.
Lemma sort_dedup_existsb P l : key_decides P l -> existsb P (snd <$> sort_dedup l) = existsb P (snd <$> l).
Proof.
  intros HP. rewrite !existsb_negb. f_equal. apply sort_dedup_forallb. intros x y Hx Hy E. f_equal. by apply HP.
Qed.

Lemma keyed_spec key (children : list A) l :
  keyed key children = Some l -> snd <$> l = children /\ Forall (fun x => key (snd x) = Some (fst x)) l.
Proof.
  revert l. induction children as [|c children IH]; cbn [keyed]; intros l E; [by injection E as <-|].
  destruct (key c) eqn:Ek; [|done]. cbn [mbind option_bind] in E. destruct (keyed key children) as [l'|]; [|done].
  apply (inj Some) in E as <-. destruct (IH l' eq_refl) as [<- Hl]. split; [done|]. by constructor.
Qed.
Lemma keyed_total key (children : list A) : Forall (fun c => is_Some (key c)) children -> is_Some (keyed key children).
Proof.
  induction 1 as [|c children [k Hk] _ [l Hl]]; cbn [keyed]; [done|]. rewrite Hk, Hl. by eexists.
Qed.
Lemma children_sorted_dedup_spec key (children out : list A) :
  children_sorted_dedup key children = Some out ->
  (forall c, c ∈ out -> c ∈ children)
  /\ forall P, (forall a b k, a ∈ children -> b ∈ children -> key a = Some k -> key b = Some k -> P a = P b) ->
     forallb P out = forallb P children /\ existsb P out = existsb P children.
Proof.
  unfold children_sorted_dedup. destruct (keyed key children) as [l|] eqn:E; [|done]. intros Ho%(inj Some). subst out.
  destruct (keyed_spec _ _ _ E) as [<- Hl]. rewrite Forall_forall in Hl. split.
  - intros c (x & -> & Hx)%list_elem_of_fmap. apply (sort_dedup_spec l) in Hx.
    apply list_elem_of_fmap. by exists x.
  - intros P HP.
    assert (key_decides P l) as Hk.
    { intros x y Hx Hy Exy. apply (HP _ _ (fst x)); [apply list_elem_of_fmap; by eexists..|by apply Hl|rewrite Exy; by apply Hl]. }
    split; [by apply sort_dedup_forallb|by apply sort_dedup_existsb].
Qed.
End SortDedupFacts.

(** ** Lists of values *)
Section Values.
Context `{RmpValueLaws}.

Lemma keyed_values_spec values :
  StronglySorted key_lt (keyed_values values)
  /\ (forall k v, (k, v) ∈ keyed_values values -> k = prop_value_canonical_bytes v /\ v ∈ values)
  /\ forall c, value_wf c -> Forall value_wf values ->
     existsb (prop_values_equal_for_filter c) (snd <$> keyed_values values) = existsb (prop_values_equal_for_filter c) values.
Proof.
  unfold keyed_values. destruct (sort_dedup_spec ((fun v => (prop_value_canonical_bytes v, v)) <$> values)) as (Hs & Hsub & _).
  split; [done|]. split.
  - intros k v Hin%Hsub. apply list_elem_of_fmap in Hin as (v' & [= -> ->] & Hv). done.
  - intros c Hc Hall. rewrite Forall_forall in Hall. rewrite sort_dedup_existsb.
    + f_equal. rewrite <- list_fmap_compose. apply list_fmap_id.
    + intros x y (v & -> & Hv)%list_elem_of_fmap (w & -> & Hw)%list_elem_of_fmap E. cbn in *.
      apply canonical_bytes_eq; auto.
Qed.

(** The keys of a sorted keyed list, searched. *)
Lemma sorted_keys_search (l : list (list byte * PropValue)) k :
  StronglySorted key_lt l ->
  match binary_search_by (fun k' => bytes_cmp k' k) (fst <$> l) with
  | Some i => exists v, l !! i = Some (k, v)
  | None => k ∉ fst <$> l
  end.
Proof.
  intros Hs. destruct (binary_search_by _ _) as [i|] eqn:E.
  - apply bsearch_sound in E as (k' & Hk & ->%bytes_cmp_Eq). apply list_lookup_fmap_Some_1 in Hk as ([k'' v] & -> & Hx). eauto.
  - intros [j Hj]%list_elem_of_lookup_1. apply list_lookup_fmap_Some_1 in Hj as (x & -> & Hx).
    erewrite binary_search_by_spec in E; [done| |apply bytes_cmp_refl|..].
    + rewrite list_lookup_fmap, Hx. reflexivity.
    + intros i y Hij Hy. apply list_lookup_fmap_Some_1 in Hy as (x' & -> & Hx'). exact (sorted_lookup key_lt l i j x' x Hs Hij Hx' Hx).
    + intros i y Hij Hy. apply list_lookup_fmap_Some_1 in Hy as (x' & -> & Hx'). rewrite bytes_cmp_antisym.
      by rewrite (sorted_lookup key_lt l j i x x' Hs Hij Hx Hx').
Qed.

(** The test of a candidate against an IN filter's sorted values is the linear
    test against the values given. *)
Lemma property_in_exact candidate values :
  value_wf candidate -> Forall value_wf values ->
  property_in_filter_matches candidate (snd <$> keyed_values values) (fst <$> keyed_values values)
  = existsb (prop_values_equal_for_filter candidate) values.
Proof.
  intros Hc Hall. destruct (keyed_values_spec values) as (Hs & Hin & Hex). rewrite <- (Hex candidate Hc Hall).
  unfold property_in_filter_matches. rewrite !length_fmap, Nat.eqb_refl. destruct (_ || _ || _); [done|].
  pose proof (sorted_keys_search _ (prop_value_canonical_bytes candidate) Hs) as Hsearch.
  rewrite Forall_forall in Hall.
  assert (forall v, v ∈ snd <$> keyed_values values -> prop_values_equal_for_filter candidate v = true ->
            (prop_value_canonical_bytes candidate, v) ∈ keyed_values values) as Hkey.
  { intros v ([k v'] & -> & Hv)%list_elem_of_fmap E. destruct (Hin k v' Hv) as [-> Hv'].
    cbn in E. by rewrite (semantic_eq_bytes candidate v') by auto. }
  destruct (binary_search_by _ _) as [i|].
  - destruct Hsearch as [v Hi]. rewrite list_lookup_fmap, Hi. cbn [fmap option_fmap option_map snd].
    apply eq_iff_eq_true. rewrite existsb_exists. split.
    + intros E. exists v. split; [|done]. apply list_elem_of_In, list_elem_of_fmap. exists (prop_value_canonical_bytes candidate, v).
      split; [done|]. by apply list_elem_of_lookup_2 with i.
    + intros (w & Hw%list_elem_of_In & E). apply (Hkey w Hw) in E as Hj. apply list_elem_of_lookup_1 in Hj as [j Hj].
      destruct (Nat.lt_trichotomy i j) as [Hlt|[->|Hlt]].
      * by destruct (bytes_lt_irrefl _ (sorted_lookup key_lt _ i j _ _ Hs Hlt Hi Hj)).
      * rewrite Hi in Hj. by injection Hj as <-.
      * by destruct (bytes_lt_irrefl _ (sorted_lookup key_lt _ j i _ _ Hs Hlt Hj Hi)).
  - symmetry. apply not_true_is_false. rewrite existsb_exists. intros (w & Hw%list_elem_of_In & E). apply Hsearch.
    apply list_elem_of_fmap. eexists (_, w). split; [|by apply Hkey]. done.
Qed.

(** The keys of an IN filter determine what it accepts. *)
Lemma keyed_values_same_keys c given given' :
  value_wf c -> Forall value_wf given -> Forall value_wf given' ->
  fst <$> keyed_values given = fst <$> keyed_values given' ->
  existsb (prop_values_equal_for_filter c) given = existsb (prop_values_equal_for_filter c) given'.
Proof.
  intros Hc. assert (forall given given', Forall value_wf given -> Forall value_wf given' ->
    fst <$> keyed_values given = fst <$> keyed_values given' ->
    existsb (prop_values_equal_for_filter c) given = true -> existsb (prop_values_equal_for_filter c) given' = true) as Hdir.
  { clear given given'. intros given given' Hg Hg' E Hex.
    destruct (keyed_values_spec given) as (_ & Hin & Hx), (keyed_values_spec given') as (_ & Hin' & Hx').
    rewrite <- Hx in Hex by done. rewrite <- Hx' by done. rewrite existsb_exists in *. rewrite Forall_forall in Hg, Hg'.
    destruct Hex as (v & ([k v0] & -> & Hv)%list_elem_of_In%list_elem_of_fmap & Ev). cbn in Ev.
    assert (k ∈ fst <$> keyed_values given') as ([k' v'] & -> & Hv')%list_elem_of_fmap.
    { rewrite <- E. apply list_elem_of_fmap. by exists (k, v0). }
    destruct (Hin _ _ Hv) as [Ek Hv0], (Hin' _ _ Hv') as [Ek' Hv0']. cbn in Ek.
    exists v'. split; [apply list_elem_of_In, list_elem_of_fmap; by exists (k', v')|].
    rewrite <- Ev. symmetry. apply canonical_bytes_eq; auto. by rewrite <- Ek, <- Ek'. }
  intros Hg Hg' E. apply eq_iff_eq_true. split; by apply Hdir.
Qed.
End Values.

(** ** The contradictions of an AND *)
Section AndFacts.
Context `{RmpValueLaws}.
Context (get : str -> option PropValue) (get_wf : forall k v, get k = Some v -> value_wf v).

Definition holds (d : Demand) : bool :=
  match d with
  | Equals key value => match get key with Some c => prop_values_equal_for_filter c value | None => false end
  | InRange key lower upper => bool_decide ((get key ≫= fun c => numeric_range_value_within_bounds c lower upper) = Some true)
  | Present key => bool_decide (is_Some (get key))
  | Absent key => negb (bool_decide (is_Some (get key)))
  | Nothing => true
  end.
Definition demand_wf (d : Demand) : Prop :=
  match d with
  | Equals _ value => value_wf value
  | InRange _ lower upper => raw_bound_wf lower /\ raw_bound_wf upper
  | _ => True
  end.

(** What the loop has gathered is true of the record. *)
Record gathered (st : AndState) : Prop := {
  ga_eq k v : eq_by_key st !! k = Some v -> value_wf v /\ exists c, get k = Some c /\ prop_values_equal_for_filter c v = true;
  ga_range k r : ranges_by_key st !! k = Some r ->
                 range_wf r /\ exists c, get k = Some c /\ prop_value_within_validated_range c r = true;
  ga_exists k : k ∈ exists_keys st -> is_Some (get k);
  ga_missing k : k ∈ missing_keys st -> get k = None
}.
Lemma within_nonempty c r : prop_value_within_validated_range c r = true -> vr_is_empty r = false.
Proof.
  unfold prop_value_within_validated_range, numeric_key_within_validated_range.
  destruct (numeric_key c); [|done]. by destruct (vr_is_empty r).
Qed.
Lemma gathered_exists (st : AndState) (k : str) (eqs : gmap str PropValue) (ranges : gmap str ValidatedNumericRange) :
  gathered st -> is_Some (get k) ->
  (forall k v, eqs !! k = Some v -> value_wf v /\ exists c, get k = Some c /\ prop_values_equal_for_filter c v = true) ->
  (forall k r, ranges !! k = Some r -> range_wf r /\ exists c, get k = Some c /\ prop_value_within_validated_range c r = true) ->
  gathered (mkAnd eqs ranges ({[k]} ∪ exists_keys st) (missing_keys st)).
Proof. intros [_ _ He Hm] Hk Heqs Hr. split; cbn; [done..| |done]. intros k' [->%elem_of_singleton|Hin]%elem_of_union; auto. Qed.

Lemma insert_range_gathered ranges k c range :
  (forall k r, ranges !! k = Some r -> range_wf r /\ exists c, get k = Some c /\ prop_value_within_validated_range c r = true) ->
  get k = Some c -> range_wf range -> prop_value_within_validated_range c range = true ->
  exists ranges', insert_range_constraint ranges k range = Some ranges'
    /\ forall k r, ranges' !! k = Some r -> range_wf r /\ exists c, get k = Some c /\ prop_value_within_validated_range c r = true.
Proof.
  intros Hr Hk Hw Hin. unfold insert_range_constraint. rewrite (within_nonempty _ _ Hin).
  assert (forall r', range_wf r' -> prop_value_within_validated_range c r' = true ->
    forall k' r, <[k := r']> ranges !! k' = Some r -> range_wf r /\ exists c, get k' = Some c /\ prop_value_within_validated_range c r = true) as Hins.
  { intros r' Hw' Hin' k' r [[-> ->]|[_ E]]%lookup_insert_Some; eauto. }
  destruct (ranges !! k) as [existing|] eqn:E; [|by eauto].
  destruct (Hr k existing E) as (We & c' & Hc' & Hin'). rewrite Hk in Hc'. injection Hc' as <-.
  assert (prop_value_within_validated_range c (intersect_validated_numeric_ranges existing range) = true) as Hi.
  { rewrite within_intersection by eauto. by rewrite Hin', Hin. }
  cbn zeta. rewrite (within_nonempty _ _ Hi). eexists. split; [done|]. apply Hins; [|done].
  destruct We as [Wl Wu], Hw as [Wl' Wu'].
  split; [by apply max_lower_spec with (x := 0)|by apply min_upper_spec with (x := 0)].
Qed.

Lemma demand_step_gathered st d r :
  demand_wf d -> holds d = true -> gathered st -> demand_step st d = Ok r -> exists st', r = Some st' /\ gathered st'.
Proof.
  intros Hwf Hd Hst E. pose proof Hst as [Heq Hrange Hex Hmiss].
  destruct d as [key value|key lower upper|key|key|]; cbn [demand_step holds demand_wf] in *.
  - destruct (get key) as [c|] eqn:Eg; [|done]. destruct (eq_by_key st !! key) as [existing|] eqn:Ee.
    + destruct (Heq key existing Ee) as (We & c' & Hc' & Hc). rewrite Eg in Hc'. injection Hc' as <-.
      assert (prop_values_equal_for_filter existing value = true) as Hev.
      { apply (semantic_eq_join c); eauto. }
      rewrite Hev in E. apply Ok_inj in E as <-. eexists. split; [done|]. apply gathered_exists; [done|by rewrite Eg|done|done].
    + apply Ok_inj in E as <-. eexists. split; [done|]. apply gathered_exists; [done|by rewrite Eg| |done].
      intros k v [[-> ->]|[_ Hk]]%lookup_insert_Some; eauto.
  - apply bool_decide_eq_true in Hd. destruct (get key) as [c|] eqn:Eg; [|done]. cbn [mbind option_bind] in Hd.
    apply bind_Ok_inv in E as (range & Hv & E). destruct Hwf as [Hl Hu].
    destruct (validate_bounds_spec lower upper None range c Hl Hu ltac:(eauto) Hv) as (Wr & Hin & _).
    rewrite (bool_decide_eq_true_2 _ Hd) in Hin.
    destruct (insert_range_gathered (ranges_by_key st) key c range Hrange Eg Wr Hin) as (ranges & Ei & Hranges).
    rewrite Ei in E. apply Ok_inj in E as <-. eexists. split; [reflexivity|]. apply gathered_exists; [done|by rewrite Eg|done|done].
  - apply Ok_inj in E as <-. apply bool_decide_eq_true in Hd. eexists. split; [done|]. by apply gathered_exists.
  - apply Ok_inj in E as <-. eexists. split; [done|]. split; cbn; [done..|].
    apply negb_true_iff, bool_decide_eq_false in Hd. apply eq_None_not_Some in Hd.
    intros k [->%elem_of_singleton|Hin]%elem_of_union; auto.
  - apply Ok_inj in E as <-. eauto.
Qed.
Lemma demand_loop_gathered st ds r :
  Forall demand_wf ds -> forallb holds ds = true -> gathered st -> demand_loop st ds = Ok r ->
  exists st', r = Some st' /\ gathered st'.
Proof.
  revert st. induction ds as [|d ds IH]; cbn [demand_loop forallb]; intros st Hwf Hall Hst E.
  - apply Ok_inj in E as <-. eauto.
  - apply andb_true_iff in Hall as [Hd Hall]. apply Forall_cons in Hwf as [Hwd Hwf].
    apply bind_Ok_inv in E as (r1 & E1 & E). destruct (demand_step_gathered st d r1 Hwd Hd Hst E1) as (st1 & -> & Hst1).
    by eapply IH.
Qed.

(** What holds is never refused, and the equalities reported are among those
    demanded. *)
Lemma and_equalities_sound ds r :
  Forall demand_wf ds -> forallb holds ds = true -> and_equalities ds = Ok r -> is_Some r.
Proof.
  intros Hwf Hall E. unfold and_equalities in E. apply bind_Ok_inv in E as (r1 & E1 & E).
  destruct (demand_loop_gathered no_demands ds r1 Hwf Hall) as (st & -> & [Heq Hrange Hex Hmiss]); [by split|done|].
  case_decide as D.
  - destruct (forallb _ (map_to_list _)) eqn:F; [apply Ok_inj in E as <-; by eexists|]. exfalso.
    apply not_true_iff_false in F. apply F, forallb_forall. intros [key value] Hin%list_elem_of_In%elem_of_map_to_list.
    destruct (ranges_by_key st !! key) as [range|] eqn:Er; [|done].
    destruct (Heq _ _ Hin) as (Wv & c & Hc & Ec), (Hrange _ _ Er) as (_ & c' & Hc' & Hin'). rewrite Hc in Hc'. injection Hc' as <-.
    apply semantic_eq_cases in Ec as [(k & Kc & Kv)|(<- & _)]; [|done|by eauto|done].
    unfold prop_value_within_validated_range in *. rewrite Kv. by rewrite Kc in Hin'.
  - exfalso. apply D. apply set_eq. intros k. split; [|done]. intros [He Hm]%elem_of_intersection.
    destruct (Hex k He) as [v Hv]. by rewrite (Hmiss k Hm) in Hv.
Qed.
Lemma demand_loop_eqs st ds st' k v :
  demand_loop st ds = Ok (Some st') -> eq_by_key st' !! k = Some v -> eq_by_key st !! k = Some v \/ Equals k v ∈ ds.
Proof.
  revert st. induction ds as [|d ds IH]; cbn [demand_loop]; intros st E Hk.
  - apply Ok_inj in E. injection E as ->. by left.
  - apply bind_Ok_inv in E as ([st1|] & E1 & E); [|done]. destruct (IH st1 E Hk) as [Hk1|]; [|right; by right].
    destruct d as [key value|key lower upper|key|key|]; cbn [demand_step] in E1.
    + destruct (eq_by_key st !! key) eqn:Ee; [destruct (prop_values_equal_for_filter _ _); [|done]|];
        apply Ok_inj, (inj Some) in E1; subst st1; cbn in Hk1; [by left|].
      apply lookup_insert_Some in Hk1 as [[-> ->]|[_ Hk1]]; [right; by left|by left].
    + apply bind_Ok_inv in E1 as (range & _ & E1). apply Ok_inj in E1.
      destruct (insert_range_constraint _ _ _); [|done]. apply (inj Some) in E1. subst st1. by left.
    + apply Ok_inj, (inj Some) in E1. subst st1. by left.
    + apply Ok_inj, (inj Some) in E1. subst st1. by left.
    + apply Ok_inj, (inj Some) in E1. subst st1. by left.
Qed.
Lemma and_equalities_among ds eqs k v : and_equalities ds = Ok (Some eqs) -> eqs !! k = Some v -> Equals k v ∈ ds.
Proof.
  unfold and_equalities. intros E Hk. apply bind_Ok_inv in E as ([st|] & E1 & E); [|done].
  case_decide; [|done]. destruct (forallb _ (map_to_list _)); [|done]. apply Ok_inj, (inj Some) in E. subst eqs.
  destruct (demand_loop_eqs _ _ _ _ _ E1 Hk) as [Hempty|]; [|done]. cbn in Hempty. by rewrite lookup_empty in Hempty.
Qed.
End AndFacts.

(** ** Three-valued outcomes *)
Lemma and_outcome_sound {A} (outcome : A -> option bool) (P : A -> bool) children unknown b :
  Forall (fun c => forall b, outcome c = Some b -> P c = b) children ->
  and_outcome outcome children unknown = Some b -> forallb P children = b.
Proof.
  intros Hall. revert unknown. induction Hall as [|c children Hc _ IH]; cbn; intros unknown; [by destruct unknown; intros [= <-]|].
  destruct (outcome c) as [[]|] eqn:Ec; [| |].
  - rewrite (Hc true eq_refl). apply IH.
  - intros [= <-]. by rewrite (Hc false eq_refl).
  - intros E. assert (forallb P children = b) as E' by (by eapply IH). destruct b; [|by rewrite E', andb_false_r].
    exfalso. revert E. clear. induction children as [|c children IH]; [done|]. cbn. by destruct (outcome c) as [[]|].
Qed.
Lemma or_outcome_sound {A} (outcome : A -> option bool) (P : A -> bool) children unknown b :
  Forall (fun c => forall b, outcome c = Some b -> P c = b) children ->
  or_outcome outcome children unknown = Some b -> existsb P children = b.
Proof.
  intros Hall. revert unknown. induction Hall as [|c children Hc _ IH]; cbn; intros unknown; [by destruct unknown; intros [= <-]|].
  destruct (outcome c) as [[]|] eqn:Ec; [| |].
  - intros [= <-]. by rewrite (Hc true eq_refl).
  - rewrite (Hc false eq_refl). apply IH.
  - intros E. assert (existsb P children = b) as E' by (by eapply IH). destruct b; [by rewrite E', orb_true_r|].
    exfalso. revert E. clear. induction children as [|c children IH]; [done|]. cbn. by destruct (outcome c) as [[]|].
Qed.
