(* ===== verification/NodeFilter.v ===== *)
(** Node filters (src/engine/query_ir.rs, query_exec.rs): normalization of a
    filter expression and the evaluation of a normalized filter. *)
From S2P Require Import Prelude Types Floats PropertyValue FilterBase.

Module NodeFilterExpr.
Inductive t : Type :=
| IdRange (lower upper : option Z) (lower_inclusive upper_inclusive : bool)
| KeyEquals (value : str)
| KeyIn (values : list str)
| PropertyEquals (key : str) (value : PropValue)
| PropertyIn (key : str) (values : list PropValue)
| PropertyRange (key : str) (lower upper : option PropertyRangeBound)
| PropertyExists (key : str)
| PropertyMissing (key : str)
| UpdatedAtRange (lower_ms upper_ms : option Z)
| WeightRange (lower upper : option Z) (lower_inclusive upper_inclusive : bool)
| CreatedAtRange (lower upper : option Z) (lower_inclusive upper_inclusive : bool)
| And (children : list t)
| Or (children : list t)
| Not (child : t).
End NodeFilterExpr.

Module NormalizedNodeFilter.
Inductive t : Type :=
| AlwaysTrue
| AlwaysFalse
| IdRange (lower upper : option Z) (lower_inclusive upper_inclusive : bool)
| KeyEquals (value : str)
| KeyIn (values : list str)
| PropertyEquals (key : str) (value : PropValue)
| PropertyIn (key : str) (values : list PropValue) (value_keys : list (list byte))
| PropertyRange (key : str) (lower upper : option PropertyRangeBound)
| PropertyExists (key : str)
| PropertyMissing (key : str)
| UpdatedAtRange (lower_ms upper_ms : Z)
| WeightRange (lower upper : option Z) (lower_inclusive upper_inclusive : bool)
| CreatedAtRange (lower upper : option Z) (lower_inclusive upper_inclusive : bool)
| And (children : list t)
| Or (children : list t)
| Not (child : t).
End NormalizedNodeFilter.

Module NodeFilter.
Import NormalizedNodeFilter.
Module E := NodeFilterExpr.

Record NodeMetadataForQuery : Type := mkNodeMeta {
  nm_id : Z;
  nm_label_ids : NodeLabelSet;
  nm_updated_at : Z;
  nm_weight : Z
}.
Record SelectedNodeFields : Type := mkSelectedNode {
  sn_meta : NodeMetadataForQuery;
  sn_key : option str;
  sn_props : props;
  sn_created_at : option Z;
  sn_dense_vector : option (list Z);
  sn_sparse_vector : option (list (Z * Z))
}.

Section NodeFilters.
Context `{RmpValue}.

(** ** Structural keys *)
Fixpoint structural_key (filter : t) : option (list byte) :=
  let children_keys := fix children_keys (children : list t) : option (list byte) :=
    match children with
    | [] => Some []
    | child :: children =>
        key ← structural_key child; keys ← children_keys children; Some (push_len_prefixed_bytes key ++ keys)
    end in
  match filter with
  | AlwaysTrue => Some [z2b 0]
  | AlwaysFalse => Some [z2b 1]
  | IdRange lower upper lower_inclusive upper_inclusive =>
      Some (z2b 11 :: push_optional 8 lower ++ push_optional 8 upper ++ [bool_byte lower_inclusive; bool_byte upper_inclusive])
  | KeyEquals value => Some (z2b 12 :: push_len_prefixed_bytes value)
  | KeyIn values => Some (z2b 13 :: mjoin (push_len_prefixed_bytes <$> values))
  | PropertyEquals key value =>
      Some (z2b 2 :: push_len_prefixed_bytes key ++ push_len_prefixed_bytes (prop_value_canonical_bytes value))
  | PropertyIn key _ value_keys =>
      Some (z2b 3 :: push_len_prefixed_bytes key ++ mjoin (push_len_prefixed_bytes <$> value_keys))
  | PropertyRange key lower upper =>
      lower_key ← push_range_bound_structural_key lower;
      upper_key ← push_range_bound_structural_key upper;
      Some (z2b 4 :: push_len_prefixed_bytes key ++ lower_key ++ upper_key)
  | PropertyExists key => Some (z2b 5 :: push_len_prefixed_bytes key)
  | PropertyMissing key => Some (z2b 6 :: push_len_prefixed_bytes key)
  | UpdatedAtRange lower_ms upper_ms => Some (z2b 7 :: i64_be lower_ms ++ i64_be upper_ms)
  | WeightRange lower upper lower_inclusive upper_inclusive =>
      Some (z2b 14 :: push_optional 4 lower ++ push_optional 4 upper ++ [bool_byte lower_inclusive; bool_byte upper_inclusive])
  | CreatedAtRange lower upper lower_inclusive upper_inclusive =>
      Some (z2b 15 :: push_optional 8 (to_bits 64 <$> lower) ++ push_optional 8 (to_bits 64 <$> upper)
              ++ [bool_byte lower_inclusive; bool_byte upper_inclusive])
  | And children => keys ← children_keys children; Some (z2b 8 :: keys)
  | Or children => keys ← children_keys children; Some (z2b 9 :: keys)
  | Not child => key ← structural_key child; Some (z2b 10 :: push_len_prefixed_bytes key)
  end.

Definition filter_children_sorted_dedup : list t -> option (list t) := children_sorted_dedup structural_key.

(** ** Normalization *)
Definition demand (child : t) : Demand :=
  match child with
  | PropertyEquals key value => Equals key value
  | PropertyRange key lower upper => InRange key lower upper
  | PropertyExists key => Present key
  | PropertyMissing key => Absent key
  | _ => Nothing
  end.
Definition retained (eq_by_key : gmap str PropValue) (child : t) : bool :=
  match child with
  | PropertyExists key => match eq_by_key !! key with Some _ => false | None => true end
  | _ => true
  end.

Definition normalize_normalized_and_filter (flattened : list t) : option (res t) :=
  match and_equalities (demand <$> flattened) with
  | Err e => Some (Err e)
  | Ok None => Some (Ok AlwaysFalse)
  | Ok (Some eq_by_key) =>
      flattened ← filter_children_sorted_dedup (base.filter (fun child => retained eq_by_key child = true) flattened);
      Some (Ok match flattened with [] => AlwaysTrue | [child] => child | _ => And flattened end)
  end.

Definition normalize_node_weight_range (lower upper : option Z) (lower_inclusive upper_inclusive : bool) : res t :=
  match lower, upper with
  | None, None => Err (InvalidOperation "node weight range filters require at least one bound")
  | _, _ =>
      if match lower with Some lower => is_nan F32 lower | None => false end
         || match upper with Some upper => is_nan F32 upper | None => false end
      then Err (InvalidOperation "node weight range bounds must not be NaN")
      else if match lower, upper with
              | Some l, Some u => flt F32 u l || feq F32 l u && (negb lower_inclusive || negb upper_inclusive)
              | _, _ => false
              end
      then Ok AlwaysFalse
      else Ok (WeightRange lower upper lower_inclusive upper_inclusive)
  end.

(** The loops over the children; [Ok None]: a child decides the whole. *)
Section Flatten.
Context (normalize : E.t -> option (res t)).
Fixpoint flatten_and (children : list E.t) (flattened : list t) : option (res (option (list t))) :=
  match children with
  | [] => Some (Ok (Some flattened))
  | child :: children =>
      and_then (normalize child) (fun normalized =>
        match normalized with
        | AlwaysFalse => Some (Ok None)
        | AlwaysTrue => flatten_and children flattened
        | And grandchildren => flatten_and children (flattened ++ grandchildren)
        | normalized => flatten_and children (flattened ++ [normalized])
        end)
  end.
Fixpoint flatten_or (children : list E.t) (flattened : list t) : option (res (option (list t))) :=
  match children with
  | [] => Some (Ok (Some flattened))
  | child :: children =>
      and_then (normalize child) (fun normalized =>
        match normalized with
        | AlwaysTrue => Some (Ok None)
        | AlwaysFalse => flatten_or children flattened
        | Or grandchildren => flatten_or children (flattened ++ grandchildren)
        | normalized => flatten_or children (flattened ++ [normalized])
        end)
  end.
Definition normalize_and_filter (children : list E.t) : option (res t) :=
  match children with
  | [] => Some (Err (InvalidOperation "and filters must contain at least one child"))
  | _ =>
      and_then (flatten_and children []) (fun flattened =>
        match flattened with
        | None => Some (Ok AlwaysFalse)
        | Some flattened => normalize_normalized_and_filter flattened
        end)
  end.
Definition normalize_or_filter (children : list E.t) : option (res t) :=
  match children with
  | [] => Some (Err (InvalidOperation "or filters must contain at least one child"))
  | _ =>
      and_then (flatten_or children []) (fun flattened =>
        match flattened with
        | None => Some (Ok AlwaysTrue)
        | Some flattened =>
            flattened ← filter_children_sorted_dedup flattened;
            Some (Ok match flattened with [] => AlwaysFalse | [child] => child | _ => Or flattened end)
        end)
  end.
End Flatten.

(** The cases without children. *)
Definition normalize_leaf (expr : E.t) : res t :=
  match expr with
  | E.IdRange lower upper lower_inclusive upper_inclusive =>
      r ← normalize_u64_flexible_range lower upper lower_inclusive upper_inclusive "node id";
      match r with
      | None => Ok AlwaysFalse
      | Some (lower, upper, lower_inclusive, upper_inclusive) => Ok (IdRange lower upper lower_inclusive upper_inclusive)
      end
  | E.KeyEquals value =>
      match value with
      | [] => Err (InvalidOperation "node key equals filters require a non-empty key")
      | _ => Ok (KeyEquals value)
      end
  | E.KeyIn values =>
      match values with
      | [] => Err (InvalidOperation "node key in filters must contain at least one value")
      | _ =>
          if existsb (fun value => bool_decide (value = [])) values
          then Err (InvalidOperation "node key in filters require non-empty keys")
          else
            match fst <$> sort_dedup ((fun value => (value, tt)) <$> values) with
            | [value] => Ok (KeyEquals value)
            | values => Ok (KeyIn values)
            end
      end
  | E.PropertyEquals key value => _ ← require_non_empty_filter_key key "property equals filter"; Ok (PropertyEquals key value)
  | E.PropertyIn key values =>
      _ ← require_non_empty_filter_key key "property in filter";
      match values with
      | [] => Err (InvalidOperation "property in filters must contain at least one value")
      | _ =>
          match keyed_values values with
          | [(_, value)] => Ok (PropertyEquals key value)
          | keyed => Ok (PropertyIn key (snd <$> keyed) (fst <$> keyed))
          end
      end
  | E.PropertyRange key lower upper =>
      _ ← require_non_empty_filter_key key "property range filter";
      range ← validate_numeric_range_bounds lower upper None;
      if vr_is_empty range then Ok AlwaysFalse else Ok (PropertyRange key lower upper)
  | E.PropertyExists key => _ ← require_non_empty_filter_key key "property exists filter"; Ok (PropertyExists key)
  | E.PropertyMissing key => _ ← require_non_empty_filter_key key "property missing filter"; Ok (PropertyMissing key)
  | E.UpdatedAtRange lower_ms upper_ms =>
      match lower_ms, upper_ms with
      | None, None => Err (InvalidOperation "updated-at range filters require at least one bound")
      | _, _ =>
          let lower_ms := default i64_min lower_ms in
          let upper_ms := default i64_max upper_ms in
          if upper_ms <? lower_ms then Ok AlwaysFalse else Ok (UpdatedAtRange lower_ms upper_ms)
      end
  | E.WeightRange lower upper lower_inclusive upper_inclusive =>
      normalize_node_weight_range lower upper lower_inclusive upper_inclusive
  | E.CreatedAtRange lower upper lower_inclusive upper_inclusive =>
      r ← normalize_i64_flexible_range lower upper lower_inclusive upper_inclusive "node created-at";
      match r with
      | None => Ok AlwaysFalse
      | Some (lower, upper, lower_inclusive, upper_inclusive) => Ok (CreatedAtRange lower upper lower_inclusive upper_inclusive)
      end
  | E.And _ | E.Or _ | E.Not _ => Ok AlwaysTrue (** not a leaf *)
  end.

Definition negate (normalized : t) : t :=
  match normalized with
  | AlwaysTrue => AlwaysFalse
  | AlwaysFalse => AlwaysTrue
  | PropertyExists key => PropertyMissing key
  | PropertyMissing key => PropertyExists key
  | Not grandchild => grandchild
  | normalized => Not normalized
  end.

Fixpoint normalize_node_filter_expr (expr : E.t) : option (res t) :=
  match expr with
  | E.And children => normalize_and_filter normalize_node_filter_expr children
  | E.Or children => normalize_or_filter normalize_node_filter_expr children
  | E.Not child => and_then (normalize_node_filter_expr child) (fun normalized => Some (Ok (negate normalized)))
  | leaf => Some (normalize_leaf leaf)
  end.
Definition normalize_optional_node_filter (filter : option E.t) : option (res t) :=
  match filter with Some expr => normalize_node_filter_expr expr | None => Some (Ok AlwaysTrue) end.

(** ** Evaluation *)
(** What the metadata alone decides; [None]: it does not. *)
Fixpoint node_filter_metadata_outcome (filter : t) (meta : NodeMetadataForQuery) : option bool :=
  match filter with
  | AlwaysTrue => Some true
  | AlwaysFalse => Some false
  | IdRange lower upper lower_inclusive upper_inclusive =>
      Some (u64_flexible_range_matches (nm_id meta) lower upper lower_inclusive upper_inclusive)
  | WeightRange lower upper lower_inclusive upper_inclusive =>
      Some (f32_flexible_range_matches (nm_weight meta) lower upper lower_inclusive upper_inclusive)
  | UpdatedAtRange lower_ms upper_ms => Some ((lower_ms <=? nm_updated_at meta) && (nm_updated_at meta <=? upper_ms))
  | And children => and_outcome (fun child => node_filter_metadata_outcome child meta) children false
  | Or children => or_outcome (fun child => node_filter_metadata_outcome child meta) children false
  | Not child => negb <$> node_filter_metadata_outcome child meta
  | _ => None
  end.

Fixpoint node_filter_projected_matches (filter : t) (selected : SelectedNodeFields) : bool :=
  match filter with
  | AlwaysTrue => true
  | AlwaysFalse => false
  | IdRange lower upper lower_inclusive upper_inclusive =>
      u64_flexible_range_matches (nm_id (sn_meta selected)) lower upper lower_inclusive upper_inclusive
  | KeyEquals value => bool_decide (sn_key selected = Some value)
  | KeyIn values =>
      match sn_key selected with
      | Some key => bool_decide (is_Some (binary_search_by (fun v => bytes_cmp v key) values))
      | None => false
      end
  | PropertyEquals key value =>
      match btree_get key (sn_props selected) with
      | Some candidate => prop_values_equal_for_filter candidate value
      | None => false
      end
  | PropertyIn key values value_keys =>
      match btree_get key (sn_props selected) with
      | Some candidate => property_in_filter_matches candidate values value_keys
      | None => false
      end
  | PropertyRange key lower upper =>
      bool_decide ((btree_get key (sn_props selected) ≫= fun value => numeric_range_value_within_bounds value lower upper) = Some true)
  | PropertyExists key => bool_decide (is_Some (btree_get key (sn_props selected)))
  | PropertyMissing key => negb (bool_decide (is_Some (btree_get key (sn_props selected))))
  | UpdatedAtRange lower_ms upper_ms =>
      (lower_ms <=? nm_updated_at (sn_meta selected)) && (nm_updated_at (sn_meta selected) <=? upper_ms)
  | WeightRange lower upper lower_inclusive upper_inclusive =>
      f32_flexible_range_matches (nm_weight (sn_meta selected)) lower upper lower_inclusive upper_inclusive
  | CreatedAtRange lower upper lower_inclusive upper_inclusive =>
      match sn_created_at selected with
      | Some created_at => i64_flexible_range_matches created_at lower upper lower_inclusive upper_inclusive
      | None => false
      end
  | And children => forallb (fun child => node_filter_projected_matches child selected) children
  | Or children => existsb (fun child => node_filter_projected_matches child selected) children
  | Not child => negb (node_filter_projected_matches child selected)
  end.

(** Which parts of the record the evaluation reads. *)
Fixpoint node_filter_needs_key (filter : t) : bool :=
  match filter with
  | KeyEquals _ | KeyIn _ => true
  | And children | Or children => existsb node_filter_needs_key children
  | Not child => node_filter_needs_key child
  | _ => false
  end.
Fixpoint node_filter_needs_created_at (filter : t) : bool :=
  match filter with
  | CreatedAtRange _ _ _ _ => true
  | And children | Or children => existsb node_filter_needs_created_at children
  | Not child => node_filter_needs_created_at child
  | _ => false
  end.
Fixpoint collect_node_filter_property_keys (filter : t) (keys : list str) : list str :=
  match filter with
  | PropertyEquals key _ | PropertyIn key _ _ | PropertyRange key _ _ | PropertyExists key | PropertyMissing key =>
      if existsb (fun existing => bool_decide (existing = key)) keys then keys else keys ++ [key]
  | And children | Or children => foldl (fun keys child => collect_node_filter_property_keys child keys) keys children
  | Not child => collect_node_filter_property_keys child keys
  | _ => keys
  end.
End NodeFilters.
End NodeFilter.
