(* ===== verification/NodeFilterFacts.v ===== *)
(** Node filters: normalization keeps the meaning of a filter and cannot panic,
    and evaluating a normalized filter on the fields it asks for, or on the
    metadata where that decides, is evaluating the expression on the record. *)
From S2P Require Import Prelude Types Floats PropertyValue PropertyValueFacts FilterBase FilterFacts NodeFilter.

(** ** Induction through children *)
Section NormalizedInd.
Import NormalizedNodeFilter.
Variable P : t -> Prop.
Hypotheses (Hand : forall children, Forall P children -> P (And children)) (Hor : forall children, Forall P children -> P (Or children))
  (Hnot : forall child, P child -> P (Not child))
  (Hleaf : forall f, match f with And _ | Or _ | Not _ => True | _ => P f end).
Fixpoint normalized_ind (f : t) : P f :=
  let all := fix all (l : list t) : Forall P l :=
    match l with [] => Forall_nil_2 P | c :: l => Forall_cons_2 P c l (normalized_ind c) (all l) end in
  match f as f return (match f with And _ | Or _ | Not _ => True | _ => P f end -> P f) with
  | And children => fun _ => Hand children (all children)
  | Or children => fun _ => Hor children (all children)
  | Not child => fun _ => Hnot child (normalized_ind child)
  | _ => fun H => H
  end (Hleaf f).
End NormalizedInd.
Section ExprInd.
Import NodeFilterExpr.
Variable P : t -> Prop.
Hypotheses (Hand : forall children, Forall P children -> P (And children)) (Hor : forall children, Forall P children -> P (Or children))
  (Hnot : forall child, P child -> P (Not child))
  (Hleaf : forall f, match f with And _ | Or _ | Not _ => True | _ => P f end).
Fixpoint expr_ind (f : t) : P f :=
  let all := fix all (l : list t) : Forall P l :=
    match l with [] => Forall_nil_2 P | c :: l => Forall_cons_2 P c l (expr_ind c) (all l) end in
  match f as f return (match f with And _ | Or _ | Not _ => True | _ => P f end -> P f) with
  | And children => fun _ => Hand children (all children)
  | Or children => fun _ => Hor children (all children)
  | Not child => fun _ => Hnot child (expr_ind child)
  | _ => fun H => H
  end (Hleaf f).
End ExprInd.

(** A property of every child, where a [Fixpoint] needs it. *)
Lemma all_Forall {A} (P : A -> Prop) l :
  (fix all (l : list A) : Prop := match l with [] => True | c :: l => P c /\ all l end) l <-> Forall P l.
Proof. induction l as [|a l IH]; [by split|]. rewrite Forall_cons. by rewrite IH. Qed.

Module NodeFilterSpec.
Module E := NodeFilterExpr.

(** ** What a filter expression means *)
Fixpoint expr_matches (expr : E.t) (node : NodeRecord) : bool :=
  match expr with
  | E.IdRange lower upper li ui => u64_flexible_range_matches (nr_id node) lower upper li ui
  | E.KeyEquals value => bool_decide (nr_key node = value)
  | E.KeyIn values => bool_decide (nr_key node ∈ values)
  | E.PropertyEquals key value =>
      match btree_get key (nr_props node) with Some v => semantic_property_eq v value | None => false end
  | E.PropertyIn key values =>
      match btree_get key (nr_props node) with Some v => existsb (semantic_property_eq v) values | None => false end
  | E.PropertyRange key lower upper =>
      bool_decide ((btree_get key (nr_props node) ≫= fun v => numeric_range_value_within_bounds v lower upper) = Some true)
  | E.PropertyExists key => bool_decide (is_Some (btree_get key (nr_props node)))
  | E.PropertyMissing key => negb (bool_decide (is_Some (btree_get key (nr_props node))))
  | E.UpdatedAtRange lower upper => i64_flexible_range_matches (nr_updated_at node) lower upper true true
  | E.WeightRange lower upper li ui => f32_flexible_range_matches (nr_weight node) lower upper li ui
  | E.CreatedAtRange lower upper li ui => i64_flexible_range_matches (nr_created_at node) lower upper li ui
  | E.And children => forallb (fun child => expr_matches child node) children
  | E.Or children => existsb (fun child => expr_matches child node) children
  | E.Not child => negb (expr_matches child node)
  end.

(** The values of an expression are in the ranges of their types. *)
Definition optional (P : Z -> Prop) (o : option Z) : Prop := match o with Some v => P v | None => True end.
Fixpoint expr_wf (expr : E.t) : Prop :=
  let all := fix all (l : list E.t) : Prop := match l with [] => True | c :: l => expr_wf c /\ all l end in
  match expr with
  | E.IdRange lower upper _ _ => optional u64 lower /\ optional u64 upper
  | E.PropertyEquals _ value => value_wf value
  | E.PropertyIn _ values => Forall value_wf values
  | E.PropertyRange _ lower upper => raw_bound_wf lower /\ raw_bound_wf upper
  | E.UpdatedAtRange lower upper | E.CreatedAtRange lower upper _ _ => optional i64 lower /\ optional i64 upper
  | E.WeightRange lower upper _ _ => optional u32 lower /\ optional u32 upper
  | E.And children | E.Or children => all children
  | E.Not child => expr_wf child
  | _ => True
  end.
Definition node_wf (node : NodeRecord) : Prop :=
  i64 (nr_updated_at node) /\ forall k v, btree_get k (nr_props node) = Some v -> value_wf v.
End NodeFilterSpec.

Section NodeFilterFacts.
Context `{RmpValueLaws}.
Import NodeFilterSpec NormalizedNodeFilter NodeFilter.

(** ** Well-formed normalized filters *)
Definition numeric_bound (b : option PropertyRangeBound) : Prop :=
  match b with Some b => is_Some (numeric_key (bound_value b)) | None => True end.
Fixpoint nf_wf (f : t) : Prop :=
  let all := fix all (l : list t) : Prop := match l with [] => True | c :: l => nf_wf c /\ all l end in
  match f with
  | IdRange lower upper _ _ => optional u64 lower /\ optional u64 upper
  | KeyIn values => StronglySorted bytes_lt values
  | PropertyEquals _ value => value_wf value
  | PropertyIn _ values value_keys =>
      exists given, Forall value_wf given /\ values = snd <$> keyed_values given /\ value_keys = fst <$> keyed_values given
  | PropertyRange _ lower upper => (raw_bound_wf lower /\ raw_bound_wf upper) /\ numeric_bound lower /\ numeric_bound upper
  | UpdatedAtRange lower upper => i64 lower /\ i64 upper
  | WeightRange lower upper _ _ => optional u32 lower /\ optional u32 upper
  | CreatedAtRange lower upper _ _ => optional i64 lower /\ optional i64 upper
  | And children | Or children => all children
  | Not child => nf_wf child
  | _ => True
  end.

Lemma nf_wf_And l : nf_wf (And l) <-> Forall nf_wf l.
Proof. exact (all_Forall nf_wf l). Qed.
Lemma nf_wf_Or l : nf_wf (Or l) <-> Forall nf_wf l.
Proof. exact (all_Forall nf_wf l). Qed.

(** ** Structural keys *)
Definition tag (f : t) : Z :=
  match f with
  | AlwaysTrue => 0 | AlwaysFalse => 1 | PropertyEquals _ _ => 2 | PropertyIn _ _ _ => 3 | PropertyRange _ _ _ => 4
  | PropertyExists _ => 5 | PropertyMissing _ => 6 | UpdatedAtRange _ _ => 7 | And _ => 8 | Or _ => 9 | Not _ => 10
  | IdRange _ _ _ _ => 11 | KeyEquals _ => 12 | KeyIn _ => 13 | WeightRange _ _ _ _ => 14 | CreatedAtRange _ _ _ _ => 15
  end.
Fixpoint children_keys (children : list t) : option (list byte) :=
  match children with
  | [] => Some []
  | child :: children => key ← structural_key child; keys ← children_keys children; Some (push_len_prefixed_bytes key ++ keys)
  end.
Lemma structural_key_And children : structural_key (And children) = keys ← children_keys children; Some (z2b 8 :: keys).
Proof. reflexivity. Qed.
Lemma structural_key_Or children : structural_key (Or children) = keys ← children_keys children; Some (z2b 9 :: keys).
Proof. reflexivity. Qed.
Lemma children_keys_spec children ks :
  children_keys children = Some ks ->
  exists keys, Forall2 (fun c k => structural_key c = Some k) children keys /\ ks = mjoin (push_len_prefixed_bytes <$> keys).
Proof.
  revert ks. induction children as [|c children IH]; cbn [children_keys]; intros ks E; [injection E as <-; exists []; by split; [constructor|]|].
  destruct (structural_key c) as [k|] eqn:Ek; [|done]. cbn [mbind option_bind] in E.
  destruct (children_keys children) as [ks'|]; [|done]. injection E as <-. destruct (IH ks' eq_refl) as (keys & Hk & ->).
  exists (k :: keys). split; [by constructor|done].
Qed.
Lemma range_bound_keyed b : numeric_bound b -> is_Some (push_range_bound_structural_key b).
Proof.
  destruct b as [b|]; [|by eexists]. intros [k Hk]. cbn [push_range_bound_structural_key]. unfold semantic_range_bound_key_bytes.
  rewrite Hk. by eexists.
Qed.
Lemma structural_key_total f : nf_wf f -> is_Some (structural_key f).
Proof.
  assert (forall children, Forall (fun f => nf_wf f -> is_Some (structural_key f)) children -> Forall nf_wf children ->
            is_Some (children_keys children)) as Hall.
  { induction 1 as [|c children Hc _ IH]; [by eexists|]. intros [[k Hk]%Hc Hw]%Forall_cons. destruct (IH Hw) as [ks Hks].
    cbn [children_keys]. rewrite Hk, Hks. by eexists. }
  revert f. apply (normalized_ind (fun f => nf_wf f -> is_Some (structural_key f)));
    [intros children IH|intros children IH|intros f IH|intros f].
  - intros Hw%all_Forall. rewrite structural_key_And. destruct (Hall _ IH Hw) as [ks ->]. by eexists.
  - intros Hw%all_Forall. rewrite structural_key_Or. destruct (Hall _ IH Hw) as [ks ->]. by eexists.
  - intros Hw. cbn [structural_key]. destruct (IH Hw) as [k ->]. by eexists.
  - destruct f; try done; try (by eexists). intros (_ & Hl & Hu). cbn [structural_key].
    destruct (range_bound_keyed _ Hl) as [kl ->], (range_bound_keyed _ Hu) as [ku ->]. by eexists.
Qed.
Lemma structural_key_tag f k : structural_key f = Some k -> exists rest, k = z2b (tag f) :: rest.
Proof.
  destruct f; cbn [structural_key tag]; try (intros [= <-]; by eexists).
  - destruct (push_range_bound_structural_key lower), (push_range_bound_structural_key upper); try done. intros [= <-]. by eexists.
  - fold (children_keys children). destruct (children_keys children); [|done]. intros [= <-]. by eexists.
  - fold (children_keys children). destruct (children_keys children); [|done]. intros [= <-]. by eexists.
  - destruct (structural_key f); [|done]. intros [= <-]. by eexists.
Qed.

Context (selected : SelectedNodeFields) (Hprops : forall k v, btree_get k (sn_props selected) = Some v -> value_wf v).
Abbreviation matches f := (node_filter_projected_matches f selected).

Lemma optional_in_8 o : optional u64 o -> optional_in 8 o.
Proof. by destruct o. Qed.
Lemma optional_in_4 o : optional u32 o -> optional_in 4 o.
Proof. by destruct o. Qed.
Lemma optional_bits o : optional_in 8 (to_bits 64 <$> o).
Proof. destruct o; [|done]. cbn. apply to_bits_range. lia. Qed.
Lemma optional_bits_inj a b : optional i64 a -> optional i64 b -> to_bits 64 <$> a = to_bits 64 <$> b -> a = b.
Proof. destruct a, b; cbn; try done. intros Ha Hb [= E]. f_equal. by apply to_bits_64_inj. Qed.

(** The key of a filter determines what it accepts. *)
Definition key_determines (f : t) : Prop :=
  forall g k, nf_wf f -> nf_wf g -> short k -> structural_key f = Some k -> structural_key g = Some k -> matches f = matches g.
Lemma children_determine children children' ks :
  Forall key_determines children -> Forall nf_wf children -> Forall nf_wf children' -> short ks ->
  children_keys children = Some ks -> children_keys children' = Some ks ->
  Forall2 (fun f g => matches f = matches g) children children'.
Proof.
  intros Hdet Hw Hw' Hs E E'. apply children_keys_spec in E as (keys & Hk & ->), E' as (keys' & Hk' & Ek).
  apply join_push_inj in Ek as <-; [|done]. clear -Hdet Hw Hw' Hs Hk Hk'. revert children' Hw' Hk'.
  induction Hk as [|c k children keys Hc Hk IH]; intros children' Hw' Hk'; inversion Hk' as [|c' ? ? ? Hc' Hk'']; subst; [constructor|].
  apply Forall_cons in Hdet as [Hd Hdet], Hw as [Hwc Hw], Hw' as [Hwc' Hw']. rewrite join_fmap_cons in Hs.
  apply short_app in Hs as [Hs1%short_push Hs2]. constructor; [by apply (Hd c' k)|by apply IH].
Qed.
Lemma structural_key_determines f : key_determines f.
Proof.
  revert f. apply (normalized_ind key_determines); [intros children IH|intros children IH|intros f IH|intros f].
  1-3: intros g k Hwf Hwg Hs Ef Eg.
  - destruct (structural_key_tag _ _ Ef) as [rest ->], (structural_key_tag _ _ Eg) as (rest' & [Et _]%cons_eq_inj).
    destruct g; try discriminate Et. rewrite structural_key_And in Ef, Eg.
    destruct (children_keys children) as [ks|] eqn:Ec; [|done]. destruct (children_keys children0) as [ks'|] eqn:Ec'; [|done].
    apply (inj Some), cons_eq_inj in Ef as [_ ->]. apply (inj Some), cons_eq_inj in Eg as [_ ->].
    apply all_Forall in Hwf, Hwg.
    pose proof (children_determine _ _ _ IH Hwf Hwg (short_cons _ _ Hs) Ec Ec') as Hall. clear -Hall.
    cbn. induction Hall as [|c c' children children0 Hc _ IHall]; [done|]. cbn. by rewrite Hc, IHall.
  - destruct (structural_key_tag _ _ Ef) as [rest ->], (structural_key_tag _ _ Eg) as (rest' & [Et _]%cons_eq_inj).
    destruct g; try discriminate Et. rewrite structural_key_Or in Ef, Eg.
    destruct (children_keys children) as [ks|] eqn:Ec; [|done]. destruct (children_keys children0) as [ks'|] eqn:Ec'; [|done].
    apply (inj Some), cons_eq_inj in Ef as [_ ->]. apply (inj Some), cons_eq_inj in Eg as [_ ->].
    apply all_Forall in Hwf, Hwg.
    pose proof (children_determine _ _ _ IH Hwf Hwg (short_cons _ _ Hs) Ec Ec') as Hall. clear -Hall.
    cbn. induction Hall as [|c c' children children0 Hc _ IHall]; [done|]. cbn. by rewrite Hc, IHall.
  - destruct (structural_key_tag _ _ Ef) as [rest ->], (structural_key_tag _ _ Eg) as (rest' & [Et _]%cons_eq_inj).
    destruct g; try discriminate Et. cbn [structural_key] in Ef, Eg.
    destruct (structural_key f) as [kf|] eqn:Kf; [|done]. destruct (structural_key g) as [kg|] eqn:Kg; [|done].
    apply (inj Some), cons_eq_inj in Ef as [_ <-]. apply (inj Some), cons_eq_inj in Eg as [_ E].
    pose proof (short_push kf (short_cons _ _ Hs)) as Hkf.
    apply push_inj in E as ->; [|rewrite <- E in Hs; exact (short_push kg (short_cons _ _ Hs))|done].
    cbn. f_equal. by apply (IH g kf).
  - destruct f; try done; intros g k Hwf Hwg Hs Ef Eg;
      destruct (structural_key_tag _ _ Ef) as [rest ->], (structural_key_tag _ _ Eg) as (rest' & [Et _]%cons_eq_inj);
      destruct g; try discriminate Et; try done; clear Et; cbn [structural_key] in Ef, Eg.
    6: { destruct (push_range_bound_structural_key lower) as [l|] eqn:El; [|done].
         destruct (push_range_bound_structural_key upper) as [u|] eqn:Eu; [|done].
         destruct (push_range_bound_structural_key lower0) as [l'|] eqn:El'; [|done].
         destruct (push_range_bound_structural_key upper0) as [u'|] eqn:Eu'; [|done].
         apply (inj Some), cons_eq_inj in Ef as [_ <-]. apply (inj Some), cons_eq_inj in Eg as [_ E].
         pose proof (short_cons _ _ Hs) as Hf. pose proof Hf as Hg. rewrite <- E in Hg.
         apply short_app in Hf as [Hf1%short_push [Hf2 Hf3]%short_app], Hg as [Hg1%short_push [Hg2 Hg3]%short_app].
         apply push_app_inj in E as [-> E]; [|done..]. destruct Hwf as [[? ?] _], Hwg as [[? ?] _].
         destruct (range_bound_key_inj lower0 lower l' l u' u) as [Hl ->]; try done.
         destruct (range_bound_key_inj upper0 upper u u [] []) as [Hu _]; try done.
         cbn. f_equal. apply bool_decide_ext. destruct (btree_get key (sn_props selected)) as [v|]; [|done]. cbn.
         by rewrite (same_bounds_within v lower0 lower upper0 upper). }
    all: apply (inj Some), cons_eq_inj in Ef as [_ <-]; apply (inj Some), cons_eq_inj in Eg as [_ E];
      pose proof (short_cons _ _ Hs) as Hf; pose proof Hf as Hg; rewrite <- E in Hg.
    + destruct Hwf, Hwg. apply push_optional_app_inj in E as [-> E]; [|by apply optional_in_8..].
      apply push_optional_app_inj in E as [-> E]; [|by apply optional_in_8..].
      apply cons_eq_inj in E as [->%bool_byte_inj [->%bool_byte_inj _]%cons_eq_inj]. done.
    + apply push_inj in E as ->; [done|by apply short_push..].
    + apply join_push_inj in E as ->; done.
    + apply short_app in Hf as [Hf1%short_push Hf2%short_push], Hg as [Hg1%short_push Hg2%short_push].
      apply push_app_inj in E as [-> E]; [|done..]. apply push_inj in E; [|done..]. cbn.
      destruct (btree_get key _) as [v|] eqn:Ev; [|done]. symmetry. apply canonical_bytes_eq; eauto.
    + apply short_app in Hf as [Hf1%short_push Hf2], Hg as [Hg1%short_push Hg2].
      apply push_app_inj in E as [-> E]; [|done..]. apply join_push_inj in E; [|done].
      destruct Hwf as (given & Hgiven & -> & ->), Hwg as (given' & Hgiven' & -> & ->). cbn.
      destruct (btree_get key _) as [v|] eqn:Ev; [|done].
      rewrite !property_in_exact by eauto. symmetry. apply keyed_values_same_keys; eauto.
    + by apply push_inj in E as ->; [|apply short_push..].
    + by apply push_inj in E as ->; [|apply short_push..].
    + destruct Hwf, Hwg. apply i64_be_app_inj in E as [-> E]; [|done..]. rewrite <- (app_nil_r (i64_be _)) in E.
      rewrite <- (app_nil_r (i64_be upper_ms)) in E. by apply i64_be_app_inj in E as [-> _].
    + destruct Hwf, Hwg. apply push_optional_app_inj in E as [-> E]; [|by apply optional_in_4..].
      apply push_optional_app_inj in E as [-> E]; [|by apply optional_in_4..].
      apply cons_eq_inj in E as [->%bool_byte_inj [->%bool_byte_inj _]%cons_eq_inj]. done.
    + destruct Hwf, Hwg. apply push_optional_app_inj in E as [El E]; [|apply optional_bits..].
      apply push_optional_app_inj in E as [Eu E]; [|apply optional_bits..].
      apply optional_bits_inj in El as ->; [|done..]. apply optional_bits_inj in Eu as ->; [|done..].
      apply cons_eq_inj in E as [->%bool_byte_inj [->%bool_byte_inj _]%cons_eq_inj]. done.
Qed.
End NodeFilterFacts.

Module NodeFilterFacts.
Import NodeFilterSpec NormalizedNodeFilter NodeFilter.
(** Every field of a record. *)
Definition select (node : NodeRecord) : SelectedNodeFields :=
  mkSelectedNode (mkNodeMeta (nr_id node) (nr_label_ids node) (nr_updated_at node) (nr_weight node))
    (Some (nr_key node)) (nr_props node) (Some (nr_created_at node)) (nr_dense_vector node) (nr_sparse_vector node).

Section Normalize.
Context `{RmpValueLaws}.
Context (node : NodeRecord) (Hnode : node_wf node).
Abbreviation matches f := (node_filter_projected_matches f (select node)).

(** The structural keys met while normalizing fit the length prefix. *)
Fixpoint keys_fit (expr : E.t) : Prop :=
  let all := fix all (l : list E.t) : Prop :=
    match l with
    | [] => True
    | c :: l => (keys_fit c /\ forall n k, normalize_node_filter_expr c = Some (Ok n) -> structural_key n = Some k -> short k) /\ all l
    end in
  match expr with
  | E.And children | E.Or children => all children
  | E.Not child => keys_fit child
  | _ => True
  end.

(** ** Leaves *)
Lemma flexible_range_spec lower upper li ui context r value :
  flexible_range lower upper li ui context = Ok r ->
  match r with
  | None => u64_flexible_range_matches value lower upper li ui = false
  | Some (l, u, li', ui') => l = lower /\ u = upper /\ li' = li /\ ui' = ui
  end.
Proof.
  unfold flexible_range, u64_flexible_range_matches.
  destruct lower as [l|], upper as [u|]; [|by intros <-%Ok_inj..|done].
  destruct ((u <? l) || (l =? u) && (negb li || negb ui)) eqn:C; intros <-%Ok_inj; [|done].
  destruct (Z.ltb_spec u l), (Z.ltb_spec value l), (Z.ltb_spec u value), (Z.eqb_spec value l), (Z.eqb_spec value u), (Z.eqb_spec l u);
    destruct li, ui; cbn in *; try done; lia.
Qed.
Lemma flt_spec a b : flt F32 a b = negb (is_nan F32 a) && negb (is_nan F32 b) && (scaled F32 a <? scaled F32 b).
Proof.
  unfold flt, partial_cmp. destruct (is_nan F32 a), (is_nan F32 b); cbn [orb negb andb]; try (by apply bool_decide_eq_false).
  unfold Z.ltb. by destruct (scaled F32 a ?= scaled F32 b).
Qed.
Lemma feq_spec a b : feq F32 a b = negb (is_nan F32 a) && negb (is_nan F32 b) && (scaled F32 a =? scaled F32 b).
Proof.
  unfold feq, partial_cmp. destruct (is_nan F32 a), (is_nan F32 b); cbn [orb negb andb]; try (by apply bool_decide_eq_false).
  rewrite Z.eqb_compare. by destruct (scaled F32 a ?= scaled F32 b).
Qed.
Lemma weight_range_empty value l u li ui :
  is_nan F32 l = false -> is_nan F32 u = false -> flt F32 u l || feq F32 l u && (negb li || negb ui) = true ->
  f32_flexible_range_matches value (Some l) (Some u) li ui = false.
Proof.
  intros Hl Hu C. unfold f32_flexible_range_matches. rewrite !flt_spec, !feq_spec, Hl, Hu in *.
  destruct (is_nan F32 value) eqn:Hv; [done|]. cbn [negb andb orb] in *.
  destruct (Z.ltb_spec (scaled F32 u) (scaled F32 l)), (Z.ltb_spec (scaled F32 value) (scaled F32 l)),
    (Z.ltb_spec (scaled F32 u) (scaled F32 value)), (Z.eqb_spec (scaled F32 value) (scaled F32 l)),
    (Z.eqb_spec (scaled F32 value) (scaled F32 u)), (Z.eqb_spec (scaled F32 l) (scaled F32 u));
    destruct li, ui; cbn in *; try done; lia.
Qed.

(** A sorted list of keys, searched. *)
Lemma sorted_values_search values key :
  StronglySorted bytes_lt values -> is_Some (binary_search_by (fun v => bytes_cmp v key) values) <-> key ∈ values.
Proof.
  intros Hs. split.
  - intros [i Hi]. apply bsearch_sound in Hi as (v & Hv & <-%bytes_cmp_Eq). by apply list_elem_of_lookup_2 with i.
  - intros [j Hj]%list_elem_of_lookup_1. exists j. apply binary_search_by_spec with key; [done|apply bytes_cmp_refl|..].
    + intros i v Hij Hv. by apply (sorted_lookup bytes_lt values i j).
    + intros i v Hij Hv. rewrite bytes_cmp_antisym. by rewrite (sorted_lookup bytes_lt values j i key v Hs Hij Hj Hv).
Qed.
Lemma key_in_spec values :
  StronglySorted bytes_lt (fst <$> sort_dedup ((fun value => (value, tt)) <$> values))
  /\ forall key, key ∈ fst <$> sort_dedup ((fun value => (value, tt)) <$> values) <-> key ∈ values.
Proof.
  destruct (sort_dedup_spec ((fun value : str => (value, tt)) <$> values)) as (Hs & Hsub & Hkeys). split.
  - by apply btree_wf_sorted.
  - intros key. rewrite list_elem_of_fmap. split.
    + intros (x & -> & Hx%Hsub). by apply list_elem_of_fmap in Hx as (v & -> & Hv).
    + intros Hk. destruct (Hkeys (key, tt)) as (y & Hy & E); [apply list_elem_of_fmap; eauto|]. by exists y.
Qed.

Lemma require_Ok key context (u : unit) : require_non_empty_filter_key key context = Ok u -> key <> [].
Proof. by destruct key. Qed.

Definition correct (expr : E.t) (n : t) : Prop := nf_wf n /\ matches n = expr_matches expr node.
Lemma normalize_leaf_correct expr n :
  match expr with E.And _ | E.Or _ | E.Not _ => False | _ => True end ->
  expr_wf expr -> normalize_leaf expr = Ok n -> correct expr n.
Proof.
  destruct Hnode as [Hupdated Hprops].
  destruct expr as [l u li ui|v|vs|k v|k vs|k l u|k|k|l u|l u li ui|l u li ui|?|?|?]; intros Hkind Hwf E; try done; cbn [normalize_leaf expr_wf] in *.
  - apply bind_Ok_inv in E as (r & Er & E). pose proof (flexible_range_spec _ _ _ _ _ _ (nr_id node) Er) as Hr.
    destruct r as [[[[l' u'] li'] ui']|]; apply Ok_inj in E as <-; [destruct Hr as (-> & -> & -> & ->)|]; split; done.
  - destruct v as [|b v]; [done|]. apply Ok_inj in E as <-. split; [done|]. cbn. apply bool_decide_ext. split; [by intros [= ->]|by intros ->].
  - destruct vs as [|v0 vs0]; [done|]. set (vs := v0 :: vs0) in *. clearbody vs. destruct (existsb _ vs); [done|].
    destruct (key_in_spec vs) as [Hs Hin].
    destruct (fst <$> sort_dedup ((fun value => (value, tt)) <$> vs)) as [|v [|v' vs']] eqn:Ed; apply Ok_inj in E as <-; (split; [done|]); cbn [node_filter_projected_matches select sn_key expr_matches].
    + apply bool_decide_ext. rewrite sorted_values_search by done. apply Hin.
    + apply bool_decide_ext. rewrite <- Hin, list_elem_of_singleton. split; [by intros [= ->]|by intros ->].
    + apply bool_decide_ext. rewrite sorted_values_search by done. apply Hin.
  - apply bind_Ok_inv in E as ([] & _ & E). apply Ok_inj in E as <-. by split.
  - apply bind_Ok_inv in E as ([] & _ & E). destruct vs as [|v0 vs0]; [done|]. set (vs := v0 :: vs0) in *. clearbody vs.
    destruct (keyed_values_spec vs) as (_ & _ & Hex).
    assert (correct (E.PropertyIn k vs) (PropertyIn k (snd <$> keyed_values vs) (fst <$> keyed_values vs))) as Hin.
    { split; [by exists vs|]. cbn. destruct (btree_get k (nr_props node)) as [c|] eqn:Ec; [|done]. apply property_in_exact; eauto. }
    destruct (keyed_values vs) as [|[k1 v1] [|x2 l]] eqn:Ek; apply Ok_inj in E as <-; [done| |done].
    split; [|cbn].
    { assert (v1 ∈ vs) as Hv1 by (eapply (keyed_values_spec vs); rewrite Ek; left). rewrite Forall_forall in Hwf. by apply Hwf. }
    destruct (btree_get k (nr_props node)) as [c|] eqn:Ec; [|done]. specialize (Hex c ltac:(eauto) Hwf). cbn in Hex.
    rewrite orb_false_r in Hex. exact Hex.
  - apply bind_Ok_inv in E as ([] & _ & E). apply bind_Ok_inv in E as (range & Er & E). destruct Hwf as [Hl Hu].
    destruct (vr_is_empty range) eqn:Ee; apply Ok_inj in E as <-.
    + split; [done|]. cbn. symmetry. apply bool_decide_eq_false. destruct (btree_get k (nr_props node)) as [c|] eqn:Ec; [|done]. cbn.
      intros Hc. destruct (validate_bounds_spec l u None range c Hl Hu ltac:(eauto) Er) as (_ & Hin & _).
      rewrite (bool_decide_eq_true_2 _ Hc) in Hin. apply within_nonempty in Hin. congruence.
    + split; [|done]. split; [done|]. apply validate_bounds_inv in Er as (ol & ou & El & Eu & _).
      apply validate_optional_spec in El as [_ El], Eu as [_ Eu]; [|done..].
      destruct l, u; cbn; repeat match goal with H : exists k, _ |- _ => destruct H as (? & -> & _) end; by repeat split.
  - apply bind_Ok_inv in E as ([] & _ & E). apply Ok_inj in E as <-. by split.
  - apply bind_Ok_inv in E as ([] & _ & E). apply Ok_inj in E as <-. by split.
  - assert ((if default i64_max u <? default i64_min l then Ok AlwaysFalse else Ok (UpdatedAtRange (default i64_min l) (default i64_max u))) = Ok n
            \/ l = None /\ u = None) as [E'|[-> ->]] by (destruct l, u; first [left; exact E|by right]); [|done].
    clear E. destruct Hwf as [Hl Hu]. unfold correct. cbn [expr_matches]. unfold i64_flexible_range_matches.
    unfold i64, i64_min, i64_max in *.
    destruct (Z.ltb_spec (default (2 ^ 63 - 1) u) (default (- 2 ^ 63) l)); apply Ok_inj in E' as <-; cbn [node_filter_projected_matches nf_wf sn_meta select nm_updated_at].
    + split; [done|]. destruct l as [l|], u as [u|]; cbn in *; repeat match goal with |- context [?a <? ?b] => destruct (Z.ltb_spec a b) end; rewrite ?andb_false_r; cbn; try done; lia.
    + split; [unfold i64; destruct l, u; cbn in *; lia|]. destruct l as [l|], u as [u|]; cbn in *;
        repeat match goal with |- context [?a <? ?b] => destruct (Z.ltb_spec a b) | |- context [?a <=? ?b] => destruct (Z.leb_spec a b) end; rewrite ?andb_false_r; cbn; try done; lia.
  - unfold normalize_node_weight_range in E. destruct Hwf as [Hl Hu].
    destruct l as [l|], u as [u|]; cbn [orb] in E; rewrite ?orb_false_r in E; try done.
    + destruct (is_nan F32 l) eqn:Nl, (is_nan F32 u) eqn:Nu; try done. cbn [orb] in E.
      destruct (flt F32 u l || _) eqn:C; apply Ok_inj in E as <-; [|by split].
      split; [done|]. cbn. symmetry. by apply weight_range_empty.
    + destruct (is_nan F32 l); [done|]. apply Ok_inj in E as <-. by split.
    + destruct (is_nan F32 u); [done|]. apply Ok_inj in E as <-. by split.
  - apply bind_Ok_inv in E as (r & Er & E). pose proof (flexible_range_spec _ _ _ _ _ _ (nr_created_at node) Er) as Hr.
    destruct r as [[[[l' u'] li'] ui']|]; apply Ok_inj in E as <-; [destruct Hr as (-> & -> & -> & ->)|]; split; done.
Qed.

(** ** AND, OR, NOT *)
Lemma select_props k v : btree_get k (sn_props (select node)) = Some v -> value_wf v.
Proof. destruct Hnode as [_ Hprops]. apply Hprops. Qed.
Definition keyed_short (n : t) : Prop := forall k, structural_key n = Some k -> short k.
Lemma sorted_dedup_matches children out :
  Forall nf_wf children -> Forall keyed_short children -> filter_children_sorted_dedup children = Some out ->
  Forall nf_wf out /\ forallb (fun c => matches c) out = forallb (fun c => matches c) children
  /\ existsb (fun c => matches c) out = existsb (fun c => matches c) children.
Proof.
  rewrite !Forall_forall. intros Hwf Hshort E. destruct (children_sorted_dedup_spec _ _ _ E) as [Hsub HP].
  split; [intros c Hc; by apply Hwf, Hsub|]. apply HP. intros a b k Ha Hb Ka Kb.
  apply (structural_key_determines (select node) select_props a b k); auto. by apply (Hshort a).
Qed.
Lemma sorted_dedup_total children : Forall nf_wf children -> is_Some (filter_children_sorted_dedup children).
Proof.
  intros Hwf. unfold filter_children_sorted_dedup, children_sorted_dedup.
  destruct (keyed_total structural_key children) as [l ->]; [|by eexists]. eapply Forall_impl; [exact Hwf|]. apply structural_key_total.
Qed.

Lemma matches_demand c : matches c = true -> holds (fun k => btree_get k (nr_props node)) (demand c) = true.
Proof. by destruct c. Qed.
Lemma demand_Equals c k v : demand c = Equals k v -> c = PropertyEquals k v.
Proof. destruct c; cbn; try done. by intros [= -> ->]. Qed.
Lemma nf_demand c : nf_wf c -> demand_wf (demand c).
Proof. destruct c; cbn; try done. by intros (? & _). Qed.
Lemma retained_matches eqs children :
  (forall k v, eqs !! k = Some v -> PropertyEquals k v ∈ children) ->
  forallb (fun c => matches c) (base.filter (fun c => retained eqs c = true) children) = forallb (fun c => matches c) children.
Proof.
  intros Heqs. apply eq_iff_eq_true. rewrite !forallb_forall. split; intros Hall c Hc%list_elem_of_In.
  - destruct (retained eqs c) eqn:Er; [by apply Hall, list_elem_of_In, list_elem_of_filter|].
    destruct c; try done. cbn [retained] in Er. destruct (eqs !! key) as [v|] eqn:Ek; [|done].
    assert (matches (PropertyEquals key v) = true) as Hm by (apply Hall, list_elem_of_In, list_elem_of_filter; auto).
    cbn in *. by destruct (btree_get key (nr_props node)).
  - apply Hall, list_elem_of_In. by apply list_elem_of_filter in Hc as [_ Hc].
Qed.
Lemma normalized_and_correct flattened :
  Forall nf_wf flattened -> Forall keyed_short flattened ->
  exists r, normalize_normalized_and_filter flattened = Some r
  /\ forall n, r = Ok n -> nf_wf n /\ matches n = forallb (fun c => matches c) flattened.
Proof.
  intros Hwf Hshort. unfold normalize_normalized_and_filter.
  destruct (and_equalities (demand <$> flattened)) as [[eqs|]|e] eqn:Ea; [| |by eexists].
  - set (kept := base.filter _ _).
    assert (Forall nf_wf kept /\ Forall keyed_short kept) as [Wk Sk] by (rewrite !Forall_forall in *; split; intros c [_ Hc]%list_elem_of_filter; auto).
    destruct (sorted_dedup_total kept Wk) as [out Eo]. rewrite Eo. cbn [mbind option_bind]. eexists. split; [done|].
    intros n [= <-]. destruct (sorted_dedup_matches kept out Wk Sk Eo) as (Wo & Hm & _).
    assert (forallb (fun c => matches c) out = forallb (fun c => matches c) flattened) as Hall.
    { rewrite Hm. apply retained_matches. intros k v Hk. apply (and_equalities_among _ _ _ _ Ea) in Hk.
      apply list_elem_of_fmap in Hk as (c & Ec & Hc). by rewrite <- (demand_Equals c k v). }
    destruct out as [|c [|c' out]].
    + by split.
    + apply Forall_cons in Wo as [Wo _]. split; [exact Wo|]. rewrite <- Hall. cbn. by rewrite andb_true_r.
    + split; [by apply nf_wf_And|exact Hall].
  - eexists. split; [done|]. intros n [= <-]. split; [done|]. symmetry. apply not_true_is_false. intros Hall.
    destruct (and_equalities_sound (fun k => btree_get k (nr_props node)) select_props (demand <$> flattened) None) as [? ?]; [| |done|done].
    + rewrite Forall_fmap. eapply Forall_impl; [exact Hwf|]. apply nf_demand.
    + rewrite forallb_forall in *. intros d (c & -> & Hc)%list_elem_of_In%list_elem_of_fmap. apply matches_demand, Hall. by apply list_elem_of_In.
Qed.

(** The children of a nested filter have shorter keys. *)
Lemma children_short children : 
  (forall ks, children_keys children = Some ks -> short ks) -> Forall nf_wf children -> Forall keyed_short children.
Proof.
  induction children as [|c children IH]; [constructor|]. intros Hs [Hc Hw]%Forall_cons.
  assert (is_Some (children_keys children)) as [ks Hks].
  { destruct (structural_key_total (And children)) as [k Hk]; [by apply nf_wf_And|]. rewrite structural_key_And in Hk.
    by destruct (children_keys children). }
  cbn [children_keys] in Hs. destruct (structural_key_total c Hc) as [kc Hkc]. rewrite Hkc, Hks in Hs. cbn [mbind option_bind] in Hs.
  specialize (Hs _ eq_refl). apply short_app in Hs as [Hs1%short_push Hs2]. constructor.
  - intros k Hk. rewrite Hkc in Hk. by injection Hk as <-.
  - apply IH; [|done]. intros ks' E. rewrite Hks in E. by injection E as <-.
Qed.
Lemma And_children_short children : nf_wf (And children) -> keyed_short (And children) -> Forall keyed_short children.
Proof.
  intros Hw%nf_wf_And Hs. apply children_short; [|done]. intros ks E.
  apply (short_cons (z2b 8)), Hs. by rewrite structural_key_And, E.
Qed.
Lemma Or_children_short children : nf_wf (Or children) -> keyed_short (Or children) -> Forall keyed_short children.
Proof.
  intros Hw%nf_wf_Or Hs. apply children_short; [|done]. intros ks E.
  apply (short_cons (z2b 9)), Hs. by rewrite structural_key_Or, E.
Qed.

(** What is known of a child that was normalized. *)
Definition child_ok (expr : E.t) : Prop :=
  exists r, normalize_node_filter_expr expr = Some r
  /\ forall n, r = Ok n -> correct expr n /\ keyed_short n.
Definition all_match (flattened : list t) : bool := forallb (fun c => matches c) flattened.
Definition any_match (flattened : list t) : bool := existsb (fun c => matches c) flattened.

Lemma flatten_and_correct children flattened :
  Forall child_ok children -> Forall nf_wf flattened -> Forall keyed_short flattened ->
  exists r, flatten_and normalize_node_filter_expr children flattened = Some r
  /\ forall o, r = Ok o ->
     let expected := all_match flattened && forallb (fun c => expr_matches c node) children in
     match o with
     | None => expected = false
     | Some out => Forall nf_wf out /\ Forall keyed_short out /\ all_match out = expected
     end.
Proof.
  intros Hok. revert flattened. induction Hok as [|c children (r & Er & Hc) _ IH]; intros flattened Hwf Hs; cbn [flatten_and forallb].
  - eexists. split; [done|]. intros o [= <-]. split; [done|]. split; [done|]. by rewrite andb_true_r.
  - rewrite Er. destruct r as [n|e]; cbn [and_then]; [|by eexists].
    destruct (Hc n eq_refl) as [[Wn Mn] Sn]. rewrite <- Mn.
    assert (forall more, Forall nf_wf more -> Forall keyed_short more -> all_match more = matches n ->
      exists r, flatten_and normalize_node_filter_expr children (flattened ++ more) = Some r
      /\ forall o, r = Ok o ->
         match o with
         | None => all_match flattened && (matches n && forallb (fun c => expr_matches c node) children) = false
         | Some out => Forall nf_wf out /\ Forall keyed_short out
             /\ all_match out = all_match flattened && (matches n && forallb (fun c => expr_matches c node) children)
         end) as Hmore.
    { intros more Wm Sm Em. destruct (IH (flattened ++ more)) as (r & -> & Hr); [by apply Forall_app|by apply Forall_app|].
      exists r. split; [done|]. intros o Eo. specialize (Hr o Eo). cbn zeta in Hr. unfold all_match in *.
      rewrite forallb_app, Em, <- andb_assoc in Hr. exact Hr. }
    destruct n; try (apply Hmore; [exact (Forall_cons_2 _ _ _ Wn (Forall_nil_2 _))|exact (Forall_cons_2 _ _ _ Sn (Forall_nil_2 _))|cbn; by rewrite andb_true_r]).
    + specialize (Hmore []). rewrite app_nil_r in Hmore. apply Hmore; [constructor..|done].
    + eexists. split; [done|]. intros o [= <-]. cbn. by rewrite andb_false_r.
    + apply Hmore; [by apply nf_wf_And|by apply And_children_short|done].
Qed.
Lemma flatten_or_correct children flattened :
  Forall child_ok children -> Forall nf_wf flattened -> Forall keyed_short flattened ->
  exists r, flatten_or normalize_node_filter_expr children flattened = Some r
  /\ forall o, r = Ok o ->
     let expected := any_match flattened || existsb (fun c => expr_matches c node) children in
     match o with
     | None => expected = true
     | Some out => Forall nf_wf out /\ Forall keyed_short out /\ any_match out = expected
     end.
Proof.
  intros Hok. revert flattened. induction Hok as [|c children (r & Er & Hc) _ IH]; intros flattened Hwf Hs; cbn [flatten_or existsb].
  - eexists. split; [done|]. intros o [= <-]. split; [done|]. split; [done|]. by rewrite orb_false_r.
  - rewrite Er. destruct r as [n|e]; cbn [and_then]; [|by eexists].
    destruct (Hc n eq_refl) as [[Wn Mn] Sn]. rewrite <- Mn.
    assert (forall more, Forall nf_wf more -> Forall keyed_short more -> any_match more = matches n ->
      exists r, flatten_or normalize_node_filter_expr children (flattened ++ more) = Some r
      /\ forall o, r = Ok o ->
         match o with
         | None => any_match flattened || (matches n || existsb (fun c => expr_matches c node) children) = true
         | Some out => Forall nf_wf out /\ Forall keyed_short out
             /\ any_match out = any_match flattened || (matches n || existsb (fun c => expr_matches c node) children)
         end) as Hmore.
    { intros more Wm Sm Em. destruct (IH (flattened ++ more)) as (r & -> & Hr); [by apply Forall_app|by apply Forall_app|].
      exists r. split; [done|]. intros o Eo. specialize (Hr o Eo). cbn zeta in Hr. unfold any_match in *.
      rewrite existsb_app, Em, <- orb_assoc in Hr. exact Hr. }
    destruct n; try (apply Hmore; [exact (Forall_cons_2 _ _ _ Wn (Forall_nil_2 _))|exact (Forall_cons_2 _ _ _ Sn (Forall_nil_2 _))|cbn; by rewrite orb_false_r]).
    + eexists. split; [done|]. intros o [= <-]. cbn. by rewrite orb_true_r.
    + specialize (Hmore []). rewrite app_nil_r in Hmore. apply Hmore; [constructor..|done].
    + apply Hmore; [by apply nf_wf_Or|by apply Or_children_short|done].
Qed.

Lemma negate_correct n : nf_wf n -> nf_wf (negate n) /\ matches (negate n) = negb (matches n).
Proof. destruct n; cbn; intros Hw; split; try done; by rewrite negb_involutive. Qed.

Lemma normalize_correct expr :
  expr_wf expr -> keys_fit expr ->
  exists r, normalize_node_filter_expr expr = Some r /\ forall n, r = Ok n -> correct expr n.
Proof.
  assert (forall children, 
    Forall (fun expr => expr_wf expr -> keys_fit expr -> exists r, normalize_node_filter_expr expr = Some r /\ forall n, r = Ok n -> correct expr n) children ->
    expr_wf (E.And children) -> keys_fit (E.And children) -> Forall child_ok children) as Hchildren.
  { intros children Hall. cbn. induction Hall as [|c children Hc _ IH]; [constructor|]. intros [Wc Wall] [[Fc Sc] Fall].
    constructor; [|by apply IH]. destruct (Hc Wc Fc) as (r & Er & Hr). exists r. split; [done|].
    intros n ->. split; [by apply Hr|]. intros k Hk. by apply (Sc n k). }
  revert expr. apply (expr_ind (fun expr => expr_wf expr -> keys_fit expr ->
    exists r, normalize_node_filter_expr expr = Some r /\ forall n, r = Ok n -> correct expr n)).
  - intros children Hall Hwf Hfit. pose proof (Hchildren children Hall Hwf Hfit) as Hok.
    change (normalize_node_filter_expr (E.And children)) with (normalize_and_filter normalize_node_filter_expr children).
    unfold normalize_and_filter. destruct children as [|c0 children0]; [by eexists|]. set (children := c0 :: children0) in *.
    destruct (flatten_and_correct children [] Hok) as (r & -> & Hr); [constructor..|]. destruct r as [o|e]; cbn [and_then]; [|by eexists].
    specialize (Hr o eq_refl). cbn zeta in Hr. destruct o as [out|].
    + destruct Hr as (Wo & So & Mo). destruct (normalized_and_correct out Wo So) as (r & -> & Hr). exists r. split; [done|].
      intros n E. destruct (Hr n E) as [Wn Mn]. split; [done|]. rewrite Mn. exact Mo.
    + eexists. split; [done|]. intros n [= <-]. by split.
  - intros children Hall Hwf Hfit. pose proof (Hchildren children Hall Hwf Hfit) as Hok.
    change (normalize_node_filter_expr (E.Or children)) with (normalize_or_filter normalize_node_filter_expr children).
    unfold normalize_or_filter. destruct children as [|c0 children0]; [by eexists|]. set (children := c0 :: children0) in *.
    destruct (flatten_or_correct children [] Hok) as (r & -> & Hr); [constructor..|]. destruct r as [o|e]; cbn [and_then]; [|by eexists].
    specialize (Hr o eq_refl). cbn zeta in Hr. destruct o as [out|].
    + destruct Hr as (Wo & So & Mo). destruct (sorted_dedup_total out Wo) as [l El]. rewrite El. cbn [mbind option_bind].
      destruct (sorted_dedup_matches out l Wo So El) as (Wl & _ & Ml). eexists. split; [done|]. intros n [= <-].
      assert (existsb (fun c => matches c) l = expr_matches (E.Or children) node) as Hor by (rewrite Ml; exact Mo).
      destruct l as [|c [|c' l]].
      * by split.
      * apply Forall_cons in Wl as [Wl _]. split; [exact Wl|]. rewrite <- Hor. cbn. by rewrite orb_false_r.
      * split; [by apply nf_wf_Or|done].
    + eexists. split; [done|]. intros n [= <-]. by split.
  - intros child IH Hwf Hfit. destruct (IH Hwf Hfit) as (r & Er & Hr).
    change (normalize_node_filter_expr (E.Not child)) with
      (and_then (normalize_node_filter_expr child) (fun normalized => Some (Ok (negate normalized)))).
    rewrite Er. destruct r as [n|e]; cbn [and_then]; [|by eexists]. eexists. split; [done|]. intros n' [= <-].
    destruct (Hr n eq_refl) as [Wn Mn]. destruct (negate_correct n Wn) as [Wn' Mn']. split; [done|]. by rewrite Mn', Mn.
  - intros expr. destruct expr; try done; intros Hwf _; eexists; (split; [reflexivity|]); intros n E;
      (apply normalize_leaf_correct; [done|exact Hwf|exact E]).
Qed.
End Normalize.

(** ** What the evaluation reads *)
Section Reads.
Context `{RmpValue}.

(** The metadata decides only what is so. *)
Lemma metadata_outcome_sound selected f b :
  node_filter_metadata_outcome f (sn_meta selected) = Some b -> node_filter_projected_matches f selected = b.
Proof.
  revert b. revert f. apply (normalized_ind (fun f => forall b, node_filter_metadata_outcome f (sn_meta selected) = Some b ->
    node_filter_projected_matches f selected = b)).
  - intros children Hall b. cbn [node_filter_metadata_outcome node_filter_projected_matches]. by apply and_outcome_sound.
  - intros children Hall b. cbn [node_filter_metadata_outcome node_filter_projected_matches]. by apply or_outcome_sound.
  - intros f IH b. cbn. destruct (node_filter_metadata_outcome f _) as [b'|]; [|done]. intros [= <-]. by rewrite (IH b').
  - intros f. destruct f; try done; by intros b [= <-].
Qed.

Lemma collect_incl f keys k : k ∈ keys -> k ∈ collect_node_filter_property_keys f keys.
Proof.
  revert f keys. apply (normalized_ind (fun f => forall keys, k ∈ keys -> k ∈ collect_node_filter_property_keys f keys)).
  - intros children Hall. cbn. induction Hall as [|c children Hc _ IH]; cbn; auto.
  - intros children Hall. cbn. induction Hall as [|c children Hc _ IH]; cbn; auto.
  - intros f IH. exact IH.
  - intros f. destruct f; try done; intros keys Hk; cbn; by destruct (existsb _ keys); [|apply elem_of_app; left].
Qed.
Lemma push_key_elem (key : str) keys :
  key ∈ (if existsb (fun existing => bool_decide (existing = key)) keys then keys else keys ++ [key]).
Proof.
  destruct (existsb _ keys) eqn:E; [|apply elem_of_app; right; left].
  apply existsb_exists in E as (k & Hk & ->%bool_decide_eq_true). by apply list_elem_of_In.
Qed.

(** Two selections that agree on what a filter needs. *)
Definition agree (f : t) (a b : SelectedNodeFields) : Prop :=
  sn_meta a = sn_meta b
  /\ (node_filter_needs_key f = true -> sn_key a = sn_key b)
  /\ (node_filter_needs_created_at f = true -> sn_created_at a = sn_created_at b).
Lemma agree_children children a b :
  sn_meta a = sn_meta b -> (existsb node_filter_needs_key children = true -> sn_key a = sn_key b) ->
  (existsb node_filter_needs_created_at children = true -> sn_created_at a = sn_created_at b) ->
  Forall (fun c => agree c a b) children.
Proof.
  intros Hm Hk Hc. apply Forall_forall. intros c Hin%list_elem_of_In. split; [done|]. split; intros E.
  - apply Hk, existsb_exists. eauto.
  - apply Hc, existsb_exists. eauto.
Qed.
Lemma collect_children (children : list t) keys k c :
  c ∈ children -> (forall keys, k ∈ collect_node_filter_property_keys c keys) ->
  k ∈ foldl (fun keys child => collect_node_filter_property_keys child keys) keys children.
Proof.
  intros Hin Hk. revert keys. induction children as [|c' children IH]; [by apply elem_of_nil in Hin|]. intros keys. cbn.
  apply elem_of_cons in Hin as [<-|Hin]; [|by apply IH]. specialize (Hk keys). revert Hk. generalize (collect_node_filter_property_keys c keys).
  clear. induction children as [|c' children IH]; intros keys Hk; [done|]. cbn. apply IH. by apply collect_incl.
Qed.
Lemma agree_matches f a b :
  agree f a b ->
  (forall k, (forall keys, k ∈ collect_node_filter_property_keys f keys) -> btree_get k (sn_props a) = btree_get k (sn_props b)) ->
  node_filter_projected_matches f a = node_filter_projected_matches f b.
Proof.
  revert f. apply (normalized_ind (fun f => agree f a b ->
    (forall k, (forall keys, k ∈ collect_node_filter_property_keys f keys) -> btree_get k (sn_props a) = btree_get k (sn_props b)) ->
    node_filter_projected_matches f a = node_filter_projected_matches f b)).
  - intros children Hall (Hm & Hk & Hc) Hp. pose proof (agree_children _ _ _ Hm Hk Hc) as Hagree.
    assert (forall c, c ∈ children -> node_filter_projected_matches c a = node_filter_projected_matches c b) as Hin.
    { rewrite Forall_forall in Hall, Hagree. intros c Hc'. apply Hall; [done|by apply Hagree|].
      intros k Hk'. apply Hp. intros keys. cbn. by apply (collect_children children keys k c). }
    cbn. apply eq_iff_eq_true. rewrite !forallb_forall. setoid_rewrite <- list_elem_of_In.
    split; intros Hx c Hc'; [rewrite <- Hin by done|rewrite Hin by done]; auto.
  - intros children Hall (Hm & Hk & Hc) Hp. pose proof (agree_children _ _ _ Hm Hk Hc) as Hagree.
    assert (forall c, c ∈ children -> node_filter_projected_matches c a = node_filter_projected_matches c b) as Hin.
    { rewrite Forall_forall in Hall, Hagree. intros c Hc'. apply Hall; [done|by apply Hagree|].
      intros k Hk'. apply Hp. intros keys. cbn. by apply (collect_children children keys k c). }
    cbn. apply eq_iff_eq_true. rewrite !existsb_exists. setoid_rewrite <- list_elem_of_In.
    split; intros (c & Hc' & E); exists c; (split; [done|]); [rewrite <- Hin by done|rewrite Hin by done]; auto.
  - intros f IH (Hm & Hk & Hc) Hp. cbn. f_equal. by apply IH.
  - intros f. destruct f; try done; intros (Hm & Hk & Hc) Hp; cbn in *; rewrite ?Hm, ?Hk, ?Hc by done; try done;
      rewrite ?(Hp key) by (intros; apply push_key_elem); done.
Qed.
End Reads.

(** ** Guarantees *)
Section Guarantee.
Context `{RmpValueLaws}.
Definition blank_node : NodeRecord := mkNodeRecord 0 (NodeLabels.mk [1]) [] [] 0 0 0 None None 0.
Lemma blank_node_wf : node_wf blank_node.
Proof. split; [unfold i64; cbn; lia|by intros k v]. Qed.

(** C15.  Normalizing a filter never panics and keeps what the filter means:
    flattening, sorting by structural keys, removing repeated children, folding
    contradictions and negations change no answer.  The normalized filter gives
    the answer of the expression on the whole record, on any selection of
    fields that has those it asks for, and on the metadata alone whenever the
    metadata decides. *)
Theorem filter_normalization_exact expr :
  expr_wf expr -> keys_fit expr ->
  exists r, normalize_node_filter_expr expr = Some r /\ forall filter, r = Ok filter ->
    forall node, node_wf node ->
      (forall b, node_filter_metadata_outcome filter (sn_meta (select node)) = Some b -> expr_matches expr node = b)
      /\ forall fields,
           agree filter fields (select node) ->
           (forall key, key ∈ collect_node_filter_property_keys filter [] ->
              btree_get key (sn_props fields) = btree_get key (nr_props node)) ->
           node_filter_projected_matches filter fields = expr_matches expr node.
Proof.
  intros Hw Hfit. destruct (normalize_correct blank_node blank_node_wf expr Hw Hfit) as (r & Er & _).
  exists r. split; [done|]. intros filter -> node Hnode. destruct (normalize_correct node Hnode expr Hw Hfit) as (r' & Er' & Hr').
  rewrite Er in Er'. apply (inj Some) in Er' as <-. destruct (Hr' filter eq_refl) as [_ Hm]. rewrite <- Hm. split.
  - intros b Hb. by apply metadata_outcome_sound.
  - intros fields Ha Hp. apply agree_matches; [done|]. intros k Hk. apply Hp, Hk.
Qed.
End Guarantee.
End NodeFilterFacts.
