(* ===== verification/EdgeMetadata.v ===== *)
(** Edge metadata indexes (src/src/edge_metadata.rs): the order-preserving
    32-bit key of an edge weight, the index rows of an edge and the bound tests. *)
From S2P Require Import Prelude Types Floats.

(** [weight_key & (1 << 31)] decides the branch; [!bits] is the complement. *)
Definition encode_edge_weight_key (weight : Z) : option Z :=
  if is_nan F32 weight then None
  else
    let bits := if is_zero F32 weight then 0 else weight in
    Some (if negb (Z.land bits (2 ^ 31) =? 0) then 2 ^ 32 - 1 - bits else Z.lxor bits (2 ^ 31)).

Record EdgeMetadataIndexEntries : Type := mkEntries {
  em_weight : list (Z * Z * Z);
  em_updated_at : list (Z * Z * Z);
  em_valid_from : list (Z * Z * Z);
  em_valid_to : list (Z * Z * Z)
}.
Definition no_entries : EdgeMetadataIndexEntries := mkEntries [] [] [] [].

Definition push (es : EdgeMetadataIndexEntries) (label_id updated_at weight valid_from valid_to edge_id : Z)
    : EdgeMetadataIndexEntries :=
  mkEntries
    (match encode_edge_weight_key weight with
     | Some weight_key => em_weight es ++ [(label_id, weight_key, edge_id)]
     | None => em_weight es
     end)
    (em_updated_at es ++ [(label_id, updated_at, edge_id)])
    (em_valid_from es ++ [(label_id, valid_from, edge_id)])
    (em_valid_to es ++ [(label_id, valid_to, edge_id)]).

(** The tuple order of [sort_unstable]. *)
Definition triple_le (a b : Z * Z * Z) : Prop :=
  let '(a1, a2, a3) := a in
  let '(b1, b2, b3) := b in
  a1 < b1 \/ (a1 = b1 /\ (a2 < b2 \/ (a2 = b2 /\ a3 <= b3))).
#[export] Instance triple_le_dec a b : Decision (triple_le a b).
Proof. destruct a as [[? ?] ?], b as [[? ?] ?]. unfold triple_le. apply _. Defined.
#[export] Instance triple_le_trans : Transitive triple_le.
Proof. intros [[? ?] ?] [[? ?] ?] [[? ?] ?]. unfold triple_le. lia. Qed.
#[export] Instance triple_le_total : Total triple_le.
Proof. intros [[? ?] ?] [[? ?] ?]. unfold triple_le. lia. Qed.
#[export] Instance triple_le_antisymm : AntiSymm (=) triple_le.
Proof.
  intros [[a1 a2] a3] [[b1 b2] b3]. unfold triple_le. intros.
  assert (a1 = b1 /\ a2 = b2 /\ a3 = b3) as (-> & -> & ->) by lia. done.
Qed.

Definition sort_all (es : EdgeMetadataIndexEntries) : EdgeMetadataIndexEntries :=
  mkEntries (merge_sort triple_le (em_weight es)) (merge_sort triple_le (em_updated_at es))
    (merge_sort triple_le (em_valid_from es)) (merge_sort triple_le (em_valid_to es)).

Record EdgeMetadataCandidate : Type := mkCandidate {
  ec_edge_id : Z; ec_from : Z; ec_to : Z; ec_label_id : Z;
  ec_updated_at : Z; ec_weight : Z; ec_valid_from : Z; ec_valid_to : Z
}.
Definition from_edge (e : EdgeRecord) : EdgeMetadataCandidate :=
  mkCandidate (er_id e) (er_from e) (er_to e) (er_label_id e) (er_updated_at e) (er_weight e)
    (er_valid_from e) (er_valid_to e).

Record RangeBoundFlags (T : Type) : Type := mkBounds {
  rb_lower : option T;
  rb_lower_inclusive : bool;
  rb_upper : option T;
  rb_upper_inclusive : bool
}.
Arguments mkBounds {T}. Arguments rb_lower {T}. Arguments rb_lower_inclusive {T}.
Arguments rb_upper {T}. Arguments rb_upper_inclusive {T}.

Definition inclusive {T} (lower upper : option T) : RangeBoundFlags T := mkBounds lower true upper true.

Definition i64_matches_bounds (value : Z) (bounds : RangeBoundFlags Z) : bool :=
  match rb_lower bounds with
  | Some lower => if rb_lower_inclusive bounds then negb (value <? lower) else negb (value <=? lower)
  | None => true
  end
  && match rb_upper bounds with
     | Some upper => if rb_upper_inclusive bounds then negb (upper <? value) else negb (upper <=? value)
     | None => true
     end.

Definition weight_matches_bounds (weight : Z) (bounds : RangeBoundFlags Z) : bool :=
  if is_nan F32 weight then false
  else
    match rb_lower bounds with
    | Some lower =>
        if rb_lower_inclusive bounds then negb (flt F32 weight lower) else negb (fle F32 weight lower)
    | None => true
    end
    && match rb_upper bounds with
       | Some upper =>
           if rb_upper_inclusive bounds then negb (flt F32 upper weight) else negb (fle F32 upper weight)
       | None => true
       end.

(** ** The key of a weight *)
Definition f32 (bits : Z) : Prop := u32 bits.

Lemma f32_sign bits : f32 bits -> negb (Z.land bits (2 ^ 31) =? 0) = (2 ^ 31 <=? bits).
Proof.
  unfold f32, u32. intros Hb. destruct (Z.leb_spec (2 ^ 31) bits) as [H|H].
  - apply negb_true_iff, Z.eqb_neq. intros E. apply (f_equal (fun x => Z.testbit x 31)) in E.
    replace bits with (2 ^ 31 + (bits - 2 ^ 31)) in E by lia.
    rewrite <- lor_pow2_add in E by lia.
    by rewrite Z.land_spec, Z.lor_spec, Z.pow2_bits_true, Z.bits_0 in E by lia.
  - apply negb_false_iff, Z.eqb_eq. apply Z.bits_inj'. intros i Hi.
    rewrite Z.land_spec, Z.bits_0, Z.pow2_bits_eqb by lia.
    destruct (Z.eqb_spec 31 i) as [<-|]; [|by rewrite andb_false_r].
    by rewrite (proj1 (Z.bounded_iff_bits_nonneg' 31 bits ltac:(lia) ltac:(lia))) by lia.
Qed.

(** The key: positives above 2^31, negatives mirrored below. *)
Lemma weight_key_eq w :
  f32 w -> is_nan F32 w = false ->
  encode_edge_weight_key w =
    Some (2 ^ 31 + signed_magnitude F32 w - (if signed_magnitude F32 w <? 0 then 1 else 0)).
Proof.
  intros Hw Hn. unfold encode_edge_weight_key. rewrite Hn. f_equal.
  pose proof (sign_magnitude F32 F32_wf w Hw) as Hs. unfold is_zero, signed_magnitude.
  pose proof (magnitude_range F32 F32_wf w) as Hm. cbn [mb eb F32] in *. change (23 + 8) with 31 in *.
  destruct (Z.eqb_spec (magnitude F32 w) 0) as [E|E]; cbn [negb].
  - rewrite E. by destruct (sign_bit F32 w).
  - rewrite f32_sign by done. unfold f32, u32 in *. destruct (sign_bit F32 w).
    + destruct (Z.leb_spec (2 ^ 31) w), (Z.ltb_spec (- magnitude F32 w) 0); lia.
    + destruct (Z.leb_spec (2 ^ 31) w), (Z.ltb_spec (magnitude F32 w) 0); try lia.
      rewrite lxor_top, Z.mod_small by lia. lia.
Qed.

(** Edge weight keys keep the order.  Every weight except NaN has a
    32-bit key, NaN has none, and keys compare exactly as the weights do as
    IEEE floats: the two zeros share a key and infinities are at the ends. *)
Theorem edge_weight_key_order a b :
  f32 a -> f32 b ->
  (encode_edge_weight_key a = None <-> is_nan F32 a = true)
  /\ forall x y, encode_edge_weight_key a = Some x -> encode_edge_weight_key b = Some y ->
     u32 x /\ u32 y /\ partial_cmp F32 a b = Some (x ?= y).
Proof.
  intros Ha Hb. split.
  { unfold encode_edge_weight_key. by destruct (is_nan F32 a). }
  intros x y Hx Hy.
  destruct (is_nan F32 a) eqn:Na; [unfold encode_edge_weight_key in Hx; by rewrite Na in Hx|].
  destruct (is_nan F32 b) eqn:Nb; [unfold encode_edge_weight_key in Hy; by rewrite Nb in Hy|].
  rewrite weight_key_eq in Hx, Hy by done. injection Hx as <-. injection Hy as <-.
  unfold partial_cmp. rewrite Na, Nb, (scaled_compare F32 F32_wf). cbn [orb].
  assert (forall w, - 2 ^ 31 < signed_magnitude F32 w < 2 ^ 31) as Hr.
  { intros w. pose proof (magnitude_range F32 F32_wf w) as M. cbn [mb eb F32] in M.
    change (23 + 8) with 31 in M. unfold signed_magnitude. destruct (sign_bit F32 w); lia. }
  pose proof (Hr a). pose proof (Hr b). unfold u32.
  destruct (Z.ltb_spec (signed_magnitude F32 a) 0), (Z.ltb_spec (signed_magnitude F32 b) 0);
    (split; [lia|]); (split; [lia|]); f_equal; apply compare_ext; lia.
Qed.

(** [push] records an edge under its keys, [sort_all] orders the rows. *)
Lemma sort_all_sorted es :
  StronglySorted triple_le (em_weight (sort_all es)) /\ em_weight (sort_all es) ≡ₚ em_weight es.
Proof. split; [apply StronglySorted_merge_sort; apply _ | apply merge_sort_Permutation]. Qed.

Module EdgeMetadataWitness.
(** -0.5 < 2.0 *)
Lemma edge_weight_key_witness :
  partial_cmp F32 0xbf000000 0x40000000 = Some (0x40ffffff ?= 0xc0000000).
Proof.
  apply (proj2 (edge_weight_key_order 0xbf000000 0x40000000 ltac:(unfold f32, u32; lia)
                  ltac:(unfold f32, u32; lia)) 0x40ffffff 0xc0000000); vm_compute; reflexivity.
Defined.
End EdgeMetadataWitness.
