(* ===== verification/CompoundKey.v ===== *)
(** Compound secondary index keys (src/src/secondary_index_key.rs): a tuple of
    field values becomes one byte string, a class byte, a length and a payload
    per field, so that byte order gives prefix and range scans. *)
From S2P Require Import Prelude Types Floats PropertyValue.

Definition MAX_SECONDARY_INDEX_FIELDS : Z := 8.
Definition MAX_COMPOUND_COMPONENT_BYTES : Z := 1024.
Definition MAX_COMPOUND_TUPLE_BYTES : Z := 4096.
Definition COMPOUND_EQUALITY_HASH_DOMAIN : list byte := str_of "compound-equality-component-v1".

Inductive CompoundComponentClass : Type :=
| CMissing | CNull | CBoolFalse | CBoolTrue | CNumeric | CString | CBytes | CEqualityHash.
#[export] Instance CompoundComponentClass_eq_dec : EqDecision CompoundComponentClass.
Proof. solve_decision. Defined.

Definition class_tag (c : CompoundComponentClass) : Z :=
  match c with
  | CMissing => 0x01 | CNull => 0x02 | CBoolFalse => 0x03 | CBoolTrue => 0x04
  | CNumeric => 0x10 | CString => 0x20 | CBytes => 0x30 | CEqualityHash => 0x40
  end.
Definition class_from_tag (tag : Z) : res CompoundComponentClass :=
  match tag with
  | 0x01 => Ok CMissing | 0x02 => Ok CNull | 0x03 => Ok CBoolFalse | 0x04 => Ok CBoolTrue
  | 0x10 => Ok CNumeric | 0x20 => Ok CString | 0x30 => Ok CBytes | 0x40 => Ok CEqualityHash
  | _ => Err (CorruptRecord "compound tuple component has invalid class")
  end.

Inductive CompoundSidecarTargetKind : Type := TNode | TEdge.
Definition target_kind_tag (k : CompoundSidecarTargetKind) : Z :=
  match k with TNode => 1 | TEdge => 2 end.

Inductive CompoundFieldSource : Type := SProperty | SNodeMetadata | SEdgeMetadata.
Definition field_source_tag (s : CompoundFieldSource) : Z :=
  match s with SProperty => 1 | SNodeMetadata => 2 | SEdgeMetadata => 3 end.
Definition field_source (f : SecondaryIndexFieldManifest) : CompoundFieldSource :=
  match f with
  | Property _ => SProperty | NodeMetadata _ => SNodeMetadata | EdgeMetadata _ => SEdgeMetadata
  end.
Definition canonical_field_name (f : SecondaryIndexFieldManifest) : str :=
  match f with
  | Property key => key
  | NodeMetadata f => node_metadata_index_field_name f
  | EdgeMetadata f => edge_metadata_index_field_name f
  end.

Inductive CompoundFieldValue : Type :=
| FProperty (v : option PropValue)
| FMetadataString (s : str)
| FMetadataI64 (z : Z)
| FMetadataU64 (z : Z)
| FMetadataF64 (bits : Z).

Record CompoundTupleContext : Type := mkContext {
  cx_target_kind : CompoundSidecarTargetKind;
  cx_target_label_id : Z;
  cx_fields : list SecondaryIndexFieldManifest
}.

Record ComponentEncoding : Type := mkComponent {
  ce_bytes : list byte;
  ce_hashable_variable_len : option Z
}.

Definition unavailable {A} : res A :=
  Err (InvalidOperation "compound secondary index unavailable").

Definition validate_field_count (n : Z) : res unit :=
  if (1 <=? n) && (n <=? MAX_SECONDARY_INDEX_FIELDS) then Ok tt else unavailable.

Definition validate_value_matches_field (field : SecondaryIndexFieldManifest)
    (value : CompoundFieldValue) : res unit :=
  let valid :=
    match field, value with
    | Property _, FProperty _
    | NodeMetadata NId, FMetadataU64 _
    | NodeMetadata NKey, FMetadataString _
    | NodeMetadata NWeight, FMetadataF64 _
    | NodeMetadata NCreatedAt, FMetadataI64 _
    | NodeMetadata NUpdatedAt, FMetadataI64 _
    | EdgeMetadata EId, FMetadataU64 _
    | EdgeMetadata EFrom, FMetadataU64 _
    | EdgeMetadata ETo, FMetadataU64 _
    | EdgeMetadata EWeight, FMetadataF64 _
    | EdgeMetadata ECreatedAt, FMetadataI64 _
    | EdgeMetadata EUpdatedAt, FMetadataI64 _
    | EdgeMetadata EValidFrom, FMetadataI64 _
    | EdgeMetadata EValidTo, FMetadataI64 _ => true
    | _, _ => false
    end in
  if valid then Ok tt else unavailable.

(** [emit_component]: class byte, big-endian u16 length, payload. *)
Definition emit_component (class : CompoundComponentClass) (payload : list byte) : res (list byte) :=
  if 65535 <? len payload then unavailable
  else Ok (z2b (class_tag class) :: be_bytes 2 (len payload) ++ payload).

Definition put_len_prefixed (bytes : list byte) : list byte := le_bytes 8 (len bytes) ++ bytes.

Section Encode.
Context `{RmpValue}.

Definition metadata_semantic_equality_bytes (value : CompoundFieldValue) : list byte :=
  match value with
  | FMetadataString s => semantic_equality_key_bytes (PString s)
  | FMetadataI64 z => semantic_equality_key_bytes (PInt z)
  | FMetadataU64 z => semantic_equality_key_bytes (PUInt z)
  | FMetadataF64 bits => semantic_equality_key_bytes (PFloat bits)
  | FProperty _ => []  (* unreachable! *)
  end.

Definition equality_hash_payload (context : CompoundTupleContext) (ordinal : Z)
    (field : SecondaryIndexFieldManifest) (semantic_bytes : list byte) : list byte :=
  let bytes :=
    COMPOUND_EQUALITY_HASH_DOMAIN
    ++ [z2b (target_kind_tag (cx_target_kind context))]
    ++ le_bytes 4 (cx_target_label_id context)
    ++ le_bytes 2 (len (cx_fields context))
    ++ le_bytes 2 ordinal
    ++ [z2b (field_source_tag (field_source field))]
    ++ put_len_prefixed (canonical_field_name field)
    ++ le_bytes 8 (hash_semantic_equality_key_bytes semantic_bytes)
    ++ put_len_prefixed semantic_bytes in
  le_bytes 8 (fnv1a bytes).

Definition fixed (class : CompoundComponentClass) (payload : list byte) : res ComponentEncoding :=
  bytes ← emit_component class payload; Ok (mkComponent bytes None).

Definition hashed (context : CompoundTupleContext) (ordinal : Z)
    (field : SecondaryIndexFieldManifest) (semantic_bytes : list byte) : res ComponentEncoding :=
  fixed CEqualityHash (equality_hash_payload context ordinal field semantic_bytes).

(** A string or byte component: hashed when long or when told to. *)
Definition variable (context : CompoundTupleContext) (ordinal : Z)
    (field : SecondaryIndexFieldManifest) (class : CompoundComponentClass) (payload : list byte)
    (semantic_bytes : list byte) (force_hash : bool) : res ComponentEncoding :=
  if (MAX_COMPOUND_COMPONENT_BYTES <? len payload) || force_hash then
    hashed context ordinal field semantic_bytes
  else
    bytes ← emit_component class payload; Ok (mkComponent bytes (Some (len payload))).

Definition numeric_or_hashed (context : CompoundTupleContext) (ordinal : Z)
    (field : SecondaryIndexFieldManifest) (value : PropValue) : res ComponentEncoding :=
  match numeric_range_sort_key_for_value value with
  | Some key => fixed CNumeric key
  | None => hashed context ordinal field (semantic_equality_key_bytes value)
  end.

Definition encode_property_component (context : CompoundTupleContext) (ordinal : Z)
    (field : SecondaryIndexFieldManifest) (value : PropValue) (force_hash : bool)
    : res ComponentEncoding :=
  match value with
  | PNull => fixed CNull []
  | PBool false => fixed CBoolFalse []
  | PBool true => fixed CBoolTrue []
  | PInt _ | PUInt _ | PFloat _ => numeric_or_hashed context ordinal field value
  | PString s =>
      variable context ordinal field CString s (semantic_equality_key_bytes value) force_hash
  | PBytes b =>
      variable context ordinal field CBytes b (semantic_equality_key_bytes value) force_hash
  | PArray _ | PMap _ => hashed context ordinal field (semantic_equality_key_bytes value)
  end.

Definition encode_component (context : CompoundTupleContext) (ordinal : Z)
    (field : SecondaryIndexFieldManifest) (value : CompoundFieldValue) (force_hash : bool)
    : res ComponentEncoding :=
  _ ← validate_value_matches_field field value;
  match value with
  | FProperty None => fixed CMissing []
  | FProperty (Some value) => encode_property_component context ordinal field value force_hash
  | FMetadataString s =>
      variable context ordinal field CString s (metadata_semantic_equality_bytes value) force_hash
  | FMetadataI64 z => numeric_or_hashed context ordinal field (PInt z)
  | FMetadataU64 z => numeric_or_hashed context ordinal field (PUInt z)
  | FMetadataF64 bits => numeric_or_hashed context ordinal field (PFloat bits)
  end.

(** One pass over the fields and values zipped with the force flags. *)
Fixpoint encode_all (context : CompoundTupleContext) (ordinal : Z)
    (fields : list SecondaryIndexFieldManifest) (values : list CompoundFieldValue)
    (force_hash : list bool) : res (list ComponentEncoding) :=
  match fields, values, force_hash with
  | field :: fields, value :: values, force :: force_hash =>
      c ← encode_component context ordinal field value force;
      cs ← encode_all context (ordinal + 1) fields values force_hash;
      Ok (c :: cs)
  | _, _, _ => Ok []
  end.

(** The longest component still in clear, the last one among equals
    ([max_by_key]), with its length. *)
Fixpoint longest_unforced (ordinal : nat) (encoded : list ComponentEncoding)
    (force_hash : list bool) : option (nat * Z) :=
  match encoded, force_hash with
  | c :: encoded, force :: force_hash =>
      let rest := longest_unforced (S ordinal) encoded force_hash in
      match ce_hashable_variable_len c, force with
      | Some l, false =>
          match rest with
          | Some (o, l') => if l' <? l then Some (ordinal, l) else Some (o, l')
          | None => Some (ordinal, l)
          end
      | _, _ => rest
      end
  | _, _ => None
  end.

Definition total_len (encoded : list ComponentEncoding) : Z :=
  len (mjoin (ce_bytes <$> encoded)).

Fixpoint encode_loop (fuel : nat) (context : CompoundTupleContext)
    (values : list CompoundFieldValue) (force_hash : list bool) : res (list byte) :=
  match fuel with
  | O => unavailable
  | S fuel =>
      encoded ← encode_all context 0 (cx_fields context) values force_hash;
      if total_len encoded <=? MAX_COMPOUND_TUPLE_BYTES then Ok (mjoin (ce_bytes <$> encoded))
      else
        match longest_unforced 0 encoded force_hash with
        | None => unavailable
        | Some (ordinal, _) => encode_loop fuel context values (<[ordinal := true]> force_hash)
        end
  end.

(** Every round forces one more value, so one round per value and a last one
    are enough. *)
Definition encode_compound_components (context : CompoundTupleContext)
    (values : list CompoundFieldValue) : res (list byte) :=
  _ ← validate_field_count (len (cx_fields context));
  encode_loop (S (length values)) context values (replicate (length values) false).

Definition encode_compound_tuple_key (context : CompoundTupleContext)
    (values : list CompoundFieldValue) : res (list byte) :=
  if negb (length values =? length (cx_fields context))%nat then unavailable
  else encode_compound_components context values.

Definition encode_compound_tuple_prefix (context : CompoundTupleContext)
    (values : list CompoundFieldValue) : res (list byte) :=
  if (length (cx_fields context) <? length values)%nat then unavailable
  else encode_compound_components context values.

Definition encode_compound_field_component (context : CompoundTupleContext) (ordinal : nat)
    (value : CompoundFieldValue) : res (list byte) :=
  match cx_fields context !! ordinal with
  | None => unavailable
  | Some field =>
      c ← encode_component context (Z.of_nat ordinal) field value false; Ok (ce_bytes c)
  end.
End Encode.

(** ** Decoding *)
Record DecodedCompoundComponent : Type := mkDecoded {
  dc_class : CompoundComponentClass;
  dc_payload : list byte
}.

Definition component_class_compatible_with_field (class : CompoundComponentClass)
    (field : SecondaryIndexFieldManifest) : bool :=
  match field with
  | Property _ => true
  | NodeMetadata (NId | NCreatedAt | NUpdatedAt) => bool_decide (class = CNumeric)
  | NodeMetadata NKey => bool_decide (class = CString) || bool_decide (class = CEqualityHash)
  | NodeMetadata NWeight => bool_decide (class = CNumeric) || bool_decide (class = CEqualityHash)
  | EdgeMetadata EWeight => bool_decide (class = CNumeric) || bool_decide (class = CEqualityHash)
  | EdgeMetadata _ => bool_decide (class = CNumeric)
  end.

Definition corrupt {A} : res A := Err (CorruptRecord "corrupt compound sidecar").

Definition validate_component_payload_for_field (class : CompoundComponentClass)
    (payload : list byte) (field : SecondaryIndexFieldManifest) : res unit :=
  _ ← match class with
      | CMissing | CNull | CBoolFalse | CBoolTrue =>
          if negb (length payload =? 0)%nat then corrupt else Ok tt
      | CNumeric =>
          if negb (length payload =? NUMERIC_RANGE_KEY_BYTES)%nat then corrupt
          else match validate_numeric_range_sidecar_key payload with Ok _ => Ok tt | Err _ => corrupt end
      | CString =>
          if MAX_COMPOUND_COMPONENT_BYTES <? len payload then corrupt
          else if utf8_valid payload then Ok tt else corrupt
      | CBytes => if MAX_COMPOUND_COMPONENT_BYTES <? len payload then corrupt else Ok tt
      | CEqualityHash => if negb (length payload =? 8)%nat then corrupt else Ok tt
      end;
  if component_class_compatible_with_field class field then Ok tt else corrupt.

(** The loop over the fields; [data] is what is left from the offset on. *)
Fixpoint decode_components (data : list byte) (fields : list SecondaryIndexFieldManifest)
    : res (list DecodedCompoundComponent) :=
  match fields with
  | [] => if (length data =? 0)%nat then Ok [] else corrupt
  | field :: fields =>
      match split_at 3 data with
      | None => corrupt
      | Some (header, data) =>
          class ← class_from_tag (b2z (nth 0 header Byte.x00));
          let payload_len := be_val (drop 1 header) in
          match split_at (Z.to_nat payload_len) data with
          | None => corrupt
          | Some (payload, data) =>
              _ ← validate_component_payload_for_field class payload field;
              cs ← decode_components data fields;
              Ok (mkDecoded class payload :: cs)
          end
      end
  end.

Definition decode_compound_tuple_components (data : list byte)
    (fields : list SecondaryIndexFieldManifest) : res (list DecodedCompoundComponent) :=
  if (length fields =? 0)%nat || (MAX_SECONDARY_INDEX_FIELDS <? len fields) then corrupt
  else decode_components data fields.

(** ** Scan bounds *)
Record CompoundPrefixBounds : Type := mkPrefixBounds {
  pb_lower : list byte;
  pb_upper_exclusive : list byte
}.
Record CompoundLowerBound : Type := mkLowerBound {
  lb_key : list byte;
  lb_exclusive_component_prefix : bool
}.
Record CompoundRangeBounds : Type := mkRangeBounds {
  rg_lower : option CompoundLowerBound;
  rg_upper_exclusive : list byte
}.

Definition compound_prefix_bounds (encoded_prefix : list byte) : CompoundPrefixBounds :=
  mkPrefixBounds encoded_prefix (encoded_prefix ++ [z2b 0xff]).

Definition validate_numeric_range_bound_component (component : list byte) : res unit :=
  if negb (length component =? 3 + NUMERIC_RANGE_KEY_BYTES)%nat then unavailable
  else if negb (b2z (nth 0 component Byte.x00) =? class_tag CNumeric) then unavailable
  else if negb (be_val (slice 1 3 component) =? Z.of_nat NUMERIC_RANGE_KEY_BYTES) then unavailable
  else match validate_numeric_range_sidecar_key (drop 3 component) with
       | Ok _ => Ok tt
       | Err _ => unavailable
       end.

Definition compound_range_bounds (equality_prefix : list byte)
    (lower_component upper_component : option (list byte * bool)) : res CompoundRangeBounds :=
  lower ← match lower_component with
          | Some (component, inclusive) =>
              _ ← validate_numeric_range_bound_component component;
              Ok (mkLowerBound (equality_prefix ++ component) (negb inclusive))
          | None => Ok (mkLowerBound (equality_prefix ++ [z2b (class_tag CNumeric)]) false)
          end;
  upper_exclusive ← match upper_component with
          | Some (component, inclusive) =>
              _ ← validate_numeric_range_bound_component component;
              Ok (equality_prefix ++ component ++ (if inclusive then [z2b 0xff] else []))
          | None => Ok (equality_prefix ++ [z2b (class_tag CNumeric + 1)])
          end;
  Ok (mkRangeBounds (Some lower) upper_exclusive).

(** What a scan of the ordered keys between the bounds visits
    ([collect_visible_compound_ids] of src/src/memtable.rs and
    [scan_compound_key_range]). *)
Definition starts_with (prefix key : list byte) : bool := bool_decide (prefix `prefix_of` key).
Definition bytes_le (a b : list byte) : bool := bool_decide (bytes_cmp a b ≠ Gt).
Definition scan_visits (lower : option CompoundLowerBound) (upper_exclusive key : list byte) : bool :=
  match lower with
  | Some l =>
      bytes_le (lb_key l) key
      && negb (lb_exclusive_component_prefix l && starts_with (lb_key l) key)
  | None => true
  end
  && bool_decide (bytes_lt key upper_exclusive).
