(* ===== verification/CompoundKeyFacts.v ===== *)
(** Compound keys: encoding always succeeds within the size limit and decodes;
    prefix and range scans visit exactly the matching keys as long as the whole
    tuple fits; and a tuple that overflows is missed by every prefix scan that
    reaches its first hashed component and fits itself. *)
From S2P Require Import Prelude Types Floats PropertyValue PropertyValueFacts CompoundKey.

(** A field value of the field's type, with every value in its Rust type. *)
Definition value_ok (field : SecondaryIndexFieldManifest) (value : CompoundFieldValue) : Prop :=
  validate_value_matches_field field value = Ok tt
  /\ match value with
     | FProperty (Some v) => value_wf v
     | FProperty None => True
     | FMetadataString s => utf8_valid s = true
     | FMetadataI64 z => i64 z
     | FMetadataU64 z | FMetadataF64 z => u64 z
     end.

Definition comp_bytes (class : CompoundComponentClass) (payload : list byte) : list byte :=
  z2b (class_tag class) :: be_bytes 2 (len payload) ++ payload.

Lemma emit_component_Ok class payload :
  len payload <= 65535 -> emit_component class payload = Ok (comp_bytes class payload).
Proof. intros H. unfold emit_component. by destruct (Z.ltb_spec 65535 (len payload)); [lia|]. Qed.

Lemma length_comp_bytes class payload : len (comp_bytes class payload) = 3 + len payload.
Proof. unfold comp_bytes. cbn [length]. rewrite length_app, length_be_bytes. lia. Qed.

(** What a component is: the bytes of an acceptable class and payload. *)
Definition comp_ok (field : SecondaryIndexFieldManifest) (force : bool) (c : ComponentEncoding) : Prop :=
  exists class payload,
    ce_bytes c = comp_bytes class payload
    /\ validate_component_payload_for_field class payload field = Ok tt
    /\ len payload <= MAX_COMPOUND_COMPONENT_BYTES
    /\ match ce_hashable_variable_len c with
       | None => len payload <= 24
       | Some l => l = len payload /\ force = false
       end.

Section Encode.
Context `{RmpValue}.

Lemma length_equality_hash_payload cx o f sb : length (equality_hash_payload cx o f sb) = 8%nat.
Proof. unfold equality_hash_payload. apply length_le_bytes. Qed.

Lemma fixed_ok field force class payload :
  len payload <= 24 -> validate_component_payload_for_field class payload field = Ok tt ->
  exists c, fixed class payload = Ok c /\ comp_ok field force c.
Proof.
  intros Hl Hv. unfold fixed. rewrite emit_component_Ok by lia.
  eexists. split; [done|]. exists class, payload. cbn. unfold MAX_COMPOUND_COMPONENT_BYTES.
  split_and!; [done | done | lia | done].
Qed.

Lemma hashed_ok cx o field force sb :
  component_class_compatible_with_field CEqualityHash field = true ->
  exists c, hashed cx o field sb = Ok c /\ comp_ok field force c.
Proof.
  intros Hc. apply fixed_ok; [rewrite length_equality_hash_payload; lia|].
  unfold validate_component_payload_for_field. rewrite length_equality_hash_payload. cbn. by rewrite Hc.
Qed.

Lemma numeric_or_hashed_ok cx o field force v :
  value_wf v -> component_class_compatible_with_field CNumeric field = true ->
  (numeric_key v = None -> component_class_compatible_with_field CEqualityHash field = true) ->
  exists c, numeric_or_hashed cx o field v = Ok c /\ comp_ok field force c.
Proof.
  intros Hv Hn Hh. unfold numeric_or_hashed.
  destruct (numeric_range_sort_key_for_value v) as [k|] eqn:Hk.
  - assert (length k = NUMERIC_RANGE_KEY_BYTES) as Hl.
    { unfold numeric_range_sort_key_for_value in Hk. destruct (numeric_key v); [|done].
      injection Hk as <-. apply length_numeric_range_sort_key. }
    apply fixed_ok; [rewrite Hl; done|]. unfold validate_component_payload_for_field.
    rewrite Hl, (validate_sort_key v k Hv Hk). cbn. by rewrite Hn.
  - apply hashed_ok, Hh. unfold numeric_range_sort_key_for_value in Hk.
    by destruct (numeric_key v).
Qed.

Lemma variable_ok cx o field class payload sb force :
  (class = CString /\ utf8_valid payload = true) \/ class = CBytes ->
  component_class_compatible_with_field class field = true ->
  component_class_compatible_with_field CEqualityHash field = true ->
  exists c, variable cx o field class payload sb force = Ok c /\ comp_ok field force c.
Proof.
  intros Hcl Hc Hh. unfold variable, MAX_COMPOUND_COMPONENT_BYTES.
  destruct (Z.ltb_spec 1024 (len payload)); cbn [orb]; [by apply hashed_ok|].
  destruct force; [by apply hashed_ok|]. rewrite emit_component_Ok by lia.
  eexists. split; [done|]. exists class, payload. cbn. unfold MAX_COMPOUND_COMPONENT_BYTES.
  split_and!; [done | | lia | done | done]. unfold validate_component_payload_for_field, MAX_COMPOUND_COMPONENT_BYTES.
  destruct Hcl as [[-> Hu]| ->]; destruct (Z.ltb_spec 1024 (len payload)); try lia; rewrite ?Hu; cbn;
    by rewrite Hc.
Qed.

Lemma encode_component_ok cx o field value force :
  value_ok field value ->
  exists c, encode_component cx o field value force = Ok c /\ comp_ok field force c.
Proof.
  intros [Hm Hw]. unfold encode_component. rewrite Hm. cbn [mbind result_bind].
  destruct value as [[v|]|s|z|z|bits].
  - assert (forall class, component_class_compatible_with_field class field = true) as Hc.
    { destruct field; [done | by destruct field | by destruct field]. }
    unfold encode_property_component.
    destruct v as [|[]|z|z|bits|s|b|l|m]; try (apply fixed_ok; [done|]; cbn; by rewrite Hc);
      first [by apply numeric_or_hashed_ok | apply variable_ok; auto | by apply hashed_ok].
  - apply fixed_ok; [done|]. destruct field; [done | by destruct field | by destruct field].
  - assert (field = NodeMetadata NKey) as ->.
    { destruct field as [k|[]|[]]; done. }
    apply variable_ok; auto.
  - apply numeric_or_hashed_ok; [done | by destruct field as [k|[]|[]] | done].
  - apply numeric_or_hashed_ok; [done | by destruct field as [k|[]|[]] | done].
  - apply numeric_or_hashed_ok; [done | by destruct field as [k|[]|[]] |].
    intros _. by destruct field as [k|[]|[]].
Qed.

Lemma encode_all_ok cx o fields values force :
  Forall2 value_ok (take (length values) fields) values -> length force = length values ->
  exists cs, encode_all cx o fields values force = Ok cs
    /\ Forall2 (fun ff c => comp_ok (fst ff) (snd ff) c) (zip (take (length values) fields) force) cs.
Proof.
  revert o fields force. induction values as [|v values IH]; intros o fields force Hv Hf.
  { destruct force; [|done]. exists []. destruct fields; cbn; (split; [done | constructor]). }
  destruct force as [|f force]; [done|]. injection Hf as Hf.
  destruct fields as [|field fields]; cbn [take length] in *; [by apply Forall2_nil_inv_l in Hv|].
  apply Forall2_cons in Hv as [Hv Hvs].
  destruct (encode_component_ok cx o field v f Hv) as (c & Hc & Hok).
  destruct (IH (o + 1) fields force Hvs Hf) as (cs & Hcs & Hoks).
  exists (c :: cs). cbn [encode_all zip zip_with]. rewrite Hc. cbn. rewrite Hcs. cbn.
  split; [done | by constructor].
Qed.

(** ** The hashing loop *)
Fixpoint unforced (force : list bool) : nat :=
  match force with [] => 0 | f :: force => (if f then 0 else 1) + unforced force end.

Lemma unforced_set force o :
  force !! o = Some false -> unforced force = S (unforced (<[o := true]> force)).
Proof.
  revert o. induction force as [|f force IH]; intros [|o]; cbn; try done.
  - by intros [= ->].
  - intros Ho. change (<[S o:=true]> (f :: force)) with (f :: <[o:=true]> force).
    cbn [unforced]. rewrite (IH o Ho). by destruct f.
Qed.
Lemma unforced_replicate n : unforced (replicate n false) = n.
Proof. induction n; cbn; lia. Qed.

Lemma longest_unforced_spec start encoded force :
  match longest_unforced start encoded force with
  | Some (o, _) => exists i, o = (start + i)%nat /\ force !! i = Some false
  | None =>
      forall i c, encoded !! i = Some c -> force !! i = Some false -> ce_hashable_variable_len c = None
  end.
Proof.
  revert start force. induction encoded as [|c encoded IH]; intros start [|f force]; cbn; try done.
  specialize (IH (S start) force).
  assert (match longest_unforced (S start) encoded force with
          | Some (o, _) => exists i, o = (start + i)%nat /\ (f :: force) !! i = Some false
          | None => True end) as Hrest.
  { destruct (longest_unforced (S start) encoded force) as [[o l]|]; [|done].
    destruct IH as (i & -> & Hi). exists (S i). split; [lia | done]. }
  destruct (ce_hashable_variable_len c) as [l|] eqn:Hc, f.
  - destruct (longest_unforced (S start) encoded force) as [[o l']|]; [done|].
    intros [|i] c' Hc'; [done|]. by apply IH.
  - destruct (longest_unforced (S start) encoded force) as [[o l']|].
    + destruct (l' <? l); [exists 0%nat; split; [lia | done] | done].
    + exists 0%nat. split; [lia | done].
  - destruct (longest_unforced (S start) encoded force) as [[o l']|]; [done|].
    intros [|i] c' Hc'; [done|]. by apply IH.
  - destruct (longest_unforced (S start) encoded force) as [[o l']|]; [done|].
    intros [|i] c' Hc'; [by injection Hc' as ->|]. by apply IH.
Qed.

Lemma total_len_cons c cs : total_len (c :: cs) = len (ce_bytes c) + total_len cs.
Proof.
  unfold total_len. rewrite join_fmap_cons, length_app. lia.
Qed.

Lemma comps_ok_lookup fields force cs i c :
  Forall2 (fun ff c => comp_ok (fst ff) (snd ff) c) (zip fields force) cs -> cs !! i = Some c ->
  exists field f, force !! i = Some f /\ comp_ok field f c.
Proof.
  intros Hok Hc. destruct (Forall2_lookup_r _ _ _ _ _ Hok Hc) as ([field f] & Hz & Hcok).
  exists field, f. split; [|done]. apply lookup_zip_with_Some in Hz as (? & ? & [= -> ->] & _ & ?). done.
Qed.

Lemma total_len_small cs :
  Forall (fun c => len (ce_bytes c) <= 27) cs -> total_len cs <= 27 * len cs.
Proof.
  induction 1 as [|c cs Hc _ IH]; [done|]. rewrite total_len_cons. cbn [length]. lia.
Qed.

Lemma encode_loop_ok fuel cx values force :
  Forall2 value_ok (take (length values) (cx_fields cx)) values ->
  length force = length values -> len values <= MAX_SECONDARY_INDEX_FIELDS ->
  (unforced force < fuel)%nat ->
  exists cs force', encode_loop fuel cx values force = Ok (mjoin (ce_bytes <$> cs))
    /\ total_len cs <= MAX_COMPOUND_TUPLE_BYTES
    /\ encode_all cx 0 (cx_fields cx) values force' = Ok cs
    /\ Forall2 (fun ff c => comp_ok (fst ff) (snd ff) c)
         (zip (take (length values) (cx_fields cx)) force') cs
    /\ length force' = length values.
Proof.
  intros Hv. revert force. induction fuel as [|fuel IH]; intros force Hf Hn Hfuel; [lia|].
  cbn [encode_loop]. destruct (encode_all_ok cx 0 _ _ _ Hv Hf) as (cs & Hcs & Hok).
  rewrite Hcs. cbn [mbind result_bind].
  destruct (Z.leb_spec (total_len cs) MAX_COMPOUND_TUPLE_BYTES) as [Ht|Ht].
  { exists cs, force. split_and!; done. }
  pose proof (longest_unforced_spec 0 cs force) as Hl.
  destruct (longest_unforced 0 cs force) as [[o l]|].
  - destruct Hl as (i & -> & Hi). cbn [Nat.add]. apply IH; [by rewrite length_insert | done |].
    rewrite (unforced_set _ _ Hi) in Hfuel. lia.
  - exfalso. assert (Forall (fun c => len (ce_bytes c) <= 27) cs) as Hsmall.
    { apply Forall_lookup. intros i c Hc.
      destruct (comps_ok_lookup _ _ _ _ _ Hok Hc) as (field & f & Hfi & (class & p & -> & _ & _ & Hh)).
      rewrite length_comp_bytes. destruct (ce_hashable_variable_len c) as [l|] eqn:Hcl; [|lia].
      destruct Hh as [_ ->]. specialize (Hl i c Hc Hfi). congruence. }
    apply total_len_small in Hsmall.
    assert (length cs <= length values)%nat.
    { apply Forall2_length in Hok. rewrite length_zip, length_take in Hok. lia. }
    unfold MAX_COMPOUND_TUPLE_BYTES, MAX_SECONDARY_INDEX_FIELDS in *. lia.
Qed.

Lemma encode_compound_components_ok cx values :
  1 <= len (cx_fields cx) <= MAX_SECONDARY_INDEX_FIELDS ->
  (length values <= length (cx_fields cx))%nat ->
  Forall2 value_ok (take (length values) (cx_fields cx)) values ->
  exists cs force', encode_compound_components cx values = Ok (mjoin (ce_bytes <$> cs))
    /\ total_len cs <= MAX_COMPOUND_TUPLE_BYTES
    /\ encode_all cx 0 (cx_fields cx) values force' = Ok cs
    /\ Forall2 (fun ff c => comp_ok (fst ff) (snd ff) c)
         (zip (take (length values) (cx_fields cx)) force') cs
    /\ length force' = length values.
Proof.
  intros Hn Hl Hv. unfold encode_compound_components, validate_field_count.
  rewrite (proj2 (Z.leb_le _ _) (proj1 Hn)), (proj2 (Z.leb_le _ _) (proj2 Hn)).
  cbn [andb mbind result_bind]. apply encode_loop_ok; [done | by rewrite length_replicate | lia |].
  rewrite unforced_replicate. lia.
Qed.

(** ** Decoding what was encoded *)
Lemma class_from_tag_tag c : class_from_tag (class_tag c) = Ok c.
Proof. by destruct c. Qed.

Lemma decode_components_cons class payload rest field fields :
  len payload <= 65535 -> validate_component_payload_for_field class payload field = Ok tt ->
  decode_components (comp_bytes class payload ++ rest) (field :: fields)
  = (cs ← decode_components rest fields; Ok (mkDecoded class payload :: cs)).
Proof.
  intros Hl Hv. cbn [decode_components]. unfold comp_bytes. rewrite <- app_comm_cons, <- app_assoc.
  rewrite (app_comm_cons (be_bytes 2 _)), (split_at_app 3 (z2b _ :: be_bytes 2 _))
    by (cbn [length]; by rewrite length_be_bytes).
  cbn [nth drop]. rewrite b2z_z2b, Z.mod_small by (destruct class; done).
  rewrite class_from_tag_tag. cbn [mbind result_bind].
  rewrite drop_0, be_val_be_bytes, Z.mod_small by (change (2 ^ (8 * Z.of_nat 2)) with 65536; lia).
  rewrite Nat2Z.id, split_at_app by done. by rewrite Hv.
Qed.

Lemma decode_components_encoded fields force cs :
  Forall2 (fun ff c => comp_ok (fst ff) (snd ff) c) (zip fields force) cs ->
  length force = length fields ->
  exists ds, decode_components (mjoin (ce_bytes <$> cs)) fields = Ok ds
    /\ Forall2 (fun c d => ce_bytes c = comp_bytes (dc_class d) (dc_payload d)) cs ds.
Proof.
  revert force cs. induction fields as [|field fields IH]; intros [|f force] cs Hok Hl; try done.
  { apply Forall2_nil_inv_l in Hok as ->. exists []. by split. }
  cbn [zip zip_with] in Hok. apply Forall2_cons_inv_l in Hok as (c & cs' & Hc & Hok & ->).
  destruct Hc as (class & payload & Hb & Hv & Hlen & _).
  unfold MAX_COMPOUND_COMPONENT_BYTES in Hlen. injection Hl as Hl.
  destruct (IH force cs' Hok Hl) as (ds & Hd & Hf). exists (mkDecoded class payload :: ds).
  rewrite join_fmap_cons, Hb, decode_components_cons, Hd by (done || lia).
  split; [done | by constructor].
Qed.

(** C26.  Compound index keys always encode.  For every declaration of one to
    eight fields and every value of the fields' types, encoding succeeds (the
    [expect] of the memtable cannot fail), yields at most 4096 bytes however
    large the values are, and the key decodes field by field to components
    whose concatenation is the key. *)
Theorem compound_key_total cx values :
  1 <= len (cx_fields cx) <= MAX_SECONDARY_INDEX_FIELDS ->
  Forall2 value_ok (cx_fields cx) values ->
  exists key components,
    encode_compound_tuple_key cx values = Ok key
    /\ len key <= MAX_COMPOUND_TUPLE_BYTES
    /\ decode_compound_tuple_components key (cx_fields cx) = Ok components
    /\ key = mjoin ((fun d => comp_bytes (dc_class d) (dc_payload d)) <$> components)
    /\ length components = length (cx_fields cx).
Proof.
  intros Hn Hv. pose proof (Forall2_length _ _ _ Hv) as Hl.
  destruct (encode_compound_components_ok cx values) as (cs & force & He & Ht & _ & Hok & Hf);
    [done | lia | by rewrite <- Hl, firstn_all |].
  rewrite <- Hl, firstn_all in Hok.
  destruct (decode_components_encoded _ _ _ Hok) as (ds & Hd & Hcd); [congruence|].
  exists (mjoin (ce_bytes <$> cs)), ds. unfold encode_compound_tuple_key, decode_compound_tuple_components.
  rewrite <- Hl, Nat.eqb_refl. cbn [negb]. split; [done|]. split; [done|].
  assert (((length (cx_fields cx) =? 0)%nat || (MAX_SECONDARY_INDEX_FIELDS <? len (cx_fields cx)))
          = false) as ->.
  { destruct (Nat.eqb_spec (length (cx_fields cx)) 0); [lia|].
    by destruct (Z.ltb_spec MAX_SECONDARY_INDEX_FIELDS (len (cx_fields cx))); [lia|]. }
  split; [done|]. split.
  - clear -Hcd. induction Hcd as [|c d cs ds Hc _ IH]; [done|].
    by rewrite !join_fmap_cons, Hc, IH.
  - apply Forall2_length in Hcd. apply Forall2_length in Hok. rewrite length_zip in Hok. lia.
Qed.
End Encode.

(** ** Scans *)
Definition tail_ok (rest : list byte) : Prop :=
  match rest with [] => True | b :: _ => b2z b < 255 end.

Lemma bytes_cmp_app p a b : bytes_cmp (p ++ a) (p ++ b) = bytes_cmp a b.
Proof. by rewrite bytes_cmp_app_eq, bytes_cmp_refl. Qed.

Lemma bytes_le_cases a b :
  bytes_le a b = match bytes_cmp a b with Gt => false | _ => true end.
Proof. unfold bytes_le. by destruct (bytes_cmp a b). Qed.
Lemma bytes_lt_cases a b :
  bool_decide (bytes_lt a b) = match bytes_cmp a b with Lt => true | _ => false end.
Proof. unfold bytes_lt, bytes_lt_dec. case_bool_decide as E; [by rewrite E | by destruct (bytes_cmp a b)]. Qed.

(** Between [p] and [p] followed by 0xFF lie the keys that extend [p]. *)
Lemma between_prefix p k :
  bytes_le p k && bool_decide (bytes_lt k (p ++ [z2b 0xff])) = true
  <-> exists rest, k = p ++ rest /\ tail_ok rest.
Proof.
  rewrite bytes_le_cases, bytes_lt_cases. revert k. induction p as [|x p IH]; intros k.
  - cbn [app]. change (bytes_cmp [] k) with (match k with [] => Eq | _ :: _ => Lt end).
    split.
    + intros Hk. exists k. split; [done|]. destruct k as [|b k]; [done|]. cbn in Hk |- *.
      change (b2z (z2b 255)) with 255 in Hk. destruct (Z.compare_spec (b2z b) 255); try done.
      by destruct k.
    + intros (rest & -> & Hr). destruct rest as [|b rest]; [done|]. cbn in Hr |- *.
      change (b2z (z2b 255)) with 255. by rewrite (proj2 (Z.compare_lt_iff _ _) Hr).
  - destruct k as [|y k]; cbn [app bytes_cmp]; [split; [done | by intros (? & ? & _)]|].
    rewrite (Z.compare_antisym (b2z x) (b2z y)).
    destruct (Z.compare_spec (b2z x) (b2z y)) as [E|E|E]; cbn [CompOpp].
    + apply b2z_inj in E as ->. rewrite IH. split; intros (rest & Hk & Hr); exists rest;
        (split; [congruence | done]).
    + split; [done | intros (rest & [= -> _] & _); lia].
    + split; [done | intros (rest & [= -> _] & _); lia].
Qed.

(** A tuple of components and its key. *)
Definition key_of (ds : list DecodedCompoundComponent) : list byte :=
  mjoin ((fun d => comp_bytes (dc_class d) (dc_payload d)) <$> ds).
Definition payload_fits (d : DecodedCompoundComponent) : Prop := len (dc_payload d) <= 65535.

Lemma key_of_cons d ds : key_of (d :: ds) = comp_bytes (dc_class d) (dc_payload d) ++ key_of ds.
Proof. reflexivity. Qed.

Lemma class_tag_range c : 0 < class_tag c < 255.
Proof. destruct c; cbn; lia. Qed.

Lemma cons_eq {A} (x y : A) l k : x :: l = y :: k -> x = y /\ l = k.
Proof. intros [= -> ->]. done. Qed.

Lemma comp_bytes_app_inj c1 p1 r1 c2 p2 r2 :
  len p1 <= 65535 -> len p2 <= 65535 ->
  comp_bytes c1 p1 ++ r1 = comp_bytes c2 p2 ++ r2 -> c1 = c2 /\ p1 = p2 /\ r1 = r2.
Proof.
  intros H1 H2. unfold comp_bytes. rewrite <- !app_comm_cons. intros [Et E]%cons_eq.
  apply (f_equal b2z) in Et. rewrite !b2z_z2b, !Z.mod_small in Et by (destruct c1, c2; done).
  rewrite <- !app_assoc in E.
  apply app_inj_1 in E as [El E]; [|by rewrite !length_be_bytes].
  apply (f_equal be_val) in El. rewrite !be_val_be_bytes, !Z.mod_small in El
    by (change (2 ^ (8 * Z.of_nat 2)) with 65536; lia).
  apply app_inj_1 in E as [-> ->]; [|lia]. split; [by destruct c1, c2 | done].
Qed.

Lemma key_of_prefix ds ds' rest :
  Forall payload_fits ds -> Forall payload_fits ds' ->
  key_of ds' = key_of ds ++ rest -> exists more, ds' = ds ++ more /\ rest = key_of more.
Proof.
  revert ds'. induction ds as [|d ds IH]; intros ds' Hd Hd' E.
  { exists ds'. by cbn in E. }
  apply Forall_cons in Hd as [Hp Hd]. destruct ds' as [|d' ds'].
  { rewrite key_of_cons in E. unfold comp_bytes in E. done. }
  apply Forall_cons in Hd' as [Hp' Hd']. rewrite !key_of_cons, <- app_assoc in E.
  apply comp_bytes_app_inj in E as (Ec & Ep & E); [|done..].
  destruct (IH ds' Hd Hd' E) as (more & -> & ->). exists more. split; [|done].
  destruct d, d'. cbn in *. by subst.
Qed.

Lemma key_of_tail_ok ds : tail_ok (key_of ds).
Proof.
  destruct ds as [|d ds]; [done|]. rewrite key_of_cons. cbn. pose proof (class_tag_range (dc_class d)).
  rewrite b2z_z2b, Z.mod_small by lia. lia.
Qed.

Definition prefix_scan (prefix key : list byte) : bool :=
  let b := compound_prefix_bounds prefix in
  scan_visits (Some (mkLowerBound (pb_lower b) false)) (pb_upper_exclusive b) key.

Lemma prefix_scan_app p k : prefix_scan p k = true <-> exists rest, k = p ++ rest /\ tail_ok rest.
Proof.
  unfold prefix_scan, scan_visits, compound_prefix_bounds. cbn [lb_key lb_exclusive_component_prefix pb_lower pb_upper_exclusive andb negb].
  rewrite andb_true_r. apply between_prefix.
Qed.

(** C20.  Prefix scans of a compound index.  Scanning the ordered keys from an
    encoded tuple prefix up to the prefix followed by 0xFF visits exactly the
    keys whose tuple starts with those components: no key of another tuple is in
    between, whatever bytes the payloads hold. *)
Theorem prefix_scan_exact ds ds' :
  Forall payload_fits ds -> Forall payload_fits ds' ->
  prefix_scan (key_of ds) (key_of ds') = true <-> ds `prefix_of` ds'.
Proof.
  intros Hd Hd'. rewrite prefix_scan_app. split.
  - intros (rest & E & _). destruct (key_of_prefix ds ds' rest Hd Hd' E) as (more & -> & _).
    by exists more.
  - intros [more ->]. exists (key_of more). split; [|apply key_of_tail_ok].
    unfold key_of. by rewrite join_fmap_app.
Qed.

(** ** From values to scans *)
Section Values.
Context `{RmpValue}.

(** The tuple fits without hashing anything. *)
Definition fits (cx : CompoundTupleContext) (values : list CompoundFieldValue) : Prop :=
  exists cs, encode_all cx 0 (cx_fields cx) values (replicate (length values) false) = Ok cs
             /\ total_len cs <= MAX_COMPOUND_TUPLE_BYTES.

Lemma encode_all_take cx o fields values force cs n :
  encode_all cx o fields values force = Ok cs ->
  encode_all cx o fields (take n values) (take n force) = Ok (take n cs).
Proof.
  revert o fields values force cs. induction n as [|n IH]; intros o fields values force cs.
  { intros _. by destruct fields. }
  destruct fields as [|f fields], values as [|v values], force as [|b force];
    cbn [encode_all]; try (by intros [= <-]).
  intros E. inv_bind E. apply Ok_inj in E as <-.
  cbn [take encode_all]. rewrite Hv. cbn [mbind result_bind]. by rewrite (IH _ _ _ _ _ Hv0).
Qed.

Lemma total_len_take n cs : total_len (take n cs) <= total_len cs.
Proof.
  rewrite <- (take_drop n cs) at 2. unfold total_len. rewrite join_fmap_app, length_app. lia.
Qed.

Lemma encode_fits cx values cs :
  1 <= len (cx_fields cx) <= MAX_SECONDARY_INDEX_FIELDS ->
  encode_all cx 0 (cx_fields cx) values (replicate (length values) false) = Ok cs ->
  total_len cs <= MAX_COMPOUND_TUPLE_BYTES ->
  encode_compound_components cx values = Ok (mjoin (ce_bytes <$> cs)).
Proof.
  intros Hn He Ht. unfold encode_compound_components, validate_field_count.
  rewrite (proj2 (Z.leb_le _ _) (proj1 Hn)), (proj2 (Z.leb_le _ _) (proj2 Hn)).
  cbn [andb mbind result_bind encode_loop]. rewrite He. cbn [mbind result_bind].
  by rewrite (proj2 (Z.leb_le _ _) Ht).
Qed.

(** C19.  Prefix lookups find the record.  When the whole tuple fits in 4096
    bytes in clear, the key of the tuple is visited by the scan for every
    non-empty prefix of its values. *)
Theorem prefix_lookup_finds_record cx values n :
  1 <= len (cx_fields cx) <= MAX_SECONDARY_INDEX_FIELDS ->
  Forall2 value_ok (cx_fields cx) values -> fits cx values ->
  exists key prefix,
    encode_compound_tuple_key cx values = Ok key
    /\ encode_compound_tuple_prefix cx (take n values) = Ok prefix
    /\ prefix_scan prefix key = true.
Proof.
  intros Hn Hv (cs & He & Ht). pose proof (Forall2_length _ _ _ Hv) as Hl.
  exists (mjoin (ce_bytes <$> cs)), (mjoin (ce_bytes <$> take n cs)).
  split; [|split].
  - unfold encode_compound_tuple_key. rewrite Hl, Nat.eqb_refl. by apply encode_fits.
  - unfold encode_compound_tuple_prefix. rewrite length_take.
    destruct (Nat.ltb_spec (length (cx_fields cx)) (n `min` length values)); [lia|].
    apply encode_fits; [done | | pose proof (total_len_take n cs); lia].
    rewrite length_take. apply (encode_all_take _ _ _ _ _ _ n) in He.
    by rewrite take_replicate in He.
  - apply prefix_scan_app. exists (mjoin (ce_bytes <$> drop n cs)).
    rewrite <- (take_drop n cs) at 1. rewrite join_fmap_app. split; [done|].
    destruct (encode_all_ok cx 0 (cx_fields cx) values (replicate (length values) false))
      as (cs' & He' & Hok); [by rewrite <- Hl, firstn_all | by rewrite length_replicate |].
    rewrite He in He'. apply Ok_inj in He' as <-.
    destruct (drop n cs) as [|c rest] eqn:Hd; [done|].
    assert (cs !! n = Some c) as Hc.
    { rewrite <- (Nat.add_0_r n), <- lookup_drop, Hd. done. }
    destruct (comps_ok_lookup _ _ _ _ _ Hok Hc) as (field & f & _ & (class & p & Hb & _)).
    rewrite join_fmap_cons, Hb. cbn. pose proof (class_tag_range class).
    rewrite b2z_z2b, Z.mod_small by lia. lia.
Qed.
End Values.

(** ** The overflow case *)

(** The component the encoder hashes first: the longest of those in clear, the
    last one among equals. *)
Definition hashed_first (cs : list ComponentEncoding) (m : nat) : Prop :=
  exists c l, cs !! m = Some c /\ ce_hashable_variable_len c = Some l
    /\ forall j c' l', cs !! j = Some c' -> ce_hashable_variable_len c' = Some l' ->
       if (j <=? m)%nat then l' <= l else l' < l.

Lemma longest_unforced_len start cs force o l :
  longest_unforced start cs force = Some (o, l) ->
  exists i c, o = (start + i)%nat /\ cs !! i = Some c /\ ce_hashable_variable_len c = Some l.
Proof.
  revert start force. induction cs as [|c cs IH]; intros start [|f force] E; cbn in E; try done.
  specialize (IH (S start) force).
  destruct (longest_unforced (S start) cs force) as [[o1 l1]|] eqn:E1;
    destruct (ce_hashable_variable_len c) as [lc|] eqn:Hlc, f; try done;
    try (destruct (l1 <? lc)); injection E as <- <-;
    first [ exists 0%nat, c; by rewrite Nat.add_0_r
          | destruct (IH eq_refl) as (i & c' & -> & ? & ?); exists (S i), c'; split; [lia | done] ].
Qed.

Lemma longest_unforced_first start cs m :
  hashed_first cs m ->
  exists l, longest_unforced start cs (replicate (length cs) false) = Some ((start + m)%nat, l).
Proof.
  revert start m. induction cs as [|c cs IH]; intros start m (c0 & l & Hc0 & Hl0 & Hmax); [done|].
  cbn [longest_unforced length replicate]. destruct m as [|m].
  - injection Hc0 as ->. rewrite Hl0, Nat.add_0_r. exists l.
    destruct (longest_unforced (S start) cs _) as [[o l']|] eqn:E; [|done].
    apply longest_unforced_len in E as (j & c' & _ & Hj & Hl').
    specialize (Hmax (S j) c' l' Hj Hl'). cbn in Hmax. by destruct (Z.ltb_spec l' l); [|lia].
  - destruct (IH (S start) m) as [l1 E].
    { exists c0, l. split_and!; [done..|]. intros j. exact (Hmax (S j)). }
    rewrite E. replace (start + S m)%nat with (S start + m)%nat by lia.
    destruct (ce_hashable_variable_len c) as [lc|] eqn:Hlc; [|by exists l1].
    apply longest_unforced_len in E as (i & c1 & Hi & Hc1 & Hl1). assert (i = m) as -> by lia.
    change (cs !! m = Some c0) in Hc0. assert (l1 = l) as -> by congruence.
    specialize (Hmax 0%nat c lc eq_refl Hlc). cbn in Hmax.
    destruct (Z.ltb_spec l lc); [lia | by exists l].
Qed.

Section OverflowingTuple.
Context `{RmpValue}.

(** What is forced stays forced, and the result encodes under some flags. *)
Lemma encode_loop_forces fuel cx values force key :
  encode_loop fuel cx values force = Ok key ->
  exists cs force', key = mjoin (ce_bytes <$> cs)
    /\ encode_all cx 0 (cx_fields cx) values force' = Ok cs /\ length force' = length force
    /\ forall i, force !! i = Some true -> force' !! i = Some true.
Proof.
  revert force. induction fuel as [|fuel IH]; intros force E; [done|].
  cbn [encode_loop] in E. inv_bind E. rename v into cs.
  destruct (total_len cs <=? MAX_COMPOUND_TUPLE_BYTES).
  { apply Ok_inj in E as <-. by exists cs, force. }
  destruct (longest_unforced 0 cs force) as [[o l]|]; [|done].
  destruct (IH _ E) as (cs' & force' & -> & Hcs & Hl & Hmono). rewrite length_insert in Hl.
  exists cs', force'. split_and!; [done..|]. intros i Hi. apply Hmono.
  destruct (decide (o = i)) as [->|Hne]; [|by rewrite list_lookup_insert_ne].
  apply list_lookup_insert_eq. by eapply lookup_lt_Some.
Qed.

Lemma encode_all_lookup cx o fields values force cs i c :
  encode_all cx o fields values force = Ok cs -> cs !! i = Some c ->
  exists field v f, fields !! i = Some field /\ values !! i = Some v /\ force !! i = Some f
    /\ encode_component cx (o + Z.of_nat i) field v f = Ok c.
Proof.
  revert o fields values force cs. induction i as [|i IH]; intros o fields values force cs E Hc;
    (destruct fields as [|field fields], values as [|v values], force as [|f force]; cbn [encode_all] in E;
       try (by apply Ok_inj in E as <-));
    inv_bind E; apply Ok_inj in E as <-; cbn in Hc.
  - injection Hc as <-. exists field, v, f. by rewrite Z.add_0_r.
  - destruct (IH _ _ _ _ _ Hv0 Hc) as (field' & v' & f' & ? & ? & ? & E).
    exists field', v', f'. split_and!; [done..|]. by replace (o + Z.of_nat (S i)) with (o + 1 + Z.of_nat i) by lia.
Qed.

(** A component that may be hashed is a string or bytes in clear, and a hash
    when forced. *)
Lemma encode_component_forced cx o field v c l c' :
  encode_component cx o field v false = Ok c -> ce_hashable_variable_len c = Some l ->
  encode_component cx o field v true = Ok c' ->
  (exists class p, class ≠ CEqualityHash /\ ce_bytes c = comp_bytes class p)
  /\ exists p, ce_bytes c' = comp_bytes CEqualityHash p.
Proof.
  assert (forall class p, fixed class p = Ok c -> ce_hashable_variable_len c = Some l -> False) as Hfixed.
  { intros class p E Hl. unfold fixed in E. inv_bind E. by apply Ok_inj in E as <-. }
  assert (forall v, numeric_or_hashed cx o field v = Ok c -> ce_hashable_variable_len c = Some l -> False) as Hnum.
  { intros w E. unfold numeric_or_hashed in E. destruct (numeric_range_sort_key_for_value w); by eapply Hfixed. }
  assert (forall class p sb, class ≠ CEqualityHash ->
    variable cx o field class p sb false = Ok c -> ce_hashable_variable_len c = Some l ->
    variable cx o field class p sb true = Ok c' ->
    (exists class p, class ≠ CEqualityHash /\ ce_bytes c = comp_bytes class p)
    /\ exists p, ce_bytes c' = comp_bytes CEqualityHash p) as Hvar.
  { intros class p sb Hne E Hl E'. unfold variable in E, E'. rewrite orb_false_r in E. rewrite orb_true_r in E'.
    unfold MAX_COMPOUND_COMPONENT_BYTES in E. destruct (Z.ltb_spec 1024 (len p)) as [|Hp].
    { exfalso. by eapply Hfixed. }
    rewrite emit_component_Ok in E by lia. apply Ok_inj in E as <-. unfold hashed, fixed in E'.
    rewrite emit_component_Ok in E' by (rewrite length_equality_hash_payload; lia).
    apply Ok_inj in E' as <-. split; [by exists class, p | by eexists]. }
  unfold encode_component. intros E Hl E'. inv_bind E. rewrite Hv in E'. cbn [mbind result_bind] in E'.
  destruct v as [[v|]|s|z|z|bits]; try (exfalso; by eauto);
    [|refine (Hvar _ _ _ _ E Hl E'); done].
  destruct v as [|[]|z|z|bits|s|b|ls|m]; cbn [encode_property_component] in E, E';
    try (exfalso; by eauto); refine (Hvar _ _ _ _ E Hl E'); done.
Qed.

(** The components of a tuple, class by class. *)
Lemma comps_decoded fields force cs :
  Forall2 (fun ff c => comp_ok (fst ff) (snd ff) c) (zip fields force) cs ->
  exists ds, Forall payload_fits ds /\ mjoin (ce_bytes <$> cs) = key_of ds
    /\ Forall2 (fun c d => ce_bytes c = comp_bytes (dc_class d) (dc_payload d)) cs ds.
Proof.
  intros Hok. remember (zip fields force) as ffs eqn:E. clear E.
  induction Hok as [|ff c ffs cs (class & p & Hb & _ & Hp & _) _ (ds & Hf & Hk & Hd)].
  { exists []. by split_and!. }
  exists (mkDecoded class p :: ds). unfold MAX_COMPOUND_COMPONENT_BYTES in Hp. split_and!.
  - constructor; [unfold payload_fits; cbn; lia | done].
  - by rewrite join_fmap_cons, key_of_cons, Hk, Hb.
  - by constructor.
Qed.

Lemma comp_bytes_class c1 p1 c2 p2 : comp_bytes c1 p1 = comp_bytes c2 p2 -> c1 = c2.
Proof.
  unfold comp_bytes. intros [Et _]%cons_eq. apply (f_equal b2z) in Et.
  rewrite !b2z_z2b, !Z.mod_small in Et by (destruct c1, c2; done). by destruct c1, c2.
Qed.

(** Tuples that differ in the class of a component of the prefix are apart. *)
Lemma prefix_scan_class_ne cx values force cs values' force' cs' m c class p c' class' p' :
  length force = length values -> Forall2 value_ok (take (length values) (cx_fields cx)) values ->
  encode_all cx 0 (cx_fields cx) values force = Ok cs ->
  length force' = length values' -> Forall2 value_ok (take (length values') (cx_fields cx)) values' ->
  encode_all cx 0 (cx_fields cx) values' force' = Ok cs' ->
  cs !! m = Some c -> ce_bytes c = comp_bytes class p ->
  cs' !! m = Some c' -> ce_bytes c' = comp_bytes class' p' -> class ≠ class' ->
  prefix_scan (mjoin (ce_bytes <$> cs)) (mjoin (ce_bytes <$> cs')) = false.
Proof.
  intros Hf Hv E Hf' Hv' E' Hc Hb Hc' Hb' Hne.
  destruct (encode_all_ok cx 0 _ _ _ Hv Hf) as (? & E1 & Hok). rewrite E in E1. apply Ok_inj in E1 as <-.
  destruct (encode_all_ok cx 0 _ _ _ Hv' Hf') as (? & E1 & Hok'). rewrite E' in E1. apply Ok_inj in E1 as <-.
  destruct (comps_decoded _ _ _ Hok) as (ds & Hp & -> & Hd).
  destruct (comps_decoded _ _ _ Hok') as (ds' & Hp' & -> & Hd').
  destruct (prefix_scan _ _) eqn:Hs; [exfalso | done].
  apply prefix_scan_app in Hs as (rest & Hk & _).
  destruct (key_of_prefix ds ds' rest Hp Hp' Hk) as (more & -> & _).
  destruct (Forall2_lookup_l _ _ _ _ _ Hd Hc) as (d & Hdm & Hcd).
  destruct (Forall2_lookup_l _ _ _ _ _ Hd' Hc') as (d' & Hdm' & Hcd').
  rewrite (lookup_app_l_Some _ _ _ _ Hdm) in Hdm'. injection Hdm' as <-.
  rewrite Hb in Hcd. rewrite Hb' in Hcd'. apply comp_bytes_class in Hcd, Hcd'. congruence.
Qed.

Lemma encode_overflow cx values cs m :
  1 <= len (cx_fields cx) <= MAX_SECONDARY_INDEX_FIELDS -> Forall2 value_ok (cx_fields cx) values ->
  encode_all cx 0 (cx_fields cx) values (replicate (length values) false) = Ok cs ->
  MAX_COMPOUND_TUPLE_BYTES < total_len cs -> hashed_first cs m ->
  exists cs' force', encode_compound_tuple_key cx values = Ok (mjoin (ce_bytes <$> cs'))
    /\ encode_all cx 0 (cx_fields cx) values force' = Ok cs' /\ length force' = length values
    /\ force' !! m = Some true.
Proof.
  intros Hn Hv Hcs Ht Hm. pose proof (Forall2_length _ _ _ Hv) as Hl.
  destruct (encode_compound_components_ok cx values) as (cs0 & f0 & E & _);
    [done | lia | by rewrite <- Hl, firstn_all |].
  unfold encode_compound_tuple_key. rewrite Hl, Nat.eqb_refl. cbn [negb]. rewrite E.
  unfold encode_compound_components in E. inv_bind E. cbn [encode_loop] in E. rewrite Hcs in E.
  cbn [mbind result_bind] in E. rewrite (proj2 (Z.leb_gt _ _) Ht) in E.
  assert (length cs = length values) as Hlcs.
  { destruct (encode_all_ok cx 0 (cx_fields cx) values (replicate (length values) false)) as (? & E1 & Hok);
      [by rewrite <- Hl, firstn_all | by rewrite length_replicate |].
    rewrite Hcs in E1. apply Ok_inj in E1 as <-. apply Forall2_length in Hok.
    rewrite length_zip, length_take, length_replicate in Hok. lia. }
  destruct (longest_unforced_first 0 cs m Hm) as [l Hlong]. rewrite Hlcs in Hlong. rewrite Hlong in E.
  destruct (encode_loop_forces _ _ _ _ _ E) as (cs' & force' & -> & Hcs' & Hlf & Hmono).
  rewrite length_insert, length_replicate in Hlf. exists cs', force'. split_and!; [done..|].
  apply Hmono, list_lookup_insert_eq. rewrite length_replicate, <- Hlcs.
  destruct Hm as (c & ? & Hc & _). by eapply lookup_lt_Some.
Qed.
End OverflowingTuple.

(** C28.  The encoder hashes the longest components of a tuple that overflows
    4096 bytes, but a prefix of the tuple that fits is encoded in clear.  So
    when component [m] is the longest in clear (the last among equals) of a
    record whose tuple overflows, no prefix that reaches beyond [m] and fits
    finds the record: the prefix scan with the record's own values skips the
    record's key. *)
Theorem overflowing_tuple_missed_by_prefix `{RmpValue} cx values cs m n :
  1 <= len (cx_fields cx) <= MAX_SECONDARY_INDEX_FIELDS -> Forall2 value_ok (cx_fields cx) values ->
  encode_all cx 0 (cx_fields cx) values (replicate (length values) false) = Ok cs ->
  MAX_COMPOUND_TUPLE_BYTES < total_len cs -> hashed_first cs m ->
  (m < n)%nat -> total_len (take n cs) <= MAX_COMPOUND_TUPLE_BYTES ->
  exists key prefix,
    encode_compound_tuple_key cx values = Ok key
    /\ encode_compound_tuple_prefix cx (take n values) = Ok prefix
    /\ prefix_scan prefix key = false.
Proof.
  intros Hn Hv Hcs Ht Hm Hmn Htn. pose proof (Forall2_length _ _ _ Hv) as Hl.
  destruct (encode_overflow cx values cs m Hn Hv Hcs Ht Hm) as (cs' & force' & Hkey & Hcs' & Hlf & Hforced).
  pose proof (encode_all_take _ _ _ _ _ _ n Hcs) as Hpre. rewrite take_replicate, <- length_take in Hpre.
  exists (mjoin (ce_bytes <$> cs')), (mjoin (ce_bytes <$> take n cs)). split; [done|]. split.
  { unfold encode_compound_tuple_prefix. destruct (Nat.ltb_spec (length (cx_fields cx)) (length (take n values)));
      [rewrite length_take in *; lia|]. by apply encode_fits. }
  destruct Hm as (c & l & Hc & Hlc & _).
  destruct (encode_all_lookup _ _ _ _ _ _ _ _ Hcs Hc) as (field & v & f & Hfield & Hval & Hf & Ec).
  apply lookup_replicate in Hf as [-> _].
  destruct (cs' !! m) as [c'|] eqn:Hc'.
  2:{ exfalso. destruct (encode_all_ok cx 0 (cx_fields cx) values force') as (? & E1 & Hok);
        [by rewrite <- Hl, firstn_all | done |]. rewrite Hcs' in E1. apply Ok_inj in E1 as <-.
      apply Forall2_length in Hok. rewrite length_zip, length_take in Hok.
      apply lookup_ge_None in Hc'. apply lookup_lt_Some in Hval. lia. }
  destruct (encode_all_lookup _ _ _ _ _ _ _ _ Hcs' Hc') as (field' & v' & f' & Hfield' & Hval' & Hf' & Ec').
  simplify_eq.
  destruct (encode_component_forced _ _ _ _ _ _ _ Ec Hlc Ec') as [(class & p & Hne & Hb) (p' & Hb')].
  eapply (prefix_scan_class_ne cx (take n values) (replicate (length (take n values)) false));
    [by rewrite length_replicate | | exact Hpre | exact Hlf | by rewrite <- Hl, firstn_all | exact Hcs'
    | by rewrite lookup_take_lt | exact Hb | exact Hc' | exact Hb' | exact Hne].
  rewrite length_take, <- firstn_firstn, <- Hl, firstn_all. by apply Forall2_take.
Qed.

(** ** Range scans *)
Section Ranges.
Context `{RmpValue}.

(** A bound of a range predicate: a numeric value, its exact number and
    whether it is inclusive; and the component the planner encodes for it. *)
Record range_bound : Type := mkRangeBound { b_value : PropValue; b_exact : Z; b_inclusive : bool }.
Definition range_bound_ok (b : option range_bound) : Prop :=
  match b with Some b => value_wf (b_value b) /\ exact_value (b_value b) = Some (b_exact b) | None => True end.
Definition bound_component (b : option range_bound) : option (list byte * bool) :=
  match b with
  | Some b =>
      match numeric_range_sort_key_for_value (b_value b) with
      | Some k => Some (comp_bytes CNumeric k, b_inclusive b)
      | None => None
      end
  | None => None
  end.
Definition lower_holds (b : option range_bound) (x : Z) : bool :=
  match b with Some b => if b_inclusive b then b_exact b <=? x else b_exact b <? x | None => true end.
Definition upper_holds (b : option range_bound) (x : Z) : bool :=
  match b with Some b => if b_inclusive b then x <=? b_exact b else x <? b_exact b | None => true end.

Lemma sort_key_of v x :
  value_wf v -> exact_value v = Some x ->
  exists k, numeric_range_sort_key_for_value v = Some k /\ length k = NUMERIC_RANGE_KEY_BYTES
    /\ validate_numeric_range_sidecar_key k = Ok tt
    /\ forall w y k', value_wf w -> exact_value w = Some y ->
       numeric_range_sort_key_for_value w = Some k' -> bytes_cmp k k' = (x ?= y).
Proof.
  intros Hv Hx. pose proof (numeric_key_spec v Hv) as Hs. rewrite Hx in Hs.
  destruct Hs as (kv & Hk & Hw & <-). unfold numeric_range_sort_key_for_value at 1.
  rewrite Hk. eexists. split; [done|]. split; [apply length_numeric_range_sort_key|]. split.
  - apply (validate_sort_key v); [done|]. unfold numeric_range_sort_key_for_value. by rewrite Hk.
  - intros w y k' Hww Hy Hk'. pose proof (numeric_key_spec w Hww) as Hs'. rewrite Hy in Hs'.
    destruct Hs' as (kw & Hkw & Hw' & <-). unfold numeric_range_sort_key_for_value in Hk'.
    rewrite Hkw in Hk'. injection Hk' as <-.
    by rewrite numeric_range_sort_key_cmp, compare_numeric_keys_spec.
Qed.

Lemma comp_parts class k :
  b2z (nth 0 (comp_bytes class k) Byte.x00) = class_tag class
  /\ slice 1 3 (comp_bytes class k) = be_bytes 2 (len k) /\ drop 3 (comp_bytes class k) = k.
Proof.
  unfold comp_bytes, slice. pose proof (class_tag_range class). cbn [nth].
  rewrite b2z_z2b, Z.mod_small by lia. split; [done|].
  change (drop 1 (z2b (class_tag class) :: be_bytes 2 (len k) ++ k)) with (be_bytes 2 (len k) ++ k).
  change (drop 3 (z2b (class_tag class) :: be_bytes 2 (len k) ++ k)) with (drop 2 (be_bytes 2 (len k) ++ k)).
  by rewrite take_app_length', drop_app_length' by by rewrite length_be_bytes.
Qed.

Lemma validate_bound_component k :
  length k = NUMERIC_RANGE_KEY_BYTES -> validate_numeric_range_sidecar_key k = Ok tt ->
  validate_numeric_range_bound_component (comp_bytes CNumeric k) = Ok tt.
Proof.
  intros Hl Hv. unfold validate_numeric_range_bound_component.
  destruct (comp_parts CNumeric k) as (-> & -> & ->). pose proof (length_comp_bytes CNumeric k) as Hc.
  rewrite Hl in *. unfold NUMERIC_RANGE_KEY_BYTES in *.
  destruct (Nat.eqb_spec (length (comp_bytes CNumeric k)) (3 + 24)); [|lia]. cbn [negb].
  rewrite Z.eqb_refl, be_val_be_bytes. cbn [negb].
  change (Z.of_nat 24 mod 2 ^ (8 * Z.of_nat 2) =? Z.of_nat 24) with true. cbn [negb]. by rewrite Hv.
Qed.

Lemma comp_cmp k r k' r' :
  length k = NUMERIC_RANGE_KEY_BYTES -> length k' = NUMERIC_RANGE_KEY_BYTES ->
  bytes_cmp (comp_bytes CNumeric k ++ r) (comp_bytes CNumeric k' ++ r')
  = match bytes_cmp k k' with Eq => bytes_cmp r r' | c => c end.
Proof.
  intros Hk Hk'. unfold comp_bytes. rewrite Hk, Hk'. rewrite <- !app_comm_cons, <- !app_assoc.
  cbn [bytes_cmp]. rewrite Z.compare_refl, bytes_cmp_app. by rewrite bytes_cmp_app_eq by congruence.
Qed.

Lemma bytes_cmp_tag c c' r r' :
  c ≠ c' -> bytes_cmp (z2b (class_tag c) :: r) (z2b (class_tag c') :: r') = (class_tag c ?= class_tag c').
Proof.
  intros Hne. cbn [bytes_cmp]. pose proof (class_tag_range c). pose proof (class_tag_range c').
  rewrite !b2z_z2b, !Z.mod_small by lia.
  destruct (Z.compare_spec (class_tag c) (class_tag c')); [by destruct c, c' | done | done].
Qed.

Lemma bytes_cmp_nil_r l : bytes_cmp l [] = match l with [] => Eq | _ => Gt end.
Proof. by destruct l. Qed.

Lemma bytes_cmp_ff rest : tail_ok rest -> bytes_cmp rest [z2b 0xff] = Lt.
Proof.
  destruct rest as [|b rest]; [done|]. cbn. change (b2z (z2b 255)) with 255. intros Hb.
  by rewrite (proj2 (Z.compare_lt_iff _ _) Hb).
Qed.

(** The lower and upper halves of a range scan, at a numeric component. *)
Lemma range_bounds_ok P lo hi :
  range_bound_ok lo -> range_bound_ok hi ->
  exists l u, compound_range_bounds P (bound_component lo) (bound_component hi)
              = Ok (mkRangeBounds (Some l) (P ++ u))
    /\ lb_key l = P ++ (match lo with
                        | Some b => match numeric_range_sort_key_for_value (b_value b) with
                                    | Some k => comp_bytes CNumeric k | None => [] end
                        | None => [z2b (class_tag CNumeric)] end)
    /\ lb_exclusive_component_prefix l = match lo with Some b => negb (b_inclusive b) | None => false end
    /\ u = match hi with
           | Some b => match numeric_range_sort_key_for_value (b_value b) with
                       | Some k => comp_bytes CNumeric k | None => [] end
                       ++ (if b_inclusive b then [z2b 0xff] else [])
           | None => [z2b (class_tag CNumeric + 1)] end.
Proof.
  intros Hlo Hhi. unfold compound_range_bounds, bound_component.
  destruct lo as [[lv lx li]|], hi as [[hv hx hi]|]; cbn [range_bound_ok b_value b_exact b_inclusive] in *;
    repeat match goal with H : value_wf ?v /\ exact_value ?v = Some ?x |- _ =>
      let k := fresh "k" in destruct H as [?Hw ?Hx];
      destruct (sort_key_of v x) as (k & -> & ? & ? & _); [done..|] end;
    cbn [mbind result_bind]; rewrite ?validate_bound_component by done; cbn [mbind result_bind];
    eexists _, _; (split; [reflexivity|]); done.
Qed.

Lemma starts_with_app p a b : starts_with (p ++ a) (p ++ b) = starts_with a b.
Proof.
  unfold starts_with. apply bool_decide_ext. split.
  - intros [r E]. rewrite <- app_assoc in E. apply app_inv_head in E. by exists r.
  - intros [r ->]. exists r. by rewrite app_assoc.
Qed.

Lemma starts_with_comp k k' r :
  length k = NUMERIC_RANGE_KEY_BYTES -> length k' = NUMERIC_RANGE_KEY_BYTES ->
  starts_with (comp_bytes CNumeric k) (comp_bytes CNumeric k' ++ r) = bool_decide (bytes_cmp k k' = Eq).
Proof.
  intros Hk Hk'. unfold starts_with. apply bool_decide_ext. rewrite bytes_cmp_Eq. split.
  - intros [r' E]. rewrite <- (app_nil_r (comp_bytes CNumeric k)), <- app_assoc in E.
    unfold NUMERIC_RANGE_KEY_BYTES in *.
    symmetry in E. by apply comp_bytes_app_inj in E as (_ & ? & _); [|lia..].
  - intros ->. by exists r.
Qed.

(** The exact number a field value holds, [None] for a missing field, a null, a
    string, a non-finite float and every other value that is not a number. *)
Definition field_number (value : CompoundFieldValue) : option Z :=
  match value with
  | FProperty None | FMetadataString _ => None
  | FProperty (Some v) => exact_value v
  | FMetadataI64 z => exact_value (PInt z)
  | FMetadataU64 z => exact_value (PUInt z)
  | FMetadataF64 bits => exact_value (PFloat bits)
  end.

(** What the encoder makes of a number, and of anything else. *)
Definition numeric_component (x : Z) (c : ComponentEncoding) : Prop :=
  exists v k, value_wf v /\ exact_value v = Some x /\ numeric_range_sort_key_for_value v = Some k
    /\ ce_bytes c = comp_bytes CNumeric k.
Definition other_component (c : ComponentEncoding) : Prop :=
  exists class p, class ≠ CNumeric /\ ce_bytes c = comp_bytes class p.

Lemma fixed_other class p c :
  class ≠ CNumeric -> len p <= 1024 -> fixed class p = Ok c -> other_component c.
Proof.
  intros Hne Hp E. unfold fixed in E. rewrite emit_component_Ok in E by lia.
  apply Ok_inj in E as <-. by exists class, p.
Qed.
Lemma hashed_other cx o field sb c : hashed cx o field sb = Ok c -> other_component c.
Proof. apply fixed_other; [done | rewrite length_equality_hash_payload; lia]. Qed.
Lemma variable_other cx o field class p sb force c :
  class ≠ CNumeric -> variable cx o field class p sb force = Ok c -> other_component c.
Proof.
  intros Hne E. unfold variable, MAX_COMPOUND_COMPONENT_BYTES in E.
  destruct (Z.ltb_spec 1024 (len p)); cbn [orb] in E; [by eapply hashed_other|].
  destruct force; [by eapply hashed_other|]. rewrite emit_component_Ok in E by lia.
  apply Ok_inj in E as <-. by exists class, p.
Qed.

Lemma numeric_or_hashed_number cx o field v c :
  value_wf v -> numeric_or_hashed cx o field v = Ok c ->
  match exact_value v with Some x => numeric_component x c | None => other_component c end.
Proof.
  intros Hv E. unfold numeric_or_hashed in E. destruct (exact_value v) as [x|] eqn:Hx.
  - destruct (sort_key_of v x Hv Hx) as (k & Hk & Hlen & _). rewrite Hk in E. unfold fixed in E.
    rewrite emit_component_Ok in E by (rewrite Hlen; unfold NUMERIC_RANGE_KEY_BYTES; lia).
    apply Ok_inj in E as <-. by exists v, k.
  - pose proof (numeric_key_spec v Hv) as Hs. rewrite Hx in Hs.
    unfold numeric_range_sort_key_for_value in E. rewrite Hs in E. exact (hashed_other _ _ _ _ _ E).
Qed.

Lemma encode_component_number cx o field value force c :
  value_ok field value -> encode_component cx o field value force = Ok c ->
  match field_number value with Some x => numeric_component x c | None => other_component c end.
Proof.
  intros [Hm Hw] E. unfold encode_component in E. rewrite Hm in E. cbn [mbind result_bind] in E.
  destruct value as [[v|]|s|z|z|bits]; cbn [field_number];
    try (apply (numeric_or_hashed_number cx o field); done).
  - destruct v as [|[]|z|z|bits|s|b|l|m]; cbn [encode_property_component] in E;
      try (apply (numeric_or_hashed_number cx o field); done);
      first [by refine (fixed_other _ _ _ _ _ E) | by refine (variable_other _ _ _ _ _ _ _ _ _ E)
            | by eapply hashed_other].
  - by refine (fixed_other _ _ _ _ _ E).
  - by refine (variable_other _ _ _ _ _ _ _ _ _ E).
Qed.

(** The scan's two tests, against a numeric component and any other. *)
Definition lower_component_key (lo : option range_bound) : list byte :=
  match lo with
  | Some b => match numeric_range_sort_key_for_value (b_value b) with
              | Some k => comp_bytes CNumeric k | None => [] end
  | None => [z2b (class_tag CNumeric)]
  end.
Definition upper_component_key (hi : option range_bound) : list byte :=
  match hi with
  | Some b => match numeric_range_sort_key_for_value (b_value b) with
              | Some k => comp_bytes CNumeric k | None => [] end
              ++ (if b_inclusive b then [z2b 0xff] else [])
  | None => [z2b (class_tag CNumeric + 1)]
  end.
Definition scan_tests (lo hi : option range_bound) (key : list byte) : bool :=
  match bytes_cmp (lower_component_key lo) key with Gt => false | _ => true end
  && negb (match lo with Some b => negb (b_inclusive b) | None => false end
           && starts_with (lower_component_key lo) key)
  && match bytes_cmp key (upper_component_key hi) with Lt => true | _ => false end.

Lemma scan_tests_numeric lo hi v x k rest :
  range_bound_ok lo -> range_bound_ok hi -> value_wf v -> exact_value v = Some x ->
  numeric_range_sort_key_for_value v = Some k -> tail_ok rest ->
  scan_tests lo hi (comp_bytes CNumeric k ++ rest) = lower_holds lo x && upper_holds hi x.
Proof.
  intros Hlo Hhi Hv Hx Hk Hr. unfold scan_tests, lower_component_key, upper_component_key.
  destruct (sort_key_of v x Hv Hx) as (k' & Hk' & Hlen & _ & Hcmp).
  rewrite Hk in Hk'. injection Hk' as <-.
  f_equal.
  + destruct lo as [[lv lx li]|]; cbn [lower_holds range_bound_ok b_value b_exact b_inclusive] in *.
    2:{ unfold comp_bytes. rewrite <- app_comm_cons. cbn [bytes_cmp]. rewrite Z.compare_refl.
        by destruct (_ ++ rest). }
    destruct Hlo as [Hlw Hlx]. destruct (sort_key_of lv lx Hlw Hlx) as (kl & Hkl & Hll & _ & Hlc).
    rewrite Hkl, starts_with_comp by done.
    rewrite <- (app_nil_r (comp_bytes CNumeric kl)), comp_cmp, (Hlc v x k) by done.
    destruct (Z.compare_spec lx x) as [E|E|E], li; cbn [negb andb];
      rewrite ?bool_decide_true, ?bool_decide_false by done; cbn [negb andb]; try (destruct rest; cbn); lia.
  + destruct hi as [[hv hx hi]|]; cbn [upper_holds range_bound_ok b_value b_exact b_inclusive] in *.
    2:{ unfold comp_bytes. rewrite <- app_comm_cons.
        change (z2b (class_tag CNumeric + 1)) with (z2b 17). cbn [bytes_cmp].
        by change (b2z (z2b (class_tag CNumeric)) ?= b2z (z2b 17)) with Lt. }
    destruct Hhi as [Hhw Hhx]. destruct (sort_key_of hv hx Hhw Hhx) as (kh & Hkh & Hhl & _ & _).
    rewrite Hkh, comp_cmp, (Hcmp hv hx kh) by done.
    destruct (Z.compare_spec x hx) as [E|E|E], hi; rewrite ?bytes_cmp_ff, ?bytes_cmp_nil_r by done;
      try (destruct rest); lia.
Qed.

Lemma scan_tests_other lo hi class p rest :
  range_bound_ok lo -> range_bound_ok hi -> class ≠ CNumeric ->
  scan_tests lo hi (comp_bytes class p ++ rest) = false.
Proof.
  intros Hlo Hhi Hne. unfold scan_tests, lower_component_key, upper_component_key.
  assert (forall k r, bytes_cmp (comp_bytes CNumeric k) (comp_bytes class p ++ r)
                    = (class_tag CNumeric ?= class_tag class)) as Hlow.
  { intros k r. unfold comp_bytes. rewrite <- app_comm_cons. by apply bytes_cmp_tag. }
  assert (forall k r r', bytes_cmp (comp_bytes class p ++ r) (comp_bytes CNumeric k ++ r')
                    = (class_tag class ?= class_tag CNumeric)) as Hup.
  { intros k r r'. unfold comp_bytes. rewrite <- !app_comm_cons. by apply bytes_cmp_tag. }
  assert (forall r, bytes_cmp [z2b (class_tag CNumeric)] (comp_bytes class p ++ r)
                    = (class_tag CNumeric ?= class_tag class)) as Hlow0.
  { intros r. unfold comp_bytes. rewrite <- app_comm_cons. by apply bytes_cmp_tag. }
  assert (forall r, match bytes_cmp (comp_bytes class p ++ r) [z2b (class_tag CNumeric + 1)] with
                    | Lt => true | _ => false end = (class_tag class <=? class_tag CNumeric)) as Hup0.
  { intros r. unfold comp_bytes. rewrite <- app_comm_cons. cbn [bytes_cmp].
    by destruct class. }
  destruct lo as [[lv lx li]|], hi as [[hv hx hi]|];
    cbn [range_bound_ok b_value b_exact b_inclusive] in *;
    repeat match goal with H : value_wf ?v /\ exact_value ?v = Some ?x |- _ =>
      let k := fresh "k" in destruct H as [?Hw ?Hx];
      destruct (sort_key_of v x) as (k & -> & ? & ? & _); [done..|] end;
    rewrite ?Hlow, ?Hlow0, ?Hup, ?Hup0; destruct class; try done; cbn; by rewrite ?andb_false_r.
Qed.

(** C21.  Range scans of a compound index.  Under any equality prefix, the scan
    for a numeric range over the next field, a property or a metadata field,
    visits exactly the keys whose value at that field is a number within the
    bounds: missing fields, nulls, strings, hashes and non-finite floats are
    never visited. *)
Theorem range_scan_exact P lo hi cx o field value force c rest :
  range_bound_ok lo -> range_bound_ok hi -> value_ok field value -> tail_ok rest ->
  encode_component cx o field value force = Ok c ->
  exists bounds,
    compound_range_bounds P (bound_component lo) (bound_component hi) = Ok bounds
    /\ scan_visits (rg_lower bounds) (rg_upper_exclusive bounds) (P ++ ce_bytes c ++ rest)
       = match field_number value with Some x => lower_holds lo x && upper_holds hi x | None => false end.
Proof.
  intros Hlo Hhi Hv Hr Hc.
  destruct (range_bounds_ok P lo hi Hlo Hhi) as (l & u & Hb & Hlk & Hle & Hu).
  eexists. split; [exact Hb|]. unfold scan_visits. cbn [rg_lower rg_upper_exclusive].
  rewrite Hlk, bytes_le_cases, bytes_lt_cases, !bytes_cmp_app, starts_with_app, Hle, Hu.
  pose proof (encode_component_number cx o field value force c Hv Hc) as Hn.
  destruct (field_number value) as [x|].
  - destruct Hn as (v & k & Hw & Hx & Hk & ->). by apply (scan_tests_numeric lo hi v).
  - destruct Hn as (class & p & Hne & ->). by apply (scan_tests_other lo hi).
Qed.
End Ranges.

Module CompoundWitness.
Definition rmp : RmpValue := {| rmp_value_to_vec _ := [] |}.
#[local] Existing Instance rmp.

Definition cx : CompoundTupleContext := mkContext TNode 7 [Property (str_of "tenant"); NodeMetadata NKey].
Definition values : list CompoundFieldValue :=
  [FProperty (Some (PString (str_of "acme"))); FMetadataString (str_of "k1")].
Lemma values_ok : Forall2 value_ok (cx_fields cx) values.
Proof. repeat constructor. Qed.
Lemma count_ok : 1 <= len (cx_fields cx) <= MAX_SECONDARY_INDEX_FIELDS.
Proof. by vm_compute. Qed.

Lemma compound_key_total_witness :
  exists key, encode_compound_tuple_key cx values = Ok key /\ len key <= MAX_COMPOUND_TUPLE_BYTES.
Proof.
  destruct (compound_key_total cx values count_ok values_ok) as (key & ds & He & Hl & _).
  exists key. exact (conj He Hl).
Defined.

Definition d1 : DecodedCompoundComponent := mkDecoded CString (str_of "acme").
Definition d2 : DecodedCompoundComponent := mkDecoded CString (str_of "k1").
Lemma prefix_scan_exact_witness : prefix_scan (key_of [d1]) (key_of [d1; d2]) = true.
Proof.
  apply (prefix_scan_exact [d1] [d1; d2]).
  - repeat constructor; vm_compute; discriminate.
  - repeat constructor; vm_compute; discriminate.
  - by exists [d2].
Defined.

Lemma prefix_lookup_witness :
  exists key prefix, encode_compound_tuple_key cx values = Ok key
    /\ encode_compound_tuple_prefix cx (take 1 values) = Ok prefix /\ prefix_scan prefix key = true.
Proof.
  apply (prefix_lookup_finds_record cx values 1 count_ok values_ok).
  eexists. split; [vm_compute; reflexivity | by vm_compute].
Defined.

Definition lo : option range_bound := Some (mkRangeBound (PInt 1) (1 * 2 ^ 1074) true).
Definition hi : option range_bound := Some (mkRangeBound (PFloat 0x4000000000000000) (2 * 2 ^ 1074) false).
Definition component : ComponentEncoding :=
  match encode_component cx 0 (Property (str_of "tenant")) (FProperty (Some (PUInt 1))) false with
  | Ok c => c | Err _ => mkComponent [] None
  end.
Lemma range_scan_witness :
  exists bounds, compound_range_bounds [] (bound_component lo) (bound_component hi) = Ok bounds
    /\ scan_visits (rg_lower bounds) (rg_upper_exclusive bounds) ([] ++ ce_bytes component ++ []) = true.
Proof.
  destruct (range_scan_exact [] lo hi cx 0 (Property (str_of "tenant")) (FProperty (Some (PUInt 1)))
    false component []) as (bounds & Hb & Hs).
  - split; [cbn; unfold i64; lia | reflexivity].
  - split; [cbn; unfold u64; lia | vm_compute; reflexivity].
  - split; [reflexivity | cbn; unfold u64; lia].
  - exact I.
  - vm_compute. reflexivity.
  - exists bounds. split; [exact Hb|]. rewrite Hs. vm_compute. reflexivity.
Defined.
(** A record of five strings, 5024 bytes in clear: the first is hashed. *)
Module Overflow.
Definition field (k : string) : SecondaryIndexFieldManifest := Property (str_of k).
Definition cx : CompoundTupleContext :=
  mkContext TNode 1 (field <$> ["a"%string; "b"%string; "c"%string; "d"%string; "e"%string]).
Definition chars (n : nat) : str := replicate n (z2b 0x78).
Definition text (n : nat) : CompoundFieldValue := FProperty (Some (PString (chars n))).
Definition lengths : list nat := [1024%nat; 1000%nat; 1000%nat; 1000%nat; 1000%nat].
Definition clear (n : nat) : ComponentEncoding :=
  mkComponent (comp_bytes CString (chars n)) (Some (Z.of_nat n)).

(** Strings up to 1024 bytes stay in clear unless forced. *)
Lemma encode_clear `{RmpValue} o k n :
  (n <= 1024)%nat -> encode_component cx o (field k) (text n) false = Ok (clear n).
Proof.
  intros Hn. unfold encode_component. cbn [validate_value_matches_field mbind result_bind field text].
  unfold encode_property_component, variable, MAX_COMPOUND_COMPONENT_BYTES, chars.
  rewrite length_replicate. destruct (Z.ltb_spec 1024 (Z.of_nat n)); [lia|]. cbn [orb].
  rewrite emit_component_Ok by (rewrite length_replicate; lia). done.
Qed.

Lemma text_ok k n : utf8_valid (chars n) = true -> value_ok (field k) (text n).
Proof. by split. Qed.

Lemma encode_lengths `{RmpValue} :
  encode_all cx 0 (cx_fields cx) (text <$> lengths) (replicate (length (text <$> lengths)) false)
  = Ok (clear <$> lengths).
Proof.
  unfold cx at 2, lengths. cbn [cx_fields fmap list_fmap length replicate encode_all].
  rewrite !encode_clear by (apply Nat.leb_le; vm_compute; reflexivity). done.
Qed.

Lemma first_longest : hashed_first (clear <$> lengths) 0.
Proof.
  exists (clear 1024), 1024. split; [reflexivity|]. split; [reflexivity|]. intros [|[|[|[|[|j]]]]] c l Hc Hl;
    cbn in Hc; try done; injection Hc as <-; injection Hl as <-; by vm_compute.
Qed.

Lemma overflowing_tuple_missed_witness :
  exists key prefix,
    encode_compound_tuple_key (H := rmp) cx (text <$> lengths) = Ok key
    /\ encode_compound_tuple_prefix (H := rmp) cx (take 1 (text <$> lengths)) = Ok prefix
    /\ prefix_scan prefix key = false.
Proof.
  apply (overflowing_tuple_missed_by_prefix (H := rmp) cx (text <$> lengths) (clear <$> lengths) 0 1).
  - by vm_compute.
  - repeat (apply Forall2_cons_2; [apply text_ok; vm_compute; reflexivity|]). constructor.
  - apply encode_lengths.
  - by vm_compute.
  - apply first_longest.
  - lia.
  - by vm_compute.
Defined.
End Overflow.
End CompoundWitness.
