(* ===== verification/Slots.v ===== *)
(** Versioned slots (src/memtable.rs): a value with the history of the values it
    replaced, each stamped with the engine sequence number that wrote it, the
    map update every setter of the memtable shares, and the size estimates. *)
From S2P Require Import Prelude Types.

(** Rust iterates its hash maps in an unspecified order: every model that does
    so takes the order as a parameter. *)
Class HashOrder : Type := {
  hash_iter : forall {K : Type} `{Countable K} {V : Type}, gmap K V -> list (K * V)
}.
Class HashOrderLaws `{HashOrder} : Prop := {
  hash_iter_perm : forall {K : Type} `{Countable K} {V : Type} (m : gmap K V), hash_iter m ≡ₚ map_to_list m
}.

Definition zsum (l : list Z) : Z := foldr Z.add 0 l.

Record SlotVersion (T : Type) : Type := mkVersion { sv_write_seq : Z; sv_value : T }.
Arguments mkVersion {T} _ _.
Arguments sv_write_seq {T} _.
Arguments sv_value {T} _.

Record VersionedSlot (T : Type) : Type := mkSlot {
  vs_head : SlotVersion T;
  vs_history : option (list (SlotVersion T))
}.
Arguments mkSlot {T} _ _.
Arguments vs_head {T} _.
Arguments vs_history {T} _.

Module Slot.
Definition new {T} (write_seq : Z) (value : T) : VersionedSlot T :=
  mkSlot (mkVersion write_seq value) None.

Definition replace {T} (write_seq : Z) (value : T) (slot : VersionedSlot T) : VersionedSlot T :=
  if sv_write_seq (vs_head slot) =? write_seq then mkSlot (mkVersion write_seq value) (vs_history slot)
  else mkSlot (mkVersion write_seq value) (Some (default [] (vs_history slot) ++ [vs_head slot])).

Definition current {T} (slot : VersionedSlot T) : T := sv_value (vs_head slot).

(** The newest version at or below a sequence number, of a list in push order. *)
Fixpoint rev_find {T} (snapshot_seq : Z) (versions : list (SlotVersion T)) : option T :=
  match versions with
  | [] => None
  | v :: versions =>
      match rev_find snapshot_seq versions with
      | Some x => Some x
      | None => if sv_write_seq v <=? snapshot_seq then Some (sv_value v) else None
      end
  end.

Definition at_ {T} (slot : VersionedSlot T) (snapshot_seq : Z) : option T :=
  if sv_write_seq (vs_head slot) <=? snapshot_seq then Some (sv_value (vs_head slot))
  else history ← vs_history slot; rev_find snapshot_seq history.
End Slot.

Inductive RecordState (T : Type) : Type :=
| Live (value : T)
| Tombstone (entry : TombstoneEntry).
Arguments Live {T} _.
Arguments Tombstone {T} _.

Definition slot_option_current {T} (slot : VersionedSlot (option T)) : option T := Slot.current slot.
Definition slot_option_at {T} (slot : VersionedSlot (option T)) (snapshot_seq : Z) : option T :=
  v ← Slot.at_ slot snapshot_seq; v.
Definition slot_option_visible {T} (slot : VersionedSlot (option T)) (snapshot_seq : Z) : bool :=
  match Slot.at_ slot snapshot_seq with Some (Some _) => true | _ => false end.
Definition record_current {T} (slot : VersionedSlot (RecordState T)) : option T :=
  match Slot.current slot with Live value => Some value | Tombstone _ => None end.
Definition record_at {T} (slot : VersionedSlot (RecordState T)) (snapshot_seq : Z)
  : option (RecordState T) := Slot.at_ slot snapshot_seq.

(** ** Size estimates.  Sizes are [usize]; a memtable never nears its range. *)
Definition estimate_slot {T} (value_size : T -> Z) (slot : VersionedSlot T) : Z :=
  8 + value_size (sv_value (vs_head slot))
  + match vs_history slot with
    | Some history => zsum ((fun v => 8 + value_size (sv_value v)) <$> history)
    | None => 0
    end.

Definition estimate_node_record (node : NodeRecord) : Z :=
  120 + len (nr_key node) + len (nr_props node) * 80
  + from_option (fun values : list Z => len values * 4) 0 (nr_dense_vector node)
  + from_option (fun values : list (Z * Z) => len values * 8) 0 (nr_sparse_vector node).
Definition estimate_edge_record (edge : EdgeRecord) : Z := 100 + len (er_props edge) * 80.

Definition estimate_node_record_slot : VersionedSlot (RecordState NodeRecord) -> Z :=
  estimate_slot (fun state =>
    match state with Live node => estimate_node_record node | Tombstone _ => 16 end).
Definition estimate_edge_record_slot : VersionedSlot (RecordState EdgeRecord) -> Z :=
  estimate_slot (fun state =>
    match state with Live edge => estimate_edge_record edge | Tombstone _ => 16 end).
Definition estimate_lookup_slot : VersionedSlot (option Z) -> Z := estimate_slot (fun _ => 16).
Definition estimate_membership_slot : VersionedSlot (option unit) -> Z := estimate_slot (fun _ => 8).
Definition estimate_adj_slot {A} : VersionedSlot (option A) -> Z := estimate_slot (fun _ => 48).

Definition apply_size_delta (total before after : Z) : Z :=
  if before <=? after then total + (after - before) else total - (before - after).

(** ** The map update of every setter: replace the slot in place, or insert a
    new one.  Returns the estimates before and after. *)
Section Put.
Context {K : Type} `{Countable K} {T : Type}.

Definition put_slot (estimate : VersionedSlot T -> Z) (m : gmap K (VersionedSlot T)) (k : K)
    (value : T) (write_seq : Z) : gmap K (VersionedSlot T) * (Z * Z) :=
  match m !! k with
  | Some slot =>
      let slot' := Slot.replace write_seq value slot in
      (<[k := slot']> m, (estimate slot, estimate slot'))
  | None =>
      let slot := Slot.new write_seq value in (<[k := slot]> m, (0, estimate slot))
  end.

(** The sum of a function over a map, as [values().map(..).sum()]. *)
Definition map_sum {V} (f : K -> V -> Z) (m : gmap K V) : Z :=
  map_fold (fun k v acc => f k v + acc) 0 m.
End Put.

(** [entry(owner).or_default()] of a map of maps, then [put_slot]. *)
Definition put_nested {K1 K2 T} `{Countable K1} `{Countable K2} (estimate : VersionedSlot T -> Z)
    (m : gmap K1 (gmap K2 (VersionedSlot T))) (owner : K1) (member : K2) (value : T) (write_seq : Z)
  : gmap K1 (gmap K2 (VersionedSlot T)) * (Z * Z) :=
  let '(members, sizes) := put_slot estimate (default ∅ (m !! owner)) member value write_seq in
  (<[owner := members]> m, sizes).

(** The write a slot of a map goes through, seen from the slot. *)
Definition written {T} (slot : option (VersionedSlot T)) (value : T) (write_seq : Z) : VersionedSlot T :=
  match slot with
  | Some slot => Slot.replace write_seq value slot
  | None => Slot.new write_seq value
  end.

Definition slot_at {T} (slot : option (VersionedSlot T)) (snapshot_seq : Z) : option T :=
  slot ← slot; Slot.at_ slot snapshot_seq.
Definition slot_current {T} (slot : option (VersionedSlot T)) : option T := Slot.current <$> slot.

(** ** Slot lemmas *)
Lemma rev_find_app {T} s (l k : list (SlotVersion T)) :
  Slot.rev_find s (l ++ k) =
  match Slot.rev_find s k with Some x => Some x | None => Slot.rev_find s l end.
Proof.
  induction l as [|v l IH]; cbn; [by destruct (Slot.rev_find s k)|]. rewrite IH.
  by destruct (Slot.rev_find s k).
Qed.

(** A write leaves every earlier snapshot as it was. *)
Lemma slot_at_written_lt {T} (slot : option (VersionedSlot T)) v seq s :
  s < seq -> slot_at (Some (written slot v seq)) s = slot_at slot s.
Proof.
  intros Hs. unfold slot_at, Slot.at_, written, Slot.replace, Slot.new.
  destruct slot as [[[hs hv] hist]|]; cbn; [|by destruct (Z.leb_spec seq s); [lia|]].
  destruct (Z.eqb_spec hs seq) as [->|Hne]; cbn; destruct (Z.leb_spec seq s); try lia; [done|].
  rewrite rev_find_app. cbn. destruct (Z.leb_spec hs s); [done|]. by destruct hist.
Qed.

Lemma slot_current_written {T} (slot : option (VersionedSlot T)) v seq :
  slot_current (Some (written slot v seq)) = Some v.
Proof. unfold written, Slot.replace. destruct slot as [slot|]; [cbn; by case_match | done]. Qed.

Lemma written_head_seq {T} (slot : option (VersionedSlot T)) v seq :
  sv_write_seq (vs_head (written slot v seq)) = seq.
Proof. unfold written, Slot.replace. destruct slot as [slot|]; [cbn; by case_match | done]. Qed.

(** A snapshot at or after the last write sees the current value. *)
Lemma slot_at_ge {T} (slot : VersionedSlot T) s :
  sv_write_seq (vs_head slot) <= s -> Slot.at_ slot s = Some (Slot.current slot).
Proof. intros Hs. unfold Slot.at_. by destruct (Z.leb_spec (sv_write_seq (vs_head slot)) s); [|lia]. Qed.

Section PutFacts.
Context {K : Type} `{Countable K} {T : Type}.

Lemma put_slot_fst (est : VersionedSlot T -> Z) m (k : K) v seq :
  (put_slot est m k v seq).1 = <[k := written (m !! k) v seq]> m.
Proof. unfold put_slot, written. by destruct (m !! k). Qed.

Lemma lookup_put_slot (est : VersionedSlot T -> Z) m (k k' : K) v seq :
  (put_slot est m k v seq).1 !! k' = if decide (k = k') then Some (written (m !! k) v seq) else m !! k'.
Proof.
  rewrite put_slot_fst. case_decide as E; [subst; apply lookup_insert_eq | by apply lookup_insert_ne].
Qed.

Lemma put_slot_sizes (est : VersionedSlot T -> Z) m (k : K) v seq :
  (put_slot est m k v seq).2 = (from_option est 0 (m !! k), est (written (m !! k) v seq)).
Proof. unfold put_slot, written. by destruct (m !! k). Qed.

Lemma map_sum_empty {V} (f : K -> V -> Z) : map_sum f (∅ : gmap K V) = 0.
Proof. apply map_fold_empty. Qed.

Lemma map_sum_insert_fresh {V} (f : K -> V -> Z) k v (m : gmap K V) :
  m !! k = None -> map_sum f (<[k := v]> m) = f k v + map_sum f m.
Proof. intros Hk. unfold map_sum. rewrite map_fold_insert_L; [done | intros; lia | done]. Qed.

Lemma map_sum_delete {V} (f : K -> V -> Z) k (m : gmap K V) :
  map_sum f (delete k m) = map_sum f m - from_option (f k) 0 (m !! k).
Proof.
  destruct (m !! k) as [v|] eqn:E; cbn; [|rewrite delete_id by done; lia].
  rewrite <- (insert_delete_id m k v E) at 2. rewrite map_sum_insert_fresh by apply lookup_delete_eq. lia.
Qed.

Lemma map_sum_insert {V} (f : K -> V -> Z) k v (m : gmap K V) :
  map_sum f (<[k := v]> m) = map_sum f m - from_option (f k) 0 (m !! k) + f k v.
Proof.
  rewrite <- insert_delete_eq, map_sum_insert_fresh by apply lookup_delete_eq.
  rewrite map_sum_delete. lia.
Qed.

Lemma map_sum_nonneg {V} (f : K -> V -> Z) (m : gmap K V) :
  (forall k v, 0 <= f k v) -> 0 <= map_sum f m.
Proof.
  intros Hf. induction m as [|k v m Hk IH] using map_ind; [by rewrite map_sum_empty|].
  rewrite map_sum_insert_fresh by done. specialize (Hf k v). lia.
Qed.
End PutFacts.

(** Lookup in a map of maps. *)
Definition nested_get {K1 K2 V} `{Countable K1} `{Countable K2} (m : gmap K1 (gmap K2 V)) (a : K1) (b : K2)
  : option V := inner ← m !! a; inner !! b.

Lemma nested_get_put {K1 K2 T} `{Countable K1} `{Countable K2} (est : VersionedSlot T -> Z)
    (m : gmap K1 (gmap K2 (VersionedSlot T))) a b a' b' v seq :
  nested_get (put_nested est m a b v seq).1 a' b' =
  if decide ((a, b) = (a', b')) then Some (written (nested_get m a b) v seq) else nested_get m a' b'.
Proof.
  unfold put_nested, nested_get.
  destruct (put_slot est (default ∅ (m !! a)) b v seq) as [ms sz] eqn:E. cbn.
  assert (ms = (put_slot est (default ∅ (m !! a)) b v seq).1) as -> by (by rewrite E).
  destruct (decide (a = a')) as [<-|Ha].
  - rewrite lookup_insert_eq. cbn. rewrite lookup_put_slot.
    destruct (decide (b = b')) as [<-|Hb]; rewrite ?decide_True, ?decide_False by congruence;
      by destruct (m !! a).
  - rewrite lookup_insert_ne by done. by rewrite decide_False by congruence.
Qed.

Lemma put_nested_sizes {K1 K2 T} `{Countable K1} `{Countable K2} (est : VersionedSlot T -> Z)
    (m : gmap K1 (gmap K2 (VersionedSlot T))) a b v seq :
  (put_nested est m a b v seq).2
  = (from_option est 0 (nested_get m a b), est (written (nested_get m a b) v seq)).
Proof.
  unfold put_nested, nested_get.
  destruct (put_slot est (default ∅ (m !! a)) b v seq) as [ms sz] eqn:E. cbn.
  assert (sz = (put_slot est (default ∅ (m !! a)) b v seq).2) as -> by (by rewrite E).
  rewrite put_slot_sizes. by destruct (m !! a).
Qed.

Lemma map_sum_put {K T} `{Countable K} (est : VersionedSlot T -> Z) (f : K -> VersionedSlot T -> Z) m k v seq :
  map_sum f (put_slot est m k v seq).1
  = map_sum f m - from_option (f k) 0 (m !! k) + f k (written (m !! k) v seq).
Proof. rewrite put_slot_fst. apply map_sum_insert. Qed.

Lemma map_sum_put_nested {K1 K2 T} `{Countable K1} `{Countable K2} (est : VersionedSlot T -> Z)
    (f : K2 -> VersionedSlot T -> Z) (m : gmap K1 (gmap K2 (VersionedSlot T))) a b v seq :
  map_sum (fun _ ms => map_sum f ms) (put_nested est m a b v seq).1
  = map_sum (fun _ ms => map_sum f ms) m
    - from_option (f b) 0 (nested_get m a b) + f b (written (nested_get m a b) v seq).
Proof.
  unfold put_nested, nested_get.
  destruct (put_slot est (default ∅ (m !! a)) b v seq) as [ms sz] eqn:E. cbn.
  assert (ms = (put_slot est (default ∅ (m !! a)) b v seq).1) as -> by (by rewrite E).
  rewrite map_sum_insert, map_sum_put.
  destruct (m !! a) as [inner|]; cbn; [lia|]. rewrite map_sum_empty, lookup_empty. cbn. lia.
Qed.
