(* ===== verification/Memtable.v ===== *)
(** The memtable (src/memtable.rs): the state of versioned slots, the setters,
    the maintenance of the secondary indexes and the application of WAL
    operations.  A Rust panic ([expect], [unreachable!]) is [None]. *)
From S2P Require Import Prelude Types Floats PropertyValue CompoundKey Slots.

Record AdjEntry : Type := mkAdjEntry {
  ae_edge_id : Z;
  ae_label_id : Z;
  ae_neighbor_id : Z;
  ae_weight : Z;
  ae_valid_from : Z;
  ae_valid_to : Z
}.

Abbreviation LookupSlot := (VersionedSlot (option Z)).
Abbreviation MembershipSlot := (VersionedSlot (option unit)).
Abbreviation AdjSlot := (VersionedSlot (option AdjEntry)).

Record MemtableState : Type := mkState {
  ms_estimated_bytes : Z;
  ms_live_node_count : Z;
  ms_live_edge_count : Z;
  ms_nodes : gmap Z (VersionedSlot (RecordState NodeRecord));
  ms_edges : gmap Z (VersionedSlot (RecordState EdgeRecord));
  ms_node_tombstones : gmap Z MembershipSlot;
  ms_edge_tombstones : gmap Z MembershipSlot;
  ms_node_key_index : gmap Z (gmap str LookupSlot);
  ms_edge_triple_index : gmap (Z * Z * Z) LookupSlot;
  ms_adj_out : gmap Z (gmap Z AdjSlot);
  ms_adj_in : gmap Z (gmap Z AdjSlot);
  ms_ordered_edge_ids : gmap Z MembershipSlot;
  ms_label_node_index : gmap (Z * Z) MembershipSlot;
  ms_ordered_label_edge_index : gmap (Z * Z) MembershipSlot;
  ms_ordered_adj_out : gmap Z (gmap Z AdjSlot);
  ms_ordered_adj_in : gmap Z (gmap Z AdjSlot);
  ms_label_edge_index : gmap Z (gmap Z MembershipSlot);
  ms_time_node_index : gmap (Z * Z * Z) MembershipSlot;
  ms_secondary_index_declarations : gmap Z SecondaryIndexManifestEntry;
  ms_secondary_eq_by_prop : gmap Z (gmap str (list Z));
  ms_secondary_range_by_prop : gmap Z (gmap str (list Z));
  ms_secondary_edge_eq_by_prop : gmap Z (gmap str (list Z));
  ms_secondary_edge_range_by_prop : gmap Z (gmap str (list Z));
  ms_secondary_node_field_indexes_by_label : gmap Z (list Z);
  ms_secondary_edge_field_indexes_by_label : gmap Z (list Z);
  ms_secondary_eq_state : gmap Z (gmap Z (gmap Z MembershipSlot));
  ms_secondary_range_state : gmap Z (gmap (list byte * Z) MembershipSlot);
  ms_secondary_compound_state : gmap Z (gmap (list byte * Z) MembershipSlot)
}.

Definition empty_state : MemtableState :=
 mkState 0 0 0 ∅ ∅ ∅ ∅ ∅ ∅ ∅ ∅ ∅ ∅ ∅ ∅ ∅ ∅ ∅ ∅ ∅ ∅ ∅ ∅ ∅ ∅ ∅ ∅ ∅.

(** One update function per field. *)
Definition upd_estimated_bytes (v : Z) (s : MemtableState) : MemtableState :=
  mkState v (ms_live_node_count s) (ms_live_edge_count s) (ms_nodes s) (ms_edges s)
  (ms_node_tombstones s) (ms_edge_tombstones s) (ms_node_key_index s) (ms_edge_triple_index s)
  (ms_adj_out s) (ms_adj_in s) (ms_ordered_edge_ids s) (ms_label_node_index s)
  (ms_ordered_label_edge_index s) (ms_ordered_adj_out s) (ms_ordered_adj_in s) (ms_label_edge_index s)
  (ms_time_node_index s) (ms_secondary_index_declarations s) (ms_secondary_eq_by_prop s)
  (ms_secondary_range_by_prop s) (ms_secondary_edge_eq_by_prop s) (ms_secondary_edge_range_by_prop s)
  (ms_secondary_node_field_indexes_by_label s) (ms_secondary_edge_field_indexes_by_label s)
  (ms_secondary_eq_state s) (ms_secondary_range_state s) (ms_secondary_compound_state s).
Definition upd_live_node_count (v : Z) (s : MemtableState) : MemtableState :=
  mkState (ms_estimated_bytes s) v (ms_live_edge_count s) (ms_nodes s) (ms_edges s)
  (ms_node_tombstones s) (ms_edge_tombstones s) (ms_node_key_index s) (ms_edge_triple_index s)
  (ms_adj_out s) (ms_adj_in s) (ms_ordered_edge_ids s) (ms_label_node_index s)
  (ms_ordered_label_edge_index s) (ms_ordered_adj_out s) (ms_ordered_adj_in s) (ms_label_edge_index s)
  (ms_time_node_index s) (ms_secondary_index_declarations s) (ms_secondary_eq_by_prop s)
  (ms_secondary_range_by_prop s) (ms_secondary_edge_eq_by_prop s) (ms_secondary_edge_range_by_prop s)
  (ms_secondary_node_field_indexes_by_label s) (ms_secondary_edge_field_indexes_by_label s)
  (ms_secondary_eq_state s) (ms_secondary_range_state s) (ms_secondary_compound_state s).
Definition upd_live_edge_count (v : Z) (s : MemtableState) : MemtableState :=
  mkState (ms_estimated_bytes s) (ms_live_node_count s) v (ms_nodes s) (ms_edges s)
  (ms_node_tombstones s) (ms_edge_tombstones s) (ms_node_key_index s) (ms_edge_triple_index s)
  (ms_adj_out s) (ms_adj_in s) (ms_ordered_edge_ids s) (ms_label_node_index s)
  (ms_ordered_label_edge_index s) (ms_ordered_adj_out s) (ms_ordered_adj_in s) (ms_label_edge_index s)
  (ms_time_node_index s) (ms_secondary_index_declarations s) (ms_secondary_eq_by_prop s)
  (ms_secondary_range_by_prop s) (ms_secondary_edge_eq_by_prop s) (ms_secondary_edge_range_by_prop s)
  (ms_secondary_node_field_indexes_by_label s) (ms_secondary_edge_field_indexes_by_label s)
  (ms_secondary_eq_state s) (ms_secondary_range_state s) (ms_secondary_compound_state s).
Definition upd_nodes (v : gmap Z (VersionedSlot (RecordState NodeRecord))) (s : MemtableState) : MemtableState :=
  mkState (ms_estimated_bytes s) (ms_live_node_count s) (ms_live_edge_count s) v (ms_edges s)
  (ms_node_tombstones s) (ms_edge_tombstones s) (ms_node_key_index s) (ms_edge_triple_index s)
  (ms_adj_out s) (ms_adj_in s) (ms_ordered_edge_ids s) (ms_label_node_index s)
  (ms_ordered_label_edge_index s) (ms_ordered_adj_out s) (ms_ordered_adj_in s) (ms_label_edge_index s)
  (ms_time_node_index s) (ms_secondary_index_declarations s) (ms_secondary_eq_by_prop s)
  (ms_secondary_range_by_prop s) (ms_secondary_edge_eq_by_prop s) (ms_secondary_edge_range_by_prop s)
  (ms_secondary_node_field_indexes_by_label s) (ms_secondary_edge_field_indexes_by_label s)
  (ms_secondary_eq_state s) (ms_secondary_range_state s) (ms_secondary_compound_state s).
Definition upd_edges (v : gmap Z (VersionedSlot (RecordState EdgeRecord))) (s : MemtableState) : MemtableState :=
  mkState (ms_estimated_bytes s) (ms_live_node_count s) (ms_live_edge_count s) (ms_nodes s) v
  (ms_node_tombstones s) (ms_edge_tombstones s) (ms_node_key_index s) (ms_edge_triple_index s)
  (ms_adj_out s) (ms_adj_in s) (ms_ordered_edge_ids s) (ms_label_node_index s)
  (ms_ordered_label_edge_index s) (ms_ordered_adj_out s) (ms_ordered_adj_in s) (ms_label_edge_index s)
  (ms_time_node_index s) (ms_secondary_index_declarations s) (ms_secondary_eq_by_prop s)
  (ms_secondary_range_by_prop s) (ms_secondary_edge_eq_by_prop s) (ms_secondary_edge_range_by_prop s)
  (ms_secondary_node_field_indexes_by_label s) (ms_secondary_edge_field_indexes_by_label s)
  (ms_secondary_eq_state s) (ms_secondary_range_state s) (ms_secondary_compound_state s).
Definition upd_node_tombstones (v : gmap Z MembershipSlot) (s : MemtableState) : MemtableState :=
  mkState (ms_estimated_bytes s) (ms_live_node_count s) (ms_live_edge_count s) (ms_nodes s) (ms_edges s)
  v (ms_edge_tombstones s) (ms_node_key_index s) (ms_edge_triple_index s) (ms_adj_out s) (ms_adj_in s)
  (ms_ordered_edge_ids s) (ms_label_node_index s) (ms_ordered_label_edge_index s) (ms_ordered_adj_out s)
  (ms_ordered_adj_in s) (ms_label_edge_index s) (ms_time_node_index s)
  (ms_secondary_index_declarations s) (ms_secondary_eq_by_prop s) (ms_secondary_range_by_prop s)
  (ms_secondary_edge_eq_by_prop s) (ms_secondary_edge_range_by_prop s)
  (ms_secondary_node_field_indexes_by_label s) (ms_secondary_edge_field_indexes_by_label s)
  (ms_secondary_eq_state s) (ms_secondary_range_state s) (ms_secondary_compound_state s).
Definition upd_edge_tombstones (v : gmap Z MembershipSlot) (s : MemtableState) : MemtableState :=
  mkState (ms_estimated_bytes s) (ms_live_node_count s) (ms_live_edge_count s) (ms_nodes s) (ms_edges s)
  (ms_node_tombstones s) v (ms_node_key_index s) (ms_edge_triple_index s) (ms_adj_out s) (ms_adj_in s)
  (ms_ordered_edge_ids s) (ms_label_node_index s) (ms_ordered_label_edge_index s) (ms_ordered_adj_out s)
  (ms_ordered_adj_in s) (ms_label_edge_index s) (ms_time_node_index s)
  (ms_secondary_index_declarations s) (ms_secondary_eq_by_prop s) (ms_secondary_range_by_prop s)
  (ms_secondary_edge_eq_by_prop s) (ms_secondary_edge_range_by_prop s)
  (ms_secondary_node_field_indexes_by_label s) (ms_secondary_edge_field_indexes_by_label s)
  (ms_secondary_eq_state s) (ms_secondary_range_state s) (ms_secondary_compound_state s).
Definition upd_node_key_index (v : gmap Z (gmap str LookupSlot)) (s : MemtableState) : MemtableState :=
  mkState (ms_estimated_bytes s) (ms_live_node_count s) (ms_live_edge_count s) (ms_nodes s) (ms_edges s)
  (ms_node_tombstones s) (ms_edge_tombstones s) v (ms_edge_triple_index s) (ms_adj_out s) (ms_adj_in s)
  (ms_ordered_edge_ids s) (ms_label_node_index s) (ms_ordered_label_edge_index s) (ms_ordered_adj_out s)
  (ms_ordered_adj_in s) (ms_label_edge_index s) (ms_time_node_index s)
  (ms_secondary_index_declarations s) (ms_secondary_eq_by_prop s) (ms_secondary_range_by_prop s)
  (ms_secondary_edge_eq_by_prop s) (ms_secondary_edge_range_by_prop s)
  (ms_secondary_node_field_indexes_by_label s) (ms_secondary_edge_field_indexes_by_label s)
  (ms_secondary_eq_state s) (ms_secondary_range_state s) (ms_secondary_compound_state s).
Definition upd_edge_triple_index (v : gmap (Z * Z * Z) LookupSlot) (s : MemtableState) : MemtableState :=
  mkState (ms_estimated_bytes s) (ms_live_node_count s) (ms_live_edge_count s) (ms_nodes s) (ms_edges s)
  (ms_node_tombstones s) (ms_edge_tombstones s) (ms_node_key_index s) v (ms_adj_out s) (ms_adj_in s)
  (ms_ordered_edge_ids s) (ms_label_node_index s) (ms_ordered_label_edge_index s) (ms_ordered_adj_out s)
  (ms_ordered_adj_in s) (ms_label_edge_index s) (ms_time_node_index s)
  (ms_secondary_index_declarations s) (ms_secondary_eq_by_prop s) (ms_secondary_range_by_prop s)
  (ms_secondary_edge_eq_by_prop s) (ms_secondary_edge_range_by_prop s)
  (ms_secondary_node_field_indexes_by_label s) (ms_secondary_edge_field_indexes_by_label s)
  (ms_secondary_eq_state s) (ms_secondary_range_state s) (ms_secondary_compound_state s).
Definition upd_adj_out (v : gmap Z (gmap Z AdjSlot)) (s : MemtableState) : MemtableState :=
  mkState (ms_estimated_bytes s) (ms_live_node_count s) (ms_live_edge_count s) (ms_nodes s) (ms_edges s)
  (ms_node_tombstones s) (ms_edge_tombstones s) (ms_node_key_index s) (ms_edge_triple_index s) v
  (ms_adj_in s) (ms_ordered_edge_ids s) (ms_label_node_index s) (ms_ordered_label_edge_index s)
  (ms_ordered_adj_out s) (ms_ordered_adj_in s) (ms_label_edge_index s) (ms_time_node_index s)
  (ms_secondary_index_declarations s) (ms_secondary_eq_by_prop s) (ms_secondary_range_by_prop s)
  (ms_secondary_edge_eq_by_prop s) (ms_secondary_edge_range_by_prop s)
  (ms_secondary_node_field_indexes_by_label s) (ms_secondary_edge_field_indexes_by_label s)
  (ms_secondary_eq_state s) (ms_secondary_range_state s) (ms_secondary_compound_state s).
Definition upd_adj_in (v : gmap Z (gmap Z AdjSlot)) (s : MemtableState) : MemtableState :=
  mkState (ms_estimated_bytes s) (ms_live_node_count s) (ms_live_edge_count s) (ms_nodes s) (ms_edges s)
  (ms_node_tombstones s) (ms_edge_tombstones s) (ms_node_key_index s) (ms_edge_triple_index s)
  (ms_adj_out s) v (ms_ordered_edge_ids s) (ms_label_node_index s) (ms_ordered_label_edge_index s)
  (ms_ordered_adj_out s) (ms_ordered_adj_in s) (ms_label_edge_index s) (ms_time_node_index s)
  (ms_secondary_index_declarations s) (ms_secondary_eq_by_prop s) (ms_secondary_range_by_prop s)
  (ms_secondary_edge_eq_by_prop s) (ms_secondary_edge_range_by_prop s)
  (ms_secondary_node_field_indexes_by_label s) (ms_secondary_edge_field_indexes_by_label s)
  (ms_secondary_eq_state s) (ms_secondary_range_state s) (ms_secondary_compound_state s).
Definition upd_ordered_edge_ids (v : gmap Z MembershipSlot) (s : MemtableState) : MemtableState :=
  mkState (ms_estimated_bytes s) (ms_live_node_count s) (ms_live_edge_count s) (ms_nodes s) (ms_edges s)
  (ms_node_tombstones s) (ms_edge_tombstones s) (ms_node_key_index s) (ms_edge_triple_index s)
  (ms_adj_out s) (ms_adj_in s) v (ms_label_node_index s) (ms_ordered_label_edge_index s)
  (ms_ordered_adj_out s) (ms_ordered_adj_in s) (ms_label_edge_index s) (ms_time_node_index s)
  (ms_secondary_index_declarations s) (ms_secondary_eq_by_prop s) (ms_secondary_range_by_prop s)
  (ms_secondary_edge_eq_by_prop s) (ms_secondary_edge_range_by_prop s)
  (ms_secondary_node_field_indexes_by_label s) (ms_secondary_edge_field_indexes_by_label s)
  (ms_secondary_eq_state s) (ms_secondary_range_state s) (ms_secondary_compound_state s).
Definition upd_label_node_index (v : gmap (Z * Z) MembershipSlot) (s : MemtableState) : MemtableState :=
  mkState (ms_estimated_bytes s) (ms_live_node_count s) (ms_live_edge_count s) (ms_nodes s) (ms_edges s)
  (ms_node_tombstones s) (ms_edge_tombstones s) (ms_node_key_index s) (ms_edge_triple_index s)
  (ms_adj_out s) (ms_adj_in s) (ms_ordered_edge_ids s) v (ms_ordered_label_edge_index s)
  (ms_ordered_adj_out s) (ms_ordered_adj_in s) (ms_label_edge_index s) (ms_time_node_index s)
  (ms_secondary_index_declarations s) (ms_secondary_eq_by_prop s) (ms_secondary_range_by_prop s)
  (ms_secondary_edge_eq_by_prop s) (ms_secondary_edge_range_by_prop s)
  (ms_secondary_node_field_indexes_by_label s) (ms_secondary_edge_field_indexes_by_label s)
  (ms_secondary_eq_state s) (ms_secondary_range_state s) (ms_secondary_compound_state s).
Definition upd_ordered_label_edge_index (v : gmap (Z * Z) MembershipSlot) (s : MemtableState) : MemtableState :=
  mkState (ms_estimated_bytes s) (ms_live_node_count s) (ms_live_edge_count s) (ms_nodes s) (ms_edges s)
  (ms_node_tombstones s) (ms_edge_tombstones s) (ms_node_key_index s) (ms_edge_triple_index s)
  (ms_adj_out s) (ms_adj_in s) (ms_ordered_edge_ids s) (ms_label_node_index s) v (ms_ordered_adj_out s)
  (ms_ordered_adj_in s) (ms_label_edge_index s) (ms_time_node_index s)
  (ms_secondary_index_declarations s) (ms_secondary_eq_by_prop s) (ms_secondary_range_by_prop s)
  (ms_secondary_edge_eq_by_prop s) (ms_secondary_edge_range_by_prop s)
  (ms_secondary_node_field_indexes_by_label s) (ms_secondary_edge_field_indexes_by_label s)
  (ms_secondary_eq_state s) (ms_secondary_range_state s) (ms_secondary_compound_state s).
Definition upd_ordered_adj_out (v : gmap Z (gmap Z AdjSlot)) (s : MemtableState) : MemtableState :=
  mkState (ms_estimated_bytes s) (ms_live_node_count s) (ms_live_edge_count s) (ms_nodes s) (ms_edges s)
  (ms_node_tombstones s) (ms_edge_tombstones s) (ms_node_key_index s) (ms_edge_triple_index s)
  (ms_adj_out s) (ms_adj_in s) (ms_ordered_edge_ids s) (ms_label_node_index s)
  (ms_ordered_label_edge_index s) v (ms_ordered_adj_in s) (ms_label_edge_index s) (ms_time_node_index s)
  (ms_secondary_index_declarations s) (ms_secondary_eq_by_prop s) (ms_secondary_range_by_prop s)
  (ms_secondary_edge_eq_by_prop s) (ms_secondary_edge_range_by_prop s)
  (ms_secondary_node_field_indexes_by_label s) (ms_secondary_edge_field_indexes_by_label s)
  (ms_secondary_eq_state s) (ms_secondary_range_state s) (ms_secondary_compound_state s).
Definition upd_ordered_adj_in (v : gmap Z (gmap Z AdjSlot)) (s : MemtableState) : MemtableState :=
  mkState (ms_estimated_bytes s) (ms_live_node_count s) (ms_live_edge_count s) (ms_nodes s) (ms_edges s)
  (ms_node_tombstones s) (ms_edge_tombstones s) (ms_node_key_index s) (ms_edge_triple_index s)
  (ms_adj_out s) (ms_adj_in s) (ms_ordered_edge_ids s) (ms_label_node_index s)
  (ms_ordered_label_edge_index s) (ms_ordered_adj_out s) v (ms_label_edge_index s)
  (ms_time_node_index s) (ms_secondary_index_declarations s) (ms_secondary_eq_by_prop s)
  (ms_secondary_range_by_prop s) (ms_secondary_edge_eq_by_prop s) (ms_secondary_edge_range_by_prop s)
  (ms_secondary_node_field_indexes_by_label s) (ms_secondary_edge_field_indexes_by_label s)
  (ms_secondary_eq_state s) (ms_secondary_range_state s) (ms_secondary_compound_state s).
Definition upd_label_edge_index (v : gmap Z (gmap Z MembershipSlot)) (s : MemtableState) : MemtableState :=
  mkState (ms_estimated_bytes s) (ms_live_node_count s) (ms_live_edge_count s) (ms_nodes s) (ms_edges s)
  (ms_node_tombstones s) (ms_edge_tombstones s) (ms_node_key_index s) (ms_edge_triple_index s)
  (ms_adj_out s) (ms_adj_in s) (ms_ordered_edge_ids s) (ms_label_node_index s)
  (ms_ordered_label_edge_index s) (ms_ordered_adj_out s) (ms_ordered_adj_in s) v (ms_time_node_index s)
  (ms_secondary_index_declarations s) (ms_secondary_eq_by_prop s) (ms_secondary_range_by_prop s)
  (ms_secondary_edge_eq_by_prop s) (ms_secondary_edge_range_by_prop s)
  (ms_secondary_node_field_indexes_by_label s) (ms_secondary_edge_field_indexes_by_label s)
  (ms_secondary_eq_state s) (ms_secondary_range_state s) (ms_secondary_compound_state s).
Definition upd_time_node_index (v : gmap (Z * Z * Z) MembershipSlot) (s : MemtableState) : MemtableState :=
  mkState (ms_estimated_bytes s) (ms_live_node_count s) (ms_live_edge_count s) (ms_nodes s) (ms_edges s)
  (ms_node_tombstones s) (ms_edge_tombstones s) (ms_node_key_index s) (ms_edge_triple_index s)
  (ms_adj_out s) (ms_adj_in s) (ms_ordered_edge_ids s) (ms_label_node_index s)
  (ms_ordered_label_edge_index s) (ms_ordered_adj_out s) (ms_ordered_adj_in s) (ms_label_edge_index s) v
  (ms_secondary_index_declarations s) (ms_secondary_eq_by_prop s) (ms_secondary_range_by_prop s)
  (ms_secondary_edge_eq_by_prop s) (ms_secondary_edge_range_by_prop s)
  (ms_secondary_node_field_indexes_by_label s) (ms_secondary_edge_field_indexes_by_label s)
  (ms_secondary_eq_state s) (ms_secondary_range_state s) (ms_secondary_compound_state s).
Definition upd_secondary_index_declarations (v : gmap Z SecondaryIndexManifestEntry) (s : MemtableState) : MemtableState :=
  mkState (ms_estimated_bytes s) (ms_live_node_count s) (ms_live_edge_count s) (ms_nodes s) (ms_edges s)
  (ms_node_tombstones s) (ms_edge_tombstones s) (ms_node_key_index s) (ms_edge_triple_index s)
  (ms_adj_out s) (ms_adj_in s) (ms_ordered_edge_ids s) (ms_label_node_index s)
  (ms_ordered_label_edge_index s) (ms_ordered_adj_out s) (ms_ordered_adj_in s) (ms_label_edge_index s)
  (ms_time_node_index s) v (ms_secondary_eq_by_prop s) (ms_secondary_range_by_prop s)
  (ms_secondary_edge_eq_by_prop s) (ms_secondary_edge_range_by_prop s)
  (ms_secondary_node_field_indexes_by_label s) (ms_secondary_edge_field_indexes_by_label s)
  (ms_secondary_eq_state s) (ms_secondary_range_state s) (ms_secondary_compound_state s).
Definition upd_secondary_eq_by_prop (v : gmap Z (gmap str (list Z))) (s : MemtableState) : MemtableState :=
  mkState (ms_estimated_bytes s) (ms_live_node_count s) (ms_live_edge_count s) (ms_nodes s) (ms_edges s)
  (ms_node_tombstones s) (ms_edge_tombstones s) (ms_node_key_index s) (ms_edge_triple_index s)
  (ms_adj_out s) (ms_adj_in s) (ms_ordered_edge_ids s) (ms_label_node_index s)
  (ms_ordered_label_edge_index s) (ms_ordered_adj_out s) (ms_ordered_adj_in s) (ms_label_edge_index s)
  (ms_time_node_index s) (ms_secondary_index_declarations s) v (ms_secondary_range_by_prop s)
  (ms_secondary_edge_eq_by_prop s) (ms_secondary_edge_range_by_prop s)
  (ms_secondary_node_field_indexes_by_label s) (ms_secondary_edge_field_indexes_by_label s)
  (ms_secondary_eq_state s) (ms_secondary_range_state s) (ms_secondary_compound_state s).
Definition upd_secondary_range_by_prop (v : gmap Z (gmap str (list Z))) (s : MemtableState) : MemtableState :=
  mkState (ms_estimated_bytes s) (ms_live_node_count s) (ms_live_edge_count s) (ms_nodes s) (ms_edges s)
  (ms_node_tombstones s) (ms_edge_tombstones s) (ms_node_key_index s) (ms_edge_triple_index s)
  (ms_adj_out s) (ms_adj_in s) (ms_ordered_edge_ids s) (ms_label_node_index s)
  (ms_ordered_label_edge_index s) (ms_ordered_adj_out s) (ms_ordered_adj_in s) (ms_label_edge_index s)
  (ms_time_node_index s) (ms_secondary_index_declarations s) (ms_secondary_eq_by_prop s) v
  (ms_secondary_edge_eq_by_prop s) (ms_secondary_edge_range_by_prop s)
  (ms_secondary_node_field_indexes_by_label s) (ms_secondary_edge_field_indexes_by_label s)
  (ms_secondary_eq_state s) (ms_secondary_range_state s) (ms_secondary_compound_state s).
Definition upd_secondary_edge_eq_by_prop (v : gmap Z (gmap str (list Z))) (s : MemtableState) : MemtableState :=
  mkState (ms_estimated_bytes s) (ms_live_node_count s) (ms_live_edge_count s) (ms_nodes s) (ms_edges s)
  (ms_node_tombstones s) (ms_edge_tombstones s) (ms_node_key_index s) (ms_edge_triple_index s)
  (ms_adj_out s) (ms_adj_in s) (ms_ordered_edge_ids s) (ms_label_node_index s)
  (ms_ordered_label_edge_index s) (ms_ordered_adj_out s) (ms_ordered_adj_in s) (ms_label_edge_index s)
  (ms_time_node_index s) (ms_secondary_index_declarations s) (ms_secondary_eq_by_prop s)
  (ms_secondary_range_by_prop s) v (ms_secondary_edge_range_by_prop s)
  (ms_secondary_node_field_indexes_by_label s) (ms_secondary_edge_field_indexes_by_label s)
  (ms_secondary_eq_state s) (ms_secondary_range_state s) (ms_secondary_compound_state s).
Definition upd_secondary_edge_range_by_prop (v : gmap Z (gmap str (list Z))) (s : MemtableState) : MemtableState :=
  mkState (ms_estimated_bytes s) (ms_live_node_count s) (ms_live_edge_count s) (ms_nodes s) (ms_edges s)
  (ms_node_tombstones s) (ms_edge_tombstones s) (ms_node_key_index s) (ms_edge_triple_index s)
  (ms_adj_out s) (ms_adj_in s) (ms_ordered_edge_ids s) (ms_label_node_index s)
  (ms_ordered_label_edge_index s) (ms_ordered_adj_out s) (ms_ordered_adj_in s) (ms_label_edge_index s)
  (ms_time_node_index s) (ms_secondary_index_declarations s) (ms_secondary_eq_by_prop s)
  (ms_secondary_range_by_prop s) (ms_secondary_edge_eq_by_prop s) v
  (ms_secondary_node_field_indexes_by_label s) (ms_secondary_edge_field_indexes_by_label s)
  (ms_secondary_eq_state s) (ms_secondary_range_state s) (ms_secondary_compound_state s).
Definition upd_secondary_node_field_indexes_by_label (v : gmap Z (list Z)) (s : MemtableState) : MemtableState :=
  mkState (ms_estimated_bytes s) (ms_live_node_count s) (ms_live_edge_count s) (ms_nodes s) (ms_edges s)
  (ms_node_tombstones s) (ms_edge_tombstones s) (ms_node_key_index s) (ms_edge_triple_index s)
  (ms_adj_out s) (ms_adj_in s) (ms_ordered_edge_ids s) (ms_label_node_index s)
  (ms_ordered_label_edge_index s) (ms_ordered_adj_out s) (ms_ordered_adj_in s) (ms_label_edge_index s)
  (ms_time_node_index s) (ms_secondary_index_declarations s) (ms_secondary_eq_by_prop s)
  (ms_secondary_range_by_prop s) (ms_secondary_edge_eq_by_prop s) (ms_secondary_edge_range_by_prop s) v
  (ms_secondary_edge_field_indexes_by_label s) (ms_secondary_eq_state s) (ms_secondary_range_state s)
  (ms_secondary_compound_state s).
Definition upd_secondary_edge_field_indexes_by_label (v : gmap Z (list Z)) (s : MemtableState) : MemtableState :=
  mkState (ms_estimated_bytes s) (ms_live_node_count s) (ms_live_edge_count s) (ms_nodes s) (ms_edges s)
  (ms_node_tombstones s) (ms_edge_tombstones s) (ms_node_key_index s) (ms_edge_triple_index s)
  (ms_adj_out s) (ms_adj_in s) (ms_ordered_edge_ids s) (ms_label_node_index s)
  (ms_ordered_label_edge_index s) (ms_ordered_adj_out s) (ms_ordered_adj_in s) (ms_label_edge_index s)
  (ms_time_node_index s) (ms_secondary_index_declarations s) (ms_secondary_eq_by_prop s)
  (ms_secondary_range_by_prop s) (ms_secondary_edge_eq_by_prop s) (ms_secondary_edge_range_by_prop s)
  (ms_secondary_node_field_indexes_by_label s) v (ms_secondary_eq_state s) (ms_secondary_range_state s)
  (ms_secondary_compound_state s).
Definition upd_secondary_eq_state (v : gmap Z (gmap Z (gmap Z MembershipSlot))) (s : MemtableState) : MemtableState :=
  mkState (ms_estimated_bytes s) (ms_live_node_count s) (ms_live_edge_count s) (ms_nodes s) (ms_edges s)
  (ms_node_tombstones s) (ms_edge_tombstones s) (ms_node_key_index s) (ms_edge_triple_index s)
  (ms_adj_out s) (ms_adj_in s) (ms_ordered_edge_ids s) (ms_label_node_index s)
  (ms_ordered_label_edge_index s) (ms_ordered_adj_out s) (ms_ordered_adj_in s) (ms_label_edge_index s)
  (ms_time_node_index s) (ms_secondary_index_declarations s) (ms_secondary_eq_by_prop s)
  (ms_secondary_range_by_prop s) (ms_secondary_edge_eq_by_prop s) (ms_secondary_edge_range_by_prop s)
  (ms_secondary_node_field_indexes_by_label s) (ms_secondary_edge_field_indexes_by_label s) v
  (ms_secondary_range_state s) (ms_secondary_compound_state s).
Definition upd_secondary_range_state (v : gmap Z (gmap (list byte * Z) MembershipSlot)) (s : MemtableState) : MemtableState :=
  mkState (ms_estimated_bytes s) (ms_live_node_count s) (ms_live_edge_count s) (ms_nodes s) (ms_edges s)
  (ms_node_tombstones s) (ms_edge_tombstones s) (ms_node_key_index s) (ms_edge_triple_index s)
  (ms_adj_out s) (ms_adj_in s) (ms_ordered_edge_ids s) (ms_label_node_index s)
  (ms_ordered_label_edge_index s) (ms_ordered_adj_out s) (ms_ordered_adj_in s) (ms_label_edge_index s)
  (ms_time_node_index s) (ms_secondary_index_declarations s) (ms_secondary_eq_by_prop s)
  (ms_secondary_range_by_prop s) (ms_secondary_edge_eq_by_prop s) (ms_secondary_edge_range_by_prop s)
  (ms_secondary_node_field_indexes_by_label s) (ms_secondary_edge_field_indexes_by_label s)
  (ms_secondary_eq_state s) v (ms_secondary_compound_state s).
Definition upd_secondary_compound_state (v : gmap Z (gmap (list byte * Z) MembershipSlot)) (s : MemtableState) : MemtableState :=
  mkState (ms_estimated_bytes s) (ms_live_node_count s) (ms_live_edge_count s) (ms_nodes s) (ms_edges s)
  (ms_node_tombstones s) (ms_edge_tombstones s) (ms_node_key_index s) (ms_edge_triple_index s)
  (ms_adj_out s) (ms_adj_in s) (ms_ordered_edge_ids s) (ms_label_node_index s)
  (ms_ordered_label_edge_index s) (ms_ordered_adj_out s) (ms_ordered_adj_in s) (ms_label_edge_index s)
  (ms_time_node_index s) (ms_secondary_index_declarations s) (ms_secondary_eq_by_prop s)
  (ms_secondary_range_by_prop s) (ms_secondary_edge_eq_by_prop s) (ms_secondary_edge_range_by_prop s)
  (ms_secondary_node_field_indexes_by_label s) (ms_secondary_edge_field_indexes_by_label s)
  (ms_secondary_eq_state s) (ms_secondary_range_state s) v.

Definition presence (present : bool) : option unit := if present then Some tt else None.

(** ** Setters *)
Definition resize (before after : Z) (st : MemtableState) : MemtableState :=
  upd_estimated_bytes (apply_size_delta (ms_estimated_bytes st) before after) st.
(** Stores an updated map and accounts for its size. *)
Definition store {M} (upd : M -> MemtableState -> MemtableState) (r : M * (Z * Z)) (st : MemtableState)
  : MemtableState := let '(m, (before, after)) := r in resize before after (upd m st).

Definition set_node_state (id : Z) (state : RecordState NodeRecord) (write_seq : Z) (st : MemtableState) :=
  store upd_nodes (put_slot estimate_node_record_slot (ms_nodes st) id state write_seq) st.
Definition set_edge_state (id : Z) (state : RecordState EdgeRecord) (write_seq : Z) (st : MemtableState) :=
  store upd_edges (put_slot estimate_edge_record_slot (ms_edges st) id state write_seq) st.

Definition set_node_key (label_id : Z) (key : str) (value : option Z) (write_seq : Z) (st : MemtableState)
  : MemtableState :=
  let by_key := default ∅ (ms_node_key_index st !! label_id) in
  match by_key !! key with
  | Some slot =>
      let slot' := Slot.replace write_seq value slot in
      resize (estimate_lookup_slot slot) (estimate_lookup_slot slot')
        (upd_node_key_index (<[label_id := <[key := slot']> by_key]> (ms_node_key_index st)) st)
  | None =>
      let slot := Slot.new write_seq value in
      resize 0 (len key + estimate_lookup_slot slot)
        (upd_node_key_index (<[label_id := <[key := slot]> by_key]> (ms_node_key_index st)) st)
  end.

Definition set_edge_triple (from to label_id : Z) (value : option Z) (write_seq : Z) (st : MemtableState) :=
  store upd_edge_triple_index
    (put_slot estimate_lookup_slot (ms_edge_triple_index st) (from, to, label_id) value write_seq) st.

Definition set_adj_slot := put_nested (T := option AdjEntry) (K1 := Z) (K2 := Z) estimate_adj_slot.
Definition set_ordered_adj_slot := put_nested (T := option AdjEntry) (K1 := Z) (K2 := Z) estimate_adj_slot.
Definition set_label_membership_slot (map : gmap Z (gmap Z MembershipSlot)) (target_label_id member_id : Z)
    (present : bool) (write_seq : Z) :=
  put_nested estimate_membership_slot map target_label_id member_id (presence present) write_seq.

Definition set_sparse_membership_slot (map : gmap Z MembershipSlot) (member_id : Z) (present : bool)
    (write_seq : Z) : gmap Z MembershipSlot * (Z * Z) :=
  match map !! member_id with
  | Some _ => put_slot estimate_membership_slot map member_id (presence present) write_seq
  | None => if present then put_slot estimate_membership_slot map member_id (presence present) write_seq
            else (map, (0, 0))
  end.

Definition set_time_slot (key : Z * Z * Z) (present : bool) (write_seq : Z) (st : MemtableState) :=
  store upd_time_node_index
    (put_slot estimate_membership_slot (ms_time_node_index st) key (presence present) write_seq) st.
Definition set_ordered_edge_slot (edge_id : Z) (present : bool) (write_seq : Z) (st : MemtableState) :=
  store upd_ordered_edge_ids
    (put_slot estimate_membership_slot (ms_ordered_edge_ids st) edge_id (presence present) write_seq) st.
Definition set_node_label_membership_slot (label_id node_id : Z) (present : bool) (write_seq : Z)
    (st : MemtableState) :=
  store upd_label_node_index
    (put_slot estimate_membership_slot (ms_label_node_index st) (label_id, node_id)
       (presence present) write_seq) st.
Definition set_ordered_edge_label_slot (label_id edge_id : Z) (present : bool) (write_seq : Z)
    (st : MemtableState) :=
  store upd_ordered_label_edge_index
    (put_slot estimate_membership_slot (ms_ordered_label_edge_index st) (label_id, edge_id)
       (presence present) write_seq) st.

Definition set_secondary_eq_slot_in (state : gmap Z (gmap Z (gmap Z MembershipSlot)))
    (index_id value_hash node_id : Z) (present : bool) (write_seq : Z)
  : gmap Z (gmap Z (gmap Z MembershipSlot)) * (Z * Z) :=
  let '(groups, sizes) :=
    put_nested estimate_membership_slot (default ∅ (state !! index_id)) value_hash node_id
      (presence present) write_seq in
  (<[index_id := groups]> state, sizes).

Definition set_secondary_range_slot_in (state : gmap Z (gmap (list byte * Z) MembershipSlot))
    (index_id : Z) (encoded : list byte) (node_id : Z) (present : bool) (write_seq : Z) :=
  put_nested estimate_membership_slot state index_id (encoded, node_id) (presence present) write_seq.

Definition estimate_compound_slot (tuple_key : list byte) (slot : MembershipSlot) : Z :=
  len tuple_key + 8 + estimate_membership_slot slot.
Definition set_compound_slot_in (state : gmap Z (gmap (list byte * Z) MembershipSlot))
    (index_id : Z) (tuple_key : list byte) (record_id : Z) (present : bool) (write_seq : Z) :=
  put_nested (estimate_compound_slot tuple_key) state index_id (tuple_key, record_id)
    (presence present) write_seq.

Definition set_node_label_slot (label_id member_id : Z) (present : bool) (write_seq : Z)
    (st : MemtableState) := set_node_label_membership_slot label_id member_id present write_seq st.
Definition set_edge_label_slot (label_id member_id : Z) (present : bool) (write_seq : Z)
    (st : MemtableState) :=
  store upd_label_edge_index
    (set_label_membership_slot (ms_label_edge_index st) label_id member_id present write_seq) st.

Definition set_adj_out_slot (owner_id member_id : Z) (value : option AdjEntry) (write_seq : Z)
    (st : MemtableState) : MemtableState :=
  let st := store upd_adj_out (set_adj_slot (ms_adj_out st) owner_id member_id value write_seq) st in
  store upd_ordered_adj_out
    (set_ordered_adj_slot (ms_ordered_adj_out st) owner_id member_id value write_seq) st.
Definition set_adj_in_slot (owner_id member_id : Z) (value : option AdjEntry) (write_seq : Z)
    (st : MemtableState) : MemtableState :=
  let st := store upd_adj_in (set_adj_slot (ms_adj_in st) owner_id member_id value write_seq) st in
  store upd_ordered_adj_in
    (set_ordered_adj_slot (ms_ordered_adj_in st) owner_id member_id value write_seq) st.

(** Tombstone markers are not part of the size estimate. *)
Definition set_node_tombstone_slot (member_id : Z) (present : bool) (write_seq : Z) (st : MemtableState) :=
  upd_node_tombstones
    (set_sparse_membership_slot (ms_node_tombstones st) member_id present write_seq).1 st.
Definition set_edge_tombstone_slot (member_id : Z) (present : bool) (write_seq : Z) (st : MemtableState) :=
  upd_edge_tombstones
    (set_sparse_membership_slot (ms_edge_tombstones st) member_id present write_seq).1 st.

Definition set_secondary_eq_slot (index_id value_hash node_id : Z) (present : bool) (write_seq : Z)
    (st : MemtableState) :=
  store upd_secondary_eq_state
    (set_secondary_eq_slot_in (ms_secondary_eq_state st) index_id value_hash node_id present write_seq) st.
Definition set_secondary_range_slot (index_id : Z) (encoded : list byte) (node_id : Z) (present : bool)
    (write_seq : Z) (st : MemtableState) :=
  store upd_secondary_range_state
    (set_secondary_range_slot_in (ms_secondary_range_state st) index_id encoded node_id present write_seq) st.
Definition set_compound_slot (index_id : Z) (tuple_key : list byte) (record_id : Z) (present : bool)
    (write_seq : Z) (st : MemtableState) :=
  store upd_secondary_compound_state
    (set_compound_slot_in (ms_secondary_compound_state st) index_id tuple_key record_id present write_seq) st.

(** ** Point reads *)
Definition current_node (st : MemtableState) (id : Z) : option NodeRecord :=
  slot ← ms_nodes st !! id; record_current slot.
Definition current_edge (st : MemtableState) (id : Z) : option EdgeRecord :=
  slot ← ms_edges st !! id; record_current slot.
Definition current_edge_triple_id (st : MemtableState) (from to label_id : Z) : option Z :=
  slot ← ms_edge_triple_index st !! (from, to, label_id); slot_option_current slot.
Definition node_at (st : MemtableState) (id snapshot_seq : Z) : option NodeRecord :=
  slot ← ms_nodes st !! id; state ← record_at slot snapshot_seq;
  match state with Live node => Some node | Tombstone _ => None end.
Definition edge_at (st : MemtableState) (id snapshot_seq : Z) : option EdgeRecord :=
  slot ← ms_edges st !! id; state ← record_at slot snapshot_seq;
  match state with Live edge => Some edge | Tombstone _ => None end.
Definition node_deleted_at (st : MemtableState) (id snapshot_seq : Z) : bool :=
  match ms_node_tombstones st !! id with
  | Some slot => slot_option_visible slot snapshot_seq
  | None => false
  end.
Definition edge_deleted_at (st : MemtableState) (id snapshot_seq : Z) : bool :=
  match ms_edge_tombstones st !! id with
  | Some slot => slot_option_visible slot snapshot_seq
  | None => false
  end.
Definition node_tombstone_current (st : MemtableState) (id : Z) : option TombstoneEntry :=
  slot ← ms_node_tombstones st !! id; _ ← slot_option_current slot;
  slot ← ms_nodes st !! id; state ← record_at slot u64_max;
  match state with Tombstone entry => Some entry | Live _ => None end.
Definition edge_tombstone_current (st : MemtableState) (id : Z) : option TombstoneEntry :=
  slot ← ms_edge_tombstones st !! id; _ ← slot_option_current slot;
  slot ← ms_edges st !! id; state ← record_at slot u64_max;
  match state with Tombstone entry => Some entry | Live _ => None end.

(** ** Secondary index maintenance *)
Definition optional_semantic_property_eq (left_ right_ : option PropValue) : bool :=
  match left_, right_ with
  | Some l, Some r => semantic_property_eq l r
  | None, None => true
  | _, _ => false
  end.

Definition node_compound_field_value (node : NodeRecord) (field : SecondaryIndexFieldManifest)
  : option CompoundFieldValue :=
  match field with
  | Property key => Some (FProperty (btree_get key (nr_props node)))
  | NodeMetadata NId => Some (FMetadataU64 (nr_id node))
  | NodeMetadata NKey => Some (FMetadataString (nr_key node))
  | NodeMetadata NWeight => Some (FMetadataF64 (f32_to_f64 (nr_weight node)))
  | NodeMetadata NCreatedAt => Some (FMetadataI64 (nr_created_at node))
  | NodeMetadata NUpdatedAt => Some (FMetadataI64 (nr_updated_at node))
  | EdgeMetadata _ => None
  end.

Definition edge_compound_field_value (edge : EdgeRecord) (field : SecondaryIndexFieldManifest)
  : option CompoundFieldValue :=
  match field with
  | Property key => Some (FProperty (btree_get key (er_props edge)))
  | EdgeMetadata EId => Some (FMetadataU64 (er_id edge))
  | EdgeMetadata EFrom => Some (FMetadataU64 (er_from edge))
  | EdgeMetadata ETo => Some (FMetadataU64 (er_to edge))
  | EdgeMetadata EWeight => Some (FMetadataF64 (f32_to_f64 (er_weight edge)))
  | EdgeMetadata ECreatedAt => Some (FMetadataI64 (er_created_at edge))
  | EdgeMetadata EUpdatedAt => Some (FMetadataI64 (er_updated_at edge))
  | EdgeMetadata EValidFrom => Some (FMetadataI64 (er_valid_from edge))
  | EdgeMetadata EValidTo => Some (FMetadataI64 (er_valid_to edge))
  | NodeMetadata _ => None
  end.

(** [Result::expect]. *)
Definition expect {A} (r : res A) : option A := match r with Ok a => Some a | Err _ => None end.

(** The index writes one record change asks for: (index, hash or key, record,
    present), in the order they are applied. *)
Record Actions : Type := mkActions {
  act_eq : list (Z * Z * Z * bool);
  act_range : list (Z * list byte * Z * bool);
  act_compound : list (Z * list byte * Z * bool)
}.
Definition no_actions : Actions := mkActions [] [] [].
Definition actions_app (a b : Actions) : Actions :=
  mkActions (act_eq a ++ act_eq b) (act_range a ++ act_range b) (act_compound a ++ act_compound b).

(** Collecting over the labels of a node. *)
Fixpoint collect_labels (f : Z -> option Actions) (label_ids : list Z) : option Actions :=
  match label_ids with
  | [] => Some no_actions
  | label_id :: label_ids =>
      a ← f label_id; b ← collect_labels f label_ids; Some (actions_app a b)
  end.

Definition set_eq_actions (write_seq : Z) (actions : list (Z * Z * Z * bool)) (st : MemtableState) :=
  foldl (fun st '(index_id, value_hash, id, present) =>
           set_secondary_eq_slot index_id value_hash id present write_seq st) st actions.
Definition set_range_actions (write_seq : Z) (actions : list (Z * list byte * Z * bool)) (st : MemtableState) :=
  foldl (fun st '(index_id, encoded, id, present) =>
           set_secondary_range_slot index_id encoded id present write_seq st) st actions.
Definition set_compound_actions (write_seq : Z) (actions : list (Z * list byte * Z * bool))
    (st : MemtableState) :=
  foldl (fun st '(index_id, tuple_key, id, present) =>
           set_compound_slot index_id tuple_key id present write_seq st) st actions.
Definition run_actions (write_seq : Z) (a : Actions) (st : MemtableState) : MemtableState :=
  set_compound_actions write_seq (act_compound a)
    (set_range_actions write_seq (act_range a) (set_eq_actions write_seq (act_eq a) st)).

Section Secondary.
Context `{RmpValue, HashOrder}.

Definition encode_node_compound_tuple_key (label_id : Z) (fields : list SecondaryIndexFieldManifest)
    (node : NodeRecord) : option (list byte) :=
  values ← mapM (node_compound_field_value node) fields;
  expect (encode_compound_tuple_key (mkContext TNode label_id fields) values).
Definition encode_edge_compound_tuple_key (label_id : Z) (fields : list SecondaryIndexFieldManifest)
    (edge : EdgeRecord) : option (list byte) :=
  values ← mapM (edge_compound_field_value edge) fields;
  expect (encode_compound_tuple_key (mkContext TEdge label_id fields) values).

(** The entries of one record under a label's property indexes. *)
Definition eq_entries (eq_by_prop : option (gmap str (list Z))) (id : Z) (p : props) (present : bool)
  : list (Z * Z * Z * bool) :=
  flat_map (fun '(prop_key, prop_value) =>
    match by_prop ← eq_by_prop; by_prop !! prop_key with
    | Some index_ids => (fun index_id => (index_id, hash_prop_equality_key prop_value, id, present)) <$> index_ids
    | None => []
    end) p.
Definition range_entries (range_by_prop : option (gmap str (list Z))) (id : Z) (p : props) (present : bool)
  : list (Z * list byte * Z * bool) :=
  flat_map (fun '(prop_key, prop_value) =>
    match by_prop ← range_by_prop; by_prop !! prop_key with
    | Some indexes =>
        flat_map (fun index_id =>
          match numeric_range_sort_key_for_value prop_value with
          | Some encoded => [(index_id, encoded, id, present)]
          | None => []
          end) indexes
    | None => []
    end) p.

(** The changes from one version of a record to the next under a label. *)
Definition eq_updates (by_prop : gmap str (list Z)) (old_id new_id : Z) (old new : props)
  : list (Z * Z * Z * bool) :=
  flat_map (fun '(prop_key, index_ids) =>
    let old_value := btree_get prop_key old in
    let new_value := btree_get prop_key new in
    if optional_semantic_property_eq old_value new_value then []
    else
      match old_value with
      | Some v => (fun index_id => (index_id, hash_prop_equality_key v, old_id, false)) <$> index_ids
      | None => []
      end ++
      match new_value with
      | Some v => (fun index_id => (index_id, hash_prop_equality_key v, new_id, true)) <$> index_ids
      | None => []
      end) (hash_iter by_prop).
Definition range_updates (by_prop : gmap str (list Z)) (old_id new_id : Z) (old new : props)
  : list (Z * list byte * Z * bool) :=
  flat_map (fun '(prop_key, indexes) =>
    let old_encoded := v ← btree_get prop_key old; numeric_range_sort_key_for_value v in
    let new_encoded := v ← btree_get prop_key new; numeric_range_sort_key_for_value v in
    if decide (old_encoded = new_encoded) then []
    else flat_map (fun index_id =>
           match old_encoded with Some encoded => [(index_id, encoded, old_id, false)] | None => [] end ++
           match new_encoded with Some encoded => [(index_id, encoded, new_id, true)] | None => [] end)
         indexes) (hash_iter by_prop).

Definition collect_secondary_index_entries_for_node_label (st : MemtableState) (label_id node_id : Z)
    (p : props) (present : bool) : list (Z * Z * Z * bool) * list (Z * list byte * Z * bool) :=
  let eq_by_prop := ms_secondary_eq_by_prop st !! label_id in
  let range_by_prop := ms_secondary_range_by_prop st !! label_id in
  (eq_entries eq_by_prop node_id p present, range_entries range_by_prop node_id p present).

Definition collect_secondary_index_updates_for_node_label (st : MemtableState) (label_id : Z)
    (old_node new_node : NodeRecord) : list (Z * Z * Z * bool) * list (Z * list byte * Z * bool) :=
  (match ms_secondary_eq_by_prop st !! label_id with
   | Some by_prop => eq_updates by_prop (nr_id old_node) (nr_id new_node) (nr_props old_node) (nr_props new_node)
   | None => []
   end,
   match ms_secondary_range_by_prop st !! label_id with
   | Some by_prop => range_updates by_prop (nr_id old_node) (nr_id new_node) (nr_props old_node) (nr_props new_node)
   | None => []
   end).

(** The fields of a node or edge field index, looked up through its declaration. *)
Definition node_field_index (st : MemtableState) (index_id : Z) : option (list SecondaryIndexFieldManifest) :=
  entry ← ms_secondary_index_declarations st !! index_id;
  match ie_target entry with NodeFieldIndex _ fields => Some fields | _ => None end.
Definition edge_field_index (st : MemtableState) (index_id : Z) : option (list SecondaryIndexFieldManifest) :=
  entry ← ms_secondary_index_declarations st !! index_id;
  match ie_target entry with EdgeFieldIndex _ fields => Some fields | _ => None end.

Definition collect_compound_index_entries_for_node_label (st : MemtableState) (label_id : Z)
    (node : NodeRecord) (present : bool) : option (list (Z * list byte * Z * bool)) :=
  match ms_secondary_node_field_indexes_by_label st !! label_id with
  | None => Some []
  | Some index_ids =>
      mapM (fun index_id =>
        fields ← node_field_index st index_id;
        key ← encode_node_compound_tuple_key label_id fields node;
        Some (index_id, key, nr_id node, present)) index_ids
  end.

Definition collect_compound_index_updates_for_node_label (st : MemtableState) (label_id : Z)
    (old_node new_node : NodeRecord) : option (list (Z * list byte * Z * bool)) :=
  match ms_secondary_node_field_indexes_by_label st !! label_id with
  | None => Some []
  | Some index_ids =>
      mjoin <$> mapM (fun index_id =>
        fields ← node_field_index st index_id;
        old_key ← encode_node_compound_tuple_key label_id fields old_node;
        new_key ← encode_node_compound_tuple_key label_id fields new_node;
        Some (if decide (old_key = new_key) then []
              else [(index_id, old_key, nr_id old_node, false); (index_id, new_key, nr_id new_node, true)]))
        index_ids
  end.

(** Everything one label of a node contributes, as added, removed or changed. *)
Definition node_label_entries (st : MemtableState) (node : NodeRecord) (present : bool) (label_id : Z)
  : option Actions :=
  let '(eq_actions, range_actions) :=
    collect_secondary_index_entries_for_node_label st label_id (nr_id node) (nr_props node) present in
  compound_actions ← collect_compound_index_entries_for_node_label st label_id node present;
  Some (mkActions eq_actions range_actions compound_actions).
Definition node_label_updates (st : MemtableState) (old_node new_node : NodeRecord) (label_id : Z)
  : option Actions :=
  let '(eq_actions, range_actions) :=
    collect_secondary_index_updates_for_node_label st label_id old_node new_node in
  compound_actions ← collect_compound_index_updates_for_node_label st label_id old_node new_node;
  Some (mkActions eq_actions range_actions compound_actions).

Definition no_node_indexes (st : MemtableState) : bool :=
  bool_decide (ms_secondary_eq_by_prop st = ∅) && bool_decide (ms_secondary_range_by_prop st = ∅)
  && bool_decide (ms_secondary_node_field_indexes_by_label st = ∅).

Definition add_secondary_index_entries_for_node (node : NodeRecord) (write_seq : Z) (st : MemtableState)
  : option MemtableState :=
  if no_node_indexes st then Some st
  else
    actions ← collect_labels (node_label_entries st node true) (NodeLabels.as_slice (nr_label_ids node));
    Some (run_actions write_seq actions st).
Definition remove_secondary_index_entries_for_node (node : NodeRecord) (write_seq : Z) (st : MemtableState)
  : option MemtableState :=
  if no_node_indexes st then Some st
  else
    actions ← collect_labels (node_label_entries st node false) (NodeLabels.as_slice (nr_label_ids node));
    Some (run_actions write_seq actions st).

Definition sync_secondary_index_entries_for_node_upsert (old_node : option NodeRecord)
    (new_node : NodeRecord) (write_seq : Z) (st : MemtableState) : option MemtableState :=
  if no_node_indexes st then Some st
  else match old_node with
  | None => add_secondary_index_entries_for_node new_node write_seq st
  | Some old_node =>
      removed ← collect_labels (fun old_label_id =>
        if NodeLabels.contains (nr_label_ids new_node) old_label_id then Some no_actions
        else node_label_entries st old_node false old_label_id) (NodeLabels.as_slice (nr_label_ids old_node));
      kept ← collect_labels (fun new_label_id =>
        if NodeLabels.contains (nr_label_ids old_node) new_label_id
        then node_label_updates st old_node new_node new_label_id
        else node_label_entries st new_node true new_label_id) (NodeLabels.as_slice (nr_label_ids new_node));
      Some (run_actions write_seq (actions_app removed kept) st)
  end.

Definition collect_compound_index_entries_for_edge_label (st : MemtableState) (label_id : Z)
    (edge : EdgeRecord) (present : bool) : option (list (Z * list byte * Z * bool)) :=
  match ms_secondary_edge_field_indexes_by_label st !! label_id with
  | None => Some []
  | Some index_ids =>
      mapM (fun index_id =>
        fields ← edge_field_index st index_id;
        key ← encode_edge_compound_tuple_key label_id fields edge;
        Some (index_id, key, er_id edge, present)) index_ids
  end.

Definition collect_compound_index_updates_for_edge_label (st : MemtableState) (label_id : Z)
    (old_edge new_edge : EdgeRecord) : option (list (Z * list byte * Z * bool)) :=
  match ms_secondary_edge_field_indexes_by_label st !! label_id with
  | None => Some []
  | Some index_ids =>
      mjoin <$> mapM (fun index_id =>
        fields ← edge_field_index st index_id;
        old_key ← encode_edge_compound_tuple_key label_id fields old_edge;
        new_key ← encode_edge_compound_tuple_key label_id fields new_edge;
        Some (if decide (old_key = new_key) then []
              else [(index_id, old_key, er_id old_edge, false); (index_id, new_key, er_id new_edge, true)]))
        index_ids
  end.

Definition no_edge_indexes (st : MemtableState) : bool :=
  bool_decide (ms_secondary_edge_eq_by_prop st = ∅) && bool_decide (ms_secondary_edge_range_by_prop st = ∅)
  && bool_decide (ms_secondary_edge_field_indexes_by_label st = ∅).
(** No index of any kind is declared on the label. *)
Definition no_edge_label_indexes (st : MemtableState) (label_id : Z) : bool :=
  bool_decide (ms_secondary_edge_eq_by_prop st !! label_id = None)
  && bool_decide (ms_secondary_edge_range_by_prop st !! label_id = None)
  && bool_decide (ms_secondary_edge_field_indexes_by_label st !! label_id = None).

(** The shared body of [add_] and [remove_secondary_index_entries_for_edge]. *)
Definition put_secondary_index_entries_for_edge (present : bool) (edge : EdgeRecord) (write_seq : Z)
    (st : MemtableState) : option MemtableState :=
  if no_edge_indexes st then Some st
  else if no_edge_label_indexes st (er_label_id edge) then Some st
  else
    let eq_actions :=
      eq_entries (ms_secondary_edge_eq_by_prop st !! er_label_id edge) (er_id edge) (er_props edge) present in
    let range_actions :=
      range_entries (ms_secondary_edge_range_by_prop st !! er_label_id edge) (er_id edge) (er_props edge)
        present in
    compound_actions ← collect_compound_index_entries_for_edge_label st (er_label_id edge) edge present;
    Some (run_actions write_seq (mkActions eq_actions range_actions compound_actions) st).
Definition add_secondary_index_entries_for_edge := put_secondary_index_entries_for_edge true.
Definition remove_secondary_index_entries_for_edge := put_secondary_index_entries_for_edge false.

Definition sync_secondary_index_entries_for_edge_upsert (old_edge : option EdgeRecord)
    (new_edge : EdgeRecord) (write_seq : Z) (st : MemtableState) : option MemtableState :=
  if no_edge_indexes st then Some st
  else match old_edge with
  | None => add_secondary_index_entries_for_edge new_edge write_seq st
  | Some old_edge =>
      if negb (er_label_id old_edge =? er_label_id new_edge) then
        st ← remove_secondary_index_entries_for_edge old_edge write_seq st;
        add_secondary_index_entries_for_edge new_edge write_seq st
      else if no_edge_label_indexes st (er_label_id new_edge) then Some st
      else
        let eq_actions :=
          match ms_secondary_edge_eq_by_prop st !! er_label_id new_edge with
          | Some by_prop => eq_updates by_prop (er_id old_edge) (er_id new_edge) (er_props old_edge) (er_props new_edge)
          | None => []
          end in
        let range_actions :=
          match ms_secondary_edge_range_by_prop st !! er_label_id new_edge with
          | Some by_prop => range_updates by_prop (er_id old_edge) (er_id new_edge) (er_props old_edge) (er_props new_edge)
          | None => []
          end in
        compound_actions ←
          collect_compound_index_updates_for_edge_label st (er_label_id new_edge) old_edge new_edge;
        Some (run_actions write_seq (mkActions eq_actions range_actions compound_actions) st)
  end.

(** ** Applying WAL operations *)

(** The loop over the old labels of an upserted node. *)
Definition unlink_old_label (old node : NodeRecord) (write_seq : Z) (st : MemtableState) (old_label_id : Z)
  : MemtableState :=
  let label_removed := negb (NodeLabels.contains (nr_label_ids node) old_label_id) in
  let st :=
    if label_removed || bool_decide (nr_key old ≠ nr_key node)
    then set_node_key old_label_id (nr_key old) None write_seq st else st in
  let st :=
    if label_removed then set_node_label_slot old_label_id (nr_id old) false write_seq st else st in
  if label_removed || negb (nr_updated_at old =? nr_updated_at node)
  then set_time_slot (old_label_id, nr_updated_at old, nr_id old) false write_seq st else st.

(** The loop over the new labels. *)
Definition link_new_label (node : NodeRecord) (write_seq : Z) (st : MemtableState) (new_label_id : Z)
  : MemtableState :=
  let st := set_node_key new_label_id (nr_key node) (Some (nr_id node)) write_seq st in
  let st := set_node_label_slot new_label_id (nr_id node) true write_seq st in
  set_time_slot (new_label_id, nr_updated_at node, nr_id node) true write_seq st.

Definition with_node_seq (node : NodeRecord) (seq : Z) : NodeRecord :=
  mkNodeRecord (nr_id node) (nr_label_ids node) (nr_key node) (nr_props node) (nr_created_at node)
    (nr_updated_at node) (nr_weight node) (nr_dense_vector node) (nr_sparse_vector node) seq.
Definition with_edge_seq (edge : EdgeRecord) (seq : Z) : EdgeRecord :=
  mkEdgeRecord (er_id edge) (er_from edge) (er_to edge) (er_label_id edge) (er_props edge)
    (er_created_at edge) (er_updated_at edge) (er_weight edge) (er_valid_from edge) (er_valid_to edge) seq.

(** [usize::saturating_add] and [saturating_sub] of one. *)
Definition saturating_succ (n : Z) : Z := Z.min u64_max (n + 1).
Definition saturating_pred (n : Z) : Z := Z.max 0 (n - 1).

Definition apply_upsert_node (node : NodeRecord) (last_write_seq : Z) (st : MemtableState)
  : option MemtableState :=
  let old_node := current_node st (nr_id node) in
  let was_live := bool_decide (is_Some old_node) in
  let was_deleted := node_deleted_at st (nr_id node) u64_max in
  let st :=
    match old_node with
    | Some old => foldl (unlink_old_label old node last_write_seq) st (NodeLabels.as_slice (nr_label_ids old))
    | None => st
    end in
  let stored := with_node_seq node last_write_seq in
  let st := foldl (link_new_label node last_write_seq) st (NodeLabels.as_slice (nr_label_ids node)) in
  st ← sync_secondary_index_entries_for_node_upsert old_node stored last_write_seq st;
  let st := if was_deleted then set_node_tombstone_slot (nr_id node) false last_write_seq st else st in
  let st := set_node_state (nr_id node) (Live stored) last_write_seq st in
  Some (if was_live then st else upd_live_node_count (saturating_succ (ms_live_node_count st)) st).

(** The removals of an upserted edge's old version. *)
Definition unlink_old_edge (old edge : EdgeRecord) (last_write_seq : Z) (st : MemtableState)
  : MemtableState :=
  let from_changed := negb (er_from old =? er_from edge) in
  let to_changed := negb (er_to old =? er_to edge) in
  let label_changed := negb (er_label_id old =? er_label_id edge) in
  let st :=
    if (from_changed || to_changed || label_changed)
       && bool_decide (current_edge_triple_id st (er_from old) (er_to old) (er_label_id old) = Some (er_id old))
    then set_edge_triple (er_from old) (er_to old) (er_label_id old) None last_write_seq st else st in
  let st :=
    if label_changed then
      let st := set_edge_label_slot (er_label_id old) (er_id old) false last_write_seq st in
      set_ordered_edge_label_slot (er_label_id old) (er_id old) false last_write_seq st
    else st in
  if from_changed || to_changed then
    let st := set_adj_out_slot (er_from old) (er_id old) None last_write_seq st in
    set_adj_in_slot (er_to old) (er_id old) None last_write_seq st
  else st.

Definition adj_out_entry (edge : EdgeRecord) : AdjEntry :=
  mkAdjEntry (er_id edge) (er_label_id edge) (er_to edge) (er_weight edge) (er_valid_from edge)
    (er_valid_to edge).
Definition adj_in_entry (edge : EdgeRecord) : AdjEntry :=
  mkAdjEntry (er_id edge) (er_label_id edge) (er_from edge) (er_weight edge) (er_valid_from edge)
    (er_valid_to edge).

Definition should_update_triple (old_edge : option EdgeRecord) (edge : EdgeRecord)
    (current_triple_id : option Z) : bool :=
  match old_edge with
  | Some old =>
      if (er_from old =? er_from edge) && (er_to old =? er_to edge)
         && (er_label_id old =? er_label_id edge)
      then match current_triple_id with Some current_id => current_id =? er_id edge | None => true end
      else true
  | None => true
  end.

Definition link_new_edge (old_edge : option EdgeRecord) (edge : EdgeRecord) (last_write_seq : Z)
    (st : MemtableState) : MemtableState :=
  let current_triple_id := current_edge_triple_id st (er_from edge) (er_to edge) (er_label_id edge) in
  let st :=
    if should_update_triple old_edge edge current_triple_id
    then set_edge_triple (er_from edge) (er_to edge) (er_label_id edge) (Some (er_id edge)) last_write_seq st
    else st in
  let st := set_adj_out_slot (er_from edge) (er_id edge) (Some (adj_out_entry edge)) last_write_seq st in
  let st := set_adj_in_slot (er_to edge) (er_id edge) (Some (adj_in_entry edge)) last_write_seq st in
  let st := set_edge_label_slot (er_label_id edge) (er_id edge) true last_write_seq st in
  let st := set_ordered_edge_label_slot (er_label_id edge) (er_id edge) true last_write_seq st in
  set_ordered_edge_slot (er_id edge) true last_write_seq st.

Definition apply_upsert_edge (edge : EdgeRecord) (last_write_seq : Z) (st : MemtableState)
  : option MemtableState :=
  let old_edge := current_edge st (er_id edge) in
  let was_live := bool_decide (is_Some old_edge) in
  let was_deleted := edge_deleted_at st (er_id edge) u64_max in
  let st :=
    match old_edge with Some old => unlink_old_edge old edge last_write_seq st | None => st end in
  let st := link_new_edge old_edge edge last_write_seq st in
  let stored := with_edge_seq edge last_write_seq in
  st ← sync_secondary_index_entries_for_edge_upsert old_edge stored last_write_seq st;
  let st := if was_deleted then set_edge_tombstone_slot (er_id edge) false last_write_seq st else st in
  let st := set_edge_state (er_id edge) (Live stored) last_write_seq st in
  Some (if was_live then st else upd_live_edge_count (saturating_succ (ms_live_edge_count st)) st).

Definition unlink_deleted_label (node : NodeRecord) (write_seq : Z) (st : MemtableState) (label_id : Z)
  : MemtableState :=
  let st := set_node_key label_id (nr_key node) None write_seq st in
  let st := set_node_label_slot label_id (nr_id node) false write_seq st in
  set_time_slot (label_id, nr_updated_at node, nr_id node) false write_seq st.

Definition apply_delete_node (id deleted_at last_write_seq : Z) (st : MemtableState)
  : option MemtableState :=
  st ← match current_node st id with
       | Some node =>
           let st := foldl (unlink_deleted_label node last_write_seq) st
                       (NodeLabels.as_slice (nr_label_ids node)) in
           st ← remove_secondary_index_entries_for_node node last_write_seq st;
           Some (upd_live_node_count (saturating_pred (ms_live_node_count st)) st)
       | None => Some st
       end;
  let st := set_node_state id (Tombstone (mkTombstoneEntry deleted_at last_write_seq)) last_write_seq st in
  Some (set_node_tombstone_slot id true last_write_seq st).

Definition unlink_deleted_edge (id : Z) (edge : EdgeRecord) (last_write_seq : Z) (st : MemtableState)
  : MemtableState :=
  let st :=
    if bool_decide (current_edge_triple_id st (er_from edge) (er_to edge) (er_label_id edge) = Some id)
    then set_edge_triple (er_from edge) (er_to edge) (er_label_id edge) None last_write_seq st else st in
  let st := set_edge_label_slot (er_label_id edge) (er_id edge) false last_write_seq st in
  let st := set_ordered_edge_label_slot (er_label_id edge) (er_id edge) false last_write_seq st in
  let st := set_adj_out_slot (er_from edge) (er_id edge) None last_write_seq st in
  let st := set_adj_in_slot (er_to edge) (er_id edge) None last_write_seq st in
  set_ordered_edge_slot (er_id edge) false last_write_seq st.

Definition apply_delete_edge (id deleted_at last_write_seq : Z) (st : MemtableState)
  : option MemtableState :=
  st ← match current_edge st id with
       | Some edge =>
           let st := unlink_deleted_edge id edge last_write_seq st in
           st ← remove_secondary_index_entries_for_edge edge last_write_seq st;
           Some (upd_live_edge_count (saturating_pred (ms_live_edge_count st)) st)
       | None => Some st
       end;
  let st := set_edge_state id (Tombstone (mkTombstoneEntry deleted_at last_write_seq)) last_write_seq st in
  Some (set_edge_tombstone_slot id true last_write_seq st).

Definition apply_op (op : WalOp) (last_write_seq : Z) (st : MemtableState) : option MemtableState :=
  match op with
  | UpsertNode node => apply_upsert_node node last_write_seq st
  | UpsertEdge edge => apply_upsert_edge edge last_write_seq st
  | DeleteNode id deleted_at => apply_delete_node id deleted_at last_write_seq st
  | DeleteEdge id deleted_at => apply_delete_edge id deleted_at last_write_seq st
  | EnsureNodeLabel _ _ | EnsureEdgeLabel _ _ | BeginAtomicBatch _ _ | CommitAtomicBatch _ _ => Some st
  end.

(** A run of operations with the sequence numbers they were given. *)
Fixpoint apply_ops (ops : list (Z * WalOp)) (st : MemtableState) : option MemtableState :=
  match ops with
  | [] => Some st
  | (seq, op) :: ops => st ← apply_op op seq st; apply_ops ops st
  end.
End Secondary.
