(* ===== verification/MemtableCells.v ===== *)
(** The memtable as a store of cells: every slot of every map of the state has a
    location, each setter writes one or two locations, and applying an operation
    is a list of writes stamped with the operation's sequence number. *)
From S2P Require Import Prelude Types PropertyValue CompoundKey Slots Memtable.

#[export] Instance TombstoneEntry_eq_dec : EqDecision TombstoneEntry.
Proof. solve_decision. Defined.

Inductive Loc : Type :=
| LNode (id : Z)
| LEdge (id : Z)
| LNodeTomb (id : Z)
| LEdgeTomb (id : Z)
| LKey (label_id : Z) (key : str)
| LTriple (from to label_id : Z)
| LAdjOut (owner member : Z)
| LAdjIn (owner member : Z)
| LOrderedAdjOut (owner member : Z)
| LOrderedAdjIn (owner member : Z)
| LOrderedEdge (id : Z)
| LLabelNode (label_id id : Z)
| LOrderedLabelEdge (label_id id : Z)
| LLabelEdge (label_id id : Z)
| LTime (label_id updated_at id : Z)
| LEq (index_id value_hash id : Z)
| LRange (index_id : Z) (encoded : list byte) (id : Z)
| LCompound (index_id : Z) (tuple_key : list byte) (id : Z).
#[export] Instance Loc_eq_dec : EqDecision Loc.
Proof. solve_decision. Defined.

Inductive Val : Type :=
| VNode (state : RecordState NodeRecord)
| VEdge (state : RecordState EdgeRecord)
| VId (id : option Z)
| VAdj (entry : option AdjEntry)
| VMember (present : option unit).

Definition version_map {A B} (f : A -> B) (v : SlotVersion A) : SlotVersion B :=
  mkVersion (sv_write_seq v) (f (sv_value v)).
Definition slot_map {A B} (f : A -> B) (slot : VersionedSlot A) : VersionedSlot B :=
  mkSlot (version_map f (vs_head slot)) (option_map (map (version_map f)) (vs_history slot)).

Definition cell (st : MemtableState) (l : Loc) : option (VersionedSlot Val) :=
  match l with
  | LNode id => slot_map VNode <$> ms_nodes st !! id
  | LEdge id => slot_map VEdge <$> ms_edges st !! id
  | LNodeTomb id => slot_map VMember <$> ms_node_tombstones st !! id
  | LEdgeTomb id => slot_map VMember <$> ms_edge_tombstones st !! id
  | LKey label_id key => slot_map VId <$> nested_get (ms_node_key_index st) label_id key
  | LTriple from to label_id => slot_map VId <$> ms_edge_triple_index st !! (from, to, label_id)
  | LAdjOut owner member => slot_map VAdj <$> nested_get (ms_adj_out st) owner member
  | LAdjIn owner member => slot_map VAdj <$> nested_get (ms_adj_in st) owner member
  | LOrderedAdjOut owner member => slot_map VAdj <$> nested_get (ms_ordered_adj_out st) owner member
  | LOrderedAdjIn owner member => slot_map VAdj <$> nested_get (ms_ordered_adj_in st) owner member
  | LOrderedEdge id => slot_map VMember <$> ms_ordered_edge_ids st !! id
  | LLabelNode label_id id => slot_map VMember <$> ms_label_node_index st !! (label_id, id)
  | LOrderedLabelEdge label_id id => slot_map VMember <$> ms_ordered_label_edge_index st !! (label_id, id)
  | LLabelEdge label_id id => slot_map VMember <$> nested_get (ms_label_edge_index st) label_id id
  | LTime label_id updated_at id => slot_map VMember <$> ms_time_node_index st !! (label_id, updated_at, id)
  | LEq index_id value_hash id =>
      slot_map VMember <$>
        (groups ← ms_secondary_eq_state st !! index_id; nested_get groups value_hash id)
  | LRange index_id encoded id =>
      slot_map VMember <$> nested_get (ms_secondary_range_state st) index_id (encoded, id)
  | LCompound index_id tuple_key id =>
      slot_map VMember <$> nested_get (ms_secondary_compound_state st) index_id (tuple_key, id)
  end.

(** What a snapshot and the current state hold at a location. *)
Definition seen (st : MemtableState) (snapshot_seq : Z) (l : Loc) : option Val :=
  slot_at (cell st l) snapshot_seq.
Definition cur (st : MemtableState) (l : Loc) : option Val := slot_current (cell st l).

(** The declarations, which no write touches. *)
Definition same_declarations (st st' : MemtableState) : Prop :=
  ms_secondary_index_declarations st' = ms_secondary_index_declarations st
  /\ ms_secondary_eq_by_prop st' = ms_secondary_eq_by_prop st
  /\ ms_secondary_range_by_prop st' = ms_secondary_range_by_prop st
  /\ ms_secondary_edge_eq_by_prop st' = ms_secondary_edge_eq_by_prop st
  /\ ms_secondary_edge_range_by_prop st' = ms_secondary_edge_range_by_prop st
  /\ ms_secondary_node_field_indexes_by_label st' = ms_secondary_node_field_indexes_by_label st
  /\ ms_secondary_edge_field_indexes_by_label st' = ms_secondary_edge_field_indexes_by_label st.

#[export] Instance same_declarations_preorder : PreOrder same_declarations.
Proof. split; [done|]. intros a b c. unfold same_declarations. intuition congruence. Qed.

Abbreviation writes := (list (Loc * Val)).

Fixpoint last_write (ws : writes) (l : Loc) : option Val :=
  match ws with
  | [] => None
  | (l', v) :: ws =>
      match last_write ws l with
      | Some v' => Some v'
      | None => if decide (l' = l) then Some v else None
      end
  end.

Record Step (seq : Z) (ws : writes) (st st' : MemtableState) : Prop := {
  step_cell l : cell st' l = match last_write ws l with
                             | Some v => Some (written (cell st l) v seq)
                             | None => cell st l
                             end;
  step_declarations : same_declarations st st'
}.

(** ** Lists of writes *)
Lemma last_write_app ws1 ws2 l :
  last_write (ws1 ++ ws2) l = match last_write ws2 l with Some v => Some v | None => last_write ws1 l end.
Proof.
  induction ws1 as [|[l' v] ws1 IH]; cbn; [by destruct (last_write ws2 l)|].
  rewrite IH. by destruct (last_write ws2 l).
Qed.

Lemma last_write_None ws l : (forall v, (l, v) ∉ ws) -> last_write ws l = None.
Proof.
  induction ws as [|[l' v] ws IH]; [done|]. intros Hn. cbn. rewrite IH.
  - case_decide; [subst; by destruct (Hn v); left | done].
  - intros v' Hv. apply (Hn v'). by right.
Qed.

Lemma last_write_Some ws l v : last_write ws l = Some v -> (l, v) ∈ ws.
Proof.
  induction ws as [|[l' v'] ws IH]; cbn; [done|]. destruct (last_write ws l).
  - intros E. right. auto.
  - case_decide; [|done]. intros [= ->]. subst. left.
Qed.

(** If every write to a location stores the same value, that value is last. *)
Lemma last_write_unique ws l v :
  (l, v) ∈ ws -> (forall v', (l, v') ∈ ws -> v' = v) -> last_write ws l = Some v.
Proof.
  intros Hin Hu. destruct (last_write ws l) as [v'|] eqn:E.
  - f_equal. apply Hu. by apply last_write_Some.
  - exfalso. revert E. clear Hu. induction ws as [|[l' w] ws IH]; [by apply not_elem_of_nil in Hin|].
    cbn. apply elem_of_cons in Hin as [[= -> ->]|Hin].
    + destruct (last_write ws l'); [done|]. by rewrite decide_True.
    + destruct (last_write ws l); [done|]. intros _. by apply IH.
Qed.

Lemma last_write_flat_map `{EqDecision A} (f : A -> writes) xs x l :
  x ∈ xs -> (forall y, y ∈ xs -> y ≠ x -> last_write (f y) l = None) ->
  last_write (flat_map f xs) l = last_write (f x) l.
Proof.
  induction xs as [|y xs IH]; [by intros ?%not_elem_of_nil|]. intros Hin Hne. cbn.
  rewrite last_write_app.
  assert (x ∈ xs -> last_write (flat_map f xs) l = last_write (f x) l) as IH'.
  { intros Hx. apply IH; [done|]. intros z Hz. apply Hne. by right. }
  assert (x ∉ xs -> last_write (flat_map f xs) l = None) as Hout.
  { intros Hx. clear IH IH' Hin. induction xs as [|z xs IH]; [done|]. cbn. rewrite last_write_app, IH.
    - apply Hne; [right; left|]. intros ->. apply Hx. left.
    - intros w Hw. apply Hne. apply elem_of_cons in Hw as [->|Hw]; [left | by right; right].
    - intros Hx'. apply Hx. by right. }
  apply elem_of_cons in Hin as [->|Hin].
  - destruct (last_write (flat_map f xs) l) as [v|] eqn:E; [|done].
    destruct (decide (y ∈ xs)) as [Hy|Hy]; [auto | by specialize (Hout Hy)].
  - rewrite IH' by done. destruct (last_write (f x) l) eqn:E; [done|].
    destruct (decide (x = y)) as [->|Hxy]; [done|]. apply Hne; [left | congruence].
Qed.

Lemma last_write_flat_map_None {A} (f : A -> writes) xs l :
  (forall y, y ∈ xs -> last_write (f y) l = None) -> last_write (flat_map f xs) l = None.
Proof.
  induction xs as [|y xs IH]; intros Hn; [done|]. cbn. rewrite last_write_app, IH; [apply Hn; left|].
  intros z Hz. apply Hn. by right.
Qed.

(** ** Slots under a map *)
Lemma slot_map_replace {A B} (f : A -> B) seq v (slot : VersionedSlot A) :
  slot_map f (Slot.replace seq v slot) = Slot.replace seq (f v) (slot_map f slot).
Proof.
  unfold Slot.replace. cbn. case_match; [done|]. unfold slot_map. cbn. f_equal. f_equal.
  rewrite fmap_app. by destruct (vs_history slot).
Qed.

Lemma slot_map_written {A B} (f : A -> B) (o : option (VersionedSlot A)) v seq :
  slot_map f (written o v seq) = written (slot_map f <$> o) (f v) seq.
Proof. destruct o; [apply slot_map_replace | done]. Qed.

Lemma rev_find_map {A B} (f : A -> B) s (l : list (SlotVersion A)) :
  Slot.rev_find s (version_map f <$> l) = f <$> Slot.rev_find s l.
Proof.
  induction l as [|v l IH]; [done|]. cbn. rewrite IH. destruct (Slot.rev_find s l); [done|]. cbn. by case_match.
Qed.

Lemma slot_at_map {A B} (f : A -> B) (o : option (VersionedSlot A)) s :
  slot_at (slot_map f <$> o) s = f <$> slot_at o s.
Proof.
  destruct o as [slot|]; [|done]. unfold slot_at, Slot.at_. cbn. case_match; [done|].
  destruct (vs_history slot); [apply rev_find_map | done].
Qed.

Lemma slot_current_map {A B} (f : A -> B) (o : option (VersionedSlot A)) :
  slot_current (slot_map f <$> o) = f <$> slot_current o.
Proof. by destruct o. Qed.

(** A second write of the same operation replaces the first in place. *)
Lemma written_twice {T} (o : option (VersionedSlot T)) v1 v2 seq :
  written (Some (written o v1 seq)) v2 seq = written o v2 seq.
Proof.
  unfold written, Slot.replace, Slot.new. destruct o as [slot|]; cbn; [|by rewrite Z.eqb_refl].
  destruct (Z.eqb_spec (sv_write_seq (vs_head slot)) seq); cbn; by rewrite Z.eqb_refl.
Qed.

(** ** Composing steps *)
Lemma step_refl seq st : Step seq [] st st.
Proof. by split. Qed.

Lemma step_app seq ws1 ws2 st st1 st2 :
  Step seq ws1 st st1 -> Step seq ws2 st1 st2 -> Step seq (ws1 ++ ws2) st st2.
Proof.
  intros [C1 D1] [C2 D2]. split; [|by etransitivity]. intros l. rewrite C2, C1, last_write_app.
  destruct (last_write ws2 l), (last_write ws1 l); try done. f_equal. apply written_twice.
Qed.

Lemma step_single seq l v st st' :
  (forall l', cell st' l' = if decide (l = l') then Some (written (cell st l) v seq) else cell st l') ->
  same_declarations st st' -> Step seq [(l, v)] st st'.
Proof. intros C D. split; [|done]. intros l'. rewrite C. cbn. by case_decide; subst. Qed.

Lemma step_foldl {A} seq (f : MemtableState -> A -> MemtableState) (w : A -> writes) xs st :
  (forall st x, x ∈ xs -> Step seq (w x) st (f st x)) -> Step seq (flat_map w xs) st (foldl f st xs).
Proof.
  revert st. induction xs as [|x xs IH]; intros st Hf; [apply step_refl|].
  cbn. eapply step_app; [apply Hf; left|]. apply IH. intros st' y Hy. apply Hf. by right.
Qed.

Lemma step_if seq (b : bool) ws st st' :
  (b = true -> Step seq ws st st') -> Step seq (if b then ws else []) st (if b then st' else st).
Proof. destruct b; [auto | intros _; apply step_refl]. Qed.

(** ** Every setter is a step *)
Lemma cell_store {M} (upd : M -> MemtableState -> MemtableState) r st l :
  cell (store upd r st) l = cell (upd r.1 st) l.
Proof. destruct r as [m [b a]]. by destruct l. Qed.

Lemma declarations_store {M} (upd : M -> MemtableState -> MemtableState) r st :
  (forall m, same_declarations st (upd m st)) -> same_declarations st (store upd r st).
Proof. destruct r as [m [b a]]. intros Hd. destruct (Hd m). by split. Qed.

Ltac step_setter setter lookup :=
  unfold setter; apply step_single;
  [ intros []; rewrite ?cell_store; cbn [cell];
    try (rewrite decide_False by discriminate; reflexivity);
    cbn; rewrite lookup; repeat case_decide; simplify_eq; try done; cbn; by rewrite slot_map_written
  | try apply declarations_store; done ].

Lemma step_set_node_state id state seq st :
  Step seq [(LNode id, VNode state)] st (set_node_state id state seq st).
Proof. step_setter set_node_state (@lookup_put_slot Z). Qed.
Lemma step_set_edge_state id state seq st :
  Step seq [(LEdge id, VEdge state)] st (set_edge_state id state seq st).
Proof. step_setter set_edge_state (@lookup_put_slot Z). Qed.
Lemma step_set_edge_triple from to label v seq st :
  Step seq [(LTriple from to label, VId v)] st (set_edge_triple from to label v seq st).
Proof. step_setter set_edge_triple (@lookup_put_slot (Z * Z * Z)). Qed.
Lemma step_set_time_slot l t n p seq st :
  Step seq [(LTime l t n, VMember (presence p))] st (set_time_slot (l, t, n) p seq st).
Proof. step_setter set_time_slot (@lookup_put_slot (Z * Z * Z)). Qed.
Lemma step_set_ordered_edge_slot e p seq st :
  Step seq [(LOrderedEdge e, VMember (presence p))] st (set_ordered_edge_slot e p seq st).
Proof. step_setter set_ordered_edge_slot (@lookup_put_slot Z). Qed.
Lemma step_set_node_label_slot l n p seq st :
  Step seq [(LLabelNode l n, VMember (presence p))] st (set_node_label_slot l n p seq st).
Proof.
  unfold set_node_label_slot. step_setter set_node_label_membership_slot (@lookup_put_slot (Z * Z)).
Qed.
Lemma step_set_ordered_edge_label_slot l e p seq st :
  Step seq [(LOrderedLabelEdge l e, VMember (presence p))] st (set_ordered_edge_label_slot l e p seq st).
Proof. step_setter set_ordered_edge_label_slot (@lookup_put_slot (Z * Z)). Qed.
Lemma step_set_edge_label_slot l e p seq st :
  Step seq [(LLabelEdge l e, VMember (presence p))] st (set_edge_label_slot l e p seq st).
Proof.
  unfold set_edge_label_slot, set_label_membership_slot.
  step_setter set_edge_label_slot (@nested_get_put Z Z).
Qed.

Lemma nested_get_insert {K1 K2 V} `{Countable K1} `{Countable K2} (m : gmap K1 (gmap K2 V)) a b x a' b' :
  nested_get (<[a := <[b := x]> (default ∅ (m !! a))]> m) a' b'
  = if decide ((a, b) = (a', b')) then Some x else nested_get m a' b'.
Proof.
  unfold nested_get. destruct (decide (a = a')) as [<-|Ha].
  - rewrite lookup_insert_eq. cbn. destruct (decide (b = b')) as [<-|Hb].
    + by rewrite lookup_insert_eq, decide_True.
    + rewrite lookup_insert_ne, decide_False by congruence. by destruct (m !! a).
  - by rewrite lookup_insert_ne, decide_False by congruence.
Qed.

Lemma nested_get_default {K1 K2 V} `{Countable K1} `{Countable K2} (m : gmap K1 (gmap K2 V)) a b :
  default ∅ (m !! a) !! b = nested_get m a b.
Proof. unfold nested_get. by destruct (m !! a). Qed.

Lemma node_key_index_set label key v seq st :
  exists m, ms_node_key_index (set_node_key label key v seq st) = m
    /\ (forall l k, nested_get m l k = if decide ((label, key) = (l, k))
          then Some (written (nested_get (ms_node_key_index st) label key) v seq)
          else nested_get (ms_node_key_index st) l k)
    /\ (exists b a, set_node_key label key v seq st = resize b a (upd_node_key_index m st)).
Proof.
  unfold set_node_key. rewrite nested_get_default.
  destruct (nested_get (ms_node_key_index st) label key) as [slot|] eqn:E;
    (eexists; split; [reflexivity|]; split; [intros l k; cbn; by rewrite nested_get_insert | by eexists _, _]).
Qed.

Lemma step_set_node_key label key v seq st :
  Step seq [(LKey label key, VId v)] st (set_node_key label key v seq st).
Proof.
  destruct (node_key_index_set label key v seq st) as (m & _ & Hm & b & a & ->).
  apply step_single; [|done].
  intros []; cbn [cell]; try (rewrite decide_False by discriminate; reflexivity).
  cbn. rewrite Hm. repeat case_decide; simplify_eq; try done. cbn. by rewrite slot_map_written.
Qed.

Lemma step_set_adj_out_slot o m v seq st :
  Step seq [(LAdjOut o m, VAdj v); (LOrderedAdjOut o m, VAdj v)] st (set_adj_out_slot o m v seq st).
Proof.
  unfold set_adj_out_slot. cbv zeta.
  assert (Step seq [(LAdjOut o m, VAdj v)] st (store upd_adj_out (set_adj_slot (ms_adj_out st) o m v seq) st))
    as Hs by step_setter set_adj_slot (@nested_get_put Z Z).
  apply (step_app seq [_] [_] _ _ _ Hs). generalize (store upd_adj_out (set_adj_slot (ms_adj_out st) o m v seq) st).
  intros st1. step_setter set_ordered_adj_slot (@nested_get_put Z Z).
Qed.
Lemma step_set_adj_in_slot o m v seq st :
  Step seq [(LAdjIn o m, VAdj v); (LOrderedAdjIn o m, VAdj v)] st (set_adj_in_slot o m v seq st).
Proof.
  unfold set_adj_in_slot. cbv zeta.
  assert (Step seq [(LAdjIn o m, VAdj v)] st (store upd_adj_in (set_adj_slot (ms_adj_in st) o m v seq) st))
    as Hs by step_setter set_adj_slot (@nested_get_put Z Z).
  apply (step_app seq [_] [_] _ _ _ Hs). generalize (store upd_adj_in (set_adj_slot (ms_adj_in st) o m v seq) st).
  intros st1. step_setter set_ordered_adj_slot (@nested_get_put Z Z).
Qed.

Lemma step_set_secondary_range_slot i k n p seq st :
  Step seq [(LRange i k n, VMember (presence p))] st (set_secondary_range_slot i k n p seq st).
Proof.
  unfold set_secondary_range_slot, set_secondary_range_slot_in.
  step_setter set_secondary_range_slot (@nested_get_put Z (list byte * Z)).
Qed.
Lemma step_set_compound_slot i k n p seq st :
  Step seq [(LCompound i k n, VMember (presence p))] st (set_compound_slot i k n p seq st).
Proof.
  unfold set_compound_slot, set_compound_slot_in.
  step_setter set_compound_slot (@nested_get_put Z (list byte * Z)).
Qed.

Definition eq_group (state : gmap Z (gmap Z (gmap Z MembershipSlot))) (i h n : Z) : option MembershipSlot :=
  groups ← state !! i; nested_get groups h n.

Lemma eq_group_set state i h n p seq i' h' n' :
  eq_group (set_secondary_eq_slot_in state i h n p seq).1 i' h' n'
  = if decide ((i, h, n) = (i', h', n')) then Some (written (eq_group state i h n) (presence p) seq)
    else eq_group state i' h' n'.
Proof.
  unfold set_secondary_eq_slot_in, eq_group.
  destruct (put_nested _ _ _ _ _ _) as [g sz] eqn:E. cbn.
  apply (f_equal fst) in E. cbn in E. subst g.
  destruct (decide (i = i')) as [<-|Hi].
  - rewrite lookup_insert_eq. cbn. rewrite nested_get_put.
    destruct (decide ((h, n) = (h', n'))) as [[= <- <-]|Hn].
    + rewrite decide_True by done. by destruct (state !! i).
    + rewrite decide_False by congruence. by destruct (state !! i).
  - rewrite lookup_insert_ne by done. by rewrite decide_False by congruence.
Qed.

Lemma step_set_secondary_eq_slot i h n p seq st :
  Step seq [(LEq i h n, VMember (presence p))] st (set_secondary_eq_slot i h n p seq st).
Proof.
  unfold set_secondary_eq_slot. apply step_single; [|apply declarations_store; done].
  intros []; rewrite cell_store; cbn [cell]; try (rewrite decide_False by discriminate; reflexivity).
  pose proof (eq_group_set (ms_secondary_eq_state st) i h n p seq index_id value_hash id) as Hg.
  unfold eq_group in Hg. cbn. rewrite Hg.
  repeat case_decide; simplify_eq; try done. cbn. by rewrite slot_map_written.
Qed.

Lemma set_sparse_fst map id p seq :
  p = true \/ is_Some (map !! id) ->
  (set_sparse_membership_slot map id p seq).1 = (put_slot estimate_membership_slot map id (presence p) seq).1.
Proof.
  intros Hp. unfold set_sparse_membership_slot. destruct (map !! id) eqn:E; [done|].
  destruct Hp as [->|[? Hs]]; congruence.
Qed.

Lemma step_set_node_tombstone_slot id p seq st :
  p = true \/ is_Some (ms_node_tombstones st !! id) ->
  Step seq [(LNodeTomb id, VMember (presence p))] st (set_node_tombstone_slot id p seq st).
Proof.
  intros Hp. unfold set_node_tombstone_slot. rewrite set_sparse_fst by done.
  step_setter set_node_tombstone_slot (@lookup_put_slot Z).
Qed.
Lemma step_set_edge_tombstone_slot id p seq st :
  p = true \/ is_Some (ms_edge_tombstones st !! id) ->
  Step seq [(LEdgeTomb id, VMember (presence p))] st (set_edge_tombstone_slot id p seq st).
Proof.
  intros Hp. unfold set_edge_tombstone_slot. rewrite set_sparse_fst by done.
  step_setter set_edge_tombstone_slot (@lookup_put_slot Z).
Qed.
