(* ===== verification/MemtableSteps.v ===== *)
(** The writes each operation of the memtable performs, cell by cell. *)
From S2P Require Import Prelude Types PropertyValue CompoundKey Slots Memtable MemtableCells.

Definition act_writes (a : Actions) : writes :=
  ((fun '(i, h, n, p) => (LEq i h n, VMember (presence p))) <$> act_eq a)
  ++ ((fun '(i, k, n, p) => (LRange i k n, VMember (presence p))) <$> act_range a)
  ++ ((fun '(i, k, n, p) => (LCompound i k n, VMember (presence p))) <$> act_compound a).

Definition opt_write (b : bool) (l : Loc) (v : Val) : writes := if b then [(l, v)] else [].

Definition unlink_old_label_writes (old node : NodeRecord) (l : Z) : writes :=
  let removed := negb (NodeLabels.contains (nr_label_ids node) l) in
  opt_write (removed || bool_decide (nr_key old ≠ nr_key node)) (LKey l (nr_key old)) (VId None)
  ++ opt_write removed (LLabelNode l (nr_id old)) (VMember None)
  ++ opt_write (removed || negb (nr_updated_at old =? nr_updated_at node))
       (LTime l (nr_updated_at old) (nr_id old)) (VMember None).

Definition link_new_label_writes (node : NodeRecord) (l : Z) : writes :=
  [(LKey l (nr_key node), VId (Some (nr_id node)));
   (LLabelNode l (nr_id node), VMember (Some tt));
   (LTime l (nr_updated_at node) (nr_id node), VMember (Some tt))].

Definition unlink_deleted_label_writes (node : NodeRecord) (l : Z) : writes :=
  [(LKey l (nr_key node), VId None);
   (LLabelNode l (nr_id node), VMember None);
   (LTime l (nr_updated_at node) (nr_id node), VMember None)].

Definition old_labels (old : option NodeRecord) : list Z :=
  match old with Some old => NodeLabels.as_slice (nr_label_ids old) | None => [] end.

Definition upsert_node_writes (old : option NodeRecord) (was_deleted : bool) (node : NodeRecord) (seq : Z)
    (iws : writes) : writes :=
  match old with
  | Some old => flat_map (unlink_old_label_writes old node) (NodeLabels.as_slice (nr_label_ids old))
  | None => []
  end
  ++ flat_map (link_new_label_writes node) (NodeLabels.as_slice (nr_label_ids node))
  ++ iws
  ++ opt_write was_deleted (LNodeTomb (nr_id node)) (VMember None)
  ++ [(LNode (nr_id node), VNode (Live (with_node_seq node seq)))].

Definition delete_node_writes (old : option NodeRecord) (id deleted_at seq : Z) (iws : writes) : writes :=
  match old with
  | Some node => flat_map (unlink_deleted_label_writes node) (NodeLabels.as_slice (nr_label_ids node))
  | None => []
  end
  ++ iws
  ++ [(LNode id, VNode (Tombstone (mkTombstoneEntry deleted_at seq)));
      (LNodeTomb id, VMember (Some tt))].

(** [triple] is what the triple index held before the write. *)
Definition unlink_old_edge_writes (triple : option Z) (old edge : EdgeRecord) : writes :=
  let from_changed := negb (er_from old =? er_from edge) in
  let to_changed := negb (er_to old =? er_to edge) in
  let label_changed := negb (er_label_id old =? er_label_id edge) in
  opt_write ((from_changed || to_changed || label_changed) && bool_decide (triple = Some (er_id old)))
    (LTriple (er_from old) (er_to old) (er_label_id old)) (VId None)
  ++ (if label_changed then
        [(LLabelEdge (er_label_id old) (er_id old), VMember None);
         (LOrderedLabelEdge (er_label_id old) (er_id old), VMember None)] else [])
  ++ (if from_changed || to_changed then
        [(LAdjOut (er_from old) (er_id old), VAdj None);
         (LOrderedAdjOut (er_from old) (er_id old), VAdj None);
         (LAdjIn (er_to old) (er_id old), VAdj None);
         (LOrderedAdjIn (er_to old) (er_id old), VAdj None)] else []).

Definition link_new_edge_writes (update_triple : bool) (edge : EdgeRecord) : writes :=
  opt_write update_triple (LTriple (er_from edge) (er_to edge) (er_label_id edge)) (VId (Some (er_id edge)))
  ++ [(LAdjOut (er_from edge) (er_id edge), VAdj (Some (adj_out_entry edge)));
      (LOrderedAdjOut (er_from edge) (er_id edge), VAdj (Some (adj_out_entry edge)));
      (LAdjIn (er_to edge) (er_id edge), VAdj (Some (adj_in_entry edge)));
      (LOrderedAdjIn (er_to edge) (er_id edge), VAdj (Some (adj_in_entry edge)));
      (LLabelEdge (er_label_id edge) (er_id edge), VMember (Some tt));
      (LOrderedLabelEdge (er_label_id edge) (er_id edge), VMember (Some tt));
      (LOrderedEdge (er_id edge), VMember (Some tt))].

Definition unlink_deleted_edge_writes (triple : option Z) (id : Z) (edge : EdgeRecord) : writes :=
  opt_write (bool_decide (triple = Some id))
    (LTriple (er_from edge) (er_to edge) (er_label_id edge)) (VId None)
  ++ [(LLabelEdge (er_label_id edge) (er_id edge), VMember None);
      (LOrderedLabelEdge (er_label_id edge) (er_id edge), VMember None);
      (LAdjOut (er_from edge) (er_id edge), VAdj None);
      (LOrderedAdjOut (er_from edge) (er_id edge), VAdj None);
      (LAdjIn (er_to edge) (er_id edge), VAdj None);
      (LOrderedAdjIn (er_to edge) (er_id edge), VAdj None);
      (LOrderedEdge (er_id edge), VMember None)].

Definition edge_triple (st : MemtableState) (edge : EdgeRecord) : option Z :=
  current_edge_triple_id st (er_from edge) (er_to edge) (er_label_id edge).

Definition delete_edge_writes (old : option EdgeRecord) (triple : option Z) (id deleted_at seq : Z)
    (iws : writes) : writes :=
  match old with Some edge => unlink_deleted_edge_writes triple id edge | None => [] end
  ++ iws
  ++ [(LEdge id, VEdge (Tombstone (mkTombstoneEntry deleted_at seq)));
      (LEdgeTomb id, VMember (Some tt))].

(** ** Index actions as writes *)
Lemma step_foldl_list {A} seq (f : MemtableState -> A -> MemtableState) (w : A -> Loc * Val) xs st :
  (forall st x, Step seq [w x] st (f st x)) -> Step seq (w <$> xs) st (foldl f st xs).
Proof.
  intros Hf. revert st. induction xs as [|x xs IH]; intros st; [apply step_refl|].
  change (Step seq ([w x] ++ (w <$> xs)) st (foldl f (f st x) xs)).
  eapply step_app; [apply Hf | apply IH].
Qed.

Lemma step_run_actions seq a st : Step seq (act_writes a) st (run_actions seq a st).
Proof.
  unfold act_writes, run_actions.
  apply step_app with (st1 := set_eq_actions seq (act_eq a) st);
    [|apply step_app with (st1 := set_range_actions seq (act_range a) (set_eq_actions seq (act_eq a) st))];
    apply step_foldl_list; intros st' [[[i h] n] p].
  - apply step_set_secondary_eq_slot.
  - apply step_set_secondary_range_slot.
  - apply step_set_compound_slot.
Qed.

Definition index_loc (l : Loc) : bool :=
  match l with LEq _ _ _ | LRange _ _ _ | LCompound _ _ _ => true | _ => false end.

Lemma act_writes_other a l : index_loc l = false -> last_write (act_writes a) l = None.
Proof.
  intros Hl. apply last_write_None. intros v. unfold act_writes. rewrite !elem_of_app, !list_elem_of_fmap.
  intros [([[[i h] n] p] & E & _)|[([[[i h] n] p] & E & _)|([[[i h] n] p] & E & _)]];
    by simplify_eq.
Qed.

Section Steps.
Context `{RmpValue, HashOrder}.

Lemma node_entries_decl st st' node p l :
  same_declarations st st' -> node_label_entries st' node p l = node_label_entries st node p l.
Proof.
  intros (D0 & D1 & D2 & D3 & D4 & D5 & D6).
  unfold node_label_entries, collect_secondary_index_entries_for_node_label,
    collect_compound_index_entries_for_node_label, node_field_index. by rewrite D0, D1, D2, D5.
Qed.

Lemma node_updates_decl st st' old node l :
  same_declarations st st' -> node_label_updates st' old node l = node_label_updates st old node l.
Proof.
  intros (D0 & D1 & D2 & D3 & D4 & D5 & D6).
  unfold node_label_updates, collect_secondary_index_updates_for_node_label,
    collect_compound_index_updates_for_node_label, node_field_index. by rewrite D0, D1, D2, D5.
Qed.

Lemma no_node_indexes_decl st st' : same_declarations st st' -> no_node_indexes st' = no_node_indexes st.
Proof. intros (D0 & D1 & D2 & D3 & D4 & D5 & D6). unfold no_node_indexes. by rewrite D1, D2, D5. Qed.

Lemma collect_labels_ext f g ls : (forall l, f l = g l) -> collect_labels f ls = collect_labels g ls.
Proof. intros Hf. induction ls as [|l ls IH]; [done|]. cbn. by rewrite Hf, IH. Qed.

(** The actions of each maintenance call, read off the declarations. *)
Definition node_entries_actions (st : MemtableState) (node : NodeRecord) (present : bool) : option Actions :=
  if no_node_indexes st then Some no_actions
  else collect_labels (node_label_entries st node present) (NodeLabels.as_slice (nr_label_ids node)).

Definition node_upsert_actions (st : MemtableState) (old : option NodeRecord) (node : NodeRecord)
  : option Actions :=
  if no_node_indexes st then Some no_actions
  else match old with
  | None => node_entries_actions st node true
  | Some old =>
      removed ← collect_labels (fun l =>
        if NodeLabels.contains (nr_label_ids node) l then Some no_actions
        else node_label_entries st old false l) (NodeLabels.as_slice (nr_label_ids old));
      kept ← collect_labels (fun l =>
        if NodeLabels.contains (nr_label_ids old) l then node_label_updates st old node l
        else node_label_entries st node true l) (NodeLabels.as_slice (nr_label_ids node));
      Some (actions_app removed kept)
  end.

Lemma run_no_actions seq st : run_actions seq no_actions st = st.
Proof. done. Qed.

Lemma put_node_entries_eq (present : bool) node seq st :
  (if present then add_secondary_index_entries_for_node node seq st
   else remove_secondary_index_entries_for_node node seq st)
  = (fun a => run_actions seq a st) <$> node_entries_actions st node present.
Proof.
  destruct present; unfold add_secondary_index_entries_for_node, remove_secondary_index_entries_for_node,
    node_entries_actions; destruct (no_node_indexes st); try done; by destruct (collect_labels _ _).
Qed.

Lemma sync_node_eq old node seq st :
  sync_secondary_index_entries_for_node_upsert old node seq st
  = (fun a => run_actions seq a st) <$> node_upsert_actions st old node.
Proof.
  unfold sync_secondary_index_entries_for_node_upsert, node_upsert_actions.
  destruct (no_node_indexes st) eqn:E; [done|]. destruct old as [old|].
  - by destruct (collect_labels _ _), (collect_labels _ _).
  - apply (put_node_entries_eq true).
Qed.

Lemma node_entries_actions_decl st st' node p :
  same_declarations st st' -> node_entries_actions st' node p = node_entries_actions st node p.
Proof.
  intros D. unfold node_entries_actions. rewrite (no_node_indexes_decl st st' D). case_match; [done|].
  apply collect_labels_ext. intros l. by apply node_entries_decl.
Qed.

Lemma node_upsert_actions_decl st st' old node :
  same_declarations st st' -> node_upsert_actions st' old node = node_upsert_actions st old node.
Proof.
  intros D. unfold node_upsert_actions. rewrite (no_node_indexes_decl st st' D). case_match; [done|].
  destruct old as [old|]; [|by apply node_entries_actions_decl].
  apply option_bind_ext; [|apply collect_labels_ext; intros l; by rewrite (node_entries_decl st st')].
  intros a. apply option_bind_ext; [done|]. apply collect_labels_ext. intros l.
  by rewrite (node_entries_decl st st'), (node_updates_decl st st').
Qed.

(** ** Edges *)
Definition edge_entries_actions (st : MemtableState) (edge : EdgeRecord) (present : bool)
  : option Actions :=
  if no_edge_indexes st then Some no_actions
  else if no_edge_label_indexes st (er_label_id edge) then Some no_actions
  else
    compound ← collect_compound_index_entries_for_edge_label st (er_label_id edge) edge present;
    Some (mkActions
      (eq_entries (ms_secondary_edge_eq_by_prop st !! er_label_id edge) (er_id edge) (er_props edge) present)
      (range_entries (ms_secondary_edge_range_by_prop st !! er_label_id edge) (er_id edge) (er_props edge) present)
      compound).

Definition edge_updates_actions (st : MemtableState) (old edge : EdgeRecord) : option Actions :=
  if no_edge_label_indexes st (er_label_id edge) then Some no_actions
  else
    compound ← collect_compound_index_updates_for_edge_label st (er_label_id edge) old edge;
    Some (mkActions
      match ms_secondary_edge_eq_by_prop st !! er_label_id edge with
      | Some by_prop => eq_updates by_prop (er_id old) (er_id edge) (er_props old) (er_props edge)
      | None => []
      end
      match ms_secondary_edge_range_by_prop st !! er_label_id edge with
      | Some by_prop => range_updates by_prop (er_id old) (er_id edge) (er_props old) (er_props edge)
      | None => []
      end
      compound).

(** A change of label removes the old entries first and then adds the new. *)
Definition edge_upsert_writes (st : MemtableState) (old : option EdgeRecord) (edge : EdgeRecord)
  : option writes :=
  if no_edge_indexes st then Some []
  else match old with
  | None => act_writes <$> edge_entries_actions st edge true
  | Some old =>
      if negb (er_label_id old =? er_label_id edge) then
        a ← edge_entries_actions st old false;
        b ← edge_entries_actions st edge true;
        Some (act_writes a ++ act_writes b)
      else act_writes <$> edge_updates_actions st old edge
  end.

Lemma edge_entries_actions_decl st st' edge p :
  same_declarations st st' -> edge_entries_actions st' edge p = edge_entries_actions st edge p.
Proof.
  intros (D0 & D1 & D2 & D3 & D4 & D5 & D6).
  unfold edge_entries_actions, no_edge_indexes, no_edge_label_indexes,
    collect_compound_index_entries_for_edge_label, edge_field_index. by rewrite D0, D3, D4, D6.
Qed.

Lemma edge_updates_actions_decl st st' old edge :
  same_declarations st st' -> edge_updates_actions st' old edge = edge_updates_actions st old edge.
Proof.
  intros (D0 & D1 & D2 & D3 & D4 & D5 & D6).
  unfold edge_updates_actions, no_edge_label_indexes, collect_compound_index_updates_for_edge_label,
    edge_field_index. by rewrite D0, D3, D4, D6.
Qed.

Lemma edge_upsert_writes_decl st st' old edge :
  same_declarations st st' -> edge_upsert_writes st' old edge = edge_upsert_writes st old edge.
Proof.
  intros D. unfold edge_upsert_writes.
  assert (no_edge_indexes st' = no_edge_indexes st) as ->
    by (destruct D as (D0 & D1 & D2 & D3 & D4 & D5 & D6); unfold no_edge_indexes; by rewrite D3, D4, D6).
  destruct old as [old|]; [|by rewrite (edge_entries_actions_decl st st')].
  rewrite (edge_updates_actions_decl st st'), (edge_entries_actions_decl st st' old) by done.
  by rewrite (edge_entries_actions_decl st st' edge).
Qed.

Lemma put_edge_entries_eq p edge seq st :
  put_secondary_index_entries_for_edge p edge seq st
  = (fun a => run_actions seq a st) <$> edge_entries_actions st edge p.
Proof.
  unfold put_secondary_index_entries_for_edge, edge_entries_actions.
  case_match; [done|]. case_match; [done|]. by destruct (collect_compound_index_entries_for_edge_label _ _ _ _).
Qed.

Lemma sync_edge_step old edge seq st st' :
  sync_secondary_index_entries_for_edge_upsert old edge seq st = Some st' ->
  exists iws, edge_upsert_writes st old edge = Some iws /\ Step seq iws st st'.
Proof.
  unfold sync_secondary_index_entries_for_edge_upsert, edge_upsert_writes,
    add_secondary_index_entries_for_edge, remove_secondary_index_entries_for_edge.
  case_match; [intros [= <-]; eexists; split; [done | apply step_refl]|].
  destruct old as [old|].
  - case_match.
    + rewrite put_edge_entries_eq. destruct (edge_entries_actions st old false) as [a|]; [cbn|done].
      rewrite put_edge_entries_eq, (edge_entries_actions_decl st) by apply (step_run_actions seq a st).
      destruct (edge_entries_actions st edge true) as [b|]; [cbn|done]. intros [= <-].
      eexists. split; [done|]. eapply step_app; apply step_run_actions.
    + unfold edge_updates_actions. case_match; [intros [= <-]; eexists; split; [done | apply step_refl]|].
      destruct (collect_compound_index_updates_for_edge_label _ _ _ _); [cbn|done]. intros [= <-].
      eexists. split; [done|]. exact (step_run_actions seq (mkActions _ _ _) st).
  - rewrite put_edge_entries_eq. destruct (edge_entries_actions st edge true) as [b|]; [cbn|done].
    intros [= <-]. eexists. split; [done|]. apply step_run_actions.
Qed.

(** ** The operations as steps *)
Lemma step_upd_counts seq st n m : 
  Step seq [] st (upd_live_node_count n st) /\ Step seq [] st (upd_live_edge_count m st).
Proof. split; (split; [by intros []|done]). Qed.

Lemma step_unlink_old_label old node seq st l :
  Step seq (unlink_old_label_writes old node l) st (unlink_old_label old node seq st l).
Proof.
  unfold unlink_old_label_writes, unlink_old_label, opt_write. cbv zeta.
  eapply step_app; [apply step_if; intros _; apply step_set_node_key|].
  eapply step_app; apply step_if; intros _; [apply (step_set_node_label_slot _ _ false)|].
  apply (step_set_time_slot _ _ _ false).
Qed.

Lemma step_link_new_label node seq st l :
  Step seq (link_new_label_writes node l) st (link_new_label node seq st l).
Proof.
  unfold link_new_label. cbv zeta. unfold link_new_label_writes.
  eapply (step_app seq [_]); [apply step_set_node_key|].
  eapply (step_app seq [_] [_]); [apply (step_set_node_label_slot _ _ true)|].
  apply (step_set_time_slot _ _ _ true).
Qed.

Lemma step_unlink_deleted_label node seq st l :
  Step seq (unlink_deleted_label_writes node l) st (unlink_deleted_label node seq st l).
Proof.
  unfold unlink_deleted_label. cbv zeta. unfold unlink_deleted_label_writes.
  eapply (step_app seq [_]); [apply step_set_node_key|].
  eapply (step_app seq [_] [_]); [apply (step_set_node_label_slot _ _ false)|].
  apply (step_set_time_slot _ _ _ false).
Qed.

Lemma step_cell_Some seq ws st st' l : Step seq ws st st' -> is_Some (cell st l) -> is_Some (cell st' l).
Proof. intros [C _] Hl. rewrite C. destruct (last_write ws l); [by eexists | done]. Qed.

Lemma node_deleted_slot st id s :
  node_deleted_at st id s = true -> is_Some (cell st (LNodeTomb id)).
Proof. unfold node_deleted_at. cbn. destruct (ms_node_tombstones st !! id); [by eexists | done]. Qed.
Lemma edge_deleted_slot st id s :
  edge_deleted_at st id s = true -> is_Some (cell st (LEdgeTomb id)).
Proof. unfold edge_deleted_at. cbn. destruct (ms_edge_tombstones st !! id); [by eexists | done]. Qed.

Lemma cell_node_tomb st id : is_Some (cell st (LNodeTomb id)) -> is_Some (ms_node_tombstones st !! id).
Proof. cbn. by rewrite fmap_is_Some. Qed.
Lemma cell_edge_tomb st id : is_Some (cell st (LEdgeTomb id)) -> is_Some (ms_edge_tombstones st !! id).
Proof. cbn. by rewrite fmap_is_Some. Qed.

Lemma step_upsert_node node seq st st' :
  apply_upsert_node node seq st = Some st' ->
  exists acts,
    node_upsert_actions st (current_node st (nr_id node)) (with_node_seq node seq) = Some acts
    /\ Step seq (upsert_node_writes (current_node st (nr_id node))
                   (node_deleted_at st (nr_id node) u64_max) node seq (act_writes acts)) st st'.
Proof.
  unfold apply_upsert_node. cbv zeta. set (old := current_node st (nr_id node)).
  set (st1 := match old with Some o => _ | None => st end).
  set (st2 := foldl (link_new_label node seq) st1 _).
  assert (Step seq match old with
                   | Some old => flat_map (unlink_old_label_writes old node) (NodeLabels.as_slice (nr_label_ids old))
                   | None => [] end st st1) as S1.
  { unfold st1. destruct old; [|apply step_refl]. apply step_foldl. intros. apply step_unlink_old_label. }
  assert (Step seq (flat_map (link_new_label_writes node) (NodeLabels.as_slice (nr_label_ids node))) st1 st2) as S2
    by (apply step_foldl; intros; apply step_link_new_label).
  pose proof (step_app _ _ _ _ _ _ S1 S2) as S12.
  rewrite sync_node_eq, (node_upsert_actions_decl st st2) by apply S12.
  destruct (node_upsert_actions st old (with_node_seq node seq)) as [acts|]; [|done].
  cbn [fmap option_fmap option_map mbind option_bind]. intros E. apply (inj Some) in E as <-.
  exists acts. split; [done|]. unfold upsert_node_writes. rewrite app_assoc.
  eapply step_app; [exact S12|]. eapply step_app; [apply step_run_actions|].
  eapply step_app; [apply step_if; intros Hd; apply (step_set_node_tombstone_slot _ false); right|].
  - apply cell_node_tomb, (step_cell_Some _ _ _ _ _ (step_run_actions _ _ _)), (step_cell_Some _ _ _ _ _ S12).
    by apply node_deleted_slot in Hd.
  - case_match; [apply step_set_node_state|]. rewrite <- (app_nil_r [_]).
    eapply step_app; [apply step_set_node_state | by apply step_upd_counts].
Qed.

Lemma step_delete_node id deleted_at seq st st' :
  apply_delete_node id deleted_at seq st = Some st' ->
  exists acts,
    match current_node st id with
    | Some node => node_entries_actions st node false = Some acts
    | None => acts = no_actions
    end
    /\ Step seq (delete_node_writes (current_node st id) id deleted_at seq (act_writes acts)) st st'.
Proof.
  unfold apply_delete_node, delete_node_writes. cbv zeta.
  assert (forall st1, Step seq [(LNode id, VNode (Tombstone (mkTombstoneEntry deleted_at seq)));
      (LNodeTomb id, VMember (Some tt))] st1 (set_node_tombstone_slot id true seq
        (set_node_state id (Tombstone (mkTombstoneEntry deleted_at seq)) seq st1))) as S3.
  { intros st1. apply (step_app seq [_] [_]) with (st1 := set_node_state id
      (Tombstone (mkTombstoneEntry deleted_at seq)) seq st1); [apply step_set_node_state|].
    apply (step_set_node_tombstone_slot _ true). by left. }
  destruct (current_node st id) as [node|].
  - set (st1 := foldl _ st _). assert (Step seq (flat_map (unlink_deleted_label_writes node)
      (NodeLabels.as_slice (nr_label_ids node))) st st1) as S1
      by (apply step_foldl; intros; apply step_unlink_deleted_label).
    rewrite (put_node_entries_eq false), (node_entries_actions_decl st st1) by apply S1.
    destruct (node_entries_actions st node false) as [acts|]; [|done].
    cbn [fmap option_fmap option_map mbind option_bind]. intros E. apply (inj Some) in E as <-.
    exists acts. split; [done|]. eapply step_app; [exact S1|].
    eapply step_app; [|apply S3]. rewrite <- (app_nil_r (act_writes acts)).
    eapply step_app; [apply step_run_actions | by apply step_upd_counts].
  - cbn [mbind option_bind]. intros E. apply (inj Some) in E as <-.
    exists no_actions. split; [done|]. apply S3.
Qed.

Lemma step_edge_labels l e p seq st :
  Step seq [(LLabelEdge l e, VMember (presence p)); (LOrderedLabelEdge l e, VMember (presence p))] st
    (set_ordered_edge_label_slot l e p seq (set_edge_label_slot l e p seq st)).
Proof.
  eapply (step_app seq [_] [_]); [apply step_set_edge_label_slot | apply step_set_ordered_edge_label_slot].
Qed.

Lemma step_adj o v i w e seq st :
  Step seq [(LAdjOut o e, VAdj v); (LOrderedAdjOut o e, VAdj v);
            (LAdjIn i e, VAdj w); (LOrderedAdjIn i e, VAdj w)] st
    (set_adj_in_slot i e w seq (set_adj_out_slot o e v seq st)).
Proof. eapply (step_app seq [_; _] [_; _]); [apply step_set_adj_out_slot | apply step_set_adj_in_slot]. Qed.

Lemma step_unlink_old_edge old edge seq st :
  Step seq (unlink_old_edge_writes (edge_triple st old) old edge) st (unlink_old_edge old edge seq st).
Proof.
  unfold unlink_old_edge_writes, unlink_old_edge, opt_write, edge_triple. cbv zeta.
  eapply step_app; [apply step_if; intros _; apply step_set_edge_triple|].
  eapply step_app; [apply step_if; intros _; apply (step_edge_labels _ _ false)|].
  apply step_if. intros _. apply step_adj.
Qed.

Lemma step_link_new_edge old edge seq st :
  Step seq (link_new_edge_writes (should_update_triple old edge (edge_triple st edge)) edge) st
    (link_new_edge old edge seq st).
Proof.
  unfold link_new_edge_writes, link_new_edge, opt_write, edge_triple. cbv zeta.
  eapply step_app; [apply step_if; intros _; apply step_set_edge_triple|].
  eapply (step_app seq [_; _; _; _] [_; _; _]); [apply step_adj|].
  eapply (step_app seq [_; _] [_]); [apply (step_edge_labels _ _ true) | apply (step_set_ordered_edge_slot _ true)].
Qed.

Lemma step_unlink_deleted_edge id edge seq st :
  Step seq (unlink_deleted_edge_writes (edge_triple st edge) id edge) st (unlink_deleted_edge id edge seq st).
Proof.
  unfold unlink_deleted_edge_writes, unlink_deleted_edge, opt_write, edge_triple. cbv zeta.
  eapply step_app; [apply step_if; intros _; apply step_set_edge_triple|].
  eapply (step_app seq [_; _] [_; _; _; _; _]); [apply (step_edge_labels _ _ false)|].
  eapply (step_app seq [_; _; _; _] [_]); [apply step_adj | apply (step_set_ordered_edge_slot _ false)].
Qed.

(** Whether the triple index is updated is decided after the old version of the
    edge has been unlinked. *)
Lemma step_upsert_edge edge seq st st' :
  apply_upsert_edge edge seq st = Some st' ->
  exists iws st1,
    edge_upsert_writes st (current_edge st (er_id edge)) (with_edge_seq edge seq) = Some iws
    /\ Step seq match current_edge st (er_id edge) with
                | Some old => unlink_old_edge_writes (edge_triple st old) old edge
                | None => [] end st st1
    /\ Step seq (link_new_edge_writes
                   (should_update_triple (current_edge st (er_id edge)) edge (edge_triple st1 edge)) edge
                 ++ iws
                 ++ opt_write (edge_deleted_at st (er_id edge) u64_max) (LEdgeTomb (er_id edge)) (VMember None)
                 ++ [(LEdge (er_id edge), VEdge (Live (with_edge_seq edge seq)))]) st1 st'.
Proof.
  unfold apply_upsert_edge. cbv zeta. set (old := current_edge st (er_id edge)).
  set (st1 := match old with Some o => _ | None => st end).
  assert (Step seq match old with Some old => unlink_old_edge_writes (edge_triple st old) old edge
                   | None => [] end st st1) as S1
    by (unfold st1; destruct old; [apply step_unlink_old_edge | apply step_refl]).
  pose proof (step_link_new_edge old edge seq st1) as S2. set (st2 := link_new_edge old edge seq st1) in *.
  destruct (sync_secondary_index_entries_for_edge_upsert old (with_edge_seq edge seq) seq st2) as [st3|] eqn:E;
    [|done].
  apply sync_edge_step in E as (iws & Hiws & S3).
  rewrite (edge_upsert_writes_decl st) in Hiws
    by (etransitivity; [apply S1 | apply S2]).
  cbn [mbind option_bind]. intros E. apply (inj Some) in E as <-.
  exists iws, st1. split; [done|]. split; [exact S1|].
  eapply step_app; [exact S2|]. eapply step_app; [exact S3|].
  eapply step_app; [apply step_if; intros Hd; apply (step_set_edge_tombstone_slot _ false); right|].
  - apply cell_edge_tomb, (step_cell_Some _ _ _ _ _ S3), (step_cell_Some _ _ _ _ _ S2),
      (step_cell_Some _ _ _ _ _ S1). by apply edge_deleted_slot in Hd.
  - case_match; [apply step_set_edge_state|]. rewrite <- (app_nil_r [_]).
    eapply step_app; [apply step_set_edge_state | by apply step_upd_counts].
Qed.

Lemma step_delete_edge id deleted_at seq st st' :
  apply_delete_edge id deleted_at seq st = Some st' ->
  exists acts,
    match current_edge st id with
    | Some edge => edge_entries_actions st edge false = Some acts
    | None => acts = no_actions
    end
    /\ Step seq (delete_edge_writes (current_edge st id)
                   match current_edge st id with Some edge => edge_triple st edge | None => None end
                   id deleted_at seq (act_writes acts)) st st'.
Proof.
  unfold apply_delete_edge, delete_edge_writes. cbv zeta.
  assert (forall st1, Step seq [(LEdge id, VEdge (Tombstone (mkTombstoneEntry deleted_at seq)));
      (LEdgeTomb id, VMember (Some tt))] st1 (set_edge_tombstone_slot id true seq
        (set_edge_state id (Tombstone (mkTombstoneEntry deleted_at seq)) seq st1))) as S3.
  { intros st1. apply (step_app seq [_] [_]) with (st1 := set_edge_state id
      (Tombstone (mkTombstoneEntry deleted_at seq)) seq st1); [apply step_set_edge_state|].
    apply (step_set_edge_tombstone_slot _ true). by left. }
  destruct (current_edge st id) as [edge|].
  - pose proof (step_unlink_deleted_edge id edge seq st) as S1.
    set (st1 := unlink_deleted_edge id edge seq st) in *.
    unfold remove_secondary_index_entries_for_edge.
    rewrite put_edge_entries_eq, (edge_entries_actions_decl st st1) by apply S1.
    destruct (edge_entries_actions st edge false) as [acts|]; [|done].
    cbn [fmap option_fmap option_map mbind option_bind]. intros E. apply (inj Some) in E as <-.
    exists acts. split; [done|]. eapply step_app; [exact S1|].
    eapply step_app; [|apply S3]. rewrite <- (app_nil_r (act_writes acts)).
    eapply step_app; [apply step_run_actions | by apply step_upd_counts].
  - cbn [mbind option_bind]. intros E. apply (inj Some) in E as <-.
    exists no_actions. split; [done|]. apply S3.
Qed.

(** Every operation is a list of writes at its sequence number. *)
Lemma step_apply_op op seq st st' : apply_op op seq st = Some st' -> exists ws, Step seq ws st st'.
Proof.
  destruct op; cbn [apply_op].
  - intros (acts & _ & Hs)%step_upsert_node. by eexists.
  - intros (iws & st1 & _ & S1 & S2)%step_upsert_edge. eexists. eapply step_app; [exact S1 | exact S2].
  - intros (acts & _ & Hs)%step_delete_node. by eexists.
  - intros (acts & _ & Hs)%step_delete_edge. by eexists.
  - intros [= <-]. eexists. apply step_refl.
  - intros [= <-]. eexists. apply step_refl.
  - intros [= <-]. eexists. apply step_refl.
  - intros [= <-]. eexists. apply step_refl.
Qed.
End Steps.
