(* ===== verification/MemtableFacts.v ===== *)
(** Snapshots of the memtable, the invariants that tie its indexes to the records
    they index, and the node operations that preserve them. *)
From S2P Require Import Prelude Types Encoding PropertyValue PropertyValueFacts CompoundKey Slots Memtable MemtableCells MemtableSteps.

(** ** Snapshots *)
Lemma seen_step_lt seq ws st st' s l : Step seq ws st st' -> s < seq -> seen st' s l = seen st s l.
Proof.
  intros [C _] Hs. unfold seen. rewrite C. destruct (last_write ws l); [|done]. by apply slot_at_written_lt.
Qed.

Lemma cur_step seq ws st st' l :
  Step seq ws st st' ->
  cur st' l = match last_write ws l with Some v => Some v | None => cur st l end.
Proof.
  intros [C _]. unfold cur. rewrite C. destruct (last_write ws l); [|done]. apply slot_current_written.
Qed.

(** Every write of the state is at or below [bound]. *)
Definition written_by (st : MemtableState) (bound : Z) : Prop :=
  forall l slot, cell st l = Some slot -> sv_write_seq (vs_head slot) <= bound.

Lemma written_by_step seq ws st st' b : Step seq ws st st' -> seq <= b -> written_by st b -> written_by st' b.
Proof.
  intros [C _] Hs Hb l slot. rewrite C. destruct (last_write ws l); [|apply Hb].
  intros [= <-]. by rewrite written_head_seq.
Qed.

Lemma seen_cur st s l : written_by st s -> seen st s l = cur st l.
Proof.
  intros Hb. unfold seen, cur. destruct (cell st l) as [slot|] eqn:E; [|done].
  apply slot_at_ge, (Hb l), E.
Qed.

Lemma empty_written_by b : written_by empty_state b.
Proof. by intros []. Qed.

(** ** Reads through cells *)
Definition live_node (v : option Val) : option NodeRecord :=
  match v with Some (VNode (Live node)) => Some node | _ => None end.
Definition live_edge (v : option Val) : option EdgeRecord :=
  match v with Some (VEdge (Live edge)) => Some edge | _ => None end.
Definition is_member (v : option Val) : bool :=
  match v with Some (VMember (Some _)) => true | _ => false end.
Definition id_of (v : option Val) : option Z := match v with Some (VId (Some n)) => Some n | _ => None end.

Lemma node_at_seen st id s : node_at st id s = live_node (seen st s (LNode id)).
Proof.
  unfold node_at, seen, record_at. cbn [cell]. rewrite slot_at_map.
  destruct (ms_nodes st !! id) as [slot|]; [|done]. cbn. by destruct (Slot.at_ slot s) as [[]|].
Qed.
Lemma edge_at_seen st id s : edge_at st id s = live_edge (seen st s (LEdge id)).
Proof.
  unfold edge_at, seen, record_at. cbn [cell]. rewrite slot_at_map.
  destruct (ms_edges st !! id) as [slot|]; [|done]. cbn. by destruct (Slot.at_ slot s) as [[]|].
Qed.
Lemma current_node_cur st id : current_node st id = live_node (cur st (LNode id)).
Proof.
  unfold current_node, cur, record_current. cbn [cell]. rewrite slot_current_map.
  destruct (ms_nodes st !! id) as [slot|]; [|done]. cbn. by destruct (Slot.current slot).
Qed.
Lemma current_edge_cur st id : current_edge st id = live_edge (cur st (LEdge id)).
Proof.
  unfold current_edge, cur, record_current. cbn [cell]. rewrite slot_current_map.
  destruct (ms_edges st !! id) as [slot|]; [|done]. cbn. by destruct (Slot.current slot).
Qed.
Lemma visible_seen (o : option MembershipSlot) s :
  match o with Some slot => slot_option_visible slot s | None => false end
  = is_member (slot_at (slot_map VMember <$> o) s).
Proof.
  rewrite slot_at_map. destruct o as [slot|]; [|done]. unfold slot_option_visible. cbn.
  by destruct (Slot.at_ slot s) as [[]|].
Qed.
Lemma node_deleted_seen st id s : node_deleted_at st id s = is_member (seen st s (LNodeTomb id)).
Proof. apply visible_seen. Qed.
Lemma edge_deleted_seen st id s : edge_deleted_at st id s = is_member (seen st s (LEdgeTomb id)).
Proof. apply visible_seen. Qed.
Lemma triple_cur st from to label : current_edge_triple_id st from to label = id_of (cur st (LTriple from to label)).
Proof.
  unfold current_edge_triple_id, cur, slot_option_current. cbn [cell]. rewrite slot_current_map.
  destruct (ms_edge_triple_index st !! (from, to, label)) as [slot|]; [|done]. cbn. by destruct (Slot.current slot).
Qed.

Section Isolation.
Context `{RmpValue, HashOrder}.

Lemma seen_apply_ops ops st st' s l :
  Forall (fun o => s < o.1) ops -> apply_ops ops st = Some st' -> seen st' s l = seen st s l.
Proof.
  revert st. induction ops as [|[seq op] ops IH]; intros st Hs E; [by injection E as ->|].
  apply Forall_cons in Hs as [Hs Hops]. cbn in E.
  destruct (apply_op op seq st) as [st1|] eqn:E1; [|done].
  apply step_apply_op in E1 as [ws S1]. rewrite (IH st1) by done. by eapply seen_step_lt.
Qed.

Lemma written_by_apply_ops ops st st' b :
  Forall (fun o => o.1 <= b) ops -> written_by st b -> apply_ops ops st = Some st' -> written_by st' b.
Proof.
  revert st. induction ops as [|[seq op] ops IH]; intros st Hs Hb E; [by injection E as <-|].
  apply Forall_cons in Hs as [Hs Hops]. cbn in E.
  destruct (apply_op op seq st) as [st1|] eqn:E1; [|done].
  apply step_apply_op in E1 as [ws S1]. apply (IH st1); [done | | done]. by eapply written_by_step.
Qed.

Lemma apply_ops_app ops1 ops2 st :
  apply_ops (ops1 ++ ops2) st = (st1 ← apply_ops ops1 st; apply_ops ops2 st1).
Proof.
  revert st. induction ops1 as [|[seq op] ops1 IH]; intros st; [done|]. cbn.
  destruct (apply_op op seq st); [apply IH | done].
Qed.
End Isolation.

(** ** Index coherence *)
Definition labels_of (node : NodeRecord) : list Z := NodeLabels.as_slice (nr_label_ids node).
Abbreviation present := (Some (VMember (Some tt))).

(** Well-formed records: fields in their Rust types, properties a BTreeMap of
    well-formed values. *)
Definition props_ok (p : props) : Prop := btree_wf p /\ Forall (fun kv => value_wf kv.2) p.
Definition node_ok (r : NodeRecord) : Prop := node_wf r /\ props_ok (nr_props r).
Definition edge_ok (r : EdgeRecord) : Prop := edge_wf r /\ props_ok (er_props r).
Definition op_ok (op : WalOp) : Prop :=
  match op with UpsertNode r => node_ok r | UpsertEdge r => edge_ok r | _ => True end.

Lemma node_ok_labels r : node_ok r -> NodeLabels.wf (nr_label_ids r).
Proof. by intros [(_ & ? & _) _]. Qed.

Record node_inv (st : MemtableState) : Prop := {
  ni_record n r : current_node st n = Some r -> nr_id r = n /\ node_ok r;
  ni_deleted n : cur st (LNodeTomb n) = present <-> exists t, cur st (LNode n) = Some (VNode (Tombstone t));
  ni_label l n : cur st (LLabelNode l n) = present
                 <-> exists r, current_node st n = Some r /\ l ∈ labels_of r;
  ni_time l t n : cur st (LTime l t n) = present
                  <-> exists r, current_node st n = Some r /\ l ∈ labels_of r /\ nr_updated_at r = t;
  ni_key l k n : cur st (LKey l k) = Some (VId (Some n)) ->
                 exists r, current_node st n = Some r /\ l ∈ labels_of r /\ nr_key r = k
}.

Record edge_inv (st : MemtableState) : Prop := {
  ei_record e r : current_edge st e = Some r -> er_id r = e /\ edge_ok r;
  ei_deleted e : cur st (LEdgeTomb e) = present <-> exists t, cur st (LEdge e) = Some (VEdge (Tombstone t));
  ei_out o e a : cur st (LAdjOut o e) = Some (VAdj (Some a))
                 <-> exists r, current_edge st e = Some r /\ er_from r = o /\ a = adj_out_entry r;
  ei_ordered_out o e : cur st (LOrderedAdjOut o e) = cur st (LAdjOut o e);
  ei_in o e a : cur st (LAdjIn o e) = Some (VAdj (Some a))
                <-> exists r, current_edge st e = Some r /\ er_to r = o /\ a = adj_in_entry r;
  ei_ordered_in o e : cur st (LOrderedAdjIn o e) = cur st (LAdjIn o e);
  ei_label l e : cur st (LLabelEdge l e) = present
                 <-> exists r, current_edge st e = Some r /\ er_label_id r = l;
  ei_ordered_label l e : cur st (LOrderedLabelEdge l e) = cur st (LLabelEdge l e);
  ei_ordered e : cur st (LOrderedEdge e) = present <-> is_Some (current_edge st e);
  ei_triple f t l e : cur st (LTriple f t l) = Some (VId (Some e)) ->
                      exists r, current_edge st e = Some r /\ er_from r = f /\ er_to r = t /\ er_label_id r = l
}.

Lemma last_write_iff ws l v (P : Prop) `{Decision P} :
  (forall v', (l, v') ∈ ws <-> P /\ v' = v) -> last_write ws l = if decide P then Some v else None.
Proof.
  intros Hin. case_decide as HP.
  - apply last_write_unique; [by apply Hin | by intros v' [_ ->]%Hin].
  - apply last_write_None. by intros v' [? _]%Hin.
Qed.

Lemma elem_of_opt_write b l v l' v' : (l', v') ∈ opt_write b l v <-> b = true /\ l' = l /\ v' = v.
Proof. unfold opt_write. destruct b; set_solver. Qed.

Lemma elem_of_flat_map {A} (f : A -> writes) xs w : w ∈ flat_map f xs <-> exists x, x ∈ xs /\ w ∈ f x.
Proof. induction xs as [|x xs IH]; cbn; set_solver. Qed.

(** Splits on the outermost decision of the goal. *)
Ltac split_decide D :=
  match goal with |- context [@decide ?P ?dec] => destruct (@decide P dec) as [D|D] end.

(** Solves a membership characterisation of a section of writes. *)
Ltac solve_in :=
  intros ?v; rewrite ?elem_of_flat_map;
  unfold link_new_label_writes, unlink_old_label_writes, unlink_deleted_label_writes,
    link_new_edge_writes, unlink_old_edge_writes, unlink_deleted_edge_writes;
  setoid_rewrite elem_of_app || idtac; setoid_rewrite elem_of_app || idtac;
  repeat setoid_rewrite elem_of_opt_write; repeat setoid_rewrite elem_of_cons;
  repeat setoid_rewrite elem_of_nil; naive_solver.

Section LabelWrites.
Context (node : NodeRecord) (ls : list Z).

Lemma link_label l n :
  last_write (flat_map (link_new_label_writes node) ls) (LLabelNode l n)
  = if decide (n = nr_id node /\ l ∈ ls) then present else None.
Proof. apply last_write_iff. solve_in. Qed.
Lemma link_time l t n :
  last_write (flat_map (link_new_label_writes node) ls) (LTime l t n)
  = if decide (n = nr_id node /\ t = nr_updated_at node /\ l ∈ ls) then present else None.
Proof. apply last_write_iff. solve_in. Qed.
Lemma link_key l k :
  last_write (flat_map (link_new_label_writes node) ls) (LKey l k)
  = if decide (k = nr_key node /\ l ∈ ls) then Some (VId (Some (nr_id node))) else None.
Proof. apply last_write_iff. solve_in. Qed.
Lemma delete_label l n :
  last_write (flat_map (unlink_deleted_label_writes node) ls) (LLabelNode l n)
  = if decide (n = nr_id node /\ l ∈ ls) then Some (VMember None) else None.
Proof. apply last_write_iff. solve_in. Qed.
Lemma delete_time l t n :
  last_write (flat_map (unlink_deleted_label_writes node) ls) (LTime l t n)
  = if decide (n = nr_id node /\ t = nr_updated_at node /\ l ∈ ls) then Some (VMember None) else None.
Proof. apply last_write_iff. solve_in. Qed.
Lemma delete_key l k :
  last_write (flat_map (unlink_deleted_label_writes node) ls) (LKey l k)
  = if decide (k = nr_key node /\ l ∈ ls) then Some (VId None) else None.
Proof. apply last_write_iff. solve_in. Qed.
End LabelWrites.

Section UnlinkWrites.
Context (old node : NodeRecord) (ls : list Z).
Abbreviation gone l := (NodeLabels.contains (nr_label_ids node) l = false).

Lemma unlink_label l n :
  last_write (flat_map (unlink_old_label_writes old node) ls) (LLabelNode l n)
  = if decide (n = nr_id old /\ l ∈ ls /\ gone l) then Some (VMember None) else None.
Proof.
  apply last_write_iff. intros v. rewrite elem_of_flat_map. unfold unlink_old_label_writes.
  setoid_rewrite elem_of_app. setoid_rewrite elem_of_app. repeat setoid_rewrite elem_of_opt_write.
  setoid_rewrite negb_true_iff. naive_solver.
Qed.
Lemma unlink_time l t n :
  last_write (flat_map (unlink_old_label_writes old node) ls) (LTime l t n)
  = if decide (n = nr_id old /\ t = nr_updated_at old /\ l ∈ ls
               /\ (gone l \/ nr_updated_at old ≠ nr_updated_at node)) then Some (VMember None) else None.
Proof.
  apply last_write_iff. intros v. rewrite elem_of_flat_map. unfold unlink_old_label_writes.
  setoid_rewrite elem_of_app. setoid_rewrite elem_of_app. repeat setoid_rewrite elem_of_opt_write.
  setoid_rewrite orb_true_iff. setoid_rewrite negb_true_iff. setoid_rewrite Z.eqb_neq. naive_solver.
Qed.
Lemma unlink_key l k :
  last_write (flat_map (unlink_old_label_writes old node) ls) (LKey l k)
  = if decide (k = nr_key old /\ l ∈ ls /\ (gone l \/ nr_key old ≠ nr_key node)) then Some (VId None) else None.
Proof.
  apply last_write_iff. intros v. rewrite elem_of_flat_map. unfold unlink_old_label_writes.
  setoid_rewrite elem_of_app. setoid_rewrite elem_of_app. repeat setoid_rewrite elem_of_opt_write.
  setoid_rewrite orb_true_iff. setoid_rewrite negb_true_iff. setoid_rewrite bool_decide_eq_true. naive_solver.
Qed.
End UnlinkWrites.

(** Locations only the label loops write. *)
Definition label_loc (l : Loc) : bool :=
  match l with LKey _ _ | LLabelNode _ _ | LTime _ _ _ => true | _ => false end.

Lemma label_writes_other old node ls l :
  label_loc l = false ->
  last_write (flat_map (link_new_label_writes node) ls) l = None
  /\ last_write (flat_map (unlink_old_label_writes old node) ls) l = None
  /\ last_write (flat_map (unlink_deleted_label_writes node) ls) l = None.
Proof.
  intros Hl. split_and!; apply last_write_flat_map_None; intros x _; apply last_write_None; intros v;
    unfold link_new_label_writes, unlink_old_label_writes, unlink_deleted_label_writes;
    rewrite ?elem_of_app, ?elem_of_opt_write, ?elem_of_cons, ?elem_of_nil; naive_solver.
Qed.

Lemma last_write_cons l v ws l' :
  last_write ((l, v) :: ws) l' = match last_write ws l' with
                                 | Some v' => Some v'
                                 | None => if decide (l = l') then Some v else None end.
Proof. done. Qed.

Lemma last_write_opt b l v l' :
  last_write (opt_write b l v) l' = if decide (b = true /\ l = l') then Some v else None.
Proof. unfold opt_write. destruct b; cbn; repeat case_decide; naive_solver. Qed.

Section NodeOps.
Context `{RmpValue, HashOrder}.

Lemma cur_upsert_node node seq st st' l :
  apply_upsert_node node seq st = Some st' -> index_loc l = false ->
  cur st' l =
    if decide (l = LNode (nr_id node)) then Some (VNode (Live (with_node_seq node seq)))
    else if decide (l = LNodeTomb (nr_id node) /\ node_deleted_at st (nr_id node) u64_max = true)
    then Some (VMember None)
    else match last_write (flat_map (link_new_label_writes node) (labels_of node)) l with
    | Some v => Some v
    | None =>
        match current_node st (nr_id node) with
        | Some old =>
            match last_write (flat_map (unlink_old_label_writes old node) (labels_of old)) l with
            | Some v => Some v
            | None => cur st l
            end
        | None => cur st l
        end
    end.
Proof.
  intros (acts & _ & Hs)%step_upsert_node Hl. rewrite (cur_step _ _ _ _ l Hs).
  unfold upsert_node_writes. rewrite !last_write_app, act_writes_other, last_write_opt by done.
  cbn [last_write]. destruct (decide (LNode (nr_id node) = l)) as [<-|Hn].
  { by rewrite decide_True. }
  rewrite (decide_False (P := l = _)) by congruence.
  destruct (decide (node_deleted_at st (nr_id node) u64_max = true /\ LNodeTomb (nr_id node) = l)) as [[Hd <-]|Ht].
  { by rewrite decide_True. }
  rewrite decide_False by naive_solver. unfold labels_of. destruct (last_write (flat_map _ _) l); [done|].
  by destruct (current_node st (nr_id node)).
Qed.

Lemma cur_delete_node id t seq st st' l :
  apply_delete_node id t seq st = Some st' -> index_loc l = false ->
  cur st' l =
    if decide (l = LNode id) then Some (VNode (Tombstone (mkTombstoneEntry t seq)))
    else if decide (l = LNodeTomb id) then present
    else match current_node st id with
    | Some node =>
        match last_write (flat_map (unlink_deleted_label_writes node) (labels_of node)) l with
        | Some v => Some v
        | None => cur st l
        end
    | None => cur st l
    end.
Proof.
  intros (acts & _ & Hs)%step_delete_node Hl. rewrite (cur_step _ _ _ _ l Hs).
  unfold delete_node_writes. rewrite !last_write_app, act_writes_other by done. cbn [last_write].
  destruct (decide (LNodeTomb id = l)) as [<-|Ht]; [by rewrite decide_False, decide_True by done|].
  destruct (decide (LNode id = l)) as [<-|Hn]; [by rewrite decide_True|].
  rewrite !decide_False by congruence. unfold labels_of. by destruct (current_node st id).
Qed.

Lemma current_node_upsert node seq st st' n :
  apply_upsert_node node seq st = Some st' ->
  current_node st' n = if decide (n = nr_id node) then Some (with_node_seq node seq) else current_node st n.
Proof.
  intros Ha. rewrite !current_node_cur, (cur_upsert_node node seq st st') by done.
  destruct (decide (n = nr_id node)) as [->|Hn]; [by rewrite decide_True|].
  rewrite !decide_False by naive_solver.
  destruct (label_writes_other node node (labels_of node) (LNode n)) as [-> _]; [done|].
  destruct (current_node st (nr_id node)) as [old|]; [|done].
  by destruct (label_writes_other old node (labels_of old) (LNode n)) as (_ & -> & _).
Qed.

Lemma current_node_delete id t seq st st' n :
  apply_delete_node id t seq st = Some st' ->
  current_node st' n = if decide (n = id) then None else current_node st n.
Proof.
  intros Ha. rewrite !current_node_cur, (cur_delete_node id t seq st st') by done.
  destruct (decide (n = id)) as [->|Hn]; [by rewrite decide_True|].
  rewrite !decide_False by naive_solver.
  destruct (current_node st id) as [old|]; [|done].
  by destruct (label_writes_other old old (labels_of old) (LNode n)) as (_ & _ & ->).
Qed.

Lemma node_tomb_current st id :
  written_by st u64_max -> node_inv st ->
  node_deleted_at st id u64_max = true <-> cur st (LNodeTomb id) = present.
Proof.
  intros Hb I. rewrite node_deleted_seen, seen_cur by done. unfold is_member.
  destruct (cur st (LNodeTomb id)) as [[| | | |[[]|]]|]; naive_solver.
Qed.

Lemma with_node_seq_labels node seq : labels_of (with_node_seq node seq) = labels_of node.
Proof. done. Qed.

Section UpsertNode.
Context (node : NodeRecord) (seq : Z) (st st' : MemtableState).
Hypothesis Hb : written_by st u64_max.
Hypothesis I : node_inv st.
Hypothesis Hok : node_ok node.
Let Hwf := node_ok_labels node Hok.
Hypothesis Ha : apply_upsert_node node seq st = Some st'.

Let Hn n := current_node_upsert node seq st st' n Ha.

Lemma upsert_gone l : NodeLabels.contains (nr_label_ids node) l = false <-> l ∉ labels_of node.
Proof. rewrite <- not_true_iff_false. by rewrite NodeLabels.contains_spec. Qed.

Lemma upsert_old_id old : current_node st (nr_id node) = Some old -> nr_id old = nr_id node.
Proof. intros Hold. by apply (ni_record _ I). Qed.

(** The record and its tombstone marker. *)
Lemma upsert_cur_record n :
  cur st' (LNode n) = if decide (n = nr_id node) then Some (VNode (Live (with_node_seq node seq)))
                      else cur st (LNode n).
Proof.
  rewrite (cur_upsert_node node seq st st') by done.
  destruct (decide (n = nr_id node)) as [->|E]; [by rewrite decide_True|].
  rewrite !decide_False by naive_solver.
  destruct (label_writes_other node node (labels_of node) (LNode n)) as [-> _]; [done|].
  destruct (current_node st (nr_id node)) as [old|]; [|done].
  by destruct (label_writes_other old node (labels_of old) (LNode n)) as (_ & -> & _).
Qed.

Lemma upsert_cur_tomb n :
  cur st' (LNodeTomb n) = present <-> n ≠ nr_id node /\ cur st (LNodeTomb n) = present.
Proof.
  rewrite (cur_upsert_node node seq st st') by done. rewrite (decide_False (P := _ = LNode _)) by done.
  pose proof (node_tomb_current st n Hb I) as Hd.
  case_decide as D; [naive_solver|].
  destruct (label_writes_other node node (labels_of node) (LNodeTomb n)) as [-> _]; [done|].
  assert (match current_node st (nr_id node) with
          | Some old => match last_write (flat_map (unlink_old_label_writes old node) (labels_of old)) (LNodeTomb n) with
                        | Some v => Some v | None => cur st (LNodeTomb n) end
          | None => cur st (LNodeTomb n) end = cur st (LNodeTomb n)) as ->.
  { destruct (current_node st (nr_id node)) as [old|]; [|done].
    by destruct (label_writes_other old node (labels_of old) (LNodeTomb n)) as (_ & -> & _). }
  split; [|naive_solver]. intros Hp. split; [|done]. intros ->. apply D. by split; [|apply Hd].
Qed.

Lemma upsert_label l n :
  cur st' (LLabelNode l n) = present <-> exists r, current_node st' n = Some r /\ l ∈ labels_of r.
Proof.
  rewrite Hn, (cur_upsert_node node seq st st'), !decide_False, link_label by naive_solver.
  pose proof (ni_label _ I l n) as Il. pose proof (upsert_gone l) as Hg.
  destruct (decide (n = nr_id node)) as [->|E].
  - destruct (decide (l ∈ labels_of node)) as [Hl|Hl]; [rewrite decide_True by done; naive_solver|].
    rewrite decide_False by naive_solver. destruct (current_node st (nr_id node)) as [old|] eqn:Eo.
    + rewrite unlink_label. pose proof (upsert_old_id old Eo). case_decide; naive_solver.
    + naive_solver.
  - rewrite decide_False by naive_solver. destruct (current_node st (nr_id node)) as [old|] eqn:Eo; [|done].
    rewrite unlink_label, decide_False; [done|]. pose proof (upsert_old_id old Eo). naive_solver.
Qed.

Lemma upsert_time l t n :
  cur st' (LTime l t n) = present
  <-> exists r, current_node st' n = Some r /\ l ∈ labels_of r /\ nr_updated_at r = t.
Proof.
  rewrite Hn, (cur_upsert_node node seq st st'), !decide_False, link_time by naive_solver.
  pose proof (ni_time _ I l t n) as Il. pose proof (upsert_gone l) as Hg.
  destruct (decide (n = nr_id node)) as [->|E].
  - destruct (decide (t = nr_updated_at node /\ l ∈ labels_of node)) as [Hl|Hl];
      [rewrite decide_True by done; naive_solver|].
    rewrite decide_False by naive_solver. destruct (current_node st (nr_id node)) as [old|] eqn:Eo.
    + rewrite unlink_time. pose proof (upsert_old_id old Eo) as Hid. case_decide as D; [naive_solver|].
      rewrite Il. split; [|naive_solver].
      intros (r & [= <-] & Hr & Ht). exfalso. apply D. rewrite Hid. split_and!; [done..|].
      destruct (decide (l ∈ labels_of node)); [right; naive_solver | left; naive_solver].
    + rewrite Il. naive_solver.
  - rewrite decide_False by naive_solver. destruct (current_node st (nr_id node)) as [old|] eqn:Eo; [|done].
    rewrite unlink_time, decide_False; [done|]. pose proof (upsert_old_id old Eo). naive_solver.
Qed.

Lemma upsert_key l k n :
  cur st' (LKey l k) = Some (VId (Some n)) ->
  exists r, current_node st' n = Some r /\ l ∈ labels_of r /\ nr_key r = k.
Proof.
  rewrite Hn, (cur_upsert_node node seq st st'), !decide_False, link_key by naive_solver.
  pose proof (ni_key _ I l k n) as Il. pose proof (upsert_gone l) as Hg.
  destruct (decide (k = nr_key node /\ l ∈ labels_of node)) as [[-> Hl]|Hl].
  { intros [= <-]. rewrite decide_True by done. naive_solver. }
  destruct (current_node st (nr_id node)) as [old|] eqn:Eo.
  - rewrite unlink_key. case_decide as D; [done|]. intros Hk. destruct (Il Hk) as (r & Hr & Hlr & Hkr).
    destruct (decide (n = nr_id node)) as [->|E]; [|naive_solver].
    exfalso. rewrite Hr in Eo. injection Eo as ->. apply D. split_and!; [done..|].
    destruct (decide (l ∈ labels_of node)); [right; naive_solver | left; naive_solver].
  - intros Hk. destruct (Il Hk) as (r & Hr & ?). destruct (decide (n = nr_id node)); naive_solver.
Qed.

Lemma node_inv_upsert : node_inv st'.
Proof.
  split; [| | apply upsert_label | apply upsert_time | apply upsert_key].
  - intros n r. rewrite Hn. case_decide as E; [|apply (ni_record _ I)]. intros [= <-]. by rewrite E.
  - intros n. rewrite upsert_cur_tomb, upsert_cur_record, (ni_deleted _ I). case_decide; naive_solver.
Qed.
End UpsertNode.

Section DeleteNode.
Context (id t seq : Z) (st st' : MemtableState).
Hypothesis I : node_inv st.
Hypothesis Ha : apply_delete_node id t seq st = Some st'.

Let Hn n := current_node_delete id t seq st st' n Ha.

Lemma delete_cur_other n :
  n ≠ id -> cur st' (LNode n) = cur st (LNode n) /\ cur st' (LNodeTomb n) = cur st (LNodeTomb n).
Proof.
  intros E. rewrite !(cur_delete_node id t seq st st'), !decide_False by naive_solver.
  destruct (current_node st id) as [old|]; [|done].
  destruct (label_writes_other old old (labels_of old) (LNode n)) as (_ & _ & ->); [done|].
  by destruct (label_writes_other old old (labels_of old) (LNodeTomb n)) as (_ & _ & ->).
Qed.

Lemma node_inv_delete : node_inv st'.
Proof.
  split.
  - intros n r. rewrite Hn. case_decide; [done | apply (ni_record _ I)].
  - intros n. destruct (decide (n = id)) as [->|E].
    + rewrite !(cur_delete_node id t seq st st') by done.
      rewrite (decide_False (P := LNodeTomb id = _)), !decide_True by done. naive_solver.
    + destruct (delete_cur_other n E) as [-> ->]. apply (ni_deleted _ I).
  - intros l n. rewrite Hn, (cur_delete_node id t seq st st'), !decide_False by naive_solver.
    pose proof (ni_label _ I l n) as Il. destruct (current_node st id) as [old|] eqn:Eo.
    + rewrite delete_label. pose proof (ni_record _ I id old Eo) as [Hid _]. repeat case_decide; naive_solver.
    + case_decide; naive_solver.
  - intros l u n. rewrite Hn, (cur_delete_node id t seq st st'), !decide_False by naive_solver.
    pose proof (ni_time _ I l u n) as Il. destruct (current_node st id) as [old|] eqn:Eo.
    + rewrite delete_time. pose proof (ni_record _ I id old Eo) as [Hid _]. repeat case_decide; naive_solver.
    + case_decide; naive_solver.
  - intros l k n. rewrite Hn, (cur_delete_node id t seq st st'), !decide_False by naive_solver.
    pose proof (ni_key _ I l k n) as Il. destruct (current_node st id) as [old|] eqn:Eo.
    + rewrite delete_key. repeat case_decide; naive_solver.
    + case_decide; naive_solver.
Qed.
End DeleteNode.
End NodeOps.
