(* ===== verification/MemtableEdges.v ===== *)
(** The edge operations of the memtable preserve the coherence of the adjacency
    lists, the triple index and the edge label indexes. *)
From S2P Require Import Prelude Types Encoding PropertyValue PropertyValueFacts CompoundKey Slots Memtable MemtableCells MemtableSteps MemtableFacts.

Section EdgeOps.
Context `{RmpValue, HashOrder}.

Lemma edge_index_writes_other st old edge iws l :
  edge_upsert_writes st old edge = Some iws -> index_loc l = false -> last_write iws l = None.
Proof.
  intros E Hl. unfold edge_upsert_writes in E.
  repeat (case_match; simplify_option_eq); try done; rewrite ?last_write_app, ?act_writes_other by done; done.
Qed.

Lemma cur_upsert_edge edge seq st st' :
  apply_upsert_edge edge seq st = Some st' ->
  exists upd, forall l, index_loc l = false ->
  cur st' l =
    if decide (l = LEdge (er_id edge)) then Some (VEdge (Live (with_edge_seq edge seq)))
    else if decide (l = LEdgeTomb (er_id edge) /\ edge_deleted_at st (er_id edge) u64_max = true)
    then Some (VMember None)
    else match last_write (link_new_edge_writes upd edge) l with
    | Some v => Some v
    | None =>
        match current_edge st (er_id edge) with
        | Some old =>
            match last_write (unlink_old_edge_writes (edge_triple st old) old edge) l with
            | Some v => Some v
            | None => cur st l
            end
        | None => cur st l
        end
    end.
Proof.
  intros (iws & st1 & Hi & S1 & S2)%step_upsert_edge.
  exists (should_update_triple (current_edge st (er_id edge)) edge (edge_triple st1 edge)). intros l Hl.
  rewrite (cur_step _ _ _ _ l S2), (cur_step _ _ _ _ l S1).
  rewrite !last_write_app, last_write_opt, (edge_index_writes_other _ _ _ _ _ Hi Hl).
  cbn [last_write]. destruct (decide (LEdge (er_id edge) = l)) as [<-|Hn].
  { by rewrite decide_True. }
  rewrite (decide_False (P := l = _)) by congruence.
  destruct (decide (edge_deleted_at st (er_id edge) u64_max = true /\ LEdgeTomb (er_id edge) = l)) as [[Hd <-]|Ht].
  { by rewrite decide_True. }
  rewrite decide_False by naive_solver.
  destruct (last_write (link_new_edge_writes (should_update_triple _ _ _) _) l); [reflexivity|].
  destruct (current_edge st (er_id edge)); reflexivity.
Qed.

Lemma cur_delete_edge id t seq st st' l :
  apply_delete_edge id t seq st = Some st' -> index_loc l = false ->
  cur st' l =
    if decide (l = LEdge id) then Some (VEdge (Tombstone (mkTombstoneEntry t seq)))
    else if decide (l = LEdgeTomb id) then present
    else match current_edge st id with
    | Some edge =>
        match last_write (unlink_deleted_edge_writes (edge_triple st edge) id edge) l with
        | Some v => Some v
        | None => cur st l
        end
    | None => cur st l
    end.
Proof.
  intros (acts & _ & Hs)%step_delete_edge Hl. rewrite (cur_step _ _ _ _ l Hs).
  unfold delete_edge_writes. rewrite !last_write_app, act_writes_other by done. cbn [last_write].
  destruct (decide (LEdgeTomb id = l)) as [<-|Ht]; [by rewrite decide_False, decide_True by done|].
  destruct (decide (LEdge id = l)) as [<-|Hn]; [by rewrite decide_True|].
  rewrite !decide_False by congruence. by destruct (current_edge st id).
Qed.

(** Sections of edge writes, location by location. *)
Ltac solve_edge_in :=
  intros ?v; unfold link_new_edge_writes, unlink_old_edge_writes, unlink_deleted_edge_writes;
  rewrite ?elem_of_app, ?elem_of_opt_write;
  repeat match goal with |- context [if ?b then _ else []] => destruct b eqn:? end;
  rewrite ?elem_of_cons, ?elem_of_nil;
  rewrite ?orb_true_iff, ?orb_false_iff, ?negb_true_iff, ?negb_false_iff, ?Z.eqb_eq, ?Z.eqb_neq in *;
  first [ solve [split; [intros; destruct_or?; destruct_and?; simplify_eq; tauto
                        | intros; destruct_and?; subst; tauto]]
        | naive_solver ].

Lemma link_out upd edge o e :
  last_write (link_new_edge_writes upd edge) (LAdjOut o e)
  = if decide (o = er_from edge /\ e = er_id edge) then Some (VAdj (Some (adj_out_entry edge))) else None.
Proof. apply last_write_iff. solve_edge_in. Qed.
Lemma link_ordered_out upd edge o e :
  last_write (link_new_edge_writes upd edge) (LOrderedAdjOut o e)
  = if decide (o = er_from edge /\ e = er_id edge) then Some (VAdj (Some (adj_out_entry edge))) else None.
Proof. apply last_write_iff. solve_edge_in. Qed.
Lemma link_in upd edge o e :
  last_write (link_new_edge_writes upd edge) (LAdjIn o e)
  = if decide (o = er_to edge /\ e = er_id edge) then Some (VAdj (Some (adj_in_entry edge))) else None.
Proof. apply last_write_iff. solve_edge_in. Qed.
Lemma link_ordered_in upd edge o e :
  last_write (link_new_edge_writes upd edge) (LOrderedAdjIn o e)
  = if decide (o = er_to edge /\ e = er_id edge) then Some (VAdj (Some (adj_in_entry edge))) else None.
Proof. apply last_write_iff. solve_edge_in. Qed.
Lemma link_edge_label upd edge l e :
  last_write (link_new_edge_writes upd edge) (LLabelEdge l e)
  = if decide (l = er_label_id edge /\ e = er_id edge) then present else None.
Proof. apply last_write_iff. solve_edge_in. Qed.
Lemma link_ordered_label upd edge l e :
  last_write (link_new_edge_writes upd edge) (LOrderedLabelEdge l e)
  = if decide (l = er_label_id edge /\ e = er_id edge) then present else None.
Proof. apply last_write_iff. solve_edge_in. Qed.
Lemma link_ordered upd edge e :
  last_write (link_new_edge_writes upd edge) (LOrderedEdge e)
  = if decide (e = er_id edge) then present else None.
Proof. apply last_write_iff. solve_edge_in. Qed.
Lemma link_triple upd edge f t l :
  last_write (link_new_edge_writes upd edge) (LTriple f t l)
  = if decide (upd = true /\ f = er_from edge /\ t = er_to edge /\ l = er_label_id edge)
    then Some (VId (Some (er_id edge))) else None.
Proof. apply last_write_iff. solve_edge_in. Qed.

Section UnlinkEdge.
Context (triple : option Z) (old edge : EdgeRecord).
Abbreviation moved := (er_from old ≠ er_from edge \/ er_to old ≠ er_to edge).
Abbreviation ws := (unlink_old_edge_writes triple old edge).

Lemma unlink_out o e :
  last_write ws (LAdjOut o e) = if decide (o = er_from old /\ e = er_id old /\ moved) then Some (VAdj None) else None.
Proof. apply last_write_iff. solve_edge_in. Qed.
Lemma unlink_ordered_out o e :
  last_write ws (LOrderedAdjOut o e) = if decide (o = er_from old /\ e = er_id old /\ moved) then Some (VAdj None) else None.
Proof. apply last_write_iff. solve_edge_in. Qed.
Lemma unlink_in o e :
  last_write ws (LAdjIn o e) = if decide (o = er_to old /\ e = er_id old /\ moved) then Some (VAdj None) else None.
Proof. apply last_write_iff. solve_edge_in. Qed.
Lemma unlink_ordered_in o e :
  last_write ws (LOrderedAdjIn o e) = if decide (o = er_to old /\ e = er_id old /\ moved) then Some (VAdj None) else None.
Proof. apply last_write_iff. solve_edge_in. Qed.
Lemma unlink_edge_label l e :
  last_write ws (LLabelEdge l e)
  = if decide (l = er_label_id old /\ e = er_id old /\ er_label_id old ≠ er_label_id edge)
    then Some (VMember None) else None.
Proof. apply last_write_iff. solve_edge_in. Qed.
Lemma unlink_ordered_label l e :
  last_write ws (LOrderedLabelEdge l e)
  = if decide (l = er_label_id old /\ e = er_id old /\ er_label_id old ≠ er_label_id edge)
    then Some (VMember None) else None.
Proof. apply last_write_iff. solve_edge_in. Qed.
Lemma unlink_ordered e : last_write ws (LOrderedEdge e) = None.
Proof. apply last_write_None. solve_edge_in. Qed.
Lemma unlink_triple f t l :
  last_write ws (LTriple f t l)
  = if decide (f = er_from old /\ t = er_to old /\ l = er_label_id old
               /\ (moved \/ er_label_id old ≠ er_label_id edge) /\ triple = Some (er_id old))
    then Some (VId None) else None.
Proof.
  apply last_write_iff. intros v. unfold unlink_old_edge_writes.
  rewrite ?elem_of_app, ?elem_of_opt_write, andb_true_iff, bool_decide_eq_true.
  repeat match goal with |- context [if ?b then _ else []] => destruct b eqn:? end;
  rewrite ?elem_of_cons, ?elem_of_nil;
  rewrite ?orb_true_iff, ?orb_false_iff, ?negb_true_iff, ?negb_false_iff, ?Z.eqb_eq, ?Z.eqb_neq in *;
  naive_solver.
Qed.
End UnlinkEdge.

(** Locations of edges and of nodes. *)
Definition edge_loc (l : Loc) : bool :=
  match l with
  | LEdge _ | LEdgeTomb _ | LTriple _ _ _ | LAdjOut _ _ | LAdjIn _ _ | LOrderedAdjOut _ _
  | LOrderedAdjIn _ _ | LOrderedEdge _ | LOrderedLabelEdge _ _ | LLabelEdge _ _ => true
  | _ => false
  end.

Lemma edge_writes_other triple upd old edge id l :
  edge_loc l = false ->
  last_write (link_new_edge_writes upd edge) l = None
  /\ last_write (unlink_old_edge_writes triple old edge) l = None
  /\ last_write (unlink_deleted_edge_writes triple id old) l = None.
Proof. intros Hl. split_and!; apply last_write_None; solve_edge_in. Qed.

Section UpsertEdge.
Context (edge : EdgeRecord) (seq : Z) (st st' : MemtableState).
Hypothesis Hb : written_by st u64_max.
Hypothesis I : edge_inv st.
Hypothesis Hok : edge_ok edge.
Hypothesis Ha : apply_upsert_edge edge seq st = Some st'.

Lemma current_edge_upsert e :
  current_edge st' e = if decide (e = er_id edge) then Some (with_edge_seq edge seq) else current_edge st e.
Proof.
  destruct (cur_upsert_edge edge seq st st' Ha) as [upd Hc]. rewrite !current_edge_cur, Hc by done.
  destruct (decide (e = er_id edge)) as [->|E]; [by rewrite decide_True|].
  rewrite !decide_False by naive_solver.
  assert (forall ws : writes, (forall v, (LEdge e, v) ∉ ws) -> last_write ws (LEdge e) = None) as Hno
    by (intros; by apply last_write_None).
  rewrite Hno by solve_edge_in. destruct (current_edge st (er_id edge)); [|done]. by rewrite Hno by solve_edge_in.
Qed.

Lemma upsert_old_edge_id old : current_edge st (er_id edge) = Some old -> er_id old = er_id edge.
Proof. intros Hold. by apply (ei_record _ I). Qed.

Lemma upsert_edge_record e :
  cur st' (LEdge e) = if decide (e = er_id edge) then Some (VEdge (Live (with_edge_seq edge seq)))
                      else cur st (LEdge e).
Proof.
  destruct (cur_upsert_edge edge seq st st' Ha) as [upd Hc]. rewrite Hc by done.
  destruct (decide (e = er_id edge)) as [->|E]; [by rewrite decide_True|].
  rewrite !decide_False by naive_solver.
  rewrite last_write_None by solve_edge_in. destruct (current_edge st (er_id edge)); [|done].
  by rewrite last_write_None by solve_edge_in.
Qed.

Lemma upsert_edge_tomb e :
  cur st' (LEdgeTomb e) = present <-> e ≠ er_id edge /\ cur st (LEdgeTomb e) = present.
Proof.
  destruct (cur_upsert_edge edge seq st st' Ha) as [upd Hc]. rewrite Hc by done.
  rewrite (decide_False (P := _ = LEdge _)) by done.
  assert (edge_deleted_at st (er_id edge) u64_max = true <-> cur st (LEdgeTomb (er_id edge)) = present) as Hd.
  { rewrite edge_deleted_seen, seen_cur by done. unfold is_member.
    destruct (cur st (LEdgeTomb (er_id edge))) as [[| | | |[[]|]]|]; naive_solver. }
  split_decide D.
  { destruct D as [[= ->] D]. split; [done | by intros [? _]]. }
  assert (match last_write (link_new_edge_writes upd edge) (LEdgeTomb e) with
    | Some v => Some v
    | None => match current_edge st (er_id edge) with
              | Some old => match last_write (unlink_old_edge_writes (edge_triple st old) old edge) (LEdgeTomb e) with
                            | Some v => Some v | None => cur st (LEdgeTomb e) end
              | None => cur st (LEdgeTomb e) end end = cur st (LEdgeTomb e)) as ->.
  { rewrite last_write_None by solve_edge_in. destruct (current_edge st (er_id edge)); [|done].
    by rewrite last_write_None by solve_edge_in. }
  split; [|naive_solver]. intros Hp. split; [|done]. intros ->. apply D. by split; [|apply Hd].
Qed.

(** Opens the effect of the upsert at a location. *)
Ltac open_upsert :=
  destruct (cur_upsert_edge edge seq st st' Ha) as [upd Hc]; rewrite !Hc by done;
  rewrite !decide_False by first [discriminate | by intros [[=] _]].

Lemma upsert_out o e a :
  cur st' (LAdjOut o e) = Some (VAdj (Some a))
  <-> exists r, current_edge st' e = Some r /\ er_from r = o /\ a = adj_out_entry r.
Proof.
  rewrite current_edge_upsert. open_upsert. rewrite link_out. pose proof (ei_out _ I o e a) as Io.
  destruct (current_edge st (er_id edge)) as [old|] eqn:Eo.
  - rewrite unlink_out. pose proof (upsert_old_edge_id old Eo). repeat case_decide; naive_solver.
  - repeat case_decide; naive_solver.
Qed.
Lemma upsert_in o e a :
  cur st' (LAdjIn o e) = Some (VAdj (Some a))
  <-> exists r, current_edge st' e = Some r /\ er_to r = o /\ a = adj_in_entry r.
Proof.
  rewrite current_edge_upsert. open_upsert. rewrite link_in. pose proof (ei_in _ I o e a) as Io.
  destruct (current_edge st (er_id edge)) as [old|] eqn:Eo.
  - rewrite unlink_in. pose proof (upsert_old_edge_id old Eo). repeat case_decide; naive_solver.
  - repeat case_decide; naive_solver.
Qed.
Lemma upsert_edge_label l e :
  cur st' (LLabelEdge l e) = present <-> exists r, current_edge st' e = Some r /\ er_label_id r = l.
Proof.
  rewrite current_edge_upsert. open_upsert. rewrite link_edge_label. pose proof (ei_label _ I l e) as Io.
  destruct (current_edge st (er_id edge)) as [old|] eqn:Eo.
  - rewrite unlink_edge_label. pose proof (upsert_old_edge_id old Eo). repeat case_decide; naive_solver.
  - repeat case_decide; naive_solver.
Qed.
Lemma upsert_triple f t l e :
  cur st' (LTriple f t l) = Some (VId (Some e)) ->
  exists r, current_edge st' e = Some r /\ er_from r = f /\ er_to r = t /\ er_label_id r = l.
Proof.
  rewrite current_edge_upsert. open_upsert. rewrite link_triple. pose proof (ei_triple _ I f t l e) as Io.
  split_decide D; [intros [= <-]; rewrite decide_True by done; naive_solver|].
  destruct (current_edge st (er_id edge)) as [old|] eqn:Eo.
  - pose proof (upsert_old_edge_id old Eo) as Hid. rewrite unlink_triple. unfold edge_triple. rewrite triple_cur.
    split_decide D2; [done|]. intros Ht. destruct (Io Ht) as (r & Hr & Hf & Hto & Hl).
    destruct (decide (e = er_id edge)) as [->|E]; [|naive_solver].
    rewrite Hr in Eo. injection Eo as ->. subst f t l. rewrite Ht, Hid in D2. cbn [id_of] in D2.
    eexists. split; [done|]. cbn.
    destruct (decide (er_from old = er_from edge)), (decide (er_to old = er_to edge)),
      (decide (er_label_id old = er_label_id edge)); first [by split_and! | exfalso; apply D2; tauto].
  - intros Ht. destruct (Io Ht) as (r & Hr & ?). destruct (decide (e = er_id edge)) as [->|E]; [congruence | eauto].
Qed.

Lemma edge_inv_upsert : edge_inv st'.
Proof.
  split; [| |apply upsert_out| |apply upsert_in| |apply upsert_edge_label| | |apply upsert_triple].
  - intros e r. rewrite current_edge_upsert. case_decide as E; [intros [= <-]; by rewrite E | apply (ei_record _ I)].
  - intros e. rewrite upsert_edge_tomb, upsert_edge_record, (ei_deleted _ I). case_decide as E.
    + split; [by intros [? _] | by intros [? [=]]].
    + split; [by intros [_ ?] | by split].
  - intros o e. open_upsert. rewrite link_out, link_ordered_out, (ei_ordered_out _ I). split_decide D; [reflexivity|].
    destruct (current_edge st (er_id edge)); [by rewrite unlink_out, unlink_ordered_out | done].
  - intros o e. open_upsert. rewrite link_in, link_ordered_in, (ei_ordered_in _ I). split_decide D; [reflexivity|].
    destruct (current_edge st (er_id edge)); [by rewrite unlink_in, unlink_ordered_in | done].
  - intros o e. open_upsert. rewrite link_edge_label, link_ordered_label, (ei_ordered_label _ I). split_decide D; [reflexivity|].
    destruct (current_edge st (er_id edge)); [by rewrite unlink_edge_label, unlink_ordered_label | done].
  - intros e. rewrite current_edge_upsert. open_upsert. rewrite link_ordered.
    destruct (decide (e = er_id edge)); [by split; [eexists|]|].
    destruct (current_edge st (er_id edge)); [rewrite unlink_ordered|]; apply (ei_ordered _ I).
Qed.
End UpsertEdge.

Section DeleteEdge.
Context (id t seq : Z) (st st' : MemtableState).
Hypothesis I : edge_inv st.
Hypothesis Ha : apply_delete_edge id t seq st = Some st'.

Lemma current_edge_delete e :
  current_edge st' e = if decide (e = id) then None else current_edge st e.
Proof.
  rewrite !current_edge_cur, (cur_delete_edge id t seq st st') by done.
  destruct (decide (e = id)) as [->|E]; [by rewrite decide_True|].
  rewrite !decide_False by naive_solver. destruct (current_edge st id); [|done].
  by rewrite last_write_None by solve_edge_in.
Qed.

Lemma delete_edge_record e :
  cur st' (LEdge e) = if decide (e = id) then Some (VEdge (Tombstone (mkTombstoneEntry t seq))) else cur st (LEdge e).
Proof.
  rewrite (cur_delete_edge id t seq st st') by done. destruct (decide (e = id)) as [->|E]; [by rewrite decide_True|].
  rewrite !decide_False by naive_solver. destruct (current_edge st id); [|done].
  by rewrite last_write_None by solve_edge_in.
Qed.

(** The effect of the deletion on the locations of the deleted edge. *)
Lemma delete_edge_loc edge l v (P : Prop) `{Decision P} :
  index_loc l = false -> l ≠ LEdge id -> l ≠ LEdgeTomb id -> current_edge st id = Some edge ->
  (forall v', (l, v') ∈ unlink_deleted_edge_writes (edge_triple st edge) id edge <-> P /\ v' = v) ->
  cur st' l = if decide P then Some v else cur st l.
Proof.
  intros Hl Hl1 Hl2 He Hin. rewrite (cur_delete_edge id t seq st st') by done.
  rewrite !decide_False by done. rewrite He, (last_write_iff _ l v P) by done. by case_decide.
Qed.

Lemma delete_no_edge l :
  index_loc l = false -> l ≠ LEdge id -> l ≠ LEdgeTomb id -> current_edge st id = None -> cur st' l = cur st l.
Proof.
  intros Hl Hl1 Hl2 He. rewrite (cur_delete_edge id t seq st st') by done. by rewrite !decide_False, He by done.
Qed.

Ltac open_delete edge v P :=
  erewrite (delete_edge_loc edge _ v P) by first [done | eassumption | solve_edge_in].

Lemma edge_inv_delete : edge_inv st'.
Proof.
  assert (forall e, e ≠ id -> cur st' (LEdge e) = cur st (LEdge e) /\ cur st' (LEdgeTomb e) = cur st (LEdgeTomb e))
    as Hother.
  { intros e E. rewrite !(cur_delete_edge id t seq st st'), !decide_False by naive_solver.
    destruct (current_edge st id); [|done]. by rewrite !last_write_None by solve_edge_in. }
  destruct (current_edge st id) as [edge|] eqn:He.
  - pose proof (ei_record _ I _ _ He) as [Hid _]. split.
    + intros e r. rewrite current_edge_delete. case_decide; [done | apply (ei_record _ I)].
    + intros e. destruct (decide (e = id)) as [->|E].
      * rewrite !(cur_delete_edge _ t seq st st') by done.
        rewrite (decide_False (P := LEdgeTomb _ = LEdge _)), !decide_True by done. naive_solver.
      * destruct (Hother e E) as [-> ->]. apply (ei_deleted _ I).
    + intros o e a. rewrite current_edge_delete. open_delete edge (VAdj None) (o = er_from edge /\ e = er_id edge).
      pose proof (ei_out _ I o e a). repeat case_decide; naive_solver.
    + intros o e. open_delete edge (VAdj None) (o = er_from edge /\ e = er_id edge).
      open_delete edge (VAdj None) (o = er_from edge /\ e = er_id edge). by rewrite (ei_ordered_out _ I).
    + intros o e a. rewrite current_edge_delete. open_delete edge (VAdj None) (o = er_to edge /\ e = er_id edge).
      pose proof (ei_in _ I o e a). repeat case_decide; naive_solver.
    + intros o e. open_delete edge (VAdj None) (o = er_to edge /\ e = er_id edge).
      open_delete edge (VAdj None) (o = er_to edge /\ e = er_id edge). by rewrite (ei_ordered_in _ I).
    + intros l e. rewrite current_edge_delete. open_delete edge (VMember None) (l = er_label_id edge /\ e = er_id edge).
      pose proof (ei_label _ I l e). repeat case_decide; naive_solver.
    + intros l e. open_delete edge (VMember None) (l = er_label_id edge /\ e = er_id edge).
      open_delete edge (VMember None) (l = er_label_id edge /\ e = er_id edge). by rewrite (ei_ordered_label _ I).
    + intros e. rewrite current_edge_delete. open_delete edge (VMember None) (e = er_id edge).
      rewrite Hid. destruct (decide (e = id)); [split; [done | by intros [? [=]]] | apply (ei_ordered _ I)].
    + intros f u l e. rewrite current_edge_delete.
      erewrite (delete_edge_loc edge _ (VId None)
        (edge_triple st edge = Some id /\ f = er_from edge /\ u = er_to edge /\ l = er_label_id edge))
        by first [done | eassumption |
          intros v; unfold unlink_deleted_edge_writes;
          rewrite elem_of_app, elem_of_opt_write, bool_decide_eq_true, ?elem_of_cons, elem_of_nil; naive_solver].
      unfold edge_triple. rewrite triple_cur. pose proof (ei_triple _ I f u l e) as It.
      split_decide D; [done|]. intros Ht. destruct (It Ht) as (r & Hr & Hf & Hu & Hl).
      destruct (decide (e = id)) as [E|E]; [|eauto]. exfalso. rewrite E, He in Hr. injection Hr as ->.
      apply D. by rewrite Hf, Hu, Hl, Ht, E.
  - assert (forall l, index_loc l = false -> l ≠ LEdge id -> l ≠ LEdgeTomb id -> cur st' l = cur st l) as Hsame
      by (intros; by apply delete_no_edge).
    assert (forall e, current_edge st' e = current_edge st e) as Hce
      by (intros e; rewrite current_edge_delete; case_decide; by subst).
    split; intros *; rewrite ?Hce, ?Hsame by done; try apply I.
    destruct (decide (e = id)) as [->|E]; [|destruct (Hother e E) as [-> ->]; apply (ei_deleted _ I)].
    rewrite !(cur_delete_edge _ t seq st st') by done.
    rewrite (decide_False (P := LEdgeTomb _ = LEdge _)), !decide_True by done. naive_solver.
Qed.
End DeleteEdge.
End EdgeOps.
