(* ===== verification/MemtableReads.v ===== *)
(** The reads of the memtable (src/memtable.rs) at a snapshot. *)
From S2P Require Import Prelude Types Floats PropertyValue CompoundKey Slots Memtable.

(** Rust's [BTreeMap] iterates in the order of its keys. *)
Class KeyOrder (K : Type) : Type := {
  key_le : K -> K -> Prop;
  key_le_dec :: RelDecision key_le;
  key_le_total :: Total key_le;
  key_le_trans :: Transitive key_le;
  key_le_antisymm :: AntiSymm (=) key_le
}.

#[export] Instance Z_key_order : KeyOrder Z.
Proof. refine {| key_le := Z.le |}. Defined.

(** Tuples and byte strings compare lexicographically. *)
Definition pair_le {A B} `{KeyOrder A, KeyOrder B} (x y : A * B) : Prop :=
  x.1 ≠ y.1 /\ key_le x.1 y.1 \/ x.1 = y.1 /\ key_le x.2 y.2.
#[export] Instance pair_key_order {A B} `{EqDecision A, KeyOrder A, KeyOrder B} : KeyOrder (A * B).
Proof.
  refine {| key_le := pair_le |}.
  - unfold RelDecision, pair_le. intros x y. apply _.
  - intros [a b] [c d]. unfold pair_le. cbn. destruct (decide (a = c)) as [->|Hn].
    + destruct (total key_le b d); [left | right]; right; done.
    + destruct (total key_le a c); [left | right]; left; by split.
  - intros [a b] [c d] [e f]. unfold pair_le. cbn. intros [[Hn Hle]|[-> Hle]] [[Hn' Hle']|[-> Hle']]; auto.
    + left. split; [|by etransitivity]. intros ->. apply Hn. by apply (anti_symm key_le).
    + right. split; [done|]. by etransitivity.
  - intros [a b] [c d]. unfold pair_le. cbn. intros [[Hn Hle]|[-> Hle]] [[Hn' Hle']|[E Hle']]; subst; try done.
    + exfalso. apply Hn. by apply (anti_symm key_le).
    + f_equal. by apply (anti_symm key_le).
Defined.

Lemma bytes_cmp_trans a b c r : bytes_cmp a b = r -> bytes_cmp b c = r -> bytes_cmp a c = r.
Proof.
  revert b c. induction a as [|x a IH]; intros [|y b] [|z c]; cbn; try congruence.
  destruct (Z.compare_spec (b2z x) (b2z y)) as [E1|E1|E1], (Z.compare_spec (b2z y) (b2z z)) as [E2|E2|E2];
    intros Hr Hr'; subst r; try discriminate;
    destruct (Z.compare_spec (b2z x) (b2z z)); try lia; eauto.
Qed.

Definition bytes_key_le (a b : list byte) : Prop := bytes_cmp a b ≠ Gt.
#[export] Instance bytes_key_order : KeyOrder (list byte).
Proof.
  refine {| key_le := bytes_key_le |}.
  - unfold RelDecision, bytes_key_le. intros x y. apply _.
  - intros x y. unfold bytes_key_le. rewrite (bytes_cmp_antisym x y). destruct (bytes_cmp x y); cbn; auto.
  - intros x y z. unfold bytes_key_le. intros Hxy Hyz Hxz.
    pose proof (bytes_cmp_antisym x y) as Ayx. pose proof (bytes_cmp_antisym y z) as Azy.
    destruct (bytes_cmp x y) eqn:Exy; [|destruct (bytes_cmp y z) eqn:Eyz|done].
    + apply bytes_cmp_Eq in Exy as ->. done.
    + apply bytes_cmp_Eq in Eyz as ->. congruence.
    + rewrite (bytes_cmp_trans x y z Lt) in Hxz by done. done.
    + done.
  - intros x y. unfold bytes_key_le. rewrite (bytes_cmp_antisym x y).
    destruct (bytes_cmp x y) eqn:E; cbn; [by apply bytes_cmp_Eq in E | done | done].
Defined.

(** ** Iteration and ranges *)
Section Iterate.
Context {K V : Type} `{Countable K, !KeyOrder K}.

Definition entry_le (a b : K * V) : Prop := key_le a.1 b.1.
#[export] Instance entry_le_dec : RelDecision entry_le := fun a b => decide (key_le a.1 b.1).

Definition btree_iter (m : gmap K V) : list (K * V) := merge_sort entry_le (map_to_list m).

Inductive Bound : Type := Included (k : K) | Excluded (k : K) | Unbounded.

Definition above (lower : Bound) (k : K) : bool :=
  match lower with
  | Included b => bool_decide (key_le b k)
  | Excluded b => bool_decide (key_le b k /\ b ≠ k)
  | Unbounded => true
  end.
Definition below (upper : Bound) (k : K) : bool :=
  match upper with
  | Included b => bool_decide (key_le k b)
  | Excluded b => bool_decide (key_le k b /\ k ≠ b)
  | Unbounded => true
  end.

(** [BTreeMap::range] panics on an inverted range, and on an empty open one. *)
Definition range_panics (lower upper : Bound) : bool :=
  match lower, upper with
  | Unbounded, _ | _, Unbounded => false
  | Excluded s, Excluded e => bool_decide (key_le e s)
  | Included s, (Included e | Excluded e) | Excluded s, Included e => bool_decide (key_le e s /\ e ≠ s)
  end.

Definition btree_range (lower upper : Bound) (m : gmap K V) : option (list (K * V)) :=
  if range_panics lower upper then None
  else Some (filter (fun e => above lower e.1 && below upper e.1) (btree_iter m)).
End Iterate.
Arguments Bound : clear implicits.

(** [sort_unstable] on ids. *)
Definition sort_ids (ids : list Z) : list Z := merge_sort Z.le ids.

Section Reads.
Context `{RmpValue, HashOrder}.

Definition get_node_at (st : MemtableState) (id snapshot_seq : Z) : option NodeRecord :=
  node_at st id snapshot_seq.
Definition get_edge_at (st : MemtableState) (id snapshot_seq : Z) : option EdgeRecord :=
  edge_at st id snapshot_seq.
Definition is_node_deleted_at := node_deleted_at.
Definition is_edge_deleted_at := edge_deleted_at.

(** The nodes found, and the ids left for the older sources. *)
Definition visit_nodes_sorted_at (st : MemtableState) (sorted_ids : list Z) (snapshot_seq : Z)
  : list (Z * NodeRecord) * list Z :=
  foldl (fun '(found, remaining) id =>
    if node_deleted_at st id snapshot_seq then (found, remaining)
    else match node_at st id snapshot_seq with
         | Some node => (found ++ [(id, node)], remaining)
         | None => (found, remaining ++ [id])
         end) ([], []) sorted_ids.

Definition node_tombstone_at (st : MemtableState) (id snapshot_seq : Z) : option TombstoneEntry :=
  slot ← ms_nodes st !! id; state ← record_at slot snapshot_seq;
  match state with Tombstone entry => Some entry | Live _ => None end.
Definition edge_tombstone_at (st : MemtableState) (id snapshot_seq : Z) : option TombstoneEntry :=
  slot ← ms_edges st !! id; state ← record_at slot snapshot_seq;
  match state with Tombstone entry => Some entry | Live _ => None end.

Inductive EdgeVisibilityState : Type := VisLive | VisDeleted | VisMissing.
Definition edge_visibility_state_at (st : MemtableState) (id snapshot_seq : Z) : EdgeVisibilityState :=
  match (slot ← ms_edges st !! id; record_at slot snapshot_seq) with
  | Some (Live _) => VisLive
  | Some (Tombstone _) => VisDeleted
  | None => if edge_deleted_at st id snapshot_seq then VisDeleted else VisMissing
  end.

Definition node_by_key_at (st : MemtableState) (label_id : Z) (key : str) (snapshot_seq : Z)
  : option NodeRecord :=
  by_key ← ms_node_key_index st !! label_id; slot ← by_key !! key;
  node_id ← slot_option_at slot snapshot_seq; node_at st node_id snapshot_seq.
Definition node_id_by_key_at (st : MemtableState) (label_id : Z) (key : str) (snapshot_seq : Z)
  : option Z :=
  by_key ← ms_node_key_index st !! label_id; slot ← by_key !! key;
  node_id ← slot_option_at slot snapshot_seq; node ← node_at st node_id snapshot_seq;
  if NodeLabels.contains (nr_label_ids node) label_id && bool_decide (nr_key node = key)
  then Some node_id else None.
Definition edge_by_triple_at (st : MemtableState) (from to label_id snapshot_seq : Z)
  : option EdgeRecord :=
  slot ← ms_edge_triple_index st !! (from, to, label_id);
  edge_id ← slot_option_at slot snapshot_seq; edge_at st edge_id snapshot_seq.

(** ** Scans of the membership indexes *)
Definition visible_entries {K} (snapshot_seq : Z) (entries : list (K * MembershipSlot))
  : list (K * MembershipSlot) := filter (fun e => slot_option_visible e.2 snapshot_seq) entries.

Definition visible_nodes_by_label_id (st : MemtableState) (label_id snapshot_seq : Z)
  : option (list Z) :=
  entries ← btree_range (Included (label_id, 0)) (Included (label_id, u64_max)) (ms_label_node_index st);
  Some ((fun e : Z * Z * MembershipSlot => e.1.2) <$> visible_entries snapshot_seq entries).
Definition visible_nodes_by_label_id_count (st : MemtableState) (label_id snapshot_seq : Z) : option Z :=
  entries ← btree_range (Included (label_id, 0)) (Included (label_id, u64_max)) (ms_label_node_index st);
  Some (len (visible_entries snapshot_seq entries)).

Definition next_visible_node_by_label_id_after (st : MemtableState) (label_id snapshot_seq : Z)
    (after : option Z) : option (option Z) :=
  let start := match after with
               | Some after => Excluded (label_id, after)
               | None => Included (label_id, 0)
               end in
  entries ← btree_range start (Included (label_id, u64_max)) (ms_label_node_index st);
  Some ((fun e : Z * Z * MembershipSlot => e.1.2) <$> head (visible_entries snapshot_seq entries)).

Definition visible_nodes_by_time_range (st : MemtableState) (label_id from_ms to_ms snapshot_seq : Z)
  : option (list Z) :=
  if to_ms <? from_ms then Some []
  else
    entries ← btree_range (Included (label_id, from_ms, 0)) (Included (label_id, to_ms, u64_max))
                (ms_time_node_index st);
    Some (sort_ids ((fun e : Z * Z * Z * MembershipSlot => e.1.2) <$>
      filter (fun e : Z * Z * Z * MembershipSlot => e.1.1.1 = label_id)
        (visible_entries snapshot_seq entries))).

Definition visible_edges_by_label_id (st : MemtableState) (label_id snapshot_seq : Z) : list Z :=
  match ms_label_edge_index st !! label_id with
  | Some members => sort_ids (fst <$> visible_entries snapshot_seq (hash_iter members))
  | None => []
  end.

Definition collect_deleted_nodes_at (st : MemtableState) (snapshot_seq : Z) : gset Z :=
  list_to_set (fst <$> visible_entries snapshot_seq (hash_iter (ms_node_tombstones st))).

Definition is_triple_entry (to label_id snapshot_seq : Z) (slot : AdjSlot) : bool :=
  match slot_option_at slot snapshot_seq with
  | Some entry => (ae_neighbor_id entry =? to) && (ae_label_id entry =? label_id)
  | None => false
  end.
Definition edge_ids_by_triple_at (st : MemtableState) (from to label_id snapshot_seq : Z) : list Z :=
  match ms_adj_out st !! from with
  | Some entries =>
      sort_ids (fst <$> filter (fun e : Z * AdjSlot => is_triple_entry to label_id snapshot_seq e.2)
                          (hash_iter entries))
  | None => []
  end.

(** ** Neighbours *)
Inductive Direction : Type := Outgoing | Incoming | Both.
Record NeighborRecord : Type := mkNeighbor {
  nb_node_id : Z;
  nb_edge_id : Z;
  nb_edge_label_id : Z;
  nb_weight : Z;
  nb_valid_from : Z;
  nb_valid_to : Z
}.
Definition neighbor_of (entry : AdjEntry) : NeighborRecord :=
  mkNeighbor (ae_neighbor_id entry) (ae_edge_id entry) (ae_label_id entry) (ae_weight entry)
    (ae_valid_from entry) (ae_valid_to entry).

(** The [collect] closure over the slots of one adjacency list: it appends to
    the results and records the self loops seen.  [skip_deleted] is set by
    [neighbors_at] and not by [incident_edges_at]; a limit of 0 is no limit. *)
Fixpoint collect_adj (st : MemtableState) (node_id : Z) (label_filter_ids : option (list Z)) (limit : Z)
    (skip_deleted dedupe_self_loops : bool) (snapshot_seq : Z) (slots : list AdjSlot)
    (results : list NeighborRecord) (self_loop_edge_ids : gset Z) : list NeighborRecord * gset Z :=
  match slots with
  | [] => (results, self_loop_edge_ids)
  | slot :: slots =>
      let continue results loops :=
        collect_adj st node_id label_filter_ids limit skip_deleted dedupe_self_loops snapshot_seq slots
          results loops in
      if (0 <? limit) && (limit <=? len results) then (results, self_loop_edge_ids)
      else match slot_option_at slot snapshot_seq with
      | None => continue results self_loop_edge_ids
      | Some entry =>
          if match label_filter_ids with
             | Some label_ids => bool_decide (ae_label_id entry ∉ label_ids)
             | None => false
             end
          then continue results self_loop_edge_ids
          else if skip_deleted && node_deleted_at st (ae_neighbor_id entry) snapshot_seq
          then continue results self_loop_edge_ids
          else if ae_neighbor_id entry =? node_id then
            if dedupe_self_loops && bool_decide (ae_edge_id entry ∈ self_loop_edge_ids)
            then continue results self_loop_edge_ids
            else continue (results ++ [neighbor_of entry]) ({[ae_edge_id entry]} ∪ self_loop_edge_ids)
          else continue (results ++ [neighbor_of entry]) self_loop_edge_ids
      end
  end.

Definition adj_slots (adj : gmap Z (gmap Z AdjSlot)) (node_id : Z) : list AdjSlot :=
  match adj !! node_id with Some entries => snd <$> hash_iter entries | None => [] end.

Definition adjacent (skip_deleted : bool) (st : MemtableState) (node_id : Z) (direction : Direction)
    (label_filter_ids : option (list Z)) (limit snapshot_seq : Z) : list NeighborRecord :=
  if node_deleted_at st node_id snapshot_seq then []
  else
    let collect dedupe slots results loops :=
      collect_adj st node_id label_filter_ids limit skip_deleted dedupe snapshot_seq slots results loops in
    match direction with
    | Outgoing => (collect false (adj_slots (ms_adj_out st) node_id) [] ∅).1
    | Incoming => (collect false (adj_slots (ms_adj_in st) node_id) [] ∅).1
    | Both =>
        let '(results, loops) := collect false (adj_slots (ms_adj_out st) node_id) [] ∅ in
        (collect true (adj_slots (ms_adj_in st) node_id) results loops).1
    end.
Definition neighbors_at := adjacent true.
Definition incident_edges_at (st : MemtableState) (node_id : Z) (direction : Direction)
    (label_filter_ids : option (list Z)) (snapshot_seq : Z) : list NeighborRecord :=
  adjacent false st node_id direction label_filter_ids 0 snapshot_seq.
Definition neighbors (st : MemtableState) (node_id : Z) (direction : Direction)
    (label_filter_ids : option (list Z)) (limit : Z) : list NeighborRecord :=
  neighbors_at st node_id direction label_filter_ids limit u64_max.

(** ** Secondary index lookups *)
Definition take_limit {A} (max : option Z) (l : list A) : list A :=
  match max with Some n => take (Z.to_nat (Z.max 1 n)) l | None => l end.

Definition find_secondary_eq_nodes_at_limited (st : MemtableState) (index_id : Z) (prop_key : str)
    (prop_value : PropValue) (snapshot_seq : Z) (max_ids : option Z) : list Z :=
  match (groups ← ms_secondary_eq_state st !! index_id; groups !! hash_prop_equality_key prop_value) with
  | None => []
  | Some group =>
      let matches node_id :=
        match node_at st node_id snapshot_seq with
        | Some node =>
            match btree_get prop_key (nr_props node) with
            | Some value => semantic_property_eq value prop_value
            | None => false
            end
        | None => false
        end in
      sort_ids (take_limit max_ids
        (filter (fun id => matches id) (fst <$> visible_entries snapshot_seq (hash_iter group))))
  end.
Definition find_secondary_eq_nodes_at (st : MemtableState) (index_id : Z) (prop_key : str)
    (prop_value : PropValue) (snapshot_seq : Z) : list Z :=
  find_secondary_eq_nodes_at_limited st index_id prop_key prop_value snapshot_seq None.

Definition find_secondary_eq_by_hash_at_limited (st : MemtableState) (index_id value_hash snapshot_seq : Z)
    (max_ids : option Z) : list Z :=
  match (groups ← ms_secondary_eq_state st !! index_id; groups !! value_hash) with
  | None => []
  | Some group => sort_ids (take_limit max_ids (fst <$> visible_entries snapshot_seq (hash_iter group)))
  end.

(** Range pages: keys are ordered by encoded value and then record id. *)
Definition range_bound := Bound (list byte * Z).
Definition secondary_range_start_bound (lower : option (list byte * bool)) (after : option (list byte * Z))
  : range_bound :=
  let start : option ((list byte * Z) * bool) :=
    match lower with
    | Some (value, true) => Some ((value, 0), false)
    | Some (value, false) => Some ((value, u64_max), true)
    | None => None
    end in
  let start :=
    match after with
    | None => start
    | Some cursor =>
        match start with
        | Some (existing, strict) =>
            if decide (existing = cursor) then Some (existing, true)
            else if decide (key_le cursor existing) then Some (existing, strict) else Some (cursor, true)
        | None => Some (cursor, true)
        end
    end in
  match start with
  | Some (target, true) => Excluded target
  | Some (target, false) => Included target
  | None => Unbounded
  end.
Definition secondary_range_past_upper (encoded : list byte) (upper : option (list byte * bool)) : bool :=
  match upper with
  | Some (upper_value, inclusive) =>
      negb (bool_decide (key_le encoded upper_value)) || (negb inclusive && bool_decide (encoded = upper_value))
  | None => false
  end.

Fixpoint take_while {A} (p : A -> bool) (l : list A) : list A :=
  match l with [] => [] | x :: l => if p x then x :: take_while p l else [] end.

Definition visible_secondary_range_entries_limited (st : MemtableState) (index_id : Z)
    (lower upper : option (list byte * bool)) (after : option (list byte * Z)) (snapshot_seq : Z)
    (limit : option Z) : option (list (list byte * Z)) :=
  if decide (limit = Some 0) then Some []
  else match ms_secondary_range_state st !! index_id with
  | None => Some []
  | Some entries =>
      entries ← btree_range (secondary_range_start_bound lower after) Unbounded entries;
      Some (take_limit limit (fst <$> visible_entries snapshot_seq
        (take_while (fun e => negb (secondary_range_past_upper e.1.1 upper)) entries)))
  end.

(** Compound scans. *)
Definition compound_start_bound (lower : option CompoundLowerBound) : range_bound :=
  match lower with Some lower => Included (lb_key lower, 0) | None => Unbounded end.
Definition skips (skip_exact_lower_component_prefix : option (list byte)) (tuple_key : list byte) : bool :=
  match skip_exact_lower_component_prefix with
  | Some prefix => starts_with prefix tuple_key
  | None => false
  end.
Definition collect_visible_compound_ids (entries : gmap (list byte * Z) MembershipSlot) (lower : range_bound)
    (upper_exclusive : list byte) (skip_exact_lower_component_prefix : option (list byte)) (snapshot_seq : Z)
  : option (list Z) :=
  entries ← btree_range lower (Excluded (upper_exclusive, 0)) entries;
  Some ((fun e : list byte * Z * MembershipSlot => e.1.2) <$> visible_entries snapshot_seq
    (filter (fun e : list byte * Z * MembershipSlot =>
       negb (skips skip_exact_lower_component_prefix e.1.1)) entries)).

Definition find_compound_prefix_at (st : MemtableState) (index_id : Z) (bounds : CompoundPrefixBounds)
    (snapshot_seq : Z) : option (list Z) :=
  match ms_secondary_compound_state st !! index_id with
  | None => Some []
  | Some entries =>
      collect_visible_compound_ids entries (Included (pb_lower bounds, 0)) (pb_upper_exclusive bounds) None
        snapshot_seq
  end.
Definition find_compound_range_at (st : MemtableState) (index_id : Z) (bounds : CompoundRangeBounds)
    (snapshot_seq : Z) : option (list Z) :=
  match ms_secondary_compound_state st !! index_id with
  | None => Some []
  | Some entries =>
      let skip_prefix :=
        match rg_lower bounds with
        | Some lower => if lb_exclusive_component_prefix lower then Some (lb_key lower) else None
        | None => None
        end in
      collect_visible_compound_ids entries (compound_start_bound (rg_lower bounds)) (rg_upper_exclusive bounds)
        skip_prefix snapshot_seq
  end.
End Reads.
