(* ===== verification/MemtableSnapshots.v ===== *)
(** What a reader of the memtable sees: at every snapshot, the state of the
    operations up to it, with every index exact for the records of that state. *)
From S2P Require Import Prelude Types Encoding PropertyValue PropertyValueFacts CompoundKey Slots Memtable MemtableCells MemtableSteps MemtableFacts MemtableEdges MemtableReads.

(** ** The invariants of a view: the current state, or a snapshot *)
Abbreviation view := (Loc -> option Val).
Definition view_eq : view -> view -> Prop := pointwise_relation Loc (=).
#[export] Instance view_eq_equiv : Equivalence view_eq.
Proof. unfold view_eq. apply _. Qed.

Record node_view_inv (v : view) : Prop := {
  nv_record n r : live_node (v (LNode n)) = Some r -> nr_id r = n /\ node_ok r;
  nv_deleted n : v (LNodeTomb n) = present <-> exists t, v (LNode n) = Some (VNode (Tombstone t));
  nv_label l n : v (LLabelNode l n) = present
                 <-> exists r, live_node (v (LNode n)) = Some r /\ l ∈ labels_of r;
  nv_time l t n : v (LTime l t n) = present
                  <-> exists r, live_node (v (LNode n)) = Some r /\ l ∈ labels_of r /\ nr_updated_at r = t;
  nv_key l k n : v (LKey l k) = Some (VId (Some n)) ->
                 exists r, live_node (v (LNode n)) = Some r /\ l ∈ labels_of r /\ nr_key r = k
}.

Record edge_view_inv (v : view) : Prop := {
  ev_record e r : live_edge (v (LEdge e)) = Some r -> er_id r = e /\ edge_ok r;
  ev_deleted e : v (LEdgeTomb e) = present <-> exists t, v (LEdge e) = Some (VEdge (Tombstone t));
  ev_out o e a : v (LAdjOut o e) = Some (VAdj (Some a))
                 <-> exists r, live_edge (v (LEdge e)) = Some r /\ er_from r = o /\ a = adj_out_entry r;
  ev_ordered_out o e : v (LOrderedAdjOut o e) = v (LAdjOut o e);
  ev_in o e a : v (LAdjIn o e) = Some (VAdj (Some a))
                <-> exists r, live_edge (v (LEdge e)) = Some r /\ er_to r = o /\ a = adj_in_entry r;
  ev_ordered_in o e : v (LOrderedAdjIn o e) = v (LAdjIn o e);
  ev_label l e : v (LLabelEdge l e) = present
                 <-> exists r, live_edge (v (LEdge e)) = Some r /\ er_label_id r = l;
  ev_ordered_label l e : v (LOrderedLabelEdge l e) = v (LLabelEdge l e);
  ev_ordered e : v (LOrderedEdge e) = present <-> is_Some (live_edge (v (LEdge e)));
  ev_triple f t l e : v (LTriple f t l) = Some (VId (Some e)) ->
                      exists r, live_edge (v (LEdge e)) = Some r /\ er_from r = f /\ er_to r = t /\ er_label_id r = l
}.

#[export] Instance node_view_inv_proper : Proper (view_eq ==> impl) node_view_inv.
Proof. intros v w E I. split; intros *; rewrite <- ?E; apply I. Qed.
#[export] Instance edge_view_inv_proper : Proper (view_eq ==> impl) edge_view_inv.
Proof. intros v w E I. split; intros *; rewrite <- ?E; apply I. Qed.

Lemma node_inv_view st : node_inv st <-> node_view_inv (cur st).
Proof.
  assert (forall n, current_node st n = live_node (cur st (LNode n))) as E by apply current_node_cur.
  split; intros I; split; intros *;
    first [apply I | rewrite <- E; apply I | rewrite E; apply I
          | setoid_rewrite <- E; apply I | setoid_rewrite E; apply I].
Qed.
Lemma edge_inv_view st : edge_inv st <-> edge_view_inv (cur st).
Proof.
  assert (forall e, current_edge st e = live_edge (cur st (LEdge e))) as E by apply current_edge_cur.
  split; intros I; split; intros *;
    first [apply I | rewrite <- E; apply I | rewrite E; apply I
          | setoid_rewrite <- E; apply I | setoid_rewrite E; apply I].
Qed.

(** ** Preservation *)
Definition mem_inv (st : MemtableState) : Prop := written_by st u64_max /\ node_inv st /\ edge_inv st.

Definition node_loc (l : Loc) : bool := negb (edge_loc l) && negb (index_loc l).

Lemma node_inv_ext st st' :
  (forall l, node_loc l = true -> cur st' l = cur st l) -> node_inv st -> node_inv st'.
Proof.
  rewrite !node_inv_view. intros E I.
  split; intros *; rewrite !E by done; apply I.
Qed.
Lemma edge_inv_ext st st' :
  (forall l, edge_loc l = true -> cur st' l = cur st l) -> edge_inv st -> edge_inv st'.
Proof.
  rewrite !edge_inv_view. intros E I.
  split; intros *; rewrite !E by done; apply I.
Qed.

(** No cell is written yet: a memtable on which only indexes were declared. *)
Definition fresh (st : MemtableState) : Prop := forall l, cell st l = None.

Lemma fresh_mem_inv st : fresh st -> mem_inv st.
Proof.
  intros Hf. assert (forall l, cur st l = None) as Hc by (intros l; unfold cur; by rewrite Hf).
  split_and!.
  - intros l slot. by rewrite Hf.
  - apply node_inv_view. split; intros *; rewrite !Hc; naive_solver.
  - apply edge_inv_view. split; intros *; rewrite !Hc; naive_solver.
Qed.

Section Preservation.
Context `{RmpValue, HashOrder}.

Lemma upsert_node_edge_cells node seq st st' l :
  apply_upsert_node node seq st = Some st' -> edge_loc l = true -> cur st' l = cur st l.
Proof.
  intros Ha Hl. rewrite (cur_upsert_node _ _ _ _ _ Ha) by by destruct l.
  rewrite !decide_False by first [by intros -> | by intros [-> _]].
  destruct (label_writes_other node node (labels_of node) l) as [-> _]; [by destruct l|].
  destruct (current_node st (nr_id node)) as [old|]; [|done].
  by destruct (label_writes_other old node (labels_of old) l) as (_ & -> & _); [destruct l|].
Qed.
Lemma upsert_node_edges node seq st st' :
  apply_upsert_node node seq st = Some st' -> edge_inv st -> edge_inv st'.
Proof. intros Ha. apply edge_inv_ext. intros l. by apply upsert_node_edge_cells with node seq. Qed.

Lemma delete_node_edge_cells id t seq st st' l :
  apply_delete_node id t seq st = Some st' -> edge_loc l = true -> cur st' l = cur st l.
Proof.
  intros Ha Hl. rewrite (cur_delete_node _ _ _ _ _ _ Ha) by by destruct l.
  rewrite !decide_False by by intros ->.
  destruct (current_node st id) as [old|]; [|done].
  by destruct (label_writes_other old old (labels_of old) l) as (_ & _ & ->); [destruct l|].
Qed.
Lemma delete_node_edges id t seq st st' :
  apply_delete_node id t seq st = Some st' -> edge_inv st -> edge_inv st'.
Proof. intros Ha. apply edge_inv_ext. intros l. by apply delete_node_edge_cells with id t seq. Qed.

Lemma upsert_edge_node_cells edge seq st st' l :
  apply_upsert_edge edge seq st = Some st' -> node_loc l = true -> cur st' l = cur st l.
Proof.
  intros Ha Hl. destruct (cur_upsert_edge _ _ _ _ Ha) as [upd Hc].
  assert (edge_loc l = false /\ index_loc l = false) as [Hel Hil] by by destruct l.
  rewrite Hc by done. rewrite !decide_False by first [by intros -> | by intros [-> _]].
  destruct (edge_writes_other None upd edge edge 0 l Hel) as [-> _].
  destruct (current_edge st (er_id edge)) as [old|]; [|done].
  by destruct (edge_writes_other (edge_triple st old) upd old edge 0 l Hel) as (_ & -> & _).
Qed.

Lemma delete_edge_node_cells id t seq st st' l :
  apply_delete_edge id t seq st = Some st' -> node_loc l = true -> cur st' l = cur st l.
Proof.
  intros Ha Hl. assert (edge_loc l = false /\ index_loc l = false) as [Hel Hil] by by destruct l.
  rewrite (cur_delete_edge _ _ _ _ _ _ Ha) by done. rewrite !decide_False by by intros ->.
  destruct (current_edge st id) as [old|]; [|done].
  by destruct (edge_writes_other (edge_triple st old) true old old id l Hel) as (_ & _ & ->).
Qed.

Lemma upsert_edge_nodes edge seq st st' :
  apply_upsert_edge edge seq st = Some st' -> node_inv st -> node_inv st'.
Proof. intros Ha. apply node_inv_ext. intros l. by apply upsert_edge_node_cells with edge seq. Qed.
Lemma delete_edge_nodes id t seq st st' :
  apply_delete_edge id t seq st = Some st' -> node_inv st -> node_inv st'.
Proof. intros Ha. apply node_inv_ext. intros l. by apply delete_edge_node_cells with id t seq. Qed.

(** [apply_op] is unfolded before the operations it dispatches to. *)
Strategy 100 [apply_upsert_node apply_upsert_edge apply_delete_node apply_delete_edge].

Lemma mem_inv_op op seq st st' :
  op_ok op -> seq <= u64_max -> mem_inv st -> apply_op op seq st = Some st' -> mem_inv st'.
Proof.
  intros Hok Hseq (Hb & IN & IE) Ha. split.
  { destruct (step_apply_op op seq st st' Ha) as [ws S]. by apply (written_by_step seq ws st). }
  destruct op as [node|edge|id t|id t| | | |]; cbn [apply_op op_ok] in *;
    try (apply (inj Some) in Ha; by subst).
  - split; [by apply (node_inv_upsert node seq st) | by apply (upsert_node_edges node seq st)].
  - split; [by apply (upsert_edge_nodes edge seq st) | by apply (edge_inv_upsert edge seq st)].
  - split; [by apply (node_inv_delete id t seq st) | by apply (delete_node_edges id t seq st)].
  - split; [by apply (delete_edge_nodes id t seq st) | by apply (edge_inv_delete id t seq st)].
Qed.

Lemma mem_inv_ops ops st st' :
  Forall (fun o => op_ok o.2 /\ o.1 <= u64_max) ops -> mem_inv st -> apply_ops ops st = Some st' -> mem_inv st'.
Proof.
  revert st. induction ops as [|[seq op] ops IH]; intros st Hok I E; [by injection E as <-|].
  apply Forall_cons in Hok as [[Hop Hseq] Hok]. cbn in E.
  destruct (apply_op op seq st) as [st1|] eqn:E1; [|done]. eapply IH; [done | | done]. by eapply mem_inv_op.
Qed.
End Preservation.

(** ** Snapshots of a run *)
(** Operations in the order of their sequence numbers, well formed. *)
Definition sequenced (ops : list (Z * WalOp)) : Prop :=
  StronglySorted Z.le (fst <$> ops) /\ Forall (fun o => op_ok o.2 /\ o.1 <= u64_max) ops.
Definition up_to (s : Z) (ops : list (Z * WalOp)) : list (Z * WalOp) := filter (fun o => o.1 <= s) ops.

Lemma up_to_split ops s :
  StronglySorted Z.le (fst <$> ops) ->
  exists post, ops = up_to s ops ++ post /\ Forall (fun o => s < o.1) post.
Proof.
  unfold up_to. induction ops as [|[seq op] ops IH]; intros Hs; [by exists []|].
  apply StronglySorted_inv in Hs as [Hs Hle]. destruct (decide (seq <= s)) as [Hq|Hq].
  - destruct (IH Hs) as (post & E & Hp). exists post. rewrite filter_cons_True by done.
    split; [|done]. cbn. by f_equal.
  - exists ((seq, op) :: ops). rewrite filter_cons_False by done.
    assert (Forall (fun o => s < o.1) ops) as Hall.
    { apply Forall_forall. intros o Ho. rewrite Forall_forall in Hle.
      specialize (Hle o.1 (list_elem_of_fmap_2 fst _ _ Ho)). cbn in Hle. lia. }
    split; [|constructor; [cbn; lia | done]].
    replace (filter (fun o => o.1 <= s) ops) with (@nil (Z * WalOp)); [done|].
    clear -Hall. induction ops as [|o ops IH]; [done|]. apply Forall_cons in Hall as [Ho Hall].
    rewrite filter_cons_False by lia. auto.
Qed.

Section Runs.
Context `{RmpValue, HashOrder}.
Context (ops : list (Z * WalOp)) (st0 st : MemtableState).
Hypothesis Hfresh : fresh st0.
Hypothesis Hseq : sequenced ops.
Hypothesis Hrun : apply_ops ops st0 = Some st.

Lemma snapshot_state s :
  exists st_s, apply_ops (up_to s ops) st0 = Some st_s /\ mem_inv st_s /\ view_eq (cur st_s) (seen st s).
Proof.
  destruct Hseq as [Hsort Hok]. destruct (up_to_split ops s Hsort) as (post & E & Hpost).
  pose proof Hrun as Hr. rewrite E, apply_ops_app in Hr.
  destruct (apply_ops (up_to s ops) st0) as [st_s|] eqn:Es; [|done]. exists st_s. split; [done|].
  assert (Forall (fun o => op_ok o.2 /\ o.1 <= u64_max) (up_to s ops)) as Hok'.
  { rewrite Forall_forall in *. intros o [_ Ho]%list_elem_of_filter. auto. }
  split; [by eapply mem_inv_ops; [done | apply fresh_mem_inv | done]|].
  intros l. rewrite (seen_apply_ops post st_s) by done. symmetry. apply seen_cur.
  eapply (written_by_apply_ops (up_to s ops) st0); [| | done].
  - apply Forall_forall. by intros o [Ho _]%list_elem_of_filter.
  - intros l' slot. by rewrite Hfresh.
Qed.

Lemma snapshot_node_inv s : node_view_inv (seen st s).
Proof. destruct (snapshot_state s) as (st_s & _ & (_ & I & _) & <-). by apply node_inv_view. Qed.
Lemma snapshot_edge_inv s : edge_view_inv (seen st s).
Proof. destruct (snapshot_state s) as (st_s & _ & (_ & _ & I) & <-). by apply edge_inv_view. Qed.

(** C3.  Snapshot isolation: after any run of operations in sequence order, a
    read at snapshot [s] sees exactly the memtable that the operations numbered
    up to [s] alone produce -- records, tombstones and every slot of every
    index -- whatever was written since. *)
Theorem snapshot_isolation s :
  exists st_s,
    apply_ops (up_to s ops) st0 = Some st_s
    /\ (forall id, node_at st id s = current_node st_s id /\ edge_at st id s = current_edge st_s id
          /\ node_deleted_at st id s = node_deleted_at st_s id u64_max
          /\ edge_deleted_at st id s = edge_deleted_at st_s id u64_max)
    /\ (forall l, seen st s l = cur st_s l).
Proof.
  destruct (snapshot_state s) as (st_s & E & (Hb & _) & Hv). exists st_s. split; [done|].
  split; [|by intros l; rewrite Hv].
  intros id. rewrite node_at_seen, edge_at_seen, !node_deleted_seen, !edge_deleted_seen, current_node_cur,
    current_edge_cur, !(seen_cur st_s) by done. by rewrite !Hv.
Qed.

(** C4.  Index coherence: after any run, at every snapshot, every index of the
    memtable agrees with the records live at that snapshot: the label and time
    indexes of nodes, both forms of the adjacency lists, the edge label indexes
    and the ordered edge ids hold exactly what the live records imply, tombstone
    markers hold exactly for the deleted, and the key and triple indexes only
    name live records with that key or triple. *)
Theorem memtable_indexes_coherent s : node_view_inv (seen st s) /\ edge_view_inv (seen st s).
Proof. split; [apply snapshot_node_inv | apply snapshot_edge_inv]. Qed.
End Runs.
