(* ===== verification/MemtableReadFacts.v ===== *)
(** The scans and lookups of the memtable return exactly the live records they
    are asked for. *)
From S2P Require Import Prelude Types Encoding PropertyValue CompoundKey Slots Memtable MemtableCells MemtableSteps MemtableFacts MemtableEdges MemtableReads MemtableSnapshots.

(** ** Ordered iteration *)
Section Iteration.
Context {K V : Type} `{Countable K, !KeyOrder K}.

Definition key_lt (a b : K) : Prop := key_le a b /\ a ≠ b.

#[local] Instance entry_le_trans : Transitive (@entry_le K V _).
Proof. intros a b c. unfold entry_le. apply transitivity. Qed.
#[local] Instance entry_le_total : Total (@entry_le K V _).
Proof. intros a b. unfold entry_le. apply (total key_le). Qed.

Lemma btree_iter_perm (m : gmap K V) : btree_iter m ≡ₚ map_to_list m.
Proof. apply merge_sort_Permutation. Qed.

Lemma btree_iter_elem (m : gmap K V) k v : (k, v) ∈ btree_iter m <-> m !! k = Some v.
Proof. rewrite btree_iter_perm. apply elem_of_map_to_list. Qed.

Lemma sorted_keys_strict (l : list (K * V)) :
  StronglySorted entry_le l -> NoDup (fst <$> l) -> StronglySorted key_lt (fst <$> l).
Proof.
  induction l as [|e l IH]; [constructor|]. intros [Hs Hle]%StronglySorted_inv [Hn Hd]%NoDup_cons.
  constructor; [by apply IH|]. apply Forall_fmap, Forall_forall. intros f Hf.
  rewrite Forall_forall in Hle. split; [by apply Hle|]. intros E. apply Hn.
  rewrite E. by apply list_elem_of_fmap_2.
Qed.

(** Filtering a sorted list, and reading another component of its entries. *)
Lemma sorted_view {A B C} (R : B -> B -> Prop) (R' : C -> C -> Prop) (f : A -> B) (g : A -> C)
    (P : A -> Prop) `{forall x, Decision (P x)} l :
  (forall x y, x ∈ l -> y ∈ l -> R (f x) (f y) -> R' (g x) (g y)) ->
  StronglySorted R (f <$> l) -> StronglySorted R' (g <$> filter P l).
Proof.
  induction l as [|x l IH]; [constructor|]. intros Hf [Hs Hle]%StronglySorted_inv.
  assert (StronglySorted R' (g <$> filter P l)) as Hrec.
  { apply IH; [|done]. intros y z Hy Hz. apply Hf; by right. }
  destruct (decide (P x)); [rewrite filter_cons_True by done | by rewrite filter_cons_False by done].
  constructor; [done|]. apply (Forall_fmap f) in Hle. apply Forall_fmap, Forall_forall.
  rewrite Forall_forall in Hle. intros y [_ Hy]%list_elem_of_filter.
  apply Hf; [apply list_elem_of_here | by apply list_elem_of_further | by apply (Hle y)].
Qed.

Lemma btree_iter_sorted (m : gmap K V) : StronglySorted key_lt (fst <$> btree_iter m).
Proof.
  apply sorted_keys_strict.
  - apply StronglySorted_merge_sort; apply _.
  - rewrite btree_iter_perm. apply NoDup_fst_map_to_list.
Qed.

Lemma btree_range_spec lower upper (m : gmap K V) es :
  btree_range lower upper m = Some es ->
  StronglySorted key_lt (fst <$> es)
  /\ forall k v, (k, v) ∈ es <-> m !! k = Some v /\ above lower k = true /\ below upper k = true.
Proof.
  unfold btree_range. case_match; [done|]. intros E. apply (inj Some) in E as <-. split.
  - eapply (sorted_view key_lt key_lt fst fst), btree_iter_sorted. done.
  - intros k v. rewrite list_elem_of_filter, btree_iter_elem. cbn.
    rewrite Is_true_true, andb_true_iff. tauto.
Qed.

Lemma strict_entries_nodup (es : list (K * V)) : StronglySorted key_lt (fst <$> es) -> NoDup es.
Proof.
  induction es as [|e es IH]; [constructor|]. intros [Hs Hle]%StronglySorted_inv. constructor; [|by apply IH].
  intros He. apply (Forall_fmap fst) in Hle. rewrite Forall_forall in Hle. by destruct (Hle e He).
Qed.
End Iteration.

(** ** Ids of a scan *)
Lemma sort_ids_elem x l : x ∈ sort_ids l <-> x ∈ l.
Proof. unfold sort_ids. by rewrite merge_sort_Permutation. Qed.
Lemma sort_ids_sorted l : StronglySorted Z.le (sort_ids l).
Proof. apply StronglySorted_merge_sort; apply _. Qed.

Lemma visible_entries_elem {K} s (es : list (K * MembershipSlot)) e :
  e ∈ visible_entries s es <-> slot_option_visible e.2 s = true /\ e ∈ es.
Proof. unfold visible_entries. by rewrite list_elem_of_filter, Is_true_true. Qed.

Lemma is_member_present v : is_member v = true <-> v = present.
Proof. unfold is_member. destruct v as [[| | | |[[]|]]|]; naive_solver. Qed.

Lemma seen_present (o : option MembershipSlot) s :
  slot_at (slot_map VMember <$> o) s = present
  <-> exists slot, o = Some slot /\ slot_option_visible slot s = true.
Proof. rewrite <- is_member_present, <- visible_seen. destruct o; naive_solver. Qed.

Section Reads.
Context `{RmpValue, HashOrder}.
Context (ops : list (Z * WalOp)) (st0 st : MemtableState).
Hypothesis Hfresh : fresh st0.
Hypothesis Hseq : sequenced ops.
Hypothesis Hrun : apply_ops ops st0 = Some st.

Lemma label_entry l n s :
  (exists slot, ms_label_node_index st !! (l, n) = Some slot /\ slot_option_visible slot s = true)
  <-> exists r, node_at st n s = Some r /\ l ∈ labels_of r.
Proof.
  rewrite <- seen_present. setoid_rewrite node_at_seen.
  apply (nv_label _ (snapshot_node_inv ops st0 st Hfresh Hseq Hrun s)).
Qed.

Lemma node_at_ok n s r : node_at st n s = Some r -> nr_id r = n /\ u64 n /\ node_ok r.
Proof.
  rewrite node_at_seen. intros Hr.
  destruct (nv_record _ (snapshot_node_inv ops st0 st Hfresh Hseq Hrun s) _ _ Hr) as [<- Hok].
  split_and!; [done | apply Hok | done].
Qed.

Lemma label_range_bounds (l m k n : Z) :
  above (Included (l, 0)) (k, n) = true /\ below (Included (l, m)) (k, n) = true <-> k = l /\ 0 <= n <= m.
Proof.
  cbn. rewrite !bool_decide_eq_true. unfold pair_le. cbn. split; [|intros [-> ?]; split; right; split; done || lia].
  intros [[[? ?]|[? ?]] [[? ?]|[? ?]]]; split; try done; try lia; exfalso; lia.
Qed.

(** The label scan is exact: at any snapshot, the ids returned for a label
    are in ascending order and are exactly the nodes live at the snapshot that
    carry the label; the scan never panics. *)
Theorem label_scan_exact l s :
  exists ids, visible_nodes_by_label_id st l s = Some ids
    /\ StronglySorted Z.lt ids
    /\ forall n, n ∈ ids <-> exists r, node_at st n s = Some r /\ l ∈ labels_of r.
Proof.
  unfold visible_nodes_by_label_id.
  destruct (btree_range (Included (l, 0)) (Included (l, u64_max)) (ms_label_node_index st)) as [es|] eqn:E.
  2: { exfalso. revert E. unfold btree_range. case_match eqn:Hp; [|done]. cbn in Hp.
       apply bool_decide_eq_true in Hp as [[[Hn _]|[_ Hle]] _]; [done|]. cbn in Hle. unfold u64_max in Hle. lia. }
  apply btree_range_spec in E as [Hs He]. cbn [mbind option_bind]. eexists. split; [done|].
  assert (forall k n slot, ((k, n), slot) ∈ es -> k = l) as Hl.
  { intros k n slot [_ Hb]%He. by apply label_range_bounds in Hb as [-> _]. }
  split.
  - eapply (sorted_view key_lt Z.lt fst); [|done].
    intros [[k n] slot] [[k' n'] slot'] ->%Hl ->%Hl [Hle Hne]. cbn in *.
    destruct Hle as [[Hn _]|[_ Hle]]; [done|]. cbn in Hle. assert (n ≠ n') by congruence. lia.
  - intros n. rewrite <- label_entry. rewrite list_elem_of_fmap. split.
    + intros ([[k m] slot] & -> & [Hv Hin]%visible_entries_elem). pose proof Hin as ->%Hl.
      apply He in Hin as [Hin _]. by exists slot.
    + intros (slot & Hslot & Hv). exists ((l, n), slot). split; [done|]. apply visible_entries_elem.
      split; [done|]. apply He. split; [done|]. apply label_range_bounds. split; [done|].
      destruct (proj1 (label_entry l n s)) as (r & (_ & Hn & _)%node_at_ok & _); [by exists slot|].
      unfold u64, u64_max in *. lia.
Qed.
Lemma time_entry l t n s :
  (exists slot, ms_time_node_index st !! (l, t, n) = Some slot /\ slot_option_visible slot s = true)
  <-> exists r, node_at st n s = Some r /\ l ∈ labels_of r /\ nr_updated_at r = t.
Proof.
  rewrite <- seen_present. setoid_rewrite node_at_seen.
  apply (nv_time _ (snapshot_node_inv ops st0 st Hfresh Hseq Hrun s)).
Qed.

Lemma time_range_bounds (l from to m k t n : Z) :
  (above (Included (l, from, 0)) (k, t, n) = true /\ below (Included (l, to, m)) (k, t, n) = true ->
   k = l /\ from <= t <= to)
  /\ (k = l /\ from <= t <= to /\ 0 <= n <= m ->
      above (Included (l, from, 0)) (k, t, n) = true /\ below (Included (l, to, m)) (k, t, n) = true).
Proof.
  cbn. rewrite !bool_decide_eq_true. unfold pair_le. cbn. unfold pair_le. cbn. split.
  - intros [Hlo Hhi].
    assert (l <= k /\ (l = k -> from <= t)) as [].
    { destruct Hlo as [[_ [[? ?]|[? ?]]]|[[= -> ->] _]]; split; intros; subst; lia. }
    assert (k <= l /\ (k = l -> t <= to)) as [].
    { destruct Hhi as [[_ [[? ?]|[? ?]]]|[[= -> ->] _]]; split; intros; subst; lia. }
    assert (k = l) by lia. subst. lia.
  - intros (-> & ? & ?). split.
    + destruct (decide (from = t)) as [->|]; [right; split; [done | lia]|].
      left. split; [congruence|]. right. split; [done | lia].
    + destruct (decide (t = to)) as [->|]; [right; split; [done | lia]|].
      left. split; [congruence|]. right. split; [done | lia].
Qed.

Lemma time_range_no_panic (l from to : Z) :
  from <= to -> range_panics (Included (l, from, 0)) (Included (l, to, u64_max)) = false.
Proof.
  intros Hle. apply bool_decide_eq_false. cbn. unfold pair_le. cbn. unfold pair_le, u64_max. cbn.
  intros [[[Hne [[? ?]|[_ Hlt]]]|[_ Hlt]] _]; [done | | lia].
  apply Hne. f_equal. lia.
Qed.

(** The time-range scan is exact: it returns, in ascending order and without
    duplicates, exactly the nodes live at the snapshot that carry the label and
    whose [updated_at] lies in the range; an inverted range is empty rather
    than a panic. *)
Theorem time_scan_exact l from to s :
  exists ids, visible_nodes_by_time_range st l from to s = Some ids
    /\ StronglySorted Z.le ids /\ NoDup ids
    /\ forall n, n ∈ ids <-> exists r, node_at st n s = Some r /\ l ∈ labels_of r
                                     /\ from <= nr_updated_at r <= to.
Proof.
  unfold visible_nodes_by_time_range. destruct (Z.ltb_spec to from) as [Hlt|Hge].
  { exists []. split_and!; [done | constructor | constructor |]. intros n. split; [by intros []%not_elem_of_nil|].
    intros (r & _ & _ & ?). lia. }
  destruct (btree_range (Included (l, from, 0)) (Included (l, to, u64_max)) (ms_time_node_index st)) as [es|] eqn:E.
  2: { exfalso. revert E. unfold btree_range. by rewrite time_range_no_panic. }
  apply btree_range_spec in E as [Hs He]. cbn [mbind option_bind]. eexists. split; [done|].
  assert (forall k t n slot, ((k, t, n), slot) ∈ visible_entries s es <->
            (exists r, node_at st n s = Some r /\ k ∈ labels_of r /\ nr_updated_at r = t)
            /\ k = l /\ from <= t <= to /\ ms_time_node_index st !! (k, t, n) = Some slot
            /\ slot_option_visible slot s = true) as Hin.
  { intros k t n slot. rewrite visible_entries_elem, He. cbn [snd]. destruct (time_range_bounds l from to u64_max k t n) as [Hb1 Hb2].
    split.
    - intros (Hv & Hm & Hb). destruct (Hb1 Hb) as [-> Ht]. split_and!; try done; try lia.
      apply time_entry. by exists slot.
    - intros ((r & Hr & _) & -> & Ht & Hm & Hv). split_and!; try done; apply Hb2; (split_and!; try done; try lia);
        apply node_at_ok in Hr as (_ & Hn & _); unfold u64, u64_max in *; lia. }
  split_and!; [apply sort_ids_sorted | |].
  - unfold sort_ids. rewrite merge_sort_Permutation. apply NoDup_fmap_2_strong.
    + intros [[[k t] m] slot] [[[k' t'] m'] slot'] [Hk Hx]%list_elem_of_filter [Hk' Hy]%list_elem_of_filter.
      cbn [fst snd]. intros <-.
      apply Hin in Hx as ((r & Hr & _ & <-) & -> & _ & Hx & _), Hy as ((r' & Hr' & _ & <-) & -> & _ & Hy & _).
      cbn in *. naive_solver.
    + by apply NoDup_filter, NoDup_filter, strict_entries_nodup.
  - intros n. rewrite sort_ids_elem, list_elem_of_fmap. split.
    + intros ([[[k t] m] slot] & -> & [Hk He']%list_elem_of_filter).
      apply Hin in He' as ((r & Hr & Hl & <-) & -> & Ht & _). by exists r.
    + intros (r & Hr & Hl & Ht).
      destruct (proj2 (time_entry l (nr_updated_at r) n s)) as (slot & Hm & Hv); [by exists r|].
      exists ((l, nr_updated_at r, n), slot). split; [done|]. apply list_elem_of_filter. split; [done|].
      apply Hin. split_and!; try done; try lia. by exists r.
Qed.
End Reads.
