(* ===== verification/MemtableKeys.v ===== *)
(** Key lookups are exact when the keys of live nodes are unique per label, and
    triple lookups when the triples of live edges are. *)
From S2P Require Import Prelude Types Encoding PropertyValue CompoundKey Slots Memtable MemtableCells MemtableSteps MemtableFacts MemtableEdges MemtableReads MemtableSnapshots.

Definition triple_of (edge : EdgeRecord) : Z * Z * Z := (er_from edge, er_to edge, er_label_id edge).

(** At most one node for a label and a key; at most one edge for a triple. *)
Definition unique_keys (node : Z -> option NodeRecord) : Prop :=
  forall n m r r' l, node n = Some r -> node m = Some r' -> l ∈ labels_of r -> l ∈ labels_of r' -> nr_key r = nr_key r' -> n = m.
Definition unique_triples (edge : Z -> option EdgeRecord) : Prop :=
  forall e e' r r', edge e = Some r -> edge e' = Some r' -> triple_of r = triple_of r' -> e = e'.
#[export] Instance unique_keys_proper : Proper (pointwise_relation Z (=) ==> iff) unique_keys.
Proof. intros f g E. split; intros U n m r r' l; [rewrite <- !E|rewrite !E]; apply U. Qed.
#[export] Instance unique_triples_proper : Proper (pointwise_relation Z (=) ==> iff) unique_triples.
Proof. intros f g E. split; intros U e e' r r'; [rewrite <- !E|rewrite !E]; apply U. Qed.
Lemma unique_keys_mono node node' :
  (forall n r, node' n = Some r -> node n = Some r) -> unique_keys node -> unique_keys node'.
Proof. intros Hsub U n m r r' l Hn%Hsub Hm%Hsub. by apply (U n m r r' l). Qed.
Lemma unique_triples_mono edge edge' :
  (forall e r, edge' e = Some r -> edge e = Some r) -> unique_triples edge -> unique_triples edge'.
Proof. intros Hsub U e e' r r' He%Hsub He'%Hsub. by apply (U e e' r r'). Qed.

(** The indexes name every live record. *)
Section Bound.
Context `{RmpValue, HashOrder}.

Definition key_bound (st : MemtableState) : Prop :=
  forall n r l, current_node st n = Some r -> l ∈ labels_of r -> cur st (LKey l (nr_key r)) = Some (VId (Some n)).
Definition triple_bound (st : MemtableState) : Prop :=
  forall e r, current_edge st e = Some r -> cur st (LTriple (er_from r) (er_to r) (er_label_id r)) = Some (VId (Some e)).

Lemma fresh_bound st : fresh st -> key_bound st /\ triple_bound st.
Proof.
  intros Hf. split; [intros n r l; rewrite current_node_cur|intros e r; rewrite current_edge_cur]; unfold cur; by rewrite Hf.
Qed.

Lemma key_bound_ext st st' :
  (forall l, node_loc l = true -> cur st' l = cur st l) -> key_bound st -> key_bound st'.
Proof. intros E B n r l. rewrite current_node_cur, !E, <- current_node_cur by done. apply B. Qed.

Lemma key_bound_upsert node seq st st' :
  node_inv st -> node_ok node -> unique_keys (current_node st) -> unique_keys (current_node st') ->
  apply_upsert_node node seq st = Some st' -> key_bound st -> key_bound st'.
Proof.
  intros IN Hok U U' Ha B n r l Hr Hl. pose proof Hr as Hr'.
  rewrite (cur_upsert_node node seq st st') by done. rewrite !decide_False by naive_solver.
  rewrite link_key. rewrite (current_node_upsert node seq st st' n Ha) in Hr.
  destruct (decide (n = nr_id node)) as [->|Hne].
  { apply (inj Some) in Hr as <-. by rewrite decide_True. }
  rewrite decide_False.
  2: { intros [E Hl']. apply Hne, (U' n (nr_id node) r (with_node_seq node seq) l); [done| |done..].
       rewrite (current_node_upsert node seq st st' _ Ha). by rewrite decide_True. }
  destruct (current_node st (nr_id node)) as [old|] eqn:Eo; [|eauto].
  rewrite unlink_key, decide_False; [eauto|].
  intros (E & Hl' & _). by apply Hne, (U n (nr_id node) r old l).
Qed.

Lemma key_bound_delete id t seq st st' :
  unique_keys (current_node st) -> apply_delete_node id t seq st = Some st' -> key_bound st -> key_bound st'.
Proof.
  intros U Ha B n r l. rewrite (current_node_delete id t seq st st' n Ha); case_decide as Hne; [done|]. intros Hr Hl.
  rewrite (cur_delete_node id t seq st st') by done. rewrite !decide_False by done.
  destruct (current_node st id) as [old|] eqn:Eo; [|eauto].
  rewrite delete_key, decide_False; [eauto|]. intros [E Hl']. by apply Hne, (U n id r old l).
Qed.

Lemma upsert_triple_cell edge seq st st' f t l :
  edge_inv st -> triple_bound st -> apply_upsert_edge edge seq st = Some st' ->
  cur st' (LTriple f t l)
  = if decide ((f, t, l) = triple_of edge) then Some (VId (Some (er_id edge)))
    else match current_edge st (er_id edge) with
         | Some old => if decide ((f, t, l) = triple_of old) then Some (VId None) else cur st (LTriple f t l)
         | None => cur st (LTriple f t l)
         end.
Proof.
  intros I B (iws & st1 & Hi & S1 & S2)%step_upsert_edge.
  rewrite (cur_step _ _ _ _ _ S2), !last_write_app, last_write_opt, (edge_index_writes_other _ _ _ _ _ Hi) by done. cbn [last_write].
  rewrite link_triple, (decide_False (P := LEdge _ = _)), (decide_False (P := _ /\ LEdgeTomb _ = _)) by naive_solver.
  assert (forall f t l, cur st1 (LTriple f t l)
            = match current_edge st (er_id edge) with
              | Some old => if decide ((f, t, l) = triple_of old /\ triple_of old ≠ triple_of edge)
                            then Some (VId None) else cur st (LTriple f t l)
              | None => cur st (LTriple f t l)
              end) as E1.
  { intros f' t' l'. rewrite (cur_step _ _ _ _ _ S1). destruct (current_edge st (er_id edge)) as [old|] eqn:Eo; [|done].
    rewrite unlink_triple. unfold edge_triple. rewrite triple_cur, (B _ _ Eo). cbn [id_of].
    rewrite (proj1 (ei_record _ I _ _ Eo)). unfold triple_of.
    split_decide D; [by rewrite decide_True by naive_solver|]. rewrite decide_False; [done|].
    intros [[= -> -> ->] Hm]. apply D. split_and!; [done..| |done].
    destruct (decide (er_from old = er_from edge)), (decide (er_to old = er_to edge)), (decide (er_label_id old = er_label_id edge));
      first [tauto|exfalso; apply Hm; congruence]. }
  destruct (decide ((f, t, l) = triple_of edge)) as [Ht|Hn].
  - rewrite decide_True; [done|]. injection Ht as -> -> ->. split; [|done].
    unfold should_update_triple. destruct (current_edge st (er_id edge)) as [old|] eqn:Eo; [|done].
    case_match eqn:Hsame; [|done]. rewrite !andb_true_iff, !Z.eqb_eq in Hsame. destruct Hsame as [[Hf Ht] Hl].
    unfold edge_triple. rewrite triple_cur, E1, decide_False by (unfold triple_of; rewrite Hf, Ht, Hl; naive_solver).
    rewrite <- Hf, <- Ht, <- Hl, (B _ _ Eo). cbn [id_of]. apply Z.eqb_refl.
  - rewrite decide_False by (unfold triple_of in Hn; naive_solver). rewrite E1.
    destruct (current_edge st (er_id edge)) as [old|]; [|done].
    destruct (decide ((f, t, l) = triple_of old)) as [E|E]; [rewrite decide_True by (split; congruence)|rewrite decide_False by tauto]; done.
Qed.
Lemma delete_triple_cell id t seq st st' f u l :
  triple_bound st -> apply_delete_edge id t seq st = Some st' ->
  cur st' (LTriple f u l)
  = match current_edge st id with
    | Some old => if decide ((f, u, l) = triple_of old) then Some (VId None) else cur st (LTriple f u l)
    | None => cur st (LTriple f u l)
    end.
Proof.
  intros B Ha. destruct (current_edge st id) as [edge|] eqn:He; [|by apply (delete_no_edge id t seq st st' Ha)].
  apply (delete_edge_loc id t seq st st' Ha edge _ (VId None)); [done..|].
  intros v. unfold unlink_deleted_edge_writes, edge_triple. rewrite triple_cur, (B _ _ He). cbn [id_of].
  rewrite elem_of_app, elem_of_opt_write, bool_decide_eq_true, ?elem_of_cons, elem_of_nil. unfold triple_of. naive_solver.
Qed.

Lemma triple_bound_ext st st' :
  (forall l, edge_loc l = true -> cur st' l = cur st l) -> triple_bound st -> triple_bound st'.
Proof. intros E B e r. rewrite current_edge_cur, !E, <- current_edge_cur by done. apply B. Qed.
Lemma triple_bound_upsert edge seq st st' :
  edge_inv st -> unique_triples (current_edge st) -> unique_triples (current_edge st') ->
  apply_upsert_edge edge seq st = Some st' -> triple_bound st -> triple_bound st'.
Proof.
  intros I U U' Ha B e r Hr. rewrite (upsert_triple_cell edge seq st st') by done. pose proof Hr as Hr'.
  assert (current_edge st' (er_id edge) = Some (with_edge_seq edge seq)) as Hnew
    by (rewrite (current_edge_upsert edge seq st st' Ha); by rewrite decide_True).
  rewrite (current_edge_upsert edge seq st st' Ha) in Hr.
  destruct (decide (e = er_id edge)) as [->|Hne]; [apply (inj Some) in Hr as <-; by rewrite decide_True|].
  rewrite decide_False by (intros E; by apply Hne, (U' _ _ _ _ Hr' Hnew)).
  destruct (current_edge st (er_id edge)) as [old|] eqn:Eo; [|by apply B].
  rewrite decide_False by (intros E; by apply Hne, (U _ _ _ _ Hr Eo)). by apply B.
Qed.
Lemma triple_bound_delete id t seq st st' :
  unique_triples (current_edge st) -> apply_delete_edge id t seq st = Some st' -> triple_bound st -> triple_bound st'.
Proof.
  intros U Ha B e r. rewrite (current_edge_delete id t seq st st' Ha). case_decide as Hne; [done|]. intros Hr.
  rewrite (delete_triple_cell id t seq st st') by done.
  destruct (current_edge st id) as [old|] eqn:Eo; [|by apply B].
  rewrite decide_False by (intros E; by apply Hne, (U _ _ _ _ Hr Eo)). by apply B.
Qed.

Strategy 100 [apply_upsert_node apply_upsert_edge apply_delete_node apply_delete_edge].

Lemma key_bound_op op seq st st' :
  op_ok op -> mem_inv st -> unique_keys (current_node st) -> unique_keys (current_node st') ->
  apply_op op seq st = Some st' -> key_bound st -> key_bound st'.
Proof.
  intros Hok (_ & IN & _) U U' Ha. destruct op as [node|edge|id t|id t| | | |]; cbn [apply_op op_ok] in *;
    try (apply (inj Some) in Ha; by subst).
  - by apply key_bound_upsert with node seq.
  - apply key_bound_ext. intros l. by apply upsert_edge_node_cells with edge seq.
  - by apply key_bound_delete with id t seq.
  - apply key_bound_ext. intros l. by apply delete_edge_node_cells with id t seq.
Qed.
Lemma triple_bound_op op seq st st' :
  mem_inv st -> unique_triples (current_edge st) -> unique_triples (current_edge st') ->
  apply_op op seq st = Some st' -> triple_bound st -> triple_bound st'.
Proof.
  intros (_ & _ & IE) U U' Ha. destruct op as [node|edge|id t|id t| | | |]; cbn [apply_op] in *;
    try (apply (inj Some) in Ha; by subst).
  - apply triple_bound_ext. intros l. by apply upsert_node_edge_cells with node seq.
  - by apply triple_bound_upsert with edge seq.
  - apply triple_bound_ext. intros l. by apply delete_node_edge_cells with id t seq.
  - by apply triple_bound_delete with id t seq.
Qed.

(** What every step keeps, while the states of the run are in [U]. *)
Lemma kept_by_run (U P : MemtableState -> Prop) :
  (forall op seq st st', op_ok op -> mem_inv st -> U st -> U st' -> apply_op op seq st = Some st' -> P st -> P st') ->
  forall ops st st', Forall (fun o => op_ok o.2 /\ o.1 <= u64_max) ops -> mem_inv st ->
  (forall k st1, apply_ops (take k ops) st = Some st1 -> U st1) ->
  apply_ops ops st = Some st' -> P st -> P st'.
Proof.
  intros Hstep ops. induction ops as [|[seq op] ops IH]; intros st st' Hok I HU E; [by injection E as <-|].
  apply Forall_cons in Hok as [[Hop Hseq] Hok]. cbn in E, Hop, Hseq.
  destruct (apply_op op seq st) as [st1|] eqn:E1; [|done]. intros HP.
  apply (IH st1); [done|by apply (mem_inv_op op seq st)| |done|].
  - intros k st2 E2. apply (HU (S k)). cbn [take apply_ops]. by rewrite E1.
  - apply (Hstep op seq st); [done..| | |done|done].
    + by apply (HU 0%nat).
    + apply (HU 1%nat). cbn [take apply_ops]. by rewrite E1.
Qed.

(** Enough for it: [owner l k] is the one node id ever written with label [l]
    and key [k]. *)
Definition keyed (owner : Z -> str -> Z) (op : WalOp) : Prop :=
  match op with
  | UpsertNode node => forall l, l ∈ labels_of node -> owner l (nr_key node) = nr_id node
  | _ => True
  end.
Lemma keyed_unique owner ops st0 :
  fresh st0 -> Forall (fun o => keyed owner o.2) ops ->
  forall k st1, apply_ops (take k ops) st0 = Some st1 -> unique_keys (current_node st1).
Proof.
  intros Hf Hk k st1 E.
  assert (forall n r l, current_node st1 n = Some r -> l ∈ labels_of r -> owner l (nr_key r) = n) as Ho.
  2: { intros n m r r' l Hn Hm Hl Hl' Hkey. by rewrite <- (Ho n r l Hn Hl), <- (Ho m r' l Hm Hl'), Hkey. }
  assert (forall n r l, current_node st0 n = Some r -> l ∈ labels_of r -> owner l (nr_key r) = n) as Hown0
    by (intros n r l; rewrite current_node_cur; unfold cur; by rewrite Hf).
  apply (Forall_take _ k) in Hk. clear Hf. revert st0 E Hown0. generalize dependent (take k ops). clear ops.
  intros ops Hk. induction Hk as [|[seq op] ops Hop _ IH]; intros st0 E Hown0; [by injection E as <-|].
  cbn in E, Hop. destruct (apply_op op seq st0) as [st2|] eqn:E2; [|done]. apply (IH st2 E). intros n r l.
  destruct op as [node|edge|id t|id t| | | |]; cbn [apply_op keyed] in *; try (apply (inj Some) in E2; subst; by apply Hown0).
  - rewrite (current_node_upsert node seq st0 st2 n E2). case_decide; [intros [= <-]; subst; apply Hop|apply Hown0].
  - rewrite current_node_cur, (upsert_edge_node_cells edge seq st0), <- current_node_cur by done. apply Hown0.
  - rewrite (current_node_delete id t seq st0 st2 n E2). case_decide; [done|apply Hown0].
  - rewrite current_node_cur, (delete_edge_node_cells id t seq st0), <- current_node_cur by done. apply Hown0.
Qed.
End Bound.

Section Keys.
Context `{RmpValue, HashOrder}.
Context (ops : list (Z * WalOp)) (st0 st : MemtableState).
Hypothesis Hfresh : fresh st0.
Hypothesis Hseq : sequenced ops.
Hypothesis Hrun : apply_ops ops st0 = Some st.

Lemma snapshot_kept (U P : MemtableState -> Prop) s :
  (forall op seq st st', op_ok op -> mem_inv st -> U st -> U st' -> apply_op op seq st = Some st' -> P st -> P st') ->
  (forall k st1, apply_ops (take k ops) st0 = Some st1 -> U st1) -> P st0 ->
  exists st_s, view_eq (cur st_s) (seen st s) /\ P st_s.
Proof.
  intros Hstep HU HP. destruct (snapshot_state ops st0 st Hfresh Hseq Hrun s) as (st_s & E & _ & Hv). exists st_s. split; [done|].
  destruct Hseq as [Hsort Hok]. destruct (up_to_split ops s Hsort) as (post & Ep & _).
  assert (up_to s ops = take (length (up_to s ops)) ops) as Et by (rewrite Ep at 3; by rewrite take_app_length).
  apply (kept_by_run U P Hstep (up_to s ops) st0); [| |..|done|done].
  - rewrite Et. by apply Forall_take.
  - by apply fresh_mem_inv.
  - intros k st1. rewrite Et, take_take. apply HU.
Qed.

Lemma key_seen l k s :
  (by_key ← ms_node_key_index st !! l; slot ← by_key !! k; slot_option_at slot s)
  = id_of (seen st s (LKey l k)).
Proof.
  unfold seen. cbn [cell]. rewrite slot_at_map. unfold nested_get.
  destruct (ms_node_key_index st !! l) as [by_key|]; [|done]. cbn.
  destruct (by_key !! k) as [slot|]; [|done]. cbn. unfold slot_option_at.
  by destruct (Slot.at_ slot s) as [[]|].
Qed.

Lemma node_by_key_seen l k s :
  node_by_key_at st l k s = (n ← id_of (seen st s (LKey l k)); node_at st n s).
Proof.
  rewrite <- key_seen. unfold node_by_key_at.
  destruct (ms_node_key_index st !! l) as [by_key|]; [|done]. cbn. by destruct (by_key !! k).
Qed.

Section LiveKeys.
(** No state of the run has two live nodes with one label and key. *)
Hypothesis Hunique : forall k st1, apply_ops (take k ops) st0 = Some st1 -> unique_keys (current_node st1).
Lemma snapshot_key_bound s : exists st_s, view_eq (cur st_s) (seen st s) /\ key_bound st_s.
Proof. apply (snapshot_kept (fun st => unique_keys (current_node st)) key_bound); [intros op seq; apply key_bound_op|done|by apply fresh_bound]. Qed.

Lemma key_lookup l k s :
  (forall r, node_by_key_at st l k s = Some r
     <-> exists n, node_at st n s = Some r /\ l ∈ labels_of r /\ nr_key r = k)
  /\ node_id_by_key_at st l k s = nr_id <$> node_by_key_at st l k s.
Proof.
  assert (forall n r, id_of (seen st s (LKey l k)) = Some n -> node_at st n s = Some r ->
            l ∈ labels_of r /\ nr_key r = k /\ nr_id r = n /\ node_ok r) as Hsound.
  { intros n r Hid Hr. pose proof (snapshot_node_inv ops st0 st Hfresh Hseq Hrun s) as I.
    assert (seen st s (LKey l k) = Some (VId (Some n))) as Hv
      by (revert Hid; destruct (seen st s (LKey l k)) as [[| |[]| |]|]; cbn; naive_solver).
    rewrite node_at_seen in Hr. destruct (nv_key _ I _ _ _ Hv) as (r' & Hr' & Hl & Hkey).
    rewrite Hr in Hr'. injection Hr' as <-. by destruct (nv_record _ I _ _ Hr). }
  assert (forall r, node_by_key_at st l k s = Some r
            <-> exists n, node_at st n s = Some r /\ l ∈ labels_of r /\ nr_key r = k) as Hex.
  { intros r. rewrite node_by_key_seen. split.
    - destruct (id_of _) as [n|] eqn:Hid; [|done]. cbn. intros Hr. exists n.
      destruct (Hsound n r eq_refl Hr) as (? & ? & _). done.
    - intros (n & Hr & Hl & <-).
      destruct (snapshot_key_bound s) as (st_s & Hv & KB). rewrite node_at_seen, <- Hv, <- current_node_cur in Hr.
      rewrite <- Hv, (KB _ _ _ Hr Hl). cbn. by rewrite node_at_seen, <- Hv, <- current_node_cur. }
  split; [exact Hex|].
  unfold node_id_by_key_at. transitivity (n ← id_of (seen st s (LKey l k)); node ← node_at st n s;
    if NodeLabels.contains (nr_label_ids node) l && bool_decide (nr_key node = k) then Some n else None).
  { rewrite <- key_seen. destruct (ms_node_key_index st !! l) as [by_key|]; [|done]. cbn. by destruct (by_key !! k). }
  rewrite node_by_key_seen. destruct (id_of _) as [n|] eqn:Hid; [|done]. cbn.
  destruct (node_at st n s) as [r|] eqn:Hr; [|done]. cbn.
  destruct (Hsound n r eq_refl Hr) as (Hl & Hkey & Hn & Hok). rewrite bool_decide_true, andb_true_r by done.
  rewrite (proj2 (NodeLabels.contains_spec _ _ (node_ok_labels _ Hok))); [by rewrite Hn | done].
Qed.

(** Key lookup is exact: when no state the operations go through has two
    live nodes with a label and key in common, the lookup by label and key at
    any snapshot returns precisely the live node that has them, and the id-only
    lookup, which checks the record again, agrees with it. *)
Theorem key_lookup_exact l k s :
  (forall r, node_by_key_at st l k s = Some r
     <-> exists n, node_at st n s = Some r /\ l ∈ labels_of r /\ nr_key r = k)
  /\ node_id_by_key_at st l k s = nr_id <$> node_by_key_at st l k s.
Proof. exact (key_lookup l k s). Qed.
End LiveKeys.

Section LiveTriples.
Hypothesis Hunique : forall k st1, apply_ops (take k ops) st0 = Some st1 -> unique_triples (current_edge st1).
Lemma snapshot_triple_bound s : exists st_s, view_eq (cur st_s) (seen st s) /\ triple_bound st_s.
Proof. apply (snapshot_kept (fun st => unique_triples (current_edge st)) triple_bound); [intros op seq st1 st2 _; apply triple_bound_op|done|by apply fresh_bound]. Qed.

Lemma edge_by_triple_seen f t l s :
  edge_by_triple_at st f t l s = (e ← id_of (seen st s (LTriple f t l)); edge_at st e s).
Proof.
  unfold edge_by_triple_at, seen. cbn [cell]. rewrite slot_at_map.
  destruct (ms_edge_triple_index st !! (f, t, l)) as [slot|]; [|done]. cbn. unfold slot_option_at. by destruct (Slot.at_ slot s) as [[]|].
Qed.
(** The lookup by triple, likewise. *)
Lemma triple_lookup f t l s r :
  edge_by_triple_at st f t l s = Some r <-> edge_at st (er_id r) s = Some r /\ triple_of r = (f, t, l).
Proof.
  rewrite edge_by_triple_seen. split.
  - destruct (id_of _) as [e|] eqn:Hid; [|done]. cbn. intros Hr.
    pose proof (snapshot_edge_inv ops st0 st Hfresh Hseq Hrun s) as I.
    assert (seen st s (LTriple f t l) = Some (VId (Some e))) as Hv
      by (revert Hid; destruct (seen st s (LTriple f t l)) as [[| |[]| |]|]; cbn; naive_solver).
    rewrite edge_at_seen in Hr. destruct (ev_triple _ I _ _ _ _ Hv) as (r' & Hr' & Hf & Ht & Hl).
    rewrite Hr in Hr'. apply (inj Some) in Hr' as <-. rewrite edge_at_seen, (proj1 (ev_record _ I _ _ Hr)). split; [done|].
    unfold triple_of. by rewrite Hf, Ht, Hl.
  - intros [Hr [= <- <- <-]]. destruct (snapshot_triple_bound s) as (st_s & Hv & TB).
    rewrite edge_at_seen, <- Hv, <- current_edge_cur in Hr. rewrite <- Hv, (TB _ _ Hr). cbn.
    by rewrite edge_at_seen, <- Hv, <- current_edge_cur.
Qed.
End LiveTriples.
End Keys.
