(* ===== verification/MemtableNeighbors.v ===== *)
(** Neighbour expansion is exact: [neighbors_at] and [incident_edges_at] return
    each incident live edge once, and a limit cuts the full answer short. *)
From S2P Require Import Prelude Types Encoding PropertyValue CompoundKey Slots Memtable MemtableCells MemtableSteps MemtableFacts MemtableEdges MemtableReads MemtableSnapshots.

(** ** The collecting loop *)
Section Collect.
Context (st : MemtableState) (node_id : Z) (label_filter_ids : option (list Z)) (skip_deleted : bool) (s : Z).

Definition passes_filter (label_id : Z) : Prop :=
  match label_filter_ids with Some label_ids => label_id ∈ label_ids | None => True end.
#[export] Instance passes_filter_dec label_id : Decision (passes_filter label_id).
Proof. unfold passes_filter. destruct label_filter_ids; apply _. Defined.

Definition wanted (entry : AdjEntry) : Prop :=
  passes_filter (ae_label_id entry) /\ (skip_deleted && node_deleted_at st (ae_neighbor_id entry) s) = false.
#[export] Instance wanted_dec entry : Decision (wanted entry) := and_dec _ _.

Definition repeated (dedupe : bool) (loops : gset Z) (entry : AdjEntry) : Prop :=
  dedupe = true /\ ae_neighbor_id entry = node_id /\ ae_edge_id entry ∈ loops.

Definition visible_adj (slots : list AdjSlot) : list AdjEntry := omap (fun slot => slot_option_at slot s) slots.
Definition kept (dedupe : bool) (loops : gset Z) (slots : list AdjSlot) : list AdjEntry :=
  filter (fun e => wanted e /\ ~ repeated dedupe loops e) (visible_adj slots).
Definition loops_of (entries : list AdjEntry) : gset Z :=
  list_to_set (ae_edge_id <$> filter (fun e => ae_neighbor_id e = node_id) entries).

Abbreviation collect limit dedupe :=
  (collect_adj st node_id label_filter_ids limit skip_deleted dedupe s).

Lemma passes_filter_bool label_id :
  (match label_filter_ids with Some label_ids => bool_decide (label_id ∉ label_ids) | None => false end)
  = true <-> ~ passes_filter label_id.
Proof. unfold passes_filter. destruct label_filter_ids; [apply bool_decide_eq_true | naive_solver]. Qed.

Lemma kept_cons_None dedupe loops slot slots :
  slot_option_at slot s = None -> kept dedupe loops (slot :: slots) = kept dedupe loops slots.
Proof. intros E. unfold kept, visible_adj. cbn. by rewrite E. Qed.
Lemma kept_cons_Some dedupe loops slot slots e :
  slot_option_at slot s = Some e ->
  kept dedupe loops (slot :: slots) = filter (fun e => wanted e /\ ~ repeated dedupe loops e) [e] ++ kept dedupe loops slots.
Proof.
  intros E. unfold kept. assert (visible_adj (slot :: slots) = [e] ++ visible_adj slots) as ->
    by (unfold visible_adj; cbn; by rewrite E). apply filter_app.
Qed.

(** Another edge's self loop does not affect what is kept. *)
Lemma kept_other dedupe loops id slots :
  id ∉ (ae_edge_id <$> visible_adj slots) -> kept dedupe ({[id]} ∪ loops) slots = kept dedupe loops slots.
Proof.
  intros Hid. apply filter_ext_in. intros e He. unfold repeated. rewrite elem_of_union, elem_of_singleton.
  assert (ae_edge_id e ≠ id) by (intros <-; by apply Hid, list_elem_of_fmap_2). tauto.
Qed.

Lemma loops_of_cons e es :
  loops_of (e :: es)
  = (if decide (ae_neighbor_id e = node_id) then {[ae_edge_id e]} else ∅) ∪ loops_of es.
Proof.
  unfold loops_of. case_decide; [by rewrite filter_cons_True|].
  by rewrite filter_cons_False, union_empty_l_L.
Qed.

Lemma collect_spec dedupe slots results loops :
  NoDup (ae_edge_id <$> visible_adj slots) ->
  collect 0 dedupe slots results loops
  = (results ++ (neighbor_of <$> kept dedupe loops slots), loops_of (kept dedupe loops slots) ∪ loops).
Proof.
  revert results loops. induction slots as [|slot slots IH]; intros results loops Hd.
  { cbn. by rewrite app_nil_r, union_empty_l_L. }
  cbn [collect_adj]. destruct (slot_option_at slot s) as [e|] eqn:E.
  2: { rewrite (kept_cons_None _ _ _ _ E), <- IH; [done|]. revert Hd. unfold visible_adj. cbn. by rewrite E. }
  assert (ae_edge_id e ∉ (ae_edge_id <$> visible_adj slots) /\ NoDup (ae_edge_id <$> visible_adj slots)) as [Hn Hd'].
  { revert Hd. unfold visible_adj. cbn. rewrite E. apply NoDup_cons. }
  pose proof (passes_filter_bool (ae_label_id e)) as Hf. rewrite (kept_cons_Some _ _ _ _ _ E). cbn [andb Z.ltb Z.compare].
  match type of Hf with ?b = true <-> _ => destruct b end.
  { apply proj1 in Hf. specialize (Hf eq_refl). rewrite filter_cons_False by (unfold wanted; tauto). by apply IH. }
  destruct (skip_deleted && node_deleted_at st (ae_neighbor_id e) s) eqn:Hs.
  { rewrite filter_cons_False by (unfold wanted; rewrite Hs; naive_solver). by apply IH. }
  assert (passes_filter (ae_label_id e)) as Hf' by (apply dec_stable; by intros ?%Hf).
  assert (wanted e) as Hw by by split.
  destruct (Z.eqb_spec (ae_neighbor_id e) node_id) as [Hl|Hl].
  - destruct (dedupe && bool_decide (ae_edge_id e ∈ loops)) eqn:Hr.
    + apply andb_true_iff in Hr as [-> Hr%bool_decide_eq_true].
      rewrite filter_cons_False by (unfold repeated; tauto). by apply IH.
    + assert (~ repeated dedupe loops e) as Hnr.
      { intros (-> & _ & Hin). rewrite bool_decide_true in Hr; done. }
      rewrite filter_cons_True, filter_nil, IH, kept_other by done. cbn [app].
      rewrite loops_of_cons, decide_True, fmap_cons, <- app_assoc by done. f_equal. set_solver.
  - assert (~ repeated dedupe loops e) as Hnr by by intros (_ & ? & _).
    rewrite filter_cons_True, filter_nil, IH by done. cbn [app].
    rewrite loops_of_cons, decide_False, fmap_cons, <- app_assoc, union_empty_l_L by done. done.
Qed.

(** A limit cuts the unlimited answer, and changes nothing when it is not reached. *)
Lemma collect_prefix dedupe slots results loops :
  exists more, (collect 0 dedupe slots results loops).1 = results ++ more
               /\ (more = [] -> (collect 0 dedupe slots results loops).2 = loops).
Proof.
  revert results loops. induction slots as [|slot slots IH]; intros results loops.
  { exists []. by rewrite app_nil_r. }
  cbn [collect_adj]. cbn [andb Z.ltb Z.compare].
  repeat (case_match; [|try apply IH]); try apply IH;
  match goal with |- exists _, (collect_adj _ _ _ _ _ _ _ _ (_ ++ ?x) ?l).1 = _ /\ _ =>
    destruct (IH (results ++ x) l) as (more & -> & _); exists (x ++ more); by rewrite <- app_assoc end.
Qed.

Lemma collect_limit limit dedupe slots results loops :
  0 < limit -> len results <= limit ->
  (len (collect 0 dedupe slots results loops).1 <= limit ->
   collect limit dedupe slots results loops = collect 0 dedupe slots results loops)
  /\ (limit < len (collect 0 dedupe slots results loops).1 ->
      (collect limit dedupe slots results loops).1
      = take (Z.to_nat limit) (collect 0 dedupe slots results loops).1).
Proof.
  intros Hl. revert results loops. induction slots as [|slot slots IH]; intros results loops Hr; [split; [done | cbn; lia]|].
  destruct (decide (limit = len results)) as [E|E].
  { destruct (collect_prefix dedupe (slot :: slots) results loops) as (more & Hm & Hn).
    assert (collect limit dedupe (slot :: slots) results loops = (results, loops)) as ->.
    { cbn [collect_adj]. by rewrite (proj2 (Z.ltb_lt 0 limit) Hl), (proj2 (Z.leb_le limit (len results))) by lia. }
    rewrite Hm, length_app. split; intros Hlen.
    - destruct more; [|cbn in Hlen; lia]. specialize (Hn eq_refl). rewrite app_nil_r in Hm.
      rewrite <- Hn at 1. rewrite <- Hm at 1. by destruct (collect 0 dedupe (slot :: slots) results loops).
    - cbn. rewrite take_app_le by lia. by rewrite take_ge by lia. }
  cbn [collect_adj]. rewrite (proj2 (Z.leb_gt limit (len results))) by lia.
  rewrite andb_false_r. change (0 <? 0) with false. cbn [andb].
  repeat (case_match; [|try (apply IH; lia)]); try (apply IH; lia); apply IH; rewrite length_app; cbn [length]; lia.
Qed.
End Collect.

(** ** The entries of a node's adjacency list *)
Section Entries.
Context `{HashOrderLaws}.

Lemma visible_adj_nodup (l : list (Z * AdjSlot)) s :
  NoDup (fst <$> l) ->
  (forall e slot a, (e, slot) ∈ l -> slot_option_at slot s = Some a -> ae_edge_id a = e) ->
  NoDup (ae_edge_id <$> visible_adj s (snd <$> l)).
Proof.
  unfold visible_adj. induction l as [|[e slot] l IH]; intros Hd Hid; [constructor|].
  apply NoDup_cons in Hd as [Hn Hd]. cbn.
  assert (NoDup (ae_edge_id <$> omap (fun slot => slot_option_at slot s) (snd <$> l))) as Hrec.
  { apply IH; [done|]. intros e' slot' a Hin. apply Hid. by right. }
  destruct (slot_option_at slot s) as [a|] eqn:Ea; [|done]. rewrite fmap_cons. constructor; [|done].
  rewrite (Hid e slot a); [|by left|done]. intros (a' & E & Hin)%list_elem_of_fmap.
  apply list_elem_of_omap in Hin as (slot' & Hs & Ha'). apply list_elem_of_fmap in Hs as ([e' slot''] & -> & Hs).
  apply Hn. rewrite E, (Hid e' slot'' a'); [|by right|done]. by apply (list_elem_of_fmap_2 fst _ _ Hs).
Qed.

Lemma adj_slots_elem (adj : gmap Z (gmap Z AdjSlot)) n slot : slot ∈ adj_slots adj n <-> exists e, nested_get adj n e = Some slot.
Proof.
  unfold adj_slots, nested_get. destruct (adj !! n) as [entries|]; cbn.
  - rewrite list_elem_of_fmap. split.
    + intros ([e slot'] & -> & He). rewrite hash_iter_perm in He. apply elem_of_map_to_list in He. by exists e.
    + intros [e He]. exists (e, slot). split; [done|]. rewrite hash_iter_perm. by apply elem_of_map_to_list.
  - split; [by intros ?%not_elem_of_nil | by intros [e ?]].
Qed.

Lemma adj_seen (adj : gmap Z (gmap Z AdjSlot)) n e s a :
  slot_at (slot_map VAdj <$> nested_get adj n e) s = Some (VAdj (Some a))
  <-> exists slot, nested_get adj n e = Some slot /\ slot_option_at slot s = Some a.
Proof.
  rewrite slot_at_map. unfold slot_option_at. destruct (nested_get adj n e) as [slot|]; cbn; [|naive_solver].
  split.
  - intros E. exists slot. split; [done|]. destruct (Slot.at_ slot s) as [[b|]|]; cbn in *; by simplify_eq.
  - intros (slot' & E & Hs). apply (inj Some) in E as <-.
    destruct (Slot.at_ slot s) as [[b|]|]; cbn in *; by simplify_eq.
Qed.

Lemma adj_entries (adj : gmap Z (gmap Z AdjSlot)) n s (ok : Z -> AdjEntry -> Prop) :
  (forall e a, slot_at (slot_map VAdj <$> nested_get adj n e) s = Some (VAdj (Some a)) <-> ok e a) ->
  (forall e a, ok e a -> ae_edge_id a = e) ->
  NoDup (ae_edge_id <$> visible_adj s (adj_slots adj n))
  /\ forall a, a ∈ visible_adj s (adj_slots adj n) <-> ok (ae_edge_id a) a.
Proof.
  intros Hok Hid. split.
  - unfold adj_slots. destruct (adj !! n) as [entries|] eqn:En; [|constructor].
    apply visible_adj_nodup.
    + rewrite hash_iter_perm. apply NoDup_fst_map_to_list.
    + intros e slot a He Ha. apply Hid, Hok, adj_seen. exists slot. split; [|done].
      unfold nested_get. rewrite En. rewrite hash_iter_perm in He. by apply elem_of_map_to_list in He.
  - intros a. unfold visible_adj. rewrite list_elem_of_omap. setoid_rewrite adj_slots_elem. split.
    + intros (slot & [e He] & Ha). assert (ok e a) as Ho by (apply Hok, adj_seen; by exists slot).
      by rewrite (Hid e a Ho).
    + intros Ho%Hok%adj_seen. naive_solver.
Qed.
End Entries.

Section Neighbors.
Context `{RmpValue, HashOrderLaws}.
Context (ops : list (Z * WalOp)) (st0 st : MemtableState).
Hypothesis Hfresh : fresh st0.
Hypothesis Hseq : sequenced ops.
Hypothesis Hrun : apply_ops ops st0 = Some st.

Definition out_of (n s e : Z) (a : AdjEntry) : Prop :=
  exists r, edge_at st e s = Some r /\ er_from r = n /\ a = adj_out_entry r.
Definition in_of (n s e : Z) (a : AdjEntry) : Prop :=
  exists r, edge_at st e s = Some r /\ er_to r = n /\ a = adj_in_entry r.

Lemma edge_at_id e s r : edge_at st e s = Some r -> er_id r = e.
Proof.
  rewrite edge_at_seen. apply (ev_record _ (snapshot_edge_inv ops st0 st Hfresh Hseq Hrun s)).
Qed.

Lemma out_entries n s :
  NoDup (ae_edge_id <$> visible_adj s (adj_slots (ms_adj_out st) n))
  /\ forall a, a ∈ visible_adj s (adj_slots (ms_adj_out st) n) <-> out_of n s (ae_edge_id a) a.
Proof.
  apply adj_entries with (ok := out_of n s).
  - intros e a. unfold out_of. setoid_rewrite edge_at_seen.
    apply (ev_out _ (snapshot_edge_inv ops st0 st Hfresh Hseq Hrun s) n e a).
  - intros e a (r & Hr & _ & ->). by apply edge_at_id with s.
Qed.
Lemma in_entries n s :
  NoDup (ae_edge_id <$> visible_adj s (adj_slots (ms_adj_in st) n))
  /\ forall a, a ∈ visible_adj s (adj_slots (ms_adj_in st) n) <-> in_of n s (ae_edge_id a) a.
Proof.
  apply adj_entries with (ok := in_of n s).
  - intros e a. unfold in_of. setoid_rewrite edge_at_seen.
    apply (ev_in _ (snapshot_edge_inv ops st0 st Hfresh Hseq Hrun s) n e a).
  - intros e a (r & Hr & _ & ->). by apply edge_at_id with s.
Qed.

(** The specification: [nb] is the view from [n] of a live edge in the direction. *)
Definition incident (skip : bool) (n : Z) (dir : Direction) (labels : option (list Z)) (s : Z)
    (nb : NeighborRecord) : Prop :=
  exists r a, edge_at st (er_id r) s = Some r /\ nb = neighbor_of a /\ wanted st labels skip s a
    /\ (dir ≠ Incoming /\ er_from r = n /\ a = adj_out_entry r
        \/ dir ≠ Outgoing /\ er_to r = n /\ a = adj_in_entry r).

Lemma neighbor_of_inj a b : neighbor_of a = neighbor_of b -> a = b.
Proof. destruct a, b. unfold neighbor_of. cbn. congruence. Qed.

Lemma kept_elem skip labels n s dedupe loops slots a :
  a ∈ kept st n labels skip s dedupe loops slots
  <-> wanted st labels skip s a /\ ~ repeated n dedupe loops a /\ a ∈ visible_adj s slots.
Proof. unfold kept. rewrite list_elem_of_filter. tauto. Qed.

Lemma kept_nodup skip labels n s dedupe loops slots :
  NoDup (ae_edge_id <$> visible_adj s slots) ->
  NoDup (ae_edge_id <$> kept st n labels skip s dedupe loops slots).
Proof.
  unfold kept. intros Hd. induction (visible_adj s slots) as [|a l IH]; [constructor|].
  rewrite fmap_cons, NoDup_cons in Hd. destruct Hd as [Hn Hd]. rewrite filter_cons. split_decide D; [|by apply IH].
  rewrite fmap_cons. constructor; [|by apply IH]. intros (b & E & [_ Hb]%list_elem_of_filter)%list_elem_of_fmap.
  apply Hn. rewrite E. by apply list_elem_of_fmap_2.
Qed.

Lemma loops_of_elem n id entries :
  id ∈ loops_of n entries <-> exists a, a ∈ entries /\ ae_neighbor_id a = n /\ ae_edge_id a = id.
Proof.
  unfold loops_of. rewrite elem_of_list_to_set, list_elem_of_fmap. setoid_rewrite list_elem_of_filter. naive_solver.
Qed.

(** What a full expansion collects. *)
Definition expansion (skip : bool) (n : Z) (dir : Direction) (labels : option (list Z)) (s : Z) : list AdjEntry :=
  let out := kept st n labels skip s false ∅ (adj_slots (ms_adj_out st) n) in
  let inc dedupe loops := kept st n labels skip s dedupe loops (adj_slots (ms_adj_in st) n) in
  match dir with
  | Outgoing => out
  | Incoming => inc false ∅
  | Both => out ++ inc true (loops_of n out ∪ ∅)
  end.

Lemma adjacent_expansion skip n dir labels s :
  adjacent skip st n dir labels 0 s
  = if node_deleted_at st n s then [] else neighbor_of <$> expansion skip n dir labels s.
Proof.
  unfold adjacent. destruct (node_deleted_at st n s); [done|].
  pose proof (proj1 (out_entries n s)) as Ho. pose proof (proj1 (in_entries n s)) as Hi.
  destruct dir; unfold expansion; cbv zeta.
  - by rewrite collect_spec.
  - by rewrite collect_spec.
  - rewrite collect_spec by done. cbv beta iota. rewrite collect_spec by done. cbn [fst app]. by rewrite fmap_app.
Qed.

Lemma same_edge n s a b :
  out_of n s (ae_edge_id a) a -> in_of n s (ae_edge_id b) b -> ae_edge_id a = ae_edge_id b ->
  a = b /\ ae_neighbor_id a = n.
Proof.
  intros (r & Hr & Hf & ->) (r' & Hr' & Ht & ->) E. cbn in *. rewrite E, Hr' in Hr. injection Hr as <-.
  unfold adj_out_entry, adj_in_entry. rewrite Hf, Ht. done.
Qed.

Lemma expansion_nodup skip n dir labels s : NoDup (ae_edge_id <$> expansion skip n dir labels s).
Proof.
  destruct (out_entries n s) as [Ho Ho'], (in_entries n s) as [Hi Hi'].
  destruct dir; cbn [expansion]; try by apply kept_nodup.
  rewrite fmap_app, NoDup_app. split_and!; [by apply kept_nodup | | by apply kept_nodup].
  intros id (a & -> & Ha)%list_elem_of_fmap (b & E & Hb)%list_elem_of_fmap.
  pose proof Ha as Ha0. apply kept_elem in Ha as (_ & _ & Ha%Ho'), Hb as (_ & Hr & Hb%Hi').
  destruct (same_edge n s a b Ha Hb E) as [-> Hn]. apply Hr. split_and!; [done..|].
  apply elem_of_union_l, loops_of_elem. by exists b.
Qed.

Lemma expansion_elem skip n dir labels s nb :
  nb ∈ neighbor_of <$> expansion skip n dir labels s <-> incident skip n dir labels s nb.
Proof.
  destruct (out_entries n s) as [_ Ho], (in_entries n s) as [_ Hi].
  assert (forall d a, a ∈ kept st n labels skip s d ∅ (adj_slots (ms_adj_out st) n)
            <-> wanted st labels skip s a /\ out_of n s (ae_edge_id a) a) as Hout.
  { intros d a. rewrite kept_elem, Ho. unfold repeated. set_solver. }
  assert (forall d a, a ∈ kept st n labels skip s d ∅ (adj_slots (ms_adj_in st) n)
            <-> wanted st labels skip s a /\ in_of n s (ae_edge_id a) a) as Hin.
  { intros d a. rewrite kept_elem, Hi. unfold repeated. set_solver. }
  rewrite list_elem_of_fmap. transitivity (exists a, nb = neighbor_of a /\ wanted st labels skip s a
    /\ (dir ≠ Incoming /\ out_of n s (ae_edge_id a) a \/ dir ≠ Outgoing /\ in_of n s (ae_edge_id a) a)).
  - f_equiv. intros a. destruct dir; cbn [expansion]; rewrite ?elem_of_app, ?Hout, ?Hin; [naive_solver..|].
    rewrite union_empty_r_L, kept_elem, Hi. split; [naive_solver|].
    intros (-> & Hw & [[_ Ha]|[_ Ha]]); [naive_solver|].
    destruct (decide (ae_edge_id a ∈ loops_of n (kept st n labels skip s false ∅ (adj_slots (ms_adj_out st) n))))
      as [(b & Hb & Hbn & Hid)%loops_of_elem|Hk].
    + pose proof Hb as [_ Hb']%Hout. destruct (same_edge n s b a Hb' Ha Hid) as [-> _]. apply Hout in Hb. naive_solver.
    + split; [done|]. right. split_and!; [done | | done]. by intros (_ & _ & ?).
  - unfold incident, out_of, in_of. split.
    + intros (a & -> & Hw & [(Hd & r & Hr & Hf & ->)|(Hd & r & Hr & Hf & ->)]);
        exists r; eexists; (split; [exact Hr|]); naive_solver.
    + intros (r & a & Hr & -> & Hw & [(Hd & Hf & ->)|(Hd & Hf & ->)]); eexists; (split; [done|]);
        (split; [done|]); [left|right]; (split; [done|]); by exists r.
Qed.

Lemma adjacent_limit skip n dir labels limit s :
  0 < limit ->
  adjacent skip st n dir labels limit s = take (Z.to_nat limit) (adjacent skip st n dir labels 0 s).
Proof.
  intros Hl. unfold adjacent. destruct (node_deleted_at st n s); [by rewrite take_nil|].
  assert (forall dd slots results loops, len results <= limit ->
    (collect_adj st n labels limit skip dd s slots results loops).1
    = take (Z.to_nat limit) (collect_adj st n labels 0 skip dd s slots results loops).1) as Hone.
  { intros dd slots results loops Hlen.
    destruct (collect_limit st n labels skip s limit dd slots results loops Hl Hlen) as [Hs1 Hs2].
    destruct (Z.le_gt_cases (len (collect_adj st n labels 0 skip dd s slots results loops).1) limit) as [Hle|Hgt].
    - rewrite Hs1 by done. rewrite take_ge by lia. done.
    - by apply Hs2. }
  destruct dir; cbv zeta; [apply Hone; cbn; lia | apply Hone; cbn; lia |].
  destruct (collect_limit st n labels skip s limit false (adj_slots (ms_adj_out st) n) [] ∅ Hl) as [Hshort Hlong];
    [cbn; lia|].
  destruct (Z.le_gt_cases (len (collect_adj st n labels 0 skip false s (adj_slots (ms_adj_out st) n) [] ∅).1) limit)
    as [Hle|Hgt].
  { rewrite Hshort by done. destruct (collect_adj st n labels 0 skip false s _ [] ∅) as [results loops].
    by apply Hone. }
  specialize (Hlong ltac:(lia)).
  destruct (collect_adj st n labels limit skip false s _ [] ∅) as [cut cut_loops].
  destruct (collect_adj st n labels 0 skip false s _ [] ∅) as [results loops]. cbn [fst] in *. subst cut.
  assert (forall slots l, (collect_adj st n labels limit skip true s slots (take (Z.to_nat limit) results) l).1
            = take (Z.to_nat limit) results) as ->.
  { intros slots l. destruct slots as [|slot slots]; [done|]. cbn [collect_adj]. rewrite length_take.
    rewrite (proj2 (Z.ltb_lt 0 limit) Hl). case_match eqn:E; [done|]. cbn in E. apply Z.leb_gt in E. lia. }
  destruct (collect_prefix st n labels skip s true (adj_slots (ms_adj_in st) n) results loops) as (more & -> & _).
  by rewrite take_app_le by lia.
Qed.

Lemma adjacent_elem skip n dir labels s nb :
  nb ∈ adjacent skip st n dir labels 0 s <-> node_deleted_at st n s = false /\ incident skip n dir labels s nb.
Proof.
  rewrite adjacent_expansion. destruct (node_deleted_at st n s).
  - split; [by intros ?%not_elem_of_nil | by intros []].
  - rewrite expansion_elem. naive_solver.
Qed.

Lemma adjacent_nodup skip n dir labels s : NoDup (nb_edge_id <$> adjacent skip st n dir labels 0 s).
Proof.
  rewrite adjacent_expansion. destruct (node_deleted_at st n s); [constructor|]. rewrite <- list_fmap_compose. apply expansion_nodup.
Qed.
(** C25.  Neighbour expansion is exact: at any snapshot and for either direction or
    both, the records returned for a node that is not deleted are precisely the
    views of its live incident edges that pass the label filter (and, for
    [neighbors_at], whose other end is not deleted), each edge once -- a self
    loop too, when both directions are asked for -- and a limit returns a prefix
    of the full answer. *)
Theorem neighbors_exact skip n dir labels s :
  NoDup (nb_edge_id <$> adjacent skip st n dir labels 0 s)
  /\ (forall nb, nb ∈ adjacent skip st n dir labels 0 s
        <-> node_deleted_at st n s = false /\ incident skip n dir labels s nb)
  /\ (forall limit, 0 < limit ->
        adjacent skip st n dir labels limit s = take (Z.to_nat limit) (adjacent skip st n dir labels 0 s)).
Proof.
  split; [apply adjacent_nodup|split; [intros nb; apply adjacent_elem|intros limit; apply adjacent_limit]].
Qed.
End Neighbors.
