(* ===== verification/MemtableWitness.v ===== *)
(** A concrete run of the memtable, and the theorems about runs applied to it. *)
From S2P Require Import Prelude Types Encoding PropertyValue CompoundKey Slots Memtable MemtableCells MemtableSteps MemtableFacts MemtableEdges MemtableReads MemtableSnapshots MemtableReadFacts MemtableKeys MemtableNeighbors.

Module MemtableWitness.
Definition rmp : RmpValue := {| rmp_value_to_vec _ := [] |}.
#[local] Existing Instance rmp.
Definition hash_order : HashOrder := {| hash_iter K _ _ V m := map_to_list m |}.
#[local] Existing Instance hash_order.
Lemma hash_order_laws : HashOrderLaws.
Proof. by split. Qed.
#[local] Existing Instance hash_order_laws.

Definition node (id : Z) (labels : list Z) (key : String.string) (updated_at : Z) : NodeRecord :=
  mkNodeRecord id (NodeLabels.mk labels) (str_of key) [] 5 updated_at 0 None None 0.
Definition edge (id from to label_id : Z) : EdgeRecord :=
  mkEdgeRecord id from to label_id [] 5 5 0 0 i64_max 0.

(** Node 1 loses label 7 and node 2 is deleted after snapshot 6; edge 11 is a self loop. *)
Definition ops : list (Z * WalOp) :=
  [(1, UpsertNode (node 1 [3; 7] "a" 10)); (2, UpsertNode (node 2 [3] "b" 20));
   (3, UpsertEdge (edge 10 1 2 4)); (4, UpsertEdge (edge 11 1 1 4)); (5, UpsertEdge (edge 12 2 1 5));
   (6, EnsureNodeLabel (str_of "Person") 3); (7, UpsertNode (node 1 [3] "a" 30)); (8, DeleteEdge 12 31);
   (9, DeleteNode 2 32)].
Definition st : MemtableState := default empty_state (apply_ops ops empty_state).

Lemma labels_wf ids : NodeLabels.canonical ids -> NodeLabels.wf (NodeLabels.mk ids).
Proof. by exists ids. Qed.

Lemma node_sample_ok id labels key t :
  u64 id -> NodeLabels.canonical labels -> Forall u32 labels -> utf8_valid (str_of key) = true -> i64 t ->
  node_ok (node id labels key t).
Proof.
  intros Hid Hc Hl Hk Ht. split; [|by repeat constructor].
  unfold node_wf. cbn [node nr_id nr_label_ids nr_key nr_created_at nr_updated_at nr_weight nr_dense_vector
    nr_sparse_vector]. rewrite NodeLabels.as_slice_mk.
  split_and!; try done. by apply labels_wf.
Qed.

Lemma fresh_empty : fresh empty_state.
Proof. by intros []. Qed.
Lemma run : apply_ops ops empty_state = Some st.
Proof. by vm_compute. Qed.
Lemma labels_sample : NodeLabels.canonical [3; 7] /\ NodeLabels.canonical [3].
Proof.
  unfold NodeLabels.canonical, MAX_NODE_LABELS_PER_NODE.
  split; (split_and!; [done | cbn; lia | repeat constructor | set_solver by lia]).
Qed.
Lemma edge_sample_ok id from to l : u64 id -> u64 from -> u64 to -> u32 l -> edge_ok (edge id from to l).
Proof. intros. split; [|by repeat constructor]. unfold edge_wf. by split_and!. Qed.

Lemma ops_sequenced : sequenced ops.
Proof.
  split; [by repeat constructor|].
  destruct labels_sample as [Hl Hl']. apply Forall_forall. intros o Ho. unfold ops in Ho.
  repeat (apply elem_of_cons in Ho as [->|Ho]; [split; [cbn [fst snd op_ok]; try done |done]|]);
    try (by apply edge_sample_ok); try (by apply not_elem_of_nil in Ho);
    apply node_sample_ok; try done; by repeat constructor.
Qed.

(** At snapshot 6 the deleted node is still there with all its edges. *)
Lemma snapshot_isolation_witness :
  sequenced ops /\ exists st_6, apply_ops (up_to 6 ops) empty_state = Some st_6
    /\ node_at st 2 6 = current_node st_6 2.
Proof.
  split; [exact ops_sequenced|].
  destruct (snapshot_isolation ops empty_state st fresh_empty ops_sequenced run 6) as (st_6 & E & Hr & _).
  exists st_6. split; [exact E | exact (proj1 (Hr 2))].
Defined.

Lemma memtable_indexes_coherent_witness :
  seen st 9 (LNodeTomb 2) = present /\ exists t, seen st 9 (LNode 2) = Some (VNode (Tombstone t)).
Proof.
  assert (seen st 9 (LNodeTomb 2) = present) as E by (vm_compute; reflexivity).
  split; [exact E|].
  destruct (memtable_indexes_coherent ops empty_state st fresh_empty ops_sequenced run 9) as [I _].
  apply (nv_deleted _ I). exact E.
Defined.

Lemma label_scan_witness :
  exists ids, visible_nodes_by_label_id st 7 6 = Some ids /\ 1 ∈ ids.
Proof.
  destruct (label_scan_exact ops empty_state st fresh_empty ops_sequenced run 7 6) as (ids & E & _ & Hin).
  exists ids. split; [exact E|]. apply Hin. eexists. split; [vm_compute; reflexivity | vm_compute; right; left].
Defined.

Lemma time_scan_witness :
  exists ids, visible_nodes_by_time_range st 3 10 30 9 = Some ids /\ 1 ∈ ids.
Proof.
  destruct (time_scan_exact ops empty_state st fresh_empty ops_sequenced run 3 10 30 9) as (ids & E & _ & _ & Hin).
  exists ids. split; [exact E|]. apply Hin.
  eexists. split; [vm_compute; reflexivity|]. split; [vm_compute; left | vm_compute; split; discriminate].
Defined.

Definition owner (l : Z) (k : str) : Z := if decide (k = str_of "a") then 1 else 2.
Lemma ops_keyed : Forall (fun o => keyed owner o.2) ops.
Proof. by repeat constructor. Qed.

Lemma key_lookup_witness :
  exists r, node_by_key_at st 3 (str_of "a") 9 = Some r /\ nr_updated_at r = 30.
Proof.
  eexists. split.
  - apply (key_lookup_exact ops empty_state st fresh_empty ops_sequenced run (keyed_unique owner ops empty_state fresh_empty ops_keyed) 3 (str_of "a") 9).
    exists 1. split; [vm_compute; reflexivity|]. split; [vm_compute; left | vm_compute; reflexivity].
  - vm_compute; reflexivity.
Defined.

(** Both directions from node 1: the self loop once. *)
Lemma neighbors_witness : NoDup (nb_edge_id <$> neighbors_at st 1 Both None 0 6).
Proof. apply (neighbors_exact ops empty_state st fresh_empty ops_sequenced run true 1 Both None 6). Defined.
Example neighbors_sample : nb_edge_id <$> neighbors_at st 1 Both None 0 6 = [11; 10; 12].
Proof. vm_compute. reflexivity. Qed.
End MemtableWitness.
