(* ===== verification/DegreeCache.v ===== *)
(** The degree cache (src/degree_cache.rs): per-node degree deltas, the sharded
    overlay of the live engine, and the [degree_delta.dat] sidecar of a segment. *)
From S2P Require Import Prelude Types Floats PropertyValue Wal Slots MemtableReads.

Definition DEGREE_OVERLAY_SHARD_COUNT : Z := 1024.
Definition DEGREE_OVERLAY_GROUP_SIZE : Z := 128.
Definition DEGREE_OVERLAY_GROUP_COUNT : Z := 8.

Definition DEGREE_DELTA_MAGIC : list byte := str_of "OGDDLT01".
Definition DEGREE_DELTA_FORMAT_VERSION : Z := 1.
Definition DEGREE_DELTA_BLOCK_SIZE : Z := 256.
Definition HEADER_SIZE : Z := 32.
Definition BLOCK_INDEX_ENTRY_SIZE : Z := 16.
Definition DELTA_ENTRY_SIZE : Z := 64.
Definition CRC_SIZE : Z := 4.

(** [i64] addition and negation wrap. *)
Definition wrap_i64 (z : Z) : Z := of_bits 64 (to_bits 64 z).

(** ** Deltas: counters are [i64], weight sums [f64] bit patterns *)
Record DegreeDelta : Type := mkDelta {
  dd_out_degree : Z;
  dd_in_degree : Z;
  dd_out_weight_sum : Z;
  dd_in_weight_sum : Z;
  dd_self_loop_count : Z;
  dd_self_loop_weight_sum : Z;
  dd_temporal_edge_count : Z
}.
#[export] Instance DegreeDelta_eq_dec : EqDecision DegreeDelta.
Proof. solve_decision. Defined.

Module Delta.
Definition ZERO : DegreeDelta := mkDelta 0 0 0 0 0 0 0.

Definition is_zero (d : DegreeDelta) : bool :=
  (dd_out_degree d =? 0) && (dd_in_degree d =? 0)
  && Floats.is_zero F64 (dd_out_weight_sum d) && Floats.is_zero F64 (dd_in_weight_sum d)
  && (dd_self_loop_count d =? 0) && Floats.is_zero F64 (dd_self_loop_weight_sum d)
  && (dd_temporal_edge_count d =? 0).

Definition add_assign_delta (self other : DegreeDelta) : DegreeDelta :=
  mkDelta (wrap_i64 (dd_out_degree self + dd_out_degree other))
    (wrap_i64 (dd_in_degree self + dd_in_degree other))
    (f64_add (dd_out_weight_sum self) (dd_out_weight_sum other))
    (f64_add (dd_in_weight_sum self) (dd_in_weight_sum other))
    (wrap_i64 (dd_self_loop_count self + dd_self_loop_count other))
    (f64_add (dd_self_loop_weight_sum self) (dd_self_loop_weight_sum other))
    (wrap_i64 (dd_temporal_edge_count self + dd_temporal_edge_count other)).

Definition add_valid_edge (from to weight : Z) : DegreeDelta :=
  let weight := f32_to_f64 weight in
  if from =? to then mkDelta 1 1 weight weight 1 weight 0
  else mkDelta 1 0 weight 0 0 0 0.
Definition add_valid_edge_incoming (weight : Z) : DegreeDelta := mkDelta 0 1 0 (f32_to_f64 weight) 0 0 0.

Definition negate (d : DegreeDelta) : DegreeDelta :=
  mkDelta (wrap_i64 (- dd_out_degree d)) (wrap_i64 (- dd_in_degree d))
    (f64_neg (dd_out_weight_sum d)) (f64_neg (dd_in_weight_sum d))
    (wrap_i64 (- dd_self_loop_count d)) (f64_neg (dd_self_loop_weight_sum d))
    (wrap_i64 (- dd_temporal_edge_count d)).

Definition remove_valid_edge (from to weight : Z) : DegreeDelta := negate (add_valid_edge from to weight).
Definition remove_valid_edge_incoming (weight : Z) : DegreeDelta := negate (add_valid_edge_incoming weight).
Definition add_temporal_marker : DegreeDelta := mkDelta 0 0 0 0 0 0 1.
Definition remove_temporal_marker : DegreeDelta := mkDelta 0 0 0 0 0 0 (-1).
End Delta.

(** ** The entry a reader sees: counters are [u32], floored at zero *)
Record DegreeEntry : Type := mkEntry {
  de_out_degree : Z;
  de_in_degree : Z;
  de_out_weight_sum : Z;
  de_in_weight_sum : Z;
  de_self_loop_count : Z;
  de_self_loop_weight_sum : Z;
  de_temporal_edge_count : Z
}.

Definition saturating_i64_to_u32 (value : Z) : Z := if value <=? 0 then 0 else Z.min value u32_max.

Definition apply_delta (delta : DegreeDelta) : DegreeEntry :=
  let out_degree := saturating_i64_to_u32 (dd_out_degree delta) in
  let in_degree := saturating_i64_to_u32 (dd_in_degree delta) in
  let self_loop_count := saturating_i64_to_u32 (dd_self_loop_count delta) in
  mkEntry out_degree in_degree
    (if out_degree =? 0 then 0 else dd_out_weight_sum delta)
    (if in_degree =? 0 then 0 else dd_in_weight_sum delta)
    self_loop_count
    (if self_loop_count =? 0 then 0 else dd_self_loop_weight_sum delta)
    (saturating_i64_to_u32 (dd_temporal_edge_count delta)).

(** ** The overlay: 8 groups of 128 shards, each a map from node ids.  The
    copy-on-write pointers do not show in the values, except in [finish],
    which cleans only the shards no other snapshot holds; [owned] says which. *)
Abbreviation DegreeOverlayShard := (gmap Z DegreeDelta).
Abbreviation DegreeOverlaySnapshot := (list (list DegreeOverlayShard)).

Module Overlay.
Definition empty : DegreeOverlaySnapshot :=
  replicate (Z.to_nat DEGREE_OVERLAY_GROUP_COUNT) (replicate (Z.to_nat DEGREE_OVERLAY_GROUP_SIZE) ∅).

Definition degree_overlay_shard_index (node_id : Z) : Z := Z.land node_id (DEGREE_OVERLAY_SHARD_COUNT - 1).
Definition group_index (node_id : Z) : nat := Z.to_nat (degree_overlay_shard_index node_id / DEGREE_OVERLAY_GROUP_SIZE).
Definition local_index (node_id : Z) : nat := Z.to_nat (degree_overlay_shard_index node_id mod DEGREE_OVERLAY_GROUP_SIZE).

(** Indexing out of range panics; it never happens on the 8 by 128 layout. *)
Definition shard_of (groups : DegreeOverlaySnapshot) (node_id : Z) : option DegreeOverlayShard :=
  group ← groups !! group_index node_id; group !! local_index node_id.
Definition get (groups : DegreeOverlaySnapshot) (node_id : Z) : option DegreeDelta :=
  shard ← shard_of groups node_id; Some (default Delta.ZERO (shard !! node_id)).

Definition put_shard (groups : DegreeOverlaySnapshot) (node_id : Z) (shard : DegreeOverlayShard)
  : DegreeOverlaySnapshot := alter (<[local_index node_id := shard]>) (group_index node_id) groups.

(** [entry(..).or_insert(ZERO)], add, and remove when the sum is zero: shared by
    the overlay and by the engine's map of deltas. *)
Definition add_to_map (entries : gmap Z DegreeDelta) (node_id : Z) (delta : DegreeDelta) : gmap Z DegreeDelta :=
  if Delta.is_zero delta then entries
  else
    let entry := Delta.add_assign_delta (default Delta.ZERO (entries !! node_id)) delta in
    if Delta.is_zero entry then delete node_id entries else <[node_id := entry]> entries.

Definition add_delta (groups : DegreeOverlaySnapshot) (node_id : Z) (delta : DegreeDelta)
  : option DegreeOverlaySnapshot :=
  if Delta.is_zero delta then Some groups
  else
    shard ← shard_of groups node_id;
    Some (put_shard groups node_id (add_to_map shard node_id delta)).

Definition finish (owned : nat -> nat -> bool) (groups : DegreeOverlaySnapshot) : DegreeOverlaySnapshot :=
  imap (fun g group => imap (fun s (shard : DegreeOverlayShard) =>
    if owned g s then filter (fun e : Z * DegreeDelta => Delta.is_zero e.2 = false) shard else shard) group) groups.

Definition add_all (groups : DegreeOverlaySnapshot) (entries : list (Z * DegreeDelta)) : option DegreeOverlaySnapshot :=
  foldl (fun groups e => groups ← groups; add_delta groups e.1 e.2) (Some groups) entries.

Section Sorted.
Context `{HashOrder}.
Definition sorted_entries (groups : DegreeOverlaySnapshot) : list (Z * DegreeDelta) :=
  merge_sort entry_le
    (concat (map (fun group => concat (map (fun shard =>
       filter (fun e : Z * DegreeDelta => Delta.is_zero e.2 = false) (hash_iter shard)) group)) groups)).
End Sorted.
End Overlay.

(** ** The sidecar *)
Definition encode_entry (e : Z * DegreeDelta) : list byte :=
  let '(node_id, delta) := e in
  le_bytes 8 node_id
  ++ le_bytes 8 (dd_out_degree delta) ++ le_bytes 8 (dd_in_degree delta)
  ++ le_bytes 8 (dd_out_weight_sum delta) ++ le_bytes 8 (dd_in_weight_sum delta)
  ++ le_bytes 8 (dd_self_loop_count delta) ++ le_bytes 8 (dd_self_loop_weight_sum delta)
  ++ le_bytes 8 (dd_temporal_edge_count delta).

Definition div_ceil (a b : Z) : Z := (a + b - 1) / b.

Definition sidecar_header (entry_count block_count : Z) : list byte :=
  DEGREE_DELTA_MAGIC ++ le_bytes 4 DEGREE_DELTA_FORMAT_VERSION ++ le_bytes 4 DEGREE_DELTA_BLOCK_SIZE
  ++ le_bytes 8 entry_count ++ le_bytes 8 block_count.

Definition encode_block (entries : list (Z * DegreeDelta)) (block_index : Z) : list byte :=
  let entry_start := block_index * DEGREE_DELTA_BLOCK_SIZE in
  le_bytes 8 (nth (Z.to_nat entry_start) entries (0, Delta.ZERO)).1 ++ le_bytes 8 entry_start.

Section Sidecar.
Context `{Crc32}.

Definition with_crc (bytes : list byte) : list byte := bytes ++ le_bytes 4 (crc32_hash bytes).

Definition encode_sorted_degree_delta_sidecar_unchecked (entries : list (Z * DegreeDelta)) : list byte :=
  let entry_count := len entries in
  let block_count := if entry_count =? 0 then 0 else div_ceil entry_count DEGREE_DELTA_BLOCK_SIZE in
  with_crc (sidecar_header entry_count block_count
    ++ mjoin ((fun i : nat => encode_block entries (Z.of_nat i)) <$> seq 0 (Z.to_nat block_count))
    ++ mjoin (encode_entry <$> entries)).

Fixpoint validate_sorted_from (previous_node_id : option Z) (entries : list (Z * DegreeDelta)) : res unit :=
  match entries with
  | [] => Ok tt
  | (node_id, delta) :: entries =>
      if Delta.is_zero delta then
        Err (InvalidOperation "sorted degree sidecar entries must not include zero deltas")
      else if match previous_node_id with Some previous => node_id <=? previous | None => false end then
        Err (InvalidOperation "sorted degree sidecar entries must be strictly ordered by node id")
      else validate_sorted_from (Some node_id) entries
  end.
Definition validate_sorted_degree_delta_entries (entries : list (Z * DegreeDelta)) : res unit :=
  validate_sorted_from None entries.

(** What is written to the component's writer. *)
Definition write_sorted_degree_delta_sidecar_payload (entries : list (Z * DegreeDelta)) : res (list byte) :=
  _ ← validate_sorted_degree_delta_entries entries;
  Ok (encode_sorted_degree_delta_sidecar_unchecked entries).

(** ** Reading *)
(** The bytes [start..stop], by byte offset. *)
Definition zslice (start stop : Z) (data : list byte) : list byte := slice (Z.to_nat start) (Z.to_nat stop) data.

Definition read_u32_at (data : list byte) (offset : Z) : res Z :=
  if u64_max <? offset + 4 then Err (CorruptRecord "degree sidecar u32 offset overflow")
  else if len data <? offset + 4 then Err (CorruptRecord "degree sidecar u32 read exceeds length")
  else Ok (le_val (zslice offset (offset + 4) data)).
Definition read_u64_at (data : list byte) (offset : Z) : res Z :=
  if u64_max <? offset + 8 then Err (CorruptRecord "degree sidecar u64 offset overflow")
  else if len data <? offset + 8 then Err (CorruptRecord "degree sidecar u64 read exceeds length")
  else Ok (le_val (zslice offset (offset + 8) data)).

Record DegreeSidecarShape : Type := mkShape { sh_entry_count : Z; sh_block_count : Z }.

(** [checked_add] and [checked_mul] on [usize]. *)
Definition checked_usize (z : Z) : option Z := if z <=? u64_max then Some z else None.
Definition ok_or {A} (o : option A) (e : EngineError) : res A := match o with Some a => Ok a | None => Err e end.

Definition validate_degree_sidecar_shape (data : list byte) : res DegreeSidecarShape :=
  if len data <? HEADER_SIZE + CRC_SIZE then Err (CorruptRecord "degree sidecar is smaller than header")
  else if negb (bool_decide (zslice 0 8 data = DEGREE_DELTA_MAGIC)) then
    Err (CorruptRecord "degree sidecar magic mismatch")
  else
    format_version ← read_u32_at data 8;
    if negb (format_version =? DEGREE_DELTA_FORMAT_VERSION) then
      Err (CorruptRecord "unsupported degree sidecar version")
    else
    block_size ← read_u32_at data 12;
    if negb (block_size =? DEGREE_DELTA_BLOCK_SIZE) then
      Err (CorruptRecord "unsupported degree sidecar block size")
    else
    entry_count ← read_u64_at data 16;
    block_count ← read_u64_at data 24;
    let expected_block_count := if entry_count =? 0 then 0 else div_ceil entry_count DEGREE_DELTA_BLOCK_SIZE in
    if negb (block_count =? expected_block_count) then
      Err (CorruptRecord "degree sidecar block count does not match entry count")
    else
    index_len ← ok_or (checked_usize (block_count * BLOCK_INDEX_ENTRY_SIZE))
                  (CorruptRecord "degree sidecar block index length overflow");
    entries_start ← ok_or (checked_usize (HEADER_SIZE + index_len))
                      (CorruptRecord "degree sidecar entries offset overflow");
    entries_len ← ok_or (checked_usize (entry_count * DELTA_ENTRY_SIZE))
                    (CorruptRecord "degree sidecar entries length overflow");
    expected_len ← ok_or (l ← checked_usize (entries_start + entries_len); checked_usize (l + CRC_SIZE))
                     (CorruptRecord "degree sidecar length overflow");
    if negb (len data =? expected_len) then Err (CorruptRecord "degree sidecar length does not match expected")
    else Ok (mkShape entry_count block_count).

Definition sidecar_entry_offset (block_count index : Z) : Z :=
  HEADER_SIZE + block_count * BLOCK_INDEX_ENTRY_SIZE + index * DELTA_ENTRY_SIZE.
Definition i64_from_le (bytes : list byte) : Z := of_bits 64 (le_val bytes).
Definition read_sidecar_entry_node_id (data : list byte) (block_count index : Z) : Z :=
  let offset := sidecar_entry_offset block_count index in le_val (zslice offset (offset + 8) data).
Definition read_sidecar_entry_delta (data : list byte) (block_count index : Z) : DegreeDelta :=
  let offset := sidecar_entry_offset block_count index in
  mkDelta (i64_from_le (zslice (offset + 8) (offset + 16) data))
    (i64_from_le (zslice (offset + 16) (offset + 24) data))
    (le_val (zslice (offset + 24) (offset + 32) data))
    (le_val (zslice (offset + 32) (offset + 40) data))
    (i64_from_le (zslice (offset + 40) (offset + 48) data))
    (le_val (zslice (offset + 48) (offset + 56) data))
    (i64_from_le (zslice (offset + 56) (offset + 64) data)).

(** The entry loop of [validate_degree_sidecar], from [index] on. *)
Fixpoint validate_entries (n : nat) (data : list byte) (block_count index : Z) (prev_node_id : option Z) : res unit :=
  match n with
  | O => Ok tt
  | S n =>
      let node_id := read_sidecar_entry_node_id data block_count index in
      if match prev_node_id with Some prev => node_id <=? prev | None => false end then
        Err (CorruptRecord "degree sidecar node IDs are not strictly sorted")
      else if Delta.is_zero (read_sidecar_entry_delta data block_count index) then
        Err (CorruptRecord "degree sidecar contains zero delta")
      else validate_entries n data block_count (index + 1) (Some node_id)
  end.

(** The block loop. *)
Fixpoint validate_blocks (n : nat) (data : list byte) (entry_count block_count block_index : Z) : res unit :=
  match n with
  | O => Ok tt
  | S n =>
      let index_offset := HEADER_SIZE + block_index * BLOCK_INDEX_ENTRY_SIZE in
      first_node_id ← read_u64_at data index_offset;
      entry_start ← read_u64_at data (index_offset + 8);
      if negb (entry_start =? block_index * DEGREE_DELTA_BLOCK_SIZE) then
        Err (CorruptRecord "degree sidecar block starts at the wrong entry")
      else if entry_count <=? entry_start then
        Err (CorruptRecord "degree sidecar block start exceeds entry count")
      else if negb (first_node_id =? read_sidecar_entry_node_id data block_count entry_start) then
        Err (CorruptRecord "degree sidecar block first node does not match entry")
      else validate_blocks n data entry_count block_count (block_index + 1)
  end.

Definition validate_degree_sidecar (data : list byte) : res unit :=
  shape ← validate_degree_sidecar_shape data;
  stored_crc ← read_u32_at data (len data - CRC_SIZE);
  if negb (stored_crc =? crc32_hash (zslice 0 (len data - CRC_SIZE) data)) then
    Err (CorruptRecord "degree sidecar CRC mismatch")
  else
    _ ← validate_entries (Z.to_nat (sh_entry_count shape)) data (sh_block_count shape) 0 None;
    validate_blocks (Z.to_nat (sh_block_count shape)) data (sh_entry_count shape) (sh_block_count shape) 0.

(** An opened sidecar: its payload and the shape checked on opening. *)
Record DegreeSidecar : Type := mkSidecar {
  sc_payload : list byte;
  sc_entry_count : Z;
  sc_block_count : Z
}.
Definition open_payload (payload : list byte) : res DegreeSidecar :=
  shape ← validate_degree_sidecar_shape payload;
  Ok (mkSidecar payload (sh_entry_count shape) (sh_block_count shape)).

Definition block_first_node_id (s : DegreeSidecar) (block_index : Z) : Z :=
  let offset := HEADER_SIZE + block_index * BLOCK_INDEX_ENTRY_SIZE in
  le_val (zslice offset (offset + 8) (sc_payload s)).

(** The two binary searches of [lookup], on what they read at an index. *)
Fixpoint upper_block (fuel : nat) (first : Z -> Z) (node_id lo hi : Z) : Z :=
  match fuel with
  | O => lo
  | S fuel =>
      if lo <? hi then
        let mid := lo + (hi - lo) / 2 in
        if first mid <=? node_id then upper_block fuel first node_id (mid + 1) hi
        else upper_block fuel first node_id lo mid
      else lo
  end.
Fixpoint find_entry (fuel : nat) (entry_id : Z -> Z) (node_id lo hi : Z) : option Z :=
  match fuel with
  | O => None
  | S fuel =>
      if lo <? hi then
        let mid := lo + (hi - lo) / 2 in
        match entry_id mid ?= node_id with
        | Lt => find_entry fuel entry_id node_id (mid + 1) hi
        | Gt => find_entry fuel entry_id node_id lo mid
        | Eq => Some mid
        end
      else None
  end.
Definition saturating_usize (z : Z) : Z := Z.min z u64_max.

Definition lookup (s : DegreeSidecar) (node_id : Z) : DegreeDelta :=
  if (sc_entry_count s =? 0) || (sc_block_count s =? 0) then Delta.ZERO
  else
    let lo := upper_block (S (Z.to_nat (sc_block_count s))) (block_first_node_id s) node_id 0 (sc_block_count s) in
    if lo =? 0 then Delta.ZERO
    else
      let start := (lo - 1) * DEGREE_DELTA_BLOCK_SIZE in
      let stop := Z.min (saturating_usize (start + DEGREE_DELTA_BLOCK_SIZE)) (sc_entry_count s) in
      match find_entry (S (Z.to_nat (stop - start)))
              (read_sidecar_entry_node_id (sc_payload s) (sc_block_count s)) node_id start stop with
      | Some mid => read_sidecar_entry_delta (sc_payload s) (sc_block_count s) mid
      | None => Delta.ZERO
      end.

Definition entry_at (s : DegreeSidecar) (index : Z) : option (Z * DegreeDelta) :=
  if sc_entry_count s <=? index then None
  else Some (read_sidecar_entry_node_id (sc_payload s) (sc_block_count s) index,
             read_sidecar_entry_delta (sc_payload s) (sc_block_count s) index).

(** ** Folding the sidecars of a compaction *)
Record DegreeSidecarCursor : Type := mkCursor { cu_sidecar : DegreeSidecar; cu_index : Z }.
Definition cursor_current (c : DegreeSidecarCursor) : option (Z * DegreeDelta) := entry_at (cu_sidecar c) (cu_index c).

(** The heap holds a node id and a cursor index; [pop] takes the least of the
    reversed order: the smallest node id, then the smallest cursor. *)
Record HeapEntry : Type := mkHeapEntry { he_node_id : Z; he_cursor_index : nat }.
Definition heap_lt (a b : HeapEntry) : bool :=
  (he_node_id a <? he_node_id b)
  || (he_node_id a =? he_node_id b) && (he_cursor_index a <? he_cursor_index b)%nat.
(** The heap as the list of its entries, in any order. *)
Fixpoint heap_pop (heap : list HeapEntry) : option (HeapEntry * list HeapEntry) :=
  match heap with
  | [] => None
  | e :: heap =>
      match heap_pop heap with
      | None => Some (e, [])
      | Some (m, rest) => if heap_lt m e then Some (m, e :: rest) else Some (e, m :: rest)
      end
  end.

Definition FoldState : Type := list DegreeSidecarCursor * list HeapEntry.

Definition consume_degree_cursor (st : FoldState) (cursor_index : nat) (sum : DegreeDelta)
  : option (FoldState * DegreeDelta) :=
  let '(cursors, heap) := st in
  cursor ← cursors !! cursor_index;
  match cursor_current cursor with
  | None => Some (st, sum)
  | Some (_, delta) =>
      let cursor := mkCursor (cu_sidecar cursor) (cu_index cursor + 1) in
      let heap := match cursor_current cursor with
                  | Some (next_node_id, _) => mkHeapEntry next_node_id cursor_index :: heap
                  | None => heap
                  end in
      Some ((<[cursor_index := cursor]> cursors, heap), Delta.add_assign_delta sum delta)
  end.

(** The inner loop: every heap entry of the same node. *)
Fixpoint consume_node (fuel : nat) (node_id : Z) (st : FoldState) (sum : DegreeDelta)
  : option (FoldState * DegreeDelta) :=
  match fuel with
  | O => None
  | S fuel =>
      match heap_pop st.2 with
      | Some (entry, heap) =>
          if he_node_id entry =? node_id then
            '(st, sum) ← consume_degree_cursor (st.1, heap) (he_cursor_index entry) sum;
            consume_node fuel node_id st sum
          else Some (st, sum)
      | None => Some (st, sum)
      end
  end.

Fixpoint fold_loop (fuel : nat) (st : FoldState) : option (list (Z * DegreeDelta)) :=
  match fuel with
  | O => None
  | S fuel =>
      match heap_pop st.2 with
      | None => Some []
      | Some (first, heap) =>
          '(st, sum) ← consume_degree_cursor (st.1, heap) (he_cursor_index first) Delta.ZERO;
          '(st, sum) ← consume_node fuel (he_node_id first) st sum;
          rest ← fold_loop fuel st;
          Some (if Delta.is_zero sum then rest else (he_node_id first, sum) :: rest)
      end
  end.

Definition initial_heap (cursors : list DegreeSidecarCursor) : list HeapEntry :=
  mjoin (imap (fun i cursor => match cursor_current cursor with
                               | Some (node_id, _) => [mkHeapEntry node_id i]
                               | None => []
                               end) cursors).

Definition fold_fuel (sidecars : list DegreeSidecar) : nat :=
  S (Z.to_nat (foldr Z.add 0 (sc_entry_count <$> sidecars))).

(** The entries [for_each_folded_degree_entry] emits. *)
Definition for_each_folded_degree_entry (sidecars : list DegreeSidecar) : option (list (Z * DegreeDelta)) :=
  let cursors := (fun s => mkCursor s 0) <$> sidecars in
  fold_loop (fold_fuel sidecars) (cursors, initial_heap cursors).

Fixpoint validate_all (sidecars : list DegreeSidecar) : res unit :=
  match sidecars with
  | [] => Ok tt
  | s :: sidecars => _ ← validate_degree_sidecar (sc_payload s); validate_all sidecars
  end.

(** The first pass collects the block index, the second emits the entries. *)
Fixpoint block_index_of (entry_count : Z) (entries : list (Z * DegreeDelta)) : list (Z * Z) :=
  match entries with
  | [] => []
  | (node_id, _) :: entries =>
      (if entry_count mod DEGREE_DELTA_BLOCK_SIZE =? 0 then [(node_id, entry_count)] else [])
      ++ block_index_of (entry_count + 1) entries
  end.

Definition write_folded_degree_delta_sidecar_payload_from_sidecars (sidecars : list DegreeSidecar)
  : option (res (list byte)) :=
  match validate_all sidecars with
  | Err e => Some (Err e)
  | Ok _ =>
      entries ← for_each_folded_degree_entry sidecars;
      let block_index := block_index_of 0 entries in
      Some (Ok (with_crc (sidecar_header (len entries) (len block_index)
        ++ mjoin ((fun b : Z * Z => le_bytes 8 b.1 ++ le_bytes 8 b.2) <$> block_index)
        ++ mjoin (encode_entry <$> entries))))
  end.
End Sidecar.
