(* ===== verification/DegreeLookup.v ===== *)
(** The degree sidecar: its byte layout; validation accepts exactly the
    encodings, and [lookup] on an opened encoding finds the entry of a node. *)
From S2P Require Import Prelude Types Floats PropertyValue Wal Slots MemtableReads DegreeCache.

(** ** Slices *)
Lemma slice_app_r a b (p d : list byte) : slice (length p + a) (length p + b) (p ++ d) = slice a b d.
Proof.
  unfold slice. rewrite drop_app_ge by lia. f_equal; [lia|]. f_equal. lia.
Qed.
Lemma slice_app_l a b (p d : list byte) : (a <= b <= length p)%nat -> slice a b (p ++ d) = slice a b p.
Proof.
  intros Hab. unfold slice. rewrite drop_app_le by lia. rewrite take_app_le; [done|]. rewrite length_drop. lia.
Qed.
Lemma slice_full (p : list byte) n : n = length p -> slice 0 n p = p.
Proof. intros ->. unfold slice. rewrite drop_0. apply take_ge. lia. Qed.
Lemma slice_slice a b c d (p : list byte) : (b <= d - c)%nat -> slice a b (slice c d p) = slice (c + a) (c + b) p.
Proof.
  intros Hb. unfold slice. rewrite skipn_firstn_comm, drop_drop, take_take. f_equal. lia.
Qed.
Lemma length_slice a b (p : list byte) : (b <= length p)%nat -> length (slice a b p) = (b - a)%nat.
Proof. intros Hb. unfold slice. rewrite length_take, length_drop. lia. Qed.
Lemma slice_split a b c (p : list byte) : (a <= b <= c)%nat -> slice a b p ++ slice b c p = slice a c p.
Proof.
  intros Habc. unfold slice. replace (c - a)%nat with ((b - a) + (c - b))%nat by lia.
  rewrite <- (take_take_drop (drop a p)). f_equal. rewrite drop_drop. do 2 f_equal. lia.
Qed.

Lemma slice_mjoin {A} (f : A -> list byte) k l i x :
  (forall y, length (f y) = k) -> l !! i = Some x -> slice (k * i) (k * i + k) (mjoin (f <$> l)) = f x.
Proof.
  intros Hk. revert i. induction l as [|y l IH]; intros i Hi; [done|]. rewrite join_fmap_cons.
  destruct i as [|i]; cbn in Hi.
  - injection Hi as ->. rewrite Nat.mul_0_r, slice_app_l by (rewrite Hk; lia). apply slice_full. rewrite Hk. lia.
  - replace (k * S i)%nat with (length (f y) + k * i)%nat by (rewrite Hk; lia).
    rewrite <- Nat.add_assoc, slice_app_r. by apply IH.
Qed.

Lemma mjoin_slices k n (d : list byte) :
  length d = (k * n)%nat -> mjoin ((fun i => slice (k * i) (k * i + k) d) <$> seq 0 n) = d.
Proof.
  revert d. induction n as [|n IH]; intros d Hd; [rewrite Nat.mul_0_r in Hd; by apply nil_length_inv in Hd as ->|].
  cbn [seq]. rewrite join_fmap_cons, <- fmap_S_seq, <- list_fmap_compose.
  rewrite <- (take_drop k d) at 2. f_equal.
  - unfold slice. rewrite Nat.mul_0_r, drop_0. f_equal. lia.
  - rewrite <- (IH (drop k d)) at 1 by (rewrite length_drop; lia). f_equal. apply list_fmap_ext.
    intros ? i _. cbn. unfold slice. rewrite drop_drop. f_equal; [lia|]. f_equal. lia.
Qed.

Lemma length_mjoin_const {A} (f : A -> list byte) k l :
  (forall y, length (f y) = k) -> length (mjoin (f <$> l)) = (k * length l)%nat.
Proof.
  intros Hk. induction l as [|x l IH]; [cbn; lia|]. rewrite join_fmap_cons, length_app, IH, Hk. cbn. lia.
Qed.

(** ** Integers in eight bytes *)
Lemma le_val_u64 z : u64 z -> le_val (le_bytes 8 z) = z.
Proof. intros Hz. rewrite le_val_le_bytes. apply Z.mod_small. exact Hz. Qed.
Lemma i64_le_bytes z : i64 z -> i64_from_le (le_bytes 8 z) = z.
Proof. intros Hz. unfold i64_from_le. rewrite le_val_le_bytes. by apply of_to_bits_64. Qed.
Lemma i64_from_le_range bs : length bs = 8%nat -> i64 (i64_from_le bs).
Proof.
  intros Hl. pose proof (le_val_range bs) as Hr. rewrite Hl in Hr. unfold i64_from_le, of_bits, i64 in *.
  destruct (Z.ltb_spec (le_val bs) (2 ^ (64 - 1))); cbn in *; lia.
Qed.
Lemma le_val_u64_range bs : length bs = 8%nat -> u64 (le_val bs).
Proof. intros Hl. pose proof (le_val_range bs) as Hr. rewrite Hl in Hr. exact Hr. Qed.
Lemma le_bytes_i64 bs : length bs = 8%nat -> le_bytes 8 (i64_from_le bs) = bs.
Proof.
  intros Hl. rewrite <- (le_bytes_le_val bs) at 2. rewrite Hl.
  assert (forall n a k, le_bytes n (a - k * 2 ^ (8 * Z.of_nat n)) = le_bytes n a) as Hmod.
  { clear. induction n as [|n IH]; intros a k; [done|]. cbn [le_bytes].
    rewrite Nat2Z.inj_succ. replace (8 * Z.succ (Z.of_nat n)) with (8 + 8 * Z.of_nat n) by lia.
    rewrite Z.pow_add_r by lia. change (2 ^ 8) with 256.
    replace (a - k * (256 * 2 ^ (8 * Z.of_nat n))) with (a + (- (k * 2 ^ (8 * Z.of_nat n))) * 256) by lia.
    f_equal.
    - unfold z2b. by rewrite Z.mod_add by lia.
    - rewrite Z.div_add by lia. rewrite <- (IH (a / 256) k). f_equal; lia. }
  unfold i64_from_le, of_bits. destruct (_ <? _); [done|].
  apply (Hmod 8%nat (le_val bs) 1).
Qed.

(** ** One entry *)
Definition delta_ok (d : DegreeDelta) : Prop :=
  i64 (dd_out_degree d) /\ i64 (dd_in_degree d) /\ u64 (dd_out_weight_sum d) /\ u64 (dd_in_weight_sum d)
  /\ i64 (dd_self_loop_count d) /\ u64 (dd_self_loop_weight_sum d) /\ i64 (dd_temporal_edge_count d).

Definition decode_entry (c : list byte) : Z * DegreeDelta :=
  (le_val (slice 0 8 c),
   mkDelta (i64_from_le (slice 8 16 c)) (i64_from_le (slice 16 24 c)) (le_val (slice 24 32 c))
     (le_val (slice 32 40 c)) (i64_from_le (slice 40 48 c)) (le_val (slice 48 56 c))
     (i64_from_le (slice 56 64 c))).

Lemma length_encode_entry e : length (encode_entry e) = 64%nat.
Proof. destruct e as [n d]. unfold encode_entry. by rewrite !length_app, !length_le_bytes. Qed.

Definition entry_fields (e : Z * DegreeDelta) : list Z :=
  [e.1; dd_out_degree e.2; dd_in_degree e.2; dd_out_weight_sum e.2; dd_in_weight_sum e.2;
   dd_self_loop_count e.2; dd_self_loop_weight_sum e.2; dd_temporal_edge_count e.2].

Lemma encode_entry_fields e : encode_entry e = mjoin (le_bytes 8 <$> entry_fields e).
Proof. destruct e as [n d]. unfold encode_entry, entry_fields. cbn [fmap list_fmap mjoin list_join fst snd]. by rewrite app_nil_r. Qed.

Lemma entry_field e i a b x :
  entry_fields e !! i = Some x -> a = (8 * i)%nat -> b = (8 * i + 8)%nat ->
  slice a b (encode_entry e) = le_bytes 8 x.
Proof. intros Hx -> ->. revert Hx. rewrite encode_entry_fields. apply slice_mjoin. apply length_le_bytes. Qed.

Lemma decode_encode_entry e : u64 e.1 -> delta_ok e.2 -> decode_entry (encode_entry e) = e.
Proof.
  intros Hn (H1 & H2 & H3 & H4 & H5 & H6 & H7). unfold decode_entry.
  rewrite (entry_field e 0 0 8 _ eq_refl eq_refl eq_refl), (entry_field e 1 8 16 _ eq_refl eq_refl eq_refl),
    (entry_field e 2 16 24 _ eq_refl eq_refl eq_refl), (entry_field e 3 24 32 _ eq_refl eq_refl eq_refl),
    (entry_field e 4 32 40 _ eq_refl eq_refl eq_refl), (entry_field e 5 40 48 _ eq_refl eq_refl eq_refl),
    (entry_field e 6 48 56 _ eq_refl eq_refl eq_refl), (entry_field e 7 56 64 _ eq_refl eq_refl eq_refl).
  rewrite !le_val_u64, !i64_le_bytes by done. by destruct e as [n []].
Qed.

Lemma encode_decode_entry c : length c = 64%nat -> encode_entry (decode_entry c) = c.
Proof.
  intros Hl. unfold encode_entry, decode_entry. cbn [dd_out_degree dd_in_degree dd_out_weight_sum dd_in_weight_sum
    dd_self_loop_count dd_self_loop_weight_sum dd_temporal_edge_count].
  assert (forall a b, b = (a + 8)%nat -> (b <= 64)%nat -> length (slice a b c) = 8%nat) as H8
    by (intros a b -> Ha; rewrite length_slice; lia).
  assert (forall a b, b = (a + 8)%nat -> (b <= 64)%nat -> le_bytes 8 (le_val (slice a b c)) = slice a b c) as Hle.
  { intros a b Hb Ha. rewrite <- (H8 a b Hb Ha) at 1. apply le_bytes_le_val. }
  rewrite !le_bytes_i64 by (apply H8; lia).
  rewrite (Hle 0 8)%nat, (Hle 24 32)%nat, (Hle 32 40)%nat, (Hle 48 56)%nat by lia.
  rewrite !app_assoc, !slice_split by lia. apply slice_full. lia.
Qed.

Lemma decode_entry_ok c : length c = 64%nat -> u64 (decode_entry c).1 /\ delta_ok (decode_entry c).2.
Proof.
  intros Hl. unfold decode_entry, delta_ok. cbn [fst snd dd_out_degree dd_in_degree dd_out_weight_sum
    dd_in_weight_sum dd_self_loop_count dd_self_loop_weight_sum dd_temporal_edge_count].
  repeat (split; [first [apply i64_from_le_range | apply le_val_u64_range]; rewrite length_slice; lia|]).
  apply i64_from_le_range. rewrite length_slice; lia.
Qed.

Lemma delta_ok_add a b : delta_ok (Delta.add_assign_delta a b).
Proof.
  assert (forall z, i64 (wrap_i64 z)) as Hw.
  { intros z. unfold wrap_i64, of_bits, to_bits, i64. pose proof (Z.mod_pos_bound z (2 ^ 64) ltac:(lia)).
    destruct (Z.ltb_spec (z mod 2 ^ 64) (2 ^ (64 - 1))); cbn in *; lia. }
  unfold delta_ok, Delta.add_assign_delta. cbn [dd_out_degree dd_in_degree dd_out_weight_sum
    dd_in_weight_sum dd_self_loop_count dd_self_loop_weight_sum dd_temporal_edge_count].
  repeat (split; [first [apply Hw | apply f64_add_range]|]). apply Hw.
Qed.

(** ** The layout *)
Definition blocks_for (n : nat) : nat := Z.to_nat (if Z.of_nat n =? 0 then 0 else div_ceil (Z.of_nat n) DEGREE_DELTA_BLOCK_SIZE).

Lemma blocks_for_spec n :
  Z.of_nat (blocks_for n) = (if Z.of_nat n =? 0 then 0 else div_ceil (Z.of_nat n) DEGREE_DELTA_BLOCK_SIZE)
  /\ (256 * blocks_for n < n + 256)%nat /\ (n <= 256 * blocks_for n)%nat.
Proof.
  unfold blocks_for, div_ceil, DEGREE_DELTA_BLOCK_SIZE. destruct (Z.eqb_spec (Z.of_nat n) 0) as [E|E].
  - split_and!; cbn; lia.
  - pose proof (Z.div_mod (Z.of_nat n + 256 - 1) 256 ltac:(lia)).
    pose proof (Z.mod_pos_bound (Z.of_nat n + 256 - 1) 256 ltac:(lia)).
    assert (0 <= (Z.of_nat n + 256 - 1) / 256) by (apply Z.div_pos; lia). rewrite Z2Nat.id by lia.
    split_and!; lia.
Qed.

Lemma length_sidecar_header n b : length (sidecar_header n b) = 32%nat.
Proof. unfold sidecar_header. by rewrite !length_app, !length_le_bytes. Qed.
Lemma length_encode_block es i : length (encode_block es i) = 16%nat.
Proof. unfold encode_block. by rewrite length_app, !length_le_bytes. Qed.

Definition entry_offset (b i : nat) : nat := (32 + 16 * b + 64 * i)%nat.

Lemma zslice_nat a b data : zslice (Z.of_nat a) (Z.of_nat b) data = slice a b data.
Proof. unfold zslice. by rewrite !Nat2Z.id. Qed.
Lemma zslice_of a b x y data : a = Z.of_nat x -> b = Z.of_nat y -> zslice a b data = slice x y data.
Proof. intros -> ->. apply zslice_nat. Qed.

Lemma read_entry data b i :
  (read_sidecar_entry_node_id data (Z.of_nat b) (Z.of_nat i), read_sidecar_entry_delta data (Z.of_nat b) (Z.of_nat i))
  = decode_entry (slice (entry_offset b i) (entry_offset b i + 64) data).
Proof.
  unfold decode_entry. rewrite !slice_slice by lia.
  unfold read_sidecar_entry_node_id, read_sidecar_entry_delta, sidecar_entry_offset, HEADER_SIZE,
    BLOCK_INDEX_ENTRY_SIZE, DELTA_ENTRY_SIZE, entry_offset.
  cbv zeta. repeat f_equal; apply zslice_of; lia.
Qed.

Section Layout.
Context `{Crc32}.

(** A file laid out as header, [b] blocks, [n] entries and a checksum. *)
Record laid_out (b n : nat) (hdr blk ent crc : list byte) : Prop := {
  lo_hdr : length hdr = 32%nat;
  lo_blk : length blk = (16 * b)%nat;
  lo_ent : length ent = (64 * n)%nat
}.

Lemma slice_entries b n hdr blk ent crc x y :
  laid_out b n hdr blk ent crc -> (x <= y <= 64 * n)%nat ->
  slice (32 + 16 * b + x) (32 + 16 * b + y) (hdr ++ blk ++ ent ++ crc) = slice x y ent.
Proof.
  intros [H1 H2 H3] Hy.
  replace (32 + 16 * b + x)%nat with (length hdr + (length blk + x))%nat by lia.
  replace (32 + 16 * b + y)%nat with (length hdr + (length blk + y))%nat by lia.
  rewrite slice_app_r, slice_app_r. apply slice_app_l. lia.
Qed.
Lemma slice_blocks b n hdr blk ent crc x y :
  laid_out b n hdr blk ent crc -> (x <= y <= 16 * b)%nat ->
  slice (32 + x) (32 + y) (hdr ++ blk ++ ent ++ crc) = slice x y blk.
Proof. intros [H1 H2 H3] Hy. rewrite <- H1, slice_app_r. apply slice_app_l. lia. Qed.

Definition blocks_bytes (es : list (Z * DegreeDelta)) : list byte :=
  mjoin ((fun i : nat => encode_block es (Z.of_nat i)) <$> seq 0 (blocks_for (length es))).
Definition entries_bytes (es : list (Z * DegreeDelta)) : list byte := mjoin (encode_entry <$> es).
Definition header_bytes (es : list (Z * DegreeDelta)) : list byte :=
  sidecar_header (len es) (Z.of_nat (blocks_for (length es))).
Definition crc_bytes (es : list (Z * DegreeDelta)) : list byte :=
  le_bytes 4 (crc32_hash (header_bytes es ++ blocks_bytes es ++ entries_bytes es)).

Lemma encode_layout es :
  encode_sorted_degree_delta_sidecar_unchecked es
  = header_bytes es ++ blocks_bytes es ++ entries_bytes es ++ crc_bytes es.
Proof.
  destruct (blocks_for_spec (length es)) as [E _].
  unfold encode_sorted_degree_delta_sidecar_unchecked, with_crc. cbv zeta. rewrite <- E, Nat2Z.id.
  unfold crc_bytes. fold (header_bytes es) (blocks_bytes es) (entries_bytes es). by rewrite <- !app_assoc.
Qed.

Lemma encode_laid_out es :
  laid_out (blocks_for (length es)) (length es) (header_bytes es) (blocks_bytes es) (entries_bytes es) (crc_bytes es).
Proof.
  split.
  - apply length_sidecar_header.
  - unfold blocks_bytes. rewrite (length_mjoin_const _ 16), length_seq; [done|].
    intros. apply length_encode_block.
  - apply length_mjoin_const, length_encode_entry.
Qed.

Lemma length_encode es :
  length (encode_sorted_degree_delta_sidecar_unchecked es)
  = (32 + 16 * blocks_for (length es) + 64 * length es + 4)%nat.
Proof.
  rewrite encode_layout. destruct (encode_laid_out es) as [H1 H2 H3].
  rewrite !length_app, H1, H2, H3. unfold crc_bytes. rewrite length_le_bytes. lia.
Qed.

Definition entry_ok (e : Z * DegreeDelta) : Prop := u64 e.1 /\ delta_ok e.2 /\ Delta.is_zero e.2 = false.
(** What the writer accepts, with fields in their types and a file that fits
    the address space. *)
Record entries_ok (es : list (Z * DegreeDelta)) : Prop := {
  eo_sorted : StronglySorted Z.lt (fst <$> es);
  eo_entries : Forall entry_ok es;
  eo_fits : Z.of_nat (32 + 16 * blocks_for (length es) + 64 * length es + 4) <= u64_max
}.

Lemma read_encoded es i e :
  Forall entry_ok es -> es !! i = Some e ->
  (read_sidecar_entry_node_id (encode_sorted_degree_delta_sidecar_unchecked es)
     (Z.of_nat (blocks_for (length es))) (Z.of_nat i),
   read_sidecar_entry_delta (encode_sorted_degree_delta_sidecar_unchecked es)
     (Z.of_nat (blocks_for (length es))) (Z.of_nat i)) = e.
Proof.
  intros Hok Hi. rewrite read_entry, encode_layout. unfold entry_offset.
  pose proof (lookup_lt_Some _ _ _ Hi). rewrite <- (Nat.add_assoc (32 + 16 * _)).
  rewrite (slice_entries _ _ _ _ _ _ _ _ (encode_laid_out es)) by lia.
  unfold entries_bytes. rewrite (slice_mjoin _ 64 es i e); [|apply length_encode_entry | done].
  rewrite Forall_forall in Hok. destruct (Hok e) as (Hn & Hd & _); [by eapply list_elem_of_lookup_2|].
  by apply decode_encode_entry.
Qed.

Lemma slice_block es i :
  (i < blocks_for (length es))%nat ->
  slice (32 + 16 * i) (32 + (16 * i + 16)) (encode_sorted_degree_delta_sidecar_unchecked es)
  = encode_block es (Z.of_nat i).
Proof.
  intros Hi. rewrite encode_layout, (slice_blocks _ _ _ _ _ _ _ _ (encode_laid_out es)) by lia.
  unfold blocks_bytes.
  rewrite (slice_mjoin (fun i : nat => encode_block es (Z.of_nat i)) 16 _ i i);
    [done | intros; apply length_encode_block | by rewrite lookup_seq_lt].
Qed.

Lemma block_fields es i :
  slice 0 8 (encode_block es (Z.of_nat i)) = le_bytes 8 (nth (256 * i) es (0, Delta.ZERO)).1
  /\ slice 8 16 (encode_block es (Z.of_nat i)) = le_bytes 8 (Z.of_nat (256 * i)).
Proof.
  unfold encode_block. cbv zeta. unfold DEGREE_DELTA_BLOCK_SIZE.
  replace (Z.to_nat (Z.of_nat i * 256)) with (256 * i)%nat by lia.
  replace (Z.of_nat i * 256) with (Z.of_nat (256 * i)) by lia.
  split.
  - rewrite slice_app_l, slice_full by (rewrite ?length_le_bytes; lia). done.
  - set (p := le_bytes 8 _). pose proof (slice_app_r 0 8 p (le_bytes 8 (Z.of_nat (256 * i)))) as E.
    unfold p in E. rewrite length_le_bytes in E. etransitivity; [exact E|]. by apply slice_full.
Qed.

Lemma read_block es i :
  (i < blocks_for (length es))%nat ->
  le_val (slice (32 + 16 * i) (32 + 16 * i + 8) (encode_sorted_degree_delta_sidecar_unchecked es))
  = (nth (256 * i) es (0, Delta.ZERO)).1 mod 2 ^ 64
  /\ le_val (slice (32 + 16 * i + 8) (32 + 16 * i + 16) (encode_sorted_degree_delta_sidecar_unchecked es))
     = Z.of_nat (256 * i) mod 2 ^ 64.
Proof.
  intros Hi. pose proof (slice_block es i Hi) as Hs. destruct (block_fields es i) as [F0 F1].
  rewrite <- Hs in F0, F1. rewrite slice_slice in F0, F1 by lia.
  replace (32 + 16 * i + 0)%nat with (32 + 16 * i)%nat in F0 by lia.
  by rewrite F0, F1, !le_val_le_bytes.
Qed.

(** ** Validation accepts exactly the encodings *)
Lemma header_fields n b :
  let h := sidecar_header n b in
  slice 0 8 h = DEGREE_DELTA_MAGIC /\ slice 8 12 h = le_bytes 4 DEGREE_DELTA_FORMAT_VERSION
  /\ slice 12 16 h = le_bytes 4 DEGREE_DELTA_BLOCK_SIZE /\ slice 16 24 h = le_bytes 8 n
  /\ slice 24 32 h = le_bytes 8 b.
Proof.
  cbv zeta. unfold sidecar_header.
  assert (forall k x y (p d : list byte), length p = k -> (k <= x <= y)%nat ->
            slice x y (p ++ d) = slice (x - k) (y - k) d) as Hskip.
  { intros k x y p' d <- Hxy. rewrite <- (slice_app_r (x - length p') (y - length p') p' d). f_equal; lia. }
  assert (forall (p d : list byte) y, length p = y -> slice 0 y (p ++ d) = p) as Htake.
  { intros p' d y <-. rewrite slice_app_l by lia. by apply slice_full. }
  split_and!.
  - by apply Htake.
  - rewrite (Hskip 8%nat) by (done || lia). by apply Htake, length_le_bytes.
  - rewrite (Hskip 8%nat) by (done || lia).
    rewrite (Hskip 4%nat) by (apply length_le_bytes || lia). by apply Htake, length_le_bytes.
  - rewrite (Hskip 8%nat) by (done || lia). rewrite 2!(Hskip 4%nat) by (apply length_le_bytes || lia).
    by apply Htake, length_le_bytes.
  - rewrite (Hskip 8%nat) by (done || lia). rewrite 2!(Hskip 4%nat) by (apply length_le_bytes || lia).
    rewrite (Hskip 8%nat) by (apply length_le_bytes || lia). apply slice_full. by rewrite length_le_bytes.
Qed.

(** A read inside the file. *)
Lemma read_u32_ok data o :
  Z.of_nat (o + 4) <= u64_max -> (o + 4 <= length data)%nat ->
  read_u32_at data (Z.of_nat o) = Ok (le_val (slice o (o + 4) data)).
Proof.
  intros Hm Hl. unfold read_u32_at. rewrite (zslice_of _ _ o (o + 4)) by lia.
  destruct (Z.ltb_spec u64_max (Z.of_nat o + 4)); [lia|].
  by destruct (Z.ltb_spec (len data) (Z.of_nat o + 4)); [lia|].
Qed.
Lemma read_u64_ok data o :
  Z.of_nat (o + 8) <= u64_max -> (o + 8 <= length data)%nat ->
  read_u64_at data (Z.of_nat o) = Ok (le_val (slice o (o + 8) data)).
Proof.
  intros Hm Hl. unfold read_u64_at. rewrite (zslice_of _ _ o (o + 8)) by lia.
  destruct (Z.ltb_spec u64_max (Z.of_nat o + 8)); [lia|].
  by destruct (Z.ltb_spec (len data) (Z.of_nat o + 8)); [lia|].
Qed.

Lemma slice_4 x : u32 x -> le_val (le_bytes 4 x) = x.
Proof. intros Hx. rewrite le_val_le_bytes. apply Z.mod_small. exact Hx. Qed.

(** The shape check with its reads performed. *)
Lemma shape_reads data :
  (36 <= length data)%nat -> len data <= u64_max ->
  validate_degree_sidecar_shape data =
    let n := le_val (slice 16 24 data) in
    let b := le_val (slice 24 32 data) in
    if negb (bool_decide (slice 0 8 data = DEGREE_DELTA_MAGIC)) then Err (CorruptRecord "degree sidecar magic mismatch")
    else if negb (le_val (slice 8 12 data) =? DEGREE_DELTA_FORMAT_VERSION) then
      Err (CorruptRecord "unsupported degree sidecar version")
    else if negb (le_val (slice 12 16 data) =? DEGREE_DELTA_BLOCK_SIZE) then
      Err (CorruptRecord "unsupported degree sidecar block size")
    else if negb (b =? (if n =? 0 then 0 else div_ceil n DEGREE_DELTA_BLOCK_SIZE)) then
      Err (CorruptRecord "degree sidecar block count does not match entry count")
    else
    index_len ← ok_or (checked_usize (b * BLOCK_INDEX_ENTRY_SIZE))
                  (CorruptRecord "degree sidecar block index length overflow");
    entries_start ← ok_or (checked_usize (HEADER_SIZE + index_len))
                      (CorruptRecord "degree sidecar entries offset overflow");
    entries_len ← ok_or (checked_usize (n * DELTA_ENTRY_SIZE))
                    (CorruptRecord "degree sidecar entries length overflow");
    expected_len ← ok_or (l ← checked_usize (entries_start + entries_len); checked_usize (l + CRC_SIZE))
                     (CorruptRecord "degree sidecar length overflow");
    if negb (len data =? expected_len) then Err (CorruptRecord "degree sidecar length does not match expected")
    else Ok (mkShape n b).
Proof.
  intros Hl Hu. unfold validate_degree_sidecar_shape.
  destruct (Z.ltb_spec (len data) (HEADER_SIZE + CRC_SIZE)) as [Hs|_];
    [unfold HEADER_SIZE, CRC_SIZE in Hs; lia|].
  rewrite (zslice_of 0 8 0 8) by done.
  destruct (negb (bool_decide (slice 0 8 data = DEGREE_DELTA_MAGIC))); [done|].
  change (read_u32_at data 8) with (read_u32_at data (Z.of_nat 8)).
  change (read_u32_at data 12) with (read_u32_at data (Z.of_nat 12)).
  change (read_u64_at data 16) with (read_u64_at data (Z.of_nat 16)).
  change (read_u64_at data 24) with (read_u64_at data (Z.of_nat 24)).
  rewrite !read_u32_ok, !read_u64_ok by (unfold u64_max in *; lia). cbn [Nat.add]. rewrite bind_Ok_l.
  destruct (negb (le_val (slice 8 12 data) =? _)); [done|]. rewrite bind_Ok_l.
  destruct (negb (le_val (slice 12 16 data) =? _)); [done|]. by rewrite !bind_Ok_l.
Qed.

Lemma checked_Ok {A} x e (f : Z -> res A) r :
  (ok_or (checked_usize x) e ≫= f) = Ok r <-> x <= u64_max /\ f x = Ok r.
Proof.
  unfold checked_usize, ok_or. destruct (Z.leb_spec x u64_max); cbn; split; try done; intros []; done || lia.
Qed.

Lemma slice_prefix a b n (d : list byte) : (b <= n)%nat -> slice a b (slice 0 n d) = slice a b d.
Proof. intros Hb. by rewrite slice_slice by lia. Qed.

Lemma le_bytes_slice k a b (d : list byte) :
  (b <= length d)%nat -> k = (b - a)%nat -> le_bytes k (le_val (slice a b d)) = slice a b d.
Proof. intros Hb ->. rewrite <- (length_slice a b d) by done. apply le_bytes_le_val. Qed.

(** What the shape check establishes, and what it needs. *)
Lemma shape_spec data n b :
  len data <= u64_max ->
  validate_degree_sidecar_shape data = Ok (mkShape n b)
  <-> exists k, n = Z.of_nat k /\ b = Z.of_nat (blocks_for k)
      /\ length data = (32 + 16 * blocks_for k + 64 * k + 4)%nat
      /\ slice 0 32 data = sidecar_header n b
      /\ u64 n /\ u64 b.
Proof.
  intros Hu. split.
  - intros Hv. destruct (decide (36 <= length data)%nat) as [Hl|Hl].
    2: { unfold validate_degree_sidecar_shape in Hv. revert Hv.
         destruct (Z.ltb_spec (len data) (HEADER_SIZE + CRC_SIZE)) as [_|Hs]; [done|].
         unfold HEADER_SIZE, CRC_SIZE in Hs. lia. }
    rewrite shape_reads in Hv by done. cbv zeta in Hv.
    assert (forall x y, (y <= 32)%nat -> length (slice x y data) = (y - x)%nat) as Hlen
      by (intros; rewrite length_slice; lia).
    destruct (bool_decide_reflect (slice 0 8 data = DEGREE_DELTA_MAGIC)) as [E1|]; [cbn [negb] in Hv|done].
    destruct (Z.eqb_spec (le_val (slice 8 12 data)) DEGREE_DELTA_FORMAT_VERSION) as [E2|]; [cbn [negb] in Hv|done].
    destruct (Z.eqb_spec (le_val (slice 12 16 data)) DEGREE_DELTA_BLOCK_SIZE) as [E3|]; [cbn [negb] in Hv|done].
    destruct (Z.eqb_spec (le_val (slice 24 32 data))
      (if le_val (slice 16 24 data) =? 0 then 0 else div_ceil (le_val (slice 16 24 data)) DEGREE_DELTA_BLOCK_SIZE))
      as [E4|]; [cbn [negb] in Hv|done].
    apply checked_Ok in Hv as [_ Hv]. apply checked_Ok in Hv as [_ Hv]. apply checked_Ok in Hv as [_ Hv].
    apply bind_Ok_inv in Hv as (el & He & Hv).
    destruct (Z.eqb_spec (len data) el) as [E5|]; [cbn [negb] in Hv|done].
    apply Ok_inj in Hv. injection Hv as <- <-.
    assert (el = HEADER_SIZE + le_val (slice 24 32 data) * BLOCK_INDEX_ENTRY_SIZE
                 + le_val (slice 16 24 data) * DELTA_ENTRY_SIZE + CRC_SIZE) as ->.
    { revert He. unfold checked_usize. destruct (_ <=? _); [|done]. cbn. destruct (_ <=? _); [|done]. cbn.
      by intros [= <-]. }
    pose proof (le_val_u64_range (slice 16 24 data) (Hlen 16 24 ltac:(lia))%nat) as Hn.
    pose proof (le_val_u64_range (slice 24 32 data) (Hlen 24 32 ltac:(lia))%nat) as Hb.
    exists (Z.to_nat (le_val (slice 16 24 data))).
    assert (Z.of_nat (Z.to_nat (le_val (slice 16 24 data))) = le_val (slice 16 24 data)) as En
      by (apply Z2Nat.id; apply Hn).
    destruct (blocks_for_spec (Z.to_nat (le_val (slice 16 24 data)))) as [Eb _]. rewrite En, <- E4 in Eb.
    split_and!; try done; try apply Hn; try apply Hb.
    + unfold HEADER_SIZE, BLOCK_INDEX_ENTRY_SIZE, DELTA_ENTRY_SIZE, CRC_SIZE in E5. lia.
    + unfold sidecar_header. rewrite <- E1, <- E2, <- E3.
      rewrite !le_bytes_slice, !slice_split by lia. done.
  - intros (k & -> & -> & Hl & Hh & Hn & Hb). rewrite shape_reads by lia. cbv zeta.
    rewrite <- (slice_prefix 0 8 32), <- (slice_prefix 8 12 32), <- (slice_prefix 12 16 32),
      <- (slice_prefix 16 24 32), <- (slice_prefix 24 32 32), Hh by lia.
    destruct (header_fields (Z.of_nat k) (Z.of_nat (blocks_for k))) as (-> & -> & -> & -> & ->).
    rewrite !slice_4, !le_val_u64 by done. rewrite bool_decide_true by done.
    destruct (blocks_for_spec k) as [<- _]. rewrite !Z.eqb_refl. cbn [negb].
    rewrite Hl in Hu. unfold HEADER_SIZE, BLOCK_INDEX_ENTRY_SIZE, DELTA_ENTRY_SIZE, CRC_SIZE.
    apply checked_Ok. split; [lia|]. apply checked_Ok. split; [lia|]. apply checked_Ok. split; [lia|].
    unfold checked_usize at 1 2.
    rewrite (proj2 (Z.leb_le (32 + Z.of_nat (blocks_for k) * 16 + Z.of_nat k * 64) u64_max)) by lia.
    cbn [mbind option_bind].
    rewrite (proj2 (Z.leb_le (32 + Z.of_nat (blocks_for k) * 16 + Z.of_nat k * 64 + 4) u64_max)) by lia.
    cbn [ok_or mbind result_bind]. by rewrite (proj2 (Z.eqb_eq (len data) _)) by lia.
Qed.

Definition entry_read (data : list byte) (b i : nat) : Z * DegreeDelta :=
  (read_sidecar_entry_node_id data (Z.of_nat b) (Z.of_nat i), read_sidecar_entry_delta data (Z.of_nat b) (Z.of_nat i)).
Definition entries_read (data : list byte) (b i n : nat) : list (Z * DegreeDelta) := entry_read data b <$> seq i n.

Lemma validate_sorted_spec prev es :
  validate_sorted_from prev es = Ok tt
  <-> StronglySorted Z.lt (fst <$> es) /\ Forall (fun e => Delta.is_zero e.2 = false) es
      /\ (forall p, prev = Some p -> Forall (Z.lt p) (fst <$> es)).
Proof.
  revert prev. induction es as [|[n d] es IH]; intros prev; cbn [validate_sorted_from].
  { split; [|done]. intros _. split_and!; constructor. }
  rewrite fmap_cons. cbn [fst]. rewrite StronglySorted_cons, Forall_cons. cbn [snd].
  destruct (Delta.is_zero d); [split; [done | naive_solver]|].
  assert (match prev with Some previous => n <=? previous | None => false end = true
          <-> exists p, prev = Some p /\ n <= p) as Hp
    by (destruct prev as [p|]; [rewrite Z.leb_le; naive_solver | naive_solver]).
  destruct (match prev with Some previous => n <=? previous | None => false end).
  - destruct (proj1 Hp eq_refl) as (p & -> & Hle). split; [done|]. intros (_ & _ & Hf).
    specialize (Hf p eq_refl). apply Forall_cons in Hf as [Hf _]. lia.
  - assert (forall p, prev = Some p -> p < n) as Hlt.
    { intros p ->. destruct (Z.lt_ge_cases p n); [done|]. by discriminate (proj2 Hp (ex_intro _ p (conj eq_refl H0))). }
    rewrite IH. split.
    + intros (Hs & Hz & Hf). specialize (Hf n eq_refl). split_and!; try done.
      intros p Hpe. constructor; [auto|]. eapply Forall_impl; [done|]. cbn. specialize (Hlt p Hpe). lia.
    + intros ([Hs Hf] & [_ Hz] & _). split_and!; try done. by intros p [= <-].
Qed.

Lemma validate_entries_spec n data b i prev :
  validate_entries n data (Z.of_nat b) (Z.of_nat i) prev = Ok tt
  <-> validate_sorted_from prev (entries_read data b i n) = Ok tt.
Proof.
  revert i prev. induction n as [|n IH]; intros i prev; [done|]. unfold entries_read. cbn [seq validate_entries].
  rewrite fmap_cons. cbn [validate_sorted_from entry_read]. fold (entries_read data b (S i) n).
  replace (Z.of_nat i + 1) with (Z.of_nat (S i)) by lia.
  destruct (match prev with
            | Some p => read_sidecar_entry_node_id data (Z.of_nat b) (Z.of_nat i) <=? p
            | None => false end), (Delta.is_zero (read_sidecar_entry_delta data (Z.of_nat b) (Z.of_nat i)));
    try (split; discriminate). apply IH.
Qed.

Lemma validate_blocks_spec n data ec b i :
  len data <= u64_max -> (32 + 16 * (i + n) <= length data)%nat ->
  validate_blocks n data ec (Z.of_nat b) (Z.of_nat i) = Ok tt
  <-> forall j, (i <= j < i + n)%nat ->
        le_val (slice (32 + 16 * j + 8) (32 + 16 * j + 16) data) = Z.of_nat (256 * j)
        /\ Z.of_nat (256 * j) < ec
        /\ le_val (slice (32 + 16 * j) (32 + 16 * j + 8) data) = (entry_read data b (256 * j)).1.
Proof.
  intros Hu. revert i. induction n as [|n IH]; intros i Hl; [split; [intros; lia | done]|]. cbn [validate_blocks].
  unfold HEADER_SIZE, BLOCK_INDEX_ENTRY_SIZE, DEGREE_DELTA_BLOCK_SIZE.
  replace (32 + Z.of_nat i * 16 + 8) with (Z.of_nat (32 + 16 * i + 8)) by lia.
  replace (32 + Z.of_nat i * 16) with (Z.of_nat (32 + 16 * i)) by lia.
  rewrite !read_u64_ok by lia. rewrite !bind_Ok_l.
  replace (32 + 16 * i + 8 + 8)%nat with (32 + 16 * i + 16)%nat by lia.
  replace (Z.of_nat i * 256) with (Z.of_nat (256 * i)) by lia.
  replace (Z.of_nat i + 1) with (Z.of_nat (S i)) by lia.
  transitivity ((le_val (slice (32 + 16 * i + 8) (32 + 16 * i + 16) data) = Z.of_nat (256 * i)
        /\ Z.of_nat (256 * i) < ec
        /\ le_val (slice (32 + 16 * i) (32 + 16 * i + 8) data) = (entry_read data b (256 * i)).1)
      /\ validate_blocks n data ec (Z.of_nat b) (Z.of_nat (S i)) = Ok tt).
  - unfold entry_read. cbn [fst].
    destruct (Z.eqb_spec (le_val (slice (32 + 16 * i + 8) (32 + 16 * i + 16) data)) (Z.of_nat (256 * i))) as [E|E];
      cbn [negb]; [rewrite E|naive_solver].
    destruct (Z.leb_spec ec (Z.of_nat (256 * i))); [split; [done | lia]|].
    destruct (Z.eqb_spec (le_val (slice (32 + 16 * i) (32 + 16 * i + 8) data))
      (read_sidecar_entry_node_id data (Z.of_nat b) (Z.of_nat (256 * i)))); cbn [negb]; naive_solver.
  - rewrite IH by lia. split.
    + intros [H0 H1] j Hj. destruct (decide (j = i)) as [->|]; [done|]. apply H1. lia.
    + intros Hall. split; [apply Hall; lia|]. intros j Hj. apply Hall. lia.
Qed.

Lemma length_entries_read data b i n : length (entries_read data b i n) = n.
Proof. unfold entries_read. by rewrite length_fmap, length_seq. Qed.
Lemma entries_read_lookup data b k j :
  (j < k)%nat -> entries_read data b 0 k !! j = Some (entry_read data b j).
Proof. intros Hj. unfold entries_read. by rewrite list_lookup_fmap, lookup_seq_lt. Qed.

(** The entries section is the encoding of the entries read from it. *)
Lemma entries_bytes_read data k b :
  length data = (32 + 16 * b + 64 * k + 4)%nat ->
  entries_bytes (entries_read data b 0 k) = slice (32 + 16 * b) (32 + 16 * b + 64 * k) data.
Proof.
  intros Hl. unfold entries_bytes, entries_read. rewrite <- list_fmap_compose.
  rewrite <- (mjoin_slices 64 k (slice (32 + 16 * b) (32 + 16 * b + 64 * k) data)) by (rewrite length_slice; lia).
  f_equal. apply list_fmap_ext. intros j i Hi. apply lookup_seq in Hi as [-> Hi]. cbn [compose].
  unfold entry_read. rewrite read_entry, encode_decode_entry by (rewrite length_slice; unfold entry_offset; lia).
  rewrite slice_slice by lia. f_equal; unfold entry_offset; lia.
Qed.

(** A checked block is the encoding of its entry's block. *)
Lemma block_bytes_read data k b j :
  (32 + 16 * (j + 1) <= length data)%nat -> (256 * j < k)%nat ->
  le_val (slice (32 + 16 * j + 8) (32 + 16 * j + 16) data) = Z.of_nat (256 * j) ->
  le_val (slice (32 + 16 * j) (32 + 16 * j + 8) data) = (entry_read data b (256 * j)).1 ->
  encode_block (entries_read data b 0 k) (Z.of_nat j) = slice (32 + 16 * j) (32 + 16 * j + 16) data.
Proof.
  intros Hl Hj H2 H1. unfold encode_block. cbv zeta. unfold DEGREE_DELTA_BLOCK_SIZE.
  replace (Z.of_nat j * 256) with (Z.of_nat (256 * j)) by lia. rewrite Nat2Z.id.
  rewrite (nth_lookup_Some _ _ _ _ (entries_read_lookup data b k (256 * j) Hj)), <- H1, <- H2.
  rewrite !le_bytes_slice by lia. apply slice_split. lia.
Qed.

Lemma blocks_bytes_read data k :
  length data = (32 + 16 * blocks_for k + 64 * k + 4)%nat ->
  (forall j, (j < blocks_for k)%nat ->
     encode_block (entries_read data (blocks_for k) 0 k) (Z.of_nat j) = slice (32 + 16 * j) (32 + 16 * j + 16) data) ->
  blocks_bytes (entries_read data (blocks_for k) 0 k) = slice 32 (32 + 16 * blocks_for k) data.
Proof.
  intros Hl Hall. unfold blocks_bytes. rewrite length_entries_read.
  rewrite <- (mjoin_slices 16 (blocks_for k) (slice 32 (32 + 16 * blocks_for k) data)) by (rewrite length_slice; lia).
  f_equal. apply list_fmap_ext. intros j i Hi. apply lookup_seq in Hi as [-> Hi]. rewrite Hall by lia.
  rewrite slice_slice by lia. f_equal; lia.
Qed.

Lemma entries_read_ok data k b :
  length data = (32 + 16 * b + 64 * k + 4)%nat ->
  validate_sorted_from None (entries_read data b 0 k) = Ok tt ->
  StronglySorted Z.lt (fst <$> entries_read data b 0 k) /\ Forall entry_ok (entries_read data b 0 k).
Proof.
  intros Hl (Hs & Hz & _)%validate_sorted_spec. split; [done|]. apply Forall_forall. intros e He.
  rewrite Forall_forall in Hz. specialize (Hz e He). apply list_elem_of_fmap in He as (i & -> & Hi).
  apply elem_of_seq in Hi.
  assert (u64 (entry_read data b i).1 /\ delta_ok (entry_read data b i).2) as [Hn Hd];
    [|exact (conj Hn (conj Hd Hz))].
  unfold entry_read. rewrite read_entry. apply decode_entry_ok. rewrite length_slice; unfold entry_offset; lia.
Qed.

Lemma validated_is_encoding data :
  len data <= u64_max -> validate_degree_sidecar data = Ok tt ->
  exists es, entries_ok es /\ data = encode_sorted_degree_delta_sidecar_unchecked es.
Proof.
  intros Hu Hv. unfold validate_degree_sidecar in Hv. apply bind_Ok_inv in Hv as ([n b] & Hs & Hv).
  apply shape_spec in Hs as (k & -> & -> & Hl & Hh & Hn & Hb); [|done].
  apply bind_Ok_inv in Hv as (crc & Hc & Hv). unfold CRC_SIZE in Hc, Hv.
  replace (len data - 4) with (Z.of_nat (length data - 4)) in Hc, Hv by lia.
  rewrite read_u32_ok in Hc by lia. apply Ok_inj in Hc as <-.
  destruct (Z.eqb_spec (le_val (slice (length data - 4) (length data - 4 + 4) data))
    (crc32_hash (zslice 0 (Z.of_nat (length data - 4)) data))) as [Ec|]; [cbn [negb] in Hv|done].
  apply bind_Ok_inv in Hv as ([] & He & Hv). cbn [sh_entry_count sh_block_count] in He, Hv.
  rewrite Nat2Z.id in He, Hv. apply (validate_entries_spec k data _ 0 None) in He.
  destruct (blocks_for_spec k) as (_ & Hb1 & Hb2).
  pose proof (proj1 (validate_blocks_spec (blocks_for k) data (Z.of_nat k) (blocks_for k) 0 Hu ltac:(lia)) Hv) as Hbl.
  destruct (entries_read_ok _ _ _ Hl He) as [Hso Hok].
  exists (entries_read data (blocks_for k) 0 k).
  assert (Heb := entries_bytes_read data k (blocks_for k) Hl).
  assert (Hbb : blocks_bytes (entries_read data (blocks_for k) 0 k) = slice 32 (32 + 16 * blocks_for k) data).
  { apply blocks_bytes_read; [done|]. intros j Hj. destruct (Hbl j ltac:(lia)) as (? & ? & ?).
    apply block_bytes_read; [lia..|done|done]. }
  split.
  - split; [done..|]. rewrite length_entries_read. lia.
  - rewrite encode_layout. unfold crc_bytes. rewrite Hbb, Heb. unfold header_bytes. rewrite length_entries_read, <- Hh.
    rewrite !slice_split by lia.
    rewrite (zslice_of _ _ 0 (length data - 4)) in Ec by lia.
    replace (slice 0 (32 + 16 * blocks_for k + 64 * k) data) with (slice 0 (length data - 4) data) by (f_equal; lia).
    rewrite <- Ec, le_bytes_slice by lia. rewrite !app_assoc, !slice_split by lia.
    symmetry. replace (32 + 16 * blocks_for k + 64 * k)%nat with (length data - 4)%nat by lia.
    rewrite slice_split by lia. apply slice_full. lia.
Qed.
End Layout.

(** ** The degree sidecar: validation accepts exactly the encodings, and [lookup]
    on an opened encoding finds the entry of a node. *)
(** ** Strictly ascending lists *)
Lemma strictly_sorted_lookup (l : list Z) i j x y :
  StronglySorted Z.lt l -> (i < j)%nat -> l !! i = Some x -> l !! j = Some y -> x < y.
Proof.
  intros Hs. revert i j. induction Hs as [|a l Hs IH Ha]; intros i j Hij Hi Hj; [done|].
  destruct j as [|j]; [lia|]. cbn in Hj. destruct i as [|i]; cbn in Hi.
  - injection Hi as ->. rewrite Forall_forall in Ha. by apply Ha, (list_elem_of_lookup_2 _ j).
  - by apply (IH i j); [lia|..].
Qed.
Lemma strictly_sorted_NoDup (l : list Z) : StronglySorted Z.lt l -> NoDup l.
Proof.
  induction 1 as [|a l Hs IH Ha]; constructor; [|done]. rewrite Forall_forall in Ha. intros Hin.
  by apply (Z.lt_irrefl a), Ha.
Qed.

Section Encodings.
Context `{Crc32}.

(** The opened form of an encoding. *)
Definition opened (es : list (Z * DegreeDelta)) : DegreeSidecar :=
  mkSidecar (encode_sorted_degree_delta_sidecar_unchecked es) (len es) (Z.of_nat (blocks_for (length es))).

Lemma encode_shape es :
  entries_ok es ->
  validate_degree_sidecar_shape (encode_sorted_degree_delta_sidecar_unchecked es)
  = Ok (mkShape (len es) (Z.of_nat (blocks_for (length es)))).
Proof.
  intros [_ _ Hf]. apply shape_spec; [by rewrite length_encode|].
  exists (length es). rewrite length_encode. split_and!; try done; try lia;
    try (unfold u64, u64_max in *; lia).
  destruct (encode_laid_out es) as [Hh _ _]. rewrite encode_layout, slice_app_l by lia. by apply slice_full.
Qed.

Lemma open_encoding es :
  entries_ok es -> open_payload (encode_sorted_degree_delta_sidecar_unchecked es) = Ok (opened es).
Proof. intros Hes. unfold open_payload. by rewrite encode_shape. Qed.

Lemma entries_read_encode es :
  Forall entry_ok es ->
  entries_read (encode_sorted_degree_delta_sidecar_unchecked es) (blocks_for (length es)) 0 (length es) = es.
Proof.
  intros Hok. apply list_eq. intros i. destruct (es !! i) as [e|] eqn:E.
  - rewrite entries_read_lookup by (by apply lookup_lt_Some in E). f_equal. by apply read_encoded.
  - apply lookup_ge_None in E. apply lookup_ge_None. by rewrite length_entries_read.
Qed.

Lemma nth_entry_u64 es i : Forall entry_ok es -> u64 (nth i es (0, Delta.ZERO)).1.
Proof.
  intros Hok. destruct (nth_in_or_default i es (0, Delta.ZERO)) as [Hi| ->]; [|done].
  rewrite Forall_forall in Hok. by apply Hok, list_elem_of_In.
Qed.

Lemma encode_validates `{!Crc32Laws} es :
  entries_ok es -> validate_degree_sidecar (encode_sorted_degree_delta_sidecar_unchecked es) = Ok tt.
Proof.
  intros Hes. pose proof Hes as [Hs Hok Hf]. unfold validate_degree_sidecar. rewrite encode_shape, bind_Ok_l by done.
  pose proof (length_encode es) as Hl. unfold CRC_SIZE.
  replace (len (encode_sorted_degree_delta_sidecar_unchecked es) - 4)
    with (Z.of_nat (length (header_bytes es ++ blocks_bytes es ++ entries_bytes es))).
  2: { rewrite Hl. destruct (encode_laid_out es) as [H1 H2 H3]. rewrite !length_app, H1, H2, H3. lia. }
  assert (encode_sorted_degree_delta_sidecar_unchecked es
          = (header_bytes es ++ blocks_bytes es ++ entries_bytes es) ++ crc_bytes es) as He
    by (rewrite encode_layout; by rewrite <- !app_assoc).
  set (body := header_bytes es ++ _) in *.
  assert (length (encode_sorted_degree_delta_sidecar_unchecked es) = (length body + 4)%nat) as Hb
    by (rewrite He, length_app; unfold crc_bytes; by rewrite length_le_bytes).
  rewrite read_u32_ok by lia. rewrite bind_Ok_l, (zslice_of _ _ 0 (length body)) by lia.
  assert (slice (length body) (length body + 4) (encode_sorted_degree_delta_sidecar_unchecked es) = crc_bytes es) as ->.
  { rewrite He. rewrite <- (Nat.add_0_r (length body)) at 1. rewrite slice_app_r. apply slice_full.
    unfold crc_bytes. by rewrite length_le_bytes. }
  assert (slice 0 (length body) (encode_sorted_degree_delta_sidecar_unchecked es) = body) as ->
    by (rewrite He, slice_app_l by lia; by apply slice_full).
  unfold crc_bytes. fold body. rewrite slice_4, Z.eqb_refl by apply crc32_range. cbn [negb].
  cbn [sh_entry_count sh_block_count]. rewrite !Nat2Z.id.
  rewrite (proj2 (validate_entries_spec (length es) _ (blocks_for (length es)) 0 None)), bind_Ok_l.
  2: { rewrite entries_read_encode by done. apply validate_sorted_spec. split_and!; [done| |done].
       eapply Forall_impl; [done|]. by intros ? (_ & _ & ?). }
  destruct (blocks_for_spec (length es)) as (_ & Hb1 & Hb2).
  assert (len (encode_sorted_degree_delta_sidecar_unchecked es) <= u64_max) as Hu by (by rewrite Hl).
  assert (32 + 16 * (0 + blocks_for (length es)) <= length (encode_sorted_degree_delta_sidecar_unchecked es))%nat
    as Hfit by (rewrite Hl; lia).
  apply (proj2 (validate_blocks_spec _ _ (len es) (blocks_for (length es)) 0 Hu Hfit)).
  intros j Hj. destruct (read_block es j ltac:(lia)) as [-> ->].
  rewrite !Z.mod_small; [|by apply nth_entry_u64|unfold u64_max in Hf; lia]. split_and!; [done|lia|].
  assert (256 * j < length es)%nat as [e Hj']%lookup_lt_is_Some_2 by lia.
  rewrite (nth_lookup_Some _ _ _ _ Hj'). unfold entry_read. by rewrite (read_encoded es (256 * j) e).
Qed.

(** C36. A file passes [validate_degree_sidecar] exactly when it is what the
    writer produces for some ascending list of nonzero entries: validation
    rejects every other byte string, and never rejects a written file. *)
Theorem sidecar_validation_exact `{!Crc32Laws} (data : list byte) :
  len data <= u64_max ->
  (validate_degree_sidecar data = Ok tt
   <-> exists es, entries_ok es /\ write_sorted_degree_delta_sidecar_payload es = Ok data).
Proof.
  intros Hu. assert (forall es, entries_ok es -> write_sorted_degree_delta_sidecar_payload es
    = Ok (encode_sorted_degree_delta_sidecar_unchecked es)) as Hw.
  { intros es [Hs Hok _]. unfold write_sorted_degree_delta_sidecar_payload, validate_sorted_degree_delta_entries.
    rewrite (proj2 (validate_sorted_spec None es)); [done|]. split_and!; [done| |done].
    eapply Forall_impl; [done|]. by intros ? (_ & _ & ?). }
  split.
  - intros (es & Hes & ->)%validated_is_encoding; [|done]. eauto.
  - intros (es & Hes & E). rewrite Hw in E by done. apply Ok_inj in E as <-. by apply encode_validates.
Qed.

(** ** The binary searches *)
Lemma upper_block_spec first x fuel lo hi :
  0 <= lo <= hi -> hi - lo < Z.of_nat fuel ->
  (forall i j, lo <= i <= j -> j < hi -> first i <= first j) ->
  let r := upper_block fuel first x lo hi in
  lo <= r <= hi /\ (forall i, lo <= i < r -> first i <= x) /\ (forall i, r <= i < hi -> x < first i).
Proof.
  revert lo hi. induction fuel as [|fuel IH]; intros lo hi Hlh Hf Hm; [lia|]. cbn [upper_block].
  destruct (Z.ltb_spec lo hi); [|cbv zeta; split_and!; intros; lia]. cbv zeta.
  pose proof (Z.div_pos (hi - lo) 2 ltac:(lia) ltac:(lia)). pose proof (Z.div_lt_upper_bound (hi - lo) 2 (hi - lo)).
  destruct (Z.leb_spec (first (lo + (hi - lo) / 2)) x) as [Hc|Hc].
  - destruct (IH (lo + (hi - lo) / 2 + 1) hi) as (Hr & Hlow & Hup); [lia..| |].
    { intros i j Hij Hj. apply Hm; lia. }
    split_and!; [lia..| |done]. intros i Hi. destruct (Z.lt_ge_cases (lo + (hi - lo) / 2) i); [apply Hlow; lia|].
    etransitivity; [|done]. apply Hm; lia.
  - destruct (IH lo (lo + (hi - lo) / 2)) as (Hr & Hlow & Hup); [lia..| |].
    { intros i j Hij Hj. apply Hm; lia. }
    split_and!; [lia..|done|]. intros i Hi. destruct (Z.lt_ge_cases i (lo + (hi - lo) / 2)); [apply Hup; lia|].
    eapply Z.lt_le_trans; [done|]. apply Hm; lia.
Qed.

Lemma find_entry_spec id x fuel lo hi :
  0 <= lo -> hi - lo < Z.of_nat fuel ->
  (forall i j, lo <= i < j -> j < hi -> id i < id j) ->
  match find_entry fuel id x lo hi with
  | Some m => lo <= m < hi /\ id m = x
  | None => forall i, lo <= i < hi -> id i <> x
  end.
Proof.
  revert lo hi. induction fuel as [|fuel IH]; intros lo hi Hlo Hf Hm; [cbn; intros; lia|]. cbn [find_entry].
  destruct (Z.ltb_spec lo hi); [|intros; lia].
  pose proof (Z.div_pos (hi - lo) 2 ltac:(lia) ltac:(lia)). pose proof (Z.div_lt_upper_bound (hi - lo) 2 (hi - lo)).
  cbv zeta. set (mid := lo + (hi - lo) / 2) in *. assert (lo <= mid < hi) by lia.
  destruct (Z.compare_spec (id mid) x) as [E|E|E]; [done| |].
  - specialize (IH (mid + 1) hi ltac:(lia) ltac:(lia) ltac:(intros; apply Hm; lia)).
    destruct (find_entry fuel id x (mid + 1) hi); [by split; [lia | apply IH]|].
    intros i Hi. destruct (decide (i = mid)) as [->|]; [lia|].
    destruct (Z.lt_ge_cases i mid); [specialize (Hm i mid); lia | apply IH; lia].
  - specialize (IH lo mid ltac:(lia) ltac:(lia) ltac:(intros; apply Hm; lia)).
    destruct (find_entry fuel id x lo mid); [by split; [lia | apply IH]|].
    intros i Hi. destruct (decide (i = mid)) as [->|]; [lia|].
    destruct (Z.lt_ge_cases i mid); [apply IH; lia | specialize (Hm mid i); lia].
Qed.

(** ** Lookup *)
Lemma opened_id es i e :
  Forall entry_ok es -> es !! i = Some e ->
  read_sidecar_entry_node_id (sc_payload (opened es)) (sc_block_count (opened es)) (Z.of_nat i) = e.1
  /\ read_sidecar_entry_delta (sc_payload (opened es)) (sc_block_count (opened es)) (Z.of_nat i) = e.2.
Proof. intros Hok Hi. pose proof (read_encoded es i e Hok Hi) as E. destruct e. by injection E. Qed.

Lemma opened_first es j e :
  Forall entry_ok es -> (j < blocks_for (length es))%nat -> es !! (256 * j)%nat = Some e ->
  block_first_node_id (opened es) (Z.of_nat j) = e.1.
Proof.
  intros Hok Hj He. unfold block_first_node_id, HEADER_SIZE, BLOCK_INDEX_ENTRY_SIZE. cbv zeta.
  rewrite (zslice_of _ _ (32 + 16 * j) (32 + 16 * j + 8)) by lia. cbn [sc_payload opened].
  rewrite (proj1 (read_block es j Hj)), (nth_lookup_Some _ _ _ _ He). apply Z.mod_small.
  rewrite Forall_forall in Hok. apply Hok. by eapply list_elem_of_lookup_2.
Qed.

(** The node id at an index. *)
Definition id_at (es : list (Z * DegreeDelta)) (i : Z) : Z := (nth (Z.to_nat i) es (0, Delta.ZERO)).1.

Lemma id_at_lt es i j :
  StronglySorted Z.lt (fst <$> es) -> 0 <= i < j -> j < len es -> id_at es i < id_at es j.
Proof.
  intros Hs Hi Hj. unfold id_at.
  assert (Z.to_nat i < length es)%nat as [a Ha]%lookup_lt_is_Some_2 by lia.
  assert (Z.to_nat j < length es)%nat as [b Hb]%lookup_lt_is_Some_2 by lia.
  rewrite (nth_lookup_Some _ _ _ _ Ha), (nth_lookup_Some _ _ _ _ Hb).
  apply (strictly_sorted_lookup (fst <$> es) (Z.to_nat i) (Z.to_nat j)); [done|lia|..];
    rewrite list_lookup_fmap; by rewrite ?Ha, ?Hb.
Qed.

Lemma opened_first_at es j :
  Forall entry_ok es -> 0 <= j < Z.of_nat (blocks_for (length es)) ->
  block_first_node_id (opened es) j = id_at es (256 * j).
Proof.
  intros Hok Hj. destruct (blocks_for_spec (length es)) as (_ & Hb1 & _).
  assert (256 * Z.to_nat j < length es)%nat as [e He]%lookup_lt_is_Some_2 by lia.
  rewrite <- (Z2Nat.id j) at 1 by lia. rewrite (opened_first es _ e) by (done || lia).
  unfold id_at. replace (Z.to_nat (256 * j)) with (256 * Z.to_nat j)%nat by lia.
  by rewrite (nth_lookup_Some _ _ _ _ He).
Qed.

Lemma opened_entry_at es j :
  StronglySorted Z.lt (fst <$> es) -> Forall entry_ok es -> 0 <= j < len es ->
  read_sidecar_entry_node_id (sc_payload (opened es)) (sc_block_count (opened es)) j = id_at es j
  /\ (list_to_map es : gmap Z DegreeDelta) !! id_at es j
     = Some (read_sidecar_entry_delta (sc_payload (opened es)) (sc_block_count (opened es)) j).
Proof.
  intros Hs Hok Hj. assert (Z.to_nat j < length es)%nat as [e He]%lookup_lt_is_Some_2 by lia.
  destruct (opened_id es _ e Hok He) as [E1 E2]. rewrite Z2Nat.id in E1, E2 by lia.
  rewrite E1, E2. unfold id_at. rewrite (nth_lookup_Some _ _ _ _ He). split; [done|].
  apply elem_of_list_to_map; [by apply strictly_sorted_NoDup|]. destruct e. by eapply list_elem_of_lookup_2.
Qed.

Lemma absent_id es x :
  (forall j, 0 <= j < len es -> id_at es j <> x) -> (list_to_map es : gmap Z DegreeDelta) !! x = None.
Proof.
  intros Hx. destruct ((list_to_map es : gmap Z DegreeDelta) !! x) as [d|] eqn:E; [|done].
  apply elem_of_list_to_map_2, list_elem_of_lookup in E as (k & Hk). exfalso. apply (Hx (Z.of_nat k)).
  - apply lookup_lt_Some in Hk. lia.
  - unfold id_at. by rewrite Nat2Z.id, (nth_lookup_Some _ _ _ _ Hk).
Qed.

(** [lookup] on an opened encoding. *)
Lemma lookup_opened es x :
  entries_ok es -> lookup (opened es) x = default Delta.ZERO ((list_to_map es : gmap Z DegreeDelta) !! x).
Proof.
  intros [Hs Hok Hf]. unfold lookup.
  pose proof (fun j => opened_first_at es j Hok) as Hfirst.
  pose proof (fun j Hj => proj1 (opened_entry_at es j Hs Hok Hj)) as Hid.
  pose proof (fun j Hj => proj2 (opened_entry_at es j Hs Hok Hj)) as Hmap.
  pose proof (fun i j => id_at_lt es i j Hs) as Hlt.
  destruct (blocks_for_spec (length es)) as (_ & Hb1 & Hb2).
  change (sc_block_count (opened es)) with (Z.of_nat (blocks_for (length es))) in *.
  change (sc_entry_count (opened es)) with (len es). set (b := Z.of_nat (blocks_for (length es))) in *.
  destruct (Z.eqb_spec (len es) 0) as [En|Hn]; [by destruct es|].
  destruct (Z.eqb_spec b 0) as [Eb|Hb]; [lia|]. cbn [orb]. cbv zeta.
  destruct (upper_block_spec (block_first_node_id (opened es)) x (S (Z.to_nat b)) 0 b) as (Hr & Hlow & Hup); [lia..| |].
  { intros i j Hij Hj. rewrite !Hfirst by lia. destruct (decide (i = j)) as [->|]; [lia|].
    apply Z.lt_le_incl, Hlt; lia. }
  revert Hr Hlow Hup. generalize (upper_block (S (Z.to_nat b)) (block_first_node_id (opened es)) x 0 b).
  intros r Hr Hlow Hup. unfold DEGREE_DELTA_BLOCK_SIZE, saturating_usize.
  assert (r < b -> forall j, 256 * r <= j < len es -> x < id_at es j) as Hhi.
  { intros Hrb j Hj. specialize (Hup r ltac:(lia)). rewrite Hfirst in Hup by lia.
    destruct (decide (j = 256 * r)) as [->|]; [done|]. specialize (Hlt (256 * r) j). lia. }
  destruct (Z.eqb_spec r 0) as [->|Hr0].
  - rewrite absent_id; [done|]. intros j Hj. specialize (Hhi ltac:(lia) j). lia.
  - replace ((r - 1) * 256 + 256) with (256 * r) by lia.
    replace ((256 * r) `min` u64_max) with (256 * r) by (unfold u64_max in *; lia).
    specialize (Hlow (r - 1) ltac:(lia)). rewrite Hfirst in Hlow by lia.
    set (stop := (256 * r) `min` len es). replace ((r - 1) * 256) with (256 * (r - 1)) in * by lia.
    pose proof (find_entry_spec (read_sidecar_entry_node_id (sc_payload (opened es)) b) x
      (S (Z.to_nat (stop - 256 * (r - 1)))) (256 * (r - 1)) stop ltac:(lia) ltac:(lia)) as Hfind.
    destruct (find_entry _ _ _ _ _) as [m|].
    + destruct Hfind as [Hm <-]; [intros i j Hij Hj; rewrite !Hid by lia; apply Hlt; lia|].
      by rewrite Hid, Hmap by lia.
    + rewrite absent_id; [done|]. intros j Hj.
      destruct (decide (j < 256 * (r - 1))); [specialize (Hlt j (256 * (r - 1))); lia|].
      destruct (decide (j < stop)).
      * rewrite <- (Hid j Hj). apply Hfind; [|lia].
        intros i k Hik Hk. rewrite !Hid by lia. apply Hlt; lia.
      * specialize (Hhi ltac:(lia) j). lia.
Qed.

(** C37. A lookup in an opened sidecar finds, by its two binary searches, the
    delta the writer was given for the node, and zero for every other node. *)
Theorem sidecar_lookup_exact es s x :
  entries_ok es -> open_payload (encode_sorted_degree_delta_sidecar_unchecked es) = Ok s ->
  lookup s x = default Delta.ZERO ((list_to_map es : gmap Z DegreeDelta) !! x).
Proof. intros Hes Ho. rewrite open_encoding in Ho by done. apply Ok_inj in Ho as <-. by apply lookup_opened. Qed.
End Encodings.
