(* ===== verification/DegreeFold.v ===== *)
(** Folding the degree sidecars of a compaction: the k-way merge emits, in
    node order, the nonzero sums of the deltas of each node. *)
From S2P Require Import Prelude Types Floats PropertyValue Wal Slots MemtableReads DegreeCache DegreeLookup.

Abbreviation entries_t := (list (Z * DegreeDelta)).

(** ** The heap *)
Definition heap_le (a b : HeapEntry) : Prop := heap_lt b a = false.

Lemma heap_le_spec a b :
  heap_le a b <-> he_node_id a < he_node_id b \/ he_node_id a = he_node_id b /\ (he_cursor_index a <= he_cursor_index b)%nat.
Proof.
  unfold heap_le, heap_lt. destruct (Z.ltb_spec (he_node_id b) (he_node_id a)); [split; [done | lia]|].
  destruct (Z.eqb_spec (he_node_id b) (he_node_id a)); cbn [orb andb].
  - destruct (Nat.ltb_spec (he_cursor_index b) (he_cursor_index a)); split; try done; lia.
  - split; [|done]. lia.
Qed.

Lemma heap_lt_le a b : heap_lt a b = true -> heap_le a b.
Proof.
  intros Hlt. destruct (heap_lt b a) eqn:E; [|exact E]. unfold heap_lt in *.
  rewrite !orb_true_iff, !andb_true_iff, !Z.ltb_lt, !Z.eqb_eq, !Nat.ltb_lt in *. lia.
Qed.

Lemma heap_pop_spec heap :
  match heap_pop heap with
  | None => heap = []
  | Some (m, rest) => heap ≡ₚ m :: rest /\ forall e, e ∈ heap -> heap_le m e
  end.
Proof.
  induction heap as [|e heap IH]; [done|]. cbn [heap_pop]. destruct (heap_pop heap) as [[m rest]|].
  - destruct IH as [Hp Hm]. destruct (heap_lt m e) eqn:E.
    + split; [rewrite Hp; by apply perm_swap|]. intros x [->|Hx]%elem_of_cons; [|by apply Hm].
      by apply heap_lt_le.
    + split; [by rewrite Hp|]. intros x [->|Hx]%elem_of_cons; [apply heap_le_spec; lia|].
      specialize (Hm x Hx). apply heap_le_spec in Hm. assert (heap_le e m) as He by done.
      apply heap_le_spec in He. apply heap_le_spec. lia.
  - subst heap. split; [done|]. intros x ->%list_elem_of_singleton. apply heap_le_spec. lia.
Qed.

(** ** The entries a cursor has left *)
Section Fold.
Context `{Crc32}.

Definition left_at (c : DegreeSidecarCursor) (rem : entries_t) : Prop :=
  exists es k, entries_ok es /\ cu_sidecar c = opened es /\ cu_index c = Z.of_nat k /\ rem = drop k es.

Lemma left_current c rem : left_at c rem -> cursor_current c = head rem.
Proof.
  intros (es & k & [Hs Hok _] & Hc & Hi & ->). unfold cursor_current, entry_at. rewrite Hc, Hi.
  change (sc_entry_count (opened es)) with (len es).
  destruct (Z.leb_spec (len es) (Z.of_nat k)).
  - by rewrite drop_ge by lia.
  - assert (k < length es)%nat as [e He]%lookup_lt_is_Some_2 by lia.
    destruct (opened_id es k e Hok He) as [-> ->]. rewrite (drop_S es e k He). by destruct e.
Qed.

Lemma left_next c e rem :
  left_at c (e :: rem) -> left_at (mkCursor (cu_sidecar c) (cu_index c + 1)) rem.
Proof.
  intros (es & k & Hes & Hc & Hi & He). exists es, (S k). split_and!; try apply Hes; cbn; try done; [lia|].
  replace (S k) with (k + 1)%nat by lia. by rewrite <- drop_drop, <- He.
Qed.

Lemma left_sorted c rem : left_at c rem -> StronglySorted Z.lt (fst <$> rem) /\ Forall entry_ok rem.
Proof.
  intros (es & k & [Hs Hok _] & _ & _ & ->). split; [|by apply Forall_drop].
  rewrite <- (take_drop k es), fmap_app in Hs. by apply StronglySorted_app_1_r in Hs.
Qed.

(** The heap holds the head of every cursor that has entries left. *)
Definition heap_of (rems : list entries_t) (heap : list HeapEntry) : Prop :=
  NoDup heap /\ forall n i, mkHeapEntry n i ∈ heap <-> exists d rem, rems !! i = Some ((n, d) :: rem).

Definition fold_state (st : FoldState) (rems : list entries_t) : Prop :=
  Forall2 left_at st.1 rems /\ heap_of rems st.2.

Lemma heap_of_pop rems e heap rest n d rem :
  heap_of rems heap -> heap ≡ₚ e :: rest -> rems !! he_cursor_index e = Some ((n, d) :: rem) ->
  heap_of (<[he_cursor_index e := rem]> rems)
    (match head rem with Some (n', _) => mkHeapEntry n' (he_cursor_index e) :: rest | None => rest end)
  /\ he_node_id e = n.
Proof.
  intros [Hnd Hin] Hp Hi. destruct e as [n0 i]. cbn [he_cursor_index he_node_id] in *.
  assert (n0 = n) as ->.
  { assert (mkHeapEntry n0 i ∈ heap) as (? & ? & Hl)%Hin by (rewrite Hp; by apply list_elem_of_here).
    rewrite Hi in Hl. by injection Hl. }
  split; [|done]. rewrite Hp in Hnd. apply NoDup_cons in Hnd as [Hni Hnd].
  assert (forall n' j, mkHeapEntry n' j ∈ rest <-> j <> i /\ exists d rem, rems !! j = Some ((n', d) :: rem)) as Hrest.
  { intros n' j. rewrite <- Hin, Hp, elem_of_cons. split.
    - intros Hr. split; [|by right]. intros ->. apply Hni.
      assert (mkHeapEntry n' i ∈ heap) as (? & ? & Hl)%Hin by (rewrite Hp; by apply elem_of_cons; right).
      rewrite Hi in Hl. by injection Hl as <-.
    - intros [Hj [Heq|?]]; [congruence | done]. }
  pose proof (lookup_lt_Some _ _ _ Hi) as Hlt.
  assert (forall n' j, (exists d rem', <[i:=rem]> rems !! j = Some ((n', d) :: rem'))
            <-> (j <> i /\ (exists d rem', rems !! j = Some ((n', d) :: rem')))
                \/ (j = i /\ exists d, head rem = Some (n', d))) as Hsplit.
  { intros n' j. destruct (decide (j = i)) as [->|Hj].
    - rewrite list_lookup_insert_eq by done. split; [intros (d' & r' & [= ->]); right; eauto|].
      intros [[]|(_ & d' & Hd')]; [done|]. destruct rem as [|p rem]; [done|]. injection Hd' as ->. eauto.
    - rewrite list_lookup_insert_ne by done. naive_solver. }
  destruct rem as [|[n' d'] rem']; cbn [head]; split.
  - done.
  - intros n'' j. rewrite Hrest, Hsplit. cbn. naive_solver.
  - apply NoDup_cons. split; [|done]. intros [Hj _]%Hrest. done.
  - intros n'' j. rewrite elem_of_cons, Hrest, Hsplit. cbn [head]. split; [|naive_solver].
    intros [[= -> ->]|?]; [right; eauto | by left].
Qed.

Lemma consume_ok cursors heap rems e rest n d rem sum :
  fold_state (cursors, heap) rems -> heap ≡ₚ e :: rest -> rems !! he_cursor_index e = Some ((n, d) :: rem) ->
  exists st, consume_degree_cursor (cursors, rest) (he_cursor_index e) sum = Some (st, Delta.add_assign_delta sum d)
    /\ fold_state st (<[he_cursor_index e := rem]> rems).
Proof.
  intros [Hc Hh] Hp Hi. cbn [fst snd] in *.
  destruct (Forall2_lookup_r _ _ _ _ _ Hc Hi) as (c & Hci & Hl).
  pose proof (left_next c (n, d) rem Hl) as Hl'.
  unfold consume_degree_cursor. rewrite Hci. cbn [mbind option_bind]. rewrite (left_current _ _ Hl). cbn [head].
  rewrite (left_current _ _ Hl'). eexists. split; [reflexivity|]. split; cbn [fst snd].
  - by apply Forall2_insert.
  - apply (heap_of_pop rems e heap rest n d rem Hh Hp Hi).
Qed.

(** ** Sums *)
Definition look (rem : entries_t) (x : Z) : option DegreeDelta := (list_to_map rem : gmap Z DegreeDelta) !! x.
Definition add_look (x : Z) (acc : DegreeDelta) (rem : entries_t) : DegreeDelta :=
  match look rem x with Some d => Delta.add_assign_delta acc d | None => acc end.
Definition sum_from (acc : DegreeDelta) (x : Z) (rems : list entries_t) : DegreeDelta := foldl (add_look x) acc rems.

Lemma look_cons n d rem x : look ((n, d) :: rem) x = if decide (n = x) then Some d else look rem x.
Proof. unfold look. cbn. case_decide; [subst; by rewrite lookup_insert_eq | by rewrite lookup_insert_ne]. Qed.
Lemma look_above rem x : Forall (fun e : Z * DegreeDelta => x < e.1) rem -> look rem x = None.
Proof. induction 1 as [|[n d] rem Hn _ IH]; [done|]. rewrite look_cons. cbn in Hn. case_decide; [lia | done]. Qed.

Lemma sum_from_skip acc x rems : Forall (fun rem => look rem x = None) rems -> sum_from acc x rems = acc.
Proof. intros Hn. induction Hn as [|rem rems Hr _ IH]; [done|].
  change (sum_from (add_look x acc rem) x rems = acc). unfold add_look. rewrite Hr. exact IH.
Qed.
Lemma sum_from_app acc x l1 l2 : sum_from acc x (l1 ++ l2) = sum_from (sum_from acc x l1) x l2.
Proof. apply foldl_app. Qed.

(** What is left of a list after its entry for [x]. *)
Definition strip (x : Z) (rem : entries_t) : entries_t :=
  match rem with
  | [] => []
  | (n, d) :: t => if n =? x then t else (n, d) :: t
  end.
Definition ids_from (x : Z) (rem : entries_t) : Prop := Forall (fun e => x <= e.1) rem.
Definition ids_sorted (rem : entries_t) : Prop := StronglySorted Z.lt (fst <$> rem).

Lemma sorted_tail_above n d rem : ids_sorted ((n, d) :: rem) -> Forall (fun e : Z * DegreeDelta => n < e.1) rem /\ ids_sorted rem.
Proof. unfold ids_sorted. rewrite fmap_cons, StronglySorted_cons, Forall_fmap. naive_solver. Qed.
Lemma strip_above x rem : Forall (fun e : Z * DegreeDelta => x < e.1) rem -> strip x rem = rem.
Proof. destruct 1 as [|[n d] rem Hn _]; [done|]. cbn in *. by destruct (Z.eqb_spec n x); [lia|]. Qed.
Lemma head_above x n d rem :
  ids_sorted ((n, d) :: rem) -> x < n -> Forall (fun e : Z * DegreeDelta => x < e.1) ((n, d) :: rem).
Proof.
  intros [Ha _]%sorted_tail_above Hx. constructor; [done|]. eapply Forall_impl; [done|]. cbn. lia.
Qed.

Lemma sum_from_insert acc x (rems : list entries_t) i d rem :
  rems !! i = Some ((x, d) :: rem) -> Forall (fun e : Z * DegreeDelta => x < e.1) rem ->
  (forall j r, (j < i)%nat -> rems !! j = Some r -> look r x = None) ->
  sum_from acc x rems = sum_from (Delta.add_assign_delta acc d) x (<[i := rem]> rems).
Proof.
  intros Hi Ha Hlow. pose proof (lookup_lt_Some _ _ _ Hi) as Hlt.
  rewrite insert_take_drop by done. rewrite <- (take_drop_middle rems i _ Hi) at 1.
  assert (Forall (fun r => look r x = None) (take i rems)) as Hskip.
  { apply Forall_lookup. intros j r [Hr Hj]%lookup_take_Some. eauto. }
  rewrite !sum_from_app, (sum_from_skip acc), (sum_from_skip (Delta.add_assign_delta acc d)) by done. cbn [sum_from foldl].
  assert (forall a, add_look x a rem = a) as -> by (intros; unfold add_look; by rewrite (look_above rem)).
  assert (add_look x acc ((x, d) :: rem) = Delta.add_assign_delta acc d) as ->; [|done].
  unfold add_look. by rewrite look_cons, decide_True.
Qed.

Definition total (rems : list entries_t) : nat := sum_list (length <$> rems).

Lemma total_insert rems i e rem : rems !! i = Some (e :: rem) -> total rems = S (total (<[i := rem]> rems)).
Proof.
  intros Hi. pose proof (lookup_lt_Some _ _ _ Hi). unfold total. rewrite insert_take_drop by done.
  rewrite <- (take_drop_middle rems i _ Hi) at 1. rewrite !fmap_app, !fmap_cons, !sum_list_with_app. cbn. lia.
Qed.

Lemma fold_state_rems st rems rem :
  fold_state st rems -> rem ∈ rems -> ids_sorted rem /\ Forall entry_ok rem.
Proof.
  intros [Hc _] (i & Hi)%list_elem_of_lookup. destruct (Forall2_lookup_r _ _ _ _ _ Hc Hi) as (c & _ & Hl).
  by apply (left_sorted c).
Qed.

(** The least heap entry heads a list, and bounds every other from below. *)
Lemma pop_head cursors heap rems e rest :
  fold_state (cursors, heap) rems -> heap_pop heap = Some (e, rest) ->
  heap ≡ₚ e :: rest
  /\ (exists d rem, rems !! he_cursor_index e = Some ((he_node_id e, d) :: rem))
  /\ (forall j r, rems !! j = Some r -> ids_from (he_node_id e) r)
  /\ (forall j r, (j < he_cursor_index e)%nat -> rems !! j = Some r -> Forall (fun x : Z * DegreeDelta => he_node_id e < x.1) r).
Proof.
  intros Hst Hpop. pose proof (heap_pop_spec heap) as Hp. rewrite Hpop in Hp. destruct Hp as [Hp Hmin].
  pose proof Hst as [_ [_ Hin]]. cbn [snd] in Hin.
  assert (forall j n d rem, rems !! j = Some ((n, d) :: rem) ->
            he_node_id e < n \/ he_node_id e = n /\ (he_cursor_index e <= j)%nat) as Hle.
  { intros j n d rem Hj. assert (mkHeapEntry n j ∈ heap) as He%Hmin by (apply Hin; eauto).
    by apply heap_le_spec in He. }
  split; [done|]. split.
  { destruct e as [n i]. apply Hin. rewrite Hp. apply list_elem_of_here. }
  split; intros j r; [intros Hj | intros Hji Hj];
    (destruct (fold_state_rems _ _ r Hst) as [Hs _]; [by eapply list_elem_of_lookup_2|]);
    (destruct r as [|[n d] r]; [constructor|]); specialize (Hle _ _ _ _ Hj).
  - destruct (sorted_tail_above _ _ _ Hs) as [Ha _]. constructor; [cbn; lia|].
    eapply Forall_impl; [done|]. cbn. lia.
  - apply head_above; [done | lia].
Qed.

Lemma empty_heap cursors rems i rem : fold_state (cursors, []) rems -> rems !! i = Some rem -> rem = [].
Proof.
  intros [_ [_ Hin]] Hi. destruct rem as [|[n d] rem]; [done|]. exfalso.
  apply (not_elem_of_nil (mkHeapEntry n i)), Hin. eauto.
Qed.

Lemma strip_id x (rems : list entries_t) :
  (forall i rem, rems !! i = Some rem -> Forall (fun e : Z * DegreeDelta => x < e.1) rem) ->
  strip x <$> rems = rems /\ forall acc, sum_from acc x rems = acc.
Proof.
  intros Ha. split.
  - rewrite <- (list_fmap_id rems) at 2. apply list_fmap_ext. intros i rem Hi. apply strip_above. eauto.
  - intros acc. apply sum_from_skip, Forall_lookup. intros i rem Hi. apply look_above. eauto.
Qed.

Lemma strip_insert x (rems : list entries_t) i d rem :
  rems !! i = Some ((x, d) :: rem) -> Forall (fun e : Z * DegreeDelta => x < e.1) rem ->
  strip x <$> <[i := rem]> rems = strip x <$> rems.
Proof.
  intros Hi Ha. rewrite list_fmap_insert, strip_above by done. apply list_insert_id.
  rewrite list_lookup_fmap, Hi. cbn. by rewrite Z.eqb_refl.
Qed.

Lemma consume_node_ok fuel x st rems sum :
  fold_state st rems -> Forall (ids_from x) rems -> (total rems < fuel)%nat ->
  exists st', consume_node fuel x st sum = Some (st', sum_from sum x rems) /\ fold_state st' (strip x <$> rems).
Proof.
  revert st rems sum. induction fuel as [|fuel IH]; intros [cursors heap] rems sum Hst Hx Hf; [lia|].
  cbn [consume_node snd fst]. destruct (heap_pop heap) as [[e rest]|] eqn:Hpop.
  - destruct (pop_head _ _ _ _ _ Hst Hpop) as (Hp & (d & rem & Hi) & Hfrom & Hlow).
    destruct (Z.eqb_spec (he_node_id e) x) as [<-|Hne].
    + destruct (consume_ok _ _ _ _ _ _ _ _ sum Hst Hp Hi) as (st1 & -> & Hst1). cbn [mbind option_bind].
      destruct (fold_state_rems _ _ _ Hst (list_elem_of_lookup_2 _ _ _ Hi)) as [Hs _].
      destruct (sorted_tail_above _ _ _ Hs) as [Habove _].
      rewrite (sum_from_insert _ _ _ _ _ _ Hi Habove) by (intros; eapply look_above, Hlow; done).
      rewrite <- (strip_insert _ _ _ _ _ Hi Habove).
      rewrite (total_insert _ _ _ _ Hi) in Hf. apply IH; [done| |lia].
      apply Forall_insert; [done|]. eapply Forall_impl; [exact Habove|]. cbn. lia.
    + destruct (strip_id x rems) as [-> Hsum]; [|rewrite Hsum; eauto].
      intros j r Hj. specialize (Hfrom _ _ Hj). eapply Forall_impl; [exact Hfrom|]. cbn.
      rewrite Forall_lookup in Hx. specialize (Hx _ _ Hi). apply Forall_cons in Hx as [Hx _]. cbn in Hx. lia.
  - pose proof (heap_pop_spec heap) as Hh. rewrite Hpop in Hh. subst heap.
    destruct (strip_id x rems) as [-> Hsum]; [|rewrite Hsum; eauto].
    intros j r Hj. by rewrite (empty_heap _ _ _ _ Hst Hj).
Qed.

(** ** The whole merge *)
Lemma look_strip x y rem : y <> x -> look (strip x rem) y = look rem y.
Proof.
  intros Hy. destruct rem as [|[n d] rem]; [done|]. cbn [strip]. destruct (Z.eqb_spec n x) as [->|]; [|done].
  by rewrite look_cons, decide_False.
Qed.
Lemma sum_from_strip acc x y rems : y <> x -> sum_from acc y (strip x <$> rems) = sum_from acc y rems.
Proof.
  intros Hy. revert acc. induction rems as [|rem rems IH]; intros acc; [done|]. rewrite fmap_cons.
  change (sum_from (add_look y acc (strip x rem)) y (strip x <$> rems) = sum_from (add_look y acc rem) y rems).
  rewrite IH. unfold add_look. by rewrite look_strip.
Qed.
Lemma total_strip x rems : (total (strip x <$> rems) <= total rems)%nat.
Proof.
  unfold total. induction rems as [|rem rems IH]; [done|]. rewrite !fmap_cons. cbn.
  assert (length (strip x rem) <= length rem)%nat; [|unfold sum_list_with in *; lia].
  destruct rem as [|[n d] rem]; [done|]. cbn. destruct (_ =? _); cbn; lia.
Qed.
Lemma stripped_above x rem :
  ids_sorted rem -> ids_from x rem -> Forall (fun e : Z * DegreeDelta => x < e.1) (strip x rem).
Proof.
  intros Hs Hx. destruct rem as [|[n d] rem]; [constructor|]. cbn [strip].
  destruct (sorted_tail_above _ _ _ Hs) as [Ha _]. apply Forall_cons in Hx as [Hn _]. cbn in Hn.
  destruct (Z.eqb_spec n x) as [->|]; [done|]. apply head_above; [done|lia].
Qed.

(** The merge of [rems]: ascending ids, each with its nonzero sum. *)
Record folded (rems : list entries_t) (out : entries_t) : Prop := {
  fo_sorted : ids_sorted out;
  fo_sums : forall x d, (x, d) ∈ out <-> d = sum_from Delta.ZERO x rems /\ Delta.is_zero d = false;
  fo_length : (length out <= total rems)%nat
}.

Lemma folded_step (rems : list entries_t) i d rem out x :
  rems !! i = Some ((x, d) :: rem) -> (forall j r, rems !! j = Some r -> ids_sorted r /\ ids_from x r) ->
  folded (strip x <$> rems) out ->
  let sum := sum_from Delta.ZERO x rems in
  folded rems (if Delta.is_zero sum then out else (x, sum) :: out).
Proof.
  intros Hi Hr [Hs Hsums Hlen]. cbv zeta.
  assert (sum_from Delta.ZERO x (strip x <$> rems) = Delta.ZERO) as Hx.
  { apply sum_from_skip, Forall_fmap, Forall_lookup. intros j r Hj. apply look_above, stripped_above; by eapply Hr. }
  assert (Forall (fun e : Z * DegreeDelta => x < e.1) out) as Habove.
  { apply Forall_forall. intros [y dy] [Hd Hz]%Hsums. cbn. destruct (Z.lt_trichotomy y x) as [Hyx|[->|?]]; [|by rewrite Hd, Hx in Hz|done].
    rewrite sum_from_strip, sum_from_skip in Hd by (lia || (apply Forall_lookup; intros j r Hj; apply look_above;
      eapply Forall_impl; [apply (Hr _ _ Hj)|]; cbn; lia)). by subst dy. }
  assert (forall y dy, y <> x ->
    ((y, dy) ∈ out <-> dy = sum_from Delta.ZERO y rems /\ Delta.is_zero dy = false)) as Hother.
  { intros y dy Hy. by rewrite Hsums, sum_from_strip. }
  assert (forall dy, (x, dy) ∉ out) as Hnx by (intros dy [Hd Hz]%Hsums; by rewrite Hd, Hx in Hz).
  assert (S (length out) <= total rems)%nat as Hl.
  { assert (total (strip x <$> rems) < total rems)%nat; [|lia]. rewrite (total_insert _ _ _ _ Hi).
    destruct (Hr _ _ Hi) as [[Ha _]%sorted_tail_above _].
    rewrite <- (strip_insert _ _ _ _ _ Hi Ha). pose proof (total_strip x (<[i:=rem]> rems)). lia. }
  destruct (Delta.is_zero (sum_from Delta.ZERO x rems)) eqn:Ez; split; try done.
  - intros y dy. destruct (decide (y = x)) as [->|Hy]; [|by apply Hother].
    split; [by intros ?%Hnx | intros [-> ?]; congruence].
  - lia.
  - unfold ids_sorted. rewrite fmap_cons. apply StronglySorted_cons. split; [by apply Forall_fmap | done].
  - intros y dy. rewrite elem_of_cons. destruct (decide (y = x)) as [->|Hy].
    + split; [intros [[= ->]|?%Hnx]; done | intros [-> ?]; by left].
    + rewrite Hother by done. naive_solver.
Qed.

Lemma folded_nil (rems : list entries_t) : (forall j r, rems !! j = Some r -> r = []) -> folded rems [].
Proof.
  intros Hn. split; [constructor| |cbn; lia]. intros x d. split; [by intros ?%not_elem_of_nil|].
  rewrite sum_from_skip by (apply Forall_lookup; intros j r Hj; by rewrite (Hn _ _ Hj)). by intros [-> ?].
Qed.

Lemma fold_loop_ok fuel st rems :
  fold_state st rems -> (total rems < fuel)%nat -> exists out, fold_loop fuel st = Some out /\ folded rems out.
Proof.
  revert st rems. induction fuel as [|fuel IH]; intros [cursors heap] rems Hst Hf; [lia|].
  cbn [fold_loop snd fst]. destruct (heap_pop heap) as [[e rest]|] eqn:Hpop.
  - destruct (pop_head _ _ _ _ _ Hst Hpop) as (Hp & (d & rem & Hi) & Hfrom & Hlow).
    assert (forall j r, rems !! j = Some r -> ids_sorted r /\ ids_from (he_node_id e) r) as Hr
      by (intros j r Hj; split; [eapply fold_state_rems, list_elem_of_lookup_2; done | eauto]).
    destruct (consume_ok _ _ _ _ _ _ _ _ Delta.ZERO Hst Hp Hi) as (st1 & -> & Hst1). cbn [mbind option_bind].
    destruct (Hr _ _ Hi) as [[Habove _]%sorted_tail_above _].
    rewrite (total_insert _ _ _ _ Hi) in Hf.
    destruct (consume_node_ok fuel (he_node_id e) st1 _ (Delta.add_assign_delta Delta.ZERO d) Hst1)
      as (st2 & -> & Hst2); [|lia|].
    { apply Forall_insert; [apply Forall_lookup; apply Hr|]. eapply Forall_impl; [exact Habove|]. cbn. lia. }
    cbn [mbind option_bind].
    rewrite <- (sum_from_insert _ _ _ _ _ _ Hi Habove) by (intros; eapply look_above, Hlow; done).
    destruct (IH _ _ Hst2) as (out & -> & Hout).
    { pose proof (total_strip (he_node_id e) (<[he_cursor_index e:=rem]> rems)). lia. }
    cbn [mbind option_bind]. eexists. split; [reflexivity|]. apply (folded_step rems (he_cursor_index e) d rem); try done.
    by rewrite <- (strip_insert _ _ _ _ _ Hi Habove).
  - exists []. split; [done|]. apply folded_nil. pose proof (heap_pop_spec heap) as Hh. rewrite Hpop in Hh. subst heap.
    intros j r Hj. by apply (empty_heap _ _ _ _ Hst Hj).
Qed.

(** ** From the opened sidecars *)
Lemma initial_heap_from k cursors (rems : list entries_t) :
  Forall2 left_at cursors rems ->
  let heap := mjoin (imap (fun i cursor => match cursor_current cursor with
                             | Some (node_id, _) => [mkHeapEntry node_id (k + i)]
                             | None => []
                             end) cursors) in
  NoDup heap /\ forall n i, mkHeapEntry n i ∈ heap <-> (k <= i)%nat /\ exists d rem, rems !! (i - k)%nat = Some ((n, d) :: rem).
Proof.
  intros Hc. revert k. induction Hc as [|c rem cursors rems Hl Hc IH]; intros k; cbv zeta.
  { split; [constructor|]. intros n i. cbn. split; [by intros ?%not_elem_of_nil | naive_solver]. }
  rewrite imap_cons. cbn [mjoin list_join]. rewrite (left_current _ _ Hl).
  replace (imap _ cursors) with (imap (fun i cursor => match cursor_current cursor with
                             | Some (node_id, _) => [mkHeapEntry node_id (S k + i)]
                             | None => []
                             end) cursors)
    by (apply imap_ext; intros i c' _; cbn; by rewrite Nat.add_succ_r).
  destruct (IH (S k)) as [Hnd Hin]. cbv zeta in Hnd, Hin.
  set (heap := mjoin _) in *. clearbody heap.
  assert (forall n i, mkHeapEntry n i ∈ heap -> (S k <= i)%nat) as Hlow by (intros n i [? _]%Hin; lia).
  assert (forall n i, (k <= i)%nat /\ (exists d t, (rem :: rems) !! (i - k)%nat = Some ((n, d) :: t))
            <-> (i = k /\ exists d, head rem = Some (n, d)) \/ mkHeapEntry n i ∈ heap) as Hsplit.
  { intros n i. rewrite Hin. split.
    - intros (Hi & d & t & Hl'). destruct (decide (i = k)) as [->|].
      + left. split; [done|]. rewrite Nat.sub_diag in Hl'. injection Hl' as ->. eauto.
      + right. split; [lia|]. exists d, t. by replace (i - k)%nat with (S (i - S k)) in Hl' by lia.
    - intros [(-> & d & Hd)|(Hi & d & t & Hl')].
      + split; [lia|]. rewrite Nat.sub_diag. destruct rem as [|p rem]; [done|]. injection Hd as ->. eauto.
      + split; [lia|]. exists d, t. by replace (i - k)%nat with (S (i - S k)) by lia. }
  rewrite Nat.add_0_r. destruct rem as [|[n d] rem]; cbn [head app].
  - split; [done|]. intros n i. rewrite Hsplit. cbn [head]. naive_solver.
  - split; [apply NoDup_cons; split; [intros Hk%Hlow; lia | done]|].
    intros n' i. rewrite elem_of_cons, Hsplit. cbn [head]. split; [|naive_solver].
    intros [[= -> ->]|?]; [left; eauto | by right].
Qed.

Lemma initial_state (ess : list entries_t) :
  Forall entries_ok ess ->
  let cursors := (fun s => mkCursor s 0) <$> (opened <$> ess) in
  fold_state (cursors, initial_heap cursors) ess.
Proof.
  intros Hok. cbv zeta.
  assert (Forall2 left_at ((fun s => mkCursor s 0) <$> (opened <$> ess)) ess) as Hc.
  { rewrite <- list_fmap_compose. apply Forall2_fmap_l, Forall_Forall2_diag.
    eapply Forall_impl; [done|]. intros es Hes. exists es, 0%nat. by split_and!; try apply Hes. }
  split; [done|]. destruct (initial_heap_from 0 _ _ Hc) as [Hnd Hin]. split; [exact Hnd|].
  intros n i. cbn [snd]. etransitivity; [apply Hin|]. rewrite Nat.sub_0_r. split; [by intros [_ ?] | intros ?; split; [lia|done]].
Qed.

Lemma total_counts (ess : list entries_t) :
  foldr Z.add 0 (sc_entry_count <$> (opened <$> ess)) = Z.of_nat (total ess).
Proof.
  unfold total. induction ess as [|es ess IH]; [done|]. rewrite !fmap_cons. cbn [foldr]. rewrite IH. cbn. lia.
Qed.

Lemma for_each_ok (ess : list entries_t) :
  Forall entries_ok ess -> exists out, for_each_folded_degree_entry (opened <$> ess) = Some out /\ folded ess out.
Proof.
  intros Hok. apply fold_loop_ok; [by apply initial_state|]. unfold fold_fuel. rewrite total_counts. lia.
Qed.

(** ** What is written *)
Lemma sum_from_ok acc x rems : delta_ok acc -> delta_ok (sum_from acc x rems).
Proof.
  revert acc. induction rems as [|rem rems IH]; intros acc Ha; [done|]. apply IH. unfold add_look.
  destruct (look rem x); [apply delta_ok_add | done].
Qed.

Lemma folded_ok (ess : list entries_t) out :
  Forall entries_ok ess -> folded ess out -> Forall entry_ok out.
Proof.
  intros Hok [_ Hsums _]. apply Forall_forall. intros [x d] [Hd Hz]%Hsums. split_and!; cbn [fst snd]; try done.
  2: { rewrite Hd. by apply sum_from_ok. }
  destruct (decide (Exists (fun rem => is_Some (look rem x)) ess)) as [(es & Hes & d' & Hl)%Exists_exists|Hn].
  - rewrite Forall_forall in Hok. destruct (Hok es Hes) as [_ Hoks _].
    rewrite Forall_forall in Hoks. by apply (Hoks (x, d')), elem_of_list_to_map_2.
  - rewrite sum_from_skip in Hd; [by subst d|]. apply Forall_lookup. intros i rem Hi.
    destruct (look rem x) eqn:E; [|done]. exfalso. apply Hn, Exists_exists. exists rem.
    split; [by eapply list_elem_of_lookup_2 | eauto].
Qed.

Lemma block_index_spec (es : entries_t) n c :
  (c + n)%nat = length es ->
  block_index_of (Z.of_nat c) (drop c es)
  = (fun j => ((nth (256 * j) es (0, Delta.ZERO)).1, Z.of_nat (256 * j)))
      <$> seq (blocks_for c) (blocks_for (length es) - blocks_for c).
Proof.
  revert c. induction n as [|n IH]; intros c Hc.
  { rewrite drop_ge by lia. replace c with (length es) by lia. by rewrite Nat.sub_diag. }
  assert (c < length es)%nat as [[x d] He]%lookup_lt_is_Some_2 by lia. rewrite (drop_S _ _ _ He). cbn [block_index_of].
  replace (Z.of_nat c + 1) with (Z.of_nat (S c)) by lia. rewrite IH by lia.
  destruct (blocks_for_spec c) as (_ & Hc1 & Hc2). destruct (blocks_for_spec (S c)) as (_ & Hs1 & Hs2).
  destruct (blocks_for_spec (length es)) as (_ & Hl1 & Hl2). unfold DEGREE_DELTA_BLOCK_SIZE.
  pose proof (Z.div_mod (Z.of_nat c) 256 ltac:(lia)). pose proof (Z.mod_pos_bound (Z.of_nat c) 256 ltac:(lia)).
  destruct (Z.eqb_spec (Z.of_nat c mod 256) 0) as [Em|Em].
  - assert (256 * blocks_for c = c)%nat as E by lia.
    replace (blocks_for (S c)) with (S (blocks_for c)) by lia.
    replace (blocks_for (length es) - blocks_for c)%nat with (S (blocks_for (length es) - S (blocks_for c))) by lia.
    cbn [seq]. rewrite fmap_cons, E, (nth_lookup_Some _ _ _ _ He). done.
  - by replace (blocks_for (S c)) with (blocks_for c) by lia.
Qed.

Lemma block_index_bytes (es : entries_t) :
  Z.of_nat (length (block_index_of 0 es)) = Z.of_nat (blocks_for (length es))
  /\ mjoin ((fun b : Z * Z => le_bytes 8 b.1 ++ le_bytes 8 b.2) <$> block_index_of 0 es) = blocks_bytes es.
Proof.
  pose proof (block_index_spec es (length es) 0 eq_refl) as E. rewrite drop_0 in E. change (Z.of_nat 0) with 0 in E.
  change (blocks_for 0) with 0%nat in E. rewrite Nat.sub_0_r in E. rewrite E. split.
  - by rewrite length_fmap, length_seq.
  - rewrite <- list_fmap_compose. unfold blocks_bytes. f_equal. apply list_fmap_ext. intros ? j _.
    cbn [compose fst snd]. unfold encode_block. cbv zeta. unfold DEGREE_DELTA_BLOCK_SIZE.
    replace (Z.of_nat j * 256) with (Z.of_nat (256 * j)) by lia. by rewrite Nat2Z.id.
Qed.

Lemma validate_all_ok `{!Crc32Laws} (ess : list entries_t) :
  Forall entries_ok ess -> validate_all (opened <$> ess) = Ok tt.
Proof. induction 1 as [|es ess Hes _ IH]; [done|]. rewrite fmap_cons. cbn [validate_all opened sc_payload].
  by rewrite encode_validates, bind_Ok_l. Qed.

Lemma write_folded_ok `{!Crc32Laws} (ess : list entries_t) :
  Forall entries_ok ess ->
  exists out, folded ess out
    /\ write_folded_degree_delta_sidecar_payload_from_sidecars (opened <$> ess)
       = Some (Ok (encode_sorted_degree_delta_sidecar_unchecked out)).
Proof.
  intros Hok. destruct (for_each_ok ess Hok) as (out & Hf & Hout). exists out. split; [done|].
  unfold write_folded_degree_delta_sidecar_payload_from_sidecars. rewrite validate_all_ok, Hf by done.
  cbn [mbind option_bind]. cbv zeta. do 2 f_equal. destruct (block_index_bytes out) as [Hl ->]. rewrite Hl.
  unfold encode_sorted_degree_delta_sidecar_unchecked. cbv zeta.
  destruct (blocks_for_spec (length out)) as [E _]. rewrite <- E, Nat2Z.id. done.
Qed.

Lemma folded_entries_ok (ess : list entries_t) out :
  Forall entries_ok ess -> folded ess out ->
  80 * foldr Z.add 0 (sc_entry_count <$> (opened <$> ess)) + 64 <= u64_max -> entries_ok out.
Proof.
  intros Hok Hf Hfit. rewrite total_counts in Hfit. pose proof Hf as [Hs _ Hl]. split; [done|by eapply folded_ok|].
  destruct (blocks_for_spec (length out)) as (_ & Hb & _). lia.
Qed.

(** ** What a lookup sums *)
Definition nonzero (d : DegreeDelta) : Prop := Delta.is_zero d = false.
#[global] Instance nonzero_dec d : Decision (nonzero d) := decide (Delta.is_zero d = false).

(** The deltas the sidecars hold for a node, added in sidecar order. *)
Definition lookup_sum (sidecars : list DegreeSidecar) (x : Z) : DegreeDelta :=
  foldl Delta.add_assign_delta Delta.ZERO (filter nonzero ((fun s => lookup s x) <$> sidecars)).

Lemma look_elem es x d : look es x = Some d -> (x, d) ∈ es.
Proof. apply elem_of_list_to_map_2. Qed.
Lemma look_nonzero es x d : Forall entry_ok es -> look es x = Some d -> nonzero d.
Proof. intros Hok Hl%look_elem. rewrite Forall_forall in Hok. by apply (Hok (x, d)). Qed.

Lemma sum_from_lookups (ess : list entries_t) acc x :
  Forall entries_ok ess ->
  sum_from acc x ess
  = foldl Delta.add_assign_delta acc (filter nonzero ((fun s => lookup s x) <$> (opened <$> ess))).
Proof.
  intros Hok. revert acc. induction Hok as [|es ess Hes Hok IH]; intros acc; [done|]. rewrite !fmap_cons.
  change (sum_from (add_look x acc es) x ess = foldl Delta.add_assign_delta acc
    (filter nonzero (lookup (opened es) x :: ((fun s => lookup s x) <$> (opened <$> ess))))).
  rewrite IH, lookup_opened by done. unfold add_look. fold (look es x).
  destruct (look es x) as [d|] eqn:E; cbn [default].
  - rewrite filter_cons_True; [done|]. destruct Hes. by eapply look_nonzero.
  - by rewrite filter_cons_False.
Qed.

Lemma folded_look (ess : list entries_t) out x :
  folded ess out -> entries_ok out ->
  default Delta.ZERO (look out x)
  = let sum := sum_from Delta.ZERO x ess in if Delta.is_zero sum then Delta.ZERO else sum.
Proof.
  intros [Hs Hsums _] [_ Hok _]. cbv zeta. destruct (look out x) as [d|] eqn:E; cbn [default].
  - apply look_elem, Hsums in E as [<- Hz]. by rewrite Hz.
  - destruct (Delta.is_zero _) eqn:Ez; [done|].
    pose proof (proj2 (Hsums x _) (conj eq_refl Ez)) as Hin.
    apply elem_of_list_to_map in Hin; [|by apply strictly_sorted_NoDup]. unfold look in E. congruence.
Qed.

(** C38. Compacting segments keeps every cached degree: folding any sidecars
    written by the engine always yields a file, that file opens, and a lookup
    in it gives the sum, in sidecar order, of the lookups in the inputs (zero
    when the sum cancels out). *)
Theorem fold_preserves_lookups `{!Crc32Laws} (ess : list entries_t) sidecars :
  Forall entries_ok ess ->
  mapM open_payload (encode_sorted_degree_delta_sidecar_unchecked <$> ess) = Ok sidecars ->
  80 * foldr Z.add 0 (sc_entry_count <$> sidecars) + 64 <= u64_max ->
  exists payload merged,
    write_folded_degree_delta_sidecar_payload_from_sidecars sidecars = Some (Ok payload)
    /\ validate_degree_sidecar payload = Ok tt /\ open_payload payload = Ok merged
    /\ forall x, lookup merged x
         = if Delta.is_zero (lookup_sum sidecars x) then Delta.ZERO else lookup_sum sidecars x.
Proof.
  intros Hok Ho Hfit. assert (sidecars = opened <$> ess) as ->.
  { clear Hfit. revert sidecars Ho. induction Hok as [|es ess Hes Hok IH]; intros ss Ho; [by injection Ho as <-|].
    rewrite !fmap_cons in *. cbn [mapM] in Ho. rewrite open_encoding, bind_Ok_l in Ho by done.
    apply bind_Ok_inv in Ho as (ss' & Hss & Ho). apply Ok_inj in Ho as <-. by rewrite (IH ss'). }
  destruct (write_folded_ok ess Hok) as (out & Hout & Hw).
  pose proof (folded_entries_ok ess out Hok Hout Hfit) as Hes.
  exists (encode_sorted_degree_delta_sidecar_unchecked out), (opened out).
  split_and!; [done|by apply encode_validates|by apply open_encoding|].
  intros x. unfold lookup_sum. rewrite lookup_opened by done. rewrite <- sum_from_lookups by done.
  by apply (folded_look ess out x Hout).
Qed.
End Fold.
