(* ===== verification/Manifest.v ===== *)
(** The manifest (src/manifest.rs, types.rs, the entry points of schema.rs): its
    state and its validation.

    The schema declarations are the business of another component: their types,
    the normalization of one and the validation of all are the interface
    [Schemas]. *)
From S2P Require Import Prelude Types MemtableReads.

Definition LABEL_TOKEN_SCHEMA_VERSION : Z := 1.
Definition SCHEMA_CATALOG_VERSION : Z := 1.
Definition MAX_SECONDARY_INDEX_FIELDS : Z := 8.
Definition SEGMENT_FORMAT_VERSION : Z := 10.

Record SegmentInfo : Type := mkSegmentInfo {
  si_id : Z;
  si_node_count : Z;
  si_edge_count : Z;
  si_segment_format_version : Z;
  si_segment_data_id : list byte
}.
Inductive FlushEpochState : Type := FrozenPendingFlush | PublishedPendingRetire.
Record FlushEpochMeta : Type := mkFlushEpoch {
  fe_epoch_id : Z;
  fe_wal_generation_id : Z;
  fe_state : FlushEpochState;
  fe_segment_id : option Z
}.
Record PrunePolicy : Type := mkPrunePolicy {
  pp_max_age_ms : option Z;
  pp_max_weight : option Z;
  pp_label : option str
}.
Inductive DenseMetric : Type := Cosine | Euclidean | DotProduct.
Record HnswConfig : Type := mkHnsw { hnsw_m : Z; hnsw_ef_construction : Z }.
Record DenseVectorConfig : Type := mkDenseConfig {
  dv_dimension : Z;
  dv_metric : DenseMetric;
  dv_hnsw : HnswConfig
}.

(** The schema component: its declarations, and what it makes of one. *)
Class Schemas : Type := {
  NodeSchemaManifestEntry : Type;
  EdgeSchemaManifestEntry : Type;
  node_schema_id : NodeSchemaManifestEntry -> Z;
  edge_schema_id : EdgeSchemaManifestEntry -> Z;
  normalize_node_schema_entry : NodeSchemaManifestEntry -> NodeSchemaManifestEntry * bool;
  normalize_edge_schema_entry : EdgeSchemaManifestEntry -> EdgeSchemaManifestEntry * bool;
  validate_schema_entries :
    list NodeSchemaManifestEntry -> list EdgeSchemaManifestEntry -> gmap str Z -> gmap str Z -> res unit
}.

(** ** The state *)
Record ManifestState `{Schemas} : Type := mkManifest {
  ms_version : Z;
  ms_label_token_schema_version : Z;
  ms_node_label_tokens : gmap str Z;
  ms_edge_label_tokens : gmap str Z;
  ms_next_node_label_id : Z;
  ms_next_edge_label_id : Z;
  ms_segments : list SegmentInfo;
  ms_next_node_id : Z;
  ms_next_edge_id : Z;
  ms_dense_vector : option DenseVectorConfig;
  ms_prune_policies : gmap str PrunePolicy;
  ms_next_engine_seq : Z;
  ms_next_wal_generation_id : Z;
  ms_active_wal_generation_id : Z;
  ms_pending_flush_epochs : list FlushEpochMeta;
  ms_secondary_indexes : list SecondaryIndexManifestEntry;
  ms_next_secondary_index_id : Z;
  ms_schema_catalog_version : Z;
  ms_next_schema_id : Z;
  ms_node_schemas : list NodeSchemaManifestEntry;
  ms_edge_schemas : list EdgeSchemaManifestEntry
}.

#[export] Instance NodeMetadataIndexField_eq_dec : EqDecision NodeMetadataIndexField.
Proof. solve_decision. Defined.
#[export] Instance EdgeMetadataIndexField_eq_dec : EqDecision EdgeMetadataIndexField.
Proof. solve_decision. Defined.
#[export] Instance SecondaryIndexFieldManifest_eq_dec : EqDecision SecondaryIndexFieldManifest.
Proof. solve_decision. Defined.
#[export] Instance SecondaryIndexKind_eq_dec : EqDecision SecondaryIndexKind.
Proof. solve_decision. Defined.

(** ** Index declarations.  A public field carries what its manifest form does. *)
Inductive SecondaryIndexTargetKind : Type := Node | Edge.
#[export] Instance SecondaryIndexTargetKind_eq_dec : EqDecision SecondaryIndexTargetKind.
Proof. solve_decision. Defined.

Definition target_kind (t : SecondaryIndexTarget) : SecondaryIndexTargetKind :=
  match t with NodeProperty _ _ | NodeFieldIndex _ _ => Node | EdgeProperty _ _ | EdgeFieldIndex _ _ => Edge end.
Definition target_label_id (t : SecondaryIndexTarget) : Z :=
  match t with NodeProperty l _ | EdgeProperty l _ | NodeFieldIndex l _ | EdgeFieldIndex l _ => l end.
Definition public_fields (t : SecondaryIndexTarget) : list SecondaryIndexFieldManifest :=
  match t with
  | NodeProperty _ prop_key | EdgeProperty _ prop_key => [Property prop_key]
  | NodeFieldIndex _ fields | EdgeFieldIndex _ fields => fields
  end.

Definition invalid_secondary_index (message : string) : EngineError :=
  InvalidOperation ("invalid secondary index: " ++ message).

Fixpoint validate_fields_from (seen fields : list SecondaryIndexFieldManifest) (kind : SecondaryIndexTargetKind)
  : res unit :=
  match fields with
  | [] => Ok tt
  | field :: fields =>
      _ ← match kind, field with
          | _, Property key =>
              if decide (key = []) then Err (invalid_secondary_index "property key must not be empty") else Ok tt
          | Node, NodeMetadata _ | Edge, EdgeMetadata _ => Ok tt
          | Node, EdgeMetadata _ => Err (invalid_secondary_index "node indexes cannot include edge metadata fields")
          | Edge, NodeMetadata _ => Err (invalid_secondary_index "edge indexes cannot include node metadata fields")
          end;
      if decide (field ∈ seen) then Err (invalid_secondary_index "duplicate field")
      else validate_fields_from (field :: seen) fields kind
  end.
Definition validate_secondary_index_fields (fields : list SecondaryIndexFieldManifest)
  (kind : SecondaryIndexTargetKind) : res unit :=
  if len fields =? 0 then Err (invalid_secondary_index "field list must contain 1 to 8 fields")
  else if MAX_SECONDARY_INDEX_FIELDS <? len fields then
    Err (invalid_secondary_index "compound secondary indexes support at most 8 fields")
  else validate_fields_from [] fields kind.
Definition validate_secondary_index_target (t : SecondaryIndexTarget) : res unit :=
  validate_secondary_index_fields (public_fields t) (target_kind t).

Definition SecondaryIndexLogicalIdentity : Type :=
  SecondaryIndexTargetKind * Z * list SecondaryIndexFieldManifest * SecondaryIndexKind.
Definition secondary_index_logical_identity (e : SecondaryIndexManifestEntry) : res SecondaryIndexLogicalIdentity :=
  _ ← validate_secondary_index_target (ie_target e);
  Ok (target_kind (ie_target e), target_label_id (ie_target e), public_fields (ie_target e), ie_kind e).

(** ** Validation *)
Definition max_of (zs : list Z) : Z := foldr Z.max 0 zs.

(** [validate_token_namespace]: the tokens in name order, the ids already seen. *)
Fixpoint validate_tokens_from (ids : gmap Z str) (max_id : Z) (tokens : list (str * Z)) (next_id : Z) : res unit :=
  match tokens with
  | [] => if next_id <=? max_id then Err (ManifestError "next token id must be greater than max assigned id") else Ok tt
  | (name, label_id) :: tokens =>
      match validate_label_token_name name with
      | Err _ => Err (ManifestError "token name is invalid")
      | Ok _ =>
          if label_id =? 0 then Err (ManifestError "token uses reserved label_id 0")
          else match ids !! label_id with
               | Some _ => Err (ManifestError "token conflict: label_id is assigned to both")
               | None => validate_tokens_from (<[label_id := name]> ids) (Z.max max_id label_id) tokens next_id
               end
      end
  end.
Definition validate_token_namespace (tokens : gmap str Z) (next_id : Z) : res unit :=
  validate_tokens_from ∅ 0 (btree_iter tokens) next_id.

Section Manifest.
Context `{Schemas}.

Definition validate_label_token_manifest (st : ManifestState) : res unit :=
  if ms_label_token_schema_version st =? 0 then
    Err (ManifestError "database manifest is missing label token schema; recreate the database")
  else if negb (ms_label_token_schema_version st =? LABEL_TOKEN_SCHEMA_VERSION) then
    Err (ManifestError "unsupported label token schema version")
  else
    _ ← validate_token_namespace (ms_node_label_tokens st) (ms_next_node_label_id st);
    validate_token_namespace (ms_edge_label_tokens st) (ms_next_edge_label_id st).

Definition tokens_have (tokens : gmap str Z) (label_id : Z) : bool :=
  existsb (fun e => e.2 =? label_id) (btree_iter tokens).

Fixpoint validate_indexes_from (st : ManifestState) (seen_ids : list Z)
  (seen_identities : list SecondaryIndexLogicalIdentity) (entries : list SecondaryIndexManifestEntry) : res unit :=
  match entries with
  | [] => Ok tt
  | entry :: entries =>
      if decide (ie_index_id entry ∈ seen_ids) then Err (ManifestError "duplicate secondary index id in manifest")
      else
        _ ← validate_secondary_index_target (ie_target entry);
        _ ← (match target_kind (ie_target entry) with
             | Node =>
                 if tokens_have (ms_node_label_tokens st) (target_label_id (ie_target entry)) then Ok tt
                 else Err (ManifestError "secondary index references missing node label label_id")
             | Edge =>
                 if tokens_have (ms_edge_label_tokens st) (target_label_id (ie_target entry)) then Ok tt
                 else Err (ManifestError "secondary index references missing edge-label label_id")
             end);
        identity ← secondary_index_logical_identity entry;
        if decide (identity ∈ seen_identities) then Err (ManifestError "duplicate secondary index declaration")
        else validate_indexes_from st (ie_index_id entry :: seen_ids) (identity :: seen_identities) entries
  end.
Definition validate_secondary_index_manifest (st : ManifestState) : res unit :=
  validate_indexes_from st [] [] (ms_secondary_indexes st).

Definition has_schema_entries (st : ManifestState) : bool :=
  negb (len (ms_node_schemas st) =? 0) || negb (len (ms_edge_schemas st) =? 0).

(** [validate_schema_manifest], up to the checks of the entries. *)
Definition validate_schema_manifest (st : ManifestState) : res unit :=
  if (ms_schema_catalog_version st =? 0) && negb (has_schema_entries st) then Ok tt
  else if ms_schema_catalog_version st =? 0 then
    Err (ManifestError "invalid schema manifest: schema_catalog_version 0 cannot contain schema entries")
  else if negb (ms_schema_catalog_version st =? SCHEMA_CATALOG_VERSION) then
    Err (ManifestError "invalid schema manifest: unsupported schema catalog version")
  else validate_schema_entries (ms_node_schemas st) (ms_edge_schemas st)
         (ms_node_label_tokens st) (ms_edge_label_tokens st).

Definition segment_supported (s : SegmentInfo) : bool :=
  (si_segment_format_version s =? SEGMENT_FORMAT_VERSION)
  && negb (bool_decide (si_segment_data_id s = replicate 32 Byte.x00)).

Definition validate_manifest_identity (st : ManifestState) : res unit :=
  _ ← validate_label_token_manifest st;
  _ ← validate_schema_manifest st;
  _ ← validate_secondary_index_manifest st;
  if forallb segment_supported (ms_segments st) then Ok tt
  else Err (ManifestError "unsupported segment manifest entry; rebuild the database").

Definition set_schemas (version next_schema_id : Z) (nodes : list NodeSchemaManifestEntry)
  (edges : list EdgeSchemaManifestEntry) (st : ManifestState) : ManifestState :=
  mkManifest _ (ms_version st) (ms_label_token_schema_version st) (ms_node_label_tokens st) (ms_edge_label_tokens st)
    (ms_next_node_label_id st) (ms_next_edge_label_id st) (ms_segments st) (ms_next_node_id st) (ms_next_edge_id st)
    (ms_dense_vector st) (ms_prune_policies st) (ms_next_engine_seq st) (ms_next_wal_generation_id st)
    (ms_active_wal_generation_id st) (ms_pending_flush_epochs st) (ms_secondary_indexes st)
    (ms_next_secondary_index_id st) version next_schema_id nodes edges.

(** [normalize_schema_manifest]: the normalized state, and whether it changed. *)
Definition normalize_schema_manifest (st : ManifestState) : res (ManifestState * bool) :=
  '(version, dirty) ←
    (if (ms_schema_catalog_version st =? 0) && has_schema_entries st then
       Err (ManifestError "invalid schema manifest: schema_catalog_version 0 cannot contain schema entries")
     else if ms_schema_catalog_version st =? 0 then Ok (SCHEMA_CATALOG_VERSION, true)
     else if ms_schema_catalog_version st =? SCHEMA_CATALOG_VERSION then Ok (ms_schema_catalog_version st, false)
     else Err (ManifestError "invalid schema manifest: unsupported schema catalog version"));
  let max_schema_id := max_of ((node_schema_id <$> ms_node_schemas st) ++ (edge_schema_id <$> ms_edge_schemas st)) in
  next ← (if max_schema_id =? 0 then Ok 1
          else if max_schema_id + 1 <=? u64_max then Ok (max_schema_id + 1)
          else Err (ManifestError "invalid schema manifest: next_schema_id would overflow"));
  let nodes := normalize_node_schema_entry <$> ms_node_schemas st in
  let edges := normalize_edge_schema_entry <$> ms_edge_schemas st in
  Ok (set_schemas version next (fst <$> nodes) (fst <$> edges) st,
      dirty || negb (ms_next_schema_id st =? next) || existsb snd nodes || existsb snd edges).

Definition default_manifest : ManifestState :=
  mkManifest _ 1 LABEL_TOKEN_SCHEMA_VERSION ∅ ∅ 1 1 [] 1 1 None ∅ 0 0 0 [] [] 1 SCHEMA_CATALOG_VERSION 1 [] [].
End Manifest.
