(* ===== verification/ManifestStore.v ===== *)
(** The files of the manifest (src/manifest.rs): writing it atomically, and the
    recovery chain that loads it.

    An operation of the file system takes the directory to the next one; it also
    tells every directory a crash in the middle of it can leave behind.  A crash
    keeps the renames in their order, and the content of a file that was synced
    before it was renamed.  The JSON codec (serde_json) is a parameter. *)
From S2P Require Import Prelude Types Floats Manifest.

Inductive File : Type := MANIFEST_CURRENT | MANIFEST_TMP | MANIFEST_PREV.
Record Dir : Type := mkDir {
  dir_current : option (list byte);
  dir_tmp : option (list byte);
  dir_prev : option (list byte)
}.
Definition file_at (d : Dir) (f : File) : option (list byte) :=
  match f with MANIFEST_CURRENT => dir_current d | MANIFEST_TMP => dir_tmp d | MANIFEST_PREV => dir_prev d end.
Definition put_file (d : Dir) (f : File) (content : option (list byte)) : Dir :=
  match f with
  | MANIFEST_CURRENT => mkDir content (dir_tmp d) (dir_prev d)
  | MANIFEST_TMP => mkDir (dir_current d) content (dir_prev d)
  | MANIFEST_PREV => mkDir (dir_current d) (dir_tmp d) content
  end.

(** ** File operations, with the directories a crash can leave *)
Record IoResult (A : Type) : Type := mkIo { io_crashes : list Dir; io_dir : Dir; io_result : res A }.
Arguments mkIo {A} _ _ _.
Arguments io_crashes {A} _.
Arguments io_dir {A} _.
Arguments io_result {A} _.
Definition Io (A : Type) : Type := Dir -> IoResult A.

#[export] Instance io_ret : MRet Io := fun A x d => mkIo [] d (Ok x).
#[export] Instance io_bind : MBind Io := fun A B f m d =>
  let r := m d in
  match io_result r with
  | Ok x => let r' := f x (io_dir r) in mkIo (io_crashes r ++ io_crashes r') (io_dir r') (io_result r')
  | Err e => mkIo (io_crashes r) (io_dir r) (Err e)
  end.
Definition of_result {A} (r : res A) : Io A := fun d => mkIo [] d r.

Definition path_exists (f : File) : Io bool := fun d => mkIo [] d (Ok (bool_decide (is_Some (file_at d f)))).
Definition create (f : File) : Io unit := fun d => mkIo [d] (put_file d f (Some [])) (Ok tt).
(** A crash can leave any part of the bytes in the file. *)
Definition write_all (f : File) (bytes : list byte) : Io unit := fun d =>
  mkIo ((fun n => put_file d f (Some (take n bytes))) <$> seq 0 (length bytes)) (put_file d f (Some bytes)) (Ok tt).
Definition sync_all (f : File) : Io unit := fun d => mkIo [d] d (Ok tt).
Definition remove_file (f : File) : Io unit := fun d =>
  match file_at d f with
  | Some _ => mkIo [d] (put_file d f None) (Ok tt)
  | None => mkIo [] d (Err (IoError "not found"))
  end.
Definition rename (from to : File) : Io unit := fun d =>
  match file_at d from with
  | Some content => mkIo [d] (put_file (put_file d from None) to (Some content)) (Ok tt)
  | None => mkIo [] d (Err (IoError "not found"))
  end.
Definition fsync_dir : Io unit := fun d => mkIo [d] d (Ok tt).
Definition read_to_string (f : File) : Io (list byte) := fun d =>
  match file_at d f with
  | Some content => mkIo [] d (if utf8_valid content then Ok content else Err (IoError "stream did not contain valid UTF-8"))
  | None => mkIo [] d (Err (IoError "not found"))
  end.

(** ** The codec *)
Class SerdeManifest `{Schemas} : Type := {
  to_string_pretty : ManifestState -> option (list byte);
  from_str : list byte -> option ManifestState
}.
(** JSON has no number for an infinity or a NaN: it writes them as null. *)
Definition finite_policies `{Schemas} (st : ManifestState) : Prop :=
  forall name policy weight, ms_prune_policies st !! name = Some policy -> pp_max_weight policy = Some weight ->
  is_finite F32 weight = true.
Class SerdeManifestLaws `{SerdeManifest} : Prop := {
  to_string_utf8 st json : to_string_pretty st = Some json -> utf8_valid json = true;
  from_to_string st json : finite_policies st -> to_string_pretty st = Some json -> from_str json = Some st
}.

Section Store.
Context `{SerdeManifest}.

Definition write_manifest (state : ManifestState) : Io unit :=
  json ← of_result (match to_string_pretty state with Some json => Ok json | None => Err (ManifestError "serialize") end);
  _ ← create MANIFEST_TMP;
  _ ← write_all MANIFEST_TMP json;
  _ ← sync_all MANIFEST_TMP;
  has_current ← path_exists MANIFEST_CURRENT;
  _ ← (if has_current : bool then
         has_prev ← path_exists MANIFEST_PREV;
         _ ← (if has_prev : bool then remove_file MANIFEST_PREV else mret tt);
         rename MANIFEST_CURRENT MANIFEST_PREV
       else mret tt);
  _ ← rename MANIFEST_TMP MANIFEST_CURRENT;
  fsync_dir.

Definition try_load_manifest_file_for_write (path : File) : Io (option (ManifestState * bool)) :=
  found ← path_exists path;
  if negb found then mret None
  else
    content ← read_to_string path;
    match from_str content with
    | Some state =>
        normalized ← of_result (normalize_schema_manifest state);
        _ ← of_result (validate_manifest_identity normalized.1);
        mret (Some normalized)
    | None => mret None
    end.
Definition try_load_manifest_file (path : File) : Io (option ManifestState) :=
  loaded ← try_load_manifest_file_for_write path; mret (fst <$> loaded).

Definition load_manifest : Io (option ManifestState) :=
  current ← try_load_manifest_file_for_write MANIFEST_CURRENT;
  match current with
  | Some (state, dirty) =>
      _ ← (if dirty : bool then write_manifest state else mret tt);
      mret (Some state)
  | None =>
      tmp ← try_load_manifest_file_for_write MANIFEST_TMP;
      match tmp with
      | Some (state, dirty) =>
          _ ← (if dirty : bool then write_manifest state
               else _ ← rename MANIFEST_TMP MANIFEST_CURRENT; fsync_dir);
          mret (Some state)
      | None =>
          prev ← try_load_manifest_file_for_write MANIFEST_PREV;
          match prev with
          | Some (state, _) => _ ← write_manifest state; mret (Some state)
          | None => mret None
          end
      end
  end.

Definition load_manifest_readonly : Io (option ManifestState) :=
  current ← try_load_manifest_file MANIFEST_CURRENT;
  match current with
  | Some state => mret (Some state)
  | None =>
      tmp ← try_load_manifest_file MANIFEST_TMP;
      match tmp with
      | Some state => mret (Some state)
      | None => try_load_manifest_file MANIFEST_PREV
      end
  end.
End Store.
