(* ===== verification/ManifestStoreFacts.v ===== *)
(** Crash safety of the manifest: whatever crashes interrupt its writes and its
    recoveries, opening finds a state that was written last, or one of those
    whose write was interrupted since. *)
From S2P Require Import Prelude Types Floats Manifest ManifestStore.

Lemma io_bind_ok {A B} (m : Io A) (f : A -> Io B) d crashes d' x crashes' d'' r :
  m d = mkIo crashes d' (Ok x) -> f x d' = mkIo crashes' d'' r ->
  (m ≫= f) d = mkIo (crashes ++ crashes') d'' r.
Proof. intros Hm Hf. unfold mbind, io_bind. rewrite Hm. cbn. by rewrite Hf. Qed.

Section Store.
Context `{SerdeManifestLaws}.

(** A state this version writes: normalized and valid. *)
Record sound (st : ManifestState) : Prop := {
  so_finite : finite_policies st;
  so_normal : normalize_schema_manifest st = Ok (st, false);
  so_valid : validate_manifest_identity st = Ok tt;
  so_prints : is_Some (to_string_pretty st)
}.
(** A file holds a state, up to normalization. *)
Definition holds (content : option (list byte)) (st : ManifestState) : Prop :=
  exists json stored dirty, content = Some json /\ utf8_valid json = true /\ from_str json = Some stored
    /\ normalize_schema_manifest stored = Ok (st, dirty) /\ sound st.
(** A file is exactly what the writer produces for a state. *)
Definition written (content : option (list byte)) (st : ManifestState) : Prop :=
  exists json, content = Some json /\ to_string_pretty st = Some json /\ sound st.

Lemma written_holds content st : written content st -> holds content st.
Proof.
  intros (json & -> & Hj & Hs). exists json, st, false. split; [done|]. split; [by eapply to_string_utf8|].
  split; [by eapply from_to_string; [apply Hs|]|]. split; [apply Hs|done].
Qed.

(** ** The operations on the shapes of a directory *)
Lemma load_missing d f : file_at d f = None -> try_load_manifest_file_for_write f d = mkIo [] d (Ok None).
Proof. intros E. unfold try_load_manifest_file_for_write, mbind, io_bind, path_exists. rewrite E. done. Qed.

Lemma load_holds d f st :
  holds (file_at d f) st ->
  exists dirty, try_load_manifest_file_for_write f d = mkIo [] d (Ok (Some (st, dirty))).
Proof.
  intros (json & stored & dirty & E & Hu & Hf & Hn & Hs). exists dirty.
  unfold try_load_manifest_file_for_write, mbind, io_bind, path_exists, read_to_string, of_result. rewrite E. cbn.
  rewrite E. cbn. rewrite Hu. cbn. rewrite Hf. cbn. rewrite Hn. cbn. by rewrite (so_valid _ Hs).
Qed.

Lemma load_written d f st :
  written (file_at d f) st -> try_load_manifest_file_for_write f d = mkIo [] d (Ok (Some (st, false))).
Proof.
  intros (json & E & Hj & Hs). unfold try_load_manifest_file_for_write, mbind, io_bind, path_exists, read_to_string, of_result.
  rewrite E. cbn. rewrite E. cbn. rewrite (to_string_utf8 _ _ Hj). cbn. rewrite (from_to_string _ _ (so_finite _ Hs) Hj). cbn.
  rewrite (so_normal _ Hs). cbn. by rewrite (so_valid _ Hs).
Qed.

(** Directories from which opening finds [st]: its file is current, or the
    writer was stopped just before making it so. *)
Definition finds (d : Dir) (st : ManifestState) : Prop :=
  holds (dir_current d) st \/ dir_current d = None /\ written (dir_tmp d) st.

(** While a manifest is current, a write leaves a directory that finds the old
    state or the new one, wherever it stops, and the new one if it ends. *)
Lemma write_finds d old st :
  holds (dir_current d) old -> sound st ->
  exists crashes d', write_manifest st d = mkIo crashes d' (Ok tt) /\ written (dir_current d') st
    /\ Forall (fun d' => finds d' old \/ finds d' st) crashes.
Proof.
  intros Hold Hs. destruct (so_prints _ Hs) as [json Hj]. destruct d as [[current|] tmp prev]; [|by destruct Hold as (? & ? & ? & ? & _)]. cbn in Hold.
  assert (written (Some json) st) as Hw by (exists json; done).
  set (torn := (fun n => mkDir (Some current) (Some (take n json)) prev) <$> seq 0 (length json)).
  assert (Forall (fun d' => finds d' old \/ finds d' st) torn) as Htorn.
  { unfold torn. rewrite Forall_fmap. apply Forall_true. intros n. by left; left. }
  assert (finds (mkDir None (Some json) (Some current)) st) as Hswap by by right.
  assert (finds (mkDir (Some json) None (Some current)) st) as Hdone by (left; by apply written_holds).
  eexists _, (mkDir (Some json) None (Some current)). split; [|split; [exact Hw|]].
  - unfold write_manifest. rewrite Hj. eapply io_bind_ok; [reflexivity|]. do 3 (eapply io_bind_ok; [reflexivity|]).
    eapply io_bind_ok; [reflexivity|].
    eapply (io_bind_ok _ _ _ (match prev with Some _ => [mkDir (Some current) (Some json) prev] | None => [] end
      ++ [mkDir (Some current) (Some json) None]) (mkDir None (Some json) (Some current)) tt); [by destruct prev|].
    eapply io_bind_ok; reflexivity.
  - cbn [put_file dir_current dir_tmp dir_prev]. fold torn.
    repeat apply Forall_app_2; try exact Htorn; try apply Forall_nil_2; try (apply Forall_cons_2; [|apply Forall_nil_2]);
      try (by left; left); try (by right).
    destruct prev; [apply Forall_cons_2; [by left; left|]|]; apply Forall_nil_2.
Qed.

(** Opening: it ends, it returns the state the directory finds, and leaves it
    current; stopped anywhere, the directory still finds that state. *)
Lemma load_finds d st :
  finds d st ->
  exists crashes d', load_manifest d = mkIo crashes d' (Ok (Some st)) /\ holds (dir_current d') st
    /\ Forall (fun d' => finds d' st) crashes.
Proof.
  unfold load_manifest. intros [Hh|[Hn Hw]].
  - destruct (load_holds d MANIFEST_CURRENT st Hh) as [[|] Hl].
    + assert (sound st) as Hs by by destruct Hh as (? & ? & ? & _ & _ & _ & _ & Hs).
      destruct (write_finds d st st Hh Hs) as (crashes & d' & Hwr & Hw & Hc).
      eexists _, d'. split; [eapply io_bind_ok; [exact Hl|]; eapply io_bind_ok; [exact Hwr|reflexivity]|].
      split; [by apply written_holds|]. apply Forall_app_2; [apply Forall_nil_2|]. apply Forall_app_2; [|apply Forall_nil_2].
      eapply Forall_impl; [exact Hc|]. by intros ? [?|?].
    + eexists _, d. split; [eapply io_bind_ok; [exact Hl|reflexivity]|]. split; [done|]. apply Forall_nil_2.
  - pose proof (load_missing d MANIFEST_CURRENT Hn) as Hl1. pose proof (load_written d MANIFEST_TMP st Hw) as Hl2.
    destruct d as [current [json|] prev]; [|by destruct Hw as (? & ? & _)]. cbn in Hn, Hw. subst current.
    eexists _, (mkDir (Some json) None prev).
    split; [|split; [by apply written_holds|]].
    + eapply io_bind_ok; [exact Hl1|]. eapply io_bind_ok; [exact Hl2|]. eapply io_bind_ok; reflexivity.
    + cbn. apply Forall_cons_2; [by right|]. apply Forall_cons_2; [|apply Forall_nil_2]. left. by apply written_holds.
Qed.

Lemma readonly_finds d st : finds d st -> load_manifest_readonly d = mkIo [] d (Ok (Some st)).
Proof.
  intros Hf. unfold load_manifest_readonly, try_load_manifest_file.
  destruct Hf as [Hh|[Hn Hw]].
  - destruct (load_holds d MANIFEST_CURRENT st Hh) as [dirty Hl].
    apply (io_bind_ok _ _ _ [] d (Some st) []); [|reflexivity].
    apply (io_bind_ok _ _ _ [] d (Some (st, dirty)) []); [exact Hl|reflexivity].
  - apply (io_bind_ok _ _ _ [] d None []).
    { apply (io_bind_ok _ _ _ [] d None []); [by apply load_missing|reflexivity]. }
    apply (io_bind_ok _ _ _ [] d (Some st) []); [|reflexivity].
    apply (io_bind_ok _ _ _ [] d (Some (st, false)) []); [by apply load_written|reflexivity].
Qed.

(** ** Histories of a database directory *)
(** What a directory may hold, and whether a process has it open: it starts with
    a manifest; a process opens it, writes, or stops anywhere in between. *)
Inductive history : Dir -> (ManifestState -> Prop) -> bool -> Prop :=
| h_start d st : holds (dir_current d) st -> history d (eq st) false
| h_open d A running crashes d' st :
    history d A running -> load_manifest d = mkIo crashes d' (Ok (Some st)) -> history d' (eq st) true
| h_open_stopped d A running d' :
    history d A running -> d' ∈ io_crashes (load_manifest d) -> history d' A false
| h_write d A st :
    history d A true -> sound st -> history (io_dir (write_manifest st d)) (eq st) true
| h_write_stopped d A st d' :
    history d A true -> sound st -> d' ∈ io_crashes (write_manifest st d) -> history d' (fun st' => A st' \/ st' = st) false.

Lemma history_finds d A running :
  history d A running -> exists st, A st /\ finds d st /\ (running = true -> holds (dir_current d) st).
Proof.
  induction 1 as [d st Hh|d A running crashes d' st _ (st' & HA & Hf & _) Hl|d A running d' _ (st' & HA & Hf & _) Hin
    |d A st _ (st' & HA & Hf & Hrun) Hs|d A st d' _ (st' & HA & Hf & Hrun) Hs Hin].
  - exists st. split; [done|]. split; [by left|done].
  - destruct (load_finds d st' Hf) as (crashes' & d2 & Hl' & Hh & _). rewrite Hl in Hl'. injection Hl' as _ <- <-.
    exists st. split; [done|]. split; [by left|done].
  - destruct (load_finds d st' Hf) as (crashes' & d2 & Hl' & _ & Hc). rewrite Hl' in Hin. cbn in Hin.
    rewrite Forall_forall in Hc. exists st'. split; [done|]. split; [by apply Hc|done].
  - destruct (write_finds d st' st (Hrun eq_refl) Hs) as (crashes & d' & -> & Hw & _). cbn.
    exists st. split; [done|]. apply written_holds in Hw. split; [by left|done].
  - destruct (write_finds d st' st (Hrun eq_refl) Hs) as (crashes & d2 & E & _ & Hc). rewrite E in Hin. cbn in Hin.
    rewrite Forall_forall in Hc. destruct (Hc d' Hin) as [Hf'|Hf']; [exists st'|exists st]; (split; [tauto|]); split; done.
Qed.

(** C34.  The manifest survives crashes.  However a directory that started with a
    manifest was opened, written and stopped -- in the middle of a write, of a
    rename, or of a recovery -- opening it succeeds and returns the state whose
    write ended last, or one whose write was stopped since; the diagnostic load
    returns the same and changes nothing; and a running process can write. *)
Theorem manifest_crash_safe d A running :
  history d A running ->
  exists st, A st /\ io_result (load_manifest d) = Ok (Some st)
    /\ load_manifest_readonly d = mkIo [] d (Ok (Some st))
    /\ (running = true -> forall st', sound st' -> io_result (write_manifest st' d) = Ok tt
          /\ io_result (load_manifest (io_dir (write_manifest st' d))) = Ok (Some st')).
Proof.
  intros (st & HA & Hf & Hrun)%history_finds. exists st. split; [done|].
  split; [destruct (load_finds d st Hf) as (? & ? & -> & _); done|]. split; [by apply readonly_finds|].
  intros Hr st' Hs. destruct (write_finds d st st' (Hrun Hr) Hs) as (crashes & d' & -> & Hw & _). split; [done|]. cbn.
  destruct (load_finds d' st') as (? & ? & -> & _); [left; by apply written_holds|done].
Qed.
End Store.

(** ** A concrete codec of two states, for the witness *)
Module StoreWitness.
Definition schemas : Schemas := {|
  NodeSchemaManifestEntry := Z; EdgeSchemaManifestEntry := Z; node_schema_id := id; edge_schema_id := id;
  normalize_node_schema_entry e := (e, false); normalize_edge_schema_entry e := (e, false);
  validate_schema_entries _ _ _ _ := Ok tt
|}.
#[local] Existing Instance schemas.
#[local] Instance segment_eq_dec : EqDecision SegmentInfo. Proof. solve_decision. Defined.
#[local] Instance flush_state_eq_dec : EqDecision FlushEpochState. Proof. solve_decision. Defined.
#[local] Instance flush_eq_dec : EqDecision FlushEpochMeta. Proof. solve_decision. Defined.
#[local] Instance policy_eq_dec : EqDecision PrunePolicy. Proof. solve_decision. Defined.
#[local] Instance metric_eq_dec : EqDecision DenseMetric. Proof. solve_decision. Defined.
#[local] Instance hnsw_eq_dec : EqDecision HnswConfig. Proof. solve_decision. Defined.
#[local] Instance dense_eq_dec : EqDecision DenseVectorConfig. Proof. solve_decision. Defined.
#[local] Instance target_eq_dec : EqDecision SecondaryIndexTarget. Proof. solve_decision. Defined.
#[local] Instance state_eq_dec : EqDecision SecondaryIndexState. Proof. solve_decision. Defined.
#[local] Instance index_eq_dec : EqDecision SecondaryIndexManifestEntry. Proof. solve_decision. Defined.
#[local] Instance schema_eq_dec : EqDecision NodeSchemaManifestEntry := Z.eq_dec.
#[local] Instance edge_schema_eq_dec : EqDecision EdgeSchemaManifestEntry := Z.eq_dec.
#[local] Instance manifest_eq_dec : EqDecision ManifestState. Proof. solve_decision. Defined.

Definition old : ManifestState := default_manifest.
(** The same after a flush: the next generation is open. *)
Definition new : ManifestState :=
  mkManifest _ 1 LABEL_TOKEN_SCHEMA_VERSION ∅ ∅ 1 1 [] 7 3 None ∅ 12 1 1 [] [] 1 SCHEMA_CATALOG_VERSION 1 [] [].
Definition codec : SerdeManifest := {|
  to_string_pretty st := if decide (st = old) then Some (str_of "old") else if decide (st = new) then Some (str_of "new") else None;
  from_str json := if decide (json = str_of "old") then Some old else if decide (json = str_of "new") then Some new else None
|}.
#[local] Existing Instance codec.
Lemma codec_laws : SerdeManifestLaws.
Proof.
  split; cbn; intros st json; repeat case_decide; intros; simplify_eq; try reflexivity.
Qed.
#[local] Existing Instance codec_laws.

Lemma states_sound : sound old /\ sound new.
Proof.
  split; (split; [intros name policy weight Hp; cbn in Hp; rewrite lookup_empty in Hp; discriminate|vm_compute; reflexivity|vm_compute; reflexivity|vm_compute; by eexists]).
Qed.

(** Opened, then stopped between the two renames of a write. *)
Definition start : Dir := mkDir (Some (str_of "old")) None None.
Definition stopped : Dir := mkDir None (Some (str_of "new")) (Some (str_of "old")).

Lemma manifest_crash_witness :
  io_result (load_manifest stopped) = Ok (Some new)
  /\ exists st, (old = st \/ st = new) /\ load_manifest_readonly stopped = mkIo [] stopped (Ok (Some st)).
Proof.
  assert (holds (dir_current start) old) as Hh.
  { exists (str_of "old"), old, false. split; [done|]. split; [done|]. split; [vm_compute; reflexivity|].
    split; [vm_compute; reflexivity|apply states_sound]. }
  assert (load_manifest start = mkIo [] start (Ok (Some old))) as Hopen by (vm_compute; reflexivity).
  assert (stopped ∈ io_crashes (write_manifest new start)) as Hin.
  { assert (io_crashes (write_manifest new start) !! 6%nat = Some stopped) as E by (vm_compute; reflexivity).
    by eapply list_elem_of_lookup_2. }
  pose proof (h_write_stopped start (eq old) new stopped (h_open _ _ _ _ _ _ (h_start _ _ Hh) Hopen) (proj2 states_sound) Hin) as Hist.
  destruct (manifest_crash_safe _ _ _ Hist) as (st & HA & _ & Hr & _).
  split; [vm_compute; reflexivity|]. exists st. exact (conj HA Hr).
Defined.
End StoreWitness.
