(* ===== verification/LabelCatalog.v ===== *)
(** The runtime label catalog (src/engine/mod.rs, [RuntimeLabelCatalog]): label
    names and their ids, the write-ahead-log generation a name was created in,
    and what of it a checkpoint may persist. *)
From S2P Require Import Prelude Types MemtableReads Manifest.

(** The code keeps the node labels and the edge labels in parallel fields with
    parallel methods: one namespace is a [Tokens], the catalog is a pair. *)
Record Tokens : Type := mkTokens {
  label_to_id : gmap str Z;
  id_to_label : gmap Z str;
  label_wal_generation : gmap str Z;
  next_label_id : Z
}.
Record RuntimeLabelCatalog : Type := mkCatalog { cat_node : Tokens; cat_edge : Tokens }.

Module Catalog.
(** [rebuild_reverse_maps], one namespace: an id with two names is refused. *)
Fixpoint rebuild_from (ids : gmap Z str) (tokens : list (str * Z)) : res (gmap Z str) :=
  match tokens with
  | [] => Ok ids
  | (label, label_id) :: tokens =>
      match ids !! label_id with
      | Some _ => Err (ManifestError "label token conflict: label_id is assigned to both")
      | None => rebuild_from (<[label_id := label]> ids) tokens
      end
  end.

Section Manifests.
Context `{Schemas}.

Definition from_manifest (manifest : ManifestState) : res RuntimeLabelCatalog :=
  node_ids ← rebuild_from ∅ (btree_iter (ms_node_label_tokens manifest));
  edge_ids ← rebuild_from ∅ (btree_iter (ms_edge_label_tokens manifest));
  Ok (mkCatalog (mkTokens (ms_node_label_tokens manifest) node_ids ∅ (ms_next_node_label_id manifest))
        (mkTokens (ms_edge_label_tokens manifest) edge_ids ∅ (ms_next_edge_label_id manifest))).

Definition set_label_tokens (nodes edges : gmap str Z) (next_node next_edge : Z) (st : ManifestState) : ManifestState :=
  mkManifest _ (ms_version st) LABEL_TOKEN_SCHEMA_VERSION nodes edges next_node next_edge (ms_segments st)
    (ms_next_node_id st) (ms_next_edge_id st) (ms_dense_vector st) (ms_prune_policies st) (ms_next_engine_seq st)
    (ms_next_wal_generation_id st) (ms_active_wal_generation_id st) (ms_pending_flush_epochs st)
    (ms_secondary_indexes st) (ms_next_secondary_index_id st) (ms_schema_catalog_version st) (ms_next_schema_id st)
    (ms_node_schemas st) (ms_edge_schemas st).

Definition apply_to_manifest (c : RuntimeLabelCatalog) (manifest : ManifestState) : ManifestState :=
  set_label_tokens (label_to_id (cat_node c)) (label_to_id (cat_edge c)) (next_label_id (cat_node c))
    (next_label_id (cat_edge c)) manifest.

(** Whether a checkpoint up to a generation persists a name. *)
Definition checkpointed (t : Tokens) (tokens : gmap str Z) (max_wal_generation : option Z) (label : str) (label_id : Z)
  : bool :=
  bool_decide (tokens !! label = Some label_id)
  || match label_wal_generation t !! label, max_wal_generation with
     | Some generation, Some max_generation => generation <=? max_generation
     | _, _ => false
     end.
Definition checkpoint_tokens (t : Tokens) (max_wal_generation : option Z) (tokens : gmap str Z) : gmap str Z :=
  foldl (fun tokens (e : str * Z) =>
    if checkpointed t tokens max_wal_generation e.1 e.2 then <[e.1 := e.2]> tokens else tokens)
    tokens (btree_iter (label_to_id t)).
Definition saturating_succ_u32 (z : Z) : Z := Z.min u32_max (z + 1).
Definition next_after (next : Z) (tokens : gmap str Z) : Z :=
  Z.max next (saturating_succ_u32 (max_of (snd <$> btree_iter tokens))).

Definition apply_checkpointed_to_manifest (c : RuntimeLabelCatalog) (max_wal_generation : option Z)
  (manifest : ManifestState) : ManifestState :=
  let nodes := checkpoint_tokens (cat_node c) max_wal_generation (ms_node_label_tokens manifest) in
  let edges := checkpoint_tokens (cat_edge c) max_wal_generation (ms_edge_label_tokens manifest) in
  set_label_tokens nodes edges (next_after (ms_next_node_label_id manifest) nodes)
    (next_after (ms_next_edge_label_id manifest) edges) manifest.
End Manifests.

Definition reserve (t : Tokens) (label : str) : res (Z * bool) :=
  match label_to_id t !! label with
  | Some label_id => Ok (label_id, false)
  | None =>
      _ ← validate_label_token_name label;
      if next_label_id t =? u32_max then Err (InvalidOperation "label token ID space exhausted")
      else Ok (next_label_id t, true)
  end.
Definition reserve_node_label (c : RuntimeLabelCatalog) := reserve (cat_node c).
Definition reserve_edge_label (c : RuntimeLabelCatalog) := reserve (cat_edge c).

Definition note_generation (label : str) (wal_generation : option Z) (generations : gmap str Z) : gmap str Z :=
  match wal_generation with
  | Some wal_generation =>
      match generations !! label with
      | Some existing => <[label := Z.min existing wal_generation]> generations
      | None => <[label := wal_generation]> generations
      end
  | None => generations
  end.

Definition apply_label (t : Tokens) (label : str) (label_id : Z) (wal_generation : option Z) : res Tokens :=
  _ ← validate_label_token_name label;
  if label_id =? 0 then Err (InvalidOperation "label token ID 0 is reserved")
  else
    match label_to_id t !! label with
    | Some existing_id =>
        if existing_id =? label_id then
          Ok (mkTokens (label_to_id t) (id_to_label t) (note_generation label wal_generation (label_wal_generation t))
                (next_label_id t))
        else Err (CorruptWal "label token conflict: label is assigned to both label_id")
    | None =>
        match id_to_label t !! label_id with
        | Some _ => Err (CorruptWal "label token conflict: label_id is assigned to both")
        | None =>
            Ok (mkTokens (<[label := label_id]> (label_to_id t)) (<[label_id := label]> (id_to_label t))
                  (match wal_generation with
                   | Some wal_generation => <[label := wal_generation]> (label_wal_generation t)
                   | None => label_wal_generation t
                   end)
                  (Z.max (next_label_id t) (saturating_succ_u32 label_id)))
        end
    end.
Definition apply_node_label (c : RuntimeLabelCatalog) (label : str) (label_id : Z) (wal_generation : option Z)
  : res RuntimeLabelCatalog :=
  t ← apply_label (cat_node c) label label_id wal_generation; Ok (mkCatalog t (cat_edge c)).
Definition apply_edge_label (c : RuntimeLabelCatalog) (label : str) (label_id : Z) (wal_generation : option Z)
  : res RuntimeLabelCatalog :=
  t ← apply_label (cat_edge c) label label_id wal_generation; Ok (mkCatalog (cat_node c) t).

(** ** Label operations of the write path and of replay *)
Definition has_id (t : Tokens) (label_id : Z) : bool := bool_decide (is_Some (id_to_label t !! label_id)).

(** [apply_label_token_op_after_wal_append]; it also copies the catalog to the
    engine's manifest, with [apply_to_manifest]. *)
Definition apply_label_token_op_after_wal_append (c : RuntimeLabelCatalog) (active_wal_generation_id : Z) (op : WalOp)
  : res RuntimeLabelCatalog :=
  match op with
  | EnsureNodeLabel label label_id => apply_node_label c label label_id (Some active_wal_generation_id)
  | EnsureEdgeLabel label label_id => apply_edge_label c label label_id (Some active_wal_generation_id)
  | UpsertNode node =>
      if forallb (has_id (cat_node c)) (NodeLabels.as_slice (nr_label_ids node)) then Ok c
      else Err (InvalidOperation "node label_id does not exist in the node label catalog")
  | UpsertEdge edge =>
      if has_id (cat_edge c) (er_label_id edge) then Ok c
      else Err (InvalidOperation "edge-label label_id does not exist in the edge-label catalog")
  | DeleteNode _ _ | DeleteEdge _ _ => Ok c
  | BeginAtomicBatch _ _ | CommitAtomicBatch _ _ =>
      Err (InvalidOperation "WAL atomic batch markers cannot be applied as normal write ops")
  end.

Definition validate_or_apply_replayed_label_token_op (c : RuntimeLabelCatalog) (op : WalOp) (wal_generation_id : Z)
  : res RuntimeLabelCatalog :=
  match op with
  | EnsureNodeLabel label label_id => apply_node_label c label label_id (Some wal_generation_id)
  | EnsureEdgeLabel label label_id => apply_edge_label c label label_id (Some wal_generation_id)
  | UpsertNode node =>
      if forallb (has_id (cat_node c)) (NodeLabels.as_slice (nr_label_ids node)) then Ok c
      else Err (CorruptWal "node record references missing node label label_id")
  | UpsertEdge edge =>
      if has_id (cat_edge c) (er_label_id edge) then Ok c
      else Err (CorruptWal "edge record references missing edge-label label_id")
  | DeleteNode _ _ | DeleteEdge _ _ => Ok c
  | BeginAtomicBatch _ _ | CommitAtomicBatch _ _ =>
      Err (CorruptWal "WAL atomic batch marker reached normal replay apply")
  end.
End Catalog.
