(* ===== verification/LabelCatalogFacts.v ===== *)
(** The label catalog: names and ids stay in bijection, ids are never reused,
    and a checkpoint together with the later logs restores every name. *)
From S2P Require Import Prelude Types MemtableReads MemtableReadFacts Manifest LabelCatalog.

(** ** The invariant of a namespace *)
Record tokens_ok (t : Tokens) : Prop := {
  tk_inverse : forall label id, label_to_id t !! label = Some id <-> id_to_label t !! id = Some label;
  tk_ids : forall label id, label_to_id t !! label = Some id -> 0 < id <= u32_max /\ Z.min u32_max (id + 1) <= next_label_id t;
  tk_names : forall label id, label_to_id t !! label = Some id -> validate_label_token_name label = Ok tt;
  tk_next : 0 < next_label_id t <= u32_max;
  tk_generations : forall label g, label_wal_generation t !! label = Some g -> is_Some (label_to_id t !! label)
}.
Definition catalog_ok (c : RuntimeLabelCatalog) : Prop := tokens_ok (cat_node c) /\ tokens_ok (cat_edge c).

Lemma validate_label_unit label u : validate_label_token_name label = Ok u -> validate_label_token_name label = Ok tt.
Proof. by destruct u. Qed.

(** A successful [apply_label] binds the pair and rebinds nothing. *)
Lemma apply_label_spec t label id g t' :
  tokens_ok t -> u32 id -> Catalog.apply_label t label id g = Ok t' ->
  tokens_ok t' /\ label_to_id t' = <[label := id]> (label_to_id t)
  /\ (label_to_id t !! label = None \/ label_to_id t !! label = Some id)
  /\ next_label_id t' = Z.max (next_label_id t) (Z.min u32_max (id + 1))
  /\ label_wal_generation t' = Catalog.note_generation label g (label_wal_generation t).
Proof.
  intros [Hinv Hids Hnames Hnext Hgen] Hid E. unfold Catalog.apply_label in E.
  apply bind_Ok_inv in E as (u & Hv & E). destruct u.
  destruct (Z.eqb_spec id 0); [done|].
  destruct (label_to_id t !! label) as [existing|] eqn:El.
  - destruct (Z.eqb_spec existing id) as [->|]; [|done]. apply Ok_inj in E as <-. cbn.
    split_and!; [|by rewrite insert_id|by right| |done].
    + split; cbn; try done. intros l g'. unfold Catalog.note_generation. destruct g as [g|]; [|by apply Hgen].
      assert (forall v, <[label := v]> (label_wal_generation t) !! l = Some g' -> is_Some (label_to_id t !! l)) as Hi.
      { intros v. destruct (decide (l = label)) as [->|]; [by rewrite El | rewrite lookup_insert_ne by done; apply Hgen]. }
      destruct (label_wal_generation t !! label); apply Hi.
    + destruct (Hids _ _ El). lia.
  - destruct (id_to_label t !! id) as [other|] eqn:Ei; [done|]. apply Ok_inj in E as <-. cbn.
    assert (label_wal_generation t !! label = None) as Hng.
    { destruct (label_wal_generation t !! label) eqn:Eg; [|done]. apply Hgen in Eg as [? ?]. congruence. }
    split_and!; [|done|by left|done|].
    + split; cbn [label_to_id id_to_label label_wal_generation next_label_id]; unfold u32, u32_max, Catalog.saturating_succ_u32 in *.
      * intros l i. rewrite !lookup_insert_Some, Hinv. split; [|naive_solver].
        intros [[-> ->]|[Hl Hi]]; [by left|]. right. split; [|done]. intros ->. congruence.
      * intros l i [[-> <-]|[Hl Hi%Hids]]%lookup_insert_Some; unfold u32_max in *; lia.
      * intros l i [[<- ->]|[Hl Hi]]%lookup_insert_Some; eauto.
      * unfold u32_max in *. lia.
      * intros l g'. destruct (decide (l = label)) as [->|]; [by rewrite lookup_insert_eq|].
        rewrite lookup_insert_ne by done. destruct g; [rewrite lookup_insert_ne by done|]; apply Hgen.
    + unfold Catalog.note_generation. rewrite Hng. by destruct g.
Qed.

(** [apply_label] accepts every pair that conflicts with nothing. *)
Lemma apply_label_ok t label id g :
  validate_label_token_name label = Ok tt -> id <> 0 ->
  (label_to_id t !! label = Some id \/ label_to_id t !! label = None /\ id_to_label t !! id = None) ->
  exists t', Catalog.apply_label t label id g = Ok t'.
Proof.
  intros Hv Hid Hc. unfold Catalog.apply_label. rewrite Hv. cbn [mbind result_bind].
  destruct (Z.eqb_spec id 0); [done|]. destruct Hc as [-> | [-> ->]]; [rewrite Z.eqb_refl|]; eauto.
Qed.
Lemma apply_label_valid t label id g t' :
  Catalog.apply_label t label id g = Ok t' -> validate_label_token_name label = Ok tt /\ id <> 0.
Proof.
  unfold Catalog.apply_label. intros ([] & Hv & E)%bind_Ok_inv. split; [done|]. by destruct (Z.eqb_spec id 0).
Qed.

(** Reserving a label gives the id it has, or one that no label has. *)
Lemma reserve_spec t label id fresh :
  tokens_ok t -> Catalog.reserve t label = Ok (id, fresh) ->
  if fresh then label_to_id t !! label = None /\ id_to_label t !! id = None /\ 0 < id < u32_max
                /\ validate_label_token_name label = Ok tt
  else label_to_id t !! label = Some id.
Proof.
  intros [Hinv Hids _ Hnext _] E. unfold Catalog.reserve in E. destruct (label_to_id t !! label) as [i|] eqn:El.
  { apply Ok_inj in E. by injection E as -> <-. }
  apply bind_Ok_inv in E as ([] & Hv & E). destruct (Z.eqb_spec (next_label_id t) u32_max); [done|].
  apply Ok_inj in E. injection E as <- <-. split_and!; [done| |lia..|done].
  destruct (id_to_label t !! next_label_id t) as [other|] eqn:Ei; [|done].
  apply Hinv, Hids in Ei as [??]. unfold u32_max in *. lia.
Qed.

(** Naming a label is safe: in a well-formed catalog [reserve] returns
    either the id the label already has, or a next id bound to no label;
    applying the pair it returned always succeeds, binds exactly that pair,
    changes no other binding, keeps names and ids in bijection, and moves the
    next id past it. *)
Theorem reserved_label_applies t label id fresh generation :
  tokens_ok t -> Catalog.reserve t label = Ok (id, fresh) ->
  (if fresh then label_to_id t !! label = None /\ id_to_label t !! id = None /\ id = next_label_id t
   else label_to_id t !! label = Some id)
  /\ exists t', Catalog.apply_label t label id generation = Ok t' /\ tokens_ok t'
     /\ label_to_id t' = <[label := id]> (label_to_id t)
     /\ Z.min u32_max (id + 1) <= next_label_id t'.
Proof.
  intros Hok E. pose proof (reserve_spec _ _ _ _ Hok E) as Hr. split.
  - destruct fresh; [|done]. destruct Hr as (Hl & Hi & _). split_and!; [done..|]. unfold Catalog.reserve in E.
    rewrite Hl in E. apply bind_Ok_inv in E as (_ & _ & E). destruct (_ =? _); [done|]. apply Ok_inj in E. by injection E.
  - assert (validate_label_token_name label = Ok tt /\ 0 < id <= u32_max
      /\ (label_to_id t !! label = Some id \/ label_to_id t !! label = None /\ id_to_label t !! id = None)) as (Hv & Hid & Hc).
    { destruct fresh; [destruct Hr as (? & ? & ? & ?); split_and!; [done|lia..|by right]|].
      destruct (tk_ids _ Hok _ _ Hr). split_and!; [by eapply tk_names|lia..|by left]. }
    destruct (apply_label_ok t label id generation Hv ltac:(lia) Hc) as [t' Ht'].
    destruct (apply_label_spec t label id generation t' Hok ltac:(unfold u32, u32_max in *; lia) Ht') as (Hok' & Hm & _ & Hn & _).
    exists t'. split_and!; try done. lia.
Qed.

(** ** Runs of label operations, one namespace *)
Abbreviation token_log := (list (Z * (str * Z))).
Fixpoint apply_all (t : Tokens) (log : token_log) : res Tokens :=
  match log with
  | [] => Ok t
  | (g, (label, id)) :: log => t ← Catalog.apply_label t label id (Some g); apply_all t log
  end.
Definition log_ok (log : token_log) : Prop := Forall (fun e => u32 e.2.2) log.

Record applied (t0 : Tokens) (log : token_log) (t : Tokens) : Prop := {
  ap_ok : tokens_ok t;
  ap_base : label_to_id t0 ⊆ label_to_id t;
  ap_log : forall g l i, (g, (l, i)) ∈ log -> label_to_id t !! l = Some i
             /\ (exists g', label_wal_generation t !! l = Some g' /\ g' <= g)
             /\ Z.min u32_max (i + 1) <= next_label_id t;
  ap_only : forall l i, label_to_id t !! l = Some i -> label_to_id t0 !! l = Some i \/ exists g, (g, (l, i)) ∈ log;
  ap_gen : forall l g, label_wal_generation t0 !! l = Some g ->
             exists g', label_wal_generation t !! l = Some g' /\ g' <= g;
  ap_next : next_label_id t0 <= next_label_id t;
  ap_next_only : next_label_id t = next_label_id t0
     \/ exists g l i, (g, (l, i)) ∈ log /\ next_label_id t = Z.min u32_max (i + 1)
}.

Lemma note_generation_le l g gs :
  exists g', Catalog.note_generation l (Some g) gs !! l = Some g' /\ g' <= g.
Proof.
  unfold Catalog.note_generation. destruct (gs !! l) as [e|]; rewrite lookup_insert_eq; eexists; split; try done; lia.
Qed.
Lemma note_generation_other l l' g gs g' :
  gs !! l' = Some g' -> exists g'', Catalog.note_generation l (Some g) gs !! l' = Some g'' /\ g'' <= g'.
Proof.
  intros Hl. unfold Catalog.note_generation. destruct (decide (l = l')) as [->|].
  - rewrite Hl, lookup_insert_eq. eexists. split; [done|lia].
  - exists g'. split; [|lia]. destruct (gs !! l); by rewrite lookup_insert_ne.
Qed.

Lemma apply_all_spec log t0 t :
  tokens_ok t0 -> log_ok log -> apply_all t0 log = Ok t -> applied t0 log t.
Proof.
  revert t0. induction log as [|[g [l i]] log IH]; intros t0 Hok Hlog E.
  { apply Ok_inj in E as <-. split; [done|done| | | |lia|].
    - intros g l i Hin. by apply not_elem_of_nil in Hin.
    - intros l i Hl. by left.
    - intros l g Hg. exists g. split; [done|lia].
    - by left. }
  apply Forall_cons in Hlog as [Hi Hlog]. cbn [fst snd] in Hi. apply bind_Ok_inv in E as (t1 & E1 & E).
  destruct (apply_label_spec _ _ _ _ _ Hok Hi E1) as (Hok1 & Hm1 & Hold & Hn1 & Hg1).
  destruct (IH t1 Hok1 Hlog E) as [Hokt Hbase Hl Honly Hgen Hnext Hnonly]. clear IH.
  assert (label_to_id t !! l = Some i) as Hli by (eapply lookup_weaken; [|exact Hbase]; rewrite Hm1; apply lookup_insert_eq).
  split; [done| | | | |lia|].
  - etransitivity; [|exact Hbase]. rewrite Hm1. destruct Hold as [Hn|Hs]; [by apply insert_subseteq|by rewrite insert_id].
  - intros g' l' i' [[= -> -> ->]|Hin]%elem_of_cons; [|by apply Hl].
    split; [done|]. split; [|destruct (tk_ids _ Hokt _ _ Hli); lia].
    destruct (note_generation_le l g (label_wal_generation t0)) as (g1 & Hg1' & Hle). rewrite <- Hg1 in Hg1'.
    destruct (Hgen _ _ Hg1') as (g2 & ? & ?). exists g2. split; [done|lia].
  - intros l' i' [H1|[g' Hin]]%Honly; [|right; exists g'; by right].
    rewrite Hm1 in H1. apply lookup_insert_Some in H1 as [[<- <-]|[_ H1]]; [right; exists g; by left | by left].
  - intros l' g' Hg'. destruct (note_generation_other l l' g _ _ Hg') as (g1 & Hg1' & Hle). rewrite <- Hg1 in Hg1'.
    destruct (Hgen _ _ Hg1') as (g2 & ? & ?). exists g2. split; [done|lia].
  - destruct Hnonly as [Hn|(g' & l' & i' & Hin & Hn)]; [|right; exists g', l', i'; split; [by right|done]].
    destruct (decide (next_label_id t0 < Z.min u32_max (i + 1))) as [Hlt|].
    + right. exists g, l, i. split; [by left|lia].
    + left. lia.
Qed.

(** ** Rebuilding the reverse map *)
Lemma rebuild_spec tokens ids :
  NoDup (fst <$> tokens) ->
  (forall l1 l2 i, (l1, i) ∈ tokens -> (l2, i) ∈ tokens -> l1 = l2) ->
  (forall l i, (l, i) ∈ tokens -> ids !! i = None) ->
  exists ids', Catalog.rebuild_from ids tokens = Ok ids'
    /\ forall i l, ids' !! i = Some l <-> (l, i) ∈ tokens \/ ids !! i = Some l.
Proof.
  revert ids. induction tokens as [|[l i] tokens IH]; intros ids Hnd Hinj Hfree.
  { exists ids. split; [done|]. intros. split; [by right | intros [?%not_elem_of_nil|?]; done]. }
  cbn [Catalog.rebuild_from]. rewrite (Hfree l i) by (by left).
  rewrite fmap_cons in Hnd. apply NoDup_cons in Hnd as [Hl Hnd]. cbn [fst] in Hl.
  assert (forall l', (l', i) ∉ tokens) as Hi.
  { intros l' Hin. assert (l = l') as <- by (apply (Hinj _ _ i); [by left | by right]).
    apply Hl. by apply (list_elem_of_fmap_2 fst _ (l, i)). }
  destruct (IH (<[i:=l]> ids)) as (ids' & -> & Hids'); [done| | |].
  - intros l1 l2 j H1 H2. apply (Hinj _ _ j); by right.
  - intros l' j Hin. rewrite lookup_insert_ne by (intros ->; by apply (Hi l')). apply (Hfree l'). by right.
  - exists ids'. split; [done|]. intros j l'. rewrite Hids', elem_of_cons, lookup_insert_Some.
    specialize (Hfree l i ltac:(by left)). split; [|].
    + intros [?|[[<- <-]|[??]]]; auto.
    + intros [[[= -> ->]|?]|Hj]; [by right; left|by left|]. right; right. split; [intros ->; congruence|done].
Qed.

(** The tokens a manifest's map opens as. *)
Definition opened_tokens (m : gmap str Z) (ids : gmap Z str) (next : Z) : Tokens := mkTokens m ids ∅ next.

Lemma rebuild_map_ok (m : gmap str Z) :
  (forall l1 l2 i, m !! l1 = Some i -> m !! l2 = Some i -> l1 = l2) ->
  exists ids, Catalog.rebuild_from ∅ (btree_iter m) = Ok ids /\ forall i l, ids !! i = Some l <-> m !! l = Some i.
Proof.
  intros Hinj. destruct (rebuild_spec (btree_iter m) ∅) as (ids & E & Hids).
  - rewrite btree_iter_perm. apply NoDup_fst_map_to_list.
  - intros l1 l2 i H1%btree_iter_elem H2%btree_iter_elem. eauto.
  - done.
  - exists ids. split; [done|]. intros i l. rewrite Hids, btree_iter_elem. split; [|by left]. intros [?|?]; done.
Qed.

(** ** Checkpoints *)
Lemma max_of_le zs z : z ∈ zs -> z <= max_of zs.
Proof. induction zs as [|y zs IH]; [by intros ?%not_elem_of_nil|]. intros [->|Hz]%elem_of_cons; cbn; [lia|]. specialize (IH Hz). unfold max_of in IH. lia. Qed.
Lemma max_of_elem zs : max_of zs = 0 \/ max_of zs ∈ zs.
Proof.
  induction zs as [|y zs IH]; [by left|]. cbn. fold (max_of zs). rewrite elem_of_cons.
  destruct (Z.max_spec y (max_of zs)) as [[_ ->]|[_ ->]]; [|right; by left]. destruct IH; [left|right; right]; done.
Qed.

Lemma checkpoint_spec (t : Tokens) (g : option Z) (tokens : gmap str Z) :
  tokens ⊆ label_to_id t ->
  let m := Catalog.checkpoint_tokens t g tokens in
  tokens ⊆ m /\ m ⊆ label_to_id t
  /\ forall l i gen max, label_to_id t !! l = Some i -> label_wal_generation t !! l = Some gen -> g = Some max ->
       gen <= max -> m !! l = Some i.
Proof.
  intros Hsub. cbv zeta. unfold Catalog.checkpoint_tokens.
  assert (forall es, (forall e, e ∈ es -> label_to_id t !! e.1 = Some e.2) -> forall tokens0, tokens0 ⊆ label_to_id t ->
    let m := foldl (fun (tokens1 : gmap str Z) (e : str * Z) =>
      if Catalog.checkpointed t tokens1 g e.1 e.2 then <[e.1 := e.2]> tokens1 else tokens1) tokens0 es in
    tokens0 ⊆ m /\ m ⊆ label_to_id t
    /\ forall l i gen max, (l, i) ∈ es -> label_wal_generation t !! l = Some gen -> g = Some max -> gen <= max ->
         m !! l = Some i) as Hfold.
  { clear tokens Hsub. induction es as [|[l i] es IH]; intros Hes tokens Hsub; cbv zeta; cbn [foldl].
    { split_and!; [done..|]. intros ???? Hin; by apply not_elem_of_nil in Hin. }
    cbn [fst snd]. assert (label_to_id t !! l = Some i) as Hl by (apply (Hes (l, i)); by left).
    set (tokens' := if Catalog.checkpointed t tokens g l i then <[l:=i]> tokens else tokens).
    assert (tokens ⊆ tokens' /\ tokens' ⊆ label_to_id t) as [H1 H2].
    { unfold tokens'. destruct (Catalog.checkpointed t tokens g l i); [|done]. split; [|by apply insert_subseteq_l].
      apply map_subseteq_spec. intros l' i' Hl'. destruct (decide (l = l')) as [->|]; [|by rewrite lookup_insert_ne].
      rewrite lookup_insert_eq, <- Hl. by eapply lookup_weaken. }
    destruct (IH ltac:(intros; apply Hes; by right) tokens' H2) as (H3 & H4 & H5).
    split_and!; [by transitivity tokens'|done|].
    intros l' i' gen max [[= -> ->]|Hin]%elem_of_cons Hg -> Hle; [|eauto].
    eapply lookup_weaken; [|exact H3]. unfold tokens', Catalog.checkpointed. rewrite Hg.
    rewrite (proj2 (Z.leb_le gen max) Hle), orb_true_r. apply lookup_insert_eq. }
  destruct (Hfold (btree_iter (label_to_id t))) with (tokens0 := tokens) as (H1 & H2 & H3).
  - intros [l i] Hin. by apply btree_iter_elem in Hin.
  - done.
  - split_and!; [done..|]. intros l i gen max Hl. apply H3. by apply btree_iter_elem.
Qed.

(** Operations that agree with a larger catalog replay onto a smaller one. *)
Lemma replay_within t log t1 :
  tokens_ok t -> tokens_ok t1 -> label_to_id t1 ⊆ label_to_id t ->
  (forall g l i, (g, (l, i)) ∈ log -> label_to_id t !! l = Some i) ->
  exists t', apply_all t1 log = Ok t' /\ label_to_id t' ⊆ label_to_id t.
Proof.
  intros Hok. revert t1. induction log as [|[g [l i]] log IH]; intros t1 Hok1 Hsub Hlog; [by exists t1|].
  assert (label_to_id t !! l = Some i) as Hl by (eapply Hlog; by left).
  destruct (tk_ids _ Hok _ _ Hl) as [Hi _]. cbn [apply_all].
  destruct (apply_label_ok t1 l i (Some g)) as [t2 Ht2]; [exact (tk_names _ Hok _ _ Hl)|lia| |].
  { destruct (label_to_id t1 !! l) as [j|] eqn:Ej; [left; pose proof (lookup_weaken _ _ _ _ Ej Hsub); congruence|].
    right. split; [done|]. destruct (id_to_label t1 !! i) as [l'|] eqn:El'; [|done].
    apply (tk_inverse _ Hok1) in El' as El. pose proof (lookup_weaken _ _ _ _ El Hsub) as El2.
    apply (tk_inverse _ Hok) in Hl, El2. congruence. }
  destruct (apply_label_spec t1 l i (Some g) t2 Hok1 ltac:(unfold u32, u32_max in *; lia) Ht2) as (Hok2 & Hm2 & _).
  rewrite Ht2, bind_Ok_l. apply IH; [done| |intros; eapply Hlog; by right].
  rewrite Hm2. by apply insert_subseteq_l.
Qed.

Definition later (checkpoint : option Z) (g : Z) : Prop :=
  match checkpoint with Some max => max < g | None => True end.
#[export] Instance later_dec checkpoint g : Decision (later checkpoint g).
Proof. destruct checkpoint as [max|]; [exact (decide (max < g)) | exact (decide True)]. Defined.

Lemma opened_tokens_ok (t : Tokens) (m : gmap str Z) (ids : gmap Z str) next :
  tokens_ok t -> m ⊆ label_to_id t -> (forall i l, ids !! i = Some l <-> m !! l = Some i) -> 0 < next <= u32_max ->
  tokens_ok (opened_tokens m ids (Catalog.next_after next m)).
Proof.
  intros Hok Hsub Hids Hnext. unfold Catalog.next_after, Catalog.saturating_succ_u32.
  split; cbn [opened_tokens label_to_id id_to_label label_wal_generation next_label_id].
  - intros l i. by rewrite Hids.
  - intros l i Hl. pose proof (lookup_weaken _ _ _ _ Hl Hsub) as Hlt. destruct (tk_ids _ Hok _ _ Hlt) as [Hi _].
    split; [done|]. assert (i <= max_of (snd <$> btree_iter m)); [|lia].
    apply max_of_le. apply (list_elem_of_fmap_2 snd _ (l, i)). by apply btree_iter_elem.
  - intros l i Hl. exact (tk_names _ Hok _ _ (lookup_weaken _ _ _ _ Hl Hsub)).
  - unfold u32_max in *. destruct (max_of_elem (snd <$> btree_iter m)) as [->|Hin]; [lia|].
    apply list_elem_of_fmap in Hin as ([l i] & -> & Hin). apply btree_iter_elem in Hin. cbn.
    destruct (tk_ids _ Hok l i ltac:(by eapply lookup_weaken)). lia.
  - intros l g Hl. by rewrite lookup_empty in Hl.
Qed.

Lemma next_after_le (t : Tokens) (m : gmap str Z) next :
  tokens_ok t -> m ⊆ label_to_id t -> next <= next_label_id t -> Catalog.next_after next m <= next_label_id t.
Proof.
  intros Hok Hsub Hn. unfold Catalog.next_after, Catalog.saturating_succ_u32. apply Z.max_lub; [done|].
  destruct (max_of_elem (snd <$> btree_iter m)) as [->|Hin]; [destruct (tk_next _ Hok); unfold u32_max; lia|].
  apply list_elem_of_fmap in Hin as ([l i] & -> & Hin). apply btree_iter_elem in Hin.
  apply (tk_ids _ Hok l i). by eapply lookup_weaken.
Qed.

(** Two well-formed namespaces with the same names have the same ids. *)
Lemma same_names_same_ids t t' : tokens_ok t -> tokens_ok t' -> label_to_id t = label_to_id t' -> id_to_label t = id_to_label t'.
Proof.
  intros Hok Hok' Hm. apply map_eq. intros i. apply option_eq. intros l.
  by rewrite <- (tk_inverse _ Hok), <- (tk_inverse _ Hok'), Hm.
Qed.

Lemma log_ok_filter checkpoint (log : token_log) :
  log_ok log -> log_ok (filter (fun e => later checkpoint e.1) log).
Proof. unfold log_ok. rewrite !Forall_forall. intros Hl e [_ He]%list_elem_of_filter. by apply Hl. Qed.

Lemma restore_namespace (t0 t : Tokens) (log : token_log) (checkpoint : option Z) (persisted : gmap str Z) next :
  applied t0 log t -> log_ok log ->
  label_to_id t0 ⊆ persisted -> persisted ⊆ label_to_id t ->
  0 < next_label_id t0 <= next -> next <= next_label_id t ->
  let m := Catalog.checkpoint_tokens t checkpoint persisted in
  exists ids, Catalog.rebuild_from ∅ (btree_iter m) = Ok ids
    /\ tokens_ok (opened_tokens m ids (Catalog.next_after next m))
    /\ label_to_id t0 ⊆ m
    /\ (forall g l i, (g, (l, i)) ∈ log -> ~ later checkpoint g -> m !! l = Some i)
    /\ exists t', apply_all (opened_tokens m ids (Catalog.next_after next m)) (filter (fun e => later checkpoint e.1) log) = Ok t'
         /\ label_to_id t' = label_to_id t /\ id_to_label t' = id_to_label t /\ next_label_id t' = next_label_id t.
Proof.
  intros [Hok Hbase Hlog Honly _ Hnext Hnonly] Hlok Hp0 Hp Hn0 Hn. cbv zeta.
  destruct (checkpoint_spec t checkpoint persisted Hp) as (Hpm & Hm & Hck).
  set (m := Catalog.checkpoint_tokens t checkpoint persisted) in *.
  destruct (rebuild_map_ok m) as (ids & Hids & Hinv).
  { intros l1 l2 i H1 H2. pose proof (lookup_weaken _ _ _ _ H1 Hm) as H1'. pose proof (lookup_weaken _ _ _ _ H2 Hm) as H2'.
    apply (tk_inverse _ Hok) in H1', H2'. congruence. }
  exists ids. split; [done|].
  assert (forall g l i, (g, (l, i)) ∈ log -> ~ later checkpoint g -> m !! l = Some i) as Hknown.
  { intros g l i Hin Hearly. destruct checkpoint as [max|]; [|by destruct Hearly].
    destruct (Hlog _ _ _ Hin) as (Hl & (g' & Hg & Hle) & _). eapply Hck; [done|exact Hg|done|]. cbn in Hearly. lia. }
  assert (tokens_ok (opened_tokens m ids (Catalog.next_after next m))) as Hok1
    by (eapply opened_tokens_ok; try done; destruct (tk_next _ Hok); lia).
  destruct (replay_within t (filter (fun e => later checkpoint e.1) log) _ Hok Hok1 Hm) as (t' & Ht' & Hsub).
  { intros g l i [_ Hin]%list_elem_of_filter. by apply (Hlog g). }
  destruct (apply_all_spec _ _ _ Hok1 (log_ok_filter _ _ Hlok) Ht') as [Hok' Hbase' Hlog' _ _ Hnext' Hnonly'].
  cbn [opened_tokens label_to_id next_label_id] in *.
  assert (label_to_id t' = label_to_id t) as Hnames.
  { apply map_eq. intros l. apply option_eq. intros i. split; [intros Hl; by eapply lookup_weaken|]. intros Hl.
    destruct (Honly _ _ Hl) as [H0|[g Hin]]; [eapply lookup_weaken; [|exact Hbase']; eapply lookup_weaken; [|exact Hpm]; by eapply lookup_weaken|].
    destruct (decide (later checkpoint g)) as [Hlate|Hearly]; [apply (Hlog' g); apply list_elem_of_filter; by split|].
    eapply lookup_weaken; [|exact Hbase']. by apply (Hknown g). }
  split_and!; [done|by transitivity persisted|done|].
  exists t'. split_and!; [done|done|by apply same_names_same_ids|].
  pose proof (next_after_le t m next Hok Hm Hn) as Hle.
  apply Z.le_antisymm.
  - destruct Hnonly' as [->|(g & l & i & Hin & ->)]; [done|]. apply list_elem_of_filter in Hin as [_ Hin]. by apply (Hlog g l i).
  - destruct Hnonly as [->|(g & l & i & Hin & ->)].
    + unfold Catalog.next_after in *. lia.
    + destruct (Hlog _ _ _ Hin) as (Hl & _). rewrite <- Hnames in Hl. by destruct (tk_ids _ Hok' _ _ Hl).
Qed.

(** ** The whole catalog *)
Fixpoint live_all (c : RuntimeLabelCatalog) (log : list (Z * WalOp)) : res RuntimeLabelCatalog :=
  match log with
  | [] => Ok c
  | (g, op) :: log => c ← Catalog.apply_label_token_op_after_wal_append c g op; live_all c log
  end.
Fixpoint replay_all (c : RuntimeLabelCatalog) (log : list (Z * WalOp)) : res RuntimeLabelCatalog :=
  match log with
  | [] => Ok c
  | (g, op) :: log => c ← Catalog.validate_or_apply_replayed_label_token_op c op g; replay_all c log
  end.

Lemma live_replay_step c g op c' :
  Catalog.apply_label_token_op_after_wal_append c g op = Ok c'
  <-> Catalog.validate_or_apply_replayed_label_token_op c op g = Ok c'.
Proof. destruct op; cbn; try done; by destruct (forallb _ _) || by destruct (Catalog.has_id _ _). Qed.

Definition node_log (log : list (Z * WalOp)) : token_log :=
  omap (fun e => match e.2 with EnsureNodeLabel l i => Some (e.1, (l, i)) | _ => None end) log.
Definition edge_log (log : list (Z * WalOp)) : token_log :=
  omap (fun e => match e.2 with EnsureEdgeLabel l i => Some (e.1, (l, i)) | _ => None end) log.

Lemma live_all_split log c c' :
  live_all c log = Ok c' ->
  apply_all (cat_node c) (node_log log) = Ok (cat_node c') /\ apply_all (cat_edge c) (edge_log log) = Ok (cat_edge c').
Proof.
  revert c. induction log as [|[g op] log IH]; intros c E; [by apply Ok_inj in E as <-|].
  apply bind_Ok_inv in E as (c1 & E1 & E). apply IH in E as [En Ee].
  destruct op as [node|edge| | |l i|l i| |]; cbn in E1 |- *.
  1: destruct (forallb _ _); [|done]; by apply Ok_inj in E1 as <-.
  1: destruct (Catalog.has_id _ _); [|done]; by apply Ok_inj in E1 as <-.
  1,2: by apply Ok_inj in E1 as <-.
  1: apply bind_Ok_inv in E1 as (t & Et & <-%Ok_inj); cbn in *; by rewrite Et.
  1: apply bind_Ok_inv in E1 as (t & Et & <-%Ok_inj); cbn in *; by rewrite Et.
  all: done.
Qed.

Definition ids_within (t t' : Tokens) : Prop := forall i, is_Some (id_to_label t !! i) -> is_Some (id_to_label t' !! i).

Lemma has_id_within t t' i : ids_within t t' -> Catalog.has_id t i = true -> Catalog.has_id t' i = true.
Proof. unfold Catalog.has_id. rewrite !bool_decide_eq_true. intros Hw. apply Hw. Qed.
Lemma has_ids_within t t' ids :
  ids_within t t' -> forallb (Catalog.has_id t) ids = true -> forallb (Catalog.has_id t') ids = true.
Proof. rewrite !forallb_forall. intros Hw Hall i Hi. eapply has_id_within; eauto. Qed.

Lemma apply_label_ids t l i g t' :
  tokens_ok t -> u32 i -> Catalog.apply_label t l i g = Ok t' ->
  tokens_ok t' /\ forall j, is_Some (id_to_label t' !! j) <-> j = i \/ is_Some (id_to_label t !! j).
Proof.
  intros Hok Hi E. destruct (apply_label_spec _ _ _ _ _ Hok Hi E) as (Hok' & Hm & Hold & _). split; [done|].
  assert (forall t j, tokens_ok t -> (is_Some (id_to_label t !! j) <-> exists l, label_to_id t !! l = Some j)) as Hs.
  { intros t2 j Hok2. split; [intros [l' Hl']; exists l'; by apply tk_inverse | intros [l' Hl']; exists l'; by apply tk_inverse]. }
  intros j. rewrite !Hs by done. rewrite Hm. split.
  - intros [l' [[-> ->]|[_ Hl']]%lookup_insert_Some]; eauto.
  - intros [->|[l' Hl']]; [exists l; apply lookup_insert_eq|].
    destruct (decide (l = l')) as [<-|]; [|exists l'; by rewrite lookup_insert_ne].
    exists l. rewrite lookup_insert_eq. f_equal. destruct Hold; congruence.
Qed.

Lemma ids_within_apply t t' l i g t2 t2' :
  tokens_ok t -> tokens_ok t' -> u32 i -> ids_within t t' ->
  Catalog.apply_label t l i g = Ok t2 -> Catalog.apply_label t' l i g = Ok t2' -> ids_within t2 t2'.
Proof.
  intros Hok Hok' Hi Hw E E'. destruct (apply_label_ids _ _ _ _ _ Hok Hi E) as [_ Hs].
  destruct (apply_label_ids _ _ _ _ _ Hok' Hi E') as [_ Hs']. intros j. rewrite Hs, Hs'. intros [?|?]; auto.
Qed.
Lemma ids_within_absorb t t' l i g t2 :
  tokens_ok t -> u32 i -> ids_within t t' -> Catalog.apply_label t l i g = Ok t2 ->
  is_Some (id_to_label t' !! i) -> ids_within t2 t'.
Proof.
  intros Hok Hi Hw E Hb. destruct (apply_label_ids _ _ _ _ _ Hok Hi E) as [_ Hs]. intros j. rewrite Hs.
  intros [->|?]; auto.
Qed.

(** What a checkpointed operation has already put in the catalog. *)
Definition op_known (c : RuntimeLabelCatalog) (op : WalOp) : Prop :=
  match op with
  | EnsureNodeLabel _ i => is_Some (id_to_label (cat_node c) !! i)
  | EnsureEdgeLabel _ i => is_Some (id_to_label (cat_edge c) !! i)
  | _ => True
  end.
Definition label_op_ok (op : WalOp) : Prop :=
  match op with EnsureNodeLabel _ i | EnsureEdgeLabel _ i => u32 i | _ => True end.

Lemma op_known_within c c' op :
  ids_within (cat_node c) (cat_node c') -> ids_within (cat_edge c) (cat_edge c') -> op_known c op -> op_known c' op.
Proof. intros Hn He. destruct op; cbn; auto. Qed.

Lemma replay_follows checkpoint log cl cr c nt et :
  catalog_ok cl -> catalog_ok cr ->
  ids_within (cat_node cl) (cat_node cr) -> ids_within (cat_edge cl) (cat_edge cr) ->
  Forall (fun e => label_op_ok e.2) log ->
  (forall g op, (g, op) ∈ log -> ~ later checkpoint g -> op_known cr op) ->
  live_all cl log = Ok c ->
  apply_all (cat_node cr) (filter (fun e => later checkpoint e.1) (node_log log)) = Ok nt ->
  apply_all (cat_edge cr) (filter (fun e => later checkpoint e.1) (edge_log log)) = Ok et ->
  replay_all cr (filter (fun e => later checkpoint e.1) log) = Ok (mkCatalog nt et).
Proof.
  revert cl cr. induction log as [|[g op] log IH]; intros cl cr [Hnl Hel] [Hnr Her] Hn He Hlog Hearly E En Ee.
  { apply Ok_inj in En as <-. apply Ok_inj in Ee as <-. by destruct cr. }
  apply Forall_cons in Hlog as [Hop Hlog]. cbn in Hop. apply bind_Ok_inv in E as (cl1 & E1 & E).
  assert (forall g' op', (g', op') ∈ log -> ~ later checkpoint g' -> op_known cr op') as Hearly'
    by (intros g' op' Hin; apply (Hearly g'); by right).
  destruct (decide (later checkpoint g)) as [Hl|Hl].
  - rewrite filter_cons_True by done. cbn [replay_all].
    destruct op as [node|edge| | |l i|l i| |]; cbn [Catalog.apply_label_token_op_after_wal_append
      Catalog.validate_or_apply_replayed_label_token_op] in *; try done.
    + destruct (forallb _ _) eqn:Hf; [|done]. apply Ok_inj in E1 as <-.
      rewrite (has_ids_within _ _ _ Hn Hf), bind_Ok_l. by apply (IH cl).
    + destruct (Catalog.has_id _ _) eqn:Hf; [|done]. apply Ok_inj in E1 as <-.
      rewrite (has_id_within _ _ _ He Hf), bind_Ok_l. by apply (IH cl).
    + apply Ok_inj in E1 as <-. rewrite bind_Ok_l. by apply (IH cl).
    + apply Ok_inj in E1 as <-. rewrite bind_Ok_l. by apply (IH cl).
    + apply bind_Ok_inv in E1 as (tl & Etl & <-%Ok_inj). cbn [node_log omap list_omap fst snd] in En.
      fold (node_log log) in En. rewrite filter_cons_True in En by done. cbn [apply_all] in En.
      apply bind_Ok_inv in En as (tr & Etr & En). unfold Catalog.apply_node_label. rewrite Etr, !bind_Ok_l.
      destruct (apply_label_ids _ _ _ _ _ Hnl Hop Etl) as [Hokl _]. destruct (apply_label_ids _ _ _ _ _ Hnr Hop Etr) as [Hokr Hsr].
      apply (IH (mkCatalog tl (cat_edge cl))); try done; [by apply (ids_within_apply _ _ _ _ _ _ _ Hnl Hnr Hop Hn Etl Etr)|].
      intros g' op' Hin Hnl'. eapply (op_known_within cr); [intros j ?; apply Hsr; by right|by intros j|by apply (Hearly' g')].
    + apply bind_Ok_inv in E1 as (tl & Etl & <-%Ok_inj). cbn [edge_log omap list_omap fst snd] in Ee.
      fold (edge_log log) in Ee. rewrite filter_cons_True in Ee by done. cbn [apply_all] in Ee.
      apply bind_Ok_inv in Ee as (tr & Etr & Ee). unfold Catalog.apply_edge_label. rewrite Etr, !bind_Ok_l.
      destruct (apply_label_ids _ _ _ _ _ Hel Hop Etl) as [Hokl _]. destruct (apply_label_ids _ _ _ _ _ Her Hop Etr) as [Hokr Hsr].
      apply (IH (mkCatalog (cat_node cl) tl)); try done; [by apply (ids_within_apply _ _ _ _ _ _ _ Hel Her Hop He Etl Etr)|].
      intros g' op' Hin Hnl'. eapply (op_known_within cr); [by intros j|intros j ?; apply Hsr; by right|by apply (Hearly' g')].
  - rewrite filter_cons_False by done. pose proof (Hearly g op ltac:(by left) Hl) as Hk.
    destruct op as [node|edge| | |l i|l i| |]; cbn [Catalog.apply_label_token_op_after_wal_append] in *; try done.
    + destruct (forallb _ _); [|done]. apply Ok_inj in E1 as <-. by apply (IH cl).
    + destruct (Catalog.has_id _ _); [|done]. apply Ok_inj in E1 as <-. by apply (IH cl).
    + apply Ok_inj in E1 as <-. by apply (IH cl).
    + apply Ok_inj in E1 as <-. by apply (IH cl).
    + apply bind_Ok_inv in E1 as (tl & Etl & <-%Ok_inj). cbn [node_log omap list_omap fst snd] in En.
      fold (node_log log) in En. rewrite filter_cons_False in En by done.
      destruct (apply_label_ids _ _ _ _ _ Hnl Hop Etl) as [Hokl _].
      apply (IH (mkCatalog tl (cat_edge cl))); try done. by apply (ids_within_absorb _ _ _ _ _ _ Hnl Hop Hn Etl).
    + apply bind_Ok_inv in E1 as (tl & Etl & <-%Ok_inj). cbn [edge_log omap list_omap fst snd] in Ee.
      fold (edge_log log) in Ee. rewrite filter_cons_False in Ee by done.
      destruct (apply_label_ids _ _ _ _ _ Hel Hop Etl) as [Hokl _].
      apply (IH (mkCatalog (cat_node cl) tl)); try done. by apply (ids_within_absorb _ _ _ _ _ _ Hel Hop He Etl).
Qed.

(** ** Manifests *)
Lemma validate_tokens_spec tokens ids max_id next :
  validate_tokens_from ids max_id tokens next = Ok tt ->
  max_id < next
  /\ (forall l i, (l, i) ∈ tokens -> i <> 0 /\ i < next /\ validate_label_token_name l = Ok tt /\ ids !! i = None)
  /\ (forall l1 l2 i, (l1, i) ∈ tokens -> (l2, i) ∈ tokens -> l1 = l2).
Proof.
  revert ids max_id. induction tokens as [|[l i] tokens IH]; intros ids max_id E; cbn [validate_tokens_from] in E.
  { destruct (Z.leb_spec next max_id); [done|]. split_and!; [lia| |]; intros * Hin; by apply not_elem_of_nil in Hin. }
  destruct (validate_label_token_name l) as [[]|] eqn:Hv; [|done]. destruct (Z.eqb_spec i 0); [done|].
  destruct (ids !! i) eqn:Ei; [done|]. apply IH in E as (Hmax & Hall & Hinj).
  assert (forall l' i', (l', i') ∈ tokens -> i' <> i) as Hne
    by (intros l' i' Hin ->; destruct (Hall _ _ Hin) as (_ & _ & _ & Hn); by rewrite lookup_insert_eq in Hn).
  split_and!; [lia| |].
  - intros l' i' [[= -> ->]|Hin]%elem_of_cons; [split_and!; (done || lia)|].
    destruct (Hall _ _ Hin) as (? & ? & ? & Hn). rewrite lookup_insert_ne in Hn by (intros ->; by apply (Hne _ _ Hin)). done.
  - intros l1 l2 j [E1|H1]%elem_of_cons [E2|H2]%elem_of_cons; simplify_eq; try done.
    + by destruct (Hne _ _ H2).
    + by destruct (Hne _ _ H1).
    + eauto.
Qed.

(** The fields of a namespace of a manifest, in their Rust types. *)
Definition tokens_typed (tokens : gmap str Z) (next : Z) : Prop :=
  (forall l i, tokens !! l = Some i -> u32 i) /\ u32 next.

Lemma validated_tokens_ok (tokens : gmap str Z) next :
  tokens_typed tokens next -> validate_token_namespace tokens next = Ok tt ->
  exists ids, Catalog.rebuild_from ∅ (btree_iter tokens) = Ok ids /\ tokens_ok (opened_tokens tokens ids next).
Proof.
  intros [Hty Hnt] (Hmax & Hall & Hinj)%validate_tokens_spec.
  assert (forall l i, tokens !! l = Some i -> (l, i) ∈ btree_iter tokens) as Hin by (intros; by apply btree_iter_elem).
  destruct (rebuild_map_ok tokens) as (ids & Hids & Hinv); [intros l1 l2 i H1 H2; by apply (Hinj _ _ i); apply Hin|].
  exists ids. split; [done|]. unfold u32, u32_max in *.
  split; cbn [opened_tokens label_to_id id_to_label label_wal_generation next_label_id]; unfold u32_max.
  - intros l i. by rewrite Hinv.
  - intros l i Hl. destruct (Hall _ _ (Hin _ _ Hl)) as (? & ? & _). pose proof (Hty _ _ Hl). lia.
  - intros l i Hl. by destruct (Hall _ _ (Hin _ _ Hl)) as (_ & _ & ? & _).
  - lia.
  - intros l g Hl. by rewrite lookup_empty in Hl.
Qed.

Section Manifests.
Context `{Schemas}.

Definition manifest_typed (m : ManifestState) : Prop :=
  tokens_typed (ms_node_label_tokens m) (ms_next_node_label_id m)
  /\ tokens_typed (ms_edge_label_tokens m) (ms_next_edge_label_id m).

Lemma from_manifest_ok m :
  manifest_typed m -> validate_label_token_manifest m = Ok tt ->
  exists c, Catalog.from_manifest m = Ok c /\ catalog_ok c
    /\ label_to_id (cat_node c) = ms_node_label_tokens m /\ label_to_id (cat_edge c) = ms_edge_label_tokens m
    /\ next_label_id (cat_node c) = ms_next_node_label_id m /\ next_label_id (cat_edge c) = ms_next_edge_label_id m.
Proof.
  intros [Htn Hte] Hv. unfold validate_label_token_manifest in Hv. destruct (_ =? _); [done|].
  destruct (negb _); [done|]. apply bind_Ok_inv in Hv as ([] & Hn & He).
  destruct (validated_tokens_ok _ _ Htn Hn) as (nids & En & Hnok). destruct (validated_tokens_ok _ _ Hte He) as (eids & Ee & Heok).
  eexists. unfold Catalog.from_manifest. rewrite En, bind_Ok_l, Ee, bind_Ok_l. by split_and!; [|split|..].
Qed.

(** A manifest on disk lies between the one the catalog was opened from and the
    live catalog. *)
Definition persisted_between (m0 m : ManifestState) (c : RuntimeLabelCatalog) : Prop :=
  (ms_node_label_tokens m0 ⊆ ms_node_label_tokens m /\ ms_node_label_tokens m ⊆ label_to_id (cat_node c))
  /\ (ms_edge_label_tokens m0 ⊆ ms_edge_label_tokens m /\ ms_edge_label_tokens m ⊆ label_to_id (cat_edge c))
  /\ ms_next_node_label_id m0 <= ms_next_node_label_id m <= next_label_id (cat_node c)
  /\ ms_next_edge_label_id m0 <= ms_next_edge_label_id m <= next_label_id (cat_edge c).

Lemma node_log_elem log g l i : (g, (l, i)) ∈ node_log log <-> (g, EnsureNodeLabel l i) ∈ log.
Proof.
  unfold node_log. rewrite list_elem_of_omap. split.
  - intros ([g' op] & Hin & E). cbn in E. destruct op; try done. by injection E as -> -> ->.
  - intros Hin. by eexists.
Qed.
Lemma edge_log_elem log g l i : (g, (l, i)) ∈ edge_log log <-> (g, EnsureEdgeLabel l i) ∈ log.
Proof.
  unfold edge_log. rewrite list_elem_of_omap. split.
  - intros ([g' op] & Hin & E). cbn in E. destruct op; try done. by injection E as -> -> ->.
  - intros Hin. by eexists.
Qed.
Lemma logs_ok log : Forall (fun e => label_op_ok e.2) log -> log_ok (node_log log) /\ log_ok (edge_log log).
Proof.
  rewrite Forall_forall. intros Hall. split; apply Forall_forall.
  - intros [g [l i]] Hin%node_log_elem. by apply (Hall _ Hin).
  - intros [g [l i]] Hin%edge_log_elem. by apply (Hall _ Hin).
Qed.


Lemma ids_within_sub t t' : tokens_ok t -> tokens_ok t' -> label_to_id t ⊆ label_to_id t' -> ids_within t t'.
Proof.
  intros Hok Hok' Hsub i [l Hl]. exists l. apply (tk_inverse _ Hok'). eapply lookup_weaken; [|done]. by apply (tk_inverse _ Hok).
Qed.

Definition same_names (c c' : RuntimeLabelCatalog) : Prop :=
  label_to_id (cat_node c) = label_to_id (cat_node c') /\ id_to_label (cat_node c) = id_to_label (cat_node c')
  /\ next_label_id (cat_node c) = next_label_id (cat_node c')
  /\ label_to_id (cat_edge c) = label_to_id (cat_edge c') /\ id_to_label (cat_edge c) = id_to_label (cat_edge c')
  /\ next_label_id (cat_edge c) = next_label_id (cat_edge c').

(** C35. No label is lost.  Open the catalog from a valid manifest, run any
    write operations across any log generations, and checkpoint up to some
    generation into a manifest written meanwhile: the catalog of that manifest
    opens, replaying only the operations of later generations on it succeeds
    (records that name labels of checkpointed generations included), and gives
    back every name, id and next id of the live catalog. *)
Theorem checkpoint_restores_labels m0 c0 log c m checkpoint :
  manifest_typed m0 -> validate_label_token_manifest m0 = Ok tt -> Catalog.from_manifest m0 = Ok c0 ->
  Forall (fun e => label_op_ok e.2) log -> live_all c0 log = Ok c -> persisted_between m0 m c ->
  exists c1 c', Catalog.from_manifest (Catalog.apply_checkpointed_to_manifest c checkpoint m) = Ok c1
    /\ replay_all c1 (filter (fun e => later checkpoint e.1) log) = Ok c' /\ same_names c' c.
Proof.
  intros Hty Hv Hc0 Hlog Hlive ((Hn0 & Hn) & (He0 & He) & Hnn & Hen).
  destruct (from_manifest_ok m0 Hty Hv) as (c0' & E0 & [Hokn Hoke] & Enm & Eem & Enn & Een).
  rewrite Hc0 in E0. apply Ok_inj in E0 as <-. rewrite <- Enm in Hn0. rewrite <- Eem in He0. rewrite <- Enn in Hnn. rewrite <- Een in Hen.
  destruct (logs_ok log Hlog) as [Hnl Hel]. destruct (live_all_split _ _ _ Hlive) as [Han Hae].
  destruct (restore_namespace (cat_node c0) (cat_node c) (node_log log) checkpoint (ms_node_label_tokens m)
    (ms_next_node_label_id m) (apply_all_spec _ _ _ Hokn Hnl Han) Hnl Hn0 Hn)
    as (nids & Eni & Hokn1 & Hbn & Hkn & tn & Htn & Hln & Hin & Hxn); [destruct (tk_next _ Hokn); lia|lia|].
  destruct (restore_namespace (cat_edge c0) (cat_edge c) (edge_log log) checkpoint (ms_edge_label_tokens m)
    (ms_next_edge_label_id m) (apply_all_spec _ _ _ Hoke Hel Hae) Hel He0 He)
    as (eids & Eei & Hoke1 & Hbe & Hke & te & Hte & Hle & Hie & Hxe); [destruct (tk_next _ Hoke); lia|lia|].
  cbv zeta in *.
  eexists (mkCatalog (opened_tokens (Catalog.checkpoint_tokens (cat_node c) checkpoint (ms_node_label_tokens m)) nids
      (Catalog.next_after (ms_next_node_label_id m) _))
    (opened_tokens (Catalog.checkpoint_tokens (cat_edge c) checkpoint (ms_edge_label_tokens m)) eids
      (Catalog.next_after (ms_next_edge_label_id m) _))), (mkCatalog tn te).
  split_and!; [|eapply (replay_follows checkpoint log c0); try done; [by apply ids_within_sub..|] |by split_and!].
  - unfold Catalog.from_manifest, Catalog.apply_checkpointed_to_manifest. cbv zeta.
    cbn [Catalog.set_label_tokens ms_node_label_tokens ms_edge_label_tokens ms_next_node_label_id ms_next_edge_label_id].
    rewrite Eni, bind_Ok_l, Eei. reflexivity.
  - intros g op Hg Hearly. destruct op as [| | | |l i|l i| |]; try done; cbn [op_known cat_node cat_edge].
    + exists l. apply (tk_inverse _ Hokn1). apply (Hkn g l i); [by apply node_log_elem|done].
    + exists l. apply (tk_inverse _ Hoke1). apply (Hke g l i); [by apply edge_log_elem|done].
Qed.
End Manifests.
