(* ===== verification/NodeQuery.v ===== *)
(** Node queries (src/engine/query_ir.rs, query_exec.rs, mod.rs): normalizing a
    query, verifying candidates against it in chunks, and cutting the page.  The
    records come from the sources of a read view, an interface here.  A page is
    its ids: reading the records of the ids it holds is left out. *)
From S2P Require Import Prelude Types Floats PropertyValue LabelCatalog FilterBase NodeFilter.

Module NodeQuery.
Import NodeFilter.
Module N := NormalizedNodeFilter.

(** ** Label filters *)
Inductive LabelMatchMode : Type := Any | All.
Record NodeLabelFilter : Type := mkLabelFilter { lf_labels : list str; lf_mode : LabelMatchMode }.
Inductive ResolvedNodeLabelFilter : Type :=
| Unconstrained
| Empty (mode : LabelMatchMode) (unknown_label_count : Z)
| LabelSet (mode : LabelMatchMode) (label_ids : NodeLabelSet) (unknown_label_count : Z).
Definition is_empty_constraint (f : ResolvedNodeLabelFilter) : bool := match f with Empty _ _ => true | _ => false end.

(** [ValidatedNodeLabelList::new] *)
Fixpoint check_label_names (labels : list str) : res unit :=
  match labels with [] => Ok tt | label :: labels => _ ← validate_label_token_name label; check_label_names labels end.
Fixpoint check_distinct (seen labels : list str) : res unit :=
  match labels with
  | [] => Ok tt
  | label :: labels =>
      if decide (label ∈ seen) then Err (InvalidOperation "node label set contains duplicate label")
      else check_distinct (seen ++ [label]) labels
  end.
Definition validate_node_label_filter (filter : NodeLabelFilter) : res unit :=
  _ ← check_label_names (lf_labels filter);
  if (length (lf_labels filter) =? 0)%nat then Err (InvalidOperation "node label set must contain at least one label")
  else if (MAX_NODE_LABELS_PER_NODE <? length (lf_labels filter))%nat
  then Err (InvalidOperation "node label set must contain at most 10 labels")
  else check_distinct [] (lf_labels filter).

Definition resolve_node_label_for_read (node_label_to_id : gmap str Z) (label : str) : res (option Z) :=
  _ ← validate_label_token_name label; Ok (node_label_to_id !! label).
(** The ids of the labels that are known, and how many are not. *)
Fixpoint resolve_labels (node_label_to_id : gmap str Z) (labels : list str) (known : list Z) (unknown : Z) : res (list Z * Z) :=
  match labels with
  | [] => Ok (known, unknown)
  | label :: labels =>
      r ← resolve_node_label_for_read node_label_to_id label;
      match r with
      | Some label_id => resolve_labels node_label_to_id labels (known ++ [label_id]) unknown
      | None => resolve_labels node_label_to_id labels known (unknown + 1)
      end
  end.
Definition resolve_node_label_filter_request (node_label_to_id : gmap str Z) (filter : option NodeLabelFilter)
  : res ResolvedNodeLabelFilter :=
  match filter with
  | None => Ok Unconstrained
  | Some filter =>
      _ ← validate_node_label_filter filter;
      '(known, unknown_label_count) ← resolve_labels node_label_to_id (lf_labels filter) [] 0;
      match known with
      | [] => Ok (Empty (lf_mode filter) unknown_label_count)
      | _ =>
          match lf_mode filter with
          | All =>
              if 0 <? unknown_label_count then Ok (Empty All unknown_label_count)
              else label_ids ← NodeLabels.from_label_ids known; Ok (LabelSet All label_ids unknown_label_count)
          | Any => label_ids ← NodeLabels.from_label_ids known; Ok (LabelSet Any label_ids unknown_label_count)
          end
      end
  end.

Definition node_label_filter_matches (filter : ResolvedNodeLabelFilter) (labels : NodeLabelSet) : bool :=
  match filter with
  | Unconstrained => true
  | Empty _ _ => false
  | LabelSet Any label_ids _ => existsb (NodeLabels.contains labels) (NodeLabels.as_slice label_ids)
  | LabelSet All label_ids _ => forallb (NodeLabels.contains labels) (NodeLabels.as_slice label_ids)
  end.

(** ** Prune policies *)
Record ResolvedPrunePolicy : Type := mkPolicy { rp_max_age_ms : option Z; rp_max_weight : option Z; rp_label_id : option Z }.
Definition matches_prune_cutoff (label_ids : NodeLabelSet) (updated_at weight : Z)
    (policy_age_cutoff policy_max_weight policy_label_id : option Z) : bool :=
  if match policy_label_id with Some label_id => negb (NodeLabels.contains label_ids label_id) | None => false end then false
  else if match policy_age_cutoff with Some cutoff => cutoff <=? updated_at | None => false end then false
  else if match policy_max_weight with Some max_w => flt F32 max_w weight | None => false end then false
  else true.
Definition PrecomputedPruneCutoffs : Type := list (option Z * option Z * option Z).
Definition from_policies (policies : list ResolvedPrunePolicy) (now : Z) : PrecomputedPruneCutoffs :=
  (fun p => ((fun age => now - age) <$> rp_max_age_ms p, rp_max_weight p, rp_label_id p)) <$> policies.
Definition excludes_fields (cutoffs : PrecomputedPruneCutoffs) (label_ids : NodeLabelSet) (updated_at weight : Z) : bool :=
  existsb (fun '(age_cutoff, max_weight, policy_label_id) =>
             matches_prune_cutoff label_ids updated_at weight age_cutoff max_weight policy_label_id) cutoffs.

(** ** Queries *)
Record PageRequest : Type := mkPage { page_limit_opt : option Z; page_after : option Z }.
Inductive QueryPlanWarning : Type :=
| MissingReadyIndex | UsingFallbackScan | FullScanRequiresOptIn | FullScanExplicitlyAllowed | EdgePropertyPostFilter
| IndexSkippedAsBroad | CandidateCapExceeded | RangeCandidateCapExceeded | TimestampCandidateCapExceeded | VerifyOnlyFilter
| BooleanBranchFallback | PlanningProbeBudgetExceeded | CompoundIndexPrefixNotSatisfied | UnknownNodeLabel | UnknownEdgeLabel.
#[export] Instance warning_eq_dec : EqDecision QueryPlanWarning.
Proof. solve_decision. Defined.
Definition push_query_warning (warnings : list QueryPlanWarning) (warning : QueryPlanWarning) : list QueryPlanWarning :=
  if decide (warning ∈ warnings) then warnings else warnings ++ [warning].

Inductive NodeQueryOrder : Type := NodeIdAsc.
Record NodeQuery : Type := mkNodeQuery {
  q_label_filter : option NodeLabelFilter;
  q_ids : list Z;
  q_keys : list str;
  q_filter : option NodeFilterExpr.t;
  q_page : PageRequest;
  q_order : NodeQueryOrder;
  q_allow_full_scan : bool
}.
Record NormalizedNodeQuery : Type := mkNormalized {
  nq_single_label_id : option Z;
  nq_label_filter : ResolvedNodeLabelFilter;
  nq_ids : list Z;
  nq_keys : list str;
  nq_filter : N.t;
  nq_allow_full_scan : bool;
  nq_page : PageRequest;
  nq_warnings : list QueryPlanWarning
}.

Definition unknown_node_label_count (filter : ResolvedNodeLabelFilter) : Z :=
  match filter with Unconstrained => 0 | Empty _ n | LabelSet _ _ n => n end.
Definition single_resolved_label_id (filter : ResolvedNodeLabelFilter) : option Z :=
  match filter with
  | LabelSet _ label_ids _ => match NodeLabels.as_slice label_ids with [id] => Some id | _ => None end
  | _ => None
  end.

(** [sort_unstable] and [dedup] on ids. *)
Fixpoint dedup_ids (ids : list Z) : list Z :=
  match ids with
  | x :: ids' => match dedup_ids ids' with y :: l => if x =? y then y :: l else x :: y :: l | [] => [x] end
  | [] => []
  end.
Definition sorted_dedup_u64 (ids : list Z) : list Z := dedup_ids (merge_sort Z.le ids).

Section Queries.
Context `{RmpValue}.

Definition normalize_node_query_with_anchor_requirement (node_label_to_id : gmap str Z) (query : NodeQuery)
    (require_anchor : bool) : option (res NormalizedNodeQuery) :=
  match resolve_node_label_filter_request node_label_to_id (q_label_filter query) with
  | Err e => Some (Err e)
  | Ok label_filter =>
      let warnings := if 0 <? unknown_node_label_count label_filter then push_query_warning [] UnknownNodeLabel else [] in
      let single_label_id := single_resolved_label_id label_filter in
      and_then (normalize_optional_node_filter (q_filter query)) (fun filter =>
        let filter := if is_empty_constraint label_filter then N.AlwaysFalse else filter in
        let ids := sorted_dedup_u64 (q_ids query) in
        let keys := fst <$> sort_dedup ((fun key => (key, tt)) <$> q_keys query) in
        let key_label_ok :=
          match keys with
          | [] => true
          | _ =>
              match label_filter with
              | LabelSet _ label_ids _ => (length (NodeLabels.as_slice label_ids) =? 1)%nat
              | Empty _ _ => true
              | Unconstrained => false
              end
          end in
        if negb key_label_ok then Some (Err (InvalidOperation "node query keys require exactly one resolved label"))
        else
          let has_label_anchor := match label_filter with Unconstrained => false | _ => true end in
          let always_false := match filter with N.AlwaysFalse => true | _ => false end in
          if require_anchor && (length ids =? 0)%nat && (length keys =? 0)%nat && negb has_label_anchor
             && negb (q_allow_full_scan query) && negb always_false
          then Some (Err (InvalidOperation "node query requires label_filter, ids, keys, or allow_full_scan"))
          else Some (Ok (mkNormalized single_label_id label_filter ids keys filter (q_allow_full_scan query)
                           (q_page query) warnings)))
  end.
Definition normalize_node_query (node_label_to_id : gmap str Z) (query : NodeQuery) : option (res NormalizedNodeQuery) :=
  normalize_node_query_with_anchor_requirement node_label_to_id query true.

(** ** The sources of a read view *)
Record NodeVisibilityMeta : Type := mkVisibility { nv_label_ids : NodeLabelSet; nv_updated_at : Z; nv_weight : Z }.
Inductive NodeVisibilityState : Type := Live (meta : NodeVisibilityMeta) | Deleted | Missing.
Inductive PropertySelection : Type := NoProps | Keys (keys : list str) | AllProps.
Inductive VectorSelection : Type := NoVectors | Dense | Sparse | Both.
Definition needs_dense (v : VectorSelection) : bool := match v with Dense | Both => true | _ => false end.
Definition needs_sparse (v : VectorSelection) : bool := match v with Sparse | Both => true | _ => false end.
Record NodeSelectedFieldNeeds : Type := mkNeeds {
  need_key : bool;
  need_created_at : bool;
  need_props : PropertySelection;
  need_vectors : VectorSelection
}.

Definition selected_props_from_map (p : props) (selection : PropertySelection) : props :=
  match selection with
  | NoProps => []
  | Keys keys =>
      foldl (fun selected key => match btree_get key p with Some value => btree_insert key value selected | None => selected end)
        [] keys
  | AllProps => p
  end.
(** The fields of a live record that are asked for. *)
Definition selected_node_fields (needs : NodeSelectedFieldNeeds) (node : NodeRecord) : SelectedNodeFields :=
  mkSelectedNode (mkNodeMeta (nr_id node) (nr_label_ids node) (nr_updated_at node) (nr_weight node))
    (if need_key needs then Some (nr_key node) else None)
    (selected_props_from_map (nr_props node) (need_props needs))
    (if need_created_at needs then Some (nr_created_at node) else None)
    (if needs_dense (need_vectors needs) then nr_dense_vector node else None)
    (if needs_sparse (need_vectors needs) then nr_sparse_vector node else None).
Definition visibility_meta (node : NodeRecord) : NodeVisibilityMeta :=
  mkVisibility (nr_label_ids node) (nr_updated_at node) (nr_weight node).

(** What a query asks of the sources, for a list of ids. *)
Class NodeSources : Type := {
  find_node_visibility_meta : list Z -> res (list NodeVisibilityState);
  find_node_projected_fields : list Z -> NodeSelectedFieldNeeds -> res (list (option SelectedNodeFields))
}.

(** ** Verification *)
Definition node_query_meta_from_visibility (node_id : Z) (meta : NodeVisibilityMeta) : NodeMetadataForQuery :=
  mkNodeMeta node_id (nv_label_ids meta) (nv_updated_at meta) (nv_weight meta).
Definition query_node_metadata_constraints_match (query : NormalizedNodeQuery) (meta : NodeMetadataForQuery)
    (policy_cutoffs : option PrecomputedPruneCutoffs) : bool :=
  if negb (node_label_filter_matches (nq_label_filter query) (nm_label_ids meta)) then false
  else if negb (length (nq_ids query) =? 0)%nat
          && negb (bool_decide (is_Some (binary_search (nm_id meta) (nq_ids query)))) then false
  else if match policy_cutoffs with
          | Some cutoffs => excludes_fields cutoffs (nm_label_ids meta) (nm_updated_at meta) (nm_weight meta)
          | None => false
          end then false
  else true.
Definition query_node_selected_fields_match (query : NormalizedNodeQuery) (selected : SelectedNodeFields) : bool :=
  if negb (length (nq_keys query) =? 0)%nat
     && match sn_key selected with
        | Some key => negb (bool_decide (is_Some (binary_search_by (fun v => bytes_cmp v key) (nq_keys query))))
        | None => true
        end
  then false
  else node_filter_projected_matches (nq_filter query) selected.

Section Verify.
Context `{NodeSources}.
Context (query : NormalizedNodeQuery) (policy_cutoffs : option PrecomputedPruneCutoffs).
Context (include_key include_created_at : bool) (property_keys : list str).

(** The first loop: the ids kept, each with whether its fields decide. *)
Definition decide_by_metadata (node_id : Z) (state : NodeVisibilityState) : option (Z * bool) :=
  match state with
  | Live meta =>
      let query_meta := node_query_meta_from_visibility node_id meta in
      if negb (query_node_metadata_constraints_match query query_meta policy_cutoffs) then None
      else
        match node_filter_metadata_outcome (nq_filter query) query_meta with
        | Some false => None
        | Some true => Some (node_id, include_key)
        | None => Some (node_id, true)
        end
  | _ => None
  end.
Definition decisions (chunk : list Z) (visibility : list NodeVisibilityState) : list (Z * bool) :=
  omap (fun '(node_id, state) => decide_by_metadata node_id state) (zip chunk visibility).
(** The second loop: the ids whose fields match. *)
Definition matched (candidates : list Z) (projected : list (option SelectedNodeFields)) : gset Z :=
  foldl (fun set '(node_id, selected) =>
    match selected with
    | Some selected => if query_node_selected_fields_match query selected then {[node_id]} ∪ set else set
    | None => set
    end) ∅ (zip candidates projected).
(** The last loop; [true]: the target is reached. *)
Fixpoint collect (decided : list (Z * bool)) (projected_matches : gset Z) (target : Z) (ids : list Z) : list Z * bool :=
  match decided with
  | [] => (ids, false)
  | (node_id, needs_projection) :: decided =>
      if needs_projection && negb (bool_decide (node_id ∈ projected_matches)) then collect decided projected_matches target ids
      else
        let ids := ids ++ [node_id] in
        if target <=? len ids then (ids, true) else collect decided projected_matches target ids
  end.
Definition verify_node_candidate_chunk (chunk ids : list Z) (target : Z) : res (list Z * bool) :=
  visibility ← find_node_visibility_meta chunk;
  let decided := decisions chunk visibility in
  let projected_candidate_ids := fst <$> base.filter (fun d => snd d = true) decided in
  projected_matches ←
    (if (length projected_candidate_ids =? 0)%nat then Ok ∅
     else
       projected ← find_node_projected_fields projected_candidate_ids
                     (mkNeeds include_key include_created_at (Keys property_keys) NoVectors);
       Ok (matched projected_candidate_ids projected));
  Ok (collect decided projected_matches target ids).

(** [chunks(QUERY_VERIFY_CHUNK)], stopping when the target is reached.  A chunk
    takes at least one id, so the number of ids is enough fuel. *)
Definition QUERY_VERIFY_CHUNK : nat := 256.
Fixpoint verify_chunks (fuel : nat) (candidates ids : list Z) (target : Z) : res (list Z) :=
  match fuel with
  | O => Ok ids
  | S fuel =>
      match candidates with
      | [] => Ok ids
      | _ =>
          '(ids, reached) ← verify_node_candidate_chunk (take QUERY_VERIFY_CHUNK candidates) ids target;
          if reached : bool then Ok ids else verify_chunks fuel (drop QUERY_VERIFY_CHUNK candidates) ids target
      end
  end.
End Verify.

Definition usize_max : Z := 2 ^ 64 - 1.
Definition page_limit (page : PageRequest) : Z := default 0 (page_limit_opt page).
Definition page_verify_target (limit : Z) : Z := if limit =? 0 then usize_max else Z.min usize_max (limit + 1).
(** The index after the cursor: [binary_search], and the insertion point when
    the cursor is not there. *)
Fixpoint insertion_point (x : Z) (ids : list Z) : nat :=
  match ids with y :: ids => if y <? x then S (insertion_point x ids) else O | [] => O end.
Definition first_candidate_after (candidate_ids : list Z) (after : option Z) : nat :=
  match after with
  | None => O
  | Some after =>
      match binary_search after candidate_ids with
      | Some index => S index
      | None => insertion_point after candidate_ids
      end
  end.
Record VerifiedNodePage : Type := mkVerified { vp_ids : list Z; vp_next_cursor : option Z }.
Definition finalize_verified_page (ids : list Z) (limit : Z) : VerifiedNodePage :=
  if (0 <? limit) && (limit <? len ids) then
    let ids := take (Z.to_nat limit) ids in mkVerified ids (last ids)
  else mkVerified ids None.

Definition query_node_page_from_candidates `{NodeSources} (candidate_ids : list Z) (query : NormalizedNodeQuery)
    (policy_cutoffs : option PrecomputedPruneCutoffs) : res VerifiedNodePage :=
  let limit := page_limit (nq_page query) in
  let target := page_verify_target limit in
  let start := first_candidate_after candidate_ids (page_after (nq_page query)) in
  let include_key := negb (length (nq_keys query) =? 0)%nat || node_filter_needs_key (nq_filter query) in
  let include_created_at := node_filter_needs_created_at (nq_filter query) in
  let property_keys := collect_node_filter_property_keys (nq_filter query) [] in
  let candidates := drop start candidate_ids in
  ids ← verify_chunks query policy_cutoffs include_key include_created_at property_keys
          (length candidates) candidates [] target;
  Ok (finalize_verified_page ids limit).
End Queries.
End NodeQuery.
