(* ===== verification/NodeQueryFacts.v ===== *)
(** Node queries: the verified page holds exactly the records the query selects,
    in the order of their ids, whatever source proposed the candidates. *)
From S2P Require Import Prelude Types Floats PropertyValue PropertyValueFacts LabelCatalog FilterBase FilterFacts NodeFilter NodeFilterFacts NodeQuery.

Module NodeQuerySpec.
Import NodeFilterSpec NodeQuery.

(** ** What a query selects *)
Definition label_selects (catalog : gmap str Z) (filter : option NodeLabelFilter) (labels : NodeLabelSet) : bool :=
  match filter with
  | None => true
  | Some f =>
      let has label := match catalog !! label with Some id => NodeLabels.contains labels id | None => false end in
      match lf_mode f with Any => existsb has (lf_labels f) | All => forallb has (lf_labels f) end
  end.
Definition pruned (cutoffs : option PrecomputedPruneCutoffs) (node : NodeRecord) : bool :=
  match cutoffs with
  | Some cutoffs => excludes_fields cutoffs (nr_label_ids node) (nr_updated_at node) (nr_weight node)
  | None => false
  end.
Definition query_selects (catalog : gmap str Z) (query : NodeQuery) (cutoffs : option PrecomputedPruneCutoffs)
    (node : NodeRecord) : bool :=
  label_selects catalog (q_label_filter query) (nr_label_ids node)
  && (bool_decide (q_ids query = []) || bool_decide (nr_id node ∈ q_ids query))
  && (bool_decide (q_keys query = []) || bool_decide (nr_key node ∈ q_keys query))
  && negb (pruned cutoffs node)
  && match q_filter query with Some expr => expr_matches expr node | None => true end.

Definition live_meta (state : NodeVisibilityState) : option NodeVisibilityMeta :=
  match state with Live meta => Some meta | _ => None end.
(** The sources answer for the records of one snapshot. *)
Class NodeSourcesLaws `{NodeSources} (record : Z -> option NodeRecord) : Prop := {
  record_id id node : record id = Some node -> nr_id node = id;
  visibility_law ids states : find_node_visibility_meta ids = Ok states ->
    live_meta <$> states = (fun id => visibility_meta <$> record id) <$> ids;
  projected_law ids needs fields : find_node_projected_fields ids needs = Ok fields ->
    fields = (fun id => selected_node_fields needs <$> record id) <$> ids
}.
Definition source_error `{NodeSources} (e : EngineError) : Prop :=
  (exists ids, find_node_visibility_meta ids = Err e) \/ (exists ids needs, find_node_projected_fields ids needs = Err e).

Definition after_cursor (page : PageRequest) (id : Z) : bool :=
  match page_after page with Some after => after <? id | None => true end.
End NodeQuerySpec.

Module NodeQueryFacts.
Import NodeFilterSpec NodeFilterFacts NodeFilter NodeQuery NodeQuerySpec.

(** ** Label filters *)
Lemma resolve_labels_spec catalog labels known unknown known' unknown' :
  resolve_labels catalog labels known unknown = Ok (known', unknown') ->
  exists ids, known' = known ++ ids /\ unknown' - unknown + len ids = len labels /\ unknown <= unknown'
  /\ forall set,
     let has label := match catalog !! label with Some id => NodeLabels.contains set id | None => false end in
     existsb has labels = existsb (NodeLabels.contains set) ids
     /\ forallb has labels = (unknown' =? unknown) && forallb (NodeLabels.contains set) ids.
Proof.
  revert known unknown. induction labels as [|label labels IH]; cbn [resolve_labels]; intros known unknown E.
  - apply Ok_inj in E. injection E as <- <-. exists []. rewrite app_nil_r. split; [done|]. split; [cbn; lia|]. split; [lia|].
    intros set. cbn. by rewrite Z.eqb_refl.
  - apply bind_Ok_inv in E as (r & Er & E). unfold resolve_node_label_for_read in Er.
    apply bind_Ok_inv in Er as (_ & _ & Er). apply Ok_inj in Er.
    destruct r as [id|]; apply IH in E as (ids & -> & Hl & Hu & Hset).
    + exists (id :: ids). rewrite <- app_assoc. split; [done|]. split; [cbn [length]; lia|]. split; [done|].
      intros set. destruct (Hset set) as [H1 H2]. cbn. rewrite Er, H1, H2. split; [done|].
      destruct (NodeLabels.contains set id), (unknown' =? unknown); done.
    + exists ids. split; [done|]. split; [cbn [length]; lia|]. split; [lia|].
      intros set. destruct (Hset set) as [H1 H2]. cbn. rewrite Er, H1. split; [done|].
      by rewrite (proj2 (Z.eqb_neq unknown' unknown)) by lia.
Qed.
Lemma from_label_ids_slice ids set : NodeLabels.from_label_ids ids = Ok set -> NodeLabels.as_slice set ≡ₚ ids.
Proof.
  intros (_ & _ & _ & _ & ->)%NodeLabels.from_label_ids_Ok. rewrite NodeLabels.as_slice_mk. by rewrite merge_sort_Permutation.
Qed.
Lemma existsb_perm {A} (P : A -> bool) l k : l ≡ₚ k -> existsb P l = existsb P k.
Proof.
  intros E. apply eq_iff_eq_true. rewrite !existsb_exists. setoid_rewrite <- list_elem_of_In. by setoid_rewrite E.
Qed.
Lemma forallb_perm {A} (P : A -> bool) l k : l ≡ₚ k -> forallb P l = forallb P k.
Proof.
  intros E. apply eq_iff_eq_true. rewrite !forallb_forall. setoid_rewrite <- list_elem_of_In. by setoid_rewrite E.
Qed.
Lemma resolved_filter_matches catalog filter resolved labels :
  resolve_node_label_filter_request catalog filter = Ok resolved ->
  node_label_filter_matches resolved labels = label_selects catalog filter labels.
Proof.
  destruct filter as [[names mode]|]; cbn [resolve_node_label_filter_request lf_labels lf_mode label_selects]; [|by intros <-%Ok_inj].
  intros E. apply bind_Ok_inv in E as ([] & Hv & E). apply bind_Ok_inv in E as ([known unknown] & Hr & E).
  assert (names <> []) as Hne.
  { intros ->. by cbn in Hv. }
  apply resolve_labels_spec in Hr as (ids & -> & Hl & Hu & Hset). rewrite app_nil_l in E. specialize (Hset labels).
  cbn zeta in Hset. destruct Hset as [Hex Hall]. destruct ids as [|id ids].
  - apply Ok_inj in E as <-. cbn in Hl. destruct mode; [by rewrite Hex|]. rewrite Hall.
    rewrite (proj2 (Z.eqb_neq unknown 0)); [done|]. destruct names; [done|]. cbn in Hl. lia.
  - destruct mode.
    + apply bind_Ok_inv in E as (set & Hs & E). apply Ok_inj in E as <-. rewrite Hex. cbn [node_label_filter_matches].
      by apply existsb_perm, from_label_ids_slice.
    + rewrite Hall. destruct (Z.ltb_spec 0 unknown).
      * apply Ok_inj in E as <-. by rewrite (proj2 (Z.eqb_neq unknown 0)) by lia.
      * apply bind_Ok_inv in E as (set & Hs & E). apply Ok_inj in E as <-. rewrite (proj2 (Z.eqb_eq unknown 0)) by lia.
        cbn [andb node_label_filter_matches]. by apply forallb_perm, from_label_ids_slice.
Qed.

(** ** Ids and keys *)
Lemma dedup_ids_spec ids : StronglySorted Z.le ids -> ascending (dedup_ids ids) /\ forall id, id ∈ dedup_ids ids <-> id ∈ ids.
Proof.
  induction 1 as [|x ids Hs [Ha Hin] Hx]; [by split; [constructor|]|]. cbn [dedup_ids].
  rewrite Forall_forall in Hx. destruct (dedup_ids ids) as [|y l].
  { split; [by repeat constructor|]. intros id. rewrite !elem_of_cons, <- Hin. done. }
  assert (x <= y) as Hxy by (apply Hx, Hin; left).
  destruct (Z.eqb_spec x y) as [<-|Hne].
  - split; [done|]. intros id. rewrite (elem_of_cons ids), <- Hin. split; [auto|]. intros [->|Hi]; [left|done].
  - split; [|intros id; by rewrite (elem_of_cons ids), (elem_of_cons (y :: l)), Hin]. constructor; [done|].
    apply StronglySorted_inv in Ha as [_ Ha]. rewrite Forall_forall in Ha.
    apply Forall_forall. intros z [->|Hz]%elem_of_cons; [lia|]. specialize (Ha z Hz). lia.
Qed.
Lemma sorted_dedup_spec ids : ascending (sorted_dedup_u64 ids) /\ forall id, id ∈ sorted_dedup_u64 ids <-> id ∈ ids.
Proof.
  destruct (dedup_ids_spec (merge_sort Z.le ids)) as [Ha Hin]; [apply StronglySorted_merge_sort; apply _|].
  split; [done|]. intros id. unfold sorted_dedup_u64. rewrite Hin. by rewrite merge_sort_Permutation.
Qed.
Lemma nil_iff {A} (l k : list A) : (forall x, x ∈ l <-> x ∈ k) -> l = [] <-> k = [].
Proof.
  intros E. split; intros ->.
  - destruct k as [|x k]; [done|]. by destruct (not_elem_of_nil x (proj2 (E x) ltac:(left))).
  - destruct l as [|x l]; [done|]. by destruct (not_elem_of_nil x (proj1 (E x) ltac:(left))).
Qed.
Lemma length_eqb_nil {A} (l : list A) : (length l =? 0)%nat = bool_decide (l = []).
Proof. by destruct l. Qed.

(** ** The chunks *)
Section Verified.
Context `{RmpValueLaws} `{NodeSourcesLaws}.
Context (query : NormalizedNodeQuery) (cutoffs : option PrecomputedPruneCutoffs).
Hypothesis Hids : ascending (nq_ids query).
Hypothesis Hkeys : StronglySorted bytes_lt (nq_keys query).

Definition selected (node : NodeRecord) : bool :=
  node_label_filter_matches (nq_label_filter query) (nr_label_ids node)
  && (bool_decide (nq_ids query = []) || bool_decide (nr_id node ∈ nq_ids query))
  && (bool_decide (nq_keys query = []) || bool_decide (nr_key node ∈ nq_keys query))
  && negb (pruned cutoffs node)
  && node_filter_projected_matches (nq_filter query) (select node).
Definition kept (id : Z) : bool := match record id with Some node => selected node | None => false end.

Definition include_key : bool := negb (length (nq_keys query) =? 0)%nat || node_filter_needs_key (nq_filter query).
Definition include_created_at : bool := node_filter_needs_created_at (nq_filter query).
Definition property_keys : list str := collect_node_filter_property_keys (nq_filter query) [].
Definition needs : NodeSelectedFieldNeeds := mkNeeds include_key include_created_at (Keys property_keys) NoVectors.

Lemma selected_props_get p keys k : k ∈ keys -> btree_get k (selected_props_from_map p (Keys keys)) = btree_get k p.
Proof.
  unfold selected_props_from_map.
  assert (forall acc,
    btree_get k (foldl (fun selected key => match btree_get key p with Some value => btree_insert key value selected | None => selected end) acc keys)
    = if decide (k ∈ keys) then match btree_get k p with Some v => Some v | None => btree_get k acc end else btree_get k acc) as Hfold.
  { induction keys as [|key keys IH]; intros acc; cbn [foldl]; [by rewrite decide_False by set_solver|]. rewrite IH. clear IH.
    destruct (btree_get key p) as [value|] eqn:Ep; rewrite ?btree_get_insert.
    - destruct (decide (k = key)) as [->|Hne]; [rewrite Ep, (decide_True (P := key ∈ key :: keys)) by left; by case_decide|].
      destruct (decide (k ∈ keys)); [by rewrite decide_True by by right|]. by rewrite decide_False by set_solver.
    - destruct (decide (k ∈ keys)); [by rewrite decide_True by by right|].
      destruct (decide (k ∈ key :: keys)) as [[->|]%elem_of_cons|]; [by rewrite Ep|done..]. }
  intros Hk. rewrite Hfold, decide_True by done. by destruct (btree_get k p).
Qed.

(** The fields asked for decide as the whole record. *)
Lemma projected_fields_match node :
  (nq_keys query = [] \/ include_key = true) ->
  query_node_selected_fields_match query (selected_node_fields needs node)
  = (bool_decide (nq_keys query = []) || bool_decide (nr_key node ∈ nq_keys query))
    && node_filter_projected_matches (nq_filter query) (select node).
Proof.
  intros Hk. unfold query_node_selected_fields_match. rewrite length_eqb_nil.
  assert (node_filter_projected_matches (nq_filter query) (selected_node_fields needs node)
          = node_filter_projected_matches (nq_filter query) (select node)) as Hf.
  { apply agree_matches.
    - split; [done|]. split; intros E; cbn; unfold include_key, include_created_at.
      + by rewrite E, orb_true_r.
      + by rewrite E.
    - intros k Hin. apply selected_props_get, Hin. }
  rewrite Hf. case_bool_decide as En; [done|]. destruct Hk as [|Hk]; [done|].
  cbn [negb andb orb selected_node_fields sn_key needs need_key]. rewrite Hk.
  rewrite (bool_decide_ext _ _ (sorted_values_search (nq_keys query) (nr_key node) Hkeys)).
  by case_bool_decide.
Qed.
(** The decision on one id, and what it means. *)
Definition decision (id : Z) : option (Z * bool) :=
  node ← record id; decide_by_metadata query cutoffs include_key id (Live (visibility_meta node)).
Lemma decisions_eq chunk states :
  live_meta <$> states = (fun id => visibility_meta <$> record id) <$> chunk ->
  decisions query cutoffs include_key chunk states = omap decision chunk.
Proof.
  unfold decisions. revert states. induction chunk as [|id chunk IH]; intros [|state states] E; try done.
  rewrite !fmap_cons in E. apply cons_eq_inj in E as [E1 E]. cbn [zip zip_with omap list_omap]. fold (zip chunk states).
  rewrite (IH states E). unfold decision. destruct (record id) as [node|]; destruct state; cbn in E1; try done.
  by apply (inj Some) in E1 as ->.
Qed.
Lemma metadata_constraints id node :
  record id = Some node ->
  query_node_metadata_constraints_match query (node_query_meta_from_visibility id (visibility_meta node)) cutoffs
  = node_label_filter_matches (nq_label_filter query) (nr_label_ids node)
    && (bool_decide (nq_ids query = []) || bool_decide (nr_id node ∈ nq_ids query)) && negb (pruned cutoffs node).
Proof.
  intros Er. unfold query_node_metadata_constraints_match, node_query_meta_from_visibility, visibility_meta.
  cbn [nm_label_ids nm_id nm_updated_at nm_weight nv_label_ids nv_updated_at nv_weight].
  rewrite (record_id id node Er), length_eqb_nil, (bool_decide_ext _ _ (binary_search_spec _ _ Hids)).
  unfold pruned. destruct (node_label_filter_matches _ _), (bool_decide (nq_ids query = [])), (bool_decide (id ∈ nq_ids query));
    cbn [negb andb orb]; try done; by destruct cutoffs as [c|]; [destruct (excludes_fields c _ _ _)|].
Qed.
(** Kept: decided by the metadata alone, or by the fields. *)
Definition fields_match (id : Z) : bool :=
  match record id with Some node => query_node_selected_fields_match query (selected_node_fields needs node) | None => false end.
Lemma decision_kept id :
  match decision id with
  | Some (id', needs_projection) => id' = id /\ kept id = negb needs_projection || fields_match id
  | None => kept id = false
  end.
Proof.
  unfold kept, decision, fields_match. destruct (record id) as [node|] eqn:Er; [|done]. cbn [mbind option_bind decide_by_metadata].
  rewrite (metadata_constraints id node Er). unfold selected.
  destruct (node_label_filter_matches _ _), (bool_decide (nq_ids query = []) || bool_decide (nr_id node ∈ nq_ids query)),
    (negb (pruned cutoffs node)); cbn [negb andb]; rewrite ?andb_false_r; try done.
  assert (node_query_meta_from_visibility id (visibility_meta node) = sn_meta (select node)) as ->.
  { cbn. by rewrite (record_id id node Er). }
  destruct (node_filter_metadata_outcome _ _) as [b|] eqn:Eo.
  - pose proof (metadata_outcome_sound (select node) _ _ Eo) as Hm. destruct b.
    + split; [done|]. rewrite Hm, andb_true_r. destruct include_key eqn:Ek; cbn [negb orb].
      * rewrite projected_fields_match by by right. by rewrite Hm, !andb_true_r.
      * unfold include_key in Ek. apply orb_false_iff in Ek as [Ek _]. rewrite length_eqb_nil in Ek.
        by destruct (bool_decide (nq_keys query = [])).
    + rewrite Hm, !andb_false_r. done.
  - split; [done|]. cbn [negb orb]. rewrite projected_fields_match; [by rewrite andb_true_r|].
    destruct (nq_keys query) as [|k ks] eqn:Ek; [by left|right]. unfold include_key. by rewrite Ek.
Qed.

(** The matched set, and the loop that collects. *)
Lemma matched_elem candidates id :
  id ∈ matched query candidates ((fun id => selected_node_fields needs <$> record id) <$> candidates)
  <-> id ∈ candidates /\ fields_match id = true.
Proof.
  unfold matched.
  assert (forall set : gset Z,
    id ∈ foldl (fun (set : gset Z) '(node_id, selected) =>
          match selected with
          | Some selected => if query_node_selected_fields_match query selected then {[node_id]} ∪ set else set
          | None => set
          end) set (zip candidates ((fun id => selected_node_fields needs <$> record id) <$> candidates))
    <-> id ∈ set \/ id ∈ candidates /\ fields_match id = true) as Hfold.
  { induction candidates as [|c candidates IH]; intros set; cbn [fmap list_fmap zip zip_with foldl]; [set_solver|].
    fold (zip candidates ((fun id => selected_node_fields needs <$> record id) <$> candidates)).
    rewrite IH, elem_of_cons. clear IH. destruct (decide (id = c)) as [->|Hne].
    - unfold fields_match. destruct (record c) as [node|]; cbn [fmap option_fmap option_map]; [|naive_solver].
      destruct (query_node_selected_fields_match _ _); [set_solver|naive_solver].
    - destruct (record c) as [node|]; cbn [fmap option_fmap option_map]; [|naive_solver].
      destruct (query_node_selected_fields_match _ _); set_solver. }
  rewrite Hfold. set_solver.
Qed.
Lemma collect_loop_spec decided (projected : gset Z) target ids :
  len ids < target ->
  let hits := fst <$> base.filter (fun d : Z * bool => negb (snd d) || bool_decide (d.1 ∈ projected) = true) decided in
  collect decided projected target ids
  = (ids ++ take (Z.to_nat (target - len ids)) hits, target <=? len ids + len hits).
Proof.
  revert ids. induction decided as [|[id np] decided IH]; intros ids Hl; cbn [collect].
  - rewrite filter_nil, fmap_nil, take_nil, app_nil_r. f_equal. symmetry. apply Z.leb_gt. cbn [length]. lia.
  - rewrite filter_cons. cbn [fst snd]. destruct np, (bool_decide (id ∈ projected)) eqn:E; cbn [negb andb orb];
      try (rewrite decide_False by done; by apply IH).
    all: rewrite decide_True by done; rewrite fmap_cons; cbn [fst length]; rewrite (length_app ids), Nat2Z.inj_add; cbn [length].
    all: destruct (Z.leb_spec target (len ids + Z.of_nat 1)); [f_equal; [|symmetry; apply Z.leb_le; lia]|].
    all: try (replace (Z.to_nat (target - len ids)) with 1%nat by lia; by cbn).
    all: cbn zeta in IH; rewrite IH by (rewrite length_app; cbn [length]; lia); rewrite length_app, <- app_assoc; cbn [length].
    all: replace (Z.to_nat (target - len ids)) with (S (Z.to_nat (target - (len ids + 1)))) by lia; cbn [take app].
    all: apply (f_equal2 pair); [do 3 f_equal; lia|f_equal; lia].
Qed.
Lemma hits_kept (chunk : list Z) (projected : gset Z) :
  (forall id, (id, true) ∈ omap decision chunk -> bool_decide (id ∈ projected) = fields_match id) ->
  fst <$> base.filter (fun d : Z * bool => negb (snd d) || bool_decide (d.1 ∈ projected) = true) (omap decision chunk)
  = base.filter (fun id => kept id = true) chunk.
Proof.
  induction chunk as [|id chunk IH]; intros Hp; [done|]. rewrite (filter_cons _ id). cbn [omap list_omap] in *.
  pose proof (decision_kept id) as Hk. destruct (decision id) as [[id' np]|].
  - destruct Hk as [-> Hk]. rewrite filter_cons. cbn [fst snd].
    assert (negb np || bool_decide (id ∈ projected) = kept id) as ->.
    { rewrite Hk. destruct np; [|done]. cbn. apply Hp. left. }
    rewrite <- IH by (intros; apply Hp; by right). by case_decide.
  - rewrite decide_False by congruence. by apply IH.
Qed.
Lemma verify_chunk_spec (chunk ids : list Z) target :
  len ids < target ->
  match verify_node_candidate_chunk query cutoffs include_key include_created_at property_keys chunk ids target with
  | Ok r => let hits := base.filter (fun id => kept id = true) chunk in
            r = (ids ++ take (Z.to_nat (target - len ids)) hits, target <=? len ids + len hits)
  | Err e => source_error e
  end.
Proof.
  intros Hl. unfold verify_node_candidate_chunk. destruct (find_node_visibility_meta chunk) as [states|e] eqn:Ev; cbn [mbind result_bind].
  2:{ left. by exists chunk. }
  rewrite (decisions_eq chunk states) by by apply visibility_law. cbn zeta.
  set (P := fst <$> base.filter (fun d : Z * bool => snd d = true) (omap decision chunk)).
  assert (forall id, (id, true) ∈ omap decision chunk -> id ∈ P) as HP.
  { intros id Hid. apply list_elem_of_fmap. exists (id, true). split; [done|]. by apply list_elem_of_filter. }
  assert (forall M : gset Z, (forall id, id ∈ M <-> id ∈ P /\ fields_match id = true) ->
    collect (omap decision chunk) M target ids
    = (ids ++ take (Z.to_nat (target - len ids)) (base.filter (fun id => kept id = true) chunk),
       target <=? len ids + len (base.filter (fun id => kept id = true) chunk))) as Hcollect.
  { intros M HM. rewrite collect_loop_spec by done. cbn zeta. rewrite (hits_kept chunk M); [done|].
    intros id Hid%HP. apply eq_iff_eq_true. rewrite bool_decide_eq_true, HM. tauto. }
  destruct (Nat.eqb_spec (length P) 0) as [E|E]; cbn [mbind result_bind].
  - apply nil_length_inv in E. apply Hcollect. intros id. rewrite E. set_solver.
  - destruct (find_node_projected_fields P needs) as [fields|e] eqn:Ef; fold needs; rewrite Ef; cbn [mbind result_bind].
    + apply projected_law in Ef as ->. apply Hcollect, matched_elem.
    + right. eauto.
Qed.

(** Every chunk, until the target is reached. *)
Lemma verify_chunks_spec fuel (candidates ids : list Z) target :
  (length candidates <= fuel)%nat -> len ids < target ->
  match verify_chunks query cutoffs include_key include_created_at property_keys fuel candidates ids target with
  | Ok r => r = ids ++ take (Z.to_nat (target - len ids)) (base.filter (fun id => kept id = true) candidates)
  | Err e => source_error e
  end.
Proof.
  revert candidates ids. induction fuel as [|fuel IH]; intros candidates ids Hf Hl; cbn [verify_chunks].
  { destruct candidates; [|cbn in Hf; lia]. by rewrite filter_nil, take_nil, app_nil_r. }
  destruct candidates as [|c candidates]; [by rewrite filter_nil, take_nil, app_nil_r|]. set (all := c :: candidates) in *.
  pose proof (verify_chunk_spec (take QUERY_VERIFY_CHUNK all) ids target Hl) as Hc.
  destruct (verify_node_candidate_chunk _ _ _ _ _ _ _ _) as [r|e]; cbn [mbind result_bind]; [|done].
  cbn zeta in Hc. subst r. cbn beta iota.
  assert (base.filter (fun id => kept id = true) all = base.filter (fun id => kept id = true) (take QUERY_VERIFY_CHUNK all)
    ++ base.filter (fun id => kept id = true) (drop QUERY_VERIFY_CHUNK all)) as -> by by rewrite <- filter_app, take_drop.
  set (hits := base.filter (fun id => kept id = true) (take QUERY_VERIFY_CHUNK all)).
  destruct (Z.leb_spec target (len ids + len hits)).
  - rewrite take_app_le by lia. done.
  - assert (length (take (Z.to_nat (target - len ids)) hits) = length hits) as Hlen by (rewrite length_take; lia).
    specialize (IH (drop QUERY_VERIFY_CHUNK all) (ids ++ take (Z.to_nat (target - len ids)) hits)).
    rewrite length_app, Hlen, (take_ge hits) in IH by lia.
    assert (length (drop QUERY_VERIFY_CHUNK all) <= fuel)%nat as Hd by (rewrite length_drop; unfold QUERY_VERIFY_CHUNK, all in *; cbn in *; lia).
    specialize (IH Hd ltac:(lia)). rewrite (take_ge hits) by lia. destruct (verify_chunks _ _ _ _ _ _ _ _ _); [|done]. subst.
    rewrite <- app_assoc, take_app_ge by lia. do 3 f_equal. lia.
Qed.
End Verified.

(** ** After the cursor *)
Lemma insertion_point_spec x ids :
  ascending ids -> x ∉ ids -> drop (insertion_point x ids) ids = base.filter (fun id => (x <? id) = true) ids.
Proof.
  induction 1 as [|y ids Hs IH Hy]; intros Hx; [done|]. cbn [insertion_point]. rewrite filter_cons.
  apply not_elem_of_cons in Hx as [Hne Hx]. destruct (Z.ltb_spec y x).
  - rewrite decide_False by (rewrite Z.ltb_lt; lia). by apply IH.
  - rewrite decide_True by (apply Z.ltb_lt; lia). cbn [drop]. f_equal. symmetry. apply filter_all.
    eapply Forall_impl; [exact Hy|]. intros z Hz. apply Z.ltb_lt. lia.
Qed.
Lemma drop_at_spec x ids i :
  ascending ids -> ids !! i = Some x -> drop (S i) ids = base.filter (fun id => (x <? id) = true) ids.
Proof.
  intros Hs. revert i. induction Hs as [|y ids Hs IH Hy]; intros i Hi; [done|]. rewrite filter_cons. rewrite Forall_forall in Hy.
  destruct i as [|i]; cbn [drop].
  - cbn in Hi. injection Hi as ->. rewrite decide_False by (rewrite Z.ltb_lt; lia). symmetry. rewrite drop_0. apply filter_all.
    apply Forall_forall. intros z Hz%Hy. by apply Z.ltb_lt.
  - cbn in Hi. rewrite decide_False; [by apply IH|]. rewrite Z.ltb_lt. pose proof (Hy x (list_elem_of_lookup_2 _ _ _ Hi)). lia.
Qed.
Lemma first_candidate_spec page ids :
  ascending ids -> drop (first_candidate_after ids (page_after page)) ids = base.filter (fun id => after_cursor page id = true) ids.
Proof.
  intros Hs. unfold first_candidate_after, after_cursor. destruct (page_after page) as [after|].
  - pose proof (binary_search_spec after ids Hs) as Hspec. destruct (binary_search after ids) as [i|] eqn:E.
    + apply drop_at_spec; [done|]. by apply bsearch_sound in E as (y & Hy & ->%Z.compare_eq).
    + apply insertion_point_spec; [done|]. intros Hin. by apply Hspec in Hin as [? ?].
  - symmetry. rewrite drop_0. apply filter_all. by apply Forall_forall.
Qed.

(** ** Normalized queries *)
Section Query.
Context `{RmpValueLaws}.
Lemma normalized_query catalog query require_anchor nq :
  normalize_node_query_with_anchor_requirement catalog query require_anchor = Some (Ok nq) ->
  exists label_filter filter,
    resolve_node_label_filter_request catalog (q_label_filter query) = Ok label_filter
    /\ normalize_optional_node_filter (q_filter query) = Some (Ok filter)
    /\ nq_label_filter nq = label_filter
    /\ nq_filter nq = (if is_empty_constraint label_filter then N.AlwaysFalse else filter)
    /\ nq_ids nq = sorted_dedup_u64 (q_ids query)
    /\ nq_keys nq = fst <$> sort_dedup ((fun key => (key, tt)) <$> q_keys query)
    /\ nq_page nq = q_page query.
Proof.
  unfold normalize_node_query_with_anchor_requirement.
  destruct (resolve_node_label_filter_request _ _) as [label_filter|]; [|done]. cbn zeta.
  destruct (normalize_optional_node_filter _) as [[filter|]|]; [|done..]. cbn [and_then].
  intros E. exists label_filter, filter. destruct (negb _); [done|]. destruct (_ && _); [done|].
  apply (inj Some), Ok_inj in E as <-. repeat split.
Qed.
End Query.

Section Page.
Context `{RmpValueLaws} `{NodeSourcesLaws}.
Context (catalog : gmap str Z) (query : NodeQuery) (require_anchor : bool) (cutoffs : option PrecomputedPruneCutoffs)
  (nq : NormalizedNodeQuery).
Hypothesis Hnorm : normalize_node_query_with_anchor_requirement catalog query require_anchor = Some (Ok nq).
Hypothesis Hexpr : match q_filter query with Some expr => expr_wf expr /\ keys_fit expr | None => True end.
Hypothesis Hrecords : forall id node, record id = Some node -> node_wf node.

Lemma normalized_sorted : ascending (nq_ids nq) /\ StronglySorted bytes_lt (nq_keys nq).
Proof.
  destruct (normalized_query _ _ _ _ Hnorm) as (lf & f & _ & _ & _ & _ & -> & -> & _).
  split; [apply sorted_dedup_spec|apply key_in_spec].
Qed.
(** The normalized query selects what the query does. *)
Lemma selected_correct id node : record id = Some node -> selected nq cutoffs node = query_selects catalog query cutoffs node.
Proof.
  intros Hr. destruct (normalized_query _ _ _ _ Hnorm) as (lf & f & Hlf & Hf & El & Ef & Ei & Ek & _).
  unfold selected, query_selects. rewrite El, Ei, Ek, (resolved_filter_matches _ _ _ _ Hlf).
  destruct (sorted_dedup_spec (q_ids query)) as [_ Hid]. destruct (key_in_spec (q_keys query)) as [_ Hkey].
  rewrite (bool_decide_ext _ _ (nil_iff _ _ Hid)), (bool_decide_ext _ _ (Hid (nr_id node))).
  rewrite (bool_decide_ext _ _ (nil_iff _ _ Hkey)), (bool_decide_ext _ _ (Hkey (nr_key node))).
  destruct (label_selects catalog (q_label_filter query) (nr_label_ids node)) eqn:E; [|done]. do 2 f_equal.
  rewrite Ef. rewrite <- (resolved_filter_matches _ _ _ _ Hlf) in E. destruct lf; [|done|];
    (cbn [is_empty_constraint]; destruct (q_filter query) as [expr|]; cbn [normalize_optional_node_filter] in Hf;
      [destruct Hexpr as [Hw Hfit]; destruct (normalize_correct node (Hrecords id node Hr) expr Hw Hfit) as (r & Er & Hn);
       rewrite Hf in Er; apply (inj Some) in Er as <-; by apply Hn
      |by apply (inj Some), Ok_inj in Hf as <-]).
Qed.

Abbreviation keeps := (kept (record := record) nq cutoffs).
(** The page: the records the query selects, after the cursor, in order. *)
Definition expected (candidates : list Z) : list Z :=
  base.filter (fun id => after_cursor (q_page query) id && keeps id = true) candidates.
Lemma page_spec candidates :
  ascending candidates -> len candidates < usize_max -> 0 <= page_limit (q_page query) <= usize_max ->
  match query_node_page_from_candidates candidates nq cutoffs with
  | Err e => source_error e
  | Ok page =>
      let hits := expected candidates in
      let limit := page_limit (q_page query) in
      vp_ids page = (if limit =? 0 then hits else take (Z.to_nat limit) hits)
      /\ vp_next_cursor page = (if (limit =? 0) || (len hits <=? limit) then None else last (take (Z.to_nat limit) hits))
  end.
Proof.
  intros Hs Hlen Hlimit. destruct normalized_sorted as [Hi Hk].
  destruct (normalized_query _ _ _ _ Hnorm) as (lf & f & _ & _ & _ & _ & _ & _ & Ep).
  unfold query_node_page_from_candidates. rewrite Ep. cbn zeta. rewrite (first_candidate_spec _ _ Hs).
  set (cs := base.filter (fun id => after_cursor (q_page query) id = true) candidates).
  set (limit := page_limit (q_page query)) in *.
  pose proof (verify_chunks_spec nq cutoffs Hi Hk (length cs) cs [] (page_verify_target limit) ltac:(lia)) as Hc.
  unfold include_key, include_created_at, property_keys in Hc.
  assert (0 < page_verify_target limit) as Ht by (unfold page_verify_target, usize_max in *; destruct (limit =? 0); lia).
  specialize (Hc Ht). destruct (verify_chunks _ _ _ _ _ _ _ _ _) as [ids|e]; cbn [mbind result_bind]; [|done].
  assert (base.filter (fun id => keeps id = true) cs = expected candidates) as Eh.
  { unfold cs, expected. clear. induction candidates as [|c candidates IH]; [done|]. rewrite !(filter_cons _ c).
    destruct (after_cursor (q_page query) c); cbn [andb]; [|by rewrite !decide_False by done].
    rewrite (decide_True (P := true = true)) by done. rewrite filter_cons. case_decide; rewrite IH; done. }
  rewrite Eh, app_nil_l in Hc. cbn [length] in Hc. rewrite Z.sub_0_r in Hc. subst ids.
  assert (len (expected candidates) <= len candidates) as Hle.
  { unfold expected. apply Nat2Z.inj_le, length_filter. }
  clearbody limit. generalize dependent (expected candidates). intros hits _ Hle. unfold finalize_verified_page, page_verify_target in *.
  destruct (Z.eqb_spec limit 0) as [->|Hne].
  - cbn [Z.ltb Z.compare andb orb vp_ids vp_next_cursor]. by rewrite take_ge by lia.
  - rewrite (proj2 (Z.ltb_lt 0 limit)) by lia. cbn [andb orb].
    rewrite length_take. destruct (Z.leb_spec (len hits) limit).
    + rewrite (proj2 (Z.ltb_ge _ _)) by lia. cbn [vp_ids vp_next_cursor]. by rewrite !take_ge by lia.
    + rewrite (proj2 (Z.ltb_lt _ _)) by lia. cbn [vp_ids vp_next_cursor]. rewrite take_take, Nat.min_l by lia. done.
Qed.

(** C14.  A page of a node query holds exactly the records that the query
    selects by its label filter, ids, keys, prune policies and filter, with ids
    after the cursor, in ascending order and cut at the limit; the next cursor
    is the last id exactly when more remain.  This holds for whatever ascending
    candidates a plan proposes, as long as they miss no selected record, and
    although each chunk reads only the fields the filter asks for.  An error is
    one of the sources'. *)
Theorem node_query_page_exact candidates :
  ascending candidates -> len candidates < usize_max -> 0 <= page_limit (q_page query) <= usize_max ->
  (forall id node, record id = Some node -> query_selects catalog query cutoffs node = true -> id ∈ candidates) ->
  match query_node_page_from_candidates candidates nq cutoffs with
  | Err e => source_error e
  | Ok page => exists hits,
      ascending hits
      /\ (forall id, id ∈ hits <-> after_cursor (q_page query) id = true
                     /\ exists node, record id = Some node /\ query_selects catalog query cutoffs node = true)
      /\ let limit := page_limit (q_page query) in
         vp_ids page = (if limit =? 0 then hits else take (Z.to_nat limit) hits)
         /\ vp_next_cursor page = (if (limit =? 0) || (len hits <=? limit) then None else last (take (Z.to_nat limit) hits))
  end.
Proof.
  intros Hs Hlen Hlimit Hall. pose proof (page_spec candidates Hs Hlen Hlimit) as Hp.
  destruct (query_node_page_from_candidates _ _ _) as [page|e]; [|done]. exists (expected candidates). split; [|split; [|done]].
  - by apply sorted_filter.
  - intros id. unfold expected. rewrite list_elem_of_filter, andb_true_iff. unfold kept.
    destruct (record id) as [node|] eqn:Er; [|naive_solver]. rewrite (selected_correct id node Er). naive_solver.
Qed.
End Page.
End NodeQueryFacts.
