(* ===== verification/FilterWitness.v ===== *)
(** The theorems on filters and node queries, applied to concrete ones: a
    serializer of values that is injective, records held in a map. *)
From S2P Require Import Prelude Types Floats PropertyValue PropertyValueFacts LabelCatalog FilterBase FilterFacts NodeFilter NodeFilterFacts NodeQuery NodeQueryFacts.

Module FilterWitness.

(** ** A serializer *)
Fixpoint write_text (s : list byte) : list byte := match s with [] => [z2b 0] | b :: s => z2b 1 :: b :: write_text s end.
Fixpoint write_value (v : PropValue) : list byte :=
  match v with
  | PNull => [z2b 0]
  | PBool b => [z2b 1; bool_byte b]
  | PInt z => z2b 2 :: i64_be z
  | PUInt z => z2b 3 :: be_bytes 8 z
  | PFloat z => z2b 4 :: be_bytes 8 z
  | PString s => z2b 5 :: write_text s
  | PBytes s => z2b 6 :: write_text s
  | PArray l => z2b 7 :: (fix all l := match l with [] => [z2b 0] | v :: l => z2b 1 :: write_value v ++ all l end) l
  | PMap m =>
      z2b 8 :: (fix all m := match m with [] => [z2b 0] | (k, v) :: m => z2b 1 :: write_text k ++ write_value v ++ all m end) m
  end.
Lemma write_text_inj a b r s : write_text a ++ r = write_text b ++ s -> a = b /\ r = s.
Proof.
  revert b. induction a as [|x a IH]; intros [|y b] E; cbn [write_text app] in E; [by injection E|done|done|].
  apply cons_eq_inj in E as [_ [-> E]%cons_eq_inj]. apply IH in E as [-> ->]. done.
Qed.
Lemma write_value_inj a b r s : value_wf a -> value_wf b -> write_value a ++ r = write_value b ++ s -> a = b /\ r = s.
Proof.
  revert b r s. induction a as [|x|z|z|z|x|x|l IH|m IH] using PropValue_nested_ind;
    intros [|x'|z'|z'|z'|x'|x'|l'|m'] r s Ha Hb E; try done; cbn [write_value app] in E; apply cons_eq_inj in E as [_ E].
  - done.
  - cbn [app] in E. apply cons_eq_inj in E as [->%bool_byte_inj ->]. done.
  - apply i64_be_app_inj in E as [-> ->]; done.
  - apply be_app_inj in E as [-> ->]; done.
  - apply be_app_inj in E as [-> ->]; done.
  - by apply write_text_inj in E as [-> ->].
  - by apply write_text_inj in E as [-> ->].
  - apply value_wf_array in Ha, Hb. enough (l = l' /\ r = s) as [-> ->] by done. revert l' Hb E.
    induction l as [|v l IHl]; intros [|v' l'] Hb E; cbn [app] in E; [by injection E|done|done|].
    apply Forall_cons in IH as [IHv IH], Ha as [Hv Ha], Hb as [Hv' Hb].
    apply cons_eq_inj in E as [_ E]. rewrite <- !app_assoc in E. apply IHv in E as [-> E]; [|done..].
    apply IHl in E as [-> ->]; done.
  - apply value_wf_map in Ha as [_ Ha], Hb as [_ Hb]. enough (m = m' /\ r = s) as [-> ->] by done. revert m' Hb E.
    induction m as [|[k v] m IHm]; intros [|[k' v'] m'] Hb E; cbn [app] in E; [by injection E|done|done|].
    apply Forall_cons in IH as [IHv IH], Ha as [Hv Ha], Hb as [Hv' Hb]. cbn [snd] in *.
    apply cons_eq_inj in E as [_ E]. rewrite <- !app_assoc in E. apply write_text_inj in E as [-> E].
    apply IHv in E as [-> E]; [|done..]. apply IHm in E as [-> ->]; done.
Qed.
#[local] Instance rmp : RmpValue := {| rmp_value_to_vec := write_value |}.
#[local] Instance rmp_laws : RmpValueLaws.
Proof.
  split. intros a b Ha Hb E. apply (write_value_inj a b [] []); [done..|]. cbn in E. by rewrite !app_nil_r.
Qed.

(** ** A filter *)
Import NodeFilterSpec NodeFilter NodeFilterFacts NodeQuery NodeQuerySpec NodeQueryFacts.
Abbreviation text := str_of.
Definition expr : E.t :=
  E.And [E.PropertyEquals (text "age") (PInt 30);
         E.Or [E.KeyIn [text "b"; text "a"; text "b"]; E.Not (E.Not (E.PropertyExists (text "name")))];
         E.PropertyRange (text "age") (Some (Included (PFloat 0x4034000000000000))) None;
         E.PropertyIn (text "name") [PString (text "x"); PString (text "y")];
         E.UpdatedAtRange (Some 5) None].
Ltac fits := intros n k E Hk; vm_compute in E; apply (inj Some), Ok_inj in E as <-; vm_compute in Hk;
  apply (inj Some) in Hk as <-; reflexivity.
Lemma expr_wf_ok : expr_wf expr.
Proof. repeat split; repeat constructor; cbn; try lia. Qed.
Lemma expr_fits : keys_fit expr.
Proof. cbn [keys_fit expr]. repeat split; try fits. Qed.
Lemma filter_normalization_exact_witness :
  exists r, normalize_node_filter_expr expr = Some r /\ forall filter, r = Ok filter ->
    forall node, node_wf node ->
      (forall b, node_filter_metadata_outcome filter (sn_meta (select node)) = Some b -> expr_matches expr node = b)
      /\ forall fields,
           agree filter fields (select node) ->
           (forall key, key ∈ collect_node_filter_property_keys filter [] ->
              btree_get key (sn_props fields) = btree_get key (nr_props node)) ->
           node_filter_projected_matches filter fields = expr_matches expr node.
Proof. apply (filter_normalization_exact expr); [exact expr_wf_ok|exact expr_fits]. Defined.

(** ** A query *)
Definition person (id : Z) (key : string) (age name : PropValue) (updated_at : Z) : NodeRecord :=
  mkNodeRecord id (NodeLabels.mk [1]) (text key) [(text "age", age); (text "name", name)] 0 updated_at 0 None None 0.
Definition records : gmap Z NodeRecord :=
  {[ 1 := person 1 "a" (PInt 30) (PString (text "x")) 5;
     2 := person 2 "b" (PInt 31) (PString (text "x")) 5;
     4 := person 4 "c" (PFloat 0x403e000000000000) (PString (text "y")) 9;
     7 := person 7 "d" (PInt 30) (PString (text "z")) 9;
     9 := person 9 "e" (PUInt 30) (PString (text "y")) 7 ]}.
Definition record (id : Z) : option NodeRecord := records !! id.
#[local] Instance sources : NodeSources := {|
  find_node_visibility_meta ids :=
    Ok ((fun id => match record id with Some node => Live (visibility_meta node) | None => Missing end) <$> ids);
  find_node_projected_fields ids needs := Ok ((fun id => selected_node_fields needs <$> record id) <$> ids)
|}.
Lemma records_wf id node : record id = Some node -> nr_id node = id /\ node_wf node.
Proof.
  unfold record, records. intros E.
  repeat (apply lookup_insert_Some in E as [[<- <-]|[_ E]]); [..|apply lookup_singleton_Some in E as [<- <-]].
  all: split; [done|]; split; [unfold i64; cbn; lia|]; intros k v Hv; cbn [nr_props person] in Hv; cbn [btree_get] in Hv;
    repeat (destruct (decide _) in Hv; [apply (inj Some) in Hv as <-; cbn; try done; lia|]); done.
Qed.
#[local] Instance sources_laws : NodeSourcesLaws record.
Proof.
  split.
  - intros id node E. by apply records_wf.
  - intros ids states E. apply Ok_inj in E as <-. rewrite <- list_fmap_compose. apply list_fmap_ext. intros _ id _.
    cbn. by destruct (record id).
  - intros ids needs fields E. by apply Ok_inj in E as <-.
Qed.
Definition catalog : gmap str Z := {[ text "Person" := 1; text "City" := 2 ]}.
Definition query : NodeQuery :=
  mkNodeQuery (Some (mkLabelFilter [text "Person"; text "Nowhere"] Any)) [] [] (Some expr) (mkPage (Some 2) None) NodeIdAsc false.
Definition normalized : NormalizedNodeQuery :=
  match normalize_node_query catalog query with Some (Ok nq) => nq | _ => mkNormalized None Unconstrained [] [] N.AlwaysTrue false (mkPage None None) [] end.
Definition candidates : list Z := [1; 2; 3; 4; 7; 9].
Lemma all_candidates : forallb (fun '(id, _) => bool_decide (id ∈ candidates)) (map_to_list records) = true.
Proof. vm_compute. reflexivity. Qed.
Lemma node_query_page_exact_witness :
  query_node_page_from_candidates candidates normalized None = Ok (mkVerified [1; 4] (Some 4))
  /\ match query_node_page_from_candidates candidates normalized None with
     | Err e => source_error e
     | Ok page => exists hits,
         ascending hits
         /\ (forall id, id ∈ hits <-> after_cursor (q_page query) id = true
                        /\ exists node, record id = Some node /\ query_selects catalog query None node = true)
         /\ let limit := page_limit (q_page query) in
            vp_ids page = (if limit =? 0 then hits else take (Z.to_nat limit) hits)
            /\ vp_next_cursor page = (if (limit =? 0) || (len hits <=? limit) then None else last (take (Z.to_nat limit) hits))
     end.
Proof.
  split; [vm_compute; reflexivity|].
  apply (node_query_page_exact catalog query true None normalized).
  - vm_compute. reflexivity.
  - split; [exact expr_wf_ok|exact expr_fits].
  - intros id node E. by apply records_wf in E as [_ ?].
  - repeat constructor.
  - reflexivity.
  - cbn. split; [done|]. unfold usize_max. lia.
  - intros id node E _. pose proof all_candidates as Hall. rewrite forallb_forall in Hall.
    unfold record in E. apply elem_of_map_to_list, list_elem_of_In in E. apply Hall in E. by apply bool_decide_eq_true in E.
Defined.
End FilterWitness.
