(* ===== verification/SourceList.v ===== *)
(** Reads over the layers of a read view (src/source_list.rs, and the batch
    reads of src/memtable.rs): the active memtable, the immutable ones newest
    first, then the segments newest first; the first that knows an id decides.
    What the segments answer is an interface here. *)
From S2P Require Import Prelude Types EdgeMetadata Slots Memtable MemtableReads FilterBase NodeFilter NodeQuery.

Module SourceList.
Import NodeFilter.

(** ** What is read of an edge *)
Record EdgeMetadataForQuery : Type := mkEdgeMeta {
  eq_id : Z; eq_from : Z; eq_to : Z; eq_label_id : Z;
  eq_updated_at : Z; eq_weight : Z; eq_valid_from : Z; eq_valid_to : Z
}.
Definition edge_metadata_for_query (edge : EdgeRecord) : EdgeMetadataForQuery :=
  mkEdgeMeta (er_id edge) (er_from edge) (er_to edge) (er_label_id edge) (er_updated_at edge) (er_weight edge)
    (er_valid_from edge) (er_valid_to edge).
Record SelectedEdgeFields : Type := mkSelectedEdge {
  se_meta : EdgeMetadataForQuery;
  se_props : props;
  se_created_at : option Z
}.
Record EdgeSelectedFieldNeeds : Type := mkEdgeNeeds {
  edge_need_created_at : bool;
  edge_need_props : NodeQuery.PropertySelection
}.
Definition selected_edge_fields (needs : EdgeSelectedFieldNeeds) (edge : EdgeRecord) : SelectedEdgeFields :=
  mkSelectedEdge (edge_metadata_for_query edge) (NodeQuery.selected_props_from_map (er_props edge) (edge_need_props needs))
    (if edge_need_created_at needs then Some (er_created_at edge) else None).

(** ** Batches over one memtable *)
(** An id and its place in the results. *)
Abbreviation Lookup := (nat * Z)%type.

(** [results[orig_idx]] is written; an id met before is answered from the
    cache.  Returns the results and the lookups left for older sources. *)
Inductive CachedLookup : Type := CachedLive (index : nat) | CachedTombstone | CachedMiss.
Section Batch.
Context {R A : Type} (slots : gmap Z (VersionedSlot (RecordState R))) (snapshot_seq : Z) (value : R -> A).
Fixpoint batch_loop (lookups : list Lookup) (cache : gmap Z CachedLookup) (results : list (option A)) (remaining : list Lookup)
  : list (option A) * list Lookup :=
  match lookups with
  | [] => (results, remaining)
  | (orig_idx, id) :: lookups =>
      match cache !! id with
      | Some (CachedLive cached_idx) =>
          batch_loop lookups cache (<[orig_idx := default None (results !! cached_idx)]> results) remaining
      | Some CachedTombstone => batch_loop lookups cache results remaining
      | Some CachedMiss => batch_loop lookups cache results (remaining ++ [(orig_idx, id)])
      | None =>
          match (slot ← slots !! id; record_at slot snapshot_seq) with
          | Some (Live record) =>
              batch_loop lookups (<[id := CachedLive orig_idx]> cache) (<[orig_idx := Some (value record)]> results) remaining
          | Some (Tombstone _) => batch_loop lookups (<[id := CachedTombstone]> cache) results remaining
          | None => batch_loop lookups (<[id := CachedMiss]> cache) results (remaining ++ [(orig_idx, id)])
          end
      end
  end.
Definition batch_get (lookups : list Lookup) (results : list (option A)) : list (option A) * list Lookup :=
  batch_loop lookups ∅ results [].
End Batch.

Section Memtable.
Context (snapshot_seq : Z).
Definition batch_get_nodes_at (st : MemtableState) : list Lookup -> list (option NodeRecord) -> list (option NodeRecord) * list Lookup :=
  batch_get (ms_nodes st) snapshot_seq (fun node => node).
Definition batch_get_edges_at (st : MemtableState) : list Lookup -> list (option EdgeRecord) -> list (option EdgeRecord) * list Lookup :=
  batch_get (ms_edges st) snapshot_seq (fun edge => edge).
Definition batch_get_node_selected_fields_at (needs : NodeQuery.NodeSelectedFieldNeeds) (st : MemtableState)
  : list Lookup -> list (option SelectedNodeFields) -> list (option SelectedNodeFields) * list Lookup :=
  batch_get (ms_nodes st) snapshot_seq (NodeQuery.selected_node_fields needs).
Definition batch_get_edge_selected_fields_at (needs : EdgeSelectedFieldNeeds) (st : MemtableState)
  : list Lookup -> list (option SelectedEdgeFields) -> list (option SelectedEdgeFields) * list Lookup :=
  batch_get (ms_edges st) snapshot_seq (selected_edge_fields needs).

Definition node_visibility_at (st : MemtableState) (id : Z) : NodeQuery.NodeVisibilityState :=
  match (slot ← ms_nodes st !! id; record_at slot snapshot_seq) with
  | Some (Live node) => NodeQuery.Live (NodeQuery.visibility_meta node)
  | Some (Tombstone _) => NodeQuery.Deleted
  | None => if node_deleted_at st id snapshot_seq then NodeQuery.Deleted else NodeQuery.Missing
  end.
Fixpoint visibility_loop (st : MemtableState) (lookups : list Lookup) (cache : gmap Z NodeQuery.NodeVisibilityState)
    (results : list NodeQuery.NodeVisibilityState) (remaining : list Lookup)
  : list NodeQuery.NodeVisibilityState * list Lookup :=
  match lookups with
  | [] => (results, remaining)
  | (orig_idx, id) :: lookups =>
      let visibility := default (node_visibility_at st id) (cache !! id) in
      let cache := <[id := visibility]> cache in
      match visibility with
      | NodeQuery.Missing => visibility_loop st lookups cache results (remaining ++ [(orig_idx, id)])
      | _ => visibility_loop st lookups cache (<[orig_idx := visibility]> results) remaining
      end
  end.
Definition batch_get_node_visibility_meta_at (st : MemtableState) (lookups : list Lookup)
    (results : list NodeQuery.NodeVisibilityState) : list NodeQuery.NodeVisibilityState * list Lookup :=
  visibility_loop st lookups ∅ results [].

Definition get_edge_metadata_at (st : MemtableState) (id : Z) : option EdgeMetadataCandidate :=
  from_edge <$> edge_at st id snapshot_seq.
(** The closure of [retain]: a record found, or deleted, leaves the list. *)
Fixpoint batch_edge_metadata (st : MemtableState) (lookups : list Lookup) (results : list (option EdgeMetadataCandidate))
  : list (option EdgeMetadataCandidate) * list Lookup :=
  match lookups with
  | [] => (results, [])
  | (index, id) :: lookups =>
      match get_edge_metadata_at st id with
      | Some meta => batch_edge_metadata st lookups (<[index := Some meta]> results)
      | None =>
          let '(results, remaining) := batch_edge_metadata st lookups results in
          (results, if edge_deleted_at st id snapshot_seq then remaining else (index, id) :: remaining)
      end
  end.
End Memtable.

(** ** Segments *)
Class SegmentReads (Segment : Type) : Type := {
  is_node_deleted : Segment -> Z -> bool;
  is_edge_deleted : Segment -> Z -> bool;
  get_node : Segment -> Z -> res (option NodeRecord);
  get_edge : Segment -> Z -> res (option EdgeRecord);
  get_nodes_batch : Segment -> list Lookup -> list (option NodeRecord) -> res (list (option NodeRecord));
  get_edges_batch : Segment -> list Lookup -> list (option EdgeRecord) -> res (list (option EdgeRecord));
  get_edge_metadata_batch : Segment -> list Lookup -> list (option EdgeMetadataCandidate) -> res (list (option EdgeMetadataCandidate));
  get_node_meta_batch : Segment -> list Lookup -> list (option NodeQuery.NodeVisibilityMeta) -> res (list (option NodeQuery.NodeVisibilityMeta));
  get_node_selected_fields_batch : NodeQuery.NodeSelectedFieldNeeds -> Segment -> list Lookup -> list (option SelectedNodeFields)
    -> res (list (option SelectedNodeFields));
  get_edge_selected_fields_batch : EdgeSelectedFieldNeeds -> Segment -> list Lookup -> list (option SelectedEdgeFields)
    -> res (list (option SelectedEdgeFields))
}.

Section Sources.
Context {Segment : Type} `{SegmentReads Segment}.

Record SourceList : Type := mkSources {
  active : MemtableState;
  immutable : list MemtableState;
  segments : list Segment;
  snapshot_seq : Z
}.

(** [sort_unstable_by_key] on the id: the order of equal ids never shows. *)
Definition id_le (a b : Lookup) : Prop := snd a <= snd b.
#[global] Instance id_le_dec a b : Decision (id_le a b).
Proof. unfold id_le. apply _. Defined.
Definition sort_by_id (lookups : list Lookup) : list Lookup := merge_sort id_le lookups.
Definition enumerate (ids : list Z) : list Lookup := imap pair ids.

(** The loop over the immutable memtables. *)
Fixpoint immutable_pass {B} (batch : MemtableState -> list Lookup -> list B -> list B * list Lookup)
    (epochs : list MemtableState) (results : list B) (remaining : list Lookup) : list B * list Lookup :=
  match epochs with
  | [] => (results, remaining)
  | epoch :: epochs =>
      match remaining with
      | [] => (results, remaining)
      | _ => let '(results, remaining) := batch epoch remaining results in immutable_pass batch epochs results remaining
      end
  end.
Definition memtable_pass {B} (batch : MemtableState -> list Lookup -> list B -> list B * list Lookup)
    (sl : SourceList) (results : list B) (remaining : list Lookup) : list B * list Lookup :=
  let '(results, remaining) := batch (active sl) remaining results in
  immutable_pass batch (immutable sl) results remaining.

(** The loop over the segments that fill [results] directly. *)
Definition unfilled {A} (results : list (option A)) (l : Lookup) : bool :=
  match results !! fst l with Some None => true | _ => false end.
Fixpoint segment_pass {A} (is_deleted : Segment -> Z -> bool)
    (fetch : Segment -> list Lookup -> list (option A) -> res (list (option A)))
    (segs : list Segment) (results : list (option A)) (remaining : list Lookup) : res (list (option A)) :=
  match segs with
  | [] => Ok results
  | seg :: segs =>
      match remaining with
      | [] => Ok results
      | _ =>
          let remaining := base.filter (fun l => is_deleted seg (snd l) = false) remaining in
          match remaining with
          | [] => Ok results
          | _ =>
              results ← fetch seg remaining results;
              segment_pass is_deleted fetch segs results (base.filter (fun l => unfilled results l = true) remaining)
          end
      end
  end.

(** The loop over the segments that go through [segment_results], indexed by
    the place among the remaining lookups. *)
Definition compact_lookups (remaining : list Lookup) : list Lookup := imap (fun i l => (i, snd l)) remaining.
Fixpoint take_found {X B} (wrap : X -> B) (remaining : list Lookup) (segment_results : list (option X)) (results : list B)
  : list B * list Lookup :=
  match remaining, segment_results with
  | (index, id) :: remaining, found :: segment_results =>
      match found with
      | Some x => take_found wrap remaining segment_results (<[index := wrap x]> results)
      | None =>
          let '(results, remaining) := take_found wrap remaining segment_results results in
          (results, (index, id) :: remaining)
      end
  | _, _ => (results, [])
  end.
(** [deleted]: what is written for a deleted id, if anything. *)
Definition note_deleted {B} (deleted : option B) (is_deleted : Z -> bool) (remaining : list Lookup) (results : list B) : list B :=
  match deleted with
  | Some d => foldl (fun results l => if is_deleted (snd l) then <[fst l := d]> results else results) results remaining
  | None => results
  end.
Fixpoint compact_pass {X B} (wrap : X -> B) (deleted : option B) (is_deleted : Segment -> Z -> bool)
    (fetch : Segment -> list Lookup -> list (option X) -> res (list (option X)))
    (segs : list Segment) (results : list B) (remaining : list Lookup) : res (list B) :=
  match segs with
  | [] => Ok results
  | seg :: segs =>
      match remaining with
      | [] => Ok results
      | _ =>
          let results := note_deleted deleted (is_deleted seg) remaining results in
          let remaining := base.filter (fun l => is_deleted seg (snd l) = false) remaining in
          match remaining with
          | [] => Ok results
          | _ =>
              segment_results ← fetch seg (compact_lookups remaining) (replicate (length remaining) None);
              let '(results, remaining) := take_found wrap remaining segment_results results in
              compact_pass wrap deleted is_deleted fetch segs results remaining
          end
      end
  end.

(** ** Batch reads *)
Definition find_nodes (sl : SourceList) (ids : list Z) : res (list (option NodeRecord)) :=
  let '(results, remaining) := memtable_pass (batch_get_nodes_at (snapshot_seq sl)) sl (replicate (length ids) None) (enumerate ids) in
  segment_pass is_node_deleted get_nodes_batch (segments sl) results (sort_by_id remaining).
Definition find_edges (sl : SourceList) (ids : list Z) : res (list (option EdgeRecord)) :=
  let '(results, remaining) := memtable_pass (batch_get_edges_at (snapshot_seq sl)) sl (replicate (length ids) None) (enumerate ids) in
  segment_pass is_edge_deleted get_edges_batch (segments sl) results (sort_by_id remaining).
Definition find_edge_metadata (sl : SourceList) (ids : list Z) : res (list (option EdgeMetadataCandidate)) :=
  let '(results, remaining) := memtable_pass (batch_edge_metadata (snapshot_seq sl)) sl (replicate (length ids) None) (enumerate ids) in
  segment_pass is_edge_deleted get_edge_metadata_batch (segments sl) results (sort_by_id remaining).
Definition find_node_visibility_meta (sl : SourceList) (ids : list Z) : res (list NodeQuery.NodeVisibilityState) :=
  let '(results, remaining) :=
    memtable_pass (batch_get_node_visibility_meta_at (snapshot_seq sl)) sl (replicate (length ids) NodeQuery.Missing) (enumerate ids) in
  compact_pass NodeQuery.Live (Some NodeQuery.Deleted) is_node_deleted get_node_meta_batch (segments sl) results (sort_by_id remaining).
Definition find_node_projected_fields (sl : SourceList) (ids : list Z) (needs : NodeQuery.NodeSelectedFieldNeeds)
  : res (list (option SelectedNodeFields)) :=
  let '(results, remaining) :=
    memtable_pass (batch_get_node_selected_fields_at (snapshot_seq sl) needs) sl (replicate (length ids) None) (enumerate ids) in
  compact_pass Some None is_node_deleted (get_node_selected_fields_batch needs) (segments sl) results (sort_by_id remaining).
Definition find_edge_projected_fields (sl : SourceList) (ids : list Z) (needs : EdgeSelectedFieldNeeds)
  : res (list (option SelectedEdgeFields)) :=
  let '(results, remaining) :=
    memtable_pass (batch_get_edge_selected_fields_at (snapshot_seq sl) needs) sl (replicate (length ids) None) (enumerate ids) in
  compact_pass Some None is_edge_deleted (get_edge_selected_fields_batch needs) (segments sl) results (sort_by_id remaining).

(** ** Point reads *)
Section Point.
Context {R : Type} (get_at : MemtableState -> Z -> Z -> option R) (deleted_at : MemtableState -> Z -> Z -> bool)
  (get : Segment -> Z -> res (option R)) (is_deleted : Segment -> Z -> bool).
Fixpoint find_in_memtables (memtables : list MemtableState) (id snapshot_seq : Z) : option (option R) :=
  match memtables with
  | [] => None
  | memtable :: memtables =>
      match get_at memtable id snapshot_seq with
      | Some record => Some (Some record)
      | None => if deleted_at memtable id snapshot_seq then Some None else find_in_memtables memtables id snapshot_seq
      end
  end.
Fixpoint find_in_segments (segs : list Segment) (id : Z) : res (option R) :=
  match segs with
  | [] => Ok None
  | seg :: segs =>
      if is_deleted seg id then Ok None
      else found ← get seg id; match found with Some record => Ok (Some record) | None => find_in_segments segs id end
  end.
Definition find_by_id (sl : SourceList) (id : Z) : res (option R) :=
  match find_in_memtables (active sl :: immutable sl) id (snapshot_seq sl) with
  | Some found => Ok found
  | None => find_in_segments (segments sl) id
  end.
End Point.
Definition find_node : SourceList -> Z -> res (option NodeRecord) := find_by_id node_at node_deleted_at get_node is_node_deleted.
Definition find_edge : SourceList -> Z -> res (option EdgeRecord) := find_by_id edge_at edge_deleted_at get_edge is_edge_deleted.

(** What a query asks of its sources. *)
#[export] Instance source_list_reads (sl : SourceList) : NodeQuery.NodeSources := {|
  NodeQuery.find_node_visibility_meta := find_node_visibility_meta sl;
  NodeQuery.find_node_projected_fields := find_node_projected_fields sl
|}.
End Sources.
End SourceList.
