(* ===== verification/SourceListFacts.v ===== *)
(** Layered reads: every batch read answers id by id what the first layer that
    knows the id answers, in the order and with the repetitions asked for; and
    memtables frozen from one run answer as the one memtable of the run. *)
From S2P Require Import Prelude Types Encoding PropertyValue EdgeMetadata Slots Memtable MemtableCells MemtableSteps MemtableFacts MemtableEdges MemtableReads MemtableSnapshots FilterBase NodeFilter NodeQuery NodeQueryFacts SourceList.
Import SourceList.

(** ** Stages: each layer answers some of the lookups left *)
Section Stages.
Context {B : Type} (d : B).

(** What a layer says of an id; [None]: it does not know it. *)
Definition missed (says : Z -> option B) (l : Lookup) : bool := match says (snd l) with None => true | Some _ => false end.
Definition first (says says' : Z -> option B) (id : Z) : option B := match says id with Some b => Some b | None => says' id end.

Record wrote (says : Z -> option B) (results : list B) (lookups : list Lookup) (results' : list B) (remaining : list Lookup) : Prop := {
  wr_length : length results' = length results;
  wr_at i id : (i, id) ∈ lookups -> results' !! i = Some (default d (says id));
  wr_else i : i ∉ fst <$> lookups -> results' !! i = results !! i;
  wr_left : remaining ≡ₚ base.filter (fun l => missed says l = true) lookups
}.
Lemma wrote_nil says results : wrote says results [] results [].
Proof. split; [done| |done|done]. by intros i id ?%elem_of_nil. Qed.
Lemma wrote_cons says results i id lookups results' remaining :
  i ∉ fst <$> lookups -> (i < length results)%nat ->
  wrote says (<[i := default d (says id)]> results) lookups results' remaining ->
  wrote says results ((i, id) :: lookups) results' (if missed says (i, id) then (i, id) :: remaining else remaining).
Proof.
  intros Hi Hl [Hlen Hat Helse Hleft]. rewrite length_insert in Hlen. split; [done|..].
  - intros i' id' [[= -> ->]|Hin]%elem_of_cons; [|by apply Hat]. rewrite Helse by done. by apply list_lookup_insert_eq.
  - intros i'. rewrite fmap_cons, not_elem_of_cons. intros [Hne Hi']. rewrite Helse by done. by apply list_lookup_insert_ne.
  - rewrite filter_cons. destruct (missed says (i, id)); [by rewrite decide_True, <- Hleft by done|by rewrite decide_False by done].
Qed.
Lemma wrote_skip says results i id lookups results' remaining :
  i ∉ fst <$> lookups -> results !! i = Some d -> default d (says id) = d ->
  wrote says results lookups results' remaining ->
  wrote says results ((i, id) :: lookups) results' (if missed says (i, id) then (i, id) :: remaining else remaining).
Proof.
  intros Hi Hd Hs Hw. apply wrote_cons; [done|by apply lookup_lt_Some in Hd|]. by rewrite Hs, list_insert_id.
Qed.
Lemma wrote_hit says results i id b lookups results' remaining :
  i ∉ fst <$> lookups -> (i < length results)%nat -> says id = Some b ->
  wrote says (<[i := b]> results) lookups results' remaining ->
  wrote says results ((i, id) :: lookups) results' remaining.
Proof.
  intros Hi Hl Hs Hw. replace b with (default d (says id)) in Hw by by rewrite Hs.
  pose proof (wrote_cons says results i id lookups results' remaining Hi Hl Hw) as Hc. unfold missed in Hc. cbn in Hc. by rewrite Hs in Hc.
Qed.
Lemma wrote_miss says results i id lookups results' remaining :
  i ∉ fst <$> lookups -> results !! i = Some d -> says id = None ->
  wrote says results lookups results' remaining ->
  wrote says results ((i, id) :: lookups) results' ((i, id) :: remaining).
Proof.
  intros Hi Hd Hs Hw. assert (default d (says id) = d) as Hdef by by rewrite Hs.
  pose proof (wrote_skip says results i id lookups results' remaining Hi Hd Hdef Hw) as Hc. unfold missed in Hc. cbn in Hc. by rewrite Hs in Hc.
Qed.
Lemma wrote_left says results lookups results' remaining remaining' :
  remaining ≡ₚ remaining' -> wrote says results lookups results' remaining -> wrote says results lookups results' remaining'.
Proof. intros Hp [Hlen Hat Helse Hleft]. split; [done..|by rewrite <- Hp]. Qed.

(** A function is the stage of a layer, on lookups with distinct places that
    nothing answered yet. *)
Definition open_lookups (results : list B) (lookups : list Lookup) : Prop :=
  NoDup (fst <$> lookups) /\ forall i id, (i, id) ∈ lookups -> results !! i = Some d.
Definition stage (says : Z -> option B) (f : list Lookup -> list B -> list B * list Lookup) : Prop :=
  forall lookups results, open_lookups results lookups ->
    wrote says results lookups (fst (f lookups results)) (snd (f lookups results)).
Lemma open_cons results i id lookups :
  open_lookups results ((i, id) :: lookups) -> i ∉ fst <$> lookups /\ results !! i = Some d /\ open_lookups results lookups.
Proof.
  intros [[Hi Hn]%NoDup_cons Hd]. split; [done|]. split; [apply (Hd i id); left|]. split; [done|]. intros i' id' Hin. apply (Hd i' id'). by right.
Qed.
Lemma open_insert results i b lookups : i ∉ fst <$> lookups -> open_lookups results lookups -> open_lookups (<[i := b]> results) lookups.
Proof.
  intros Hi [Hn Hd]. split; [done|]. intros i' id' Hin. rewrite list_lookup_insert_ne; [by apply (Hd i' id')|].
  intros ->. apply Hi, list_elem_of_fmap. by exists (i', id').
Qed.

(** Where a read stands. *)
Context (ids : list Z).
Record progress (says : Z -> option B) (results : list B) (remaining : list Lookup) : Prop := {
  pr_length : length results = length ids;
  pr_at i id : ids !! i = Some id -> results !! i = Some (default d (says id));
  pr_left : remaining ≡ₚ base.filter (fun l => missed says l = true) (enumerate ids)
}.
Lemma enumerate_elem i id : (i, id) ∈ enumerate ids <-> ids !! i = Some id.
Proof.
  unfold enumerate. rewrite list_elem_of_lookup. split.
  - intros [j Hj]. rewrite list_lookup_imap in Hj. destruct (ids !! j) as [x|] eqn:E; [|done]. cbn in Hj. by injection Hj as -> ->.
  - intros Hi. exists i. by rewrite list_lookup_imap, Hi.
Qed.
Lemma enumerate_fst : fst <$> enumerate ids = seq 0 (length ids).
Proof.
  unfold enumerate. rewrite fmap_imap. apply list_eq. intros i. rewrite list_lookup_imap.
  destruct (ids !! i) as [x|] eqn:E; cbn.
  - symmetry. apply lookup_seq. apply lookup_lt_Some in E. lia.
  - symmetry. apply lookup_seq_ge. by apply lookup_ge_None in E.
Qed.
Lemma progress_start : progress (fun _ => None) (replicate (length ids) d) (enumerate ids).
Proof.
  split; [by rewrite length_replicate| |].
  - intros i id Hi. apply lookup_replicate_2. by apply lookup_lt_Some in Hi.
  - rewrite filter_all; [done|]. by apply Forall_forall.
Qed.
Lemma progress_elem says results remaining i id :
  progress says results remaining -> (i, id) ∈ remaining <-> ids !! i = Some id /\ says id = None.
Proof.
  intros [_ _ Hp]. rewrite Hp, list_elem_of_filter, enumerate_elem. unfold missed. cbn. destruct (says id); naive_solver.
Qed.
Lemma progress_open says results remaining : progress says results remaining -> open_lookups results remaining.
Proof.
  intros Hp. split.
  - destruct Hp as [_ _ ->]. eapply sublist_NoDup; [apply (NoDup_seq 0 (length ids))|]. rewrite <- enumerate_fst.
    apply fmap_sublist. apply sublist_filter.
  - intros i id Hin. apply (progress_elem _ _ _ _ _ Hp) in Hin as [Hi Hn]. rewrite (pr_at _ _ _ Hp i id Hi). by rewrite Hn.
Qed.
Lemma progress_wrote says says' results remaining results' remaining' :
  progress says results remaining -> wrote says' results remaining results' remaining' ->
  progress (first says says') results' remaining'.
Proof.
  intros Hp [Hlen Hat Helse Hleft]. split.
  - rewrite Hlen. apply Hp.
  - intros i id Hi. unfold first. destruct (says id) as [b|] eqn:Es.
    + rewrite Helse; [rewrite (pr_at _ _ _ Hp i id Hi); by rewrite Es|]. intros ([i' id'] & -> & Hin)%list_elem_of_fmap.
      apply (progress_elem _ _ _ _ _ Hp) in Hin as [Hi' Hn]. cbn in Hi. rewrite Hi in Hi'. injection Hi' as ->. congruence.
    + apply Hat. apply (progress_elem _ _ _ _ _ Hp). done.
  - rewrite Hleft. destruct Hp as [_ _ ->]. rewrite list_filter_filter. apply reflexive_eq, list_filter_iff.
    intros [i id]. unfold missed, first. cbn. destruct (says id); naive_solver.
Qed.
Lemma progress_sort says results remaining remaining' :
  remaining ≡ₚ remaining' -> progress says results remaining -> progress says results remaining'.
Proof. intros E [H1 H2 H3]. split; [done..|by rewrite <- E]. Qed.
Lemma progress_done says results remaining : progress says results remaining -> results = (fun id => default d (says id)) <$> ids.
Proof.
  intros Hp. apply list_eq. intros i. rewrite list_lookup_fmap. destruct (ids !! i) as [id|] eqn:E.
  - by apply (pr_at _ _ _ Hp).
  - cbn. apply lookup_ge_None. rewrite (pr_length _ _ _ Hp). by apply lookup_ge_None.
Qed.
(** With nothing left, older layers change nothing. *)
Lemma progress_empty says says' results : progress says results [] -> progress (first says says') results [].
Proof. intros Hp. apply (progress_wrote says says' results [] results []); [done|apply wrote_nil]. Qed.
Lemma progress_stage says says' f results remaining :
  stage says' f -> progress says results remaining ->
  progress (first says says') (fst (f remaining results)) (snd (f remaining results)).
Proof. intros Hs Hp. by apply (progress_wrote says says' results remaining), Hs, (progress_open says). Qed.
Lemma progress_ext says says' results remaining :
  (forall id, says id = says' id) -> progress says results remaining -> progress says' results remaining.
Proof.
  intros E [H1 H2 H3]. split; [done| |].
  - intros i id Hi. by rewrite <- E, (H2 i id Hi).
  - rewrite H3. apply reflexive_eq, list_filter_iff. intros l. unfold missed. by rewrite E.
Qed.
End Stages.

(** ** Memtables *)
Section MemtableStages.
Context {R A : Type} (slots : gmap Z (VersionedSlot (RecordState R))) (s : Z) (value : R -> A).
Definition state_at (id : Z) : option (RecordState R) := slot ← slots !! id; record_at slot s.
Definition state_says (id : Z) : option (option A) :=
  match state_at id with Some (Live record) => Some (Some (value record)) | Some (Tombstone _) => Some None | None => None end.

Definition cache_ok (cache : gmap Z CachedLookup) (results : list (option A)) (lookups : list Lookup) : Prop :=
  forall id cached, cache !! id = Some cached ->
    match cached with
    | CachedLive j => exists b, state_says id = Some b /\ results !! j = Some b /\ j ∉ fst <$> lookups
    | CachedTombstone => state_says id = Some None
    | CachedMiss => state_says id = None
    end.
Lemma cache_ok_weaken cache results x lookups : cache_ok cache results (x :: lookups) -> cache_ok cache results lookups.
Proof.
  intros Hc id cached E. specialize (Hc id cached E). destruct cached; [|done..].
  destruct Hc as (b & ? & ? & Hj). exists b. split_and!; [done..|]. rewrite fmap_cons in Hj. by apply not_elem_of_cons in Hj as [_ ?].
Qed.
Lemma cache_ok_insert cache results i b id lookups :
  cache_ok cache results ((i, id) :: lookups) -> (i < length results)%nat -> cache_ok cache (<[i := b]> results) lookups.
Proof.
  intros Hc Hl id' cached E. specialize (Hc id' cached E). destruct cached; [|done..].
  destruct Hc as (b' & ? & ? & Hj). rewrite fmap_cons in Hj. apply not_elem_of_cons in Hj as [Hne Hj]. exists b'.
  split_and!; [done| |done]. rewrite list_lookup_insert_ne; [done|]. cbn in Hne. congruence.
Qed.
Lemma cache_ok_add cache results id cached lookups :
  cache_ok cache results lookups ->
  match cached with
  | CachedLive j => exists b, state_says id = Some b /\ results !! j = Some b /\ j ∉ fst <$> lookups
  | CachedTombstone => state_says id = Some None
  | CachedMiss => state_says id = None
  end -> cache_ok (<[id := cached]> cache) results lookups.
Proof. intros Hc Hnew id' cached' [[<- <-]|[_ E]]%lookup_insert_Some; [done|by apply Hc]. Qed.

Lemma batch_loop_wrote lookups cache results remaining :
  open_lookups None results lookups -> cache_ok cache results lookups ->
  exists left_over, snd (batch_loop slots s value lookups cache results remaining) = remaining ++ left_over
  /\ wrote None state_says results lookups (fst (batch_loop slots s value lookups cache results remaining)) left_over.
Proof.
  revert cache results remaining. induction lookups as [|[i id] lookups IH]; intros cache results remaining Ho Hc; cbn [batch_loop].
  { exists []. rewrite app_nil_r. split; [done|apply wrote_nil]. }
  destruct (open_cons None _ _ _ _ Ho) as (Hi & Hd & Ho'). pose proof (lookup_lt_Some _ _ _ Hd) as Hl.
  assert (forall b cache results', state_says id = Some b ->
    results' = <[i := b]> results -> cache_ok cache results' lookups ->
    exists left_over, snd (batch_loop slots s value lookups cache results' remaining) = remaining ++ left_over
      /\ wrote None state_says results ((i, id) :: lookups) (fst (batch_loop slots s value lookups cache results' remaining)) left_over) as Hwrite.
  { intros b cache' results' Hs -> Hc'. destruct (IH cache' (<[i := b]> results) remaining) as (left_over & E & Hw);
      [by apply open_insert|done|]. exists left_over. split; [done|]. by eapply wrote_hit. }
  assert (forall cache, state_says id = None -> cache_ok cache results lookups ->
    exists left_over, snd (batch_loop slots s value lookups cache results (remaining ++ [(i, id)])) = remaining ++ left_over
      /\ wrote None state_says results ((i, id) :: lookups) (fst (batch_loop slots s value lookups cache results (remaining ++ [(i, id)]))) left_over) as Hmiss.
  { intros cache' Hs Hc'. destruct (IH cache' results (remaining ++ [(i, id)]) Ho' Hc') as (left_over & E & Hw).
    exists ((i, id) :: left_over). rewrite E, <- app_assoc. split; [done|]. by apply wrote_miss. }
  assert (<[i := None]> results = results) as Hid by by apply list_insert_id.
  destruct (cache !! id) as [[j| |]|] eqn:Ec.
  - destruct (Hc id _ Ec) as (b & Hs & Hj & _). rewrite Hj. apply (Hwrite b); [done|done|].
    by eapply cache_ok_insert.
  - pose proof (Hc id _ Ec) as Hs. cbn in Hs. apply (Hwrite None); [done|done|by eapply cache_ok_weaken].
  - pose proof (Hc id _ Ec) as Hs. cbn in Hs. apply Hmiss; [done|by eapply cache_ok_weaken].
  - fold (state_at id). destruct (state_at id) as [[r|t]|] eqn:Es;
      (assert (state_says id = match state_at id with Some (Live record) => Some (Some (value record)) | Some (Tombstone _) => Some None | None => None end) as Hs by done;
       rewrite Es in Hs).
    + apply (Hwrite (Some (value r))); [done|done|]. apply cache_ok_add; [by eapply cache_ok_insert|].
      exists (Some (value r)). split_and!; [done|by apply list_lookup_insert_eq|done].
    + apply (Hwrite None); [done|done|]. apply cache_ok_add; [by eapply cache_ok_weaken|done].
    + apply Hmiss; [done|]. apply cache_ok_add; [by eapply cache_ok_weaken|done].
Qed.
Lemma batch_get_stage : stage None state_says (batch_get slots s value).
Proof.
  intros lookups results Ho. destruct (batch_loop_wrote lookups ∅ results [] Ho) as (left_over & E & Hw); [done|].
  unfold batch_get. rewrite E. exact Hw.
Qed.
End MemtableStages.

Section Visibility.
Context (s : Z) (st : MemtableState).
Definition visibility_says (id : Z) : option NodeQuery.NodeVisibilityState :=
  match node_visibility_at s st id with NodeQuery.Missing => None | state => Some state end.
Lemma visibility_loop_wrote lookups cache results remaining :
  open_lookups NodeQuery.Missing results lookups ->
  (forall id state, cache !! id = Some state -> state = node_visibility_at s st id) ->
  exists left_over, snd (visibility_loop s st lookups cache results remaining) = remaining ++ left_over
  /\ wrote NodeQuery.Missing visibility_says results lookups (fst (visibility_loop s st lookups cache results remaining)) left_over.
Proof.
  revert cache results remaining. induction lookups as [|[i id] lookups IH]; intros cache results remaining Ho Hc; cbn [visibility_loop].
  { exists []. rewrite app_nil_r. split; [done|apply wrote_nil]. }
  destruct (open_cons _ _ _ _ _ Ho) as (Hi & Hd & Ho'). pose proof (lookup_lt_Some _ _ _ Hd) as Hl.
  assert (default (node_visibility_at s st id) (cache !! id) = node_visibility_at s st id) as ->.
  { destruct (cache !! id) as [state|] eqn:E; [by apply Hc|done]. }
  assert (forall id' state, <[id := node_visibility_at s st id]> cache !! id' = Some state -> state = node_visibility_at s st id') as Hc'.
  { intros id' state [[<- <-]|[_ E]]%lookup_insert_Some; [done|by apply Hc]. }
  cbn zeta. set (cache' := <[id := _]> cache) in *. clearbody cache'.
  assert (visibility_says id = match node_visibility_at s st id with NodeQuery.Missing => None | state => Some state end) as Hs by done.
  destruct (node_visibility_at s st id) as [meta| |].
  - destruct (IH cache' (<[i := NodeQuery.Live meta]> results) remaining (open_insert _ _ _ _ _ Hi Ho') Hc') as (left_over & E & Hw).
    exists left_over. split; [done|]. by eapply wrote_hit.
  - destruct (IH cache' (<[i := NodeQuery.Deleted]> results) remaining (open_insert _ _ _ _ _ Hi Ho') Hc') as (left_over & E & Hw).
    exists left_over. split; [done|]. by eapply wrote_hit.
  - destruct (IH cache' results (remaining ++ [(i, id)]) Ho' Hc') as (left_over & E & Hw).
    exists ((i, id) :: left_over). rewrite E, <- app_assoc. split; [done|]. by apply wrote_miss.
Qed.
Lemma visibility_stage : stage NodeQuery.Missing visibility_says (batch_get_node_visibility_meta_at s st).
Proof.
  intros lookups results Ho. destruct (visibility_loop_wrote lookups ∅ results [] Ho) as (left_over & E & Hw); [done|].
  unfold batch_get_node_visibility_meta_at. rewrite E. exact Hw.
Qed.

Definition edge_metadata_says (id : Z) : option (option EdgeMetadataCandidate) :=
  match get_edge_metadata_at s st id with
  | Some meta => Some (Some meta)
  | None => if edge_deleted_at st id s then Some None else None
  end.
Lemma edge_metadata_stage : stage None edge_metadata_says (batch_edge_metadata s st).
Proof.
  intros lookups. induction lookups as [|[i id] lookups IH]; intros results Ho; cbn [batch_edge_metadata]; [apply wrote_nil|].
  destruct (open_cons _ _ _ _ _ Ho) as (Hi & Hd & Ho'). pose proof (lookup_lt_Some _ _ _ Hd) as Hl.
  assert (edge_metadata_says id = match get_edge_metadata_at s st id with
    | Some meta => Some (Some meta) | None => if edge_deleted_at st id s then Some None else None end) as Hs by done.
  destruct (get_edge_metadata_at s st id) as [meta|].
  - apply (wrote_hit None _ _ _ _ (Some meta)); [done..|]. by apply IH, open_insert.
  - pose proof (IH results Ho') as Hw. destruct (batch_edge_metadata s st lookups results) as [results' remaining]. cbn [fst snd] in *.
    destruct (edge_deleted_at st id s).
    + apply (wrote_hit None _ _ _ _ None); [done..|]. by rewrite list_insert_id.
    + by apply wrote_miss.
Qed.
End Visibility.

(** The loop over the memtables. *)
Definition layers_say {B} (layers : list (Z -> option B)) : Z -> option B := foldr first (fun _ => None) layers.
Lemma first_assoc {B} (a b c : Z -> option B) id : first (first a b) c id = first a (first b c) id.
Proof. unfold first. by destruct (a id). Qed.
Lemma progress_immutable {B} (d : B) ids (layer : MemtableState -> Z -> option B) batch epochs says results remaining :
  (forall st, stage d (layer st) (batch st)) -> progress d ids says results remaining ->
  let out := immutable_pass batch epochs results remaining in
  progress d ids (first says (layers_say (layer <$> epochs))) (fst out) (snd out).
Proof.
  intros Hs. cbn zeta. revert says results remaining. induction epochs as [|epoch epochs IH]; intros says results remaining Hp; cbn [immutable_pass].
  - eapply progress_ext; [|exact Hp]. intros id. unfold first. by destruct (says id).
  - rewrite fmap_cons. cbn [layers_say foldr]. fold (layers_say (layer <$> epochs)). destruct remaining as [|l remaining].
    + by apply progress_empty.
    + pose proof (progress_stage d ids _ _ _ _ _ (Hs epoch) Hp) as Hp'.
      destruct (batch epoch (l :: remaining) results) as [results' remaining']. eapply progress_ext; [|by apply IH].
      intros id. by apply first_assoc.
Qed.

(** ** Segments *)
(** Filling the results with what a source holds. *)
Definition fill {X} (content : Z -> option X) (lookups : list Lookup) (results : list (option X)) : list (option X) :=
  foldl (fun results l => match content (snd l) with Some x => <[fst l := Some x]> results | None => results end) results lookups.
Lemma fill_wrote {X} (content : Z -> option X) lookups results :
  open_lookups None results lookups ->
  wrote None (fun id => Some <$> content id) results lookups (fill content lookups results)
    (base.filter (fun l => missed (fun id => Some <$> content id) l = true) lookups).
Proof.
  revert results. induction lookups as [|[i id] lookups IH]; intros results Ho; [apply wrote_nil|].
  destruct (open_cons _ _ _ _ _ Ho) as (Hi & Hd & Ho'). pose proof (lookup_lt_Some _ _ _ Hd) as Hl.
  rewrite filter_cons. unfold fill. cbn [snd fst foldl].
  assert (missed (fun id => Some <$> content id) (i, id) = match content id with Some _ => false | None => true end) as ->
    by (unfold missed; cbn; by destruct (content id)).
  destruct (content id) as [x|] eqn:E.
  - rewrite decide_False by done. apply (wrote_hit None _ _ _ _ (Some x)); [done|done|by rewrite E|]. by apply IH, open_insert.
  - rewrite decide_True by done. apply wrote_miss; [done|done|by rewrite E|]. by apply IH.
Qed.

Lemma delete_wrote {B} (d dead : B) (is_deleted : Z -> bool) lookups results :
  open_lookups d results lookups ->
  wrote d (fun id => if is_deleted id then Some dead else None) results lookups
    (foldl (fun results l => if is_deleted (snd l) then <[fst l := dead]> results else results) results lookups)
    (base.filter (fun l => is_deleted (snd l) = false) lookups).
Proof.
  revert results. induction lookups as [|[i id] lookups IH]; intros results Ho; [apply wrote_nil|].
  destruct (open_cons _ _ _ _ _ Ho) as (Hi & Hd & Ho'). pose proof (lookup_lt_Some _ _ _ Hd) as Hl.
  rewrite filter_cons. cbn [snd fst foldl]. destruct (is_deleted id) eqn:E.
  - rewrite decide_False by done. apply (wrote_hit d _ _ _ _ dead); [done|done|by rewrite E|]. by apply IH, open_insert.
  - rewrite decide_True by done. apply wrote_miss; [done|done|by rewrite E|]. by apply IH.
Qed.
Lemma foldl_insert_same {A B} (P : A -> bool) (place : A -> nat) (b : B) (l : list A) (results : list B) :
  (forall x, x ∈ l -> results !! place x = Some b) ->
  foldl (fun results x => if P x then <[place x := b]> results else results) results l = results.
Proof.
  induction l as [|x l IH]; intros Hl; [done|]. cbn. rewrite (list_insert_id results (place x)) by (apply Hl; left).
  assert ((if P x then results else results) = results) as -> by by destruct (P x). apply IH. intros y Hy. apply Hl. by right.
Qed.
Lemma note_deleted_wrote {B} (d : B) (deleted : option B) (is_deleted : Z -> bool) lookups results :
  open_lookups d results lookups ->
  wrote d (fun id => if is_deleted id then Some (default d deleted) else None) results lookups
    (note_deleted deleted is_deleted lookups results) (base.filter (fun l => is_deleted (snd l) = false) lookups).
Proof.
  intros Ho. pose proof (delete_wrote d (default d deleted) is_deleted lookups results Ho) as Hw.
  destruct deleted as [dead|]; [exact Hw|]. cbn in Hw |- *. rewrite (foldl_insert_same (fun l => is_deleted (snd l)) fst d) in Hw; [exact Hw|].
  intros [i id] Hin. destruct Ho as [_ Ho]. by apply (Ho i id).
Qed.

Lemma take_found_wrote {X B} (d : B) (wrap : X -> B) (content : Z -> option X) lookups results :
  open_lookups d results lookups ->
  let out := take_found wrap lookups ((fun l => content (snd l)) <$> lookups) results in
  wrote d (fun id => wrap <$> content id) results lookups (fst out) (snd out).
Proof.
  revert results. induction lookups as [|[i id] lookups IH]; intros results Ho; [apply wrote_nil|].
  destruct (open_cons _ _ _ _ _ Ho) as (Hi & Hd & Ho'). pose proof (lookup_lt_Some _ _ _ Hd) as Hl.
  rewrite fmap_cons. cbn [take_found snd]. destruct (content id) as [x|] eqn:E.
  - apply (wrote_hit d _ _ _ _ (wrap x)); [done|done|by rewrite E|]. by apply IH, open_insert.
  - specialize (IH results Ho'). cbn zeta in IH. destruct (take_found _ _ _ _) as [results' remaining].
    apply wrote_miss; [done|done|by rewrite E|]. exact IH.
Qed.

Lemma take_found_left {X B} (wrap : X -> B) (content : Z -> option X) lookups results :
  snd (take_found wrap lookups ((fun l => content (snd l)) <$> lookups) results)
  = base.filter (fun l => missed (fun id => wrap <$> content id) l = true) lookups.
Proof.
  revert results. induction lookups as [|[i id] lookups IH]; intros results; [done|]. rewrite fmap_cons, filter_cons. cbn [take_found snd].
  assert (missed (fun id => wrap <$> content id) (i, id) = match content id with Some _ => false | None => true end) as ->
    by (unfold missed; cbn; by destruct (content id)).
  destruct (content id) as [x|]; [by rewrite decide_False|]. rewrite decide_True by done. rewrite <- (IH results).
  by destruct (take_found _ _ _ _).
Qed.
Lemma sort_by_id_spec lookups : StronglySorted id_le (sort_by_id lookups) /\ sort_by_id lookups ≡ₚ lookups.
Proof.
  split; [|apply merge_sort_Permutation]. apply StronglySorted_merge_sort.
  - intros [i x] [j y] [k z]. unfold id_le. cbn. lia.
  - intros [i x] [j y]. unfold id_le. cbn. lia.
Qed.

Section SegmentPasses.
Context {Segment : Type} `{SegmentReads Segment}.
Context {X : Type} (is_deleted : Segment -> Z -> bool) (content : Segment -> Z -> option X)
  (fetch : Segment -> list Lookup -> list (option X) -> res (list (option X))).
(** A segment fills in what it holds, for lookups in the order of their ids. *)
Hypothesis fetch_law : forall seg lookups results results',
  StronglySorted id_le lookups -> fetch seg lookups results = Ok results' -> results' = fill (content seg) lookups results.

Definition segment_says {B} (dead : B) (wrap : X -> B) (seg : Segment) (id : Z) : option B :=
  if is_deleted seg id then Some dead else wrap <$> content seg id.
Definition fetch_error (e : EngineError) : Prop := exists seg lookups results, fetch seg lookups results = Err e.
Lemma says_split {B} (says : Z -> option B) dead wrap seg layers id :
  first says (layers_say (segment_says dead wrap <$> (seg :: layers))) id
  = first (first (first says (fun id => if is_deleted seg id then Some dead else None)) (fun id => wrap <$> content seg id))
      (layers_say (segment_says dead wrap <$> layers)) id.
Proof.
  rewrite fmap_cons. cbn [layers_say foldr]. fold (layers_say (segment_says dead wrap <$> layers)). unfold first, segment_says.
  destruct (says id); [done|]. by destruct (is_deleted seg id).
Qed.

Lemma segment_pass_spec ids says results remaining segs :
  progress None ids says results remaining -> StronglySorted id_le remaining ->
  match segment_pass is_deleted fetch segs results remaining with
  | Ok results' => results' = (fun id => default None (first says (layers_say (segment_says None Some <$> segs)) id)) <$> ids
  | Err e => fetch_error e
  end.
Proof.
  revert says results remaining. induction segs as [|seg segs IH]; intros says results remaining Hp Hs; cbn [segment_pass].
  { rewrite (progress_done _ _ _ _ _ Hp). apply list_fmap_ext. intros _ id _. unfold first. cbn. by destruct (says id). }
  destruct remaining as [|l remaining].
  { by rewrite (progress_done _ _ _ _ _ (progress_empty _ _ _ (layers_say (segment_says None Some <$> (seg :: segs))) _ Hp)). }
  pose proof (note_deleted_wrote None None (is_deleted seg) _ _ (progress_open _ _ _ _ _ Hp)) as Hd.
  apply (progress_wrote _ _ _ _ _ _ _ _ Hp) in Hd. cbn [note_deleted default] in Hd. cbn zeta.
  assert (StronglySorted id_le (base.filter (fun l : Lookup => is_deleted seg (snd l) = false) (l :: remaining))) as Hsorted by by apply sorted_filter.
  clear Hs. rename Hsorted into Hs.
  set (left_over := base.filter _ (l :: remaining)) in *. clearbody left_over. destruct left_over as [|l' left_over].
  { rewrite (progress_done _ _ _ _ _ (progress_empty _ _ _ (layers_say (segment_says None Some <$> (seg :: segs))) _ Hd)).
    apply list_fmap_ext. intros _ id _. unfold first. destruct (says id); [done|]. cbn [layers_say foldr fmap list_fmap]. unfold first, segment_says.
    by destruct (is_deleted seg id). }
  destruct (fetch seg (l' :: left_over) results) as [results'|e] eqn:Ef; cbn [mbind result_bind]; [|by repeat eexists].
  apply fetch_law in Ef as ->; [|done].
  pose proof (fill_wrote (content seg) _ _ (progress_open _ _ _ _ _ Hd)) as Hw. pose proof (progress_wrote _ _ _ _ _ _ _ _ Hd Hw) as Hp'.
  assert (base.filter (fun l => unfilled (fill (content seg) (l' :: left_over) results) l = true) (l' :: left_over)
          = base.filter (fun l => missed (fun id => Some <$> content seg id) l = true) (l' :: left_over)) as ->.
  { apply filter_ext_in. intros [i id] Hin. unfold unfilled. cbn [fst]. rewrite (wr_at _ _ _ _ _ _ Hw i id Hin). unfold missed. cbn [snd].
    by destruct (content seg id). }
  pose proof (IH _ _ _ Hp' (sorted_filter _ _ _ Hs)) as Hrest.
  destruct (segment_pass _ _ _ _ _) as [results'|e]; [|done]. rewrite Hrest. apply list_fmap_ext. intros _ id _. by rewrite says_split.
Qed.

(** What a segment puts in its own results. *)
Lemma compact_found seg lookups results :
  StronglySorted id_le lookups ->
  fetch seg (compact_lookups lookups) (replicate (length lookups) None) = Ok results ->
  results = (fun l => content seg (snd l)) <$> lookups.
Proof.
  intros Hs Hf.
  assert (forall (i : nat) (l : Lookup), lookups !! i = Some l -> (i, snd l) ∈ compact_lookups lookups) as Hin.
  { intros i l Hl. apply list_elem_of_lookup. exists i. unfold compact_lookups. by rewrite list_lookup_imap, Hl. }
  assert (compact_lookups lookups = enumerate (snd <$> lookups)) as Ec.
  { unfold compact_lookups, enumerate. by rewrite imap_fmap. }
  apply fetch_law in Hf as ->.
  - assert (open_lookups None (replicate (length lookups) (@None X)) (compact_lookups lookups)) as Ho.
    { split.
      - rewrite Ec, enumerate_fst. apply NoDup_seq.
      - intros i id Hi. rewrite Ec in Hi. apply enumerate_elem in Hi. apply lookup_replicate_2.
        apply lookup_lt_Some in Hi. by rewrite length_fmap in Hi. }
    pose proof (fill_wrote (content seg) _ _ Ho) as Hw. apply list_eq. intros i. rewrite list_lookup_fmap.
    destruct (lookups !! i) as [l|] eqn:E.
    + rewrite (wr_at _ _ _ _ _ _ Hw i (snd l) (Hin i l E)). cbn. by destruct (content seg (snd l)).
    + cbn. apply lookup_ge_None. rewrite (wr_length _ _ _ _ _ _ Hw), length_replicate. by apply lookup_ge_None.
  - clear -Hs. unfold compact_lookups.
    assert (forall f : nat -> nat, StronglySorted id_le (imap (fun i l => (f i, snd l)) lookups)) as Hk; [|apply (Hk (fun i => i))].
    induction Hs as [|l lookups Hs IH Hl]; intros f; [constructor|]. rewrite imap_cons. constructor; [apply (IH (fun i => f (S i)))|].
    apply Forall_forall. intros x Hx. rewrite Forall_forall in Hl. apply list_elem_of_lookup in Hx as [j Hj].
    rewrite list_lookup_imap in Hj. destruct (lookups !! j) as [y|] eqn:E; [|done]. apply (inj Some) in Hj as <-.
    apply (Hl y). by apply list_elem_of_lookup_2 with j.
Qed.

Lemma compact_pass_spec {B} (d : B) (wrap : X -> B) (deleted : option B) ids says results remaining segs :
  progress d ids says results remaining -> StronglySorted id_le remaining ->
  match compact_pass wrap deleted is_deleted fetch segs results remaining with
  | Ok results' =>
      results' = (fun id => default d (first says (layers_say (segment_says (default d deleted) wrap <$> segs)) id)) <$> ids
  | Err e => fetch_error e
  end.
Proof.
  revert says results remaining. induction segs as [|seg segs IH]; intros says results remaining Hp Hs; cbn [compact_pass].
  { rewrite (progress_done _ _ _ _ _ Hp). apply list_fmap_ext. intros _ id _. unfold first. cbn. by destruct (says id). }
  destruct remaining as [|l remaining].
  { by rewrite (progress_done _ _ _ _ _ (progress_empty _ _ _ (layers_say (segment_says (default d deleted) wrap <$> (seg :: segs))) _ Hp)). }
  pose proof (note_deleted_wrote d deleted (is_deleted seg) _ _ (progress_open _ _ _ _ _ Hp)) as Hd.
  apply (progress_wrote _ _ _ _ _ _ _ _ Hp) in Hd. cbn zeta.
  assert (StronglySorted id_le (base.filter (fun l : Lookup => is_deleted seg (snd l) = false) (l :: remaining))) as Hsorted by by apply sorted_filter.
  clear Hs. rename Hsorted into Hs. set (results1 := note_deleted _ _ _ _) in *. clearbody results1.
  set (left_over := base.filter _ (l :: remaining)) in *. clearbody left_over. destruct left_over as [|l' left_over].
  { rewrite (progress_done _ _ _ _ _ (progress_empty _ _ _ (layers_say (segment_says (default d deleted) wrap <$> (seg :: segs))) _ Hd)).
    apply list_fmap_ext. intros _ id _. unfold first. destruct (says id); [done|]. cbn [layers_say foldr fmap list_fmap]. unfold first, segment_says.
    by destruct (is_deleted seg id). }
  destruct (fetch seg _ _) as [found|e] eqn:Ef; cbn [mbind result_bind]; [|by repeat eexists].
  apply compact_found in Ef as ->; [|done].
  pose proof (take_found_wrote d wrap (content seg) _ _ (progress_open _ _ _ _ _ Hd)) as Hw. cbn zeta in Hw.
  pose proof (progress_wrote _ _ _ _ _ _ _ _ Hd Hw) as Hp'. rewrite take_found_left in Hp'.
  pose proof (take_found_left wrap (content seg) (l' :: left_over) results1) as Eleft.
  destruct (take_found wrap (l' :: left_over) _ results1) as [results2 remaining2]. cbn [fst snd] in *. subst remaining2.
  pose proof (IH _ _ _ Hp' (sorted_filter _ _ _ Hs)) as Hrest.
  destruct (compact_pass _ _ _ _ _ _ _) as [results'|e]; [|done]. rewrite Hrest. apply list_fmap_ext. intros _ id _. by rewrite says_split.
Qed.
End SegmentPasses.

(** ** Memtables of one run *)
Section Runs.
Context `{RmpValue, HashOrder}.

(** What an operation writes at the location of a record. *)
Definition op_write (seq : Z) (op : WalOp) (l : Loc) : option Val :=
  match op, l with
  | UpsertNode node, LNode n => if decide (n = nr_id node) then Some (VNode (Live (with_node_seq node seq))) else None
  | DeleteNode id t, LNode n => if decide (n = id) then Some (VNode (Tombstone (mkTombstoneEntry t seq))) else None
  | UpsertEdge edge, LEdge e => if decide (e = er_id edge) then Some (VEdge (Live (with_edge_seq edge seq))) else None
  | DeleteEdge id t, LEdge e => if decide (e = id) then Some (VEdge (Tombstone (mkTombstoneEntry t seq))) else None
  | _, _ => None
  end.
Definition record_loc (l : Loc) : bool := match l with LNode _ | LEdge _ => true | _ => false end.
Lemma record_loc_cases l : record_loc l = true -> (exists n, l = LNode n) \/ (exists e, l = LEdge e).
Proof. destruct l; try done; eauto. Qed.
#[local] Strategy 100 [apply_upsert_node apply_upsert_edge apply_delete_node apply_delete_edge].
Lemma cur_apply_op op seq st st' l :
  record_loc l = true -> apply_op op seq st = Some st' ->
  cur st' l = match op_write seq op l with Some v => Some v | None => cur st l end.
Proof.
  intros Hl Ha. destruct op as [node|edge|id t|id t| | | |]; cbn [apply_op] in Ha; try (apply (inj Some) in Ha; by subst).
  - destruct (record_loc_cases l Hl) as [[n ->]|[e ->]]; cbn [op_write].
    + rewrite (upsert_cur_record node seq st st' Ha). by case_decide.
    + rewrite (cur_upsert_node node seq st st') by done. rewrite !decide_False by naive_solver.
      destruct (label_writes_other node node (labels_of node) (LEdge e)) as [-> _]; [done|].
      destruct (current_node st (nr_id node)) as [old|]; [|done].
      by destruct (label_writes_other old node (labels_of old) (LEdge e)) as (_ & -> & _).
  - destruct (record_loc_cases l Hl) as [[n ->]|[e ->]]; cbn [op_write].
    + by apply (upsert_edge_node_cells edge seq).
    + rewrite (upsert_edge_record edge seq st st' Ha). by case_decide.
  - destruct (record_loc_cases l Hl) as [[n ->]|[e ->]]; cbn [op_write].
    + case_decide as E; [subst; rewrite (cur_delete_node id t seq st st' _ Ha) by done; by rewrite decide_True|].
      by apply (delete_cur_other id t seq st st' Ha).
    + rewrite (cur_delete_node id t seq st st') by done. rewrite !decide_False by naive_solver.
      destruct (current_node st id) as [old|]; [|done].
      by destruct (label_writes_other old old (labels_of old) (LEdge e)) as (_ & _ & ->).
  - destruct (record_loc_cases l Hl) as [[n ->]|[e ->]]; cbn [op_write].
    + by apply (delete_edge_node_cells id t seq).
    + rewrite (delete_edge_record id t seq st st' Ha). by case_decide.
Qed.
Fixpoint last_op (ops : list (Z * WalOp)) (l : Loc) : option Val :=
  match ops with
  | [] => None
  | (seq, op) :: ops => match last_op ops l with Some v => Some v | None => op_write seq op l end
  end.
Lemma cur_apply_ops ops st st' l :
  record_loc l = true -> apply_ops ops st = Some st' ->
  cur st' l = match last_op ops l with Some v => Some v | None => cur st l end.
Proof.
  intros Hl. revert st. induction ops as [|[seq op] ops IH]; intros st E; cbn in E; [by injection E as <-|].
  destruct (apply_op op seq st) as [st1|] eqn:E1; [|done]. rewrite (IH st1 E). cbn [last_op]. destruct (last_op ops l); [done|].
  by apply cur_apply_op.
Qed.
Lemma last_op_app a b l : last_op (a ++ b) l = match last_op b l with Some v => Some v | None => last_op a l end.
Proof. induction a as [|[seq op] a IH]; cbn; [by destruct (last_op b l)|]. rewrite IH. by destruct (last_op b l). Qed.

(** A memtable that applied these operations, and no others. *)
Definition built (ops : list (Z * WalOp)) (st : MemtableState) : Prop :=
  exists st0, fresh st0 /\ sequenced ops /\ apply_ops ops st0 = Some st.
Lemma built_seen ops st s l : built ops st -> record_loc l = true -> seen st s l = last_op (up_to s ops) l.
Proof.
  intros (st0 & Hf & Hseq & Hrun) Hl. destruct (snapshot_state ops st0 st Hf Hseq Hrun s) as (st_s & E & _ & Hv).
  rewrite <- (Hv l), (cur_apply_ops _ _ _ l Hl E). destruct (last_op (up_to s ops) l); [done|]. unfold cur. by rewrite Hf.
Qed.

Definition first_some {A} (l : list (option A)) : option A := foldr (fun o rest => match o with Some a => Some a | None => rest end) None l.
(** Freezing loses nothing: the first memtable that knows a record, newest
    first, knows what the one memtable of the whole run knows. *)
Lemma frozen_last_op parts memtables s l :
  Forall2 built parts memtables -> record_loc l = true ->
  first_some ((fun st => seen st s l) <$> memtables) = last_op (up_to s (mjoin (reverse parts))) l.
Proof.
  intros Hparts Hl. induction Hparts as [|ops st parts memtables Hb _ IH]; [done|].
  rewrite reverse_cons, join_app. cbn [mjoin list_join]. rewrite app_nil_r. unfold up_to. rewrite filter_app, last_op_app.
  fold (up_to s ops) (up_to s (mjoin (reverse parts))). rewrite <- IH, <- (built_seen ops st s l Hb Hl). done.
Qed.
Lemma frozen_seen parts memtables whole s l :
  Forall2 built parts memtables -> built (mjoin (reverse parts)) whole -> record_loc l = true ->
  first_some ((fun st => seen st s l) <$> memtables) = seen whole s l.
Proof. intros Hparts Hwhole Hl. by rewrite (built_seen _ _ s l Hwhole Hl), (frozen_last_op parts). Qed.

Lemma state_at_seen_node st s id : seen st s (LNode id) = VNode <$> state_at (ms_nodes st) s id.
Proof. unfold seen, state_at, record_at. cbn [cell]. rewrite slot_at_map. by destruct (ms_nodes st !! id). Qed.
Lemma state_at_seen_edge st s id : seen st s (LEdge id) = VEdge <$> state_at (ms_edges st) s id.
Proof. unfold seen, state_at, record_at. cbn [cell]. rewrite slot_at_map. by destruct (ms_edges st !! id). Qed.

Lemma first_some_map {A B L} (g : A -> B) (f : L -> option A) (ls : list L) :
  first_some ((fun x => g <$> f x) <$> ls) = g <$> first_some (f <$> ls).
Proof. induction ls as [|x ls IH]; [done|]. rewrite !fmap_cons. cbn. by destruct (f x). Qed.
#[local] Instance VNode_inj : Inj (=) (=) VNode.
Proof. by intros a b [= ->]. Qed.
#[local] Instance VEdge_inj : Inj (=) (=) VEdge.
Proof. by intros a b [= ->]. Qed.
Lemma frozen_node parts memtables whole s id :
  Forall2 built parts memtables -> built (mjoin (reverse parts)) whole ->
  first_some ((fun st => state_at (ms_nodes st) s id) <$> memtables) = state_at (ms_nodes whole) s id.
Proof.
  intros Hp Hw. apply (inj (fmap VNode)). rewrite <- first_some_map, <- state_at_seen_node, <- (frozen_seen parts memtables whole) by done.
  f_equal. apply list_fmap_ext. intros _ st _. by rewrite state_at_seen_node.
Qed.
Lemma frozen_edge parts memtables whole s id :
  Forall2 built parts memtables -> built (mjoin (reverse parts)) whole ->
  first_some ((fun st => state_at (ms_edges st) s id) <$> memtables) = state_at (ms_edges whole) s id.
Proof.
  intros Hp Hw. apply (inj (fmap VEdge)). rewrite <- first_some_map, <- state_at_seen_edge, <- (frozen_seen parts memtables whole) by done.
  f_equal. apply list_fmap_ext. intros _ st _. by rewrite state_at_seen_edge.
Qed.

(** The tombstone marker of a record is there exactly when the record is a
    tombstone. *)
Definition marked (st : MemtableState) (s : Z) : Prop :=
  (forall id, node_deleted_at st id s = true <-> exists t, state_at (ms_nodes st) s id = Some (Tombstone t))
  /\ (forall id, edge_deleted_at st id s = true <-> exists t, state_at (ms_edges st) s id = Some (Tombstone t)).
Lemma member_present v : (exists (u : option unit), v = Some (VMember u)) \/ v = None -> is_member v = true <-> v = present.
Proof. intros [[[[]|] ->]| ->]; split; try done. Qed.
Lemma built_marked ops st s : built ops st -> marked st s.
Proof.
  intros (st0 & Hf & Hseq & Hrun).
  destruct (snapshot_node_inv ops st0 st Hf Hseq Hrun s) as [_ Hn _ _ _], (snapshot_edge_inv ops st0 st Hf Hseq Hrun s) as [_ He _ _ _ _ _ _ _ _].
  split; intros id.
  - rewrite node_deleted_seen, member_present.
    + rewrite Hn, state_at_seen_node. destruct (state_at _ _ _) as [[]|]; cbn; naive_solver.
    + unfold seen. cbn [cell]. rewrite slot_at_map. destruct (ms_node_tombstones st !! id) as [slot|]; [|by right]. cbn. destruct (Slot.at_ slot s); [left; eauto|by right].
  - rewrite edge_deleted_seen, member_present.
    + rewrite He, state_at_seen_edge. destruct (state_at _ _ _) as [[]|]; cbn; naive_solver.
    + unfold seen. cbn [cell]. rewrite slot_at_map. destruct (ms_edge_tombstones st !! id) as [slot|]; [|by right]. cbn. destruct (Slot.at_ slot s); [left; eauto|by right].
Qed.
End Runs.

(** ** The reads of a list of sources *)
Section Reads.
Context {Segment : Type} `{SegmentReads Segment}.
(** Segments hold records, and their batches fill in what they hold for
    lookups in the order of their ids. *)
Class SegmentLaws (node_in : Segment -> Z -> option NodeRecord) (edge_in : Segment -> Z -> option EdgeRecord) : Prop := {
  get_node_law seg id found : get_node seg id = Ok found -> found = node_in seg id;
  get_edge_law seg id found : get_edge seg id = Ok found -> found = edge_in seg id;
  get_nodes_law seg lookups results results' : StronglySorted id_le lookups ->
    get_nodes_batch seg lookups results = Ok results' -> results' = fill (node_in seg) lookups results;
  get_edges_law seg lookups results results' : StronglySorted id_le lookups ->
    get_edges_batch seg lookups results = Ok results' -> results' = fill (edge_in seg) lookups results;
  get_edge_metadata_law seg lookups results results' : StronglySorted id_le lookups ->
    get_edge_metadata_batch seg lookups results = Ok results' ->
    results' = fill (fun id => from_edge <$> edge_in seg id) lookups results;
  get_node_meta_law seg lookups results results' : StronglySorted id_le lookups ->
    get_node_meta_batch seg lookups results = Ok results' ->
    results' = fill (fun id => NodeQuery.visibility_meta <$> node_in seg id) lookups results;
  get_node_fields_law needs seg lookups results results' : StronglySorted id_le lookups ->
    get_node_selected_fields_batch needs seg lookups results = Ok results' ->
    results' = fill (fun id => NodeQuery.selected_node_fields needs <$> node_in seg id) lookups results;
  get_edge_fields_law needs seg lookups results results' : StronglySorted id_le lookups ->
    get_edge_selected_fields_batch needs seg lookups results = Ok results' ->
    results' = fill (fun id => selected_edge_fields needs <$> edge_in seg id) lookups results
}.

(** The layers of one kind of record, and the record they show. *)
Definition layers {R} (slots : MemtableState -> gmap Z (VersionedSlot (RecordState R))) (is_deleted : Segment -> Z -> bool)
    (held : Segment -> Z -> option R) (sl : SourceList) : list (Z -> option (option R)) :=
  ((fun st => state_says (slots st) (snapshot_seq sl) (fun r => r)) <$> (active sl :: immutable sl))
  ++ (segment_says is_deleted held None Some <$> segments sl).
Definition shown {R} (slots : MemtableState -> gmap Z (VersionedSlot (RecordState R))) (is_deleted : Segment -> Z -> bool)
    (held : Segment -> Z -> option R) (sl : SourceList) (id : Z) : option R :=
  default None (layers_say (layers slots is_deleted held sl) id).

Lemma layers_say_app {B} (a b : list (Z -> option B)) id : layers_say (a ++ b) id = first (layers_say a) (layers_say b) id.
Proof.
  induction a as [|f a IH]; [done|]. change (first f (layers_say (a ++ b)) id = first (first f (layers_say a)) (layers_say b) id).
  rewrite first_assoc. unfold first at 1 2. by rewrite IH.
Qed.
Lemma layers_say_map {L B C} (g : B -> C) (f : L -> Z -> option B) (f' : L -> Z -> option C) (ls : list L) id :
  (forall l, l ∈ ls -> f' l id = g <$> f l id) -> layers_say (f' <$> ls) id = g <$> layers_say (f <$> ls) id.
Proof.
  induction ls as [|l ls IH]; intros E; [done|]. rewrite !fmap_cons.
  change (first (f' l) (layers_say (f' <$> ls)) id = g <$> first (f l) (layers_say (f <$> ls)) id).
  unfold first. rewrite E by left. destruct (f l id); [done|]. apply IH. intros l' Hl. apply E. by right.
Qed.

Section Kind.
Context {R : Type} (slots : MemtableState -> gmap Z (VersionedSlot (RecordState R))) (is_deleted : Segment -> Z -> bool)
  (held : Segment -> Z -> option R) (sl : SourceList (Segment := Segment)).
Abbreviation record := (shown slots is_deleted held sl).

(** Layers whose answers are images of the records. *)
Lemma layers_image {B C} (d : B) (h : B -> C) (g : option R -> B) (mem : MemtableState -> Z -> option B) (seg : Segment -> Z -> option B) id :
  h d = h (g None) ->
  (forall st, st ∈ active sl :: immutable sl -> mem st id = g <$> state_says (slots st) (snapshot_seq sl) (fun r => r) id) ->
  (forall s, seg s id = g <$> segment_says is_deleted held None Some s id) ->
  h (default d (first (layers_say (mem <$> (active sl :: immutable sl))) (layers_say (seg <$> segments sl)) id)) = h (g (record id)).
Proof.
  intros Hd Hm Hs. unfold shown, layers. rewrite layers_say_app. unfold first.
  rewrite (layers_say_map g (fun st => state_says (slots st) (snapshot_seq sl) (fun r => r)) mem _ id Hm),
    (layers_say_map g (segment_says is_deleted held None Some) seg _ id (fun s _ => Hs s)).
  destruct (layers_say (_ <$> active sl :: _) id) as [o|]; cbn [fmap option_fmap option_map default]; [done|].
  by destruct (layers_say (_ <$> segments sl) id).
Qed.

(** The memtables' part of a batch read. *)
Lemma memtable_pass_spec {B} (d : B) (mem : MemtableState -> Z -> option B) batch ids :
  (forall st, stage d (mem st) (batch st)) ->
  let out := memtable_pass batch sl (replicate (length ids) d) (enumerate ids) in
  progress d ids (layers_say (mem <$> (active sl :: immutable sl))) (fst out) (snd out).
Proof.
  intros Hs. unfold memtable_pass. pose proof (progress_stage d ids _ _ _ _ _ (Hs (active sl)) (progress_start d ids)) as Hp.
  destruct (batch (active sl) _ _) as [results remaining]. cbn [fst snd] in Hp.
  pose proof (progress_immutable d ids mem batch (immutable sl) _ _ _ Hs Hp) as Hi. cbn zeta in Hi |- *.
  eapply progress_ext; [|exact Hi]. intros id. unfold first. rewrite fmap_cons. cbn. unfold first. done.
Qed.

(** Every kind of batch read is the image of the records shown. *)
Lemma direct_batch {X} (value : R -> X) (mem : MemtableState -> Z -> option (option X)) batch
    (fetch : Segment -> list Lookup -> list (option X) -> res (list (option X))) (expected : Z -> option X) (ids : list Z) :
  (forall st, stage None (mem st) (batch st)) ->
  (forall st id, st ∈ active sl :: immutable sl ->
     mem st id = option_map value <$> state_says (slots st) (snapshot_seq sl) (fun r => r) id) ->
  (forall seg lookups results results', StronglySorted id_le lookups ->
     fetch seg lookups results = Ok results' -> results' = fill (fun id => option_map value (held seg id)) lookups results) ->
  (forall id, expected id = option_map value (record id)) ->
  match (let '(results, remaining) := memtable_pass batch sl (replicate (length ids) None) (enumerate ids) in
         segment_pass is_deleted fetch (segments sl) results (sort_by_id remaining)) with
  | Ok found => found = expected <$> ids
  | Err e => fetch_error fetch e
  end.
Proof.
  intros Hstage Hmem Hfetch He. pose proof (memtable_pass_spec None mem batch ids Hstage) as Hp. cbn zeta in Hp.
  destruct (memtable_pass _ _ _ _) as [results remaining]. cbn [fst snd] in Hp. destruct (sort_by_id_spec remaining) as [Hsort Hperm].
  apply (progress_sort _ _ _ _ _ _ (symmetry Hperm)) in Hp.
  pose proof (segment_pass_spec is_deleted (fun seg id => option_map value (held seg id)) fetch Hfetch ids _ _ _ (segments sl) Hp Hsort) as Hs.
  destruct (segment_pass _ _ _ _ _) as [found|e]; [|done]. rewrite Hs. apply list_fmap_ext. intros _ id _. rewrite He.
  apply (layers_image None (fun o => o) (option_map value)); [done|by intros st; apply Hmem|].
  intros seg. unfold segment_says. destruct (is_deleted seg id); [done|]. by destruct (held seg id).
Qed.
Lemma compact_batch {X B C} (d : B) (h : B -> C) (g : option R -> B) (value : R -> X) (wrap : X -> B) (deleted : option B)
    (mem : MemtableState -> Z -> option B) batch (fetch : Segment -> list Lookup -> list (option X) -> res (list (option X))) (expected : Z -> C) (ids : list Z) :
  h d = h (g None) -> default d deleted = g None -> (forall r, wrap (value r) = g (Some r)) ->
  (forall st, stage d (mem st) (batch st)) ->
  (forall st id, st ∈ active sl :: immutable sl -> mem st id = g <$> state_says (slots st) (snapshot_seq sl) (fun r => r) id) ->
  (forall seg lookups results results', StronglySorted id_le lookups ->
     fetch seg lookups results = Ok results' -> results' = fill (fun id => option_map value (held seg id)) lookups results) ->
  (forall id, expected id = h (g (record id))) ->
  match (let '(results, remaining) := memtable_pass batch sl (replicate (length ids) d) (enumerate ids) in
         compact_pass wrap deleted is_deleted fetch (segments sl) results (sort_by_id remaining)) with
  | Ok found => h <$> found = expected <$> ids
  | Err e => fetch_error fetch e
  end.
Proof.
  intros Hd Hdel Hwrap Hstage Hmem Hfetch He. pose proof (memtable_pass_spec d mem batch ids Hstage) as Hp. cbn zeta in Hp.
  destruct (memtable_pass _ _ _ _) as [results remaining]. cbn [fst snd] in Hp. destruct (sort_by_id_spec remaining) as [Hsort Hperm].
  apply (progress_sort _ _ _ _ _ _ (symmetry Hperm)) in Hp.
  pose proof (compact_pass_spec is_deleted (fun seg id => option_map value (held seg id)) fetch Hfetch d wrap deleted ids _ _ _ (segments sl) Hp Hsort) as Hs.
  destruct (compact_pass _ _ _ _ _ _ _) as [found|e]; [|done]. rewrite Hs, <- list_fmap_compose. apply list_fmap_ext. intros _ id _.
  cbn [compose]. rewrite He. apply (layers_image d h g); [done|by intros st; apply Hmem|].
  intros seg. unfold segment_says. destruct (is_deleted seg id); cbn [fmap option_fmap option_map]; [by rewrite Hdel|].
  destruct (held seg id) as [r|]; [|done]. cbn. by rewrite Hwrap.
Qed.

Lemma field_batch {X} (value : R -> X) (fetch : Segment -> list Lookup -> list (option X) -> res (list (option X))) (ids : list Z) :
  (forall seg lookups results results', StronglySorted id_le lookups ->
     fetch seg lookups results = Ok results' -> results' = fill (fun id => option_map value (held seg id)) lookups results) ->
  match (let '(results, remaining) :=
           memtable_pass (fun st => batch_get (slots st) (snapshot_seq sl) value) sl (replicate (length ids) None) (enumerate ids) in
         compact_pass Some None is_deleted fetch (segments sl) results (sort_by_id remaining)) with
  | Ok found => found = (fun id => option_map value (record id)) <$> ids
  | Err e => fetch_error fetch e
  end.
Proof.
  intros Hfetch.
  pose proof (compact_batch None (fun o => o) (option_map value) value Some None (fun st => state_says (slots st) (snapshot_seq sl) value)
    (fun st => batch_get (slots st) (snapshot_seq sl) value) fetch (fun id => option_map value (record id)) ids) as Hb.
  destruct (let '(results, remaining) := memtable_pass _ _ _ _ in compact_pass _ _ _ _ _ _ _) as [found|e];
    [rewrite list_fmap_id in Hb|]; apply Hb; try done;
    first [intros st; apply batch_get_stage|intros st id _; unfold state_says; by destruct (state_at _ _ _) as [[]|]].
Qed.

(** A point read. *)
Context (get_at : MemtableState -> Z -> Z -> option R) (deleted_at : MemtableState -> Z -> Z -> bool) (get : Segment -> Z -> res (option R)).
Lemma find_by_id_spec id :
  (forall st, st ∈ active sl :: immutable sl ->
     get_at st id (snapshot_seq sl) = match state_at (slots st) (snapshot_seq sl) id with Some (Live r) => Some r | _ => None end
     /\ (deleted_at st id (snapshot_seq sl) = true <-> exists t, state_at (slots st) (snapshot_seq sl) id = Some (Tombstone t))) ->
  (forall seg found, get seg id = Ok found -> found = held seg id) ->
  match find_by_id get_at deleted_at get is_deleted sl id with
  | Ok found => found = record id
  | Err e => exists seg, get seg id = Err e
  end.
Proof.
  intros Hmem Hget. unfold find_by_id, shown, layers. rewrite layers_say_app. unfold first.
  assert (find_in_memtables get_at deleted_at (active sl :: immutable sl) id (snapshot_seq sl)
          = layers_say ((fun st => state_says (slots st) (snapshot_seq sl) (fun r => r)) <$> (active sl :: immutable sl)) id) as ->.
  { revert Hmem. generalize (active sl :: immutable sl). intros memtables. induction memtables as [|st memtables IH]; intros Hmem; [done|].
    rewrite fmap_cons. change (layers_say (?f :: ?l)) with (first f (layers_say l)). cbn [find_in_memtables]. unfold first, state_says at 1.
    destruct (Hmem st ltac:(left)) as [Hg Hd]. rewrite Hg. destruct (state_at (slots st) (snapshot_seq sl) id) as [[r|t]|].
    - done.
    - by rewrite (proj2 Hd) by eauto.
    - destruct (deleted_at st id (snapshot_seq sl)); [by destruct (proj1 Hd eq_refl)|]. apply IH. intros st' Hin. apply Hmem. by right. }
  destruct (layers_say _ id) as [found|]; [done|]. cbn [default].
  induction (segments sl) as [|seg segs IH]; [done|]. rewrite fmap_cons. change (layers_say (?f :: ?l)) with (first f (layers_say l)).
  cbn [find_in_segments]. unfold first, segment_says at 1. destruct (is_deleted seg id); [done|].
  destruct (get seg id) as [found|e] eqn:E; cbn [mbind result_bind]; [|by exists seg].
  apply Hget in E as ->. destruct (held seg id) as [r|]; [done|]. exact IH.
Qed.
End Kind.

(** ** What the reads return *)
Context `{RmpValue, HashOrder}.
Context (node_in : Segment -> Z -> option NodeRecord) (edge_in : Segment -> Z -> option EdgeRecord).
Context `{!SegmentLaws node_in edge_in}.
Abbreviation shown_node := (shown ms_nodes is_node_deleted node_in).
Abbreviation shown_edge := (shown ms_edges is_edge_deleted edge_in).

(** Every read of [sl] is of these records; an error is one of a segment. *)
Record reads (sl : SourceList (Segment := Segment)) (node : Z -> option NodeRecord) (edge : Z -> option EdgeRecord) : Prop := {
  rd_node id : match find_node sl id with Ok found => found = node id | Err e => exists seg, get_node seg id = Err e end;
  rd_edge id : match find_edge sl id with Ok found => found = edge id | Err e => exists seg, get_edge seg id = Err e end;
  rd_nodes ids : match find_nodes sl ids with Ok found => found = node <$> ids | Err e => fetch_error get_nodes_batch e end;
  rd_edges ids : match find_edges sl ids with Ok found => found = edge <$> ids | Err e => fetch_error get_edges_batch e end;
  rd_edge_metadata ids :
    match find_edge_metadata sl ids with
    | Ok found => found = (fun id => option_map from_edge (edge id)) <$> ids
    | Err e => fetch_error get_edge_metadata_batch e
    end;
  rd_visibility ids :
    match find_node_visibility_meta sl ids with
    | Ok states => NodeQuerySpec.live_meta <$> states = (fun id => option_map NodeQuery.visibility_meta (node id)) <$> ids
    | Err e => fetch_error get_node_meta_batch e
    end;
  rd_node_fields ids needs :
    match find_node_projected_fields sl ids needs with
    | Ok found => found = (fun id => option_map (NodeQuery.selected_node_fields needs) (node id)) <$> ids
    | Err e => fetch_error (get_node_selected_fields_batch needs) e
    end;
  rd_edge_fields ids needs :
    match find_edge_projected_fields sl ids needs with
    | Ok found => found = (fun id => option_map (selected_edge_fields needs) (edge id)) <$> ids
    | Err e => fetch_error (get_edge_selected_fields_batch needs) e
    end
}.
Lemma reads_ext node node' edge edge' sl :
  (forall id, node id = node' id) -> (forall id, edge id = edge' id) -> reads sl node edge -> reads sl node' edge'.
Proof.
  intros En Ee [R1 R2 R3 R4 R5 R6 R7 R8]. split.
  - intros id. rewrite <- En. apply R1.
  - intros id. rewrite <- Ee. apply R2.
  - intros ids. rewrite <- (list_fmap_ext _ _ ids (fun _ id _ => En id)). apply R3.
  - intros ids. rewrite <- (list_fmap_ext _ _ ids (fun _ id _ => Ee id)). apply R4.
  - intros ids. specialize (R5 ids). destruct (find_edge_metadata sl ids); [|done]. rewrite R5. apply list_fmap_ext. intros _ id _. by rewrite Ee.
  - intros ids. specialize (R6 ids). destruct (find_node_visibility_meta sl ids); [|done]. rewrite R6. apply list_fmap_ext. intros _ id _. by rewrite En.
  - intros ids needs. specialize (R7 ids needs). destruct (find_node_projected_fields sl ids needs); [|done]. rewrite R7. apply list_fmap_ext. intros _ id _. by rewrite En.
  - intros ids needs. specialize (R8 ids needs). destruct (find_edge_projected_fields sl ids needs); [|done]. rewrite R8. apply list_fmap_ext. intros _ id _. by rewrite Ee.
Qed.
Lemma option_map_id {A} (o : option A) : option_map (fun a => a) o = o.
Proof. by destruct o. Qed.
Lemma node_at_state st s id : node_at st id s = match state_at (ms_nodes st) s id with Some (Live r) => Some r | _ => None end.
Proof. unfold node_at, state_at. destruct (ms_nodes st !! id) as [slot|]; [|done]. cbn. by destruct (record_at slot s) as [[]|]. Qed.
Lemma edge_at_state st s id : edge_at st id s = match state_at (ms_edges st) s id with Some (Live r) => Some r | _ => None end.
Proof. unfold edge_at, state_at. destruct (ms_edges st !! id) as [slot|]; [|done]. cbn. by destruct (record_at slot s) as [[]|]. Qed.
Lemma state_says_map {R A} (slots : gmap Z (VersionedSlot (RecordState R))) s (value : R -> A) id :
  state_says slots s value id = option_map value <$> state_says slots s (fun r => r) id.
Proof. unfold state_says. by destruct (state_at slots s id) as [[]|]. Qed.

Lemma fill_ext {X} (content content' : Z -> option X) lookups results :
  (forall id, content id = content' id) -> fill content lookups results = fill content' lookups results.
Proof. intros E. revert results. induction lookups as [|l lookups IH]; intros results; [done|]. cbn. rewrite E. apply IH. Qed.
Lemma fill_id {X} (content : Z -> option X) lookups results :
  fill (fun id => option_map (fun x => x) (content id)) lookups results = fill content lookups results.
Proof. apply fill_ext. intros id. apply option_map_id. Qed.

Lemma edge_metadata_marked st s id :
  marked st s -> edge_metadata_says s st id = option_map from_edge <$> state_says (ms_edges st) s (fun r => r) id.
Proof.
  intros [_ He]. specialize (He id). unfold edge_metadata_says, get_edge_metadata_at, state_says. rewrite edge_at_state.
  destruct (state_at (ms_edges st) s id) as [[r|t]|]; cbn.
  - done.
  - by rewrite (proj2 He) by eauto.
  - destruct (edge_deleted_at st id s); [by destruct (proj1 He eq_refl)|done].
Qed.
Definition visibility_of (node : option NodeRecord) : NodeQuery.NodeVisibilityState :=
  match node with Some node => NodeQuery.Live (NodeQuery.visibility_meta node) | None => NodeQuery.Deleted end.
Lemma visibility_marked st s id :
  marked st s -> visibility_says s st id = visibility_of <$> state_says (ms_nodes st) s (fun r => r) id.
Proof.
  intros [Hn _]. specialize (Hn id). unfold visibility_says, node_visibility_at, state_says. fold (state_at (ms_nodes st) s id).
  destruct (state_at (ms_nodes st) s id) as [[r|t]|]; [done..|].
  destruct (node_deleted_at st id s); [by destruct (proj1 Hn eq_refl)|done].
Qed.

Lemma marked_reads sl :
  (forall st, st ∈ active sl :: immutable sl -> marked st (snapshot_seq sl)) -> reads sl (shown_node sl) (shown_edge sl).
Proof.
  intros Hmarked. split.
  - intros id. apply find_by_id_spec; [|intros seg found; apply get_node_law]. intros st Hin. destruct (Hmarked st Hin) as [Hn _].
    split; [apply node_at_state|apply Hn].
  - intros id. apply find_by_id_spec; [|intros seg found; apply get_edge_law]. intros st Hin. destruct (Hmarked st Hin) as [_ He].
    split; [apply edge_at_state|apply He].
  - intros ids. apply (direct_batch ms_nodes is_node_deleted node_in sl (fun r => r) (fun st => state_says (ms_nodes st) (snapshot_seq sl) (fun r => r))).
    + intros st. apply batch_get_stage.
    + intros st id _. apply state_says_map.
    + intros seg lookups results results' Hs Hf. rewrite fill_id. by apply get_nodes_law.
    + intros id. by rewrite option_map_id.
  - intros ids. apply (direct_batch ms_edges is_edge_deleted edge_in sl (fun r => r) (fun st => state_says (ms_edges st) (snapshot_seq sl) (fun r => r))).
    + intros st. apply batch_get_stage.
    + intros st id _. apply state_says_map.
    + intros seg lookups results results' Hs Hf. rewrite fill_id. by apply get_edges_law.
    + intros id. by rewrite option_map_id.
  - intros ids. apply (direct_batch ms_edges is_edge_deleted edge_in sl from_edge (edge_metadata_says (snapshot_seq sl))).
    + intros st. apply edge_metadata_stage.
    + intros st id Hin. by apply edge_metadata_marked, Hmarked.
    + apply get_edge_metadata_law.
    + done.
  - intros ids. apply (compact_batch ms_nodes is_node_deleted node_in sl NodeQuery.Missing NodeQuerySpec.live_meta visibility_of
      NodeQuery.visibility_meta NodeQuery.Live (Some NodeQuery.Deleted) (visibility_says (snapshot_seq sl))); try done.
    + intros st. apply visibility_stage.
    + intros st id Hin. by apply visibility_marked, Hmarked.
    + apply get_node_meta_law.
    + intros id. by destruct (shown_node sl id).
  - intros ids needs. apply (field_batch ms_nodes is_node_deleted node_in sl). apply get_node_fields_law.
  - intros ids needs. apply (field_batch ms_edges is_edge_deleted edge_in sl). apply get_edge_fields_law.
Qed.

(** The layers of one run show what its one memtable shows. *)
Definition one_memtable (whole : MemtableState) (sl : SourceList (Segment := Segment)) : SourceList (Segment := Segment) := mkSources whole [] (segments sl) (snapshot_seq sl).
Lemma memtables_say {R} (slots : MemtableState -> gmap Z (VersionedSlot (RecordState R))) s memtables id :
  layers_say ((fun st => state_says (slots st) s (fun r => r)) <$> memtables) id
  = match first_some ((fun st => state_at (slots st) s id) <$> memtables) with
    | Some (Live r) => Some (Some r) | Some (Tombstone _) => Some None | None => None end.
Proof.
  induction memtables as [|st memtables IH]; [done|]. rewrite !fmap_cons.
  change (layers_say (?f :: ?l)) with (first f (layers_say l)). unfold first, state_says at 1. cbn [first_some foldr].
  by destruct (state_at (slots st) s id) as [[]|].
Qed.
Lemma shown_whole {R} (slots : MemtableState -> gmap Z (VersionedSlot (RecordState R))) is_deleted held whole sl id :
  first_some ((fun st => state_at (slots st) (snapshot_seq sl) id) <$> (active sl :: immutable sl))
  = state_at (slots whole) (snapshot_seq sl) id ->
  shown slots is_deleted held sl id = shown slots is_deleted held (one_memtable whole sl) id.
Proof.
  intros E. unfold shown, layers. rewrite !layers_say_app. unfold first.
  assert (layers_say ((fun st => state_says (slots st) (snapshot_seq sl) (fun r => r)) <$> (active sl :: immutable sl)) id
          = layers_say ((fun st => state_says (slots st) (snapshot_seq sl) (fun r => r)) <$> [whole]) id) as ->; [|done].
  revert E. generalize (active sl :: immutable sl). intros memtables E.
  rewrite memtables_say, E. cbn. unfold first, state_says. by destruct (state_at _ _ _) as [[]|].
Qed.

(** Such reads are the sources of a query. *)
Lemma source_list_laws sl node edge :
  reads sl node edge -> (forall id r, node id = Some r -> nr_id r = id) ->
  NodeQuerySpec.NodeSourcesLaws (H := source_list_reads sl) node.
Proof.
  intros [_ _ _ _ _ R6 R7 _] Hid. split; [done|..].
  - intros ids states E. cbn in E. specialize (R6 ids). rewrite E in R6. exact R6.
  - intros ids needs fields E. cbn in E. specialize (R7 ids needs). rewrite E in R7. exact R7.
Qed.

Lemma layered_reads sl parts whole :
  Forall2 built parts (active sl :: immutable sl) -> built (mjoin (reverse parts)) whole ->
  reads sl (shown_node (one_memtable whole sl)) (shown_edge (one_memtable whole sl)).
Proof.
  intros Hparts Hwhole.
  assert (forall st, st ∈ active sl :: immutable sl -> marked st (snapshot_seq sl)) as Hmarked.
  { intros st Hin. apply list_elem_of_lookup_1 in Hin as [i Hi]. destruct (Forall2_lookup_r _ _ _ _ _ Hparts Hi) as (ops & _ & Hb). by apply (built_marked ops). }
  apply (reads_ext (shown_node sl) _ (shown_edge sl)); [..|by apply marked_reads].
  - intros id. apply shown_whole. by apply (frozen_node parts).
  - intros id. apply shown_whole. by apply (frozen_edge parts).
Qed.

(** C8.  Reads of a read view are the reads of one memtable.  Suppose the active
    memtable and the immutable ones were filled by consecutive parts of one run
    of operations.  Then every point read and every batch read over them and the
    segments returns, id by id, in the order asked for and with its
    repetitions, what a single memtable that applied the whole run would show
    over the same segments: freezing loses and reorders nothing, a tombstone
    hides what older layers hold, and the caches and early exits of the batches
    change no answer.  A read fails only with the error of a segment. *)
Theorem layered_reads_exact sl parts whole :
  Forall2 built parts (active sl :: immutable sl) -> built (mjoin (reverse parts)) whole ->
  reads sl (shown_node (one_memtable whole sl)) (shown_edge (one_memtable whole sl)).
Proof. apply layered_reads. Qed.
End Reads.
