(* ===== verification/SourceKeys.v ===== *)
(** Lookups by key and by triple over the layers of a read view
    (src/source_list.rs, and [batch_edges_by_triples_at] of src/memtable.rs):
    the newest layer whose index has the key decides which id is meant; what
    the id is now is asked of all the layers. *)
From S2P Require Import Prelude Types Slots Memtable MemtableReads FilterBase NodeFilter NodeQuery SourceList.
Import SourceList.

(** The place in the request, and the key or triple asked for. *)
Abbreviation KeyLookup := (nat * (Z * str))%type.
Abbreviation TripleLookup := (nat * (Z * Z * Z))%type.

(** [sort_unstable_by] on (label, key), and on triples: the order of equal
    lookups never shows. *)
Definition key_le (a b : KeyLookup) : Prop :=
  fst (snd a) < fst (snd b) \/ fst (snd a) = fst (snd b) /\ bytes_cmp (snd (snd a)) (snd (snd b)) ≠ Gt.
#[export] Instance key_le_dec a b : Decision (key_le a b).
Proof. unfold key_le. apply _. Defined.
Definition triple_le (a b : TripleLookup) : Prop :=
  let '(_, (from, to, label)) := a in
  let '(_, (from', to', label')) := b in
  from < from' \/ from = from' /\ (to < to' \/ to = to' /\ label <= label').
#[export] Instance triple_le_dec a b : Decision (triple_le a b).
Proof. destruct a as [? [[] ?]], b as [? [[] ?]]. unfold triple_le. apply _. Defined.

(** What segments answer about keys and triples: the ids found for a sorted
    list of lookups, with their places. *)
Class SegmentKeys (Segment : Type) : Type := {
  resolve_keys_to_ids : Segment -> list KeyLookup -> res (list (nat * Z));
  segment_edge_by_triple : Segment -> Z -> Z -> Z -> res (option EdgeRecord);
  resolve_triples_batch : Segment -> list TripleLookup -> list (option EdgeRecord)
    -> res (list (option EdgeRecord) * list nat)
}.

Section Keys.
Context {Segment : Type} `{SegmentReads Segment, SegmentKeys Segment}.
Abbreviation Sources := (SourceList (Segment := Segment)).
Implicit Types (self : Sources).

Definition is_node_tombstoned_above_immutable self (node_id : Z) (imm_idx : nat) : bool :=
  node_deleted_at (active self) node_id (snapshot_seq self)
  || existsb (fun epoch => node_deleted_at epoch node_id (snapshot_seq self)) (take imm_idx (immutable self)).
Definition is_edge_tombstoned_above_immutable self (edge_id : Z) (imm_idx : nat) : bool :=
  edge_deleted_at (active self) edge_id (snapshot_seq self)
  || existsb (fun epoch => edge_deleted_at epoch edge_id (snapshot_seq self)) (take imm_idx (immutable self)).
Definition is_edge_tombstoned_above_segment self (edge_id : Z) (seg_idx : nat) : bool :=
  edge_deleted_at (active self) edge_id (snapshot_seq self)
  || existsb (fun epoch => edge_deleted_at epoch edge_id (snapshot_seq self)) (immutable self)
  || existsb (fun seg => is_edge_deleted seg edge_id) (take seg_idx (segments self)).

(** ** Nodes by label and key *)
(** A lookup and the id it may mean. *)
Abbreviation KeyCandidate := (KeyLookup * Z)%type.

(** [retain] over one immutable memtable; [probe] is its key index. *)
Fixpoint retain_keys (probe : Z -> str -> option Z) (tombstoned : Z -> bool) (remaining : list KeyLookup) (candidates : list KeyCandidate)
  : list KeyLookup * list KeyCandidate :=
  match remaining with
  | [] => ([], candidates)
  | (i, (label_id, key)) :: remaining =>
      match probe label_id key with
      | Some node_id =>
          if tombstoned node_id then retain_keys probe tombstoned remaining candidates
          else retain_keys probe tombstoned remaining (candidates ++ [((i, (label_id, key)), node_id)])
      | None =>
          let '(remaining, candidates) := retain_keys probe tombstoned remaining candidates in
          ((i, (label_id, key)) :: remaining, candidates)
      end
  end.
Fixpoint immutable_keys (probe : MemtableState -> Z -> str -> option Z) self (epoch_idx : nat) (epochs : list MemtableState)
    (remaining : list KeyLookup) (candidates : list KeyCandidate) : list KeyLookup * list KeyCandidate :=
  match epochs with
  | [] => (remaining, candidates)
  | epoch :: epochs =>
      match remaining with
      | [] => (remaining, candidates)
      | _ =>
          let '(remaining, candidates) :=
            retain_keys (probe epoch) (fun id => is_node_tombstoned_above_immutable self id epoch_idx) remaining candidates in
          immutable_keys probe self (S epoch_idx) epochs remaining candidates
      end
  end.
(** [keys[orig_idx]] is in range: segments give back places they were given. *)
Fixpoint segment_keys (keys : list (Z * str)) (segs : list Segment) (remaining : list KeyLookup) (candidates : list KeyCandidate)
  : res (list KeyCandidate) :=
  match segs with
  | [] => Ok candidates
  | seg :: segs =>
      match remaining with
      | [] => Ok candidates
      | _ =>
          resolved ← resolve_keys_to_ids seg remaining;
          match resolved with
          | [] => segment_keys keys segs remaining candidates
          | _ =>
              let candidates :=
                candidates ++ ((fun '(orig_idx, node_id) => ((orig_idx, default (0, []) (keys !! orig_idx)), node_id)) <$> resolved) in
              segment_keys keys segs (base.filter (fun l => fst l ∉ fst <$> resolved) remaining) candidates
          end
      end
  end.
(** The candidates of the layers under the active memtable. *)
Definition key_candidates (probe : MemtableState -> Z -> str -> option Z) self (keys : list (Z * str))
    (remaining : list KeyLookup) (candidates : list KeyCandidate) : res (list KeyCandidate) :=
  let '(remaining, candidates) := immutable_keys probe self 0 (immutable self) remaining candidates in
  segment_keys keys (segments self) (merge_sort key_le remaining) candidates.
Definition candidate_ids (candidates : list KeyCandidate) : list Z := NodeQuery.sorted_dedup_u64 (snd <$> candidates).

Fixpoint active_key_records self (lookups : list KeyLookup) (results : list (option NodeRecord)) (remaining : list KeyLookup)
  : list (option NodeRecord) * list KeyLookup :=
  match lookups with
  | [] => (results, remaining)
  | (i, (label_id, key)) :: lookups =>
      match node_by_key_at (active self) label_id key (snapshot_seq self) with
      | Some node => active_key_records self lookups (<[i := Some node]> results) remaining
      | None => active_key_records self lookups results (remaining ++ [(i, (label_id, key))])
      end
  end.

(** The labels each candidate is looked up by, and the candidates that are
    live with one of them. *)
Definition candidate_labels (candidates : list KeyCandidate) : gmap Z (list Z) :=
  foldl (fun labels_by_id '((_, (label_id, _)), node_id) =>
    let labels := default [] (labels_by_id !! node_id) in
    <[node_id := if bool_decide (label_id ∈ labels) then labels else labels ++ [label_id]]> labels_by_id) ∅ candidates.
Fixpoint visible_candidates (labels_by_id : gmap Z (list Z)) (states : list (Z * NodeQuery.NodeVisibilityState))
    (visible_ids : list Z) (visible_positions : gmap Z nat) : list Z * gmap Z nat :=
  match states with
  | [] => (visible_ids, visible_positions)
  | (node_id, NodeQuery.Live meta) :: states =>
      if match labels_by_id !! node_id with
         | Some labels => existsb (fun label_id => NodeLabels.contains (NodeQuery.nv_label_ids meta) label_id) labels
         | None => false
         end
      then visible_candidates labels_by_id states (visible_ids ++ [node_id]) (<[node_id := length visible_ids]> visible_positions)
      else visible_candidates labels_by_id states visible_ids visible_positions
  | _ :: states => visible_candidates labels_by_id states visible_ids visible_positions
  end.
Definition settle_record (visible_positions : gmap Z nat) (hydrated : list (option NodeRecord)) (results : list (option NodeRecord))
    (candidate : KeyCandidate) : list (option NodeRecord) :=
  let '((orig_idx, (label_id, key)), node_id) := candidate in
  match visible_positions !! node_id with
  | None => results
  | Some position =>
      match default None (hydrated !! position) with
      | None => results
      | Some node =>
          if NodeLabels.contains (nr_label_ids node) label_id && bool_decide (nr_key node = key)
          then <[orig_idx := Some node]> results else results
      end
  end.

Definition find_nodes_by_label_keys self (keys : list (Z * str)) : res (list (option NodeRecord)) :=
  match keys with
  | [] => Ok []
  | _ =>
      let '(results, remaining) := active_key_records self (imap pair keys) (replicate (length keys) None) [] in
      candidates ← key_candidates (fun st label_id key => nr_id <$> node_by_key_at st label_id key (snapshot_seq self)) self keys remaining [];
      match candidates with
      | [] => Ok results
      | _ =>
          let ids := candidate_ids candidates in
          visibility ← find_node_visibility_meta self ids;
          let '(visible_ids, visible_positions) := visible_candidates (candidate_labels candidates) (zip ids visibility) [] ∅ in
          match visible_ids with
          | [] => Ok results
          | _ =>
              hydrated ← find_nodes self visible_ids;
              Ok (foldl (settle_record visible_positions hydrated) results candidates)
          end
      end
  end.
Definition find_node_by_label_key self (label_id : Z) (key : str) : res (option NodeRecord) :=
  results ← find_nodes_by_label_keys self [(label_id, key)]; Ok (mjoin (last results)).

Fixpoint active_key_ids self (lookups : list KeyLookup) (remaining : list KeyLookup) (candidates : list KeyCandidate)
  : list KeyLookup * list KeyCandidate :=
  match lookups with
  | [] => (remaining, candidates)
  | (i, (label_id, key)) :: lookups =>
      match node_id_by_key_at (active self) label_id key (snapshot_seq self) with
      | Some node_id => active_key_ids self lookups remaining (candidates ++ [((i, (label_id, key)), node_id)])
      | None => active_key_ids self lookups (remaining ++ [(i, (label_id, key))]) candidates
      end
  end.
Definition selected_positions (ids : list Z) (selected : list (option NodeFilter.SelectedNodeFields)) : gmap Z nat :=
  foldl (fun positions '(position, (node_id, fields)) =>
    match fields with Some _ => <[node_id := position]> positions | None => positions end) ∅ (imap pair (zip ids selected)).
Definition settle_id (positions : gmap Z nat) (selected : list (option NodeFilter.SelectedNodeFields)) (results : list (option Z))
    (candidate : KeyCandidate) : list (option Z) :=
  let '((orig_idx, (label_id, key)), node_id) := candidate in
  match positions !! node_id with
  | None => results
  | Some position =>
      match default None (selected !! position) with
      | None => results
      | Some fields =>
          if NodeLabels.contains (NodeFilter.nm_label_ids (NodeFilter.sn_meta fields)) label_id
             && bool_decide (NodeFilter.sn_key fields = Some key)
          then <[orig_idx := Some node_id]> results else results
      end
  end.
Definition key_only : NodeQuery.NodeSelectedFieldNeeds := NodeQuery.mkNeeds true false NodeQuery.NoProps NodeQuery.NoVectors.
Definition find_node_ids_by_label_keys self (keys : list (Z * str)) : res (list (option Z)) :=
  match keys with
  | [] => Ok []
  | _ =>
      let results := replicate (length keys) None in
      let '(remaining, candidates) := active_key_ids self (imap pair keys) [] [] in
      candidates ← key_candidates (fun st label_id key => node_id_by_key_at st label_id key (snapshot_seq self)) self keys remaining candidates;
      match candidates with
      | [] => Ok results
      | _ =>
          let ids := candidate_ids candidates in
          selected ← find_node_projected_fields self ids key_only;
          Ok (foldl (settle_id (selected_positions ids selected) selected) results candidates)
      end
  end.

(** ** Edges by triple *)
Fixpoint triple_in_immutable self (epoch_idx : nat) (epochs : list MemtableState) (from to label_id : Z) : option (option EdgeRecord) :=
  match epochs with
  | [] => None
  | epoch :: epochs =>
      match edge_by_triple_at epoch from to label_id (snapshot_seq self) with
      | Some edge => Some (if is_edge_tombstoned_above_immutable self (er_id edge) epoch_idx then None else Some edge)
      | None => triple_in_immutable self (S epoch_idx) epochs from to label_id
      end
  end.
Fixpoint triple_in_segments self (seg_idx : nat) (segs : list Segment) (from to label_id : Z) : res (option EdgeRecord) :=
  match segs with
  | [] => Ok None
  | seg :: segs =>
      found ← segment_edge_by_triple seg from to label_id;
      match found with
      | Some edge => Ok (if is_edge_tombstoned_above_segment self (er_id edge) seg_idx then None else Some edge)
      | None => triple_in_segments self (S seg_idx) segs from to label_id
      end
  end.
Definition find_edge_by_triple self (from to label_id : Z) : res (option EdgeRecord) :=
  match edge_by_triple_at (active self) from to label_id (snapshot_seq self) with
  | Some edge => Ok (Some edge)
  | None =>
      match triple_in_immutable self 0 (immutable self) from to label_id with
      | Some found => Ok found
      | None => triple_in_segments self 0 (segments self) from to label_id
      end
  end.

(** One memtable's part of a batch; a triple met before is answered from the
    cache ([None]: a miss). *)
Fixpoint batch_edges_by_triples_at (st : MemtableState) (snapshot_seq : Z) (cache : gmap (Z * Z * Z) (option nat))
    (lookups : list TripleLookup) (results : list (option EdgeRecord)) (remaining : list TripleLookup)
  : list (option EdgeRecord) * list TripleLookup :=
  match lookups with
  | [] => (results, remaining)
  | (orig_idx, triple) :: lookups =>
      match cache !! triple with
      | Some (Some cached_idx) =>
          batch_edges_by_triples_at st snapshot_seq cache lookups (<[orig_idx := default None (results !! cached_idx)]> results) remaining
      | Some None => batch_edges_by_triples_at st snapshot_seq cache lookups results (remaining ++ [(orig_idx, triple)])
      | None =>
          let '(from, to, label_id) := triple in
          match edge_by_triple_at st from to label_id snapshot_seq with
          | Some edge =>
              batch_edges_by_triples_at st snapshot_seq (<[triple := Some orig_idx]> cache) lookups (<[orig_idx := Some edge]> results) remaining
          | None =>
              batch_edges_by_triples_at st snapshot_seq (<[triple := None]> cache) lookups results (remaining ++ [(orig_idx, triple)])
          end
      end
  end.
(** The results whose edge a newer layer has deleted are cleared. *)
Definition drop_tombstoned (tombstoned : Z -> bool) (places : list nat) (results : list (option EdgeRecord)) : list (option EdgeRecord) :=
  foldl (fun results orig_idx =>
    match default None (results !! orig_idx) with
    | Some edge => if tombstoned (er_id edge) then <[orig_idx := None]> results else results
    | None => results
    end) results places.
Fixpoint immutable_triples self (epoch_idx : nat) (epochs : list MemtableState) (remaining : list TripleLookup)
    (results : list (option EdgeRecord)) : list (option EdgeRecord) * list TripleLookup :=
  match epochs with
  | [] => (results, remaining)
  | epoch :: epochs =>
      match remaining with
      | [] => (results, remaining)
      | _ =>
          let previous := remaining in
          let '(results, remaining) := batch_edges_by_triples_at epoch (snapshot_seq self) ∅ previous results [] in
          let results := drop_tombstoned (fun id => is_edge_tombstoned_above_immutable self id epoch_idx) (fst <$> previous) results in
          immutable_triples self (S epoch_idx) epochs remaining results
      end
  end.
Fixpoint segment_triples self (seg_idx : nat) (segs : list Segment) (remaining : list TripleLookup) (results : list (option EdgeRecord))
  : res (list (option EdgeRecord)) :=
  match segs with
  | [] => Ok results
  | seg :: segs =>
      match remaining with
      | [] => Ok results
      | _ =>
          '(results, found) ← resolve_triples_batch seg remaining results;
          let results := drop_tombstoned (fun id => is_edge_tombstoned_above_segment self id seg_idx) found results in
          segment_triples self (S seg_idx) segs (base.filter (fun l => fst l ∉ found) remaining) results
      end
  end.
Definition find_edges_by_triples self (triples : list (Z * Z * Z)) : res (list (option EdgeRecord)) :=
  match triples with
  | [] => Ok []
  | _ =>
      let '(results, remaining) :=
        batch_edges_by_triples_at (active self) (snapshot_seq self) ∅ (imap pair triples) (replicate (length triples) None) [] in
      let '(results, remaining) := immutable_triples self 0 (immutable self) remaining results in
      match remaining with
      | [] => Ok results
      | _ => segment_triples self 0 (segments self) (merge_sort triple_le remaining) results
      end
  end.
End Keys.
