(* ===== verification/SourceKeysFacts.v ===== *)
(** Lookups by key and by triple are exact over the layers of a read view, when
    keys and triples were unique among the live records at every freeze: the id
    the newest index names is the only one that can be meant. *)
From S2P Require Import Prelude Types PropertyValue CompoundKey Slots Memtable MemtableCells MemtableFacts MemtableReads MemtableSnapshots MemtableKeys FilterBase NodeFilter NodeQuery NodeQueryFacts SourceList SourceListFacts SourceKeys.
Import SourceList.

(** ** Layers, newest first *)
Section Layers.
Context {R : Type} (P : R -> Prop).
Abbreviation Layer := (Z -> option (option R)).
Implicit Types (L : list Layer) (f : Layer).

(** What the layers show. *)
Definition show L (n : Z) : option R := default None (layers_say L n).
Lemma layers_say_lookup L n v :
  layers_say L n = Some v ->
  exists j f, L !! j = Some f /\ f n = Some v /\ forall i f', (i < j)%nat -> L !! i = Some f' -> f' n = None.
Proof.
  induction L as [|f L IH]; [done|]. change (layers_say (f :: L) n) with (first f (layers_say L) n). unfold first.
  destruct (f n) as [o|] eqn:E.
  - intros [= <-]. exists 0%nat, f. split_and!; [done..|lia].
  - intros (j & f' & Hj & Hf & Hb)%IH. exists (S j), f'. split_and!; [done..|]. intros [|i] g Hi; [by intros [= <-]|]. intros Hg. apply (Hb i g); [lia|done].
Qed.
Lemma layers_say_None L n f i : layers_say L n = None -> L !! i = Some f -> f n = None.
Proof.
  revert i. induction L as [|g L IH]; intros i; [done|]. change (layers_say (g :: L) n) with (first g (layers_say L) n). unfold first.
  destruct (g n) eqn:E; [done|]. intros Hn. destruct i as [|i]; [by intros [= <-]|]. by apply IH.
Qed.
Lemma show_drop L j n :
  (forall i f, (i < j)%nat -> L !! i = Some f -> f n = None) -> show (drop j L) n = show L n.
Proof.
  revert L. induction j as [|j IH]; intros L Hb; [done|]. destruct L as [|f L]; [done|]. cbn [drop]. rewrite IH.
  - unfold show. change (layers_say (f :: L) n) with (first f (layers_say L) n). unfold first. by rewrite (Hb 0%nat f) by (done || lia).
  - intros i g Hi Hg. apply (Hb (S i)); [lia|done].
Qed.

(** No live record of the first [j] layers satisfies [P]. *)
Definition unbound (j : nat) L : Prop := forall i f n r, (i < j)%nat -> L !! i = Some f -> f n = Some (Some r) -> ~ P r.
Definition one (node : Z -> option R) : Prop := forall n m r r', node n = Some r -> node m = Some r' -> P r -> P r' -> n = m.
(** [n] is the only id that can be meant; no id is. *)
Definition settles L (n : Z) : Prop := forall m r, show L m = Some r -> P r -> m = n.
Definition absent L : Prop := forall m r, show L m = Some r -> ~ P r.

Lemma unbound_S j L f : L !! j = Some f -> (forall n r, f n = Some (Some r) -> ~ P r) -> unbound j L -> unbound (S j) L.
Proof.
  intros Hj Hf Hu i g n r Hi Hg. destruct (decide (i = j)) as [->|]; [|apply (Hu i g n r); [lia|done]].
  rewrite Hj in Hg. apply (inj Some) in Hg as <-. apply Hf.
Qed.
Lemma unbound_0 L : unbound 0 L.
Proof. intros i f n r Hi. lia. Qed.
Lemma unbound_absent L : unbound (length L) L -> absent L.
Proof.
  intros Hu m r. unfold show. destruct (layers_say L m) as [v|] eqn:E; [|done]. cbn. intros -> Hp.
  apply layers_say_lookup in E as (j & f & Hj & Hf & _). apply (Hu j f m r); [by apply lookup_lt_Some in Hj|done..].
Qed.
Lemma bound_settles L j f n r :
  one (show (drop j L)) -> unbound j L -> L !! j = Some f -> f n = Some (Some r) -> P r -> settles L n.
Proof.
  intros H1 Hu Hj Hn Hp m r' Hm Hp'. assert (forall i g, (i < j)%nat -> L !! i = Some g -> g m = None) as Hb.
  { unfold show in Hm. destruct (layers_say L m) as [v|] eqn:E; [|done]. cbn in Hm. subst v.
    apply layers_say_lookup in E as (i & g & Hi & Hg & Hb). intros i' g' Hi' Hg'. apply (Hb i' g'); [|done].
    destruct (decide (i < j)%nat) as [Hij|]; [|lia]. exfalso. by apply (Hu i g m r'). }
  assert (show (drop j L) n = Some r) as Hn'.
  { rewrite (drop_S L f j Hj). unfold show. change (layers_say (f :: ?l) n) with (first f (layers_say l) n). unfold first. by rewrite Hn. }
  rewrite <- (show_drop L j m Hb) in Hm. by apply (H1 m n r' r).
Qed.
(** What a newer layer has deleted is not meant, unless bound there. *)
Lemma tombstoned_absent L j i g n :
  unbound j L -> settles L n -> (i < j)%nat -> L !! i = Some g -> g n = Some None -> absent L.
Proof.
  intros Hu Hs Hi Hg Hn m r Hm Hp. assert (m = n) as -> by (by apply (Hs m r)). unfold show in Hm.
  destruct (layers_say L n) as [v|] eqn:E; [|done]. cbn in Hm. subst v. apply layers_say_lookup in E as (i' & g' & Hi' & Hg' & Hb).
  destruct (decide (i < i')%nat) as [Hlt|].
  - specialize (Hb i g Hlt Hg). congruence.
  - apply (Hu i' g' n r); [|done..]. destruct (decide (i' = i)) as [->|]; [|lia]. congruence.
Qed.
End Layers.

Section Keys.
Context {Segment : Type} `{SegmentReads Segment, SegmentKeys Segment}.
Context (node_in : Segment -> Z -> option NodeRecord) (edge_in : Segment -> Z -> option EdgeRecord).

(** ** What segments promise about keys and triples *)
Class SegmentKeyLaws (key_in : Segment -> Z -> str -> option Z) (triple_in : Segment -> Z * Z * Z -> option EdgeRecord) : Prop := {
  key_in_law seg l k :
    match key_in seg l k with
    | Some n => exists r, node_in seg n = Some r /\ l ∈ labels_of r /\ nr_key r = k
    | None => forall n r, node_in seg n = Some r -> l ∈ labels_of r -> nr_key r ≠ k
    end;
  triple_in_law seg t :
    match triple_in seg t with
    | Some r => edge_in seg (er_id r) = Some r /\ triple_of r = t
    | None => forall e r, edge_in seg e = Some r -> triple_of r ≠ t
    end;
  resolve_keys_law seg lookups resolved : StronglySorted key_le lookups -> resolve_keys_to_ids seg lookups = Ok resolved ->
    forall i n, (i, n) ∈ resolved <-> exists l k, (i, (l, k)) ∈ lookups /\ key_in seg l k = Some n;
  edge_by_triple_law seg f t l found : segment_edge_by_triple seg f t l = Ok found -> found = triple_in seg (f, t, l);
  resolve_triples_law seg lookups results results' found : StronglySorted triple_le lookups ->
    resolve_triples_batch seg lookups results = Ok (results', found) ->
    results' = foldl (fun results '(i, t) => match triple_in seg t with Some r => <[i := Some r]> results | None => results end) results lookups
    /\ forall i, i ∈ found <-> exists t, (i, t) ∈ lookups /\ is_Some (triple_in seg t);
  dead_node_law seg id : is_node_deleted seg id = true -> node_in seg id = None;
  dead_edge_law seg id : is_edge_deleted seg id = true -> edge_in seg id = None
}.
Context (key_in : Segment -> Z -> str -> option Z) (triple_in : Segment -> Z * Z * Z -> option EdgeRecord).
Context `{!SegmentLaws node_in edge_in, !SegmentKeyLaws key_in triple_in}.
Context `{RmpValue, HashOrder}.
Abbreviation Sources := (SourceList (Segment := Segment)).
Implicit Types (sl : Sources).
Abbreviation memtables sl := (active sl :: immutable sl).

(** ** Nodes *)
Abbreviation node_layers := (layers ms_nodes is_node_deleted node_in).
Abbreviation shown_node := (shown ms_nodes is_node_deleted node_in).
Definition has_key (l : Z) (k : str) (r : NodeRecord) : Prop := l ∈ labels_of r /\ nr_key r = k.
#[export] Instance has_key_dec l k r : Decision (has_key l k r).
Proof. unfold has_key. apply _. Defined.

(** The key index of every memtable is exact, and at every freeze keys were
    unique. *)
Record node_indexed sl : Prop := {
  nx_marked st : st ∈ memtables sl -> marked st (snapshot_seq sl);
  nx_key st l k r : st ∈ memtables sl ->
    node_by_key_at st l k (snapshot_seq sl) = Some r <-> node_at st (nr_id r) (snapshot_seq sl) = Some r /\ has_key l k r;
  nx_key_id st l k : st ∈ memtables sl ->
    node_id_by_key_at st l k (snapshot_seq sl) = nr_id <$> node_by_key_at st l k (snapshot_seq sl);
  nx_ok n r : shown_node sl n = Some r -> nr_id r = n /\ NodeLabels.wf (nr_label_ids r);
  nx_mem_id st n r : st ∈ memtables sl -> node_at st n (snapshot_seq sl) = Some r -> nr_id r = n;
  nx_unique j : unique_keys (show (drop j (node_layers sl)))
}.

Section Nodes.
Context sl (Hx : node_indexed sl).
Abbreviation s := (snapshot_seq sl).
Abbreviation L := (node_layers sl).

Lemma unique_one l k j : one (has_key l k) (show (drop j L)).
Proof. intros n m r r' Hn Hm [Hl Hk] [Hl' Hk']. apply (nx_unique sl Hx j n m r r' l); [done..|congruence]. Qed.
Lemma mem_layer j st : memtables sl !! j = Some st -> L !! j = Some (state_says (ms_nodes st) s (fun r => r)).
Proof. intros Hj. unfold layers. rewrite lookup_app_l by (rewrite length_fmap; by apply lookup_lt_Some in Hj). rewrite list_lookup_fmap. by rewrite Hj. Qed.
Lemma seg_layer j seg :
  segments sl !! j = Some seg -> L !! (length (memtables sl) + j)%nat = Some (segment_says is_node_deleted node_in None Some seg).
Proof. intros Hj. unfold layers. rewrite lookup_app_r by (rewrite length_fmap; lia). rewrite length_fmap, list_lookup_fmap, Nat.add_comm, Nat.add_sub. by rewrite Hj. Qed.
Lemma mem_live st n r : state_says (ms_nodes st) s (fun r => r) n = Some (Some r) <-> node_at st n s = Some r.
Proof. rewrite node_at_state. unfold state_says. destruct (state_at (ms_nodes st) s n) as [[]|]; naive_solver. Qed.
Lemma seg_live seg n r : segment_says is_node_deleted node_in None Some seg n = Some (Some r) <-> node_in seg n = Some r.
Proof.
  unfold segment_says. pose proof (dead_node_law seg n) as Hd. destruct (is_node_deleted seg n); [|by destruct (node_in seg n); naive_solver].
  rewrite Hd by done. naive_solver.
Qed.
Lemma mem_key_None st l k n r :
  st ∈ memtables sl -> node_by_key_at st l k s = None -> state_says (ms_nodes st) s (fun r => r) n = Some (Some r) -> ~ has_key l k r.
Proof.
  intros Hst Hk Hn%mem_live Hp. pose proof (nx_mem_id sl Hx _ _ _ Hst Hn) as <-.
  assert (node_by_key_at st l k s = Some r) by (by apply (nx_key sl Hx)). congruence.
Qed.
Lemma mem_key_Some st l k r :
  st ∈ memtables sl -> node_by_key_at st l k s = Some r -> state_says (ms_nodes st) s (fun r => r) (nr_id r) = Some (Some r) /\ has_key l k r.
Proof. intros Hst Hk. rewrite mem_live. by apply (nx_key sl Hx) in Hk. Qed.
Lemma seg_key_None seg l k n r :
  key_in seg l k = None -> segment_says is_node_deleted node_in None Some seg n = Some (Some r) -> ~ has_key l k r.
Proof. intros Hk Hn%seg_live [Hl Hkey]. pose proof (key_in_law seg l k) as Hlaw. rewrite Hk in Hlaw. by apply (Hlaw n r). Qed.
Lemma seg_key_Some seg l k n :
  key_in seg l k = Some n -> exists r, segment_says is_node_deleted node_in None Some seg n = Some (Some r) /\ has_key l k r.
Proof. intros Hk. pose proof (key_in_law seg l k) as Hlaw. rewrite Hk in Hlaw. destruct Hlaw as (r & Hn & Hp). exists r. by rewrite seg_live. Qed.

(** Being deleted above an immutable memtable is being a tombstone in a newer layer. *)
Lemma tombstoned_above n e :
  is_node_tombstoned_above_immutable sl n e = true -> (e < length (memtables sl))%nat ->
  exists i g, (i < S e)%nat /\ L !! i = Some g /\ g n = Some None.
Proof.
  intros Ht He. assert (exists i st, (i < S e)%nat /\ memtables sl !! i = Some st /\ node_deleted_at st n s = true) as (i & st & Hi & Hst & Hd).
  { unfold is_node_tombstoned_above_immutable in Ht. apply orb_true_iff in Ht as [Ht|Ht].
    - exists 0%nat, (active sl). split_and!; [lia|done..].
    - apply existsb_exists in Ht as (st & Hin & Hd). apply list_elem_of_In, list_elem_of_lookup in Hin as [i Hi].
      apply lookup_take_Some in Hi as [Hi Hlt]. exists (S i), st. split_and!; [lia|done..]. }
  exists i, (state_says (ms_nodes st) s (fun r => r)). split; [done|]. split; [by apply mem_layer|].
  apply (proj1 (nx_marked sl Hx st (list_elem_of_lookup_2 _ _ _ Hst))) in Hd as [t Hd]. unfold state_says. by rewrite Hd.
Qed.

(** ** The search for candidates *)
Context (keys : list (Z * str)) (answered : nat -> Prop).
Record tracked (j : nat) (remaining : list KeyLookup) (candidates : list (KeyLookup * Z)) : Prop := {
  tr_status i l k : keys !! i = Some (l, k) ->
    answered i \/ (i, (l, k)) ∈ remaining /\ unbound (has_key l k) j L
    \/ (exists n, ((i, (l, k)), n) ∈ candidates /\ settles (has_key l k) L n) \/ absent (has_key l k) L;
  tr_remaining i x : (i, x) ∈ remaining -> keys !! i = Some x;
  tr_candidates i x n : ((i, x), n) ∈ candidates -> keys !! i = Some x
}.
Lemma tracked_none j j' candidates : tracked j [] candidates -> tracked j' [] candidates.
Proof.
  intros [T1 T2 T3]. split; [|done..]. intros i l k Hi. destruct (T1 i l k Hi) as [?|[[Hin _]|?]]; [by left| |by right; right].
  by apply not_elem_of_nil in Hin.
Qed.
(** One layer: the lookups it binds become candidates, or are dropped. *)
Lemma tracked_step j f remaining candidates remaining' candidates' :
  L !! j = Some f ->
  (forall i l k, (i, (l, k)) ∈ remaining ->
     (i, (l, k)) ∈ remaining' /\ (forall n r, f n = Some (Some r) -> ~ has_key l k r)
     \/ exists n r, f n = Some (Some r) /\ has_key l k r
          /\ (((i, (l, k)), n) ∈ candidates' \/ exists i g, (i < j)%nat /\ L !! i = Some g /\ g n = Some None)) ->
  (forall x, x ∈ remaining' -> x ∈ remaining) ->
  (forall x, x ∈ candidates -> x ∈ candidates') ->
  (forall x n, (x, n) ∈ candidates' -> (x, n) ∈ candidates \/ x ∈ remaining) ->
  tracked j remaining candidates -> tracked (S j) remaining' candidates'.
Proof.
  intros Hj Hstep Hr Hc Hc' [T1 T2 T3]. split.
  - intros i l k Hi. destruct (T1 i l k Hi) as [Ha|[[Hin Hu]|[(n & Hn & Hs)|Ha]]]; [by left| | |by right; right; right].
    + right. destruct (Hstep i l k Hin) as [[Hin' Hf]|(n & r & Hf & Hp & Hn)].
      * left. split; [done|]. by apply unbound_S with f.
      * right. assert (settles (has_key l k) L n) as Hs by (by apply (bound_settles _ L j f n r); [apply unique_one|..]).
        destruct Hn as [Hn|(i' & g & Hi' & Hg & Hd)]; [left; by exists n|right].
        by apply (tombstoned_absent _ L j i' g n).
    + right. right. left. exists n. split; [by apply Hc|done].
  - intros i x Hin%Hr. by apply T2.
  - intros i x n [Hin|Hin]%Hc'; [by apply (T3 i x n)|by apply T2].
Qed.

Lemma retain_keys_spec probe tombstoned remaining candidates :
  let out := retain_keys probe tombstoned remaining candidates in
  (forall i l k, (i, (l, k)) ∈ fst out <-> (i, (l, k)) ∈ remaining /\ probe l k = None)
  /\ (forall i l k n, ((i, (l, k)), n) ∈ snd out
        <-> ((i, (l, k)), n) ∈ candidates \/ (i, (l, k)) ∈ remaining /\ probe l k = Some n /\ tombstoned n = false).
Proof.
  revert candidates. induction remaining as [|[i0 [l0 k0]] remaining IH]; intros candidates; cbn [retain_keys].
  { cbn. split; intros *; rewrite ?elem_of_nil; tauto. }
  assert (forall i l k, (i, (l, k)) = (i0, (l0, k0)) \/ (i, (l, k)) ≠ (i0, (l0, k0))) as Hdec by (intros; destruct (decide ((i, (l, k)) = (i0, (l0, k0)))); tauto).
  destruct (probe l0 k0) as [n0|] eqn:Ep; [destruct (tombstoned n0) eqn:Et; [specialize (IH candidates)|specialize (IH (candidates ++ [((i0, (l0, k0)), n0)]))]|specialize (IH candidates)].
  3: destruct (retain_keys probe tombstoned remaining candidates) as [rem cand].
  all: cbn [fst snd] in *; destruct IH as [Hrem Hcand]; split; intros i l k *; rewrite ?Hcand, ?elem_of_cons, ?Hrem, ?elem_of_app, ?list_elem_of_singleton;
    destruct (Hdec i l k) as [[= -> -> ->]|Hne]; rewrite ?Ep; intuition congruence.
Qed.

Context (probe : MemtableState -> Z -> str -> option Z).
Hypothesis probe_ok : forall st l k, st ∈ memtables sl -> probe st l k = nr_id <$> node_by_key_at st l k s.

Lemma immutable_keys_tracked epochs e remaining candidates :
  drop e (immutable sl) = epochs -> tracked (S e) remaining candidates ->
  let out := immutable_keys probe sl e epochs remaining candidates in tracked (length (memtables sl)) (fst out) (snd out).
Proof.
  revert e remaining candidates. induction epochs as [|epoch epochs IH]; intros e remaining candidates Hd HT; cbn [immutable_keys].
  { assert (length (immutable sl) <= e)%nat by (apply (f_equal length) in Hd; rewrite length_drop in Hd; cbn in Hd; lia).
    destruct HT as [T1 T2 T3]. split; [|done..]. intros i l k Hi. destruct (T1 i l k Hi) as [?|[[Hin Hu]|?]]; [by left|right; left|by right; right].
    split; [done|]. intros j f n r Hj. apply (Hu j f n r). cbn [length] in Hj. lia. }
  assert (immutable sl !! e = Some epoch) as He by (rewrite <- (Nat.add_0_r e), <- lookup_drop, Hd; done).
  assert (memtables sl !! S e = Some epoch) as Hm by done.
  destruct remaining as [|x remaining']; [by apply (tracked_none (S e))|]. set (remaining := x :: remaining') in *.
  pose proof (retain_keys_spec (probe epoch) (fun id => is_node_tombstoned_above_immutable sl id e) remaining candidates) as Hr.
  cbv zeta in Hr. destruct (retain_keys (probe epoch) _ remaining candidates) as [rem' cand']. cbn [fst snd] in Hr. destruct Hr as [Hrem Hcand].
  apply IH.
  { rewrite <- (Nat.add_1_r e), <- drop_drop, Hd. done. }
  pose proof (list_elem_of_lookup_2 _ _ _ Hm) as Hin.
  apply (tracked_step (S e) _ remaining candidates rem' cand' (mem_layer _ _ Hm)); [| | | |done].
  - intros i l k Hi. rewrite Hrem. destruct (node_by_key_at epoch l k s) as [r|] eqn:En.
    + right. destruct (mem_key_Some _ _ _ _ Hin En) as [Hl Hp]. exists (nr_id r), r. split_and!; [done..|].
      rewrite Hcand, probe_ok, En by done. cbn. destruct (is_node_tombstoned_above_immutable sl (nr_id r) e) eqn:Et; [right|tauto].
      apply tombstoned_above; [done|]. apply lookup_lt_Some in Hm. cbn [length] in *. lia.
    + left. rewrite probe_ok, En by done. split; [done|]. intros n r. by apply mem_key_None.
  - intros [i [l k]]. rewrite Hrem. tauto.
  - intros [[i [l k]] n]. rewrite Hcand. tauto.
  - intros [i [l k]] n. rewrite Hcand. tauto.
Qed.

Lemma merge_key_sorted remaining : StronglySorted key_le (merge_sort key_le remaining).
Proof.
  apply StronglySorted_merge_sort.
  - intros [i [l k]] [j [l' k']] [m [l'' k'']]. unfold key_le. cbn. intros [?|[-> Hk]] [?|[-> Hk']]; [left; lia|left; lia|left; lia|].
    right. split; [done|]. destruct (bytes_cmp k k') eqn:E1; [|clear Hk|done].
    + apply bytes_cmp_Eq in E1 as ->. done.
    + destruct (bytes_cmp k' k'') eqn:E2; [|clear Hk'|done].
      * apply bytes_cmp_Eq in E2 as ->. by rewrite E1.
      * assert (bytes_lt k k'') as E3 by (by transitivity k'). unfold bytes_lt in E3. by rewrite E3.
  - intros [i [l k]] [j [l' k']]. unfold key_le. cbn. destruct (Z.lt_trichotomy l l') as [?|[->|?]]; [tauto| |tauto].
    rewrite (bytes_cmp_antisym k' k). destruct (bytes_cmp k' k); cbn; [left|right|left]; right; done.
Qed.

Definition key_error (e : EngineError) : Prop := exists seg lookups, resolve_keys_to_ids seg lookups = Err e.
Lemma segment_keys_tracked segs j remaining candidates :
  drop j (segments sl) = segs -> StronglySorted key_le remaining -> tracked (length (memtables sl) + j) remaining candidates ->
  match segment_keys keys segs remaining candidates with
  | Ok candidates => exists remaining, tracked (length L) remaining candidates
  | Err e => key_error e
  end.
Proof.
  revert j remaining candidates. induction segs as [|seg segs IH]; intros j remaining candidates Hd Hs HT; cbn [segment_keys].
  { exists remaining. assert (length (segments sl) <= j)%nat by (apply (f_equal length) in Hd; rewrite length_drop in Hd; cbn in Hd; lia).
    destruct HT as [T1 T2 T3]. split; [|done..]. intros i l k Hi. destruct (T1 i l k Hi) as [?|[[Hin Hu]|?]]; [by left|right; left|by right; right].
    split; [done|]. intros j' f n r Hj'. apply (Hu j' f n r). unfold layers in Hj'. rewrite length_app, !length_fmap in Hj'. lia. }
  assert (segments sl !! j = Some seg) as He by (rewrite <- (Nat.add_0_r j), <- lookup_drop, Hd; done).
  destruct remaining as [|x remaining']; [exists []; by apply (tracked_none (length (memtables sl) + j))|]. set (remaining := x :: remaining') in *.
  destruct (resolve_keys_to_ids seg remaining) as [resolved|e] eqn:Er; cbn [mbind result_bind]; [|by exists seg, remaining].
  pose proof (resolve_keys_law seg remaining resolved Hs Er) as Hlaw.
  assert (drop (S j) (segments sl) = segs) as Hd' by (rewrite <- (Nat.add_1_r j), <- drop_drop, Hd; done).
  set (found := (fun '(orig_idx, node_id) => ((orig_idx, default (0, []) (keys !! orig_idx)), node_id)) <$> resolved).
  set (left := base.filter (fun l => fst l ∉ fst <$> resolved) remaining).
  assert (tracked (length (memtables sl) + S j) left (candidates ++ found)) as HT'.
  { rewrite Nat.add_succ_r. pose proof HT as [T1 T2 T3].
    assert (forall i l k n, ((i, (l, k)), n) ∈ found <-> (i, (l, k)) ∈ remaining /\ key_in seg l k = Some n) as Hfound.
    { intros i l k n. unfold found. rewrite list_elem_of_fmap. split.
      - intros ([i' n'] & [= -> Hkx ->] & Hin). apply Hlaw in Hin as (l' & k' & Hin & Hk). rewrite (T2 _ _ Hin) in Hkx.
        cbn in Hkx. injection Hkx as -> ->. done.
      - intros [Hin Hk]. exists (i, n). rewrite (T2 _ _ Hin). split; [done|]. apply Hlaw. by exists l, k. }
    apply (tracked_step (length (memtables sl) + j) _ remaining candidates left _ (seg_layer _ _ He)); [| | | |done].
    - intros i l k Hi. destruct (key_in seg l k) as [n|] eqn:Ek.
      + right. destruct (seg_key_Some _ _ _ _ Ek) as (r & Hr & Hp). exists n, r. split_and!; [done..|]. left.
        apply elem_of_app. right. by apply Hfound.
      + left. split; [|intros n r; by apply seg_key_None]. unfold left. apply list_elem_of_filter. split; [|done]. cbn [fst].
        intros ([i' n] & -> & Hin)%list_elem_of_fmap. cbn in Hi. apply Hlaw in Hin as (l' & k' & Hin & Hk).
        pose proof (T2 _ _ Hi) as H1'. pose proof (T2 _ _ Hin) as H2'. rewrite H1' in H2'. injection H2' as -> ->. congruence.
    - intros y. unfold left. by intros [_ ?]%list_elem_of_filter.
    - intros y Hy. apply elem_of_app. by left.
    - intros [i [l k]] n [?|Hn]%elem_of_app; [by left|right]. by apply Hfound in Hn as [? _]. }
  assert (StronglySorted key_le left) as Hs' by (by apply sorted_filter).
  destruct resolved as [|y resolved]; [|by apply (IH (S j))].
  apply (IH (S j)); [done|done|]. replace remaining with left; [by rewrite app_nil_r in HT'|].
  unfold left. clear. induction remaining as [|z remaining IH]; [done|]. rewrite filter_cons_True by apply not_elem_of_nil. by f_equal.
Qed.

Lemma key_candidates_tracked remaining candidates :
  tracked 1 remaining candidates ->
  match key_candidates probe sl keys remaining candidates with
  | Ok candidates => exists remaining, tracked (length L) remaining candidates
  | Err e => key_error e
  end.
Proof.
  intros HT. unfold key_candidates. pose proof (immutable_keys_tracked (immutable sl) 0 remaining candidates (drop_0 _) HT) as Hi.
  cbv zeta in Hi. destruct (immutable_keys probe sl 0 (immutable sl) remaining candidates) as [rem cand]. cbn [fst snd] in Hi.
  apply (segment_keys_tracked _ 0); [done|apply merge_key_sorted|]. rewrite Nat.add_0_r.
  destruct Hi as [T1 T2 T3]. split; [|intros i x; rewrite merge_sort_Permutation; apply T2|done].
  intros i l k Hi. rewrite merge_sort_Permutation. by apply T1.
Qed.
(** At the end every lookup is answered, has its one candidate, or has no answer. *)
Lemma tracked_end remaining candidates i l k :
  tracked (length L) remaining candidates -> keys !! i = Some (l, k) ->
  answered i \/ (exists n, ((i, (l, k)), n) ∈ candidates /\ settles (has_key l k) L n) \/ absent (has_key l k) L.
Proof.
  intros [T1 _ _] Hi. destruct (T1 i l k Hi) as [?|[[_ Hu]|?]]; [by left| |by right]. right. right. by apply unbound_absent.
Qed.

(** ** The answers *)
(** [f] of the one live node with the label and key. *)
Definition names {A} (f : NodeRecord -> A) (l : Z) (k : str) (o : option A) : Prop :=
  match o with
  | Some a => exists r, a = f r /\ shown_node sl (nr_id r) = Some r /\ has_key l k r
  | None => absent (has_key l k) L
  end.
Definition sound {A} (f : NodeRecord -> A) (results : list (option A)) : Prop :=
  length results = length keys /\
  forall i l k a, keys !! i = Some (l, k) -> results !! i = Some (Some a) -> names f l k (Some a).
Definition filled {A} (results : list (option A)) (i : nat) : Prop := exists a, results !! i = Some (Some a).

Lemma sound_start {A} (f : NodeRecord -> A) : sound f (replicate (length keys) None).
Proof. split; [by rewrite length_replicate|]. intros i l k a _ Hi. by apply lookup_replicate in Hi as [[=] _]. Qed.
Lemma sound_insert {A} (f : NodeRecord -> A) results i l k r :
  keys !! i = Some (l, k) -> shown_node sl (nr_id r) = Some r -> has_key l k r -> sound f results -> sound f (<[i := Some (f r)]> results).
Proof.
  intros Hi Hs Hp [Hlen Hr]. split; [by rewrite length_insert|]. intros j l' k' a Hj.
  destruct (decide (i = j)) as [->|Hne].
  - rewrite list_lookup_insert_eq by (rewrite Hlen; by apply lookup_lt_Some in Hi). intros [= <-].
    rewrite Hi in Hj. injection Hj as <- <-. by exists r.
  - rewrite list_lookup_insert_ne by done. by apply Hr.
Qed.
(** All lookups settled, the results are the answers. *)
Lemma sound_names {A} (f : NodeRecord -> A) results :
  sound f results ->
  (forall i l k, keys !! i = Some (l, k) -> filled results i \/ absent (has_key l k) L) ->
  Forall2 (fun '(l, k) o => names f l k o) keys results.
Proof.
  intros [Hlen Hr] Hall. apply Forall2_same_length_lookup_2; [done|]. intros i [l k] o Hi Ho.
  destruct o as [a|]; [by apply (Hr i)|]. destruct (Hall i l k Hi) as [[a Ha]|Ha]; [congruence|done].
Qed.

(** Settling the candidates: those live with the key are written, once all of
    them have been looked up. *)
Section Settle.
Context {A : Type} (f : NodeRecord -> A) (settle : list (option A) -> KeyLookup * Z -> list (option A)) (candidates : list (KeyLookup * Z)).
Hypothesis settle_ok : forall results i l k n, ((i, (l, k)), n) ∈ candidates ->
  settle results ((i, (l, k)), n)
  = match shown_node sl n with
    | Some r => if decide (has_key l k r) then <[i := Some (f r)]> results else results
    | None => results
    end.
Lemma settle_all remaining results :
  tracked (length L) remaining candidates -> (forall i, answered i -> filled results i) -> sound f results ->
  Forall2 (fun '(l, k) o => names f l k o) keys (foldl settle results candidates).
Proof.
  intros HT Hans Hsound. pose proof (tr_candidates _ _ _ HT) as Hkeys.
  assert (forall cs results, (forall c, c ∈ cs -> c ∈ candidates) -> sound f results ->
    sound f (foldl settle results cs)
    /\ (forall i, filled results i -> filled (foldl settle results cs) i)
    /\ (forall i l k n r, ((i, (l, k)), n) ∈ cs -> shown_node sl n = Some r -> has_key l k r -> filled (foldl settle results cs) i)) as Hfold.
  { clear results Hans Hsound. intros cs. induction cs as [|[[i [l k]] n] cs IH]; intros results Hsub Hsound; cbn [foldl].
    { split_and!; [done..|]. by intros * ?%not_elem_of_nil. }
    pose proof (Hsub _ ltac:(left)) as Hc. pose proof (Hkeys _ _ _ Hc) as Hi.
    assert (i < length results)%nat as Hlt by (destruct Hsound as [-> _]; by apply lookup_lt_Some in Hi).
    rewrite (settle_ok results i l k n Hc). set (results' := match shown_node sl n with Some _ => _ | None => _ end).
    assert (sound f results' /\ (forall j, filled results j -> filled results' j)
            /\ (forall r, shown_node sl n = Some r -> has_key l k r -> filled results' i)) as (Hs' & Hf' & Hw').
    { unfold results'. destruct (shown_node sl n) as [r|] eqn:Er; [|by split_and!]. destruct (nx_ok sl Hx _ _ Er) as [Hid _].
      case_decide as Hp; [|split_and!; [done..|]; by intros ? [= <-]]. split_and!.
      - apply sound_insert with l k; [done|by rewrite Hid|done..].
      - intros j [a Ha]. destruct (decide (i = j)) as [->|]; [exists (f r); by apply list_lookup_insert_eq|exists a; by rewrite list_lookup_insert_ne].
      - intros r' _ _. exists (f r). by apply list_lookup_insert_eq. }
    destruct (IH results' (fun c Hcs => Hsub c (list_elem_of_further _ _ _ Hcs)) Hs') as (HA & HB & HC). split_and!; [done|auto|].
    intros i' l' k' n' r [[= -> -> -> ->]|Hin]%elem_of_cons Hr Hp; [by apply HB, (Hw' r)|by apply (HC i' l' k' n' r)]. }
  destruct (Hfold candidates results (fun _ Hin => Hin) Hsound) as (HA & HB & HC). apply sound_names; [done|]. intros i l k Hi.
  destruct (tracked_end remaining candidates i l k HT Hi) as [Ha|[(n & Hn & Hset)|Ha]]; [by left; apply HB, Hans| |by right].
  destruct (shown_node sl n) as [r|] eqn:Er; [destruct (decide (has_key l k r)) as [Hp|Hp]|].
  - left. by apply (HC i l k n r).
  - right. intros m r' Hm Hp'. assert (m = n) as -> by by apply (Hset m r'). change (shown_node sl n = Some r') in Hm. congruence.
  - right. intros m r' Hm Hp'. assert (m = n) as -> by by apply (Hset m r'). change (shown_node sl n = Some r') in Hm. congruence.
Qed.
End Settle.
Lemma contains_label r l : NodeLabels.wf (nr_label_ids r) -> NodeLabels.contains (nr_label_ids r) l = true <-> l ∈ labels_of r.
Proof. intros Hwf. apply (NodeLabels.contains_spec _ _ Hwf). Qed.
Lemma has_key_bool n r l k :
  shown_node sl n = Some r -> NodeLabels.contains (nr_label_ids r) l && bool_decide (nr_key r = k) = bool_decide (has_key l k r).
Proof.
  intros Hr. apply eq_true_iff_eq. rewrite andb_true_iff, !bool_decide_eq_true, contains_label by (by apply (nx_ok sl Hx n)). done.
Qed.

Definition read_error (e : EngineError) : Prop :=
  key_error e \/ fetch_error get_node_meta_batch e \/ fetch_error get_nodes_batch e
  \/ fetch_error (get_node_selected_fields_batch key_only) e.
Lemma tracked_start remaining (candidates : list (KeyLookup * Z)) :
  (forall i l k, keys !! i = Some (l, k) -> answered i \/ (i, (l, k)) ∈ remaining /\ node_by_key_at (active sl) l k s = None
     \/ exists n r, ((i, (l, k)), n) ∈ candidates /\ node_by_key_at (active sl) l k s = Some r /\ n = nr_id r) ->
  (forall i x, (i, x) ∈ remaining -> keys !! i = Some x) ->
  (forall i x n, ((i, x), n) ∈ candidates -> keys !! i = Some x) ->
  tracked 1 remaining candidates.
Proof.
  intros Hstatus Hr Hc. assert (active sl ∈ memtables sl) as Hin by left.
  pose proof (mem_layer 0 (active sl) eq_refl) as HL. split; [|done..]. intros i l k Hi.
  destruct (Hstatus i l k Hi) as [?|[[Hin' Hn]|(n & r & Hn & Hr' & ->)]]; [by left|right; left|right; right; left].
  - split; [done|]. apply unbound_S with (state_says (ms_nodes (active sl)) s (fun r => r)); [done| |apply unbound_0].
    intros n r. by apply mem_key_None.
  - exists (nr_id r). split; [done|]. destruct (mem_key_Some _ _ _ _ Hin Hr') as [Hl Hp].
    apply (bound_settles _ L 0 (state_says (ms_nodes (active sl)) s (fun r => r)) _ r); [apply unique_one|apply unbound_0|done..].
Qed.
End Nodes.

Lemma candidate_labels_spec candidates n l :
  l ∈ default [] (candidate_labels candidates !! n) <-> exists i k, ((i, (l, k)), n) ∈ candidates.
Proof.
  unfold candidate_labels. transitivity (l ∈ default [] ((∅ : gmap Z (list Z)) !! n) \/ exists i k, ((i, (l, k)), n) ∈ candidates).
  2: { rewrite lookup_empty. cbn. rewrite elem_of_nil. tauto. }
  generalize (∅ : gmap Z (list Z)). induction candidates as [|[[i0 [l0 k0]] n0] candidates IH]; intros m; cbn [foldl].
  { setoid_rewrite elem_of_nil. naive_solver. }
  rewrite IH. setoid_rewrite elem_of_cons. destruct (decide (n = n0)) as [->|Hne].
  - rewrite lookup_insert_eq. set (ls := default [] (m !! n0)).
    assert (l ∈ (if bool_decide (l0 ∈ ls) then ls else ls ++ [l0]) <-> l ∈ ls \/ l = l0) as Hin.
    { case_bool_decide as Hl; [|rewrite elem_of_app, list_elem_of_singleton; done]. split; [tauto|]. by intros [?| ->]. }
    change (default [] (Some ?x)) with x. rewrite Hin. split.
    + intros [[?| ->]|(i & k & ?)]; [by left|right; exists i0, k0; by left|right; exists i, k; by right].
    + intros [?|(i & k & [[= -> -> ->]|?])]; [tauto|tauto|right; by exists i, k].
  - rewrite lookup_insert_ne by done. split; [intros [?|(i & k & ?)]|intros [?|(i & k & [[= -> -> -> ?]|?])]]; try done; try tauto;
      right; exists i, k; auto.
Qed.
Section Visible.
Context (labels_by_id : gmap Z (list Z)).
Definition visible_label (n : Z) (meta : NodeQuery.NodeVisibilityMeta) : Prop :=
  exists l, l ∈ default [] (labels_by_id !! n) /\ NodeLabels.contains (NodeQuery.nv_label_ids meta) l = true.
Lemma visible_candidates_spec states visible_ids positions :
  (forall n p, positions !! n = Some p -> visible_ids !! p = Some n) ->
  let out := visible_candidates labels_by_id states visible_ids positions in
  (forall n p, snd out !! n = Some p -> fst out !! p = Some n)
  /\ (forall n meta, (n, NodeQuery.Live meta) ∈ states -> visible_label n meta -> is_Some (snd out !! n))
  /\ (forall n, is_Some (positions !! n) -> is_Some (snd out !! n)).
Proof.
  revert visible_ids positions. induction states as [|[n0 state] states IH]; intros visible_ids positions Hpos; cbn [visible_candidates].
  { cbn. split_and!; [done| |done]. by intros * ?%not_elem_of_nil. }
  assert (forall meta, match labels_by_id !! n0 with
                       | Some labels => existsb (fun label_id => NodeLabels.contains (NodeQuery.nv_label_ids meta) label_id) labels
                       | None => false end = true <-> visible_label n0 meta) as Hb.
  { intros meta. unfold visible_label. destruct (labels_by_id !! n0) as [labels|]; cbn [default].
    - rewrite existsb_exists. setoid_rewrite list_elem_of_In. done.
    - setoid_rewrite elem_of_nil. naive_solver. }
  assert (forall cond : bool, cond = true -> let out := visible_candidates labels_by_id states (visible_ids ++ [n0]) (<[n0 := length visible_ids]> positions) in
     (forall n p, snd out !! n = Some p -> fst out !! p = Some n)
     /\ (forall n meta, (n, NodeQuery.Live meta) ∈ states -> visible_label n meta -> is_Some (snd out !! n))
     /\ (forall n, n = n0 \/ is_Some (positions !! n) -> is_Some (snd out !! n))) as Hpush.
  { intros _ _. destruct (IH (visible_ids ++ [n0]) (<[n0 := length visible_ids]> positions)) as (HA & HB & HC).
    - intros n p [[-> <-]|[Hne Hp]]%lookup_insert_Some; [by rewrite lookup_app_r, Nat.sub_diag by lia|].
      apply Hpos in Hp. by apply lookup_app_l_Some.
    - split_and!; [done|done|]. intros n [->|Hn]; apply HC; [rewrite lookup_insert_eq; eauto|by apply lookup_insert_is_Some'; right]. }
  destruct state as [meta| |].
  - pose proof (Hb meta) as Hbm. match type of Hbm with ?b = true <-> _ => destruct b end.
    + destruct (Hpush true eq_refl) as (HA & HB & HC). split_and!; [done| |auto]. intros n meta' [[= -> ->]|Hin]%elem_of_cons Hv; eauto.
    + destruct (IH visible_ids positions Hpos) as (HA & HB & HC). split_and!; [done| |done].
      intros n meta' [[= -> ->]|Hin]%elem_of_cons Hv; [by apply Hbm in Hv|eauto].
  - destruct (IH visible_ids positions Hpos) as (HA & HB & HC). split_and!; [done| |done]. intros n meta' [[=]|Hin]%elem_of_cons Hv; eauto.
  - destruct (IH visible_ids positions Hpos) as (HA & HB & HC). split_and!; [done| |done]. intros n meta' [[=]|Hin]%elem_of_cons Hv; eauto.
Qed.
End Visible.

Section FindNodes.
Context sl (Hx : node_indexed sl) (keys : list (Z * str)).
Abbreviation s := (snapshot_seq sl).

Lemma sources_read : reads sl (shown_node sl) (shown ms_edges is_edge_deleted edge_in sl).
Proof. apply (marked_reads node_in edge_in). apply (nx_marked sl Hx). Qed.

Lemma active_key_records_spec lookups results remaining :
  let out := active_key_records sl lookups results remaining in
  (forall i l k, (i, (l, k)) ∈ snd out <-> (i, (l, k)) ∈ remaining \/ (i, (l, k)) ∈ lookups /\ node_by_key_at (active sl) l k s = None)
  /\ ((forall i x, (i, x) ∈ lookups -> keys !! i = Some x) -> sound sl keys (fun r => r) results ->
      sound sl keys (fun r => r) (fst out)
      /\ (forall i, filled results i -> filled (fst out) i)
      /\ (forall i l k r, (i, (l, k)) ∈ lookups -> node_by_key_at (active sl) l k s = Some r -> filled (fst out) i)).
Proof.
  revert results remaining. induction lookups as [|[i0 [l0 k0]] lookups IH]; intros results remaining; cbn [active_key_records].
  { cbn. split; [intros *; rewrite elem_of_nil; tauto|]. intros _ Hs. split_and!; [done..|]. by intros * ?%not_elem_of_nil. }
  destruct (node_by_key_at (active sl) l0 k0 s) as [r0|] eqn:E.
  - destruct (IH (<[i0 := Some r0]> results) remaining) as [HA HB]. split.
    + intros i l k. rewrite HA, elem_of_cons. split; [tauto|]. intros [?|[[[= -> -> ->]|?] ?]]; [tauto|congruence|tauto].
    + intros Hk Hs. assert (active sl ∈ memtables sl) as Hin by left.
      pose proof (Hk i0 (l0, k0) ltac:(left)) as Hi0. destruct (mem_key_Some sl Hx _ _ _ _ Hin E) as [Hl Hp].
      assert (shown_node sl (nr_id r0) = Some r0) as Hsh.
      { unfold shown, layers. rewrite layers_say_app. rewrite fmap_cons. change (layers_say (?f :: ?x)) with (first f (layers_say x)).
        unfold first. rewrite Hl. done. }
      destruct (HB (fun i x Hin' => Hk i x (list_elem_of_further _ _ _ Hin'))) as (HB1 & HB2 & HB3).
      { by apply (sound_insert sl keys (fun r => r) _ _ l0 k0). }
      assert (filled (<[i0 := Some r0]> results) i0) as Hf.
      { exists r0. apply list_lookup_insert_eq. destruct Hs as [-> _]. by apply lookup_lt_Some in Hi0. }
      split_and!; [done| |].
      * intros i [a Ha]. destruct (decide (i0 = i)) as [->|]; [by apply HB2|]. apply HB2. exists a. by rewrite list_lookup_insert_ne.
      * intros i l k r [[= -> -> ->]|Hin']%elem_of_cons Hr; [by apply HB2|by apply (HB3 i l k r)].
  - destruct (IH results (remaining ++ [(i0, (l0, k0))])) as [HA HB]. split.
    + intros i l k. rewrite HA, elem_of_app, list_elem_of_singleton, elem_of_cons. split.
      * intros [[?|[= -> -> ->]]|?]; tauto.
      * intros [?|[[[= -> -> ->]|?] ?]]; tauto.
    + intros Hk Hs. destruct (HB (fun i x Hin' => Hk i x (list_elem_of_further _ _ _ Hin')) Hs) as (HB1 & HB2 & HB3).
      split_and!; [done..|]. intros i l k r [[= -> -> ->]|Hin']%elem_of_cons Hr; [congruence|by apply (HB3 i l k r)].
Qed.
Lemma numbered i x : (i, x) ∈ imap pair keys <-> keys !! i = Some x.
Proof.
  rewrite list_elem_of_lookup. setoid_rewrite list_lookup_imap. split.
  - intros [j E]. destruct (keys !! j) as [y|] eqn:Ej; [|done]. by injection E as -> ->.
  - intros E. exists i. by rewrite E.
Qed.

Lemma settle_record_ok candidates states hydrated :
  NodeQuerySpec.live_meta <$> states = (fun id => option_map NodeQuery.visibility_meta (shown_node sl id)) <$> candidate_ids candidates ->
  let out := visible_candidates (candidate_labels candidates) (zip (candidate_ids candidates) states) [] ∅ in
  hydrated = shown_node sl <$> fst out ->
  forall results i l k n, ((i, (l, k)), n) ∈ candidates ->
  settle_record (snd out) hydrated results ((i, (l, k)), n)
  = match shown_node sl n with
    | Some r => if decide (has_key l k r) then <[i := Some r]> results else results
    | None => results
    end.
Proof.
  intros Hst out -> results i l k n Hc.
  destruct (visible_candidates_spec (candidate_labels candidates) (zip (candidate_ids candidates) states) [] ∅) as (HA & HB & _);
    [by intros n' p ?%lookup_empty_Some|]. fold out in HA, HB. cbn [settle_record].
  assert (n ∈ candidate_ids candidates) as Hn.
  { unfold candidate_ids. apply NodeQueryFacts.sorted_dedup_spec. by apply (list_elem_of_fmap_2 snd) in Hc. }
  apply list_elem_of_lookup in Hn as [p Hp]. pose proof (f_equal (fun x => x !! p) Hst) as Hsp. cbv beta in Hsp.
  rewrite !list_lookup_fmap, Hp in Hsp. destruct (states !! p) as [state|] eqn:Es; [|done].
  cbn [fmap option_fmap option_map] in Hsp. apply (inj Some) in Hsp.
  assert ((n, state) ∈ zip (candidate_ids candidates) states) as Hz.
  { apply list_elem_of_lookup. exists p. apply lookup_zip_with_Some. by exists n, state. }
  destruct (snd out !! n) as [q|] eqn:Eq.
  - rewrite list_lookup_fmap, (HA n q Eq). change (shown_node sl <$> Some n) with (Some (shown_node sl n)). destruct (shown_node sl n) as [r|] eqn:Er; [cbn [default from_option id]|cbn; done].
    rewrite (has_key_bool sl Hx n) by done. rewrite <- decide_bool_decide. by case_decide.
  - destruct (shown_node sl n) as [r|] eqn:Er; [|done]. rewrite decide_False; [done|]. intros [Hl Hk].
    destruct state as [meta| |]; [|done..]. cbn in Hsp. injection Hsp as ->.
    destruct (HB n (NodeQuery.visibility_meta r) Hz) as [q Hq]; [|congruence].
    exists l. split; [apply candidate_labels_spec; by exists i, k|]. cbn. apply contains_label; [|done]. by apply (nx_ok sl Hx n).
Qed.

Lemma settle_nothing {A} (f : NodeRecord -> A) j remaining results :
  tracked sl keys (filled results) (length (node_layers sl)) remaining j -> sound sl keys f results -> j = [] ->
  Forall2 (fun '(l, k) o => names sl f l k o) keys results.
Proof.
  intros HT Hs ->. apply (settle_all sl Hx keys (filled results) f (fun results _ => results) []) with remaining; try done.
  by intros * ?%not_elem_of_nil.
Qed.

(** Every key is answered by the one live node that has it. *)
Lemma find_nodes_by_label_keys_spec :
  match find_nodes_by_label_keys sl keys with
  | Ok results => Forall2 (fun '(l, k) o => names sl (fun r => r) l k o) keys results
  | Err e => read_error e
  end.
Proof.
  unfold find_nodes_by_label_keys. destruct (decide (keys = [])) as [Ek|Hne]; [rewrite Ek; constructor|].
  assert (forall X (a b : X), match keys with [] => a | _ => b end = b) as -> by (intros; by destruct keys).
  pose proof (active_key_records_spec (imap pair keys) (replicate (length keys) None) []) as Hact. cbv zeta in Hact.
  destruct (active_key_records sl (imap pair keys) (replicate (length keys) None) []) as [results remaining]. cbn [fst snd] in Hact.
  destruct Hact as [Hrem Hres]. destruct (Hres (fun i x => proj1 (numbered i x)) (sound_start sl keys _)) as (Hsound & _ & Hfill).
  assert (tracked sl keys (filled results) 1 remaining []) as HT.
  { apply tracked_start; [done|..].
    - intros i l k Hi%numbered. destruct (node_by_key_at (active sl) l k s) as [r|] eqn:E; [left; by apply (Hfill i l k r)|].
      right. left. split; [|done]. apply Hrem. by right.
    - intros i [l k] [Hin|[Hin _]]%Hrem; [by apply not_elem_of_nil in Hin|by apply numbered].
    - by intros * ?%not_elem_of_nil. }
  pose proof (key_candidates_tracked sl Hx keys (filled results) (fun st label_id key => nr_id <$> node_by_key_at st label_id key s)
    ltac:(done) remaining [] HT) as Hcand.
  destruct (key_candidates _ sl keys remaining []) as [candidates|e]; cbn [mbind result_bind]; [|by left].
  destruct Hcand as [rem' HT']. pose proof sources_read as Hreads.
  destruct candidates as [|c cs]; [by apply (settle_nothing _ [] rem')|]. set (candidates := c :: cs) in *.
  pose proof (rd_visibility _ _ _ Hreads (candidate_ids candidates)) as Hvis.
  destruct (find_node_visibility_meta sl (candidate_ids candidates)) as [states|e]; cbn [mbind result_bind]; [|by right; left].
  pose proof (settle_record_ok candidates states (shown_node sl <$> fst (visible_candidates (candidate_labels candidates) (zip (candidate_ids candidates) states) [] ∅)) Hvis eq_refl) as Hsettle.
  destruct (visible_candidates (candidate_labels candidates) (zip (candidate_ids candidates) states) [] ∅) as [visible_ids positions] eqn:Ev.
  cbn [fst snd] in Hsettle.
  destruct visible_ids as [|v vs].
  { pose proof (settle_all sl Hx keys (filled results) (fun r => r) (settle_record positions []) candidates Hsettle rem' results HT' (fun _ H => H) Hsound) as Hall.
    replace results with (foldl (settle_record positions []) results candidates); [done|].
    assert (forall c results, settle_record positions [] results c = results) as Hskip.
    { intros [[i [l k]] n] rs. cbn [settle_record]. by destruct (positions !! n). }
    clear -Hskip. generalize candidates. intros l. induction l as [|x l IH]; [done|]. cbn [foldl]. by rewrite Hskip. }
  pose proof (rd_nodes _ _ _ Hreads (v :: vs)) as Hnodes.
  destruct (find_nodes sl (v :: vs)) as [hydrated|e]; cbn [mbind result_bind]; [|by right; right; left].
  subst hydrated. by apply (settle_all sl Hx keys (filled results) (fun r => r) _ candidates Hsettle rem').
Qed.

Lemma find_node_by_label_key_spec l k :
  keys = [(l, k)] ->
  match find_node_by_label_key sl l k with
  | Ok found => names sl (fun r => r) l k found
  | Err e => read_error e
  end.
Proof.
  intros Ek. unfold find_node_by_label_key. pose proof find_nodes_by_label_keys_spec as Hs. rewrite Ek in Hs.
  destruct (find_nodes_by_label_keys sl [(l, k)]) as [results|e]; [|done]. cbn [mbind result_bind].
  apply Forall2_cons_inv_l in Hs as (o & rest & Ho & ->%Forall2_nil_inv_l & ->). done.
Qed.

(** ** The ids alone *)
Lemma active_key_ids_spec lookups remaining candidates :
  let out := active_key_ids sl lookups remaining candidates in
  (forall i l k, (i, (l, k)) ∈ fst out <-> (i, (l, k)) ∈ remaining \/ (i, (l, k)) ∈ lookups /\ node_by_key_at (active sl) l k s = None)
  /\ (forall i l k n, ((i, (l, k)), n) ∈ snd out <-> ((i, (l, k)), n) ∈ candidates
        \/ (i, (l, k)) ∈ lookups /\ nr_id <$> node_by_key_at (active sl) l k s = Some n).
Proof.
  revert remaining candidates. induction lookups as [|[i0 [l0 k0]] lookups IH]; intros remaining candidates; cbn [active_key_ids].
  { cbn. split; intros *; rewrite elem_of_nil; tauto. }
  assert (node_id_by_key_at (active sl) l0 k0 s = nr_id <$> node_by_key_at (active sl) l0 k0 s) as -> by (apply (nx_key_id sl Hx); left).
  assert (forall i l k, (i, (l, k)) = (i0, (l0, k0)) \/ (i, (l, k)) ≠ (i0, (l0, k0))) as Hdec
    by (intros i l k; destruct (decide ((i, (l, k)) = (i0, (l0, k0)))); tauto).
  destruct (node_by_key_at (active sl) l0 k0 s) as [r0|] eqn:E; cbn [fmap option_fmap option_map];
    [destruct (IH remaining (candidates ++ [((i0, (l0, k0)), nr_id r0)])) as [HA HB]
    |destruct (IH (remaining ++ [(i0, (l0, k0))]) candidates) as [HA HB]];
    (split; intros i l k *; [rewrite HA|rewrite HB]; rewrite ?elem_of_app, ?list_elem_of_singleton, elem_of_cons;
     destruct (Hdec i l k) as [[= -> -> ->]|Hne]; rewrite ?E; cbn [fmap option_fmap option_map]; intuition congruence).
Qed.
Lemma selected_positions_spec (ids : list Z) (selected : list (option NodeFilter.SelectedNodeFields)) :
  length selected = length ids ->
  (forall n p, selected_positions ids selected !! n = Some p -> ids !! p = Some n)
  /\ forall p n fields, ids !! p = Some n -> selected !! p = Some (Some fields) -> is_Some (selected_positions ids selected !! n).
Proof.
  intros Hlen. unfold selected_positions.
  assert (forall l (m : gmap Z nat), let out := foldl (fun positions '(position, (node_id, fields)) =>
      match fields with Some _ => <[node_id := position]> positions | None => positions end) m l in
    (forall n p, out !! n = Some p -> m !! n = Some p \/ exists fields : option NodeFilter.SelectedNodeFields, (p, (n, fields)) ∈ l)
    /\ (forall n, is_Some (m !! n) -> is_Some (out !! n))
    /\ (forall n p fields, (p, (n, Some fields)) ∈ l -> is_Some (out !! n))) as Hfold.
  { intros l. induction l as [|[p0 [n0 f0]] l IH]; intros m; cbn [foldl].
    { split_and!; [by left|done|]. by intros * ?%not_elem_of_nil. }
    destruct (IH (match f0 with Some _ => <[n0 := p0]> m | None => m end)) as (HA & HB & HC). split_and!.
    - intros n p [Hp|(f & Hin)]%HA; [|right; exists f; by right]. destruct f0 as [f|]; [|by left].
      apply lookup_insert_Some in Hp as [[-> ->]|[_ Hp]]; [right; exists (Some f); left|by left].
    - intros n Hn. apply HB. destruct f0; [by apply lookup_insert_is_Some'; right|done].
    - intros n p f [[= -> -> <-]|Hin]%elem_of_cons; [|by apply (HC n p f)]. apply HB. rewrite lookup_insert_eq. eauto. }
  destruct (Hfold (imap pair (zip ids selected)) ∅) as (HA & _ & HC).
  assert (forall p n f, (p, (n, f)) ∈ imap pair (zip ids selected) <-> ids !! p = Some n /\ selected !! p = Some f) as Hz.
  { intros p n f. rewrite list_elem_of_lookup. setoid_rewrite list_lookup_imap. split.
    - intros [j E]. destruct (zip ids selected !! j) as [[n' f']|] eqn:Ej; [|done]. cbn in E. injection E as -> -> ->.
      apply lookup_zip_with_Some in Ej as (? & ? & [= -> ->] & ? & ?). done.
    - intros [Hi Hf]. exists p. assert (zip ids selected !! p = Some (n, f)) as ->; [|done]. apply lookup_zip_with_Some. by exists n, f. }
  split.
  - intros n p [Hp|(f & Hin)]%HA; [by apply lookup_empty_Some in Hp|]. by apply Hz in Hin as [? _].
  - intros p n f Hi Hf. apply (HC n p f). by apply Hz.
Qed.

Lemma find_node_ids_by_label_keys_spec :
  match find_node_ids_by_label_keys sl keys with
  | Ok results => Forall2 (fun '(l, k) o => names sl nr_id l k o) keys results
  | Err e => read_error e
  end.
Proof.
  unfold find_node_ids_by_label_keys. destruct (decide (keys = [])) as [Ek|Hne]; [rewrite Ek; constructor|].
  assert (forall X (a b : X), match keys with [] => a | _ => b end = b) as -> by (intros; by destruct keys).
  pose proof (active_key_ids_spec (imap pair keys) [] []) as Hact. cbv zeta in Hact.
  destruct (active_key_ids sl (imap pair keys) [] []) as [remaining candidates0]. cbn [fst snd] in Hact. destruct Hact as [Hrem Hcands].
  pose proof (sound_start sl keys nr_id) as Hsound. set (results := replicate (length keys) None) in *.
  assert (tracked sl keys (filled results) 1 remaining candidates0) as HT.
  { apply tracked_start; [done|..].
    - intros i l k Hi%numbered. right. destruct (node_by_key_at (active sl) l k s) as [r|] eqn:E.
      + right. exists (nr_id r), r. split_and!; [|done..]. apply Hcands. right. by rewrite E.
      + left. split; [|done]. apply Hrem. by right.
    - intros i [l k] [Hin|[Hin _]]%Hrem; [by apply not_elem_of_nil in Hin|by apply numbered].
    - intros i [l k] n [Hin|[Hin _]]%Hcands; [by apply not_elem_of_nil in Hin|by apply numbered]. }
  pose proof (key_candidates_tracked sl Hx keys (filled results) (fun st label_id key => node_id_by_key_at st label_id key s)
    (fun st l k Hst => nx_key_id sl Hx st l k Hst) remaining candidates0 HT) as Hcand.
  destruct (key_candidates _ sl keys remaining candidates0) as [candidates|e]; cbn [mbind result_bind]; [|by left].
  destruct Hcand as [rem' HT'].
  destruct candidates as [|c cs]; [by apply (settle_nothing _ [] rem')|]. set (candidates := c :: cs) in *.
  pose proof (rd_node_fields _ _ _ sources_read (candidate_ids candidates) key_only) as Hsel.
  destruct (find_node_projected_fields sl (candidate_ids candidates) key_only) as [selected|e]; cbn [mbind result_bind]; [|by right; right; right].
  destruct (selected_positions_spec (candidate_ids candidates) selected) as [HA HB]; [subst selected; apply length_fmap|].
  apply (settle_all sl Hx keys (filled results) nr_id _ candidates) with rem'; [|done..].
  intros rs i l k n Hc. cbn [settle_id].
  destruct (selected_positions (candidate_ids candidates) selected !! n) as [p|] eqn:Ep.
  - rewrite Hsel, list_lookup_fmap, (HA n p Ep). cbn [fmap option_fmap]. change (option_map ?f (Some ?x)) with (Some (f x)). cbn [default from_option id].
    destruct (shown_node sl n) as [r|] eqn:Er; [|done]. cbn.
    replace (bool_decide (Some (nr_key r) = Some k)) with (bool_decide (nr_key r = k)) by (apply bool_decide_ext; split; congruence).
    rewrite (has_key_bool sl Hx n) by done. destruct (nx_ok sl Hx n r Er) as [-> _]. rewrite <- decide_bool_decide. by case_decide.
  - destruct (shown_node sl n) as [r|] eqn:Er; [|done]. rewrite decide_False; [done|]. intros [Hl Hk].
    assert (n ∈ candidate_ids candidates) as Hn.
    { unfold candidate_ids. apply NodeQueryFacts.sorted_dedup_spec. by apply (list_elem_of_fmap_2 snd) in Hc. }
    apply list_elem_of_lookup in Hn as [p Hp].
    destruct (HB p n (NodeQuery.selected_node_fields key_only r) Hp) as [q Hq]; [|congruence].
    rewrite Hsel, list_lookup_fmap, Hp. cbn [fmap option_fmap option_map]. by rewrite Er.
Qed.
End FindNodes.

(** ** Edges *)
Abbreviation edge_layers := (layers ms_edges is_edge_deleted edge_in).
Abbreviation shown_edge := (shown ms_edges is_edge_deleted edge_in).
Definition has_triple (t : Z * Z * Z) (r : EdgeRecord) : Prop := triple_of r = t.
Abbreviation at_triple st t s := (edge_by_triple_at st (fst (fst t)) (snd (fst t)) (snd t) s).

(** The triple index of every memtable is exact, triples were unique at every
    freeze, and the versions of an edge in the layers have one triple. *)
Record edge_indexed sl : Prop := {
  ex_marked st : st ∈ memtables sl -> marked st (snapshot_seq sl);
  ex_triple st f t l r : st ∈ memtables sl ->
    edge_by_triple_at st f t l (snapshot_seq sl) = Some r <-> edge_at st (er_id r) (snapshot_seq sl) = Some r /\ triple_of r = (f, t, l);
  ex_mem_id st e r : st ∈ memtables sl -> edge_at st e (snapshot_seq sl) = Some r -> er_id r = e;
  ex_unique j : unique_triples (show (drop j (edge_layers sl)));
  ex_fixed : exists triple_for : Z -> Z * Z * Z, forall j f e r,
    edge_layers sl !! j = Some f -> f e = Some (Some r) -> triple_of r = triple_for e
}.

Section Edges.
Context sl (Hx : edge_indexed sl).
Abbreviation s := (snapshot_seq sl).
Abbreviation L := (edge_layers sl).

(** The one live edge with the triple. *)
Definition means (t : Z * Z * Z) (o : option EdgeRecord) : Prop :=
  match o with Some r => shown_edge sl (er_id r) = Some r /\ triple_of r = t | None => absent (has_triple t) L end.
Definition dead_above (j : nat) (e : Z) : Prop := exists i g, (i < j)%nat /\ L !! i = Some g /\ g e = Some None.

Lemma mem_edge_layer j st : memtables sl !! j = Some st -> L !! j = Some (state_says (ms_edges st) s (fun r => r)).
Proof. intros Hj. unfold layers. rewrite lookup_app_l by (rewrite length_fmap; by apply lookup_lt_Some in Hj). rewrite list_lookup_fmap. by rewrite Hj. Qed.
Lemma seg_edge_layer j seg :
  segments sl !! j = Some seg -> L !! (length (memtables sl) + j)%nat = Some (segment_says is_edge_deleted edge_in None Some seg).
Proof. intros Hj. unfold layers. rewrite lookup_app_r by (rewrite length_fmap; lia). rewrite length_fmap, list_lookup_fmap, Nat.add_comm, Nat.add_sub. by rewrite Hj. Qed.
Lemma mem_edge_live st e r : state_says (ms_edges st) s (fun r => r) e = Some (Some r) <-> edge_at st e s = Some r.
Proof. rewrite edge_at_state. unfold state_says. destruct (state_at (ms_edges st) s e) as [[]|]; naive_solver. Qed.
Lemma mem_edge_dead st e : st ∈ memtables sl -> state_says (ms_edges st) s (fun r => r) e = Some None <-> edge_deleted_at st e s = true.
Proof.
  intros Hst. rewrite (proj2 (ex_marked sl Hx st Hst)). unfold state_says. destruct (state_at (ms_edges st) s e) as [[]|]; naive_solver.
Qed.
Lemma seg_edge_live seg e r : segment_says is_edge_deleted edge_in None Some seg e = Some (Some r) <-> edge_in seg e = Some r.
Proof.
  unfold segment_says. pose proof (dead_edge_law seg e) as Hd. destruct (is_edge_deleted seg e); [|by destruct (edge_in seg e); naive_solver].
  rewrite Hd by done. naive_solver.
Qed.
Lemma seg_edge_dead seg e : segment_says is_edge_deleted edge_in None Some seg e = Some None <-> is_edge_deleted seg e = true.
Proof. unfold segment_says. destruct (is_edge_deleted seg e); [done|]. destruct (edge_in seg e); naive_solver. Qed.

Lemma above_memtables n e : (n <= length (memtables sl))%nat ->
  dead_above n e <-> existsb (fun st => edge_deleted_at st e s) (take n (memtables sl)) = true.
Proof.
  intros Hn. rewrite existsb_exists. split.
  - intros (i & g & Hi & Hg & Hd). destruct (lookup_lt_is_Some_2 (memtables sl) i ltac:(lia)) as [st Hst].
    rewrite (mem_edge_layer i st Hst) in Hg. apply (inj Some) in Hg as <-. exists st. split.
    + apply list_elem_of_In, (list_elem_of_lookup_2 _ i). by apply lookup_take_Some.
    + apply mem_edge_dead; [by apply list_elem_of_lookup_2 in Hst|done].
  - intros (st & Hin & Hd). apply list_elem_of_In, list_elem_of_lookup in Hin as [i Hi]. apply lookup_take_Some in Hi as [Hi Hlt].
    exists i, (state_says (ms_edges st) s (fun r => r)). split_and!; [done|by apply mem_edge_layer|].
    apply mem_edge_dead; [by apply list_elem_of_lookup_2 in Hi|done].
Qed.
Lemma above_immutable e idx : (idx <= length (immutable sl))%nat ->
  is_edge_tombstoned_above_immutable sl e idx = true <-> dead_above (S idx) e.
Proof. intros Hi. rewrite above_memtables by (cbn; lia). done. Qed.
Lemma above_segment e idx :
  is_edge_tombstoned_above_segment sl e idx = true <-> dead_above (length (memtables sl) + idx) e.
Proof.
  unfold is_edge_tombstoned_above_segment. rewrite orb_true_iff.
  assert (edge_deleted_at (active sl) e s || existsb (fun epoch => edge_deleted_at epoch e s) (immutable sl) = true
          <-> dead_above (length (memtables sl)) e) as ->.
  { rewrite above_memtables by done. rewrite firstn_all. done. }
  rewrite existsb_exists. split.
  - intros [(i & g & Hi & Hg)|(seg & Hin & Hd)]; [exists i, g; split; [lia|done]|].
    apply list_elem_of_In, list_elem_of_lookup in Hin as [i Hi]. apply lookup_take_Some in Hi as [Hi Hlt].
    exists (length (memtables sl) + i)%nat, (segment_says is_edge_deleted edge_in None Some seg).
    split_and!; [lia|by apply seg_edge_layer|by apply seg_edge_dead].
  - intros (i & g & Hi & Hg & Hd). destruct (decide (i < length (memtables sl))%nat); [left; by exists i, g|right].
    assert (exists seg, segments sl !! (i - length (memtables sl))%nat = Some seg) as [seg Hseg].
    { apply lookup_lt_is_Some_2. apply lookup_lt_Some in Hg. unfold layers in Hg. rewrite length_app, !length_fmap in Hg. lia. }
    pose proof (seg_edge_layer _ _ Hseg) as Hl. replace (length (memtables sl) + (i - length (memtables sl)))%nat with i in Hl by lia.
    rewrite Hl in Hg. apply (inj Some) in Hg as <-. exists seg. split; [|by apply seg_edge_dead].
    apply list_elem_of_In, (list_elem_of_lookup_2 _ (i - length (memtables sl))). apply lookup_take_Some. split; [done|lia].
Qed.

Lemma triple_one t j : one (has_triple t) (show (drop j L)).
Proof. intros e e' r r' He He' Ht Ht'. apply (ex_unique sl Hx j e e' r r'); [done..|]. unfold has_triple in *. congruence. Qed.
(** The newest layer that has the triple decides. *)
Lemma triple_decided j f t r (dead : bool) :
  L !! j = Some f -> unbound (has_triple t) j L -> f (er_id r) = Some (Some r) -> triple_of r = t ->
  (dead = true <-> dead_above j (er_id r)) -> means t (if dead then None else Some r).
Proof.
  intros Hj Hu Hf Ht Hdead.
  assert (settles (has_triple t) L (er_id r)) as Hs by (by apply (bound_settles _ L j f (er_id r) r); [apply triple_one|..]).
  destruct dead.
  - destruct (proj1 Hdead eq_refl) as (i & g & Hi & Hg & Hd). by apply (tombstoned_absent _ L j i g (er_id r)).
  - split; [|done]. change (shown_edge sl (er_id r)) with (show L (er_id r)). rewrite <- (show_drop L j).
    + rewrite (drop_S L f j Hj). unfold show. change (layers_say (f :: ?l)) with (first f (layers_say l)). unfold first. by rewrite Hf.
    + intros i g Hi Hg. destruct (g (er_id r)) as [[r'|]|] eqn:Eg; [| |done]; exfalso.
      * destruct (ex_fixed sl Hx) as [triple_for Hfix]. apply (Hu i g (er_id r) r' Hi Hg Eg). unfold has_triple.
        by rewrite (Hfix i g (er_id r) r'), <- Ht, (Hfix j f (er_id r) r).
      * assert (false = true); [|done]. apply Hdead. by exists i, g.
Qed.
Lemma mem_triple_None st t e r :
  st ∈ memtables sl -> at_triple st t s = None -> state_says (ms_edges st) s (fun r => r) e = Some (Some r) -> ~ has_triple t r.
Proof.
  intros Hst Ht He%mem_edge_live Hp. pose proof (ex_mem_id sl Hx _ _ _ Hst He) as <-.
  assert (at_triple st t s = Some r) by (apply (ex_triple sl Hx); [done|]; by destruct t as [[]]). congruence.
Qed.
Lemma mem_triple_Some st t r :
  st ∈ memtables sl -> at_triple st t s = Some r -> state_says (ms_edges st) s (fun r => r) (er_id r) = Some (Some r) /\ triple_of r = t.
Proof. intros Hst Ht. rewrite mem_edge_live. apply (ex_triple sl Hx) in Ht; [|done]. by destruct t as [[]]. Qed.
Lemma seg_triple_None seg t e r :
  triple_in seg t = None -> segment_says is_edge_deleted edge_in None Some seg e = Some (Some r) -> ~ has_triple t r.
Proof. intros Ht He%seg_edge_live Hp. pose proof (triple_in_law seg t) as Hlaw. rewrite Ht in Hlaw. by apply (Hlaw e r). Qed.
Lemma seg_triple_Some seg t r :
  triple_in seg t = Some r -> segment_says is_edge_deleted edge_in None Some seg (er_id r) = Some (Some r) /\ triple_of r = t.
Proof. intros Ht. pose proof (triple_in_law seg t) as Hlaw. rewrite Ht in Hlaw. by rewrite seg_edge_live. Qed.

Lemma immutable_triple epochs e f t l :
  drop e (immutable sl) = epochs -> unbound (has_triple (f, t, l)) (S e) L ->
  match triple_in_immutable sl e epochs f t l with
  | Some found => means (f, t, l) found
  | None => unbound (has_triple (f, t, l)) (length (memtables sl)) L
  end.
Proof.
  revert e. induction epochs as [|epoch epochs IH]; intros e Hd Hu; cbn [triple_in_immutable].
  { assert (length (immutable sl) <= e)%nat by (apply (f_equal length) in Hd; rewrite length_drop in Hd; cbn in Hd; lia).
    intros i g n r Hi. apply (Hu i g n r). cbn [length] in Hi. lia. }
  assert (immutable sl !! e = Some epoch) as He by (rewrite <- (Nat.add_0_r e), <- lookup_drop, Hd; done).
  assert (memtables sl !! S e = Some epoch) as Hm by done. pose proof (list_elem_of_lookup_2 _ _ _ Hm) as Hin.
  destruct (edge_by_triple_at epoch f t l s) as [r|] eqn:E.
  - destruct (mem_triple_Some epoch (f, t, l) r Hin E) as [Hl Ht].
    apply (triple_decided (S e) _ _ _ _ (mem_edge_layer _ _ Hm)); [done..|]. apply above_immutable. apply lookup_lt_Some in He. lia.
  - apply IH; [rewrite <- (Nat.add_1_r e), <- drop_drop, Hd; done|].
    apply unbound_S with (1 := mem_edge_layer _ _ Hm); [|done]. intros n r. by apply (mem_triple_None epoch (f, t, l)).
Qed.
Definition triple_error (e : EngineError) : Prop :=
  (exists seg f t l, segment_edge_by_triple seg f t l = Err e) \/ exists seg lookups results, resolve_triples_batch seg lookups results = Err e.
Lemma segments_triple segs j f t l :
  drop j (segments sl) = segs -> unbound (has_triple (f, t, l)) (length (memtables sl) + j) L ->
  match triple_in_segments sl j segs f t l with Ok found => means (f, t, l) found | Err e => triple_error e end.
Proof.
  revert j. induction segs as [|seg segs IH]; intros j Hd Hu; cbn [triple_in_segments].
  { assert (length (segments sl) <= j)%nat by (apply (f_equal length) in Hd; rewrite length_drop in Hd; cbn in Hd; lia).
    apply unbound_absent. intros i g n r Hi. apply (Hu i g n r). unfold layers in Hi. rewrite length_app, !length_fmap in Hi. lia. }
  assert (segments sl !! j = Some seg) as He by (rewrite <- (Nat.add_0_r j), <- lookup_drop, Hd; done).
  destruct (segment_edge_by_triple seg f t l) as [found|e] eqn:E; cbn [mbind result_bind]; [|left; by exists seg, f, t, l].
  apply edge_by_triple_law in E as ->. destruct (triple_in seg (f, t, l)) as [r|] eqn:E.
  - destruct (seg_triple_Some _ _ _ E) as [Hl Ht].
    apply (triple_decided _ _ _ _ _ (seg_edge_layer _ _ He)); [done..|]. apply above_segment.
  - apply IH; [rewrite <- (Nat.add_1_r j), <- drop_drop, Hd; done|]. rewrite Nat.add_succ_r.
    apply unbound_S with (1 := seg_edge_layer _ _ He); [|done]. intros n r. by apply seg_triple_None.
Qed.
Lemma find_edge_by_triple_spec f t l :
  match find_edge_by_triple sl f t l with Ok found => means (f, t, l) found | Err e => triple_error e end.
Proof.
  unfold find_edge_by_triple. assert (active sl ∈ memtables sl) as Hin by left.
  pose proof (mem_edge_layer 0 (active sl) eq_refl) as Hl.
  destruct (edge_by_triple_at (active sl) f t l s) as [r|] eqn:E.
  - destruct (mem_triple_Some (active sl) (f, t, l) r Hin E) as [Hr Ht].
    apply (triple_decided 0 _ _ _ false Hl (unbound_0 _ _) Hr Ht). split; [done|]. intros (i & g & Hi & _). lia.
  - pose proof (immutable_triple (immutable sl) 0 f t l (drop_0 _)) as Hi.
    destruct (triple_in_immutable sl 0 (immutable sl) f t l) as [found|].
    + apply Hi. apply unbound_S with (1 := Hl); [|apply unbound_0]. intros n r. by apply (mem_triple_None (active sl) (f, t, l)).
    + apply segments_triple; [done|]. rewrite Nat.add_0_r. apply Hi.
      apply unbound_S with (1 := Hl); [|apply unbound_0]. intros n r. by apply (mem_triple_None (active sl) (f, t, l)).
Qed.

(** ** Batches of triples *)
Context (triples : list (Z * Z * Z)).
Implicit Types (results : list (option EdgeRecord)) (remaining : list TripleLookup).
Definition placed remaining : Prop := forall i t, (i, t) ∈ remaining -> triples !! i = Some t.
(** A lookup is still open, or its result is final. *)
Definition open_at (j : nat) results remaining (i : nat) (t : Z * Z * Z) : Prop :=
  results !! i = Some None /\ (i, t) ∈ remaining /\ unbound (has_triple t) j L.
Definition final results remaining (i : nat) (t : Z * Z * Z) : Prop :=
  (exists o, results !! i = Some o /\ means t o) /\ (i, t) ∉ remaining.
Record going (j : nat) results remaining : Prop := {
  go_length : length results = length triples;
  go_placed : placed remaining;
  go_status i t : triples !! i = Some t -> open_at j results remaining i t \/ final results remaining i t
}.
Lemma placed_same remaining i t t' : placed remaining -> (i, t) ∈ remaining -> (i, t') ∈ remaining -> t = t'.
Proof. intros Hp Ht%Hp Ht2%Hp. congruence. Qed.

Definition cache_fits (st : MemtableState) (cache : gmap (Z * Z * Z) (option nat)) results : Prop :=
  forall t, match cache !! t with
            | Some (Some c) => exists r, at_triple st t s = Some r /\ results !! c = Some (Some r) /\ triples !! c = Some t
            | Some None => at_triple st t s = None
            | None => True
            end.
Lemma batch_triples_spec st cache lookups results remaining :
  placed lookups -> length results = length triples -> cache_fits st cache results ->
  let out := batch_edges_by_triples_at st s cache lookups results remaining in
  length (fst out) = length triples
  /\ (forall i t, (i, t) ∈ snd out <-> (i, t) ∈ remaining \/ (i, t) ∈ lookups /\ at_triple st t s = None)
  /\ (forall i, fst out !! i = results !! i \/ exists t r, (i, t) ∈ lookups /\ at_triple st t s = Some r /\ fst out !! i = Some (Some r))
  /\ (forall i t r, (i, t) ∈ lookups -> at_triple st t s = Some r -> fst out !! i = Some (Some r)).
Proof.
  revert cache results remaining. induction lookups as [|[i0 t0] lookups IH]; intros cache results remaining Hp Hlen Hc; cbn [batch_edges_by_triples_at].
  { cbn. split_and!; [done|intros *; rewrite elem_of_nil; tauto|by left|by intros * ?%not_elem_of_nil]. }
  assert (placed lookups) as Hp' by (intros i t Hin; apply Hp; by right). pose proof (Hp i0 t0 ltac:(left)) as Hi0.
  assert (i0 < length results)%nat as Hlt by (rewrite Hlen; by apply lookup_lt_Some in Hi0).
  assert (forall r cache', at_triple st t0 s = Some r -> cache_fits st cache' (<[i0 := Some r]> results) ->
    let out := batch_edges_by_triples_at st s cache' lookups (<[i0 := Some r]> results) remaining in
    length (fst out) = length triples
    /\ (forall i t, (i, t) ∈ snd out <-> (i, t) ∈ remaining \/ (i, t) ∈ (i0, t0) :: lookups /\ at_triple st t s = None)
    /\ (forall i, fst out !! i = results !! i \/ exists t r, (i, t) ∈ (i0, t0) :: lookups /\ at_triple st t s = Some r /\ fst out !! i = Some (Some r))
    /\ (forall i t r, (i, t) ∈ (i0, t0) :: lookups -> at_triple st t s = Some r -> fst out !! i = Some (Some r))) as Hhit.
  { intros r cache' Hr Hc' out. destruct (IH cache' (<[i0 := Some r]> results) remaining Hp' ltac:(by rewrite length_insert) Hc') as (HA & HB & HC & HD).
    fold out in HA, HB, HC, HD.
    assert (fst out !! i0 = Some (Some r)) as H0'.
    { destruct (HC i0) as [E|(t & r' & Hin & Hr' & E)]; [rewrite E; by apply list_lookup_insert_eq|].
      apply Hp' in Hin. rewrite Hi0 in Hin. injection Hin as <-. congruence. }
    split_and!; [done| | |].
    - intros i t. rewrite HB, elem_of_cons. split; [tauto|]. intros [?|[[[= -> ->]|?] ?]]; [tauto|congruence|tauto].
    - intros i. destruct (decide (i = i0)) as [->|Hne]; [right; exists t0, r; split_and!; [left|done..]|].
      destruct (HC i) as [E|(t & r' & Hin & Hr' & E)]; [left; by rewrite E, list_lookup_insert_ne|right; exists t, r'; split_and!; [by right|done..]].
    - intros i t r' [[= -> ->]|Hin]%elem_of_cons Hr'; [congruence|by apply (HD i t)]. }
  assert (forall cache', at_triple st t0 s = None -> cache_fits st cache' results ->
    let out := batch_edges_by_triples_at st s cache' lookups results (remaining ++ [(i0, t0)]) in
    length (fst out) = length triples
    /\ (forall i t, (i, t) ∈ snd out <-> (i, t) ∈ remaining \/ (i, t) ∈ (i0, t0) :: lookups /\ at_triple st t s = None)
    /\ (forall i, fst out !! i = results !! i \/ exists t r, (i, t) ∈ (i0, t0) :: lookups /\ at_triple st t s = Some r /\ fst out !! i = Some (Some r))
    /\ (forall i t r, (i, t) ∈ (i0, t0) :: lookups -> at_triple st t s = Some r -> fst out !! i = Some (Some r))) as Hmiss.
  { intros cache' Hn Hc' out. destruct (IH cache' results (remaining ++ [(i0, t0)]) Hp' Hlen Hc') as (HA & HB & HC & HD).
    fold out in HA, HB, HC, HD. split_and!; [done| | |].
    - intros i t. rewrite HB, elem_of_app, list_elem_of_singleton, elem_of_cons. split.
      + intros [[?|[= -> ->]]|[? ?]]; tauto.
      + intros [?|[[[= -> ->]|?] ?]]; tauto.
    - intros i. destruct (HC i) as [E|(t & r' & Hin & Hr' & E)]; [by left|right; exists t, r'; split_and!; [by right|done..]].
    - intros i t r' [[= -> ->]|Hin]%elem_of_cons Hr'; [congruence|by apply (HD i t)]. }
  pose proof (Hc t0) as Hct. destruct (cache !! t0) as [[c|]|] eqn:Ec.
  - destruct Hct as (r & Hr & Hrc & Htc). rewrite Hrc. change (default None (Some ?x)) with x. apply Hhit; [done|].
    intros t. pose proof (Hc t) as Hct. destruct (cache !! t) as [[c'|]|]; [|done..]. destruct Hct as (r' & Hr' & Hrc' & Htc').
    exists r'. split_and!; [done| |done]. destruct (decide (c' = i0)) as [->|Hne]; [|by rewrite list_lookup_insert_ne].
    rewrite Hi0 in Htc'. injection Htc' as <-. rewrite list_lookup_insert_eq by done. congruence.
  - by apply Hmiss.
  - destruct t0 as [[f0 to0] l0]. destruct (edge_by_triple_at st f0 to0 l0 s) as [r|] eqn:Er.
    + apply (Hhit r); [done|]. intros t. destruct (decide (t = (f0, to0, l0))) as [->|Hne].
      * rewrite lookup_insert_eq. exists r. split_and!; [done|by apply list_lookup_insert_eq|done].
      * rewrite lookup_insert_ne by done. pose proof (Hc t) as Hct'. destruct (cache !! t) as [[c'|]|]; [|done..].
        destruct Hct' as (r' & Hr' & Hrc' & Htc'). exists r'. split_and!; [done| |done].
        destruct (decide (c' = i0)) as [->|Hne']; [congruence|by rewrite list_lookup_insert_ne].
    + apply Hmiss; [done|]. intros t. destruct (decide (t = (f0, to0, l0))) as [->|Hne]; [by rewrite lookup_insert_eq|].
      rewrite lookup_insert_ne by done. apply Hc.
Qed.

Lemma drop_tombstoned_spec tombstoned places results :
  length (drop_tombstoned tombstoned places results) = length results
  /\ forall i, drop_tombstoned tombstoned places results !! i
     = match results !! i with
       | Some (Some r) => Some (if bool_decide (i ∈ places) && tombstoned (er_id r) then None else Some r)
       | o => o
       end.
Proof.
  unfold drop_tombstoned. revert results. induction places as [|p places IH]; intros results; cbn [foldl].
  { split; [done|]. intros i. rewrite bool_decide_false by apply not_elem_of_nil. cbn. by destruct (results !! i) as [[]|]. }
  set (results' := match default None (results !! p) with Some _ => _ | None => _ end).
  assert (length results' = length results /\ forall i, results' !! i
     = match results !! i with Some (Some r) => Some (if bool_decide (i = p) && tombstoned (er_id r) then None else Some r) | o => o end) as [Hl Hr].
  { unfold results'. clear results' IH.
    assert (forall o, (o = Some None \/ (exists r, o = Some (Some r) /\ tombstoned (er_id r) = false) \/ o = None) -> results !! p = o -> forall i,
      results !! i = match results !! i with Some (Some r) => Some (if bool_decide (i = p) && tombstoned (er_id r) then None else Some r) | o => o end) as Hsame.
    { intros o Ho Ep i. destruct (decide (i = p)) as [->|Hne].
      - rewrite Ep. destruct Ho as [->|[(r & -> & Et)| ->]]; [done|by rewrite Et, andb_false_r|done].
      - rewrite (bool_decide_false (i = p)) by done. by destruct (results !! i) as [[]|]. }
    destruct (results !! p) as [[r|]|] eqn:Ep.
    2-3: (split; [done|]; eapply Hsame; [|done]; by eauto).
    change (default None (Some (Some r))) with (Some r). cbn match. destruct (tombstoned (er_id r)) eqn:Et.
    2: (split; [done|]; eapply Hsame; [|done]; by eauto).
    split; [apply length_insert|]. intros i. destruct (decide (i = p)) as [->|Hne].
    - rewrite list_lookup_insert_eq by (by apply lookup_lt_Some in Ep). by rewrite Ep, bool_decide_true, Et.
    - rewrite list_lookup_insert_ne, (bool_decide_false (i = p)) by done. by destruct (results !! i) as [[]|]. }
  destruct (IH results') as [HA HB]. split; [congruence|]. intros i. rewrite HB, Hr. destruct (results !! i) as [[r|]|]; [|done..].
  case_bool_decide as E; cbn [andb].
  - subst p. rewrite (bool_decide_true (i ∈ i :: places)) by left. cbn [andb]. destruct (tombstoned (er_id r)) eqn:Et; [done|].
    by rewrite ?andb_false_r, ?Et, ?andb_false_r.
  - replace (bool_decide (i ∈ p :: places)) with (bool_decide (i ∈ places)); [done|]. apply bool_decide_ext. rewrite elem_of_cons. tauto.
Qed.

(** One layer of a batch: [dead] is asked of the places it answered. *)
Lemma going_step j f (says : Z * Z * Z -> option EdgeRecord) tombstoned places results remaining results' remaining' :
  L !! j = Some f ->
  (forall t, match says t with
             | Some r => f (er_id r) = Some (Some r) /\ triple_of r = t
             | None => forall e r, f e = Some (Some r) -> ~ has_triple t r
             end) ->
  (forall e, tombstoned e = true <-> dead_above j e) ->
  (forall i t r, (i, t) ∈ remaining -> says t = Some r -> i ∈ places) ->
  length results' = length triples ->
  (forall i t, (i, t) ∈ remaining' <-> (i, t) ∈ remaining /\ says t = None) ->
  (forall i, results' !! i = results !! i \/ exists t r, (i, t) ∈ remaining /\ says t = Some r /\ results' !! i = Some (Some r)) ->
  (forall i t r, (i, t) ∈ remaining -> says t = Some r -> results' !! i = Some (Some r)) ->
  (forall i, i ∈ places -> exists t, (i, t) ∈ remaining) ->
  going j results remaining -> going (S j) (drop_tombstoned tombstoned places results') remaining'.
Proof.
  intros Hj Hsays Hdead Hplaces Hlen Hrem Hres Hset Hpl [G1 G2 G3].
  destruct (drop_tombstoned_spec tombstoned places results') as [HA HB]. split; [congruence|by intros i t [Hin _]%Hrem; apply G2|].
  intros i t Hi. destruct (G3 i t Hi) as [(Ho & Hin & Hu)|[(o & Ho & Hm) Hn]].
  - pose proof (Hsays t) as Hst. destruct (says t) as [r|] eqn:Es.
    + right. split; [|intros [_ ?]%Hrem; congruence]. exists (if tombstoned (er_id r) then None else Some r). rewrite HB, (Hset i t r) by done.
      rewrite bool_decide_true by (by apply (Hplaces i t r)). split; [done|]. destruct Hst as [Hf Ht].
      by apply (triple_decided j f).
    + left. split_and!; [|by apply Hrem|by apply unbound_S with f]. rewrite HB. destruct (Hres i) as [->|(t' & r & Hin' & Hs' & _)]; [by rewrite Ho|].
      pose proof (placed_same remaining i t t' G2 Hin Hin'). congruence.
  - right. split; [|by intros [? _]%Hrem]. exists o. split; [|done]. rewrite HB.
    assert (forall t', (i, t') ∉ remaining) as Hno by (intros t' Hin'; pose proof (G2 _ _ Hin'); congruence).
    destruct (Hres i) as [->|(t' & r & Hin' & _)]; [|by apply Hno in Hin']. rewrite Ho. destruct o as [r|]; [|done].
    rewrite bool_decide_false; [done|]. intros (t' & Hin')%Hpl. by apply Hno in Hin'.
Qed.
Lemma mem_says st t :
  st ∈ memtables sl ->
  match at_triple st t s with
  | Some r => state_says (ms_edges st) s (fun r => r) (er_id r) = Some (Some r) /\ triple_of r = t
  | None => forall e r, state_says (ms_edges st) s (fun r => r) e = Some (Some r) -> ~ has_triple t r
  end.
Proof.
  intros Hin. destruct (at_triple st t s) as [r|] eqn:E; [by apply mem_triple_Some|]. intros e r. by apply mem_triple_None.
Qed.
Lemma immutable_going epochs e remaining results :
  drop e (immutable sl) = epochs -> going (S e) results remaining ->
  let out := immutable_triples sl e epochs remaining results in exists j, (j = length (memtables sl) \/ snd out = []) /\ going j (fst out) (snd out).
Proof.
  revert e remaining results. induction epochs as [|epoch epochs IH]; intros e remaining results Hd HG; cbn [immutable_triples].
  { exists (length (memtables sl)). split; [by left|].
    assert (length (immutable sl) <= e)%nat by (apply (f_equal length) in Hd; rewrite length_drop in Hd; cbn in Hd; lia).
    destruct HG as [G1 G2 G3]. split; [done..|]. intros i t Hi. destruct (G3 i t Hi) as [(Ho & Hin & Hu)|?]; [left|by right].
    split_and!; [done..|]. intros i' g n r Hi'. apply (Hu i' g n r). cbn [length] in Hi'. lia. }
  assert (immutable sl !! e = Some epoch) as He by (rewrite <- (Nat.add_0_r e), <- lookup_drop, Hd; done).
  assert (memtables sl !! S e = Some epoch) as Hm by done. pose proof (list_elem_of_lookup_2 _ _ _ Hm) as Hin.
  destruct remaining as [|x remaining']; [exists (S e); split; [by right|done]|]. set (remaining := x :: remaining') in *.
  pose proof HG as [G1 G2 G3].
  destruct (batch_triples_spec epoch ∅ remaining results [] G2 G1) as (HA & HB & HC & HD); [intros t; by rewrite lookup_empty|].
  destruct (batch_edges_by_triples_at epoch s ∅ remaining results []) as [results1 rem1]. cbn [fst snd] in HA, HB, HC, HD.
  apply IH; [rewrite <- (Nat.add_1_r e), <- drop_drop, Hd; done|].
  apply (going_step (S e) _ (fun t => at_triple epoch t s) _ _ results remaining results1 rem1 (mem_edge_layer _ _ Hm)); try done.
  - intros t. by apply mem_says.
  - intros id. apply above_immutable. apply lookup_lt_Some in He. lia.
  - intros i t r Hi _. by apply (list_elem_of_fmap_2 fst) in Hi.
  - intros i t. rewrite HB, elem_of_nil. tauto.
  - intros i ([i' t] & -> & Hi)%list_elem_of_fmap. by exists t.
Qed.
Lemma fill_triples_spec seg lookups results :
  placed lookups -> length results = length triples ->
  let out := foldl (fun results '(i, t) => match triple_in seg t with Some r => <[i := Some r]> results | None => results end) results lookups in
  length out = length triples
  /\ (forall i, out !! i = results !! i \/ exists t r, (i, t) ∈ lookups /\ triple_in seg t = Some r /\ out !! i = Some (Some r))
  /\ (forall i t r, (i, t) ∈ lookups -> triple_in seg t = Some r -> out !! i = Some (Some r)).
Proof.
  revert results. induction lookups as [|[i0 t0] lookups IH]; intros results Hp Hlen; cbn [foldl].
  { split_and!; [done|by left|by intros * ?%not_elem_of_nil]. }
  assert (placed lookups) as Hp' by (intros i t Hin; apply Hp; by right). pose proof (Hp i0 t0 ltac:(left)) as Hi0.
  assert (i0 < length results)%nat as Hlt by (rewrite Hlen; by apply lookup_lt_Some in Hi0).
  destruct (triple_in seg t0) as [r0|] eqn:Er.
  - destruct (IH (<[i0 := Some r0]> results) Hp' ltac:(by rewrite length_insert)) as (HA & HB & HC). split_and!; [done| |].
    + intros i. destruct (HB i) as [E|(t & r & Hin & Hr & E)]; [|right; exists t, r; split_and!; [by right|done..]].
      destruct (decide (i = i0)) as [->|Hne]; [|left; by rewrite E, list_lookup_insert_ne].
      right. exists t0, r0. split_and!; [left|done|]. rewrite E. by apply list_lookup_insert_eq.
    + intros i t r [[= -> ->]|Hin]%elem_of_cons Hr; [|by apply (HC i t)]. destruct (HB i0) as [E|(t & r' & Hin & Hr' & E)].
      * rewrite E, list_lookup_insert_eq by done. congruence.
      * apply Hp' in Hin. rewrite Hi0 in Hin. injection Hin as <-. congruence.
  - destruct (IH results Hp' Hlen) as (HA & HB & HC). split_and!; [done| |].
    + intros i. destruct (HB i) as [E|(t & r & Hin & Hr & E)]; [by left|right; exists t, r; split_and!; [by right|done..]].
    + intros i t r [[= -> ->]|Hin]%elem_of_cons Hr; [congruence|by apply (HC i t)].
Qed.
Lemma merge_triple_sorted remaining : StronglySorted triple_le (merge_sort triple_le remaining).
Proof.
  apply StronglySorted_merge_sort.
  - intros [i [[a b] c]] [j [[a' b'] c']] [k [[a'' b''] c'']]. unfold triple_le. lia.
  - intros [i [[a b] c]] [j [[a' b'] c']]. unfold triple_le. lia.
Qed.
Lemma segments_going segs j remaining results :
  drop j (segments sl) = segs -> StronglySorted triple_le remaining -> going (length (memtables sl) + j) results remaining ->
  match segment_triples sl j segs remaining results with Ok results => Forall2 means triples results | Err e => triple_error e end.
Proof.
  revert j remaining results. induction segs as [|seg segs IH]; intros j remaining results Hd Hs HG; cbn [segment_triples].
  { assert (length (segments sl) <= j)%nat by (apply (f_equal length) in Hd; rewrite length_drop in Hd; cbn in Hd; lia).
    destruct HG as [G1 G2 G3]. apply Forall2_same_length_lookup_2; [done|]. intros i t o Hi Ho.
    destruct (G3 i t Hi) as [(Ho' & _ & Hu)|[(o' & Ho' & Hm) _]]; [|congruence]. assert (o = None) as -> by congruence.
    apply unbound_absent. intros i' g n r Hi'. apply (Hu i' g n r). unfold layers in Hi'. rewrite length_app, !length_fmap in Hi'. lia. }
  assert (segments sl !! j = Some seg) as He by (rewrite <- (Nat.add_0_r j), <- lookup_drop, Hd; done).
  pose proof HG as [G1 G2 G3]. destruct remaining as [|x remaining'].
  { apply Forall2_same_length_lookup_2; [done|]. intros i t o Hi Ho. destruct (G3 i t Hi) as [(_ & Hin & _)|[(o' & Ho' & Hm) _]]; [by apply not_elem_of_nil in Hin|congruence]. }
  set (remaining := x :: remaining') in *.
  destruct (resolve_triples_batch seg remaining results) as [[results1 found]|e] eqn:Er; cbn [mbind result_bind]; [|right; by exists seg, remaining, results].
  destruct (resolve_triples_law seg remaining results results1 found Hs Er) as [-> Hfound].
  destruct (fill_triples_spec seg remaining results G2 G1) as (HA & HB & HC).
  set (results1 := foldl _ results remaining) in *.
  apply (IH (S j)); [rewrite <- (Nat.add_1_r j), <- drop_drop, Hd; done|by apply sorted_filter|]. rewrite Nat.add_succ_r.
  apply (going_step (length (memtables sl) + j) _ (triple_in seg) _ _ results remaining results1 _ (seg_edge_layer _ _ He)); try done.
  - intros t. destruct (triple_in seg t) as [r|] eqn:E; [by apply seg_triple_Some|]. intros e r. by apply seg_triple_None.
  - intros id. apply above_segment.
  - intros i t r Hi Hr. apply Hfound. exists t. split; [done|eauto].
  - intros i t. rewrite list_elem_of_filter. cbn [fst]. split.
    + intros [Hn Hin]. split; [done|]. destruct (triple_in seg t) as [r|] eqn:E; [|done]. destruct Hn. apply Hfound. exists t. split; [done|eauto].
    + intros [Hin Hn]. split; [|done]. intros (t' & Hin' & [r Hr])%Hfound. pose proof (placed_same remaining i t t' G2 Hin Hin'). congruence.
  - intros i (t & Hin & _)%Hfound. by exists t.
Qed.

(** Every triple of a batch is answered by the one live edge that has it. *)
Lemma find_edges_by_triples_spec :
  match find_edges_by_triples sl triples with Ok results => Forall2 means triples results | Err e => triple_error e end.
Proof.
  unfold find_edges_by_triples. destruct (decide (triples = [])) as [E|Hne]; [rewrite E; constructor|].
  assert (forall X (a b : X), match triples with [] => a | _ => b end = b) as -> by (intros; by destruct triples).
  assert (active sl ∈ memtables sl) as Hin by left.
  assert (forall i t, (i, t) ∈ imap pair triples <-> triples !! i = Some t) as Hnum.
  { intros i t. rewrite list_elem_of_lookup. setoid_rewrite list_lookup_imap. split.
    - intros [j Ej]. destruct (triples !! j) as [y|] eqn:Et; [|done]. by injection Ej as -> ->.
    - intros Et. exists i. by rewrite Et. }
  assert (placed (imap pair triples)) as Hp by (by intros i t ?%Hnum).
  assert (length (replicate (length triples) (@None EdgeRecord)) = length triples) as Hl0 by apply length_replicate.
  assert (going 0 (replicate (length triples) None) (imap pair triples)) as HG.
  { split; [done..|]. intros i t Hi. left. split_and!; [|by apply Hnum|apply unbound_0]. apply lookup_replicate_2. by apply lookup_lt_Some in Hi. }
  destruct (batch_triples_spec (active sl) ∅ (imap pair triples) (replicate (length triples) None) [] Hp Hl0) as (HA & HB & HC & HD);
    [intros t; by rewrite lookup_empty|].
  destruct (batch_edges_by_triples_at (active sl) s ∅ (imap pair triples) (replicate (length triples) None) []) as [results remaining].
  cbn [fst snd] in HA, HB, HC, HD.
  assert (going 1 results remaining) as HG1.
  { assert (forall tomb, drop_tombstoned tomb [] results = results) as Hnone by done. rewrite <- (Hnone (fun _ => false)).
    apply (going_step 0 _ (fun t => at_triple (active sl) t s) (fun _ => false) (fst <$> imap pair triples) _ _ results remaining (mem_edge_layer 0 (active sl) eq_refl)) in HG.
    - destruct (drop_tombstoned_spec (fun _ => false) (fst <$> imap pair triples) results) as [HE HF].
      assert (drop_tombstoned (fun _ => false) (fst <$> imap pair triples) results = results) as Heq.
      { apply list_eq. intros i. rewrite HF. destruct (results !! i) as [[r|]|]; [|done..]. by rewrite andb_false_r. }
      rewrite Heq in HG. by rewrite Hnone.
    - intros t. by apply mem_says.
    - intros e. split; [done|]. intros (i & g & Hi & _). lia.
    - intros i t r Hi _. by apply (list_elem_of_fmap_2 fst) in Hi.
    - done.
    - intros i t. rewrite HB, elem_of_nil. tauto.
    - done.
    - done.
    - intros i ([i' t] & -> & Hi)%list_elem_of_fmap. by exists t. }
  destruct (immutable_going (immutable sl) 0 remaining results (drop_0 _) HG1) as (j & Hj & HG2).
  destruct (immutable_triples sl 0 (immutable sl) remaining results) as [results' remaining']. cbn [fst snd] in Hj, HG2.
  destruct remaining' as [|x rem'].
  { destruct HG2 as [G1 G2 G3]. apply Forall2_same_length_lookup_2; [done|]. intros i t o Hi Ho.
    destruct (G3 i t Hi) as [(_ & Hin' & _)|[(o' & Ho' & Hm) _]]; [by apply not_elem_of_nil in Hin'|congruence]. }
  destruct Hj as [->|]; [|done]. apply (segments_going _ 0); [done|apply merge_triple_sorted|]. rewrite Nat.add_0_r.
  destruct HG2 as [G1 G2 G3]. split; [done|intros i t; rewrite merge_sort_Permutation; apply G2|].
  intros i t Hi. unfold open_at, final. rewrite merge_sort_Permutation. by apply G3.
Qed.
End Edges.
End Keys.
