(* ===== verification/LayeredKeys.v ===== *)
(** Lookups by key and by triple over a read view whose memtables were filled
    by consecutive parts of one run: exact when no state of the run had two live
    records with the same name. *)
From S2P Require Import Prelude Types PropertyValue CompoundKey Slots Memtable MemtableCells MemtableFacts MemtableReads MemtableSnapshots MemtableReadFacts MemtableKeys FilterBase NodeFilter NodeQuery NodeQueryFacts SourceList SourceListFacts SourceKeys SourceKeysFacts.
Import SourceList.

(** A part of a run, and the operations before it. *)
Lemma part_of {A} (parts : list (list A)) i ops :
  parts !! i = Some ops -> exists post, mjoin (reverse parts) = mjoin (reverse (drop (S i) parts)) ++ ops ++ post.
Proof.
  intros Hi. exists (mjoin (reverse (take i parts))). rewrite <- (take_drop_middle parts i ops Hi) at 1.
  rewrite reverse_app, reverse_cons, !join_app. cbn [mjoin list_join]. by rewrite app_nil_r, <- app_assoc.
Qed.
Lemma parts_before {A} (parts : list (list A)) j : exists post, mjoin (reverse parts) = mjoin (reverse (drop j parts)) ++ post.
Proof. exists (mjoin (reverse (take j parts))). rewrite <- (take_drop j parts) at 1. by rewrite reverse_app, join_app. Qed.

Section Layered.
Context {Segment : Type} `{SegmentReads Segment}.
Context `{RmpValue, HashOrder}.
Context (sl : SourceList (Segment := Segment)) (parts : list (list (Z * WalOp))) (whole : MemtableState).
Abbreviation memtables := (active sl :: immutable sl).
Abbreviation run := (mjoin (reverse parts)).
Hypothesis Hparts : Forall2 built parts memtables.
Hypothesis Hwhole : built run whole.

(** ** The records after a part of the run *)
Section Records.
Context {R : Type} (slots : MemtableState -> gmap Z (VersionedSlot (RecordState R))) (is_deleted : Segment -> Z -> bool)
  (held : Segment -> Z -> option R) (loc : Z -> Loc) (val : RecordState R -> Val).
Hypothesis Hloc : forall n, record_loc (loc n) = true.
Hypothesis Hseen : forall st s n, seen st s (loc n) = val <$> state_at (slots st) s n.
Abbreviation segment_layers := (segment_says is_deleted held None Some <$> segments sl).

(** What is live once the first [k] operations were applied over the segments. *)
Definition live_after (k : nat) (n : Z) (r : R) : Prop :=
  match last_op (take k run) (loc n) with
  | Some v => v = val (Live r)
  | None => show segment_layers n = Some r
  end.
Lemma drop_shown j :
  (j <= length memtables)%nat -> exists k, forall n r, show (drop j (layers slots is_deleted held sl)) n = Some r -> live_after k n r.
Proof.
  intros Hj. destruct (parts_before parts j) as [post Ep].
  assert (sequenced run) as [Hs _] by by destruct Hwhole as (st0 & _ & Hs & _).
  pose proof Hs as Hs'. rewrite Ep, fmap_app in Hs'. apply StronglySorted_app_1_l in Hs'.
  destruct (up_to_split _ (snapshot_seq sl) Hs') as (post' & Eu & _).
  exists (length (up_to (snapshot_seq sl) (mjoin (reverse (drop j parts))))). intros n r.
  assert (take (length (up_to (snapshot_seq sl) (mjoin (reverse (drop j parts))))) run = up_to (snapshot_seq sl) (mjoin (reverse (drop j parts)))) as Et.
  { rewrite Ep. set (before := mjoin (reverse (drop j parts))) in *. rewrite take_app_le by (rewrite Eu at 2; rewrite length_app; lia).
    rewrite Eu at 2. apply take_app_length. }
  unfold live_after. rewrite Et. unfold layers. rewrite drop_app_le by (by rewrite length_fmap). rewrite <- fmap_drop.
  unfold show at 1. rewrite layers_say_app. unfold first. rewrite memtables_say.
  assert (Forall2 built (drop j parts) (drop j memtables)) as Hd by (by apply Forall2_drop).
  rewrite <- (frozen_last_op _ _ _ (loc n) Hd (Hloc n)).
  assert ((fun st => seen st (snapshot_seq sl) (loc n)) <$> drop j memtables
          = (fun st => val <$> state_at (slots st) (snapshot_seq sl) n) <$> drop j memtables) as ->
    by (apply list_fmap_ext; intros; apply Hseen).
  rewrite first_some_map. destruct (first_some _) as [[r'|]|]; cbn; [|done..]. by intros [= ->].
Qed.
Lemma segments_shown j :
  (length memtables <= j)%nat -> drop j (layers slots is_deleted held sl) = drop (j - length memtables) segment_layers.
Proof. intros Hj. unfold layers. rewrite drop_app_ge by (by rewrite length_fmap). by rewrite length_fmap. Qed.

(** The states of a memtable's own run. *)
Lemma own_state i ops st0 k st1 n r :
  parts !! i = Some ops -> fresh st0 -> apply_ops (take k ops) st0 = Some st1 -> cur st1 (loc n) = Some (val (Live r)) ->
  live_after (length (mjoin (reverse (drop (S i) parts))) + min k (length ops)) n r.
Proof.
  intros Hi Hf Hr Hn. destruct (part_of parts i ops Hi) as [post E]. unfold live_after.
  rewrite E, take_app_add, take_app_le by lia.
  assert (take (min k (length ops)) ops = take k ops) as ->.
  { destruct (decide (k <= length ops)%nat); [by rewrite Nat.min_l|]. by rewrite Nat.min_r, !take_ge by lia. }
  rewrite last_op_app.
  rewrite (cur_apply_ops _ _ _ (loc n) (Hloc n) Hr) in Hn. destruct (last_op (take k ops) (loc n)); [congruence|].
  unfold cur in Hn. by rewrite Hf in Hn.
Qed.
(** Enough for uniqueness: [owner] gives each name one id. *)
Lemma live_after_from k n r :
  live_after k n r -> (exists seq op, (seq, op) ∈ run /\ op_write seq op (loc n) = Some (val (Live r))) \/ show segment_layers n = Some r.
Proof.
  unfold live_after. destruct (last_op (take k run) (loc n)) as [v|] eqn:E; [|by right]. intros ->. left.
  assert (forall ops, last_op ops (loc n) = Some (val (Live r)) -> exists seq op, (seq, op) ∈ ops /\ op_write seq op (loc n) = Some (val (Live r))) as Hlast.
  { induction ops as [|[seq op] ops IH]; [done|]. cbn [last_op]. destruct (last_op ops (loc n)) as [v|].
    - intros (seq' & op' & Hin & Hw)%IH. exists seq', op'. split; [by right|done].
    - intros Hw. exists seq, op. split; [left|done]. }
  destruct (Hlast _ E) as (seq & op & Hin & Hw). exists seq, op. split; [|done].
  rewrite <- (take_drop k run). apply elem_of_app. by left.
Qed.
End Records.
(** ** Nodes *)
Section Nodes.
Context `{!SegmentKeys Segment}.
Context (node_in : Segment -> Z -> option NodeRecord) (edge_in : Segment -> Z -> option EdgeRecord) (key_in : Segment -> Z -> str -> option Z) (triple_in : Segment -> Z * Z * Z -> option EdgeRecord).
Context `{!SegmentLaws node_in edge_in, !SegmentKeyLaws node_in edge_in key_in triple_in}.
Abbreviation node_after := (live_after is_node_deleted node_in LNode VNode).
Abbreviation edge_after := (live_after is_edge_deleted edge_in LEdge VEdge).

Lemma memtable_at st : st ∈ memtables -> exists i ops, parts !! i = Some ops /\ built ops st.
Proof.
  intros Hin. apply list_elem_of_lookup_1 in Hin as [i Hi]. destruct (Forall2_lookup_r _ _ _ _ _ Hparts Hi) as (ops & Ho & Hb). by exists i, ops.
Qed.

Section NodesRun.
(** No state of the run over the segments, and no state the segments came
    from, has two live nodes with one label and key. *)
Hypothesis Hunique : forall k n m r r' l, node_after k n r -> node_after k m r' -> l ∈ labels_of r -> l ∈ labels_of r' -> nr_key r = nr_key r' -> n = m.
Hypothesis Hsegments : forall j, unique_keys (show (drop j (segment_says is_node_deleted node_in None Some <$> segments sl))).
Hypothesis Hrecords : forall seg n r, seg ∈ segments sl -> node_in seg n = Some r -> nr_id r = n /\ NodeLabels.wf (nr_label_ids r).

Lemma own_keys st i ops st0 :
  parts !! i = Some ops -> fresh st0 -> apply_ops ops st0 = Some st ->
  forall k st1, apply_ops (take k ops) st0 = Some st1 -> unique_keys (current_node st1).
Proof.
  intros Hi Hf Hr k st1 Hk n m r r' l Hn Hm.
  assert (forall n r, current_node st1 n = Some r -> cur st1 (LNode n) = Some (VNode (Live r))) as Hcur.
  { intros n' r1. rewrite current_node_cur. by destruct (cur st1 (LNode n')) as [[[]| | | |]|]; [intros [= ->]|..]. }
  apply (Hunique (length (mjoin (reverse (drop (S i) parts))) + min k (length ops)) n m r r' l);
    apply (own_state is_node_deleted node_in LNode VNode (fun _ => eq_refl) i ops st0 k st1); auto.
Qed.
Lemma run_node_indexed : node_indexed node_in sl.
Proof.
  split.
  - intros st (i & ops & _ & Hb)%memtable_at. by apply (built_marked ops).
  - intros st l k r Hin. destruct (memtable_at st Hin) as (i & ops & Hi & st0 & Hf & Hs & Hr).
    destruct (key_lookup ops st0 st Hf Hs Hr (own_keys st i ops st0 Hi Hf Hr) l k (snapshot_seq sl)) as [Hk _]. rewrite Hk. split.
    + intros (n & Hn & Hl & Hkey). assert (nr_id r = n) as -> by by apply (node_at_ok ops st0 st Hf Hs Hr n (snapshot_seq sl) r). done.
    + intros [Hn [Hl Hkey]]. by exists (nr_id r).
  - intros st l k Hin. destruct (memtable_at st Hin) as (i & ops & Hi & st0 & Hf & Hs & Hr).
    by destruct (key_lookup ops st0 st Hf Hs Hr (own_keys st i ops st0 Hi Hf Hr) l k (snapshot_seq sl)).
  - intros n r Hn. change (show (layers ms_nodes is_node_deleted node_in sl) n = Some r) in Hn. unfold show in Hn.
    destruct (layers_say _ n) as [v|] eqn:E; [|done]. cbn in Hn. subst v. apply layers_say_lookup in E as (j & f & Hj & Hf & _).
    unfold layers in Hj. apply list_elem_of_lookup_2, elem_of_app in Hj as [(st & -> & Hin)%list_elem_of_fmap|(seg & -> & Hin)%list_elem_of_fmap].
    + destruct (memtable_at st Hin) as (i & ops & _ & st0 & Hf0 & Hs & Hr). apply mem_live in Hf.
      destruct (node_at_ok ops st0 st Hf0 Hs Hr n (snapshot_seq sl) r Hf) as (Hid & _ & Hok). split; [done|by apply node_ok_labels].
    + apply (Hrecords seg n r Hin). unfold segment_says in Hf. destruct (is_node_deleted seg n); [done|]. by destruct (node_in seg n); [apply (inj Some) in Hf as [= ->]|].
  - intros st n r Hin Hn. destruct (memtable_at st Hin) as (i & ops & _ & st0 & Hf0 & Hs & Hr).
    by apply (node_at_ok ops st0 st Hf0 Hs Hr n (snapshot_seq sl) r).
  - intros j. destruct (decide (j <= length memtables)%nat) as [Hj|Hj].
    + destruct (drop_shown ms_nodes is_node_deleted node_in LNode VNode (fun _ => eq_refl) (fun st s n => state_at_seen_node st s n) j Hj) as [k Hk].
      intros n m r r' l Hn%Hk Hm%Hk. by apply (Hunique k n m r r' l).
    + rewrite segments_shown by lia. apply Hsegments.
Qed.
(** The live node a label and a key mean. *)
Definition meant {A} (f : NodeRecord -> A) (name : Z * str) (o : option A) : Prop :=
  let node := shown ms_nodes is_node_deleted node_in (one_memtable whole sl) in
  match o with
  | Some a => exists r, a = f r /\ node (nr_id r) = Some r /\ fst name ∈ labels_of r /\ nr_key r = snd name
  | None => forall n r, node n = Some r -> fst name ∈ labels_of r -> nr_key r ≠ snd name
  end.
Lemma names_meant {A} (f : NodeRecord -> A) l k o : names node_in sl f l k o -> meant f (l, k) o.
Proof.
  assert (forall n, shown ms_nodes is_node_deleted node_in (one_memtable whole sl) n = shown ms_nodes is_node_deleted node_in sl n) as E.
  { intros n. symmetry. apply shown_whole. by apply (frozen_node parts). }
  unfold names, meant, has_key. cbn [fst snd]. destruct o as [a|].
  - intros (r & ? & ? & ?). exists r. by rewrite E.
  - intros Ha n r. rewrite E. intros Hn Hl Hk. by apply (Ha n r).
Qed.

(** C10.  Lookups of nodes by label and key over a read view are exact.  Suppose
    the memtables were filled by consecutive parts of one run, and no state of
    that run over the segments had two live nodes with one label and key.  Then
    a batch of keys is answered, key by key, by the live node that has the key,
    or by none when no live node has it: the newest layer whose index has the
    key decides alone, though an older layer may still hold the key for another
    node and a newer one may have renamed, relabelled or deleted the node found.
    The batch that returns only ids and the lookup of one key agree with it, and
    each fails only with the error of a segment. *)
Theorem layered_keys_exact keys :
  match find_nodes_by_label_keys sl keys with
  | Ok results => Forall2 (meant (fun r => r)) keys results
  | Err e => read_error e
  end /\
  match find_node_ids_by_label_keys sl keys with
  | Ok results => Forall2 (meant nr_id) keys results
  | Err e => read_error e
  end /\
  forall l k, match find_node_by_label_key sl l k with Ok found => meant (fun r => r) (l, k) found | Err e => read_error e end.
Proof.
  pose proof run_node_indexed as Hx. split_and!.
  - pose proof (find_nodes_by_label_keys_spec node_in edge_in key_in triple_in sl Hx keys) as Hs.
    destruct (find_nodes_by_label_keys sl keys); [|done]. apply (Forall2_impl _ _ _ _ Hs). intros [l k] o. apply names_meant.
  - pose proof (find_node_ids_by_label_keys_spec node_in edge_in key_in triple_in sl Hx keys) as Hs.
    destruct (find_node_ids_by_label_keys sl keys); [|done]. apply (Forall2_impl _ _ _ _ Hs). intros [l k] o. apply names_meant.
  - intros l k. pose proof (find_node_by_label_key_spec node_in edge_in key_in triple_in sl Hx [(l, k)] l k eq_refl) as Hs.
    destruct (find_node_by_label_key sl l k); [|done]. by apply names_meant.
Qed.
End NodesRun.

Section EdgesRun.
(** Likewise for triples; the versions of one edge id have one triple. *)
Context (triple_for : Z -> Z * Z * Z).
Hypothesis Hunique : forall k e e' r r', edge_after k e r -> edge_after k e' r' -> triple_of r = triple_of r' -> e = e'.
Hypothesis Hsegments : forall j, unique_triples (show (drop j (segment_says is_edge_deleted edge_in None Some <$> segments sl))).
Hypothesis Hfixed : forall k e r, edge_after k e r -> triple_of r = triple_for e.
Hypothesis Hsegments_fixed : forall seg e r, seg ∈ segments sl -> edge_in seg e = Some r -> triple_of r = triple_for e.

Lemma own_edge st i ops st0 :
  parts !! i = Some ops -> fresh st0 -> apply_ops ops st0 = Some st ->
  forall k st1 e r, apply_ops (take k ops) st0 = Some st1 -> current_edge st1 e = Some r ->
  edge_after (length (mjoin (reverse (drop (S i) parts))) + min k (length ops)) e r.
Proof.
  intros Hi Hf Hr k st1 e r Hk He. apply (own_state is_edge_deleted edge_in LEdge VEdge (fun _ => eq_refl) i ops st0 k st1); try done.
  rewrite current_edge_cur in He. by destruct (cur st1 (LEdge e)) as [[|[]| | |]|]; [..|apply (inj Some) in He as ->| | | | |].
Qed.
Lemma run_edge_indexed : edge_indexed edge_in sl.
Proof.
  assert (forall st, st ∈ memtables -> exists i ops st0, parts !! i = Some ops /\ fresh st0 /\ sequenced ops /\ apply_ops ops st0 = Some st
    /\ forall k st1, apply_ops (take k ops) st0 = Some st1 -> unique_triples (current_edge st1)) as Hmem.
  { intros st (i & ops & Hi & st0 & Hf & Hs & Hr)%memtable_at. exists i, ops, st0. split_and!; [done..|].
    intros k st1 Hk e e' r r' He He'. by eapply Hunique; eapply own_edge. }
  split.
  - intros st (i & ops & _ & Hb)%memtable_at. by apply (built_marked ops).
  - intros st f t l r (i & ops & st0 & Hi & Hf & Hs & Hr & Hu)%Hmem. by apply (triple_lookup ops st0 st Hf Hs Hr Hu).
  - intros st e r (i & ops & st0 & Hi & Hf & Hs & Hr & Hu)%Hmem. rewrite edge_at_seen.
    apply (ev_record _ (snapshot_edge_inv ops st0 st Hf Hs Hr (snapshot_seq sl))).
  - intros j. destruct (decide (j <= length memtables)%nat) as [Hj|Hj].
    + destruct (drop_shown ms_edges is_edge_deleted edge_in LEdge VEdge (fun _ => eq_refl) (fun st s n => state_at_seen_edge st s n) j Hj) as [k Hk].
      intros e e' r r' He%Hk He'%Hk. by apply (Hunique k).
    + rewrite segments_shown by lia. apply Hsegments.
  - exists triple_for. intros j f e r Hj Hf.
    unfold layers in Hj. apply list_elem_of_lookup_2, elem_of_app in Hj as [(st & -> & Hin)%list_elem_of_fmap|(seg & -> & Hin)%list_elem_of_fmap].
    + destruct (Hmem st Hin) as (i & ops & st0 & Hi & Hf0 & Hs & Hr & _).
      destruct (snapshot_state ops st0 st Hf0 Hs Hr (snapshot_seq sl)) as (st_s & E & _ & Hv).
      destruct (up_to_split ops (snapshot_seq sl) (proj1 Hs)) as (post & Eu & _).
      eapply (Hfixed _ e r), (own_edge st i ops st0 Hi Hf0 Hr (length (up_to (snapshot_seq sl) ops)) st_s).
      * rewrite Eu at 2. by rewrite take_app_length.
      * rewrite current_edge_cur, Hv, <- edge_at_seen. by apply mem_edge_live in Hf.
    + apply (Hsegments_fixed seg e r Hin). unfold segment_says in Hf. destruct (is_edge_deleted seg e); [done|]. by destruct (edge_in seg e); [apply (inj Some) in Hf as [= ->]|].
Qed.

(** The live edge a triple means. *)
Definition meant_edge (t : Z * Z * Z) (o : option EdgeRecord) : Prop :=
  let edge := shown ms_edges is_edge_deleted edge_in (one_memtable whole sl) in
  match o with
  | Some r => edge (er_id r) = Some r /\ triple_of r = t
  | None => forall e r, edge e = Some r -> triple_of r ≠ t
  end.
Lemma means_meant t o : means edge_in sl t o -> meant_edge t o.
Proof.
  assert (forall n, shown ms_edges is_edge_deleted edge_in (one_memtable whole sl) n = shown ms_edges is_edge_deleted edge_in sl n) as E.
  { intros n. symmetry. apply shown_whole. by apply (frozen_edge parts). }
  unfold means, meant_edge, has_triple. destruct o as [r|]; [by rewrite E|]. intros Ha e r. rewrite E. apply Ha.
Qed.

End EdgesRun.
End Nodes.
End Layered.
