(* ===== verification/LayeredKeysWitness.v ===== *)
(** The theorems on layered reads and on lookups by key and by triple, applied to
    a run frozen in the middle over one segment. *)
From S2P Require Import Prelude Types Encoding PropertyValue EdgeMetadata Slots Memtable MemtableCells MemtableSnapshots MemtableWitness FilterBase NodeFilter NodeQuery SourceList SourceListFacts MemtableFacts MemtableKeys SourceKeys SourceKeysFacts LayeredKeys.
Import SourceList.

Module SourceListWitness.
#[local] Existing Instance MemtableWitness.rmp.
#[local] Existing Instance MemtableWitness.hash_order.

(** A segment: the nodes it holds and those it deletes; no edges. *)
Definition Segment : Type := gmap Z NodeRecord * gset Z.
Definition node_in (seg : Segment) (id : Z) : option NodeRecord := fst seg !! id.
Definition edge_in (seg : Segment) (id : Z) : option EdgeRecord := None.
#[local] Instance segment_reads : SegmentReads Segment := {|
  is_node_deleted seg id := bool_decide (id ∈ snd seg);
  is_edge_deleted _ _ := false;
  get_node seg id := Ok (node_in seg id);
  get_edge seg id := Ok (edge_in seg id);
  get_nodes_batch seg lookups results := Ok (fill (node_in seg) lookups results);
  get_edges_batch seg lookups results := Ok (fill (edge_in seg) lookups results);
  get_edge_metadata_batch seg lookups results := Ok (fill (fun id => from_edge <$> edge_in seg id) lookups results);
  get_node_meta_batch seg lookups results := Ok (fill (fun id => NodeQuery.visibility_meta <$> node_in seg id) lookups results);
  get_node_selected_fields_batch needs seg lookups results :=
    Ok (fill (fun id => NodeQuery.selected_node_fields needs <$> node_in seg id) lookups results);
  get_edge_selected_fields_batch needs seg lookups results :=
    Ok (fill (fun id => selected_edge_fields needs <$> edge_in seg id) lookups results)
|}.
#[local] Instance segment_laws : SegmentLaws node_in edge_in.
Proof. split; intros; by match goal with E : _ = Ok _ |- _ => apply Ok_inj in E as <- end. Qed.

(** The segment holds an old version of node 2 and node 3, and deletes node 5. *)
Definition segment : Segment :=
  ({[ 2 := MemtableWitness.node 2 [3] "old" 1; 3 := MemtableWitness.node 3 [3] "c" 1 ]}, {[ 5 ]}).
Definition older : list (Z * WalOp) := take 6 MemtableWitness.ops.
Definition newer : list (Z * WalOp) := drop 6 MemtableWitness.ops.
Definition run (ops : list (Z * WalOp)) : MemtableState := default empty_state (apply_ops ops empty_state).
Definition sources (snapshot_seq : Z) : SourceList := mkSources (run newer) [run older] [segment] snapshot_seq.

Lemma sequenced_part ops : sequenced ops -> forall n, sequenced (take n ops) /\ sequenced (drop n ops).
Proof.
  intros [Hs Hok] n. rewrite <- (take_drop n ops), fmap_app in Hs. rewrite <- (take_drop n ops), Forall_app in Hok.
  assert (forall a b : list Z, StronglySorted Z.le (a ++ b) -> StronglySorted Z.le a /\ StronglySorted Z.le b) as Happ.
  { induction a as [|x a IH]; intros b; [by split; [constructor|]|]. intros [Hab Hx]%StronglySorted_inv.
    destruct (IH b Hab). apply Forall_app in Hx as [Hx _]. split; [by constructor|done]. }
  destruct (Happ _ _ Hs), Hok. split; by split.
Qed.
Lemma built_run ops : sequenced ops -> is_Some (apply_ops ops empty_state) -> built ops (run ops).
Proof.
  intros Hs [st E]. exists empty_state. split; [exact MemtableWitness.fresh_empty|]. split; [done|]. unfold run. by rewrite E.
Qed.
Lemma ran ops : bool_decide (is_Some (apply_ops ops empty_state)) = true -> is_Some (apply_ops ops empty_state).
Proof. apply bool_decide_eq_true_1. Qed.

Lemma layered_reads_exact_witness :
  find_nodes (sources 9) [2; 3; 1; 3; 5; 8] = Ok [None; Some (MemtableWitness.node 3 [3] "c" 1); node_at (run newer) 1 9;
    Some (MemtableWitness.node 3 [3] "c" 1); None; None]
  /\ reads (sources 9) (shown ms_nodes is_node_deleted node_in (one_memtable MemtableWitness.st (sources 9)))
       (shown ms_edges is_edge_deleted edge_in (one_memtable MemtableWitness.st (sources 9))).
Proof.
  split; [vm_compute; reflexivity|].
  apply (layered_reads_exact node_in edge_in (sources 9) [newer; older] MemtableWitness.st).
  - destruct (sequenced_part _ MemtableWitness.ops_sequenced 6) as [Ho Hn].
    apply Forall2_cons. split; [apply built_run; [exact Hn|apply ran; vm_compute; reflexivity]|].
    apply Forall2_cons. split; [apply built_run; [exact Ho|apply ran; vm_compute; reflexivity]|]. constructor.
  - cbn [reverse rev_append mjoin list_join]. exists empty_state. split; [exact MemtableWitness.fresh_empty|].
    split; [exact MemtableWitness.ops_sequenced|exact MemtableWitness.run].
Defined.
End SourceListWitness.

(** ** The theorems on lookups by key and by triple, applied to a run frozen in the
    middle over one segment that holds an old version of a node. *)
Module LayeredKeysWitness.
#[local] Existing Instance MemtableWitness.rmp.
#[local] Existing Instance MemtableWitness.hash_order.

(** A segment: the nodes and the edges it holds, and those it deletes. *)
Definition Segment : Type := gmap Z (option NodeRecord) * gmap Z (option EdgeRecord).
Definition node_in (seg : Segment) (id : Z) : option NodeRecord := mjoin (fst seg !! id).
Definition edge_in (seg : Segment) (id : Z) : option EdgeRecord :=
  r ← mjoin (snd seg !! id); if er_id r =? id then Some r else None.
#[local] Instance segment_reads : SegmentReads Segment := {|
  is_node_deleted seg id := match fst seg !! id with Some None => true | _ => false end;
  is_edge_deleted seg id := match snd seg !! id with Some None => true | _ => false end;
  get_node seg id := Ok (node_in seg id);
  get_edge seg id := Ok (edge_in seg id);
  get_nodes_batch seg lookups results := Ok (fill (node_in seg) lookups results);
  get_edges_batch seg lookups results := Ok (fill (edge_in seg) lookups results);
  get_edge_metadata_batch seg lookups results := Ok (fill (fun id => from_edge <$> edge_in seg id) lookups results);
  get_node_meta_batch seg lookups results := Ok (fill (fun id => NodeQuery.visibility_meta <$> node_in seg id) lookups results);
  get_node_selected_fields_batch needs seg lookups results :=
    Ok (fill (fun id => NodeQuery.selected_node_fields needs <$> node_in seg id) lookups results);
  get_edge_selected_fields_batch needs seg lookups results :=
    Ok (fill (fun id => selected_edge_fields needs <$> edge_in seg id) lookups results)
|}.
#[local] Instance segment_laws : SegmentLaws node_in edge_in.
Proof. split; intros; by match goal with E : _ = Ok _ |- _ => apply Ok_inj in E as <- end. Qed.

(** The first record of a map that passes a test. *)
Definition passes {R} (p : Z -> R -> bool) (e : Z * option R) : option (Z * R) :=
  r ← snd e; if p (fst e) r then Some (fst e, r) else None.
Definition first_such {R} (m : gmap Z (option R)) (p : Z -> R -> bool) : option (Z * R) := head (omap (passes p) (map_to_list m)).
Lemma first_such_spec {R} (m : gmap Z (option R)) p :
  match first_such m p with
  | Some (n, r) => mjoin (m !! n) = Some r /\ p n r = true
  | None => forall n r, mjoin (m !! n) = Some r -> p n r = false
  end.
Proof.
  unfold first_such.
  assert (forall n r, (n, r) ∈ omap (passes p) (map_to_list m) <-> mjoin (m !! n) = Some r /\ p n r = true) as Hin.
  { intros n r. rewrite list_elem_of_omap. split.
    - intros ([n' o] & Ho & Hf). apply elem_of_map_to_list in Ho. destruct o as [r'|]; [|done]. cbn in Hf.
      destruct (p n' r') eqn:E; [|done]. apply (inj Some) in Hf as [= -> ->]. by rewrite Ho.
    - intros [Hm Hp]. exists (n, Some r). rewrite elem_of_map_to_list. split; [by destruct (m !! n) as [[]|]; [cbn in Hm; f_equal|..]|].
      cbn. by rewrite Hp. }
  destruct (omap (passes p) (map_to_list m)) as [|[n r] l]; cbn [head].
  - intros n r Hm. destruct (p n r) eqn:E; [|done]. apply (conj Hm), Hin, not_elem_of_nil in E. done.
  - apply Hin. left.
Qed.
Definition key_in (seg : Segment) (l : Z) (k : str) : option Z :=
  fst <$> first_such (fst seg) (fun _ r => bool_decide (l ∈ labels_of r /\ nr_key r = k)).
Definition triple_in (seg : Segment) (t : Z * Z * Z) : option EdgeRecord :=
  snd <$> first_such (snd seg) (fun n r => (er_id r =? n) && bool_decide (triple_of r = t)).
#[local] Instance segment_key_reads : SegmentKeys Segment := {|
  resolve_keys_to_ids seg lookups := Ok (omap (fun '(i, (l, k)) => pair i <$> key_in seg l k) lookups);
  segment_edge_by_triple seg f t l := Ok (triple_in seg (f, t, l));
  resolve_triples_batch seg lookups results :=
    Ok (foldl (fun results '(i, t) => match triple_in seg t with Some r => <[i := Some r]> results | None => results end) results lookups,
        omap (fun '(i, t) => (fun _ => i) <$> triple_in seg t) lookups)
|}.
#[local] Instance segment_key_laws : SegmentKeyLaws node_in edge_in key_in triple_in.
Proof.
  split.
  - intros seg l k. unfold key_in. pose proof (first_such_spec (fst seg) (fun _ r => bool_decide (l ∈ labels_of r /\ nr_key r = k))) as Hs.
    destruct (first_such _ _) as [[n r]|]; cbn.
    + destruct Hs as [Hn Hb%bool_decide_eq_true]. by exists r.
    + intros n r Hn Hl Hk. specialize (Hs n r Hn). by rewrite bool_decide_true in Hs.
  - intros seg t. unfold triple_in. pose proof (first_such_spec (snd seg) (fun n r => (er_id r =? n) && bool_decide (triple_of r = t))) as Hs.
    destruct (first_such _ _) as [[n r]|]; cbn.
    + destruct Hs as [Hn [He Hb%bool_decide_eq_true]%andb_true_iff]. apply Z.eqb_eq in He as He'. subst n. unfold edge_in. rewrite Hn. cbn. by rewrite He.
    + intros e r He Ht. unfold edge_in in He. destruct (mjoin (snd seg !! e)) as [r'|] eqn:Em; [|done]. cbn in He.
      destruct (er_id r' =? e) eqn:Ee; [|done]. apply (inj Some) in He as ->. specialize (Hs e r Em). cbn in Hs. by rewrite Ee, bool_decide_true in Hs.
  - intros seg lookups resolved _ E i n. apply Ok_inj in E as <-. rewrite list_elem_of_omap. split.
    + intros ([j [l k]] & Hin & Hf). destruct (key_in seg l k) as [n'|] eqn:Ek; [|done]. cbn in Hf. apply (inj Some) in Hf as [= -> ->]. by exists l, k.
    + intros (l & k & Hin & Hk). exists (i, (l, k)). split; [done|]. by rewrite Hk.
  - intros seg f t l found E. by apply Ok_inj in E as <-.
  - intros seg lookups results results' found _ E. apply Ok_inj in E as [= <- <-]. split; [done|]. intros i. rewrite list_elem_of_omap. split.
    + intros ([j t] & Hin & Hf). destruct (triple_in seg t) as [r|] eqn:Ek; [|done]. cbn in Hf. apply (inj Some) in Hf as <-. exists t. by rewrite Ek.
    + intros (t & Hin & [r Hk]). exists (i, t). split; [done|]. by rewrite Hk.
  - intros seg id. cbn. unfold node_in. by destruct (fst seg !! id) as [[]|].
  - intros seg id. cbn. unfold edge_in. by destruct (snd seg !! id) as [[]|].
Qed.

Definition older : list (Z * WalOp) := take 6 MemtableWitness.ops.
Definition newer : list (Z * WalOp) := drop 6 MemtableWitness.ops.
Definition segment : Segment :=
  ({[ 2 := Some (MemtableWitness.node 2 [3] "old" 1); 3 := Some (MemtableWitness.node 3 [3] "c" 1); 5 := None ]},
   {[ 12 := Some (MemtableWitness.edge 12 2 1 5); 13 := Some (MemtableWitness.edge 13 3 3 4); 14 := None ]}).
Definition sources (snapshot_seq : Z) : SourceList := mkSources (SourceListWitness.run newer) [SourceListWitness.run older] [segment] snapshot_seq.
Definition sl := sources 9.
Lemma sources_built : Forall2 built [newer; older] (active sl :: immutable sl) /\ built (mjoin (reverse [newer; older])) MemtableWitness.st.
Proof.
  split.
  - destruct (SourceListWitness.sequenced_part _ MemtableWitness.ops_sequenced 6) as [Ho Hn].
    apply Forall2_cons. split; [apply SourceListWitness.built_run; [exact Hn|apply SourceListWitness.ran; vm_compute; reflexivity]|].
    apply Forall2_cons. split; [apply SourceListWitness.built_run; [exact Ho|apply SourceListWitness.ran; vm_compute; reflexivity]|]. constructor.
  - cbn [reverse rev_append mjoin list_join]. exists empty_state. split; [exact MemtableWitness.fresh_empty|].
    split; [exact MemtableWitness.ops_sequenced|exact MemtableWitness.run].
Qed.

(** The one node of a name, the one triple of an edge. *)
Definition owner (l : Z) (k : str) : Z :=
  if decide (k = str_of "a") then 1 else if decide (k = str_of "c") then 3 else 2.
Definition triple_for (e : Z) : Z * Z * Z :=
  if e =? 10 then (1, 2, 4) else if e =? 11 then (1, 1, 4) else if e =? 12 then (2, 1, 5) else (3, 3, 4).
Definition edge_for (t : Z * Z * Z) : Z :=
  if decide (t = (1, 2, 4)) then 10 else if decide (t = (1, 1, 4)) then 11 else if decide (t = (2, 1, 5)) then 12 else 13.

Lemma segment_shown {R} (is_deleted : Segment -> Z -> bool) (held : Segment -> Z -> option R) j n r :
  show (drop j (segment_says is_deleted held None Some <$> segments sl)) n = Some r -> held segment n = Some r.
Proof.
  change (segment_says is_deleted held None Some <$> segments sl) with [segment_says is_deleted held None Some segment].
  destruct j as [|j]; [|cbn [drop]; by rewrite drop_nil]. unfold show, segment_says. cbn. unfold first.
  destruct (is_deleted segment n); [done|]. destruct (held segment n); [|done]. done.
Qed.
Lemma held_check {R} (m : gmap Z (option R)) (p : Z -> R -> bool) :
  forallb (fun '(n, o) => match o with Some r => p n r | None => true end) (map_to_list m) = true ->
  forall n r, mjoin (m !! n) = Some r -> p n r = true.
Proof.
  rewrite forallb_forall. intros Hall n r Hm. apply (Hall (n, Some r)), list_elem_of_In, elem_of_map_to_list.
  by destruct (m !! n) as [[]|]; [cbn in Hm; f_equal|..].
Qed.
Definition named (n : Z) (r : NodeRecord) : bool :=
  bool_decide (nr_id r = n /\ Forall (fun l => owner l (nr_key r) = n) (labels_of r)).
Definition tripled (e : Z) (r : EdgeRecord) : bool := bool_decide (triple_of r = triple_for e /\ edge_for (triple_of r) = e).
Lemma run_names : Forall (fun o => match snd o with UpsertNode r => named (nr_id r) r = true | UpsertEdge r => tripled (er_id r) r = true | _ => True end) MemtableWitness.ops.
Proof. repeat constructor. Qed.
Lemma node_held n r : node_in segment n = Some r -> named n r = true.
Proof. apply held_check. vm_compute. reflexivity. Qed.
Lemma node_held_ok n r : node_in segment n = Some r -> nr_label_ids r = NodeLabels.mk [3].
Proof.
  intros Hn. pose proof (held_check (fst segment) (fun n _ => (n =? 2) || (n =? 3)) ltac:(vm_compute; reflexivity) n r Hn) as E.
  apply orb_true_iff in E as [->%Z.eqb_eq| ->%Z.eqb_eq]; by apply (inj Some) in Hn as <-.
Qed.
Lemma edge_held e r : edge_in segment e = Some r -> tripled e r = true.
Proof.
  unfold edge_in. destruct (mjoin (snd segment !! e)) as [r'|] eqn:Em; [|done]. cbn. destruct (er_id r' =? e); [|done].
  intros E. apply (inj Some) in E as ->. revert e r Em. apply held_check. vm_compute. reflexivity.
Qed.
Lemma node_then k n r : live_after sl [newer; older] is_node_deleted node_in LNode VNode k n r -> named n r = true.
Proof.
  intros [(seq & op & Hin & Hw)|Hs]%live_after_from; [|by apply node_held, (segment_shown is_node_deleted node_in 0)].
  change (mjoin (reverse [newer; older])) with MemtableWitness.ops in Hin.
  apply (proj1 (Forall_forall _ _) run_names) in Hin. destruct op; try done; cbn in Hw, Hin; case_decide; try done.
  apply (inj Some) in Hw as [= <-]. by subst.
Qed.
Lemma edge_then k e r : live_after sl [newer; older] is_edge_deleted edge_in LEdge VEdge k e r -> tripled e r = true.
Proof.
  intros [(seq & op & Hin & Hw)|Hs]%live_after_from; [|by apply edge_held, (segment_shown is_edge_deleted edge_in 0)].
  change (mjoin (reverse [newer; older])) with MemtableWitness.ops in Hin.
  apply (proj1 (Forall_forall _ _) run_names) in Hin. destruct op; try done; cbn in Hw, Hin; case_decide; try done.
  apply (inj Some) in Hw as [= <-]. by subst.
Qed.
Lemma named_unique (node : Z -> NodeRecord -> Prop) :
  (forall n r, node n r -> named n r = true) ->
  forall n m r r' l, node n r -> node m r' -> l ∈ labels_of r -> l ∈ labels_of r' -> nr_key r = nr_key r' -> n = m.
Proof.
  intros Hn n m r r' l [_ E]%Hn%bool_decide_eq_true [_ E']%Hn%bool_decide_eq_true Hl Hl' Hk. rewrite Forall_forall in E, E'.
  by rewrite <- (E l Hl), <- (E' l Hl'), Hk.
Qed.
Lemma tripled_unique (edge : Z -> EdgeRecord -> Prop) :
  (forall e r, edge e r -> tripled e r = true) ->
  forall e e' r r', edge e r -> edge e' r' -> triple_of r = triple_of r' -> e = e'.
Proof. intros He e e' r r' [_ E]%He%bool_decide_eq_true [_ E']%He%bool_decide_eq_true Ht. by rewrite <- E, <- E', Ht. Qed.

Lemma layered_keys_exact_witness :
  find_node_ids_by_label_keys sl [(3, str_of "a"); (3, str_of "old"); (3, str_of "b"); (3, str_of "c")] = Ok [Some 1; None; None; Some 3]
  /\ match find_node_by_label_key sl 3 (str_of "c") with
     | Ok found => meant sl MemtableWitness.st node_in (fun r => r) (3, str_of "c") found
     | Err e => read_error e
     end.
Proof.
  split; [vm_compute; reflexivity|]. destruct sources_built as [Hp Hw].
  edestruct (layered_keys_exact sl [newer; older] MemtableWitness.st Hp Hw node_in edge_in key_in triple_in) with (keys := @nil (Z * str)) as (_ & _ & Hone); [..|exact (Hone 3 (str_of "c"))].
  - intros k. apply named_unique. apply node_then.
  - intros j. unfold unique_keys. apply (named_unique (fun n r => show _ n = Some r)). intros n r Hn%segment_shown. by apply node_held.
  - intros seg n r Hin Hn. apply list_elem_of_singleton in Hin as ->. rewrite (node_held_ok n r Hn).
    apply node_held in Hn. unfold named in Hn. apply (proj1 (bool_decide_eq_true _)) in Hn as [? _]. split; [done|]. apply MemtableWitness.labels_wf, MemtableWitness.labels_sample.
Defined.
End LayeredKeysWitness.
