(* ===== verification/Vectors.v ===== *)
(** Vector payloads of nodes: the validation of dense vectors and the canonical
    form of sparse ones (src/types.rs), and the normalization of a write
    operation before it is logged and again when it is replayed
    (src/engine/mod.rs). *)
From S2P Require Import Prelude Types Floats Manifest.

Definition validate_dense_vector_config (config : DenseVectorConfig) : res unit :=
  if dv_dimension config =? 0 then Err (InvalidOperation "dense vector dimension must be > 0")
  else if hnsw_m (dv_hnsw config) =? 0 then Err (InvalidOperation "dense HNSW m must be > 0")
  else if hnsw_ef_construction (dv_hnsw config) =? 0 then
    Err (InvalidOperation "dense HNSW ef_construction must be > 0")
  else if hnsw_ef_construction (dv_hnsw config) <? hnsw_m (dv_hnsw config) then
    Err (InvalidOperation "dense HNSW ef_construction must be >= m")
  else Ok tt.

Definition validate_finite_vector_component (value : Z) : res unit :=
  if is_finite F32 value then Ok tt else Err (InvalidOperation "vector contains NaN or infinite value").
Fixpoint validate_components (values : list Z) : res unit :=
  match values with
  | [] => Ok tt
  | value :: values => _ ← validate_finite_vector_component value; validate_components values
  end.

Definition validate_dense_vector (values : list Z) (config : DenseVectorConfig) : res unit :=
  _ ← validate_dense_vector_config config;
  if negb (len values =? dv_dimension config) then
    Err (InvalidOperation "dense vector length does not match configured dimension")
  else validate_components values.

(** [sort_unstable_by_key]: entries of equal dimension come in some order. *)
Class UnstableSort : Type := { sort_unstable_by_dimension : list (Z * Z) -> list (Z * Z) }.
Class UnstableSortLaws `{UnstableSort} : Prop := {
  sort_unstable_perm l : sort_unstable_by_dimension l ≡ₚ l;
  sort_unstable_sorted l : StronglySorted Z.le (fst <$> sort_unstable_by_dimension l)
}.

Definition weight_negative (weight : Z) : bool := flt F32 weight 0.
Fixpoint validate_weights (entries : list (Z * Z)) : res unit :=
  match entries with
  | [] => Ok tt
  | (_, weight) :: entries =>
      _ ← validate_finite_vector_component weight;
      if weight_negative weight then Err (InvalidOperation "sparse vector weights must be non-negative")
      else validate_weights entries
  end.

(** The merging loop; [canonical] is the vector built so far, its last entry
    first. *)
Fixpoint merge_from (canonical : list (Z * Z)) (entries : list (Z * Z)) : list (Z * Z) :=
  match entries with
  | [] => reverse canonical
  | (dimension_id, weight) :: entries =>
      match canonical with
      | (last_dimension_id, last_weight) :: canonical' =>
          if last_dimension_id =? dimension_id
          then merge_from ((last_dimension_id, f32_add last_weight weight) :: canonical') entries
          else merge_from ((dimension_id, weight) :: canonical) entries
      | [] => merge_from [(dimension_id, weight)] entries
      end
  end.

Section Sparse.
Context `{UnstableSort}.

Definition canonicalize_sparse_vector_entries (entries : list (Z * Z)) : res (option (list (Z * Z))) :=
  if (length entries =? 0)%nat then Ok None
  else
    _ ← validate_weights entries;
    let canonical := merge_from [] (sort_unstable_by_dimension entries) in
    let canonical := filter (fun e : Z * Z => Floats.is_zero F32 e.2 = false) canonical in
    if (length canonical =? 0)%nat then Ok None
    else
      _ ← validate_components (snd <$> canonical);
      Ok (Some canonical).
Definition canonicalize_sparse_vector := canonicalize_sparse_vector_entries.

Definition normalize_node_vectors_for_write (dense_config : option DenseVectorConfig)
  (dense_vector : option (list Z)) (sparse_vector : option (list (Z * Z)))
  : res (option (list Z) * option (list (Z * Z))) :=
  dense ← match dense_vector with
          | Some values =>
              match dense_config with
              | None => Err (InvalidOperation "dense vector writes require DbOptions::dense_vector to be configured")
              | Some config => _ ← validate_dense_vector values config; Ok (Some values)
              end
          | None => Ok None
          end;
  sparse ← match sparse_vector with
           | Some values => canonicalize_sparse_vector values
           | None => Ok None
           end;
  Ok (dense, sparse).

Definition with_vectors (node : NodeRecord) (dense : option (list Z)) (sparse : option (list (Z * Z))) : NodeRecord :=
  mkNodeRecord (nr_id node) (nr_label_ids node) (nr_key node) (nr_props node) (nr_created_at node)
    (nr_updated_at node) (nr_weight node) dense sparse (nr_last_write_seq node).

Definition normalize_wal_op_for_write (dense_config : option DenseVectorConfig) (op : WalOp) : res WalOp :=
  match op with
  | UpsertNode node =>
      '(dense, sparse) ← normalize_node_vectors_for_write dense_config (nr_dense_vector node) (nr_sparse_vector node);
      Ok (UpsertNode (with_vectors node dense sparse))
  | BeginAtomicBatch _ _ | CommitAtomicBatch _ _ =>
      Err (InvalidOperation "WAL atomic batch markers are not write operations")
  | _ => Ok op
  end.

Definition normalize_wal_op_for_replay (dense_config : option DenseVectorConfig) (op : WalOp) : res WalOp :=
  match normalize_wal_op_for_write dense_config op with
  | Ok op => Ok op
  | Err err =>
      Err match op, err with
          | UpsertNode _, InvalidOperation _ => CorruptWal "invalid vector payload for replayed node"
          | _, _ => err
          end
  end.
End Sparse.

(** ** Canonical sparse vectors, and the normalization of operations. *)
(** ** Weights that are not negative *)
Definition nonneg (w : Z) : Prop := sign_bit F32 w = false \/ Floats.is_zero F32 w = true.

Lemma sf_of_zero32 w : Floats.is_zero F32 w = true -> sf_of_bits32 w = SpecFloat.S754_zero (sign_bit F32 w).
Proof.
  unfold Floats.is_zero, sf_of_bits32, exponent_bits, fraction_bits. intros ->%Z.eqb_eq. reflexivity.
Qed.
Lemma zero_nonneg s : nonneg (bits_of_sf32 (SpecFloat.S754_zero s)).
Proof. destruct s; [right | left]; by vm_compute. Qed.

Lemma nonneg_add a b : nonneg a -> nonneg b -> nonneg (f32_add a b).
Proof.
  assert (forall w, sign_bit F32 w = false \/ sign_bit F32 w = true /\ Floats.is_zero F32 w = true
            <-> nonneg w) as Hs by (intros w; unfold nonneg; destruct (sign_bit F32 w); naive_solver).
  intros [Ha|[Ha Za]]%Hs [Hb|[Hb Zb]]%Hs.
  - left. by apply f32_add_nonneg.
  - left. unfold f32_add. rewrite (sf_of_zero32 b), Hb by done. apply sf_sign_of_bits32 in Ha.
    apply bits_sign32. destruct (sf_of_bits32 a) as [[]|[]| |[]]; done.
  - left. unfold f32_add. rewrite (sf_of_zero32 a), Ha by done. apply sf_sign_of_bits32 in Hb.
    apply bits_sign32. destruct (sf_of_bits32 b) as [[]|[]| |[]]; done.
  - unfold f32_add. rewrite (sf_of_zero32 a), (sf_of_zero32 b), Ha, Hb by done. apply zero_nonneg.
Qed.

Lemma weight_nonneg w : is_finite F32 w = true -> weight_negative w = false <-> nonneg w.
Proof.
  intros Hf. unfold weight_negative, flt. rewrite bool_decide_eq_false. unfold partial_cmp.
  assert (is_nan F32 w = false) as ->.
  { unfold is_nan, is_finite in *. by destruct (_ =? _). }
  change (is_nan F32 0) with false. cbn [orb]. rewrite scaled_compare by apply F32_wf.
  unfold nonneg, signed_magnitude, Floats.is_zero. change (sign_bit F32 0) with false. change (magnitude F32 0) with 0.
  pose proof (magnitude_range F32 F32_wf w) as [Hm _].
  destruct (sign_bit F32 w), (Z.eqb_spec (magnitude F32 w) 0) as [->|];
    (split; [intros Hc; first [by left | by right | exfalso; apply Hc; f_equal; apply Z.compare_lt_iff; lia]|]);
    intros Hc E; apply (inj Some) in E; rewrite Z.compare_lt_iff in E; lia || destruct Hc; discriminate.
Qed.

Lemma validate_weights_spec l :
  validate_weights l = Ok tt <-> Forall (fun e : Z * Z => is_finite F32 e.2 = true /\ nonneg e.2) l.
Proof.
  induction l as [|[d w] l IH]; cbn [validate_weights]; [split; [constructor | done]|].
  rewrite Forall_cons. cbn [snd]. unfold validate_finite_vector_component.
  destruct (is_finite F32 w) eqn:Ef; cbn [mbind result_bind]; [|naive_solver].
  pose proof (weight_nonneg w Ef). destruct (weight_negative w); naive_solver.
Qed.
Lemma validate_components_spec l : validate_components l = Ok tt <-> Forall (fun w => is_finite F32 w = true) l.
Proof.
  induction l as [|w l IH]; cbn [validate_components]; [split; [constructor | done]|].
  rewrite Forall_cons. unfold validate_finite_vector_component.
  destruct (is_finite F32 w); cbn [mbind result_bind]; [naive_solver|split; [done | by intros [??]]].
Qed.

(** ** Merging *)
Definition weights_of (d : Z) (l : list (Z * Z)) : list Z := snd <$> filter (fun e : Z * Z => e.1 = d) l.
Definition sum_weights (ws : list Z) : option Z :=
  match ws with [] => None | w :: ws => Some (foldl f32_add w ws) end.

Lemma sum_weights_snoc ws w :
  sum_weights (ws ++ [w]) = Some (match sum_weights ws with Some s => f32_add s w | None => w end).
Proof. destruct ws as [|v ws]; [done|]. cbn. by rewrite foldl_app. Qed.
Lemma weights_of_snoc d l e :
  weights_of d (l ++ [e]) = weights_of d l ++ (if decide (e.1 = d) then [e.2] else []).
Proof.
  unfold weights_of. rewrite filter_app, fmap_app. f_equal. case_decide; [by rewrite filter_cons_True|by rewrite filter_cons_False].
Qed.
Lemma sum_weights_nonneg ws s : Forall nonneg ws -> sum_weights ws = Some s -> nonneg s.
Proof.
  destruct ws as [|w ws]; [done|]. intros [Hw Hws]%Forall_cons [= <-]. revert w Hw.
  induction Hws as [|v ws Hv Hws IH]; intros w Hw; [done|]. cbn. apply IH. by apply nonneg_add.
Qed.

(** The vector built from a sorted prefix, last entry first. *)
Record merged (processed acc : list (Z * Z)) : Prop := {
  mg_sorted : StronglySorted Z.gt (fst <$> acc);
  mg_sums : forall d x, (d, x) ∈ acc <-> sum_weights (weights_of d processed) = Some x;
  mg_last : forall d w acc', acc = (d, w) :: acc' -> Forall (fun e => e.1 <= d) processed
}.

Lemma processed_above processed d : Forall (fun e : Z * Z => e.1 < d) processed -> weights_of d processed = [].
Proof.
  induction 1 as [|e processed He _ IH]; [done|]. unfold weights_of in *. by rewrite filter_cons_False by lia.
Qed.
Lemma weights_elem d w l : w ∈ weights_of d l <-> (d, w) ∈ l.
Proof.
  unfold weights_of. rewrite list_elem_of_fmap. split.
  - by intros ([d' w'] & -> & [<- Hin]%list_elem_of_filter).
  - intros Hin. exists (d, w). by rewrite list_elem_of_filter.
Qed.
Lemma sum_weights_some ws : is_Some (sum_weights ws) <-> exists w, w ∈ ws.
Proof.
  destruct ws as [|w ws]; cbn.
  - split; [by intros [??] | by intros [w ?%not_elem_of_nil]].
  - split; [|eauto]. intros _. exists w. by left.
Qed.

Lemma merged_new processed acc d w :
  merged processed acc -> Forall (fun e : Z * Z => e.1 < d) processed -> merged (processed ++ [(d, w)]) ((d, w) :: acc).
Proof.
  intros [Hs Hsums Hlast] Hp. pose proof (processed_above _ _ Hp) as Hn. split.
  - rewrite fmap_cons. apply StronglySorted_cons. split; [|done]. apply Forall_fmap, Forall_forall.
    intros [d' w'] Hin%Hsums. cbn. destruct (decide (d' < d)) as [|Hd]; [lia|]. exfalso.
    rewrite processed_above in Hin; [done|]. eapply Forall_impl; [exact Hp|]. cbn. lia.
  - intros d' x. rewrite elem_of_cons, Hsums, weights_of_snoc. cbn [fst snd]. case_decide as Hd.
    + subst d'. rewrite Hn. cbn. naive_solver.
    + rewrite app_nil_r. naive_solver.
  - intros d' w' acc' [= <- <- <-]. apply Forall_app. split; [|by repeat constructor].
    eapply Forall_impl; [exact Hp|]. cbn. lia.
Qed.

Lemma merged_add processed acc d w w' :
  merged processed ((d, w') :: acc) -> merged (processed ++ [(d, w)]) ((d, f32_add w' w) :: acc).
Proof.
  intros [Hs Hsums Hlast]. pose proof (Hlast _ _ _ eq_refl) as Hp. split.
  - done.
  - intros d' x. rewrite fmap_cons in Hs. apply StronglySorted_cons in Hs as [Ha _]. cbn [fst] in Ha.
    rewrite elem_of_cons, weights_of_snoc. cbn [fst snd]. case_decide as Hd.
    + subst d'. rewrite sum_weights_snoc, (proj1 (Hsums d w')) by (by left). split.
      * intros [[= ->]|Hin]; [done|]. exfalso. apply (Forall_fmap fst) in Ha. rewrite Forall_forall in Ha.
        specialize (Ha _ Hin). cbn in Ha. lia.
      * intros [= <-]. by left.
    + rewrite app_nil_r, <- Hsums, elem_of_cons. split; [intros [[=]|?]; auto; congruence|]. intros [[=]|?]; auto; congruence.
  - intros d' w2 acc' [= <- _ _]. apply Forall_app. split; [done|by repeat constructor].
Qed.

Lemma merge_from_spec es acc processed :
  merged processed acc -> StronglySorted Z.le (fst <$> es) ->
  Forall (fun p : Z * Z => Forall (fun e : Z * Z => p.1 <= e.1) es) processed ->
  exists acc', merge_from acc es = reverse acc' /\ merged (processed ++ es) acc'.
Proof.
  revert acc processed. induction es as [|[d w] es IH]; intros acc processed Hm Hs Hp.
  { exists acc. by rewrite app_nil_r. }
  rewrite fmap_cons in Hs. apply StronglySorted_cons in Hs as [Ha Hs]. apply (Forall_fmap fst) in Ha. cbn in Ha.
  assert (Forall (fun p : Z * Z => p.1 <= d) processed) as Hle
    by (eapply Forall_impl; [exact Hp|]; intros p [Hq _]%Forall_cons; exact Hq).
  replace (processed ++ (d, w) :: es) with ((processed ++ [(d, w)]) ++ es) by (by rewrite <- app_assoc).
  assert (Forall (fun p : Z * Z => Forall (fun e : Z * Z => p.1 <= e.1) es) (processed ++ [(d, w)])) as Hp'.
  { apply Forall_app. split; [|by repeat constructor]. eapply Forall_impl; [exact Hp|]. by intros p [_ Hq]%Forall_cons. }
  cbn [merge_from]. destruct acc as [|[d' w'] acc].
  - apply IH; [|done..]. apply merged_new; [done|]. apply Forall_forall. intros [d2 w2] Hin.
    exfalso. assert (is_Some (sum_weights (weights_of d2 processed))) as [s E]
      by (apply sum_weights_some; exists w2; by apply weights_elem).
    apply (mg_sums _ _ Hm) in E. by apply not_elem_of_nil in E.
  - destruct (Z.eqb_spec d' d) as [->|Hd]; [apply IH; [by apply merged_add|done..]|].
    apply IH; [|done..]. apply merged_new; [done|]. pose proof (mg_last _ _ Hm _ _ _ eq_refl) as Hlast.
    assert (d' <= d) as Hdd.
    { assert (is_Some (sum_weights (weights_of d' processed))) as [v Hv]%sum_weights_some
        by (exists w'; apply (mg_sums _ _ Hm); by left).
      apply weights_elem in Hv. rewrite Forall_forall in Hle. by apply (Hle _ Hv). }
    eapply Forall_impl; [exact Hlast|]. cbn. lia.
Qed.

Lemma merged_nil : merged [] [].
Proof. split; [constructor| |done]. intros d x. split; [by intros ?%not_elem_of_nil | done]. Qed.

Lemma sorted_reverse (l : list (Z * Z)) : StronglySorted Z.gt (fst <$> l) -> StronglySorted Z.lt (fst <$> reverse l).
Proof.
  induction l as [|e l IH]; [constructor|]. rewrite fmap_cons. intros [Ha Hs]%StronglySorted_cons.
  rewrite reverse_cons, fmap_app. apply StronglySorted_app_2; [|by apply IH|repeat constructor].
  intros x y Hx Hy. cbn in Hy. apply list_elem_of_singleton in Hy as ->.
  apply list_elem_of_fmap in Hx as (e' & -> & He'). rewrite elem_of_reverse in He'.
  apply (Forall_fmap fst) in Ha. rewrite Forall_forall in Ha. specialize (Ha _ He'). cbn in Ha. lia.
Qed.

(** The merge of a sorted list: ascending dimensions, each with its sum. *)
Lemma merge_spec es :
  StronglySorted Z.le (fst <$> es) ->
  StronglySorted Z.lt (fst <$> merge_from [] es)
  /\ forall d x, (d, x) ∈ merge_from [] es <-> sum_weights (weights_of d es) = Some x.
Proof.
  intros Hs. destruct (merge_from_spec es [] [] merged_nil Hs) as (acc & -> & [Hs' Hsums _]); [constructor|].
  split; [by apply sorted_reverse|]. intros d x. by rewrite elem_of_reverse, Hsums.
Qed.

(** On strictly ascending dimensions the merge does nothing. *)
Lemma merge_strict acc es :
  StronglySorted Z.lt (fst <$> es) ->
  match acc with [] => True | e :: _ => Forall (fun e' : Z * Z => e.1 < e'.1) es end ->
  merge_from acc es = reverse acc ++ es.
Proof.
  revert acc. induction es as [|[d w] es IH]; intros acc Hs Ha; [by rewrite app_nil_r|].
  rewrite fmap_cons in Hs. apply StronglySorted_cons in Hs as [Hd Hs]. apply (Forall_fmap fst) in Hd.
  cbn [merge_from]. destruct acc as [|[d' w'] acc].
  - by rewrite IH.
  - apply Forall_cons in Ha as [Hdd _]. cbn in Hdd. destruct (Z.eqb_spec d' d); [lia|].
    rewrite IH by done. by rewrite (reverse_cons ((d', w') :: acc)), <- app_assoc.
Qed.

Section Canonical.
Context `{UnstableSortLaws}.

Lemma strict_sort_id (l : list (Z * Z)) : StronglySorted Z.lt (fst <$> l) -> sort_unstable_by_dimension l = l.
Proof.
  intros Hs. assert (NoDup (fst <$> l)) as Hnd.
  { clear -Hs. induction l as [|e l IH]; [constructor|]. rewrite fmap_cons in *. apply StronglySorted_cons in Hs as [Ha Hs].
    constructor; [|by apply IH]. intros Hin. rewrite Forall_forall in Ha. by apply (Z.lt_irrefl e.1), Ha. }
  assert (forall a b : list (Z * Z), a ≡ₚ b -> NoDup (fst <$> b) -> StronglySorted Z.le (fst <$> a) ->
            StronglySorted Z.le (fst <$> b) -> a = b) as Huniq.
  { clear. induction a as [|x a IH]; intros b Hp Hnd Ha Hb; [by apply Permutation_nil_l in Hp|].
    destruct b as [|y b]; [by apply Permutation_nil_r in Hp|].
    assert (x = y) as ->.
    { assert (x ∈ y :: b) as Hx by (rewrite <- Hp; by left). assert (y ∈ x :: a) as Hy by (rewrite Hp; by left).
      apply elem_of_cons in Hx as [->|Hx]; [done|]. apply elem_of_cons in Hy as [->|Hy]; [done|].
      rewrite fmap_cons in *. apply StronglySorted_cons in Ha as [Ha _]. apply StronglySorted_cons in Hb as [Hb _].
      apply (Forall_fmap fst) in Ha, Hb. rewrite Forall_forall in Ha, Hb. specialize (Ha _ Hy). specialize (Hb _ Hx).
      apply NoDup_cons in Hnd as [Hn _]. exfalso. apply Hn. cbn in *. assert (x.1 = y.1) as <- by lia.
      by apply list_elem_of_fmap_2. }
    f_equal. rewrite !fmap_cons in *. apply Permutation_cons_inv in Hp. apply NoDup_cons in Hnd as [_ Hnd].
    apply StronglySorted_cons in Ha as [_ Ha]. apply StronglySorted_cons in Hb as [_ Hb]. by apply IH. }
  apply Huniq; [apply sort_unstable_perm|done|apply sort_unstable_sorted|].
  clear -Hs. induction (fst <$> l) as [|x l' IH]; [constructor|]. apply StronglySorted_cons in Hs as [Ha Hs].
  constructor; [by apply IH|]. eapply Forall_impl; [exact Ha|]. cbn. lia.
Qed.

(** A canonical vector. *)
Definition canonical_vector (l : list (Z * Z)) : Prop :=
  l <> [] /\ StronglySorted Z.lt (fst <$> l)
  /\ Forall (fun e => is_finite F32 e.2 = true /\ nonneg e.2 /\ Floats.is_zero F32 e.2 = false) l.

Lemma canonicalize_canonical l : canonical_vector l -> canonicalize_sparse_vector l = Ok (Some l).
Proof.
  intros (Hne & Hs & Hw). unfold canonicalize_sparse_vector, canonicalize_sparse_vector_entries.
  destruct (Nat.eqb_spec (length l) 0); [by destruct l|].
  rewrite (proj2 (validate_weights_spec l)) by (eapply Forall_impl; [exact Hw|]; cbn; tauto).
  rewrite bind_Ok_l, strict_sort_id, merge_strict by done. cbn [reverse app]. cbv zeta.
  assert (filter (fun e : Z * Z => Floats.is_zero F32 e.2 = false) l = l) as Hf.
  { clear -Hw. induction Hw as [|e l (_ & _ & He) _ IH]; [done|]. by rewrite filter_cons_True, IH. }
  change (reverse [] ++ l) with l. rewrite Hf. destruct (Nat.eqb_spec (length l) 0); [by destruct l|].
  rewrite (proj2 (validate_components_spec (snd <$> l))); [done|]. apply Forall_fmap.
  eapply Forall_impl; [exact Hw|]. by intros ? (? & _).
Qed.

Lemma canonicalize_spec v w :
  canonicalize_sparse_vector v = Ok (Some w) ->
  canonical_vector w
  /\ forall d x, (d, x) ∈ w <-> sum_weights (weights_of d (sort_unstable_by_dimension v)) = Some x
                               /\ Floats.is_zero F32 x = false.
Proof.
  unfold canonicalize_sparse_vector, canonicalize_sparse_vector_entries. intros E.
  destruct (Nat.eqb_spec (length v) 0); [done|]. apply bind_Ok_inv in E as ([] & Hv & E).
  apply validate_weights_spec in Hv. cbv zeta in E.
  destruct (merge_spec (sort_unstable_by_dimension v) (sort_unstable_sorted v)) as [Hs Hsums].
  set (m := merge_from [] (sort_unstable_by_dimension v)) in *.
  destruct (Nat.eqb_spec (length (filter (fun e : Z * Z => Floats.is_zero F32 e.2 = false) m)) 0) as [|Hl]; [done|].
  apply bind_Ok_inv in E as ([] & Hfin & E). apply Ok_inj in E. injection E as <-.
  apply validate_components_spec, Forall_fmap in Hfin. split.
  - split; [by intros Hn; rewrite Hn in Hl|]. split.
    + clear -Hs. induction m as [|e m IH]; [constructor|]. rewrite fmap_cons in Hs. apply StronglySorted_cons in Hs as [Ha Hs].
      destruct (decide (Floats.is_zero F32 e.2 = false)); [rewrite filter_cons_True by done|rewrite filter_cons_False by done; by apply IH].
      rewrite fmap_cons. apply StronglySorted_cons. split; [|by apply IH]. apply Forall_fmap. apply (Forall_fmap fst) in Ha.
      rewrite Forall_forall in Ha. apply Forall_forall. intros e' [_ He']%list_elem_of_filter. by apply Ha.
    + rewrite Forall_forall in Hfin. apply Forall_forall. intros [d x] Hin. pose proof (Hfin _ Hin) as Hf.
      apply list_elem_of_filter in Hin as [Hz Hin%Hsums]. split_and!; [done| |done].
      eapply sum_weights_nonneg; [|exact Hin]. apply Forall_forall. intros y Hy%weights_elem.
      rewrite sort_unstable_perm in Hy. rewrite Forall_forall in Hv. by apply (Hv (d, y)).
  - intros d x. rewrite list_elem_of_filter, Hsums. cbn. tauto.
Qed.

(** The canonical form of a sparse vector: when canonicalization returns a
    vector, its dimensions strictly ascend, its weights are finite, positive
    numbers, the weight of a dimension is the sum of the weights given for it
    (dimensions whose sum is zero are dropped), and canonicalizing it again
    changes nothing, however the unstable sort breaks ties. *)
Theorem sparse_canonical_form v w :
  canonicalize_sparse_vector v = Ok (Some w) ->
  StronglySorted Z.lt (fst <$> w)
  /\ Forall (fun e => is_finite F32 e.2 = true /\ sign_bit F32 e.2 = false /\ Floats.is_zero F32 e.2 = false) w
  /\ (forall d x, (d, x) ∈ w <-> sum_weights (weights_of d (sort_unstable_by_dimension v)) = Some x
                                 /\ Floats.is_zero F32 x = false)
  /\ canonicalize_sparse_vector w = Ok (Some w).
Proof.
  intros [Hc Hsums]%canonicalize_spec. split_and!; [apply Hc| |done|by apply canonicalize_canonical].
  destruct Hc as (_ & _ & Hw). eapply Forall_impl; [exact Hw|]. intros e (Hf & [Hn|Hz] & Hnz); [done|congruence].
Qed.

(** Normalizing an operation twice is normalizing it once. *)
Lemma normalize_idempotent config op op' :
  normalize_wal_op_for_write config op = Ok op' -> normalize_wal_op_for_write config op' = Ok op'.
Proof.
  destruct op as [node| | | | | | |]; cbn [normalize_wal_op_for_write]; intros E;
    try (apply Ok_inj in E as <-; done); try done.
  apply bind_Ok_inv in E as ([dense sparse] & En & E). apply Ok_inj in E as <-.
  cbn [normalize_wal_op_for_write with_vectors nr_dense_vector nr_sparse_vector].
  assert (normalize_node_vectors_for_write config dense sparse = Ok (dense, sparse)) as ->; [|done].
  unfold normalize_node_vectors_for_write in *. apply bind_Ok_inv in En as (d & Ed & En).
  apply bind_Ok_inv in En as (s & Es & En). apply Ok_inj in En. injection En as <- <-.
  assert ((match d with
           | Some values => match config with
              | None => Err (InvalidOperation "dense vector writes require DbOptions::dense_vector to be configured")
              | Some config => _ ← validate_dense_vector values config; Ok (Some values)
              end
           | None => Ok None
           end : res (option (list Z))) = Ok d) as ->.
  { destruct (nr_dense_vector node) as [values|]; [|by apply Ok_inj in Ed as <-]. destruct config as [config|]; [|done].
    apply bind_Ok_inv in Ed as ([] & Hv & Ed). apply Ok_inj in Ed as <-. by rewrite Hv. }
  rewrite bind_Ok_l. destruct s as [s|]; [|done]. destruct (nr_sparse_vector node) as [values|]; [|done].
  destruct (canonicalize_spec _ _ Es) as [Hc _]. by rewrite (canonicalize_canonical s Hc).
Qed.
End Canonical.
