(* ===== verification/DegreeEngine.v ===== *)
(** Degree maintenance of the engine (src/engine/mod.rs, src/engine/graph_ops.rs):
    what an edge contributes to the degrees of its endpoints, the deltas of an
    operation, and the fast path that reads degrees from the summed deltas. *)
From S2P Require Import Prelude Types Floats PropertyValue CompoundKey Slots Memtable MemtableReads DegreeCache.

Record EdgeCore : Type := mkEdgeCore {
  ec_from : Z;
  ec_to : Z;
  ec_created_at : Z;
  ec_updated_at : Z;
  ec_weight : Z;
  ec_valid_from : Z;
  ec_valid_to : Z
}.
(** [OldEdgeInfo::from_core] copies the fields. *)
Abbreviation OldEdgeInfo := EdgeCore.

Definition is_edge_valid_at (valid_from valid_to reference_time : Z) : bool :=
  (valid_from <=? reference_time) && (reference_time <? valid_to).
Definition is_cache_bypass_edge (valid_from valid_to created_at : Z) : bool :=
  negb (valid_to =? i64_max) || (created_at <? valid_from).

Abbreviation Deltas := (gmap Z DegreeDelta).

Definition add_degree_delta (deltas : Deltas) (node_id : Z) (delta : DegreeDelta) : Deltas :=
  Overlay.add_to_map deltas node_id delta.

Definition add_valid_edge_delta (deltas : Deltas) (from to weight : Z) (add : bool) : Deltas :=
  let from_delta := if add then Delta.add_valid_edge from to weight else Delta.remove_valid_edge from to weight in
  let deltas := add_degree_delta deltas from from_delta in
  if from =? to then deltas
  else
    let to_delta := if add then Delta.add_valid_edge_incoming weight else Delta.remove_valid_edge_incoming weight in
    add_degree_delta deltas to to_delta.

Definition add_temporal_edge_delta (deltas : Deltas) (from to : Z) (add : bool) : Deltas :=
  let delta := if add then Delta.add_temporal_marker else Delta.remove_temporal_marker in
  let deltas := add_degree_delta deltas from delta in
  if from =? to then deltas else add_degree_delta deltas to delta.

Definition collect_edge (add : bool) (deltas : Deltas) (edge : EdgeCore) : Deltas :=
  let deltas :=
    if is_edge_valid_at (ec_valid_from edge) (ec_valid_to edge) (ec_updated_at edge)
    then add_valid_edge_delta deltas (ec_from edge) (ec_to edge) (ec_weight edge) add else deltas in
  if is_cache_bypass_edge (ec_valid_from edge) (ec_valid_to edge) (ec_created_at edge)
  then add_temporal_edge_delta deltas (ec_from edge) (ec_to edge) add else deltas.
Definition collect_degree_delta_for_old_edge := collect_edge false.
Definition core_of (edge : EdgeRecord) : EdgeCore :=
  mkEdgeCore (er_from edge) (er_to edge) (er_created_at edge) (er_updated_at edge) (er_weight edge)
    (er_valid_from edge) (er_valid_to edge).
Definition collect_degree_delta_for_new_edge (deltas : Deltas) (edge : EdgeRecord) : Deltas :=
  collect_edge true deltas (core_of edge).

Definition collect_old (deltas : Deltas) (old_edge : option OldEdgeInfo) : Deltas :=
  match old_edge with Some old => collect_degree_delta_for_old_edge deltas old | None => deltas end.
Definition collect_degree_delta_for_op (op : WalOp) (old_edge : option OldEdgeInfo) (deltas : Deltas) : Deltas :=
  match op with
  | UpsertEdge edge => collect_degree_delta_for_new_edge (collect_old deltas old_edge) edge
  | DeleteEdge _ _ => collect_old deltas old_edge
  | _ => deltas
  end.

Definition edge_id_for_degree_op (op : WalOp) : option Z :=
  match op with
  | UpsertEdge edge => Some (er_id edge)
  | DeleteEdge id _ => Some id
  | _ => None
  end.
Definition edge_core_after_op (op : WalOp) : option EdgeCore :=
  match op with UpsertEdge edge => Some (core_of edge) | _ => None end.

(** Which shards an edit owns alone is a matter of the live readers. *)
Class Sharing : Type := { owned_shard : DegreeOverlaySnapshot -> nat -> nat -> bool }.

Section Apply.
Context `{HashOrder, Sharing}.

(** [apply_degree_deltas_to_active_overlay] *)
Definition apply_degree_deltas (overlay : DegreeOverlaySnapshot) (deltas : Deltas) : option DegreeOverlaySnapshot :=
  if decide (deltas = ∅) then Some overlay
  else edit ← Overlay.add_all overlay (hash_iter deltas); Some (Overlay.finish (owned_shard edit) edit).

(** [DegreeOverlaySnapshot::from_flat] *)
Definition overlay_from_flat (entries : Deltas) : option DegreeOverlaySnapshot :=
  if decide (entries = ∅) then Some Overlay.empty
  else edit ← Overlay.add_all Overlay.empty (hash_iter entries); Some (Overlay.finish (owned_shard edit) edit).
End Apply.

(** ** Reading *)
(** A degree as the fast path sums it: the active overlay, the overlays of the
    immutable epochs, the segments ([None]: a segment has no sidecar). *)
Fixpoint sum_segments (sum : DegreeDelta) (segments : list (option DegreeDelta)) : option DegreeDelta :=
  match segments with
  | [] => Some sum
  | None :: _ => None
  | Some delta :: segments => sum_segments (Delta.add_assign_delta sum delta) segments
  end.
Definition degree_delta_sum (active : DegreeDelta) (epochs : list DegreeDelta) (segments : list (option DegreeDelta))
  : option DegreeDelta := sum_segments (foldl Delta.add_assign_delta active epochs) segments.

Definition degree_fast_path_globally_eligible {P} (label_filter_ids : option (list Z)) (at_epoch : option Z)
  (prune_policies : list P) : bool :=
  match label_filter_ids, at_epoch, prune_policies with None, None, [] => true | _, _, _ => false end.

Definition degree_entry_fast_path (sum : option DegreeDelta) : option DegreeEntry :=
  sum ← sum;
  let entry := apply_delta sum in
  if de_temporal_edge_count entry =? 0 then Some entry else None.

Definition degree_entry_stats (entry : DegreeEntry) (direction : Direction) : Z * Z :=
  match direction with
  | Outgoing =>
      let count := de_out_degree entry in (count, if count =? 0 then 0 else de_out_weight_sum entry)
  | Incoming =>
      let count := de_in_degree entry in (count, if count =? 0 then 0 else de_in_weight_sum entry)
  | Both =>
      let count := Z.max 0 (Z.min u64_max (de_out_degree entry + de_in_degree entry) - de_self_loop_count entry) in
      (count, if count =? 0 then 0
              else f64_sub (f64_add (de_out_weight_sum entry) (de_in_weight_sum entry)) (de_self_loop_weight_sum entry))
  end.
Definition degree_fast_path_result (sum : option DegreeDelta) (direction : Direction) : option (Z * Z) :=
  entry ← degree_entry_fast_path sum; Some (degree_entry_stats entry direction).
