(* ===== verification/DegreeCounts.v ===== *)
(** The integer counters of the degree overlay count edges: adding an edge's
    delta adds its contribution to each endpoint, through the map of deltas of
    a batch and the shards of the overlay. *)
From S2P Require Import Prelude Types Floats PropertyValue CompoundKey Slots Memtable MemtableReads DegreeCache DegreeEngine.

(** ** Wrapping sums *)
Lemma to_of_bits_64 b : 0 <= b < 2 ^ 64 -> to_bits 64 (of_bits 64 b) = b.
Proof.
  intros Hb. unfold to_bits, of_bits. destruct (Z.ltb_spec b (2 ^ (64 - 1))); [by apply Z.mod_small|].
  replace (b - 2 ^ 64) with (b + (-1) * 2 ^ 64) by lia. rewrite Z.mod_add by lia. by apply Z.mod_small.
Qed.
Lemma wrap_bits z : to_bits 64 (wrap_i64 z) = to_bits 64 z.
Proof. unfold wrap_i64. apply to_of_bits_64, to_bits_range. lia. Qed.
Lemma wrap_eq a b : to_bits 64 a = to_bits 64 b -> wrap_i64 a = wrap_i64 b.
Proof. unfold wrap_i64. by intros ->. Qed.
Lemma wrap_add_l a b : wrap_i64 (wrap_i64 a + b) = wrap_i64 (a + b).
Proof.
  apply wrap_eq. pose proof (wrap_bits a) as E. unfold to_bits in *.
  by rewrite Z.add_mod, E, <- Z.add_mod by lia.
Qed.
Lemma wrap_add_r a b : wrap_i64 (a + wrap_i64 b) = wrap_i64 (a + b).
Proof. rewrite (Z.add_comm a (wrap_i64 b)), wrap_add_l. f_equal. lia. Qed.
Lemma wrap_wrap a : wrap_i64 (wrap_i64 a) = wrap_i64 a.
Proof. apply wrap_eq, wrap_bits. Qed.
Lemma wrap_small z : i64 z -> wrap_i64 z = z.
Proof. apply of_to_bits_64. Qed.

(** ** Counters *)
Inductive Counter : Type := COut | CIn | CLoop | CTemporal.
Definition counter (k : Counter) (d : DegreeDelta) : Z :=
  match k with
  | COut => dd_out_degree d
  | CIn => dd_in_degree d
  | CLoop => dd_self_loop_count d
  | CTemporal => dd_temporal_edge_count d
  end.

Lemma counter_zero k d : Delta.is_zero d = true -> counter k d = 0.
Proof. unfold Delta.is_zero. rewrite !andb_true_iff, !Z.eqb_eq. destruct k; cbn; tauto. Qed.
Lemma counter_add k a b : counter k (Delta.add_assign_delta a b) = wrap_i64 (counter k a + counter k b).
Proof. by destruct k. Qed.

(** What an edge adds to a node's counter. *)
Definition contribution (k : Counter) (e : EdgeCore) (x : Z) : Z :=
  let valid := is_edge_valid_at (ec_valid_from e) (ec_valid_to e) (ec_updated_at e) in
  let bypass := is_cache_bypass_edge (ec_valid_from e) (ec_valid_to e) (ec_created_at e) in
  Z.b2z match k with
        | COut => valid && (ec_from e =? x)
        | CIn => valid && (ec_to e =? x)
        | CLoop => valid && (ec_from e =? x) && (ec_to e =? x)
        | CTemporal => bypass && ((ec_from e =? x) || (ec_to e =? x))
        end.

(** ** The map of deltas *)
Definition map_count (k : Counter) (m : Deltas) (x : Z) : Z := counter k (default Delta.ZERO (m !! x)).

Lemma add_to_map_count k m n d x t :
  map_count k m x = wrap_i64 t ->
  map_count k (Overlay.add_to_map m n d) x = wrap_i64 (t + if decide (n = x) then counter k d else 0).
Proof.
  intros Ht. unfold Overlay.add_to_map, map_count in *. destruct (Delta.is_zero d) eqn:Ed.
  { rewrite Ht. f_equal. case_decide; [rewrite counter_zero by done|]; lia. }
  cbv zeta. destruct (decide (n = x)) as [->|Hn].
  - rewrite <- wrap_add_l, <- Ht, <- counter_add. destruct (Delta.is_zero (Delta.add_assign_delta _ d)) eqn:Es.
    + rewrite lookup_delete_eq, (counter_zero k _ Es). by destruct k.
    + by rewrite lookup_insert_eq.
  - rewrite Z.add_0_r, <- Ht. destruct (Delta.is_zero (Delta.add_assign_delta _ _)); [by rewrite lookup_delete_ne|by rewrite lookup_insert_ne].
Qed.

Definition signed (add : bool) (z : Z) : Z := if add then z else - z.

Lemma counter_valid k from to weight (add : bool) :
  counter k (if add then Delta.add_valid_edge from to weight else Delta.remove_valid_edge from to weight)
  = signed add (match k with COut => 1 | CIn | CLoop => Z.b2z (from =? to) | CTemporal => 0 end).
Proof.
  unfold Delta.remove_valid_edge, Delta.add_valid_edge. by destruct add, k, (from =? to).
Qed.

Lemma collect_edge_count k (add : bool) m e x t :
  map_count k m x = wrap_i64 t ->
  map_count k (collect_edge add m e) x = wrap_i64 (t + signed add (contribution k e x)).
Proof.
  intros Ht. unfold collect_edge, contribution. cbv zeta.
  set (valid := is_edge_valid_at _ _ _). set (bypass := is_cache_bypass_edge _ _ _).
  assert (map_count k (if valid then add_valid_edge_delta m (ec_from e) (ec_to e) (ec_weight e) add else m) x
    = wrap_i64 (t + signed add (Z.b2z match k with
        | COut => valid && (ec_from e =? x)
        | CIn => valid && (ec_to e =? x)
        | CLoop => valid && (ec_from e =? x) && (ec_to e =? x)
        | CTemporal => false
        end))) as H1.
  { destruct valid; [|rewrite Ht; f_equal; destruct k, add; cbn; lia].
    unfold add_valid_edge_delta, add_degree_delta. cbv zeta.
    pose proof (add_to_map_count k m (ec_from e) (if add then Delta.add_valid_edge (ec_from e) (ec_to e) (ec_weight e)
      else Delta.remove_valid_edge (ec_from e) (ec_to e) (ec_weight e)) x t Ht) as H1.
    rewrite counter_valid in H1.
    destruct (Z.eqb_spec (ec_from e) (ec_to e)) as [E|E].
    - rewrite H1, <- E. f_equal. f_equal. case_decide as Hx.
      + rewrite (proj2 (Z.eqb_eq _ _) Hx). by destruct k, add.
      + rewrite (proj2 (Z.eqb_neq _ _) Hx). by destruct k, add.
    - apply (add_to_map_count k _ (ec_to e) (if add then Delta.add_valid_edge_incoming (ec_weight e)
        else Delta.remove_valid_edge_incoming (ec_weight e))) in H1. rewrite H1. f_equal.
      assert (counter k (if add then Delta.add_valid_edge_incoming (ec_weight e) else Delta.remove_valid_edge_incoming (ec_weight e))
        = signed add (match k with CIn => 1 | _ => 0 end)) as -> by (by destruct add, k).
      destruct (decide (ec_from e = x)) as [Hf|Hf], (decide (ec_to e = x)) as [Hto|Hto]; try congruence;
        rewrite ?(proj2 (Z.eqb_eq _ _) Hf), ?(proj2 (Z.eqb_neq _ _) Hf), ?(proj2 (Z.eqb_eq _ _) Hto), ?(proj2 (Z.eqb_neq _ _) Hto);
        destruct k, add; cbn; lia. }
  destruct bypass; [|rewrite H1; f_equal; by destruct k].
  unfold add_temporal_edge_delta, add_degree_delta. cbv zeta.
  assert (counter k (if add then Delta.add_temporal_marker else Delta.remove_temporal_marker)
    = signed add (match k with CTemporal => 1 | _ => 0 end)) as Hc by (by destruct add, k).
  apply (add_to_map_count k _ (ec_from e) (if add then Delta.add_temporal_marker else Delta.remove_temporal_marker)) in H1.
  rewrite Hc in H1. destruct (Z.eqb_spec (ec_from e) (ec_to e)) as [E|E].
  - rewrite H1. f_equal. rewrite <- E. case_decide as Hx;
      [rewrite (proj2 (Z.eqb_eq _ _) Hx)|rewrite (proj2 (Z.eqb_neq _ _) Hx)]; destruct k, add, valid; cbn; lia.
  - apply (add_to_map_count k _ (ec_to e) (if add then Delta.add_temporal_marker else Delta.remove_temporal_marker)) in H1.
    rewrite Hc in H1. rewrite H1. f_equal.
    destruct (decide (ec_from e = x)) as [Hf|Hf], (decide (ec_to e = x)) as [Hto|Hto]; try congruence;
      rewrite ?(proj2 (Z.eqb_eq _ _) Hf), ?(proj2 (Z.eqb_neq _ _) Hf), ?(proj2 (Z.eqb_eq _ _) Hto), ?(proj2 (Z.eqb_neq _ _) Hto);
      destruct k, add, valid; cbn; lia.
Qed.

(** ** The overlay *)
(** 8 groups of 128 shards: then no lookup is out of range. *)
Definition layout_ok (groups : DegreeOverlaySnapshot) : Prop :=
  length groups = 8%nat /\ Forall (fun group => length group = 128%nat) groups.

Lemma shard_bounds x : (Overlay.group_index x < 8)%nat /\ (Overlay.local_index x < 128)%nat.
Proof.
  unfold Overlay.group_index, Overlay.local_index, Overlay.degree_overlay_shard_index.
  unfold DEGREE_OVERLAY_SHARD_COUNT, DEGREE_OVERLAY_GROUP_SIZE. change (1024 - 1) with (Z.ones 10).
  rewrite Z.land_ones by lia. pose proof (Z.mod_pos_bound x (2 ^ 10) ltac:(lia)).
  pose proof (Z.mod_pos_bound (x mod 2 ^ 10) 128 ltac:(lia)). pose proof (Z.div_mod (x mod 2 ^ 10) 128 ltac:(lia)). lia.
Qed.

Lemma shard_exists groups x : layout_ok groups -> is_Some (Overlay.shard_of groups x).
Proof.
  intros [Hl Hg]. destruct (shard_bounds x) as [H1 H2]. unfold Overlay.shard_of. rewrite <- Hl in H1.
  apply lookup_lt_is_Some_2 in H1 as [group Hgr]. rewrite Hgr. cbn [mbind option_bind].
  apply lookup_lt_is_Some_2. rewrite Forall_forall in Hg. rewrite (Hg group); [done|]. by eapply list_elem_of_lookup_2.
Qed.

Lemma empty_layout : layout_ok Overlay.empty.
Proof. unfold layout_ok, Overlay.empty. split; [done|]. apply Forall_replicate. by rewrite length_replicate. Qed.

Lemma put_shard_layout groups x shard : layout_ok groups -> layout_ok (Overlay.put_shard groups x shard).
Proof.
  intros [Hl Hg]. unfold Overlay.put_shard. split; [by rewrite length_alter|].
  apply Forall_forall. intros group Hin. apply list_elem_of_lookup in Hin as (i & Hi).
  rewrite list_lookup_alter in Hi. rewrite Forall_forall in Hg.
  case_decide as E; [|by apply Hg; eapply list_elem_of_lookup_2].
  subst i. destruct (groups !! Overlay.group_index x) as [g|] eqn:Eg; [|done]. injection Hi as <-.
  rewrite length_insert. apply Hg. by eapply list_elem_of_lookup_2.
Qed.

Lemma shard_put groups x shard y :
  layout_ok groups ->
  Overlay.shard_of (Overlay.put_shard groups x shard) y
  = if decide (Overlay.group_index x = Overlay.group_index y /\ Overlay.local_index x = Overlay.local_index y)
    then Some shard else Overlay.shard_of groups y.
Proof.
  intros [Hl Hg]. destruct (shard_bounds x) as [H1 H2]. unfold Overlay.shard_of, Overlay.put_shard.
  rewrite list_lookup_alter. rewrite <- Hl in H1. apply lookup_lt_is_Some_2 in H1 as [group Hgr].
  assert (length group = 128%nat) as Hlen by (rewrite Forall_forall in Hg; apply Hg; by eapply list_elem_of_lookup_2).
  destruct (decide (Overlay.group_index x = Overlay.group_index y)) as [E|E].
  - rewrite <- E, Hgr. cbn [fmap option_fmap option_map mbind option_bind].
    destruct (decide (Overlay.local_index x = Overlay.local_index y)) as [E'|E'].
    + rewrite decide_True by done. rewrite <- E'. apply list_lookup_insert_eq. lia.
    + rewrite decide_False by tauto. by rewrite list_lookup_insert_ne.
  - by rewrite decide_False by tauto.
Qed.

Definition overlay_count (k : Counter) (groups : DegreeOverlaySnapshot) (x : Z) : Z :=
  counter k (default Delta.ZERO (Overlay.get groups x)).

Lemma get_shard groups x shard :
  Overlay.shard_of groups x = Some shard -> Overlay.get groups x = Some (default Delta.ZERO (shard !! x)).
Proof. unfold Overlay.get. by intros ->. Qed.

Lemma add_delta_spec groups n d :
  layout_ok groups ->
  exists groups', Overlay.add_delta groups n d = Some groups' /\ layout_ok groups'
    /\ forall k x t, overlay_count k groups x = wrap_i64 t ->
         overlay_count k groups' x = wrap_i64 (t + if decide (n = x) then counter k d else 0).
Proof.
  intros Hok. unfold Overlay.add_delta. destruct (Delta.is_zero d) eqn:Ed.
  { exists groups. split; [done|]. split; [done|]. intros k x t ->. f_equal. case_decide; [rewrite counter_zero by done|]; lia. }
  destruct (shard_exists groups n Hok) as [shard Hs]. rewrite Hs. cbn [mbind option_bind].
  eexists. split; [done|]. split; [by apply put_shard_layout|]. intros k x t Ht. unfold overlay_count in *.
  pose proof (shard_put groups n (Overlay.add_to_map shard n d) x Hok) as Hp. case_decide as E.
  - rewrite (get_shard _ _ _ Hp). cbn [default]. apply add_to_map_count. unfold map_count. rewrite <- Ht.
    assert (Overlay.shard_of groups x = Some shard) as Hs'.
    { unfold Overlay.shard_of in *. by rewrite <- (proj1 E), <- (proj2 E). }
    by rewrite (get_shard _ _ _ Hs').
  - assert (n <> x) as Hn by (intros ->; by apply E). rewrite decide_False, Z.add_0_r, <- Ht by done.
    unfold Overlay.get. by rewrite Hp.
Qed.

(** The total a list of entries adds to a node. *)
Fixpoint entries_count (k : Counter) (es : list (Z * DegreeDelta)) (x : Z) : Z :=
  match es with
  | [] => 0
  | (n, d) :: es => (if decide (n = x) then counter k d else 0) + entries_count k es x
  end.

Lemma add_all_spec es groups :
  layout_ok groups ->
  exists groups', Overlay.add_all groups es = Some groups' /\ layout_ok groups'
    /\ forall k x t, overlay_count k groups x = wrap_i64 t ->
         overlay_count k groups' x = wrap_i64 (t + entries_count k es x).
Proof.
  unfold Overlay.add_all. revert groups. induction es as [|[n d] es IH]; intros groups Hok.
  { exists groups. split; [done|]. split; [done|]. intros k x t ->. f_equal. cbn. lia. }
  cbn [foldl mbind option_bind fst snd]. destruct (add_delta_spec groups n d Hok) as (groups1 & -> & Hok1 & Hc1).
  destruct (IH groups1 Hok1) as (groups2 & -> & Hok2 & Hc2). exists groups2. split; [done|]. split; [done|].
  intros k x t Ht. rewrite (Hc2 k x _ (Hc1 k x t Ht)). f_equal. cbn [entries_count]. lia.
Qed.

Lemma entries_count_map k (m : Deltas) es x : es ≡ₚ map_to_list m -> entries_count k es x = map_count k m x.
Proof.
  intros Hp. assert (NoDup (fst <$> es)) as Hnd by (rewrite Hp; apply NoDup_fst_map_to_list).
  unfold map_count. destruct (m !! x) as [d|] eqn:E.
  - assert ((x, d) ∈ es) as Hin by (rewrite Hp; by apply elem_of_map_to_list). clear Hp E.
    induction es as [|[n d'] es IH]; [by apply not_elem_of_nil in Hin|]. cbn [entries_count].
    rewrite fmap_cons in Hnd. apply NoDup_cons in Hnd as [Hn Hnd]. apply elem_of_cons in Hin as [[= <- <-]|Hin].
    + rewrite decide_True by done. assert (entries_count k es x = 0) as ->; [|cbn; lia].
      clear IH Hnd. induction es as [|[n d'] es IH]; [done|]. cbn in *. apply not_elem_of_cons in Hn as [? Hn].
      rewrite decide_False, IH by congruence. done.
    + rewrite decide_False, IH by (done || intros ->; apply Hn; by apply (list_elem_of_fmap_2 fst _ (x, d))). done.
  - assert (forall d, (x, d) ∉ es) as Hn by (intros d; rewrite Hp, elem_of_map_to_list; congruence). clear Hp Hnd E.
    transitivity 0; [|by destruct k]. induction es as [|[n d] es IH]; [done|]. cbn [entries_count].
    rewrite decide_False by (intros ->; apply (Hn d); by left). rewrite IH; [done|]. intros d' Hin. apply (Hn d'). by right.
Qed.

Lemma finish_spec owned groups :
  layout_ok groups ->
  layout_ok (Overlay.finish owned groups)
  /\ forall k x, overlay_count k (Overlay.finish owned groups) x = overlay_count k groups x.
Proof.
  intros [Hl Hg]. unfold Overlay.finish. split.
  - split; [by rewrite length_imap|]. apply Forall_forall. intros group (i & Hi)%list_elem_of_lookup.
    rewrite list_lookup_imap in Hi. destruct (groups !! i) as [g|] eqn:Eg; [|done]. injection Hi as <-.
    rewrite length_imap. rewrite Forall_forall in Hg. apply Hg. by eapply list_elem_of_lookup_2.
  - intros k x. unfold overlay_count, Overlay.get, Overlay.shard_of. rewrite list_lookup_imap.
    destruct (groups !! Overlay.group_index x) as [group|]; [|done]. cbn [fmap option_fmap option_map mbind option_bind].
    rewrite list_lookup_imap. destruct (group !! Overlay.local_index x) as [shard|]; [|done].
    cbn [fmap option_fmap option_map mbind option_bind default]. destruct (owned _ _); [|done].
    rewrite map_lookup_filter. destruct (shard !! x) as [d|]; [|done]. cbn.
    destruct (Delta.is_zero d) eqn:Ez; cbn; [rewrite (counter_zero k d) by done; by destruct k|done].
Qed.

Section Applied.
Context `{HashOrderLaws, Sharing}.

(** Applying the deltas of a batch adds them to every counter. *)
Lemma apply_deltas_spec overlay deltas :
  layout_ok overlay ->
  exists overlay', apply_degree_deltas overlay deltas = Some overlay' /\ layout_ok overlay'
    /\ forall k x t, overlay_count k overlay x = wrap_i64 t ->
         overlay_count k overlay' x = wrap_i64 (t + map_count k deltas x).
Proof.
  intros Hok. unfold apply_degree_deltas. destruct (decide (deltas = ∅)) as [->|_].
  { exists overlay. split; [done|]. split; [done|]. intros k x t ->. f_equal. unfold map_count. rewrite lookup_empty. destruct k; cbn; lia. }
  destruct (add_all_spec (hash_iter deltas) overlay Hok) as (edit & -> & Hoke & Hc). cbn [mbind option_bind].
  destruct (finish_spec (owned_shard edit) edit Hoke) as [Hokf Hf]. eexists. split; [done|]. split; [done|].
  intros k x t Ht. rewrite Hf, (Hc k x t Ht). do 2 f_equal. apply entries_count_map, hash_iter_perm.
Qed.

Lemma empty_count k x : overlay_count k Overlay.empty x = 0.
Proof.
  unfold overlay_count. destruct (shard_exists Overlay.empty x empty_layout) as [shard Hs].
  rewrite (get_shard _ _ _ Hs). unfold Overlay.shard_of, Overlay.empty in Hs.
  apply bind_Some in Hs as (group & Hg & Hs). apply lookup_replicate in Hg as [-> _].
  apply lookup_replicate in Hs as [-> _]. rewrite lookup_empty. by destruct k.
Qed.

Lemma from_flat_spec deltas :
  exists overlay, overlay_from_flat deltas = Some overlay /\ layout_ok overlay
    /\ forall k x t, map_count k deltas x = wrap_i64 t -> overlay_count k overlay x = wrap_i64 t.
Proof.
  destruct (apply_deltas_spec Overlay.empty deltas empty_layout) as (overlay & E & Hok & Hc). exists overlay.
  split; [exact E|]. split; [done|]. intros k x t Ht. rewrite (Hc k x 0) by (by rewrite empty_count).
  by rewrite Z.add_0_l, Ht, wrap_wrap.
Qed.
End Applied.
