(* ===== verification/Engine.v ===== *)
(** The write path of the engine and the replay of its log (src/engine/mod.rs):
    assign sequence numbers, append to the write-ahead log, apply the label
    operations to the catalog and every operation to the memtable, and collect
    the degree deltas; and, on opening, the same from the log.

    An [EngineCore] is what these read and write.  The log is the file of the
    active generation in immediate mode (an append is durable when it returns);
    the atomic mirrors of counters that other threads poll are left out. *)
From S2P Require Import Prelude Types Encoding Wal PropertyValue CompoundKey Slots Memtable MemtableReads DegreeCache Manifest LabelCatalog Vectors DegreeEngine.

(** What the write path asks of a segment; [get_edge_core] may fail to read. *)
Record EdgeSegment : Type := mkEdgeSegment {
  sg_is_edge_deleted : Z -> bool;
  sg_get_edge_core : Z -> res (option EdgeCore);
  sg_degree_delta : Z -> option DegreeDelta
}.
Record ImmutableEpoch : Type := mkEpoch {
  ep_epoch_id : Z;
  ep_wal_generation_id : Z;
  ep_memtable : MemtableState;
  ep_degree_overlay : DegreeOverlaySnapshot
}.

(** ** The newest source that knows an edge decides *)
Definition get_edge_core_at (st : MemtableState) (id snapshot_seq : Z) : option EdgeCore :=
  core_of <$> edge_at st id snapshot_seq.

Fixpoint edge_core_from_segments (segments : list EdgeSegment) (id : Z) : res (option EdgeCore) :=
  match segments with
  | [] => Ok None
  | seg :: segments =>
      if sg_is_edge_deleted seg id then Ok None
      else
        found ← sg_get_edge_core seg id;
        match found with
        | Some edge => Ok (Some edge)
        | None => edge_core_from_segments segments id
        end
  end.
Fixpoint edge_core_from_epochs (epochs : list ImmutableEpoch) (segments : list EdgeSegment) (id : Z)
  : res (option EdgeCore) :=
  match epochs with
  | [] => edge_core_from_segments segments id
  | epoch :: epochs =>
      match get_edge_core_at (ep_memtable epoch) id u64_max with
      | Some edge => Ok (Some edge)
      | None =>
          if edge_deleted_at (ep_memtable epoch) id u64_max then Ok None
          else edge_core_from_epochs epochs segments id
      end
  end.
Definition get_edge_core_from_sources (memtable : MemtableState) (immutable_epochs : list ImmutableEpoch)
  (segments : list EdgeSegment) (id : Z) : res (option EdgeCore) :=
  match get_edge_core_at memtable id u64_max with
  | Some edge => Ok (Some edge)
  | None =>
      if edge_deleted_at memtable id u64_max then Ok None
      else edge_core_from_epochs immutable_epochs segments id
  end.

Abbreviation EdgeStates := (gmap Z (option EdgeCore)).

(** [capture_batch_edge_states] and [capture_replay_batch_edge_states]: the
    state before the batch of every edge it touches. *)
Fixpoint capture_edge_states (get : Z -> res (option EdgeCore)) (ops : list WalOp) (states : EdgeStates)
  : res EdgeStates :=
  match ops with
  | [] => Ok states
  | op :: ops =>
      match edge_id_for_degree_op op with
      | None => capture_edge_states get ops states
      | Some edge_id =>
          match states !! edge_id with
          | Some _ => capture_edge_states get ops states
          | None =>
              state ← get edge_id;
              capture_edge_states get ops (<[edge_id := state]> states)
          end
      end
  end.
Definition old_edge_of (states : EdgeStates) (op : WalOp) : option OldEdgeInfo :=
  edge_id ← edge_id_for_degree_op op; state ← states !! edge_id; state.
Definition note_edge_state (states : EdgeStates) (op : WalOp) : EdgeStates :=
  match edge_id_for_degree_op op with
  | Some edge_id => <[edge_id := edge_core_after_op op]> states
  | None => states
  end.

Record EngineCore `{Schemas} : Type := mkCore {
  co_wal : list byte;
  co_engine_seq : Z;
  co_label_catalog : RuntimeLabelCatalog;
  co_manifest : ManifestState;
  co_active_wal_generation_id : Z;
  co_memtable : MemtableState;
  co_active_degree_overlay : DegreeOverlaySnapshot;
  co_immutable_epochs : list ImmutableEpoch;
  co_segments : list EdgeSegment
}.

Section Engine.
Context `{Schemas, RmpSerde, Crc32, RmpValue, HashOrder, Sharing, UnstableSort}.

Definition set_wal (wal : list byte) (c : EngineCore) : EngineCore :=
  mkCore _ wal (co_engine_seq c) (co_label_catalog c) (co_manifest c) (co_active_wal_generation_id c)
    (co_memtable c) (co_active_degree_overlay c) (co_immutable_epochs c) (co_segments c).
Definition set_engine_seq (seq : Z) (c : EngineCore) : EngineCore :=
  mkCore _ (co_wal c) seq (co_label_catalog c) (co_manifest c) (co_active_wal_generation_id c)
    (co_memtable c) (co_active_degree_overlay c) (co_immutable_epochs c) (co_segments c).
Definition set_catalog (catalog : RuntimeLabelCatalog) (manifest : ManifestState) (c : EngineCore) : EngineCore :=
  mkCore _ (co_wal c) (co_engine_seq c) catalog manifest (co_active_wal_generation_id c)
    (co_memtable c) (co_active_degree_overlay c) (co_immutable_epochs c) (co_segments c).
Definition set_memtable (memtable : MemtableState) (c : EngineCore) : EngineCore :=
  mkCore _ (co_wal c) (co_engine_seq c) (co_label_catalog c) (co_manifest c) (co_active_wal_generation_id c)
    memtable (co_active_degree_overlay c) (co_immutable_epochs c) (co_segments c).
Definition set_overlay (overlay : DegreeOverlaySnapshot) (c : EngineCore) : EngineCore :=
  mkCore _ (co_wal c) (co_engine_seq c) (co_label_catalog c) (co_manifest c) (co_active_wal_generation_id c)
    (co_memtable c) overlay (co_immutable_epochs c) (co_segments c).

Definition get_edge_core_for_cache (c : EngineCore) (id : Z) : res (option EdgeCore) :=
  get_edge_core_from_sources (co_memtable c) (co_immutable_epochs c) (co_segments c) id.

(** [degree_delta_sum] of a view: the overlays of the memtables, then the segments. *)
Definition node_degree_delta_sum (c : EngineCore) (node_id : Z) : option DegreeDelta :=
  active ← Overlay.get (co_active_degree_overlay c) node_id;
  epochs ← mapM (fun epoch => Overlay.get (ep_degree_overlay epoch) node_id) (co_immutable_epochs c);
  degree_delta_sum active epochs ((fun segment => sg_degree_delta segment node_id) <$> co_segments c).

(** The label operations also copy the catalog into the in-memory manifest. *)
Definition is_ensure (op : WalOp) : bool :=
  match op with EnsureNodeLabel _ _ | EnsureEdgeLabel _ _ => true | _ => false end.
Definition apply_label_op (c : EngineCore) (op : WalOp) : res EngineCore :=
  catalog ← Catalog.apply_label_token_op_after_wal_append (co_label_catalog c) (co_active_wal_generation_id c) op;
  Ok (if is_ensure op then set_catalog catalog (Catalog.apply_to_manifest catalog (co_manifest c)) c else c).

(** ** The write path.  The core is returned with the outcome: a write that
    fails late has already changed it.  [None]: a panic. *)
Definition Outcome : Type := option (EngineCore * res unit).

(** [wal_append] in immediate mode: append, then sync.  [sync] is what the sync
    says; when it fails the bytes are in the file all the same. *)
Definition wal_append (sync : res unit) (wal : list byte) (appended : res (list byte * Z)) : list byte * res unit :=
  match appended with
  | Err e => (wal, Err e)
  | Ok (wal, _) => (wal, sync)
  end.

(** The loop of [append_and_apply_normalized]. *)
Fixpoint apply_sequenced (c : EngineCore) (edge_states : EdgeStates) (deltas : Deltas) (ops : list (Z * WalOp))
  : option (EngineCore * res Deltas) :=
  match ops with
  | [] => Some (c, Ok deltas)
  | (seq, op) :: ops =>
      let c := set_engine_seq seq c in
      let old_edge := old_edge_of edge_states op in
      match apply_label_op c op with
      | Err e => Some (c, Err e)
      | Ok c =>
          memtable ← apply_op op seq (co_memtable c);
          let deltas := collect_degree_delta_for_op op old_edge deltas in
          apply_sequenced (set_memtable memtable c) (note_edge_state edge_states op) deltas ops
      end
  end.

Definition sequence_from (base_seq : Z) (ops : list WalOp) : list (Z * WalOp) :=
  imap (fun i op => (base_seq + 1 + Z.of_nat i, op)) ops.

Definition append_and_apply_normalized (sync : res unit) (c : EngineCore) (ops : list WalOp) : Outcome :=
  let sequenced := sequence_from (co_engine_seq c) ops in
  match capture_edge_states (get_edge_core_for_cache c) ops ∅ with
  | Err e => Some (c, Err e)
  | Ok edge_states =>
      match wal_append sync (co_wal c) (append_batch (co_wal c) sequenced) with
      | (wal, Err e) => Some (set_wal wal c, Err e)
      | (wal, Ok _) =>
          '(c, applied) ← apply_sequenced (set_wal wal c) edge_states ∅ sequenced;
          match applied with
          | Err e => Some (c, Err e)
          | Ok deltas =>
              overlay ← apply_degree_deltas (co_active_degree_overlay c) deltas;
              Some (set_overlay overlay c, Ok tt)
          end
      end
  end.

Definition old_edge_from (get : Z -> res (option EdgeCore)) (op : WalOp) : res (option OldEdgeInfo) :=
  match edge_id_for_degree_op op with Some id => get id | None => Ok None end.

Definition append_and_apply_one_normalized (sync : res unit) (c : EngineCore) (op : WalOp) : Outcome :=
  let seq := co_engine_seq c + 1 in
  match old_edge_from (get_edge_core_for_cache c) op with
  | Err e => Some (c, Err e)
  | Ok old_edge =>
      match wal_append sync (co_wal c) (append (co_wal c) op seq) with
      | (wal, Err e) => Some (set_wal wal c, Err e)
      | (wal, Ok _) =>
          let c := set_engine_seq seq (set_wal wal c) in
          match apply_label_op c op with
          | Err e => Some (c, Err e)
          | Ok c =>
              memtable ← apply_op op seq (co_memtable c);
              let c := set_memtable memtable c in
              overlay ← apply_degree_deltas (co_active_degree_overlay c) (collect_degree_delta_for_op op old_edge ∅);
              Some (set_overlay overlay c, Ok tt)
          end
      end
  end.

(** What [commit_core_write_plan] does with the operations of a plan. *)
Definition commit_ops (sync : res unit) (c : EngineCore) (ops : list WalOp) : Outcome :=
  match ops with
  | [] => Some (c, Ok tt)
  | [op] => append_and_apply_one_normalized sync c op
  | _ => append_and_apply_normalized sync c ops
  end.

(** ** Replay *)
Record ReplayAtomicBatch : Type := mkReplayBatch {
  rb_first_seq : Z;
  rb_op_count : Z;
  rb_ops : list (Z * WalOp)
}.
Definition new_replay_batch (first_seq op_count : Z) : option ReplayAtomicBatch :=
  if (first_seq =? 0) || (op_count <? 2) then None else Some (mkReplayBatch first_seq op_count []).
(** [None]: the push was refused. *)
Definition push_replay_op (b : ReplayAtomicBatch) (seq : Z) (op : WalOp) : option ReplayAtomicBatch :=
  if rb_op_count b <=? len (rb_ops b) then None
  else Some (mkReplayBatch (rb_first_seq b) (rb_op_count b) (rb_ops b ++ [(seq, op)])).
Definition matches_commit (b : ReplayAtomicBatch) (first_seq op_count : Z) : bool :=
  if negb (rb_first_seq b =? first_seq) || negb (rb_op_count b =? op_count) then false
  else if negb (len (rb_ops b) =? op_count) then false
  else forallb id (imap (fun idx (o : Z * WalOp) =>
         let expected := rb_first_seq b + Z.of_nat idx in (expected <=? u64_max) && (o.1 =? expected)) (rb_ops b)).

(** What replay builds: the memtable, the deltas, the catalog and the sequence. *)
Record ReplayState : Type := mkReplay {
  rp_memtable : MemtableState;
  rp_deltas : Deltas;
  rp_catalog : RuntimeLabelCatalog;
  rp_engine_seq : Z
}.

Definition replay_apply_normalized_op (st : ReplayState) (seq : Z) (op : WalOp) (old_edge : option OldEdgeInfo)
  : option ReplayState :=
  memtable ← apply_op op seq (rp_memtable st);
  Some (mkReplay memtable (collect_degree_delta_for_op op old_edge (rp_deltas st)) (rp_catalog st)
          (Z.max (rp_engine_seq st) seq)).

Fixpoint normalize_all (dense_config : option DenseVectorConfig) (ops : list (Z * WalOp)) : res (list (Z * WalOp)) :=
  match ops with
  | [] => Ok []
  | (seq, op) :: ops =>
      op ← normalize_wal_op_for_replay dense_config op;
      ops ← normalize_all dense_config ops;
      Ok ((seq, op) :: ops)
  end.
Fixpoint stage_labels (catalog : RuntimeLabelCatalog) (ops : list (Z * WalOp)) (wal_generation_id : Z)
  : res RuntimeLabelCatalog :=
  match ops with
  | [] => Ok catalog
  | (_, op) :: ops =>
      catalog ← Catalog.validate_or_apply_replayed_label_token_op catalog op wal_generation_id;
      stage_labels catalog ops wal_generation_id
  end.
Fixpoint replay_sequenced (st : ReplayState) (edge_states : EdgeStates) (ops : list (Z * WalOp)) : option ReplayState :=
  match ops with
  | [] => Some st
  | (seq, op) :: ops =>
      st ← replay_apply_normalized_op st seq op (old_edge_of edge_states op);
      replay_sequenced st (note_edge_state edge_states op) ops
  end.

Section Replay.
Context (dense_config : option DenseVectorConfig) (wal_generation_id : Z).
Context (immutable_epochs : list ImmutableEpoch) (segments : list EdgeSegment).

Definition replay_apply_committed_atomic_batch (batch : ReplayAtomicBatch) (st : ReplayState)
  : option (res ReplayState) :=
  match normalize_all dense_config (rb_ops batch) with
  | Err e => Some (Err e)
  | Ok normalized_ops =>
      match stage_labels (rp_catalog st) normalized_ops wal_generation_id with
      | Err e => Some (Err e)
      | Ok staged_catalog =>
          match capture_edge_states (get_edge_core_from_sources (rp_memtable st) immutable_epochs segments)
                  (snd <$> normalized_ops) ∅ with
          | Err e => Some (Err e)
          | Ok edge_states =>
              st ← replay_sequenced (mkReplay (rp_memtable st) (rp_deltas st) staged_catalog (rp_engine_seq st))
                     edge_states normalized_ops;
              Some (Ok st)
          end
      end
  end.

Definition replay_one (st : ReplayState) (seq : Z) (op : WalOp) : option (res ReplayState) :=
  match normalize_wal_op_for_replay dense_config op with
  | Err e => Some (Err e)
  | Ok op =>
      match Catalog.validate_or_apply_replayed_label_token_op (rp_catalog st) op wal_generation_id with
      | Err e => Some (Err e)
      | Ok catalog =>
          match old_edge_from (get_edge_core_from_sources (rp_memtable st) immutable_epochs segments) op with
          | Err e => Some (Err e)
          | Ok old_edge =>
              st ← replay_apply_normalized_op (mkReplay (rp_memtable st) (rp_deltas st) catalog (rp_engine_seq st))
                     seq op old_edge;
              Some (Ok st)
          end
      end
  end.

(** The loop over the records; a [break] keeps what was built so far. *)
Fixpoint replay_records (records : list (Z * WalOp)) (open_batch : option ReplayAtomicBatch) (st : ReplayState)
  : option (res ReplayState) :=
  match records with
  | [] => Some (Ok st)
  | (seq, op) :: records =>
      match op with
      | BeginAtomicBatch first_seq op_count =>
          match open_batch with
          | Some _ => Some (Ok st)
          | None =>
              match new_replay_batch first_seq op_count with
              | None => Some (Ok st)
              | Some batch => replay_records records (Some batch) st
              end
          end
      | CommitAtomicBatch first_seq op_count =>
          match open_batch with
          | None => Some (Ok st)
          | Some batch =>
              if matches_commit batch first_seq op_count then
                applied ← replay_apply_committed_atomic_batch batch st;
                match applied with
                | Err e => Some (Err e)
                | Ok st => replay_records records None st
                end
              else Some (Ok st)
          end
      | _ =>
          match open_batch with
          | Some batch =>
              match push_replay_op batch seq op with
              | None => Some (Ok st)
              | Some batch => replay_records records (Some batch) st
              end
          | None =>
              applied ← replay_one st seq op;
              match applied with
              | Err e => Some (Err e)
              | Ok st => replay_records records None st
              end
          end
      end
  end.

(** [replay_wal_generation_to_memtable_and_overlay], from the bytes of the
    generation's file. *)
Definition replay_wal_generation (file : option (list byte)) (catalog : RuntimeLabelCatalog) (engine_seq : Z)
  : option (res (ReplayState * DegreeOverlaySnapshot * Z)) :=
  match read_path file with
  | Err e => Some (Err e)
  | Ok read_result =>
      replayed ← replay_records (rr_records read_result) None (mkReplay empty_state ∅ catalog engine_seq);
      match replayed with
      | Err e => Some (Err e)
      | Ok st =>
          overlay ← overlay_from_flat (rp_deltas st);
          Some (Ok (st, overlay, rr_durable_len read_result))
      end
  end.
End Replay.
End Engine.
