(* ===== verification/EngineDegrees.v ===== *)
(** The degree cache follows the graph: however commits change the edges, each
    counter of the overlay is the number of edges the engine now has of that
    kind at the node, less the number its older sources hold. *)
From S2P Require Import Prelude Types Encoding Wal PropertyValue CompoundKey Slots Memtable MemtableCells MemtableSteps MemtableFacts MemtableEdges MemtableReads MemtableSnapshots DegreeCache Manifest LabelCatalog LabelCatalogFacts Vectors DegreeEngine DegreeCounts Engine.

(** ** The sum of a counter over edges *)
Definition total (k : Counter) (edges : gmap Z EdgeCore) (x : Z) : Z :=
  map_fold (fun _ edge sum => contribution k edge x + sum) 0 edges.

Lemma edge_total_empty k x : total k ∅ x = 0.
Proof. apply map_fold_empty. Qed.
Lemma edge_total_delete k (edges : gmap Z EdgeCore) i x :
  total k edges x = match edges !! i with Some e => contribution k e x | None => 0 end + total k (delete i edges) x.
Proof.
  destruct (edges !! i) as [e|] eqn:E; [|by rewrite delete_id].
  unfold total. by rewrite (map_fold_delete_L _ _ i e) by (done || intros; lia).
Qed.
Lemma edge_total_insert k (edges : gmap Z EdgeCore) i e x :
  total k (<[i := e]> edges) x = contribution k e x + total k (delete i edges) x.
Proof. by rewrite (edge_total_delete k _ i), lookup_insert_eq, delete_insert_eq. Qed.

(** The edges after an operation. *)
Definition edges_after (op : WalOp) (edges : gmap Z EdgeCore) : gmap Z EdgeCore :=
  match edge_id_for_degree_op op with
  | Some id => match edge_core_after_op op with Some edge => <[id := edge]> edges | None => delete id edges end
  | None => edges
  end.

(** What an operation adds to a counter of a node. *)
Definition op_contribution (k : Counter) (op : WalOp) (old_edge : option OldEdgeInfo) (x : Z) : Z :=
  let removed := match old_edge with Some old => contribution k old x | None => 0 end in
  match op with
  | UpsertEdge edge => contribution k (core_of edge) x - removed
  | DeleteEdge _ _ => - removed
  | _ => 0
  end.

Lemma collect_op_count k op old m x t :
  map_count k m x = wrap_i64 t ->
  map_count k (collect_degree_delta_for_op op old m) x = wrap_i64 (t + op_contribution k op old x).
Proof.
  intros Ht. assert (map_count k (collect_old m old) x
    = wrap_i64 (t - match old with Some old => contribution k old x | None => 0 end)) as Hold.
  { destruct old as [old|]; cbn [collect_old]; [by apply (collect_edge_count k false)|]. rewrite Ht. f_equal. lia. }
  unfold op_contribution. destruct op; cbn [collect_degree_delta_for_op]; try by rewrite Ht, Z.add_0_r.
  - unfold collect_degree_delta_for_new_edge. rewrite (collect_edge_count k true _ _ _ _ Hold). f_equal. cbn. lia.
  - by rewrite Hold.
Qed.

(** The edge an operation replaces. *)
Definition replaced (op : WalOp) (edges : gmap Z EdgeCore) : option OldEdgeInfo :=
  id ← edge_id_for_degree_op op; edges !! id.

Lemma total_after k op edges x : total k (edges_after op edges) x = total k edges x + op_contribution k op (replaced op edges) x.
Proof.
  unfold edges_after, replaced, op_contribution. destruct op; cbn [edge_id_for_degree_op edge_core_after_op mbind option_bind]; try lia.
  - rewrite edge_total_insert, (edge_total_delete k edges (er_id edge)). lia.
  - rewrite (edge_total_delete k edges id). lia.
Qed.

(** ** The memtable *)
Section Cells.
Context `{RmpValue, HashOrder}.

Lemma edge_cell_op op seq st st' id :
  apply_op op seq st = Some st' -> mem_inv st -> op_ok op ->
  cur st' (LEdge id)
  = match op with
    | UpsertEdge edge => if decide (id = er_id edge) then Some (VEdge (Live (with_edge_seq edge seq))) else cur st (LEdge id)
    | DeleteEdge i t => if decide (id = i) then Some (VEdge (Tombstone (mkTombstoneEntry t seq))) else cur st (LEdge id)
    | _ => cur st (LEdge id)
    end.
Proof.
  intros Ha (Hb & _ & I) Hok. destruct op as [node|edge|i t|i t| | | |]; cbn [apply_op op_ok] in *;
    try (apply (inj Some) in Ha as <-; done).
  - rewrite (cur_upsert_node _ _ _ _ _ Ha) by done. rewrite !decide_False by first [by intros -> | by intros [-> _] | by intros [=] | by intros [[=] _]].
    destruct (label_writes_other node node (labels_of node) (LEdge id) eq_refl) as [-> _].
    destruct (current_node st (nr_id node)) as [old|]; [|done].
    by destruct (label_writes_other old node (labels_of old) (LEdge id) eq_refl) as (_ & -> & _).
  - by eapply upsert_edge_record.
  - rewrite (cur_delete_node _ _ _ _ _ _ Ha) by done. rewrite !decide_False by done.
    destruct (current_node st i) as [old|]; [|done].
    by destruct (label_writes_other old old (labels_of old) (LEdge id) eq_refl) as (_ & _ & ->).
  - by apply delete_edge_record.
Qed.

(** What the newest source says of an edge: it is live, deleted, or unknown. *)
Lemma newest_source st eps segs id :
  mem_inv st ->
  get_edge_core_from_sources st eps segs id
  = match cur st (LEdge id) with
    | Some (VEdge (Live edge)) => Ok (Some (core_of edge))
    | Some (VEdge (Tombstone _)) => Ok None
    | _ => edge_core_from_epochs eps segs id
    end.
Proof.
  intros (Hb & _ & I). unfold get_edge_core_from_sources, get_edge_core_at.
  rewrite edge_at_seen, edge_deleted_seen, !seen_cur by done.
  pose proof (ei_deleted _ I id) as Hd.
  assert (is_member (cur st (LEdgeTomb id)) = true <-> cur st (LEdgeTomb id) = present) as Hm.
  { unfold is_member. destruct (cur st (LEdgeTomb id)) as [[| | | |[[]|]]|]; naive_solver. }
  rewrite Hd in Hm.
  destruct (cur st (LEdge id)) as [v|] eqn:E;
    [destruct v as [r|[edge|t]|o|o|o]|]; cbn [live_edge fmap option_fmap option_map]; try reflexivity;
    destruct (is_member (cur st (LEdgeTomb id))); try reflexivity; exfalso;
    try (destruct (proj1 Hm eq_refl) as [? ?]; discriminate).
  assert (false = true) by (apply Hm; by exists t). discriminate.
Qed.

Lemma knows_after st st' eps segs (edges : gmap Z EdgeCore) op seq :
  apply_op op seq st = Some st' -> mem_inv st -> op_ok op -> seq <= u64_max ->
  (forall id, get_edge_core_from_sources st eps segs id = Ok (edges !! id)) ->
  forall id, get_edge_core_from_sources st' eps segs id = Ok (edges_after op edges !! id).
Proof.
  intros Ha I Hok Hseq Hk id. assert (mem_inv st') as I' by by eapply mem_inv_op.
  specialize (Hk id). rewrite newest_source in Hk |- * by done. rewrite (edge_cell_op op seq st st' id Ha I Hok).
  unfold edges_after. destruct op; cbn [edge_id_for_degree_op edge_core_after_op]; try exact Hk.
  - case_decide as E; [by rewrite E, lookup_insert_eq|by rewrite lookup_insert_ne].
  - case_decide as E; [by rewrite E, lookup_delete_eq|by rewrite lookup_delete_ne].
Qed.
End Cells.

(** Two maps of deltas moved by the same amounts. *)
Definition moved (by_ : Counter -> Z -> Z) (m m' : Deltas) : Prop :=
  forall k x t, map_count k m x = wrap_i64 t -> map_count k m' x = wrap_i64 (t + by_ k x).

Lemma moved_refl m : moved (fun _ _ => 0) m m.
Proof. intros k x t ->. by rewrite Z.add_0_r. Qed.
Lemma moved_trans f g m1 m2 m3 : moved f m1 m2 -> moved g m2 m3 -> moved (fun k x => f k x + g k x) m1 m3.
Proof. intros H12 H23 k x t Ht. rewrite (H23 k x _ (H12 k x t Ht)). f_equal. lia. Qed.

Section Commits.
Context `{Schemas, RmpSerde, Crc32, RmpValue, HashOrderLaws, Sharing, UnstableSort}.

Lemma catalog_after_label_op c op c' :
  apply_label_op c op = Ok c' ->
  Catalog.validate_or_apply_replayed_label_token_op (co_label_catalog c) op (co_active_wal_generation_id c) = Ok (co_label_catalog c')
  /\ co_memtable c' = co_memtable c /\ co_engine_seq c' = co_engine_seq c /\ co_wal c' = co_wal c
  /\ co_active_wal_generation_id c' = co_active_wal_generation_id c
  /\ co_active_degree_overlay c' = co_active_degree_overlay c
  /\ co_immutable_epochs c' = co_immutable_epochs c /\ co_segments c' = co_segments c.
Proof.
  unfold apply_label_op. intros (catalog & E & <-%Ok_inj)%bind_Ok_inv.
  apply live_replay_step in E. destruct op; cbn in E |- *; try by rewrite E.
  - destruct (forallb _ _); [|done]. by split.
  - destruct (Catalog.has_id _ _); [|done]. by split.
Qed.
(** What a run of operations leaves alone. *)
Definition same_frame (c c' : EngineCore) : Prop :=
  co_active_wal_generation_id c' = co_active_wal_generation_id c
  /\ co_immutable_epochs c' = co_immutable_epochs c /\ co_segments c' = co_segments c.

Lemma same_frame_trans c1 c2 c3 : same_frame c1 c2 -> same_frame c2 c3 -> same_frame c1 c3.
Proof. unfold same_frame. intros (-> & -> & ->) (-> & -> & ->). done. Qed.

(** ** Sequence numbers of a batch *)
Lemma length_sequence base ops : length (sequence_from base ops) = length ops.
Proof. apply length_imap. Qed.
Lemma sequence_cons base op ops : sequence_from base (op :: ops) = (base + 1, op) :: sequence_from (base + 1) ops.
Proof.
  unfold sequence_from. rewrite imap_cons. f_equal; [f_equal; lia|]. apply imap_ext. intros i x _. cbn. f_equal. lia.
Qed.
Lemma sequence_sorted base ops : Sorted.StronglySorted Z.lt (base :: (fst <$> sequence_from base ops)).
Proof.
  revert base. induction ops as [|op ops IH]; intros base; [repeat constructor|].
  rewrite sequence_cons, fmap_cons. cbn [fst]. constructor; [apply IH|]. specialize (IH (base + 1)).
  apply Sorted.StronglySorted_inv in IH as [_ IH]. constructor; [lia|]. eapply Forall_impl; [exact IH|]. cbn. lia.
Qed.
Lemma sequence_last base ops :
  match last (sequence_from base ops) with Some o => o.1 | None => base end = base + Z.of_nat (length ops).
Proof.
  revert base. induction ops as [|op ops IH]; intros base; [cbn; lia|]. rewrite sequence_cons, last_cons.
  specialize (IH (base + 1)). cbn [length]. destruct (last _); cbn in *; lia.
Qed.
Lemma sequence_ops base ops : snd <$> sequence_from base ops = ops.
Proof. revert base. induction ops as [|op ops IH]; intros base; [done|]. by rewrite sequence_cons, fmap_cons, IH. Qed.
(** ** Runs of commits *)
Fixpoint run_commits (c : EngineCore) (cs : list (list WalOp)) : option EngineCore :=
  match cs with
  | [] => Some c
  | ops :: cs => match commit_ops (Ok tt) c ops with Some (c, Ok _) => run_commits c cs | _ => None end
  end.
Lemma run_commits_take n c cs c' : run_commits c cs = Some c' -> exists cn, run_commits c (take n cs) = Some cn.
Proof.
  revert n c. induction cs as [|ops cs IH]; intros [|n] c E; cbn in *; try by eexists.
  destruct (commit_ops (Ok tt) c ops) as [[c1 []]|]; [by eapply IH|done..].
Qed.

(** A generation as it starts. *)
Definition fresh_generation (c : EngineCore) : Prop :=
  co_wal c = write_wal_header /\ co_memtable c = empty_state /\ co_active_degree_overlay c = Overlay.empty
  /\ 0 <= co_engine_seq c.

(** The engine has exactly [edges], and its overlay counts how they differ from [base]. *)
Definition knows (c : EngineCore) (edges : gmap Z EdgeCore) : Prop :=
  forall id, get_edge_core_for_cache c id = Ok (edges !! id).
Definition counted (base : gmap Z EdgeCore) (c : EngineCore) (edges : gmap Z EdgeCore) : Prop :=
  mem_inv (co_memtable c) /\ knows c edges /\ layout_ok (co_active_degree_overlay c)
  /\ forall k x, overlay_count k (co_active_degree_overlay c) x = wrap_i64 (total k edges x - total k base x).

Definition captured (edges : gmap Z EdgeCore) (states : EdgeStates) (ops : list WalOp) : Prop :=
  Forall (fun op => forall id, edge_id_for_degree_op op = Some id -> states !! id = Some (edges !! id)) ops.

Lemma capture_spec get edges ops states states' :
  (forall id, get id = Ok (edges !! id)) ->
  (forall id v, states !! id = Some v -> v = edges !! id) ->
  capture_edge_states get ops states = Ok states' ->
  (forall id v, states !! id = Some v -> states' !! id = Some v) /\ captured edges states' ops.
Proof.
  intros Hget. revert states. induction ops as [|op ops IH]; intros states Hst E.
  { apply Ok_inj in E as <-. split; [done|constructor]. }
  cbn [capture_edge_states] in E. destruct (edge_id_for_degree_op op) as [id|] eqn:Eid.
  2:{ destruct (IH states Hst E) as [Hk Hc]. split; [done|]. constructor; [|done]. intros id' Hid'. congruence. }
  destruct (states !! id) as [v|] eqn:Ev.
  - destruct (IH states Hst E) as [Hk Hc]. split; [done|]. constructor; [|done].
    intros id' Hid'. rewrite Eid in Hid'. injection Hid' as <-. rewrite (Hk _ _ Ev). f_equal. by apply Hst.
  - rewrite Hget in E. cbn [mbind result_bind] in E. destruct (IH (<[id := edges !! id]> states)) as [Hk Hc]; [|done|].
    { intros i v. destruct (decide (id = i)) as [->|Hi]; [rewrite lookup_insert_eq; congruence|rewrite lookup_insert_ne by done; apply Hst]. }
    split; [|constructor; [|done]].
    + intros i w Hw. apply Hk. rewrite lookup_insert_ne; [done|]. intros ->. congruence.
    + intros id' Hid'. rewrite Eid in Hid'. injection Hid' as <-. apply Hk. apply lookup_insert_eq.
Qed.

Lemma captured_after edges states op ops :
  captured edges states (op :: ops) -> captured (edges_after op edges) (note_edge_state states op) ops.
Proof.
  intros [_ Hc]%Forall_cons. unfold note_edge_state, edges_after. eapply Forall_impl; [exact Hc|]. intros op' Ho id Hid.
  specialize (Ho id Hid). destruct (edge_id_for_degree_op op) as [i|]; [|done].
  destruct (decide (i = id)) as [->|E]; [|rewrite lookup_insert_ne by done; by destruct (edge_core_after_op op); rewrite ?lookup_insert_ne, ?lookup_delete_ne by done].
  rewrite lookup_insert_eq. by destruct (edge_core_after_op op); rewrite ?lookup_insert_eq, ?lookup_delete_eq.
Qed.
Lemma captured_old edges states op ops : captured edges states (op :: ops) -> old_edge_of states op = replaced op edges.
Proof.
  intros [Ho _]%Forall_cons. unfold old_edge_of, replaced. destruct (edge_id_for_degree_op op) as [i|]; [|done].
  cbn [mbind option_bind]. by rewrite (Ho i eq_refl).
Qed.

Definition writable (o : Z * WalOp) : Prop := op_ok o.2 /\ o.1 <= u64_max.

Lemma apply_sequenced_counts ops c states deltas c' deltas' edges :
  apply_sequenced c states deltas ops = Some (c', Ok deltas') ->
  Forall writable ops -> mem_inv (co_memtable c) -> knows c edges -> captured edges states (snd <$> ops) ->
  let edges' := foldl (fun m op => edges_after op m) edges (snd <$> ops) in
  mem_inv (co_memtable c') /\ knows c' edges' /\ same_frame c c' /\ co_active_degree_overlay c' = co_active_degree_overlay c
  /\ moved (fun k x => total k edges' x - total k edges x) deltas deltas'
  /\ co_engine_seq c' = match last ops with Some o => o.1 | None => co_engine_seq c end.
Proof.
  revert c states deltas edges. induction ops as [|[seq op] ops IH]; intros c states deltas edges E Hw I Hk Hcap.
  { apply (inj Some) in E. injection E as <- <-. cbn. split; [done|]. split; [done|]. split; [done|]. split; [done|].
    split; [intros k x t ->; f_equal; lia|done]. }
  cbn [apply_sequenced] in E. destruct (apply_label_op (set_engine_seq seq c) op) as [c1|] eqn:E1; [|done].
  destruct (catalog_after_label_op _ _ _ E1) as (_ & Hm & Hs & _ & Hg & Ho & He & Hsg). cbn in Hm, Hs, Hg, Ho, He, Hsg.
  apply bind_Some in E as (memtable & Ea & E). rewrite Hm in Ea. apply Forall_cons in Hw as [[Hop Hseq] Hw].
  rewrite fmap_cons in Hcap. cbn [fst snd] in Hop, Hseq, Hcap.
  assert (knows (set_memtable memtable c1) (edges_after op edges)) as Hk1.
  { unfold knows, get_edge_core_for_cache. cbn. rewrite He, Hsg. by apply (knows_after (co_memtable c) memtable _ _ edges op seq). }
  assert (mem_inv memtable) as I1 by by eapply mem_inv_op.
  destruct (IH _ _ _ _ E Hw I1 Hk1 (captured_after _ _ _ _ Hcap)) as (I' & Hk' & Hf & Ho' & Hd & Hs').
  rewrite fmap_cons. cbn [snd foldl]. split; [done|]. split; [done|].
  split; [unfold same_frame in *; cbn in Hf; by rewrite <- Hg, <- He, <- Hsg|]. split; [by rewrite Ho', <- Ho|].
  split; [|rewrite Hs', last_cons; cbn; rewrite Hs; by destruct (last ops)].
  intros k x t Ht. rewrite (Hd k x _ (collect_op_count k op _ deltas x t Ht)), (captured_old edges states op (snd <$> ops) Hcap), total_after.
  f_equal. lia.
Qed.

(** Adding a batch's deltas to the overlay. *)
Lemma counted_commit base c edges edges' deltas overlay :
  counted base c edges -> moved (fun k x => total k edges' x - total k edges x) ∅ deltas ->
  apply_degree_deltas (co_active_degree_overlay c) deltas = Some overlay ->
  layout_ok overlay /\ forall k x, overlay_count k overlay x = wrap_i64 (total k edges' x - total k base x).
Proof.
  intros (_ & _ & Hok & Hc) Hd E. destruct (apply_deltas_spec _ deltas Hok) as (overlay2 & E2 & Hok' & Hc').
  rewrite E in E2. apply (inj Some) in E2 as <-. split; [done|]. intros k x. rewrite (Hc' k x _ (Hc k x)).
  rewrite (Hd k x 0) by by destruct k. rewrite wrap_add_r. f_equal. lia.
Qed.

Lemma one_counts base c op c' edges :
  append_and_apply_one_normalized (Ok tt) c op = Some (c', Ok tt) -> op_ok op -> co_engine_seq c + 1 <= u64_max ->
  counted base c edges -> counted base c' (edges_after op edges) /\ same_frame c c' /\ co_engine_seq c' = co_engine_seq c + 1.
Proof.
  intros E Hop Hseq Hct. pose proof Hct as (I & Hk & _). unfold append_and_apply_one_normalized, wal_append in E.
  destruct (old_edge_from (get_edge_core_for_cache c) op) as [old|] eqn:Eold; [|done].
  destruct (append (co_wal c) op (co_engine_seq c + 1)) as [[wal n]|]; [|done].
  destruct (apply_label_op _ op) as [c1|] eqn:E1; [|done].
  destruct (catalog_after_label_op _ _ _ E1) as (_ & Hm & Hs & _ & Hg & Ho & He & Hsg). cbn in Hm, Hs, Hg, Ho, He, Hsg.
  apply bind_Some in E as (memtable & Ea & E). apply bind_Some in E as (overlay & Eo & E). apply (inj Some) in E.
  injection E as <-. cbn in Eo. rewrite Hm in Ea. rewrite Ho in Eo.
  assert (old = replaced op edges) as ->.
  { unfold old_edge_from, replaced in *. destruct (edge_id_for_degree_op op) as [id|]; [|by apply Ok_inj in Eold].
    rewrite (Hk id) in Eold. by apply Ok_inj in Eold. }
  apply (counted_commit base c edges (edges_after op edges) _ overlay Hct) in Eo as [Hok' Hc'].
  2:{ intros k x t Ht. rewrite (collect_op_count k op _ _ x t Ht), total_after. f_equal. lia. }
  split; [|split; [by unfold same_frame; cbn; rewrite Hg, He, Hsg|done]]. split; [by eapply mem_inv_op|]. split; [|by split].
  unfold knows, get_edge_core_for_cache. cbn. rewrite He, Hsg.
  by apply (knows_after (co_memtable c) memtable _ _ edges op (co_engine_seq c + 1)).
Qed.

Lemma sequence_writable base ops :
  Forall op_ok ops -> base + len ops <= u64_max -> Forall writable (sequence_from base ops).
Proof.
  intros Hops. revert base. induction Hops as [|op ops Hop Hops IH]; intros base Hmax; [constructor|].
  cbn [length] in Hmax. rewrite sequence_cons. constructor; [split; [done|cbn; lia]|apply IH; lia].
Qed.

Lemma batch_counts base c ops c' edges :
  append_and_apply_normalized (Ok tt) c ops = Some (c', Ok tt) -> Forall op_ok ops -> co_engine_seq c + len ops <= u64_max ->
  counted base c edges ->
  counted base c' (foldl (fun m op => edges_after op m) edges ops)
  /\ same_frame c c' /\ co_engine_seq c' = co_engine_seq c + len ops.
Proof.
  intros E Hops Hseq Hct. pose proof Hct as (I & Hk & _). unfold append_and_apply_normalized, wal_append in E.
  destruct (capture_edge_states (get_edge_core_for_cache c) ops ∅) as [states|] eqn:Ecap; [|done].
  destruct (append_batch (co_wal c) (sequence_from (co_engine_seq c) ops)) as [[wal n]|]; [|done].
  apply bind_Some in E as ([c1 [deltas|]] & Ea & E); [|done]. apply bind_Some in E as (overlay & Eo & E). apply (inj Some) in E.
  injection E as <-.
  assert (captured edges states ops) as Hcap.
  { eapply (capture_spec _ edges ops ∅ states Hk); [intros id v; by rewrite lookup_empty|exact Ecap]. }
  rewrite <- (sequence_ops (co_engine_seq c) ops) in Hcap.
  destruct (apply_sequenced_counts _ _ _ _ _ _ edges Ea (sequence_writable _ _ Hops Hseq) I Hk Hcap) as (I' & Hk' & Hf & Ho & Hd & Hs).
  rewrite sequence_ops in Hk', Hd. cbn [set_wal co_active_degree_overlay] in Ho. rewrite Ho in Eo.
  apply (counted_commit base c edges _ _ overlay Hct Hd) in Eo as [Hok' Hc'].
  split; [split; [done|]; split; [done|]; by split|].
  split; [exact Hf|]. cbn [set_overlay co_engine_seq]. rewrite Hs. apply sequence_last.
Qed.

Lemma commit_counts base c ops c' edges :
  commit_ops (Ok tt) c ops = Some (c', Ok tt) -> Forall op_ok ops -> co_engine_seq c + len ops <= u64_max ->
  counted base c edges ->
  counted base c' (foldl (fun m op => edges_after op m) edges ops) /\ same_frame c c' /\ co_engine_seq c' = co_engine_seq c + len ops.
Proof.
  intros E Hops Hseq Hct. destruct ops as [|op1 [|op2 ops]]; cbn [commit_ops] in E.
  - apply (inj Some) in E. injection E as <-. split; [done|]. split; [done|]. cbn. lia.
  - apply one_counts with (1 := E); [by apply Forall_inv in Hops|cbn in Hseq; lia|done].
  - by apply batch_counts.
Qed.

Lemma run_counts base c cs c' edges :
  run_commits c cs = Some c' -> Forall (Forall op_ok) cs -> co_engine_seq c + len (mjoin cs) <= u64_max ->
  counted base c edges -> counted base c' (foldl (fun m op => edges_after op m) edges (mjoin cs)) /\ same_frame c c'.
Proof.
  revert c edges. induction cs as [|ops cs IH]; intros c edges E Hok Hmax Hct.
  { by apply (inj Some) in E as <-. }
  cbn [run_commits] in E. destruct (commit_ops (Ok tt) c ops) as [[c1 [[]|]]|] eqn:E1; [|done..].
  apply Forall_cons in Hok as [Hops Hok]. change (mjoin (ops :: cs)) with (ops ++ mjoin cs) in *.
  rewrite length_app, Nat2Z.inj_add in Hmax. rewrite foldl_app.
  destruct (commit_counts base c ops c1 edges E1 Hops) as (Hct1 & Hf1 & Hs); [lia|done|].
  assert (co_engine_seq c1 + len (mjoin cs) <= u64_max) as Hmax1 by lia.
  destruct (IH c1 (foldl (fun m op => edges_after op m) edges ops) E Hok Hmax1 Hct1) as [Hct2 Hf2].
  split; [done|]. by eapply same_frame_trans.
Qed.

Lemma fresh_counted base c :
  fresh_generation c ->
  (forall id, edge_core_from_epochs (co_immutable_epochs c) (co_segments c) id = Ok (base !! id)) -> counted base c base.
Proof.
  intros (_ & Hm & Ho & Hs) Hbase. assert (mem_inv empty_state) as I by (apply fresh_mem_inv; by intros []).
  split; [by rewrite Hm|]. split; [|rewrite Ho; split; [apply empty_layout|]].
  - intros id. unfold get_edge_core_for_cache. rewrite Hm, newest_source by done. apply Hbase.
  - intros k x. by rewrite empty_count, Z.sub_diag.
Qed.

(** C29.  The degree cache counts edges.  Run any commits on a fresh generation
    over older sources that hold the edges [base].  Then the engine has exactly
    the edges that the operations, one after the other, make of [base]; and
    each counter of each node in the overlay is, modulo 2^64, the sum over the
    edges it now has less the sum over those of the older sources. *)
Theorem degree_cache_counts_edges base c0 cs c :
  fresh_generation c0 -> run_commits c0 cs = Some c -> Forall (Forall op_ok) cs ->
  co_engine_seq c0 + len (mjoin cs) <= u64_max ->
  (forall id, edge_core_from_epochs (co_immutable_epochs c0) (co_segments c0) id = Ok (base !! id)) ->
  let edges := foldl (fun m op => edges_after op m) base (mjoin cs) in
  (forall id, get_edge_core_for_cache c id = Ok (edges !! id))
  /\ forall k x, overlay_count k (co_active_degree_overlay c) x = wrap_i64 (total k edges x - total k base x).
Proof.
  intros Hfresh E Hok Hmax Hbase.
  by destruct (run_counts base c0 cs c base E Hok Hmax (fresh_counted base c0 Hfresh Hbase)) as ((_ & Hk & _ & Hc) & _).
Qed.
End Commits.
