(* ===== verification/EngineRecovery.v ===== *)
(** Opening after a crash rebuilds the engine that ran: replaying any cut of the
    log of a run of commits gives the memtable, the label catalog, the sequence
    number and the degree counters that the engine had after some number of
    whole commits. *)
From S2P Require Import Prelude Types Encoding Wal WalFacts PropertyValue CompoundKey Slots Memtable MemtableReads DegreeCache Manifest LabelCatalog LabelCatalogFacts Vectors DegreeEngine DegreeCounts Engine EngineDegrees.

Section Recovery.
Context `{Schemas, RmpSerdeLaws, Crc32Laws, RmpValue, HashOrderLaws, Sharing, UnstableSortLaws}.

(** ** What the log forgets does not matter *)
(** Unfold the operations before their pieces. *)
Strategy 100 [link_new_edge unlink_old_edge link_new_label unlink_old_label sync_secondary_index_entries_for_edge_upsert sync_secondary_index_entries_for_node_upsert set_edge_tombstone_slot set_node_tombstone_slot set_edge_state set_node_state].
Lemma unlink_old_labels_seq old_node node write_seq st :
  match old_node with
  | Some old => foldl (unlink_old_label old (with_node_seq node 0) write_seq) st (NodeLabels.as_slice (nr_label_ids old))
  | None => st
  end
  = match old_node with
    | Some old => foldl (unlink_old_label old node write_seq) st (NodeLabels.as_slice (nr_label_ids old))
    | None => st
    end.
Proof. destruct old_node; reflexivity. Qed.
Lemma link_new_label_seq node write_seq : link_new_label (with_node_seq node 0) write_seq = link_new_label node write_seq.
Proof. reflexivity. Qed.
Lemma node_seq_twice node a b : with_node_seq (with_node_seq node a) b = with_node_seq node b.
Proof. reflexivity. Qed.
Lemma node_seq_id node a : nr_id (with_node_seq node a) = nr_id node.
Proof. reflexivity. Qed.
Lemma node_seq_labels node a : nr_label_ids (with_node_seq node a) = nr_label_ids node.
Proof. reflexivity. Qed.
Lemma upsert_node_seq node seq st : apply_upsert_node (with_node_seq node 0) seq st = apply_upsert_node node seq st.
Proof.
  unfold apply_upsert_node.
  by rewrite link_new_label_seq, node_seq_twice, node_seq_id, node_seq_labels, unlink_old_labels_seq.
Qed.
Lemma unlink_old_edge_seq old_edge edge write_seq st :
  match old_edge with Some old => unlink_old_edge old (with_edge_seq edge 0) write_seq st | None => st end
  = match old_edge with Some old => unlink_old_edge old edge write_seq st | None => st end.
Proof. destruct old_edge; reflexivity. Qed.
Lemma link_new_edge_seq old_edge edge : link_new_edge old_edge (with_edge_seq edge 0) = link_new_edge old_edge edge.
Proof. destruct old_edge; reflexivity. Qed.
Lemma edge_seq_twice edge a b : with_edge_seq (with_edge_seq edge a) b = with_edge_seq edge b.
Proof. reflexivity. Qed.
Lemma edge_seq_id edge a : er_id (with_edge_seq edge a) = er_id edge.
Proof. reflexivity. Qed.
Lemma upsert_edge_seq edge seq st : apply_upsert_edge (with_edge_seq edge 0) seq st = apply_upsert_edge edge seq st.
Proof. unfold apply_upsert_edge. by rewrite edge_seq_twice, edge_seq_id, link_new_edge_seq, unlink_old_edge_seq. Qed.
Lemma apply_op_forget op seq st : apply_op (forget_seq op) seq st = apply_op op seq st.
Proof.
  destruct op as [node|edge| | | | | |]; cbn [forget_seq apply_op]; [apply upsert_node_seq|apply upsert_edge_seq|reflexivity..].
Qed.
Lemma degree_op_forget op : edge_id_for_degree_op (forget_seq op) = edge_id_for_degree_op op.
Proof. by destruct op as [[]|[]| | | | | |]. Qed.
Lemma old_edge_of_forget states op : old_edge_of states (forget_seq op) = old_edge_of states op.
Proof. unfold old_edge_of. by rewrite degree_op_forget. Qed.
Lemma note_edge_state_forget states op : note_edge_state states (forget_seq op) = note_edge_state states op.
Proof. unfold note_edge_state. rewrite degree_op_forget. by destruct op as [[]|[]| | | | | |]. Qed.
Lemma collect_forget op old m : collect_degree_delta_for_op (forget_seq op) old m = collect_degree_delta_for_op op old m.
Proof. by destruct op as [[]|[]| | | | | |]. Qed.
Lemma replay_label_forget catalog op g :
  Catalog.validate_or_apply_replayed_label_token_op catalog (forget_seq op) g
  = Catalog.validate_or_apply_replayed_label_token_op catalog op g.
Proof. by destruct op as [[]|[]| | | | | |]. Qed.
Lemma capture_forget get ops states :
  capture_edge_states get (snd <$> (forget_rec <$> ops)) states = capture_edge_states get (snd <$> ops) states.
Proof.
  revert states. induction ops as [|[seq op] ops IH]; intros states; [done|]. cbn. rewrite degree_op_forget.
  destruct (edge_id_for_degree_op op) as [edge_id|]; [|apply IH]. destruct (states !! edge_id); [apply IH|].
  destruct (get edge_id); [|done]. apply IH.
Qed.

(** A normalized operation, as the write path hands it on. *)
Definition normal_op (config : option DenseVectorConfig) (op : WalOp) : Prop :=
  exists raw, normalize_wal_op_for_write config raw = Ok op.
Lemma normal_op_replays config op :
  normal_op config op -> normalize_wal_op_for_replay config (forget_seq op) = Ok (forget_seq op).
Proof.
  intros [raw Hraw%normalize_idempotent]. unfold normalize_wal_op_for_replay.
  assert (normalize_wal_op_for_write config (forget_seq op) = Ok (forget_seq op)) as ->; [|done].
  destruct op as [[]|[]| | | | | |]; cbn in *; try done.
  apply bind_Ok_inv in Hraw as ([d s] & -> & E). apply Ok_inj in E. injection E as -> ->. done.
Qed.
Lemma normalize_all_normal config ops :
  Forall (fun o => normal_op config o.2) ops -> normalize_all config (forget_rec <$> ops) = Ok (forget_rec <$> ops).
Proof.
  induction 1 as [|[seq op] ops Hop Hops IH]; [done|]. cbn in *. rewrite (normal_op_replays _ _ Hop). cbn. by rewrite IH.
Qed.

(** ** The loop of a batch *)

(** The batch loop, run from the log: the labels are staged first, then the
    operations are applied. *)
Lemma apply_sequenced_replays ops c states deltas c' deltas' rd seq0 final :
  apply_sequenced c states deltas ops = Some (c', Ok deltas') ->
  Sorted.StronglySorted Z.lt (seq0 :: (fst <$> ops)) ->
  exists by_ rd',
    moved by_ deltas deltas' /\ moved by_ rd rd'
    /\ same_frame c c' /\ co_wal c' = co_wal c /\ co_active_degree_overlay c' = co_active_degree_overlay c
    /\ co_engine_seq c' = match last ops with Some o => o.1 | None => co_engine_seq c end
    /\ stage_labels (co_label_catalog c) (forget_rec <$> ops) (co_active_wal_generation_id c) = Ok (co_label_catalog c')
    /\ replay_sequenced (mkReplay (co_memtable c) rd final seq0) states (forget_rec <$> ops)
       = Some (mkReplay (co_memtable c') rd' final (match last ops with Some o => o.1 | None => seq0 end)).
Proof.
  revert c states deltas rd seq0. induction ops as [|[seq op] ops IH]; intros c states deltas rd seq0 E Hsort.
  { apply (inj Some) in E. injection E as <- <-. exists (fun _ _ => 0), rd.
    split_and!; try done; apply moved_refl. }
  cbn [apply_sequenced] in E. destruct (apply_label_op (set_engine_seq seq c) op) as [c1|] eqn:E1; [|done].
  destruct (catalog_after_label_op _ _ _ E1) as (Hcat & Hm & Hs & Hw & Hg & Ho & He & Hsg). cbn in Hcat, Hm, Hs, Hw, Hg, Ho, He, Hsg.
  apply bind_Some in E as (memtable & Ea & E). rewrite Hm in Ea.
  rewrite fmap_cons in Hsort. apply StronglySorted_inv in Hsort as [Hsort Hlt]. apply Forall_cons in Hlt as [Hlt _]. cbn in Hlt.
  destruct (IH _ _ _ (collect_degree_delta_for_op op (old_edge_of states op) rd) seq E Hsort)
    as (by_ & rd' & Hd & Hrd & Hf & Hw' & Ho' & Hs' & Hst & Hr).
  exists (fun k x => op_contribution k op (old_edge_of states op) x + by_ k x), rd'.
  split; [eapply moved_trans; [|exact Hd]; intros k x t Ht; by apply collect_op_count|].
  split; [eapply moved_trans; [|exact Hrd]; intros k x t Ht; by apply collect_op_count|].
  cbn in Hf, Hw', Ho', Hs', Hst, Hr.
  split; [unfold same_frame in *; cbn in Hf; by rewrite <- Hg, <- He, <- Hsg|]. split; [by rewrite Hw', Hw|]. split; [by rewrite Ho', Ho|].
  split; [rewrite Hs', Hs, last_cons; by destruct (last ops)|].
  rewrite fmap_cons. cbn [forget_rec fst snd stage_labels replay_sequenced].
  split; [by rewrite replay_label_forget, Hcat, <- Hg|].
  rewrite old_edge_of_forget, note_edge_state_forget. unfold replay_apply_normalized_op. cbn [rp_memtable rp_deltas rp_catalog rp_engine_seq].
  rewrite apply_op_forget, Ea, collect_forget. cbn [mbind option_bind]. rewrite Z.max_r by lia. rewrite Hr, last_cons.
  by destruct (last ops).
Qed.

Lemma matches_commit_sequence base ops :
  base + Z.of_nat (length ops) <= u64_max ->
  matches_commit (mkReplayBatch (base + 1) (len ops) (forget_rec <$> sequence_from base ops)) (base + 1) (len ops) = true.
Proof.
  intros Hb. unfold matches_commit. cbn [rb_first_seq rb_op_count rb_ops]. rewrite length_fmap, length_sequence, !Z.eqb_refl.
  cbn [negb orb]. apply forallb_forall. intros x (i & Hx)%list_elem_of_In%list_elem_of_lookup.
  rewrite list_lookup_imap, list_lookup_fmap in Hx. unfold sequence_from in Hx. rewrite list_lookup_imap in Hx.
  destruct (ops !! i) as [op|] eqn:Eo; [|done]. apply lookup_lt_Some in Eo. apply (inj Some) in Hx as <-. cbn [forget_rec fst id].
  apply andb_true_iff. split; [apply Z.leb_le|apply Z.eqb_eq]; lia.
Qed.

(** ** One commit *)
(** The engine and the replay agree: the same memtable, catalog and sequence,
    and the summed deltas have the counters of the overlay. *)
Definition matches (c : EngineCore) (st : ReplayState) : Prop :=
  rp_memtable st = co_memtable c /\ rp_catalog st = co_label_catalog c /\ rp_engine_seq st = co_engine_seq c
  /\ layout_ok (co_active_degree_overlay c)
  /\ forall k x, exists t, overlay_count k (co_active_degree_overlay c) x = wrap_i64 t /\ map_count k (rp_deltas st) x = wrap_i64 t.

(** The call on the log of a commit that follows sequence number [seq]. *)
Definition call_at (seq : Z) (ops : list WalOp) : call :=
  match ops with [op] => CAppend (seq + 1) op | _ => CBatch (sequence_from seq ops) end.
Notation call_of c := (call_at (co_engine_seq c)).

Section Commit.
Context (config : option DenseVectorConfig).
Notation replay c := (replay_records config (co_active_wal_generation_id c) (co_immutable_epochs c) (co_segments c)).

(** The replayed deltas move as the overlay does. *)
Lemma matches_counts overlay overlay' by_ deltas' rd rd' :
  layout_ok overlay ->
  (forall k x, exists t, overlay_count k overlay x = wrap_i64 t /\ map_count k rd x = wrap_i64 t) ->
  moved by_ ∅ deltas' -> moved by_ rd rd' -> apply_degree_deltas overlay deltas' = Some overlay' ->
  layout_ok overlay'
  /\ forall k x, exists t, overlay_count k overlay' x = wrap_i64 t /\ map_count k rd' x = wrap_i64 t.
Proof.
  intros Hok Hc Hd Hr E. destruct (apply_deltas_spec overlay deltas' Hok) as (overlay2 & E2 & Hok' & Hc').
  rewrite E in E2. apply (inj Some) in E2 as <-. split; [done|]. intros k x. destruct (Hc k x) as (t & Ho & Hm).
  exists (t + by_ k x). split; [|by apply Hr]. rewrite (Hc' k x t Ho), (Hd k x 0) by by destruct k.
  by rewrite wrap_add_r, Z.add_0_l.
Qed.

Lemma one_replays c op c' st :
  normal_op config op -> is_marker op = false -> 0 <= co_engine_seq c -> matches c st ->
  append_and_apply_one_normalized (Ok tt) c op = Some (c', Ok tt) ->
  exists st', matches c' st' /\ same_frame c c' /\ co_engine_seq c' = co_engine_seq c + 1
    /\ (exists n, do_call (co_wal c) (call_of c [op]) = Ok (co_wal c', n))
    /\ forall rest, replay c (call_records (call_of c [op]) ++ rest) None st = replay c rest None st'.
Proof.
  intros Hn Hmk Hseq (Hm & Hcat & Hs & Hok & Hcnt) E. unfold append_and_apply_one_normalized, wal_append in E.
  destruct (old_edge_from (get_edge_core_for_cache c) op) as [old|] eqn:Eold; [|done].
  destruct (append (co_wal c) op (co_engine_seq c + 1)) as [[wal n]|] eqn:Ew; [|done].
  destruct (apply_label_op _ op) as [c1|] eqn:E1; [|done].
  destruct (catalog_after_label_op _ _ _ E1) as (Hcat1 & Hm1 & Hs1 & Hw1 & Hg1 & Ho1 & He1 & Hsg1). cbn in Hcat1, Hm1, Hs1, Hw1, Hg1, Ho1, He1, Hsg1.
  apply bind_Some in E as (memtable & Ea & E). apply bind_Some in E as (overlay & Eo & E). apply (inj Some) in E.
  injection E as <-. cbn in Eo. rewrite Hm1 in Ea. rewrite Ho1 in Eo.
  set (rd' := collect_degree_delta_for_op op old (rp_deltas st)).
  exists (mkReplay memtable rd' (co_label_catalog c1) (co_engine_seq c + 1)).
  apply (matches_counts _ _ (fun k x => op_contribution k op old x) _ (rp_deltas st) rd' Hok Hcnt) in Eo as [Hok' Hcnt'];
    [|intros k x t Ht; by apply collect_op_count..].
  split; [unfold matches; cbn [rp_memtable rp_catalog rp_engine_seq rp_deltas co_memtable co_label_catalog co_engine_seq co_active_degree_overlay set_overlay set_memtable];
    rewrite Hs1; split; [done|]; split; [done|]; split; [done|]; by split|].
  split; [by unfold same_frame; cbn; rewrite Hg1, He1, Hsg1|]. split; [done|].
  split; [exists n; cbn [call_at do_call]; rewrite Ew; cbn; by rewrite Hw1|].
  intros rest. cbn [call_at call_records app]. unfold forget_rec at 1. cbn [fst snd replay_records].
  assert (is_marker (forget_seq op) = false) as Hmk' by by destruct op.
  assert (replay_one config (co_active_wal_generation_id c) (co_immutable_epochs c) (co_segments c) st (co_engine_seq c + 1) (forget_seq op)
    = Some (Ok (mkReplay memtable rd' (co_label_catalog c1) (co_engine_seq c + 1)))) as Hone.
  { unfold replay_one. rewrite (normal_op_replays _ _ Hn), replay_label_forget, Hcat, Hcat1.
    unfold old_edge_from. rewrite degree_op_forget, Hm. unfold old_edge_from, get_edge_core_for_cache in Eold. rewrite Eold.
    unfold replay_apply_normalized_op. cbn [rp_memtable rp_deltas rp_catalog rp_engine_seq].
    rewrite apply_op_forget, Ea, collect_forget, Hs. cbn [mbind option_bind]. by rewrite Z.max_r by lia. }
  destruct op; try done; by rewrite Hone.
Qed.

Lemma replay_pushes g epochs segments ops rest first n acc st :
  Forall (fun r => is_marker r.2 = false) ops -> len acc + len ops <= n ->
  replay_records config g epochs segments (ops ++ rest) (Some (mkReplayBatch first n acc)) st
  = replay_records config g epochs segments rest (Some (mkReplayBatch first n (acc ++ ops))) st.
Proof.
  revert acc. induction ops as [|[seq op] ops IH]; intros acc Hnm Hl; [by rewrite app_nil_r|].
  apply Forall_cons in Hnm as [Hop Hnm]. cbn [snd] in Hop. cbn [length] in Hl.
  assert (push_replay_op (mkReplayBatch first n acc) seq op = Some (mkReplayBatch first n (acc ++ [(seq, op)]))) as Hp.
  { unfold push_replay_op. cbn [rb_op_count rb_ops]. by destruct (Z.leb_spec n (len acc)); [lia|]. }
  transitivity (replay_records config g epochs segments (ops ++ rest) (Some (mkReplayBatch first n (acc ++ [(seq, op)]))) st).
  - cbn [app replay_records]. destruct op; try done; by rewrite Hp.
  - rewrite IH by (done || rewrite ?length_app; cbn [length]; lia). by rewrite <- app_assoc.
Qed.

Lemma unmarked base ops :
  Forall (fun op => is_marker op = false) ops -> Forall (fun r => is_marker r.2 = false) (forget_rec <$> sequence_from base ops).
Proof.
  revert base. induction ops as [|op ops IH]; intros base Hops; [constructor|]. apply Forall_cons in Hops as [Hop Hops].
  rewrite sequence_cons, fmap_cons. constructor; [by destruct op|by apply IH].
Qed.

(** The records of a committed batch are applied as one. *)
Lemma batch_records_replay g epochs segments base op1 op2 ops rest st :
  let all := op1 :: op2 :: ops in
  Forall (fun op => is_marker op = false) all -> 0 <= base -> base + len all <= u64_max ->
  replay_records config g epochs segments (call_records (CBatch (sequence_from base all)) ++ rest) None st
  = (applied ← replay_apply_committed_atomic_batch config g epochs segments
                 (mkReplayBatch (base + 1) (len all) (forget_rec <$> sequence_from base all)) st;
     match applied with Err e => Some (Err e) | Ok st => replay_records config g epochs segments rest None st end).
Proof.
  intros all Hmk Hb Hmax.
  assert (call_records (CBatch (sequence_from base all))
    = (base + 1, BeginAtomicBatch (base + 1) (len all)) :: (forget_rec <$> sequence_from base all)
      ++ [(base + 1, CommitAtomicBatch (base + 1) (len all))]) as ->.
  { unfold all at 1 3. rewrite !sequence_cons. cbn [call_records]. by rewrite <- !sequence_cons, length_sequence. }
  cbn [app replay_records]. unfold new_replay_batch.
  rewrite (proj2 (Z.eqb_neq (base + 1) 0)), (proj2 (Z.ltb_ge (len all) 2)) by (unfold all; cbn [length]; lia). cbn [orb].
  rewrite <- app_assoc, replay_pushes by (by apply unmarked || (rewrite length_fmap, length_sequence; cbn [length]; lia)).
  cbn [app replay_records]. by rewrite matches_commit_sequence by lia.
Qed.

Lemma batch_replays c op1 op2 ops c' st :
  let all := op1 :: op2 :: ops in
  Forall (normal_op config) all -> Forall (fun op => is_marker op = false) all ->
  0 <= co_engine_seq c -> co_engine_seq c + len all <= u64_max -> matches c st ->
  append_and_apply_normalized (Ok tt) c all = Some (c', Ok tt) ->
  exists st', matches c' st' /\ same_frame c c' /\ co_engine_seq c' = co_engine_seq c + len all
    /\ (exists n, do_call (co_wal c) (call_of c all) = Ok (co_wal c', n))
    /\ forall rest, replay c (call_records (call_of c all) ++ rest) None st = replay c rest None st'.
Proof.
  intros all Hn Hmk Hseq Hmax (Hm & Hcat & Hs & Hok & Hcnt) E. unfold append_and_apply_normalized, wal_append in E.
  destruct (capture_edge_states (get_edge_core_for_cache c) all ∅) as [states|] eqn:Ecap; [|done].
  destruct (append_batch (co_wal c) (sequence_from (co_engine_seq c) all)) as [[wal n]|] eqn:Ew; [|done].
  apply bind_Some in E as ([c1 [deltas|]] & Ea & E); [|done]. apply bind_Some in E as (overlay & Eo & E). apply (inj Some) in E.
  injection E as <-.
  destruct (apply_sequenced_replays _ _ _ _ _ _ (rp_deltas st) (co_engine_seq c) (co_label_catalog c1) Ea (sequence_sorted _ _))
    as (by_ & rd' & Hd & Hrd & (Hg & He & Hsg) & Hw & Ho & Hs' & Hst & Hr).
  cbn [set_wal co_active_wal_generation_id co_immutable_epochs co_segments co_wal co_active_degree_overlay co_engine_seq
    co_label_catalog co_memtable] in Hg, He, Hsg, Hw, Ho, Hs', Hst, Hr. rewrite Ho in Eo.
  destruct (matches_counts _ _ _ _ _ _ Hok Hcnt Hd Hrd Eo) as [Hok' Hcnt'].
  exists (mkReplay (co_memtable c1) rd' (co_label_catalog c1) (co_engine_seq c1)).
  pose proof (sequence_last (co_engine_seq c) all) as Hlast.
  split; [unfold matches; cbn [rp_memtable rp_catalog rp_engine_seq rp_deltas co_memtable co_label_catalog co_engine_seq co_active_degree_overlay set_overlay];
    split; [done|]; split; [done|]; split; [done|]; by split|].
  split; [by unfold same_frame; cbn; rewrite Hg, He, Hsg|]. split; [cbn [set_overlay co_engine_seq]; by rewrite Hs', Hlast|].
  split; [exists n; change (append_batch (co_wal c) (sequence_from (co_engine_seq c) all) = Ok (co_wal c1, n)); by rewrite Ew, Hw|].
  intros rest. etransitivity; [exact (batch_records_replay _ _ _ (co_engine_seq c) op1 op2 ops rest st Hmk Hseq Hmax)|]. fold all.
  unfold replay_apply_committed_atomic_batch. cbn [rb_ops].
  rewrite normalize_all_normal by (apply (Forall_fmap snd (normal_op config)); by rewrite sequence_ops).
  rewrite Hcat, Hst, capture_forget, sequence_ops, Hm. 
  change (capture_edge_states (get_edge_core_from_sources (co_memtable c) (co_immutable_epochs c) (co_segments c)) all ∅ = Ok states) in Ecap.
  rewrite Ecap.
  rewrite Hs, Hr. cbn [mbind option_bind]. by rewrite Hs'.
Qed.

(** ** Runs of commits *)
(** An operation the write path commits: normalized, within the reader's limit. *)
Definition committable (op : WalOp) : Prop :=
  normal_op config op /\ is_marker op = false /\ op_wf op
  /\ forall buf, encode_wal_op op = Ok buf -> 8 + len buf <= MAX_WAL_RECORD_SIZE.

Fixpoint calls_from (seq : Z) (cs : list (list WalOp)) : list call :=
  match cs with [] => [] | ops :: cs => call_at seq ops :: calls_from (seq + len ops) cs end.

Lemma take_calls n seq cs : take n (calls_from seq cs) = calls_from seq (take n cs).
Proof. revert n seq. induction cs as [|ops cs IH]; intros [|n] seq; cbn; [done..|]. by rewrite IH. Qed.
Lemma length_calls seq cs : length (calls_from seq cs) = length cs.
Proof. revert seq. induction cs as [|ops cs IH]; intros seq; cbn; [done|]. by rewrite IH. Qed.
Lemma committable_call seq ops :
  Forall committable ops -> 0 <= seq -> seq + len ops <= u64_max -> call_ok (call_at seq ops).
Proof.
  intros Hops Hs Hmax.
  assert (Forall rec_ok (sequence_from seq ops)) as Hall.
  { revert seq Hs Hmax. induction Hops as [|op ops (_ & Hm & Hwf & Hf) Hops IH]; intros seq Hs Hmax; [constructor|].
    cbn [length] in Hmax. rewrite sequence_cons. constructor; [|apply IH; lia].
    unfold rec_ok. cbn [fst snd]. split; [unfold u64, u64_max in *; lia|]. by split. }
  destruct ops as [|op [|]]; cbn [call_at call_ok]; try exact Hall. rewrite sequence_cons in Hall. by apply Forall_inv in Hall.
Qed.

Lemma commit_replays c ops c' st :
  Forall committable ops -> 0 <= co_engine_seq c -> co_engine_seq c + len ops <= u64_max -> matches c st ->
  commit_ops (Ok tt) c ops = Some (c', Ok tt) ->
  exists st', matches c' st' /\ same_frame c c' /\ co_engine_seq c' = co_engine_seq c + len ops
    /\ (exists n, do_call (co_wal c) (call_of c ops) = Ok (co_wal c', n))
    /\ forall rest, replay c (call_records (call_of c ops) ++ rest) None st = replay c rest None st'.
Proof.
  intros Hops Hs Hmax Hst E.
  assert (Forall (normal_op config) ops /\ Forall (fun op => is_marker op = false) ops) as [Hn Hmk]
    by (split; eapply Forall_impl; try exact Hops; by intros ? (? & ? & _)).
  destruct ops as [|op1 [|op2 ops]]; cbn [commit_ops] in E.
  - apply (inj Some) in E. injection E as <-. exists st. split; [done|]. split; [done|]. split; [cbn; lia|]. split; [|done].
    exists 0. cbn. by rewrite app_nil_r.
  - apply Forall_inv in Hn. apply Forall_inv in Hmk. by apply one_replays.
  - by apply batch_replays.
Qed.

Lemma run_replays c cs c' st :
  run_commits c cs = Some c' -> Forall (Forall committable) cs ->
  0 <= co_engine_seq c -> co_engine_seq c + len (mjoin cs) <= u64_max -> matches c st ->
  write_calls (co_wal c) (calls_from (co_engine_seq c) cs) = Ok (co_wal c')
  /\ Forall call_ok (calls_from (co_engine_seq c) cs)
  /\ exists st', matches c' st'
       /\ forall rest, replay c (calls_records (calls_from (co_engine_seq c) cs) ++ rest) None st = replay c rest None st'.
Proof.
  revert c st. induction cs as [|ops cs IH]; intros c st E Hok Hs Hmax Hst.
  { apply (inj Some) in E as <-. split; [done|]. split; [constructor|]. by exists st. }
  cbn [run_commits] in E. destruct (commit_ops (Ok tt) c ops) as [[c1 [[]|]]|] eqn:E1; [|done..].
  apply Forall_cons in Hok as [Hops Hok]. change (mjoin (ops :: cs)) with (ops ++ mjoin cs) in Hmax. rewrite length_app, Nat2Z.inj_add in Hmax.
  destruct (commit_replays c ops c1 st Hops Hs ltac:(lia) Hst E1) as (st1 & Hst1 & (Hg & He & Hsg) & Hs1 & (n & Hw) & Hr1).
  assert (0 <= co_engine_seq c1) as Hs0 by lia.
  assert (co_engine_seq c1 + len (mjoin cs) <= u64_max) as Hmax1 by lia.
  destruct (IH c1 st1 E Hok Hs0 Hmax1 Hst1) as (Hws & Hcs & st2 & Hst2 & Hr).
  cbn [calls_from]. rewrite <- Hs1. split; [cbn [write_calls]; by rewrite Hw|].
  split; [constructor; [apply committable_call; [done|lia..]|done]|]. exists st2. split; [done|]. intros rest.
  unfold calls_records. cbn [fmap list_fmap mjoin list_join]. rewrite <- app_assoc, Hr1, <- Hg, <- He, <- Hsg. apply Hr.
Qed.

(** ** What a torn commit leaves is dropped *)
Lemma replay_unclosed g epochs segments recs batch st :
  Forall (fun r => is_marker r.2 = false) recs -> replay_records config g epochs segments recs (Some batch) st = Some (Ok st).
Proof.
  revert batch. induction recs as [|[seq op] recs IH]; intros batch Hnm; [done|]. apply Forall_cons in Hnm as [Hop Hnm].
  cbn [snd] in Hop. cbn [replay_records]. destruct op; try done; destruct (push_replay_op _ _ _); try done; by apply IH.
Qed.
Lemma replay_open_tail g epochs segments recs st :
  open_tail recs -> replay_records config g epochs segments recs None st = Some (Ok st).
Proof.
  intros [->|(f & n & l & -> & Hl)]; [done|]. cbn [replay_records].
  destruct (new_replay_batch f n); [by apply replay_unclosed|done].
Qed.

Lemma fresh_matches c :
  fresh_generation c -> matches c (mkReplay empty_state ∅ (co_label_catalog c) (co_engine_seq c)).
Proof.
  intros (_ & Hm & Ho & _). unfold matches. cbn [rp_memtable rp_catalog rp_engine_seq rp_deltas]. rewrite Hm, Ho.
  split; [done|]. split; [done|]. split; [done|]. split; [apply empty_layout|]. intros k x. exists 0.
  rewrite empty_count. unfold map_count. rewrite lookup_empty. by destruct k.
Qed.

(** C1.  Crash recovery rebuilds the engine.  After any run of commits on a
    fresh generation, cut its log anywhere behind the header: opening succeeds,
    keeps exactly the bytes the log had after some number of whole commits (as
    many as fit), and the memtable, the label catalog, the sequence number and
    every degree counter are those the engine had after these commits. *)
Theorem crash_recovery c0 cs c k :
  fresh_generation c0 -> run_commits c0 cs = Some c -> Forall (Forall committable) cs ->
  co_engine_seq c0 + len (mjoin cs) <= u64_max -> (WAL_HEADER_SIZE <= k <= length (co_wal c))%nat ->
  exists n cn st overlay,
    (n <= length cs)%nat /\ run_commits c0 (take n cs) = Some cn
    /\ (forall cm, run_commits c0 (take (S n) cs) = Some cm -> n = length cs \/ (k < length (co_wal cm))%nat)
    /\ replay_wal_generation config (co_active_wal_generation_id c0) (co_immutable_epochs c0) (co_segments c0)
         (Some (take k (co_wal c))) (co_label_catalog c0) (co_engine_seq c0) = Some (Ok (st, overlay, len (co_wal cn)))
    /\ co_wal cn = take (length (co_wal cn)) (co_wal c)
    /\ rp_memtable st = co_memtable cn /\ rp_catalog st = co_label_catalog cn /\ rp_engine_seq st = co_engine_seq cn
    /\ forall counter x, overlay_count counter overlay x = overlay_count counter (co_active_degree_overlay cn) x.
Proof.
  intros Hfresh E Hok Hmax Hk. pose proof (fresh_matches _ Hfresh) as Hst0. destruct Hfresh as (Hw0 & _ & _ & Hs0).
  destruct (run_replays c0 cs c _ E Hok Hs0 Hmax Hst0) as (Hws & Hcs & _). rewrite Hw0 in Hws.
  destruct (torn_log _ _ _ Hcs Hws Hk) as (n & kept & torn & Hn & Hkept & Hwn & Hlast & Hr & _ & Htail).
  rewrite length_calls in Hn, Hlast. rewrite take_calls in Hwn. setoid_rewrite take_calls in Hlast. rewrite take_calls in Hr.
  assert (forall m cm, run_commits c0 (take m cs) = Some cm ->
    write_calls write_wal_header (calls_from (co_engine_seq c0) (take m cs)) = Ok (co_wal cm)
    /\ exists st, matches cm st /\ forall rest, replay c0 (calls_records (calls_from (co_engine_seq c0) (take m cs)) ++ rest) None
         (mkReplay empty_state ∅ (co_label_catalog c0) (co_engine_seq c0)) = replay c0 rest None st) as Hrun.
  { intros m cm Em. rewrite <- Hw0.
    assert (len (mjoin (take m cs)) <= len (mjoin cs)) as Hle.
    { rewrite <- (take_drop m cs) at 2. rewrite join_app, length_app. lia. }
    assert (co_engine_seq c0 + len (mjoin (take m cs)) <= u64_max) as Hmaxm by lia.
    destruct (run_replays c0 (take m cs) cm _ Em (Forall_take _ _ _ Hok) Hs0 Hmaxm Hst0) as (? & _ & ?). by split. }
  destruct (run_commits_take n _ _ _ E) as [cn En]. destruct (Hrun n cn En) as (Hwcn & st & (Hm & Hcat & Hs & _ & Hcnt) & Hrep).
  rewrite Hwcn in Hwn. apply Ok_inj in Hwn.
  destruct (from_flat_spec (rp_deltas st)) as (overlay & Ho & _ & Hoc). exists n, cn, st, overlay.
  assert (length (co_wal cn) = kept) as Hlen by (rewrite Hwn, length_take; lia).
  split; [done|]. split; [done|]. split; [intros cm Em; by apply Hlast, Hrun|].
  split; [|split; [by rewrite Hlen|]; split; [done|]; split; [done|]; split; [done|]].
  - unfold replay_wal_generation. rewrite Hr. cbn [rr_records rr_durable_len]. rewrite Hrep, replay_open_tail by done.
    cbn [mbind option_bind]. by rewrite Ho, Hlen.
  - intros kc x. destruct (Hcnt kc x) as (t & -> & Ht). by apply Hoc.
Qed.
End Commit.
End Recovery.
