(* ===== verification/Walks.v ===== *)
(** Walks in a graph given by its arcs, and the distance they measure: what the
    searches on a read view are specified with. *)
From S2P Require Import Prelude.

(** [A x y e]: the edge [e] goes from [x] to [y]. *)
Abbreviation Arcs := (Z -> Z -> Z -> Prop).

(** A walk is the list of the edges it takes, each with the node it leads to. *)
Inductive walk (A : Arcs) : Z -> list (Z * Z) -> Z -> Prop :=
| walk_nil x : walk A x [] x
| walk_cons x e y p z : A x y e -> walk A y p z -> walk A x ((e, y) :: p) z.

Definition turned (A : Arcs) : Arcs := fun x y e => A y x e.

Lemma walk_mono (A B : Arcs) x p z : (forall x y e, A x y e -> B x y e) -> walk A x p z -> walk B x p z.
Proof. intros E. induction 1; econstructor; eauto. Qed.

Section Walks.
Context (A : Arcs).
Lemma walk_app x p y q z : walk A x p y -> walk A y q z -> walk A x (p ++ q) z.
Proof. induction 1; [done|]. intros Hq. cbn. econstructor; eauto. Qed.
Lemma walk_snoc x p y e z : walk A x p y -> A y z e -> walk A x (p ++ [(e, z)]) z.
Proof. intros Hp Ha. eapply walk_app; [done|]. econstructor; [done|constructor]. Qed.
Lemma walk_app_inv x p q z : walk A x (p ++ q) z -> exists y, walk A x p y /\ walk A y q z.
Proof.
  revert x. induction p as [|[e y] p IH]; intros x; cbn.
  - intros Hw. exists x. split; [constructor|done].
  - inversion 1; subst. destruct (IH y) as (w & ? & ?); [done|]. exists w. split; [by constructor|done].
Qed.
Lemma walk_end x p z : walk A x p z -> z = default x (snd <$> last p).
Proof.
  induction 1 as [x|x e y p z _ _ IH]; [done|]. rewrite IH, last_cons. by destruct (last p) as [[]|].
Qed.
(** Taken backwards, a walk passes the same edges and nodes in reverse. *)
Lemma walk_turn x p z : walk A x p z ->
  exists q, walk (turned A) z q x /\ fst <$> q = reverse (fst <$> p) /\ z :: (snd <$> q) = reverse (x :: (snd <$> p)).
Proof.
  induction 1 as [x|x e y p z Ha _ (q & Hq & Ee & En)]; [exists []; split_and!; [constructor|done..]|].
  exists (q ++ [(e, x)]). split_and!.
  - clear Ee En. induction Hq as [w|w e' y' q w' Ha' Hq IH]; cbn; [|constructor; [done|by apply IH]].
    econstructor; [exact Ha|constructor].
  - rewrite fmap_app, Ee. change (fst <$> (e, y) :: p) with (e :: (fst <$> p)). by rewrite reverse_cons.
  - rewrite fmap_app, app_comm_cons, En. change (snd <$> (e, y) :: p) with (y :: (snd <$> p)). by rewrite (reverse_cons (y :: (snd <$> p))).
Qed.

(** ** Distance from a root *)
Context (s : Z).
Definition within (k : nat) (x : Z) : Prop := exists p, walk A s p x /\ (length p <= k)%nat.
Definition dist (k : nat) (x : Z) : Prop :=
  (exists p, walk A s p x /\ length p = k) /\ forall p, walk A s p x -> (k <= length p)%nat.
Lemma within_mono j k x : (j <= k)%nat -> within j x -> within k x.
Proof. intros Hle (p & ? & ?). exists p. split; [done|lia]. Qed.
Lemma dist_within k x : dist k x -> within k x.
Proof. intros [(p & ? & ?) _]. exists p. split; [done|lia]. Qed.
Lemma dist_unique j k x : dist j x -> dist k x -> j = k.
Proof. intros [(p & Hp & <-) Hj] [(q & Hq & <-) Hk]. specialize (Hj q Hq). specialize (Hk p Hp). lia. Qed.
Lemma dist_root : dist 0 s.
Proof. split; [exists []; split; [constructor|done]|intros; lia]. Qed.
Lemma dist_0 x : dist 0 x -> x = s.
Proof. intros [(p & Hp & Hl) _]. apply nil_length_inv in Hl as ->. by inversion Hp. Qed.
(** The node before the last is one step nearer. *)
Lemma dist_step k x : dist (S k) x -> exists y e, dist k y /\ A y x e.
Proof.
  intros [(p & Hp & Hl) Hmin]. destruct (exists_last (l := p)) as (q & [e z] & ->); [by intros ->|].
  rewrite length_app in Hl. cbn in Hl. apply walk_app_inv in Hp as (y & Hq & Hz). inversion Hz as [|? ? ? ? ? Ha Hw]; subst. inversion Hw; subst.
  exists y, e. split; [|done]. split; [exists q; split; [done|lia]|]. intros q' Hq'.
  specialize (Hmin _ (walk_snoc _ _ _ _ _ Hq' Ha)). rewrite length_app in Hmin. cbn in Hmin. lia.
Qed.
Lemma dist_next k x y e : dist k x -> A x y e -> ~ within k y -> dist (S k) y.
Proof.
  intros [(p & Hp & Hl) _] Ha Hn. split.
  - exists (p ++ [(e, y)]). split; [by eapply walk_snoc|]. rewrite length_app. cbn. lia.
  - intros q Hq. destruct (decide (length q <= k)%nat) as [Hle|]; [|lia]. destruct Hn. by exists q.
Qed.
(** A node one step further out is the end of an arc from the outermost layer. *)
Lemma within_next k y : within (S k) y -> ~ within k y -> exists x e, dist k x /\ A x y e.
Proof.
  intros (p & Hp & Hl) Hn. assert (length p = S k) as Hk.
  { destruct (decide (length p <= k)%nat) as [Hle|]; [|lia]. destruct Hn. by exists p. }
  destruct (exists_last (l := p)) as (q & [e z] & ->); [by intros ->|]. rewrite length_app in Hk. cbn in Hk.
  apply walk_app_inv in Hp as (x & Hq & Hz). inversion Hz as [|? ? ? ? ? Ha Hw]; subst. inversion Hw; subst.
  exists x, e. split; [|done]. split; [exists q; split; [done|lia]|]. intros q' Hq'.
  destruct (decide (k <= length q')%nat) as [|Hlt]; [done|]. destruct Hn. exists (q' ++ [(e, y)]). split; [by eapply walk_snoc|].
  rewrite length_app. cbn. lia.
Qed.
End Walks.

(** Two balls of radius [j] around [s] and [k] around [t] (against the arcs) that
    share no node leave more than [j + k] steps between [s] and [t]. *)
Lemma apart_far (A : Arcs) s t j k p :
  (forall x, within A s j x -> within (turned A) t k x -> False) -> walk A s p t -> (j + k < length p)%nat.
Proof.
  intros Hapart Hp. destruct (decide (j + k < length p)%nat) as [|Hle]; [done|]. exfalso.
  rewrite <- (take_drop j p) in Hp. apply walk_app_inv in Hp as (x & H1 & H2). destruct (walk_turn A _ _ _ H2) as (q & Hq & Ee & _).
  assert (length q = length (drop j p)) as El by (by rewrite <- (length_fmap fst q), Ee, length_reverse, length_fmap).
  apply (Hapart x).
  - exists (take j p). split; [done|]. rewrite length_take. lia.
  - exists q. split; [done|]. rewrite El, length_drop. lia.
Qed.

(** Where the outermost layer is empty, everything has been reached. *)
Lemma closed_all (A : Arcs) s k (Hdec : forall x, within A s k x \/ ~ within A s k x) :
  (forall x, ~ dist A s k x) -> forall p x, walk A s p x -> within A s k x.
Proof.
  intros Hempty p. induction p as [|[e z] p IH] using rev_ind; intros x Hp.
  - inversion Hp; subst. exists []. split; [constructor|cbn; lia].
  - apply walk_app_inv in Hp as (y & Hq & Hz). inversion Hz as [|? ? ? ? ? Ha Hw]; subst. inversion Hw; subst.
    destruct (Hdec x) as [|Hn]; [done|]. destruct (IH y Hq) as (q & Hq' & Hl).
    destruct (within_next A s k x) as (y' & e' & Hd & _); [|done|by destruct (Hempty y')].
    exists (q ++ [(e, x)]). split; [by eapply walk_snoc|]. rewrite length_app. cbn. lia.
Qed.
