(* ===== verification/Adjacency.v ===== *)
(** The adjacency of a read view (src/engine/graph_ops.rs): the callback walks
    over one memtable, the query-local view of the tombstones, and the expansion
    of a frontier across the layers. *)
From S2P Require Import Prelude Types PropertyValue Slots Memtable MemtableReads DegreeEngine SourceList.
Import SourceList.

(** ** Callbacks: [ControlFlow::Break] is [true] *)
Fixpoint each {A S} (callback : S -> A -> S * bool) (items : list A) (s : S) : S * bool :=
  match items with
  | [] => (s, false)
  | item :: items => let '(s, stop) := callback s item in if stop then (s, true) else each callback items s
  end.

Definition reverse_direction (direction : Direction) : Direction :=
  match direction with Outgoing => Incoming | Incoming => Outgoing | Both => Both end.

Record Posting : Type := mkPosting {
  ps_edge_id : Z;
  ps_neighbor_id : Z;
  ps_weight : Z;
  ps_valid_from : Z;
  ps_valid_to : Z
}.
Definition posting_of (entry : AdjEntry) : Posting :=
  mkPosting (ae_edge_id entry) (ae_neighbor_id entry) (ae_weight entry) (ae_valid_from entry) (ae_valid_to entry).

(** ** Memtables *)
Section Memtable.
Context `{HashOrder} {S : Type} (st : MemtableState) (node_id : Z) (label_filter_ids : option (list Z)) (snapshot_seq : Z)
  (callback : S -> Posting -> S * bool).

(** The [visit] closure over the slots of one adjacency list. *)
Fixpoint visit_slots (dedupe_self_loops : bool) (slots : list AdjSlot) (self_loop_edge_ids : gset Z) (s : S) : gset Z * S * bool :=
  match slots with
  | [] => (self_loop_edge_ids, s, false)
  | slot :: slots =>
      let run loops entry :=
        let '(s, stop) := callback s (posting_of entry) in
        if stop then (loops, s, true) else visit_slots dedupe_self_loops slots loops s in
      match slot_option_at slot snapshot_seq with
      | None => visit_slots dedupe_self_loops slots self_loop_edge_ids s
      | Some entry =>
          if match label_filter_ids with
             | Some label_ids => bool_decide (ae_label_id entry ∉ label_ids)
             | None => false
             end
          then visit_slots dedupe_self_loops slots self_loop_edge_ids s
          else if node_deleted_at st (ae_neighbor_id entry) snapshot_seq
          then visit_slots dedupe_self_loops slots self_loop_edge_ids s
          else if ae_neighbor_id entry =? node_id then
            if dedupe_self_loops && bool_decide (ae_edge_id entry ∈ self_loop_edge_ids)
            then visit_slots dedupe_self_loops slots self_loop_edge_ids s
            else run ({[ae_edge_id entry]} ∪ self_loop_edge_ids) entry
          else run self_loop_edge_ids entry
      end
  end.

Definition for_each_adj_entry_at (direction : Direction) (s : S) : S * bool :=
  if node_deleted_at st node_id snapshot_seq then (s, false)
  else
    let visit adj dedupe loops s := visit_slots dedupe (adj_slots adj node_id) loops s in
    match direction with
    | Outgoing => let '(_, s, stop) := visit (ms_adj_out st) false ∅ s in (s, stop)
    | Incoming => let '(_, s, stop) := visit (ms_adj_in st) false ∅ s in (s, stop)
    | Both =>
        let '(loops, s, stop) := visit (ms_adj_out st) false ∅ s in
        if stop then (s, true)
        else let '(_, s, stop) := visit (ms_adj_in st) true loops s in (s, stop)
    end.
End Memtable.

Definition collect_deleted_edges_at `{HashOrder} (st : MemtableState) (snapshot_seq : Z) : gset Z :=
  list_to_set (fst <$> visible_entries snapshot_seq (hash_iter (ms_edge_tombstones st))).

(** ** Segments *)
(** A segment walks the postings of a sorted batch of nodes, calling back with
    the node each belongs to; decoding may fail after some of them. *)
Class SegmentAdjacency (Segment : Type) : Type := {
  adj_postings_batch : Segment -> list Z -> Direction -> option (list Z) -> list (Z * Posting) * option EngineError;
  deleted_node_ids : Segment -> list Z;
  deleted_edge_ids : Segment -> list Z
}.
Definition for_each_adj_posting_batch {Segment S} `{SegmentAdjacency Segment} (callback : S -> Z * Posting -> S * bool)
    (seg : Segment) (node_ids : list Z) (direction : Direction) (label_filter_ids : option (list Z)) (s : S) : res (S * bool) :=
  let '(postings, failure) := adj_postings_batch seg node_ids direction label_filter_ids in
  let '(s, stop) := each callback postings s in
  if stop then Ok (s, true) else match failure with Some e => Err e | None => Ok (s, false) end.

Section View.
Context `{HashOrder} {Segment : Type} `{SegmentReads Segment, SegmentAdjacency Segment}.
Abbreviation ReadView := (SourceList (Segment := Segment)).
Implicit Types (self : ReadView).

(** ** Tombstones *)
Definition collect_deleted_nodes (self : ReadView) : gset Z :=
  foldl (fun deleted seg => deleted ∪ list_to_set (deleted_node_ids seg))
    (foldl (fun deleted epoch => deleted ∪ collect_deleted_nodes_at epoch (snapshot_seq self))
       (collect_deleted_nodes_at (active self) (snapshot_seq self)) (immutable self))
    (segments self).
Definition collect_deleted_edges (self : ReadView) : gset Z :=
  foldl (fun deleted seg => deleted ∪ list_to_set (deleted_edge_ids seg))
    (foldl (fun deleted epoch => deleted ∪ collect_deleted_edges_at epoch (snapshot_seq self))
       (collect_deleted_edges_at (active self) (snapshot_seq self)) (immutable self))
    (segments self).
Definition collect_tombstones (self : ReadView) : gset Z * gset Z :=
  (collect_deleted_nodes self, collect_deleted_edges self).

Record TraversalTombstoneView : Type := mkTombstones {
  tv_deleted_nodes : option (gset Z);
  tv_deleted_edges : option (gset Z);
  tv_node_cache : gmap Z bool;
  tv_edge_cache : gmap Z bool;
  tv_membership_checks : Z
}.
Definition MATERIALIZE_THRESHOLD : Z := 2048.
Definition new_tombstones : TraversalTombstoneView := mkTombstones None None ∅ ∅ 0.

Definition maybe_materialize (self : ReadView) (tv : TraversalTombstoneView) : TraversalTombstoneView :=
  if bool_decide (is_Some (tv_deleted_nodes tv)) || (tv_membership_checks tv <? MATERIALIZE_THRESHOLD)
     || (bool_decide (length (segments self) = 0%nat) && bool_decide (immutable self = []))
  then tv
  else mkTombstones (Some (collect_deleted_nodes self)) (Some (collect_deleted_edges self)) ∅ ∅ (tv_membership_checks tv).

Definition node_tombstoned (self : ReadView) (id : Z) : bool :=
  node_deleted_at (active self) id (snapshot_seq self)
  || existsb (fun epoch => node_deleted_at epoch id (snapshot_seq self)) (immutable self)
  || existsb (fun seg => is_node_deleted seg id) (segments self).
Definition edge_tombstoned (self : ReadView) (id : Z) : bool :=
  edge_deleted_at (active self) id (snapshot_seq self)
  || existsb (fun epoch => edge_deleted_at epoch id (snapshot_seq self)) (immutable self)
  || existsb (fun seg => is_edge_deleted seg id) (segments self).

Definition tv_is_node_deleted (self : ReadView) (tv : TraversalTombstoneView) (id : Z) : bool * TraversalTombstoneView :=
  match tv_deleted_nodes tv with
  | Some deleted_nodes => (bool_decide (id ∈ deleted_nodes), tv)
  | None =>
      match tv_node_cache tv !! id with
      | Some deleted => (deleted, tv)
      | None =>
          let deleted := node_tombstoned self id in
          (deleted, maybe_materialize self
             (mkTombstones (tv_deleted_nodes tv) (tv_deleted_edges tv) (<[id := deleted]> (tv_node_cache tv))
                (tv_edge_cache tv) (tv_membership_checks tv + 1)))
      end
  end.
Definition tv_is_edge_deleted (self : ReadView) (tv : TraversalTombstoneView) (id : Z) : bool * TraversalTombstoneView :=
  match tv_deleted_edges tv with
  | Some deleted_edges => (bool_decide (id ∈ deleted_edges), tv)
  | None =>
      match tv_edge_cache tv !! id with
      | Some deleted => (deleted, tv)
      | None =>
          let deleted := edge_tombstoned self id in
          (deleted, maybe_materialize self
             (mkTombstones (tv_deleted_nodes tv) (tv_deleted_edges tv) (tv_node_cache tv)
                (<[id := deleted]> (tv_edge_cache tv)) (tv_membership_checks tv + 1)))
      end
  end.

(** ** The expansion of a frontier *)
Section Expand.
Context {S : Type} (self : ReadView) (direction : Direction) (edge_label_filter : option (list Z)) (reference_time : Z)
  (on_neighbor : S -> Z * Z * Z -> S * bool).

(** The state the callbacks share: the (node, edge) pairs seen, the tombstones,
    and the state of [on_neighbor]. *)
Definition ExpandState : Type := gset (Z * Z) * TraversalTombstoneView * S.

Definition active_callback (nid : Z) (x : ExpandState) (p : Posting) : ExpandState * bool :=
  let '(seen, tv, s) := x in
  let seen := {[(nid, ps_edge_id p)]} ∪ seen in
  if negb (is_edge_valid_at (ps_valid_from p) (ps_valid_to p) reference_time) then ((seen, tv, s), false)
  else let '(s, stop) := on_neighbor s (nid, ps_neighbor_id p, ps_edge_id p) in ((seen, tv, s), stop).

Definition older_callback (x : ExpandState) (q : Z * Posting) : ExpandState * bool :=
  let '(nid, p) := q in
  let '(seen, tv, s) := x in
  if bool_decide ((nid, ps_edge_id p) ∈ seen) then (x, false)
  else
    let seen := {[(nid, ps_edge_id p)]} ∪ seen in
    if negb (is_edge_valid_at (ps_valid_from p) (ps_valid_to p) reference_time) then ((seen, tv, s), false)
    else
      let '(edge_deleted, tv) := tv_is_edge_deleted self tv (ps_edge_id p) in
      if edge_deleted : bool then ((seen, tv, s), false)
      else
        let '(neighbor_deleted, tv) := tv_is_node_deleted self tv (ps_neighbor_id p) in
        if neighbor_deleted : bool then ((seen, tv, s), false)
        else
          let '(source_deleted, tv) := tv_is_node_deleted self tv nid in
          if source_deleted : bool then ((seen, tv, s), false)
          else let '(s, stop) := on_neighbor s (nid, ps_neighbor_id p, ps_edge_id p) in ((seen, tv, s), stop).

Fixpoint expand_segments (sorted_ids : list Z) (segs : list Segment) (x : ExpandState) : res (ExpandState * bool) :=
  match segs with
  | [] => Ok (x, false)
  | seg :: segs =>
      '(x, stop) ← for_each_adj_posting_batch older_callback seg sorted_ids direction edge_label_filter x;
      if stop : bool then Ok (x, true) else expand_segments sorted_ids segs x
  end.

Definition expand_frontier (frontier : list Z) (tv : TraversalTombstoneView) (s : S) : res (TraversalTombstoneView * S * bool) :=
  match frontier with
  | [] => Ok (tv, s, false)
  | _ =>
      let sorted_ids := sort_ids frontier in
      let '(x, stop) :=
        each (fun x nid => for_each_adj_entry_at (active self) nid edge_label_filter (snapshot_seq self) (active_callback nid)
                             direction x) sorted_ids (∅, tv, s) in
      if stop then Ok (snd (fst x), snd x, true)
      else
        let '(x, stop) :=
          each (fun x epoch =>
            each (fun x nid => for_each_adj_entry_at epoch nid edge_label_filter (snapshot_seq self)
                                 (fun x p => older_callback x (nid, p)) direction x) sorted_ids x)
            (immutable self) x in
        if stop then Ok (snd (fst x), snd x, true)
        else
          '(x, stop) ← expand_segments sorted_ids (segments self) x;
          Ok (snd (fst x), snd x, stop)
  end.
End Expand.
End View.
