(* ===== verification/Components.v ===== *)
(** Disjoint sets and connected components (src/engine/graph_ops.rs). *)
From S2P Require Import Prelude Types PropertyValue Slots Memtable MemtableReads DegreeEngine SourceList Adjacency.

Module UnionFind.
Record UnionFind : Type := mkUf { uf_parent : gmap Z Z; uf_rank : gmap Z Z }.
Definition with_capacity : UnionFind := mkUf ∅ ∅.
Definition make_set (x : Z) (self : UnionFind) : UnionFind := mkUf (<[x := x]> (uf_parent self)) (uf_rank self).

(** The first loop of [find]: up to a node that is its own parent. *)
Fixpoint find_root (fuel : nat) (parent : gmap Z Z) (root : Z) : option Z :=
  match fuel with
  | O => None
  | S fuel => let p := default root (parent !! root) in if p =? root then Some root else find_root fuel parent p
  end.
(** The second: every node on the way is given the root as parent. *)
Fixpoint compress (fuel : nat) (parent : gmap Z Z) (x root : Z) : option (gmap Z Z) :=
  match fuel with
  | O => None
  | S fuel =>
      if x =? root then Some parent
      else let p := default x (parent !! x) in compress fuel (<[x := root]> parent) p root
  end.
Definition find (self : UnionFind) (x : Z) : option (Z * UnionFind) :=
  let fuel := S (size (uf_parent self)) in
  root ← find_root fuel (uf_parent self) x; parent ← compress fuel (uf_parent self) x root;
  Some (root, mkUf parent (uf_rank self)).

(** [u8] addition, wrapping *)
Definition u8_add (a b : Z) : Z := (a + b) mod 2 ^ 8.
Definition union (self : UnionFind) (a b : Z) : option UnionFind :=
  '(ra, self) ← find self a; '(rb, self) ← find self b;
  if ra =? rb then Some self
  else
    let rank_a := default 0 (uf_rank self !! ra) in
    let rank_b := default 0 (uf_rank self !! rb) in
    Some match rank_a ?= rank_b with
         | Lt => mkUf (<[ra := rb]> (uf_parent self)) (uf_rank self)
         | Gt => mkUf (<[rb := ra]> (uf_parent self)) (uf_rank self)
         | Eq => mkUf (<[rb := ra]> (uf_parent self)) (<[ra := u8_add rank_a 1]> (uf_rank self))
         end.

(** ** The trees *)
(** [leads parent n x r]: [n] steps up from [x] is the root [r]. *)
Inductive leads (parent : gmap Z Z) : nat -> Z -> Z -> Prop :=
| leads_root r : default r (parent !! r) = r -> leads parent 0 r r
| leads_step n x p r : parent !! x = Some p -> p ≠ x -> leads parent n p r -> leads parent (S n) x r.
Definition root_of (parent : gmap Z Z) (x r : Z) : Prop := exists n, leads parent n x r.
(** Every node leads to a root. *)
Definition forest (self : UnionFind) : Prop := forall x, exists r, root_of (uf_parent self) x r.

Lemma leads_unique parent n m x r r' : leads parent n x r -> leads parent m x r' -> n = m /\ r = r'.
Proof.
  intros Hl. revert m r'. induction Hl as [r Hr|n x p r Hp Hne Hl IH]; intros m r' Hl'.
  - inversion Hl' as [|? ? p ? Hp Hne]; subst; [done|]. rewrite Hp in Hr. cbn in Hr. done.
  - inversion Hl' as [? Hr|? ? p' ? Hp' Hne' Hl'']; subst.
    + rewrite Hp in Hr. cbn in Hr. done.
    + rewrite Hp in Hp'. injection Hp' as <-. destruct (IH _ _ Hl'') as [-> ->]. done.
Qed.
Lemma root_of_unique parent x r r' : root_of parent x r -> root_of parent x r' -> r = r'.
Proof. intros [n Hn] [m Hm]. by destruct (leads_unique _ _ _ _ _ _ Hn Hm). Qed.
Lemma leads_is_root parent n x r : leads parent n x r -> leads parent 0 r r.
Proof. induction 1; [by constructor|done]. Qed.
(** The nodes on the way are distinct keys. *)
Lemma leads_size parent n x r : leads parent n x r -> (n <= size parent)%nat.
Proof.
  intros Hl. assert (exists X : gset Z, X ⊆ dom parent /\ size X = n /\ forall y, y ∈ X -> exists m, (m <= n)%nat /\ leads parent m y r) as (X & HX & <- & _).
  { induction Hl as [r Hr|n x p r Hp Hne Hl (X & HX & Hs & Hm)]; [exists ∅; split_and!; [set_solver|apply size_empty|set_solver]|].
    assert (leads parent (S n) x r) as Hx by by econstructor. exists ({[x]} ∪ X). assert (x ∉ X) as Hn.
    { intros (m & Hle & Hlm)%Hm. destruct (leads_unique _ _ _ _ _ _ Hx Hlm). lia. }
    split_and!.
    - apply union_subseteq. split; [|done]. apply singleton_subseteq_l, elem_of_dom. by eexists.
    - rewrite size_union, size_singleton, Hs by set_solver. done.
    - intros z [->%elem_of_singleton|(m & ? & ?)%Hm]%elem_of_union; [by exists (S n)|]. exists m. split; [lia|done]. }
  rewrite <- size_dom. by apply subseteq_size.
Qed.
Lemma find_root_spec parent n x r fuel : leads parent n x r -> (n < fuel)%nat -> find_root fuel parent x = Some r.
Proof.
  intros Hl. revert fuel. induction Hl as [r Hr|n x p r Hp Hne Hl IH]; intros [|fuel] Hf; [lia| |lia|]; cbn [find_root].
  - by rewrite Hr, Z.eqb_refl.
  - rewrite Hp. change (default x (Some p)) with p. rewrite (proj2 (Z.eqb_neq p x)) by done. apply IH. lia.
Qed.

(** Giving a node its root as parent moves no root. *)
Lemma repoint parent n x r : leads parent n x r -> x ≠ r -> forall y r', root_of parent y r' -> root_of (<[x := r]> parent) y r'.
Proof.
  intros Hx Hne y r' [m Hy]. assert (leads (<[x := r]> parent) 0 r r) as Hr.
  { constructor. rewrite lookup_insert_ne by done. apply leads_is_root in Hx. by inversion Hx. }
  induction Hy as [r' Hr'|m y p r' Hp Hne' Hy [k IH]].
  - assert (r' ≠ x) as Hne'. { intros ->. destruct (leads_unique _ _ _ _ _ _ Hx (leads_root parent x Hr')). by subst. }
    exists 0%nat. constructor. by rewrite lookup_insert_ne.
  - destruct (decide (y = x)) as [->|Hyx].
    + assert (leads parent (S m) x r') as Hy' by by econstructor. destruct (leads_unique _ _ _ _ _ _ Hx Hy') as [_ <-].
      exists 1%nat. econstructor; [apply lookup_insert_eq|done|done].
    + exists (S k). econstructor; [by rewrite lookup_insert_ne|done|done].
Qed.
Lemma root_of_same parent parent' :
  (forall x, exists r, root_of parent x r) -> (forall y r, root_of parent y r -> root_of parent' y r) ->
  forall y r, root_of parent' y r <-> root_of parent y r.
Proof.
  intros Hf Hm y r. split; [|apply Hm]. intros Hr. destruct (Hf y) as [r' Hr']. by rewrite (root_of_unique _ _ _ _ Hr (Hm _ _ Hr')).
Qed.
Lemma compress_spec fuel parent n x r :
  (forall x, exists r, root_of parent x r) -> leads parent n x r -> (n < fuel)%nat ->
  exists parent', compress fuel parent x r = Some parent' /\ forall y r', root_of parent' y r' <-> root_of parent y r'.
Proof.
  revert parent n x. induction fuel as [|fuel IH]; intros parent n x Hf Hl Hn; [lia|]. cbn [compress].
  destruct (Z.eqb_spec x r) as [->|Hne]; [by exists parent|]. inversion Hl as [|m ? p ? Hp Hpx Hl']; subst; [done|]. rewrite Hp. change (default x (Some p)) with p.
  pose proof (root_of_same parent (<[x := r]> parent) Hf (repoint _ _ _ _ Hl Hne)) as Hsame.
  assert (forall k y, leads parent k y r -> (k <= m)%nat -> leads (<[x := r]> parent) k y r) as Hkeep.
  { intros k y Hy Hk. assert (forall k, leads parent k x r -> k = S m) as Hx by (intros k' Hk'; by destruct (leads_unique _ _ _ _ _ _ Hk' Hl)).
    remember r as r0 eqn:E in Hy. revert Hk. induction Hy as [r0 Hr0|k y q r0 Hq Hqy Hy IHy]; intros Hk; subst r0.
    - constructor. by rewrite lookup_insert_ne.
    - econstructor; [|done|apply IHy; [done|lia]]. rewrite lookup_insert_ne; [done|]. intros <-.
      assert (leads parent (S k) x r) as Hk' by by econstructor. apply Hx in Hk'. lia. }
  destruct (IH (<[x := r]> parent) m p) as (parent' & E & Hs); [|by apply Hkeep|lia|].
  - intros y. destruct (Hf y) as [r' Hr']. exists r'. by apply Hsame.
  - exists parent'. split; [done|]. intros y r'. by rewrite Hs, Hsame.
Qed.

(** ** The operations *)
Definition same_roots (uf uf' : UnionFind) : Prop := forall x r, root_of (uf_parent uf') x r <-> root_of (uf_parent uf) x r.
Lemma find_spec uf x : forest uf -> exists r uf', find uf x = Some (r, uf') /\ root_of (uf_parent uf) x r /\ forest uf' /\ same_roots uf uf'.
Proof.
  intros Hf. destruct (Hf x) as (r & n & Hl). pose proof (leads_size _ _ _ _ Hl) as Hn. unfold find.
  rewrite (find_root_spec _ _ _ _ (S (size (uf_parent uf))) Hl) by lia. cbn [mbind option_bind].
  destruct (compress_spec (S (size (uf_parent uf))) _ _ _ _ Hf Hl ltac:(lia)) as (parent & -> & Hs). cbn [mbind option_bind].
  eexists r, _. split; [done|]. split_and!; [by exists n| |exact Hs]. intros y. destruct (Hf y) as [r' Hr']. exists r'. by apply Hs.
Qed.

(** Nodes in the same set. *)
Definition joined (uf : UnionFind) (x y : Z) : Prop := exists r, root_of (uf_parent uf) x r /\ root_of (uf_parent uf) y r.
Lemma link_roots parent ra rb :
  (forall x, exists r, root_of parent x r) -> root_of parent ra ra -> root_of parent rb rb -> ra ≠ rb ->
  forall x r, root_of (<[ra := rb]> parent) x r <-> (root_of parent x ra /\ r = rb \/ root_of parent x r /\ r ≠ ra).
Proof.
  intros Hf Ha Hb Hne.
  assert (forall r, root_of parent r r -> default r (parent !! r) = r) as Hroot.
  { intros r [n Hn]. apply leads_is_root in Hn. by inversion Hn. }
  assert (leads (<[ra := rb]> parent) 0 rb rb) as Hb' by (constructor; rewrite lookup_insert_ne by done; by apply Hroot).
  assert (forall x r, root_of parent x r -> root_of (<[ra := rb]> parent) x (if decide (r = ra) then rb else r)) as Hfw.
  { intros x r [n Hn]. induction Hn as [r Hr|n x p r Hp Hpx Hn [k IH]].
    - case_decide as E; [subst; exists 1%nat; econstructor; [apply lookup_insert_eq|done|done]|exists 0%nat; constructor; by rewrite lookup_insert_ne].
    - assert (x ≠ ra) as Hx by (intros ->; rewrite <- (Hroot ra Ha) in Hpx; by rewrite Hp in Hpx).
      exists (S k). econstructor; [by rewrite lookup_insert_ne|done|done]. }
  intros x r. destruct (Hf x) as [r0 Hr0]. pose proof (Hfw _ _ Hr0) as Hr1. split.
  - intros Hr. rewrite (root_of_unique _ _ _ _ Hr Hr1). case_decide as E; [subst; by left|right; done].
  - intros [[Hr ->]|[Hr Hn]].
    + rewrite (root_of_unique _ _ _ _ Hr0 Hr), decide_True in Hr1 by done. done.
    + rewrite (root_of_unique _ _ _ _ Hr0 Hr), decide_False in Hr1 by done. done.
Qed.
Lemma root_of_self parent x r : root_of parent x r -> root_of parent r r.
Proof. intros [n Hn]. exists 0%nat. by eapply leads_is_root. Qed.

Lemma linked uf ra rb rank a b : ra ≠ rb -> forest uf -> root_of (uf_parent uf) a ra -> root_of (uf_parent uf) b rb ->
  let uf' := mkUf (<[ra := rb]> (uf_parent uf)) rank in
  forest uf' /\ forall x y, joined uf' x y <-> joined uf x y \/ joined uf x a /\ joined uf y b \/ joined uf x b /\ joined uf y a.
Proof.
  intros Hne Hf Ha Hb. cbn zeta.
  pose proof (link_roots _ _ _ Hf (root_of_self _ _ _ Ha) (root_of_self _ _ _ Hb) Hne) as Hl.
  assert (forall x, joined uf x a <-> root_of (uf_parent uf) x ra) as Ja.
  { intros x. split; [intros (r & Hx & Hr); by rewrite (root_of_unique _ _ _ _ Ha Hr)|]. intros Hx. by exists ra. }
  assert (forall x, joined uf x b <-> root_of (uf_parent uf) x rb) as Jb.
  { intros x. split; [intros (r & Hx & Hr); by rewrite (root_of_unique _ _ _ _ Hb Hr)|]. intros Hx. by exists rb. }
  split.
  - intros x. destruct (Hf x) as [r Hr]. cbn. destruct (decide (r = ra)) as [->|]; [exists rb|exists r]; apply Hl; auto.
  - intros x y. rewrite !Ja, !Jb. unfold joined at 1. cbn [uf_parent]. setoid_rewrite Hl. split.
    + intros (r & Hx & Hy). destruct Hx as [[Hx ->]|[Hx Hnx]], Hy as [[Hy Ey]|[Hy Hny]]; subst.
      * left. by exists ra.
      * right. left. by split.
      * right. right. by split.
      * left. by exists r.
    + intros [(r & Hx & Hy)|[[Hx Hy]|[Hx Hy]]].
      * destruct (decide (r = ra)) as [->|]; [exists rb|exists r]; auto.
      * exists rb. auto.
      * exists rb. auto.
Qed.
Lemma joined_same uf uf' : same_roots uf uf' -> forall x y, joined uf' x y <-> joined uf x y.
Proof. unfold same_roots. intros Hs x y. unfold joined. by setoid_rewrite Hs. Qed.
Lemma joined_refl uf x : forest uf -> joined uf x x.
Proof. intros Hf. destruct (Hf x) as [r ?]. by exists r. Qed.
Lemma joined_sym uf x y : joined uf x y -> joined uf y x.
Proof. intros (r & ? & ?). by exists r. Qed.
Lemma joined_trans uf x y z : joined uf x y -> joined uf y z -> joined uf x z.
Proof. intros (r & Hx & Hy) (r' & Hy' & Hz). rewrite (root_of_unique _ _ _ _ Hy Hy') in Hx. by exists r'. Qed.

(** [union] always returns, and joins the sets of its two arguments. *)
Lemma union_spec uf a b : forest uf -> exists uf', union uf a b = Some uf' /\ forest uf'
  /\ forall x y, joined uf' x y <-> joined uf x y \/ joined uf x a /\ joined uf y b \/ joined uf x b /\ joined uf y a.
Proof.
  intros Hf. unfold union. destruct (find_spec uf a Hf) as (ra & uf1 & -> & Ha & Hf1 & Hs1). cbn [mbind option_bind].
  destruct (find_spec uf1 b Hf1) as (rb & uf2 & -> & Hb & Hf2 & Hs2). cbn [mbind option_bind].
  assert (forall x y, joined uf2 x y <-> joined uf x y) as Hj by (intros x y; by rewrite (joined_same _ _ Hs2), (joined_same _ _ Hs1)).
  assert (root_of (uf_parent uf2) a ra) as Ha2 by by apply Hs2, Hs1. assert (root_of (uf_parent uf2) b rb) as Hb2 by by apply Hs2.
  destruct (Z.eqb_spec ra rb) as [<-|Hne].
  { exists uf2. split_and!; [done..|]. intros x y. rewrite Hj. split; [auto|]. assert (joined uf a b) as Hab by (apply Hj; by exists ra).
    intros [?|[[Hx Hy]|[Hx Hy]]]; [done| |].
    - apply (joined_trans _ _ a); [done|]. apply (joined_trans _ _ b); [done|]. by apply joined_sym.
    - apply (joined_trans _ _ b); [done|]. apply (joined_trans _ _ a); by apply joined_sym. }
  assert (forall rank, let uf' := mkUf (<[ra := rb]> (uf_parent uf2)) rank in forest uf' /\
    forall x y, joined uf' x y <-> joined uf x y \/ joined uf x a /\ joined uf y b \/ joined uf x b /\ joined uf y a) as Hab.
  { intros rank. destruct (linked uf2 ra rb rank a b Hne Hf2 Ha2 Hb2) as [Hf' Hl]. split; [done|]. intros x y. by rewrite Hl, !Hj. }
  assert (forall rank, let uf' := mkUf (<[rb := ra]> (uf_parent uf2)) rank in forest uf' /\
    forall x y, joined uf' x y <-> joined uf x y \/ joined uf x a /\ joined uf y b \/ joined uf x b /\ joined uf y a) as Hba.
  { intros rank. destruct (linked uf2 rb ra rank b a (not_eq_sym Hne) Hf2 Hb2 Ha2) as [Hf' Hl]. split; [done|]. intros x y. rewrite Hl, !Hj. tauto. }
  cbn zeta. destruct (_ ?= _); eexists; (split; [reflexivity|]); first [apply Hab|apply Hba].
Qed.

(** ** Sets from a list of unions *)
Lemma make_sets_forest ids : forest (foldl (fun uf id => make_set id uf) with_capacity ids)
  /\ forall x y, joined (foldl (fun uf id => make_set id uf) with_capacity ids) x y <-> x = y.
Proof.
  assert (forall uf, (forall x, default x (uf_parent uf !! x) = x) -> forall x, default x (uf_parent (foldl (fun uf id => make_set id uf) uf ids) !! x) = x) as Hids.
  { induction ids as [|id ids IH]; intros uf Hid; [done|]. cbn. apply IH. intros x. cbn. destruct (decide (x = id)) as [->|].
    - by rewrite lookup_insert_eq.
    - by rewrite lookup_insert_ne. }
  specialize (Hids with_capacity (fun x => eq_refl)). revert Hids. generalize (foldl (fun uf id => make_set id uf) with_capacity ids). intros uf Hids.
  assert (forall x, root_of (uf_parent uf) x x) as Hr by (intros x; exists 0%nat; by constructor). split.
  - intros x. by exists x.
  - intros x y. split; [|intros ->; by exists y]. intros (r & Hx & Hy). rewrite (root_of_unique _ _ _ _ (Hr x) Hx). symmetry. by apply (root_of_unique _ _ _ _ (Hr y)).
Qed.
(** The classes of the pairs united so far. *)
Definition classes (pairs : list (Z * Z)) : Z -> Z -> Prop := rtsc (fun a b => (a, b) ∈ pairs).
Lemma classes_snoc pairs a b x y :
  classes (pairs ++ [(a, b)]) x y
  <-> classes pairs x y \/ classes pairs x a /\ classes pairs y b \/ classes pairs x b /\ classes pairs y a.
Proof.
  unfold classes. split.
  - intros Hr. unfold rtsc in Hr. induction Hr as [x|x z y Hs _ IH]; [left; reflexivity|].
    assert (rtsc (fun a b => (a, b) ∈ pairs) x z \/ x = a /\ z = b \/ x = b /\ z = a) as Hxz.
    { destruct Hs as [Hs|Hs]; apply elem_of_app in Hs as [Hs|Hs%list_elem_of_singleton];
        try (injection Hs as -> ->; by auto); left; apply rtc_once; [by left|by right]. }
    destruct Hxz as [Hxz|[[-> ->]|[-> ->]]].
    + destruct IH as [?|[[? ?]|[? ?]]]; [left; by etransitivity|right; left; split; [by etransitivity|done]|right; right; split; [by etransitivity|done]].
    + destruct IH as [?|[[? ?]|[? ?]]]; [right; left; split; [reflexivity|by symmetry]|right; left; split; [reflexivity|done]|left; by symmetry].
    + destruct IH as [?|[[? ?]|[? ?]]]; [right; right; split; [reflexivity|by symmetry]|left; by symmetry|right; right; split; [reflexivity|done]].
  - assert (forall x y, rtsc (fun a b => (a, b) ∈ pairs) x y -> rtsc (fun a' b' => (a', b') ∈ pairs ++ [(a, b)]) x y) as Hm.
    { intros x' y' Hr. eapply rtc_subrel; [|exact Hr]. intros u v [?|?]; [left|right]; apply elem_of_app; by left. }
    assert (rtsc (fun a' b' => (a', b') ∈ pairs ++ [(a, b)]) a b) as Hab by (apply rtc_once; left; set_solver).
    intros [?|[[Hx%Hm Hy%Hm]|[Hx%Hm Hy%Hm]]]; [by apply Hm| |].
    + etransitivity; [exact Hx|]. etransitivity; [exact Hab|]. by symmetry.
    + etransitivity; [exact Hx|]. etransitivity; [symmetry; exact Hab|]. by symmetry.
Qed.
End UnionFind.

(** ** Connected components (src/engine/graph_ops.rs, [connected_components] from
    the collected nodes on): one pass over the outgoing adjacency of every layer
    unites the ends of the edges, then every node is given the least node of
    its set. *)
Import SourceList UnionFind.
Section Components.
Context `{HashOrder} {Segment : Type} `{!SegmentReads Segment, !SegmentAdjacency Segment}.
Context (self : SourceList (Segment := Segment)) (edge_label_filter : option (list Z)) (reference_time : Z).

(** The state the callbacks share. *)
Definition UnionState : Type := gset (Z * Z) * option UnionFind.
Definition unite (node_set : gset Z) (uf : option UnionFind) (nid neighbor_id : Z) : option UnionFind :=
  if bool_decide (neighbor_id ∈ node_set) then uf ← uf; union uf nid neighbor_id else uf.

Definition union_active (node_set : gset Z) (nid : Z) (x : UnionState) (p : Posting) : UnionState * bool :=
  let '(seen, uf) := x in
  let seen := {[(nid, ps_edge_id p)]} ∪ seen in
  if negb (is_edge_valid_at (ps_valid_from p) (ps_valid_to p) reference_time) then ((seen, uf), false)
  else ((seen, unite node_set uf nid (ps_neighbor_id p)), false).
Definition union_immutable (node_set deleted_nodes deleted_edges : gset Z) (nid : Z) (x : UnionState) (p : Posting) : UnionState * bool :=
  let '(seen, uf) := x in
  if bool_decide ((nid, ps_edge_id p) ∈ seen) then (x, false)
  else
    let seen := {[(nid, ps_edge_id p)]} ∪ seen in
    if bool_decide (ps_edge_id p ∈ deleted_edges) then ((seen, uf), false)
    else if bool_decide (ps_neighbor_id p ∈ deleted_nodes) then ((seen, uf), false)
    else if negb (is_edge_valid_at (ps_valid_from p) (ps_valid_to p) reference_time) then ((seen, uf), false)
    else ((seen, unite node_set uf nid (ps_neighbor_id p)), false).
Definition union_segment (node_set deleted_nodes deleted_edges : gset Z) (x : UnionState) (q : Z * Posting) : UnionState * bool :=
  let '(nid, p) := q in
  let '(seen, uf) := x in
  if bool_decide ((nid, ps_edge_id p) ∈ seen) then (x, false)
  else
    let seen := {[(nid, ps_edge_id p)]} ∪ seen in
    if negb (is_edge_valid_at (ps_valid_from p) (ps_valid_to p) reference_time) then ((seen, uf), false)
    else if bool_decide (ps_edge_id p ∈ deleted_edges) then ((seen, uf), false)
    else if bool_decide (ps_neighbor_id p ∈ deleted_nodes) then ((seen, uf), false)
    else ((seen, unite node_set uf nid (ps_neighbor_id p)), false).

(** The [let _ =] of each walk drops the flow. *)
Fixpoint union_segments (node_set deleted_nodes deleted_edges : gset Z) (node_ids : list Z) (segs : list Segment) (x : UnionState)
  : res UnionState :=
  match segs with
  | [] => Ok x
  | seg :: segs =>
      '(x, _) ← for_each_adj_posting_batch (union_segment node_set deleted_nodes deleted_edges) seg node_ids Outgoing edge_label_filter x;
      union_segments node_set deleted_nodes deleted_edges node_ids segs x
  end.
Definition union_edges (node_ids : list Z) : res UnionState :=
  let node_set : gset Z := list_to_set node_ids in
  let uf := foldl (fun uf id => make_set id uf) with_capacity node_ids in
  let '(deleted_nodes, deleted_edges) := collect_tombstones self in
  let '(x, _) :=
    each (fun x nid => (fst (for_each_adj_entry_at (active self) nid edge_label_filter (snapshot_seq self) (union_active node_set nid)
                               Outgoing x), false)) node_ids (∅, Some uf) in
  let '(x, _) :=
    each (fun x epoch =>
      each (fun x nid => (fst (for_each_adj_entry_at epoch nid edge_label_filter (snapshot_seq self)
                                 (union_immutable node_set deleted_nodes deleted_edges nid) Outgoing x), false)) node_ids x)
      (immutable self) x in
  union_segments node_set deleted_nodes deleted_edges node_ids (segments self) x.

(** The least node of each root. *)
Fixpoint root_to_min (uf : UnionFind) (mins : gmap Z Z) (node_ids : list Z) : option (UnionFind * gmap Z Z) :=
  match node_ids with
  | [] => Some (uf, mins)
  | id :: node_ids =>
      '(root, uf) ← find uf id;
      let mins :=
        match mins !! root with
        | Some min => if id <? min then <[root := id]> mins else mins
        | None => <[root := id]> mins
        end in
      root_to_min uf mins node_ids
  end.
(** [root_to_min[&root]] panics on a missing root. *)
Fixpoint component_ids (uf : UnionFind) (mins : gmap Z Z) (result : gmap Z Z) (node_ids : list Z) : option (gmap Z Z) :=
  match node_ids with
  | [] => Some result
  | id :: node_ids =>
      '(root, uf) ← find uf id; component ← mins !! root;
      component_ids uf mins (<[id := component]> result) node_ids
  end.

Definition connected_components (node_ids : list Z) : option (res (gmap Z Z)) :=
  match node_ids with
  | [] => Some (Ok ∅)
  | _ =>
      if bool_decide (edge_label_filter = Some []) then Some (Ok (foldl (fun result id => <[id := id]> result) ∅ node_ids))
      else
        match union_edges node_ids with
        | Err e => Some (Err e)
        | Ok (_, uf) =>
            uf ← uf; '(uf, mins) ← root_to_min uf ∅ node_ids;
            result ← component_ids uf mins ∅ node_ids; Some (Ok result)
        end
  end.
End Components.
