(* ===== verification/AdjacencyFacts.v ===== *)
(** The expansion of a frontier is exact: with the callbacks, the caches of the
    tombstones and the early exits accounted for, it visits one by one the
    edges of the view that leave the frontier. *)
From S2P Require Import Prelude Types Encoding PropertyValue CompoundKey EdgeMetadata Slots Memtable MemtableCells MemtableSteps MemtableFacts MemtableEdges MemtableReads MemtableSnapshots MemtableNeighbors DegreeEngine FilterBase NodeFilter NodeQuery NodeQueryFacts SourceList SourceListFacts Adjacency.
Import SourceList.

Lemma filter_bool_cons {A} (P : A -> bool) x l :
  base.filter (fun x => P x = true) (x :: l)
  = (if P x then [x] else []) ++ base.filter (fun x => P x = true) l.
Proof. rewrite filter_cons. case_decide as E; [by rewrite E|]. by destruct (P x). Qed.

(** ** Loops with an early exit *)
Section Each.
Context {A B S : Type}.
Implicit Types (callback : S -> A -> S * bool) (s : S).
Lemma each_app callback l k s :
  each callback (l ++ k) s = (let '(s, stop) := each callback l s in if stop then (s, true) else each callback k s).
Proof.
  revert s. induction l as [|x l IH]; intros s; [done|]. cbn. destruct (callback s x) as [s' []]; [done|]. apply IH.
Qed.
Lemma each_fmap (f : B -> A) callback l s : each callback (f <$> l) s = each (fun s b => callback s (f b)) l s.
Proof. revert s. induction l as [|b l IH]; intros s; [done|]. cbn. by destruct (callback s (f b)) as [s' []]. Qed.
Lemma each_join (f : B -> list A) callback l s : each callback (mjoin (f <$> l)) s = each (fun s b => each callback (f b) s) l s.
Proof.
  revert s. induction l as [|b l IH]; intros s; [done|]. rewrite join_fmap_cons, each_app. cbn.
  destruct (each callback (f b) s) as [s' []]; [done|]. apply IH.
Qed.
Lemma each_ext callback callback' l s : (forall s x, callback s x = callback' s x) -> each callback l s = each callback' l s.
Proof. intros E. revert s. induction l as [|x l IH]; intros s; [done|]. cbn. rewrite E. by destruct (callback' s x) as [s' []]. Qed.
End Each.

(** ** One memtable *)
Definition nb_posting (nb : NeighborRecord) : Posting :=
  mkPosting (nb_edge_id nb) (nb_node_id nb) (nb_weight nb) (nb_valid_from nb) (nb_valid_to nb).
Section Memtable.
Context `{HashOrder} {S : Type} (st : MemtableState) (n : Z) (labels : option (list Z)) (seq : Z) (callback : S -> Posting -> S * bool).
Abbreviation collect := (collect_adj st n labels 0 true).
Abbreviation visit := (visit_slots st n labels seq callback).

Lemma visit_collect dedupe slots results loops s :
  exists more, (collect dedupe seq slots results loops).1 = results ++ more
  /\ let '(loops', s', stop) := visit dedupe slots loops s in
     each callback (nb_posting <$> more) s = (s', stop)
     /\ (stop = false -> loops' = (collect dedupe seq slots results loops).2).
Proof.
  revert results loops s. induction slots as [|slot slots IH]; intros results loops s.
  { exists []. by rewrite app_nil_r. }
  cbn [collect_adj visit_slots andb Z.ltb Z.compare]. destruct (slot_option_at slot seq) as [entry|]; [|apply IH].
  destruct (match labels with Some label_ids => _ | None => _ end); [apply IH|]. destruct (node_deleted_at st _ seq); [apply IH|].
  assert (forall loops', exists more,
    (collect dedupe seq slots (results ++ [neighbor_of entry]) loops').1 = results ++ more
    /\ let '(loops2, s', stop) :=
         (let '(s, stop) := callback s (posting_of entry) in if stop then (loops', s, true) else visit dedupe slots loops' s) in
       each callback (nb_posting <$> more) s = (s', stop)
       /\ (stop = false -> loops2 = (collect dedupe seq slots (results ++ [neighbor_of entry]) loops').2)) as Hrun.
  { intros loops'. destruct (callback s (posting_of entry)) as [s1 [|]] eqn:Ec.
    - destruct (IH (results ++ [neighbor_of entry]) loops' s1) as (more & -> & _).
      exists (neighbor_of entry :: more). rewrite <- app_assoc. split; [done|]. rewrite fmap_cons. cbn [each]. change (nb_posting (neighbor_of entry)) with (posting_of entry). by rewrite Ec.
    - destruct (IH (results ++ [neighbor_of entry]) loops' s1) as (more & E & Hv).
      exists (neighbor_of entry :: more). rewrite E, <- app_assoc. split; [done|].
      rewrite fmap_cons. cbn [each]. change (nb_posting (neighbor_of entry)) with (posting_of entry). rewrite Ec.
      destruct (visit dedupe slots loops' s1) as [[loops'' s'] stop]. exact Hv. }
  destruct (ae_neighbor_id entry =? n); [|apply Hrun]. destruct (dedupe && _); [apply IH|apply Hrun].
Qed.
(** The callbacks run over the neighbours [neighbors_at] lists. *)
Lemma for_each_adj_entry_each dir s :
  for_each_adj_entry_at st n labels seq callback dir s = each callback (nb_posting <$> neighbors_at st n dir labels 0 seq) s.
Proof.
  unfold for_each_adj_entry_at, neighbors_at, adjacent. destruct (node_deleted_at st n seq); [done|].
  destruct dir; cbv zeta.
  - destruct (visit_collect false (adj_slots (ms_adj_out st) n) [] ∅ s) as (more & -> & Hv).
    rewrite app_nil_l. destruct (visit false _ ∅ s) as [[loops s'] stop]. by destruct Hv as [-> _].
  - destruct (visit_collect false (adj_slots (ms_adj_in st) n) [] ∅ s) as (more & -> & Hv).
    rewrite app_nil_l. destruct (visit false _ ∅ s) as [[loops s'] stop]. by destruct Hv as [-> _].
  - destruct (visit_collect false (adj_slots (ms_adj_out st) n) [] ∅ s) as (more & E & Hv).
    destruct (collect false seq _ [] ∅) as [results loops']. cbn [fst snd] in *. rewrite app_nil_l in E. subst more.
    destruct (visit false _ ∅ s) as [[loops s'] stop]. destruct Hv as [E Hl].
    destruct (visit_collect true (adj_slots (ms_adj_in st) n) results loops' s') as (more & -> & Hv).
    rewrite fmap_app, each_app, E. destruct stop; [done|]. rewrite Hl by done.
    destruct (visit true _ loops' s') as [[loops2 s2] stop2]. by destruct Hv as [-> _].
Qed.
End Memtable.

(** A posting with the node it belongs to. *)
Abbreviation Tagged := (Z * Posting)%type.
Definition edge_key (q : Tagged) : Z * Z := (fst q, ps_edge_id (snd q)).
Definition edge_keys (l : list Tagged) : gset (Z * Z) := list_to_set (edge_key <$> l).
Fixpoint unseen (seen : gset (Z * Z)) (l : list Tagged) : list Tagged :=
  match l with
  | [] => []
  | q :: l => if bool_decide (edge_key q ∈ seen) then unseen seen l else q :: unseen ({[edge_key q]} ∪ seen) l
  end.
(** The first posting of an edge at a node wins. *)
Lemma unseen_app seen l k : unseen seen (l ++ k) = unseen seen l ++ unseen (edge_keys l ∪ seen) k.
Proof.
  revert seen. induction l as [|q l IH]; intros seen; cbn [unseen app].
  { unfold edge_keys. cbn. by rewrite union_empty_l_L. }
  assert (edge_keys (q :: l) ∪ seen = edge_keys l ∪ ({[edge_key q]} ∪ seen)) as E by (unfold edge_keys; cbn; set_solver).
  rewrite !IH, E. case_bool_decide as Hs; [|done]. by rewrite (subseteq_union_1_L {[edge_key q]} seen) by set_solver.
Qed.
Lemma edge_keys_elem k l : k ∈ edge_keys l <-> exists q, q ∈ l /\ edge_key q = k.
Proof. unfold edge_keys. rewrite elem_of_list_to_set, list_elem_of_fmap. naive_solver. Qed.
Lemma unseen_elem seen l q : q ∈ unseen seen l -> q ∈ l /\ edge_key q ∉ seen.
Proof.
  revert seen. induction l as [|q' l IH]; intros seen; cbn [unseen]; [by intros ?%not_elem_of_nil|].
  case_bool_decide; [intros [? ?]%IH; by split; [right|]|]. intros [->|[? Hn]%IH]%elem_of_cons; [by split; [left|]|].
  split; [by right|set_solver].
Qed.
Lemma unseen_nodup seen l : NoDup (edge_key <$> unseen seen l).
Proof.
  revert seen. induction l as [|q l IH]; intros seen; cbn [unseen]; [constructor|]. case_bool_decide; [done|].
  rewrite fmap_cons. apply NoDup_cons. split; [|done]. intros (q' & E & [_ Hn]%unseen_elem)%list_elem_of_fmap. apply Hn. rewrite E. by apply elem_of_union_l, elem_of_singleton.
Qed.
Lemma unseen_only seen l q : q ∈ l -> edge_key q ∉ seen -> (forall q', q' ∈ l -> edge_key q' = edge_key q -> q' = q) -> q ∈ unseen seen l.
Proof.
  revert seen. induction l as [|q' l IH]; intros seen Hin Hs Hu; [by apply not_elem_of_nil in Hin|]. cbn [unseen].
  destruct (decide (edge_key q' = edge_key q)) as [E|E].
  - rewrite (Hu q' ltac:(left) E) in *. rewrite bool_decide_false by done. left.
  - apply elem_of_cons in Hin as [->|Hin]; [done|]. case_bool_decide; [|right]; (apply IH; [done|set_solver|]);
      intros q'' Hin'' E''; apply Hu; [by right|done|by right|done].
Qed.


Section View.
Context `{RmpValue, HashOrderLaws} {Segment : Type} `{!SegmentReads Segment, !SegmentAdjacency Segment}.
Abbreviation ReadView := (SourceList (Segment := Segment)).

(** ** Tombstones *)
Lemma visible_tombstones_elem (slots : gmap Z MembershipSlot) seq id :
  id ∈@{gset Z} list_to_set (fst <$> visible_entries seq (hash_iter slots))
  <-> match slots !! id with Some slot => slot_option_visible slot seq | None => false end = true.
Proof.
  rewrite elem_of_list_to_set, list_elem_of_fmap. unfold visible_entries. setoid_rewrite list_elem_of_filter.
  setoid_rewrite hash_iter_perm. split.
  - intros ([id' slot] & -> & Hv & E%elem_of_map_to_list). cbn in *. rewrite E. by apply Is_true_true.
  - destruct (slots !! id) as [slot|] eqn:E; [|done]. intros Hv. exists (id, slot). split_and!; [done|by apply Is_true_true|].
    by apply elem_of_map_to_list.
Qed.
Lemma foldl_union_elem {L} (f : L -> gset Z) ls init (id : Z) :
  id ∈ foldl (fun deleted l => deleted ∪ f l) init ls <-> id ∈ init \/ exists l, l ∈ ls /\ id ∈ f l.
Proof.
  revert init. induction ls as [|l ls IH]; intros init; cbn; [set_solver|]. rewrite IH, elem_of_union. set_solver.
Qed.

(** What a segment says it deletes is what it reads as deleted, and it calls
    back with the edges it holds at the nodes asked for, each edge of a node
    the same however often. *)
Definition touches (dir : Direction) (r : EdgeRecord) (n m : Z) : Prop :=
  dir ≠ Incoming /\ er_from r = n /\ er_to r = m \/ dir ≠ Outgoing /\ er_to r = n /\ er_from r = m.
Definition posting (r : EdgeRecord) (m : Z) : Posting :=
  mkPosting (er_id r) m (er_weight r) (er_valid_from r) (er_valid_to r).
Definition segment_posting (edge_in : Segment -> Z -> option EdgeRecord) (seg : Segment) (dir : Direction)
    (labels : option (list Z)) (n : Z) (p : Posting) : Prop :=
  exists r, edge_in seg (ps_edge_id p) = Some r /\ touches dir r n (ps_neighbor_id p) /\ p = posting r (ps_neighbor_id p)
  /\ passes_filter labels (er_label_id r)
  /\ is_edge_deleted seg (ps_edge_id p) = false /\ is_node_deleted seg (ps_neighbor_id p) = false.
Class SegmentAdjacencyLaws (edge_in : Segment -> Z -> option EdgeRecord) : Prop := {
  deleted_nodes_law seg id : id ∈ deleted_node_ids seg <-> is_node_deleted seg id = true;
  deleted_edges_law seg id : id ∈ deleted_edge_ids seg <-> is_edge_deleted seg id = true;
  edge_in_id seg id r : edge_in seg id = Some r -> er_id r = id;
  postings_sound seg ids dir labels n p : (n, p) ∈ fst (adj_postings_batch seg ids dir labels) ->
    n ∈ ids /\ segment_posting edge_in seg dir labels n p;
  postings_complete seg ids dir labels n p : snd (adj_postings_batch seg ids dir labels) = None ->
    n ∈ ids -> segment_posting edge_in seg dir labels n p -> (n, p) ∈ fst (adj_postings_batch seg ids dir labels)
}.
Context (edge_in : Segment -> Z -> option EdgeRecord) `{!SegmentAdjacencyLaws edge_in}.
Context (self : ReadView).

Lemma existsb_elem {A} (P : A -> bool) l : existsb P l = true <-> exists x, x ∈ l /\ P x = true.
Proof. rewrite existsb_exists. by setoid_rewrite <- list_elem_of_In. Qed.
Lemma collect_deleted_nodes_elem id : id ∈ collect_deleted_nodes self <-> node_tombstoned self id = true.
Proof.
  unfold collect_deleted_nodes, node_tombstoned, collect_deleted_nodes_at. rewrite !foldl_union_elem, !orb_true_iff, !existsb_elem.
  setoid_rewrite visible_tombstones_elem. setoid_rewrite elem_of_list_to_set. setoid_rewrite deleted_nodes_law. done.
Qed.
Lemma collect_deleted_edges_elem id : id ∈ collect_deleted_edges self <-> edge_tombstoned self id = true.
Proof.
  unfold collect_deleted_edges, edge_tombstoned, collect_deleted_edges_at. rewrite !foldl_union_elem, !orb_true_iff, !existsb_elem.
  setoid_rewrite visible_tombstones_elem. setoid_rewrite elem_of_list_to_set. setoid_rewrite deleted_edges_law. done.
Qed.

(** Whatever the view has cached or materialised is right. *)
Record tv_ok (tv : TraversalTombstoneView) : Prop := {
  tv_nodes nodes : tv_deleted_nodes tv = Some nodes -> nodes = collect_deleted_nodes self;
  tv_edges edges : tv_deleted_edges tv = Some edges -> edges = collect_deleted_edges self;
  tv_nodes_cached id deleted : tv_node_cache tv !! id = Some deleted -> deleted = node_tombstoned self id;
  tv_edges_cached id deleted : tv_edge_cache tv !! id = Some deleted -> deleted = edge_tombstoned self id
}.
Lemma tv_ok_new : tv_ok new_tombstones.
Proof. by split. Qed.
Lemma tv_ok_materialize tv : tv_ok tv -> tv_ok (maybe_materialize self tv).
Proof. intros Ht. unfold maybe_materialize. destruct (_ || _); [done|]. split; cbn.
  - by intros nodes ->%(inj Some).
  - by intros edges ->%(inj Some).
  - by intros id deleted ?%lookup_empty_Some.
  - by intros id deleted ?%lookup_empty_Some.
Qed.
Lemma tv_is_node_deleted_spec tv id :
  tv_ok tv -> exists tv', tv_ok tv' /\ tv_is_node_deleted self tv id = (node_tombstoned self id, tv').
Proof.
  intros Ht. unfold tv_is_node_deleted. destruct (tv_deleted_nodes tv) as [nodes|] eqn:En.
  { exists tv. split; [done|]. f_equal. rewrite (tv_nodes tv Ht nodes En). apply eq_iff_eq_true.
    by rewrite bool_decide_eq_true, collect_deleted_nodes_elem. }
  destruct (tv_node_cache tv !! id) as [deleted|] eqn:Ec.
  { exists tv. split; [done|]. by rewrite (tv_nodes_cached tv Ht id deleted Ec). }
  eexists. split; [|reflexivity]. apply tv_ok_materialize. destruct Ht as [T1 T2 T3 T4]. split; cbn.
  - done.
  - done.
  - intros id' deleted [[<- <-]|[_ E]]%lookup_insert_Some; [done|by apply T3].
  - done.
Qed.
Lemma tv_is_edge_deleted_spec tv id :
  tv_ok tv -> exists tv', tv_ok tv' /\ tv_is_edge_deleted self tv id = (edge_tombstoned self id, tv').
Proof.
  intros Ht. unfold tv_is_edge_deleted. destruct (tv_deleted_edges tv) as [edges|] eqn:En.
  { exists tv. split; [done|]. f_equal. rewrite (tv_edges tv Ht edges En). apply eq_iff_eq_true.
    by rewrite bool_decide_eq_true, collect_deleted_edges_elem. }
  destruct (tv_edge_cache tv !! id) as [deleted|] eqn:Ec.
  { exists tv. split; [done|]. by rewrite (tv_edges_cached tv Ht id deleted Ec). }
  eexists. split; [|reflexivity]. apply tv_ok_materialize. destruct Ht as [T1 T2 T3 T4]. split; cbn.
  - done.
  - done.
  - done.
  - intros id' deleted [[<- <-]|[_ E]]%lookup_insert_Some; [done|by apply T4].
Qed.

(** ** What an expansion visits *)
Section Expand.
Context (dir : Direction) (labels : option (list Z)) (time : Z).

Definition tag (n : Z) (nb : NeighborRecord) : Tagged := (n, nb_posting nb).
Definition memtable_postings (st : MemtableState) (ids : list Z) : list Tagged :=
  mjoin ((fun n => tag n <$> neighbors_at st n dir labels 0 (snapshot_seq self)) <$> ids).
Definition immutable_postings (ids : list Z) : list Tagged :=
  mjoin ((fun epoch => memtable_postings epoch ids) <$> immutable self).
Fixpoint segment_stream (ids : list Z) (segs : list Segment) : list Tagged * option EngineError :=
  match segs with
  | [] => ([], None)
  | seg :: segs =>
      match adj_postings_batch seg ids dir labels with
      | (postings, Some e) => (postings, Some e)
      | (postings, None) => let '(more, failure) := segment_stream ids segs in (postings ++ more, failure)
      end
  end.

Definition arc_of (q : Tagged) : Z * Z * Z := (fst q, ps_neighbor_id (snd q), ps_edge_id (snd q)).
Definition in_time (q : Tagged) : bool := is_edge_valid_at (ps_valid_from (snd q)) (ps_valid_to (snd q)) time.
Definition untombed (q : Tagged) : bool :=
  negb (edge_tombstoned self (ps_edge_id (snd q))) && negb (node_tombstoned self (ps_neighbor_id (snd q)))
  && negb (node_tombstoned self (fst q)).
Definition expansion_arcs (frontier : list Z) : list (Z * Z * Z) * option EngineError :=
  match frontier with
  | [] => ([], None)
  | _ =>
      let ids := sort_ids frontier in
      let newest := memtable_postings (active self) ids in
      let '(postings, failure) := segment_stream ids (segments self) in
      ((arc_of <$> base.filter (fun q => in_time q = true) newest)
       ++ (arc_of <$> base.filter (fun q => in_time q && untombed q = true)
                        (unseen (edge_keys newest) (immutable_postings ids ++ postings))), failure)
  end.

Lemma stream_failure ids segs e : snd (segment_stream ids segs) = Some e ->
  exists seg, seg ∈ segs /\ snd (adj_postings_batch seg ids dir labels) = Some e.
Proof.
  induction segs as [|seg segs IH]; [done|]. cbn [segment_stream]. destruct (adj_postings_batch seg ids dir labels) as [postings [e'|]] eqn:E.
  - intros [= ->]. exists seg. split; [left|by rewrite E].
  - destruct (segment_stream ids segs) as [more failure]. cbn [snd] in *. intros (seg' & ? & ?)%IH. exists seg'. split; [by right|done].
Qed.
Lemma expansion_failure frontier e : snd (expansion_arcs frontier) = Some e ->
  exists seg ids, seg ∈ segments self /\ snd (adj_postings_batch seg ids dir labels) = Some e.
Proof.
  unfold expansion_arcs. destruct frontier as [|x frontier]; [done|]. cbn zeta.
  pose proof (stream_failure (sort_ids (x :: frontier)) (segments self) e) as Hf.
  destruct (segment_stream (sort_ids (x :: frontier)) (segments self)) as [postings failure]. cbn [snd] in *. naive_solver.
Qed.

Context {S : Type} (on_neighbor : S -> Z * Z * Z -> S * bool).
Abbreviation older := (older_callback self time on_neighbor).

Lemma active_each l seen tv s :
  let '(s', stop) := each on_neighbor (arc_of <$> base.filter (fun q => in_time q = true) l) s in
  exists seen', each (fun x '(n, p) => active_callback time on_neighbor n x p) l (seen, tv, s) = ((seen', tv, s'), stop)
  /\ (stop = false -> seen' = edge_keys l ∪ seen).
Proof.
  revert seen s. induction l as [|[n p] l IH]; intros seen s.
  { exists seen. split; [done|]. intros _. unfold edge_keys. cbn. by rewrite union_empty_l_L. }
  rewrite filter_bool_cons. cbn [each active_callback]. unfold in_time at 1. cbn [snd].
  assert (edge_keys ((n, p) :: l) ∪ seen = edge_keys l ∪ ({[(n, ps_edge_id p)]} ∪ seen)) as ->.
  { unfold edge_keys. cbn. set_solver. }
  destruct (is_edge_valid_at _ _ time); cbn [negb].
  - cbn [app]. rewrite fmap_cons. cbn [each]. change (arc_of (n, p)) with (n, ps_neighbor_id p, ps_edge_id p).
    destruct (on_neighbor s (n, ps_neighbor_id p, ps_edge_id p)) as [s1 [|]]; [by eexists|apply IH].
  - apply IH.
Qed.
Lemma older_each l seen tv s :
  tv_ok tv ->
  let '(s', stop) := each on_neighbor (arc_of <$> base.filter (fun q => in_time q && untombed q = true) (unseen seen l)) s in
  exists seen' tv', tv_ok tv' /\ each older l (seen, tv, s) = ((seen', tv', s'), stop).
Proof.
  revert seen tv s. induction l as [|[n p] l IH]; intros seen tv s Ht; [by exists seen, tv|].
  cbn [each unseen]. unfold older_callback at 1. change (edge_key (n, p)) with (n, ps_edge_id p).
  destruct (bool_decide _); [by apply IH|]. rewrite filter_bool_cons. unfold in_time at 1, untombed at 1. cbn [fst snd].
  destruct (is_edge_valid_at _ _ time); cbn [negb andb]; [|by apply IH].
  destruct (tv_is_edge_deleted_spec tv (ps_edge_id p) Ht) as (tv1 & Ht1 & ->).
  destruct (edge_tombstoned self (ps_edge_id p)); cbn [negb andb]; [by apply IH|].
  destruct (tv_is_node_deleted_spec tv1 (ps_neighbor_id p) Ht1) as (tv2 & Ht2 & ->).
  destruct (node_tombstoned self (ps_neighbor_id p)); cbn [negb andb]; [by apply IH|].
  destruct (tv_is_node_deleted_spec tv2 n Ht2) as (tv3 & Ht3 & ->).
  destruct (node_tombstoned self n); cbn [negb andb]; [by apply IH|].
  cbn [app]. rewrite fmap_cons. cbn [each]. change (arc_of (n, p)) with (n, ps_neighbor_id p, ps_edge_id p).
  destruct (on_neighbor s (n, ps_neighbor_id p, ps_edge_id p)) as [s1 [|]]; [by exists ({[(n, ps_edge_id p)]} ∪ seen), tv3|by apply IH].
Qed.

Lemma memtable_each {X} (callback : X -> Tagged -> X * bool) st ids x :
  each (fun x n => for_each_adj_entry_at st n labels (snapshot_seq self) (fun x p => callback x (n, p)) dir x) ids x
  = each callback (memtable_postings st ids) x.
Proof.
  unfold memtable_postings. rewrite each_join. apply each_ext. intros x' n. by rewrite for_each_adj_entry_each, !each_fmap.
Qed.
Lemma immutable_each {X} (callback : X -> Tagged -> X * bool) ids x :
  each (fun x epoch => each (fun x n => for_each_adj_entry_at epoch n labels (snapshot_seq self) (fun x p => callback x (n, p)) dir x) ids x)
    (immutable self) x
  = each callback (immutable_postings ids) x.
Proof. unfold immutable_postings. rewrite each_join. apply each_ext. intros x' epoch. apply memtable_each. Qed.
Lemma segments_each ids segs x :
  expand_segments self dir labels time on_neighbor ids segs x
  = (let '(postings, failure) := segment_stream ids segs in
     let '(x, stop) := each older postings x in
     if stop then Ok (x, true) else match failure with Some e => Err e | None => Ok (x, false) end).
Proof.
  revert x. induction segs as [|seg segs IH]; intros x; [done|]. cbn [expand_segments segment_stream]. unfold for_each_adj_posting_batch.
  destruct (adj_postings_batch seg ids dir labels) as [postings [e|]].
  - by destruct (each older postings x) as [x' []].
  - destruct (segment_stream ids segs) as [more failure]. rewrite each_app.
    destruct (each older postings x) as [x' []]; [done|]. cbn [mbind result_bind]. apply IH.
Qed.

(** The expansion calls back on the arcs in order, and stops where the callback
    breaks; an error is that of a segment it came to. *)
Lemma expand_frontier_each frontier tv s :
  tv_ok tv -> exists tv', tv_ok tv' /\
  expand_frontier self dir labels time on_neighbor frontier tv s
  = (let '(arcs, failure) := expansion_arcs frontier in
     let '(s, stop) := each on_neighbor arcs s in
     if stop then Ok (tv', s, true) else match failure with Some e => Err e | None => Ok (tv', s, false) end).
Proof.
  intros Ht. unfold expand_frontier, expansion_arcs. destruct frontier as [|n frontier]; [by exists tv|].
  generalize (sort_ids (n :: frontier)). intros ids. cbn zeta.
  rewrite (memtable_each (fun x '(n, p) => active_callback time on_neighbor n x p)).
  pose proof (active_each (memtable_postings (active self) ids) ∅ tv s) as Ha.
  destruct (segment_stream ids (segments self)) as [postings failure] eqn:Es. rewrite each_app.
  destruct (each on_neighbor _ s) as [s1 stop]. destruct Ha as (seen & -> & Hseen). cbn [fst snd].
  destruct stop; [by exists tv|]. rewrite Hseen, union_empty_r_L by done. clear Hseen seen.
  rewrite (immutable_each older).
  pose proof (older_each (immutable_postings ids ++ postings) (edge_keys (memtable_postings (active self) ids)) tv s1 Ht) as Ho.
  destruct (each on_neighbor _ s1) as [s2 stop]. destruct Ho as (seen & tv' & Ht' & Ho). rewrite each_app in Ho.
  destruct (each older (immutable_postings ids) _) as [x1 [|]].
  { exists tv'. split; [done|]. apply pair_eq in Ho as [-> <-]. done. }
  rewrite segments_each, Es, Ho. exists tv'. split; [done|]. destruct stop; [done|]. by destruct failure.
Qed.
End Expand.

(** ** The arcs of a view *)
(** The layers, newest first: what each holds of an edge, what it says of it,
    and the postings it calls back with. *)
Inductive Layer : Type := Mem (st : MemtableState) | Seg (seg : Segment).
Definition layer_record (l : Layer) (e : Z) : option EdgeRecord :=
  match l with Mem st => edge_at st e (snapshot_seq self) | Seg seg => edge_in seg e end.
Definition layer_says (l : Layer) (e : Z) : option (option EdgeRecord) :=
  match l with
  | Mem st => state_says (ms_edges st) (snapshot_seq self) (fun r => r) e
  | Seg seg => segment_says is_edge_deleted edge_in None Some seg e
  end.
Definition older_layers : list Layer := (Mem <$> immutable self) ++ (Seg <$> segments self).
Definition view_layers : list Layer := Mem (active self) :: older_layers.
Abbreviation shown_edge := (shown ms_edges is_edge_deleted edge_in self).
Lemma shown_edge_layers e : shown_edge e = default None (layers_say (layer_says <$> view_layers) e).
Proof.
  unfold shown, layers, view_layers, older_layers. rewrite !fmap_cons, fmap_app, <- !list_fmap_compose. done.
Qed.

(** Ids are never given out twice: an edge keeps its ends and label in every
    layer, and a live edge has no tombstone. *)
Record layered : Prop := {
  ly_built st : Mem st ∈ view_layers -> exists ops, built ops st;
  ly_ends l l' e r r' : l ∈ view_layers -> l' ∈ view_layers -> layer_record l e = Some r -> layer_record l' e = Some r' ->
    er_from r = er_from r' /\ er_to r = er_to r' /\ er_label_id r = er_label_id r';
  ly_live e r : shown_edge e = Some r -> edge_tombstoned self e = false
}.
(** And no edge of the active memtable touches a deleted node: nothing in the
    code keeps it from doing so, see [freezing_hides_arcs]. *)
Record steady : Prop := {
  st_layered :> layered;
  st_active e r : edge_at (active self) e (snapshot_seq self) = Some r ->
    node_tombstoned self (er_from r) = false /\ node_tombstoned self (er_to r) = false
}.

Lemma touches_unique dir r n m m' : touches dir r n m -> touches dir r n m' -> m = m'.
Proof. unfold touches. naive_solver congruence. Qed.
Lemma touches_ends dir r r' n m : er_from r = er_from r' -> er_to r = er_to r' -> touches dir r n m -> touches dir r' n m.
Proof. unfold touches. naive_solver congruence. Qed.
Lemma touches_reverse dir r n m : touches (reverse_direction dir) r n m <-> touches dir r m n.
Proof. unfold touches, reverse_direction. destruct dir; naive_solver. Qed.
Lemma touches_either dir r n m : touches dir r n m -> er_from r = n /\ er_to r = m \/ er_to r = n /\ er_from r = m.
Proof. unfold touches. naive_solver. Qed.

Lemma marked_edge st e r : marked st (snapshot_seq self) -> edge_at st e (snapshot_seq self) = Some r -> edge_deleted_at st e (snapshot_seq self) = false.
Proof.
  intros [_ Hm] Hr. apply not_true_iff_false. intros (t & E)%Hm. rewrite edge_at_state, E in Hr. done.
Qed.
Lemma says_record l e r : layer_says l e = Some (Some r) -> layer_record l e = Some r.
Proof.
  destruct l as [st|seg]; cbn.
  - rewrite edge_at_state. unfold state_says. destruct (state_at _ _ e) as [[]|]; intros; simplify_eq/=; done.
  - unfold segment_says. destruct (is_edge_deleted seg e); [done|]. destruct (edge_in seg e); cbn; congruence.
Qed.

Section Layered.
Hypothesis Hlayered : layered.
Lemma layer_mem st : Mem st ∈ view_layers <-> st ∈ active self :: immutable self.
Proof.
  unfold view_layers, older_layers. rewrite !elem_of_cons, elem_of_app, !list_elem_of_fmap. naive_solver.
Qed.
Lemma layer_seg seg : Seg seg ∈ view_layers <-> seg ∈ segments self.
Proof. unfold view_layers, older_layers. rewrite !elem_of_cons, elem_of_app, !list_elem_of_fmap. naive_solver. Qed.
Lemma record_id l e r : l ∈ view_layers -> layer_record l e = Some r -> er_id r = e.
Proof.
  destruct l as [st|seg]; cbn; intros Hl; [|apply (edge_in_id (edge_in := edge_in) seg)]. destruct (ly_built Hlayered st Hl) as (ops & st0 & Hf & Hs & Hr).
  by apply (edge_at_id ops st0 st).
Qed.
Lemma edge_deleted_tombstoned l e : l ∈ view_layers ->
  match l with Mem st => edge_deleted_at st e (snapshot_seq self) | Seg seg => is_edge_deleted seg e end = true -> edge_tombstoned self e = true.
Proof.
  unfold edge_tombstoned. rewrite !orb_true_iff, !existsb_elem. destruct l as [st|seg].
  - rewrite layer_mem, elem_of_cons. naive_solver.
  - rewrite layer_seg. naive_solver.
Qed.
Lemma node_deleted_tombstoned l n : l ∈ view_layers ->
  match l with Mem st => node_deleted_at st n (snapshot_seq self) | Seg seg => is_node_deleted seg n end = true -> node_tombstoned self n = true.
Proof.
  unfold node_tombstoned. rewrite !orb_true_iff, !existsb_elem. destruct l as [st|seg].
  - rewrite layer_mem, elem_of_cons. naive_solver.
  - rewrite layer_seg. naive_solver.
Qed.
Lemma record_says l e r : l ∈ view_layers -> edge_tombstoned self e = false -> layer_record l e = Some r -> layer_says l e = Some (Some r).
Proof.
  intros Hl Ht. destruct l as [st|seg]; cbn.
  - rewrite edge_at_state. unfold state_says. by destruct (state_at _ _ e) as [[]|]; intros [= ->].
  - intros E. unfold segment_says. destruct (is_edge_deleted seg e) eqn:Ed; [|by rewrite E].
    by rewrite (edge_deleted_tombstoned (Seg seg) e Hl Ed) in Ht.
Qed.
Lemma says_dead l e : l ∈ view_layers -> layer_says l e = Some None -> edge_tombstoned self e = true.
Proof.
  intros Hl E. apply (edge_deleted_tombstoned l e Hl). destruct l as [st|seg]; cbn in E.
  - destruct (ly_built Hlayered st Hl) as (ops & Hb). apply (built_marked ops st (snapshot_seq self) Hb).
    unfold state_says in E. destruct (state_at _ _ e) as [[]|]; simplify_eq/=. by eexists.
  - unfold segment_says in E. destruct (is_edge_deleted seg e); [done|]. by destruct (edge_in seg e).
Qed.

Section Arcs.
Context (dir : Direction) (labels : option (list Z)) (time : Z).
Abbreviation block_of ids l :=
  (match l with Mem st => (memtable_postings dir labels st ids, None) | Seg seg => adj_postings_batch seg ids dir labels end).

(** A layer calls back with the edges it holds... *)
Definition held_posting (l : Layer) (n : Z) (p : Posting) : Prop :=
  exists r, layer_record l (ps_edge_id p) = Some r /\ touches dir r n (ps_neighbor_id p)
  /\ p = posting r (ps_neighbor_id p) /\ passes_filter labels (er_label_id r).
Lemma memtable_postings_elem st ids n p : Mem st ∈ view_layers ->
  (n, p) ∈ memtable_postings dir labels st ids
  <-> n ∈ ids /\ held_posting (Mem st) n p /\ node_deleted_at st n (snapshot_seq self) = false
      /\ node_deleted_at st (ps_neighbor_id p) (snapshot_seq self) = false.
Proof.
  intros Hl. destruct (ly_built Hlayered st Hl) as (ops & st0 & Hf & Hs & Hr).
  unfold memtable_postings. rewrite list_elem_of_join. setoid_rewrite list_elem_of_fmap. unfold neighbors_at.
  pose proof (adjacent_elem ops st0 st Hf Hs Hr true) as Hadj. split.
  - intros (l & Hin & n' & -> & Hn). apply list_elem_of_fmap in Hin as (nb & [= -> ->] & Hnb).
    apply Hadj in Hnb as [Hd (r & a & Hr' & -> & [Hp Hskip] & Hends)]. split; [done|]. rewrite andb_true_l in Hskip.
    assert (exists m, ae_neighbor_id a = m /\ touches dir r n' m /\ nb_posting (neighbor_of a) = posting r m
            /\ ae_label_id a = er_label_id r) as (m & Em & Ht & Ep & El).
    { destruct Hends as [(? & ? & ->)|(? & ? & ->)]; eexists; (split; [reflexivity|]); (split; [|done]); unfold touches; cbn; auto. }
    rewrite Ep. cbn [posting ps_edge_id ps_neighbor_id]. rewrite Em in Hskip. split_and!; [|done..].
    exists r. split_and!; [exact Hr'|exact Ht|done|by rewrite <- El].
  - intros (Hn & (r & Hr' & Ht & Ep & Hp) & Hd & Hm). cbn in Hr'.
    assert (er_id r = ps_edge_id p) as Hid by apply (record_id (Mem st) _ r Hl Hr').
    eexists. split; [|by exists n]. apply list_elem_of_fmap.
    assert (exists a, nb_posting (neighbor_of a) = p /\ ae_label_id a = er_label_id r /\ ae_neighbor_id a = ps_neighbor_id p
      /\ (dir ≠ Incoming /\ er_from r = n /\ a = adj_out_entry r \/ dir ≠ Outgoing /\ er_to r = n /\ a = adj_in_entry r))
      as (a & Ea & El & Em & Hends).
    { destruct Ht as [(Hd1 & Hfr & Hto)|(Hd1 & Hto & Hfr)].
      - exists (adj_out_entry r). rewrite Ep, <- Hto. split_and!; [done..|]. by left.
      - exists (adj_in_entry r). rewrite Ep, <- Hfr. split_and!; [done..|]. by right. }
    exists (neighbor_of a). split; [unfold tag; by rewrite Ea|]. apply Hadj. split; [done|]. exists r, a. rewrite Hid.
    split_and!; [done..| |done]. split; [by rewrite El|]. by rewrite Em.
Qed.
Lemma block_sound ids l n p : l ∈ view_layers -> (n, p) ∈ fst (block_of ids l) -> n ∈ ids /\ held_posting l n p.
Proof.
  intros Hl. destruct l as [st|seg]; cbn [fst].
  - intros (? & ? & _)%memtable_postings_elem; done.
  - intros [Hn (r & Hr & Ht & Ep & Hp & _)]%(postings_sound (edge_in := edge_in)). split; [done|]. by exists r.
Qed.
(** ... all of those that no tombstone hides. *)
Lemma block_complete ids l n p : l ∈ view_layers -> snd (block_of ids l) = None -> n ∈ ids -> held_posting l n p ->
  edge_tombstoned self (ps_edge_id p) = false -> node_tombstoned self n = false -> node_tombstoned self (ps_neighbor_id p) = false ->
  (n, p) ∈ fst (block_of ids l).
Proof.
  intros Hl He Hn Hp Hte Htn Htm.
  pose proof (edge_deleted_tombstoned l (ps_edge_id p) Hl) as De. pose proof (node_deleted_tombstoned l n Hl) as Dn.
  pose proof (node_deleted_tombstoned l (ps_neighbor_id p) Hl) as Dm. rewrite Hte in De. rewrite Htn in Dn. rewrite Htm in Dm.
  destruct l as [st|seg]; cbn [fst snd] in *.
  - apply memtable_postings_elem; [done|]. split_and!; [done..| |]; apply not_true_iff_false; intros E; [by specialize (Dn E)|by specialize (Dm E)].
  - apply (postings_complete (edge_in := edge_in)); [done..|]. destruct Hp as (r & Hr & Ht & Ep & Hlab). exists r.
    split_and!; [done..| |]; apply not_true_iff_false; intros E; [by specialize (De E)|by specialize (Dm E)].
Qed.

Fixpoint layer_stream (ids : list Z) (ls : list Layer) : list Tagged * option EngineError :=
  match ls with
  | [] => ([], None)
  | l :: ls =>
      match block_of ids l with
      | (postings, Some e) => (postings, Some e)
      | (postings, None) => let '(more, failure) := layer_stream ids ls in (postings ++ more, failure)
      end
  end.
Lemma layer_stream_older ids :
  layer_stream ids older_layers
  = (let '(postings, failure) := segment_stream dir labels ids (segments self) in (immutable_postings dir labels ids ++ postings, failure)).
Proof.
  unfold older_layers, immutable_postings. induction (immutable self) as [|st epochs IH].
  - cbn. induction (segments self) as [|seg segs IH]; [done|]. cbn [fmap list_fmap layer_stream segment_stream]. rewrite IH.
    destruct (adj_postings_batch seg ids dir labels) as [postings [e|]]; [done|]. by destruct (segment_stream dir labels ids segs).
  - rewrite (fmap_cons Mem), join_fmap_cons, <- app_comm_cons. cbn [layer_stream]. rewrite IH.
    destruct (segment_stream dir labels ids (segments self)). by rewrite app_assoc.
Qed.
Lemma stream_first ids ls seen q :
  q ∈ unseen seen (fst (layer_stream ids ls)) ->
  edge_key q ∉ seen /\ exists ls1 l ls2, ls = ls1 ++ l :: ls2 /\ q ∈ fst (block_of ids l)
  /\ forall l', l' ∈ ls1 -> snd (block_of ids l') = None /\ edge_key q ∉ edge_keys (fst (block_of ids l')).
Proof.
  revert seen. induction ls as [|l ls IH]; intros seen; [by intros ?%not_elem_of_nil|]. cbn [layer_stream].
  destruct (block_of ids l) as [postings [e|]] eqn:Eb.
  - cbn [fst]. intros [Hq Hs]%unseen_elem. split; [done|]. exists [], l, ls. rewrite Eb. split_and!; [done..|]. by intros l' ?%not_elem_of_nil.
  - destruct (layer_stream ids ls) as [more failure]. cbn [fst] in *. rewrite unseen_app, elem_of_app. intros [[Hq Hs]%unseen_elem|Hq].
    + split; [done|]. exists [], l, ls. rewrite Eb. split_and!; [done..|]. by intros l' ?%not_elem_of_nil.
    + apply IH in Hq as (Hs & ls1 & l' & ls2 & -> & Hq & Hls). apply not_elem_of_union in Hs as [Hk Hs]. split; [done|].
      exists (l :: ls1), l', ls2. split_and!; [done..|]. intros l'' [->|Hin]%elem_of_cons; [by rewrite Eb|by apply Hls].
Qed.
Lemma stream_complete ids ls1 l ls2 seen q :
  snd (layer_stream ids (ls1 ++ l :: ls2)) = None ->
  (forall l', l' ∈ ls1 ++ l :: ls2 -> snd (block_of ids l') = None)
  /\ (q ∈ fst (block_of ids l) -> (forall q', q' ∈ fst (block_of ids l) -> edge_key q' = edge_key q -> q' = q) ->
      edge_key q ∉ seen -> (forall l', l' ∈ ls1 -> edge_key q ∉ edge_keys (fst (block_of ids l'))) ->
      q ∈ unseen seen (fst (layer_stream ids (ls1 ++ l :: ls2)))).
Proof.
  revert seen. induction ls1 as [|l1 ls1 IH]; intros seen; rewrite ?app_nil_l, <- ?app_comm_cons; cbn [layer_stream].
  - destruct (block_of ids l) as [postings [e|]] eqn:Eb; [done|]. destruct (layer_stream ids ls2) as [more failure] eqn:Es.
    cbn [fst snd]. intros ->. split.
    + intros l' [->|Hin]%elem_of_cons; [by rewrite Eb|]. revert more Es l' Hin. clear.
      induction ls2 as [|l2 ls2 IH]; intros more; cbn [layer_stream]; [by intros _ l' ?%not_elem_of_nil|].
      destruct (block_of ids l2) as [p2 [e|]] eqn:E2; [done|]. destruct (layer_stream ids ls2) as [more' f']. intros [= <- ->] l' [->|Hin]%elem_of_cons; [by rewrite E2|by eapply IH].
    + intros Hq Hu Hs _. rewrite unseen_app, elem_of_app. left. by apply unseen_only.
  - destruct (block_of ids l1) as [postings [e|]] eqn:Eb; [done|]. destruct (layer_stream ids (ls1 ++ l :: ls2)) as [more failure].
    cbn [fst snd] in *. intros ->. split.
    + intros l' [->|Hin]%elem_of_cons; [by rewrite Eb|]. by apply (proj1 (IH seen eq_refl)).
    + intros Hq Hu Hs Hls. rewrite unseen_app, elem_of_app. right. apply (IH (edge_keys postings ∪ seen)); [done..| |].
      * apply not_elem_of_union. split; [|done]. specialize (Hls l1 ltac:(left)). by rewrite Eb in Hls.
      * intros l' Hin. apply Hls. by right.
Qed.

(** The arcs of the view: a live edge of a wanted label, valid at the time,
    between nodes no layer deletes. *)
Definition edge_arc (n m e : Z) : Prop :=
  exists r, shown_edge e = Some r /\ touches dir r n m /\ passes_filter labels (er_label_id r)
  /\ is_edge_valid_at (er_valid_from r) (er_valid_to r) time = true
  /\ node_tombstoned self n = false /\ node_tombstoned self m = false.

Lemma shown_first ls1 l ls2 e r :
  view_layers = ls1 ++ l :: ls2 -> layer_says l e = Some (Some r) -> (forall l', l' ∈ ls1 -> layer_says l' e = None) ->
  shown_edge e = Some r.
Proof.
  intros Hv Hl Hls. rewrite shown_edge_layers, Hv, fmap_app, layers_say_app. unfold first.
  assert (layers_say (layer_says <$> ls1) e = None) as ->; [|rewrite fmap_cons; change (layers_say (?f :: ?k)) with (first f (layers_say k)); unfold first; by rewrite Hl].
  clear Hv. induction ls1 as [|l1 ls1 IH]; [done|]. rewrite fmap_cons. change (layers_say (?f :: ?k)) with (first f (layers_say k)).
  unfold first. rewrite Hls by left. apply IH. intros l' Hin. apply Hls. by right.
Qed.
Lemma shown_split e r : shown_edge e = Some r ->
  exists ls1 l ls2, view_layers = ls1 ++ l :: ls2 /\ layer_says l e = Some (Some r) /\ forall l', l' ∈ ls1 -> layer_says l' e = None.
Proof.
  rewrite shown_edge_layers. induction view_layers as [|l ls IH]; [done|]. rewrite fmap_cons.
  change (layers_say (?f :: ?k)) with (first f (layers_say k)). unfold first. destruct (layer_says l e) as [o|] eqn:El.
  - cbn. intros ->. exists [], l, ls. split_and!; [done..|]. by intros l' ?%not_elem_of_nil.
  - intros (ls1 & l' & ls2 & -> & Hs & Hls)%IH. exists (l :: ls1), l', ls2. split_and!; [done..|]. intros l'' [->|Hin]%elem_of_cons; [done|by apply Hls].
Qed.
(** A newer layer without the posting does not know the edge. *)
Lemma newer_silent ids l n p l' :
  l ∈ view_layers -> l' ∈ view_layers -> n ∈ ids -> held_posting l n p ->
  edge_tombstoned self (ps_edge_id p) = false -> node_tombstoned self n = false -> node_tombstoned self (ps_neighbor_id p) = false ->
  snd (block_of ids l') = None -> (n, ps_edge_id p) ∉ edge_keys (fst (block_of ids l')) -> layer_says l' (ps_edge_id p) = None.
Proof.
  intros Hl Hl' Hn (r & Hr & Ht & Ep & Hlab) He Htn Htm Hok Hk. destruct (layer_says l' (ps_edge_id p)) as [[r'|]|] eqn:Es; [|by rewrite (says_dead l' _ Hl' Es) in He|done].
  exfalso. pose proof (says_record _ _ _ Es) as Hr'. destruct (ly_ends Hlayered l l' _ _ _ Hl Hl' Hr Hr') as (Ef & Et & El).
  pose proof (record_id l' _ _ Hl' Hr') as Hid. apply Hk, edge_keys_elem. exists (n, posting r' (ps_neighbor_id p)). 
  split; [|unfold edge_key, posting; cbn [fst snd ps_edge_id]; by rewrite Hid]. apply block_complete; unfold posting; cbn [ps_edge_id ps_neighbor_id]; rewrite ?Hid; [done..| |done|done|done]. exists r'. cbn [ps_edge_id ps_neighbor_id].
  split_and!; [done|by apply (touches_ends dir r)|unfold posting; by rewrite Hid|by rewrite <- El].
Qed.
Lemma held_arc l n p r : l ∈ view_layers -> held_posting l n p -> shown_edge (ps_edge_id p) = Some r -> layer_record l (ps_edge_id p) = Some r ->
  is_edge_valid_at (ps_valid_from p) (ps_valid_to p) time = true ->
  node_tombstoned self n = false -> node_tombstoned self (ps_neighbor_id p) = false -> edge_arc n (ps_neighbor_id p) (ps_edge_id p).
Proof.
  intros Hl (r' & Hr' & Ht & Ep & Hlab) Hs Hr Hv Hn Hm. rewrite Hr in Hr'. apply (inj Some) in Hr' as <-. exists r. split_and!; [done..| |done|done].
  rewrite Ep in Hv. exact Hv.
Qed.
Lemma active_in : Mem (active self) ∈ view_layers.
Proof. left. Qed.

(** Over a layered view the walk looks for the ends of an edge that the active
    memtable holds among the tombstones of that memtable alone, and among
    those of every layer for the other edges. *)
Definition end_standing (e k : Z) : bool :=
  match edge_at (active self) e (snapshot_seq self) with
  | Some _ => negb (node_deleted_at (active self) k (snapshot_seq self))
  | None => negb (node_tombstoned self k)
  end.
Definition walk_arc (n m e : Z) : Prop :=
  exists r, shown_edge e = Some r /\ touches dir r n m /\ passes_filter labels (er_label_id r)
  /\ is_edge_valid_at (er_valid_from r) (er_valid_to r) time = true
  /\ end_standing e n = true /\ end_standing e m = true.
Lemma untombed_standing e k : node_tombstoned self k = false -> end_standing e k = true.
Proof.
  intros Hk. unfold end_standing. rewrite Hk. destruct (edge_at _ e _); [|done]. apply negb_true_iff, not_true_iff_false. intros Hd.
  by rewrite (node_deleted_tombstoned (Mem (active self)) k active_in Hd) in Hk.
Qed.
Lemma edge_walk_arc n m e : edge_arc n m e -> walk_arc n m e.
Proof. intros (r & ? & ? & ? & ? & ? & ?). exists r. split_and!; [done..| |]; by apply untombed_standing. Qed.

Lemma walk_arcs_sound frontier n m e : (n, m, e) ∈ fst (expansion_arcs dir labels time frontier) -> n ∈ frontier /\ walk_arc n m e.
Proof.
  unfold expansion_arcs. destruct frontier as [|x frontier]; [by intros ?%not_elem_of_nil|].
  assert (forall k, k ∈ sort_ids (x :: frontier) <-> k ∈ x :: frontier) as Hids by (intros k; unfold sort_ids; by rewrite merge_sort_Permutation).
  revert Hids. generalize (sort_ids (x :: frontier)). intros ids. generalize (x :: frontier). clear x frontier. intros frontier Hids. cbn zeta.
  pose proof (layer_stream_older ids) as Hst. destruct (segment_stream dir labels ids (segments self)) as [postings failure]. cbn [fst].
  rewrite elem_of_app, !list_elem_of_fmap. intros [([n' p] & [= -> -> ->] & [Hv Hq]%list_elem_of_filter)|([n' p] & [= -> -> ->] & [Hv Hq]%list_elem_of_filter)].
  - apply (memtable_postings_elem (active self) ids n' p active_in) in Hq as (Hn & (r & Hr & Ht & Ep & Hlab) & Hd & Hdm).
    split; [by apply Hids|]. cbn in Hr. exists r.
    assert (shown_edge (ps_edge_id p) = Some r) as Hsh.
    { apply (shown_first [] (Mem (active self)) older_layers); [done| |by intros l' ?%not_elem_of_nil]. cbn. rewrite edge_at_state in Hr.
      unfold state_says. destruct (state_at _ _ (ps_edge_id p)) as [[]|]; by simplify_eq. }
    unfold end_standing. rewrite Hr, Hd, Hdm. rewrite Ep in Hv. by split_and!.
  - apply andb_true_iff in Hv as [Hv Hun]. unfold untombed in Hun. cbn [fst snd] in Hun. apply andb_true_iff in Hun as [[He%negb_true_iff Hm%negb_true_iff]%andb_true_iff Hn'%negb_true_iff].
    change (immutable_postings dir labels ids ++ postings) with (fst (immutable_postings dir labels ids ++ postings, failure)) in Hq. rewrite <- Hst in Hq.
    apply stream_first in Hq as (Hk & ls1 & l & ls2 & Hls & Hq & Hnew).
    assert (forall l', l' ∈ ls1 ++ l :: ls2 -> l' ∈ view_layers) as Hin by (intros l' ?; right; by rewrite Hls).
    assert (l ∈ view_layers) as Hl by (apply Hin; set_solver).
    destruct (block_sound ids l n' p Hl Hq) as [Hn Hp]. split; [by apply Hids|]. pose proof Hp as (r & Hr & _).
    apply edge_walk_arc, (held_arc l n' p r); [done|done| |done..]. apply (shown_first (Mem (active self) :: ls1) l ls2); [unfold view_layers; by rewrite Hls|by apply record_says|].
    intros l' [->|Hl']%elem_of_cons.
    + apply (newer_silent ids l n' p); [done|apply active_in|done..].
    + destruct (Hnew l' Hl') as [Hok Hk']. apply (newer_silent ids l n' p); [done|apply Hin; set_solver|done..].
Qed.
Lemma walk_arcs_complete frontier n m e :
  snd (expansion_arcs dir labels time frontier) = None -> n ∈ frontier -> walk_arc n m e ->
  (n, m, e) ∈ fst (expansion_arcs dir labels time frontier).
Proof.
  unfold expansion_arcs. destruct frontier as [|x frontier]; [by intros _ ?%not_elem_of_nil|].
  assert (forall k, k ∈ sort_ids (x :: frontier) <-> k ∈ x :: frontier) as Hids by (intros k; unfold sort_ids; by rewrite merge_sort_Permutation).
  revert Hids. generalize (sort_ids (x :: frontier)). intros ids. generalize (x :: frontier). clear x frontier. intros frontier Hids. cbn zeta.
  pose proof (layer_stream_older ids) as Hst. destruct (segment_stream dir labels ids (segments self)) as [postings failure]. cbn [fst snd].
  intros -> Hn%Hids (r & Hsh & Ht & Hlab & Hv & Htn & Htm). pose proof (ly_live Hlayered e r Hsh) as He.
  destruct (shown_split e r Hsh) as (ls1 & l & ls2 & Hls & Hl & Hnew).
  assert (forall l', l' ∈ ls1 ++ l :: ls2 -> l' ∈ view_layers) as Hin by (intros l' ?; by rewrite Hls).
  assert (l ∈ view_layers) as Hlv by (apply Hin; set_solver). pose proof (says_record _ _ _ Hl) as Hr. pose proof (record_id l e r Hlv Hr) as Hid.
  assert (held_posting l n (posting r m)) as Hp by (exists r; unfold posting; cbn [ps_edge_id ps_neighbor_id]; by rewrite Hid).
  assert (arc_of (n, posting r m) = (n, m, e)) as Ea by (unfold arc_of, posting; cbn; by rewrite Hid). rewrite <- Ea.
  assert (forall l', l' ∈ ls1 -> (n, ps_edge_id (posting r m)) ∉ edge_keys (fst (block_of ids l'))) as Hkeys.
  { intros l' Hl' ([n' p'] & Hq' & [= -> Ee])%edge_keys_elem.
    destruct (block_sound ids l' n p' ltac:(apply Hin; set_solver) Hq') as [_ (r' & Hr' & _)]. rewrite Ee, Hid in Hr'.
    apply record_says in Hr'; [|apply Hin; set_solver|done]. by rewrite Hnew in Hr'. }
  rewrite elem_of_app. destruct ls1 as [|l1 ls1].
  - left. apply list_elem_of_fmap_2, list_elem_of_filter. split; [done|]. injection Hls as <- _. cbn in Hr. unfold end_standing in Htn, Htm.
    rewrite Hr in Htn, Htm. apply negb_true_iff in Htn, Htm. apply memtable_postings_elem; [apply active_in|]. by split_and!.
  - right. apply list_elem_of_fmap_2, list_elem_of_filter. injection Hls as <- Hls. unfold end_standing in Htn, Htm.
    assert (edge_at (active self) e (snapshot_seq self) = None) as Hna.
    { destruct (edge_at (active self) e _) as [r0|] eqn:E; [|done]. pose proof (record_says (Mem (active self)) e r0 active_in He E) as E'.
      rewrite (Hnew (Mem (active self)) ltac:(left)) in E'. discriminate. }
    rewrite Hna in Htn, Htm. apply negb_true_iff in Htn, Htm.
    assert (snd (block_of ids l) = None -> (n, posting r m) ∈ fst (block_of ids l)) as Hhas.
    { intros Hok. apply block_complete; unfold posting; cbn [ps_edge_id ps_neighbor_id]; rewrite ?Hid; try done. unfold posting in Hp. by rewrite Hid in Hp. }
    split.
    { unfold untombed, in_time, posting. cbn [fst snd ps_edge_id ps_neighbor_id ps_valid_from ps_valid_to]. by rewrite Hv, Hid, He, Htn, Htm. }
    change (immutable_postings dir labels ids ++ postings) with (fst (immutable_postings dir labels ids ++ postings, @None EngineError)). rewrite <- Hst.
    assert (snd (layer_stream ids older_layers) = None) as Hnone by by rewrite Hst. rewrite Hls in Hnone |- *.
    destruct (stream_complete ids ls1 l ls2 (edge_keys (memtable_postings dir labels (active self) ids)) (n, posting r m) Hnone) as [Hoks Hstr].
    apply Hstr; [apply Hhas, Hoks; set_solver| | |].
    + intros [n' p'] Hq' [= -> Ee]. destruct (block_sound ids l n p' Hlv Hq') as [_ (r' & Hr' & Ht' & Ep' & _)].
      rewrite Ee, Hid, Hr in Hr'. apply (inj Some) in Hr' as <-. rewrite (touches_unique _ _ _ _ _ Ht Ht'). by rewrite <- Ep'.
    + apply (Hkeys (Mem (active self))). left.
    + intros l' Hl'. apply Hkeys. by right.
Qed.
End Arcs.
End Layered.

Section Steady.
Hypothesis Hsteady : steady.
Context (dir : Direction) (labels : option (list Z)) (time : Z).
(** With nothing active at a deleted node, those are the arcs of the view. *)
Lemma arcs_sound frontier n m e :
  (n, m, e) ∈ fst (expansion_arcs dir labels time frontier) -> n ∈ frontier /\ edge_arc dir labels time n m e.
Proof.
  intros [Hn (r & Hs & Ht & Hlab & Hv & Hen & Hem)]%(walk_arcs_sound Hsteady). split; [done|]. exists r. unfold end_standing in Hen, Hem.
  destruct (edge_at _ e _) as [r'|] eqn:E; [|by apply negb_true_iff in Hen, Hem].
  assert (r' = r) as -> .
  { pose proof (record_says (Mem (active self)) e r' active_in (ly_live Hsteady e r Hs) E) as Es.
    rewrite (shown_first [] (Mem (active self)) older_layers e r') in Hs; [by simplify_eq|done..|by intros l' ?%not_elem_of_nil]. }
  destruct (st_active Hsteady e r E) as [Hf Hto]. destruct (touches_either _ _ _ _ Ht) as [[<- <-]|[<- <-]]; by split_and!.
Qed.
Lemma arcs_complete frontier n m e :
  snd (expansion_arcs dir labels time frontier) = None -> n ∈ frontier -> edge_arc dir labels time n m e ->
  (n, m, e) ∈ fst (expansion_arcs dir labels time frontier).
Proof. intros Hok Hn Ha%edge_walk_arc. by apply (walk_arcs_complete Hsteady). Qed.
End Steady.
End View.

(** ** A check that a view is steady, for the witnesses. *)
Section Check.
Context `{RmpValue, HashOrderLaws} {Segment : Type} `{!SegmentReads Segment, !SegmentAdjacency Segment}.
Context (edge_in : Segment -> Z -> option EdgeRecord) `{!SegmentAdjacencyLaws edge_in}.
(** The edges a segment may hold. *)
Context (segment_edges : Segment -> list (Z * EdgeRecord)).
Hypothesis Hsegment : forall seg e r, edge_in seg e = Some r -> (e, r) ∈ segment_edges seg.
Definition live_edges (snapshot_seq : Z) (l : Layer (Segment := Segment)) : list (Z * EdgeRecord) :=
  match l with
  | Mem st => omap (fun e => pair e <$> edge_at st e snapshot_seq) (fst <$> map_to_list (ms_edges st))
  | Seg seg => segment_edges seg
  end.
Lemma live_edges_complete self l e r : layer_record edge_in self l e = Some r -> (e, r) ∈ live_edges (snapshot_seq self) l.
Proof.
  destruct l as [st|seg]; cbn.
  - intros E. apply list_elem_of_omap. exists e. rewrite E. split; [|done]. unfold edge_at in E.
    destruct (ms_edges st !! e) as [slot|] eqn:Es; [|done]. apply list_elem_of_fmap. exists (e, slot). split; [done|]. by apply elem_of_map_to_list.
  - apply Hsegment.
Qed.
Definition same_ends (a b : Z * EdgeRecord) : bool :=
  bool_decide (fst a = fst b -> er_from (snd a) = er_from (snd b) /\ er_to (snd a) = er_to (snd b) /\ er_label_id (snd a) = er_label_id (snd b)).
Definition layered_check (self : SourceList (Segment := Segment)) : bool :=
  let all := mjoin (live_edges (snapshot_seq self) <$> view_layers self) in
  forallb (fun a => forallb (same_ends a) all) all
  && forallb (fun a => match shown ms_edges is_edge_deleted edge_in self (fst a) with Some _ => negb (edge_tombstoned self (fst a)) | None => true end) all.
Definition steady_check (self : SourceList (Segment := Segment)) : bool :=
  layered_check self
  && forallb (fun a => negb (node_tombstoned self (er_from (snd a))) && negb (node_tombstoned self (er_to (snd a))))
       (live_edges (snapshot_seq self) (Mem (active self))).
Lemma forallb_elem {A} (P : A -> bool) l x : forallb P l = true -> x ∈ l -> P x = true.
Proof. rewrite forallb_forall. intros Hl Hx. apply Hl. by apply list_elem_of_In. Qed.
Lemma layered_checked self :
  (forall st, st ∈ active self :: immutable self -> exists ops, built ops st) -> layered_check self = true -> layered edge_in self.
Proof.
  intros Hb Hc. unfold layered_check in Hc. apply andb_true_iff in Hc as [Hends Hlive].
  assert (forall l e r, l ∈ view_layers self -> layer_record edge_in self l e = Some r ->
    (e, r) ∈ mjoin (live_edges (snapshot_seq self) <$> view_layers self)) as Hall.
  { intros l e r Hl Hr%live_edges_complete. apply list_elem_of_join. eexists. split; [exact Hr|]. by apply list_elem_of_fmap_2. }
  split.
  - intros st Hst%layer_mem. by apply Hb.
  - intros l l' e r r' Hl Hl' Hr Hr'. pose proof (forallb_elem _ _ _ Hends (Hall _ _ _ Hl Hr)) as Hs.
    pose proof (forallb_elem _ _ _ Hs (Hall _ _ _ Hl' Hr')) as Hs'. apply bool_decide_eq_true in Hs'. by apply Hs'.
  - intros e r Hs. destruct (shown_split edge_in self e r Hs) as (ls1 & l & ls2 & Hv & Hl & _).
    apply says_record in Hl. assert (l ∈ view_layers self) as Hin by (rewrite Hv; set_solver).
    pose proof (forallb_elem _ _ _ Hlive (Hall _ _ _ Hin Hl)) as Hn. cbn [fst] in Hn. rewrite Hs in Hn. by apply negb_true_iff.
Qed.
Lemma steady_checked self :
  (forall st, st ∈ active self :: immutable self -> exists ops, built ops st) -> steady_check self = true -> steady edge_in self.
Proof.
  intros Hb [Hl Hact]%andb_true_iff. split; [by apply layered_checked|].
  intros e r Hr. pose proof (forallb_elem _ _ _ Hact (live_edges_complete self (Mem (active self)) e r Hr)) as Hn.
  apply andb_true_iff in Hn as [?%negb_true_iff ?%negb_true_iff]. done.
Qed.
(** Every edge shown is among those listed. *)
Definition all_edges (self : SourceList (Segment := Segment)) : list (Z * EdgeRecord) := mjoin (live_edges (snapshot_seq self) <$> view_layers self).
Lemma shown_listed self e r : shown ms_edges is_edge_deleted edge_in self e = Some r -> (e, r) ∈ all_edges self.
Proof.
  intros (ls1 & l & ls2 & Hv & Hl & _)%shown_split. apply list_elem_of_join. eexists. split; [by eapply live_edges_complete, says_record|].
  apply list_elem_of_fmap_2. rewrite Hv. set_solver.
Qed.
Lemma shown_bounded self ids n :
  (length (all_edges self) < n)%nat -> NoDup ids -> (forall e, e ∈ ids -> is_Some (shown ms_edges is_edge_deleted edge_in self e)) -> len ids < Z.of_nat n.
Proof.
  intros Hn Hd Hs. assert (ids ⊆ fst <$> all_edges self) as Hsub.
  { intros e [r Hr]%Hs. apply list_elem_of_fmap. exists (e, r). split; [done|]. by apply shown_listed. }
  apply NoDup_submseteq in Hsub; [|done]. apply submseteq_length in Hsub. rewrite length_fmap in Hsub. lia.
Qed.
End Check.
