(* ===== verification/Freeze.v ===== *)
(** Freezing the active memtable of a view (step 5 of [freeze_memtable] in
    src/engine/mod.rs), and what it does to the expansion of a frontier: the
    walk asks the active memtable's own tombstones for the edges it holds, and
    every layer's for the others. *)
From S2P Require Import Prelude Types Encoding PropertyValue Slots Memtable MemtableCells MemtableFacts MemtableReads MemtableSnapshots MemtableNeighbors DegreeEngine FilterBase NodeFilter NodeQuery SourceList SourceListFacts Adjacency AdjacencyFacts.
Import SourceList.

Definition is_empty (st : MemtableState) : bool := bool_decide (ms_nodes st = ∅) && bool_decide (ms_edges st = ∅).

Section Freeze.
Context `{RmpValue, HashOrderLaws} {Segment : Type} `{!SegmentReads Segment, !SegmentAdjacency Segment}.
Abbreviation ReadView := (SourceList (Segment := Segment)).

(** [next_memtable] is a new memtable with the secondary indexes registered;
    the frozen one becomes the newest immutable one. *)
Definition freeze_memtable (next_memtable : MemtableState) (self : ReadView) : ReadView :=
  if is_empty (active self) then self
  else mkSources next_memtable (active self :: immutable self) (segments self) (snapshot_seq self).

(** ** A fresh memtable says nothing *)
Lemma fresh_edge st e s : fresh st -> edge_at st e s = None.
Proof. intros Hf. by rewrite edge_at_seen; unfold seen; rewrite Hf. Qed.
Lemma fresh_node_deleted st n s : fresh st -> node_deleted_at st n s = false.
Proof. intros Hf. by rewrite node_deleted_seen; unfold seen; rewrite Hf. Qed.
Lemma fresh_edge_deleted st e s : fresh st -> edge_deleted_at st e s = false.
Proof. intros Hf. by rewrite edge_deleted_seen; unfold seen; rewrite Hf. Qed.
Lemma fresh_says st s e : fresh st -> state_says (ms_edges st) s (fun r => r) e = None.
Proof.
  intros Hf. pose proof (state_at_seen_edge st s e) as E. unfold seen in E. rewrite Hf in E. cbn in E.
  unfold state_says. by destruct (state_at (ms_edges st) s e).
Qed.
Lemma fresh_built st : fresh st -> built [] st.
Proof. intros Hf. exists st. split; [done|]. split; [|done]. split; constructor. Qed.

Context (edge_in : Segment -> Z -> option EdgeRecord) `{!SegmentAdjacencyLaws edge_in}.
Context (self : ReadView) (next : MemtableState).
Hypothesis Hlayered : layered edge_in self.
Hypothesis Hfresh : fresh next.
Abbreviation frozen := (mkSources next (active self :: immutable self) (segments self) (snapshot_seq self)).

Lemma frozen_layers : view_layers frozen = Mem next :: view_layers self.
Proof. reflexivity. Qed.
Lemma frozen_shown e : shown ms_edges is_edge_deleted edge_in frozen e = shown ms_edges is_edge_deleted edge_in self e.
Proof.
  rewrite !shown_edge_layers, frozen_layers, fmap_cons. change (layers_say (?f :: ?k)) with (first f (layers_say k)).
  unfold first. cbn [layer_says snapshot_seq]. by rewrite fresh_says.
Qed.
Lemma frozen_node_tombstoned n : node_tombstoned frozen n = node_tombstoned self n.
Proof. unfold node_tombstoned. cbn [active immutable segments snapshot_seq existsb]. by rewrite fresh_node_deleted. Qed.
Lemma frozen_edge_tombstoned e : edge_tombstoned frozen e = edge_tombstoned self e.
Proof. unfold edge_tombstoned. cbn [active immutable segments snapshot_seq existsb]. by rewrite fresh_edge_deleted. Qed.
Lemma frozen_layered : layered edge_in frozen.
Proof.
  split.
  - intros st. rewrite frozen_layers. intros [[= ->]|Hst]%elem_of_cons; [exists []; by apply fresh_built|by apply (ly_built _ _ Hlayered)].
  - assert (forall l e r, l ∈ view_layers frozen -> layer_record edge_in frozen l e = Some r -> l ∈ view_layers self /\ layer_record edge_in self l e = Some r) as Hold.
    { intros l e r [-> |Hl]%elem_of_cons Hr; [|by destruct l]. cbn in Hr. by rewrite fresh_edge in Hr. }
    intros l l' e r r' Hl Hl' Hr Hr'. destruct (Hold _ _ _ Hl Hr), (Hold _ _ _ Hl' Hr'). by apply (ly_ends _ _ Hlayered l l' e).
  - intros e r. rewrite frozen_shown, frozen_edge_tombstoned. apply (ly_live _ _ Hlayered).
Qed.

Context (dir : Direction) (labels : option (list Z)) (time : Z).
Abbreviation walk_arc_of v := (walk_arc edge_in v dir labels time).
(** After the freeze every arc is looked up among all tombstones. *)
Lemma frozen_arc n m e :
  walk_arc_of frozen n m e <-> walk_arc_of self n m e /\ node_tombstoned self n = false /\ node_tombstoned self m = false.
Proof.
  assert (forall k, end_standing frozen e k = true <-> node_tombstoned self k = false) as Hs.
  { intros k. unfold end_standing. cbn [active snapshot_seq]. rewrite fresh_edge, frozen_node_tombstoned by done. apply negb_true_iff. }
  split.
  - intros (r & Hsh & ? & ? & ? & Hn%Hs & Hm%Hs). rewrite frozen_shown in Hsh. split; [|done]. exists r.
    split_and!; [done..| |]; by apply untombed_standing.
  - intros ((r & Hsh & ? & ? & ? & _) & Hn%Hs & Hm%Hs). exists r. by rewrite frozen_shown.
Qed.
(** Nothing active, nothing to hide. *)
Lemma empty_arc n m e : is_empty (active self) = true -> walk_arc_of self n m e -> node_tombstoned self n = false /\ node_tombstoned self m = false.
Proof.
  intros [_ He%bool_decide_eq_true]%andb_true_iff (r & _ & _ & _ & _ & Hn & Hm). unfold end_standing, edge_at in Hn, Hm.
  rewrite He, lookup_empty in Hn, Hm. cbn in Hn, Hm. by apply negb_true_iff in Hn, Hm.
Qed.

(** The active memtable's own edges are arcs whatever older layers delete. *)
Lemma active_arc n m e r :
  edge_at (active self) e (snapshot_seq self) = Some r -> touches dir r n m ->
  passes_filter labels (er_label_id r) -> is_edge_valid_at (er_valid_from r) (er_valid_to r) time = true ->
  node_deleted_at (active self) n (snapshot_seq self) = false -> node_deleted_at (active self) m (snapshot_seq self) = false ->
  walk_arc_of self n m e.
Proof.
  intros Hr Ht Hlab Htime Hdn Hdm. exists r. unfold end_standing. rewrite Hr, Hdn, Hdm. split_and!; [|done..].
  apply (shown_first edge_in self [] (Mem (active self)) (older_layers self)); [done| |by intros l' ?%not_elem_of_nil].
  cbn. rewrite edge_at_state in Hr. unfold state_says. destruct (state_at _ _ e) as [[]|]; by simplify_eq.
Qed.

(** A callback that keeps every arc. *)
Definition collect_arc (arcs : list (Z * Z * Z)) (arc : Z * Z * Z) : list (Z * Z * Z) * bool := (arcs ++ [arc], false).
Lemma each_collect arcs0 arcs : each collect_arc arcs arcs0 = (arcs0 ++ arcs, false).
Proof.
  revert arcs0. induction arcs as [|arc arcs IH]; intros arcs0; [by rewrite app_nil_r|]. cbn [each collect_arc]. by rewrite IH, <- app_assoc.
Qed.
Definition collected (v : ReadView) (frontier : list Z) : res (list (Z * Z * Z)) :=
  '(_, arcs, _) ← expand_frontier v dir labels time collect_arc frontier new_tombstones []; Ok arcs.
Lemma collected_arcs v frontier :
  layered edge_in v -> (forall seg ids, seg ∈ segments v -> snd (adj_postings_batch seg ids dir labels) = None) ->
  exists arcs, collected v frontier = Ok arcs /\ forall n m e, (n, m, e) ∈ arcs <-> n ∈ frontier /\ walk_arc_of v n m e.
Proof.
  intros Hv Hok. destruct (expand_frontier_each edge_in v dir labels time collect_arc frontier new_tombstones [] (tv_ok_new v)) as (tv & _ & E).
  unfold collected. rewrite E. clear E. assert (snd (expansion_arcs v dir labels time frontier) = None) as Hnone.
  { destruct (snd (expansion_arcs v dir labels time frontier)) as [e|] eqn:Ef; [|done].
    destruct (expansion_failure v dir labels time frontier e Ef) as (seg & ids & Hin & Ee). by rewrite Hok in Ee. }
  pose proof (walk_arcs_sound edge_in v Hv dir labels time frontier) as Hs. pose proof (walk_arcs_complete edge_in v Hv dir labels time frontier) as Hc.
  destruct (expansion_arcs v dir labels time frontier) as [arcs failure]. cbn [fst snd] in *. subst failure.
  rewrite each_collect. exists arcs. split; [done|]. intros n m e. split; [apply Hs|]. intros [Hn Ha]. by apply Hc.
Qed.
End Freeze.

Section Exact.
Context `{RmpValue, HashOrderLaws} {Segment : Type} `{!SegmentReads Segment, !SegmentAdjacency Segment}.
Context (edge_in : Segment -> Z -> option EdgeRecord) `{!SegmentAdjacencyLaws edge_in}.

(** C39.  Freezing the active memtable hides edges, although it writes nothing.
    Nothing keeps an edge from being written to a node that another layer has
    deleted.  Before the freeze, the expansion of a frontier calls back with
    every valid edge of the active memtable whose ends that memtable itself has
    not deleted; after it, with exactly those arcs of before whose ends no
    layer has deleted.  So the edges of the active memtable at a node deleted
    in an older layer are walked until the freeze and hidden from then on. *)
Theorem freezing_hides_arcs (self : SourceList (Segment := Segment)) next dir labels time frontier :
  layered edge_in self -> fresh next ->
  (forall seg ids, seg ∈ segments self -> snd (adj_postings_batch seg ids dir labels) = None) ->
  exists before after,
    collected dir labels time self frontier = Ok before
    /\ collected dir labels time (freeze_memtable next self) frontier = Ok after
    /\ (forall n m e r, n ∈ frontier -> edge_at (active self) e (snapshot_seq self) = Some r -> touches dir r n m ->
          passes_filter labels (er_label_id r) -> is_edge_valid_at (er_valid_from r) (er_valid_to r) time = true ->
          node_deleted_at (active self) n (snapshot_seq self) = false -> node_deleted_at (active self) m (snapshot_seq self) = false -> (n, m, e) ∈ before)
    /\ forall n m e, (n, m, e) ∈ after <-> (n, m, e) ∈ before /\ node_tombstoned self n = false /\ node_tombstoned self m = false.
Proof.
  intros Hv Hf Hok. destruct (collected_arcs edge_in dir labels time self frontier Hv Hok) as (before & Eb & Hb).
  assert (forall n m e r, n ∈ frontier -> edge_at (active self) e (snapshot_seq self) = Some r -> touches dir r n m -> _) as Hheld
    by exact (fun n m e r Hn Hr Ht Hlab Hti Hdn Hdm => proj2 (Hb n m e) (conj Hn (active_arc edge_in self dir labels time n m e r Hr Ht Hlab Hti Hdn Hdm))).
  exists before.
  unfold freeze_memtable. destruct (is_empty (active self)) eqn:He.
  { exists before. split_and!; [done..|]. intros n m e. split; [|naive_solver]. intros Hin. split; [done|].
    apply (empty_arc edge_in self dir labels time n m e He). by apply Hb. }
  destruct (collected_arcs edge_in dir labels time (mkSources next (active self :: immutable self) (segments self) (snapshot_seq self)) frontier)
    as (after & Ea & Ha); [by apply frozen_layered|done|].
  exists after. split_and!; [done..|]. intros n m e. rewrite Ha, Hb, (frozen_arc edge_in self next Hf). naive_solver.
Qed.
End Exact.
