(* ===== verification/DegreeWalk.v ===== *)
(** The walk that answers a degree query when the cache cannot
    ([degree_stats_raw_walk] and [degree_stats_raw_walk_inner] of
    src/engine/graph_ops.rs): it counts the edges at a node layer by layer,
    each edge once, and sums their weights. *)
From S2P Require Import Prelude Types Floats PropertyValue Slots Memtable MemtableReads DegreeEngine SourceList Adjacency.
Import SourceList.

(** A segment walks the postings of one node; decoding may fail after some. *)
Class SegmentWalk (Segment : Type) : Type :=
  { adj_postings : Segment -> Z -> Direction -> option (list Z) -> list Posting * option EngineError }.
Definition for_each_adj_posting {Segment S} `{SegmentWalk Segment} (callback : S -> Posting -> S * bool)
    (seg : Segment) (node_id : Z) (direction : Direction) (label_filter_ids : option (list Z)) (s : S) : res (S * bool) :=
  let '(postings, failure) := adj_postings seg node_id direction label_filter_ids in
  let '(s, stop) := each callback postings s in
  if stop then Ok (s, true) else match failure with Some e => Err e | None => Ok (s, false) end.

(** What the closures share: [seen_edges], [count] and [weight_sum] (its bits). *)
Record WalkState : Type := mkWalk {
  wk_seen_edges : gset Z;
  wk_count : Z;
  wk_weight_sum : Z
}.
Definition mark_seen (w : WalkState) (edge_id : Z) : WalkState :=
  mkWalk ({[edge_id]} ∪ wk_seen_edges w) (wk_count w) (wk_weight_sum w).
Definition count_edge (w : WalkState) (weight : Z) : WalkState :=
  mkWalk (wk_seen_edges w) (wk_count w + 1) (f64_add (wk_weight_sum w) (f32_to_f64 weight)).

Section Walk.
Context `{HashOrder} {Segment : Type} `{!SegmentReads Segment, !SegmentAdjacency Segment, !SegmentWalk Segment}.
Context (self : SourceList (Segment := Segment)) (node_id : Z) (direction : Direction) (label_filter_ids : option (list Z)) (reference_time : Z).

Section Inner.
Context (deleted_nodes deleted_edges : gset Z).

(** The callbacks never break. *)
Definition memtable_callback (w : WalkState) (p : Posting) : WalkState * bool :=
  let w := mark_seen w (ps_edge_id p) in
  if negb (is_edge_valid_at (ps_valid_from p) (ps_valid_to p) reference_time) then (w, false)
  else (count_edge w (ps_weight p), false).
Definition epoch_callback (w : WalkState) (p : Posting) : WalkState * bool :=
  if bool_decide (ps_edge_id p ∈ wk_seen_edges w) then (w, false)
  else
    let w := mark_seen w (ps_edge_id p) in
    if bool_decide (ps_edge_id p ∈ deleted_edges) then (w, false)
    else if bool_decide (ps_neighbor_id p ∈ deleted_nodes) then (w, false)
    else if negb (is_edge_valid_at (ps_valid_from p) (ps_valid_to p) reference_time) then (w, false)
    else (count_edge w (ps_weight p), false).
Definition segment_callback (w : WalkState) (p : Posting) : WalkState * bool :=
  if bool_decide (ps_edge_id p ∈ wk_seen_edges w) then (w, false)
  else
    let w := mark_seen w (ps_edge_id p) in
    if negb (is_edge_valid_at (ps_valid_from p) (ps_valid_to p) reference_time) then (w, false)
    else if bool_decide (ps_edge_id p ∈ deleted_edges) then (w, false)
    else if bool_decide (ps_neighbor_id p ∈ deleted_nodes) then (w, false)
    else (count_edge w (ps_weight p), false).

Fixpoint walk_segments (segs : list Segment) (w : WalkState) : res WalkState :=
  match segs with
  | [] => Ok w
  | seg :: segs =>
      '(w, _) ← for_each_adj_posting segment_callback seg node_id direction label_filter_ids w;
      walk_segments segs w
  end.

Definition degree_stats_raw_walk_inner : res (Z * Z) :=
  let w := mkWalk ∅ 0 0 in
  let '(w, _) := for_each_adj_entry_at (active self) node_id label_filter_ids (snapshot_seq self) memtable_callback direction w in
  let w :=
    foldl (fun w epoch => fst (for_each_adj_entry_at epoch node_id label_filter_ids (snapshot_seq self) epoch_callback direction w))
      w (immutable self) in
  w ← walk_segments (segments self) w;
  Ok (wk_count w, wk_weight_sum w).
End Inner.

Definition degree_stats_raw_walk : res (Z * Z) :=
  let '(deleted_nodes, deleted_edges) := collect_tombstones self in
  degree_stats_raw_walk_inner deleted_nodes deleted_edges.
End Walk.
