(* ===== verification/DegreeWalkFacts.v ===== *)
(** The degree walk is exact: it counts, once each, the edges of the view at
    the node whose other end is not hidden, an end being looked up among the
    active memtable's tombstones for the edges that memtable holds, and among
    those of every layer for the others. *)
From S2P Require Import Prelude Types PropertyValue Slots Memtable MemtableReads MemtableSnapshots MemtableNeighbors DegreeEngine FilterBase NodeFilter NodeQuery SourceList SourceListFacts Adjacency AdjacencyFacts DegreeWalk.
Import SourceList.

(** ** Walking the nodes of a batch one by one *)
Section Adapter.
Context {Segment : Type} `{!SegmentReads Segment, !SegmentAdjacency Segment, !SegmentWalk Segment}.
Fixpoint walk_batch (seg : Segment) (dir : Direction) (labels : option (list Z)) (ids : list Z) : list Tagged * option EngineError :=
  match ids with
  | [] => ([], None)
  | n :: ids =>
      match adj_postings seg n dir labels with
      | (postings, Some e) => (pair n <$> postings, Some e)
      | (postings, None) => let '(more, failure) := walk_batch seg dir labels ids in ((pair n <$> postings) ++ more, failure)
      end
  end.
Definition walk_adjacency : SegmentAdjacency Segment :=
  {| adj_postings_batch seg ids dir labels := walk_batch seg dir labels ids;
     deleted_node_ids := deleted_node_ids; deleted_edge_ids := deleted_edge_ids |}.

(** The walk over a node calls back with the edges the segment holds there. *)
Class SegmentWalkLaws (edge_in : Segment -> Z -> option EdgeRecord) : Prop := {
  walk_sound seg n dir labels p : p ∈ fst (adj_postings seg n dir labels) -> segment_posting edge_in seg dir labels n p;
  walk_complete seg n dir labels p : snd (adj_postings seg n dir labels) = None -> segment_posting edge_in seg dir labels n p ->
    p ∈ fst (adj_postings seg n dir labels)
}.
Context (edge_in : Segment -> Z -> option EdgeRecord) `{!SegmentAdjacencyLaws edge_in, !SegmentWalkLaws edge_in}.
Lemma walk_batch_sound seg ids dir labels n p :
  (n, p) ∈ fst (walk_batch seg dir labels ids) -> n ∈ ids /\ segment_posting edge_in seg dir labels n p.
Proof.
  induction ids as [|k ids IH]; [by intros ?%not_elem_of_nil|]. cbn [walk_batch]. pose proof (walk_sound seg k dir labels p) as Hs.
  destruct (adj_postings seg k dir labels) as [postings [e|]]; cbn [fst] in *.
  - intros (p' & [= -> <-] & Hp)%list_elem_of_fmap. split; [left|by apply Hs].
  - destruct (walk_batch seg dir labels ids) as [more failure]. cbn [fst] in *. rewrite elem_of_app.
    intros [(p' & [= -> <-] & Hp)%list_elem_of_fmap|[? ?]%IH]; [split; [left|by apply Hs]|split; [by right|done]].
Qed.
Lemma walk_batch_complete seg ids dir labels n p :
  snd (walk_batch seg dir labels ids) = None -> n ∈ ids -> segment_posting edge_in seg dir labels n p -> (n, p) ∈ fst (walk_batch seg dir labels ids).
Proof.
  induction ids as [|k ids IH]; [by intros _ ?%not_elem_of_nil|]. cbn [walk_batch]. pose proof (walk_complete seg k dir labels p) as Hc.
  destruct (adj_postings seg k dir labels) as [postings [e|]]; cbn [fst snd] in *; [done|].
  destruct (walk_batch seg dir labels ids) as [more failure]. cbn [fst snd] in *. intros -> Hn Hp. apply elem_of_app.
  apply elem_of_cons in Hn as [->|Hn]; [left; by apply list_elem_of_fmap_2, Hc|right; by apply IH].
Qed.
#[local] Instance walk_adjacency_laws : SegmentAdjacencyLaws (SegmentAdjacency0 := walk_adjacency) edge_in.
Proof.
  split; cbn.
  - apply (deleted_nodes_law (edge_in := edge_in)).
  - apply (deleted_edges_law (edge_in := edge_in)).
  - apply (edge_in_id (edge_in := edge_in)).
  - intros *. apply walk_batch_sound.
  - intros *. apply walk_batch_complete.
Qed.
End Adapter.

Section Count.
Context `{RmpValue, HashOrderLaws} {Segment : Type} `{!SegmentReads Segment, !SegmentAdjacency Segment, !SegmentWalk Segment}.
Context (edge_in : Segment -> Z -> option EdgeRecord) `{!SegmentAdjacencyLaws edge_in, !SegmentWalkLaws edge_in}.
Context (self : SourceList (Segment := Segment)) (x : Z) (dir : Direction) (labels : option (list Z)) (time : Z).
#[local] Existing Instance walk_adjacency_laws.
Abbreviation nodes := (collect_deleted_nodes self).
Abbreviation edges := (collect_deleted_edges self).
Abbreviation node_arcs := (expansion_arcs (SegmentAdjacency0 := walk_adjacency) self dir labels time [x]).
Abbreviation at_x := (fmap (M := list) (pair x)).

(** ** The callbacks *)
Definition kept (q : Tagged) : bool := in_time time q && untombed self q.
Hypothesis Hx : node_tombstoned self x = false.
Lemma tombstone_sets e m :
  bool_decide (e ∈ edges) = edge_tombstoned self e /\ bool_decide (m ∈ nodes) = node_tombstoned self m.
Proof.
  split; apply eq_iff_eq_true; rewrite bool_decide_eq_true;
    [by apply (collect_deleted_edges_elem edge_in)|by apply (collect_deleted_nodes_elem edge_in)].
Qed.
Definition older_step (w : WalkState) (p : Posting) : WalkState * bool :=
  if bool_decide (ps_edge_id p ∈ wk_seen_edges w) then (w, false)
  else let w := mark_seen w (ps_edge_id p) in (if kept (x, p) then count_edge w (ps_weight p) else w, false).
Lemma epoch_step w p : epoch_callback time nodes edges w p = older_step w p.
Proof.
  unfold epoch_callback, older_step, kept, in_time, untombed. cbn [fst snd]. destruct (tombstone_sets (ps_edge_id p) (ps_neighbor_id p)) as [-> ->].
  rewrite Hx. cbn [negb]. destruct (bool_decide (ps_edge_id p ∈ wk_seen_edges w)); [done|].
  by destruct (edge_tombstoned self (ps_edge_id p)), (node_tombstoned self (ps_neighbor_id p)), (is_edge_valid_at (ps_valid_from p) (ps_valid_to p) time).
Qed.
Lemma segment_step w p : segment_callback time nodes edges w p = older_step w p.
Proof.
  unfold segment_callback, older_step, kept, in_time, untombed. cbn [fst snd]. destruct (tombstone_sets (ps_edge_id p) (ps_neighbor_id p)) as [-> ->].
  rewrite Hx. cbn [negb]. destruct (bool_decide (ps_edge_id p ∈ wk_seen_edges w)); [done|].
  by destruct (edge_tombstoned self (ps_edge_id p)), (node_tombstoned self (ps_neighbor_id p)), (is_edge_valid_at (ps_valid_from p) (ps_valid_to p) time).
Qed.

(** What has been seen, edge by edge and posting by posting. *)
Definition seen_at_x (w : WalkState) (seen : gset (Z * Z)) : Prop := forall e, e ∈ wk_seen_edges w <-> (x, e) ∈ seen.
Lemma seen_mark w seen e : seen_at_x w seen -> seen_at_x (mark_seen w e) ({[(x, e)]} ∪ seen).
Proof. intros Hs k. specialize (Hs k). unfold mark_seen. cbn [wk_seen_edges]. set_solver. Qed.
Lemma newest_count l w seen :
  seen_at_x w seen ->
  exists w', each (memtable_callback time) l w = (w', false)
  /\ wk_count w' = wk_count w + len (base.filter (fun q => in_time time q = true) (at_x l)) /\ seen_at_x w' (edge_keys (at_x l) ∪ seen).
Proof.
  revert w seen. induction l as [|p l IH]; intros w seen Hs.
  { exists w. split; [done|]. cbn. split; [lia|]. unfold edge_keys. cbn. by rewrite union_empty_l_L. }
  cbn [each memtable_callback]. rewrite fmap_cons, filter_bool_cons. unfold in_time at 1. cbn [snd].
  assert (edge_keys ((x, p) :: at_x l) ∪ seen = edge_keys (at_x l) ∪ ({[(x, ps_edge_id p)]} ∪ seen)) as -> by (unfold edge_keys; cbn; set_solver).
  unfold memtable_callback at 1. destruct (is_edge_valid_at _ _ time); cbn [negb app].
  - destruct (IH (count_edge (mark_seen w (ps_edge_id p)) (ps_weight p)) _ (seen_mark _ _ (ps_edge_id p) Hs)) as (w' & -> & Hc & Hs').
    exists w'. split; [done|]. split; [|done]. rewrite Hc. cbn. lia.
  - apply (IH (mark_seen w (ps_edge_id p))). by apply seen_mark.
Qed.
Lemma older_count l w seen :
  seen_at_x w seen ->
  exists w', each older_step l w = (w', false)
  /\ wk_count w' = wk_count w + len (base.filter (fun q => kept q = true) (unseen seen (at_x l))).
Proof.
  revert w seen. induction l as [|p l IH]; intros w seen Hs; [exists w; split; [done|cbn; lia]|].
  rewrite fmap_cons. cbn [each unseen]. unfold older_step at 1. change (edge_key (x, p)) with (x, ps_edge_id p).
  rewrite (bool_decide_ext _ _ (Hs (ps_edge_id p))). destruct (bool_decide _); [by apply IH|]. rewrite filter_bool_cons.
  destruct (kept (x, p)); cbn [app].
  - destruct (IH (count_edge (mark_seen w (ps_edge_id p)) (ps_weight p)) _ (seen_mark _ _ (ps_edge_id p) Hs)) as (w' & -> & Hc).
    exists w'. split; [done|]. rewrite Hc. cbn. lia.
  - apply (IH (mark_seen w (ps_edge_id p))). by apply seen_mark.
Qed.

(** ** The layers *)
Definition node_postings (st : MemtableState) : list Posting := nb_posting <$> neighbors_at st x dir labels 0 (snapshot_seq self).
Lemma node_postings_tagged st : memtable_postings self dir labels st [x] = at_x (node_postings st).
Proof. unfold memtable_postings, node_postings. cbn. by rewrite app_nil_r, <- list_fmap_compose. Qed.
Lemma immutable_tagged : immutable_postings self dir labels [x] = at_x (mjoin (node_postings <$> immutable self)).
Proof.
  unfold immutable_postings. induction (immutable self) as [|st epochs IH]; [done|].
  by rewrite !join_fmap_cons, fmap_app, IH, node_postings_tagged.
Qed.
Lemma epochs_each w :
  foldl (fun w epoch => fst (for_each_adj_entry_at epoch x labels (snapshot_seq self) (epoch_callback time nodes edges) dir w)) w (immutable self)
  = fst (each older_step (mjoin (node_postings <$> immutable self)) w).
Proof.
  revert w. induction (immutable self) as [|st epochs IH]; intros w; [done|]. cbn [foldl]. rewrite IH, join_fmap_cons, each_app.
  rewrite for_each_adj_entry_each, (each_ext (epoch_callback time nodes edges) older_step) by apply epoch_step. fold (node_postings st).
  assert (snd (each older_step (node_postings st) w) = false) as Hs.
  { generalize (node_postings st), w. clear. intros l. induction l as [|p l IH]; intros w; [done|]. cbn [each]. unfold older_step at 1.
    destruct (bool_decide _); apply IH. }
  destruct (each older_step (node_postings st) w) as [w' stop]. cbn in Hs. by subst stop.
Qed.
Lemma segments_walk w segs : exists w' postings,
  segment_stream (SegmentAdjacency0 := walk_adjacency) dir labels [x] segs
  = (at_x postings, match walk_segments x dir labels time nodes edges segs w with Ok _ => None | Err e => Some e end)
  /\ each older_step postings w = (w', false)
  /\ forall w2, walk_segments x dir labels time nodes edges segs w = Ok w2 -> w2 = w'.
Proof.
  revert w. induction segs as [|seg segs IH]; intros w; [exists w, []; split_and!; [done..|]; by intros w2 <-%Ok_inj|].
  cbn [segment_stream walk_segments adj_postings_batch walk_adjacency walk_batch]. unfold for_each_adj_posting.
  destruct (adj_postings seg x dir labels) as [postings failure].
  rewrite (each_ext (segment_callback time nodes edges) older_step) by apply segment_step.
  assert (exists w1, each older_step postings w = (w1, false)) as [w1 Ew].
  { clear. revert w. induction postings as [|p l IH]; intros w; [by exists w|]. cbn [each]. unfold older_step at 1.
    destruct (bool_decide _); apply IH. }
  rewrite Ew. destruct failure as [e|]; [by exists w1, postings|]. cbn [mbind result_bind]. destruct (IH w1) as (w' & more & -> & Em & Hw).
  exists w', (postings ++ more). rewrite app_nil_r, fmap_app. split; [done|]. rewrite each_app, Ew. done.
Qed.

(** The walk counts the arcs of the node. *)
Lemma walk_counts_arcs :
  match degree_stats_raw_walk self x dir labels time with
  | Ok (count, _) => snd node_arcs = None /\ count = len (fst node_arcs)
  | Err e => snd node_arcs = Some e
  end.
Proof.
  unfold degree_stats_raw_walk, degree_stats_raw_walk_inner, collect_tombstones. rewrite for_each_adj_entry_each. fold (node_postings (active self)).
  destruct (newest_count (node_postings (active self)) (mkWalk ∅ 0 0) ∅) as (w1 & -> & Hc1 & Hs1); [by intros e; cbn; set_solver|].
  rewrite epochs_each. destruct (each older_step (mjoin _) w1) as [w2 stop] eqn:E2. cbn [fst].
  destruct (segments_walk w2 (segments self)) as (w3 & postings & Es & E3 & Hw).
  destruct (older_count (mjoin (node_postings <$> immutable self) ++ postings) w1 _ Hs1) as (w' & E & Hc).
  rewrite each_app, E2 in E. destruct stop; [done|]. rewrite E3 in E. injection E as <-.
  unfold expansion_arcs. change (sort_ids [x]) with [x]. cbn zeta. rewrite Es, node_postings_tagged, immutable_tagged, <- (fmap_app (pair x)).
  destruct (walk_segments _ _ _ _ _ _ (segments self) w2) as [w4|e]; [|done]. cbn [mbind result_bind fst snd]. specialize (Hw w4 eq_refl) as ->.
  split; [done|]. rewrite Hc, Hc1, length_app, !length_fmap, union_empty_r_L. cbn [wk_count]. unfold kept. lia.
Qed.

(** ** The edges counted *)
Hypothesis Hlayered : layered edge_in self.
Lemma newest_nodup : NoDup (ps_edge_id <$> node_postings (active self)).
Proof.
  destruct (ly_built _ _ Hlayered (active self) ltac:(left)) as (ops & st0 & Hf & Hs & Hr). unfold node_postings, neighbors_at.
  rewrite <- list_fmap_compose. exact (adjacent_nodup ops st0 (active self) Hf Hs Hr true x dir labels (snapshot_seq self)).
Qed.
Lemma keys_ids l : (forall q, q ∈ l -> fst q = x) -> NoDup (edge_key <$> l) -> NoDup ((fun q : Tagged => ps_edge_id (snd q)) <$> l).
Proof.
  intros Hl. induction l as [|[n p] l IH]; [intros _; constructor|]. rewrite !fmap_cons, !NoDup_cons. intros [Hn Hd]. split; [|apply IH; [intros q ?; apply Hl; by right|done]].
  intros ([n' p'] & E & Hin)%list_elem_of_fmap. apply Hn, list_elem_of_fmap. exists (n', p'). split; [|done].
  pose proof (Hl (n, p) ltac:(left)) as E1. pose proof (Hl (n', p') ltac:(by right)) as E2. cbn in *. unfold edge_key. cbn. congruence.
Qed.
Lemma node_arcs_nodup : NoDup (snd <$> fst node_arcs).
Proof.
  unfold expansion_arcs. change (sort_ids [x]) with [x]. cbn zeta. destruct (segments_walk (mkWalk ∅ 0 0) (segments self)) as (w & postings & -> & _). cbn [fst].
  rewrite node_postings_tagged, immutable_tagged, <- (fmap_app (pair x)), fmap_app. rewrite <- !list_fmap_compose.
  change (snd ∘ arc_of) with (fun q : Tagged => ps_edge_id (snd q)). apply NoDup_app. split_and!.
  - eapply sublist_NoDup; [|apply fmap_sublist, sublist_filter]. rewrite <- list_fmap_compose. exact newest_nodup.
  - intros e He (q & -> & [_ Hq]%list_elem_of_filter)%list_elem_of_fmap. apply unseen_elem in Hq as [Hq Hn].
    apply list_elem_of_fmap in He as (q' & E & [_ Hq']%list_elem_of_filter). apply Hn, edge_keys_elem. exists q'. split; [done|].
    apply list_elem_of_fmap in Hq as (p & -> & _). apply list_elem_of_fmap in Hq' as (p' & -> & _). unfold edge_key. cbn in *. by rewrite E.
  - eapply sublist_NoDup; [|apply fmap_sublist, sublist_filter]. apply keys_ids; [|apply unseen_nodup].
    intros q [(p & -> & _)%list_elem_of_fmap _]%unseen_elem. done.
Qed.
Lemma walk_counts :
  match degree_stats_raw_walk self x dir labels time with
  | Ok (count, _) => exists es, NoDup es /\ count = len es /\ forall e, e ∈ es <-> exists m, walk_arc edge_in self dir labels time x m e
  | Err e => exists seg, seg ∈ segments self /\ snd (adj_postings seg x dir labels) = Some e
  end.
Proof.
  pose proof walk_counts_arcs as Hw. destruct (degree_stats_raw_walk self x dir labels time) as [[count weight]|e].
  - destruct Hw as [Hok ->]. exists (snd <$> fst node_arcs). split; [apply node_arcs_nodup|]. split; [by rewrite length_fmap|].
    intros e. rewrite list_elem_of_fmap. split.
    + intros ([[n m] e'] & -> & Ha). apply (walk_arcs_sound (SegmentAdjacency0 := walk_adjacency) edge_in self Hlayered) in Ha as [->%list_elem_of_singleton Ha]. by exists m.
    + intros (m & Ha). exists (x, m, e). split; [done|].
      apply (walk_arcs_complete (SegmentAdjacency0 := walk_adjacency) edge_in self Hlayered); [done|left|done].
  - unfold expansion_arcs in Hw. change (sort_ids [x]) with [x] in Hw. cbn zeta in Hw.
    destruct (segment_stream (SegmentAdjacency0 := walk_adjacency) dir labels [x] (segments self)) as [postings failure] eqn:Es. cbn [snd] in Hw. subst failure.
    destruct (stream_failure (SegmentAdjacency0 := walk_adjacency) dir labels [x] (segments self) e) as (seg & Hin & Hf); [by rewrite Es|].
    exists seg. split; [done|]. cbn in Hf. destruct (adj_postings seg x dir labels) as [ps [e'|]]; done.
Qed.
End Count.
