(* ===== verification/EngineFastPath.v ===== *)
(** The fast path that answers a degree query from the cache counts the valid
    edges at the node: those the walk counts, and those whose other end is
    deleted, which the walk skips. *)
From S2P Require Import Prelude Types Encoding Wal PropertyValue CompoundKey Slots Memtable MemtableFacts MemtableReads MemtableSnapshots DegreeCache Manifest LabelCatalog Vectors DegreeEngine DegreeCounts Engine EngineDegrees MemtableNeighbors FilterBase NodeFilter NodeQuery SourceList SourceListFacts Adjacency AdjacencyFacts DegreeWalk DegreeWalkFacts.
Import SourceList.

(** ** Sums of deltas *)
Lemma wrap_sum_deltas k ds d z :
  counter k d = wrap_i64 z ->
  counter k (foldl Delta.add_assign_delta d ds) = wrap_i64 (z + zsum (counter k <$> ds)).
Proof.
  revert d z. induction ds as [|d' ds IH]; intros d z Hd; [cbn; by rewrite Z.add_0_r|].
  rewrite fmap_cons. change (zsum (counter k d' :: (counter k <$> ds))) with (counter k d' + zsum (counter k <$> ds)). cbn [foldl].
  rewrite (IH _ (z + counter k d')); [f_equal; lia|]. by rewrite counter_add, Hd, wrap_add_l.
Qed.
Lemma sum_segments_spec d segs d' :
  sum_segments d segs = Some d' -> exists ds, segs = Some <$> ds /\ d' = foldl Delta.add_assign_delta d ds.
Proof.
  revert d. induction segs as [|[s|] segs IH]; intros d E; cbn in E; [|apply IH in E as (ds & -> & ->)|done].
  - apply (inj Some) in E as <-. by exists [].
  - by exists (s :: ds).
Qed.
Lemma sum_segments_total d segs : Forall is_Some segs -> is_Some (sum_segments d segs).
Proof. intros Hs. revert d. induction Hs as [|? segs [s ->] _ IH]; intros d; cbn; [done|apply IH]. Qed.

(** ** Counting edges *)
Definition count_edges (p : EdgeCore -> bool) (edges : gmap Z EdgeCore) : Z :=
  Z.of_nat (size (filter (fun e => p e.2 = true) edges)).

Lemma count_fold p (edges : gmap Z EdgeCore) :
  count_edges p edges = map_fold (fun _ e sum => Z.b2z (p e) + sum) 0 edges.
Proof.
  unfold count_edges. induction edges as [|i e edges Hi IH] using map_ind; [done|].
  rewrite map_fold_insert_L by (done || intros; lia). rewrite <- IH. rewrite map_filter_insert.
  assert (filter (fun e => p e.2 = true) edges !! i = None) as Hn by (rewrite map_lookup_filter, Hi; done).
  case_decide as Hp; cbn [snd] in Hp.
  - rewrite Hp, map_size_insert_None by done. cbn. lia.
  - rewrite delete_id by done. destruct (p e); [done|]. cbn. lia.
Qed.
Lemma count_ext p q (edges : gmap Z EdgeCore) :
  (forall i e, edges !! i = Some e -> p e = q e) -> count_edges p edges = count_edges q edges.
Proof.
  intros Hpq. unfold count_edges. do 2 f_equal. apply map_filter_ext. intros i e He. cbn. by rewrite (Hpq i e He).
Qed.
Lemma count_sum p q r s (edges : gmap Z EdgeCore) :
  (forall e, Z.b2z (p e) + Z.b2z (q e) = Z.b2z (r e) + Z.b2z (s e)) ->
  count_edges p edges + count_edges q edges = count_edges r edges + count_edges s edges.
Proof.
  intros Hpq. rewrite !count_fold. induction edges as [|i e edges Hi IH] using map_ind; [done|].
  rewrite !map_fold_insert_L by (done || intros; lia). specialize (Hpq e). lia.
Qed.
Lemma count_bounds p (edges : gmap Z EdgeCore) : 0 <= count_edges p edges <= Z.of_nat (size edges).
Proof. unfold count_edges. pose proof (map_size_filter (fun e : Z * EdgeCore => p e.2 = true) edges). lia. Qed.
Lemma count_zero p (edges : gmap Z EdgeCore) i e : count_edges p edges = 0 -> edges !! i = Some e -> p e = false.
Proof.
  unfold count_edges. intros Hz He. assert (filter (fun e => p e.2 = true) edges = ∅) as Hn by (apply map_size_empty_inv; lia).
  destruct (p e) eqn:Ep; [|done]. assert (filter (fun e => p e.2 = true) edges !! i = Some e) as Hf by by apply map_lookup_filter_Some.
  by rewrite Hn, lookup_empty in Hf.
Qed.
Lemma count_pos p (edges : gmap Z EdgeCore) : count_edges p edges <> 0 -> exists i e, edges !! i = Some e /\ p e = true.
Proof.
  unfold count_edges. intros Hz. destruct (map_choose (filter (fun e => p e.2 = true) edges)) as (i & e & Hf).
  { intros Hn. apply Hz. by rewrite Hn, map_size_empty. }
  apply map_lookup_filter_Some in Hf as [? ?]. by exists i, e.
Qed.

(** The kind of edge a counter counts. *)
Definition counts (k : Counter) (x : Z) (e : EdgeCore) : bool :=
  let valid := is_edge_valid_at (ec_valid_from e) (ec_valid_to e) (ec_updated_at e) in
  let bypass := is_cache_bypass_edge (ec_valid_from e) (ec_valid_to e) (ec_created_at e) in
  match k with
  | COut => valid && (ec_from e =? x)
  | CIn => valid && (ec_to e =? x)
  | CLoop => valid && (ec_from e =? x) && (ec_to e =? x)
  | CTemporal => bypass && ((ec_from e =? x) || (ec_to e =? x))
  end.
Lemma total_counted k edges x : total k edges x = count_edges (counts k x) edges.
Proof. rewrite count_fold. unfold total. by destruct k. Qed.

Definition incident (direction : Direction) (x : Z) (e : EdgeCore) : bool :=
  match direction with
  | Outgoing => ec_from e =? x
  | Incoming => ec_to e =? x
  | Both => (ec_from e =? x) || (ec_to e =? x)
  end.
(** An edge at [x] in the direction, valid at [now]. *)
Definition valid_incident (direction : Direction) (x now : Z) (e : EdgeCore) : bool :=
  incident direction x e && is_edge_valid_at (ec_valid_from e) (ec_valid_to e) now.
Definition bypasses (e : EdgeCore) : bool := is_cache_bypass_edge (ec_valid_from e) (ec_valid_to e) (ec_created_at e).
(** The clock did not run backwards. *)
Definition sound_times (now : Z) (e : EdgeCore) : Prop :=
  ec_created_at e <= ec_updated_at e /\ ec_updated_at e <= now /\ now < i64_max.

Lemma valid_without_bypass now e :
  sound_times now e -> bypasses e = false ->
  is_edge_valid_at (ec_valid_from e) (ec_valid_to e) (ec_updated_at e) = true
  /\ is_edge_valid_at (ec_valid_from e) (ec_valid_to e) now = true.
Proof.
  unfold sound_times, bypasses, is_cache_bypass_edge, is_edge_valid_at. intros (Hc & Hu & Hn) [Ht Hf]%orb_false_iff.
  apply negb_false_iff, Z.eqb_eq in Ht. apply Z.ltb_ge in Hf. rewrite Ht, !andb_true_iff, !Z.leb_le, !Z.ltb_lt. lia.
Qed.

(** ** The fast path *)
Section FastPath.
Context (x now : Z) (edges : gmap Z EdgeCore).
Hypothesis Htimes : forall id e, edges !! id = Some e -> sound_times now e.
Hypothesis Hsize : Z.of_nat (size edges) <= u32_max.

Lemma count_small p : wrap_i64 (count_edges p edges) = count_edges p edges /\ saturating_i64_to_u32 (count_edges p edges) = count_edges p edges.
Proof.
  pose proof (count_bounds p edges). unfold u32_max in *. split; [apply wrap_small; unfold i64; lia|].
  unfold saturating_i64_to_u32, u32_max. destruct (Z.leb_spec (count_edges p edges) 0); lia.
Qed.

Lemma counts_valid :
  count_edges (counts CTemporal x) edges = 0 ->
  count_edges (counts COut x) edges = count_edges (valid_incident Outgoing x now) edges
  /\ count_edges (counts CIn x) edges = count_edges (valid_incident Incoming x now) edges
  /\ count_edges (counts COut x) edges + count_edges (counts CIn x) edges
     = count_edges (valid_incident Both x now) edges + count_edges (counts CLoop x) edges.
Proof.
  intros Hz. assert (forall i e, edges !! i = Some e -> (ec_from e =? x) || (ec_to e =? x) = true ->
    is_edge_valid_at (ec_valid_from e) (ec_valid_to e) (ec_updated_at e) = true
    /\ is_edge_valid_at (ec_valid_from e) (ec_valid_to e) now = true) as Hv.
  { intros i e He Hx. apply valid_without_bypass; [by eapply Htimes|].
    pose proof (count_zero _ _ _ _ Hz He) as Hc. cbn in Hc. rewrite Hx, andb_true_r in Hc. exact Hc. }
  split; [|split].
  - apply count_ext. intros i e He. unfold counts, valid_incident, incident. destruct (ec_from e =? x) eqn:Ef; [|by rewrite andb_false_r].
    destruct (Hv i e He) as [-> ->]; [by rewrite Ef|done].
  - apply count_ext. intros i e He. unfold counts, valid_incident, incident. destruct (ec_to e =? x) eqn:Et; [|by rewrite andb_false_r].
    destruct (Hv i e He) as [-> ->]; [by rewrite Et, orb_true_r|done].
  - rewrite (count_ext (valid_incident Both x now) (fun e => is_edge_valid_at (ec_valid_from e) (ec_valid_to e) (ec_updated_at e)
      && ((ec_from e =? x) || (ec_to e =? x)))).
    + apply count_sum. intros e. unfold counts. destruct (is_edge_valid_at _ _ _), (ec_from e =? x), (ec_to e =? x); reflexivity.
    + intros i e He. unfold valid_incident, incident. destruct ((ec_from e =? x) || (ec_to e =? x)) eqn:Ex; [|by rewrite andb_false_r].
      by destruct (Hv i e He Ex) as [-> ->].
Qed.

Lemma fast_path_counts d direction :
  (forall k, counter k d = wrap_i64 (total k edges x)) ->
  match degree_fast_path_result (Some d) direction with
  | Some (count, _) => count = count_edges (valid_incident direction x now) edges
  | None => exists id e, edges !! id = Some e /\ bypasses e = true /\ incident Both x e = true
  end.
Proof.
  intros Hd. assert (forall k, saturating_i64_to_u32 (counter k d) = count_edges (counts k x) edges) as Hc.
  { intros k. rewrite Hd, total_counted. by rewrite !(proj1 (count_small _)), (proj2 (count_small _)). }
  pose proof (Hc COut) as Ho. pose proof (Hc CIn) as Hi. pose proof (Hc CLoop) as Hl. pose proof (Hc CTemporal) as Ht.
  cbn [counter] in Ho, Hi, Hl, Ht. unfold degree_fast_path_result, degree_entry_fast_path, apply_delta.
  cbn [mbind option_bind de_temporal_edge_count]. rewrite Ho, Hi, Hl, Ht.
  destruct (Z.eqb_spec (count_edges (counts CTemporal x) edges) 0) as [Hz|Hz].
  - destruct (counts_valid Hz) as (H1 & H2 & H3). pose proof (count_bounds (counts COut x) edges). pose proof (count_bounds (counts CIn x) edges).
    pose proof (count_bounds (valid_incident Both x now) edges). unfold degree_entry_stats. unfold u32_max, u64_max in *.
    destruct direction; cbn [mbind option_bind de_out_degree de_in_degree de_self_loop_count]; [done..|lia].
  - destruct (count_pos _ _ Hz) as (i & e & He & Hp). exists i, e. cbn in Hp. apply andb_true_iff in Hp. by destruct Hp.
Qed.
End FastPath.

(** ** The walk *)
Section WalkCount.
Context `{RmpValue, HashOrderLaws} {Segment : Type} `{!SegmentReads Segment, !SegmentAdjacency Segment, !SegmentWalk Segment}.
Context (edge_in : Segment -> Z -> option EdgeRecord) `{!SegmentAdjacencyLaws edge_in, !SegmentWalkLaws edge_in}.
Context (view : SourceList (Segment := Segment)) (x : Z) (direction : Direction) (now : Z) (edges : gmap Z EdgeCore).

Definition other_end (e : EdgeCore) : Z :=
  match direction with
  | Outgoing => ec_to e
  | Incoming => ec_from e
  | Both => if ec_from e =? x then ec_to e else ec_from e
  end.
(** The valid edges at [x] whose other end the walk finds deleted. *)
Definition dangling : Z :=
  Z.of_nat (size (filter (fun '(id, e) => valid_incident direction x now e && negb (end_standing view id (other_end e)) = true) edges)).

Lemma touches_incident r m : touches direction r x m <-> incident direction x (core_of r) = true /\ m = other_end (core_of r).
Proof.
  unfold touches, incident, other_end, core_of. cbn [ec_from ec_to].
  destruct direction; rewrite ?orb_true_iff, ?Z.eqb_eq; [naive_solver..|]. destruct (Z.eqb_spec (er_from r) x); naive_solver congruence.
Qed.
Lemma standing_split :
  count_edges (valid_incident direction x now) edges
  = Z.of_nat (size (filter (fun '(id, e) => valid_incident direction x now e && end_standing view id (other_end e) = true) edges)) + dangling.
Proof.
  unfold count_edges, dangling. rewrite <- Nat2Z.inj_add. f_equal.
  assert (filter (fun '(id, e) => valid_incident direction x now e && end_standing view id (other_end e) = true) edges
    ##ₘ filter (fun '(id, e) => valid_incident direction x now e && negb (end_standing view id (other_end e)) = true) edges) as Hdisj.
  { apply map_disjoint_spec. intros id e e' [E [_ Hs]%andb_true_iff]%map_lookup_filter_Some [E' [_ Hns]%andb_true_iff]%map_lookup_filter_Some.
    rewrite E in E'. injection E' as <-. by rewrite Hs in Hns. }
  rewrite <- map_size_disj_union by done. f_equal. apply map_eq. intros id. apply option_eq. intros e.
  rewrite lookup_union_Some, !map_lookup_filter_Some by done. cbn.
  destruct (valid_incident direction x now e), (end_standing view id (other_end e)); cbn; naive_solver.
Qed.
Lemma length_keys (P : Z * EdgeCore -> Prop) `{!forall y, Decision (P y)} (es : list Z) :
  NoDup es -> (forall id, id ∈ es <-> exists e, edges !! id = Some e /\ P (id, e)) -> length es = size (filter P edges).
Proof.
  intros Hd He. rewrite <- size_dom. rewrite <- (size_list_to_set (C := gset Z) es Hd). f_equal. apply set_eq. intros id.
  rewrite elem_of_list_to_set, He, elem_of_dom. unfold is_Some. setoid_rewrite map_lookup_filter_Some. done.
Qed.
Lemma walk_counts_edges :
  layered edge_in view -> (forall id, core_of <$> shown ms_edges is_edge_deleted edge_in view id = edges !! id) -> node_tombstoned view x = false ->
  match degree_stats_raw_walk view x direction None now with
  | Ok (walked, _) => count_edges (valid_incident direction x now) edges = walked + dangling
  | Err e => exists seg, seg ∈ segments view /\ snd (adj_postings seg x direction None) = Some e
  end.
Proof.
  intros Hlay Hview Hx. pose proof (walk_counts edge_in view x direction None now Hx Hlay) as Hw.
  destruct (degree_stats_raw_walk view x direction None now) as [[walked ?]|e]; [|done].
  destruct Hw as (es & Hd & -> & He). rewrite standing_split. f_equal. f_equal. symmetry. apply length_keys; [done|]. intros id. rewrite He. split.
  - intros (m & r & Hs & [Hi ->]%touches_incident & _ & Hv & _ & Hm). exists (core_of r). rewrite <- Hview, Hs. split; [done|].
    unfold valid_incident. by rewrite Hi, Hm, andb_true_r.
  - intros (e & Hid & Hp). rewrite <- Hview in Hid. apply fmap_Some in Hid as (r & Hs & ->).
    apply andb_true_iff in Hp as [[Hi Hv]%andb_true_iff Hm]. exists (other_end (core_of r)), r. split_and!; [done|by apply touches_incident|exact I|done| |done].
    by apply untombed_standing.
Qed.
End WalkCount.

Section Cache.
Context `{Schemas, RmpSerde, Crc32, RmpValue, HashOrderLaws, Sharing, UnstableSort}.

(** The sum of the older sources alone. *)
Definition older_sum (c : EngineCore) (node_id : Z) : option DegreeDelta :=
  epochs ← mapM (fun epoch => Overlay.get (ep_degree_overlay epoch) node_id) (co_immutable_epochs c);
  degree_delta_sum Delta.ZERO epochs ((fun segment => sg_degree_delta segment node_id) <$> co_segments c).

Lemma degree_delta_sum_split k active epochs segs d0 z :
  degree_delta_sum Delta.ZERO epochs segs = Some d0 -> counter k active = wrap_i64 z ->
  exists d, degree_delta_sum active epochs segs = Some d /\ counter k d = wrap_i64 (z + counter k d0).
Proof.
  unfold degree_delta_sum. intros E Ha. destruct (sum_segments_spec _ _ _ E) as (ds & -> & ->).
  assert (forall d, sum_segments d (Some <$> ds) = Some (foldl Delta.add_assign_delta d ds)) as Hs.
  { clear. induction ds as [|d' ds IH]; intros d; [done|]. apply IH. }
  eexists. split; [apply Hs|].
  rewrite (wrap_sum_deltas k ds _ _ (wrap_sum_deltas k epochs _ _ Ha)).
  assert (counter k Delta.ZERO = wrap_i64 0) as Hz by by destruct k.
  rewrite (wrap_sum_deltas k ds _ _ (wrap_sum_deltas k epochs _ _ Hz)), wrap_add_r. f_equal. lia.
Qed.

(** The fast path counts the valid edges. *)
Lemma fast_path_sum base c0 cs c x now direction d0 :
  fresh_generation c0 -> run_commits c0 cs = Some c -> Forall (Forall op_ok) cs ->
  co_engine_seq c0 + len (mjoin cs) <= u64_max ->
  (forall id, edge_core_from_epochs (co_immutable_epochs c0) (co_segments c0) id = Ok (base !! id)) ->
  older_sum c0 x = Some d0 -> (forall k, counter k d0 = wrap_i64 (total k base x)) ->
  let edges := foldl (fun m op => edges_after op m) base (mjoin cs) in
  (forall id e, edges !! id = Some e -> sound_times now e) -> Z.of_nat (size edges) <= u32_max ->
  match degree_fast_path_result (node_degree_delta_sum c x) direction with
  | Some (count, _) => count = count_edges (valid_incident direction x now) edges
  | None => exists id e, edges !! id = Some e /\ bypasses e = true /\ incident Both x e = true
  end.
Proof.
  intros Hfresh E Hok Hmax Hbase Hold Hd0 edges Htimes Hsize.
  destruct (run_counts base c0 cs c base E Hok Hmax (fresh_counted base c0 Hfresh Hbase)) as ((_ & _ & Hlay & Hc) & (_ & He & Hsg)).
  unfold older_sum in Hold. apply bind_Some in Hold as (epochs & Hep & Hold).
  unfold node_degree_delta_sum. rewrite He, Hsg.
  destruct (shard_exists (co_active_degree_overlay c) x Hlay) as [shard Hs]. specialize (fun k => Hc k x) as Hc'.
  unfold overlay_count in Hc'. rewrite (get_shard _ _ _ Hs) in Hc' |- *. cbn [mbind option_bind default] in *. unfold mbind in Hep |- *.
  rewrite Hep. cbn [option_bind].
  destruct (degree_delta_sum_split COut (default Delta.ZERO (shard !! x)) epochs _ d0 _ Hold (Hc' COut)) as (d & Ed & _).
  rewrite Ed. apply fast_path_counts; [done|done|]. intros k.
  destruct (degree_delta_sum_split k (default Delta.ZERO (shard !! x)) epochs _ d0 _ Hold (Hc' k)) as (d' & Ed' & Hk).
  rewrite Ed in Ed'. apply (inj Some) in Ed' as <-. rewrite Hk, Hd0, wrap_add_r. f_equal. fold edges. lia.
Qed.

Context {Segment : Type} `{!SegmentReads Segment, !SegmentAdjacency Segment, !SegmentWalk Segment}.
Context (edge_in : Segment -> Z -> option EdgeRecord) `{!SegmentAdjacencyLaws edge_in, !SegmentWalkLaws edge_in}.

End Cache.
