(* ===== verification/EngineWitness.v ===== *)
(** What a failed sync leaves behind, and a concrete run of the engine: the
    theorems about runs of commits applied to it, and what its cached weight
    sums show. *)
From S2P Require Import Prelude Types Encoding Wal WalFacts PropertyValue CompoundKey Slots Memtable MemtableReads DegreeCache Manifest LabelCatalog LabelCatalogFacts Vectors DegreeEngine Engine EngineDegrees EngineRecovery MemtableFacts MemtableWitness Floats DegreeCounts MemtableSnapshots NodeQuery SourceList SourceListFacts Adjacency AdjacencyFacts DegreeWalk DegreeWalkFacts EngineFastPath.
Import SourceList.

Section FailedSync.
Context `{Schemas, RmpSerdeLaws, Crc32Laws, RmpValue, HashOrderLaws, Sharing, UnstableSortLaws}.
Context (config : option DenseVectorConfig).

Lemma label_encodes label id t fresh :
  Catalog.reserve t label = Ok (id, fresh) -> label_to_id t !! label = None ->
  exists buf, encode_wal_op (EnsureNodeLabel label id) = Ok buf.
Proof.
  unfold Catalog.reserve. intros E Hl. rewrite Hl in E. apply bind_Ok_inv in E as ([] & Hv & _).
  assert (is_ok (encode_wal_op (EnsureNodeLabel label id)) = true) as Ho.
  { apply encode_ok_iff. cbn. unfold validate_label_token_name in Hv. case_decide; [done|]. destruct (Z.ltb_spec 255 (len label)); [done|lia]. }
  destruct (encode_wal_op _) as [buf|]; [by exists buf|done].
Qed.

(** Committing the creation of a label the catalog reserved. *)
Lemma commit_label sync c label id :
  tokens_ok (cat_node (co_label_catalog c)) -> Catalog.reserve (cat_node (co_label_catalog c)) label = Ok (id, true) ->
  exists n wal,
    append (co_wal c) (EnsureNodeLabel label id) (co_engine_seq c + 1) = Ok (wal, n)
    /\ match sync with
       | Err e => commit_ops sync c [EnsureNodeLabel label id] = Some (set_wal wal c, Err e)
       | Ok _ => exists c', commit_ops sync c [EnsureNodeLabel label id] = Some (c', Ok tt) /\ co_wal c' = wal
       end.
Proof.
  intros Hok Hr. pose proof (reserve_spec _ _ _ _ Hok Hr) as (Hl & Hi & Hid & Hv). cbn in Hid.
  destruct (label_encodes _ _ _ _ Hr Hl) as [buf Hb].
  assert (exists n wal, append (co_wal c) (EnsureNodeLabel label id) (co_engine_seq c + 1) = Ok (wal, n)) as (n & wal & Ha).
  { unfold append. rewrite Hb. cbn. by eexists _, _. }
  exists n, wal. split; [done|]. unfold commit_ops, append_and_apply_one_normalized, old_edge_from. cbn [edge_id_for_degree_op].
  rewrite Ha. cbn [wal_append]. destruct sync as [[]|e]; [|done].
  destruct (apply_label_ok (cat_node (co_label_catalog c)) label id (Some (co_active_wal_generation_id c)) Hv) as [t' Ht'];
    [lia|by right|].
  unfold apply_label_op. cbn [Catalog.apply_label_token_op_after_wal_append set_engine_seq set_wal co_label_catalog co_active_wal_generation_id].
  unfold Catalog.apply_node_label. rewrite Ht'. cbn [mbind result_bind is_ensure option_bind apply_op collect_degree_delta_for_op].
  unfold apply_degree_deltas. rewrite decide_True by done. cbn [mbind option_bind]. by eexists.
Qed.

(** Replaying the creation of a label is applying it to the catalog. *)
Lemma replay_label wal_generation_id epochs segments st seq label id :
  replay_one config wal_generation_id epochs segments st seq (EnsureNodeLabel label id)
  = match Catalog.apply_node_label (rp_catalog st) label id (Some wal_generation_id) with
    | Err e => Some (Err e)
    | Ok catalog => Some (Ok (mkReplay (rp_memtable st) (rp_deltas st) catalog (Z.max (rp_engine_seq st) seq)))
    end.
Proof.
  unfold replay_one.
  cbn [normalize_wal_op_for_replay normalize_wal_op_for_write Catalog.validate_or_apply_replayed_label_token_op].
  destruct Catalog.apply_node_label as [catalog|e]; reflexivity.
Qed.

Lemma reserved_applies c label id wal_generation_id :
  tokens_ok (cat_node c) -> Catalog.reserve (cat_node c) label = Ok (id, true) ->
  exists c', Catalog.apply_node_label c label id (Some wal_generation_id) = Ok c'
    /\ (forall l, label <> l -> label_to_id (cat_node c') !! l = label_to_id (cat_node c) !! l)
    /\ id_to_label (cat_node c') !! id = Some label.
Proof.
  intros Hok Hr. destruct (reserve_spec _ _ _ _ Hok Hr) as (Hl & Hi & Hid & Hv).
  unfold Catalog.apply_node_label, Catalog.apply_label. rewrite Hv, Hl, Hi. cbn [mbind result_bind].
  rewrite (proj2 (Z.eqb_neq id 0)) by lia. cbn [mbind result_bind]. eexists. split; [done|].
  cbn [cat_node label_to_id id_to_label]. split; [intros l Hne; by rewrite lookup_insert_ne|]. by rewrite lookup_insert_eq.
Qed.

(** C31.  A failed sync can lock the database.  In a fresh generation, create a
    label; let the sync fail after the bytes reached the file, so that the
    caller gets the error and the engine forgets the label; then create another
    one.  It gets the id of the first and its commit succeeds.  Both records are
    in the log with the same sequence number, and opening the database is
    refused as corrupt. *)
Theorem failed_sync_blocks_open c0 l1 l2 id e :
  fresh_generation c0 -> tokens_ok (cat_node (co_label_catalog c0)) -> co_engine_seq c0 + 1 <= u64_max -> l1 <> l2 ->
  Catalog.reserve_node_label (co_label_catalog c0) l1 = Ok (id, true) ->
  Catalog.reserve_node_label (co_label_catalog c0) l2 = Ok (id, true) ->
  committable config (EnsureNodeLabel l1 id) -> committable config (EnsureNodeLabel l2 id) ->
  exists c1 c2,
    commit_ops (Err e) c0 [EnsureNodeLabel l1 id] = Some (c1, Err e)
    /\ Catalog.reserve_node_label (co_label_catalog c1) l2 = Ok (id, true)
    /\ commit_ops (Ok tt) c1 [EnsureNodeLabel l2 id] = Some (c2, Ok tt)
    /\ replay_wal_generation config (co_active_wal_generation_id c0) (co_immutable_epochs c0) (co_segments c0)
         (Some (co_wal c2)) (co_label_catalog c0) (co_engine_seq c0)
       = Some (Err (CorruptWal "label token conflict: label_id is assigned to both")).
Proof.
  intros (Hw & Hm & Ho & Hs) Hok Hmax Hne Hr1 Hr2 Hc1 Hc2. unfold Catalog.reserve_node_label in *.
  destruct (commit_label (Err e) c0 l1 id Hok Hr1) as (n1 & wal1 & Ha1 & Hcommit1).
  destruct (commit_label (Ok tt) (set_wal wal1 c0) l2 id Hok Hr2) as (n2 & wal2 & Ha2 & (c2 & Hcommit2 & Hwal2)).
  exists (set_wal wal1 c0), c2. split; [done|]. split; [done|]. split; [done|].
  cbn [set_wal co_wal co_engine_seq] in Ha2. set (seq := co_engine_seq c0 + 1) in *.
  assert (forall l, committable config (EnsureNodeLabel l id) -> rec_ok (seq, EnsureNodeLabel l id)) as Hrec.
  { intros l (_ & Hmk & Hwf & Hf). split; [unfold seq, u64, u64_max in *; cbn; lia|by split]. }
  assert (read_path (Some (co_wal c2)) = Ok (mkReadResult [(seq, EnsureNodeLabel l1 id); (seq, EnsureNodeLabel l2 id)] (len (co_wal c2)))) as Hread.
  { rewrite <- (app_nil_r (co_wal c2)) at 1. rewrite Hwal2. rewrite Hw in Ha1.
    apply (read_path_calls [CAppend seq (EnsureNodeLabel l1 id); CAppend seq (EnsureNodeLabel l2 id)]); [|
      cbn [write_calls do_call]; rewrite Ha1; cbn [mbind result_bind]; by rewrite Ha2|done].
    apply Forall_cons_2; [by apply Hrec|]. apply Forall_cons_2; [by apply Hrec|apply Forall_nil_2]. }
  unfold replay_wal_generation. rewrite Hread. cbn [rr_records replay_records].
  pose proof (reserve_spec _ _ _ _ Hok Hr1) as (Hl1 & Hi & Hid & Hv1). pose proof (reserve_spec _ _ _ _ Hok Hr2) as (Hl2 & _ & _ & Hv2). cbn in Hid.
  rewrite replay_label. cbn [rp_catalog].
  destruct (reserved_applies _ _ _ (co_active_wal_generation_id c0) Hok Hr1) as (catalog & Hfirst & Hname & Hused).
  rewrite Hfirst. cbn [mbind option_bind]. rewrite replay_label. cbn [rp_catalog].
  unfold Catalog.apply_node_label at 1, Catalog.apply_label. rewrite Hv2. cbn [mbind result_bind].
  rewrite (proj2 (Z.eqb_neq id 0)) by lia. by rewrite (Hname l2 Hne), Hl2, Hused.
Qed.
End FailedSync.

(** ** A concrete run of the engine: the theorems about runs of commits applied to
    it, and what its cached weight sums show. *)
Module EngineWitness.
#[local] Existing Instance SampleLog.crc. #[local] Existing Instance SampleLog.crc_laws.
#[local] Existing Instance Sample.rmp. #[local] Existing Instance Sample.rmp_laws.
#[local] Existing Instance MemtableWitness.rmp.
#[local] Existing Instance MemtableWitness.hash_order. #[local] Existing Instance MemtableWitness.hash_order_laws.
Definition schemas : Schemas := {|
  NodeSchemaManifestEntry := Z; EdgeSchemaManifestEntry := Z; node_schema_id := id; edge_schema_id := id;
  normalize_node_schema_entry e := (e, false); normalize_edge_schema_entry e := (e, false);
  validate_schema_entries _ _ _ _ := Ok tt
|}.
#[local] Existing Instance schemas.
Definition sharing : Sharing := {| owned_shard _ _ _ := true |}.
#[local] Existing Instance sharing.

Definition dim_le (a b : Z * Z) : Prop := a.1 <= b.1.
#[local] Instance dim_le_dec : RelDecision dim_le := fun a b => decide (a.1 <= b.1).
#[local] Instance dim_le_total : Total dim_le.
Proof. intros a b. unfold dim_le. lia. Qed.
#[local] Instance dim_le_trans : Transitive dim_le.
Proof. intros a b c. unfold dim_le. lia. Qed.
Definition sort : UnstableSort := {| sort_unstable_by_dimension l := merge_sort dim_le l |}.
#[local] Existing Instance sort.
Lemma sort_laws : UnstableSortLaws.
Proof.
  split; intros l; cbn; [apply merge_sort_Permutation|].
  pose proof (StronglySorted_merge_sort dim_le l) as Hs. induction Hs as [|a l' Hs IH Ha]; [constructor|].
  rewrite fmap_cons. constructor; [done|]. rewrite Forall_fmap. eapply Forall_impl; [exact Ha|]. done.
Qed.
#[local] Existing Instance sort_laws.

Definition edge (id from to weight : Z) : EdgeRecord := mkEdgeRecord id from to 1 [] 5 5 weight 0 i64_max 0.
(** The weights 1.0 and 2^60, as [f32] bits. *)
Definition one : Z := 0x3f800000.
Definition huge : Z := 0x5d800000.

Definition commits : list (list WalOp) :=
  [[EnsureEdgeLabel (str_of "KNOWS") 1; UpsertEdge (edge 10 1 2 one)]; [UpsertEdge (edge 11 1 3 huge)]; [DeleteEdge 11 40]].
Definition c0 : EngineCore :=
  mkCore _ write_wal_header 0 (mkCatalog (mkTokens ∅ ∅ ∅ 1) (mkTokens ∅ ∅ ∅ 1)) default_manifest 7 empty_state Overlay.empty [] [].
Definition c : EngineCore := default c0 (run_commits c0 commits).

Lemma engine_run : run_commits c0 commits = Some c.
Proof. vm_compute. reflexivity. Qed.
Lemma fresh : fresh_generation c0.
Proof. by split. Qed.

Lemma ops_committable : Forall (Forall (committable None)) commits.
Proof.
  assert (forall op, normalize_wal_op_for_write None op = Ok op -> is_marker op = false -> op_wf op ->
    match encode_wal_op op with Ok b => 8 + len b <=? MAX_WAL_RECORD_SIZE | Err _ => true end = true -> committable None op) as Hop.
  { intros op Hn Hm Hw Hf. split; [by exists op|]. split; [done|]. split; [done|].
    intros buf Hb. rewrite Hb in Hf. by apply Z.leb_le. }
  assert (forall id from to w, u64 id -> u64 from -> u64 to -> u32 w -> op_wf (UpsertEdge (edge id from to w))) as He.
  { intros. red. unfold edge_wf. by split_and!. }
  unfold commits. repeat (apply Forall_cons_2 || apply Forall_nil_2); apply Hop; try done; try (vm_compute; reflexivity); try (by apply He).
Qed.
Lemma ops_ok : Forall (Forall op_ok) commits.
Proof.
  assert (forall id from to w, u64 id -> u64 from -> u64 to -> u32 w -> op_ok (UpsertEdge (edge id from to w))) as He.
  { intros. split; [|by repeat constructor]. unfold edge_wf. by split_and!. }
  unfold commits. repeat (apply Forall_cons_2 || apply Forall_nil_2); try done; by apply He.
Qed.

(** Cut five bytes off the log: the last commit is lost, and only that. *)
Lemma crash_recovery_witness :
  exists n cn st overlay,
    run_commits c0 (take n commits) = Some cn
    /\ replay_wal_generation None 7 [] [] (Some (take (length (co_wal c) - 5) (co_wal c))) (co_label_catalog c0) 0
       = Some (Ok (st, overlay, len (co_wal cn)))
    /\ rp_memtable st = co_memtable cn.
Proof.
  destruct (crash_recovery None c0 commits c (length (co_wal c) - 5) fresh engine_run ops_committable)
    as (n & cn & st & overlay & _ & Hrun & _ & Hreplay & _ & Hm & _).
  - by vm_compute.
  - split; apply Nat.leb_le; vm_compute; reflexivity.
  - exists n, cn, st, overlay. exact (conj Hrun (conj Hreplay Hm)).
Defined.

Lemma no_older_edges id : edge_core_from_epochs (co_immutable_epochs c0) (co_segments c0) id = Ok ((∅ : gmap Z EdgeCore) !! id).
Proof. by rewrite lookup_empty. Qed.

Definition edges : gmap Z EdgeCore := foldl (fun m op => edges_after op m) ∅ (mjoin commits).

Lemma degree_cache_counts_witness :
  (forall id, get_edge_core_for_cache c id = Ok (edges !! id))
  /\ overlay_count COut (co_active_degree_overlay c) 1 = 1.
Proof.
  destruct (degree_cache_counts_edges ∅ c0 commits c fresh engine_run ops_ok) as [Hk Hc]; [by vm_compute|exact no_older_edges|].
  split; [exact Hk|]. rewrite (Hc COut 1). vm_compute. reflexivity.
Defined.

(** ** A view without segments, and an edge written to a deleted node *)
#[local] Instance no_segment_reads : SegmentReads Empty_set := {|
  is_node_deleted (seg : Empty_set) := match seg with end; is_edge_deleted (seg : Empty_set) := match seg with end;
  get_node (seg : Empty_set) := match seg with end; get_edge (seg : Empty_set) := match seg with end;
  get_nodes_batch (seg : Empty_set) := match seg with end; get_edges_batch (seg : Empty_set) := match seg with end;
  get_edge_metadata_batch (seg : Empty_set) := match seg with end; get_node_meta_batch (seg : Empty_set) := match seg with end;
  get_node_selected_fields_batch _ (seg : Empty_set) := match seg with end; get_edge_selected_fields_batch _ (seg : Empty_set) := match seg with end
|}.
#[local] Instance no_segment_adjacency : SegmentAdjacency Empty_set := {|
  adj_postings_batch (seg : Empty_set) := match seg with end; deleted_node_ids (seg : Empty_set) := match seg with end; deleted_edge_ids (seg : Empty_set) := match seg with end
|}.
#[local] Instance no_segment_walk : SegmentWalk Empty_set := {| adj_postings (seg : Empty_set) := match seg with end |}.
Definition no_edge (seg : Empty_set) : Z -> option EdgeRecord := match seg with end.
#[local] Instance no_segment_laws : SegmentAdjacencyLaws no_edge.
Proof. split; intros []. Qed.
#[local] Instance no_segment_walk_laws : SegmentWalkLaws no_edge.
Proof. split; intros []. Qed.

(** Node 2 is created and deleted, then the edge from 1 to 2 is written. *)
Definition dangling_commits : list (list WalOp) :=
  [[EnsureNodeLabel (str_of "PERSON") 1; EnsureEdgeLabel (str_of "KNOWS") 1; UpsertNode (MemtableWitness.node 2 [1] "b" 5)]; [DeleteNode 2 6]; [UpsertEdge (edge 10 1 2 one); UpsertEdge (edge 11 1 3 one)]].
Definition dangling_core : EngineCore := default c0 (run_commits c0 dangling_commits).
Definition dangling_ops : list (Z * WalOp) := sequence_from 0 (mjoin dangling_commits).
Definition dangling_view : SourceList := mkSources (co_memtable dangling_core) [] ([] : list Empty_set) 9.
Lemma dangling_ops_ok : Forall (Forall op_ok) dangling_commits.
Proof.
  assert (forall id from to, u64 id -> u64 from -> u64 to -> op_ok (UpsertEdge (edge id from to one))) as He.
  { intros id from to ? ? ?. split; [|by repeat constructor]. unfold edge_wf. by split_and!. }
  unfold dangling_commits. repeat (apply Forall_cons_2 || apply Forall_nil_2); try done; try (by apply He).
  apply MemtableWitness.node_sample_ok; try done; [|by repeat constructor].
  unfold NodeLabels.canonical, MAX_NODE_LABELS_PER_NODE. split_and!; [done|cbn; lia|repeat constructor|set_solver by lia].
Qed.
Lemma dangling_layered : layered no_edge dangling_view.
Proof.
  apply (layered_checked no_edge (fun seg : Empty_set => match seg with end)); [intros []| |vm_compute; reflexivity].
  intros st [->|Hst]%elem_of_cons; [|by apply not_elem_of_nil in Hst]. exists dangling_ops, empty_state.
  split; [exact MemtableWitness.fresh_empty|]. split; [|vm_compute; reflexivity].
  split; [by repeat constructor|]. pose proof dangling_ops_ok as Hok. unfold dangling_commits in Hok.
  repeat match goal with H : Forall _ (_ :: _) |- _ => apply Forall_cons in H as [? H] end.
  unfold dangling_ops, dangling_commits. cbn. repeat (apply Forall_cons_2 || apply Forall_nil_2); by split.
Qed.

Definition dangling_edges : gmap Z EdgeCore := list_to_map [(10, core_of (edge 10 1 2 one)); (11, core_of (edge 11 1 3 one))].
Lemma dangling_times id e : dangling_edges !! id = Some e -> sound_times 100 e.
Proof.
  intros Hid. apply elem_of_list_to_map_2 in Hid.
  do 2 (apply elem_of_cons in Hid as [E|Hid]; [injection E as -> ->; unfold sound_times, i64_max; cbn; lia|]).
  by apply not_elem_of_nil in Hid.
Qed.
Lemma dangling_shown id : core_of <$> shown ms_edges is_edge_deleted no_edge dangling_view id = dangling_edges !! id.
Proof.
  unfold dangling_edges. cbn [list_to_map foldr fst snd]. destruct (decide (id = 10)) as [->|H10]; [vm_compute; reflexivity|].
  destruct (decide (id = 11)) as [->|H11]; [vm_compute; reflexivity|]. rewrite !lookup_insert_ne, lookup_empty by congruence.
  destruct (shown ms_edges is_edge_deleted no_edge dangling_view id) as [r|] eqn:Es; [exfalso|done].
  apply (shown_listed no_edge (fun seg : Empty_set => match seg with end) ltac:(intros [])) in Es.
  apply (list_elem_of_fmap_2 fst) in Es. cbn [fst] in Es.
  assert (forallb (fun e => (e =? 10) || (e =? 11)) (fst <$> all_edges (fun seg : Empty_set => match seg with end) dangling_view) = true) as Hall
    by (vm_compute; reflexivity).
  apply (forallb_elem _ _ _ Hall) in Es. lia.
Qed.


(** C40.  Cached weight sums forget.  After a node's edge of weight 2^60 is
    deleted, the edge of weight 1 that is left is counted by the fast path, but
    its weight is not: the sum of the outgoing weights is answered as 0. *)
Theorem cached_weight_sum_forgets :
  exists c,
    run_commits c0 commits = Some c
    /\ (forall id, get_edge_core_for_cache c id = Ok (if decide (id = 10) then Some (core_of (edge 10 1 2 one)) else None))
    /\ degree_fast_path_result (node_degree_delta_sum c 1) Outgoing = Some (1, 0)
    /\ dd_out_weight_sum (Delta.add_valid_edge 1 2 one) = 0x3ff0000000000000.
Proof.
  exists c. split; [exact engine_run|]. split; [|vm_compute; done].
  destruct (run_counts ∅ c0 commits c ∅ engine_run ops_ok ltac:(by vm_compute) (fresh_counted ∅ c0 fresh no_older_edges)) as [(_ & Hk & _) _].
  assert (foldl (fun m op => edges_after op m) ∅ (mjoin commits) = {[10 := core_of (edge 10 1 2 one)]}) as E by (vm_compute; reflexivity).
  intros id. rewrite (Hk id), E. case_decide as D; [by rewrite D, lookup_singleton_eq|by rewrite lookup_singleton_ne].
Qed.

(** The sync of the creation of "A" fails; "B" is then created, with the same
    id; the database does not open again. *)
Lemma failed_sync_witness :
  exists c1 c2,
    commit_ops (Err (WalSyncFailed "disk")) c0 [EnsureNodeLabel (str_of "A") 1] = Some (c1, Err (WalSyncFailed "disk"))
    /\ commit_ops (Ok tt) c1 [EnsureNodeLabel (str_of "B") 1] = Some (c2, Ok tt)
    /\ replay_wal_generation None 7 [] [] (Some (co_wal c2)) (co_label_catalog c0) 0
       = Some (Err (CorruptWal "label token conflict: label_id is assigned to both")).
Proof.
  assert (forall l, normalize_wal_op_for_write None (EnsureNodeLabel l 1) = Ok (EnsureNodeLabel l 1) ->
    match encode_wal_op (EnsureNodeLabel l 1) with Ok b => 8 + len b <=? MAX_WAL_RECORD_SIZE | Err _ => true end = true ->
    op_wf (EnsureNodeLabel l 1) -> committable None (EnsureNodeLabel l 1)) as Hop.
  { intros l Hn Hf Hw. split; [by eexists|]. split; [done|]. split; [done|].
    intros buf Hb. rewrite Hb in Hf. by apply Z.leb_le. }
  destruct (failed_sync_blocks_open None c0 (str_of "A") (str_of "B") 1 (WalSyncFailed "disk")) as (c1 & c2 & H1 & _ & H2 & H3).
  - exact fresh.
  - split; try done.
  - vm_compute; congruence.
  - vm_compute; congruence.
  - vm_compute; reflexivity.
  - vm_compute; reflexivity.
  - apply Hop; vm_compute; first [reflexivity | done].
  - apply Hop; vm_compute; first [reflexivity | done].
  - exists c1, c2. exact (conj H1 (conj H2 H3)).
Defined.
End EngineWitness.
