(* ===== verification/ComponentsFacts.v ===== *)
(** [connected_components] is exact: it labels every collected node with the
    least node it is connected to by edges of the view. *)
From S2P Require Import Prelude Types PropertyValue EdgeMetadata Slots Memtable MemtableReads MemtableSnapshots DegreeEngine FilterBase NodeFilter NodeQuery NodeQueryFacts SourceList SourceListFacts Adjacency AdjacencyFacts Components.
Import SourceList UnionFind.

(** ** From sets to least members *)
Section Least.
Context (uf0 : UnionFind).
Abbreviation root x r := (root_of (uf_parent uf0) x r).

Record mins_ok (done : list Z) (mins : gmap Z Z) : Prop := {
  mo_member r c : mins !! r = Some c -> c ∈ done /\ root c r;
  mo_least id r : id ∈ done -> root id r -> exists c, mins !! r = Some c /\ c <= id
}.
Lemma root_to_min_spec ids done uf mins :
  forest uf -> same_roots uf0 uf -> mins_ok done mins ->
  exists uf' mins', root_to_min uf mins ids = Some (uf', mins') /\ forest uf' /\ same_roots uf0 uf' /\ mins_ok (done ++ ids) mins'.
Proof.
  revert done uf mins. induction ids as [|id ids IH]; intros done uf mins Hf Hs Hm; cbn [root_to_min].
  { exists uf, mins. by rewrite app_nil_r. }
  destruct (find_spec uf id Hf) as (r & uf1 & -> & Hr & Hf1 & Hs1). cbn [mbind option_bind].
  assert (same_roots uf0 uf1) as Hs' by (intros x y; by rewrite (Hs1 x y), (Hs x y)). apply Hs in Hr.
  replace (done ++ id :: ids) with ((done ++ [id]) ++ ids) by by rewrite <- app_assoc.
  assert (forall c, c ∈ done ++ [id] -> c <= id -> root c r -> (forall id', id' ∈ done -> root id' r -> c <= id') -> mins_ok (done ++ [id]) (<[r := c]> mins)) as Hset.
  { intros c Hc Hle Hrc Hl. split.
    - intros r' c' [[<- <-]|[_ E]]%lookup_insert_Some; [done|]. destruct (mo_member _ _ Hm _ _ E). split; [set_solver|done].
    - intros id' r' Hin Hr'. destruct (decide (r' = r)) as [->|Hne].
      + exists c. split; [apply lookup_insert_eq|]. apply elem_of_app in Hin as [Hin| ->%list_elem_of_singleton]; [by apply Hl|done].
      + rewrite lookup_insert_ne by done. apply elem_of_app in Hin as [Hin| ->%list_elem_of_singleton]; [by apply (mo_least _ _ Hm)|].
        by destruct Hne; apply (root_of_unique _ _ _ _ Hr' Hr). }
  assert (forall c, mins !! r = Some c -> forall id', id' ∈ done -> root id' r -> c <= id') as Hleast.
  { intros c E id' Hin Hr'. destruct (mo_least _ _ Hm _ _ Hin Hr') as (c' & E' & Hle). rewrite E in E'. by injection E' as ->. }
  apply IH; [done..|]. destruct (mins !! r) as [c|] eqn:E.
  - destruct (mo_member _ _ Hm _ _ E) as [Hc Hrc]. pose proof (Hleast c eq_refl) as Hl. destruct (Z.ltb_spec id c).
    + apply Hset; [set_solver|lia|done|]. intros id' Hin Hr'. specialize (Hl id' Hin Hr'). lia.
    + rewrite <- (insert_id mins r c E). apply Hset; [set_solver|lia|done|done].
  - apply Hset; [set_solver|lia|done|]. intros id' Hin Hr'. destruct (mo_least _ _ Hm _ _ Hin Hr') as (c' & E' & _). congruence.
Qed.
Lemma component_ids_spec ids all uf mins result :
  forest uf -> same_roots uf0 uf -> mins_ok all mins -> (forall id, id ∈ ids -> id ∈ all) ->
  exists result', component_ids uf mins result ids = Some result'
  /\ (forall id, id ∉ ids -> result' !! id = result !! id)
  /\ forall id, id ∈ ids -> exists c, result' !! id = Some c /\ c ∈ all /\ joined uf0 id c /\ forall y, y ∈ all -> joined uf0 id y -> c <= y.
Proof.
  revert uf result. induction ids as [|id ids IH]; intros uf result Hf Hs Hm Hall; cbn [component_ids].
  { exists result. split_and!; [done..|]. by intros id ?%not_elem_of_nil. }
  destruct (find_spec uf id Hf) as (r & uf1 & -> & Hr & Hf1 & Hs1). cbn [mbind option_bind]. apply Hs in Hr.
  assert (same_roots uf0 uf1) as Hs' by (intros x y; by rewrite (Hs1 x y), (Hs x y)).
  destruct (mo_least _ _ Hm id r (Hall id ltac:(left)) Hr) as (c & E & Hle). rewrite E. cbn [mbind option_bind].
  destruct (IH uf1 (<[id := c]> result) Hf1 Hs' Hm) as (result' & -> & Hout & Hin); [intros id' ?; apply Hall; by right|].
  exists result'. split_and!; [done| |].
  - intros id' Hn. apply not_elem_of_cons in Hn as [Hne Hn]. by rewrite Hout, lookup_insert_ne.
  - intros id' Hid'. destruct (decide (id' ∈ ids)) as [Hids|Hids]; [by apply Hin|]. apply elem_of_cons in Hid' as [->|]; [|done].
    exists c. rewrite Hout, lookup_insert_eq by done. destruct (mo_member _ _ Hm _ _ E) as [Hc Hrc]. split_and!; [done..|by exists r|].
    intros y Hy (r' & Hr1 & Hr2). rewrite (root_of_unique _ _ _ _ Hr1 Hr) in Hr2. destruct (mo_least _ _ Hm y r Hy Hr2) as (c' & E' & ?).
    rewrite E in E'. by injection E' as ->.
Qed.
End Least.

(** ** Callbacks that never break *)
Lemma each_steady {A S} (callback : S -> A -> S * bool) l s :
  (forall s x, snd (callback s x) = false) -> snd (each callback l s) = false.
Proof.
  intros Hc. revert s. induction l as [|x l IH]; intros s; [done|]. cbn. specialize (Hc s x). destruct (callback s x) as [s' stop]. cbn in Hc. subst stop. apply IH.
Qed.
Lemma drop_flow {S} (r : S * bool) : snd r = false -> (fst r, false) = r.
Proof. by destruct r as [s []]. Qed.

Section Components.
Context `{RmpValue, HashOrderLaws} {Segment : Type} `{!SegmentReads Segment, !SegmentAdjacency Segment}.
Context (edge_in : Segment -> Z -> option EdgeRecord) `{!SegmentAdjacencyLaws edge_in}.
Context (self : SourceList (Segment := Segment)) (labels : option (list Z)) (time : Z) (node_ids : list Z).
Hypothesis Hsteady : steady edge_in self.
(** The collected nodes: in order, once each, and none deleted. *)
Hypothesis Hsorted : StronglySorted Z.le node_ids.
Hypothesis Hlive : forall id, id ∈ node_ids -> node_tombstoned self id = false.
Abbreviation node_set := (list_to_set node_ids : gset Z).

Definition unite_arcs (uf : option UnionFind) (arcs : list (Z * Z * Z)) : option UnionFind :=
  foldl (fun uf '(n, m, _) => unite node_set uf n m) uf arcs.

Lemma union_active_each l seen uf :
  each (fun x '(n, p) => union_active time node_set n x p) l (seen, uf)
  = ((edge_keys l ∪ seen, unite_arcs uf (arc_of <$> base.filter (fun q => in_time time q = true) l)), false).
Proof.
  revert seen uf. induction l as [|[n p] l IH]; intros seen uf; [unfold edge_keys; cbn; by rewrite union_empty_l_L|].
  rewrite filter_bool_cons. cbn [each union_active]. unfold in_time at 1. cbn [snd].
  assert (edge_keys ((n, p) :: l) ∪ seen = edge_keys l ∪ ({[(n, ps_edge_id p)]} ∪ seen)) as -> by (unfold edge_keys; cbn; set_solver).
  destruct (is_edge_valid_at _ _ time); cbn [negb]; apply IH.
Qed.
(** Both older callbacks unite the same edges. *)
Lemma older_union (callback : UnionState -> Z * Posting -> UnionState * bool) l seen uf :
  (forall seen uf n p, node_tombstoned self n = false -> callback (seen, uf) (n, p)
   = (if bool_decide ((n, ps_edge_id p) ∈ seen) then (seen, uf)
      else ({[(n, ps_edge_id p)]} ∪ seen, if in_time time (n, p) && untombed self (n, p) then unite node_set uf n (ps_neighbor_id p) else uf), false)) ->
  (forall n p, (n, p) ∈ l -> node_tombstoned self n = false) ->
  each callback l (seen, uf)
  = ((edge_keys l ∪ seen, unite_arcs uf (arc_of <$> base.filter (fun q => in_time time q && untombed self q = true) (unseen seen l))), false).
Proof.
  intros Hc. revert seen uf. induction l as [|[n p] l IH]; intros seen uf Hl; [unfold edge_keys; cbn; by rewrite union_empty_l_L|].
  assert (edge_keys ((n, p) :: l) ∪ seen = edge_keys l ∪ ({[(n, ps_edge_id p)]} ∪ seen)) as E by (unfold edge_keys; cbn; set_solver).
  cbn [each unseen]. rewrite (Hc seen uf n p) by (apply (Hl n p); left). change (edge_key (n, p)) with (n, ps_edge_id p). rewrite E.
  assert (forall n p, (n, p) ∈ l -> node_tombstoned self n = false) as Hl' by (intros n' p' ?; apply (Hl n' p'); by right).
  case_bool_decide as Hs.
  - rewrite IH by done. rewrite (subseteq_union_1_L {[(n, ps_edge_id p)]} seen) by set_solver. done.
  - rewrite filter_bool_cons. destruct (in_time time (n, p) && untombed self (n, p)); apply IH; done.
Qed.
Lemma deleted_node_bool id : bool_decide (id ∈ collect_deleted_nodes self) = node_tombstoned self id.
Proof. apply eq_iff_eq_true. rewrite bool_decide_eq_true. by apply (collect_deleted_nodes_elem edge_in). Qed.
Lemma deleted_edge_bool id : bool_decide (id ∈ collect_deleted_edges self) = edge_tombstoned self id.
Proof. apply eq_iff_eq_true. rewrite bool_decide_eq_true. by apply (collect_deleted_edges_elem edge_in). Qed.
Lemma union_immutable_eq seen uf n p : node_tombstoned self n = false ->
  union_immutable time node_set (collect_deleted_nodes self) (collect_deleted_edges self) n (seen, uf) p
  = (if bool_decide ((n, ps_edge_id p) ∈ seen) then (seen, uf)
     else ({[(n, ps_edge_id p)]} ∪ seen, if in_time time (n, p) && untombed self (n, p) then unite node_set uf n (ps_neighbor_id p) else uf), false).
Proof.
  intros Hn. unfold union_immutable, in_time, untombed. cbn [fst snd]. rewrite Hn. destruct (bool_decide (_ ∈ seen)); [done|].
  rewrite deleted_node_bool, deleted_edge_bool.
  destruct (edge_tombstoned self (ps_edge_id p)), (node_tombstoned self (ps_neighbor_id p)), (is_edge_valid_at _ _ _); done.
Qed.
Lemma union_segment_eq seen uf n p : node_tombstoned self n = false ->
  union_segment time node_set (collect_deleted_nodes self) (collect_deleted_edges self) (seen, uf) (n, p)
  = (if bool_decide ((n, ps_edge_id p) ∈ seen) then (seen, uf)
     else ({[(n, ps_edge_id p)]} ∪ seen, if in_time time (n, p) && untombed self (n, p) then unite node_set uf n (ps_neighbor_id p) else uf), false).
Proof.
  intros Hn. unfold union_segment, in_time, untombed. cbn [fst snd]. rewrite Hn. destruct (bool_decide (_ ∈ seen)); [done|].
  rewrite deleted_node_bool, deleted_edge_bool.
  destruct (edge_tombstoned self (ps_edge_id p)), (node_tombstoned self (ps_neighbor_id p)), (is_edge_valid_at _ _ _); done.
Qed.
Lemma union_segments_each nodes edges segs x :
  union_segments labels time node_set nodes edges node_ids segs x
  = (let '(postings, failure) := segment_stream Outgoing labels node_ids segs in
     match failure with Some e => Err e | None => Ok (fst (each (union_segment time node_set nodes edges) postings x)) end).
Proof.
  assert (forall l x, snd (each (union_segment time node_set nodes edges) l x) = false) as Hstop.
  { intros l x'. apply each_steady. intros [seen uf] [n p]. unfold union_segment. by repeat case_match. }
  revert x. induction segs as [|seg segs IH]; intros x; [done|]. cbn [union_segments segment_stream]. unfold for_each_adj_posting_batch.
  destruct (adj_postings_batch seg node_ids Outgoing labels) as [postings failure].
  pose proof (Hstop postings x) as Hs. destruct (each _ postings x) as [x' stop] eqn:Ex. cbn [snd] in Hs. subst stop.
  destruct failure as [e|]; [done|]. cbn [mbind result_bind]. rewrite IH. destruct (segment_stream Outgoing labels node_ids segs) as [more [e|]]; [done|].
  rewrite each_app, Ex. done.
Qed.

Lemma unite_arcs_spec arcs uf done :
  forest uf -> (forall x y, joined uf x y <-> classes done x y) ->
  exists uf', unite_arcs (Some uf) arcs = Some uf' /\ forest uf'
  /\ forall x y, joined uf' x y <-> classes (done ++ (fst <$> base.filter (fun a => snd (fst a) ∈ node_ids) arcs)) x y.
Proof.
  revert uf done. induction arcs as [|[[n m] e] arcs IH]; intros uf pairs Hf Hj.
  { exists uf. cbn. by rewrite app_nil_r. }
  unfold unite_arcs. cbn [foldl]. fold (unite_arcs (unite node_set (Some uf) n m) arcs). unfold unite.
  rewrite filter_cons. cbn [fst snd]. rewrite (bool_decide_ext _ _ (elem_of_list_to_set m node_ids)). destruct (decide (m ∈ node_ids)) as [Hm|Hm].
  - rewrite bool_decide_true by done. cbn [mbind option_bind]. destruct (union_spec uf n m Hf) as (uf1 & -> & Hf1 & Hj1).
    destruct (IH uf1 (pairs ++ [(n, m)]) Hf1) as (uf' & E & Hf' & Hj').
    + intros x y. rewrite Hj1, classes_snoc, !Hj. done.
    + exists uf'. split_and!; [done..|]. intros x y. by rewrite Hj', fmap_cons, <- app_assoc.
  - rewrite bool_decide_false by done. by apply IH.
Qed.

(** Two collected nodes with an edge of the view from one to the other. *)
Definition linked_nodes (a b : Z) : Prop := a ∈ node_ids /\ b ∈ node_ids /\ exists e, edge_arc edge_in self Outgoing labels time a b e.
Lemma sorted_ids : sort_ids node_ids = node_ids.
Proof.
  unfold sort_ids. apply (StronglySorted_unique Z.le); [apply StronglySorted_merge_sort; apply _|done|apply merge_sort_Permutation].
Qed.
Lemma postings_live l n p : l ∈ view_layers self -> (n, p) ∈ match l with Mem st => memtable_postings self Outgoing labels st node_ids | Seg seg => fst (adj_postings_batch seg node_ids Outgoing labels) end ->
  node_tombstoned self n = false.
Proof.
  intros Hl Hin. apply Hlive. destruct l as [st|seg].
  - apply (proj1 (memtable_postings_elem edge_in self Hsteady Outgoing labels st node_ids n p Hl) Hin).
  - apply (postings_sound (edge_in := edge_in) _ _ _ _ _ _ Hin).
Qed.
Lemma stream_live segs n p : (forall seg, seg ∈ segs -> seg ∈ segments self) -> (n, p) ∈ fst (segment_stream Outgoing labels node_ids segs) -> node_tombstoned self n = false.
Proof.
  intros Hs. induction segs as [|seg segs IH]; [by intros ?%not_elem_of_nil|]. cbn [segment_stream].
  assert (Seg seg ∈ view_layers self) as Hl by (apply layer_seg, Hs; left). pose proof (postings_live (Seg seg) n p Hl) as Hp. cbn beta iota in Hp.
  destruct (adj_postings_batch seg node_ids Outgoing labels) as [postings [e|]]; [exact Hp|].
  destruct (segment_stream Outgoing labels node_ids segs) as [more failure]. cbn [fst] in *. rewrite elem_of_app.
  intros [?|?]; [by apply Hp|]. apply IH; [|done]. intros seg' ?. apply Hs. by right.
Qed.
Lemma immutables_live n p : (n, p) ∈ immutable_postings self Outgoing labels node_ids -> node_tombstoned self n = false.
Proof.
  unfold immutable_postings. rewrite list_elem_of_join. intros (l & Hin & Hl). apply list_elem_of_fmap in Hl as (st & -> & Hst).
  apply (postings_live (Mem st)) with p; [apply layer_mem; by right|done].
Qed.

(** The passes over the layers unite the arcs an expansion of all the nodes
    would visit. *)
Lemma union_edges_arcs :
  node_ids ≠ [] ->
  exists seen,
  union_edges self labels time node_ids
  = (let '(arcs, failure) := expansion_arcs self Outgoing labels time node_ids in
     match failure with
     | Some e => Err e
     | None => Ok (seen, unite_arcs (Some (foldl (fun uf id => make_set id uf) with_capacity node_ids)) arcs)
     end).
Proof.
  intros Hne. unfold union_edges, expansion_arcs. rewrite sorted_ids. cbn [collect_tombstones].
  generalize (foldl (fun uf id => make_set id uf) with_capacity node_ids). intros uf0. unfold collect_tombstones.
  assert (forall st n (callback : UnionState -> Posting -> UnionState * bool) x, (forall x p, snd (callback x p) = false) ->
    (fst (for_each_adj_entry_at st n labels (snapshot_seq self) callback Outgoing x), false)
    = for_each_adj_entry_at st n labels (snapshot_seq self) callback Outgoing x) as Hflow.
  { intros st n callback x Hc. apply drop_flow. rewrite for_each_adj_entry_each. by apply each_steady. }
  rewrite (each_ext _ (fun x n => for_each_adj_entry_at (active self) n labels (snapshot_seq self) (union_active time node_set n) Outgoing x)) by
    (intros x n; apply Hflow; intros [seen uf] p; cbn; by destruct (negb _)).
  rewrite (memtable_each self Outgoing labels (fun x '(n, p) => union_active time node_set n x p)), union_active_each, union_empty_r_L.
  set (imm := fun x '(n, p) => union_immutable time node_set (collect_deleted_nodes self) (collect_deleted_edges self) n x p).
  rewrite (each_ext _ (fun x epoch => each (fun x n => for_each_adj_entry_at epoch n labels (snapshot_seq self) (fun x p => imm x (n, p)) Outgoing x) node_ids x)).
  2: { intros x epoch. apply each_ext. intros x' n. apply Hflow. intros [seen uf] p. unfold imm, union_immutable. by repeat case_match. }
  rewrite (immutable_each self Outgoing labels imm).
  rewrite older_union by (first [intros; by apply union_immutable_eq|apply immutables_live]). cbn [fst].
  rewrite union_segments_each. pose proof (stream_live (segments self)) as Hlives.
  destruct (segment_stream Outgoing labels node_ids (segments self)) as [postings [e|]]; [exists ∅; by destruct node_ids|].
  rewrite older_union; [|intros; by apply union_segment_eq|intros n p; by apply Hlives]. eexists. destruct node_ids as [|i ids] eqn:E; [done|]. rewrite <- E.
  cbn [fst]. f_equal. f_equal. unfold unite_arcs. rewrite <- !foldl_app, <- fmap_app. f_equal. f_equal. rewrite <- filter_app. f_equal.
  by rewrite unseen_app.
Qed.

Lemma classes_linked arcs x y :
  (forall n m e, (n, m, e) ∈ arcs <-> n ∈ node_ids /\ edge_arc edge_in self Outgoing labels time n m e) ->
  classes (fst <$> base.filter (fun a => snd (fst a) ∈ node_ids) arcs) x y <-> rtsc linked_nodes x y.
Proof.
  intros Ha. assert (forall a b, (a, b) ∈ fst <$> base.filter (fun a : Z * Z * Z => snd (fst a) ∈ node_ids) arcs <-> linked_nodes a b) as E.
  { intros a b. rewrite list_elem_of_fmap. setoid_rewrite list_elem_of_filter. unfold linked_nodes. split.
    - intros ([[n m] e] & [= -> ->] & Hm & [Hn He]%Ha). split_and!; [done..|by exists e].
    - intros (Hn & Hm & e & He). exists (a, b, e). split_and!; [done..|]. by apply Ha. }
  unfold classes. split; intros Hr; (eapply rtc_subrel; [|exact Hr]); intros a b [?|?]; [left|right|left|right]; by apply E.
Qed.
Lemma no_links : labels = Some [] -> forall x y, rtsc linked_nodes x y -> x = y.
Proof.
  intros El x y Hr. unfold rtsc in Hr. induction Hr as [|x z y [(_ & _ & e & r & _ & _ & Hp & _)|(_ & _ & e & r & _ & _ & Hp & _)] _ _]; [done| |];
    rewrite El in Hp; by apply not_elem_of_nil in Hp.
Qed.
Lemma self_map ids (result : gmap Z Z) id :
  foldl (fun result id => <[id := id]> result) result ids !! id = if bool_decide (id ∈ ids) then Some id else result !! id.
Proof.
  revert result. induction ids as [|i ids IH]; intros result; [done|]. cbn [foldl]. rewrite IH. destruct (decide (id ∈ ids)).
  - rewrite !bool_decide_true by (done || by right). done.
  - rewrite (bool_decide_false (id ∈ ids)) by done. destruct (decide (id = i)) as [->|Hne].
    + by rewrite bool_decide_true, lookup_insert_eq by left.
    + rewrite bool_decide_false, lookup_insert_ne; [done..|]. by rewrite not_elem_of_cons.
Qed.

(** C7.  [connected_components] always answers.  Over a steady view (ids are never
    reused, no edge of the active memtable is at a deleted node) and collected
    nodes in order, none of them deleted, it labels exactly those nodes, each with the least
    node reachable from it by taking, either way, live edges of the view with
    the labels asked for, valid at the time asked for and with both ends among
    the nodes: nodes share a label just when they are connected.  The loops of
    the disjoint sets end, whatever their ranks.  It fails only with an error of
    a segment. *)
Theorem connected_components_exact :
  exists r, connected_components self labels time node_ids = Some r /\
  match r with
  | Ok result =>
      (forall id, id ∉ node_ids -> result !! id = None)
      /\ forall id, id ∈ node_ids -> exists c, result !! id = Some c /\ c ∈ node_ids /\ rtsc linked_nodes id c
           /\ forall y, y ∈ node_ids -> rtsc linked_nodes id y -> c <= y
  | Err e => exists seg ids, seg ∈ segments self /\ snd (adj_postings_batch seg ids Outgoing labels) = Some e
  end.
Proof.
  unfold connected_components. destruct (decide (node_ids = [])) as [->|Hne].
  { eexists. split; [done|]. split; [done|]. by intros id ?%not_elem_of_nil. }
  assert (forall X (a b : X), match node_ids with [] => a | _ => b end = b) as Hmatch by (intros X a b; by destruct node_ids).
  rewrite Hmatch. case_bool_decide as El.
  { eexists. split; [done|]. cbn beta iota. split.
    - intros id Hn. by rewrite self_map, bool_decide_false.
    - intros id Hin. exists id. rewrite self_map, bool_decide_true by done. split_and!; [done..|reflexivity|].
      intros y _ Hr. rewrite (no_links El id y Hr). lia. }
  destruct (union_edges_arcs Hne) as (seen & ->).
  pose proof (arcs_sound edge_in self Hsteady Outgoing labels time node_ids) as Hs. pose proof (arcs_complete edge_in self Hsteady Outgoing labels time node_ids) as Hc.
  pose proof (expansion_failure self Outgoing labels time node_ids) as Hfail.
  destruct (expansion_arcs self Outgoing labels time node_ids) as [arcs [e|]]; cbn [fst snd] in *.
  { eexists. split; [done|]. by apply Hfail. }
  destruct (make_sets_forest node_ids) as [Hf Hj].
  destruct (unite_arcs_spec arcs _ [] Hf) as (uf & -> & Hf' & Hj').
  { intros x y. rewrite Hj. unfold classes. split; [intros ->; reflexivity|]. intros Hr. unfold rtsc in Hr.
    induction Hr as [|x z y [Hx|Hx] _ _]; [done|by apply not_elem_of_nil in Hx..]. }
  assert (forall x y, joined uf x y <-> rtsc linked_nodes x y) as Hlink.
  { intros x y. rewrite Hj'. apply classes_linked. intros n m e. split; [apply Hs|]. intros [Hn Ha]. by apply Hc. }
  cbn [mbind option_bind].
  destruct (root_to_min_spec uf node_ids [] uf ∅ Hf' (fun _ _ => iff_refl _)) as (uf1 & mins & -> & Hf1 & Hs1 & Hm).
  { split; [by intros r c ?%lookup_empty_Some|by intros id r ?%not_elem_of_nil]. }
  cbn [mbind option_bind].
  destruct (component_ids_spec uf node_ids node_ids uf1 mins ∅ Hf1 Hs1 Hm (fun _ H => H)) as (result & -> & Hout & Hin). cbn [mbind option_bind].
  eexists. split; [done|]. split; [intros id Hn; by rewrite Hout|]. intros id Hid. destruct (Hin id Hid) as (c & E & Hcin & Hjc & Hl).
  exists c. split_and!; [done..|by apply Hlink|]. intros y Hy Hr. apply Hl; [done|]. by apply Hlink.
Qed.
End Components.
