(* ===== verification/GraphSearch.v ===== *)
(** Unweighted path search on a read view (src/engine/graph_ops.rs, and the
    visibility and label filters it reads: src/engine/read.rs, mod.rs): the
    bidirectional breadth-first searches of [shortest_path] and [is_connected]. *)
From Stdlib Require Import Floats.SpecFloat.
From S2P Require Import Prelude Types Floats PropertyValue Slots Memtable MemtableReads LabelCatalog FilterBase NodeFilter NodeQuery SourceList Adjacency.
Import NodeQuery SourceList.

(** ** Edge label filters *)
Inductive LabelFilterResolution : Type := AnyLabel | Known (label_ids : list Z) | EmptyConstraint.
Definition resolve_edge_label_for_read (edge_label_to_id : gmap str Z) (label : str) : res (option Z) :=
  _ ← validate_label_token_name label; Ok (edge_label_to_id !! label).
Fixpoint resolve_edge_labels (edge_label_to_id : gmap str Z) (labels : list str) (known : list Z) (warnings : list QueryPlanWarning)
  : res (list Z * list QueryPlanWarning) :=
  match labels with
  | [] => Ok (known, warnings)
  | label :: labels =>
      r ← resolve_edge_label_for_read edge_label_to_id label;
      match r with
      | Some label_id => resolve_edge_labels edge_label_to_id labels (known ++ [label_id]) warnings
      | None => resolve_edge_labels edge_label_to_id labels known (push_query_warning warnings UnknownEdgeLabel)
      end
  end.
Definition resolve_edge_label_filter (edge_label_to_id : gmap str Z) (edge_labels : option (list str))
  : res (LabelFilterResolution * list QueryPlanWarning) :=
  match edge_labels with
  | None | Some [] => Ok (AnyLabel, [])
  | Some labels =>
      '(known, warnings) ← resolve_edge_labels edge_label_to_id labels [] [];
      match known with
      | [] => Ok (EmptyConstraint, warnings)
      | _ => Ok (Known (sorted_dedup_u64 known), warnings)
      end
  end.
Definition resolve_edge_label_filter_for_read (edge_label_to_id : gmap str Z) (edge_labels : option (list str))
  : res LabelFilterResolution := '(resolution, _) ← resolve_edge_label_filter edge_label_to_id edge_labels; Ok resolution.

(** ** Paths *)
Record ShortestPath : Type := mkPath { sp_nodes : list Z; sp_edges : list Z; sp_total_cost : Z }.
(** [usize as f64] *)
Definition f64_of_count (n : nat) : Z := bits_of_sf (binary_normalize 53 1024 (Z.of_nat n) 0 false).

Abbreviation Parents := (gmap Z (Z * Z)).
(** The [while let] loop up a parent map: the nodes and edges it passes. *)
Fixpoint walk_parents (fuel : nat) (parents : Parents) (cur : Z) : option (list Z * list Z) :=
  match fuel with
  | O => None
  | S fuel =>
      match parents !! cur with
      | None => Some ([], [])
      | Some (parent, edge_id) =>
          '(nodes, edges) ← walk_parents fuel parents parent; Some (parent :: nodes, edge_id :: edges)
      end
  end.
Definition reconstruct_bidir_path (fwd_parent bwd_parent : Parents) (meeting : Z) : option ShortestPath :=
  '(fwd_nodes, fwd_edges) ← walk_parents (S (size fwd_parent)) fwd_parent meeting;
  '(bwd_nodes, bwd_edges) ← walk_parents (S (size bwd_parent)) bwd_parent meeting;
  let edges := reverse fwd_edges ++ bwd_edges in
  Some (mkPath (reverse (meeting :: fwd_nodes) ++ bwd_nodes) edges (f64_of_count (length edges))).

Section Search.
Context `{HashOrder} {Segment : Type} `{!SegmentReads Segment, !SegmentAdjacency Segment}.
Context (self : SourceList (Segment := Segment)) (policy_cutoffs : option PrecomputedPruneCutoffs).

(** ** Visibility *)
Definition visible_state (state : NodeVisibilityState) : bool :=
  match state with
  | Live meta =>
      match policy_cutoffs with
      | Some cutoffs => negb (excludes_fields cutoffs (nv_label_ids meta) (nv_updated_at meta) (nv_weight meta))
      | None => true
      end
  | _ => false
  end.
Definition visible_node_ids (node_ids : list Z) : res (gset Z) :=
  match node_ids with
  | [] => Ok ∅
  | _ =>
      visibility ← find_node_visibility_meta self node_ids;
      Ok (list_to_set (fst <$> filter (fun p : Z * NodeVisibilityState => visible_state (snd p) = true) (zip node_ids visibility)))
  end.
Definition path_endpoints_visible (from to : Z) : res bool :=
  visible ← visible_node_ids [from; to]; Ok (bool_decide (from ∈ visible) && bool_decide (to ∈ visible)).

(** The [retain] over a layer: hidden nodes are remembered and dropped. *)
Fixpoint retain_visible (visible : gset Z) (layer_order : list Z) (blocked_hidden : gset Z) : list Z * gset Z :=
  match layer_order with
  | [] => ([], blocked_hidden)
  | neighbor :: layer_order =>
      if bool_decide (neighbor ∈ visible) then
        let '(order, blocked) := retain_visible visible layer_order blocked_hidden in (neighbor :: order, blocked)
      else retain_visible visible layer_order ({[neighbor]} ∪ blocked_hidden)
  end.
Definition filter_layer (layer_order : list Z) (blocked_hidden : gset Z) : res (list Z * gset Z) :=
  match policy_cutoffs with
  | None => Ok (layer_order, blocked_hidden)
  | Some _ => visible ← visible_node_ids layer_order; Ok (retain_visible visible layer_order blocked_hidden)
  end.
Definition no_policies : bool := match policy_cutoffs with None => true | Some _ => false end.

Section Directed.
Context (edge_label_filter : option (list Z)) (reference_time : Z).

(** [u32] addition, wrapping *)
Definition u32_add (a b : Z) : Z := (a + b) mod 2 ^ 32.

(** ** [bfs_shortest_path] *)
(** One side of the search.  The two branches of the loop are the same code
    with the sides exchanged. *)
Record Side : Type := mkSide { sd_frontier : list Z; sd_visited : gset Z; sd_parent : Parents; sd_depth : Z }.
Definition start_side (node : Z) : Side := mkSide [node] {[node]} ∅ 0.

Definition on_layer_neighbor (visited other_visited blocked_hidden : gset Z) (s : list Z * Parents) (arc : Z * Z * Z)
  : list Z * Parents * bool :=
  let '(layer_order, layer_candidates) := s in
  let '(source, neighbor, edge_id) := arc in
  if bool_decide (neighbor ∈ visited) || bool_decide (neighbor ∈ blocked_hidden)
     || bool_decide (is_Some (layer_candidates !! neighbor))
  then (s, false)
  else ((layer_order ++ [neighbor], <[neighbor := (source, edge_id)]> layer_candidates),
        no_policies && bool_decide (neighbor ∈ other_visited)).

(** Settling a layer: [remove(..).unwrap()] panics on a missing candidate. *)
Fixpoint settle_layer (other_visited : gset Z) (layer_order : list Z) (candidates : Parents) (visited : gset Z) (parent : Parents)
    (next_frontier : list Z) (meeting : option Z) : option (gset Z * Parents * list Z * option Z) :=
  match layer_order with
  | [] => Some (visited, parent, next_frontier, meeting)
  | neighbor :: layer_order =>
      via ← candidates !! neighbor;
      let candidates := delete neighbor candidates in
      let visited := {[neighbor]} ∪ visited in
      let parent := <[neighbor := via]> parent in
      if bool_decide (meeting = None) && bool_decide (neighbor ∈ other_visited)
      then settle_layer other_visited layer_order candidates visited parent next_frontier (Some neighbor)
      else settle_layer other_visited layer_order candidates visited parent (next_frontier ++ [neighbor]) meeting
  end.

Definition search_layer (direction : Direction) (this other : Side) (blocked_hidden : gset Z) (tombstones : TraversalTombstoneView)
  : option (res (Side * gset Z * TraversalTombstoneView * option Z)) :=
  let next_depth := u32_add (sd_depth this) 1 in
  match
    '(tombstones, (layer_order, candidates), _) ←
      expand_frontier self direction edge_label_filter reference_time
        (on_layer_neighbor (sd_visited this) (sd_visited other) blocked_hidden) (sd_frontier this) tombstones ([], ∅);
    '(layer_order, blocked_hidden) ← filter_layer layer_order blocked_hidden;
    Ok (tombstones, candidates, layer_order, blocked_hidden)
  with
  | Err e => Some (Err e)
  | Ok (tombstones, candidates, layer_order, blocked_hidden) =>
      '(visited, parent, next_frontier, meeting) ←
        settle_layer (sd_visited other) layer_order candidates (sd_visited this) (sd_parent this) [] None;
      Some (Ok (match meeting with
                | Some _ => mkSide (sd_frontier this) visited parent (sd_depth this)
                | None => mkSide next_frontier visited parent next_depth
                end, blocked_hidden, tombstones, meeting))
  end.

Fixpoint bfs_loop (fuel : nat) (direction : Direction) (max_d : Z) (fwd bwd : Side) (blocked_hidden : gset Z)
    (tombstones : TraversalTombstoneView) : option (res (option ShortestPath)) :=
  match fuel with
  | O => None
  | S fuel =>
      if bool_decide (sd_frontier fwd = []) || bool_decide (sd_frontier bwd = []) then Some (Ok None)
      else if max_d <=? u32_add (sd_depth fwd) (sd_depth bwd) then Some (Ok None)
      else if (length (sd_frontier fwd) <=? length (sd_frontier bwd))%nat then
        r ← search_layer direction fwd bwd blocked_hidden tombstones;
        match r with
        | Err e => Some (Err e)
        | Ok (fwd, _, _, Some meeting) =>
            path ← reconstruct_bidir_path (sd_parent fwd) (sd_parent bwd) meeting; Some (Ok (Some path))
        | Ok (fwd, blocked_hidden, tombstones, None) => bfs_loop fuel direction max_d fwd bwd blocked_hidden tombstones
        end
      else
        r ← search_layer (reverse_direction direction) bwd fwd blocked_hidden tombstones;
        match r with
        | Err e => Some (Err e)
        | Ok (bwd, _, _, Some meeting) =>
            path ← reconstruct_bidir_path (sd_parent fwd) (sd_parent bwd) meeting; Some (Ok (Some path))
        | Ok (bwd, blocked_hidden, tombstones, None) => bfs_loop fuel direction max_d fwd bwd blocked_hidden tombstones
        end
  end.
Definition bfs_shortest_path (fuel : nat) (from to : Z) (direction : Direction) (max_depth : option Z)
  : option (res (option ShortestPath)) :=
  bfs_loop fuel direction (default u32_max max_depth) (start_side from) (start_side to) ∅ new_tombstones.

(** ** [bfs_is_connected] *)
Record BareSide : Type := mkBare { bs_frontier : list Z; bs_visited : gset Z; bs_depth : Z }.
Definition start_bare (node : Z) : BareSide := mkBare [node] {[node]} 0.

Definition on_layer_neighbor_bare (visited other_visited blocked_hidden : gset Z) (s : list Z * gset Z) (arc : Z * Z * Z)
  : list Z * gset Z * bool :=
  let '(layer_order, layer_candidates) := s in
  let '(_, neighbor, _) := arc in
  if negb (bool_decide (neighbor ∈ visited)) && negb (bool_decide (neighbor ∈ blocked_hidden))
     && negb (bool_decide (neighbor ∈ layer_candidates))
  then ((layer_order ++ [neighbor], {[neighbor]} ∪ layer_candidates), no_policies && bool_decide (neighbor ∈ other_visited))
  else (s, false).

Fixpoint settle_bare (other_visited : gset Z) (layer_order : list Z) (visited : gset Z) (next_frontier : list Z) (found : bool)
  : gset Z * list Z * bool :=
  match layer_order with
  | [] => (visited, next_frontier, found)
  | neighbor :: layer_order =>
      let visited := {[neighbor]} ∪ visited in
      if negb found && bool_decide (neighbor ∈ other_visited)
      then settle_bare other_visited layer_order visited next_frontier true
      else settle_bare other_visited layer_order visited (next_frontier ++ [neighbor]) found
  end.

Definition search_layer_bare (direction : Direction) (this other : BareSide) (blocked_hidden : gset Z) (tombstones : TraversalTombstoneView)
  : res (BareSide * gset Z * TraversalTombstoneView * bool) :=
  let next_depth := u32_add (bs_depth this) 1 in
  '(tombstones, (layer_order, _), _) ←
    expand_frontier self direction edge_label_filter reference_time
      (on_layer_neighbor_bare (bs_visited this) (bs_visited other) blocked_hidden) (bs_frontier this) tombstones ([], ∅);
  '(layer_order, blocked_hidden) ← filter_layer layer_order blocked_hidden;
  let '(visited, next_frontier, found) := settle_bare (bs_visited other) layer_order (bs_visited this) [] false in
  Ok ((if found : bool then mkBare (bs_frontier this) visited (bs_depth this) else mkBare next_frontier visited next_depth),
      blocked_hidden, tombstones, found).

Fixpoint connected_loop (fuel : nat) (direction : Direction) (max_d : Z) (fwd bwd : BareSide) (blocked_hidden : gset Z)
    (tombstones : TraversalTombstoneView) : option (res bool) :=
  match fuel with
  | O => None
  | S fuel =>
      if bool_decide (bs_frontier fwd = []) || bool_decide (bs_frontier bwd = []) then Some (Ok false)
      else if max_d <=? u32_add (bs_depth fwd) (bs_depth bwd) then Some (Ok false)
      else if (length (bs_frontier fwd) <=? length (bs_frontier bwd))%nat then
        match search_layer_bare direction fwd bwd blocked_hidden tombstones with
        | Err e => Some (Err e)
        | Ok (fwd, blocked_hidden, tombstones, found) =>
            if found : bool then Some (Ok true) else connected_loop fuel direction max_d fwd bwd blocked_hidden tombstones
        end
      else
        match search_layer_bare (reverse_direction direction) bwd fwd blocked_hidden tombstones with
        | Err e => Some (Err e)
        | Ok (bwd, blocked_hidden, tombstones, found) =>
            if found : bool then Some (Ok true) else connected_loop fuel direction max_d fwd bwd blocked_hidden tombstones
        end
  end.
Definition bfs_is_connected (fuel : nat) (from to : Z) (direction : Direction) (max_depth : option Z) : option (res bool) :=
  connected_loop fuel direction (default u32_max max_depth) (start_bare from) (start_bare to) ∅ new_tombstones.
End Directed.
End Search.

(** ** The queries *)
Record IsConnectedOptions : Type := mkConnectedOptions {
  ic_direction : Direction;
  ic_edge_label_filter : option (list str);
  ic_at_epoch : option Z;
  ic_max_depth : option Z
}.
(** The options of [shortest_path] without a weight field: hops are counted,
    and the bound on the cost is not read. *)
Abbreviation HopOptions := IsConnectedOptions.

Section Queries.
Context `{HashOrder} {Segment : Type} `{!SegmentReads Segment, !SegmentAdjacency Segment}.
Context (self : SourceList (Segment := Segment)) (edge_label_to_id : gmap str Z) (prune_policies : list ResolvedPrunePolicy)
  (now_millis : Z).

Definition query_policy_cutoffs : option PrecomputedPruneCutoffs :=
  match prune_policies with [] => None | _ => Some (from_policies prune_policies now_millis) end.

Definition shortest_path (fuel : nat) (from to : Z) (options : HopOptions) : option (res (option ShortestPath)) :=
  match resolve_edge_label_filter_for_read edge_label_to_id (ic_edge_label_filter options) with
  | Err e => Some (Err e)
  | Ok resolved_filter =>
      let '(edge_label_filter, edge_filter_empty) :=
        match resolved_filter with
        | AnyLabel => (None, false)
        | Known label_ids => (Some label_ids, false)
        | EmptyConstraint => (Some [], true)
        end in
      match path_endpoints_visible self query_policy_cutoffs from to with
      | Err e => Some (Err e)
      | Ok false => Some (Ok None)
      | Ok true =>
          if from =? to then Some (Ok (Some (mkPath [from] [] (f64_of_count 0))))
          else if edge_filter_empty : bool then Some (Ok None)
          else bfs_shortest_path self query_policy_cutoffs edge_label_filter (default now_millis (ic_at_epoch options)) fuel from to
                 (ic_direction options) (ic_max_depth options)
      end
  end.
Definition is_connected (fuel : nat) (from to : Z) (options : IsConnectedOptions) : option (res bool) :=
  match resolve_edge_label_filter_for_read edge_label_to_id (ic_edge_label_filter options) with
  | Err e => Some (Err e)
  | Ok resolved_filter =>
      let '(edge_label_filter, edge_filter_empty) :=
        match resolved_filter with
        | AnyLabel => (None, false)
        | Known label_ids => (Some label_ids, false)
        | EmptyConstraint => (Some [], true)
        end in
      match path_endpoints_visible self query_policy_cutoffs from to with
      | Err e => Some (Err e)
      | Ok false => Some (Ok false)
      | Ok true =>
          if from =? to then Some (Ok true)
          else if edge_filter_empty : bool then Some (Ok false)
          else bfs_is_connected self query_policy_cutoffs edge_label_filter (default now_millis (ic_at_epoch options)) fuel from to
                 (ic_direction options) (ic_max_depth options)
      end
  end.
End Queries.
