(* ===== verification/GraphSearchFacts.v ===== *)
(** The path searches are exact: [shortest_path] returns a walk with the fewest
    hops, within the depth asked for, whenever there is one, and
    [is_connected] answers whether it does. *)
From S2P Require Import Prelude Types PropertyValue EdgeMetadata Slots Memtable MemtableReads MemtableSnapshots MemtableNeighbors LabelCatalog DegreeEngine FilterBase NodeFilter NodeQuery NodeQueryFacts SourceList SourceListFacts Walks Adjacency AdjacencyFacts GraphSearch.
Import NodeQuery NodeQuerySpec SourceList.

Section Search.
Context `{RmpValue, HashOrderLaws} {Segment : Type} `{!SegmentReads Segment, !SegmentAdjacency Segment}.
Context (node_in : Segment -> Z -> option NodeRecord) (edge_in : Segment -> Z -> option EdgeRecord).
Context `{!SegmentLaws node_in edge_in, !SegmentAdjacencyLaws edge_in}.
Context (self : SourceList (Segment := Segment)) (cutoffs : option PrecomputedPruneCutoffs).
Hypothesis Hsteady : steady edge_in self.
Abbreviation record := (shown ms_nodes is_node_deleted node_in self).

(** ** Visibility *)
Definition unpruned (id : Z) : Prop := exists node, record id = Some node /\ pruned cutoffs node = false.
(** Without policies a search does not look at the nodes it passes. *)
Definition admitted (id : Z) : Prop := match cutoffs with Some _ => unpruned id | None => True end.

Lemma steady_reads : reads self record (shown ms_edges is_edge_deleted edge_in self).
Proof.
  apply (marked_reads node_in edge_in). intros st Hin. destruct (ly_built _ _ Hsteady st) as (ops & Hb); [by apply layer_mem|]. by apply (built_marked ops).
Qed.
Lemma visible_state_live meta_of states ids :
  live_meta <$> states = (fun id => option_map visibility_meta (meta_of id)) <$> ids ->
  forall id, id ∈ fst <$> base.filter (fun p : Z * NodeVisibilityState => visible_state cutoffs (snd p) = true) (zip ids states)
  <-> id ∈ ids /\ exists node : NodeRecord, meta_of id = Some node /\ pruned cutoffs node = false.
Proof.
  revert states. induction ids as [|id ids IH]; intros [|state states] E; try done.
  { intros id. cbn. split; [by intros ?%not_elem_of_nil|by intros [?%not_elem_of_nil _]]. }
  rewrite !fmap_cons in E. apply cons_eq_inj in E as [E1 E2]. intros id'. cbn [zip zip_with]. rewrite filter_bool_cons, fmap_app, elem_of_app, (IH _ E2), elem_of_cons.
  cbn [snd]. assert (visible_state cutoffs state = true <-> exists node, meta_of id = Some node /\ pruned cutoffs node = false) as Hv.
  { unfold visible_state, pruned. destruct state as [meta| |], (meta_of id) as [node|]; cbn in E1; simplify_eq; destruct cutoffs as [cs|]; cbn [visibility_meta nv_label_ids nv_updated_at nv_weight];
      try rewrite negb_true_iff; naive_solver. }
  destruct (visible_state cutoffs state); cbn [fmap list_fmap fst].
  - rewrite list_elem_of_singleton. naive_solver.
  - rewrite elem_of_nil. naive_solver.
Qed.
Lemma visible_node_ids_spec ids :
  match visible_node_ids self cutoffs ids with
  | Ok visible => forall id, id ∈ visible <-> id ∈ ids /\ unpruned id
  | Err e => fetch_error get_node_meta_batch e
  end.
Proof.
  unfold visible_node_ids. destruct ids as [|id ids]; [intros id; set_solver|]. pose proof (rd_visibility _ _ _ steady_reads (id :: ids)) as Hr.
  destruct (find_node_visibility_meta self (id :: ids)) as [states|e]; [|done]. cbn [mbind result_bind].
  intros id'. rewrite elem_of_list_to_set. by apply visible_state_live.
Qed.

Lemma retain_visible_spec visible order blocked :
  fst (retain_visible visible order blocked) = base.filter (fun id => id ∈ visible) order
  /\ forall id, id ∈ snd (retain_visible visible order blocked) <-> id ∈ blocked \/ id ∈ order /\ id ∉ visible.
Proof.
  revert blocked. induction order as [|id order IH]; intros blocked; cbn [retain_visible].
  { split; [done|]. cbn. set_solver. }
  rewrite filter_cons. case_bool_decide as Hv.
  - rewrite decide_True by done. destruct (IH blocked) as [IH1 IH2]. destruct (retain_visible visible order blocked) as [o b]. cbn [fst snd] in *.
    rewrite IH1. split; [done|]. set_solver.
  - rewrite decide_False by done. destruct (IH ({[id]} ∪ blocked)) as [-> IH2]. split; [done|]. set_solver.
Qed.
Lemma filter_layer_spec order blocked :
  NoDup order -> (forall id, id ∈ blocked -> ~ admitted id) ->
  match filter_layer self cutoffs order blocked with
  | Ok (order', blocked') => NoDup order' /\ (forall id, id ∈ order' <-> id ∈ order /\ admitted id) /\ forall id, id ∈ blocked' -> ~ admitted id
  | Err e => fetch_error get_node_meta_batch e
  end.
Proof.
  intros Hd Hb. unfold filter_layer, admitted. pose proof (visible_node_ids_spec order) as Hv. unfold admitted in Hb.
  destruct cutoffs as [cs|] eqn:Ec; [|naive_solver]. rewrite <- Ec in *. destruct (visible_node_ids self cutoffs order) as [visible|e]; [|done]. cbn [mbind result_bind].
  destruct (retain_visible_spec visible order blocked) as [Hf Hs]. destruct (retain_visible visible order blocked) as [order' blocked']. cbn [fst snd] in *. subst order'.
  split_and!; [by apply NoDup_filter| |].
  - intros id. rewrite list_elem_of_filter, Hv. tauto.
  - intros id [Hin|[Hin Hn]]%Hs; [by apply Hb|]. rewrite Hv in Hn. tauto.
Qed.

(** ** A layer *)
Section Layers.
Context (labels : option (list Z)) (time : Z).

Lemma layer_each visited others blocked arcs :
  let '((order, cands), stop) := each (on_layer_neighbor cutoffs visited others blocked) arcs ([], ∅) in
  NoDup order /\ (forall m, m ∈ order <-> is_Some (cands !! m))
  /\ (forall m n e, cands !! m = Some (n, e) -> (n, m, e) ∈ arcs /\ m ∉ visited /\ m ∉ blocked)
  /\ (stop = false -> forall n m e, (n, m, e) ∈ arcs -> m ∈ visited \/ m ∈ blocked \/ m ∈ order)
  /\ (stop = true -> cutoffs = None /\ exists m, m ∈ order /\ m ∈ others).
Proof.
  assert (forall seen rest order cands,
    NoDup order -> (forall m, m ∈ order <-> is_Some (cands !! m)) ->
    (forall m n e, cands !! m = Some (n, e) -> (n, m, e) ∈ seen ++ rest /\ m ∉ visited /\ m ∉ blocked) ->
    (forall n m e, (n, m, e) ∈ seen -> m ∈ visited \/ m ∈ blocked \/ m ∈ order) ->
    let '((order, cands), stop) := each (on_layer_neighbor cutoffs visited others blocked) rest (order, cands) in
    NoDup order /\ (forall m, m ∈ order <-> is_Some (cands !! m))
    /\ (forall m n e, cands !! m = Some (n, e) -> (n, m, e) ∈ seen ++ rest /\ m ∉ visited /\ m ∉ blocked)
    /\ (stop = false -> forall n m e, (n, m, e) ∈ seen ++ rest -> m ∈ visited \/ m ∈ blocked \/ m ∈ order)
    /\ (stop = true -> cutoffs = None /\ exists m, m ∈ order /\ m ∈ others)) as Hgen.
  { intros seen rest. revert seen. induction rest as [|[[n m] e] rest IH]; intros seen order cands Hd Hdom Hc Hs.
    { cbn. rewrite app_nil_r in *. split_and!; done. }
    cbn [each on_layer_neighbor]. assert (seen ++ (n, m, e) :: rest = (seen ++ [(n, m, e)]) ++ rest) as Eq by by rewrite <- app_assoc.
    destruct (bool_decide (m ∈ visited) || bool_decide (m ∈ blocked) || bool_decide (is_Some (cands !! m))) eqn:Eskip.
    - rewrite Eq in Hc |- *. apply IH; [done..|]. rewrite !orb_true_iff, !bool_decide_eq_true, <- Hdom in Eskip. set_solver.
    - rewrite !orb_false_iff, !bool_decide_eq_false in Eskip. destruct Eskip as [[Hv Hb] Hn].
      assert (m ∉ order) as Hno by by rewrite Hdom.
      assert (NoDup (order ++ [m])) as Hd' by (apply NoDup_app; split_and!; [done|set_solver|by apply NoDup_singleton]).
      assert (forall m', m' ∈ order ++ [m] <-> is_Some (<[m := (n, e)]> cands !! m')) as Hdom'.
      { intros m'. rewrite elem_of_app, list_elem_of_singleton, lookup_insert_is_Some', Hdom. naive_solver. }
      assert (forall m' n' e', <[m := (n, e)]> cands !! m' = Some (n', e') -> (n', m', e') ∈ seen ++ (n, m, e) :: rest /\ m' ∉ visited /\ m' ∉ blocked) as Hc'.
      { intros m' n' e' [[<- [= <- <-]]|[_ E]]%lookup_insert_Some; [|by apply Hc]. split_and!; [set_solver|done..]. }
      assert (forall n' m' e', (n', m', e') ∈ seen ++ [(n, m, e)] -> m' ∈ visited \/ m' ∈ blocked \/ m' ∈ order ++ [m]) as Hs' by set_solver.
      destruct (no_policies cutoffs && bool_decide (m ∈ others)) eqn:Estop.
      + split_and!; [done..|]. intros _. apply andb_true_iff in Estop as [Hp Ho%bool_decide_eq_true]. split; [by unfold no_policies in Hp; destruct cutoffs|].
        exists m. set_solver.
      + rewrite Eq in Hc' |- *. by apply IH. }
  apply (Hgen [] arcs [] ∅); [constructor|..]; intros *; rewrite ?lookup_empty; [|done|by intros ?%not_elem_of_nil].
  split; [by intros ?%not_elem_of_nil|by intros []].
Qed.

Lemma settle_layer_spec others order cands visited parent next meeting :
  NoDup order -> (forall m, m ∈ order -> is_Some (cands !! m)) ->
  exists visited' parent' next' meeting',
    settle_layer others order cands visited parent next meeting = Some (visited', parent', next', meeting')
    /\ (forall m, m ∈ visited' <-> m ∈ visited \/ m ∈ order)
    /\ (forall m, parent' !! m = if bool_decide (m ∈ order) then cands !! m else parent !! m)
    /\ match meeting' with
       | None => meeting = None /\ next' = next ++ order /\ forall m, m ∈ order -> m ∉ others
       | Some m => meeting = Some m \/ meeting = None /\ m ∈ order /\ m ∈ others
       end.
Proof.
  revert cands visited parent next meeting. induction order as [|m order IH]; intros cands visited parent next meeting Hd Hc; cbn [settle_layer].
  { exists visited, parent, next, meeting. split_and!; [done|set_solver|done|]. destruct meeting; [by left|]. rewrite app_nil_r. split_and!; [done..|]. by intros m ?%not_elem_of_nil. }
  apply NoDup_cons in Hd as [Hm Hd]. destruct (Hc m ltac:(left)) as [via Hvia]. rewrite Hvia. cbn [mbind option_bind].
  assert (forall m', m' ∈ order -> delete m cands !! m' = cands !! m') as Hdel by (intros m' Hin; apply lookup_delete_ne; by intros ->).
  assert (forall next meeting, exists visited' parent' next' meeting',
    settle_layer others order (delete m cands) ({[m]} ∪ visited) (<[m := via]> parent) next meeting = Some (visited', parent', next', meeting')
    /\ (forall m', m' ∈ visited' <-> m' ∈ visited \/ m' ∈ m :: order)
    /\ (forall m', parent' !! m' = if bool_decide (m' ∈ m :: order) then cands !! m' else parent !! m')
    /\ match meeting' with
       | None => meeting = None /\ next' = next ++ order /\ forall m, m ∈ order -> m ∉ others
       | Some m => meeting = Some m \/ meeting = None /\ m ∈ order /\ m ∈ others
       end) as Hrec.
  { intros next' meeting'. destruct (IH (delete m cands) ({[m]} ∪ visited) (<[m := via]> parent) next' meeting' Hd) as (V & P & N & M & E & HV & HP & HM).
    { intros m' Hin. rewrite Hdel by done. apply Hc. by right. }
    exists V, P, N, M. split_and!; [done|set_solver| |done]. intros m'. rewrite HP. destruct (decide (m' ∈ order)) as [Hin|Hout].
    - rewrite !bool_decide_true, Hdel by (done || by right). done.
    - rewrite (bool_decide_false (m' ∈ order)) by done. destruct (decide (m' = m)) as [->|Hne].
      + rewrite bool_decide_true by left. by rewrite lookup_insert_eq.
      + rewrite bool_decide_false by (by intros [?|?]%elem_of_cons). by rewrite lookup_insert_ne. }
  destruct (bool_decide (meeting = None) && bool_decide (m ∈ others)) eqn:Eb.
  - apply andb_true_iff in Eb as [->%bool_decide_eq_true Ho%bool_decide_eq_true].
    destruct (Hrec next (Some m)) as (V & P & N & M & E & HV & HP & HM). exists V, P, N, M. split_and!; [done..|].
    destruct M as [m'|]; [|naive_solver]. right. destruct HM as [[= ->]|[? _]]; [|done]. split_and!; [done|left|done].
  - destruct (Hrec (next ++ [m]) meeting) as (V & P & N & M & E & HV & HP & HM). exists V, P, N, M. split_and!; [done..|].
    destruct M as [m'|].
    + destruct HM as [->|(-> & Hin & Ho)]; [by left|]. right. split_and!; [done|by right|done].
    + destruct HM as (-> & -> & Hout). rewrite <- app_assoc. split_and!; [done..|]. cbn in Eb. apply bool_decide_eq_false in Eb.
      intros m' [->|Hin]%elem_of_cons; [done|by apply Hout].
Qed.

(** ** One side *)
(** A search follows the arcs between admitted nodes. *)
Definition search_arcs (dir : Direction) : Arcs :=
  fun x y e => edge_arc edge_in self dir labels time x y e /\ admitted x /\ admitted y.
Definition failed (e : EngineError) : Prop :=
  (exists seg ids dir labels, seg ∈ segments self /\ snd (adj_postings_batch seg ids dir labels) = Some e) \/ fetch_error get_node_meta_batch e.

Section Side.
Context (A : Arcs) (root : Z).
Definition parents_ok (visited : gset Z) (parent : Parents) : Prop :=
  forall x k, x ∈ visited -> dist A root k x ->
    match k with
    | O => parent !! x = None
    | S k => exists y e, parent !! x = Some (y, e) /\ A y x e /\ dist A root k y /\ y ∈ visited
    end.
(** The nodes within the depth are visited, the outermost are the frontier. *)
Record side_ok (sd : Side) : Prop := {
  so_depth : 0 <= sd_depth sd;
  so_within x : x ∈ sd_visited sd <-> within A root (Z.to_nat (sd_depth sd)) x;
  so_frontier x : x ∈ sd_frontier sd <-> dist A root (Z.to_nat (sd_depth sd)) x;
  so_dist x : x ∈ sd_visited sd -> exists k, (k <= Z.to_nat (sd_depth sd))%nat /\ dist A root k x;
  so_parents : parents_ok (sd_visited sd) (sd_parent sd)
}.
Lemma start_side_ok : side_ok (start_side root).
Proof.
  assert (forall x, within A root 0 x <-> x = root) as Hw.
  { intros x. split; [|intros ->; apply dist_within, dist_root]. intros (p & Hp & Hl). destruct p; [by inversion Hp|cbn in Hl; lia]. }
  split; cbn; change (Z.to_nat 0) with 0%nat.
  - lia.
  - intros x. by rewrite Hw, elem_of_singleton.
  - intros x. rewrite list_elem_of_singleton. split; [intros ->; apply dist_root|apply dist_0].
  - intros x ->%elem_of_singleton. exists 0%nat. split; [lia|apply dist_root].
  - intros x k ->%elem_of_singleton Hd. rewrite (dist_unique _ _ _ _ _ Hd (dist_root A root)). done.
Qed.

(** Parents lead back to the root along a shortest walk. *)
Lemma parents_walk visited parent x k fuel :
  parents_ok visited parent -> x ∈ visited -> dist A root k x -> (k < fuel)%nat ->
  exists nodes edges, walk_parents fuel parent x = Some (nodes, edges) /\ length edges = k
  /\ exists p, walk A root p x /\ fst <$> p = reverse edges /\ root :: (snd <$> p) = reverse (x :: nodes).
Proof.
  intros Hp. revert x k. induction fuel as [|fuel IH]; intros x k Hx Hd Hk; [lia|]. pose proof (Hp x k Hx Hd) as Hpar. cbn [walk_parents].
  destruct k as [|k].
  - rewrite Hpar. exists [], []. split_and!; [done..|]. exists []. apply dist_0 in Hd as ->. split_and!; [constructor|done..].
  - destruct Hpar as (y & e & -> & Ha & Hdy & Hy). destruct (IH y k Hy Hdy ltac:(lia)) as (nodes & edges & -> & Hl & p & Hw & Ee & En). cbn [mbind option_bind].
    exists (y :: nodes), (e :: edges). split_and!; [done|cbn; lia|]. exists (p ++ [(e, x)]). split_and!; [by eapply walk_snoc| |].
    + by rewrite fmap_app, Ee, reverse_cons.
    + rewrite fmap_app, app_comm_cons, En, (reverse_cons (y :: nodes)). done.
Qed.
(** The nodes on the way back are distinct, so that the loop over the parent map ends. *)
Lemma parents_enough visited parent x k :
  parents_ok visited parent -> x ∈ visited -> dist A root k x -> (k <= size parent)%nat.
Proof.
  intros Hp Hx Hd. assert (exists X : gset Z, X ⊆ dom parent /\ size X = k /\ forall y, y ∈ X -> exists j, (j <= k)%nat /\ dist A root j y) as (X & HX & <- & _).
  { revert x Hx Hd. induction k as [|k IH]; intros x Hx Hd; [exists ∅; split_and!; [set_solver|apply size_empty|set_solver]|].
    destruct (Hp x (S k) Hx Hd) as (y & e & E & _ & Hdy & Hy). destruct (IH y Hy Hdy) as (X & HX & Hs & Hj). exists ({[x]} ∪ X).
    assert (x ∉ X) as Hn by (intros (j & Hle & Hdj)%Hj; pose proof (dist_unique _ _ _ _ _ Hd Hdj); lia). split_and!.
    - apply union_subseteq. split; [|done]. apply singleton_subseteq_l, elem_of_dom. by eexists.
    - rewrite size_union, size_singleton, Hs by set_solver. done.
    - intros z [->%elem_of_singleton|(j & ? & ?)%Hj]%elem_of_union; [by exists (S k)|]. exists j. split; [lia|done]. }
  rewrite <- size_dom. by apply subseteq_size.
Qed.

Lemma u32_add_small a b : 0 <= a + b < 2 ^ 32 -> u32_add a b = a + b.
Proof. apply Z.mod_small. Qed.
Lemma grown this order (cands : Parents) visited parent :
  side_ok this ->
  (forall m, m ∈ order -> exists n e, cands !! m = Some (n, e) /\ n ∈ sd_frontier this /\ A n m e /\ m ∉ sd_visited this) ->
  (forall m, m ∈ visited <-> m ∈ sd_visited this \/ m ∈ order) ->
  (forall m, parent !! m = if bool_decide (m ∈ order) then cands !! m else sd_parent this !! m) ->
  (forall m, m ∈ order -> dist A root (S (Z.to_nat (sd_depth this))) m)
  /\ parents_ok visited parent
  /\ (sd_depth this + 1 < 2 ^ 32 -> (forall n m e, n ∈ sd_frontier this -> A n m e -> m ∈ sd_visited this \/ m ∈ order) ->
      side_ok (mkSide order visited parent (u32_add (sd_depth this) 1))).
Proof.
  intros [Hdepth Hw Hf Hdist Hpar] Hc HV HP. set (d := Z.to_nat (sd_depth this)) in *.
  assert (forall m, m ∈ order -> dist A root (S d) m) as Horder.
  { intros m Hm. destruct (Hc m Hm) as (n & e & _ & Hn%Hf & Ha & Hv). rewrite Hw in Hv. by eapply dist_next. }
  assert (parents_ok visited parent) as Hparents.
  { intros x k Hx Hd. rewrite HP. case_bool_decide as Hin.
    - rewrite (dist_unique _ _ _ _ _ Hd (Horder x Hin)). destruct (Hc x Hin) as (n & e & -> & Hn & Ha & _). apply Hf in Hn.
      exists n, e. split_and!; [done..|]. apply HV. left. by apply Hw, dist_within.
    - apply HV in Hx as [Hx|]; [|done]. specialize (Hpar x k Hx Hd). destruct k; [done|].
      destruct Hpar as (y & e & ? & ? & ? & ?). exists y, e. split_and!; [done..|]. apply HV. by left. }
  split_and!; [done..|]. intros Hb Hall. assert (u32_add (sd_depth this) 1 = sd_depth this + 1) as Eadd by (apply u32_add_small; lia).
  assert (Z.to_nat (u32_add (sd_depth this) 1) = S d) as Ed by (rewrite Eadd; lia).
  assert (forall x, x ∈ visited <-> within A root (S d) x) as Hw'.
  { intros x. rewrite HV, Hw. split.
    - intros [Hx|Hx]; [by apply (within_mono _ _ d); [lia|]|by apply dist_within, Horder].
    - intros Hx. destruct (decide (x ∈ sd_visited this)) as [Hv|Hv]; [left; by apply Hw|]. rewrite Hw in Hv.
      destruct (within_next A root d x Hx Hv) as (n & e & Hn%Hf & Ha). destruct (Hall n x e Hn Ha) as [Hx'|Hx']; [by apply Hw in Hx'|by right]. }
  split; cbn [sd_depth sd_frontier sd_visited sd_parent]; rewrite ?Ed.
  - lia.
  - done.
  - intros x. split; [apply Horder|]. intros Hd. pose proof (dist_within _ _ _ _ Hd) as Hx%Hw'%HV. destruct Hx as [Hx|]; [|done].
    destruct (Hdist x Hx) as (j & Hj & Hdj). pose proof (dist_unique _ _ _ _ _ Hd Hdj). lia.
  - intros x [Hx|Hx]%HV; [|by exists (S d); split; [lia|apply Horder]]. destruct (Hdist x Hx) as (j & Hj & Hdj). exists j. split; [lia|done].
  - done.
Qed.
End Side.

Section Layer.
Context (dir : Direction) (A : Arcs).
Hypothesis HA : forall x y e, A x y e <-> search_arcs dir x y e.
Lemma admitted_dist root k x : admitted root -> dist A root k x -> admitted x.
Proof. destruct k as [|k]; [by intros ? ->%dist_0|]. intros _ (y & e & _ & (_ & _ & ?)%HA)%dist_step. done. Qed.

(** One layer further out. *)
Lemma search_layer_spec root this other blocked tv :
  side_ok A root this -> admitted root -> (forall b, b ∈ blocked -> ~ admitted b) -> tv_ok self tv ->
  sd_depth this + 1 < 2 ^ 32 ->
  exists r, search_layer self cutoffs labels time dir this other blocked tv = Some r /\
  match r with
  | Err e => failed e
  | Ok (this', blocked', tv', None) =>
      side_ok A root this' /\ sd_depth this' = sd_depth this + 1
      /\ (forall b, b ∈ blocked' -> ~ admitted b) /\ tv_ok self tv'
      /\ forall x, x ∈ sd_visited this' -> x ∈ sd_visited this \/ x ∉ sd_visited other
  | Ok (this', _, _, Some m) =>
      m ∈ sd_visited other /\ dist A root (S (Z.to_nat (sd_depth this))) m
      /\ exists visited, parents_ok A root visited (sd_parent this') /\ m ∈ visited
  end.
Proof.
  intros Hside Hroot Hblocked Ht Hb. unfold search_layer.
  destruct (expand_frontier_each edge_in self dir labels time (on_layer_neighbor cutoffs (sd_visited this) (sd_visited other) blocked)
    (sd_frontier this) tv ([], ∅) Ht) as (tv' & Ht' & ->).
  pose proof (arcs_sound edge_in self Hsteady dir labels time (sd_frontier this)) as Hsound.
  pose proof (arcs_complete edge_in self Hsteady dir labels time (sd_frontier this)) as Hcomplete.
  pose proof (expansion_failure self dir labels time (sd_frontier this)) as Hfail.
  destruct (expansion_arcs self dir labels time (sd_frontier this)) as [arcs failure]. cbn [fst snd] in *.
  pose proof (layer_each (sd_visited this) (sd_visited other) blocked arcs) as Hl.
  destruct (each _ arcs ([], ∅)) as [[order cands] stop]. destruct Hl as (Hd & Hdom & Hc & Hrest & Hstop).
  destruct (decide (stop = false /\ is_Some failure)) as [[-> [e ->]]|Hgo].
  { exists (Err e). split; [done|]. left. destruct (Hfail e eq_refl) as (seg & ids & ? & ?). by exists seg, ids, dir, labels. }
  assert ((if stop then Ok (tv', (order, cands), true) else match failure with Some e => Err e | None => Ok (tv', (order, cands), false) end)
          = @Ok EngineError _ (tv', (order, cands), stop)) as ->.
  { destruct stop; [done|]. destruct failure as [e|]; [|done]. destruct Hgo. by split. }
  cbn [mbind result_bind]. pose proof (filter_layer_spec order blocked Hd Hblocked) as Hf.
  destruct (filter_layer self cutoffs order blocked) as [[order' blocked']|e]; [|by exists (Err e); split; [|right]].
  cbn [mbind result_bind]. destruct Hf as (Hd' & Horder & Hblocked').
  destruct (settle_layer_spec (sd_visited other) order' cands (sd_visited this) (sd_parent this) [] None Hd') as (V & P & N & M & -> & HV & HP & HM).
  { intros m [Hm _]%Horder. by apply Hdom. }
  cbn [mbind option_bind]. eexists. split; [reflexivity|].
  assert (forall m, m ∈ order' -> exists n e, cands !! m = Some (n, e) /\ n ∈ sd_frontier this /\ A n m e /\ m ∉ sd_visited this) as Hcand.
  { intros m [Hm Ha]%Horder. apply Hdom in Hm as [[n e] Hm]. destruct (Hc m n e Hm) as (Hin & Hv & _). destruct (Hsound n m e Hin) as [Hn Harc].
    exists n, e. split_and!; [done..| |done]. apply HA. split_and!; [done| |done]. eapply admitted_dist; [exact Hroot|]. by apply (so_frontier _ _ _ Hside). }
  destruct (grown A root this order' cands V P Hside Hcand HV HP) as (Hdist & Hpar & Hgrown).
  destruct M as [m|].
  - destruct HM as [|(_ & Hm & Ho)]; [done|]. cbn [sd_parent]. split_and!; [done|by apply Hdist|]. exists V. split; [done|]. apply HV. by right.
  - destruct HM as (_ & -> & Hout). rewrite app_nil_l. assert (stop = false) as ->.
    { destruct stop; [|done]. destruct (Hstop eq_refl) as (Hnone & m & Hm & Ho). exfalso. apply (Hout m); [|done]. apply Horder. split; [done|]. unfold admitted. by rewrite Hnone. }
    assert (failure = None) as Hnone by (destruct failure as [e|]; [|done]; destruct Hgo; by split).
    split_and!; [|apply u32_add_small; pose proof (so_depth _ _ _ Hside); lia|done..|].
    + apply Hgrown; [done|]. intros n m e Hn (Harc & _ & Ha)%HA. pose proof (Hcomplete n m e Hnone Hn Harc) as Hin.
      destruct (Hrest eq_refl n m e Hin) as [?|[Hbl|?]]; [by left|by destruct (Hblocked m Hbl)|right; by apply Horder].
    + cbn [sd_visited]. intros x [?|Hx]%HV; [by left|right; by apply Hout].
Qed.
End Layer.

(** ** The two sides *)
Lemma turned_arcs dir x y e : turned (search_arcs dir) x y e <-> search_arcs (reverse_direction dir) x y e.
Proof.
  unfold turned, search_arcs, edge_arc. setoid_rewrite touches_reverse. naive_solver.
Qed.
(** A shortest walk as [shortest_path] reports it. *)
Definition reports (A : Arcs) (from to max_d : Z) (path : ShortestPath) : Prop :=
  exists p, walk A from p to
  /\ path = mkPath (from :: (snd <$> p)) (fst <$> p) (f64_of_count (length p))
  /\ Z.of_nat (length p) <= max_d
  /\ forall q, walk A from q to -> (length p <= length q)%nat.
Definition none_within (A : Arcs) (from to max_d : Z) : Prop := forall q, walk A from q to -> max_d < Z.of_nat (length q).

Section Both.
Context (dir : Direction) (from to max_d : Z).
Abbreviation A := (search_arcs dir).
Lemma meet fwd_visited fwd_parent bwd_visited bwd_parent m j k :
  parents_ok A from fwd_visited fwd_parent -> m ∈ fwd_visited -> dist A from j m ->
  parents_ok (turned A) to bwd_visited bwd_parent -> m ∈ bwd_visited -> dist (turned A) to k m ->
  exists p, walk A from p to /\ length p = (j + k)%nat
  /\ reconstruct_bidir_path fwd_parent bwd_parent m
     = Some (mkPath (from :: (snd <$> p)) (fst <$> p) (f64_of_count (length p))).
Proof.
  intros Hpf Hmf Hdf Hpb Hmb Hdb. unfold reconstruct_bidir_path.
  pose proof (parents_enough _ _ _ _ _ _ Hpf Hmf Hdf) as Hf. pose proof (parents_enough _ _ _ _ _ _ Hpb Hmb Hdb) as Hb.
  destruct (parents_walk _ _ _ _ _ _ (S (size fwd_parent)) Hpf Hmf Hdf ltac:(lia)) as (fn & fe & -> & Hlf & p & Hp & Ep & Np).
  destruct (parents_walk _ _ _ _ _ _ (S (size bwd_parent)) Hpb Hmb Hdb ltac:(lia)) as (bn & be & -> & Hlb & q & Hq & Eq & Nq).
  cbn [mbind option_bind]. destruct (walk_turn _ _ _ _ Hq) as (q' & Hq' & Eq' & Nq'). rewrite Eq, reverse_involutive in Eq'.
  rewrite Nq, reverse_involutive in Nq'. apply cons_eq_inj in Nq' as [_ Nq'].
  exists (p ++ q'). rewrite !fmap_app, Ep, Eq', app_comm_cons, Np, Nq'.
  assert (length (p ++ q') = length (reverse fe ++ be)) as El.
  { rewrite !length_app, length_reverse, <- (length_fmap fst q'), Eq', <- (length_fmap fst p), Ep, length_reverse. done. }
  split_and!; [by eapply walk_app|rewrite El, length_app, length_reverse, Hlf, Hlb; done|by rewrite El].
Qed.

(** A meeting is on a shortest walk. *)
Lemma meeting_shortest fwd_visited fwd_parent bwd_visited bwd_parent m j k df db :
  parents_ok A from fwd_visited fwd_parent -> m ∈ fwd_visited -> dist A from j m ->
  parents_ok (turned A) to bwd_visited bwd_parent -> m ∈ bwd_visited -> dist (turned A) to k m ->
  (forall x, within A from df x -> within (turned A) to db x -> False) ->
  (j + k <= S (df + db))%nat -> Z.of_nat (df + db) < max_d ->
  exists path, reconstruct_bidir_path fwd_parent bwd_parent m = Some path /\ reports A from to max_d path.
Proof.
  intros Hpf Hmf Hdf Hpb Hmb Hdb Hapart Hjk Hmax.
  destruct (meet _ _ _ _ _ _ _ Hpf Hmf Hdf Hpb Hmb Hdb) as (p & Hp & Hl & ->). eexists. split; [done|]. exists p. split_and!; [done..|lia|].
  intros q Hq. pose proof (apart_far A from to df db q Hapart Hq). lia.
Qed.

Definition search_result (r : res (option ShortestPath)) : Prop :=
  match r with
  | Ok (Some path) => reports A from to max_d path
  | Ok None => none_within A from to max_d
  | Err e => failed e
  end.
Lemma bfs_loop_spec fuel fwd bwd blocked tv :
  side_ok A from fwd -> side_ok (turned A) to bwd -> admitted from -> admitted to ->
  (forall b, b ∈ blocked -> ~ admitted b) -> tv_ok self tv ->
  (forall x, x ∈ sd_visited fwd -> x ∉ sd_visited bwd) -> max_d < 2 ^ 32 -> sd_depth fwd + sd_depth bwd < 2 ^ 32 ->
  (0 < fuel)%nat -> max_d - (sd_depth fwd + sd_depth bwd) < Z.of_nat fuel ->
  exists r, bfs_loop self cutoffs labels time fuel dir max_d fwd bwd blocked tv = Some r /\ search_result r.
Proof.
  revert fwd bwd blocked tv. induction fuel as [|fuel IH]; intros fwd bwd blocked tv Hf Hb Ha1 Ha2 Hbl Ht Hdis Hmax Hsum Hfu0 Hfuel; [lia|]. cbn [bfs_loop].
  pose proof (so_depth _ _ _ Hf) as Hdf. pose proof (so_depth _ _ _ Hb) as Hdb.
  assert (forall x, within A from (Z.to_nat (sd_depth fwd)) x -> within (turned A) to (Z.to_nat (sd_depth bwd)) x -> False) as Hapart.
  { intros x Hx%(so_within _ _ _ Hf) Hy%(so_within _ _ _ Hb). by apply (Hdis x). }
  destruct (bool_decide (sd_frontier fwd = []) || bool_decide (sd_frontier bwd = [])) eqn:Eempty.
  { exists (Ok None). split; [done|]. intros q Hq. exfalso. apply orb_true_iff in Eempty as [E%bool_decide_eq_true|E%bool_decide_eq_true].
    - apply (Hapart to); [|apply (within_mono _ _ 0); [lia|apply dist_within, dist_root]].
      apply (closed_all A from _) with q; [|intros x Hx%(so_frontier _ _ _ Hf); by rewrite E in Hx; apply not_elem_of_nil in Hx|done].
      intros x. rewrite <- (so_within _ _ _ Hf). destruct (decide (x ∈ sd_visited fwd)); auto.
    - destruct (walk_turn _ _ _ _ Hq) as (q' & Hq' & _). apply (Hapart from); [apply (within_mono _ _ 0); [lia|apply dist_within, dist_root]|].
      apply (closed_all (turned A) to _) with q'; [|intros x Hx%(so_frontier _ _ _ Hb); by rewrite E in Hx; apply not_elem_of_nil in Hx|done].
      intros x. rewrite <- (so_within _ _ _ Hb). destruct (decide (x ∈ sd_visited bwd)); auto. }
  rewrite (u32_add_small (sd_depth fwd)) by lia. destruct (Z.leb_spec max_d (sd_depth fwd + sd_depth bwd)) as [Hle|Hlt].
  { exists (Ok None). split; [done|]. intros q Hq. pose proof (apart_far A from to _ _ q Hapart Hq). lia. }
  destruct (length (sd_frontier fwd) <=? length (sd_frontier bwd))%nat.
  - destruct (search_layer_spec dir A (fun _ _ _ => iff_refl _) from fwd bwd blocked tv Hf Ha1 Hbl Ht ltac:(lia)) as (r & -> & Hr). cbn [mbind option_bind].
    destruct r as [[[[fwd' blocked'] tv'] [m|]]|e]; [| |by exists (Err e)].
    + destruct Hr as (Hmb & Hdm & V & Hpar & HmV). destruct (so_dist _ _ _ Hb m Hmb) as (k & Hk & Hdk).
      destruct (meeting_shortest V (sd_parent fwd') (sd_visited bwd) (sd_parent bwd) m (S (Z.to_nat (sd_depth fwd))) k (Z.to_nat (sd_depth fwd)) (Z.to_nat (sd_depth bwd))) as (path & -> & Hrep);
        [done..|apply (so_parents _ _ _ Hb)|done|done|done|lia|lia|]. by exists (Ok (Some path)).
    + destruct Hr as (Hf' & Hdepth & Hbl' & Ht' & Hvis). apply IH; try done; [|lia..]. intros x [?|?]%Hvis; [by apply Hdis|done].
  - destruct (search_layer_spec (reverse_direction dir) (turned A) (turned_arcs dir) to bwd fwd blocked tv Hb Ha2 Hbl Ht ltac:(lia)) as (r & -> & Hr). cbn [mbind option_bind].
    destruct r as [[[[bwd' blocked'] tv'] [m|]]|e]; [| |by exists (Err e)].
    + destruct Hr as (Hmf & Hdm & V & Hpar & HmV). destruct (so_dist _ _ _ Hf m Hmf) as (k & Hk & Hdk).
      destruct (meeting_shortest (sd_visited fwd) (sd_parent fwd) V (sd_parent bwd') m k (S (Z.to_nat (sd_depth bwd))) (Z.to_nat (sd_depth fwd)) (Z.to_nat (sd_depth bwd))) as (path & -> & Hrep);
        [apply (so_parents _ _ _ Hf)|done..|lia|lia|]. by exists (Ok (Some path)).
    + destruct Hr as (Hb' & Hdepth & Hbl' & Ht' & Hvis). apply IH; try done; [|lia..]. intros x Hx Hx'. apply Hvis in Hx' as [?|?]; [by apply (Hdis x)|done].
Qed.
End Both.

(** ** The search without parents *)
Definition bare_of (sd : Side) : BareSide := mkBare (sd_frontier sd) (sd_visited sd) (sd_depth sd).
Lemma layer_each_bare visited others blocked arcs order cands candidates :
  (forall m, m ∈ candidates <-> is_Some (cands !! m)) ->
  let '((order1, cands1), stop1) := each (on_layer_neighbor cutoffs visited others blocked) arcs (order, cands) in
  let '((order2, _), stop2) := each (on_layer_neighbor_bare cutoffs visited others blocked) arcs (order, candidates) in
  order1 = order2 /\ stop1 = stop2.
Proof.
  revert order cands candidates. induction arcs as [|[[n m] e] arcs IH]; intros order cands candidates Hc; [done|].
  cbn [each on_layer_neighbor on_layer_neighbor_bare].
  rewrite (bool_decide_ext (m ∈ candidates) (is_Some (cands !! m))) by apply Hc.
  destruct (bool_decide (m ∈ visited)), (bool_decide (m ∈ blocked)), (bool_decide (is_Some (cands !! m))); cbn [orb andb negb]; try by apply IH.
  destruct (no_policies cutoffs && bool_decide (m ∈ others)); [done|]. apply IH. intros m'.
  rewrite elem_of_union, elem_of_singleton, Hc, lookup_insert_is_Some'. naive_solver.
Qed.
Lemma settle_bare_same others order cands visited parent next meeting V P N M :
  settle_layer others order cands visited parent next meeting = Some (V, P, N, M) ->
  settle_bare others order visited next (bool_decide (is_Some meeting)) = (V, N, bool_decide (is_Some M)).
Proof.
  revert cands visited parent next meeting. induction order as [|m order IH]; intros cands visited parent next meeting; cbn [settle_layer settle_bare].
  { by intros [= <- _ <- <-]. }
  destruct (cands !! m) as [via|]; [cbn [mbind option_bind]|done].
  assert (negb (bool_decide (is_Some meeting)) = bool_decide (meeting = None)) as -> by by destruct meeting.
  destruct (bool_decide (meeting = None) && bool_decide (m ∈ others)); intros E%IH; exact E.
Qed.
Lemma search_layer_bare_same dir this other blocked tv1 tv2 r :
  tv_ok self tv1 -> tv_ok self tv2 ->
  search_layer self cutoffs labels time dir this other blocked tv1 = Some r ->
  match r with
  | Err e => search_layer_bare self cutoffs labels time dir (bare_of this) (bare_of other) blocked tv2 = Err e
  | Ok (this', blocked', tv1', meeting) => exists tv2', tv_ok self tv1' /\ tv_ok self tv2' /\
      search_layer_bare self cutoffs labels time dir (bare_of this) (bare_of other) blocked tv2
      = Ok (bare_of this', blocked', tv2', bool_decide (is_Some meeting))
  end.
Proof.
  intros Ht1 Ht2. unfold search_layer, search_layer_bare, bare_of. cbn [bs_frontier bs_visited bs_depth].
  destruct (expand_frontier_each edge_in self dir labels time (on_layer_neighbor cutoffs (sd_visited this) (sd_visited other) blocked)
    (sd_frontier this) tv1 ([], ∅) Ht1) as (tv1' & Ht1' & ->).
  destruct (expand_frontier_each edge_in self dir labels time (on_layer_neighbor_bare cutoffs (sd_visited this) (sd_visited other) blocked)
    (sd_frontier this) tv2 ([], ∅) Ht2) as (tv2' & Ht2' & ->).
  destruct (expansion_arcs self dir labels time (sd_frontier this)) as [arcs failure].
  pose proof (layer_each_bare (sd_visited this) (sd_visited other) blocked arcs [] ∅ ∅) as Hsame.
  destruct (each (on_layer_neighbor _ _ _ _) arcs _) as [[order cands] stop], (each (on_layer_neighbor_bare _ _ _ _) arcs _) as [[order2 cands2] stop2].
  destruct Hsame as [<- <-]. { intros m. rewrite lookup_empty. split; [by intros ?%not_elem_of_empty|by intros []]. }
  destruct failure as [e|]; [destruct stop|]; cbn [mbind result_bind]; try (intros [= <-]; done).
  - destruct (filter_layer self cutoffs order blocked) as [[order' blocked']|e']; cbn [mbind result_bind]; [|by intros [= <-]].
    destruct (settle_layer _ _ _ _ _ _ _) as [[[[V P] N] M]|] eqn:Es; [|done]. cbn [mbind option_bind]. intros [= <-].
    apply settle_bare_same in Es. change (bool_decide (is_Some None)) with false in Es. rewrite Es. exists tv2'. split_and!; [done..|]. by destruct M.
  - assert (forall b : bool, (if b then @Ok EngineError _ (tv1', (order, cands), true) else Ok (tv1', (order, cands), false)) = Ok (tv1', (order, cands), b)) as -> by by intros [].
    assert (forall b : bool, (if b then @Ok EngineError _ (tv2', (order, cands2), true) else Ok (tv2', (order, cands2), false)) = Ok (tv2', (order, cands2), b)) as -> by by intros [].
    cbn [mbind result_bind].
    destruct (filter_layer self cutoffs order blocked) as [[order' blocked']|e']; cbn [mbind result_bind]; [|by intros [= <-]].
    destruct (settle_layer _ _ _ _ _ _ _) as [[[[V P] N] M]|] eqn:Es; [|done]. cbn [mbind option_bind]. intros [= <-].
    apply settle_bare_same in Es. change (bool_decide (is_Some None)) with false in Es. rewrite Es. exists tv2'. split_and!; [done..|]. by destruct M.
Qed.
Definition found_path (r : res (option ShortestPath)) : res bool := (fun path => bool_decide (is_Some path)) <$> r.
Lemma connected_loop_same fuel dir max_d fwd bwd blocked tv1 tv2 r :
  tv_ok self tv1 -> tv_ok self tv2 ->
  bfs_loop self cutoffs labels time fuel dir max_d fwd bwd blocked tv1 = Some r ->
  connected_loop self cutoffs labels time fuel dir max_d (bare_of fwd) (bare_of bwd) blocked tv2 = Some (found_path r).
Proof.
  revert fwd bwd blocked tv1 tv2. induction fuel as [|fuel IH]; intros fwd bwd blocked tv1 tv2 Ht1 Ht2; [done|]. cbn [bfs_loop connected_loop].
  change (bs_frontier (bare_of ?sd)) with (sd_frontier sd). change (bs_depth (bare_of ?sd)) with (sd_depth sd).
  destruct (bool_decide (sd_frontier fwd = []) || bool_decide (sd_frontier bwd = [])); [by intros [= <-]|].
  destruct (max_d <=? u32_add (sd_depth fwd) (sd_depth bwd)); [by intros [= <-]|].
  destruct (length (sd_frontier fwd) <=? length (sd_frontier bwd))%nat.
  - destruct (search_layer self cutoffs labels time dir fwd bwd blocked tv1) as [r1|] eqn:E; [|done]. cbn [mbind option_bind].
    pose proof (search_layer_bare_same _ _ _ _ _ tv2 _ Ht1 Ht2 E) as Hs.
    destruct r1 as [[[[fwd' blocked'] tv'] [m|]]|e].
    + destruct Hs as (tv2' & _ & _ & ->). destruct (reconstruct_bidir_path _ _ _) as [path|]; [|done]. intros Er%(inj Some). subst r. done.
    + destruct Hs as (tv2' & Ht1' & Ht2' & ->). by apply IH.
    + rewrite Hs. by intros [= <-].
  - destruct (search_layer self cutoffs labels time (reverse_direction dir) bwd fwd blocked tv1) as [r1|] eqn:E; [|done]. cbn [mbind option_bind].
    pose proof (search_layer_bare_same _ _ _ _ _ tv2 _ Ht1 Ht2 E) as Hs.
    destruct r1 as [[[[bwd' blocked'] tv'] [m|]]|e].
    + destruct Hs as (tv2' & _ & _ & ->). destruct (reconstruct_bidir_path _ _ _) as [path|]; [|done]. intros Er%(inj Some). subst r. done.
    + destruct Hs as (tv2' & Ht1' & Ht2' & ->). by apply IH.
    + rewrite Hs. by intros [= <-].
Qed.
End Layers.
End Search.

(** ** The queries *)
Section Queries.
Context `{RmpValue, HashOrderLaws} {Segment : Type} `{!SegmentReads Segment, !SegmentAdjacency Segment}.
Context (node_in : Segment -> Z -> option NodeRecord) (edge_in : Segment -> Z -> option EdgeRecord).
Context `{!SegmentLaws node_in edge_in, !SegmentAdjacencyLaws edge_in}.
Context (self : SourceList (Segment := Segment)) (catalog : gmap str Z) (policies : list ResolvedPrunePolicy) (now : Z).

(** The labels a filter names; [None]: all of them. *)
Definition wanted_labels (names : option (list str)) : option (list Z) :=
  match names with None | Some [] => None | Some names => Some (omap (fun name => catalog !! name) names) end.
Lemma resolve_edge_labels_known names known warnings known' warnings' :
  resolve_edge_labels catalog names known warnings = Ok (known', warnings') -> known' = known ++ omap (fun name => catalog !! name) names.
Proof.
  revert known warnings. induction names as [|name names IH]; intros known warnings; cbn [resolve_edge_labels omap list_omap].
  { intros [= <- _]. by rewrite app_nil_r. }
  unfold resolve_edge_label_for_read. destruct (validate_label_token_name name) as [[]|]; cbn [mbind result_bind]; [|done].
  destruct (catalog !! name); intros E%IH; [by rewrite E, <- app_assoc|done].
Qed.
Lemma resolved_edge_filter names resolution label_id :
  resolve_edge_label_filter_for_read catalog names = Ok resolution ->
  passes_filter (wanted_labels names) label_id
  <-> match resolution with AnyLabel => True | Known ids => label_id ∈ ids | EmptyConstraint => False end.
Proof.
  unfold resolve_edge_label_filter_for_read, resolve_edge_label_filter, wanted_labels.
  destruct names as [[|name names]|]; cbn [mbind result_bind]; [by intros [= <-]| |by intros [= <-]].
  destruct (resolve_edge_labels catalog (name :: names) [] []) as [[known warnings]|] eqn:E; cbn [mbind result_bind]; [|done].
  apply resolve_edge_labels_known in E. rewrite app_nil_l in E. rewrite <- E. unfold passes_filter. destruct known as [|id known].
  - intros [= <-]. by rewrite elem_of_nil.
  - intros [= <-]. by rewrite (proj2 (NodeQueryFacts.sorted_dedup_spec (id :: known)) label_id).
Qed.

(** The hops a query may take, and how many. *)
Definition hop_arcs (options : HopOptions) : Arcs :=
  search_arcs node_in edge_in self (query_policy_cutoffs policies now) (wanted_labels (ic_edge_label_filter options))
    (default now (ic_at_epoch options)) (ic_direction options).
Definition max_hops (options : HopOptions) : Z := default u32_max (ic_max_depth options).
Abbreviation seen_node id := (unpruned node_in self (query_policy_cutoffs policies now) id).

Lemma endpoints_visible from to :
  steady edge_in self ->
  match path_endpoints_visible self (query_policy_cutoffs policies now) from to with
  | Ok b => b = true <-> seen_node from /\ seen_node to
  | Err e => fetch_error get_node_meta_batch e
  end.
Proof.
  intros Hs. unfold path_endpoints_visible. pose proof (visible_node_ids_spec node_in edge_in self (query_policy_cutoffs policies now) Hs [from; to]) as Hv.
  destruct (visible_node_ids self _ [from; to]) as [visible|e]; [|done]. cbn [mbind result_bind].
  rewrite andb_true_iff, !bool_decide_eq_true, !Hv. set_solver.
Qed.
Lemma reports_mono (A B : Arcs) from to max_d path : (forall x y e, A x y e <-> B x y e) -> reports A from to max_d path -> reports B from to max_d path.
Proof.
  intros E (p & Hp & -> & Hmax & Hmin). exists p. split_and!; [|done..|].
  - eapply walk_mono; [|done]. intros x y e. apply E.
  - intros q Hq. apply Hmin. eapply walk_mono; [|done]. intros x y e. apply E.
Qed.

(** C6.  [shortest_path] (counting hops) always answers, and its answer is exact
    over a steady view: ids are never reused and no edge of the active memtable
    is at a deleted node.
    A path it returns runs between two live nodes outside every prune policy,
    over live edges of the labels asked for that are valid at the time asked
    for, in the direction asked for, through nodes no layer deletes and no
    policy prunes; it has the fewest hops of all such walks and no more than the
    depth allows.  When it returns none, an endpoint is not visible or every
    such walk is longer than the depth allows.  It fails only on an invalid
    label name or with an error of a segment.  The depth of the search bounds
    its rounds, and the sum of the depths of the two sides never overflows. *)
Theorem shortest_path_exact fuel from to options :
  steady edge_in self ->
  match ic_max_depth options with Some d => u32 d | None => True end ->
  max_hops options < Z.of_nat fuel ->
  exists r, shortest_path self catalog policies now fuel from to options = Some r /\
  match r with
  | Ok (Some path) => seen_node from /\ seen_node to /\ reports (hop_arcs options) from to (max_hops options) path
  | Ok None => ~ (seen_node from /\ seen_node to) \/ none_within (hop_arcs options) from to (max_hops options)
  | Err e => resolve_edge_label_filter_for_read catalog (ic_edge_label_filter options) = Err e \/ failed self e
  end.
Proof.
  intros Hs Hd Hfuel. unfold shortest_path. assert (0 <= max_hops options < 2 ^ 32) as Hmax.
  { unfold max_hops. destruct (ic_max_depth options); cbn; unfold u32, u32_max in *; lia. }
  destruct (resolve_edge_label_filter_for_read catalog (ic_edge_label_filter options)) as [resolution|e] eqn:Er; [|eexists; split; [done|by left]].
  pose proof (fun l => resolved_edge_filter _ _ l Er) as Hlab. pose proof (endpoints_visible from to Hs) as Hend.
  set (pair := match resolution with AnyLabel => _ | Known _ => _ | EmptyConstraint => _ end).
  assert (exists labels empty, pair = (labels, empty) /\ (forall l, passes_filter labels l <-> passes_filter (wanted_labels (ic_edge_label_filter options)) l)
          /\ (empty = true -> forall l, ~ passes_filter labels l)) as (labels & empty & -> & Hsame & Hempty).
  { destruct resolution; eexists _, _; (split; [reflexivity|]); (split; [intros l; rewrite Hlab; unfold passes_filter; rewrite ?elem_of_nil; done|]); try done. intros _ l Hl. unfold passes_filter in Hl. by apply elem_of_nil in Hl. }
  destruct (path_endpoints_visible self (query_policy_cutoffs policies now) from to) as [[]|e].
  2: { eexists. split; [done|]. left. intros E%Hend. done. }
  2: { eexists. split; [done|]. right. by right. }
  destruct (proj1 Hend eq_refl) as [Hfrom Hto]. destruct (Z.eqb_spec from to) as [<-|Hne].
  { eexists. split; [done|]. cbn. split_and!; [done..|]. exists []. split_and!; [constructor|done|cbn; lia|intros; cbn; lia]. }
  set (A := search_arcs node_in edge_in self (query_policy_cutoffs policies now) labels (default now (ic_at_epoch options)) (ic_direction options)).
  assert (forall x y e, A x y e <-> hop_arcs options x y e) as HA.
  { intros x y e. unfold A, hop_arcs, search_arcs, edge_arc. setoid_rewrite Hsame. done. }
  destruct empty.
  { exists (Ok None). split; [done|]. right. intros q Hq. exfalso. inversion Hq as [|? ? ? ? ? Ha]; subst; [done|]. apply HA in Ha as [(r & _ & _ & Hp & _) _].
    by apply (Hempty eq_refl (er_label_id r)). }
  assert (forall id, seen_node id -> admitted node_in self (query_policy_cutoffs policies now) id) as Hadm.
  { intros id ?. unfold admitted. by destruct (query_policy_cutoffs policies now). }
  destruct (bfs_loop_spec node_in edge_in self (query_policy_cutoffs policies now) Hs labels (default now (ic_at_epoch options)) (ic_direction options) from to
    (max_hops options) fuel (start_side from) (start_side to) ∅ new_tombstones) as (r & Hr & Hres).
  - apply start_side_ok.
  - apply start_side_ok.
  - by apply Hadm.
  - by apply Hadm.
  - by intros b ?%not_elem_of_empty.
  - apply tv_ok_new.
  - cbn. intros x ->%elem_of_singleton ?%elem_of_singleton. done.
  - lia.
  - cbn. lia.
  - lia.
  - cbn. lia.
  - exists r. split; [exact Hr|]. destruct r as [[path|]|e]; cbn in Hres; [|right|by right].
    + split_and!; [done..|]. by eapply reports_mono.
    + intros q Hq. apply Hres. eapply walk_mono; [|done]. intros x y e. apply HA.
Qed.

(** [is_connected] answers exactly whether [shortest_path] finds a path, with
    the same errors: the search that keeps no parents takes the same rounds. *)
Theorem is_connected_agrees fuel from to options r :
  shortest_path self catalog policies now fuel from to options = Some r ->
  is_connected self catalog policies now fuel from to options = Some (found_path r).
Proof.
  unfold shortest_path, is_connected. destruct (resolve_edge_label_filter_for_read _ _) as [resolution|e]; [|by intros [= <-]].
  destruct (match resolution with AnyLabel => _ | Known _ => _ | EmptyConstraint => _ end) as [labels empty].
  destruct (path_endpoints_visible self _ from to) as [[]|e]; [|by intros [= <-]..].
  destruct (from =? to); [intros E%(inj Some); by subst r|]. destruct empty; [by intros [= <-]|].
  intros E. apply (connected_loop_same edge_in self _ _ _ fuel _ _ (start_side from) (start_side to) ∅ new_tombstones new_tombstones r); [apply tv_ok_new..|done].
Qed.
End Queries.
