(* ===== verification/ComponentWitness.v ===== *)
(** Concrete inputs for the theorems on degree sidecars, the label catalog and
    sparse vectors. *)
From S2P Require Import Prelude Types Encoding Wal WalFacts PropertyValue Slots Memtable MemtableWitness Floats DegreeCache DegreeLookup DegreeFold Manifest LabelCatalog LabelCatalogFacts Vectors EngineWitness.

Module ComponentWitness.
#[local] Existing Instance SampleLog.crc. #[local] Existing Instance SampleLog.crc_laws.
#[local] Existing Instance EngineWitness.schemas.
#[local] Existing Instance EngineWitness.sort. #[local] Existing Instance EngineWitness.sort_laws.

(** ** Sidecars *)
Definition first : list (Z * DegreeDelta) :=
  [(1, Delta.add_valid_edge 1 2 EngineWitness.one); (2, Delta.add_valid_edge_incoming EngineWitness.one)].
Definition second : list (Z * DegreeDelta) :=
  [(1, Delta.remove_valid_edge 1 2 EngineWitness.one); (5, Delta.add_temporal_marker)].

Lemma sample_entries_ok : Forall entries_ok [first; second].
Proof.
  assert (forall a b, a.1 < b.1 -> entry_ok a -> entry_ok b -> entries_ok [a; b]) as Hpair.
  { intros a b Hab Ha Hb. split; [cbn; by repeat constructor|by repeat apply Forall_cons_2|by vm_compute]. }
  assert (forall n d, u64 n -> delta_ok d -> Delta.is_zero d = false -> entry_ok (n, d)) as He by (intros; by split_and!).
  unfold delta_ok in He. apply Forall_cons_2; [|apply Forall_cons_2; [|apply Forall_nil_2]]; apply Hpair; try done; apply He; by vm_compute.
Qed.
Lemma first_ok : entries_ok first.
Proof. apply (Forall_inv sample_entries_ok). Qed.

Definition file : list byte := encode_sorted_degree_delta_sidecar_unchecked first.
Definition opened_first : DegreeSidecar := mkSidecar file 2 1.
Definition opened_second : DegreeSidecar := mkSidecar (encode_sorted_degree_delta_sidecar_unchecked second) 2 1.

Lemma sidecar_validation_witness :
  validate_degree_sidecar file = Ok tt
  /\ exists es, entries_ok es /\ write_sorted_degree_delta_sidecar_payload es = Ok file.
Proof.
  assert (validate_degree_sidecar file = Ok tt) as Hv by (vm_compute; reflexivity).
  split; [exact Hv|]. apply (sidecar_validation_exact file); [by vm_compute|exact Hv].
Defined.

Lemma sidecar_lookup_witness : lookup opened_first 2 = Delta.add_valid_edge_incoming EngineWitness.one.
Proof.
  rewrite (sidecar_lookup_exact first opened_first 2 first_ok); vm_compute; reflexivity.
Defined.

Lemma fold_lookups_witness :
  exists payload merged,
    write_folded_degree_delta_sidecar_payload_from_sidecars [opened_first; opened_second] = Some (Ok payload)
    /\ open_payload payload = Ok merged /\ lookup merged 1 = Delta.ZERO /\ lookup merged 5 = Delta.add_temporal_marker.
Proof.
  destruct (fold_preserves_lookups [first; second] [opened_first; opened_second] sample_entries_ok) as (payload & merged & Hw & _ & Ho & Hl).
  - vm_compute. reflexivity.
  - by vm_compute.
  - exists payload, merged. split; [exact Hw|]. split; [exact Ho|]. rewrite !Hl. split; vm_compute; reflexivity.
Defined.

(** ** Labels *)
Definition empty_tokens : Tokens := mkTokens ∅ ∅ ∅ 1.
Lemma empty_tokens_ok : tokens_ok empty_tokens.
Proof.
  split; cbn [empty_tokens label_to_id id_to_label label_wal_generation next_label_id]; [split|intros ? ?|intros ? ?|unfold u32_max; lia|intros ? ?];
    try rewrite lookup_empty; try done; intros [=].
Qed.
Lemma reserved_label_witness :
  Catalog.reserve empty_tokens (str_of "Person") = Ok (1, true)
  /\ exists t', Catalog.apply_label empty_tokens (str_of "Person") 1 (Some 7) = Ok t' /\ tokens_ok t'.
Proof.
  assert (Catalog.reserve empty_tokens (str_of "Person") = Ok (1, true)) as Hr by (vm_compute; reflexivity).
  split; [exact Hr|]. destruct (reserved_label_applies _ _ _ _ (Some 7) empty_tokens_ok Hr) as [_ (t' & Ht & Hok & _)].
  by exists t'.
Defined.

(** A label of generation 1, then a node and another label in generation 2. *)
Definition log : list (Z * WalOp) :=
  [(1, EnsureNodeLabel (str_of "Person") 1); (2, UpsertNode (MemtableWitness.node 1 [1] "a" 10));
   (2, EnsureEdgeLabel (str_of "KNOWS") 1)].
Definition start : RuntimeLabelCatalog := mkCatalog empty_tokens empty_tokens.
Definition live : RuntimeLabelCatalog := match live_all start log with Ok c => c | Err _ => start end.

Lemma checkpoint_witness :
  exists c1 c', Catalog.from_manifest (Catalog.apply_checkpointed_to_manifest live (Some 1) default_manifest) = Ok c1
    /\ replay_all c1 [(2, UpsertNode (MemtableWitness.node 1 [1] "a" 10)); (2, EnsureEdgeLabel (str_of "KNOWS") 1)] = Ok c'
    /\ same_names c' live.
Proof.
  apply (checkpoint_restores_labels default_manifest start log live default_manifest (Some 1)).
  - assert (tokens_typed ∅ 1) as Ht by (split; [intros l i; by rewrite lookup_empty|unfold u32; lia]). by split.
  - vm_compute. reflexivity.
  - vm_compute. reflexivity.
  - unfold log. repeat (apply Forall_cons_2 || apply Forall_nil_2); by vm_compute.
  - vm_compute. reflexivity.
  - unfold persisted_between. cbn [ms_node_label_tokens ms_edge_label_tokens default_manifest ms_next_node_label_id ms_next_edge_label_id].
    repeat split; try apply map_empty_subseteq; by vm_compute.
Defined.

(** ** Sparse vectors: dimension 7 is given twice, 9 has weight zero. *)
Definition sparse : list (Z * Z) := [(7, EngineWitness.one); (9, 0); (2, EngineWitness.one); (7, EngineWitness.one)].
Lemma sparse_canonical_witness :
  exists w, canonicalize_sparse_vector sparse = Ok (Some w) /\ w = [(2, EngineWitness.one); (7, 0x40000000)]
    /\ StronglySorted Z.lt (fst <$> w) /\ canonicalize_sparse_vector w = Ok (Some w).
Proof.
  assert (canonicalize_sparse_vector sparse = Ok (Some [(2, EngineWitness.one); (7, 0x40000000)])) as Hc by (vm_compute; reflexivity).
  destruct (sparse_canonical_form _ _ Hc) as (Hs & _ & _ & Hi).
  eexists. exact (conj Hc (conj eq_refl (conj Hs Hi))).
Defined.
End ComponentWitness.
