(* ===== verification/WritePlan.v ===== *)
(** The planner of core writes (src/engine/write.rs): a request is validated,
    its labels are given ids, the records it touches are looked up in the
    current sources, and the operations to log are listed.  What a transaction
    plans is in TxnPlan; the requests that only change the manifest are left
    out.  The clock is read once per plan ([now]); counters wrap as they do in a
    release build. *)
From S2P Require Import Prelude Types Floats PropertyValue Slots Memtable MemtableReads Manifest LabelCatalog Vectors DegreeEngine FilterBase NodeFilter NodeQuery SourceList SourceKeys Adjacency.
Import SourceList.

(** ** Requests, replies and plans *)
Record UpsertNodeOptions : Type := mkNodeOptions {
  no_props : props;
  no_weight : Z;
  no_dense_vector : option (list Z);
  no_sparse_vector : option (list (Z * Z))
}.
Record NodeInput : Type := mkNodeInput {
  ni_labels : list str;
  ni_key : str;
  ni_props : props;
  ni_weight : Z;
  ni_dense_vector : option (list Z);
  ni_sparse_vector : option (list (Z * Z))
}.
Record UpsertEdgeOptions : Type := mkEdgeOptions {
  eo_props : props;
  eo_weight : Z;
  eo_valid_from : option Z;
  eo_valid_to : option Z
}.
Record EdgeInput : Type := mkEdgeInput {
  ei_from : Z;
  ei_to : Z;
  ei_label : str;
  ei_props : props;
  ei_weight : Z;
  ei_valid_from : option Z;
  ei_valid_to : option Z
}.
Record GraphPatch : Type := mkPatch {
  gp_upsert_nodes : list NodeInput;
  gp_upsert_edges : list EdgeInput;
  gp_invalidate_edges : list (Z * Z);
  gp_delete_node_ids : list Z;
  gp_delete_edge_ids : list Z
}.
Record PrunePolicy : Type := mkPrunePolicy { pp_max_age_ms : option Z; pp_max_weight : option Z; pp_label : option str }.

Inductive CoreWriteRequest : Type :=
| ReqEnsureNodeLabel (label : str)
| ReqEnsureEdgeLabel (label : str)
| ReqUpsertNode (labels : list str) (key : str) (options : UpsertNodeOptions)
| ReqAddNodeLabel (id : Z) (label : str)
| ReqRemoveNodeLabel (id : Z) (label : str)
| ReqUpsertEdge (from to : Z) (label : str) (options : UpsertEdgeOptions)
| ReqBatchUpsertNodes (inputs : list NodeInput)
| ReqBatchUpsertEdges (inputs : list EdgeInput)
| ReqDeleteNode (id : Z)
| ReqDeleteEdge (id : Z)
| ReqInvalidateEdge (id valid_to : Z)
| ReqGraphPatch (patch : GraphPatch)
| ReqPrune (policy : PrunePolicy).
Inductive CoreWriteReply : Type :=
| ReplyU32 (label_id : Z)
| ReplyU64 (id : Z)
| ReplyVecU64 (ids : list Z)
| ReplyUnit
| ReplyOptionEdge (edge : option EdgeRecord)
| ReplyPatchResult (node_ids edge_ids : list Z)
| ReplyPruneResult (nodes_pruned edges_pruned : Z)
| ReplyBool (b : bool).
Record CoreWritePlan : Type := mkPlan {
  pl_ops : list WalOp;
  pl_reply : CoreWriteReply;
  pl_auto_flush : bool;
  pl_track_ids : bool;
  pl_label_catalog_changed : bool
}.

(** ** Validation *)
Definition ValidatedNodeLabelList_new (labels : list str) : res (list str) :=
  _ ← NodeQuery.check_label_names labels;
  if (length labels =? 0)%nat then Err (InvalidOperation "node label set must contain at least one label")
  else if (MAX_NODE_LABELS_PER_NODE <? length labels)%nat then Err (InvalidOperation "node label set must contain at most 10 labels")
  else _ ← NodeQuery.check_distinct [] labels; Ok labels.
Definition validate_prune_policy (policy : PrunePolicy) : res unit :=
  _ ← match pp_label policy with Some label => validate_label_token_name label | None => Ok tt end;
  if bool_decide (pp_max_age_ms policy = None) && bool_decide (pp_max_weight policy = None)
  then Err (InvalidOperation "Prune policy must set at least max_age_ms or max_weight")
  else if match pp_max_age_ms policy with Some age => age <=? 0 | None => false end
  then Err (InvalidOperation "max_age_ms must be positive")
  else if match pp_max_weight policy with Some w => is_nan F32 w || flt F32 w 0 | None => false end
  then Err (InvalidOperation "max_weight must be non-negative and not NaN")
  else Ok tt.
Definition validate_node_key_for_write (key : str) : res unit :=
  if 65535 <? len key then Err (InvalidOperation "node key must be at most 65535 UTF-8 bytes") else Ok tt.
Definition node_key_conflict_error : EngineError :=
  InvalidOperation "node key conflict: requested label memberships resolve to two node IDs".

(** ** Ids for labels *)
(** One half of a [LabelResolutionPlan]: node labels, or edge labels. *)
Record TokenPlan : Type := mkTokenPlan {
  tp_catalog : Tokens;
  tp_to_create : list (str * Z);
  tp_new_label_to_id : gmap str Z;
  tp_next_label_id : Z
}.
Record LabelResolutionPlan : Type := mkLabelPlan { lp_node : TokenPlan; lp_edge : TokenPlan }.
Definition token_plan (t : Tokens) : TokenPlan := mkTokenPlan t [] ∅ (next_label_id t).
Definition from_catalog (catalog : RuntimeLabelCatalog) : LabelResolutionPlan :=
  mkLabelPlan (token_plan (cat_node catalog)) (token_plan (cat_edge catalog)).

Definition resolve_label_for_write (p : TokenPlan) (label : str) : res (Z * TokenPlan) :=
  match label_to_id (tp_catalog p) !! label with
  | Some label_id => Ok (label_id, p)
  | None =>
      match tp_new_label_to_id p !! label with
      | Some label_id => Ok (label_id, p)
      | None =>
          _ ← validate_label_token_name label;
          if tp_next_label_id p =? u32_max then Err (InvalidOperation "label token ID space exhausted")
          else
            let label_id := tp_next_label_id p in
            Ok (label_id, mkTokenPlan (tp_catalog p) (tp_to_create p ++ [(label, label_id)])
                            (<[label := label_id]> (tp_new_label_to_id p)) (label_id + 1))
      end
  end.
Definition resolve_node_label_for_write (p : LabelResolutionPlan) (label : str) : res (Z * LabelResolutionPlan) :=
  '(label_id, node) ← resolve_label_for_write (lp_node p) label; Ok (label_id, mkLabelPlan node (lp_edge p)).
Definition resolve_edge_label_for_write (p : LabelResolutionPlan) (label : str) : res (Z * LabelResolutionPlan) :=
  '(label_id, edge) ← resolve_label_for_write (lp_edge p) label; Ok (label_id, mkLabelPlan (lp_node p) edge).

(** Each label of a list; a label met before is answered by the request's own
    table. *)
Fixpoint resolve_each (resolve : LabelResolutionPlan -> str -> res (Z * LabelResolutionPlan)) (p : LabelResolutionPlan)
    (resolved : gmap str Z) (labels : list str) : res (list Z * LabelResolutionPlan * gmap str Z) :=
  match labels with
  | [] => Ok ([], p, resolved)
  | label :: labels =>
      '(label_id, p, resolved) ← match resolved !! label with
                                 | Some label_id => Ok (label_id, p, resolved)
                                 | None => '(label_id, p) ← resolve p label; Ok (label_id, p, <[label := label_id]> resolved)
                                 end;
      '(ids, p, resolved) ← resolve_each resolve p resolved labels;
      Ok (label_id :: ids, p, resolved)
  end.
Fixpoint resolve_all (p : LabelResolutionPlan) (labels : list str) : res (list Z * LabelResolutionPlan) :=
  match labels with
  | [] => Ok ([], p)
  | label :: labels =>
      '(label_id, p) ← resolve_node_label_for_write p label;
      '(ids, p) ← resolve_all p labels;
      Ok (label_id :: ids, p)
  end.
Definition resolve_validated_node_label_set_for_write (p : LabelResolutionPlan) (labels : list str)
  : res (NodeLabelSet * LabelResolutionPlan) :=
  '(ids, p) ← resolve_all p labels; label_set ← NodeLabels.from_label_ids ids; Ok (label_set, p).
Fixpoint resolve_label_sets (p : LabelResolutionPlan) (resolved : gmap str Z) (requests : list (list str))
  : res (list NodeLabelSet * LabelResolutionPlan) :=
  match requests with
  | [] => Ok ([], p)
  | labels :: requests =>
      '(ids, p, resolved) ← resolve_each resolve_node_label_for_write p resolved labels;
      label_set ← NodeLabels.from_label_ids ids;
      '(label_sets, p) ← resolve_label_sets p resolved requests;
      Ok (label_set :: label_sets, p)
  end.
Definition resolve_validated_node_label_sets_for_request (p : LabelResolutionPlan) (requests : list (list str)) := resolve_label_sets p ∅ requests.
Definition resolve_edge_label_ids_for_request (p : LabelResolutionPlan) (edge_labels : list str) : res (list Z * LabelResolutionPlan) :=
  '(ids, p, _) ← resolve_each resolve_edge_label_for_write p ∅ edge_labels; Ok (ids, p).

Definition token_op_count (p : LabelResolutionPlan) : Z := len (tp_to_create (lp_node p)) + len (tp_to_create (lp_edge p)).
Definition push_token_ops (p : LabelResolutionPlan) : list WalOp :=
  ((fun '(label, label_id) => EnsureNodeLabel label label_id) <$> tp_to_create (lp_node p))
  ++ ((fun '(label, label_id) => EnsureEdgeLabel label label_id) <$> tp_to_create (lp_edge p)).
Definition label_catalog_changed (p : LabelResolutionPlan) : bool := 0 <? token_op_count p.

(** ** What segments answer to the planner *)
Class SegmentScans (Segment : Type) : Type := {
  segment_neighbors : Segment -> Z -> Direction -> option (list Z) -> Z -> res (list NeighborRecord);
  segment_nodes_by_label_id : Segment -> Z -> res (list Z);
  segment_node_metas : Segment -> res (list Z)
}.

(** An allocated id, with the time its record was created. *)
Abbreviation Allocated := (Z * Z)%type.
Definition next_u64 (id : Z) : Z := to_bits 64 (id + 1).

(** The staging of a batch of node upserts. *)
Record StagedNodes : Type := mkStaged {
  sn_batch_keys : gmap (Z * str) Allocated;
  sn_removed_keys : gset (Z * str);
  sn_label_sets : gmap Z NodeLabelSet;
  sn_next_node_id : Z
}.
Definition NormalizedVectors : Type := option (list Z) * option (list (Z * Z)).

(** [HashSet::insert] guarding a push. *)
Definition push_distinct {A} `{Countable A} (acc : list A * gset A) (x : A) : list A * gset A :=
  let '(items, seen) := acc in if bool_decide (x ∈ seen) then acc else (items ++ [x], {[x]} ∪ seen).
Definition distinct {A} `{Countable A} (items : list A) : list A := fst (foldl push_distinct ([], ∅) items).

Definition take_winner (winner : option Allocated) (found : Allocated) : res (option Allocated) :=
  match winner with
  | Some (winner_id, _) => if bool_decide (winner_id ≠ fst found) then Err node_key_conflict_error else Ok winner
  | None => Ok (Some found)
  end.
Fixpoint one_winner (winner : option Allocated) (found : list (option Allocated)) : res (option Allocated) :=
  match found with
  | [] => Ok winner
  | None :: found => one_winner winner found
  | Some node :: found => winner ← take_winner winner node; one_winner winner found
  end.

Section Records.
Context (committed_keys : gmap (Z * str) NodeRecord) (committed_nodes_by_id : gmap Z NodeRecord) (now : Z).

Definition membership (s : StagedNodes) (key_tuple : Z * str) : option Allocated :=
  match sn_batch_keys s !! key_tuple with
  | Some m => Some m
  | None =>
      if bool_decide (key_tuple ∈ sn_removed_keys s) then None
      else (fun node => (nr_id node, nr_created_at node)) <$> committed_keys !! key_tuple
  end.
Definition drop_old_keys (label_set : NodeLabelSet) (key : str) (old_labels : list Z) (s : StagedNodes) : StagedNodes :=
  foldl (fun s old_label_id =>
    if NodeLabels.contains label_set old_label_id then s
    else mkStaged (delete (old_label_id, key) (sn_batch_keys s)) ({[(old_label_id, key)]} ∪ sn_removed_keys s) (sn_label_sets s) (sn_next_node_id s))
    s old_labels.
Definition put_new_keys (m : Allocated) (key : str) (labels : list Z) (s : StagedNodes) : StagedNodes :=
  foldl (fun s new_label_id =>
    mkStaged (<[(new_label_id, key) := m]> (sn_batch_keys s)) (sn_removed_keys s ∖ {[(new_label_id, key)]}) (sn_label_sets s) (sn_next_node_id s))
    s labels.
Definition allocate_node (s : StagedNodes) (winner : option Allocated) : res (Allocated * StagedNodes) :=
  match winner with
  | Some existing => Ok (existing, s)
  | None =>
      let id := sn_next_node_id s in
      if id =? u64_max then Err (InvalidOperation "node id counter overflow")
      else Ok ((id, now), mkStaged (sn_batch_keys s) (sn_removed_keys s) (sn_label_sets s) (id + 1))
  end.
Definition stage_node (label_set : NodeLabelSet) (key : str) (m : Allocated) (s : StagedNodes) : StagedNodes :=
  let id := fst m in
  let previous_labels :=
    match sn_label_sets s !! id with Some labels => Some labels | None => nr_label_ids <$> committed_nodes_by_id !! id end in
  let s := match previous_labels with
           | Some previous_labels => drop_old_keys label_set key (NodeLabels.as_slice previous_labels) s
           | None => s
           end in
  let s := put_new_keys m key (NodeLabels.as_slice label_set) s in
  mkStaged (sn_batch_keys s) (sn_removed_keys s) (<[id := label_set]> (sn_label_sets s)) (sn_next_node_id s).
Definition node_record (input : NodeInput) (label_set : NodeLabelSet) (vectors : NormalizedVectors) (m : Allocated) : NodeRecord :=
  mkNodeRecord (fst m) label_set (ni_key input) (ni_props input) (snd m) now (ni_weight input) (fst vectors) (snd vectors) 0.
Fixpoint plan_records (inputs : list (NodeInput * NodeLabelSet * NormalizedVectors)) (s : StagedNodes)
  : res (list NodeRecord * list Z * Z) :=
  match inputs with
  | [] => Ok ([], [], sn_next_node_id s)
  | (input, label_set, vectors) :: inputs =>
      winner ← one_winner None ((fun label_id => membership s (label_id, ni_key input)) <$> NodeLabels.as_slice label_set);
      '(m, s) ← allocate_node s winner;
      '(records, ids, next_node_id) ← plan_records inputs (stage_node label_set (ni_key input) m s);
      Ok (node_record input label_set vectors m :: records, fst m :: ids, next_node_id)
  end.
End Records.

Definition edge_record (now : Z) (m : Allocated) (from to label_id : Z) (p : props) (weight : Z) (valid_from valid_to : option Z) : EdgeRecord :=
  mkEdgeRecord (fst m) from to label_id p (snd m) now weight (default (snd m) valid_from) (default i64_max valid_to) 0.

Section Planner.
Context {Segment : Type} `{SegmentReads Segment, SegmentKeys Segment, SegmentAdjacency Segment, SegmentScans Segment}.
Context `{HashOrder, UnstableSort}.
Abbreviation Sources := (SourceList (Segment := Segment)).

(** The fields of [EngineCore] that planning reads, and the id counters it
    moves. *)
Record PlanCore : Type := mkPlanCore {
  pc_sources : Sources;
  pc_label_catalog : RuntimeLabelCatalog;
  pc_dense_vector : option DenseVectorConfig;
  pc_edge_uniqueness : bool;
  pc_next_node_id : Z;
  pc_next_edge_id : Z
}.
Implicit Types (self : PlanCore).
Definition set_next_node_id (id : Z) self : PlanCore :=
  mkPlanCore (pc_sources self) (pc_label_catalog self) (pc_dense_vector self) (pc_edge_uniqueness self) id (pc_next_edge_id self).
Definition set_next_edge_id (id : Z) self : PlanCore :=
  mkPlanCore (pc_sources self) (pc_label_catalog self) (pc_dense_vector self) (pc_edge_uniqueness self) (pc_next_node_id self) id.

(** ** Lookups *)
Definition allocated_node (node : NodeRecord) : Allocated := (nr_id node, nr_created_at node).
Definition allocated_edge (edge : EdgeRecord) : Allocated := (er_id edge, er_created_at edge).
Definition find_existing_node self (label_id : Z) (key : str) : res (option Allocated) :=
  found ← find_node_by_label_key (pc_sources self) label_id key; Ok (option_map allocated_node found).
Definition find_existing_nodes_batch self (keys : list (Z * str)) : res (list (option Allocated)) :=
  found ← find_nodes_by_label_keys (pc_sources self) keys; Ok (map (option_map allocated_node) found).
Definition find_existing_node_for_label_set self (label_ids : NodeLabelSet) (key : str) : res (option Allocated) :=
  existing ← find_existing_nodes_batch self ((fun label_id => (label_id, key)) <$> NodeLabels.as_slice label_ids);
  one_winner None existing.
Definition find_existing_edge self (from to label_id : Z) : res (option Allocated) :=
  found ← find_edge_by_triple (pc_sources self) from to label_id; Ok (option_map allocated_edge found).
Definition find_existing_edges_batch self (triples : list (Z * Z * Z)) : res (list (option Allocated)) :=
  found ← find_edges_by_triples (pc_sources self) triples; Ok (map (option_map allocated_edge) found).

(** ** The neighbours of a node, for cascades *)
(** The layers under the active memtable add the edges not seen yet. *)
Definition add_neighbors (deleted_nodes deleted_edges : gset Z) (acc : list NeighborRecord * gset Z) (entries : list NeighborRecord)
  : list NeighborRecord * gset Z :=
  foldl (fun '(results, seen_edges) entry =>
    if bool_decide (nb_edge_id entry ∈ seen_edges) then (results, seen_edges)
    else
      let seen_edges := {[nb_edge_id entry]} ∪ seen_edges in
      if bool_decide (nb_edge_id entry ∈ deleted_edges) || bool_decide (nb_node_id entry ∈ deleted_nodes) then (results, seen_edges)
      else (results ++ [entry], seen_edges)) acc entries.
Fixpoint add_segment_neighbors (deleted_nodes deleted_edges : gset Z) (node_id : Z) (direction : Direction) (label_filter_ids : option (list Z))
    (segs : list Segment) (acc : list NeighborRecord * gset Z) : res (list NeighborRecord * gset Z) :=
  match segs with
  | [] => Ok acc
  | seg :: segs =>
      entries ← segment_neighbors seg node_id direction label_filter_ids 0;
      add_segment_neighbors deleted_nodes deleted_edges node_id direction label_filter_ids segs (add_neighbors deleted_nodes deleted_edges acc entries)
  end.
(** No planner asks for decayed weights. *)
Definition neighbors_raw (now : Z) (sl : Sources) (node_id : Z) (direction : Direction) (label_filter_ids : option (list Z)) (limit : Z)
    (at_epoch : option Z) (tombstones : option (gset Z * gset Z)) : res (list NeighborRecord) :=
  let '(deleted_nodes, deleted_edges) := default (collect_tombstones sl) tombstones in
  let reference_time := default now at_epoch in
  let results := neighbors_at (active sl) node_id direction label_filter_ids 0 (snapshot_seq sl) in
  let seen_edges := list_to_set (nb_edge_id <$> results) in
  let acc := foldl (fun acc epoch =>
               add_neighbors deleted_nodes deleted_edges acc (neighbors_at epoch node_id direction label_filter_ids 0 (snapshot_seq sl)))
               (results, seen_edges) (immutable sl) in
  '(results, _) ← add_segment_neighbors deleted_nodes deleted_edges node_id direction label_filter_ids (segments sl) acc;
  let results := base.filter (fun entry => is_edge_valid_at (nb_valid_from entry) (nb_valid_to entry) reference_time = true) results in
  Ok (if (0 <? limit) && (limit <? len results) then take (Z.to_nat limit) results else results).

(** ** Plans *)
(** The plan of one request, and the core with its counters moved; an error
    after the counters were moved leaves them so. *)
Definition Planned : Type := PlanCore * res CoreWritePlan.
Definition no_ops (reply : CoreWriteReply) : CoreWritePlan := mkPlan [] reply false false false.

Definition plan_ensure_node_label self (label : str) : res CoreWritePlan :=
  '(label_id, should_create) ← Catalog.reserve_node_label (pc_label_catalog self) label;
  Ok (mkPlan (if should_create : bool then [EnsureNodeLabel label label_id] else []) (ReplyU32 label_id) false false should_create).
Definition plan_ensure_edge_label self (label : str) : res CoreWritePlan :=
  '(label_id, should_create) ← Catalog.reserve_edge_label (pc_label_catalog self) label;
  Ok (mkPlan (if should_create : bool then [EnsureEdgeLabel label label_id] else []) (ReplyU32 label_id) false false should_create).

Definition plan_upsert_node (now : Z) self (labels : list str) (key : str) (options : UpsertNodeOptions) : res (PlanCore * CoreWritePlan) :=
  validated_labels ← ValidatedNodeLabelList_new labels;
  _ ← validate_node_key_for_write key;
  '(dense_vector, sparse_vector) ← normalize_node_vectors_for_write (pc_dense_vector self) (no_dense_vector options) (no_sparse_vector options);
  '(label_ids, label_plan) ← resolve_validated_node_label_set_for_write (from_catalog (pc_label_catalog self)) validated_labels;
  existing ← find_existing_node_for_label_set self label_ids key;
  let '((id, created_at), self') :=
    match existing with
    | Some m => (m, self)
    | None => ((pc_next_node_id self, now), set_next_node_id (next_u64 (pc_next_node_id self)) self)
    end in
  let node := mkNodeRecord id label_ids key (no_props options) created_at now (no_weight options) dense_vector sparse_vector 0 in
  Ok (self', mkPlan (push_token_ops label_plan ++ [UpsertNode node]) (ReplyU64 id) true false (label_catalog_changed label_plan)).

Definition with_labels (node : NodeRecord) (label_ids : NodeLabelSet) (updated_at : Z) : NodeRecord :=
  mkNodeRecord (nr_id node) label_ids (nr_key node) (nr_props node) (nr_created_at node) updated_at (nr_weight node)
    (nr_dense_vector node) (nr_sparse_vector node) (nr_last_write_seq node).
Definition existing_node self (id : Z) : res NodeRecord :=
  found ← find_nodes (pc_sources self) [id];
  match mjoin (head found) with
  | Some node => Ok node
  | None => Err (InvalidOperation "node does not exist")
  end.
Definition plan_add_node_label (now : Z) self (id : Z) (label : str) : res CoreWritePlan :=
  _ ← validate_label_token_name label;
  current ← existing_node self id;
  let existing_label_id := label_to_id (cat_node (pc_label_catalog self)) !! label in
  if match existing_label_id with Some label_id => NodeLabels.contains (nr_label_ids current) label_id | None => false end
  then Ok (no_ops (ReplyBool false))
  else if nls_count (nr_label_ids current) =? Z.of_nat MAX_NODE_LABELS_PER_NODE
  then Err (InvalidOperation "node label set must contain at most 10 labels")
  else
    let label_plan := from_catalog (pc_label_catalog self) in
    '(label_id, label_plan) ← match existing_label_id with
                              | Some label_id => Ok (label_id, label_plan)
                              | None => resolve_node_label_for_write label_plan label
                              end;
    existing ← find_existing_node self label_id (nr_key current);
    if match existing with Some (existing_id, _) => negb (existing_id =? nr_id current) | None => false end
    then Err node_key_conflict_error
    else
      label_ids ← NodeLabels.from_label_ids (NodeLabels.as_slice (nr_label_ids current) ++ [label_id]);
      Ok (mkPlan (push_token_ops label_plan ++ [UpsertNode (with_labels current label_ids now)]) (ReplyBool true) true false
            (label_catalog_changed label_plan)).
Definition plan_remove_node_label (now : Z) self (id : Z) (label : str) : res CoreWritePlan :=
  _ ← validate_label_token_name label;
  current ← existing_node self id;
  resolved ← NodeQuery.resolve_node_label_for_read (label_to_id (cat_node (pc_label_catalog self))) label;
  match resolved with
  | None => Ok (no_ops (ReplyBool false))
  | Some label_id =>
      if negb (NodeLabels.contains (nr_label_ids current) label_id) then Ok (no_ops (ReplyBool false))
      else if nls_count (nr_label_ids current) =? 1 then Err (InvalidOperation "cannot remove the last node label")
      else
        label_ids ← NodeLabels.from_label_ids (base.filter (fun existing => existing ≠ label_id) (NodeLabels.as_slice (nr_label_ids current)));
        Ok (mkPlan [UpsertNode (with_labels current label_ids now)] (ReplyBool true) true false false)
  end.

Definition plan_upsert_edge (now : Z) self (from to : Z) (label : str) (options : UpsertEdgeOptions) : res (PlanCore * CoreWritePlan) :=
  '(label_id, should_create_token) ← Catalog.reserve_edge_label (pc_label_catalog self) label;
  let fresh := ((pc_next_edge_id self, now), set_next_edge_id (next_u64 (pc_next_edge_id self)) self) in
  '(m, self) ← (if pc_edge_uniqueness self then
                  existing ← find_existing_edge self from to label_id;
                  Ok (match existing with Some m => (m, self) | None => fresh end)
                else Ok fresh);
  let edge := edge_record now m from to label_id (eo_props options) (eo_weight options) (eo_valid_from options) (eo_valid_to options) in
  Ok (self, mkPlan ((if should_create_token : bool then [EnsureEdgeLabel label label_id] else []) ++ [UpsertEdge edge])
              (ReplyU64 (fst m)) true false should_create_token).

(** *** Batches of nodes *)
Fixpoint validate_inputs self (inputs : list NodeInput) : res (list (list str * NormalizedVectors)) :=
  match inputs with
  | [] => Ok []
  | input :: inputs =>
      validated_labels ← ValidatedNodeLabelList_new (ni_labels input);
      _ ← validate_node_key_for_write (ni_key input);
      vectors ← normalize_node_vectors_for_write (pc_dense_vector self) (ni_dense_vector input) (ni_sparse_vector input);
      rest ← validate_inputs self inputs;
      Ok ((validated_labels, vectors) :: rest)
  end.
Definition wanted_keys (inputs : list (NodeInput * NodeLabelSet)) : list (Z * str) :=
  distinct (mjoin ((fun '(input, label_set) => (fun label_id => (label_id, ni_key input)) <$> NodeLabels.as_slice label_set) <$> inputs)).
Definition note_committed (acc : gmap (Z * str) NodeRecord * gmap Z NodeRecord) (found : (Z * str) * option NodeRecord)
  : gmap (Z * str) NodeRecord * gmap Z NodeRecord :=
  let '(committed_keys, committed_nodes_by_id) := acc in
  match found with
  | (_, None) => acc
  | (key, Some node) =>
      (<[key := node]> committed_keys,
       match committed_nodes_by_id !! nr_id node with Some _ => committed_nodes_by_id | None => <[nr_id node := node]> committed_nodes_by_id end)
  end.
Definition plan_node_upsert_records (now : Z) self (inputs : list NodeInput) (label_sets : list NodeLabelSet) (normalized_vectors : list NormalizedVectors)
  : res (list NodeRecord * list Z * Z) :=
  '(committed_keys, committed_nodes_by_id) ← match inputs with
    | [] => Ok (∅, ∅)
    | _ =>
        let distinct_keys := wanted_keys (zip inputs label_sets) in
        existing_nodes ← find_nodes_by_label_keys (pc_sources self) distinct_keys;
        Ok (foldl note_committed (∅, ∅) (zip distinct_keys existing_nodes))
    end;
  plan_records committed_keys committed_nodes_by_id now (zip (zip inputs label_sets) normalized_vectors) (mkStaged ∅ ∅ ∅ (pc_next_node_id self)).
Definition plan_batch_upsert_nodes (now : Z) self (inputs : list NodeInput) : res (PlanCore * CoreWritePlan) :=
  validated ← validate_inputs self inputs;
  '(label_sets, label_plan) ← resolve_validated_node_label_sets_for_request (from_catalog (pc_label_catalog self)) (fst <$> validated);
  '(records, ids, next_node_id) ← plan_node_upsert_records now self inputs label_sets (snd <$> validated);
  Ok (set_next_node_id next_node_id self,
      mkPlan (push_token_ops label_plan ++ (UpsertNode <$> records)) (ReplyVecU64 ids) true false (label_catalog_changed label_plan)).

(** *** Batches of edges *)
Definition edge_triple_of (input : EdgeInput * Z) : Z * Z * Z := (ei_from (fst input), ei_to (fst input), snd input).
Definition committed_triples self (inputs : list (EdgeInput * Z)) : res (gmap (Z * Z * Z) Allocated) :=
  if pc_edge_uniqueness self && negb (bool_decide (length inputs = 0%nat)) then
    let distinct_triples := distinct (edge_triple_of <$> inputs) in
    existing_edges ← find_existing_edges_batch self distinct_triples;
    Ok (foldl (fun committed '(triple, existing) => match existing with Some m => <[triple := m]> committed | None => committed end)
          ∅ (zip distinct_triples existing_edges))
  else Ok ∅.
Definition allocate_edge (now : Z) self (committed batch : gmap (Z * Z * Z) Allocated) (triple : Z * Z * Z) : Allocated * PlanCore :=
  let fresh := ((pc_next_edge_id self, now), set_next_edge_id (next_u64 (pc_next_edge_id self)) self) in
  if pc_edge_uniqueness self then
    match batch !! triple with
    | Some m => (m, self)
    | None => match committed !! triple with Some m => (m, self) | None => fresh end
    end
  else fresh.
Fixpoint plan_edge_records (now : Z) (committed batch : gmap (Z * Z * Z) Allocated) self (inputs : list (EdgeInput * Z))
  : list EdgeRecord * PlanCore :=
  match inputs with
  | [] => ([], self)
  | (input, label_id) :: inputs =>
      let triple := edge_triple_of (input, label_id) in
      let '(m, self) := allocate_edge now self committed batch triple in
      let batch := if pc_edge_uniqueness self then <[triple := m]> batch else batch in
      let edge := edge_record now m (ei_from input) (ei_to input) label_id (ei_props input) (ei_weight input) (ei_valid_from input) (ei_valid_to input) in
      let '(edges, self) := plan_edge_records now committed batch self inputs in
      (edge :: edges, self)
  end.
Definition plan_batch_upsert_edges (now : Z) self (inputs : list EdgeInput) : res (PlanCore * CoreWritePlan) :=
  '(label_ids, label_plan) ← resolve_edge_label_ids_for_request (from_catalog (pc_label_catalog self)) (ei_label <$> inputs);
  committed ← committed_triples self (zip inputs label_ids);
  let '(edges, self) := plan_edge_records now committed ∅ self (zip inputs label_ids) in
  Ok (self, mkPlan (push_token_ops label_plan ++ (UpsertEdge <$> edges)) (ReplyVecU64 (er_id <$> edges)) true false (label_catalog_changed label_plan)).

(** *** Deletes *)
Definition plan_delete_node (now : Z) self (id : Z) : res CoreWritePlan :=
  incident ← neighbors_raw now (pc_sources self) id Both None 0 None None;
  Ok (mkPlan (((fun entry => DeleteEdge (nb_edge_id entry) now) <$> incident) ++ [DeleteNode id now]) ReplyUnit true false false).
Definition plan_delete_edge (now : Z) (id : Z) : CoreWritePlan := mkPlan [DeleteEdge id now] ReplyUnit true false false.
Definition with_valid_to (edge : EdgeRecord) (updated_at valid_to : Z) : EdgeRecord :=
  mkEdgeRecord (er_id edge) (er_from edge) (er_to edge) (er_label_id edge) (er_props edge) (er_created_at edge) updated_at (er_weight edge)
    (er_valid_from edge) valid_to (er_last_write_seq edge).
Definition plan_invalidate_edge (now : Z) self (id valid_to : Z) : res CoreWritePlan :=
  found ← find_edge (pc_sources self) id;
  match found with
  | None => Ok (mkPlan [] (ReplyOptionEdge None) true false false)
  | Some edge =>
      let updated := with_valid_to edge now valid_to in
      Ok (mkPlan [UpsertEdge updated] (ReplyOptionEdge (Some updated)) true false false)
  end.

(** *** Patches *)
(** The operations so far, the last one that writes each edge, and the edges
    written at each node. *)
Record Staging : Type := mkStaging {
  st_ops : list WalOp;
  st_edge_op_idx : gmap Z nat;
  st_incident_edges : gmap Z (list Z)
}.
Definition stage_incident (edge : EdgeRecord) (s : Staging) : Staging :=
  let push n incident := <[n := default [] (incident !! n) ++ [er_id edge]]> incident in
  let incident := push (er_from edge) (st_incident_edges s) in
  mkStaging (st_ops s) (st_edge_op_idx s) (if er_to edge =? er_from edge then incident else push (er_to edge) incident).
Definition stage_edge (edge : EdgeRecord) (s : Staging) : Staging :=
  mkStaging (st_ops s ++ [UpsertEdge edge]) (<[er_id edge := length (st_ops s)]> (st_edge_op_idx s)) (st_incident_edges s).

Definition inv_lookup_ids (s : Staging) (invalidate_edges : list (Z * Z)) : list Z :=
  distinct (base.filter (fun id => st_edge_op_idx s !! id = None) (fst <$> invalidate_edges)).
Definition positions (ids : list Z) : gmap Z nat := list_to_map (imap (fun i id => (id, i)) ids).
Fixpoint stage_invalidations (now : Z) (inv_lookup_positions : gmap Z nat) (committed_inv_edges : list (option EdgeRecord))
    (invalidate_edges : list (Z * Z)) (s : Staging) : res Staging :=
  match invalidate_edges with
  | [] => Ok s
  | (id, valid_to) :: invalidate_edges =>
      let continue s := stage_invalidations now inv_lookup_positions committed_inv_edges invalidate_edges s in
      match st_edge_op_idx s !! id with
      | Some op_idx =>
          match st_ops s !! op_idx with
          | Some (UpsertEdge edge) => continue (stage_edge (with_valid_to edge now valid_to) s)
          | _ => Err (InvalidOperation "staged edge overlay pointed at a non-edge WAL op")
          end
      | None =>
          match inv_lookup_positions !! id with
          | Some idx =>
              match mjoin (committed_inv_edges !! idx) with
              | Some edge => let updated := with_valid_to edge now valid_to in continue (stage_edge updated (stage_incident updated s))
              | None => continue s
              end
          | None => continue s
          end
      end
  end.
Definition push_delete (now : Z) (acc : list WalOp * gset Z) (edge_id : Z) : list WalOp * gset Z :=
  let '(ops, deleted_edge_ids) := acc in
  if bool_decide (edge_id ∈ deleted_edge_ids) then acc else (ops ++ [DeleteEdge edge_id now], {[edge_id]} ∪ deleted_edge_ids).
Fixpoint push_node_deletes (now : Z) self (tombstones : option (gset Z * gset Z)) (incident_edges : gmap Z (list Z)) (delete_node_ids : list Z)
    (acc : list WalOp * gset Z) : res (list WalOp * gset Z) :=
  match delete_node_ids with
  | [] => Ok acc
  | node_id :: delete_node_ids =>
      incident ← neighbors_raw now (pc_sources self) node_id Both None 0 None tombstones;
      let acc := foldl (push_delete now) acc (nb_edge_id <$> incident) in
      let '(ops, deleted_edge_ids) := foldl (push_delete now) acc (default [] (incident_edges !! node_id)) in
      push_node_deletes now self tombstones incident_edges delete_node_ids (ops ++ [DeleteNode node_id now], deleted_edge_ids)
  end.
(** What follows the edges of a patch. *)
Definition finish_patch (now : Z) self (patch : GraphPatch) (s : Staging) : res (list WalOp) :=
  s ← match gp_invalidate_edges patch with
      | [] => Ok s
      | invalidate_edges =>
          let ids := inv_lookup_ids s invalidate_edges in
          committed_inv_edges ← find_edges (pc_sources self) ids;
          stage_invalidations now (positions ids) committed_inv_edges invalidate_edges s
      end;
  let acc := foldl (push_delete now) (st_ops s, ∅) (gp_delete_edge_ids patch) in
  let tombstones := match gp_delete_node_ids patch with [] => None | _ => Some (collect_tombstones (pc_sources self)) end in
  '(ops, _) ← push_node_deletes now self tombstones (st_incident_edges s) (gp_delete_node_ids patch) acc;
  Ok ops.
(** What of a patch may fail before an edge id is taken: the label plan, the
    node records with their ids and the next one, the edges with their label
    ids, and the ids their triples have. *)
Definition prepare_patch (now : Z) self (patch : GraphPatch)
  : res (LabelResolutionPlan * list NodeRecord * list Z * Z * list (EdgeInput * Z) * gmap (Z * Z * Z) Allocated) :=
  validated ← validate_inputs self (gp_upsert_nodes patch);
  '(node_label_sets, label_plan) ← resolve_validated_node_label_sets_for_request (from_catalog (pc_label_catalog self)) (fst <$> validated);
  '(edge_label_ids, label_plan) ← resolve_edge_label_ids_for_request label_plan (ei_label <$> gp_upsert_edges patch);
  '(node_records, node_ids, next_node_id) ← plan_node_upsert_records now self (gp_upsert_nodes patch) node_label_sets (snd <$> validated);
  let inputs := zip (gp_upsert_edges patch) edge_label_ids in
  committed ← committed_triples self inputs;
  Ok (label_plan, node_records, node_ids, next_node_id, inputs, committed).
Definition plan_graph_patch (now : Z) self (patch : GraphPatch) : Planned :=
  match prepare_patch now self patch with
  | Err e => (self, Err e)
  | Ok (label_plan, node_records, node_ids, next_node_id, inputs, committed) =>
      let '(edges, self) := plan_edge_records now committed ∅ self inputs in
      let s := mkStaging (push_token_ops label_plan ++ (UpsertNode <$> node_records)) ∅ ∅ in
      let s := foldl (fun s edge => stage_edge edge (stage_incident edge s)) s edges in
      match finish_patch now self patch s with
      | Err e => (self, Err e)
      | Ok ops =>
          (set_next_node_id next_node_id self,
           Ok (mkPlan ops (ReplyPatchResult node_ids (er_id <$> edges)) true false (label_catalog_changed label_plan)))
      end
  end.

(** *** Prunes *)
Definition visible_node_ids_at (st : MemtableState) (snapshot_seq : Z) : list Z :=
  sort_ids (fst <$> base.filter (fun e => match record_at (snd e) snapshot_seq with Some (Live _) => true | _ => false end = true)
                      (hash_iter (ms_nodes st))).
Definition collect_prune_targets_from_candidates self (candidates : list Z) (policy : NodeQuery.ResolvedPrunePolicy) (age_cutoff : option Z) : res (list Z) :=
  visibility ← find_node_visibility_meta (pc_sources self) candidates;
  Ok (fst <$> base.filter (fun e => match snd e with
        | NodeQuery.Live meta =>
            NodeQuery.matches_prune_cutoff (NodeQuery.nv_label_ids meta) (NodeQuery.nv_updated_at meta) (NodeQuery.nv_weight meta)
              age_cutoff (NodeQuery.rp_max_weight policy) (NodeQuery.rp_label_id policy)
        | _ => false
        end = true) (zip candidates visibility)).
Fixpoint read_segments (read : Segment -> res (list Z)) (segs : list Segment) : res (list Z) :=
  match segs with [] => Ok [] | seg :: segs => ids ← read seg; rest ← read_segments read segs; Ok (ids ++ rest) end.
Definition filter_node_ids_by_current_label (sl : Sources) (ids : list Z) (label_id : Z) : res (list Z) :=
  let ids := NodeQuery.sorted_dedup_u64 ids in
  if bool_decide (ids = []) || bool_decide (length (immutable sl) = 0%nat) && bool_decide (length (segments sl) = 0%nat) then Ok ids
  else
    visibility ← find_node_visibility_meta sl ids;
    Ok (fst <$> base.filter (fun e => match snd e with
          | NodeQuery.Live meta => NodeLabels.contains (NodeQuery.nv_label_ids meta) label_id
          | _ => false
          end = true) (zip ids visibility)).
(** [None]: a range of the index panics. *)
Definition nodes_by_label_id_raw (sl : Sources) (label_id : Z) : option (res (list Z)) :=
  in_memtables ← mapM (fun st => visible_nodes_by_label_id st label_id (snapshot_seq sl)) (active sl :: immutable sl);
  Some (
    in_segments ← read_segments (fun seg => segment_nodes_by_label_id seg label_id) (segments sl);
    filter_node_ids_by_current_label sl (mjoin in_memtables ++ in_segments) label_id).
Definition collect_prune_targets self (policy : NodeQuery.ResolvedPrunePolicy) (now : Z) : option (res (list Z)) :=
  let age_cutoff := option_map (fun age => now - age) (NodeQuery.rp_max_age_ms policy) in
  match NodeQuery.rp_label_id policy with
  | Some label_id =>
      found ← nodes_by_label_id_raw (pc_sources self) label_id;
      Some (ids ← found; collect_prune_targets_from_candidates self ids policy age_cutoff)
  | None =>
      let sl := pc_sources self in
      let in_memtables := mjoin ((fun st => visible_node_ids_at st (snapshot_seq sl)) <$> (active sl :: immutable sl)) in
      Some (
        in_segments ← read_segments segment_node_metas (segments sl);
        collect_prune_targets_from_candidates self (distinct (in_memtables ++ in_segments)) policy age_cutoff)
  end.
Fixpoint push_prunes (now : Z) self (tombstones : gset Z * gset Z) (targets : list Z) (acc : list WalOp * gset Z) : res (list WalOp * gset Z) :=
  match targets with
  | [] => Ok acc
  | node_id :: targets =>
      incident ← neighbors_raw now (pc_sources self) node_id Both None 0 None (Some tombstones);
      let '(ops, edges_seen) := foldl (push_delete now) acc (nb_edge_id <$> incident) in
      push_prunes now self tombstones targets (ops ++ [DeleteNode node_id now], edges_seen)
  end.
Definition plan_prune (now : Z) self (policy : PrunePolicy) : option (res CoreWritePlan) :=
  let resolved :=
    _ ← validate_prune_policy policy;
    let label_plan := from_catalog (pc_label_catalog self) in
    match pp_label policy with
    | Some label => '(label_id, label_plan) ← resolve_node_label_for_write label_plan label; Ok (Some label_id, label_plan)
    | None => Ok (None, label_plan)
    end in
  match resolved with
  | Err e => Some (Err e)
  | Ok (label_id, label_plan) =>
      let ops := push_token_ops label_plan in
      found ← collect_prune_targets self (NodeQuery.mkPolicy (pp_max_age_ms policy) (pp_max_weight policy) label_id) now;
      Some (
        targets ← found;
        match targets with
        | [] => Ok (mkPlan ops (ReplyPruneResult 0 0) true false (label_catalog_changed label_plan))
        | _ =>
            '(ops, edges_seen) ← push_prunes now self (collect_tombstones (pc_sources self)) targets (ops, ∅);
            Ok (mkPlan ops (ReplyPruneResult (len targets) (Z.of_nat (size edges_seen))) true false (label_catalog_changed label_plan))
        end)
  end.

(** ** The planner *)
Definition with_counters self (r : res (PlanCore * CoreWritePlan)) : Planned :=
  match r with Ok (self, plan) => (self, Ok plan) | Err e => (self, Err e) end.
Definition plan_core_write (now : Z) self (request : CoreWriteRequest) : option Planned :=
  match request with
  | ReqEnsureNodeLabel label => Some (self, plan_ensure_node_label self label)
  | ReqEnsureEdgeLabel label => Some (self, plan_ensure_edge_label self label)
  | ReqUpsertNode labels key options => Some (with_counters self (plan_upsert_node now self labels key options))
  | ReqAddNodeLabel id label => Some (self, plan_add_node_label now self id label)
  | ReqRemoveNodeLabel id label => Some (self, plan_remove_node_label now self id label)
  | ReqUpsertEdge from to label options => Some (with_counters self (plan_upsert_edge now self from to label options))
  | ReqBatchUpsertNodes inputs => Some (with_counters self (plan_batch_upsert_nodes now self inputs))
  | ReqBatchUpsertEdges inputs => Some (with_counters self (plan_batch_upsert_edges now self inputs))
  | ReqDeleteNode id => Some (self, plan_delete_node now self id)
  | ReqDeleteEdge id => Some (self, Ok (plan_delete_edge now id))
  | ReqInvalidateEdge id valid_to => Some (self, plan_invalidate_edge now self id valid_to)
  | ReqGraphPatch patch => Some (plan_graph_patch now self patch)
  | ReqPrune policy => plan ← plan_prune now self policy; Some (self, plan)
  end.
End Planner.
