(* ===== verification/WritePlanFacts.v ===== *)
(** Planned writes keep ids, names and triples unique: every operation of a plan
    keeps a good graph good, and a batch upserts its records one after the
    other. *)
From S2P Require Import Prelude Types PropertyValue CompoundKey Slots Memtable MemtableCells MemtableFacts MemtableSnapshots MemtableKeys FilterBase NodeFilter NodeQuery SourceList SourceListFacts MemtableReads Manifest LabelCatalog Vectors DegreeEngine NodeQueryFacts SourceKeys Adjacency WritePlan.

Abbreviation Nodes := (Z -> option NodeRecord).
Abbreviation Edges := (Z -> option EdgeRecord).

(** ** Operations on the records alone *)
Definition node_step (o : Z * WalOp) (node : Nodes) : Nodes := fun n =>
  match snd o with
  | UpsertNode r => if decide (n = nr_id r) then Some (with_node_seq r (fst o)) else node n
  | DeleteNode id _ => if decide (n = id) then None else node n
  | _ => node n
  end.
Definition edge_step (o : Z * WalOp) (edge : Edges) : Edges := fun e =>
  match snd o with
  | UpsertEdge r => if decide (e = er_id r) then Some (with_edge_seq r (fst o)) else edge e
  | DeleteEdge id _ => if decide (e = id) then None else edge e
  | _ => edge e
  end.
Definition nodes_after (ops : list (Z * WalOp)) (node : Nodes) : Nodes := foldl (fun node o => node_step o node) node ops.
Definition edges_after (ops : list (Z * WalOp)) (edge : Edges) : Edges := foldl (fun edge o => edge_step o edge) edge ops.

Lemma nodes_after_last `{RmpValue, HashOrder} ops node n :
  nodes_after ops node n = match last_op ops (LNode n) with Some v => live_node (Some v) | None => node n end.
Proof.
  unfold nodes_after. revert node. induction ops as [|[seq op] ops IH]; intros node; [done|]. cbn [foldl last_op]. rewrite IH.
  destruct (last_op ops (LNode n)) as [v|]; [done|]. destruct op; cbn; try done; by case_decide.
Qed.
Lemma edges_after_last `{RmpValue, HashOrder} ops edge e :
  edges_after ops edge e = match last_op ops (LEdge e) with Some v => live_edge (Some v) | None => edge e end.
Proof.
  unfold edges_after. revert edge. induction ops as [|[seq op] ops IH]; intros edge; [done|]. cbn [foldl last_op]. rewrite IH.
  destruct (last_op ops (LEdge e)) as [v|]; [done|]. destruct op; cbn; try done; by case_decide.
Qed.

(** ** Good graphs *)
Section Good.
(** Edges are unique by triple only when the database was opened so; an edge id
    has one triple for good. *)
Context (uniq : bool).

Record good (next_node next_edge : Z) (triple_for : Z -> Z * Z * Z) (node : Nodes) (edge : Edges) : Prop := {
  gd_node n r : node n = Some r -> nr_id r = n /\ NodeLabels.wf (nr_label_ids r) /\ n < next_node;
  gd_keys : unique_keys node;
  gd_edge e r : edge e = Some r -> er_id r = e /\ e < next_edge /\ triple_of r = triple_for e;
  gd_triples : uniq = true -> unique_triples edge
}.
Lemma good_mono nn ne nn' ne' tf tf' node edge :
  nn <= nn' -> ne <= ne' -> (forall e, e < ne -> tf' e = tf e) -> good nn ne tf node edge -> good nn' ne' tf' node edge.
Proof.
  intros Hn He Ht [G1 G2 G3 G4]. split; [|done| |done].
  - intros n r (? & ? & ?)%G1. split_and!; [done..|lia].
  - intros e r (? & ? & ?)%G3. split_and!; [done|lia|by rewrite Ht].
Qed.

(** An operation that keeps a graph good. *)
Definition safe (next_node next_edge : Z) (triple_for : Z -> Z * Z * Z) (op : WalOp) (node : Nodes) (edge : Edges) : Prop :=
  match op with
  | UpsertNode r =>
      NodeLabels.wf (nr_label_ids r) /\ nr_id r < next_node
      /\ forall m r' l, node m = Some r' -> l ∈ labels_of r' -> l ∈ labels_of r -> nr_key r' = nr_key r -> m = nr_id r
  | UpsertEdge r =>
      er_id r < next_edge /\ triple_of r = triple_for (er_id r)
      /\ (uniq = true -> forall e r', edge e = Some r' -> triple_of r' = triple_of r -> e = er_id r)
  | _ => True
  end.
Lemma good_step nn ne tf seq op node edge :
  safe nn ne tf op node edge -> good nn ne tf node edge -> good nn ne tf (node_step (seq, op) node) (edge_step (seq, op) edge).
Proof.
  intros Hsafe [G1 G2 G3 G4]. destruct op as [r|r|id t|id t| | | |]; try done; split; try done.
  - intros n r'. cbn. case_decide as E; [|apply G1]. intros Hr. apply (inj Some) in Hr as <-. subst n. by destruct Hsafe as (? & ? & _).
  - intros n m r1 r2 l. cbn. destruct Hsafe as (_ & _ & Hs).
    case_decide as En; case_decide as Em; intros Hn Hm Hl1 Hl2 Hk; [congruence| | |by apply (G2 n m r1 r2 l)].
    + apply (inj Some) in Hn as <-. symmetry. rewrite En. by apply (Hs m r2 l).
    + apply (inj Some) in Hm as <-. rewrite Em. by apply (Hs n r1 l).
  - intros e r'. cbn. case_decide as E; [|apply G3]. intros Hr. apply (inj Some) in Hr as <-. subst e. by destruct Hsafe as (? & ? & _).
  - intros Hu e e' r1 r2. cbn. destruct Hsafe as (_ & _ & Hs).
    case_decide as En; case_decide as Em; intros Hn Hm Ht; [congruence| | |by apply (G4 Hu e e' r1 r2)].
    + apply (inj Some) in Hn as <-. symmetry. rewrite En. by apply (Hs Hu e' r2).
    + apply (inj Some) in Hm as <-. rewrite Em. by apply (Hs Hu e r1).
  - intros n r'. cbn. case_decide; [done|apply G1].
  - intros n m r1 r2 l. cbn. case_decide; [done|]. case_decide; [done|]. apply G2.
  - intros e r'. cbn. case_decide; [done|apply G3].
  - intros Hu e e' r1 r2. cbn. case_decide; [done|]. case_decide; [done|]. by apply G4.
Qed.

(** Operations that keep a graph good, one after the other, whatever sequence
    numbers they get. *)
Fixpoint all_safe (nn ne : Z) (tf : Z -> Z * Z * Z) (ops : list WalOp) (node : Nodes) (edge : Edges) : Prop :=
  match ops with
  | [] => True
  | op :: ops => safe nn ne tf op node edge /\ forall seq, all_safe nn ne tf ops (node_step (seq, op) node) (edge_step (seq, op) edge)
  end.
Lemma good_after nn ne tf ops node edge :
  all_safe nn ne tf (snd <$> ops) node edge -> good nn ne tf node edge ->
  forall k, good nn ne tf (nodes_after (take k ops) node) (edges_after (take k ops) edge).
Proof.
  revert node edge. induction ops as [|[seq op] ops IH]; intros node edge Hs Hg k; [by rewrite take_nil|].
  destruct k as [|k]; [done|]. destruct Hs as [Hop Hs]. cbn [take nodes_after edges_after foldl].
  apply IH; [apply Hs|by apply good_step].
Qed.
Lemma all_safe_app nn ne tf a b node edge :
  all_safe nn ne tf a node edge ->
  (forall seqs, length seqs = length a -> all_safe nn ne tf b (nodes_after (zip seqs a) node) (edges_after (zip seqs a) edge)) ->
  all_safe nn ne tf (a ++ b) node edge.
Proof.
  revert node edge. induction a as [|op a IH]; intros node edge Ha Hb; [by apply (Hb [])|].
  destruct Ha as [Hop Ha]. split; [done|]. intros seq. apply IH; [apply Ha|]. intros seqs Hl. apply (Hb (seq :: seqs)). cbn. by f_equal.
Qed.
(** Labels and deletes. *)
Definition harmless (op : WalOp) : Prop := match op with UpsertNode _ | UpsertEdge _ => False | _ => True end.
Lemma harmless_safe nn ne tf ops node edge : Forall harmless ops -> all_safe nn ne tf ops node edge.
Proof. intros Hh. revert node edge. induction Hh as [|op ops Hop _ IH]; intros node edge; [done|]. split; [by destruct op|]. intros seq. apply IH. Qed.
Definition labels_only (op : WalOp) : Prop := match op with EnsureNodeLabel _ _ | EnsureEdgeLabel _ _ => True | _ => False end.
Lemma labels_after seqs ops node edge :
  Forall labels_only ops -> nodes_after (zip seqs ops) node = node /\ edges_after (zip seqs ops) edge = edge.
Proof.
  intros Hl. revert seqs. induction Hl as [|op ops Hop _ IH]; intros [|seq seqs]; try done.
  cbn [zip zip_with nodes_after edges_after foldl]. destruct op; try done; apply IH.
Qed.
Lemma labels_first nn ne tf labels ops node edge :
  Forall labels_only labels -> all_safe nn ne tf ops node edge -> all_safe nn ne tf (labels ++ ops) node edge.
Proof.
  intros Hl Hs. apply all_safe_app; [apply harmless_safe, (Forall_impl _ _ _ Hl); by intros []|].
  intros seqs _. by destruct (labels_after seqs labels node edge Hl) as [-> ->].
Qed.
(** Node operations leave the edges, edge operations the nodes. *)
Lemma edges_after_nodes seqs records edge : edges_after (zip seqs (UpsertNode <$> records)) edge = edge.
Proof. revert seqs. induction records as [|r records IH]; intros [|seq seqs]; try done. apply IH. Qed.
Lemma nodes_after_edges seqs records node : nodes_after (zip seqs (UpsertEdge <$> records)) node = node.
Proof. revert seqs. induction records as [|r records IH]; intros [|seq seqs]; try done. apply IH. Qed.
End Good.

(** ** Planned writes keep ids, names and triples unique: every operation of a plan
    keeps a good graph good, and a batch upserts its records one after the
    other. *)
Import SourceList.
(** ** Lists without repetitions *)
Lemma distinct_elem {A} `{Countable A} (items : list A) x : x ∈ distinct items <-> x ∈ items.
Proof.
  unfold distinct.
  assert (forall acc, (forall y, y ∈ fst acc <-> y ∈ snd acc) -> forall y, y ∈ fst (foldl push_distinct acc items) <-> y ∈ fst acc \/ y ∈ items) as Hacc.
  { induction items as [|i items IH]; intros acc Ha y; cbn [foldl]; [rewrite elem_of_nil; tauto|]. rewrite IH.
    - rewrite elem_of_cons. destruct acc as [l s]. unfold push_distinct. case_bool_decide as Hi; cbn [fst snd] in *; [|rewrite elem_of_app, list_elem_of_singleton; tauto].
      split; [tauto|]. intros [?|[->|?]]; [by left|left; by apply Ha|by right].
    - intros z. destruct acc as [l s]. unfold push_distinct. case_bool_decide; cbn [fst snd] in *; [done|].
      rewrite elem_of_app, list_elem_of_singleton, elem_of_union, elem_of_singleton, Ha. tauto. }
  rewrite Hacc by (intros y; cbn; rewrite elem_of_nil, elem_of_empty; done). cbn [fst]. rewrite elem_of_nil. tauto.
Qed.
Lemma distinct_nodup {A} `{Countable A} (items : list A) : NoDup (distinct items).
Proof.
  unfold distinct.
  assert (forall acc, (forall y, y ∈ fst acc <-> y ∈ snd acc) -> NoDup (fst acc) -> NoDup (fst (foldl push_distinct acc items))) as Hacc.
  { induction items as [|i items IH]; intros acc Ha Hn; cbn [foldl]; [done|]. apply IH.
    - intros z. destruct acc as [l s]. unfold push_distinct. case_bool_decide; cbn [fst snd] in *; [done|].
      rewrite elem_of_app, list_elem_of_singleton, elem_of_union, elem_of_singleton, Ha. tauto.
    - destruct acc as [l s]. unfold push_distinct. case_bool_decide as Hi; cbn [fst snd] in *; [done|].
      apply NoDup_app. split_and!; [done| |apply NoDup_singleton]. intros y Hy ->%list_elem_of_singleton. by apply Hi, Ha. }
  apply Hacc; [intros y; cbn; by rewrite elem_of_nil, elem_of_empty|constructor].
Qed.

(** ** One winner *)
Lemma one_winner_Ok found winner w :
  one_winner winner found = Ok w ->
  match w with
  | Some m => (winner = Some m \/ winner = None /\ Some m ∈ found) /\ forall m', Some m' ∈ found -> fst m' = fst m
  | None => winner = None /\ forall m', Some m' ∉ found
  end.
Proof.
  revert winner. induction found as [|[node|] found IH]; intros winner; cbn [one_winner].
  - intros E%Ok_inj. subst w. destruct winner as [m|]; (split; [first [done|by left]|]); intros m' Hin; by apply not_elem_of_nil in Hin.
  - destruct (take_winner winner node) as [winner'|e] eqn:Et; cbn [mbind result_bind]; [|done]. intros Hw%IH.
    unfold take_winner in Et. destruct winner as [[id c]|].
    + case_bool_decide as Hne; [done|]. apply Ok_inj in Et as <-. destruct w as [m|]; [|by destruct Hw]. destruct Hw as [[Hm|[? _]] Hall]; [|done].
      split; [by left|]. intros m' [[= ->]|Hin]%elem_of_cons; [|by apply Hall]. injection Hm as <-. cbn. destruct (decide (id = fst node)); [done|by destruct Hne].
    + apply Ok_inj in Et as <-. destruct w as [m|]; [|by destruct Hw]. destruct Hw as [[Hm|[? _]] Hall]; [|done].
      injection Hm as <-. split; [right; split; [done|left]|]. intros m' [[= ->]|Hin]%elem_of_cons; [done|by apply Hall].
  - intros Hw%IH. destruct w as [m|].
    + destruct Hw as [[->|[-> Hin]] Hall]; (split; [|intros m' [?|?]%elem_of_cons; [done|by apply Hall]]); [by left|right; split; [done|by right]].
    + destruct Hw as [-> Hall]. split; [done|]. intros m' [?|?]%elem_of_cons; [done|by apply (Hall m')].
Qed.

(** ** Node upserts *)
(** The live node a name means. *)
Definition means_node (node : Nodes) (name : Z * str) (o : option NodeRecord) : Prop :=
  match o with
  | Some r => node (nr_id r) = Some r /\ fst name ∈ labels_of r /\ nr_key r = snd name
  | None => forall n r, node n = Some r -> fst name ∈ labels_of r -> nr_key r ≠ snd name
  end.
Definition means_edge (edge : Edges) (t : Z * Z * Z) (o : option EdgeRecord) : Prop :=
  match o with
  | Some r => edge (er_id r) = Some r /\ triple_of r = t
  | None => forall e r, edge e = Some r -> triple_of r ≠ t
  end.

(** The id an upsert writes to, and the creation time it keeps: those of the
    live node that shares the key under one of the labels, or a fresh id. *)
Definition chosen (now : Z) (node : Nodes) (next : Z) (label_set : NodeLabelSet) (key : str) (m : Allocated) (next' : Z) : Prop :=
  (exists r l, node (fst m) = Some r /\ l ∈ labels_of r /\ l ∈ NodeLabels.as_slice label_set /\ nr_key r = key /\ nr_created_at r = snd m
     /\ next' = next)
  \/ (forall n r l, node n = Some r -> l ∈ labels_of r -> l ∈ NodeLabels.as_slice label_set -> nr_key r ≠ key) /\ m = (next, now) /\ next' = next + 1.
(** No other live node shares the key under one of the labels. *)
Definition no_conflict (node : Nodes) (label_set : NodeLabelSet) (key : str) (id : Z) : Prop :=
  forall n r l, node n = Some r -> l ∈ labels_of r -> l ∈ NodeLabels.as_slice label_set -> nr_key r = key -> n = id.

Fixpoint upserts_in_turn (now : Z) (node : Nodes) (next : Z) (inputs : list (NodeInput * NodeLabelSet * NormalizedVectors))
    (records : list NodeRecord) (next' : Z) : Prop :=
  match inputs, records with
  | [], [] => next' = next
  | (input, label_set, vectors) :: inputs, r :: records =>
      exists m next1, chosen now node next label_set (ni_key input) m next1 /\ no_conflict node label_set (ni_key input) (fst m)
        /\ r = node_record now input label_set vectors m
        /\ forall seq, upserts_in_turn now (node_step (seq, UpsertNode r) node) next1 inputs records next'
  | _, _ => False
  end.
Lemma upserts_next now node next inputs records next' : upserts_in_turn now node next inputs records next' -> next <= next' <= next + len inputs.
Proof.
  revert node next records. induction inputs as [|[[input ls] v] inputs IH]; intros node next [|r records]; cbn [upserts_in_turn]; try done.
  - intros ->. cbn. lia.
  - intros (m & next1 & Hc & _ & _ & Hrest). specialize (IH _ _ _ (Hrest 0)).
    assert (len ((input, ls, v) :: inputs) = len inputs + 1) as -> by (cbn [length]; lia). destruct Hc as [(? & ? & ? & ? & ? & ? & ? & ->)|(_ & _ & ->)]; lia.
Qed.

Section Staged.
Context (now : Z) (committed_keys : gmap (Z * str) NodeRecord) (committed_nodes_by_id : gmap Z NodeRecord) (wanted : list (Z * str)).

Definition previous (s : StagedNodes) (id : Z) : option NodeLabelSet :=
  match sn_label_sets s !! id with Some labels => Some labels | None => nr_label_ids <$> committed_nodes_by_id !! id end.
Record staged (s : StagedNodes) (node : Nodes) : Prop := {
  sd_keys l k : (l, k) ∈ wanted ->
    match membership committed_keys s (l, k) with
    | Some (id, created_at) => exists r, node id = Some r /\ l ∈ labels_of r /\ nr_key r = k /\ nr_created_at r = created_at
    | None => forall n r, node n = Some r -> l ∈ labels_of r -> nr_key r ≠ k
    end;
  sd_previous n r l : node n = Some r -> (l, nr_key r) ∈ wanted -> l ∈ labels_of r -> previous s n = Some (nr_label_ids r);
  sd_live_previous id P : previous s id = Some P -> exists r, node id = Some r /\ nr_label_ids r = P;
  sd_live n r : node n = Some r -> n < sn_next_node_id s;
  sd_unique : unique_keys node
}.

Lemma drop_old_keys_spec label_set key P s :
  let s' := drop_old_keys label_set key P s in
  sn_label_sets s' = sn_label_sets s /\ sn_next_node_id s' = sn_next_node_id s /\
  forall l k,
    let dropped := k = key /\ l ∈ P /\ NodeLabels.contains label_set l = false in
    (dropped -> sn_batch_keys s' !! (l, k) = None /\ (l, k) ∈ sn_removed_keys s')
    /\ (~ dropped -> sn_batch_keys s' !! (l, k) = sn_batch_keys s !! (l, k) /\ ((l, k) ∈ sn_removed_keys s' <-> (l, k) ∈ sn_removed_keys s)).
Proof.
  unfold drop_old_keys. revert s. induction P as [|p P IH]; intros s; cbn [foldl].
  { split_and!; [done..|]. intros l k. split; [intros (_ & ?%not_elem_of_nil & _); done|done]. }
  set (s1 := if NodeLabels.contains label_set p then s else _).
  destruct (IH s1) as (HA & HB & HC). clear IH. split_and!; [rewrite HA; unfold s1; by case_match|rewrite HB; unfold s1; by case_match|].
  intros l k. destruct (HC l k) as [Hd Hn]. clear HC. rewrite elem_of_cons.
  destruct (decide (k = key /\ l ∈ P /\ NodeLabels.contains label_set l = false)) as [D|D].
  { split; [by intros _; apply Hd|]. intros Hno. exfalso. apply Hno. tauto. }
  destruct (Hn D) as [-> Hr]. rewrite Hr. unfold s1. clear Hd Hn Hr HA HB s1.
  destruct (decide (l = p /\ k = key)) as [[-> ->]|Hne].
  - destruct (NodeLabels.contains label_set p) eqn:Ec; cbn [sn_batch_keys sn_removed_keys].
    + split; [intros (_ & _ & ?); done|done].
    + split; [|intros Hno; exfalso; apply Hno; split_and!; [done|by left|done]].
      intros _. rewrite lookup_delete_eq, elem_of_union, elem_of_singleton. split; [done|by left].
  - assert (forall b : bool, (l, k) ∈ sn_removed_keys (if b then s else mkStaged (delete (p, key) (sn_batch_keys s)) ({[(p, key)]} ∪ sn_removed_keys s) (sn_label_sets s) (sn_next_node_id s)) <-> (l, k) ∈ sn_removed_keys s) as Hrem.
    { intros []; [done|]. cbn [sn_removed_keys]. rewrite elem_of_union, elem_of_singleton. split; [|by right]. intros [[= -> ->]|?]; [by destruct Hne|done]. }
    rewrite Hrem. split; [intros (-> & [->|?] & ?); [by destruct Hne|by destruct D]|]. intros _. split; [|done].
    destruct (NodeLabels.contains label_set p); [done|]. cbn [sn_batch_keys]. rewrite lookup_delete_ne; [done|]. intros [= -> ->]. by destruct Hne.
Qed.
Lemma put_new_keys_spec m key L s :
  let s' := put_new_keys m key L s in
  sn_label_sets s' = sn_label_sets s /\ sn_next_node_id s' = sn_next_node_id s /\
  forall l k,
    (k = key /\ l ∈ L -> sn_batch_keys s' !! (l, k) = Some m)
    /\ (~ (k = key /\ l ∈ L) -> sn_batch_keys s' !! (l, k) = sn_batch_keys s !! (l, k) /\ ((l, k) ∈ sn_removed_keys s' <-> (l, k) ∈ sn_removed_keys s)).
Proof.
  unfold put_new_keys. revert s. induction L as [|p L IH]; intros s; cbn [foldl].
  { split_and!; [done..|]. intros l k. split; [intros (_ & ?%not_elem_of_nil); done|done]. }
  set (s1 := mkStaged (<[(p, key) := m]> _) _ _ _). destruct (IH s1) as (HA & HB & HC). clear IH. split_and!; [by rewrite HA|by rewrite HB|].
  intros l k. destruct (HC l k) as [Hd Hn]. clear HC. rewrite elem_of_cons.
  destruct (decide (k = key /\ l ∈ L)) as [D|D]; [split; [by intros _; apply Hd|intros Hno; exfalso; apply Hno; tauto]|].
  destruct (Hn D) as [-> Hr]. rewrite Hr. unfold s1. cbn [sn_batch_keys sn_removed_keys].
  destruct (decide (l = p /\ k = key)) as [[-> ->]|Hne].
  - split; [by rewrite lookup_insert_eq|]. intros Hno. exfalso. apply Hno. split; [done|by left].
  - split; [intros [-> [->|?]]; [by destruct Hne|by destruct D]|]. intros _.
    rewrite lookup_insert_ne by (intros [= -> ->]; by destruct Hne). split; [done|].
    rewrite elem_of_difference, elem_of_singleton. split; [by intros [? _]|]. intros ?. split; [done|]. intros [= -> ->]. by destruct Hne.
Qed.

Lemma stage_node_keys label_set key m s :
  let s' := stage_node committed_nodes_by_id label_set key m s in
  let gone l := l ∉ NodeLabels.as_slice label_set /\ l ∈ default [] (option_map NodeLabels.as_slice (previous s (fst m))) in
  NodeLabels.wf label_set ->
  sn_next_node_id s' = sn_next_node_id s
  /\ sn_label_sets s' = <[fst m := label_set]> (sn_label_sets s)
  /\ forall l k,
    (k = key /\ l ∈ NodeLabels.as_slice label_set -> membership committed_keys s' (l, k) = Some m)
    /\ (k = key /\ gone l -> membership committed_keys s' (l, k) = None)
    /\ (~ (k = key /\ (l ∈ NodeLabels.as_slice label_set \/ gone l)) -> membership committed_keys s' (l, k) = membership committed_keys s (l, k)).
Proof.
  intros s' gone Hwf. unfold s', stage_node. fold (previous s (fst m)).
  set (s1 := match previous s (fst m) with Some _ => _ | None => _ end).
  assert (sn_label_sets s1 = sn_label_sets s /\ sn_next_node_id s1 = sn_next_node_id s /\
    forall l k, (k = key /\ gone l -> sn_batch_keys s1 !! (l, k) = None /\ (l, k) ∈ sn_removed_keys s1)
      /\ (~ (k = key /\ gone l) -> sn_batch_keys s1 !! (l, k) = sn_batch_keys s !! (l, k) /\ ((l, k) ∈ sn_removed_keys s1 <-> (l, k) ∈ sn_removed_keys s)))
    as (HA & HB & HC).
  { unfold s1, gone. destruct (previous s (fst m)) as [P|] eqn:Ep; cbn match.
    2: { split_and!; [done..|]. intros l k. split; [by intros (_ & _ & ?%not_elem_of_nil)|done]. }
    destruct (drop_old_keys_spec label_set key (NodeLabels.as_slice P) s) as (HA & HB & HC). split_and!; [done..|]. intros l k.
    assert ((k = key /\ l ∈ NodeLabels.as_slice P /\ NodeLabels.contains label_set l = false)
      <-> k = key /\ l ∉ NodeLabels.as_slice label_set /\ l ∈ default [] (option_map NodeLabels.as_slice (Some P))) as <-; [|apply HC].
    rewrite <- not_true_iff_false, (NodeLabels.contains_spec _ _ Hwf). cbn. tauto. }
  destruct (put_new_keys_spec m key (NodeLabels.as_slice label_set) s1) as (HD & HE & HF). cbn [sn_next_node_id sn_label_sets sn_batch_keys sn_removed_keys].
  split_and!; [by rewrite HE|by rewrite HD, HA|]. intros l k. unfold membership. cbn [sn_batch_keys sn_removed_keys].
  destruct (HC l k) as [C1 C2], (HF l k) as [F1 F2]. split_and!.
  - intros Hin. by rewrite F1.
  - intros [-> Hg]. destruct F2 as [-> Hr]; [intros [_ ?]; by destruct Hg|]. destruct C1 as [-> Hr']; [done|]. by rewrite bool_decide_true by by apply Hr.
  - intros Hno. destruct F2 as [-> Hr]; [tauto|]. destruct C2 as [-> Hr']; [tauto|]. destruct (sn_batch_keys s !! (l, k)); [done|].
    assert (bool_decide ((l, k) ∈ sn_removed_keys (put_new_keys m key (NodeLabels.as_slice label_set) s1)) = bool_decide ((l, k) ∈ sn_removed_keys s)) as ->; [|done].
    apply bool_decide_ext. by rewrite Hr.
Qed.

Lemma chosen_by_membership s node label_set key winner m s1 :
  staged s node -> (forall l, l ∈ NodeLabels.as_slice label_set -> (l, key) ∈ wanted) ->
  one_winner None ((fun label_id => membership committed_keys s (label_id, key)) <$> NodeLabels.as_slice label_set) = Ok winner ->
  allocate_node now s winner = Ok (m, s1) ->
  chosen now node (sn_next_node_id s) label_set key m (sn_next_node_id s1) /\ no_conflict node label_set key (fst m)
  /\ sn_batch_keys s1 = sn_batch_keys s /\ sn_removed_keys s1 = sn_removed_keys s /\ sn_label_sets s1 = sn_label_sets s.
Proof.
  intros [S1 S2 S3 S4 S5] Hw Hwin%one_winner_Ok Ha.
  assert (forall l id c, l ∈ NodeLabels.as_slice label_set -> membership committed_keys s (l, key) = Some (id, c) ->
    Some (id, c) ∈ (fun label_id => membership committed_keys s (label_id, key)) <$> NodeLabels.as_slice label_set) as Hin.
  { intros l id c Hl E. apply list_elem_of_fmap. by exists l. }
  unfold allocate_node in Ha. destruct winner as [m'|].
  - apply Ok_inj in Ha as [= <- <-]. destruct Hwin as [[?|[_ Hm]] Hall]; [done|]. split_and!; [| |done..].
    + left. apply list_elem_of_fmap in Hm as (l & E & Hl). pose proof (S1 l key (Hw l Hl)) as Hk. rewrite <- E in Hk. destruct m' as [id c].
      destruct Hk as (r & Hr & Hlr & Hkr & Hc). by exists r, l.
    + intros n r l Hn Hl Hl' Hk. pose proof (S1 l key (Hw l Hl')) as Hk'. destruct (membership committed_keys s (l, key)) as [[id c]|] eqn:E.
      * destruct Hk' as (r' & Hr' & Hlr & Hkr & _). rewrite <- (Hall (id, c)) by by apply (Hin l). cbn. apply (S5 n id r r' l); [done..|congruence].
      * by destruct (Hk' n r Hn Hl).
  - destruct Hwin as [_ Hno]. destruct (sn_next_node_id s =? u64_max); [done|]. apply Ok_inj in Ha as [= <- <-]. cbn [sn_next_node_id sn_batch_keys sn_removed_keys sn_label_sets fst].
    assert (forall n r l, node n = Some r -> l ∈ labels_of r -> l ∈ NodeLabels.as_slice label_set -> nr_key r ≠ key) as Hnone.
    { intros n r l Hn Hl Hl'. pose proof (S1 l key (Hw l Hl')) as Hk'. destruct (membership committed_keys s (l, key)) as [[id c]|] eqn:E; [|by apply (Hk' n)].
      by destruct (Hno (id, c)); apply (Hin l). }
    split_and!; [by right|intros n r l Hn Hl Hl' Hk; by destruct (Hnone n r l)|done..].
Qed.

Lemma staged_step s node input label_set vectors winner m s1 seq :
  NodeLabels.wf label_set ->
  staged s node -> (forall l, l ∈ NodeLabels.as_slice label_set -> (l, ni_key input) ∈ wanted) ->
  one_winner None ((fun label_id => membership committed_keys s (label_id, ni_key input)) <$> NodeLabels.as_slice label_set) = Ok winner ->
  allocate_node now s winner = Ok (m, s1) ->
  staged (stage_node committed_nodes_by_id label_set (ni_key input) m s1) (node_step (seq, UpsertNode (node_record now input label_set vectors m)) node).
Proof.
  intros Hwf Hs Hw Hwin Ha. destruct (chosen_by_membership s node label_set (ni_key input) winner m s1) as (Hc & Hone & Eb & Er & El); [done..|].
  pose proof Hs as [S1 S2 S3 S4 S5]. destruct (stage_node_keys label_set (ni_key input) m s1 Hwf) as (HA & HB & HC).
  assert (forall key, membership committed_keys s1 key = membership committed_keys s key) as Emem by (intros; unfold membership; by rewrite Eb, Er).
  assert (forall id, previous s1 id = previous s id) as Eprev by (intros; unfold previous; by rewrite El).
  set (s2 := stage_node committed_nodes_by_id label_set (ni_key input) m s1) in *.
  assert (forall id, previous s2 id = if decide (id = fst m) then Some label_set else previous s id) as Eprev2.
  { intros id. unfold previous. rewrite HB, El. case_decide as E; [subst; by rewrite lookup_insert_eq|by rewrite lookup_insert_ne by done]. }
  assert (sn_next_node_id s <= sn_next_node_id s1 /\ fst m < sn_next_node_id s1) as [Hnext Hm].
  { destruct Hc as [(r & l & Hr & _ & _ & _ & _ & ->)|(_ & -> & ->)]; [split; [lia|by apply (S4 _ r)]|cbn; lia]. }
  (* the record the id had *)
  assert (forall r, node (fst m) = Some r -> nr_key r = ni_key input) as Hkey.
  { intros r Hr. destruct Hc as [(r' & l & Hr' & _ & _ & Hk & _)|(_ & -> & _)]; [congruence|]. cbn in Hr. apply S4 in Hr. lia. }
  assert (forall l, l ∈ default [] (option_map NodeLabels.as_slice (previous s1 (fst m))) <-> exists r, node (fst m) = Some r /\ l ∈ labels_of r) as Hgone.
  { intros l. rewrite Eprev. split.
    - destruct (previous s (fst m)) as [P|] eqn:Ep; cbn; [|intros Hin; by apply not_elem_of_nil in Hin].
      intros Hin. destruct (S3 _ _ Ep) as (r & Hr & <-). by exists r.
    - intros (r & Hr & Hl). destruct Hc as [(r' & l' & Hr' & Hl' & Hin & Hk & _)|(_ & -> & _)]; [|cbn in Hr; apply S4 in Hr; lia].
      rewrite (S2 (fst m) r l'); [done|done| |congruence]. rewrite (Hkey r Hr). by apply Hw. }
  split.
  - intros l k Hin. specialize (S1 l k Hin). rewrite <- Emem in S1. destruct (HC l k) as (C1 & C2 & C3). cbn [node_step fst snd node_record nr_id].
    destruct (decide (k = ni_key input /\ l ∈ NodeLabels.as_slice label_set)) as [D|D].
    { rewrite (C1 D). destruct m as [id c]. eexists. rewrite decide_True by done. split_and!; [done|apply D|by destruct D|done]. }
    destruct (decide (k = ni_key input /\ l ∉ NodeLabels.as_slice label_set /\ l ∈ default [] (option_map NodeLabels.as_slice (previous s1 (fst m))))) as [D2|D2].
    { rewrite C2 by done. destruct D2 as (-> & Hnl & (r & Hr & Hl)%Hgone).
      intros n r' Hn Hl' Hk'. case_decide as En; [apply (inj Some) in Hn as <-; by apply Hnl|]. apply En, (S5 n (fst m) r' r l); [done..|].
      by rewrite Hk', (Hkey r). }
    rewrite C3 by tauto. destruct (membership committed_keys s1 (l, k)) as [[id c]|].
    + destruct S1 as (r & Hr & Hl & Hk & Hcr). exists r. rewrite decide_False; [done|]. intros ->.
      assert (l ∈ default [] (option_map NodeLabels.as_slice (previous s1 (fst m)))) by (apply Hgone; by exists r).
      pose proof (Hkey r Hr). destruct (decide (l ∈ NodeLabels.as_slice label_set)); [apply D|apply D2]; split_and!; congruence || done.
    + intros n r Hn Hl Hk. case_decide as En; [|by apply (S1 n r)]. apply (inj Some) in Hn as <-. apply D. split; [by rewrite <- Hk|done].
  - intros n r l. cbn [node_step fst snd node_record nr_id]. rewrite Eprev2. case_decide as En; [intros Hr; by apply (inj Some) in Hr as <-|apply S2].
  - intros id P. cbn [node_step fst snd node_record nr_id]. rewrite Eprev2. case_decide as En; [|apply S3]. intros E. apply (inj Some) in E as <-. by eexists.
  - intros n r. cbn [node_step fst snd node_record nr_id]. rewrite HA. case_decide as En; [by subst|]. intros Hr%S4. lia.
  - intros n n' r r' l. cbn [node_step fst snd node_record nr_id].
    case_decide as En; case_decide as En'; intros Hn Hn' Hl Hl' Hk; [congruence| | |by apply (S5 n n' r r' l)].
    + apply (inj Some) in Hn as <-. rewrite En. symmetry. by apply (Hone n' r' l).
    + apply (inj Some) in Hn' as <-. rewrite En'. by apply (Hone n r l).
Qed.

Lemma plan_records_spec inputs s node records ids next' :
  Forall (fun '(input, label_set, _) => NodeLabels.wf label_set /\ forall l, l ∈ NodeLabels.as_slice label_set -> (l, ni_key input) ∈ wanted) inputs ->
  staged s node -> plan_records committed_keys committed_nodes_by_id now inputs s = Ok (records, ids, next') ->
  upserts_in_turn now node (sn_next_node_id s) inputs records next' /\ ids = nr_id <$> records.
Proof.
  intros Hin. revert s node records ids. induction Hin as [|[[input label_set] vectors] inputs [Hwf Hw] _ IH]; intros s node records ids Hs; cbn [plan_records].
  { intros E. apply Ok_inj in E as [= <- <- <-]. done. }
  destruct (one_winner None _) as [winner|e] eqn:Ew; cbn [mbind result_bind]; [|done].
  destruct (allocate_node now s winner) as [[m s1]|e] eqn:Ea; cbn [mbind result_bind]; [|done].
  destruct (plan_records _ _ _ inputs _) as [[[records' ids'] next'']|e] eqn:Er; cbn [mbind result_bind]; [|done].
  intros E. apply Ok_inj in E as [= <- <- <-].
  destruct (chosen_by_membership s node label_set (ni_key input) winner m s1) as (Hc & Hone & _); [done..|].
  destruct (stage_node_keys label_set (ni_key input) m s1 Hwf) as (HA & _).
  assert (forall seq, staged (stage_node committed_nodes_by_id label_set (ni_key input) m s1) (node_step (seq, UpsertNode (node_record now input label_set vectors m)) node)) as Hs'
    by (intros seq; by apply (staged_step s node input label_set vectors winner m s1 seq)).
  split.
  - exists m, (sn_next_node_id s1). split_and!; [done..|]. intros seq. destruct (IH _ _ _ _ (Hs' seq) Er) as [Hu _]. by rewrite HA in Hu.
  - destruct (IH _ _ _ _ (Hs' 0) Er) as [_ ->]. done.
Qed.
End Staged.

(** What planning asks of the sources: that lookups say what the graph is. *)
Record planner_reads {Segment} `{SegmentReads Segment, SegmentKeys Segment} (sl : SourceList (Segment := Segment)) (uniq : bool) (node : Nodes) (edge : Edges) : Prop := {
  pr_keys keys results : find_nodes_by_label_keys sl keys = Ok results -> Forall2 (means_node node) keys results;
  pr_key l k found : find_node_by_label_key sl l k = Ok found -> means_node node (l, k) found;
  pr_nodes ids results : find_nodes sl ids = Ok results -> results = node <$> ids;
  pr_edges ids results : find_edges sl ids = Ok results -> results = edge <$> ids;
  pr_edge id found : find_edge sl id = Ok found -> found = edge id;
  pr_triples triples results : uniq = true -> find_edges_by_triples sl triples = Ok results -> Forall2 (means_edge edge) triples results;
  pr_triple f t l found : uniq = true -> find_edge_by_triple sl f t l = Ok found -> means_edge edge (f, t, l) found
}.

Lemma note_committed_spec node names results keys0 ids0 :
  Forall2 (means_node node) names results ->
  let maps := foldl note_committed (keys0, ids0) (zip names results) in
  (forall name, name ∉ names -> fst maps !! name = keys0 !! name)
  /\ (NoDup names -> forall i name o, names !! i = Some name -> results !! i = Some o -> fst maps !! name = match o with Some r => Some r | None => keys0 !! name end)
  /\ (forall id r, snd maps !! id = Some r -> ids0 !! id = Some r \/ Some r ∈ results /\ nr_id r = id)
  /\ (forall id, is_Some (ids0 !! id) -> is_Some (snd maps !! id))
  /\ (forall r, Some r ∈ results -> is_Some (snd maps !! nr_id r)).
Proof.
  intros Hm. revert keys0 ids0. induction Hm as [|name o names results Ho Hm IH]; intros keys0 ids0; cbn [zip zip_with foldl].
  { split_and!; try done; [by left|by intros r ?%not_elem_of_nil]. }
  set (keys1 := match o with Some r => <[name := r]> keys0 | None => keys0 end).
  set (ids1 := match o with Some r => match ids0 !! nr_id r with Some _ => ids0 | None => <[nr_id r := r]> ids0 end | None => ids0 end).
  assert (note_committed (keys0, ids0) (name, o) = (keys1, ids1)) as -> by by destruct o.
  destruct (IH keys1 ids1) as (HA & HB & HC & HD & HE).
  assert (forall id, is_Some (ids0 !! id) -> is_Some (ids1 !! id)) as Hids.
  { intros id Hid. unfold ids1. destruct o as [r|]; [|done]. destruct (ids0 !! nr_id r); [done|]. rewrite lookup_insert_is_Some'. by right. }
  split_and!.
  - intros name' [Hne Hn]%not_elem_of_cons. rewrite HA by done. unfold keys1. destruct o; [by rewrite lookup_insert_ne|done].
  - intros [Hn Hnd]%NoDup_cons i name' o' Hi Hoi. destruct i as [|i].
    + injection Hi as <-. injection Hoi as <-. rewrite HA by done. unfold keys1. destruct o; [by rewrite lookup_insert_eq|done].
    + assert (name ≠ name') as Hne by (intros <-; by apply Hn, list_elem_of_lookup_2 with i).
      rewrite (HB Hnd i name' o') by done. destruct o'; [done|]. unfold keys1. destruct o; [by rewrite lookup_insert_ne|done].
  - intros id r [Hid|[Hin Hr]]%HC; [|right; split; [by right|done]]. unfold ids1 in Hid. destruct o as [r'|]; [|by left].
    destruct (ids0 !! nr_id r') eqn:E; [by left|]. apply lookup_insert_Some in Hid as [[<- <-]|[_ Hid]]; [right; split; [left|done]|by left].
  - intros id Hid. by apply HD, Hids.
  - intros r [E|Hin]%elem_of_cons; [|by apply HE]. subst o. apply HD. unfold ids1. destruct (ids0 !! nr_id r) eqn:E; [by rewrite E|by rewrite lookup_insert_eq].
Qed.

Section Nodes.
Context {Segment : Type} `{SegmentReads Segment, SegmentKeys Segment, SegmentAdjacency Segment, SegmentScans Segment} `{HashOrder, UnstableSort}.
Abbreviation Core := (PlanCore (Segment := Segment)).
Context (now : Z) (self : Core) (node : Nodes) (edge : Edges) (triple_for : Z -> Z * Z * Z).
Abbreviation nn := (pc_next_node_id self).
Abbreviation ne := (pc_next_edge_id self).
Abbreviation uniq := (pc_edge_uniqueness self).
Hypothesis Hreads : planner_reads (pc_sources self) uniq node edge.
Hypothesis Hgood : good uniq nn ne triple_for node edge.

Lemma plan_node_upsert_records_spec inputs label_sets vectors records ids next' :
  Forall NodeLabels.wf label_sets ->
  plan_node_upsert_records now self inputs label_sets vectors = Ok (records, ids, next') ->
  upserts_in_turn now node nn (zip (zip inputs label_sets) vectors) records next' /\ ids = nr_id <$> records.
Proof.
  intros Hwf. unfold plan_node_upsert_records. destruct inputs as [|input inputs].
  { cbn [zip zip_with mbind result_bind plan_records sn_next_node_id]. intros E. apply Ok_inj in E as [= <- <- <-]. done. }
  set (all := input :: inputs) in *. clearbody all. set (names := wanted_keys (zip all label_sets)).
  destruct (find_nodes_by_label_keys (pc_sources self) names) as [results|e] eqn:Ef; cbn [mbind result_bind]; [|done].
  apply (pr_keys _ _ _ _ Hreads) in Ef.
  pose proof (note_committed_spec node names results ∅ ∅ Ef) as Hnote. cbn zeta in Hnote.
  destruct (foldl note_committed (∅, ∅) (zip names results)) as [ck cn]. cbn [fst snd] in Hnote. destruct Hnote as (_ & HB & HC & _ & HE).
  apply (plan_records_spec now ck cn names _ (mkStaged ∅ ∅ ∅ nn)).
  - apply Forall_forall. intros [[inp ls] v] Hin. apply list_elem_of_lookup in Hin as [i Hi].
    apply lookup_zip_with_Some in Hi as (x & y & [= <- ->] & Hi & _).
    assert ((inp, ls) ∈ zip all label_sets) as Hz by (by apply list_elem_of_lookup_2 with i). split.
    + apply lookup_zip_with_Some in Hi as (x & y' & [= -> ->] & _ & Hl). by apply (Forall_lookup_1 _ _ _ _ Hwf Hl).
    + intros l Hl. unfold names, wanted_keys. apply distinct_elem, list_elem_of_join. eexists. split; [|apply list_elem_of_fmap; by exists (inp, ls)].
      apply list_elem_of_fmap. by exists l.
  - assert (NoDup names) as Hnd by apply distinct_nodup. specialize (HB Hnd).
    split.
    + intros l k Hin. apply list_elem_of_lookup in Hin as [i Hi]. destruct (Forall2_lookup_l _ _ _ _ _ Ef Hi) as (o & Ho & Hm).
      unfold membership. cbn [sn_batch_keys sn_removed_keys]. rewrite lookup_empty, bool_decide_false by apply not_elem_of_empty.
      rewrite (HB i (l, k) o) by done. destruct o as [r|]; cbn in Hm |- *; [|by rewrite lookup_empty]. destruct Hm as (? & ? & ?). by exists r.
    + intros n r l Hn Hin Hl. apply list_elem_of_lookup in Hin as [i Hi]. destruct (Forall2_lookup_l _ _ _ _ _ Ef Hi) as (o & Ho & Hm).
      destruct o as [r'|]; [|by destruct (Hm n r)]. destruct Hm as (Hn' & Hl' & Hk'). cbn in Hl', Hk'.
      assert (nr_id r' = n) as Hid by (apply (gd_keys _ _ _ _ _ _ Hgood _ _ r' r l); done). rewrite Hid in Hn'. assert (r' = r) as -> by congruence.
      unfold previous. cbn [sn_label_sets]. rewrite lookup_empty. destruct (HE r) as [r2 Hr2]; [by apply list_elem_of_lookup_2 with i|]. rewrite Hid in Hr2.
      destruct (HC _ _ Hr2) as [Hx|[Hin2 Hid2]]; [by rewrite lookup_empty in Hx|]. rewrite Hr2. cbn. f_equal.
      apply list_elem_of_lookup in Hin2 as [i2 Hi2]. destruct (Forall2_lookup_r _ _ _ _ _ Ef Hi2) as (nm & _ & Hm2 & _). congruence.
    + intros id P. unfold previous. cbn [sn_label_sets]. rewrite lookup_empty. destruct (cn !! id) as [r|] eqn:E; [|done]. cbn. intros HP. apply (inj Some) in HP as <-.
      destruct (HC _ _ E) as [Hx|[Hin2 <-]]; [by rewrite lookup_empty in Hx|]. exists r. split; [|done].
      apply list_elem_of_lookup in Hin2 as [i2 Hi2]. by destruct (Forall2_lookup_r _ _ _ _ _ Ef Hi2) as (nm & _ & Hm2 & _).
    + intros n r Hr. by apply (gd_node _ _ _ _ _ _ Hgood) in Hr as (_ & _ & ?).
    + apply (gd_keys _ _ _ _ _ _ Hgood).
Qed.
End Nodes.

(** ** Upserts keep the graph good *)
Lemma upserts_safe uniq nn ne tf now node edge inputs records next' :
  (forall n r, node n = Some r -> n < nn) ->
  Forall (fun '(_, label_set, _) => NodeLabels.wf label_set) inputs ->
  upserts_in_turn now node nn inputs records next' -> all_safe uniq next' ne tf (UpsertNode <$> records) node edge.
Proof.
  intros Hb Hwf. revert node nn records Hb. induction Hwf as [|[[input ls] v] inputs Hls Hwf IH]; intros node nn [|r records] Hb; cbn [upserts_in_turn]; try done.
  intros (m & next1 & Hc & Hone & -> & Hrest). rewrite fmap_cons.
  assert (nn <= next1 /\ fst m < next1) as [Hle Hm].
  { destruct Hc as [(r & l & Hr & _ & _ & _ & _ & ->)|(_ & -> & ->)]; [split; [lia|by apply (Hb _ r)]|cbn; lia]. }
  pose proof (upserts_next _ _ _ _ _ _ (Hrest 0)) as Hn. split.
  - cbn. split_and!; [done|lia|]. intros n r' l Hr Hl Hl' Hk. by apply (Hone n r' l).
  - intros seq. apply (IH _ next1); [|apply Hrest]. intros n r'. cbn. case_decide as En; [by subst|]. intros Hr%Hb. lia.
Qed.

(** Edges likewise: by triple when they are unique. *)
Definition chosen_edge (uniq : bool) (now : Z) (edge : Edges) (next : Z) (t : Z * Z * Z) (m : Allocated) (next' : Z) : Prop :=
  uniq = true /\ (exists r, edge (fst m) = Some r /\ triple_of r = t /\ er_created_at r = snd m) /\ next' = next
  \/ (uniq = true -> forall e r, edge e = Some r -> triple_of r ≠ t) /\ m = (next, now) /\ next' = next + 1.
Definition input_record (now : Z) (input : EdgeInput * Z) (m : Allocated) : EdgeRecord :=
  edge_record now m (ei_from (fst input)) (ei_to (fst input)) (snd input) (ei_props (fst input)) (ei_weight (fst input)) (ei_valid_from (fst input)) (ei_valid_to (fst input)).
Fixpoint edges_in_turn (uniq : bool) (now : Z) (edge : Edges) (next : Z) (inputs : list (EdgeInput * Z)) (records : list EdgeRecord) (next' : Z) : Prop :=
  match inputs, records with
  | [], [] => next' = next
  | input :: inputs, r :: records =>
      exists m next1, chosen_edge uniq now edge next (edge_triple_of input) m next1 /\ r = input_record now input m
        /\ forall seq, edges_in_turn uniq now (edge_step (seq, UpsertEdge r) edge) next1 inputs records next'
  | _, _ => False
  end.
Lemma edges_next uniq now edge next inputs records next' : edges_in_turn uniq now edge next inputs records next' -> next <= next' <= next + len inputs.
Proof.
  revert edge next records. induction inputs as [|input inputs IH]; intros edge next [|r records]; cbn [edges_in_turn]; try done.
  - intros ->. cbn. lia.
  - intros (m & next1 & Hc & _ & Hrest). specialize (IH _ _ _ (Hrest 0)).
    assert (len (input :: inputs) = len inputs + 1) as -> by (cbn [length]; lia). destruct Hc as [(_ & _ & ->)|(_ & _ & ->)]; lia.
Qed.
(** The triples of the edge ids, once [records] are written. *)
Definition note_triple (tf : Z -> Z * Z * Z) (r : EdgeRecord) : Z -> Z * Z * Z := fun e => if e =? er_id r then triple_of r else tf e.
Definition note_triples (tf : Z -> Z * Z * Z) (records : list EdgeRecord) : Z -> Z * Z * Z := foldl note_triple tf records.
Lemma edge_upsert_safe uniq nn ne tf now node edge input m ne' :
  good uniq nn ne tf node edge -> chosen_edge uniq now edge ne (edge_triple_of input) m ne' ->
  let r := input_record now input m in
  (forall e, e < ne -> note_triple tf r e = tf e) /\ ne <= ne' /\ safe uniq nn ne' (note_triple tf r) (UpsertEdge r) node edge.
Proof.
  intros [_ _ G3 G4] Hc r. assert (triple_of r = edge_triple_of input /\ er_id r = fst m) as [Ht Hid] by by destruct input.
  unfold safe, note_triple. rewrite Hid, Z.eqb_refl, Ht. destruct Hc as [(Hu & (r0 & Hr & Ht0 & _) & ->)|(Hno & -> & ->)].
  - destruct (G3 _ _ Hr) as (_ & Hlt & Htf). split_and!; [|lia|done|done|].
    + intros e He. destruct (Z.eqb_spec e (fst m)) as [->|]; [congruence|done].
    + intros _ e r' He Ht'. apply (G4 Hu e (fst m) r' r0); [done..|congruence].
  - cbn [fst]. split_and!; [|lia|lia|done|].
    + intros e He. destruct (Z.eqb_spec e ne); [lia|done].
    + intros Hu e r' He Ht'. by destruct (Hno Hu e r').
Qed.
Lemma edges_safe uniq nn tf now node edge ne inputs records ne' :
  good uniq nn ne tf node edge -> edges_in_turn uniq now edge ne inputs records ne' ->
  (forall e, e < ne -> note_triples tf records e = tf e) /\ all_safe uniq nn ne' (note_triples tf records) (UpsertEdge <$> records) node edge.
Proof.
  revert edge ne tf records. induction inputs as [|input inputs IH]; intros edge ne tf [|r records] Hg; cbn [edges_in_turn]; try done.
  intros (m & ne1 & Hc & -> & Hrest). set (r := input_record now input m) in *. destruct (edge_upsert_safe uniq nn ne tf now node edge input m ne1 Hg Hc) as (Htf & Hle & Hsafe). fold r in Htf, Hsafe.
  assert (forall seq, (forall e, e < ne1 -> note_triples tf (r :: records) e = note_triple tf r e)
     /\ all_safe uniq nn ne' (note_triples tf (r :: records)) (UpsertEdge <$> records) node (edge_step (seq, UpsertEdge r) edge)) as Hafter.
  { intros seq. apply (IH _ ne1 (note_triple tf r)); [|apply Hrest]. apply (good_step uniq nn ne1 _ seq (UpsertEdge r) node edge Hsafe).
    by apply (good_mono uniq nn ne nn ne1 tf). }
  destruct (Hafter 0) as [Ht _]. destruct (edges_next _ _ _ _ _ _ _ (Hrest 0)) as [Hn _]. split.
  - intros e He. rewrite Ht by lia. by apply Htf.
  - rewrite fmap_cons. split; [|intros seq; apply Hafter]. destruct Hsafe as (H1 & H2 & H3). split_and!; [lia| |done]. by rewrite Ht.
Qed.

Lemma insert_some_lookup {K A} `{Countable K} (keys : list K) (found : list (option A)) (acc : gmap K A) :
  let m := foldl (fun m '(k, o) => match o with Some a => <[k := a]> m | None => m end) acc (zip keys found) in
  (forall k, k ∉ keys -> m !! k = acc !! k)
  /\ (NoDup keys -> forall i k o, keys !! i = Some k -> found !! i = Some o -> m !! k = match o with Some a => Some a | None => acc !! k end).
Proof.
  revert found acc. induction keys as [|k0 keys IH]; intros [|o0 found] acc; cbn [zip zip_with foldl]; try done.
  destruct (IH found (match o0 with Some a => <[k0 := a]> acc | None => acc end)) as [HA HB]. split.
  - intros k [Hne Hn]%not_elem_of_cons. rewrite HA by done. destruct o0; [by rewrite lookup_insert_ne|done].
  - intros [Hn Hnd]%NoDup_cons [|i] k o Hi Ho.
    + injection Hi as <-. injection Ho as <-. rewrite HA by done. destruct o0; [by rewrite lookup_insert_eq|done].
    + assert (k0 ≠ k) as Hne by (intros ->; by apply Hn, list_elem_of_lookup_2 with i).
      rewrite (HB Hnd i k o) by done. destruct o; [done|]. destruct o0; [by rewrite lookup_insert_ne|done].
Qed.
Lemma next_u64_succ id : 0 <= id < u64_max -> next_u64 id = id + 1.
Proof. intros Hid. unfold next_u64, to_bits, u64_max in *. apply Z.mod_small. lia. Qed.

Section EdgeRecords.
Context {Segment : Type} `{SegmentReads Segment, SegmentKeys Segment, SegmentAdjacency Segment, SegmentScans Segment} `{HashOrder, UnstableSort}.
Abbreviation Core := (PlanCore (Segment := Segment)).
Implicit Types (self : Core).

(** What the tables say of the triples of a request. *)
Definition tables_say (wanted : list (Z * Z * Z)) (committed batch : gmap (Z * Z * Z) Allocated) (edge : Edges) : Prop :=
  forall t, t ∈ wanted ->
    match match batch !! t with Some m => Some m | None => committed !! t end with
    | Some m => exists r, edge (fst m) = Some r /\ triple_of r = t /\ er_created_at r = snd m
    | None => forall e r, edge e = Some r -> triple_of r ≠ t
    end.
Lemma allocate_edge_spec now self committed batch t m self' edge wanted :
  0 <= pc_next_edge_id self < u64_max -> t ∈ wanted ->
  (pc_edge_uniqueness self = true -> tables_say wanted committed batch edge) ->
  allocate_edge now self committed batch t = (m, self') ->
  chosen_edge (pc_edge_uniqueness self) now edge (pc_next_edge_id self) t m (pc_next_edge_id self')
  /\ self' = set_next_edge_id (pc_next_edge_id self') self.
Proof.
  intros Hne Hw Hsay. unfold allocate_edge. assert (self = set_next_edge_id (pc_next_edge_id self) self) as Eself by by destruct self.
  destruct (pc_edge_uniqueness self) eqn:Eu.
  - specialize (Hsay eq_refl t Hw). destruct (batch !! t) as [m1|]; [intros E; injection E as <- <-; split; [by left|done]|].
    destruct (committed !! t) as [m1|]; intros E; injection E as <- <-; (split; [|done]); [by left|]. right. cbn. by rewrite next_u64_succ.
  - intros E. injection E as <- <-. split; [|done]. right. cbn. by rewrite next_u64_succ.
Qed.
Lemma plan_edge_records_spec now committed batch self inputs records self' edge wanted :
  (forall input, input ∈ inputs -> edge_triple_of input ∈ wanted) ->
  0 <= pc_next_edge_id self -> pc_next_edge_id self + len inputs <= u64_max ->
  (forall e r, edge e = Some r -> e < pc_next_edge_id self) ->
  (pc_edge_uniqueness self = true -> tables_say wanted committed batch edge) ->
  plan_edge_records now committed batch self inputs = (records, self') ->
  edges_in_turn (pc_edge_uniqueness self) now edge (pc_next_edge_id self) inputs records (pc_next_edge_id self')
  /\ self' = set_next_edge_id (pc_next_edge_id self') self.
Proof.
  revert batch self edge records. induction inputs as [|[input l] inputs IH]; intros batch self edge records Hw H0' Hroom Hb Hsay; cbn [plan_edge_records].
  { intros E. injection E as <- <-. split; [done|]. by destruct self. }
  assert (len ((input, l) :: inputs) = len inputs + 1) as El by (cbn [length]; lia). rewrite El in Hroom.
  destruct (allocate_edge now self committed batch (edge_triple_of (input, l))) as [m self1] eqn:Ea.
  destruct (allocate_edge_spec now self committed batch _ m self1 edge wanted ltac:(lia) ltac:(apply Hw; left) Hsay Ea) as [Hc Es].
  assert (pc_edge_uniqueness self1 = pc_edge_uniqueness self) as Eu by by rewrite Es.
  assert (pc_next_edge_id self <= pc_next_edge_id self1 <= pc_next_edge_id self + 1 /\ fst m < pc_next_edge_id self1) as [Hle Hm].
  { destruct Hc as [(_ & (r & Hr & _) & ->)|(_ & -> & ->)]; [split; [lia|by apply (Hb _ r)]|cbn; lia]. }
  set (batch' := if pc_edge_uniqueness self1 then _ else _). set (r := edge_record now m _ _ _ _ _ _ _).
  destruct (plan_edge_records now committed batch' self1 inputs) as [rest self2] eqn:Er. intros E. injection E as <- <-.
  assert (forall seq, edges_in_turn (pc_edge_uniqueness self1) now (edge_step (seq, UpsertEdge r) edge) (pc_next_edge_id self1) inputs rest (pc_next_edge_id self2)
    /\ self2 = set_next_edge_id (pc_next_edge_id self2) self1) as Hrest.
  { intros seq. apply (IH batch'); [intros i Hi; apply Hw; by right|lia|lia| | |done].
    - intros e r'. cbn. case_decide as Ee; [by subst|]. intros Hr%Hb. lia.
    - intros Hu t Ht. unfold batch'. rewrite Hu. rewrite Eu in Hu. specialize (Hsay Hu t Ht). destruct (decide (t = edge_triple_of (input, l))) as [->|Hne].
      + rewrite lookup_insert_eq. cbn. rewrite decide_True by done. by eexists.
      + rewrite lookup_insert_ne by done. destruct (match batch !! t with Some m => Some m | None => committed !! t end) as [m1|].
        * destruct Hsay as (r1 & Hr1 & Ht1 & Hc1). exists r1. cbn. rewrite decide_False; [done|]. intros Em. rewrite Em in Hr1.
          destruct Hc as [(_ & (r2 & Hr2 & Ht2 & _) & _)|(_ & -> & _)]; [congruence|]. cbn in Hr1. apply Hb in Hr1. lia.
        * intros e r1. cbn. case_decide as Ee; [|apply Hsay]. intros Hr1 Ht1. apply (inj Some) in Hr1 as <-. by apply Hne. }
  destruct (Hrest 0) as [_ Es2]. split; [|by rewrite Es2, Es].
  exists m, (pc_next_edge_id self1). split_and!; [done|done|]. intros seq. destruct (Hrest seq) as [Ht _]. by rewrite Eu in Ht.
Qed.
Lemma committed_triples_spec self inputs committed node edge :
  planner_reads (pc_sources self) (pc_edge_uniqueness self) node edge ->
  committed_triples self inputs = Ok committed ->
  pc_edge_uniqueness self = true -> tables_say (edge_triple_of <$> inputs) committed ∅ edge.
Proof.
  intros Hreads Hc Hu. unfold committed_triples in Hc. rewrite Hu in Hc. cbn [andb] in Hc. case_bool_decide as El.
  { apply nil_length_inv in El as ->. by intros t ?%not_elem_of_nil. }
  cbn [negb] in Hc. unfold find_existing_edges_batch in Hc.
  destruct (find_edges_by_triples (pc_sources self) _) as [found|e] eqn:Ef; cbn [mbind result_bind] in Hc; [|done]. apply Ok_inj in Hc as <-.
  apply (pr_triples _ _ _ _ Hreads) in Ef; [|done]. set (keys := distinct (edge_triple_of <$> inputs)) in *.
  destruct (insert_some_lookup keys (map (option_map allocated_edge) found) ∅) as [_ HB].
  intros t Ht. assert (t ∈ keys) as [i Hi]%list_elem_of_lookup by by apply distinct_elem.
  destruct (Forall2_lookup_l _ _ _ _ _ Ef Hi) as (o & Ho & Hm). rewrite lookup_empty.
  rewrite (HB (distinct_nodup _) i t (option_map allocated_edge o)); [|done|].
  - destruct o as [r|]; cbn [option_map]; [|by rewrite lookup_empty]. destruct Hm. by exists r.
  - change (map ?f ?l) with (fmap (M := list) f l). by rewrite list_lookup_fmap, Ho.
Qed.
End EdgeRecords.

(** ** Every plan keeps the graph good *)
Lemma push_token_ops_labels p : Forall labels_only (push_token_ops p).
Proof.
  unfold push_token_ops. apply Forall_app. split; apply Forall_forall; intros op ([l i] & -> & _)%list_elem_of_fmap; done.
Qed.
Lemma resolve_label_sets_wf p resolved requests sets p' :
  resolve_label_sets p resolved requests = Ok (sets, p') -> Forall NodeLabels.wf sets.
Proof.
  revert p resolved sets. induction requests as [|labels requests IH]; intros p resolved sets; cbn [resolve_label_sets].
  { intros E. apply Ok_inj in E as [= <- <-]. constructor. }
  destruct (resolve_each _ p resolved labels) as [[[ids p1] resolved1]|e]; cbn [mbind result_bind]; [|done].
  destruct (NodeLabels.from_label_ids ids) as [set|e] eqn:Es; cbn [mbind result_bind]; [|done].
  destruct (resolve_label_sets p1 resolved1 requests) as [[sets1 p2]|e] eqn:Er; cbn [mbind result_bind]; [|done].
  intros E. apply Ok_inj in E as [= <- <-]. constructor; [by apply NodeLabels.wf_from_label_ids in Es|by apply (IH p1 resolved1)].
Qed.
Lemma resolve_set_wf p labels set p' : resolve_validated_node_label_set_for_write p labels = Ok (set, p') -> NodeLabels.wf set.
Proof.
  unfold resolve_validated_node_label_set_for_write. destruct (resolve_all p labels) as [[ids p1]|e]; cbn [mbind result_bind]; [|done].
  destruct (NodeLabels.from_label_ids ids) as [set1|e] eqn:Es; cbn [mbind result_bind]; [|done].
  intros E. apply Ok_inj in E as [= <- <-]. by apply NodeLabels.wf_from_label_ids in Es.
Qed.

Section Plans.
Context {Segment : Type} `{SegmentReads Segment, SegmentKeys Segment, SegmentAdjacency Segment, SegmentScans Segment} `{HashOrder, UnstableSort}.
Abbreviation Core := (PlanCore (Segment := Segment)).
Context (now : Z) (self : Core) (node : Nodes) (edge : Edges) (tf : Z -> Z * Z * Z).
Abbreviation nn := (pc_next_node_id self).
Abbreviation ne := (pc_next_edge_id self).
Abbreviation uniq := (pc_edge_uniqueness self).
Hypothesis Hreads : planner_reads (pc_sources self) uniq node edge.
Hypothesis Hgood : good uniq nn ne tf node edge.

(** The counters only grow, edge ids keep their triples, and every operation is
    safe. *)
Definition kept (self' : Core) (ops : list WalOp) : Prop :=
  self' = set_next_node_id (pc_next_node_id self') (set_next_edge_id (pc_next_edge_id self') self)
  /\ nn <= pc_next_node_id self' /\ ne <= pc_next_edge_id self'
  /\ exists tf', (forall e, e < ne -> tf' e = tf e) /\ all_safe uniq (pc_next_node_id self') (pc_next_edge_id self') tf' ops node edge.
Lemma kept_same ops : all_safe uniq nn ne tf ops node edge -> kept self ops.
Proof. intros Hs. split_and!; [by destruct self|lia..|]. by exists tf. Qed.
Lemma kept_harmless ops : Forall harmless ops -> kept self ops.
Proof. intros Hh. by apply kept_same, harmless_safe. Qed.

Lemma plan_upsert_node_spec labels key options self' plan :
  0 <= nn < u64_max -> plan_upsert_node now self labels key options = Ok (self', plan) ->
  exists label_set m vectors label_ops, chosen now node nn label_set key m (pc_next_node_id self') /\ no_conflict node label_set key (fst m)
    /\ NodeLabels.wf label_set /\ Forall labels_only label_ops /\ self' = set_next_node_id (pc_next_node_id self') self
    /\ pl_ops plan = label_ops ++ [UpsertNode (node_record now (mkNodeInput labels key (no_props options) (no_weight options) None None) label_set vectors m)].
Proof.
  intros Hroom. unfold plan_upsert_node. destruct (ValidatedNodeLabelList_new labels) as [vl|e]; cbn [mbind result_bind]; [|done].
  destruct (validate_node_key_for_write key) as [[]|e]; cbn [mbind result_bind]; [|done].
  destruct (normalize_node_vectors_for_write _ _ _) as [[dense sparse]|e]; cbn [mbind result_bind]; [|done].
  destruct (resolve_validated_node_label_set_for_write _ vl) as [[set lp]|e] eqn:El; cbn [mbind result_bind]; [|done].
  destruct (find_existing_node_for_label_set self set key) as [existing|e] eqn:Ex; cbn [mbind result_bind]; [|done].
  intros E. apply resolve_set_wf in El. unfold find_existing_node_for_label_set, find_existing_nodes_batch in Ex.
  set (names := (fun label_id => (label_id, key)) <$> NodeLabels.as_slice set) in *.
  destruct (find_nodes_by_label_keys (pc_sources self) names) as [found|e] eqn:Ef; cbn [mbind result_bind] in Ex; [|done].
  apply (pr_keys _ _ _ _ Hreads) in Ef. apply one_winner_Ok in Ex.
  assert (forall l, l ∈ NodeLabels.as_slice set -> exists o, option_map allocated_node o ∈ map (option_map allocated_node) found /\ means_node node (l, key) o) as Hname.
  { intros l Hl. assert ((l, key) ∈ names) as [i Hi]%list_elem_of_lookup by (apply list_elem_of_fmap; by exists l).
    destruct (Forall2_lookup_l _ _ _ _ _ Ef Hi) as (o & Ho & Hm). exists o. split; [|done].
    apply (list_elem_of_fmap_2 (option_map allocated_node)). by apply list_elem_of_lookup_2 with i. }
  destruct existing as [m|].
  - destruct m as [id c]. apply Ok_inj in E as [= <- <-]. exists set, (id, c), (dense, sparse), (push_token_ops lp). destruct Ex as [[?|[_ Hin]] Hall]; [done|].
    split_and!; [|..|done|apply push_token_ops_labels|by destruct self|done].
    + left. apply list_elem_of_In, in_map_iff in Hin as (o & Eo & Hin). apply list_elem_of_In, list_elem_of_lookup in Hin as [i Hi].
      destruct (Forall2_lookup_r _ _ _ _ _ Ef Hi) as (nm & Hnm & Hm). destruct o as [r|]; [|done]. injection Eo as <- <-.
      apply list_elem_of_lookup_2, list_elem_of_fmap in Hnm as (l & -> & Hl). destruct Hm as (Hr & Hl' & Hk). by exists r, l.
    + intros n r l Hn Hl Hl' Hk. destruct (Hname l Hl') as (o & Ho & Hm). destruct o as [r'|]; [|by destruct (Hm n r)]. destruct Hm as (Hr' & Hlr & Hkr).
      cbn [option_map] in Ho. rewrite <- (Hall (allocated_node r') Ho). cbn. apply (gd_keys _ _ _ _ _ _ Hgood n _ r r' l); [done..|cbn in Hkr; congruence].
  - apply Ok_inj in E as [= <- <-]. exists set, (nn, now), (dense, sparse), (push_token_ops lp). destruct Ex as [_ Hall].
    assert (forall n r l, node n = Some r -> l ∈ labels_of r -> l ∈ NodeLabels.as_slice set -> nr_key r ≠ key) as Hnone.
    { intros n r l Hn Hl Hl' Hk. destruct (Hname l Hl') as (o & Ho & Hm). destruct o as [r'|]; [|by destruct (Hm n r)].
      by destruct (Hall (allocated_node r')). }
    split_and!; [|..|done|apply push_token_ops_labels|done|done].
    + right. split_and!; [done..|]. cbn. by rewrite next_u64_succ.
    + intros n r l Hn Hl Hl' Hk. by destruct (Hnone n r l).
Qed.
Lemma plan_upsert_node_kept labels key options self' plan :
  0 <= nn < u64_max -> plan_upsert_node now self labels key options = Ok (self', plan) -> kept self' (pl_ops plan).
Proof.
  intros Hroom Hp. destruct (plan_upsert_node_spec labels key options self' plan Hroom Hp) as (set & m & v & lops & Hc & Hone & Hwf & Hl & Es & ->).
  assert (nn <= pc_next_node_id self' /\ fst m < pc_next_node_id self') as [Hle Hm].
  { destruct Hc as [(r & l & Hr & _ & _ & _ & _ & ->)|(_ & -> & ->)]; [split; [lia|by apply (gd_node _ _ _ _ _ _ Hgood) in Hr as (_ & _ & ?)]|cbn; lia]. }
  split_and!; [by rewrite Es; destruct self|done|by rewrite Es|]. exists tf. split; [done|]. apply labels_first; [done|].
  split; [|done]. split_and!; [done..|]. intros n r' l Hr Hl1 Hl2 Hk. by apply (Hone n r' l).
Qed.

Lemma existing_node_spec id current : existing_node self id = Ok current -> node id = Some current /\ nr_id current = id /\ NodeLabels.wf (nr_label_ids current) /\ id < nn.
Proof.
  unfold existing_node. destruct (find_nodes (pc_sources self) [id]) as [found|e] eqn:Ef; cbn [mbind result_bind]; [|done].
  apply (pr_nodes _ _ _ _ Hreads) in Ef as ->. cbn. destruct (node id) as [r|] eqn:Er; [|done]. intros E. apply Ok_inj in E as <-.
  split; [done|]. by apply (gd_node _ _ _ _ _ _ Hgood).
Qed.
(** A live node may take labels under which no other node has its key. *)
Lemma relabel_kept id current label_ids label_ops :
  Forall labels_only label_ops -> existing_node self id = Ok current -> NodeLabels.wf label_ids ->
  (forall l, l ∈ NodeLabels.as_slice label_ids -> l ∈ labels_of current \/ forall m r, node m = Some r -> l ∈ labels_of r -> nr_key r = nr_key current -> m = id) ->
  kept self (label_ops ++ [UpsertNode (with_labels current label_ids now)]).
Proof.
  intros Hl (Hc & Hid & _ & Hlt)%existing_node_spec Hwf Hnew. apply kept_same, labels_first; [done|]. split; [|done].
  split_and!; [done|cbn; lia|]. intros m r' l Hr Hl' Hl2 Hk. cbn in *. rewrite Hid. destruct (Hnew l Hl2) as [Hold|Hn]; [|by apply (Hn m r')].
  by apply (gd_keys _ _ _ _ _ _ Hgood m id r' current l).
Qed.
Lemma plan_add_node_label_kept id label plan : plan_add_node_label now self id label = Ok plan -> kept self (pl_ops plan).
Proof.
  unfold plan_add_node_label. destruct (validate_label_token_name label) as [[]|e]; cbn [mbind result_bind]; [|done].
  destruct (existing_node self id) as [current|e] eqn:Ec; cbn [mbind result_bind]; [|done].
  pose proof (existing_node_spec id current Ec) as (Hc & Hid & Hwf & Hlt).
  set (known := label_to_id _ !! label).
  destruct (match known with Some label_id => NodeLabels.contains (nr_label_ids current) label_id | None => false end);
    [intros E; apply Ok_inj in E as <-; by apply kept_harmless|].
  destruct (nls_count (nr_label_ids current) =? Z.of_nat MAX_NODE_LABELS_PER_NODE); [done|].
  destruct (match known with Some label_id => Ok (label_id, _) | None => _ end) as [[label_id lp]|e]; cbn [mbind result_bind]; [|done].
  destruct (find_existing_node self label_id (nr_key current)) as [existing|e] eqn:Ex; cbn [mbind result_bind]; [|done].
  destruct (match existing with Some _ => _ | None => _ end) eqn:Econf; [done|].
  destruct (NodeLabels.from_label_ids _) as [set|e] eqn:Es; cbn [mbind result_bind]; [|done]. intros E. apply Ok_inj in E as <-. cbn [pl_ops].
  apply (relabel_kept id); [apply push_token_ops_labels|done|by apply NodeLabels.wf_from_label_ids in Es|]. intros l Hl.
  rewrite (NodeQueryFacts.from_label_ids_slice _ _ Es), elem_of_app, list_elem_of_singleton in Hl. destruct Hl as [?| ->]; [by left|right].
  unfold find_existing_node in Ex. destruct (find_node_by_label_key _ label_id _) as [found|e] eqn:Ef; cbn [mbind result_bind] in Ex; [|done].
  apply Ok_inj in Ex as <-. apply (pr_key _ _ _ _ Hreads) in Ef. intros m r Hr Hl Hk. destruct found as [r0|]; [|by destruct (Ef m r)].
  destruct Ef as (Hr0 & Hl0 & Hk0). cbn [option_map allocated_node] in Econf. apply negb_false_iff, Z.eqb_eq in Econf.
  rewrite <- Hid, <- Econf. apply (gd_keys _ _ _ _ _ _ Hgood m _ r r0 label_id); [done..|]. cbn in Hk0. congruence.
Qed.
Lemma plan_remove_node_label_kept id label plan : plan_remove_node_label now self id label = Ok plan -> kept self (pl_ops plan).
Proof.
  unfold plan_remove_node_label. destruct (validate_label_token_name label) as [[]|e]; cbn [mbind result_bind]; [|done].
  destruct (existing_node self id) as [current|e] eqn:Ec; cbn [mbind result_bind]; [|done].
  destruct (NodeQuery.resolve_node_label_for_read _ label) as [[label_id|]|e]; cbn [mbind result_bind]; [| |done].
  2: { intros E. apply Ok_inj in E as <-. by apply kept_harmless. }
  case_match; [intros E; apply Ok_inj in E as <-; by apply kept_harmless|]. case_match; [done|].
  destruct (NodeLabels.from_label_ids _) as [set|e] eqn:Es; cbn [mbind result_bind]; [|done]. intros E. apply Ok_inj in E as <-. cbn [pl_ops].
  apply (relabel_kept id _ _ []); [constructor|done|by apply NodeLabels.wf_from_label_ids in Es|]. intros l Hl. left.
  rewrite (NodeQueryFacts.from_label_ids_slice _ _ Es), list_elem_of_filter in Hl. by destruct Hl.
Qed.

Lemma validate_inputs_len inputs validated : validate_inputs self inputs = Ok validated -> length validated = length inputs.
Proof.
  revert validated. induction inputs as [|input inputs IH]; intros validated; cbn [validate_inputs].
  { intros E. by apply Ok_inj in E as <-. }
  intros (vl & _ & (? & _ & (v & _ & (rest & Er & E)%bind_Ok_inv)%bind_Ok_inv)%bind_Ok_inv)%bind_Ok_inv.
  apply Ok_inj in E as <-. cbn. f_equal. by apply IH.
Qed.
Lemma zipped_wf (inputs : list NodeInput) (sets : list NodeLabelSet) (vectors : list NormalizedVectors) :
  Forall NodeLabels.wf sets -> Forall (fun '(_, label_set, _) => NodeLabels.wf label_set) (zip (zip inputs sets) vectors).
Proof.
  intros Hwf. apply Forall_forall. intros [[inp ls] v] Hin. apply list_elem_of_lookup in Hin as [i Hi].
  apply lookup_zip_with_Some in Hi as (x & y & [= <- ->] & Hi & _). apply lookup_zip_with_Some in Hi as (x & y' & [= -> ->] & _ & Hl).
  by apply (Forall_lookup_1 _ _ _ _ Hwf Hl).
Qed.
Lemma zip_len {A B} (a : list A) (b : list B) : (length (zip a b) <= length a)%nat.
Proof. revert b. induction a as [|x a IH]; intros [|y b]; cbn [zip_with length]; [lia..|]. specialize (IH b). lia. Qed.
Lemma upserts_kept inputs sets vectors records next' :
  Forall NodeLabels.wf sets -> upserts_in_turn now node nn (zip (zip inputs sets) vectors) records next' ->
  nn <= next' /\ all_safe uniq next' ne tf (UpsertNode <$> records) node edge.
Proof.
  intros Hwf Hu. split; [by destruct (upserts_next _ _ _ _ _ _ Hu)|]. apply (upserts_safe uniq nn ne tf now node edge (zip (zip inputs sets) vectors) records next'); [|by apply zipped_wf|done].
  intros n r Hr. by apply (gd_node _ _ _ _ _ _ Hgood) in Hr as (_ & _ & ?).
Qed.
(** A batch upserts its records one after the other. *)
Lemma plan_batch_upsert_nodes_spec inputs self' plan :
  plan_batch_upsert_nodes now self inputs = Ok (self', plan) ->
  exists label_sets vectors label_ops records, length vectors = length inputs /\ Forall NodeLabels.wf label_sets /\ Forall labels_only label_ops
    /\ upserts_in_turn now node nn (zip (zip inputs label_sets) vectors) records (pc_next_node_id self')
    /\ self' = set_next_node_id (pc_next_node_id self') self
    /\ pl_ops plan = label_ops ++ (UpsertNode <$> records) /\ pl_reply plan = ReplyVecU64 (nr_id <$> records).
Proof.
  intros (validated & Ev & ([sets lp] & El & ([[records ids] next'] & Er & E)%bind_Ok_inv)%bind_Ok_inv)%bind_Ok_inv.
  apply Ok_inj in E as [= <- <-]. apply resolve_label_sets_wf in El. apply validate_inputs_len in Ev.
  destruct (plan_node_upsert_records_spec now self node edge tf Hreads Hgood _ _ _ _ _ _ El Er) as [Hu ->].
  exists sets, (snd <$> validated), (push_token_ops lp), records. split_and!; [by rewrite length_fmap|done|apply push_token_ops_labels|done..].
Qed.
Lemma plan_batch_upsert_nodes_kept inputs self' plan :
  plan_batch_upsert_nodes now self inputs = Ok (self', plan) -> kept self' (pl_ops plan).
Proof.
  intros (sets & vectors & lops & records & _ & Hwf & Hl & Hu & Es & -> & _)%plan_batch_upsert_nodes_spec.
  destruct (upserts_kept inputs sets vectors records _ Hwf Hu) as [Hle Hs].
  assert (pc_next_edge_id self' = ne) as Ene by by rewrite Es.
  split_and!; [rewrite Es; by destruct self|done|lia|]. exists tf. split; [done|]. rewrite Ene. by apply labels_first.
Qed.

Lemma edges_kept inputs records self' label_ops :
  Forall labels_only label_ops -> self' = set_next_edge_id (pc_next_edge_id self') self ->
  edges_in_turn uniq now edge ne inputs records (pc_next_edge_id self') -> kept self' (label_ops ++ (UpsertEdge <$> records)).
Proof.
  intros Hl Es He. destruct (edges_safe uniq nn tf now node edge ne inputs records _ Hgood He) as [Htf Hs]. apply edges_next in He as [Hle _].
  assert (pc_next_node_id self' = nn) as Enn by by rewrite Es.
  split_and!; [rewrite Es; by destruct self|lia|done|]. exists (note_triples tf records). split; [done|]. rewrite Enn. by apply labels_first.
Qed.
Lemma edge_below e r : edge e = Some r -> e < ne.
Proof. intros Hr. by apply (gd_edge _ _ _ _ _ _ Hgood) in Hr as (_ & ? & _). Qed.
Lemma plan_batch_upsert_edges_spec inputs self' plan :
  0 <= ne -> ne + len inputs <= u64_max -> plan_batch_upsert_edges now self inputs = Ok (self', plan) ->
  exists label_ids label_ops records, Forall labels_only label_ops
    /\ edges_in_turn uniq now edge ne (zip inputs label_ids) records (pc_next_edge_id self')
    /\ self' = set_next_edge_id (pc_next_edge_id self') self
    /\ pl_ops plan = label_ops ++ (UpsertEdge <$> records) /\ pl_reply plan = ReplyVecU64 (er_id <$> records).
Proof.
  intros H0' Hroom ([ids lp] & _ & (committed & Ec & E)%bind_Ok_inv)%bind_Ok_inv.
  destruct (plan_edge_records now committed ∅ self (zip inputs ids)) as [records self1] eqn:Er. apply Ok_inj in E as [= <- <-].
  pose proof (zip_len inputs ids) as Hz.
  destruct (plan_edge_records_spec now committed ∅ self (zip inputs ids) records self1 edge (edge_triple_of <$> zip inputs ids)) as [He Es]; try done.
  - intros i Hi. by apply list_elem_of_fmap_2.
  - lia.
  - apply edge_below.
  - by apply (committed_triples_spec self _ committed node).
  - exists ids, (push_token_ops lp), records. split_and!; [apply push_token_ops_labels|done..].
Qed.
Lemma plan_batch_upsert_edges_kept inputs self' plan :
  0 <= ne -> ne + len inputs <= u64_max -> plan_batch_upsert_edges now self inputs = Ok (self', plan) -> kept self' (pl_ops plan).
Proof.
  intros H0' Hroom Hp. destruct (plan_batch_upsert_edges_spec inputs self' plan H0' Hroom Hp) as (ids & lops & records & Hl & He & Es & -> & _).
  by apply (edges_kept (zip inputs ids)).
Qed.
Lemma plan_upsert_edge_kept from to label options self' plan :
  0 <= ne < u64_max -> plan_upsert_edge now self from to label options = Ok (self', plan) -> kept self' (pl_ops plan).
Proof.
  intros Hroom ([label_id create] & _ & ([m self1] & Em & E)%bind_Ok_inv)%bind_Ok_inv. apply Ok_inj in E as [= <- <-].
  set (input := (mkEdgeInput from to label (eo_props options) (eo_weight options) (eo_valid_from options) (eo_valid_to options), label_id)).
  assert (chosen_edge uniq now edge ne (edge_triple_of input) m (pc_next_edge_id self1) /\ self1 = set_next_edge_id (pc_next_edge_id self1) self) as [Hc Es].
  { assert (self = set_next_edge_id ne self) as Eself by by destruct self. unfold chosen_edge. destruct uniq eqn:Eu.
    - apply bind_Ok_inv in Em as (existing & Ex & Em). apply Ok_inj in Em. unfold find_existing_edge in Ex. apply bind_Ok_inv in Ex as (found & Ef & Ex). apply Ok_inj in Ex as <-.
      apply (pr_triple _ _ _ _ Hreads) in Ef; [|done]. destruct found as [r|]; cbn [option_map] in Em; injection Em as <- <-.
      + destruct Ef. split; [left|done]. split_and!; [done|by exists r|done].
      + split; [|done]. right. cbn [edge_triple_of]. split_and!; [intros _; exact Ef|done|]. cbn. by rewrite next_u64_succ.
    - apply Ok_inj in Em. injection Em as <- <-. split; [right|done]. cbn. by rewrite next_u64_succ. }
  cbn [pl_ops]. apply (edges_kept [input] [input_record now input m] self1); [by destruct create; repeat constructor|done|].
  exists m, (pc_next_edge_id self1). by split_and!.
Qed.
Lemma plan_invalidate_edge_kept id valid_to plan : plan_invalidate_edge now self id valid_to = Ok plan -> kept self (pl_ops plan).
Proof.
  intros (found & Ef & E)%bind_Ok_inv. apply (pr_edge _ _ _ _ Hreads) in Ef as ->. destruct (edge id) as [r|] eqn:Er; apply Ok_inj in E as <-; [|by apply kept_harmless].
  apply kept_same. split; [|done]. destruct (gd_edge _ _ _ _ _ _ Hgood _ _ Er) as (Hid & Hlt & Ht). cbn. rewrite Hid. split_and!; [done|done|].
  intros Hu e r' He Ht'. by apply (gd_triples _ _ _ _ _ _ Hgood Hu e id r' r).
Qed.
End Plans.
