(* ===== verification/WritePatchFacts.v ===== *)
(** Patches, prunes and the planner as a whole: whatever the request, the
    operations of its plan keep a good graph good. *)
From S2P Require Import Prelude Types PropertyValue CompoundKey Slots Memtable MemtableCells MemtableFacts MemtableReads MemtableSnapshots MemtableKeys Manifest LabelCatalog Vectors DegreeEngine FilterBase NodeFilter NodeQuery NodeQueryFacts SourceList SourceListFacts SourceKeys Adjacency WritePlan WritePlanFacts.
Import SourceList.

Lemma after_app seqs (a b : list WalOp) (node : Nodes) (edge : Edges) :
  length seqs = length (a ++ b) ->
  exists sa sb, length sa = length a /\ length sb = length b
    /\ nodes_after (zip seqs (a ++ b)) node = nodes_after (zip sb b) (nodes_after (zip sa a) node)
    /\ edges_after (zip seqs (a ++ b)) edge = edges_after (zip sb b) (edges_after (zip sa a) edge).
Proof.
  revert seqs node edge. induction a as [|op a IH]; intros seqs node edge Hl; [by exists [], seqs|].
  destruct seqs as [|seq seqs]; [done|]. cbn in Hl. destruct (IH seqs (node_step (seq, op) node) (edge_step (seq, op) edge)) as (sa & sb & H1 & H2 & H3 & H4); [lia|].
  exists (seq :: sa), sb. split_and!; [cbn; lia|done|exact H3|exact H4].
Qed.

Section Staging.
Context {Segment : Type} `{SegmentReads Segment, SegmentKeys Segment, SegmentAdjacency Segment, SegmentScans Segment} `{HashOrder, UnstableSort}.
Abbreviation Core := (PlanCore (Segment := Segment)).
Context (uniq : bool) (nn ne : Z) (tf : Z -> Z * Z * Z) (node : Nodes) (edge : Edges).
Hypothesis Hgood : good uniq nn ne tf node edge.

(** The records after the staged operations, whatever their sequence numbers. *)
Definition at_stage (s : Staging) (P : Nodes -> Edges -> Prop) : Prop :=
  forall seqs, length seqs = length (st_ops s) -> P (nodes_after (zip seqs (st_ops s)) node) (edges_after (zip seqs (st_ops s)) edge).
Record staging_ok (s : Staging) : Prop := {
  sk_safe : all_safe uniq nn ne tf (st_ops s) node edge;
  sk_none id : st_edge_op_idx s !! id = None -> at_stage s (fun _ edge' => edge' id = edge id);
  sk_some id i : st_edge_op_idx s !! id = Some i ->
    exists r, st_ops s !! i = Some (UpsertEdge r) /\ er_id r = id
      /\ at_stage s (fun _ edge' => exists r', edge' id = Some r' /\ triple_of r' = triple_of r)
}.
Lemma stage_good s : staging_ok s -> at_stage s (good uniq nn ne tf).
Proof.
  intros [Hs _ _] seqs Hl. assert (length (zip seqs (st_ops s)) = length (st_ops s)) as Hz.
  { clear Hs. revert seqs Hl. generalize (st_ops s). intros ops. induction ops as [|op ops IH]; intros [|seq seqs] Hl; cbn in Hl; try done. cbn [zip_with length]. by rewrite IH by lia. }
  assert (snd <$> zip seqs (st_ops s) = st_ops s) as Esnd.
  { clear Hs Hz. revert seqs Hl. generalize (st_ops s). intros ops. induction ops as [|op ops IH]; intros [|seq seqs] Hl; cbn in Hl; try done. cbn [zip_with]. rewrite fmap_cons. cbn. f_equal. apply IH. lia. }
  rewrite <- Esnd in Hs. pose proof (good_after uniq nn ne tf _ node edge Hs Hgood (length (zip seqs (st_ops s)))) as Hg. by rewrite firstn_all in Hg.
Qed.
Lemma stage_edge_ok r s :
  staging_ok s -> at_stage s (fun node' edge' => safe uniq nn ne tf (UpsertEdge r) node' edge') -> staging_ok (stage_edge r s).
Proof.
  intros Hs Hsafe. destruct Hs as [Hs Hnone Hsome]. unfold stage_edge. split; cbn [st_ops st_edge_op_idx].
  - apply all_safe_app; [done|]. intros seqs Hl. split; [by apply Hsafe|done].
  - intros id Hid seqs Hl. apply lookup_insert_None in Hid as [Hid Hne]. cbn [st_ops] in *.
    destruct (after_app seqs (st_ops s) [UpsertEdge r] node edge Hl) as (sa & sb & Hla & Hlb & _ & ->).
    destruct sb as [|seq [|]]; try done. cbn. rewrite decide_False by done. by apply Hnone.
  - intros id i Hid. destruct (decide (id = er_id r)) as [->|Hne].
    + rewrite lookup_insert_eq in Hid. injection Hid as <-. exists r. split_and!; [by rewrite list_lookup_middle|done|].
      intros seqs Hl. cbn [st_ops] in *. destruct (after_app seqs (st_ops s) [UpsertEdge r] node edge Hl) as (sa & sb & Hla & Hlb & _ & ->).
      destruct sb as [|seq [|]]; try done. cbn. rewrite decide_True by done. by eexists.
    + rewrite lookup_insert_ne in Hid by done. destruct (Hsome id i Hid) as (r' & Hop & Hr' & Hat). exists r'. split_and!; [by apply lookup_app_l_Some|done|].
      intros seqs Hl. cbn [st_ops] in *. destruct (after_app seqs (st_ops s) [UpsertEdge r] node edge Hl) as (sa & sb & Hla & Hlb & _ & ->).
      destruct sb as [|seq [|]]; try done. cbn. rewrite decide_False by done. by apply Hat.
Qed.
(** A live edge may be written again under its triple. *)
Lemma restage_ok id r s :
  staging_ok s -> er_id r = id -> at_stage s (fun _ edge' => exists r', edge' id = Some r' /\ triple_of r' = triple_of r) -> staging_ok (stage_edge r s).
Proof.
  intros Hs Hid Hat. apply stage_edge_ok; [done|]. intros seqs Hl. destruct (Hat seqs Hl) as (r' & Hr' & Ht).
  destruct (stage_good s Hs seqs Hl) as [_ _ G3 G4]. destruct (G3 id r' Hr') as (_ & Hlt & Htf). cbn. rewrite Hid.
  split_and!; [done|congruence|]. intros Hu e r2 He Ht2. apply (G4 Hu e id r2 r'); [done..|congruence].
Qed.
Lemma stage_edges_ok records s :
  staging_ok s -> at_stage s (fun node' edge' => all_safe uniq nn ne tf (UpsertEdge <$> records) node' edge') ->
  staging_ok (foldl (fun s r => stage_edge r (stage_incident r s)) s records).
Proof.
  revert s. induction records as [|r records IH]; intros s Hs Hat; [done|]. cbn [foldl]. apply IH.
  - apply (stage_edge_ok r (stage_incident r s)); [|by intros seqs Hl; destruct (Hat seqs Hl)]. by destruct Hs.
  - intros seqs Hl. cbn [st_ops stage_edge stage_incident] in *.
    destruct (after_app seqs (st_ops s) [UpsertEdge r] node edge Hl) as (sa & sb & Hla & Hlb & -> & ->).
    destruct sb as [|seq [|]]; try done. destruct (Hat sa Hla) as [_ Hrest]. apply (Hrest seq).
Qed.
Lemma stage_invalidations_ok now ids invalidate_edges s s' :
  staging_ok s -> stage_invalidations now (positions ids) (edge <$> ids) invalidate_edges s = Ok s' -> staging_ok s'.
Proof.
  revert s. induction invalidate_edges as [|[id valid_to] rest IH]; intros s Hs; cbn [stage_invalidations].
  { intros E. by apply Ok_inj in E as <-. }
  destruct (st_edge_op_idx s !! id) as [i|] eqn:Ei.
  - destruct (sk_some s Hs id i Ei) as (r & -> & Hr & Hat). intros E. refine (IH _ _ E). by apply (restage_ok id).
  - destruct (positions ids !! id) as [idx|] eqn:Ep; [|by apply IH].
    apply elem_of_list_to_map_2, list_elem_of_lookup in Ep as [i Hi]. rewrite list_lookup_imap in Hi.
    destruct (ids !! i) as [id'|] eqn:Eid; [|done]. injection Hi as <- <-. rewrite list_lookup_fmap, Eid. cbn [fmap option_fmap option_map mjoin option_join].
    destruct (edge id') as [r|] eqn:Er; [|by apply IH]. intros E. refine (IH _ _ E).
    destruct (gd_edge _ _ _ _ _ _ Hgood id' r Er) as (Hid & _). apply (restage_ok id'); [by destruct Hs|done|].
    intros seqs Hl. exists r. split; [|done]. rewrite <- Er. by apply (sk_none s Hs id' Ei).
Qed.

(** Deletes. *)
Lemma push_deletes now ids acc : exists deletes, fst (foldl (push_delete now) acc ids) = fst acc ++ deletes /\ Forall harmless deletes.
Proof.
  revert acc. induction ids as [|id ids IH]; intros acc; cbn [foldl]; [exists []; by rewrite app_nil_r|].
  destruct (IH (push_delete now acc id)) as (ds & -> & Hh). destruct acc as [ops deleted]. unfold push_delete. case_bool_decide; [by exists ds|].
  exists (DeleteEdge id now :: ds). cbn [fst]. rewrite <- app_assoc. split; [done|by constructor].
Qed.
Lemma push_node_deletes_harmless now (self : Core) tombstones incident ids acc ops deleted :
  push_node_deletes now self tombstones incident ids acc = Ok (ops, deleted) -> exists deletes, ops = fst acc ++ deletes /\ Forall harmless deletes.
Proof.
  revert acc. induction ids as [|id ids IH]; intros acc; cbn [push_node_deletes].
  { intros E. apply Ok_inj in E as ->. exists []. by rewrite app_nil_r. }
  intros (incident_edges & _ & E)%bind_Ok_inv.
  destruct (push_deletes now (nb_edge_id <$> incident_edges) acc) as (d1 & E1 & Hd1). set (acc1 := foldl (push_delete now) acc _) in *.
  destruct (push_deletes now (default [] (incident !! id)) acc1) as (d2 & E2 & Hd2). destruct (foldl (push_delete now) acc1 _) as [ops2 deleted2].
  cbn [fst] in E2. subst ops2. apply IH in E as (d3 & -> & Hd3). cbn [fst]. rewrite E1. exists (d1 ++ d2 ++ [DeleteNode id now] ++ d3).
  rewrite !app_assoc. split; [done|]. rewrite <- !app_assoc. repeat (apply Forall_app; split); try done. by repeat constructor.
Qed.
Lemma push_prunes_harmless now (self : Core) tombstones ids acc ops seen :
  push_prunes now self tombstones ids acc = Ok (ops, seen) -> exists deletes, ops = fst acc ++ deletes /\ Forall harmless deletes.
Proof.
  revert acc. induction ids as [|id ids IH]; intros acc; cbn [push_prunes].
  { intros E. apply Ok_inj in E as ->. exists []. by rewrite app_nil_r. }
  intros (incident_edges & _ & E)%bind_Ok_inv. destruct (push_deletes now (nb_edge_id <$> incident_edges) acc) as (d1 & E1 & Hd1).
  destruct (foldl (push_delete now) acc _) as [ops1 seen1]. cbn [fst] in E1. subst ops1. apply IH in E as (d3 & -> & Hd3). cbn [fst].
  exists (d1 ++ [DeleteNode id now] ++ d3). rewrite !app_assoc. split; [done|]. rewrite <- !app_assoc. repeat (apply Forall_app; split); try done. by repeat constructor.
Qed.
End Staging.

(** ** The planner *)
Definition new_edges (request : CoreWriteRequest) : Z :=
  match request with
  | ReqUpsertEdge _ _ _ _ => 1
  | ReqBatchUpsertEdges inputs => len inputs
  | ReqGraphPatch patch => len (gp_upsert_edges patch)
  | _ => 0
  end.

Section Planner.
Context {Segment : Type} `{SegmentReads Segment, SegmentKeys Segment, SegmentAdjacency Segment, SegmentScans Segment} `{HashOrder, UnstableSort}.
Abbreviation Core := (PlanCore (Segment := Segment)).
Context (now : Z) (self : Core) (node : Nodes) (edge : Edges) (tf : Z -> Z * Z * Z).
Abbreviation nn := (pc_next_node_id self).
Abbreviation ne := (pc_next_edge_id self).
Abbreviation uniq := (pc_edge_uniqueness self).
Hypothesis Hreads : planner_reads (pc_sources self) uniq node edge.
Hypothesis Hgood : good uniq nn ne tf node edge.
Abbreviation kept := (kept self node edge tf).

(** What a patch does after its edges are written. *)
Lemma finish_patch_safe nn' ne' tf' patch s ops :
  good uniq nn' ne' tf' node edge -> staging_ok uniq nn' ne' tf' node edge s ->
  finish_patch now self patch s = Ok ops -> all_safe uniq nn' ne' tf' ops node edge.
Proof.
  intros Hg Hs (s1 & E1 & ([ops1 deleted] & Ed & E)%bind_Ok_inv)%bind_Ok_inv. apply Ok_inj in E as <-.
  assert (staging_ok uniq nn' ne' tf' node edge s1) as Hs1.
  { destruct (gp_invalidate_edges patch) as [|inv invs]; [by apply Ok_inj in E1 as <-|]. apply bind_Ok_inv in E1 as (found & Ef & E1).
    apply (pr_edges _ _ _ _ Hreads) in Ef as ->. by apply (stage_invalidations_ok uniq nn' ne' tf' node edge Hg) in E1. }
  apply push_node_deletes_harmless in Ed as (d2 & -> & Hd2).
  destruct (push_deletes now (gp_delete_edge_ids patch) (st_ops s1, ∅)) as (d1 & -> & Hd1). cbn [fst]. rewrite <- app_assoc.
  apply all_safe_app; [by destruct Hs1|]. intros seqs _. apply harmless_safe. by apply Forall_app.
Qed.
Lemma prepare_patch_spec patch lp records ids next' inputs committed :
  prepare_patch now self patch = Ok (lp, records, ids, next', inputs, committed) ->
  (exists sets vectors, Forall NodeLabels.wf sets /\ upserts_in_turn now node nn (zip (zip (gp_upsert_nodes patch) sets) vectors) records next')
  /\ len inputs <= len (gp_upsert_edges patch) /\ (uniq = true -> tables_say (edge_triple_of <$> inputs) committed ∅ edge).
Proof.
  intros (validated & _ & ([sets lp1] & El & ([eids lp2] & _ & ([[records1 ids1] next1] & Er & (committed1 & Ec & E)%bind_Ok_inv)%bind_Ok_inv)%bind_Ok_inv)%bind_Ok_inv)%bind_Ok_inv.
  apply Ok_inj in E as [= <- <- <- <- <- <-]. apply resolve_label_sets_wf in El.
  destruct (plan_node_upsert_records_spec now self node edge tf Hreads Hgood _ _ _ _ _ _ El Er) as [Hu _].
  pose proof (zip_len (gp_upsert_edges patch) eids) as Hz. split_and!; [by eexists _, _|lia|by apply (committed_triples_spec self _ committed1 node)].
Qed.
Lemma patch_edges inputs committed edges self1 :
  0 <= ne -> ne + len inputs <= u64_max -> (uniq = true -> tables_say (edge_triple_of <$> inputs) committed ∅ edge) ->
  plan_edge_records now committed ∅ self inputs = (edges, self1) ->
  edges_in_turn uniq now edge ne inputs edges (pc_next_edge_id self1) /\ self1 = set_next_edge_id (pc_next_edge_id self1) self.
Proof.
  intros H0' Hroom Ht Ee. apply (plan_edge_records_spec now committed ∅ self inputs edges self1 edge (edge_triple_of <$> inputs)); try done.
  - intros i Hi. by apply list_elem_of_fmap_2.
  - intros e r Hr. by apply (gd_edge _ _ _ _ _ _ Hgood) in Hr as (_ & ? & _).
Qed.
Lemma plan_graph_patch_kept patch self' plan :
  0 <= ne -> ne + len (gp_upsert_edges patch) <= u64_max -> plan_graph_patch now self patch = (self', Ok plan) -> kept self' (pl_ops plan).
Proof.
  intros H0' Hroom. unfold plan_graph_patch. destruct (prepare_patch now self patch) as [[[[[[lp2 records1] ids] next1] zipped] committed1]|e] eqn:Ep; [|done].
  destruct (prepare_patch_spec _ _ _ _ _ _ _ Ep) as ((sets & vectors & El & Hu) & Hz & Htables).
  destruct (upserts_kept now self node edge tf Hgood _ _ _ _ _ El Hu) as [Hle Hnodes].
  destruct (plan_edge_records now committed1 ∅ self zipped) as [edges self1] eqn:Ee.
  destruct (patch_edges zipped committed1 edges self1 H0' ltac:(lia) Htables Ee) as [He Es].
  destruct (edges_next _ _ _ _ _ _ _ He) as [Hnext _].
  assert (forall patch s, finish_patch now self1 patch s = finish_patch now self patch s) as Efin.
  { assert (pc_sources self1 = pc_sources self) as E1 by by rewrite Es.
    assert (forall t i ids acc, push_node_deletes now self1 t i ids acc = push_node_deletes now self t i ids acc) as E2.
    { intros t i l. induction l as [|x l IHl]; intros acc; cbn [push_node_deletes]; [done|]. rewrite E1. destruct (neighbors_raw _ _ _ _ _ _ _ _); cbn [mbind result_bind]; [|done].
      destruct (foldl _ _ (default [] _)). apply IHl. }
    intros p s. unfold finish_patch. rewrite E1. destruct (match gp_invalidate_edges p with [] => _ | _ => _ end); cbn [mbind result_bind]; [|done]. by rewrite E2. }
  rewrite Efin. destruct (finish_patch now self patch _) as [ops|e] eqn:Ef; [|done]. intros E. injection E as <- <-.
  set (tf' := note_triples tf edges). set (nn' := next1) in *. set (ne' := pc_next_edge_id self1) in *.
  (* one table of triples for the edges of the patch, whatever the node states *)
  assert (forall node', good uniq nn' ne tf node' edge -> (forall e, e < ne -> tf' e = tf e) /\ all_safe uniq nn' ne' tf' (UpsertEdge <$> edges) node' edge) as Hedges
    by (intros node' Hg; by apply (edges_safe uniq nn' tf now node' edge ne zipped)).
  assert (good uniq nn' ne tf node edge) as Hg1 by (by apply (good_mono uniq nn ne nn' ne tf)).
  destruct (Hedges node Hg1) as [Htf _].
  assert (good uniq nn' ne' tf' node edge) as Hg2 by (by apply (good_mono uniq nn' ne nn' ne' tf)).
  cbn [pl_ops]. split_and!; [cbn; rewrite Es; by destruct self|done|done|]. exists tf'. split; [done|]. cbn.
  refine (finish_patch_safe nn' ne' tf' patch _ ops Hg2 _ Ef).
  assert (staging_ok uniq nn' ne' tf' node edge (mkStaging (push_token_ops lp2 ++ (UpsertNode <$> records1)) ∅ ∅)) as Hs0.
  { split; cbn [st_ops st_edge_op_idx].
    - apply labels_first; [apply push_token_ops_labels|]. apply (upserts_safe uniq nn ne' tf' now node edge _ records1 nn') in Hu; [done| |by apply zipped_wf].
      intros n r Hr. by apply (gd_node _ _ _ _ _ _ Hgood) in Hr as (_ & _ & ?).
    - intros id _ seqs Hl. cbn [st_ops] in *. destruct (after_app seqs _ _ node edge Hl) as (sa & sb & _ & _ & _ & ->).
      rewrite edges_after_nodes. by destruct (labels_after sa _ node edge (push_token_ops_labels lp2)) as [_ ->].
    - intros id i Hi. by rewrite lookup_empty in Hi. }
  apply stage_edges_ok; [exact Hs0|].
  intros seqs Hl. cbn [st_ops] in *. pose proof (stage_good uniq nn' ne' tf' node edge Hg2 _ Hs0 seqs Hl) as Hgs. cbn [st_ops] in Hgs.
  destruct (after_app seqs _ _ node edge Hl) as (sa & sb & _ & _ & E1 & E2).
  rewrite edges_after_nodes in E2. destruct (labels_after sa _ node edge (push_token_ops_labels lp2)) as [_ E3]. rewrite E3 in E2. rewrite E2 in Hgs |- *.
  apply Hedges. destruct Hgs as [G1 G2 _ _]. destruct Hg1 as [_ _ G3 G4]. by split.
Qed.

Lemma plan_prune_kept policy plan : plan_prune now self policy = Some (Ok plan) -> kept self (pl_ops plan).
Proof.
  unfold plan_prune. set (resolved := _ ← validate_prune_policy policy; _). destruct resolved as [[label_id lp]|e]; [|done].
  destruct (collect_prune_targets self _ now) as [found|]; cbn [mbind option_bind]; [|done]. intros E. apply (inj Some) in E.
  apply bind_Ok_inv in E as (targets & _ & E). assert (Forall harmless (push_token_ops lp)) as Hh.
  { apply (Forall_impl _ _ _ (push_token_ops_labels lp)). by intros []. }
  destruct targets as [|t ts]; [apply Ok_inj in E as <-; by eapply kept_harmless|].
  apply bind_Ok_inv in E as ([ops seen] & Ep & E). apply Ok_inj in E as <-. apply push_prunes_harmless in Ep as (d & -> & Hd).
  eapply kept_harmless; try done. by apply Forall_app.
Qed.

(** Whatever the request, its plan keeps the graph good. *)
Lemma plan_core_write_kept request self' plan :
  0 <= nn < u64_max -> 0 <= ne -> ne + new_edges request <= u64_max ->
  plan_core_write now self request = Some (self', Ok plan) -> kept self' (pl_ops plan).
Proof.
  intros Hnn Hne Hroom. assert (forall r, with_counters self r = (self', Ok plan) -> r = Ok (self', plan)) as Hcount.
  { intros [[c p]|e]; cbn; intros E; [by injection E as -> ->|done]. }
  destruct request; cbn [plan_core_write new_edges] in *; intros E.
  13: { destruct (plan_prune now self policy) as [r|] eqn:Ep; [|done]. cbn in E. injection E as <- ->. by apply plan_prune_kept in Ep. }
  all: apply (inj Some) in E.
  - injection E as <- E. apply bind_Ok_inv in E as ([id create] & _ & E). apply Ok_inj in E as <-. eapply kept_harmless; try done. by destruct create; repeat constructor.
  - injection E as <- E. apply bind_Ok_inv in E as ([id create] & _ & E). apply Ok_inj in E as <-. eapply kept_harmless; try done. by destruct create; repeat constructor.
  - apply Hcount in E. by apply (plan_upsert_node_kept now self node edge tf Hreads Hgood) in E.
  - injection E as <- E. by apply (plan_add_node_label_kept now self node edge tf Hreads Hgood) in E.
  - injection E as <- E. by apply (plan_remove_node_label_kept now self node edge tf Hreads Hgood) in E.
  - apply Hcount in E. apply (plan_upsert_edge_kept now self node edge tf Hreads Hgood) in E; [done|lia].
  - apply Hcount in E. by apply (plan_batch_upsert_nodes_kept now self node edge tf Hreads Hgood) in E.
  - apply Hcount in E. by apply (plan_batch_upsert_edges_kept now self node edge tf Hreads Hgood) in E.
  - injection E as <- E. apply bind_Ok_inv in E as (incident & _ & E). apply Ok_inj in E as <-. eapply kept_harmless; try done. apply Forall_app. split; [|by repeat constructor].
    apply Forall_forall; by intros op (nb & -> & _)%list_elem_of_fmap.
  - injection E as <- <-. eapply kept_harmless; try done. by repeat constructor.
  - injection E as <- E. by apply (plan_invalidate_edge_kept now self node edge tf Hreads Hgood) in E.
  - by apply plan_graph_patch_kept in E.
Qed.
(** A request that fails leaves the counters no lower. *)
Lemma plan_core_write_failed request self' e :
  0 <= ne -> ne + new_edges request <= u64_max -> plan_core_write now self request = Some (self', Err e) ->
  pc_next_node_id self' = nn /\ ne <= pc_next_edge_id self' /\ self' = set_next_edge_id (pc_next_edge_id self') self.
Proof.
  intros Hne Hroom. assert (self = set_next_edge_id ne self) as Eself by by destruct self.
  assert (forall r, with_counters self r = (self', Err e) -> self' = self) as Hcount by (intros [[c p]|e'] E; by injection E).
  destruct request; cbn [plan_core_write new_edges] in *; intros E.
  13: { destruct (plan_prune now self policy) as [r|]; [|done]. cbn in E. injection E as <- ->. by split_and!. }
  12: { apply (inj Some) in E. unfold plan_graph_patch in E.
    destruct (prepare_patch now self patch) as [[[[[[lp records] ids] next'] inputs] committed]|e'] eqn:Ep; [|by injection E as <- _; split_and!].
    destruct (prepare_patch_spec _ _ _ _ _ _ _ Ep) as (_ & Hz & Htables).
    destruct (plan_edge_records now committed ∅ self inputs) as [edges self1] eqn:Ee.
    destruct (patch_edges inputs committed edges self1 Hne ltac:(lia) Htables Ee) as [He Es].
    destruct (finish_patch now self1 patch _); [done|]. injection E as <- _. destruct (edges_next _ _ _ _ _ _ _ He) as [Hle _].
    split_and!; [by rewrite Es|done|done]. }
  all: apply (inj Some) in E; first [by injection E as <- _; split_and!|by rewrite (Hcount _ E); split_and!].
Qed.
End Planner.
