(* ===== verification/WriteSession.v ===== *)
(** Sessions of writes: plans committed one after the other over the same
    segments, with the memtable frozen anywhere between.  No state of a session
    has two live nodes with one label and key, nor, when edges are unique, two
    live edges with one triple; so every lookup of every plan was exact. *)
From S2P Require Import Prelude Types PropertyValue CompoundKey Slots Memtable MemtableCells MemtableFacts MemtableReads MemtableSnapshots MemtableKeys Manifest LabelCatalog Vectors DegreeEngine Engine FilterBase NodeFilter NodeQuery NodeQueryFacts SourceList SourceListFacts SourceKeys SourceKeysFacts LayeredKeys Adjacency WritePlan WritePlanFacts WritePatchFacts.
Import SourceList.

Section Session.
Context {Segment : Type} `{SegmentReads Segment, SegmentKeys Segment, SegmentAdjacency Segment, SegmentScans Segment} `{RmpValue, HashOrder, UnstableSort}.
Context (node_in : Segment -> Z -> option NodeRecord) (edge_in : Segment -> Z -> option EdgeRecord) (key_in : Segment -> Z -> str -> option Z) (triple_in : Segment -> Z * Z * Z -> option EdgeRecord).
Context `{!SegmentLaws node_in edge_in, !SegmentKeyLaws node_in edge_in key_in triple_in}.
Abbreviation Sources := (SourceList (Segment := Segment)).

(** What earlier flushes left: records under their ids, ids below the counters
    and, whichever of the newest segments are left out, names used once. *)
Context (segs : list Segment) (uniq : bool) (nn0 ne0 : Z) (tf0 : Z -> Z * Z * Z).
Abbreviation node_layers := (segment_says is_node_deleted node_in None Some <$> segs).
Abbreviation edge_layers := (segment_says is_edge_deleted edge_in None Some <$> segs).
Record opened : Prop := {
  op_counters : 0 <= nn0 /\ 0 <= ne0;
  op_node seg n r : seg ∈ segs -> node_in seg n = Some r -> nr_id r = n /\ NodeLabels.wf (nr_label_ids r) /\ n < nn0;
  op_edge seg e r : seg ∈ segs -> edge_in seg e = Some r -> er_id r = e /\ e < ne0 /\ triple_of r = tf0 e;
  op_keys j : unique_keys (show (drop j node_layers));
  op_triples j : uniq = true -> unique_triples (show (drop j edge_layers))
}.
Hypothesis Hopened : opened.

(** A read view of a run: memtables filled by consecutive parts of it, over the
    segments, reading all of it. *)
Record views (sl : Sources) (run : list (Z * WalOp)) : Prop := {
  vw_segments : segments sl = segs;
  vw_parts : exists parts whole, run = mjoin (reverse parts) /\ Forall2 built parts (active sl :: immutable sl) /\ built run whole;
  vw_all : Forall (fun o => fst o <= snapshot_seq sl) run
}.
Inductive session : list (Z * WalOp) -> Z -> Z -> Prop :=
| session_open : session [] nn0 ne0
| session_commit run nn ne sl catalog dense now request self' plan base :
    session run nn ne -> views sl run -> nn < u64_max -> ne + new_edges request <= u64_max ->
    plan_core_write now (mkPlanCore sl catalog dense uniq nn ne) request = Some (self', Ok plan) ->
    session (run ++ sequence_from base (pl_ops plan)) (pc_next_node_id self') (pc_next_edge_id self')
| session_error run nn ne sl catalog dense now request self' e :
    session run nn ne -> views sl run -> nn < u64_max -> ne + new_edges request <= u64_max ->
    plan_core_write now (mkPlanCore sl catalog dense uniq nn ne) request = Some (self', Err e) ->
    session run (pc_next_node_id self') (pc_next_edge_id self').

Abbreviation base_node := (show node_layers).
Abbreviation base_edge := (show edge_layers).
Lemma shown_by_segment {R} (is_deleted : Segment -> Z -> bool) (held : Segment -> Z -> option R) n r :
  show (segment_says is_deleted held None Some <$> segs) n = Some r -> exists seg, seg ∈ segs /\ held seg n = Some r.
Proof.
  unfold show. destruct (layers_say _ n) as [v|] eqn:E; [|done]. cbn. intros ->. apply layers_say_lookup in E as (j & f & Hj & Hf & _).
  apply list_elem_of_lookup_2, list_elem_of_fmap in Hj as (seg & -> & Hin). exists seg. split; [done|]. unfold segment_says in Hf.
  destruct (is_deleted seg n); [done|]. by destruct (held seg n); [apply (inj Some) in Hf as [= ->]|].
Qed.
Lemma base_good : good uniq nn0 ne0 tf0 base_node base_edge.
Proof.
  destruct Hopened as [_ On Oe Ks Ts]. split.
  - intros n r (seg & Hin & Hr)%shown_by_segment. by apply (On seg).
  - apply (Ks 0%nat).
  - intros e r (seg & Hin & Hr)%shown_by_segment. by apply (Oe seg).
  - apply (Ts 0%nat).
Qed.

Lemma live_after_nodes sl parts k n r :
  segments sl = segs ->
  live_after sl parts is_node_deleted node_in LNode VNode k n r <-> nodes_after (take k (mjoin (reverse parts))) base_node n = Some r.
Proof.
  intros Es. unfold live_after. rewrite nodes_after_last, Es. destruct (last_op (take k _) (LNode n)) as [v|] eqn:E; [|done].
  split; [by intros ->|]. destruct v as [[]| | | |]; cbn; try done. by intros [= ->].
Qed.
Lemma live_after_edges sl parts k e r :
  segments sl = segs ->
  live_after sl parts is_edge_deleted edge_in LEdge VEdge k e r <-> edges_after (take k (mjoin (reverse parts))) base_edge e = Some r.
Proof.
  intros Es. unfold live_after. rewrite edges_after_last, Es. destruct (last_op (take k _) (LEdge e)) as [v|] eqn:E; [|done].
  split; [by intros ->|]. destruct v as [|[]| | |]; cbn; try done. by intros [= ->].
Qed.
(** A view shows the graph after the whole run. *)
Lemma up_to_all s (run : list (Z * WalOp)) : Forall (fun o => fst o <= s) run -> up_to s run = run.
Proof. intros Hall. unfold up_to. induction Hall as [|o run Ho _ IH]; [done|]. rewrite filter_cons_True by done. by rewrite IH. Qed.
Lemma view_shows {R} (slots : MemtableState -> gmap Z (VersionedSlot (RecordState R))) (loc : Z -> Loc) (val : RecordState R -> Val) (live : option Val -> option R)
    is_deleted held sl run whole n :
  (forall st s n, seen st s (loc n) = val <$> state_at (slots st) s n) -> record_loc (loc n) = true ->
  (forall x, live (Some (val x)) = match x with Live r => Some r | Tombstone _ => None end) ->
  segments sl = segs -> built run whole -> Forall (fun o => fst o <= snapshot_seq sl) run ->
  shown slots is_deleted held (one_memtable whole sl) n
  = match last_op run (loc n) with Some v => live (Some v) | None => show (segment_says is_deleted held None Some <$> segs) n end.
Proof.
  intros Hseen Hloc Hlive Es Hb Hall. unfold shown, layers, one_memtable. cbn [active immutable segments snapshot_seq].
  rewrite layers_say_app, Es. unfold first. rewrite memtables_say, <- (up_to_all (snapshot_seq sl) run Hall), <- (built_seen run whole (snapshot_seq sl) (loc n) Hb Hloc), Hseen. cbn.
  destruct (state_at (slots whole) (snapshot_seq sl) n) as [[]|]; cbn; by rewrite ?Hlive.
Qed.

(** The views of a run whose states were all good answer exactly. *)
Lemma view_reads sl run nn ne tf :
  (forall e, e < ne0 -> tf e = tf0 e) ->
  (forall k, good uniq nn ne tf (nodes_after (take k run) base_node) (edges_after (take k run) base_edge)) ->
  views sl run -> planner_reads sl uniq (nodes_after run base_node) (edges_after run base_edge).
Proof.
  intros Htf Hg [Es (parts & whole & -> & Hp & Hw) Hall]. destruct Hopened as [_ On Oe Ks Ts].
  assert (forall n, shown ms_nodes is_node_deleted node_in (one_memtable whole sl) n = nodes_after (mjoin (reverse parts)) base_node n) as Hn.
  { intros n. rewrite (view_shows ms_nodes LNode VNode live_node is_node_deleted node_in sl (mjoin (reverse parts)) whole n); [by rewrite nodes_after_last|apply state_at_seen_node|done|by intros []|done..]. }
  assert (forall e, shown ms_edges is_edge_deleted edge_in (one_memtable whole sl) e = edges_after (mjoin (reverse parts)) base_edge e) as He.
  { intros e. rewrite (view_shows ms_edges LEdge VEdge live_edge is_edge_deleted edge_in sl (mjoin (reverse parts)) whole e); [by rewrite edges_after_last|apply state_at_seen_edge|done|by intros []|done..]. }
  pose proof (layered_reads node_in edge_in sl parts whole Hp Hw) as Hreads. apply (reads_ext _ _ _ _ _ Hn He) in Hreads.
  assert (node_indexed node_in sl) as Hnx.
  { apply (run_node_indexed sl parts whole Hp Hw node_in).
    - intros k n m r r' l. rewrite !(live_after_nodes sl parts) by done. apply (gd_keys _ _ _ _ _ _ (Hg k)).
    - intros j. rewrite Es. apply Ks.
    - intros seg n r. rewrite Es. intros Hin Hr. by destruct (On seg n r Hin Hr) as (? & ? & _). }
  assert (uniq = true -> edge_indexed edge_in sl) as Hex.
  { intros Hu. apply (run_edge_indexed sl parts whole Hp Hw edge_in tf).
    - intros k e e' r r'. rewrite !(live_after_edges sl parts) by done. by apply (gd_triples _ _ _ _ _ _ (Hg k)).
    - intros j. rewrite Es. by apply Ts.
    - intros k e r. rewrite (live_after_edges sl parts) by done. intros Hr. by apply (gd_edge _ _ _ _ _ _ (Hg k)) in Hr as (_ & _ & ?).
    - intros seg e r. rewrite Es. intros Hin Hr. destruct (Oe seg e r Hin Hr) as (_ & ? & ?). rewrite Htf by done. done. }
  assert (forall l k o, names node_in sl (fun r => r) l k o -> means_node (nodes_after (mjoin (reverse parts)) base_node) (l, k) o) as Hnames.
  { intros l k o Ho. apply (names_meant sl parts whole Hp Hw) in Ho. unfold meant in Ho. destruct o as [r|]; cbn in *.
    - destruct Ho as (r' & <- & Hr & ? & ?). by rewrite <- Hn.
    - intros n r Hr. rewrite <- Hn in Hr. by apply (Ho n r). }
  assert (forall t o, means edge_in sl t o -> means_edge (edges_after (mjoin (reverse parts)) base_edge) t o) as Hmeans.
  { intros t o Ho. apply (means_meant sl parts whole Hp Hw) in Ho. unfold meant_edge in Ho. destruct o as [r|]; cbn in *.
    - destruct Ho as [Hr ?]. by rewrite <- He.
    - intros e r Hr. rewrite <- He in Hr. by apply (Ho e r). }
  split.
  - intros keys results E. pose proof (find_nodes_by_label_keys_spec node_in edge_in key_in triple_in sl Hnx keys) as Hs. rewrite E in Hs.
    apply (Forall2_impl _ _ _ _ Hs). intros [l k] o. apply Hnames.
  - intros l k found E. pose proof (find_node_by_label_key_spec node_in edge_in key_in triple_in sl Hnx [(l, k)] l k eq_refl) as Hs. rewrite E in Hs. by apply Hnames.
  - intros ids results E. pose proof (rd_nodes _ _ _ Hreads ids) as Hs. by rewrite E in Hs.
  - intros ids results E. pose proof (rd_edges _ _ _ Hreads ids) as Hs. by rewrite E in Hs.
  - intros id found E. pose proof (rd_edge _ _ _ Hreads id) as Hs. by rewrite E in Hs.
  - intros triples results Hu E. pose proof (find_edges_by_triples_spec node_in edge_in key_in triple_in sl (Hex Hu) triples) as Hs. rewrite E in Hs.
    apply (Forall2_impl _ _ _ _ Hs). intros t o. apply Hmeans.
  - intros f t l found Hu E. pose proof (find_edge_by_triple_spec node_in edge_in key_in triple_in sl (Hex Hu) f t l) as Hs. rewrite E in Hs. by apply Hmeans.
Qed.

(** ** The invariant *)
Record sound_run (run : list (Z * WalOp)) (nn ne : Z) (tf : Z -> Z * Z * Z) : Prop := {
  sr_counters : nn0 <= nn /\ ne0 <= ne;
  sr_triples e : e < ne0 -> tf e = tf0 e;
  sr_good k : good uniq nn ne tf (nodes_after (take k run) base_node) (edges_after (take k run) base_edge)
}.
Lemma sequence_snd base ops : snd <$> sequence_from base ops = ops.
Proof.
  unfold sequence_from. apply list_eq. intros i. rewrite list_lookup_fmap, list_lookup_imap. by destruct (ops !! i).
Qed.
Lemma sound_extend run nn ne tf nn' ne' tf' ops :
  nn <= nn' -> ne <= ne' -> (forall e, e < ne -> tf' e = tf e) ->
  all_safe uniq nn' ne' tf' (snd <$> ops) (nodes_after run base_node) (edges_after run base_edge) ->
  sound_run run nn ne tf -> sound_run (run ++ ops) nn' ne' tf'.
Proof.
  intros Hn He Ht Hs [[Hc Hc'] Htr Hg]. split; [lia|intros e He'; rewrite Ht by lia; by apply Htr|]. intros k.
  pose proof (fun k => good_mono uniq nn ne nn' ne' tf tf' _ _ Hn He Ht (Hg k)) as Hg'.
  destruct (decide (k <= length run)%nat) as [Hk|Hk]; [by rewrite take_app_le|]. rewrite take_app_ge by lia.
  unfold nodes_after, edges_after. rewrite !foldl_app. apply (good_after uniq nn' ne' tf' ops _ _ Hs).
  specialize (Hg' (length run)). by rewrite firstn_all in Hg'.
Qed.
Lemma session_sound run nn ne : session run nn ne -> exists tf, sound_run run nn ne tf.
Proof.
  induction 1 as [|run nn ne sl catalog dense now request self' plan base _ (tf & IH) Hv Hnn Hne Hp
                  |run nn ne sl catalog dense now request self' e _ (tf & IH) Hv Hnn Hne Hp].
  - exists tf0. split; [lia|done|]. intros k. rewrite take_nil. apply base_good.
  - pose proof IH as [Hc Htr Hg]. pose proof (op_counters Hopened). pose proof (Hg (length run)) as Hall. rewrite firstn_all in Hall.
    apply (plan_core_write_kept now (mkPlanCore sl catalog dense uniq nn ne) _ _ tf (view_reads sl run nn ne tf Htr Hg Hv) Hall) in Hp; cbn in *; [|lia..].
    destruct Hp as (_ & Hle & Hle' & tf' & Ht & Hs). exists tf'. apply (sound_extend run nn ne tf); [done..| |done]. by rewrite sequence_snd.
  - pose proof IH as [Hc Htr Hg]. pose proof (op_counters Hopened). pose proof (Hg (length run)) as Hall. rewrite firstn_all in Hall.
    apply (plan_core_write_failed now (mkPlanCore sl catalog dense uniq nn ne) _ _ tf (view_reads sl run nn ne tf Htr Hg Hv) Hall) in Hp; cbn in *; [|lia..].
    destruct Hp as (-> & Hle & _). exists tf. split; [lia|done|]. intros k. by apply (good_mono uniq nn ne nn (pc_next_edge_id self') tf tf).
Qed.

(** C9.  Keys and triples stay unique.  Start from segments in which every node
    is found under its id, ids are below the counters and no two live nodes
    share a label and a key; then plan and commit any sequence of requests --
    single and batch upserts, label changes, patches, deletes, invalidations,
    prunes, and requests that fail -- each planned on a read view of what was
    committed before it, the memtable frozen at any points.  After each single
    operation of the run no two live nodes share a label and a key and, when the
    database keeps edges unique, no two live edges share their ends and label;
    live records are found under their ids, below the counters; and every read
    view of the run answers its lookups by id, by key and by triple exactly. *)
Theorem session_keeps_names_unique run nn ne :
  session run nn ne ->
  (forall k, let node := nodes_after (take k run) base_node in
     let edge := edges_after (take k run) base_edge in
     unique_keys node /\ (uniq = true -> unique_triples edge)
     /\ (forall n r, node n = Some r -> nr_id r = n /\ n < nn) /\ (forall e r, edge e = Some r -> er_id r = e /\ e < ne))
  /\ forall sl, views sl run -> planner_reads sl uniq (nodes_after run base_node) (edges_after run base_edge).
Proof.
  intros (tf & [Hc Htr Hg])%session_sound. split; [|by intros sl; apply (view_reads sl run nn ne tf)].
  intros k node edge. destruct (Hg k) as [G1 G2 G3 G4]. split_and!; [done..| |].
  - intros n r (? & _ & ?)%G1. done.
  - intros e r (? & ? & _)%G3. done.
Qed.
End Session.
