(* ===== verification/EndpointScan.v ===== *)
(** The edges at given end points (src/source_list.rs,
    [edge_ids_by_endpoints_limited], over the ordered adjacency of
    src/memtable.rs): each layer merges the ascending edge ids of its cursors
    through a heap, drops those a newer layer knows, and the scan stops when
    enough ids are found.  Transactions collect the edges of a deleted node so. *)
From S2P Require Import Prelude Types Slots Memtable MemtableReads FilterBase NodeFilter NodeQuery SourceList.
Import SourceList.

(** ** One memtable *)
(** The range is never inverted, so it does not panic. *)
Definition next_visible_adj_edge_after (st : MemtableState) (node_id : Z) (outgoing : bool) (label_filter_ids : option (list Z))
    (snapshot_seq : Z) (after : option Z) : option Z :=
  if node_deleted_at st node_id snapshot_seq then None
  else
    entries ← (if outgoing then ms_ordered_adj_out st else ms_ordered_adj_in st) !! node_id;
    let start := match after with Some after => Excluded after | None => Unbounded end in
    fst <$> head (base.filter (fun e : Z * AdjSlot =>
      match slot_option_at (snd e) snapshot_seq with
      | Some entry =>
          match label_filter_ids with Some label_ids => bool_decide (ae_label_id entry ∈ label_ids) | None => true end
          && negb (node_deleted_at st (ae_neighbor_id entry) snapshot_seq)
      | None => false
      end = true) (default [] (btree_range start Unbounded entries))).

(** ** The merge of cursors *)
Section Merge.
Context {C : Type} (advance : C -> res (option Z * C)) (is_shadowed : Z -> bool) (limit : Z).

(** [BinaryHeap] of reversed pairs: the least (id, cursor) comes out first. *)
Definition heap_le (a b : Z * nat) : bool := (fst a <? fst b) || (fst a =? fst b) && (snd a <=? snd b)%nat.
Fixpoint heap_pop (heap : list (Z * nat)) : option ((Z * nat) * list (Z * nat)) :=
  match heap with
  | [] => None
  | x :: heap =>
      match heap_pop heap with
      | None => Some (x, [])
      | Some (y, rest) => if heap_le x y then Some (x, y :: rest) else Some (y, x :: rest)
      end
  end.
(** The first id of each cursor. *)
Fixpoint fill_heap (index : nat) (cursors : list C) : res (list C * list (Z * nat)) :=
  match cursors with
  | [] => Ok ([], [])
  | cursor :: cursors =>
      '(next, cursor) ← advance cursor;
      '(cursors, heap) ← fill_heap (S index) cursors;
      Ok (cursor :: cursors, match next with Some edge_id => (edge_id, index) :: heap | None => heap end)
  end.
(** [push_edge_match_limited]; [true] is [Break]. *)
Definition push_edge_match_limited (result : list Z) (edge_id : Z) : list Z * bool :=
  if limit <=? len result then (result, true)
  else let result := result ++ [edge_id] in (result, limit <=? len result).
(** [None]: out of fuel. *)
Fixpoint merge_loop (fuel : nat) (cursors : list C) (heap : list (Z * nat)) (last_seen : option Z) (result : list Z) : option (res (list Z)) :=
  match fuel with
  | O => None
  | S fuel =>
      match heap_pop heap with
      | None => Some (Ok result)
      | Some ((edge_id, cursor_index), heap) =>
          match cursors !! cursor_index with
          | None => None
          | Some cursor =>
              match advance cursor with
              | Err e => Some (Err e)
              | Ok (next, cursor) =>
                  let cursors := <[cursor_index := cursor]> cursors in
                  let heap := match next with Some next_id => (next_id, cursor_index) :: heap | None => heap end in
                  if bool_decide (last_seen = Some edge_id) then merge_loop fuel cursors heap last_seen result
                  else if is_shadowed edge_id then merge_loop fuel cursors heap (Some edge_id) result
                  else
                    let '(result, stop) := push_edge_match_limited result edge_id in
                    if stop then Some (Ok result) else merge_loop fuel cursors heap (Some edge_id) result
              end
          end
      end
  end.
Definition merge_cursors (fuel : nat) (cursors : list C) (result : list Z) : option (res (list Z)) :=
  match fill_heap 0 cursors with
  | Err e => Some (Err e)
  | Ok (cursors, heap) => merge_loop fuel cursors heap None result
  end.
End Merge.

(** A cursor of a memtable: the node, which of its adjacency lists, and the last
    id given. *)
Abbreviation MemCursor := (Z * bool * option Z)%type.
Definition endpoint_cursors (node_ids : list Z) (direction : Direction) : list MemCursor :=
  mjoin ((fun node_id =>
    match direction with
    | Outgoing => [((node_id, true), None)]
    | Incoming => [((node_id, false), None)]
    | Both => [((node_id, true), None); ((node_id, false), None)]
    end) <$> node_ids).
Definition advance_memtable (st : MemtableState) (label_filter_ids : option (list Z)) (snapshot_seq : Z) (cursor : MemCursor)
  : res (option Z * MemCursor) :=
  let '(node_id, outgoing, after) := cursor in
  match next_visible_adj_edge_after st node_id outgoing label_filter_ids snapshot_seq after with
  | Some edge_id => Ok (Some edge_id, (node_id, outgoing, Some edge_id))
  | None => Ok (None, cursor)
  end.
(** Every entry of the lists comes out once. *)
Definition memtable_fuel (st : MemtableState) (node_ids : list Z) : nat :=
  S (sum_list ((fun n => size (default ∅ (ms_ordered_adj_out st !! n)) + size (default ∅ (ms_ordered_adj_in st !! n)))%nat <$> node_ids)).
Definition append_memtable_endpoint_matches_limited (result : list Z) (st : MemtableState) (node_ids : list Z) (direction : Direction)
    (label_filter_ids : option (list Z)) (snapshot_seq limit : Z) (is_shadowed : Z -> bool) : option (res (list Z)) :=
  merge_cursors (advance_memtable st label_filter_ids snapshot_seq) is_shadowed limit (memtable_fuel st node_ids)
    (endpoint_cursors node_ids direction) result.

(** ** Segments *)
(** A segment gives cursors over its postings; what is left of one is the ids to
    come and the decoding error after them. *)
Abbreviation SegCursor := (list Z * option EngineError)%type.
Class SegmentEndpoints (Segment : Type) : Type := {
  endpoint_adj_posting_cursors : Segment -> list Z -> Direction -> option (list Z) -> res (list SegCursor);
  has_edge : Segment -> Z -> bool
}.
Definition next_adj_posting_edge_id (cursor : SegCursor) : res (option Z * SegCursor) :=
  match cursor with
  | (edge_id :: rest, failure) => Ok (Some edge_id, (rest, failure))
  | ([], Some e) => Err e
  | ([], None) => Ok (None, cursor)
  end.
Definition append_segment_endpoint_matches_limited {Segment} `{SegmentEndpoints Segment} (result : list Z) (seg : Segment) (node_ids : list Z)
    (direction : Direction) (label_filter_ids : option (list Z)) (limit : Z) (is_shadowed : Z -> bool) : option (res (list Z)) :=
  if limit <=? len result then Some (Ok result)
  else
    match endpoint_adj_posting_cursors seg node_ids direction label_filter_ids with
    | Err e => Some (Err e)
    | Ok cursors =>
        merge_cursors next_adj_posting_edge_id is_shadowed limit (S (sum_list ((fun c : SegCursor => length (fst c)) <$> cursors))) cursors result
    end.

(** ** All layers *)
Section Scan.
Context {Segment : Type} `{SegmentReads Segment, SegmentEndpoints Segment}.
Implicit Types (self : SourceList (Segment := Segment)).

Definition edge_known_at (st : MemtableState) (edge_id snapshot_seq : Z) : bool :=
  match edge_visibility_state_at st edge_id snapshot_seq with VisMissing => false | _ => true end.
Definition is_edge_shadowed_above_immutable self (edge_id : Z) (imm_idx : nat) : bool :=
  edge_known_at (active self) edge_id (snapshot_seq self)
  || existsb (fun epoch => edge_known_at epoch edge_id (snapshot_seq self)) (take imm_idx (immutable self)).
Definition is_edge_shadowed_above_segment self (edge_id : Z) (seg_idx : nat) : bool :=
  edge_known_at (active self) edge_id (snapshot_seq self)
  || existsb (fun epoch => edge_known_at epoch edge_id (snapshot_seq self)) (immutable self)
  || existsb (fun seg => has_edge seg edge_id || is_edge_deleted seg edge_id) (take seg_idx (segments self)).

Definition finalize_edge_matches (result : list Z) : list Z := NodeQuery.sorted_dedup_u64 result.
(** The layers in turn; [true]: the limit is reached. *)
Fixpoint scan_immutable self (node_ids : list Z) (direction : Direction) (label_filter_ids : option (list Z)) (limit : Z)
    (index : nat) (epochs : list MemtableState) (result : list Z) : option (res (list Z * bool)) :=
  match epochs with
  | [] => Some (Ok (result, false))
  | epoch :: epochs =>
      found ← append_memtable_endpoint_matches_limited result epoch node_ids direction label_filter_ids (snapshot_seq self) limit
                (fun id => is_edge_shadowed_above_immutable self id index);
      match found with
      | Err e => Some (Err e)
      | Ok result =>
          if limit <=? len result then Some (Ok (result, true))
          else scan_immutable self node_ids direction label_filter_ids limit (S index) epochs result
      end
  end.
Fixpoint scan_segments self (node_ids : list Z) (direction : Direction) (label_filter_ids : option (list Z)) (limit : Z)
    (index : nat) (segs : list Segment) (result : list Z) : option (res (list Z * bool)) :=
  match segs with
  | [] => Some (Ok (result, false))
  | seg :: segs =>
      found ← append_segment_endpoint_matches_limited result seg node_ids direction label_filter_ids limit
                (fun id => is_edge_shadowed_above_segment self id index);
      match found with
      | Err e => Some (Err e)
      | Ok result =>
          if limit <=? len result then Some (Ok (result, true))
          else scan_segments self node_ids direction label_filter_ids limit (S index) segs result
      end
  end.
Definition edge_ids_by_endpoints_limited self (node_ids : list Z) (direction : Direction) (label_filter_ids : option (list Z)) (limit : Z)
  : option (res (list Z)) :=
  match node_ids with
  | [] => Some (Ok [])
  | _ =>
      let sorted_node_ids := NodeQuery.sorted_dedup_u64 node_ids in
      found ← append_memtable_endpoint_matches_limited [] (active self) sorted_node_ids direction label_filter_ids (snapshot_seq self) limit (fun _ => false);
      match found with
      | Err e => Some (Err e)
      | Ok result =>
          if limit <=? len result then Some (Ok (finalize_edge_matches result))
          else
            found ← scan_immutable self sorted_node_ids direction label_filter_ids limit 0 (immutable self) result;
            match found with
            | Err e => Some (Err e)
            | Ok (result, true) => Some (Ok (finalize_edge_matches result))
            | Ok (result, false) =>
                found ← scan_segments self sorted_node_ids direction label_filter_ids limit 0 (segments self) result;
                Some ('(result, _) ← found; Ok (finalize_edge_matches result))
            end
      end
  end.
End Scan.
