(* ===== verification/EndpointFacts.v ===== *)
(** The endpoint scan is exact: the heap merges the cursors in order, so no id is
    found twice, and a scan that finds fewer ids than its limit has found every
    edge. *)
From S2P Require Import Prelude Types Encoding PropertyValue Slots Memtable MemtableCells MemtableFacts MemtableReads MemtableReadFacts MemtableSnapshots MemtableNeighbors FilterBase NodeFilter NodeQuery NodeQueryFacts SourceList SourceListFacts Adjacency AdjacencyFacts EndpointScan.
Import SourceList.

(** ** The heap *)
Lemma heap_pop_least heap :
  match heap_pop heap with
  | None => heap = []
  | Some (x, rest) => heap ≡ₚ x :: rest /\ forall y, y ∈ heap -> fst x <= fst y
  end.
Proof.
  induction heap as [|x heap IH]; cbn [heap_pop]; [done|]. destruct (heap_pop heap) as [[y rest]|].
  - destruct IH as [Hp Hle]. unfold heap_le. destruct (fst x <? fst y) eqn:E1; cbn [orb].
    + split; [by rewrite Hp|]. intros z [->|Hz]%elem_of_cons; [lia|]. specialize (Hle z Hz). lia.
    + destruct ((fst x =? fst y) && (snd x <=? snd y)%nat) eqn:E2.
      * split; [by rewrite Hp|]. intros z [->|Hz]%elem_of_cons; [lia|]. specialize (Hle z Hz). lia.
      * split; [rewrite Hp; by constructor|]. intros z [->|Hz]%elem_of_cons; [lia|by apply Hle].
  - subst. split; [done|]. intros z ->%list_elem_of_singleton. lia.
Qed.

Section Merge.
Context {C : Type} (advance : C -> res (option Z * C)) (is_shadowed : Z -> bool) (limit : Z) (ahead : C -> list Z) (clean : C -> Prop).
(** What a cursor has ahead, and that it does not fail. *)
Hypothesis Hclean : forall c next c', advance c = Ok (next, c') -> match next with None => clean c /\ clean c' | Some _ => clean c' -> clean c end.
Hypothesis Hadvance : forall c,
  match advance c with
  | Ok (Some x, c') => ahead c = x :: ahead c'
  | Ok (None, c') => ahead c = [] /\ ahead c' = []
  | Err _ => ahead c = []
  end.
Definition pending (heap : list (Z * nat)) (cursors : list C) : list Z := (fst <$> heap) ++ mjoin (ahead <$> cursors).
Record merging (cursors : list C) (heap : list (Z * nat)) (last_seen : option Z) : Prop := {
  mg_index x i : (x, i) ∈ heap -> exists c, cursors !! i = Some c /\ ascending (x :: ahead c);
  mg_left i c : cursors !! i = Some c -> ahead c ≠ [] -> exists x, (x, i) ∈ heap;
  mg_clean i c : cursors !! i = Some c -> (exists x, (x, i) ∈ heap) \/ clean c;
  mg_last y x : last_seen = Some y -> x ∈ pending heap cursors -> y <= x
}.
Lemma pending_elem heap cursors e : e ∈ pending heap cursors <-> (exists i, (e, i) ∈ heap) \/ exists i c, cursors !! i = Some c /\ e ∈ ahead c.
Proof.
  unfold pending. rewrite elem_of_app, list_elem_of_join, list_elem_of_fmap. setoid_rewrite list_elem_of_fmap. split.
  - intros [([x i] & -> & Hx)|(l & He & c & -> & [i Hi]%list_elem_of_lookup)]; [left; by exists i|right; by exists i, c].
  - intros [(i & Hi)|(i & c & Hi & He)]; [left; by exists (e, i)|right]. exists (ahead c). split; [done|]. exists c. split; [done|]. by apply list_elem_of_lookup_2 in Hi.
Qed.
Lemma least_pending x heap cursors last_seen :
  merging cursors heap last_seen -> (forall y, y ∈ heap -> x <= fst y) -> forall e, e ∈ pending heap cursors -> x <= e.
Proof.
  intros [Hi Hl _ _] Hle e. rewrite pending_elem. intros [(j & Hj)|(j & c & Hj & He)]; [by apply (Hle (e, j))|].
  destruct (Hl j c Hj) as [y Hy]; [by intros E; rewrite E in He; apply not_elem_of_nil in He|].
  destruct (Hi y j Hy) as (c1 & Hj1 & Ha). rewrite Hj in Hj1. apply (inj Some) in Hj1 as <-.
  apply StronglySorted_inv in Ha as [_ Ha]. rewrite Forall_forall in Ha. specialize (Ha e He). apply Hle in Hy. cbn in Hy. lia.
Qed.
(** Taking the least id out and advancing its cursor. *)
Lemma advance_pending x i heap rest cursors c next c' :
  heap ≡ₚ (x, i) :: rest -> cursors !! i = Some c -> advance c = Ok (next, c') ->
  pending heap cursors ≡ₚ x :: pending (match next with Some y => (y, i) :: rest | None => rest end) (<[i := c']> cursors).
Proof.
  intros Hh Hi Ha. unfold pending. rewrite Hh, fmap_cons. cbn [fst app]. apply Permutation_skip.
  rewrite insert_take_drop by (by apply lookup_lt_Some in Hi). rewrite <- (take_drop_middle cursors i c Hi) at 1.
  rewrite !fmap_app, !join_app, !fmap_cons. cbn [mjoin list_join]. specialize (Hadvance c). rewrite Ha in Hadvance. destruct next as [y|].
  - rewrite Hadvance, fmap_cons. cbn [fst app]. solve_Permutation.
  - destruct Hadvance as [-> ->]. done.
Qed.
Lemma advance_merging x i heap rest cursors last_seen c next c' :
  heap ≡ₚ (x, i) :: rest -> (forall y, y ∈ heap -> x <= fst y) -> merging cursors heap last_seen -> cursors !! i = Some c -> advance c = Ok (next, c') ->
  merging (<[i := c']> cursors) (match next with Some y => (y, i) :: rest | None => rest end) (Some x).
Proof.
  intros Hh Hle Hm Hi Ha. pose proof (advance_pending x i heap rest cursors c next c' Hh Hi Ha) as Hp.
  pose proof (Hadvance c) as Hc. rewrite Ha in Hc. assert (i < length cursors)%nat as Hlt by by apply lookup_lt_Some in Hi. split.
  - intros y j Hy. assert ((y, j) ∈ (x, i) :: rest \/ next = Some y /\ j = i) as [Hin|[-> ->]].
    { destruct next as [y'|]; [apply elem_of_cons in Hy as [[= -> ->]|Hy]; [by right|]|]; left; by right. }
    + rewrite <- Hh in Hin. destruct (mg_index _ _ _ Hm y j Hin) as (c1 & Hj & Hs). destruct (decide (j = i)) as [->|Hne].
      * exists c'. split; [by apply list_lookup_insert_eq|]. rewrite Hi in Hj. apply (inj Some) in Hj as <-.
        destruct next as [y'|]; [|destruct Hc as [Hc ->]; rewrite Hc in Hs; done]. rewrite Hc in Hs.
        apply StronglySorted_inv in Hs as [Hs Hall]. apply StronglySorted_inv in Hs as [Hs _]. constructor; [done|]. by apply Forall_cons in Hall as [_ ?].
      * exists c1. by rewrite list_lookup_insert_ne.
    + exists c'. split; [by apply list_lookup_insert_eq|]. destruct (mg_index _ _ _ Hm x i) as (c1 & Hj & Hs); [rewrite Hh; left|].
      rewrite Hi in Hj. apply (inj Some) in Hj as <-. rewrite Hc in Hs. by apply StronglySorted_inv in Hs as [Hs _].
  - intros j c1 Hj Hne. destruct (decide (j = i)) as [->|Hji].
    + rewrite list_lookup_insert_eq in Hj by done. apply (inj Some) in Hj as <-. destruct next as [y|]; [exists y; left|by destruct Hc].
    + rewrite list_lookup_insert_ne in Hj by done. destruct (mg_left _ _ _ Hm j c1 Hj Hne) as [y Hy]. rewrite Hh in Hy.
      apply elem_of_cons in Hy as [[= -> ->]|Hy]; [done|]. exists y. destruct next; [by right|done].
  - intros j c1 Hj. destruct (decide (j = i)) as [->|Hji].
    + rewrite list_lookup_insert_eq in Hj by done. apply (inj Some) in Hj as <-. apply Hclean in Ha. destruct next as [y|]; [left; exists y; left|right; by destruct Ha].
    + rewrite list_lookup_insert_ne in Hj by done. destruct (mg_clean _ _ _ Hm j c1 Hj) as [[y Hy]|]; [left|by right]. rewrite Hh in Hy.
      apply elem_of_cons in Hy as [[= -> ->]|Hy]; [done|]. exists y. destruct next; [by right|done].
  - intros y e [= ->] He. apply (least_pending y heap cursors last_seen Hm Hle). rewrite Hp. by right.
Qed.

Lemma merge_loop_spec fuel cursors heap last_seen result :
  merging cursors heap last_seen -> (length (pending heap cursors) < fuel)%nat ->
  exists r, merge_loop advance is_shadowed limit fuel cursors heap last_seen result = Some r /\
  match r with
  | Err e => exists c, advance c = Err e
  | Ok result' => exists rs, result' = result ++ rs /\ ascending rs
      /\ (forall e, e ∈ rs -> e ∈ pending heap cursors /\ is_shadowed e = false /\ forall y, last_seen = Some y -> y < e)
      /\ (len result' < limit -> (forall e, e ∈ pending heap cursors -> is_shadowed e = false -> e ∈ rs \/ last_seen = Some e)
           /\ forall i c, cursors !! i = Some c -> clean c)
  end.
Proof.
  revert cursors heap last_seen result. induction fuel as [|fuel IH]; intros cursors heap last_seen result Hm Hf; [lia|]. cbn [merge_loop].
  pose proof (heap_pop_least heap) as Hpop. destruct (heap_pop heap) as [[[x i] rest]|].
  2: { subst heap. eexists. split; [done|]. exists []. rewrite app_nil_r. split_and!; [done|constructor|by intros e ?%not_elem_of_nil|].
       intros _. split; [|intros j c Hj; by destruct (mg_clean _ _ _ Hm j c Hj) as [[y ?%not_elem_of_nil]|]].
       intros e He _. apply pending_elem in He as [(j & ?%not_elem_of_nil)|(j & c & Hj & He)]; [done|].
       destruct (mg_left _ _ _ Hm j c Hj) as [y ?%not_elem_of_nil]; [|done]. intros E. rewrite E in He. by apply not_elem_of_nil in He. }
  destruct Hpop as [Hh Hle]. destruct (mg_index _ _ _ Hm x i) as (c & Hi & _); [rewrite Hh; left|]. rewrite Hi.
  destruct (advance c) as [[next c']|e] eqn:Ea; [|eexists; split; [done|by exists c]].
  pose proof (advance_pending x i heap rest cursors c next c' Hh Hi Ea) as Hp.
  pose proof (advance_merging x i heap rest cursors last_seen c next c' Hh Hle Hm Hi Ea) as Hm'.
  set (heap' := match next with Some y => (y, i) :: rest | None => rest end) in *. set (cursors' := <[i := c']> cursors) in *.
  assert (length (pending heap' cursors') < fuel)%nat as Hf' by (rewrite Hp in Hf; cbn [length] in Hf; lia).
  assert ((forall j c, cursors' !! j = Some c -> clean c) -> forall j c, cursors !! j = Some c -> clean c) as Hback.
  { intros Hcl j c1 Hj. destruct (decide (j = i)) as [->|Hji]; [|apply (Hcl j); unfold cursors'; by rewrite list_lookup_insert_ne].
    rewrite Hi in Hj. apply (inj Some) in Hj as <-. apply Hclean in Ea. destruct next; [apply Ea|by destruct Ea].
    apply (Hcl i). unfold cursors'. apply list_lookup_insert_eq. by apply lookup_lt_Some in Hi. }
  assert (forall y, last_seen = Some y -> y <= x) as Hlx by (intros y Hy; apply (mg_last _ _ _ Hm y x Hy); rewrite Hp; left).
  case_bool_decide as El.
  - assert (merging cursors' heap' last_seen) as Hm2 by by rewrite El.
    destruct (IH cursors' heap' last_seen result Hm2 Hf') as (r & -> & Hr). exists r. split; [done|]. destruct r as [result'|e]; [|done].
    destruct Hr as (rs & -> & Hs & Hin & Hall). exists rs. split_and!; [done..| |].
    + intros e He. destruct (Hin e He) as (? & ? & ?). split_and!; [rewrite Hp; by right|done..].
    + intros Hl. split; [|by apply Hback, Hall]. intros e He Hsh. rewrite Hp in He. apply elem_of_cons in He as [->|He]; [by right|by apply Hall].
  - destruct (is_shadowed x) eqn:Esh.
    + destruct (IH cursors' heap' (Some x) result Hm' Hf') as (r & -> & Hr). exists r. split; [done|]. destruct r as [result'|e]; [|done].
      destruct Hr as (rs & -> & Hs & Hin & Hall). exists rs. split_and!; [done..| |].
      * intros e He. destruct (Hin e He) as (? & ? & Hx). split_and!; [rewrite Hp; by right|done|]. intros y Hy. specialize (Hx x eq_refl). specialize (Hlx y Hy). lia.
      * intros Hl. split; [|by apply Hback, Hall]. intros e He Hsh. rewrite Hp in He. apply elem_of_cons in He as [->|He]; [congruence|].
        destruct (proj1 (Hall Hl) e He Hsh) as [?|[= ->]]; [by left|congruence].
    + unfold push_edge_match_limited. destruct (limit <=? len result) eqn:E1.
      { eexists. split; [done|]. exists []. rewrite app_nil_r. split_and!; [done|constructor|by intros e ?%not_elem_of_nil|lia]. }
      assert (forall y, last_seen = Some y -> y < x) as Hlt by (intros y Hy; specialize (Hlx y Hy); assert (y ≠ x) by congruence; lia).
      destruct (limit <=? len (result ++ [x])) eqn:E2.
      { eexists. split; [done|]. exists [x]. split_and!; [done|by repeat constructor| |lia].
        intros e ->%list_elem_of_singleton. split_and!; [rewrite Hp; left|done..]. }
      destruct (IH cursors' heap' (Some x) (result ++ [x]) Hm' Hf') as (r & -> & Hr). exists r. split; [done|]. destruct r as [result'|e]; [|done].
      destruct Hr as (rs & -> & Hs & Hin & Hall). exists (x :: rs). split_and!.
      * by rewrite <- app_assoc.
      * constructor; [done|]. apply Forall_forall. intros e He. destruct (Hin e He) as (_ & _ & Hx). by apply Hx.
      * intros e [->|He]%elem_of_cons; [split_and!; [rewrite Hp; left|done..]|]. destruct (Hin e He) as (? & ? & Hx).
        split_and!; [rewrite Hp; by right|done|]. intros y Hy. specialize (Hx x eq_refl). specialize (Hlt y Hy). lia.
      * intros Hl. split; [|by apply Hback, Hall]. intros e He Hsh. rewrite Hp in He. apply elem_of_cons in He as [->|He]; [left; left|].
        destruct (proj1 (Hall Hl) e He Hsh) as [?|[= ->]]; left; [by right|left].
Qed.

Lemma merge_loop_limit fuel cursors heap last_seen result result' :
  merge_loop advance is_shadowed limit fuel cursors heap last_seen result = Some (Ok result') -> len result <= limit -> len result' <= limit.
Proof.
  revert cursors heap last_seen result. induction fuel as [|fuel IH]; intros cursors heap last_seen result; cbn [merge_loop]; [done|].
  destruct (heap_pop heap) as [[[x i] rest]|]; [|by intros [= ->]]. destruct (cursors !! i) as [c|]; [|done].
  destruct (advance c) as [[next c']|e]; [|done]. case_bool_decide; [apply IH|]. destruct (is_shadowed x); [apply IH|].
  unfold push_edge_match_limited. destruct (limit <=? len result) eqn:E; [by intros [= ->]|].
  assert (len (result ++ [x]) = len result + 1) as El by (rewrite length_app; cbn [length]; lia).
  destruct (limit <=? len (result ++ [x])) eqn:E'; [intros [= <-] _; lia|]. intros Hr _. apply (IH _ _ _ _ Hr). lia.
Qed.
Lemma merge_cursors_limit fuel cursors result result' :
  merge_cursors advance is_shadowed limit fuel cursors result = Some (Ok result') -> len result <= limit -> len result' <= limit.
Proof. unfold merge_cursors. destruct (fill_heap advance 0 cursors) as [[? ?]|]; [|done]. apply merge_loop_limit. Qed.

Lemma fill_heap_spec k cursors :
  (forall c, c ∈ cursors -> ascending (ahead c)) ->
  match fill_heap advance k cursors with
  | Err e => exists c, advance c = Err e
  | Ok (cursors', heap) =>
      (forall x i, (x, i) ∈ heap -> exists j c, i = (k + j)%nat /\ cursors' !! j = Some c /\ ascending (x :: ahead c))
      /\ (forall j c, cursors' !! j = Some c -> ahead c ≠ [] -> exists x, (x, (k + j)%nat) ∈ heap)
      /\ (forall j c, cursors' !! j = Some c -> (exists x, (x, (k + j)%nat) ∈ heap) \/ clean c)
      /\ pending heap cursors' ≡ₚ mjoin (ahead <$> cursors)
      /\ ((forall c, c ∈ cursors' -> clean c) -> forall c, c ∈ cursors -> clean c)
  end.
Proof.
  revert k. induction cursors as [|c cursors IH]; intros k Hasc; cbn [fill_heap].
  { split_and!; [by intros x i ?%not_elem_of_nil|done..]. }
  pose proof (Hadvance c) as Hc. destruct (advance c) as [[next c']|e] eqn:Ea; cbn [mbind result_bind]; [|by exists c].
  specialize (IH (S k) ltac:(intros c1 Hin; apply Hasc; by right)).
  destruct (fill_heap advance (S k) cursors) as [[cursors' heap]|e]; cbn [mbind result_bind]; [|done]. destruct IH as (Hi & Hl & Hcl & Hp & Hb).
  apply Hclean in Ea.
  assert (forall x i, (x, i) ∈ heap -> exists j c0, i = (k + j)%nat /\ (c' :: cursors') !! j = Some c0 /\ ascending (x :: ahead c0)) as Hrest.
  { intros x i (j & c1 & -> & Hj & Hs)%Hi. exists (S j), c1. split_and!; [lia|done..]. }
  assert (forall j c0, cursors' !! j = Some c0 -> ahead c0 ≠ [] -> exists x, (x, (k + S j)%nat) ∈ heap) as Hleft.
  { intros j c0 Hj Hne. destruct (Hl j c0 Hj Hne) as [x Hx]. exists x. by rewrite <- Nat.add_succ_comm. }
  assert (forall j c0, cursors' !! j = Some c0 -> (exists x, (x, (k + S j)%nat) ∈ heap) \/ clean c0) as Hleft'.
  { intros j c0 Hj. destruct (Hcl j c0 Hj) as [[x Hx]|]; [left; exists x; by rewrite <- Nat.add_succ_comm|by right]. }
  specialize (Hasc c ltac:(left)). destruct next as [x0|].
  - split_and!.
    + intros x i [[= -> ->]|Hin]%elem_of_cons; [|by apply Hrest]. exists 0%nat, c'. split_and!; [lia|done|by rewrite <- Hc].
    + intros [|j] c0 Hj Hne; [exists x0; rewrite Nat.add_0_r; left|]. destruct (Hleft j c0 Hj Hne) as [x ?]. exists x. by right.
    + intros [|j] c0 Hj; [left; exists x0; rewrite Nat.add_0_r; left|]. destruct (Hleft' j c0 Hj) as [[x ?]|]; [left; exists x; by right|by right].
    + unfold pending in *. rewrite !fmap_cons. cbn [fst app mjoin list_join]. rewrite Hc, <- Hp. cbn [app]. solve_Permutation.
    + intros Hall c0 [->|Hin]%elem_of_cons; [apply Ea, Hall; left|]. apply Hb; [|done]. intros c1 ?. apply Hall. by right.
  - destruct Hc as [Hc Hc']. split_and!; [done|..].
    + intros [|j] c0 Hj Hne; [cbn in Hj; congruence|]. by apply (Hleft j c0).
    + intros [|j] c0 Hj; [right; cbn in Hj; apply (inj Some) in Hj as <-; by destruct Ea|]. by apply (Hleft' j c0).
    + unfold pending in *. rewrite !fmap_cons. cbn [mjoin list_join]. by rewrite Hc, Hc', <- Hp.
    + intros Hall c0 [->|Hin]%elem_of_cons; [by destruct Ea|]. apply Hb; [|done]. intros c1 ?. apply Hall. by right.
Qed.
Lemma merge_cursors_spec fuel cursors result :
  (forall c, c ∈ cursors -> ascending (ahead c)) -> (length (mjoin (ahead <$> cursors)) < fuel)%nat ->
  exists r, merge_cursors advance is_shadowed limit fuel cursors result = Some r /\
  match r with
  | Err e => exists c, advance c = Err e
  | Ok result' => exists rs, result' = result ++ rs /\ ascending rs
      /\ (forall e, e ∈ rs -> e ∈ mjoin (ahead <$> cursors) /\ is_shadowed e = false)
      /\ (len result' < limit -> (forall e, e ∈ mjoin (ahead <$> cursors) -> is_shadowed e = false -> e ∈ rs) /\ forall c, c ∈ cursors -> clean c)
  end.
Proof.
  intros Hasc Hf. unfold merge_cursors. pose proof (fill_heap_spec 0 cursors Hasc) as Hs.
  destruct (fill_heap advance 0 cursors) as [[cursors' heap]|e]; [|by eexists]. destruct Hs as (Hi & Hl & Hcl & Hp & Hb).
  assert (merging cursors' heap None) as Hm.
  { split; [|done|done|done]. intros x i (j & c & -> & Hj & Ha)%Hi. by exists c. }
  rewrite <- Hp in Hf. destruct (merge_loop_spec fuel cursors' heap None result Hm Hf) as (r & -> & Hr). exists r. split; [done|].
  destruct r as [result'|e]; [|done]. destruct Hr as (rs & -> & Ha & Hin & Hall). exists rs. split_and!; [done..| |].
  - intros e (He & Hsh & _)%Hin. by rewrite Hp in He.
  - intros Hlim. destruct (Hall Hlim) as [Hall' Hc]. split.
    + intros e He Hsh. rewrite <- Hp in He. by destruct (Hall' e He Hsh).
    + apply Hb. intros c [i Hi']%list_elem_of_lookup. by apply (Hc i).
Qed.
End Merge.

(** ** The cursors *)
Lemma segment_cursor_advance c :
  match next_adj_posting_edge_id c with
  | Ok (Some x, c') => fst c = x :: fst c'
  | Ok (None, c') => fst c = [] /\ fst c' = []
  | Err _ => fst c = []
  end.
Proof. by destruct c as [[|x l] [e|]]. Qed.

Lemma segment_cursor_clean (c : SegCursor) next (c' : SegCursor) : next_adj_posting_edge_id c = Ok (next, c') ->
  match next with None => snd c = None /\ snd c' = None | Some _ => snd c' = None -> snd c = None end.
Proof. by destruct c as [[|x l] [e|]]; intros [= <- <-]. Qed.

Lemma filter_bool_all {A} (P : A -> bool) (l : list A) : (forall x, x ∈ l -> P x = true) -> base.filter (fun x => P x = true) l = l.
Proof.
  induction l as [|x l IH]; [done|]. intros Hall. rewrite filter_bool_cons, (Hall x) by left. cbn. f_equal. apply IH. intros y Hy. apply Hall. by right.
Qed.
Section MemCursor.
Context (st : MemtableState) (labels : option (list Z)) (s : Z).
Definition wanted_slot (e : Z * AdjSlot) : bool :=
  match slot_option_at (snd e) s with
  | Some entry => match labels with Some label_ids => bool_decide (ae_label_id entry ∈ label_ids) | None => true end
      && negb (node_deleted_at st (ae_neighbor_id entry) s)
  | None => false
  end.
Definition endpoint_ids (n : Z) (outgoing : bool) : list Z :=
  if node_deleted_at st n s then []
  else fst <$> base.filter (fun e => wanted_slot e = true) (btree_iter (default ∅ ((if outgoing then ms_ordered_adj_out st else ms_ordered_adj_in st) !! n))).
Definition memtable_ahead (c : MemCursor) : list Z :=
  let '(n, outgoing, after) := c in
  base.filter (fun id => match after with Some a => a <? id | None => true end = true) (endpoint_ids n outgoing).
Lemma endpoint_ids_ascending n outgoing : ascending (endpoint_ids n outgoing).
Proof.
  unfold endpoint_ids. destruct (node_deleted_at st n s); [constructor|].
  eapply (sorted_view key_lt Z.lt fst fst), btree_iter_sorted. intros [x ?] [y ?] _ _ [Hle Hne]. cbn in *. unfold key_le in Hle. cbn in Hle. lia.
Qed.
Lemma after_entries after (entries : list (Z * AdjSlot)) :
  fst <$> base.filter (fun e => wanted_slot e = true)
    (base.filter (fun e : Z * AdjSlot => above (match after with Some a => Excluded a | None => Unbounded end) e.1 && below Unbounded e.1) entries)
  = base.filter (fun id => match after with Some a => a <? id | None => true end = true) (fst <$> base.filter (fun e => wanted_slot e = true) entries).
Proof.
  induction entries as [|e entries IH]; [done|]. rewrite (filter_cons (fun e : Z * AdjSlot => Is_true _)), (filter_bool_cons wanted_slot), fmap_app, filter_app, <- IH.
  set (keep := match after with Some a => a <? fst e | None => true end).
  assert (above (match after with Some a => Excluded a | None => Unbounded end) e.1 && below Unbounded e.1 = keep) as Ek.
  { unfold keep. destruct after as [a|]; cbn; [|done]. rewrite andb_true_r. destruct (Z.ltb_spec a (fst e)); [apply bool_decide_true|apply bool_decide_false]; unfold key_le; cbn; lia. }
  rewrite Ek. destruct keep eqn:E; cbn [Is_true]; [rewrite decide_True by done; rewrite filter_bool_cons, fmap_app|rewrite decide_False by (intros []); change (?l = ?l') with ([] ++ l = l')].
  - f_equal. destruct (wanted_slot e); [|done]. cbn. unfold keep in E. by rewrite decide_True.
  - f_equal. destruct (wanted_slot e); [|done]. cbn. unfold keep in E. by rewrite decide_False by (by rewrite E).
Qed.
Lemma next_visible_ahead n outgoing after :
  next_visible_adj_edge_after st n outgoing labels s after = head (memtable_ahead (n, outgoing, after)).
Proof.
  unfold next_visible_adj_edge_after, memtable_ahead, endpoint_ids. destruct (node_deleted_at st n s); [done|].
  destruct ((if outgoing then ms_ordered_adj_out st else ms_ordered_adj_in st) !! n) as [entries|]; cbn [mbind option_bind default]; [|by destruct after].
  rewrite <- after_entries. unfold btree_range. change (range_panics (match after with Some a => Excluded a | None => Unbounded end) Unbounded) with
    (match match after with Some a => @Excluded Z a | None => Unbounded end with Unbounded => false | _ => false end).
  destruct after; cbn [default]; by destruct (base.filter _ _).
Qed.
Lemma memtable_cursor_advance c :
  match advance_memtable st labels s c with
  | Ok (Some x, c') => memtable_ahead c = x :: memtable_ahead c'
  | Ok (None, c') => memtable_ahead c = [] /\ memtable_ahead c' = []
  | Err _ => memtable_ahead c = []
  end.
Proof.
  destruct c as [[n outgoing] after]. unfold advance_memtable. rewrite next_visible_ahead.
  destruct (memtable_ahead (n, outgoing, after)) as [|x rest] eqn:E; cbn [head]; [done|]. f_equal.
  unfold memtable_ahead in *. pose proof (endpoint_ids_ascending n outgoing) as Ha. revert E Ha. generalize (endpoint_ids n outgoing) as l. clear.
  induction l as [|y l IH]; [done|]. rewrite !filter_bool_cons. intros E [Hs Hall]%StronglySorted_inv.
  destruct (match after with Some a => a <? y | None => true end) eqn:Ec.
  - cbn [app] in *. injection E as -> <-. rewrite (proj2 (Z.ltb_ge x x)) by lia. cbn [app].
    rewrite Forall_forall in Hall. rewrite !filter_bool_all; [done|..].
    all: intros z Hz; specialize (Hall z Hz); cbn in Hall; try (destruct after as [a|]; [|done]); lia.
  - cbn [app] in E. rewrite (IH E Hs). rewrite Forall_forall in Hall.
    assert (x ∈ base.filter (fun id => match after with Some a => a <? id | None => true end = true) l) as Hx by (rewrite E; left).
    apply list_elem_of_filter in Hx as [_ Hx]. specialize (Hall x Hx). by rewrite (proj2 (Z.ltb_ge x y)) by lia.
Qed.
End MemCursor.

Section Layers.
Context `{RmpValue, HashOrderLaws}.
Lemma endpoint_ids_elem ops st labels s n outgoing e :
  built ops st ->
  e ∈ endpoint_ids st labels s n outgoing
  <-> node_deleted_at st n s = false
      /\ exists r, edge_at st e s = Some r /\ (if outgoing : bool then er_from r else er_to r) = n /\ passes_filter labels (er_label_id r)
         /\ node_deleted_at st (if outgoing then er_to r else er_from r) s = false.
Proof.
  intros (st0 & Hf & Hs & Hr). pose proof (snapshot_edge_inv ops st0 st Hf Hs Hr s) as Hv.
  unfold endpoint_ids. destruct (node_deleted_at st n s); [split; [by intros ?%not_elem_of_nil|by intros [? _]]|].
  assert (forall a, (exists slot, nested_get (if outgoing then ms_ordered_adj_out st else ms_ordered_adj_in st) n e = Some slot /\ slot_option_at slot s = Some a)
    <-> exists r, edge_at st e s = Some r /\ (if outgoing then er_from r else er_to r) = n /\ a = (if outgoing then adj_out_entry r else adj_in_entry r)) as Hent.
  { intros a. rewrite <- adj_seen. setoid_rewrite edge_at_seen. destruct outgoing.
    - pose proof (ev_out _ Hv n e a) as Ho. rewrite <- (ev_ordered_out _ Hv) in Ho. exact Ho.
    - pose proof (ev_in _ Hv n e a) as Ho. rewrite <- (ev_ordered_in _ Hv) in Ho. exact Ho. }
  rewrite list_elem_of_fmap. setoid_rewrite list_elem_of_filter. split.
  - intros ([e' slot] & -> & Hw & Hin). split; [done|]. apply btree_iter_elem in Hin. unfold wanted_slot in Hw. cbn in *.
    destruct (slot_option_at slot s) as [a|] eqn:Ea; [|done].
    destruct (proj1 (Hent a)) as (r & Hr' & Hend & Ha).
    { exists slot. split; [|done]. unfold nested_get. destruct ((if outgoing then _ else _) !! n); [done|cbn in Hin; by rewrite lookup_empty in Hin]. }
    exists r. apply andb_true_iff in Hw as [Hl Hd]. apply negb_true_iff in Hd. subst a. split_and!; [done..| |by destruct outgoing].
    unfold passes_filter. destruct labels; [|done]. apply bool_decide_eq_true in Hl. by destruct outgoing.
  - intros (_ & r & Hr' & Hend & Hl & Hd). destruct (proj2 (Hent _) (ex_intro _ r (conj Hr' (conj Hend eq_refl)))) as (slot & Hg & Hslot).
    exists (e, slot). split; [done|]. split.
    + unfold wanted_slot. cbn. rewrite Hslot. apply andb_true_iff. split; [|apply negb_true_iff; by destruct outgoing].
      unfold passes_filter in Hl. destruct labels; [|done]. apply bool_decide_eq_true. by destruct outgoing.
    + apply btree_iter_elem. unfold nested_get in Hg. by destruct ((if outgoing then _ else _) !! n).
Qed.
End Layers.

(** What the scan relies on in a segment: its cursors are ascending and hold the
    edges at the nodes; [has_edge] tells the edges it holds. *)
Class SegmentEndpointLaws {Segment : Type} `{SegmentReads Segment, SegmentAdjacency Segment, SegmentEndpoints Segment}
    (edge_in : Segment -> Z -> option EdgeRecord) : Prop := {
  has_edge_law seg e : has_edge seg e = true <-> is_Some (edge_in seg e);
  cursors_ascending seg ids dir labels cursors c :
    endpoint_adj_posting_cursors seg ids dir labels = Ok cursors -> c ∈ cursors -> ascending (fst c);
  cursors_sound seg ids dir labels cursors e :
    endpoint_adj_posting_cursors seg ids dir labels = Ok cursors -> e ∈ mjoin (fst <$> cursors) ->
    exists n p, n ∈ ids /\ ps_edge_id p = e /\ segment_posting edge_in seg dir labels n p;
  cursors_complete seg ids dir labels cursors n p :
    endpoint_adj_posting_cursors seg ids dir labels = Ok cursors -> (forall c, c ∈ cursors -> snd c = None) ->
    n ∈ ids -> segment_posting edge_in seg dir labels n p -> ps_edge_id p ∈ mjoin (fst <$> cursors)
}.

Section Scan.
Context `{RmpValue, HashOrderLaws} {Segment : Type} `{!SegmentReads Segment, !SegmentAdjacency Segment, !SegmentEndpoints Segment}.
Context (edge_in : Segment -> Z -> option EdgeRecord) `{!SegmentAdjacencyLaws edge_in, !SegmentEndpointLaws edge_in}.
Context (self : SourceList (Segment := Segment)).
Hypothesis Hlayered : layered edge_in self.
Abbreviation layers := (view_layers self).
Abbreviation says := (layer_says edge_in self).
Abbreviation shown_edge := (shown ms_edges is_edge_deleted edge_in self).

Lemma edge_known st e : Mem st ∈ layers -> edge_known_at st e (snapshot_seq self) = true <-> says (Mem st) e ≠ None.
Proof.
  intros Hl. destruct (ly_built _ _ Hlayered st Hl) as [ops Hb]. pose proof (built_marked ops st (snapshot_seq self) Hb) as [_ Hm].
  unfold edge_known_at, edge_visibility_state_at. cbn. unfold state_says.
  change (slot ← ms_edges st !! e; record_at slot (snapshot_seq self)) with (state_at (ms_edges st) (snapshot_seq self) e).
  destruct (state_at (ms_edges st) (snapshot_seq self) e) as [[r|t]|] eqn:E; [done..|].
  destruct (edge_deleted_at st e (snapshot_seq self)) eqn:Ed; [|done]. exfalso. apply Hm in Ed as [t Et]. congruence.
Qed.
Lemma segment_known seg e : has_edge seg e || is_edge_deleted seg e = true <-> says (Seg seg) e ≠ None.
Proof.
  rewrite orb_true_iff, has_edge_law. cbn. unfold segment_says. destruct (is_edge_deleted seg e); [naive_solver|].
  destruct (edge_in seg e); cbn; split; try done; [by left; eexists|]. by intros [[? ?]|?].
Qed.

Section Layer.
Context (dir : Direction) (labels : option (list Z)) (limit : Z) (ids : list Z).
(** An edge a layer shows at one of the nodes, and the end points it needs. *)
Definition ended (l : Layer) (e n m : Z) (r : EdgeRecord) : Prop :=
  says l e = Some (Some r) /\ n ∈ ids /\ touches dir r n m /\ passes_filter labels (er_label_id r).
Definition standing (n m : Z) : Prop := node_tombstoned self n = false /\ node_tombstoned self m = false.
(** What one layer adds to the result. *)
Definition appended (l : Layer) (is_shadowed : Z -> bool) (result : list Z) (r : option (res (list Z))) : Prop :=
  exists out, r = Some out /\
  match out with
  | Err _ => exists seg, l = Seg seg
  | Ok result' => exists rs, result' = result ++ rs /\ ascending rs
      /\ (forall e, e ∈ rs -> is_shadowed e = false /\ exists n m r, ended l e n m r)
      /\ (len result' < limit -> forall e n m r, ended l e n m r -> standing n m -> is_shadowed e = false -> e ∈ rs)
  end.

Lemma endpoint_cursor_elem c : c ∈ endpoint_cursors ids dir <->
  exists n (outgoing : bool), c = ((n, outgoing), None) /\ n ∈ ids /\ dir ≠ (if outgoing then Incoming else Outgoing).
Proof.
  unfold endpoint_cursors. rewrite list_elem_of_join. setoid_rewrite list_elem_of_fmap. split.
  - intros (l & Hc & n & -> & Hn). destruct dir; repeat (apply elem_of_cons in Hc as [->|Hc]); try (by apply not_elem_of_nil in Hc); eexists n, _; split_and!; done.
  - intros (n & outgoing & -> & Hn & Hd). eexists. split; [|by exists n]. destruct dir, outgoing; try done; cbn; set_solver.
Qed.
Lemma ahead_length st n outgoing :
  (length (memtable_ahead st labels (snapshot_seq self) ((n, outgoing), None))
   <= size (default ∅ ((if outgoing then ms_ordered_adj_out st else ms_ordered_adj_in st) !! n)))%nat.
Proof.
  unfold memtable_ahead. etrans; [apply length_filter|]. unfold endpoint_ids. destruct (node_deleted_at _ _ _); [cbn; lia|].
  rewrite length_fmap. etrans; [apply length_filter|]. unfold btree_iter. by rewrite merge_sort_Permutation, length_map_to_list.
Qed.
Lemma memtable_fuel_enough st :
  (length (mjoin (memtable_ahead st labels (snapshot_seq self) <$> endpoint_cursors ids dir)) < memtable_fuel st ids)%nat.
Proof.
  unfold memtable_fuel, endpoint_cursors. apply Nat.lt_succ_r. induction ids as [|n ns IH]; [done|].
  rewrite !fmap_cons. cbn [mjoin list_join sum_list]. rewrite fmap_app, join_app, length_app. apply Nat.add_le_mono; [|done].
  pose proof (ahead_length st n true). pose proof (ahead_length st n false). cbn [size] in *.
  destruct dir; cbn [mjoin list_join fmap list_fmap]; rewrite ?length_app; cbn [length]; unfold Datatypes.id in *; lia.
Qed.
Lemma appended_memtable st is_shadowed result :
  Mem st ∈ layers ->
  appended (Mem st) is_shadowed result (append_memtable_endpoint_matches_limited result st ids dir labels (snapshot_seq self) limit is_shadowed).
Proof.
  intros Hl. destruct (ly_built _ _ Hlayered st Hl) as [ops Hb].
  unfold append_memtable_endpoint_matches_limited.
  destruct (merge_cursors_spec (advance_memtable st labels (snapshot_seq self)) is_shadowed limit (memtable_ahead st labels (snapshot_seq self)) (fun _ => True)
    ltac:(by intros ? [?|]) (memtable_cursor_advance st labels (snapshot_seq self)) (memtable_fuel st ids) (endpoint_cursors ids dir) result) as (r & -> & Hr).
  { intros [[n outgoing] after] _. apply sorted_filter, endpoint_ids_ascending. }
  { apply memtable_fuel_enough. }
  assert (forall e, e ∈ mjoin (memtable_ahead st labels (snapshot_seq self) <$> endpoint_cursors ids dir)
    <-> exists n (outgoing : bool), n ∈ ids /\ dir ≠ (if outgoing then Incoming else Outgoing) /\ e ∈ endpoint_ids st labels (snapshot_seq self) n outgoing) as Hin.
  { intros e. rewrite list_elem_of_join. setoid_rewrite list_elem_of_fmap. setoid_rewrite endpoint_cursor_elem. split.
    - intros (l & He & c & -> & n & outgoing & -> & Hn & Hd). exists n, outgoing. split_and!; [done..|]. cbn in He. by apply list_elem_of_filter in He as [_ He].
    - intros (n & outgoing & Hn & Hd & He). exists (memtable_ahead st labels (snapshot_seq self) ((n, outgoing), None)). split; [by apply list_elem_of_filter|]. eexists. split; [done|]. by exists n, outgoing. }
  exists r. split; [done|]. destruct r as [result'|e]; [|destruct Hr as [[[? ?] ?] Hr]; unfold advance_memtable in Hr; by destruct (next_visible_adj_edge_after _ _ _ _ _ _)].
  destruct Hr as (rs & -> & Ha & Hs & Hc). exists rs. split_and!; [done..| |].
  - intros e He. destruct (Hs e He) as [Hm Hsh]. split; [done|]. apply Hin in Hm as (n & outgoing & Hn & Hd & Hm).
    apply (endpoint_ids_elem ops st labels _ n outgoing e Hb) in Hm as (_ & r & Hr & Hend & Hlab & _).
    exists n, (if outgoing then er_to r else er_from r), r. split_and!; [|done| |done].
    + cbn. rewrite edge_at_state in Hr. unfold state_says. by destruct (state_at _ _ e) as [[]|]; simplify_eq/=.
    + destruct outgoing; [left|right]; by destruct dir.
  - intros Hlim e n m r (Hsay & Hn & Ht & Hlab) [Hdn Hdm] Hsh. apply Hc; [done| |done]. apply Hin.
    assert (forall k, node_tombstoned self k = false -> node_deleted_at st k (snapshot_seq self) = false) as Hnode.
    { intros k Hk. apply not_true_iff_false. intros E. apply (node_deleted_tombstoned self (Mem st) k Hl) in E. congruence. }
    apply says_record in Hsay. cbn in Hsay. destruct Ht as [(Hd & Hf & Hto)|(Hd & Hto & Hf)]; [exists n, true|exists n, false].
    + split_and!; [done|by destruct dir|]. apply (endpoint_ids_elem ops st labels _ n true e Hb). split; [by apply Hnode|]. exists r. split_and!; [done..|]. subst. by apply Hnode.
    + split_and!; [done|by destruct dir|]. apply (endpoint_ids_elem ops st labels _ n false e Hb). split; [by apply Hnode|]. exists r. split_and!; [done..|]. subst. by apply Hnode.
Qed.
Lemma appended_segment seg is_shadowed result :
  Seg seg ∈ layers ->
  appended (Seg seg) is_shadowed result (append_segment_endpoint_matches_limited result seg ids dir labels limit is_shadowed).
Proof.
  intros Hl. unfold append_segment_endpoint_matches_limited. destruct (limit <=? len result) eqn:El.
  { eexists. split; [done|]. exists []. rewrite app_nil_r. split_and!; [done|constructor|by intros e ?%not_elem_of_nil|lia]. }
  destruct (endpoint_adj_posting_cursors seg ids dir labels) as [cursors|e] eqn:Ec; [|eexists; split; [done|by exists seg]].
  destruct (merge_cursors_spec next_adj_posting_edge_id is_shadowed limit fst (fun c : SegCursor => snd c = None)
    segment_cursor_clean segment_cursor_advance (S (sum_list ((fun c : SegCursor => length (fst c)) <$> cursors))) cursors result) as (r & -> & Hr).
  { intros c. by apply (cursors_ascending (edge_in := edge_in) seg ids dir labels cursors). }
  { apply Nat.lt_succ_r. clear. induction cursors as [|c cursors IH]; [done|]. rewrite !fmap_cons. cbn. rewrite length_app. unfold Datatypes.id in *. apply Nat.add_le_mono; [done|exact IH]. }
  exists r. split; [done|]. destruct r as [result'|e]; [|by exists seg].
  destruct Hr as (rs & -> & Ha & Hs & Hc). exists rs. split_and!; [done..| |].
  - intros e He. destruct (Hs e He) as [Hm Hsh]. split; [done|].
    apply (cursors_sound (edge_in := edge_in) seg ids dir labels cursors e Ec) in Hm as (n & p & Hn & <- & r & Hr & Ht & _ & Hlab & Hd & _).
    exists n, (ps_neighbor_id p), r. split_and!; [|done..]. cbn. unfold segment_says. by rewrite Hd, Hr.
  - intros Hlim e n m r (Hsay & Hn & Ht & Hlab) [Hdn Hdm] Hsh. destruct (Hc Hlim) as [Hall Hclean]. apply Hall; [|done].
    cbn in Hsay. unfold segment_says in Hsay. destruct (is_edge_deleted seg e) eqn:Hd; [done|].
    destruct (edge_in seg e) as [r'|] eqn:Hr; [|done]. cbn in Hsay. injection Hsay as ->.
    pose proof (edge_in_id (edge_in := edge_in) seg e r Hr) as Hid.
    change e with (ps_edge_id (mkPosting e m (er_weight r) (er_valid_from r) (er_valid_to r))).
    apply (cursors_complete (edge_in := edge_in) seg ids dir labels cursors n _ Ec Hclean Hn). exists r. cbn [ps_edge_id ps_neighbor_id].
    split_and!; [done|done|unfold posting; by rewrite Hid|done|done|]. apply not_true_iff_false. intros E.
    apply (node_deleted_tombstoned self (Seg seg) m Hl) in E. congruence.
Qed.

(** ** The layers in turn *)
Record covered (ls : list Layer) (result : list Z) : Prop := {
  cv_nodup : NoDup result;
  cv_sound e : e ∈ result -> (exists l, l ∈ ls /\ says l e ≠ None) /\ exists n m r, shown_edge e = Some r /\ n ∈ ids /\ touches dir r n m /\ passes_filter labels (er_label_id r);
  cv_complete e n m r : len result < limit -> layers_say (says <$> ls) e = Some (Some r) -> n ∈ ids -> touches dir r n m -> passes_filter labels (er_label_id r) ->
    standing n m -> e ∈ result
}.
Lemma layers_silent (ls : list Layer) e : layers_say (says <$> ls) e = None <-> forall l, l ∈ ls -> says l e = None.
Proof.
  induction ls as [|l ls IH]; [split; [by intros _ l ?%not_elem_of_nil|done]|]. rewrite fmap_cons. change (layers_say (?f :: ?k)) with (first f (layers_say k)).
  unfold first. setoid_rewrite elem_of_cons. destruct (says l e) eqn:El; [split; [done|intros Hall; rewrite <- El; apply Hall; by left]|]. rewrite IH. naive_solver.
Qed.
Lemma covered_step ls l ls' is_shadowed result r :
  layers = ls ++ l :: ls' -> (forall e, is_shadowed e = true <-> exists l', l' ∈ ls /\ says l' e ≠ None) ->
  covered ls result -> appended l is_shadowed result r ->
  exists out, r = Some out /\ match out with Ok result' => covered (ls ++ [l]) result' | Err _ => exists seg, l = Seg seg end.
Proof.
  intros Hv Hsh [Hnd Hs Hc] (out & -> & Ho). exists out. split; [done|]. destruct out as [result'|e]; [|done].
  destruct Ho as (rs & -> & Ha & Hr & Hall).
  assert (forall e, is_shadowed e = false -> forall l', l' ∈ ls -> says l' e = None) as Hun.
  { intros e He l' Hl'. destruct (says l' e) eqn:E; [|done]. assert (is_shadowed e = true); [|congruence]. apply Hsh. exists l'. by rewrite E. }
  split.
  - apply NoDup_app. split_and!; [done| |by apply NodeLabels.ascending_NoDup]. intros e He (Hf & _)%Hr. destruct (Hs e He) as [Hex _]. apply Hsh in Hex. congruence.
  - intros e [He|He]%elem_of_app.
    + destruct (Hs e He) as [(l' & Hl' & Hne) Hrest]. split; [|done]. exists l'. split; [|done]. by apply elem_of_app; left.
    + destruct (Hr e He) as (Hf & n & m & r & Hsay & Hrest). split; [exists l; split; [by apply elem_of_app; right; left|by rewrite Hsay]|].
      exists n, m, r. split; [|done]. by apply (shown_first edge_in self ls l ls'), Hun.
  - intros e n m r Hlim Hsay Hn Ht Hlab Hst. rewrite elem_of_app. rewrite fmap_app, layers_say_app in Hsay. unfold first in Hsay.
    destruct (layers_say (says <$> ls) e) as [o|] eqn:Eo.
    + left. injection Hsay as ->. apply (Hc e n m r); [|done..]. rewrite length_app in Hlim. lia.
    + right. rewrite layers_silent in Eo. apply (Hall Hlim e n m r); [|done|].
      * split_and!; [|done..]. cbn in Hsay. unfold first in Hsay. by destruct (says l e).
      * apply not_true_iff_false. intros (l' & Hl' & Hne)%Hsh. by apply Hne, Eo.
Qed.

Abbreviation memtables index := (Mem (active self) :: (Mem <$> take index (immutable self))).
Lemma known_elem (sts : list MemtableState) e : (forall st, st ∈ sts -> Mem st ∈ layers) ->
  existsb (fun st => edge_known_at st e (snapshot_seq self)) sts = true <-> exists l, l ∈ Mem <$> sts /\ says l e ≠ None.
Proof.
  intros Hl. rewrite existsb_elem. setoid_rewrite list_elem_of_fmap. split.
  - intros (st & Hst & Hk). apply edge_known in Hk; [|by apply Hl]. exists (Mem st). split; [by exists st|done].
  - intros (l & (st & -> & Hst) & Hk). exists st. split; [done|]. apply edge_known; [by apply Hl|done].
Qed.
Lemma shadowed_immutable e index :
  is_edge_shadowed_above_immutable self e index = true <-> exists l, l ∈ memtables index /\ says l e ≠ None.
Proof.
  unfold is_edge_shadowed_above_immutable. pose proof (known_elem (active self :: take index (immutable self)) e) as Hk. cbn [existsb] in Hk.
  rewrite fmap_cons in Hk. apply Hk. intros st Hst. apply layer_mem. apply elem_of_cons in Hst as [->|Hst]; [left|right]. by eapply subseteq_take.
Qed.
Lemma shadowed_segment e index :
  is_edge_shadowed_above_segment self e index = true
  <-> exists l, l ∈ (Mem (active self) :: (Mem <$> immutable self)) ++ (Seg <$> take index (segments self)) /\ says l e ≠ None.
Proof.
  unfold is_edge_shadowed_above_segment. rewrite orb_true_iff. pose proof (known_elem (active self :: immutable self) e) as Hk. cbn [existsb] in Hk.
  rewrite fmap_cons in Hk. setoid_rewrite elem_of_app. rewrite Hk; [|intros st Hst; by apply layer_mem]. rewrite existsb_elem.
  setoid_rewrite segment_known. setoid_rewrite (list_elem_of_fmap Seg). split.
  - intros [(l & Hl & Hs)|(seg & Hseg & Hs)]; [exists l; split; [by left|done]|]. exists (Seg seg). split; [right; by exists seg|done].
  - intros (l & [Hl|(seg & -> & Hseg)] & Hs); [left; by exists l|right; by exists seg].
Qed.
Lemma scan_immutable_spec epochs index result :
  immutable self = take index (immutable self) ++ epochs -> (index + length epochs = length (immutable self))%nat -> covered (memtables index) result ->
  exists result' stop, scan_immutable self ids dir labels limit index epochs result = Some (Ok (result', stop))
  /\ if stop : bool then limit <= len result' /\ exists ls, covered ls result' else covered (Mem (active self) :: (Mem <$> immutable self)) result'.
Proof.
  revert index result. induction epochs as [|epoch epochs IH]; intros index result He Hlen Hc; cbn [scan_immutable].
  { exists result, false. split; [done|]. rewrite app_nil_r in He. by rewrite <- He in Hc. }
  assert (layers = memtables index ++ Mem epoch :: ((Mem <$> epochs) ++ (Seg <$> segments self))) as Hv.
  { unfold view_layers, older_layers. rewrite He at 1. rewrite fmap_app, fmap_cons. cbn [app]. by rewrite <- app_assoc. }
  assert (Mem epoch ∈ layers) as Hin by (rewrite Hv; apply elem_of_app; right; left).
  destruct (covered_step _ _ _ _ _ _ Hv (fun e => shadowed_immutable e index) Hc (appended_memtable epoch _ result Hin)) as (out & -> & Ho).
  cbn [mbind option_bind]. destruct out as [result'|e]; [|by destruct Ho].
  destruct (limit <=? len result') eqn:El; [exists result', true; split; [done|]; split; [lia|by eexists]|].
  assert (take (S index) (immutable self) = take index (immutable self) ++ [epoch]) as Et.
  { rewrite He at 1. rewrite take_app. rewrite length_take_le by (cbn in Hlen; lia). rewrite take_take, Nat.min_r by lia. replace (S index - index)%nat with 1%nat by lia. done. }
  apply IH; rewrite ?Et; [by rewrite <- app_assoc|cbn in Hlen; lia|]. rewrite fmap_app. exact Ho.
Qed.
Lemma scan_segments_spec segs index result :
  segments self = take index (segments self) ++ segs -> (index + length segs = length (segments self))%nat ->
  covered ((Mem (active self) :: (Mem <$> immutable self)) ++ (Seg <$> take index (segments self))) result ->
  exists out, scan_segments self ids dir labels limit index segs result = Some out
  /\ match out with Err _ => segs ≠ [] | Ok (result', stop) => if stop : bool then limit <= len result' /\ exists ls, covered ls result' else covered layers result' end.
Proof.
  revert index result. induction segs as [|seg segs IH]; intros index result He Hlen Hc; cbn [scan_segments].
  { eexists. split; [done|]. cbn. rewrite app_nil_r in He. rewrite <- He in Hc. exact Hc. }
  assert (layers = ((Mem (active self) :: (Mem <$> immutable self)) ++ (Seg <$> take index (segments self))) ++ Seg seg :: (Seg <$> segs)) as Hv.
  { unfold view_layers, older_layers. rewrite He at 1. rewrite fmap_app, fmap_cons. cbn [app]. by rewrite <- app_assoc. }
  assert (Seg seg ∈ layers) as Hin by (rewrite Hv; apply elem_of_app; right; left).
  destruct (covered_step _ _ _ _ _ _ Hv (fun e => shadowed_segment e index) Hc (appended_segment seg _ result Hin)) as (out & -> & Ho).
  cbn [mbind option_bind]. destruct out as [result'|e]; [|by exists (Err e)].
  destruct (limit <=? len result') eqn:El; [eexists; split; [done|]; cbn; split; [lia|by eexists]|].
  assert (take (S index) (segments self) = take index (segments self) ++ [seg]) as Et.
  { rewrite He at 1. rewrite take_app. rewrite length_take_le by (cbn in Hlen; lia). rewrite take_take, Nat.min_r by lia. replace (S index - index)%nat with 1%nat by lia. done. }
  destruct (IH (S index) result') as (out & -> & Hout); rewrite ?Et; [by rewrite <- app_assoc|cbn in Hlen; lia|rewrite fmap_app, app_assoc; exact Ho|].
  exists out. split; [done|]. by destruct out as [[? ?]|].
Qed.
Lemma covered_final ls result : covered ls result ->
  ascending (finalize_edge_matches result) /\ len (finalize_edge_matches result) = len result /\ forall e, e ∈ finalize_edge_matches result <-> e ∈ result.
Proof.
  intros Hc. unfold finalize_edge_matches. destruct (NodeQueryFacts.sorted_dedup_spec result) as [Ha Hin]. split_and!; [done| |done].
  f_equal. apply Permutation_length, NoDup_Permutation; [by apply NodeLabels.ascending_NoDup|apply Hc|done].
Qed.
End Layer.

(** What the theorem says of the edges answered. *)
Lemma covered_exact dir labels limit node_ids (ls : list Layer) result :
  covered dir labels limit (NodeQuery.sorted_dedup_u64 node_ids) ls result -> limit <= len result \/ ls = layers ->
  let edges := finalize_edge_matches result in ascending edges
  /\ (forall e, e ∈ edges -> exists n m r, shown_edge e = Some r /\ n ∈ node_ids /\ touches dir r n m /\ passes_filter labels (er_label_id r))
  /\ (len edges < limit -> forall e n m r, shown_edge e = Some r -> n ∈ node_ids -> touches dir r n m -> passes_filter labels (er_label_id r) ->
        standing n m -> e ∈ edges).
Proof.
  destruct (NodeQueryFacts.sorted_dedup_spec node_ids) as [_ Hids]. intros Hc Hlim.
  destruct (covered_final _ _ _ _ ls result Hc) as (Ha & Hlen & Hin). split_and!; [done| |].
  - intros e (_ & n & m & r & Hs & Hn & Hrest)%Hin%(cv_sound _ _ _ _ _ _ Hc). exists n, m, r. split_and!; [done|by apply Hids|apply Hrest..].
  - cbn zeta. rewrite Hlen. intros Hlt e n m r Hs Hn Ht Hlab Hst. destruct Hlim as [?| ->]; [lia|].
    apply Hin, (cv_complete _ _ _ _ _ _ Hc e n m r); [done| |by apply Hids|done..].
    destruct (shown_split edge_in self e r Hs) as (ls1 & l & ls2 & -> & Hl & Hnew). rewrite fmap_app, layers_say_app. unfold first.
    rewrite (proj2 (layers_silent ls1 e) Hnew), fmap_cons. change (layers_say (?f :: ?k)) with (first f (layers_say k)). unfold first. by rewrite Hl.
Qed.

(** The scan and its answer. *)
Lemma endpoint_scan_spec dir labels limit node_ids :
  exists out, edge_ids_by_endpoints_limited self node_ids dir labels limit = Some out /\
  match out with
  | Err _ => segments self ≠ []
  | Ok edges => ascending edges
      /\ (forall e, e ∈ edges -> exists n m r, shown_edge e = Some r /\ n ∈ node_ids /\ touches dir r n m /\ passes_filter labels (er_label_id r))
      /\ (len edges < limit -> forall e n m r, shown_edge e = Some r -> n ∈ node_ids -> touches dir r n m -> passes_filter labels (er_label_id r) ->
            standing n m -> e ∈ edges)
  end.
Proof.
  unfold edge_ids_by_endpoints_limited. destruct node_ids as [|n0 ns] eqn:En.
  { eexists. split; [done|]. split_and!; [constructor|by intros e ?%not_elem_of_nil|by intros _ e n m r _ ?%not_elem_of_nil]. }
  rewrite <- En. clear n0 ns En. set (ids := NodeQuery.sorted_dedup_u64 node_ids).
  pose proof (covered_exact dir labels limit node_ids) as Hfinal.
  assert (covered dir labels limit ids [] []) as Hnone by (split; [constructor|by intros e ?%not_elem_of_nil|done]).
  destruct (covered_step dir labels limit ids [] (Mem (active self)) (older_layers self) (fun _ => false) [] _ eq_refl
    ltac:(intros e; split; [done|by intros (l & ?%not_elem_of_nil & _)]) Hnone (appended_memtable dir labels limit ids (active self) _ [] (active_in self)))
    as (out & -> & Ho). cbn [mbind option_bind]. destruct out as [result|e]; [|by destruct Ho].
  destruct (limit <=? len result) eqn:El; [eexists; split; [done|]; apply (Hfinal _ result Ho); left; lia|].
  destruct (scan_immutable_spec dir labels limit ids (immutable self) 0 result eq_refl eq_refl Ho) as (result1 & stop & -> & Himm).
  cbn [mbind option_bind]. destruct stop; [destruct Himm as [? [ls ?]]; eexists; split; [done|]; apply (Hfinal ls); [done|by left]|].
  destruct (scan_segments_spec dir labels limit ids (segments self) 0 result1 eq_refl eq_refl) as (out & -> & Hseg); [by rewrite app_nil_r|].
  cbn [mbind option_bind]. eexists. split; [done|]. destruct out as [[result2 stop]|e]; cbn [mbind result_bind]; [|done].
  destruct stop; [destruct Hseg as [? [ls ?]]; apply (Hfinal ls); [done|by left]|by apply (Hfinal layers); [|right]].
Qed.

(** No layer takes the result past the limit. *)
Lemma segment_limit (seg : Segment) ids dir labels limit is_shadowed result result' :
  append_segment_endpoint_matches_limited result seg ids dir labels limit is_shadowed = Some (Ok result') -> len result <= limit -> len result' <= limit.
Proof.
  unfold append_segment_endpoint_matches_limited. destruct (limit <=? len result); [by intros [= ->]|].
  destruct (endpoint_adj_posting_cursors seg ids dir labels); [|done]. apply merge_cursors_limit.
Qed.
Lemma immutable_limit ids dir labels limit index epochs result result' stop :
  scan_immutable self ids dir labels limit index epochs result = Some (Ok (result', stop)) -> len result <= limit -> len result' <= limit.
Proof.
  revert index result. induction epochs as [|epoch epochs IH]; intros index result; cbn [scan_immutable]; [by intros [= -> _]|].
  destruct (append_memtable_endpoint_matches_limited _ _ _ _ _ _ _ _) as [[r|e]|] eqn:E; cbn [mbind option_bind]; [|done..]. intros Hr Hle.
  apply merge_cursors_limit in E; [|done]. destruct (limit <=? len r); [by injection Hr as -> _|by apply (IH _ _ Hr)].
Qed.
Lemma segments_limit ids dir labels limit index segs result result' stop :
  scan_segments self ids dir labels limit index segs result = Some (Ok (result', stop)) -> len result <= limit -> len result' <= limit.
Proof.
  revert index result. induction segs as [|seg segs IH]; intros index result; cbn [scan_segments]; [by intros [= -> _]|].
  destruct (append_segment_endpoint_matches_limited _ _ _ _ _ _ _) as [[r|e]|] eqn:E; cbn [mbind option_bind]; [|done..]. intros Hr Hle.
  apply segment_limit in E; [|done]. destruct (limit <=? len r); [by injection Hr as -> _|by apply (IH _ _ Hr)].
Qed.
Lemma finalize_length result : len (finalize_edge_matches result) <= len result.
Proof.
  unfold finalize_edge_matches. destruct (NodeQueryFacts.sorted_dedup_spec result) as [Ha Hin]. apply inj_le, NoDup_incl_length.
  - apply NoDup_ListNoDup. by apply NodeLabels.ascending_NoDup.
  - intros x Hx. apply list_elem_of_In, Hin, list_elem_of_In, Hx.
Qed.
Lemma endpoint_scan_limit dir labels limit node_ids edges :
  0 <= limit -> edge_ids_by_endpoints_limited self node_ids dir labels limit = Some (Ok edges) -> len edges <= limit.
Proof.
  intros Hpos. unfold edge_ids_by_endpoints_limited. destruct node_ids as [|n ns]; [by intros [= <-]|]. set (ids := NodeQuery.sorted_dedup_u64 (n :: ns)).
  assert (forall result, len result <= limit -> len (finalize_edge_matches result) <= limit) as Hfin by (intros result ?; pose proof (finalize_length result); lia).
  destruct (append_memtable_endpoint_matches_limited _ _ _ _ _ _ _ _) as [[r|e]|] eqn:E; cbn [mbind option_bind]; [|done..].
  apply merge_cursors_limit in E; [|done]. destruct (limit <=? len r); [intros [= <-]; by apply Hfin|].
  destruct (scan_immutable _ _ _ _ _ _ _ _) as [[[r1 stop]|e]|] eqn:E1; cbn [mbind option_bind]; [|done..]. apply immutable_limit in E1; [|done].
  destruct stop; [intros [= <-]; by apply Hfin|]. destruct (scan_segments _ _ _ _ _ _ _ _) as [[[r2 stop]|e]|] eqn:E2; cbn; [|done..].
  apply segments_limit in E2; [|done]. intros [= <-]. by apply Hfin.
Qed.

(** C12.  The edges at given end points.  Over memtables and segments in which ids
    are never given out twice, the scan always ends.  What it answers is
    ascending, never longer than its limit, and every edge of it is one a lookup of its id finds, of a wanted
    label, starting or ending -- as the direction says -- at one of the nodes; a
    scan that answers fewer edges than its limit has found every such edge
    whose ends are not deleted, valid at the time or not; and only a segment
    makes it fail. *)
Theorem endpoint_scan_exact dir labels limit node_ids :
  0 <= limit ->
  exists out, edge_ids_by_endpoints_limited self node_ids dir labels limit = Some out /\
  match out with
  | Err _ => segments self ≠ []
  | Ok edges => ascending edges /\ len edges <= limit
      /\ (forall e, e ∈ edges -> exists n m r, shown_edge e = Some r /\ n ∈ node_ids /\ touches dir r n m /\ passes_filter labels (er_label_id r))
      /\ (len edges < limit -> forall e n m r, shown_edge e = Some r -> n ∈ node_ids -> touches dir r n m -> passes_filter labels (er_label_id r) ->
            standing n m -> e ∈ edges)
  end.
Proof.
  intros Hlim. destruct (endpoint_scan_spec dir labels limit node_ids) as (out & E & Ho). exists out. split; [done|].
  destruct out as [edges|e]; [|done]. destruct Ho as (? & ? & ?). split_and!; [done|by apply (endpoint_scan_limit dir labels limit node_ids)|done..].
Qed.
End Scan.
