(* ===== verification/Txn.v ===== *)
(** The reads of a transaction commit (src/engine/txn.rs): what a commit asks
    for, the planning state and its cache, and the checks that nothing it
    touches changed since the transaction began.  A commit is planned against
    two read views, the one the transaction began with and the current one.
    Each planner step threads the planning state and may fail; a failed plan
    leaves nothing behind. *)
From S2P Require Import Prelude Types PropertyValue Slots Memtable MemtableReads Manifest LabelCatalog Vectors DegreeEngine FilterBase NodeFilter NodeQuery SourceList SourceKeys Adjacency GraphSearch WritePlan EndpointScan.
Import SourceList.

(** ** Intents and requests *)
Inductive TxnLocalRef : Type := Slot (n : Z) | Alias (name : str).
#[export] Instance txn_local_ref_dec : EqDecision TxnLocalRef.
Proof. solve_decision. Defined.
#[export] Instance txn_local_ref_countable : Countable TxnLocalRef :=
  inj_countable' (fun r => match r with Slot n => inl n | Alias a => inr a end) (fun s => match s with inl n => Slot n | inr a => Alias a end)
    (fun r => match r with Slot n => eq_refl | Alias a => eq_refl end).
Inductive TxnNodeRef : Type := NodeId (id : Z) | NodeKey (label key : str) | NodeLocal (local : TxnLocalRef).
Inductive TxnEdgeRef : Type := EdgeId (id : Z) | EdgeTriple (from to : TxnNodeRef) (label : str) | EdgeLocal (local : TxnLocalRef).
Inductive TxnIntent : Type :=
| TxnUpsertNode (alias : option str) (labels : list str) (key : str) (options : UpsertNodeOptions)
| TxnUpsertEdge (alias : option str) (from to : TxnNodeRef) (label : str) (options : UpsertEdgeOptions)
| TxnDeleteNode (target : TxnNodeRef)
| TxnDeleteEdge (target : TxnEdgeRef)
| TxnInvalidateEdge (target : TxnEdgeRef) (valid_to : Z).
Record StagedTxnIntent : Type := mkStagedIntent {
  si_intent : TxnIntent;
  si_produced_node : option TxnLocalRef;
  si_produced_edge : option TxnLocalRef
}.
Record TxnNodeRecordReplacement : Type := mkNodeReplacement {
  rn_id : Z;
  rn_labels : list str;
  rn_key : str;
  rn_props : props;
  rn_created_at : Z;
  rn_weight : Z;
  rn_dense_vector : option (list Z);
  rn_sparse_vector : option (list (Z * Z))
}.
Record TxnEdgeRecordReplacement : Type := mkEdgeReplacement {
  re_id : Z;
  re_from : Z;
  re_to : Z;
  re_label : str;
  re_props : props;
  re_created_at : Z;
  re_weight : Z;
  re_valid_from : Z;
  re_valid_to : Z
}.
Inductive TxnRecordReplacement : Type := ReplaceNode (node : TxnNodeRecordReplacement) | ReplaceEdge (edge : TxnEdgeRecordReplacement).
Record TxnReturnReadSet : Type := mkReadSet { rs_node_ids : gset Z; rs_edge_ids : gset Z }.

(** [BTreeSet] iteration. *)
Definition set_iter (s : gset Z) : list Z := sort_ids (elements s).

(** ** The budget of graph operations *)
Definition saturating_add (a b : Z) : Z := Z.min NodeQuery.usize_max (a + b).
Definition saturating_sub (a b : Z) : Z := Z.max 0 (a - b).
(** [budget]: the most operations allowed; its names only show in messages. *)
Record TxnGraphOpCounter : Type := mkCounter { go_budget : option Z; go_ops : Z }.
Definition txn_graph_op_cap_error : EngineError := InvalidOperation "{} {} exceeded: attempted {}, cap {}".
Definition reserve (count : Z) (self : TxnGraphOpCounter) : res TxnGraphOpCounter :=
  if count =? 0 then Ok self
  else
    let next := saturating_add (go_ops self) count in
    if match go_budget self with Some max_ops => max_ops <? next | None => false end
    then Err txn_graph_op_cap_error
    else Ok (mkCounter (go_budget self) next).
Definition limited_scan_len (already_counted_matches : Z) (self : TxnGraphOpCounter) : Z :=
  match go_budget self with
  | Some max_ops => saturating_add (saturating_add (saturating_sub max_ops (go_ops self)) already_counted_matches) 1
  | None => NodeQuery.usize_max
  end.
Definition reject_if_limited_scan_filled (returned limit : Z) (self : TxnGraphOpCounter) : res unit :=
  match go_budget self with
  | None => Ok tt
  | Some _ => if negb (limit =? NodeQuery.usize_max) && (limit <=? returned) then Err txn_graph_op_cap_error else Ok tt
  end.

(** ** The state of a plan *)
Inductive TargetOpinion : Type := OpAbsent | OpLive (last_write_seq : Z) | OpTombstone (last_write_seq : Z).
Definition opinion_seq (o : TargetOpinion) : option Z :=
  match o with OpAbsent => None | OpLive s | OpTombstone s => Some s end.
Record PlannedTxnState : Type := mkPlanned {
  ps_node_ids : list Z;
  ps_edge_ids : list Z;
  ps_local_node_ids : gmap TxnLocalRef Z;
  ps_local_edge_ids : gmap TxnLocalRef Z;
  ps_nodes_by_key : gmap (Z * str) Allocated;
  ps_removed_node_keys : gset (Z * str);
  ps_node_records_by_id : gmap Z NodeRecord;
  ps_edges_by_triple : gmap (Z * Z * Z) Allocated;
  ps_edge_id_to_triple : gmap Z (Z * Z * Z);
  ps_edge_records_by_id : gmap Z EdgeRecord;
  ps_deleted_node_ids : gset Z;
  ps_deleted_edge_ids : gset Z
}.
Definition no_plan : PlannedTxnState := mkPlanned [] [] ∅ ∅ ∅ ∅ ∅ ∅ ∅ ∅ ∅ ∅.
Record TxnPlanningCache : Type := mkCache {
  ca_begin_nodes_by_id : gmap Z (option NodeRecord);
  ca_begin_edges_by_id : gmap Z (option EdgeRecord);
  ca_begin_node_keys : gmap (Z * str) (option NodeRecord);
  ca_current_node_keys : gmap (Z * str) (option NodeRecord);
  ca_begin_edge_triples : gmap (Z * Z * Z) (option EdgeRecord);
  ca_current_edge_triples : gmap (Z * Z * Z) (option EdgeRecord);
  ca_current_edges_by_id : gmap Z (option EdgeRecord);
  ca_node_opinions_by_id : gmap Z TargetOpinion;
  ca_edge_opinions_by_id : gmap Z TargetOpinion
}.
Definition no_cache : TxnPlanningCache := mkCache ∅ ∅ ∅ ∅ ∅ ∅ ∅ ∅ ∅.
Record TxnLabelResolution : Type := mkResolution { tl_node_labels : gmap str (option Z); tl_edge_labels : gmap str (option Z) }.
Definition node_label_id (self : TxnLabelResolution) (label : str) : option Z := mjoin (tl_node_labels self !! label).
Definition edge_label_id (self : TxnLabelResolution) (label : str) : option Z := mjoin (tl_edge_labels self !! label).
Definition or_insert (label : str) (label_id : option Z) (m : gmap str (option Z)) : gmap str (option Z) :=
  match m !! label with Some _ => m | None => <[label := label_id]> m end.
Definition insert_node_label (label : str) (label_id : option Z) (self : TxnLabelResolution) : TxnLabelResolution :=
  mkResolution (or_insert label label_id (tl_node_labels self)) (tl_edge_labels self).
Definition insert_edge_label (label : str) (label_id : option Z) (self : TxnLabelResolution) : TxnLabelResolution :=
  mkResolution (tl_node_labels self) (or_insert label label_id (tl_edge_labels self)).

(** The locals of [plan_txn_commit]. *)
Record Planning : Type := mkPlanning {
  px_state : PlannedTxnState;
  px_cache : TxnPlanningCache;
  px_next_node_id : Z;
  px_next_edge_id : Z;
  px_graph_ops : TxnGraphOpCounter;
  px_ops : list WalOp
}.
(** A step of the planner: it reads and writes the locals, or fails. *)
Definition Step (A : Type) : Type := Planning -> res (A * Planning).
#[export] Instance step_ret : MRet Step := fun A a p => Ok (a, p).
#[export] Instance step_bind : MBind Step := fun A B f m p => match m p with Ok (a, p) => f a p | Err e => Err e end.
Definition gets {A} (f : Planning -> A) : Step A := fun p => Ok (f p, p).
Definition modify (f : Planning -> Planning) : Step () := fun p => Ok (tt, f p).
Definition fail {A} (e : EngineError) : Step A := fun _ => Err e.
Definition lift {A} (r : res A) : Step A := fun p => match r with Ok a => Ok (a, p) | Err e => Err e end.
Fixpoint for_each {A} (body : A -> Step ()) (l : list A) : Step () :=
  match l with [] => mret tt | x :: l => _ ← body x; for_each body l end.

Definition on_state (f : PlannedTxnState -> PlannedTxnState) : Step () :=
  modify (fun p => mkPlanning (f (px_state p)) (px_cache p) (px_next_node_id p) (px_next_edge_id p) (px_graph_ops p) (px_ops p)).
Definition on_cache (f : TxnPlanningCache -> TxnPlanningCache) : Step () :=
  modify (fun p => mkPlanning (px_state p) (f (px_cache p)) (px_next_node_id p) (px_next_edge_id p) (px_graph_ops p) (px_ops p)).
Definition push_op (op : WalOp) : Step () :=
  modify (fun p => mkPlanning (px_state p) (px_cache p) (px_next_node_id p) (px_next_edge_id p) (px_graph_ops p) (px_ops p ++ [op])).
Definition reserve_op : Step () := fun p =>
  match reserve 1 (px_graph_ops p) with
  | Ok graph_ops => Ok (tt, mkPlanning (px_state p) (px_cache p) (px_next_node_id p) (px_next_edge_id p) graph_ops (px_ops p))
  | Err e => Err e
  end.
(** [checked_add] on the counters. *)
Definition take_node_id : Step Z := fun p =>
  let id := px_next_node_id p in
  if id =? u64_max then Err (InvalidOperation "node id counter overflow")
  else Ok (id, mkPlanning (px_state p) (px_cache p) (id + 1) (px_next_edge_id p) (px_graph_ops p) (px_ops p)).
Definition take_edge_id : Step Z := fun p =>
  let id := px_next_edge_id p in
  if id =? u64_max then Err (InvalidOperation "edge id counter overflow")
  else Ok (id, mkPlanning (px_state p) (px_cache p) (px_next_node_id p) (id + 1) (px_graph_ops p) (px_ops p)).

(** Fields of the state... *)
Definition on_node_ids f (s : PlannedTxnState) : PlannedTxnState :=
  mkPlanned (f (ps_node_ids s)) (ps_edge_ids s) (ps_local_node_ids s) (ps_local_edge_ids s) (ps_nodes_by_key s) (ps_removed_node_keys s)
    (ps_node_records_by_id s) (ps_edges_by_triple s) (ps_edge_id_to_triple s) (ps_edge_records_by_id s) (ps_deleted_node_ids s) (ps_deleted_edge_ids s).
Definition on_edge_ids f (s : PlannedTxnState) : PlannedTxnState :=
  mkPlanned (ps_node_ids s) (f (ps_edge_ids s)) (ps_local_node_ids s) (ps_local_edge_ids s) (ps_nodes_by_key s) (ps_removed_node_keys s)
    (ps_node_records_by_id s) (ps_edges_by_triple s) (ps_edge_id_to_triple s) (ps_edge_records_by_id s) (ps_deleted_node_ids s) (ps_deleted_edge_ids s).
Definition on_local_node_ids f (s : PlannedTxnState) : PlannedTxnState :=
  mkPlanned (ps_node_ids s) (ps_edge_ids s) (f (ps_local_node_ids s)) (ps_local_edge_ids s) (ps_nodes_by_key s) (ps_removed_node_keys s)
    (ps_node_records_by_id s) (ps_edges_by_triple s) (ps_edge_id_to_triple s) (ps_edge_records_by_id s) (ps_deleted_node_ids s) (ps_deleted_edge_ids s).
Definition on_local_edge_ids f (s : PlannedTxnState) : PlannedTxnState :=
  mkPlanned (ps_node_ids s) (ps_edge_ids s) (ps_local_node_ids s) (f (ps_local_edge_ids s)) (ps_nodes_by_key s) (ps_removed_node_keys s)
    (ps_node_records_by_id s) (ps_edges_by_triple s) (ps_edge_id_to_triple s) (ps_edge_records_by_id s) (ps_deleted_node_ids s) (ps_deleted_edge_ids s).
(** The keys of the plan: who has them, and which it freed. *)
Definition on_keys f g (s : PlannedTxnState) : PlannedTxnState :=
  mkPlanned (ps_node_ids s) (ps_edge_ids s) (ps_local_node_ids s) (ps_local_edge_ids s) (f (ps_nodes_by_key s)) (g (ps_removed_node_keys s))
    (ps_node_records_by_id s) (ps_edges_by_triple s) (ps_edge_id_to_triple s) (ps_edge_records_by_id s) (ps_deleted_node_ids s) (ps_deleted_edge_ids s).
Definition on_node_records f (s : PlannedTxnState) : PlannedTxnState :=
  mkPlanned (ps_node_ids s) (ps_edge_ids s) (ps_local_node_ids s) (ps_local_edge_ids s) (ps_nodes_by_key s) (ps_removed_node_keys s)
    (f (ps_node_records_by_id s)) (ps_edges_by_triple s) (ps_edge_id_to_triple s) (ps_edge_records_by_id s) (ps_deleted_node_ids s) (ps_deleted_edge_ids s).
Definition on_triples f (s : PlannedTxnState) : PlannedTxnState :=
  mkPlanned (ps_node_ids s) (ps_edge_ids s) (ps_local_node_ids s) (ps_local_edge_ids s) (ps_nodes_by_key s) (ps_removed_node_keys s)
    (ps_node_records_by_id s) (f (ps_edges_by_triple s)) (ps_edge_id_to_triple s) (ps_edge_records_by_id s) (ps_deleted_node_ids s) (ps_deleted_edge_ids s).
(** The edge records of the plan, with their triples. *)
Definition on_edge_records f g (s : PlannedTxnState) : PlannedTxnState :=
  mkPlanned (ps_node_ids s) (ps_edge_ids s) (ps_local_node_ids s) (ps_local_edge_ids s) (ps_nodes_by_key s) (ps_removed_node_keys s)
    (ps_node_records_by_id s) (ps_edges_by_triple s) (f (ps_edge_id_to_triple s)) (g (ps_edge_records_by_id s)) (ps_deleted_node_ids s) (ps_deleted_edge_ids s).
Definition on_deleted_nodes f (s : PlannedTxnState) : PlannedTxnState :=
  mkPlanned (ps_node_ids s) (ps_edge_ids s) (ps_local_node_ids s) (ps_local_edge_ids s) (ps_nodes_by_key s) (ps_removed_node_keys s)
    (ps_node_records_by_id s) (ps_edges_by_triple s) (ps_edge_id_to_triple s) (ps_edge_records_by_id s) (f (ps_deleted_node_ids s)) (ps_deleted_edge_ids s).
Definition on_deleted_edges f (s : PlannedTxnState) : PlannedTxnState :=
  mkPlanned (ps_node_ids s) (ps_edge_ids s) (ps_local_node_ids s) (ps_local_edge_ids s) (ps_nodes_by_key s) (ps_removed_node_keys s)
    (ps_node_records_by_id s) (ps_edges_by_triple s) (ps_edge_id_to_triple s) (ps_edge_records_by_id s) (ps_deleted_node_ids s) (f (ps_deleted_edge_ids s)).
Definition remove_planned_edge_triple_if_current (triple : Z * Z * Z) (edge_id : Z) (s : PlannedTxnState) : PlannedTxnState :=
  match ps_edges_by_triple s !! triple with
  | Some (current_id, _) => if current_id =? edge_id then on_triples (delete triple) s else s
  | None => s
  end.
Definition set_planned_edge_triple_if_current_or_absent (triple : Z * Z * Z) (edge_id created_at : Z) (s : PlannedTxnState) : PlannedTxnState :=
  if match ps_edges_by_triple s !! triple with Some (current_id, _) => current_id =? edge_id | None => true end
  then on_triples <[triple := (edge_id, created_at)]> s else s.
(** ... and of the cache. *)
Definition on_begin_nodes f (c : TxnPlanningCache) : TxnPlanningCache :=
  mkCache (f (ca_begin_nodes_by_id c)) (ca_begin_edges_by_id c) (ca_begin_node_keys c) (ca_current_node_keys c) (ca_begin_edge_triples c)
    (ca_current_edge_triples c) (ca_current_edges_by_id c) (ca_node_opinions_by_id c) (ca_edge_opinions_by_id c).
Definition on_begin_edges f (c : TxnPlanningCache) : TxnPlanningCache :=
  mkCache (ca_begin_nodes_by_id c) (f (ca_begin_edges_by_id c)) (ca_begin_node_keys c) (ca_current_node_keys c) (ca_begin_edge_triples c)
    (ca_current_edge_triples c) (ca_current_edges_by_id c) (ca_node_opinions_by_id c) (ca_edge_opinions_by_id c).
Definition on_begin_keys f (c : TxnPlanningCache) : TxnPlanningCache :=
  mkCache (ca_begin_nodes_by_id c) (ca_begin_edges_by_id c) (f (ca_begin_node_keys c)) (ca_current_node_keys c) (ca_begin_edge_triples c)
    (ca_current_edge_triples c) (ca_current_edges_by_id c) (ca_node_opinions_by_id c) (ca_edge_opinions_by_id c).
Definition on_current_keys f (c : TxnPlanningCache) : TxnPlanningCache :=
  mkCache (ca_begin_nodes_by_id c) (ca_begin_edges_by_id c) (ca_begin_node_keys c) (f (ca_current_node_keys c)) (ca_begin_edge_triples c)
    (ca_current_edge_triples c) (ca_current_edges_by_id c) (ca_node_opinions_by_id c) (ca_edge_opinions_by_id c).
Definition on_begin_triples f (c : TxnPlanningCache) : TxnPlanningCache :=
  mkCache (ca_begin_nodes_by_id c) (ca_begin_edges_by_id c) (ca_begin_node_keys c) (ca_current_node_keys c) (f (ca_begin_edge_triples c))
    (ca_current_edge_triples c) (ca_current_edges_by_id c) (ca_node_opinions_by_id c) (ca_edge_opinions_by_id c).
Definition on_current_triples f (c : TxnPlanningCache) : TxnPlanningCache :=
  mkCache (ca_begin_nodes_by_id c) (ca_begin_edges_by_id c) (ca_begin_node_keys c) (ca_current_node_keys c) (ca_begin_edge_triples c)
    (f (ca_current_edge_triples c)) (ca_current_edges_by_id c) (ca_node_opinions_by_id c) (ca_edge_opinions_by_id c).
Definition on_current_edges f (c : TxnPlanningCache) : TxnPlanningCache :=
  mkCache (ca_begin_nodes_by_id c) (ca_begin_edges_by_id c) (ca_begin_node_keys c) (ca_current_node_keys c) (ca_begin_edge_triples c)
    (ca_current_edge_triples c) (f (ca_current_edges_by_id c)) (ca_node_opinions_by_id c) (ca_edge_opinions_by_id c).
Definition on_node_opinions f (c : TxnPlanningCache) : TxnPlanningCache :=
  mkCache (ca_begin_nodes_by_id c) (ca_begin_edges_by_id c) (ca_begin_node_keys c) (ca_current_node_keys c) (ca_begin_edge_triples c)
    (ca_current_edge_triples c) (ca_current_edges_by_id c) (f (ca_node_opinions_by_id c)) (ca_edge_opinions_by_id c).
Definition on_edge_opinions f (c : TxnPlanningCache) : TxnPlanningCache :=
  mkCache (ca_begin_nodes_by_id c) (ca_begin_edges_by_id c) (ca_begin_node_keys c) (ca_current_node_keys c) (ca_begin_edge_triples c)
    (ca_current_edge_triples c) (ca_current_edges_by_id c) (ca_node_opinions_by_id c) (f (ca_edge_opinions_by_id c)).

(** ** The newest version of an id *)
(** The sequence number of each tombstone of a segment. *)
Class SegmentTombstones (Segment : Type) : Type := {
  deleted_node_tombstones : Segment -> Z -> option Z;
  deleted_edge_tombstones : Segment -> Z -> option Z
}.
Fixpoint first_opinion (says : MemtableState -> option TargetOpinion) (memtables : list MemtableState) : option TargetOpinion :=
  match memtables with [] => None | st :: memtables => match says st with Some o => Some o | None => first_opinion says memtables end end.
Definition node_opinion_at (id snapshot_seq : Z) (st : MemtableState) : option TargetOpinion :=
  match node_at st id snapshot_seq with
  | Some node => Some (OpLive (nr_last_write_seq node))
  | None => (fun tombstone => OpTombstone (ts_last_write_seq tombstone)) <$> node_tombstone_at st id snapshot_seq
  end.
Definition edge_opinion_at (id snapshot_seq : Z) (st : MemtableState) : option TargetOpinion :=
  match edge_at st id snapshot_seq with
  | Some edge => Some (OpLive (er_last_write_seq edge))
  | None => (fun tombstone => OpTombstone (ts_last_write_seq tombstone)) <$> edge_tombstone_at st id snapshot_seq
  end.

Section Reads.
Context {Segment : Type} `{SegmentReads Segment, SegmentKeys Segment, SegmentEndpoints Segment, SegmentTombstones Segment}.
Abbreviation Sources := (SourceList (Segment := Segment)).
Record TxnCommitRequest : Type := mkTxnRequest {
  tr_snapshot : Sources;
  tr_snapshot_seq : Z;
  tr_entries : list StagedTxnIntent;
  tr_record_replacements : list TxnRecordReplacement;
  tr_gql_return_read_set : TxnReturnReadSet;
  tr_graph_op_budget : option Z
}.
Context (self : PlanCore (Segment := Segment)) (request : TxnCommitRequest).
Abbreviation current := (pc_sources self).
Abbreviation snapshot := (tr_snapshot request).

Fixpoint segment_node_opinion (id : Z) (segs : list Segment) : res TargetOpinion :=
  match segs with
  | [] => Ok OpAbsent
  | seg :: segs =>
      match deleted_node_tombstones seg id with
      | Some seq => Ok (OpTombstone seq)
      | None =>
          node ← get_node seg id;
          match node with Some node => Ok (OpLive (nr_last_write_seq node)) | None => segment_node_opinion id segs end
      end
  end.
Definition node_id_opinion (id : Z) : res TargetOpinion :=
  match first_opinion (node_opinion_at id (snapshot_seq current)) (active current :: immutable current) with
  | Some o => Ok o
  | None => segment_node_opinion id (segments current)
  end.
Fixpoint segment_edge_opinion (id : Z) (segs : list Segment) : res TargetOpinion :=
  match segs with
  | [] => Ok OpAbsent
  | seg :: segs =>
      match deleted_edge_tombstones seg id with
      | Some seq => Ok (OpTombstone seq)
      | None =>
          edge ← get_edge seg id;
          match edge with Some edge => Ok (OpLive (er_last_write_seq edge)) | None => segment_edge_opinion id segs end
      end
  end.
Definition edge_id_opinion (id : Z) : res TargetOpinion :=
  match first_opinion (edge_opinion_at id (snapshot_seq current)) (active current :: immutable current) with
  | Some o => Ok o
  | None => segment_edge_opinion id (segments current)
  end.

(** ** Cached reads *)
Definition memo {K V} `{Countable K} (get : TxnPlanningCache -> gmap K V) (set : (gmap K V -> gmap K V) -> TxnPlanningCache -> TxnPlanningCache)
    (read : res V) (k : K) : Step V :=
  cache ← gets (fun p => get (px_cache p));
  match cache !! k with
  | Some v => mret v
  | None => v ← lift read; _ ← on_cache (set <[k := v]>); mret v
  end.
(** A batch of one id. *)
Definition only {V} (r : res (list (option V))) : res (option V) := found ← r; Ok (mjoin (last found)).
Definition cached_begin_node (id : Z) : Step (option NodeRecord) := memo ca_begin_nodes_by_id on_begin_nodes (only (find_nodes snapshot [id])) id.
Definition cached_begin_edge (id : Z) : Step (option EdgeRecord) := memo ca_begin_edges_by_id on_begin_edges (only (find_edges snapshot [id])) id.
Definition cached_begin_node_key (label_id : Z) (key : str) : Step (option NodeRecord) :=
  memo ca_begin_node_keys on_begin_keys (find_node_by_label_key snapshot label_id key) (label_id, key).
Definition cached_current_node_key (label_id : Z) (key : str) : Step (option NodeRecord) :=
  memo ca_current_node_keys on_current_keys (find_node_by_label_key current label_id key) (label_id, key).
Definition cached_begin_edge_triple (from to label_id : Z) : Step (option EdgeRecord) :=
  memo ca_begin_edge_triples on_begin_triples (find_edge_by_triple snapshot from to label_id) (from, to, label_id).
Definition cached_current_edge_triple (from to label_id : Z) : Step (option EdgeRecord) :=
  memo ca_current_edge_triples on_current_triples (find_edge_by_triple current from to label_id) (from, to, label_id).
Definition cached_current_edge (id : Z) : Step (option EdgeRecord) := memo ca_current_edges_by_id on_current_edges (only (find_edges current [id])) id.
Definition cached_node_id_opinion (id : Z) : Step TargetOpinion := memo ca_node_opinions_by_id on_node_opinions (node_id_opinion id) id.
Definition cached_edge_id_opinion (id : Z) : Step TargetOpinion := memo ca_edge_opinions_by_id on_edge_opinions (edge_id_opinion id) id.

(** ** What must not have changed *)
Definition newer_than (snapshot_seq : Z) (o : TargetOpinion) : bool :=
  match opinion_seq o with Some seq => snapshot_seq <? seq | None => false end.
Definition validate_node_id_conflict (id : Z) : Step () :=
  opinion ← cached_node_id_opinion id;
  if newer_than (tr_snapshot_seq request) opinion then fail (TxnConflict "node {} changed after transaction begin") else mret tt.
Definition validate_edge_id_conflict (id : Z) : Step () :=
  opinion ← cached_edge_id_opinion id;
  if newer_than (tr_snapshot_seq request) opinion then fail (TxnConflict "edge {} changed after transaction begin") else mret tt.
Definition validate_node_key_conflict (label_id : Z) (key : str) : Step () :=
  now ← cached_current_node_key label_id key;
  if match now with Some node => nr_last_write_seq node <=? tr_snapshot_seq request | None => false end then mret tt
  else
    begin ← cached_begin_node_key label_id key;
    match begin, now with
    | Some begin, Some node =>
        _ ← validate_node_id_conflict (nr_id begin);
        if nr_id begin =? nr_id node then mret tt
        else fail (TxnConflict "node key ({}, {}) changed after transaction begin")
    | Some begin, None =>
        _ ← validate_node_id_conflict (nr_id begin);
        fail (TxnConflict "node key ({}, {}) changed after transaction begin")
    | None, Some node =>
        if tr_snapshot_seq request <? nr_last_write_seq node
        then fail (TxnConflict "node key ({}, {}) appeared after transaction begin") else mret tt
    | None, None => mret tt
    end.
Definition validate_edge_triple_conflict (from to label_id : Z) : Step () :=
  now ← cached_current_edge_triple from to label_id;
  if match now with Some edge => er_last_write_seq edge <=? tr_snapshot_seq request | None => false end then mret tt
  else
    begin ← cached_begin_edge_triple from to label_id;
    match begin, now with
    | Some begin, Some edge =>
        _ ← validate_edge_id_conflict (er_id begin);
        if er_id begin =? er_id edge then mret tt
        else fail (TxnConflict "edge triple ({}, {}, {}) changed after transaction begin")
    | Some begin, None =>
        _ ← validate_edge_id_conflict (er_id begin);
        fail (TxnConflict "edge triple ({}, {}, {}) changed after transaction begin")
    | None, Some edge =>
        if tr_snapshot_seq request <? er_last_write_seq edge
        then fail (TxnConflict "edge triple ({}, {}, {}) appeared after transaction begin") else mret tt
    | None, None => mret tt
    end.
Fixpoint check_returned {R} (deleted : gset Z) (last_write_seq : R -> Z) (reads : list (Z * option R)) : res () :=
  match reads with
  | [] => Ok tt
  | (id, record) :: reads =>
      if bool_decide (id ∈ deleted) then Err (TxnConflict "{} was deleted before GQL mutation RETURN projection")
      else
        match record with
        | None => Err (TxnConflict "{} was deleted before GQL mutation RETURN projection")
        | Some r =>
            if tr_snapshot_seq request <? last_write_seq r then Err (TxnConflict "{} changed after transaction begin")
            else check_returned deleted last_write_seq reads
        end
  end.
Definition validate_gql_return_read_set (state : PlannedTxnState) : res () :=
  let node_ids := set_iter (rs_node_ids (tr_gql_return_read_set request)) in
  current_nodes ← find_nodes current node_ids;
  _ ← check_returned (ps_deleted_node_ids state) nr_last_write_seq (zip node_ids current_nodes);
  let edge_ids := set_iter (rs_edge_ids (tr_gql_return_read_set request)) in
  current_edges ← find_edges current edge_ids;
  check_returned (ps_deleted_edge_ids state) er_last_write_seq (zip edge_ids current_edges).

(** ** What a reference means *)
Section References.
Context (label_resolution : TxnLabelResolution).
Definition resolve_node_ref_optional (target : TxnNodeRef) : Step (option Z) :=
  state ← gets px_state;
  match target with
  | NodeId id => mret (Some id)
  | NodeLocal local =>
      match ps_local_node_ids state !! local with
      | Some id => mret (Some id)
      | None => fail (InvalidOperation "unknown transaction node local ref {:?}")
      end
  | NodeKey label key =>
      match node_label_id label_resolution label with
      | None => mret None
      | Some label_id =>
          match ps_nodes_by_key state !! (label_id, key) with
          | Some (id, _) => mret (Some id)
          | None =>
              if bool_decide ((label_id, key) ∈ ps_removed_node_keys state) then mret None
              else
                now ← cached_current_node_key label_id key;
                match now with
                | Some node => mret (Some (nr_id node))
                | None => begin ← cached_begin_node_key label_id key; mret (option_map nr_id begin)
                end
          end
      end
  end.
Definition resolve_node_ref_required (target : TxnNodeRef) : Step Z :=
  id ← resolve_node_ref_optional target;
  match id with
  | None => fail (InvalidOperation "transaction node ref {:?} does not resolve to an existing or staged node")
  | Some id =>
      state ← gets px_state;
      if bool_decide (id ∈ ps_deleted_node_ids state)
      then fail (InvalidOperation "transaction node ref {:?} resolves to a node deleted earlier in the transaction")
      else mret id
  end.
Definition resolve_edge_ref_optional (target : TxnEdgeRef) : Step (option Z) :=
  state ← gets px_state;
  match target with
  | EdgeId id => mret (Some id)
  | EdgeLocal local =>
      match ps_local_edge_ids state !! local with
      | Some id => mret (Some id)
      | None => fail (InvalidOperation "unknown transaction edge local ref {:?}")
      end
  | EdgeTriple from to label =>
      match edge_label_id label_resolution label with
      | None => mret None
      | Some label_id =>
          from_id ← resolve_node_ref_optional from;
          match from_id with
          | None => mret None
          | Some from_id =>
              to_id ← resolve_node_ref_optional to;
              match to_id with
              | None => mret None
              | Some to_id =>
                  match ps_edges_by_triple state !! (from_id, to_id, label_id) with
                  | Some (id, _) => mret (Some id)
                  | None =>
                      now ← cached_current_edge_triple from_id to_id label_id;
                      match now with
                      | Some edge => mret (Some (er_id edge))
                      | None => begin ← cached_begin_edge_triple from_id to_id label_id; mret (option_map er_id begin)
                      end
                  end
              end
          end
      end
  end.
End References.
End Reads.
