(* ===== verification/TxnPlan.v ===== *)
(** The plan of a transaction commit (src/engine/txn.rs, [plan_txn_commit]): the
    labels of the request get ids, the cache is filled in batches, the intents
    are planned in order over the state they build up, the record replacements
    in an order that frees keys before they are taken, and the records a query
    returns are checked last. *)
From S2P Require Import Prelude Types PropertyValue Slots Memtable MemtableReads Manifest LabelCatalog Vectors DegreeEngine FilterBase NodeFilter NodeQuery SourceList SourceKeys Adjacency GraphSearch WritePlan EndpointScan Txn.
Import SourceList.

(** ** Labels *)
(** Node labels and edge labels, each once and in order. *)
Abbreviation Names := ((list str * gset str) * (list str * gset str))%type.
Definition add_node_label (label : str) (names : Names) : Names := (push_distinct (fst names) label, snd names).
Definition add_edge_label (label : str) (names : Names) : Names := (fst names, push_distinct (snd names) label).
Definition no_names : Names := (([], ∅), ([], ∅)).
Fixpoint collect_write_labels (entries : list StagedTxnIntent) (names : Names) : res Names :=
  match entries with
  | [] => Ok names
  | entry :: entries =>
      match si_intent entry with
      | TxnUpsertNode _ labels key _ =>
          _ ← validate_node_key_for_write key;
          labels ← ValidatedNodeLabelList_new labels;
          collect_write_labels entries (foldl (fun names label => add_node_label label names) names labels)
      | TxnUpsertEdge _ _ _ label _ => collect_write_labels entries (add_edge_label label names)
      | _ => collect_write_labels entries names
      end
  end.
Fixpoint collect_replacement_labels (replacements : list TxnRecordReplacement) (names : Names) : res Names :=
  match replacements with
  | [] => Ok names
  | ReplaceNode node :: replacements =>
      _ ← validate_node_key_for_write (rn_key node);
      labels ← ValidatedNodeLabelList_new (rn_labels node);
      collect_replacement_labels replacements (foldl (fun names label => add_node_label label names) names labels)
  | ReplaceEdge _ :: replacements => collect_replacement_labels replacements names
  end.
Definition collect_txn_node_ref_read_label_names (target : TxnNodeRef) (names : Names) : Names :=
  match target with NodeKey label _ => add_node_label label names | _ => names end.
Definition collect_txn_edge_ref_read_label_names (target : TxnEdgeRef) (names : Names) : Names :=
  match target with
  | EdgeTriple from to label =>
      add_edge_label label (collect_txn_node_ref_read_label_names to (collect_txn_node_ref_read_label_names from names))
  | _ => names
  end.
Definition collect_txn_intent_read_label_names (names : Names) (entry : StagedTxnIntent) : Names :=
  match si_intent entry with
  | TxnUpsertNode _ _ _ _ => names
  | TxnUpsertEdge _ from to _ _ => collect_txn_node_ref_read_label_names to (collect_txn_node_ref_read_label_names from names)
  | TxnDeleteNode target => collect_txn_node_ref_read_label_names target names
  | TxnDeleteEdge target | TxnInvalidateEdge target _ => collect_txn_edge_ref_read_label_names target names
  end.
Definition collect_txn_replacement_read_label_names (names : Names) (replacement : TxnRecordReplacement) : Names :=
  match replacement with
  | ReplaceNode node => foldl (fun names label => add_node_label label names) names (rn_labels node)
  | ReplaceEdge edge => add_edge_label (re_label edge) names
  end.

(** Ids for the labels written, new where needed... *)
Fixpoint resolve_written (resolve : LabelResolutionPlan -> str -> res (Z * LabelResolutionPlan))
    (insert : str -> option Z -> TxnLabelResolution -> TxnLabelResolution) (labels : list str)
    (acc : TxnLabelResolution * LabelResolutionPlan) : res (TxnLabelResolution * LabelResolutionPlan) :=
  match labels with
  | [] => Ok acc
  | label :: labels =>
      '(label_id, label_plan) ← resolve (snd acc) label;
      resolve_written resolve insert labels (insert label (Some label_id) (fst acc), label_plan)
  end.
(** ... and for those only read, where they are known. *)
Fixpoint resolve_read (known : TxnLabelResolution -> str -> bool) (resolve : str -> res (option Z))
    (insert : str -> option Z -> TxnLabelResolution -> TxnLabelResolution) (labels : list str) (resolution : TxnLabelResolution)
  : res TxnLabelResolution :=
  match labels with
  | [] => Ok resolution
  | label :: labels =>
      if known resolution label then resolve_read known resolve insert labels resolution
      else
        label_id ← resolve label;
        resolve_read known resolve insert labels (insert label label_id resolution)
  end.

Section Plan.
Context {Segment : Type} `{SegmentReads Segment, SegmentKeys Segment, SegmentEndpoints Segment, SegmentTombstones Segment} `{HashOrder, UnstableSort}.
Context (self : PlanCore (Segment := Segment)) (request : TxnCommitRequest (Segment := Segment)).

Definition resolve_txn_label_names : res (TxnLabelResolution * list WalOp * bool) :=
  let catalog := pc_label_catalog self in
  names ← collect_write_labels (tr_entries request) no_names;
  '((write_node_labels, _), (write_edge_labels, _)) ← collect_replacement_labels (tr_record_replacements request) names;
  acc ← resolve_written resolve_node_label_for_write insert_node_label write_node_labels (mkResolution ∅ ∅, from_catalog catalog);
  '(resolution, label_plan) ← resolve_written resolve_edge_label_for_write insert_edge_label write_edge_labels acc;
  let names := foldl collect_txn_intent_read_label_names no_names (tr_entries request) in
  let '((read_node_labels, _), (read_edge_labels, _)) := foldl collect_txn_replacement_read_label_names names (tr_record_replacements request) in
  resolution ← resolve_read (fun r label => bool_decide (is_Some (tl_node_labels r !! label)))
                 (NodeQuery.resolve_node_label_for_read (label_to_id (cat_node catalog))) insert_node_label read_node_labels resolution;
  resolution ← resolve_read (fun r label => bool_decide (is_Some (tl_edge_labels r !! label)))
                 (resolve_edge_label_for_read (label_to_id (cat_edge catalog))) insert_edge_label read_edge_labels resolution;
  Ok (resolution, push_token_ops label_plan, 0 <? token_op_count label_plan).

(** ** Filling the cache *)
(** The keys, node ids and edge ids the request names. *)
Abbreviation Targets := (gset (Z * str) * gset Z * gset Z)%type.
Definition add_key (label_resolution : TxnLabelResolution) (key label : str) (targets : Targets) : Targets :=
  match node_label_id label_resolution label with
  | Some label_id => ({[(label_id, key)]} ∪ fst (fst targets), snd (fst targets), snd targets)
  | None => targets
  end.
Definition add_node_id (id : Z) (targets : Targets) : Targets := (fst (fst targets), {[id]} ∪ snd (fst targets), snd targets).
Definition add_edge_id (id : Z) (targets : Targets) : Targets := (fst targets, {[id]} ∪ snd targets).
Definition collect_txn_node_ref_cache_targets (label_resolution : TxnLabelResolution) (target : TxnNodeRef) (targets : Targets) : Targets :=
  match target with
  | NodeId id => add_node_id id targets
  | NodeKey label key => add_key label_resolution key label targets
  | NodeLocal _ => targets
  end.
Definition collect_txn_edge_ref_cache_targets (label_resolution : TxnLabelResolution) (target : TxnEdgeRef) (targets : Targets) : Targets :=
  match target with
  | EdgeId id => add_edge_id id targets
  | EdgeTriple from to _ =>
      collect_txn_node_ref_cache_targets label_resolution to (collect_txn_node_ref_cache_targets label_resolution from targets)
  | EdgeLocal _ => targets
  end.
Definition collect_txn_intent_cache_targets (label_resolution : TxnLabelResolution) (targets : Targets) (entry : StagedTxnIntent) : Targets :=
  match si_intent entry with
  | TxnUpsertNode _ labels key _ => foldl (fun targets label => add_key label_resolution key label targets) targets labels
  | TxnUpsertEdge _ from to _ _ =>
      collect_txn_node_ref_cache_targets label_resolution to (collect_txn_node_ref_cache_targets label_resolution from targets)
  | TxnDeleteNode target => collect_txn_node_ref_cache_targets label_resolution target targets
  | TxnDeleteEdge target | TxnInvalidateEdge target _ => collect_txn_edge_ref_cache_targets label_resolution target targets
  end.
Definition collect_txn_replacement_cache_targets (label_resolution : TxnLabelResolution) (targets : Targets) (replacement : TxnRecordReplacement)
  : Targets :=
  match replacement with
  | ReplaceNode node => foldl (fun targets label => add_key label_resolution (rn_key node) label targets) (add_node_id (rn_id node) targets) (rn_labels node)
  | ReplaceEdge edge => add_node_id (re_to edge) (add_node_id (re_from edge) (add_edge_id (re_id edge) targets))
  end.
Definition hash_set_iter {K} `{Countable K} (s : gset K) : list K := fst <$> hash_iter (gset_to_gmap tt s).
Definition remember {K V} `{Countable K} (reads : list (K * V)) (cache : gmap K V) : gmap K V := foldl (fun cache r => <[fst r := snd r]> cache) cache reads.
Definition build_txn_planning_cache (label_resolution : TxnLabelResolution) : res TxnPlanningCache :=
  let targets := foldl (collect_txn_intent_cache_targets label_resolution) (∅, ∅, ∅) (tr_entries request) in
  let '(node_keys, node_ids, edge_ids) :=
    foldl (collect_txn_replacement_cache_targets label_resolution) targets (tr_record_replacements request) in
  cache ← match hash_set_iter node_keys with
          | [] => Ok no_cache
          | node_keys =>
              begin_nodes ← find_nodes_by_label_keys (tr_snapshot request) node_keys;
              current_nodes ← find_nodes_by_label_keys (pc_sources self) node_keys;
              Ok (on_current_keys (remember (zip node_keys current_nodes)) (on_begin_keys (remember (zip node_keys begin_nodes)) no_cache))
          end;
  cache ← match hash_set_iter node_ids with
          | [] => Ok cache
          | node_ids =>
              begin_nodes ← find_nodes (tr_snapshot request) node_ids;
              opinions ← mapM (node_id_opinion self) node_ids;
              Ok (on_node_opinions (remember (zip node_ids opinions)) (on_begin_nodes (remember (zip node_ids begin_nodes)) cache))
          end;
  match hash_set_iter edge_ids with
  | [] => Ok cache
  | edge_ids =>
      begin_edges ← find_edges (tr_snapshot request) edge_ids;
      current_edges ← find_edges (pc_sources self) edge_ids;
      Ok (on_current_edges (remember (zip edge_ids current_edges)) (on_begin_edges (remember (zip edge_ids begin_edges)) cache))
  end.

(** ** Intents *)
Section Steps.
Context (now : Z) (label_resolution : TxnLabelResolution).

(** An id found for a node, its creation time and the record it had. *)
Abbreviation NodeWinner := (Z * Z * option NodeRecord)%type.
Definition node_candidate (key : str) (label_id : Z) : Step (option NodeWinner) :=
  state ← gets px_state;
  match ps_nodes_by_key state !! (label_id, key) with
  | Some (id, created_at) => mret (Some ((id, created_at), ps_node_records_by_id state !! id))
  | None =>
      if bool_decide ((label_id, key) ∈ ps_removed_node_keys state) then mret None
      else
        _ ← validate_node_key_conflict self request label_id key;
        found ← cached_current_node_key self label_id key;
        node ← match found with Some node => mret (Some node) | None => cached_begin_node_key request label_id key end;
        mret (option_map (fun node => ((nr_id node, nr_created_at node), Some node)) node)
  end.
Fixpoint node_winner (key : str) (label_ids : list Z) (winner : option NodeWinner) : Step (option NodeWinner) :=
  match label_ids with
  | [] => mret winner
  | label_id :: label_ids =>
      candidate ← node_candidate key label_id;
      match candidate, winner with
      | None, _ => node_winner key label_ids winner
      | Some ((id, _), _), Some ((winner_id, _), _) =>
          if bool_decide (winner_id ≠ id) then fail node_key_conflict_error else node_winner key label_ids winner
      | Some candidate, None => node_winner key label_ids (Some candidate)
      end
  end.
(** The keys a node gives up, and those it takes. *)
Definition free_keys (label_ids : NodeLabelSet) (key : str) (previous_labels : list Z) (s : PlannedTxnState) : PlannedTxnState :=
  foldl (fun s old_label_id =>
    if NodeLabels.contains label_ids old_label_id then s else on_keys (delete (old_label_id, key)) (union {[(old_label_id, key)]}) s) s previous_labels.
Definition claim_keys (m : Allocated) (key : str) (label_ids : list Z) (s : PlannedTxnState) : PlannedTxnState :=
  foldl (fun s label_id => on_keys <[(label_id, key) := m]> (fun removed => removed ∖ {[(label_id, key)]}) s) s label_ids.
Definition resolved_node_label (label : str) : res Z :=
  match node_label_id label_resolution label with
  | Some label_id => Ok label_id
  | None => Err (InvalidOperation "transaction node label '{}' was not resolved for commit")
  end.
Definition resolved_edge_label (label : str) : res Z :=
  match edge_label_id label_resolution label with
  | Some label_id => Ok label_id
  | None => Err (InvalidOperation "transaction edge label '{}' was not resolved for commit")
  end.
Definition resolve_label_set (labels : list str) : res NodeLabelSet :=
  labels ← ValidatedNodeLabelList_new labels;
  label_ids ← mapM resolved_node_label labels;
  NodeLabels.from_label_ids label_ids.
Definition note_local {K V} `{Countable K} (local : option K) (v : V) (m : gmap K V) : gmap K V :=
  match local with Some local => <[local := v]> m | None => m end.

Definition plan_txn_upsert_node (entry : StagedTxnIntent) (labels : list str) (key : str) (options : UpsertNodeOptions) : Step () :=
  _ ← lift (validate_node_key_for_write key);
  label_ids ← lift (resolve_label_set labels);
  winner ← node_winner key (NodeLabels.as_slice label_ids) None;
  existing ← match winner with
             | Some existing => mret existing
             | None => id ← take_node_id; mret ((id, now), None)
             end;
  let '((id, created_at), previous_record) := existing in
  state ← gets px_state;
  let previous_labels := match ps_node_records_by_id state !! id with
                         | Some node => Some (nr_label_ids node)
                         | None => option_map nr_label_ids previous_record
                         end in
  _ ← on_state (match previous_labels with
                | Some previous_labels => free_keys label_ids key (NodeLabels.as_slice previous_labels)
                | None => fun s => s
                end);
  _ ← on_state (claim_keys (id, created_at) key (NodeLabels.as_slice label_ids));
  _ ← on_state (on_deleted_nodes (fun deleted => deleted ∖ {[id]}));
  _ ← on_state (on_local_node_ids (note_local (si_produced_node entry) id));
  vectors ← lift (normalize_node_vectors_for_write (pc_dense_vector self) (no_dense_vector options) (no_sparse_vector options));
  let node := mkNodeRecord id label_ids key (no_props options) created_at now (no_weight options) (fst vectors) (snd vectors) 0 in
  _ ← on_state (on_node_records <[id := node]>);
  _ ← reserve_op;
  _ ← push_op (UpsertNode node);
  on_state (on_node_ids (fun ids => ids ++ [id])).

Definition fresh_edge : Step Allocated := id ← take_edge_id; mret (id, now).
Definition edge_allocation (from_id to_id label_id : Z) : Step Allocated :=
  if pc_edge_uniqueness self then
    state ← gets px_state;
    match ps_edges_by_triple state !! (from_id, to_id, label_id) with
    | Some m => mret m
    | None =>
        _ ← validate_edge_triple_conflict self request from_id to_id label_id;
        found ← cached_current_edge_triple self from_id to_id label_id;
        match found with Some edge => mret (er_id edge, er_created_at edge) | None => fresh_edge end
    end
  else
    _ ← validate_edge_triple_conflict self request from_id to_id label_id;
    fresh_edge.
Definition plan_txn_upsert_edge (entry : StagedTxnIntent) (from to : TxnNodeRef) (label : str) (options : UpsertEdgeOptions) : Step () :=
  label_id ← lift (resolved_edge_label label);
  from_id ← resolve_node_ref_required self request label_resolution from;
  to_id ← resolve_node_ref_required self request label_resolution to;
  _ ← validate_node_id_conflict self request from_id;
  _ ← validate_node_id_conflict self request to_id;
  let triple := (from_id, to_id, label_id) in
  m ← edge_allocation from_id to_id label_id;
  let id := fst m in
  _ ← on_state (on_triples <[triple := m]>);
  _ ← on_state (on_deleted_edges (fun deleted => deleted ∖ {[id]}));
  _ ← on_state (on_local_edge_ids (note_local (si_produced_edge entry) id));
  let edge := edge_record now m from_id to_id label_id (eo_props options) (eo_weight options) (eo_valid_from options) (eo_valid_to options) in
  _ ← on_state (on_edge_records <[id := triple]> <[id := edge]>);
  _ ← reserve_op;
  _ ← push_op (UpsertEdge edge);
  on_state (on_edge_ids (fun ids => ids ++ [id])).

(** Forgetting a planned edge. *)
Definition forget_edge (id : Z) (s : PlannedTxnState) : PlannedTxnState :=
  let triple := ps_edge_id_to_triple s !! id in
  let s := on_edge_records (delete id) (delete id) s in
  match triple with Some triple => remove_planned_edge_triple_if_current triple id s | None => s end.
(** [HashSet::insert] *)
Definition insert_deleted_edge (id : Z) : Step bool :=
  state ← gets px_state;
  _ ← on_state (on_deleted_edges (union {[id]}));
  mret (negb (bool_decide (id ∈ ps_deleted_edge_ids state))).
Definition delete_incident_edge (edge_id : Z) : Step () :=
  _ ← validate_edge_id_conflict self request edge_id;
  inserted ← insert_deleted_edge edge_id;
  if inserted : bool then
    _ ← reserve_op;
    push_op (DeleteEdge edge_id now)
  else mret tt.
Definition delete_planned_edge (edge_id : Z) : Step () :=
  inserted ← insert_deleted_edge edge_id;
  if inserted : bool then
    _ ← reserve_op;
    _ ← on_state (forget_edge edge_id);
    push_op (DeleteEdge edge_id now)
  else mret tt.
(** A scan panics never, and its fuel is enough: [None] does not happen. *)
Definition incident_scan (sl : SourceList (Segment := Segment)) (id limit : Z) : Step (list Z) :=
  match edge_ids_by_endpoints_limited sl [id] Both None limit with
  | Some found => lift found
  | None => fail (InvalidOperation "out of fuel")
  end.
Definition reject_filled (returned limit : Z) : Step () :=
  graph_ops ← gets px_graph_ops; lift (reject_if_limited_scan_filled returned limit graph_ops).
Definition plan_txn_delete_node (target : TxnNodeRef) : Step () :=
  resolved ← resolve_node_ref_optional self request label_resolution target;
  match resolved with
  | None => mret tt
  | Some id =>
      _ ← validate_node_id_conflict self request id;
      _ ← reserve_op;
      incident_scan_limit ← gets (fun p => limited_scan_len (Z.of_nat (size (ps_deleted_edge_ids (px_state p)))) (px_graph_ops p));
      snapshot_incident ← incident_scan (tr_snapshot request) id incident_scan_limit;
      _ ← reject_filled (len snapshot_incident) incident_scan_limit;
      _ ← for_each (validate_edge_id_conflict self request) snapshot_incident;
      incident ← incident_scan (pc_sources self) id incident_scan_limit;
      _ ← reject_filled (len incident) incident_scan_limit;
      _ ← for_each delete_incident_edge incident;
      state ← gets px_state;
      let planned_incident := (fun e => er_id (snd e)) <$>
        base.filter (fun e => (er_from (snd e) =? id) || (er_to (snd e) =? id) = true) (hash_iter (ps_edge_records_by_id state)) in
      _ ← for_each delete_planned_edge planned_incident;
      _ ← on_state (on_deleted_nodes (union {[id]}));
      push_op (DeleteNode id now)
  end.
Definition plan_txn_delete_edge (target : TxnEdgeRef) : Step () :=
  resolved ← resolve_edge_ref_optional self request label_resolution target;
  match resolved with
  | None => mret tt
  | Some id =>
      _ ← validate_edge_id_conflict self request id;
      delete_planned_edge id
  end.
Definition write_invalidated (id : Z) (updated : EdgeRecord) : Step () :=
  _ ← on_state (on_edge_records <[id := (er_from updated, er_to updated, er_label_id updated)]> <[id := updated]>);
  _ ← reserve_op;
  push_op (UpsertEdge updated).
Definition plan_txn_invalidate_edge (target : TxnEdgeRef) (valid_to : Z) : Step () :=
  resolved ← resolve_edge_ref_optional self request label_resolution target;
  match resolved with
  | None => mret tt
  | Some id =>
      state ← gets px_state;
      if bool_decide (id ∈ ps_deleted_edge_ids state) then mret tt
      else
        match ps_edge_records_by_id state !! id with
        | Some edge =>
            let updated := with_valid_to edge now valid_to in
            _ ← on_state (set_planned_edge_triple_if_current_or_absent (er_from updated, er_to updated, er_label_id updated) id (er_created_at updated));
            write_invalidated id updated
        | None =>
            _ ← validate_edge_id_conflict self request id;
            found ← cached_current_edge self id;
            match found with
            | None => mret tt
            | Some edge =>
                let updated := with_valid_to edge now valid_to in
                current_triple ← cached_current_edge_triple self (er_from updated) (er_to updated) (er_label_id updated);
                _ ← (if match current_triple with Some edge => er_id edge =? id | None => true end
                     then on_state (on_triples <[(er_from updated, er_to updated, er_label_id updated) := (id, er_created_at updated)]>)
                     else mret tt);
                write_invalidated id updated
            end
        end
  end.
Definition plan_txn_intent (entry : StagedTxnIntent) : Step () :=
  match si_intent entry with
  | TxnUpsertNode _ labels key options => plan_txn_upsert_node entry labels key options
  | TxnUpsertEdge _ from to label options => plan_txn_upsert_edge entry from to label options
  | TxnDeleteNode target => plan_txn_delete_node target
  | TxnDeleteEdge target => plan_txn_delete_edge target
  | TxnInvalidateEdge target valid_to => plan_txn_invalidate_edge target valid_to
  end.

(** ** Record replacements *)
(** [resolve_txn_node_replacement_label_ids] *)
Definition replacement_label_ids (replacement : TxnNodeRecordReplacement) : res NodeLabelSet := resolve_label_set (rn_labels replacement).
Definition begin_node (id : Z) : Step NodeRecord :=
  found ← cached_begin_node request id;
  match found with
  | Some node => mret node
  | None => fail (InvalidOperation "transaction node {} does not exist in the transaction snapshot")
  end.
(** The node as it was, and that the replacement may stand for it. *)
Definition replaceable_node (replacement : TxnNodeRecordReplacement) : Step NodeRecord :=
  state ← gets px_state;
  if bool_decide (rn_id replacement ∈ ps_deleted_node_ids state)
  then fail (InvalidOperation "transaction node {} was deleted earlier in the transaction")
  else
    begin ← begin_node (rn_id replacement);
    _ ← validate_node_id_conflict self request (rn_id replacement);
    if negb (bool_decide (nr_key begin = rn_key replacement)) then fail (InvalidOperation "transaction node {} replacement cannot change key")
    else if negb (nr_created_at begin =? rn_created_at replacement)
    then fail (InvalidOperation "transaction node {} replacement cannot change created_at")
    else mret begin.
Definition previous_labels_of (begin : NodeRecord) (id : Z) (s : PlannedTxnState) : NodeLabelSet :=
  match ps_node_records_by_id s !! id with Some node => nr_label_ids node | None => nr_label_ids begin end.
Definition free_own_keys (replacement : TxnNodeRecordReplacement) (label_ids : NodeLabelSet) (previous_labels : list Z) (s : PlannedTxnState) : PlannedTxnState :=
  foldl (fun s old_label_id =>
    if NodeLabels.contains label_ids old_label_id then s
    else
      let key_tuple := (old_label_id, rn_key replacement) in
      let mine := match ps_nodes_by_key s !! key_tuple with Some (id, _) => id =? rn_id replacement | None => false end in
      on_keys (if mine then delete key_tuple else fun keys => keys) (union {[key_tuple]}) s) s previous_labels.

(** Who has each key in the end. *)
Fixpoint own_keys_in_end (id : Z) (key : str) (label_ids : list Z) (owners : gmap (Z * str) Z) : res (gmap (Z * str) Z) :=
  match label_ids with
  | [] => Ok owners
  | label_id :: label_ids =>
      if match owners !! (label_id, key) with Some other_id => negb (other_id =? id) | None => false end then Err node_key_conflict_error
      else own_keys_in_end id key label_ids (<[(label_id, key) := id]> owners)
  end.
Fixpoint final_node_key_owners (replacements : list TxnRecordReplacement) (owners : gmap (Z * str) Z) : Step (gmap (Z * str) Z) :=
  match replacements with
  | [] => mret owners
  | ReplaceEdge _ :: replacements => final_node_key_owners replacements owners
  | ReplaceNode replacement :: replacements =>
      begin ← replaceable_node replacement;
      label_ids ← lift (replacement_label_ids replacement);
      state ← gets px_state;
      let previous_labels := previous_labels_of begin (rn_id replacement) state in
      _ ← on_state (free_own_keys replacement label_ids (NodeLabels.as_slice previous_labels));
      owners ← lift (own_keys_in_end (rn_id replacement) (rn_key replacement) (NodeLabels.as_slice label_ids) owners);
      final_node_key_owners replacements owners
  end.
(** A key the replacement takes must be free or its own. *)
Definition check_key_free (label_id : Z) (key : str) (id : Z) : Step () :=
  state ← gets px_state;
  match ps_nodes_by_key state !! (label_id, key) with
  | Some (other_id, _) => if negb (other_id =? id) then fail node_key_conflict_error else mret tt
  | None =>
      if bool_decide ((label_id, key) ∈ ps_removed_node_keys state) then mret tt
      else
        _ ← validate_node_key_conflict self request label_id key;
        found ← cached_current_node_key self label_id key;
        match found with
        | Some node => if negb (nr_id node =? id) then fail node_key_conflict_error else mret tt
        | None => mret tt
        end
  end.
Definition prepare_txn_node_replacement_key_state : Step () :=
  owners ← final_node_key_owners (tr_record_replacements request) ∅;
  for_each (fun '((label_id, key), id) => check_key_free label_id key id) (hash_iter owners).

(** The keys each replacement adds, and who frees each key. *)
Fixpoint key_changes (idx : nat) (replacements : list TxnRecordReplacement) (added_keys : list (gset (Z * str))) (key_removers : gmap (Z * str) (list nat))
  : Step (list (gset (Z * str)) * gmap (Z * str) (list nat)) :=
  match replacements with
  | [] => mret (added_keys, key_removers)
  | ReplaceEdge _ :: replacements => key_changes (S idx) replacements (added_keys ++ [∅]) key_removers
  | ReplaceNode replacement :: replacements =>
      begin ← begin_node (rn_id replacement);
      label_ids ← lift (replacement_label_ids replacement);
      state ← gets px_state;
      let previous_labels := previous_labels_of begin (rn_id replacement) state in
      let key_removers := foldl (fun key_removers old_label_id =>
        if NodeLabels.contains label_ids old_label_id then key_removers
        else <[(old_label_id, rn_key replacement) := default [] (key_removers !! (old_label_id, rn_key replacement)) ++ [idx]]> key_removers)
        key_removers (NodeLabels.as_slice previous_labels) in
      let added := foldl (fun added new_label_id =>
        if NodeLabels.contains previous_labels new_label_id then added else {[(new_label_id, rn_key replacement)]} ∪ added) ∅ (NodeLabels.as_slice label_ids) in
      key_changes (S idx) replacements (added_keys ++ [added]) key_removers
  end.
Definition prerequisites_of (key_removers : gmap (Z * str) (list nat)) (added_idx : nat) (keys : gset (Z * str)) : gset nat :=
  foldl (fun prerequisites key =>
    foldl (fun prerequisites removed_idx => if bool_decide (removed_idx ≠ added_idx) then {[removed_idx]} ∪ prerequisites else prerequisites)
      prerequisites (default [] (key_removers !! key))) ∅ (hash_set_iter keys).
(** The first replacement left whose prerequisites are emitted, time after
    time. *)
Fixpoint emit_in_order (fuel : nat) (prerequisites : list (gset nat)) (order : list nat) : res (list nat) :=
  if (length prerequisites <=? length order)%nat then Ok order
  else
    match fuel with
    | O => Err (InvalidOperation "out of fuel")
    | S fuel =>
        match base.filter (fun idx => idx ∉ order /\ set_Forall (fun dependency => dependency ∈ order) (default ∅ (prerequisites !! idx)))
                (seq 0 (length prerequisites)) with
        | idx :: _ => emit_in_order fuel prerequisites (order ++ [idx])
        | [] => Err (InvalidOperation "cyclic node label/key replacements cannot be planned safely in one transaction")
        end
    end.
Definition txn_replacement_planning_order : Step (list nat) :=
  '(added_keys, key_removers) ← key_changes 0 (tr_record_replacements request) [] ∅;
  let prerequisites := imap (prerequisites_of key_removers) added_keys in
  lift (emit_in_order (length prerequisites) prerequisites []).

Definition plan_txn_node_record_replacement (replacement : TxnNodeRecordReplacement) : Step () :=
  begin ← replaceable_node replacement;
  label_ids ← lift (replacement_label_ids replacement);
  state ← gets px_state;
  let id := rn_id replacement in
  let previous_labels := previous_labels_of begin id state in
  _ ← on_state (free_own_keys replacement label_ids (NodeLabels.as_slice previous_labels));
  _ ← for_each (fun label_id =>
        _ ← check_key_free label_id (rn_key replacement) id;
        on_state (claim_keys (id, rn_created_at replacement) (rn_key replacement) [label_id])) (NodeLabels.as_slice label_ids);
  vectors ← lift (normalize_node_vectors_for_write (pc_dense_vector self) (rn_dense_vector replacement) (rn_sparse_vector replacement));
  let node := mkNodeRecord id label_ids (rn_key replacement) (rn_props replacement) (rn_created_at replacement) now (rn_weight replacement)
                (fst vectors) (snd vectors) 0 in
  _ ← on_state (on_deleted_nodes (fun deleted => deleted ∖ {[id]}));
  _ ← on_state (on_node_records <[id := node]>);
  _ ← reserve_op;
  _ ← push_op (UpsertNode node);
  on_state (on_node_ids (fun ids => ids ++ [id])).
Definition plan_txn_edge_record_replacement (replacement : TxnEdgeRecordReplacement) : Step () :=
  let id := re_id replacement in
  if re_valid_to replacement <=? re_valid_from replacement
  then fail (InvalidOperation "transaction edge replacement requires valid_from < valid_to")
  else
    state ← gets px_state;
    if bool_decide (id ∈ ps_deleted_edge_ids state) then fail (InvalidOperation "transaction edge {} was deleted earlier in the transaction")
    else
      found ← cached_begin_edge request id;
      match found with
      | None => fail (InvalidOperation "transaction edge {} does not exist in the transaction snapshot")
      | Some begin =>
          _ ← validate_edge_id_conflict self request id;
          label_id ← lift (resolved_edge_label (re_label replacement));
          let triple := (re_from replacement, re_to replacement, label_id) in
          if negb (er_from begin =? re_from replacement) || negb (er_to begin =? re_to replacement) || negb (er_label_id begin =? label_id)
          then fail (InvalidOperation "transaction edge {} replacement cannot change endpoints or label")
          else if negb (er_created_at begin =? re_created_at replacement)
          then fail (InvalidOperation "transaction edge {} replacement cannot change created_at")
          else
            _ ← validate_node_id_conflict self request (re_from replacement);
            _ ← validate_node_id_conflict self request (re_to replacement);
            state ← gets px_state;
            if match ps_edges_by_triple state !! triple with Some (other_id, _) => pc_edge_uniqueness self && negb (other_id =? id) | None => false end
            then fail (InvalidOperation "edge triple ({}, {}, {}) conflicts with staged edge {}")
            else
              _ ← on_state (set_planned_edge_triple_if_current_or_absent triple id (re_created_at replacement));
              _ ← on_state (on_deleted_edges (fun deleted => deleted ∖ {[id]}));
              let edge := mkEdgeRecord id (re_from replacement) (re_to replacement) label_id (re_props replacement) (re_created_at replacement) now
                            (re_weight replacement) (re_valid_from replacement) (re_valid_to replacement) 0 in
              _ ← on_state (on_edge_records <[id := triple]> <[id := edge]>);
              _ ← reserve_op;
              _ ← push_op (UpsertEdge edge);
              on_state (on_edge_ids (fun ids => ids ++ [id]))
      end.
(** The planning order lists places of the request. *)
Definition plan_txn_record_replacement (replacement_index : nat) : Step () :=
  match tr_record_replacements request !! replacement_index with
  | Some (ReplaceNode node) => plan_txn_node_record_replacement node
  | Some (ReplaceEdge edge) => plan_txn_edge_record_replacement edge
  | None => mret tt
  end.

(** ** The plan *)
Definition plan_txn_steps : Step () :=
  _ ← for_each plan_txn_intent (tr_entries request);
  _ ← prepare_txn_node_replacement_key_state;
  replacement_order ← txn_replacement_planning_order;
  _ ← for_each plan_txn_record_replacement replacement_order;
  state ← gets px_state;
  lift (validate_gql_return_read_set self request state).
End Steps.

Record TxnCommitResult : Type := mkCommitResult {
  tc_node_ids : list Z;
  tc_edge_ids : list Z;
  tc_local_node_ids : gmap TxnLocalRef Z;
  tc_local_edge_ids : gmap TxnLocalRef Z
}.
(** The plan, and the core with its counters moved; a failed plan leaves them. *)
Definition plan_txn_commit (now : Z) : res (PlanCore * (list WalOp * TxnCommitResult * bool)) :=
  '(label_resolution, ops, label_catalog_changed) ← resolve_txn_label_names;
  cache ← build_txn_planning_cache label_resolution;
  let start := mkPlanning no_plan cache (pc_next_node_id self) (pc_next_edge_id self) (mkCounter (tr_graph_op_budget request) 0) ops in
  '(_, p) ← plan_txn_steps now label_resolution start;
  let state := px_state p in
  Ok (set_next_node_id (px_next_node_id p) (set_next_edge_id (px_next_edge_id p) self),
      (px_ops p, mkCommitResult (ps_node_ids state) (ps_edge_ids state) (ps_local_node_ids state) (ps_local_edge_ids state), label_catalog_changed)).
End Plan.
