(* ===== verification/TxnFacts.v ===== *)
(** First committer wins: a transaction plan that succeeds writes only records
    that were not written since the transaction began, or that it creates. *)
From S2P Require Import Prelude Types PropertyValue Slots Memtable MemtableCells MemtableFacts MemtableReads MemtableSnapshots MemtableNeighbors MemtableKeys Manifest LabelCatalog Vectors DegreeEngine FilterBase NodeFilter NodeQuery NodeQueryFacts SourceList SourceListFacts SourceKeys SourceKeysFacts Adjacency AdjacencyFacts GraphSearch WritePlan EndpointScan EndpointFacts Txn TxnPlan.
Import SourceList.

(** ** Steps that succeed *)
Definition wp {A} (m : Step A) (Q : A -> Planning -> Prop) (p : Planning) : Prop :=
  match m p with Ok (a, p') => Q a p' | Err _ => True end.
Lemma wp_ret {A} (a : A) (Q : A -> Planning -> Prop) p : Q a p -> wp (mret a) Q p.
Proof. done. Qed.
Lemma wp_bind {A B} (m : Step A) (f : A -> Step B) Q p : wp m (fun a => wp (f a) Q) p -> wp (m ≫= f) Q p.
Proof. unfold wp at 1 3. change ((m ≫= f) p) with (match m p with Ok (a, p) => f a p | Err e => Err e end). by destruct (m p) as [[a p']|]. Qed.
Lemma wp_mono {A} (m : Step A) (Q Q' : A -> Planning -> Prop) p : wp m Q p -> (forall a p', Q a p' -> Q' a p') -> wp m Q' p.
Proof. unfold wp. destruct (m p) as [[a p']|]; [|done]. intros HQ Hi. by apply Hi. Qed.
Lemma wp_lift {A} (r : res A) (Q : A -> Planning -> Prop) p : (forall a, r = Ok a -> Q a p) -> wp (lift r) Q p.
Proof. unfold wp, lift. destruct r; [|done]. intros HQ. by apply HQ. Qed.
Lemma wp_for_each {A} (body : A -> Step ()) (l : list A) (I : list A -> Planning -> Prop) p :
  (forall done x rest p, l = done ++ x :: rest -> I done p -> wp (body x) (fun _ => I (done ++ [x])) p) -> I [] p -> wp (for_each body l) (fun _ => I l) p.
Proof.
  intros Hstep. assert (forall rest done p, l = done ++ rest -> I done p -> wp (for_each body rest) (fun _ => I l) p) as Hall; [|intros HI; by apply (Hall l [])].
  induction rest as [|x rest IH]; intros done' p' El HI; cbn [for_each].
  - rewrite app_nil_r in El. by rewrite El.
  - apply wp_bind. eapply wp_mono; [by apply (Hstep done' x rest)|]. cbn beta. intros _ p'' HI'. apply (IH (done' ++ [x])); [by rewrite <- app_assoc|done].
Qed.
Lemma wp_each {A} (body : A -> Step ()) (l : list A) (I : Planning -> Prop) p :
  (forall x p, x ∈ l -> I p -> wp (body x) (fun _ => I) p) -> I p -> wp (for_each body l) (fun _ => I) p.
Proof.
  intros Hstep HI. apply (wp_for_each body l (fun _ => I)); [|done]. intros before x rest p' -> HI'. apply Hstep; [set_solver|done].
Qed.

(** ** The newest version of an id *)
Class SegmentTombstoneLaws {Segment : Type} `{SegmentReads Segment, SegmentTombstones Segment} : Prop := {
  node_tombstones_law seg id : is_Some (deleted_node_tombstones seg id) <-> is_node_deleted seg id = true;
  edge_tombstones_law seg id : is_Some (deleted_edge_tombstones seg id) <-> is_edge_deleted seg id = true
}.
Section Versions.
Context {R : Type} (seq_of : R -> Z).
Definition state_seq (o : RecordState R) : Z := match o with Live r => seq_of r | Tombstone t => ts_last_write_seq t end.
Context {Segment : Type} (slots : MemtableState -> gmap Z (VersionedSlot (RecordState R))) (tombstone : Segment -> Z -> option Z) (held : Segment -> Z -> option R).
Definition segment_seq (seg : Segment) (id : Z) : option Z := match tombstone seg id with Some seq => Some seq | None => seq_of <$> held seg id end.
(** The sequence number of the newest version of an id; [None]: there is none. *)
Definition version (sl : SourceList (Segment := Segment)) : Z -> option Z :=
  layers_say (((fun st id => state_seq <$> state_at (slots st) (snapshot_seq sl) id) <$> (active sl :: immutable sl)) ++ (segment_seq <$> segments sl)).
Context (is_deleted : Segment -> Z -> bool).
Hypothesis Htomb : forall seg id, is_Some (tombstone seg id) <-> is_deleted seg id = true.
Lemma layers_version (fs : list (Z -> option (option R))) (gs : list (Z -> option Z)) id r :
  Forall2 (fun f g => f id = None <-> g id = None) fs gs -> Forall2 (fun f g => forall r, f id = Some (Some r) -> g id = Some (seq_of r)) fs gs ->
  default None (layers_say fs id) = Some r -> layers_say gs id = Some (seq_of r).
Proof.
  intros Hn. induction Hn as [|f g fs gs Hfg Hn IH]; [done|]. intros [Hs Hss]%Forall2_cons.
  change (layers_say (?f :: ?fs) id) with (first f (layers_say fs) id). unfold first.
  destruct (f id) as [[r'|]|] eqn:Ef; cbn.
  - intros [= ->]. by rewrite (Hs r).
  - done.
  - rewrite (proj1 Hfg eq_refl). by apply IH.
Qed.
Lemma shown_version sl id r : shown slots is_deleted held sl id = Some r -> version sl id = Some (seq_of r).
Proof.
  apply layers_version; unfold layers, version.
  - apply Forall2_app; apply Forall2_fmap, Forall_Forall2_diag, Forall_forall.
    + intros st _. unfold state_says. destruct (state_at _ _ id) as [[]|]; cbn; naive_solver.
    + intros seg _. unfold segment_says, segment_seq. specialize (Htomb seg id). destruct (tombstone seg id) as [t|].
      * rewrite (proj1 Htomb) by by eexists. naive_solver.
      * destruct (is_deleted seg id); [by destruct (proj2 Htomb eq_refl)|]. destruct (held seg id); cbn; naive_solver.
  - apply Forall2_app; apply Forall2_fmap, Forall_Forall2_diag, Forall_forall.
    + intros st _ r'. unfold state_says. destruct (state_at _ _ id) as [[]|]; cbn; naive_solver.
    + intros seg _ r'. unfold segment_says, segment_seq. specialize (Htomb seg id). destruct (tombstone seg id) as [t|].
      * rewrite (proj1 Htomb) by by eexists. naive_solver.
      * destruct (is_deleted seg id); [by destruct (proj2 Htomb eq_refl)|]. destruct (held seg id); cbn; naive_solver.
Qed.
End Versions.

Section Commit.
Context {Segment : Type} `{SegmentReads Segment, SegmentKeys Segment, SegmentAdjacency Segment, SegmentEndpoints Segment, SegmentTombstones Segment} `{RmpValue, HashOrderLaws, UnstableSort}.
Context (node_in : Segment -> Z -> option NodeRecord) (edge_in : Segment -> Z -> option EdgeRecord) (key_in : Segment -> Z -> str -> option Z) (triple_in : Segment -> Z * Z * Z -> option EdgeRecord).
Context `{!SegmentLaws node_in edge_in, !SegmentKeyLaws node_in edge_in key_in triple_in, !SegmentAdjacencyLaws edge_in, !SegmentEndpointLaws edge_in, !SegmentTombstoneLaws}.
Context (self : PlanCore (Segment := Segment)) (request : TxnCommitRequest (Segment := Segment)) (now : Z).
Abbreviation current := (pc_sources self).
Abbreviation snapshot := (tr_snapshot request).
Abbreviation shown_node := (shown ms_nodes is_node_deleted node_in).
Abbreviation shown_edge := (shown ms_edges is_edge_deleted edge_in).
Abbreviation node_version := (version nr_last_write_seq ms_nodes deleted_node_tombstones node_in current).
Abbreviation edge_version := (version er_last_write_seq ms_edges deleted_edge_tombstones edge_in current).

(** The opinions are the newest versions. *)
Lemma first_opinion_says {R} (seq_of : R -> Z) (slots : MemtableState -> gmap Z (VersionedSlot (RecordState R))) s id says (sts : list MemtableState) :
  (forall st, opinion_seq <$> says st = Some <$> (state_seq seq_of <$> state_at (slots st) s id)) ->
  opinion_seq <$> first_opinion says sts = Some <$> layers_say ((fun st id => state_seq seq_of <$> state_at (slots st) s id) <$> sts) id.
Proof.
  intros Hsays. induction sts as [|st sts IH]; [done|]. cbn [first_opinion]. rewrite fmap_cons. change (layers_say (?f :: ?fs) id) with (first f (layers_say fs) id).
  unfold first. specialize (Hsays st). destruct (says st) as [o|]; cbn in Hsays; destruct (state_seq seq_of <$> state_at (slots st) s id); try done.
Qed.
Lemma opinion_version {R} (seq_of : R -> Z) (slots : MemtableState -> gmap Z (VersionedSlot (RecordState R))) tombstone (held : Segment -> Z -> option R) says (from_segments : res TargetOpinion) id o :
  (forall st, opinion_seq <$> says st = Some <$> (state_seq seq_of <$> state_at (slots st) (snapshot_seq current) id)) ->
  (from_segments = Ok o -> opinion_seq o = layers_say (segment_seq seq_of tombstone held <$> segments current) id) ->
  match first_opinion says (active current :: immutable current) with Some o => Ok o | None => from_segments end = Ok o ->
  opinion_seq o = version seq_of slots tombstone held current id.
Proof.
  intros Hsays Hsegs. unfold version. rewrite layers_say_app. unfold first.
  pose proof (first_opinion_says seq_of slots (snapshot_seq current) id says (active current :: immutable current) Hsays) as Hf.
  set (v := layers_say (_ <$> active current :: _) id) in *. destruct (first_opinion _ _) as [o'|], v as [z|]; try done.
  apply (inj Some) in Hf. by intros [= <-].
Qed.
Lemma node_opinion_version id o : node_id_opinion self id = Ok o -> opinion_seq o = node_version id.
Proof.
  apply opinion_version.
  - intros st. unfold node_opinion_at, node_at, node_tombstone_at, state_at. destruct (ms_nodes st !! id) as [slot|]; [|done]. cbn. by destruct (record_at slot _) as [[]|].
  - induction (segments current) as [|seg segs IH]; cbn [segment_node_opinion]; [by intros [= <-]|].
    rewrite fmap_cons. change (layers_say (?f :: ?fs) id) with (first f (layers_say fs) id). unfold first, segment_seq at 1.
    destruct (deleted_node_tombstones seg id) as [t|]; [by intros [= <-]|]. intros (node & En & E)%bind_Ok_inv. apply (get_node_law (node_in := node_in) (edge_in := edge_in)) in En as <-.
    destruct node as [node|]; cbn; [by apply Ok_inj in E as <-|by apply IH].
Qed.
Lemma edge_opinion_version id o : edge_id_opinion self id = Ok o -> opinion_seq o = edge_version id.
Proof.
  apply opinion_version.
  - intros st. unfold edge_opinion_at, edge_at, edge_tombstone_at, state_at. destruct (ms_edges st !! id) as [slot|]; [|done]. cbn. by destruct (record_at slot _) as [[]|].
  - induction (segments current) as [|seg segs IH]; cbn [segment_edge_opinion]; [by intros [= <-]|].
    rewrite fmap_cons. change (layers_say (?f :: ?fs) id) with (first f (layers_say fs) id). unfold first, segment_seq at 1.
    destruct (deleted_edge_tombstones seg id) as [t|]; [by intros [= <-]|]. intros (edge & En & E)%bind_Ok_inv. apply (get_edge_law (node_in := node_in) (edge_in := edge_in)) in En as <-.
    destruct edge as [edge|]; cbn; [by apply Ok_inj in E as <-|by apply IH].
Qed.

(** ** What the plan may rely on *)
Hypothesis Hnodes : node_indexed node_in current.
Hypothesis Hedges : pc_edge_uniqueness self = true -> edge_indexed edge_in current.
Hypothesis Hcurrent : layered edge_in current.
Hypothesis Hbegin : layered edge_in snapshot.
(** Edge ids in use are below the counter. *)
Hypothesis Hfresh : forall e r, shown_edge current e = Some r -> e < pc_next_edge_id self.
(** No scan fills memory. *)
Hypothesis Hsize : forall (sl : SourceList) ids, sl = current \/ sl = snapshot -> NoDup ids -> (forall e, e ∈ ids -> is_Some (shown_edge sl e)) -> len ids < NodeQuery.usize_max.

(** Not written since the transaction began; or new. *)
Definition unchanged (v : option Z) : Prop := match v with Some seq => seq <= tr_snapshot_seq request | None => True end.
Definition clean_node (id : Z) : Prop := pc_next_node_id self <= id \/ unchanged (node_version id).
Definition clean_edge (id : Z) : Prop := pc_next_edge_id self <= id \/ unchanged (edge_version id).

(** What the cache holds is what the current view says. *)
Record cache_ok (c : TxnPlanningCache) : Prop := {
  co_node_opinions id o : ca_node_opinions_by_id c !! id = Some o -> node_id_opinion self id = Ok o;
  co_edge_opinions id o : ca_edge_opinions_by_id c !! id = Some o -> edge_id_opinion self id = Ok o;
  co_keys l k o : ca_current_node_keys c !! (l, k) = Some o -> names node_in current (fun r => r) l k o;
  co_triples f t l o : pc_edge_uniqueness self = true -> ca_current_edge_triples c !! (f, t, l) = Some o -> means edge_in current (f, t, l) o;
  co_edges id o : ca_current_edges_by_id c !! id = Some o -> o = shown_edge current id
}.
Definition set_cache (c : TxnPlanningCache) (p : Planning) : Planning :=
  mkPlanning (px_state p) c (px_next_node_id p) (px_next_edge_id p) (px_graph_ops p) (px_ops p).
(** A step that only reads, through the cache. *)
Definition quiet {A} (m : Step A) (Q : A -> Prop) (p : Planning) : Prop :=
  cache_ok (px_cache p) -> wp m (fun a p' => Q a /\ exists c, cache_ok c /\ p' = set_cache c p) p.
Lemma set_cache_id p : p = set_cache (px_cache p) p.
Proof. by destruct p. Qed.
Lemma quiet_ret {A} (a : A) (Q : A -> Prop) p : Q a -> quiet (mret a) Q p.
Proof. intros HQ Hc. split; [done|]. exists (px_cache p). split; [done|apply set_cache_id]. Qed.
Lemma quiet_fail {A} e (Q : A -> Prop) p : quiet (fail e) Q p.
Proof. done. Qed.
Lemma quiet_lift {A} (r : res A) (Q : A -> Prop) p : (forall a, r = Ok a -> Q a) -> quiet (lift r) Q p.
Proof. intros HQ Hc. apply wp_lift. intros a Ha%HQ. split; [done|]. exists (px_cache p). split; [done|apply set_cache_id]. Qed.
Lemma quiet_gets {A} (f : Planning -> A) (Q : A -> Prop) p : Q (f p) -> quiet (gets f) Q p.
Proof. intros HQ Hc. split; [done|]. exists (px_cache p). split; [done|apply set_cache_id]. Qed.
Lemma quiet_bind {A B} (m : Step A) (f : A -> Step B) (Q : A -> Prop) (R : B -> Prop) p :
  quiet m Q p -> (forall a c, Q a -> quiet (f a) R (set_cache c p)) -> quiet (m ≫= f) R p.
Proof.
  intros Hm Hf Hc. apply wp_bind. eapply wp_mono; [by apply Hm|]. cbn beta. intros a p' [HQ (c & Hc' & ->)].
  eapply wp_mono; [by apply Hf|]. cbn beta. intros b p'' [HR (c' & Hc'' & ->)]. split; [done|]. by exists c'.
Qed.
Lemma quiet_mono {A} (m : Step A) (Q Q' : A -> Prop) p : quiet m Q p -> (forall a, Q a -> Q' a) -> quiet m Q' p.
Proof. intros Hm Hi Hc. eapply wp_mono; [by apply Hm|]. cbn beta. intros a p' [HQ Hp]. split; [by apply Hi|done]. Qed.
(** [memo]: what is cached holds, and what is read does. *)
Lemma quiet_memo {K V} `{Countable K} get (set : (gmap K V -> gmap K V) -> TxnPlanningCache -> TxnPlanningCache) (read : res V) k (Q : V -> Prop) p :
  (forall c v, cache_ok c -> get c !! k = Some v -> Q v) -> (forall v, read = Ok v -> Q v) -> (forall c v, cache_ok c -> Q v -> cache_ok (set <[k := v]> c)) ->
  quiet (memo get set read k) Q p.
Proof.
  intros Hget Hread Hset Hc. unfold memo. apply wp_bind. cbn. destruct (get (px_cache p) !! k) as [v|] eqn:E.
  - split; [by apply (Hget (px_cache p))|]. exists (px_cache p). split; [done|apply set_cache_id].
  - apply wp_bind, wp_lift. intros v Hv. split; [by apply Hread|]. exists (set <[k := v]> (px_cache p)). split; [|done]. by apply Hset, Hread.
Qed.

(** The record with a name is one. *)
Lemma names_one l k r o : names node_in current (fun r => r) l k (Some r) -> names node_in current (fun r => r) l k o -> o = Some r.
Proof.
  intros (r' & <- & Hs & Hl & Hk) Ho. destruct o as [r2|]; [|exfalso; by apply (Ho (nr_id r) r)].
  destruct Ho as (r3 & <- & Hs' & Hl' & Hk'). pose proof (nx_unique _ _ Hnodes 0) as Hu. rewrite drop_0 in Hu.
  assert (nr_id r2 = nr_id r) as E by (apply (Hu _ _ r2 r l); [done|done|done|done|congruence]). rewrite E in Hs'. congruence.
Qed.
Lemma means_one t r o : pc_edge_uniqueness self = true -> means edge_in current t (Some r) -> means edge_in current t o -> o = Some r.
Proof.
  intros Hu [Hs Ht] Ho. specialize (Hedges Hu). destruct o as [r2|]; [|exfalso; by apply (Ho (er_id r) r)].
  destruct Ho as [Hs' Ht']. pose proof (ex_unique _ _ Hedges 0) as Hone. rewrite drop_0 in Hone.
  assert (er_id r2 = er_id r) as E by (apply (Hone _ _ r2 r); [done|done|congruence]). rewrite E in Hs'. congruence.
Qed.
Lemma current_reads : reads current (shown_node current) (shown_edge current).
Proof. apply (sources_read node_in edge_in); done. Qed.

Ltac cached := intros c v [Co Ce Ck Ct Cr] Hv; cbn beta in Hv; split; cbn [on_node_opinions on_edge_opinions on_current_keys on_current_triples on_current_edges ca_node_opinions_by_id ca_edge_opinions_by_id ca_current_node_keys ca_current_edge_triples ca_current_edges_by_id]; intros; repeat match goal with E : <[_ := _]> _ !! _ = Some _ |- _ => apply lookup_insert_Some in E as [[? ?]|[? E]]; simplify_eq end; eauto.
Lemma quiet_node_opinion id p : quiet (cached_node_id_opinion self id) (fun o => node_id_opinion self id = Ok o) p.
Proof. apply quiet_memo; [intros c v Hc; apply (co_node_opinions c Hc)|done|cached]. Qed.
Lemma quiet_edge_opinion id p : quiet (cached_edge_id_opinion self id) (fun o => edge_id_opinion self id = Ok o) p.
Proof. apply quiet_memo; [intros c v Hc; apply (co_edge_opinions c Hc)|done|cached]. Qed.
Lemma quiet_current_key l k p : quiet (cached_current_node_key self l k) (fun o => names node_in current (fun r => r) l k o) p.
Proof.
  apply quiet_memo; [intros c v Hc; apply (co_keys c Hc)| |cached]. intros v E.
  pose proof (find_node_by_label_key_spec node_in edge_in key_in triple_in current Hnodes [(l, k)] l k eq_refl) as Hs. by rewrite E in Hs.
Qed.
Lemma quiet_current_triple f t l p : quiet (cached_current_edge_triple self f t l) (fun o => pc_edge_uniqueness self = true -> means edge_in current (f, t, l) o) p.
Proof.
  apply quiet_memo; [intros c v Hc E Hu; by apply (co_triples c Hc)| |cached]. intros v E Hu.
  pose proof (find_edge_by_triple_spec node_in edge_in key_in triple_in current (Hedges Hu) f t l) as Hs. by rewrite E in Hs.
Qed.
Lemma quiet_current_edge id p : quiet (cached_current_edge self id) (fun o => o = shown_edge current id) p.
Proof.
  apply quiet_memo; [intros c v Hc; apply (co_edges c Hc)| |cached]. intros v (found & E & Hv)%bind_Ok_inv.
  pose proof (rd_edges _ _ _ current_reads [id]) as Hs. rewrite E in Hs. subst found. by apply Ok_inj in Hv as <-.
Qed.
Lemma quiet_begin {K V} `{Countable K} get (set : (gmap K V -> gmap K V) -> TxnPlanningCache -> TxnPlanningCache) (read : res V) k p :
  (forall c v, cache_ok c -> cache_ok (set <[k := v]> c)) -> quiet (memo get set read k) (fun _ => True) p.
Proof. intros Hset. apply quiet_memo; [done|done|]. intros c v Hc _. by apply Hset. Qed.
Ltac begins := apply quiet_begin; intros c v [Co Ce Ck Ct Cr]; by split.
Lemma quiet_begin_node id p : quiet (cached_begin_node request id) (fun _ => True) p.
Proof. begins. Qed.
Lemma quiet_begin_edge id p : quiet (cached_begin_edge request id) (fun _ => True) p.
Proof. begins. Qed.
Lemma quiet_begin_key l k p : quiet (cached_begin_node_key request l k) (fun _ => True) p.
Proof. begins. Qed.
Lemma quiet_begin_triple f t l p : quiet (cached_begin_edge_triple request f t l) (fun _ => True) p.
Proof. begins. Qed.

(** ** The checks *)
Lemma not_newer o v : opinion_seq o = v -> newer_than (tr_snapshot_seq request) o = false -> unchanged v.
Proof. unfold newer_than. intros ->. unfold unchanged. destruct v; [|done]. lia. Qed.
Lemma quiet_node_id id p : quiet (validate_node_id_conflict self request id) (fun _ => unchanged (node_version id)) p.
Proof.
  eapply quiet_bind; [apply quiet_node_opinion|]. intros o c Ho%node_opinion_version. destruct (newer_than _ o) eqn:E; [apply quiet_fail|].
  apply quiet_ret. by eapply not_newer.
Qed.
Lemma quiet_edge_id id p : quiet (validate_edge_id_conflict self request id) (fun _ => unchanged (edge_version id)) p.
Proof.
  eapply quiet_bind; [apply quiet_edge_opinion|]. intros o c Ho%edge_opinion_version. destruct (newer_than _ o) eqn:E; [apply quiet_fail|].
  apply quiet_ret. by eapply not_newer.
Qed.
Lemma shown_node_unchanged r : shown_node current (nr_id r) = Some r -> nr_last_write_seq r <= tr_snapshot_seq request -> unchanged (node_version (nr_id r)).
Proof. intros Hs Hle. rewrite (shown_version _ _ _ _ _ node_tombstones_law _ _ _ Hs). exact Hle. Qed.
Lemma shown_edge_unchanged r : shown_edge current (er_id r) = Some r -> er_last_write_seq r <= tr_snapshot_seq request -> unchanged (edge_version (er_id r)).
Proof. intros Hs Hle. rewrite (shown_version _ _ _ _ _ edge_tombstones_law _ _ _ Hs). exact Hle. Qed.
Lemma quiet_key l k p :
  quiet (validate_node_key_conflict self request l k) (fun _ => forall r, names node_in current (fun r => r) l k (Some r) -> unchanged (node_version (nr_id r))) p.
Proof.
  eapply quiet_bind; [apply quiet_current_key|]. intros o c Ho.
  assert (forall r, names node_in current (fun r => r) l k (Some r) -> nr_last_write_seq r <= tr_snapshot_seq request -> unchanged (node_version (nr_id r))) as Hold.
  { intros r (r' & <- & Hs & _). by apply shown_node_unchanged. }
  assert (forall r, names node_in current (fun r => r) l k (Some r) -> o = Some r) as Hone by (intros r Hr; by apply (names_one l k r o)).
  destruct (match o with Some node => _ | None => _ end) eqn:E.
  { apply quiet_ret. intros r Hr. rewrite (Hone r Hr) in E. apply Hold; [done|lia]. }
  eapply quiet_bind; [apply quiet_begin_key|]. intros [begin|] c' ?; destruct o as [node|].
  - eapply quiet_bind; [apply quiet_node_id|]. intros ? c'' Hu. destruct (Z.eqb_spec (nr_id begin) (nr_id node)) as [Ei|]; [|apply quiet_fail].
    apply quiet_ret. intros r Hr. apply Hone in Hr as [= ->]. by rewrite <- Ei.
  - eapply quiet_bind; [apply quiet_node_id|]. intros ? c'' _. apply quiet_fail.
  - destruct (tr_snapshot_seq request <? nr_last_write_seq node) eqn:E'; [apply quiet_fail|]. apply quiet_ret. intros r Hr. pose proof (Hone r Hr) as [= ->]. apply Hold; [done|lia].
  - apply quiet_ret. intros r Hr. by apply Hone in Hr.
Qed.
Lemma quiet_triple f t l p :
  quiet (validate_edge_triple_conflict self request f t l)
    (fun _ => pc_edge_uniqueness self = true -> forall r, means edge_in current (f, t, l) (Some r) -> unchanged (edge_version (er_id r))) p.
Proof.
  eapply quiet_bind; [apply quiet_current_triple|]. intros o c Ho.
  assert (forall r, means edge_in current (f, t, l) (Some r) -> er_last_write_seq r <= tr_snapshot_seq request -> unchanged (edge_version (er_id r))) as Hold.
  { intros r [Hs _]. by apply shown_edge_unchanged. }
  assert (pc_edge_uniqueness self = true -> forall r, means edge_in current (f, t, l) (Some r) -> o = Some r) as Hone by (intros Hu r Hr; by apply (means_one (f, t, l) r o Hu), Ho).
  destruct (match o with Some edge => _ | None => _ end) eqn:E.
  { apply quiet_ret. intros Hu r Hr. rewrite (Hone Hu r Hr) in E. apply Hold; [done|lia]. }
  eapply quiet_bind; [apply quiet_begin_triple|]. intros [begin|] c' ?; destruct o as [edge|].
  - eapply quiet_bind; [apply quiet_edge_id|]. intros ? c'' Hun. destruct (Z.eqb_spec (er_id begin) (er_id edge)) as [Ei|]; [|apply quiet_fail].
    apply quiet_ret. intros Hu r Hr. pose proof (Hone Hu r Hr) as [= ->]. by rewrite <- Ei.
  - eapply quiet_bind; [apply quiet_edge_id|]. intros ? c'' _. apply quiet_fail.
  - destruct (tr_snapshot_seq request <? er_last_write_seq edge) eqn:E'; [apply quiet_fail|]. apply quiet_ret. intros Hu r Hr. pose proof (Hone Hu r Hr) as [= ->]. apply Hold; [done|lia].
  - apply quiet_ret. intros Hu r Hr. by apply (Hone Hu) in Hr.
Qed.

(** ** References *)
Section References.
Context (label_resolution : TxnLabelResolution).
Lemma quiet_node_ref target p : quiet (resolve_node_ref_optional self request label_resolution target) (fun _ => True) p.
Proof.
  eapply quiet_bind; [by apply (quiet_gets px_state (fun _ => True))|]. intros state c _. destruct target as [id|label key|local].
  - by apply quiet_ret.
  - destruct (node_label_id label_resolution label) as [l|]; [|by apply quiet_ret]. destruct (ps_nodes_by_key state !! (l, key)) as [[id t]|]; [by apply quiet_ret|].
    case_bool_decide; [by apply quiet_ret|]. eapply quiet_bind; [apply quiet_current_key|]. intros [node|] c' _; [by apply quiet_ret|].
    eapply quiet_bind; [apply quiet_begin_key|]. intros begin c'' _. by apply quiet_ret.
  - destruct (ps_local_node_ids state !! local); [by apply quiet_ret|apply quiet_fail].
Qed.
Lemma quiet_required target p : quiet (resolve_node_ref_required self request label_resolution target) (fun _ => True) p.
Proof.
  eapply quiet_bind; [apply quiet_node_ref|]. intros [id|] c _; [|apply quiet_fail].
  eapply quiet_bind; [by apply (quiet_gets px_state (fun _ => True))|]. intros state c' _. case_bool_decide; [apply quiet_fail|by apply quiet_ret].
Qed.
Lemma quiet_edge_ref target p : quiet (resolve_edge_ref_optional self request label_resolution target) (fun _ => True) p.
Proof.
  eapply quiet_bind; [by apply (quiet_gets px_state (fun _ => True))|]. intros state c _. destruct target as [id|from to label|local].
  - by apply quiet_ret.
  - destruct (edge_label_id label_resolution label) as [l|]; [|by apply quiet_ret].
    eapply quiet_bind; [apply quiet_node_ref|]. intros [f|] c1 _; [|by apply quiet_ret].
    eapply quiet_bind; [apply quiet_node_ref|]. intros [t|] c2 _; [|by apply quiet_ret].
    destruct (ps_edges_by_triple state !! (f, t, l)) as [[id ?]|]; [by apply quiet_ret|].
    eapply quiet_bind; [apply quiet_current_triple|]. intros [edge|] c3 _; [by apply quiet_ret|].
    eapply quiet_bind; [apply quiet_begin_triple|]. intros begin c4 _. by apply quiet_ret.
  - destruct (ps_local_edge_ids state !! local); [by apply quiet_ret|apply quiet_fail].
Qed.
End References.

(** ** The invariant of the plan *)
Definition ends_unchanged (r : EdgeRecord) : Prop := unchanged (node_version (er_from r)) /\ unchanged (node_version (er_to r)).
Definition op_clean (op : WalOp) : Prop :=
  match op with
  | UpsertNode r => clean_node (nr_id r)
  | UpsertEdge r => clean_edge (er_id r) /\ (pc_next_edge_id self <= er_id r -> ends_unchanged r)
  | DeleteNode id _ => unchanged (node_version id)
  | DeleteEdge id _ => clean_edge id
  | _ => True
  end.
(** The edges of a node deleted: those there now go with it, and those there at
    the beginning are unchanged. *)
Definition at_node (sl : SourceList) (id e : Z) : Prop :=
  exists m r, shown_edge sl e = Some r /\ touches Both r id m /\ node_tombstoned sl id = false /\ node_tombstoned sl m = false.
Definition takes_edges (ops : list WalOp) (id : Z) : Prop :=
  (forall e, at_node current id e -> DeleteEdge e now ∈ ops) /\ forall e, at_node snapshot id e -> unchanged (edge_version e).
Record state_ok (ops : list WalOp) (s : PlannedTxnState) : Prop := {
  so_keys k id t : ps_nodes_by_key s !! k = Some (id, t) -> clean_node id;
  so_triples k id t : ps_edges_by_triple s !! k = Some (id, t) -> clean_edge id;
  so_edges id r : ps_edge_records_by_id s !! id = Some r -> er_id r = id /\ clean_edge id /\ (pc_next_edge_id self <= id -> ends_unchanged r);
  so_deleted e : e ∈ ps_deleted_edge_ids s -> DeleteEdge e now ∈ ops
}.
Record planned (p : Planning) : Prop := {
  pl_cache : cache_ok (px_cache p);
  pl_next_node : pc_next_node_id self <= px_next_node_id p;
  pl_next_edge : pc_next_edge_id self <= px_next_edge_id p;
  pl_state : state_ok (px_ops p) (px_state p);
  pl_ops op : op ∈ px_ops p -> op_clean op;
  pl_takes id t : DeleteNode id t ∈ px_ops p -> takes_edges (px_ops p) id
}.
Definition set_state (s : PlannedTxnState) (p : Planning) : Planning :=
  mkPlanning s (px_cache p) (px_next_node_id p) (px_next_edge_id p) (px_graph_ops p) (px_ops p).

Lemma wp_quiet {A B} (m : Step A) (f : A -> Step B) Q R p :
  quiet m Q p -> planned p -> (forall a c, Q a -> planned (set_cache c p) -> wp (f a) R (set_cache c p)) -> wp (m ≫= f) R p.
Proof.
  intros Hm Hp Hf. apply wp_bind. eapply wp_mono; [apply Hm, Hp|]. cbn beta. intros a p' [HQ (c & Hc & ->)]. apply Hf; [done|].
  destruct Hp as [_ ? ? ? ? ?]. by split.
Qed.
Lemma planned_state s p : planned p -> state_ok (px_ops p) s -> planned (set_state s p).
Proof. intros [? ? ? _ ? ?] Hs. by split. Qed.
Lemma wp_state {B} f (k : () -> Step B) R p :
  planned p -> state_ok (px_ops p) (f (px_state p)) -> (planned (set_state (f (px_state p)) p) -> wp (k tt) R (set_state (f (px_state p)) p)) -> wp (on_state f ≫= k) R p.
Proof. intros Hp Hs Hk. apply wp_bind. apply Hk. by apply planned_state. Qed.
Lemma wp_state_end f p : planned p -> state_ok (px_ops p) (f (px_state p)) -> wp (on_state f) (fun _ => planned) p.
Proof. intros Hp Hs. by apply planned_state. Qed.
Lemma wp_reserve {B} (k : () -> Step B) R p :
  planned p -> (forall p', planned p' -> px_state p' = px_state p -> px_ops p' = px_ops p -> wp (k tt) R p') -> wp (reserve_op ≫= k) R p.
Proof.
  intros Hp Hk. apply wp_bind. unfold wp, reserve_op. destruct (reserve 1 (px_graph_ops p)) as [g|]; [|done]. apply Hk; [|done|done].
  destruct Hp. by split.
Qed.
Lemma state_ok_more ops op s : state_ok ops s -> state_ok (ops ++ [op]) s.
Proof. intros [? ? ? Hd]. split; [done..|]. intros e He%Hd. set_solver. Qed.
Lemma planned_push op p :
  planned p -> op_clean op -> (forall id t, op = DeleteNode id t -> takes_edges (px_ops p) id) ->
  planned (mkPlanning (px_state p) (px_cache p) (px_next_node_id p) (px_next_edge_id p) (px_graph_ops p) (px_ops p ++ [op])).
Proof.
  intros [? ? ? Hs Ho Ht] Hop Hd. split; cbn [px_cache px_next_node_id px_next_edge_id px_state px_ops]; [done..| | |].
  - by apply state_ok_more.
  - intros op' [Hin| ->%list_elem_of_singleton]%elem_of_app; [by apply Ho|done].
  - assert (forall id, takes_edges (px_ops p) id -> takes_edges (px_ops p ++ [op]) id) as Hmore by (intros id [Hc Hb]; split; [intros e He%Hc; set_solver|done]).
    intros id t [Hin|E%list_elem_of_singleton]%elem_of_app; apply Hmore; [by apply (Ht id t)|by apply (Hd id t)].
Qed.
Lemma wp_push {B} op (k : () -> Step B) R p :
  planned p -> op_clean op -> (forall id t, op = DeleteNode id t -> takes_edges (px_ops p) id) ->
  (forall p', planned p' -> px_state p' = px_state p -> px_ops p' = px_ops p ++ [op] -> wp (k tt) R p') -> wp (push_op op ≫= k) R p.
Proof. intros Hp Ho Hd Hk. apply wp_bind. apply Hk; [by apply planned_push|done|done]. Qed.
Lemma wp_push_end op p :
  planned p -> op_clean op -> (forall id t, op = DeleteNode id t -> takes_edges (px_ops p) id) -> wp (push_op op) (fun _ => planned) p.
Proof. intros Hp Ho Hd. by apply planned_push. Qed.

(** The changes of the state. *)
Ltac same_state := intros [? ? ? ?]; by split.
Lemma ok_node_ids ops f s : state_ok ops s -> state_ok ops (on_node_ids f s). Proof. same_state. Qed.
Lemma ok_edge_ids ops f s : state_ok ops s -> state_ok ops (on_edge_ids f s). Proof. same_state. Qed.
Lemma ok_local_nodes ops f s : state_ok ops s -> state_ok ops (on_local_node_ids f s). Proof. same_state. Qed.
Lemma ok_local_edges ops f s : state_ok ops s -> state_ok ops (on_local_edge_ids f s). Proof. same_state. Qed.
Lemma ok_node_records ops f s : state_ok ops s -> state_ok ops (on_node_records f s). Proof. same_state. Qed.
Lemma ok_deleted_nodes ops f s : state_ok ops s -> state_ok ops (on_deleted_nodes f s). Proof. same_state. Qed.
Lemma ok_undelete ops id s : state_ok ops s -> state_ok ops (on_deleted_edges (fun deleted => deleted ∖ {[id]}) s).
Proof. intros [? ? ? Hd]. split; [done..|]. cbn [on_deleted_edges ps_deleted_edge_ids]. intros e He. apply Hd. set_solver. Qed.
Lemma ok_keys ops f g s : state_ok ops s -> (forall k id t, f (ps_nodes_by_key s) !! k = Some (id, t) -> clean_node id) -> state_ok ops (on_keys f g s).
Proof. intros [? ? ? ?] Hf. by split. Qed.
Lemma ok_free_keys ops label_ids key labels s : state_ok ops s -> state_ok ops (free_keys label_ids key labels s).
Proof.
  revert s. induction labels as [|l labels IH]; intros s Hs; [done|]. apply IH. cbn. destruct (NodeLabels.contains label_ids l); [done|].
  apply ok_keys; [done|]. intros k id t [_ E]%lookup_delete_Some. by apply (so_keys _ _ Hs k id t).
Qed.
Lemma ok_claim_keys ops m key labels s : clean_node (fst m) -> state_ok ops s -> state_ok ops (claim_keys m key labels s).
Proof.
  intros Hm. revert s. induction labels as [|l labels IH]; intros s Hs; [done|]. apply IH. apply ok_keys; [done|].
  intros k id t [[_ ->]|[_ E]]%lookup_insert_Some; [done|]. by apply (so_keys _ _ Hs k id t).
Qed.
Lemma ok_triples ops f s : state_ok ops s -> (forall k id t, f (ps_edges_by_triple s) !! k = Some (id, t) -> clean_edge id) -> state_ok ops (on_triples f s).
Proof. intros [? ? ? ?] Hf. by split. Qed.
Lemma ok_put_triple ops k m s : clean_edge (fst m) -> state_ok ops s -> state_ok ops (on_triples <[k := m]> s).
Proof. intros Hm Hs. apply ok_triples; [done|]. intros k' id t [[_ ->]|[_ E]]%lookup_insert_Some; [done|]. by apply (so_triples _ _ Hs k' id t). Qed.
Lemma ok_drop_triple ops k id s : state_ok ops s -> state_ok ops (remove_planned_edge_triple_if_current k id s).
Proof.
  intros Hs. unfold remove_planned_edge_triple_if_current. destruct (ps_edges_by_triple s !! k) as [[? ?]|]; [|done]. destruct (_ =? _); [|done].
  apply ok_triples; [done|]. intros k' id' t [_ E]%lookup_delete_Some. by apply (so_triples _ _ Hs k' id' t).
Qed.
Lemma ok_set_triple ops k id t s : clean_edge id -> state_ok ops s -> state_ok ops (set_planned_edge_triple_if_current_or_absent k id t s).
Proof. intros Hid Hs. unfold set_planned_edge_triple_if_current_or_absent. destruct (match ps_edges_by_triple s !! k with Some _ => _ | None => _ end); [by apply ok_put_triple|done]. Qed.
Lemma ok_put_edge ops id f r s :
  er_id r = id -> clean_edge id -> (pc_next_edge_id self <= id -> ends_unchanged r) -> state_ok ops s -> state_ok ops (on_edge_records f <[id := r]> s).
Proof.
  intros Hid Hc He [? ? Hs ?]. split; [done|done| |done]. cbn [on_edge_records ps_edge_records_by_id]. intros id' r' [[<- <-]|[_ E]]%lookup_insert_Some; [done|by apply Hs].
Qed.
Lemma ok_forget ops id s : state_ok ops s -> state_ok ops (forget_edge id s).
Proof.
  intros Hs. unfold forget_edge. assert (state_ok ops (on_edge_records (delete id) (delete id) s)) as Hs'.
  { destruct Hs as [? ? Hs ?]. split; [done|done| |done]. cbn [on_edge_records ps_edge_records_by_id]. intros id' r [_ E]%lookup_delete_Some. by apply Hs. }
  destruct (ps_edge_id_to_triple s !! id); [by apply ok_drop_triple|done].
Qed.

(** ** Upserts of nodes *)
Lemma wp_memo {K V} `{Countable K} get (set : (gmap K V -> gmap K V) -> TxnPlanningCache -> TxnPlanningCache) (read : res V) k p :
  wp (memo get set read k) (fun v p' => get (px_cache p) !! k = Some v /\ p' = p \/ p' = set_cache (set <[k := v]> (px_cache p)) p) p.
Proof.
  unfold memo. apply wp_bind. cbn. destruct (get (px_cache p) !! k) as [v|] eqn:E; [by left|]. apply wp_bind, wp_lift. intros v _. by right.
Qed.
Lemma wp_memo_hit {K V} `{Countable K} get (set : (gmap K V -> gmap K V) -> TxnPlanningCache -> TxnPlanningCache) (read : res V) k v (Q : V -> Planning -> Prop) p :
  get (px_cache p) !! k = Some v -> Q v p -> wp (memo get set read k) Q p.
Proof. intros E HQ. unfold memo. apply wp_bind. cbn. by rewrite E. Qed.
(** A check of a key leaves the key in the cache, and where no node has it now,
    none had it. *)
Definition checked_key (l : Z) (k : str) (p : Planning) : Prop :=
  exists o, ca_current_node_keys (px_cache p) !! (l, k) = Some o /\ (o = None -> ca_begin_node_keys (px_cache p) !! (l, k) = Some None).
Lemma wp_checked_key l k p : wp (validate_node_key_conflict self request l k) (fun _ => checked_key l k) p.
Proof.
  apply wp_bind. eapply wp_mono; [apply wp_memo|]. cbn beta. intros o p1 Hm1.
  assert (ca_current_node_keys (px_cache p1) !! (l, k) = Some o) as Ho.
  { destruct Hm1 as [[E ->]| ->]; [done|]. cbn. by rewrite lookup_insert_eq. } clear Hm1.
  destruct (match o with Some node => _ | None => _ end) eqn:E; [exists o; split; [done|by intros ->]|].
  apply wp_bind. eapply wp_mono; [apply wp_memo|]. cbn beta. intros begin p2 Hm2.
  assert (ca_current_node_keys (px_cache p2) !! (l, k) = Some o /\ ca_begin_node_keys (px_cache p2) !! (l, k) = Some begin) as [Hc Hb].
  { destruct Hm2 as [[Eb ->]| ->]; [done|]. cbn. by rewrite lookup_insert_eq. } clear Hm2.
  assert (forall id (k' : () -> Step ()), (o ≠ None -> forall p3, ca_current_node_keys (px_cache p3) !! (l, k) = Some o -> wp (k' tt) (fun _ => checked_key l k) p3) ->
    (o = None -> forall p3, wp (k' tt) (fun _ _ => False) p3) -> wp (validate_node_id_conflict self request id ≫= k') (fun _ => checked_key l k) p2) as Hid.
  { intros id k' Hsome Hnone. apply wp_bind, wp_bind. eapply wp_mono; [apply wp_memo|]. cbn beta. intros opinion p3 Hm3.
    assert (ca_current_node_keys (px_cache p3) !! (l, k) = Some o) as Hc3 by (by destruct Hm3 as [[_ ->]| ->]).
    destruct (newer_than _ opinion); [done|]. apply wp_ret. destruct o as [node|]; [by apply Hsome|].
    eapply wp_mono; [by apply Hnone|]. by intros ? ? []. }
  destruct begin as [begin|], o as [node|].
  - apply Hid; [|done]. intros _ p3 Hm3. destruct (_ =? _); [|done]. by exists (Some node).
  - by apply Hid.
  - destruct (_ <? _); [done|]. by exists (Some node).
  - by exists None.
Qed.
Lemma wp_and {A} (m : Step A) (Q Q' : A -> Planning -> Prop) p : wp m Q p -> wp m Q' p -> wp m (fun a p' => Q a p' /\ Q' a p') p.
Proof. unfold wp. by destruct (m p) as [[a p']|]. Qed.

Lemma quiet_candidate key l p :
  state_ok (px_ops p) (px_state p) ->
  quiet (node_candidate self request key l) (fun candidate => forall id t r, candidate = Some ((id, t), r) -> clean_node id) p.
Proof.
  intros Hs. eapply quiet_bind; [by apply (quiet_gets px_state (fun state => state = px_state p))|]. intros state c ->.
  destruct (ps_nodes_by_key (px_state p) !! (l, key)) as [[id t]|] eqn:E.
  { apply quiet_ret. intros id' t' r [= <- _ _]. by apply (so_keys _ _ Hs (l, key) id t). }
  case_bool_decide; [by apply quiet_ret|]. intros Hc. apply wp_bind.
  eapply wp_mono; [apply wp_and; [apply wp_checked_key|by apply quiet_key]|]. cbn beta. intros [] p1 [(o & Ho & Hb) [Hun (c1 & Hc1 & ->)]].
  apply wp_bind. eapply wp_memo_hit; [exact Ho|]. apply wp_bind. destruct o as [node|].
  - split; [|by exists c1]. intros id t r [= <- <- <-]. right. apply Hun. by apply (co_keys _ Hc1).
  - eapply wp_memo_hit; [by apply Hb|]. split; [done|by exists c1].
Qed.
Lemma quiet_winner key labels winner p :
  state_ok (px_ops p) (px_state p) -> (forall id t r, winner = Some ((id, t), r) -> clean_node id) ->
  quiet (node_winner self request key labels winner) (fun found => forall id t r, found = Some ((id, t), r) -> clean_node id) p.
Proof.
  revert winner p. induction labels as [|l labels IH]; intros winner p Hs Hw; [by apply quiet_ret|]. cbn [node_winner].
  eapply quiet_bind; [by apply quiet_candidate|]. intros candidate c Hcand.
  destruct candidate as [[[id t] r]|]; [|by apply IH]. destruct winner as [[[id' t'] r']|]; [|by apply IH].
  case_bool_decide; [apply quiet_fail|by apply IH].
Qed.
Section Intents.
Context (label_resolution : TxnLabelResolution).
Abbreviation keeps m := (forall p, planned p -> wp m (fun _ => planned) p).
Lemma keeps_upsert_node entry labels key options : keeps (plan_txn_upsert_node self request now label_resolution entry labels key options).
Proof.
  intros p Hp. apply wp_bind, wp_lift. intros _ _. apply wp_bind, wp_lift. intros label_ids _.
  eapply wp_quiet; [apply quiet_winner; [apply Hp|done]|done|]. intros winner c Hw Hp1. apply wp_bind.
  assert (wp (match winner with Some existing => mret existing | None => id ← take_node_id; mret ((id, now), None) end)
    (fun existing p' => planned p' /\ clean_node (fst (fst existing))) (set_cache c p)) as Halloc.
  { destruct winner as [[[id t] r]|]; [by split; [|apply (Hw id t r)]|]. apply wp_bind. unfold wp, take_node_id. destruct (_ =? _); [done|].
    destruct Hp1 as [? Hn ? ? ? ?]. cbn -[Z.add] in *. split; [|by left]. split; cbn -[Z.add]; [done|lia|done..]. }
  eapply wp_mono; [exact Halloc|]. clear c Hp Hp1 Hw Halloc p. cbn beta. intros [[id t] previous] p [Hp Hid]. cbn [fst] in Hid.
  apply wp_bind. cbn -[wp]. change (wp (gets px_state) ?Q p) with (Q (px_state p) p). cbn beta.
  apply wp_state; [done|destruct (match ps_node_records_by_id (px_state p) !! id with Some _ => _ | None => _ end); [apply ok_free_keys|]; apply Hp|]. intros Hp1.
  apply wp_state; [done|apply ok_claim_keys; [done|apply Hp1]|]. intros Hp2.
  apply wp_state; [done|apply ok_deleted_nodes, Hp2|]. intros Hp3. apply wp_state; [done|apply ok_local_nodes, Hp3|]. intros Hp4.
  apply wp_bind, wp_lift. intros vectors _. apply wp_state; [done|apply ok_node_records, Hp4|]. intros Hp5.
  apply wp_reserve; [done|]. intros p6 Hp6 _ _. apply wp_push; [done|done|done|]. intros p7 Hp7 _ _. apply wp_state_end; [done|]. apply ok_node_ids, Hp7.
Qed.

(** *** Upserts of edges *)
Lemma fresh_edge_clean p : planned p -> wp (fresh_edge now) (fun m p' => planned p' /\ clean_edge (fst m)) p.
Proof.
  intros Hp. apply wp_bind. unfold wp at 1, take_edge_id. destruct (_ =? _); [done|].
  destruct Hp as [? ? He ? ? ?]. split; [|by left]. split; cbn -[Z.add]; [done|done|lia|done..].
Qed.
Lemma allocation_clean f t l p : planned p -> wp (edge_allocation self request now f t l) (fun m p' => planned p' /\ clean_edge (fst m)) p.
Proof.
  intros Hp. unfold edge_allocation. destruct (Bool.bool_dec (pc_edge_uniqueness self) true) as [Hu|Hu%not_true_is_false]; rewrite Hu.
  - apply wp_bind. change (wp (gets px_state) ?Q p) with (Q (px_state p) p). cbn beta.
    destruct (ps_edges_by_triple (px_state p) !! (f, t, l)) as [[id c]|] eqn:E; [split; [done|by apply (so_triples _ _ (pl_state _ Hp) (f, t, l) id c)]|].
    eapply wp_quiet; [apply quiet_triple|done|]. intros ? c Hun Hp1. eapply wp_quiet; [apply quiet_current_triple|done|].
    intros [edge|] c' Ho Hp2; [|by apply fresh_edge_clean]. split; [done|]. right. apply Hun; [done|by apply Ho].
  - eapply wp_quiet; [apply quiet_triple|done|]. intros ? c _ Hp1. by apply fresh_edge_clean.
Qed.
Lemma keeps_upsert_edge entry from to label options : keeps (plan_txn_upsert_edge self request now label_resolution entry from to label options).
Proof.
  intros p Hp. apply wp_bind, wp_lift. intros label_id _.
  eapply wp_quiet; [apply quiet_required|done|]. intros f c1 _ Hp1. eapply wp_quiet; [apply quiet_required|done|]. intros t c2 _ Hp2.
  eapply wp_quiet; [apply quiet_node_id|done|]. intros ? c3 Hf Hp3. eapply wp_quiet; [apply quiet_node_id|done|]. intros ? c4 Ht Hp4.
  apply wp_bind. eapply wp_mono; [by apply allocation_clean|]. cbn beta. intros m p5 [Hp5 Hid].
  apply wp_state; [done|by apply ok_put_triple, Hp5|]. intros Hp6. apply wp_state; [done|apply ok_undelete, Hp6|]. intros Hp7.
  apply wp_state; [done|apply ok_local_edges, Hp7|]. intros Hp8. apply wp_state; [done|by apply ok_put_edge; [..|apply Hp8]|]. intros Hp9.
  apply wp_reserve; [done|]. intros p10 Hp10 _ _. apply wp_push; [done|by split|done|]. intros p11 Hp11 _ _. apply wp_state_end; [done|]. apply ok_edge_ids, Hp11.
Qed.

(** *** Deletes *)
(** Deleting an edge that may be deleted. *)
Lemma wp_insert_deleted {B} id (k : bool -> Step B) R p :
  (if bool_decide (id ∈ ps_deleted_edge_ids (px_state p)) then wp (k false) R (set_state (on_deleted_edges (union {[id]}) (px_state p)) p)
   else wp (k true) R (set_state (on_deleted_edges (union {[id]}) (px_state p)) p)) ->
  wp (insert_deleted_edge id ≫= k) R p.
Proof.
  intros Hk. apply wp_bind. change (wp (insert_deleted_edge id) ?Q p)
    with (Q (negb (bool_decide (id ∈ ps_deleted_edge_ids (px_state p)))) (set_state (on_deleted_edges (union {[id]}) (px_state p)) p)).
  revert Hk. by case_bool_decide.
Qed.
Lemma planned_already id p : planned p -> id ∈ ps_deleted_edge_ids (px_state p) -> planned (set_state (on_deleted_edges (union {[id]}) (px_state p)) p).
Proof.
  intros Hp Hin. apply planned_state; [done|]. destruct (pl_state _ Hp) as [? ? ? Hd]. split; [done..|].
  cbn [on_deleted_edges ps_deleted_edge_ids]. intros e [->%elem_of_singleton|He]%elem_of_union; by apply Hd.
Qed.
(** Marking it and logging the delete, with the state changed between. *)
Lemma planned_delete id f g p :
  planned p -> clean_edge id -> (forall ops s, state_ok ops s -> state_ok ops (f s)) -> (forall s, ps_deleted_edge_ids (f s) = ps_deleted_edge_ids s) ->
  planned (mkPlanning (f (on_deleted_edges (union {[id]}) (px_state p))) (px_cache p) (px_next_node_id p) (px_next_edge_id p) g (px_ops p ++ [DeleteEdge id now])).
Proof.
  intros Hp Hid Hf Hd. destruct (planned_push (DeleteEdge id now) p Hp Hid ltac:(done)) as [? ? ? Hs ? ?]. split; [done..| |done|done].
  cbn [px_state px_ops] in *. apply Hf. destruct Hs as [? ? ? Hdel]. split; [done..|]. cbn [on_deleted_edges ps_deleted_edge_ids].
  intros e [->%elem_of_singleton|He]%elem_of_union; [set_solver|by apply Hdel].
Qed.
Lemma forget_deleted id s : ps_deleted_edge_ids (forget_edge id s) = ps_deleted_edge_ids s.
Proof.
  unfold forget_edge. destruct (ps_edge_id_to_triple s !! id) as [t|]; [|done]. unfold remove_planned_edge_triple_if_current.
  destruct (ps_edges_by_triple _ !! t) as [[? ?]|]; [|done]. by destruct (_ =? _).
Qed.
(** Deleted edges stay deleted. *)
Abbreviation deleted_more p p' := (forall e, DeleteEdge e now ∈ px_ops p -> DeleteEdge e now ∈ px_ops p').
Lemma planned_deletes id p : planned p -> clean_edge id ->
  wp (delete_planned_edge now id) (fun _ p' => planned p' /\ DeleteEdge id now ∈ px_ops p' /\ deleted_more p p') p.
Proof.
  intros Hp Hid. apply wp_insert_deleted. case_bool_decide as Hin.
  - split; [by apply planned_already|]. split; [by apply (so_deleted _ _ (pl_state _ Hp))|done].
  - apply wp_bind. unfold wp at 1, reserve_op. destruct (reserve 1 _) as [g|]; [|done]. split.
    + apply (planned_delete id (forget_edge id) g p); [done|done|intros ops s; apply ok_forget|intros s; apply forget_deleted].
    + cbn. set_solver.
Qed.
Lemma incident_deletes id p : planned p ->
  wp (delete_incident_edge self request now id) (fun _ p' => planned p' /\ DeleteEdge id now ∈ px_ops p' /\ deleted_more p p') p.
Proof.
  intros Hp. eapply wp_quiet; [apply quiet_edge_id|done|]. intros ? c Hun Hp1. apply wp_insert_deleted. case_bool_decide as Hin.
  - split; [by apply planned_already|]. split; [by apply (so_deleted _ _ (pl_state _ Hp))|done].
  - apply wp_bind. unfold wp at 1, reserve_op. destruct (reserve 1 _) as [g|]; [|done]. split.
    + apply (planned_delete id (fun s => s) g (set_cache c p)); [done|by right|done..].
    + cbn. set_solver.
Qed.
Lemma keeps_delete_edge target : keeps (plan_txn_delete_edge self request now label_resolution target).
Proof.
  intros p Hp. eapply wp_quiet; [apply quiet_edge_ref|done|]. intros [id|] c _ Hp1; [|done].
  eapply wp_quiet; [apply quiet_edge_id|done|]. intros ? c' Hun Hp2. eapply wp_mono; [apply planned_deletes; [done|by right]|]. by intros ? ? [? _].
Qed.

(** *** Deletes of nodes *)
Lemma quiet_for_each {A} (body : A -> Step ()) (Q : A -> Prop) l p :
  (forall x p, quiet (body x) (fun _ => Q x) p) -> quiet (for_each body l) (fun _ => forall x, x ∈ l -> Q x) p.
Proof.
  intros Hb. revert p. induction l as [|x l IH]; intros p; cbn [for_each]; [apply quiet_ret; by intros x ?%not_elem_of_nil|].
  eapply quiet_bind; [apply Hb|]. intros ? c Hx. eapply quiet_mono; [apply IH|]. cbn beta. intros ? Hl y [->|Hy]%elem_of_cons; [done|by apply Hl].
Qed.
Lemma wp_scan {B} (sl : SourceList (Segment := Segment)) id limit (k : list Z -> Step B) R p :
  sl = current \/ sl = snapshot ->
  (forall edges, (limit = NodeQuery.usize_max \/ len edges < limit -> forall e, at_node sl id e -> e ∈ edges) -> wp (k edges) R p) -> wp (incident_scan sl id limit ≫= k) R p.
Proof.
  intros Hsl Hk. assert (layered edge_in sl) as Hst by by destruct Hsl as [-> | ->].
  destruct (endpoint_scan_spec edge_in sl Hst Both None limit [id]) as (out & E & Ho). apply wp_bind. unfold incident_scan. rewrite E. apply wp_lift.
  intros edges ->. destruct Ho as (Ha & Hs & Hc). apply Hk. intros Hlim e (m & r & Hr & Ht & Hn & Hm).
  apply (Hc) with (n := id) (m := m) (r := r); [|done|left|done|done|by split].
  destruct Hlim as [->|]; [|done]. apply (Hsize sl); [done|by apply NodeLabels.ascending_NoDup|]. intros e' (n' & m' & r' & Hr' & _)%Hs. by exists r'.
Qed.
Lemma wp_reject {B} returned graph_ops count (k : () -> Step B) R p :
  px_graph_ops p = graph_ops ->
  (limited_scan_len count graph_ops = NodeQuery.usize_max \/ returned < limited_scan_len count graph_ops -> wp (k tt) R p) ->
  wp (reject_filled returned (limited_scan_len count graph_ops) ≫= k) R p.
Proof.
  intros <- Hk. apply wp_bind, wp_bind. change (wp (gets px_graph_ops) ?Q p) with (Q (px_graph_ops p) p). cbn beta. apply wp_lift. intros [] E. apply Hk.
  unfold reject_if_limited_scan_filled in E. destruct (go_budget (px_graph_ops p)) eqn:Eb; [|left; unfold limited_scan_len; by rewrite Eb].
  destruct (negb _ && _) eqn:Er; [done|]. lia.
Qed.
Lemma keeps_delete_node target : keeps (plan_txn_delete_node self request now label_resolution target).
Proof.
  intros p Hp. eapply wp_quiet; [apply quiet_node_ref|done|]. intros [id|] c _ Hp1; [|done].
  eapply wp_quiet; [apply quiet_node_id|done|]. intros ? c1 Hun Hp2. apply wp_reserve; [done|]. intros p3 Hp3 _ _. clear p c c1 Hp Hp1 Hp2.
  apply wp_bind. change (wp (gets ?f) ?Q p3) with (Q (f p3) p3). cbn beta. set (count := Z.of_nat _). 
  apply wp_scan; [by right|]. intros begins Hbegins. apply wp_reject; [done|]. intros Hlim. specialize (Hbegins Hlim). clear Hlim. rename Hbegins into Hlim.
  eapply wp_quiet; [apply (quiet_for_each _ (fun e => unchanged (edge_version e))); intros; apply quiet_edge_id|done|]. intros ? c Hsame Hp4. cbn beta in Hsame.
  apply wp_scan; [by left|]. intros incident Hincident. apply wp_reject; [done|]. intros Hlim'. specialize (Hincident Hlim'). clear Hlim'. rename Hincident into Hlim'.
  apply wp_bind. eapply wp_mono.
  { apply (wp_for_each _ incident (fun before p => planned p /\ forall e, e ∈ before -> DeleteEdge e now ∈ px_ops p)); [|split; [done|by intros e ?%not_elem_of_nil]].
    intros before e rest p _ [Hp Hd]. eapply wp_mono; [by apply incident_deletes|]. cbn beta. intros _ p' (Hp' & He & Hm). split; [done|].
    intros e' [He'| ->%list_elem_of_singleton]%elem_of_app; [by apply Hm, Hd|done]. }
  cbn beta. intros _ p5 [Hp5 Hdel]. apply wp_bind. change (wp (gets px_state) ?Q p5) with (Q (px_state p5) p5). cbn beta zeta. apply wp_bind. eapply wp_mono.
  { apply (wp_each _ _ (fun p => planned p /\ forall e, e ∈ incident -> DeleteEdge e now ∈ px_ops p)); [|by split].
    intros e p He [Hp Hd]. eapply wp_mono; [apply planned_deletes; [done|]|].
    - apply list_elem_of_fmap in He as ([e' r] & -> & [_ He]%list_elem_of_filter). rewrite hash_iter_perm in He. apply elem_of_map_to_list in He.
      destruct (so_edges _ _ (pl_state _ Hp5) e' r He) as (Er & Hid & _). cbn [snd]. by rewrite Er.
    - cbn beta. intros _ p' (Hp' & _ & Hm). split; [done|]. intros e' He'. by apply Hm, Hd. }
  cbn beta. intros _ p6 [Hp6 Hdel6]. apply wp_state; [done|apply ok_deleted_nodes, Hp6|]. intros Hp7. apply wp_push_end; [done|done|].
  intros id' t [= <- _]. split; [intros e He; by apply Hdel6, Hlim'|intros e He; by apply Hsame, Hlim].
Qed.

(** *** Invalidations *)
Lemma keeps_write_invalidated id r p :
  planned p -> er_id r = id -> clean_edge id -> (pc_next_edge_id self <= id -> ends_unchanged r) -> wp (write_invalidated id r) (fun _ => planned) p.
Proof.
  intros Hp <- Hid He. apply wp_state; [done|by apply ok_put_edge; [..|apply Hp]|]. intros Hp1. apply wp_reserve; [done|]. intros p2 Hp2 _ _.
  apply wp_push_end; [done|by split|done].
Qed.
Lemma shown_edge_id sl e r : layered edge_in sl -> shown_edge sl e = Some r -> er_id r = e.
Proof.
  intros Hst Hs. destruct (shown_split edge_in sl e r Hs) as (ls & l & ls' & Hv & Hl & _).
  apply (record_id edge_in sl Hst l e r); [rewrite Hv; set_solver|]. by apply says_record.
Qed.
Lemma keeps_invalidate target valid_to : keeps (plan_txn_invalidate_edge self request now label_resolution target valid_to).
Proof.
  intros p Hp. eapply wp_quiet; [apply quiet_edge_ref|done|]. intros [id|] c _ Hp1; [|done]. apply wp_bind.
  change (wp (gets px_state) ?Q ?p) with (Q (px_state p) p). cbn beta. case_bool_decide; [done|].
  destruct (ps_edge_records_by_id _ !! id) as [r|] eqn:Er.
  - destruct (so_edges _ _ (pl_state _ Hp1) id r Er) as (Hr & Hid & He). apply wp_state; [done|by apply ok_set_triple, Hp1|]. intros Hp2.
    by apply keeps_write_invalidated.
  - eapply wp_quiet; [apply quiet_edge_id|done|]. intros ? c1 Hun Hp2. eapply wp_quiet; [apply quiet_current_edge|done|]. intros [r|] c2 Hr Hp3; [|done].
    assert (er_id r = id) as Hid by by apply (shown_edge_id current).
    eapply wp_quiet; [apply quiet_current_triple|done|]. intros o c3 _ Hp4. apply wp_bind.
    apply (wp_mono _ (fun _ => planned)).
    + destruct (match o with Some _ => _ | None => _ end); [|done]. apply wp_state_end; [done|]. apply ok_put_triple; [by right|apply Hp4].
    + cbn beta. intros _ p5 Hp5. apply keeps_write_invalidated; [done|done|by right|]. symmetry in Hr. apply Hfresh in Hr. lia.
Qed.
Lemma keeps_intent entry : keeps (plan_txn_intent self request now label_resolution entry).
Proof.
  unfold plan_txn_intent. destruct (si_intent entry);
    [apply keeps_upsert_node|apply keeps_upsert_edge|apply keeps_delete_node|apply keeps_delete_edge|apply keeps_invalidate].
Qed.

(** *** Replacements *)
Lemma quiet_begin_required id p : quiet (begin_node request id) (fun _ => True) p.
Proof. eapply quiet_bind; [apply quiet_begin_node|]. intros [node|] c _; [by apply quiet_ret|apply quiet_fail]. Qed.
Lemma quiet_replaceable replacement p : quiet (replaceable_node self request replacement) (fun _ => unchanged (node_version (rn_id replacement))) p.
Proof.
  eapply quiet_bind; [by apply (quiet_gets px_state (fun _ => True))|]. intros state c _. case_bool_decide; [apply quiet_fail|].
  eapply quiet_bind; [apply quiet_begin_required|]. intros begin c1 _. eapply quiet_bind; [apply quiet_node_id|]. intros ? c2 Hun.
  destruct (negb _); [apply quiet_fail|]. destruct (negb _); [apply quiet_fail|by apply quiet_ret].
Qed.
Lemma quiet_key_free l key id p : quiet (check_key_free self request l key id) (fun _ => True) p.
Proof.
  eapply quiet_bind; [by apply (quiet_gets px_state (fun _ => True))|]. intros state c _. destruct (ps_nodes_by_key state !! (l, key)) as [[other ?]|].
  - destruct (negb _); [apply quiet_fail|by apply quiet_ret].
  - case_bool_decide; [by apply quiet_ret|]. eapply quiet_bind; [apply quiet_key|]. intros ? c1 _.
    eapply quiet_bind; [apply quiet_current_key|]. intros [node|] c2 _; [|by apply quiet_ret]. destruct (negb _); [apply quiet_fail|by apply quiet_ret].
Qed.
Lemma ok_free_own_keys ops replacement label_ids labels s : state_ok ops s -> state_ok ops (free_own_keys replacement label_ids labels s).
Proof.
  revert s. induction labels as [|l labels IH]; intros s Hs; [done|]. apply IH. cbn. destruct (NodeLabels.contains label_ids l); [done|].
  apply ok_keys; [done|]. intros k id t. destruct (match ps_nodes_by_key s !! _ with Some _ => _ | None => _ end).
  - intros [_ E]%lookup_delete_Some. by apply (so_keys _ _ Hs k id t).
  - by apply (so_keys _ _ Hs).
Qed.
Lemma wp_quiet_end {A} (m : Step A) Q p : quiet m Q p -> planned p -> wp m (fun a p' => Q a /\ planned p') p.
Proof. intros Hm Hp. eapply wp_mono; [apply Hm, Hp|]. cbn beta. intros a p' [HQ (c & Hc & ->)]. split; [done|]. destruct Hp. by split. Qed.
Lemma keeps_owners replacements owners : forall p, planned p -> wp (final_node_key_owners self request label_resolution replacements owners) (fun _ => planned) p.
Proof.
  revert owners. induction replacements as [|[replacement|edge] replacements IH]; intros owners p Hp; [done| |by apply IH]. cbn [final_node_key_owners].
  eapply wp_quiet; [apply quiet_replaceable|done|]. intros begin c _ Hp1. apply wp_bind, wp_lift. intros label_ids _. apply wp_bind.
  change (wp (gets px_state) ?Q ?p) with (Q (px_state p) p). cbn beta zeta. apply wp_state; [done|apply ok_free_own_keys, Hp1|]. intros Hp2.
  apply wp_bind, wp_lift. intros owners' _. by apply IH.
Qed.
Lemma keeps_prepare : keeps (prepare_txn_node_replacement_key_state self request label_resolution).
Proof.
  intros p Hp. apply wp_bind. eapply wp_mono; [by apply keeps_owners|]. cbn beta. intros owners p' Hp'. apply wp_each; [|done].
  intros [[l key] id] p'' _ Hp''. eapply wp_mono; [apply (wp_quiet_end _ _ _ (quiet_key_free l key id p'') Hp'')|]. by intros ? ? [_ ?].
Qed.
Lemma quiet_changes idx replacements added removers p : quiet (key_changes request label_resolution idx replacements added removers) (fun _ => True) p.
Proof.
  revert idx added removers p. induction replacements as [|[replacement|edge] replacements IH]; intros idx added removers p; cbn [key_changes]; [by apply quiet_ret| |apply IH].
  eapply quiet_bind; [apply quiet_begin_required|]. intros begin c _. eapply quiet_bind; [by apply (quiet_lift _ (fun _ => True))|]. intros label_ids c1 _.
  eapply quiet_bind; [by apply (quiet_gets px_state (fun _ => True))|]. intros state c2 _. apply IH.
Qed.
Lemma quiet_order p : quiet (txn_replacement_planning_order request label_resolution) (fun _ => True) p.
Proof. eapply quiet_bind; [apply quiet_changes|]. intros [added removers] c _. by apply quiet_lift. Qed.
Lemma keeps_replace_node replacement : keeps (plan_txn_node_record_replacement self request now label_resolution replacement).
Proof.
  intros p Hp. eapply wp_quiet; [apply quiet_replaceable|done|]. intros begin c Hun Hp1. cbn beta in Hun. apply wp_bind, wp_lift. intros label_ids _. apply wp_bind.
  change (wp (gets px_state) ?Q ?p) with (Q (px_state p) p). cbn beta zeta. apply wp_state; [done|apply ok_free_own_keys, Hp1|]. intros Hp2. apply wp_bind.
  eapply wp_mono; [apply (wp_each _ _ planned); [|exact Hp2]|].
  { intros l p' _ Hp'. eapply wp_quiet; [apply quiet_key_free|done|]. intros ? c' _ Hp''. apply wp_state_end; [done|]. apply ok_claim_keys; [by right|apply Hp'']. }
  cbn beta. intros _ p3 Hp3. apply wp_bind, wp_lift. intros vectors _. apply wp_state; [done|apply ok_deleted_nodes, Hp3|]. intros Hp4.
  apply wp_state; [done|apply ok_node_records, Hp4|]. intros Hp5. apply wp_reserve; [done|]. intros p6 Hp6 _ _.
  apply wp_push; [done|by right|done|]. intros p7 Hp7 _ _. apply wp_state_end; [done|]. apply ok_node_ids, Hp7.
Qed.
Lemma keeps_replace_edge replacement : keeps (plan_txn_edge_record_replacement self request now label_resolution replacement).
Proof.
  intros p Hp. unfold plan_txn_edge_record_replacement. destruct (_ <=? _); [done|]. apply wp_bind.
  change (wp (gets px_state) ?Q ?p) with (Q (px_state p) p). cbn beta. case_bool_decide; [done|].
  eapply wp_quiet; [apply quiet_begin_edge|done|]. intros [begin|] c _ Hp1; [|done]. eapply wp_quiet; [apply quiet_edge_id|done|]. intros ? c1 Hid Hp2.
  apply wp_bind, wp_lift. intros label_id _. destruct (_ || _); [done|]. destruct (negb _); [done|].
  eapply wp_quiet; [apply quiet_node_id|done|]. intros ? c2 Hf Hp3. eapply wp_quiet; [apply quiet_node_id|done|]. intros ? c3 Ht Hp4. apply wp_bind.
  change (wp (gets px_state) ?Q ?p) with (Q (px_state p) p). cbn beta. destruct (match ps_edges_by_triple _ !! _ with Some _ => _ | None => _ end); [done|].
  apply wp_state; [done|apply ok_set_triple; [by right|apply Hp4]|]. intros Hp5. apply wp_state; [done|apply ok_undelete, Hp5|]. intros Hp6.
  apply wp_state; [done|apply ok_put_edge; [done|by right|by split|apply Hp6]|]. intros Hp7. apply wp_reserve; [done|]. intros p8 Hp8 _ _.
  apply wp_push; [done|split; [by right|by split]|done|]. intros p9 Hp9 _ _. apply wp_state_end; [done|]. apply ok_edge_ids, Hp9.
Qed.
Lemma keeps_steps : keeps (plan_txn_steps self request now label_resolution).
Proof.
  intros p Hp. apply wp_bind. eapply wp_mono; [apply (wp_each _ _ planned); [intros entry p' _ Hp'; by apply keeps_intent|done]|]. cbn beta. intros _ p1 Hp1.
  apply wp_bind. eapply wp_mono; [by apply keeps_prepare|]. cbn beta. intros _ p2 Hp2. eapply wp_quiet; [apply quiet_order|done|]. intros order c _ Hp3.
  apply wp_bind. eapply wp_mono; [apply (wp_each _ _ planned); [|exact Hp3]|].
  - intros i p' _ Hp'. unfold plan_txn_record_replacement. destruct (tr_record_replacements request !! i) as [[node|edge]|]; [by apply keeps_replace_node|by apply keeps_replace_edge|done].
  - cbn beta. intros _ p4 Hp4. apply wp_bind. change (wp (gets px_state) ?Q ?p) with (Q (px_state p) p). cbn beta. by apply wp_lift.
Qed.
End Intents.

(** ** The whole plan *)
Lemma remember_elem {K V} `{Countable K} (reads : list (K * V)) cache k v : remember reads cache !! k = Some v -> (k, v) ∈ reads \/ cache !! k = Some v.
Proof.
  unfold remember. revert cache. induction reads as [|[k' v'] reads IH]; intros cache; [by right|]. cbn [foldl fst snd].
  intros [Hin|[[-> ->]|[_ ?]]%lookup_insert_Some]%IH; [left; by right|left; left|by right].
Qed.
Lemma zip_elem {A B} (P : A -> B -> Prop) l k x y : Forall2 P l k -> (x, y) ∈ zip l k -> P x y.
Proof. intros Hf. induction Hf as [|a b l k Hp _ IH]; cbn; [by intros ?%not_elem_of_nil|]. intros [[= -> ->]|Hin]%elem_of_cons; [done|by apply IH]. Qed.
Lemma mapM_Ok {A B} (f : A -> res B) l k : mapM f l = Ok k -> Forall2 (fun x y => f x = Ok y) l k.
Proof.
  revert k. induction l as [|x l IH]; intros k E; [apply Ok_inj in E as <-; constructor|]. cbn in E.
  apply bind_Ok_inv in E as (y & Ey & (ys & Eys & E)%bind_Ok_inv). apply Ok_inj in E as <-. constructor; [done|by apply IH].
Qed.
Lemma cache_start : cache_ok no_cache.
Proof. by split. Qed.
Lemma build_cache_ok label_resolution cache : build_txn_planning_cache self request label_resolution = Ok cache -> cache_ok cache.
Proof.
  unfold build_txn_planning_cache. destruct (foldl (collect_txn_replacement_cache_targets label_resolution) _ _) as [[node_keys node_ids] edge_ids].
  intros (c1 & E1 & (c2 & E2 & E3)%bind_Ok_inv)%bind_Ok_inv.
  assert (cache_ok c1) as Hc1.
  { destruct (hash_set_iter node_keys) as [|key keys]; [apply Ok_inj in E1 as <-; apply cache_start|].
    apply bind_Ok_inv in E1 as (begins & _ & (found & Ef & E)%bind_Ok_inv). apply Ok_inj in E as <-. split; [done|done| |done|done]. 
    intros l k o [Hin|?]%remember_elem; [|done]. pose proof (find_nodes_by_label_keys_spec node_in edge_in key_in triple_in current Hnodes (key :: keys)) as Hs.
    rewrite Ef in Hs. exact (zip_elem _ _ _ _ _ Hs Hin). }
  assert (cache_ok c2) as Hc2.
  { destruct (hash_set_iter node_ids) as [|id ids]; [by apply Ok_inj in E2 as <-|]. apply bind_Ok_inv in E2 as (begins & _ & (opinions & Eo & E)%bind_Ok_inv).
    apply Ok_inj in E as <-. destruct Hc1 as [Ho ? ? ? ?]. split; [|done..]. intros n o [Hin|?]%remember_elem; [|by apply Ho]. exact (zip_elem _ _ _ _ _ (mapM_Ok _ _ _ Eo) Hin). }
  destruct (hash_set_iter edge_ids) as [|id ids]; [by apply Ok_inj in E3 as <-|]. apply bind_Ok_inv in E3 as (begins & _ & (found & Ef & E)%bind_Ok_inv).
  apply Ok_inj in E as <-. destruct Hc2 as [? ? ? ? Hr]. split; [done..|]. intros e o [Hin|?]%remember_elem; [|by apply Hr].
  pose proof (rd_edges _ _ _ current_reads (id :: ids)) as Hs. rewrite Ef in Hs. subst found.
  apply (zip_elem (fun e o => o = shown_edge current e) (id :: ids) (shown_edge current <$> (id :: ids))); [|done]. apply Forall2_fmap_r. by apply Forall_Forall2_diag, Forall_forall.
Qed.
Lemma label_ops_clean label_resolution ops changed op : resolve_txn_label_names self request = Ok (label_resolution, ops, changed) -> op ∈ ops ->
  op_clean op /\ forall id t, op ≠ DeleteNode id t.
Proof.
  intros E Hop. unfold resolve_txn_label_names in E. 
  repeat (apply bind_Ok_inv in E as (? & _ & E); repeat match type of E with context [match ?x with _ => _ end] => is_var x; destruct x end).
  destruct (foldl collect_txn_replacement_read_label_names _ _) as [[? ?] [? ?]].
  repeat (apply bind_Ok_inv in E as (? & _ & E)). apply Ok_inj in E as [= _ <- _]. unfold push_token_ops in Hop.
  apply elem_of_app in Hop as [([name i] & -> & _)%list_elem_of_fmap|([name i] & -> & _)%list_elem_of_fmap]; done.
Qed.

(** C2.  First committer wins.  Take the view a transaction began with and the
    current one, both over memtables and segments in which ids are never given
    out twice, with the names of the current view unique and edge ids below the
    counter.  If the commit of the transaction is planned, then no operation of
    the plan overwrites a version written after the transaction's snapshot:
    each node written is new or its newest version -- the record or tombstone
    of the newest layer that has one -- is not newer than the snapshot, and so
    for each edge written or deleted; both ends of an edge the transaction
    creates, and each node it deletes, are not newer either.  Each live edge at
    a node deleted is deleted by the same plan, and the edges the node had at
    the snapshot were not written since.  In particular two transactions from
    one snapshot cannot both commit a write of one record. *)
Theorem first_committer_wins self' ops result changed op :
  plan_txn_commit self request now = Ok (self', (ops, result, changed)) -> op ∈ ops ->
  match op with
  | UpsertNode r => pc_next_node_id self <= nr_id r \/ unchanged (node_version (nr_id r))
  | UpsertEdge r => (pc_next_edge_id self <= er_id r \/ unchanged (edge_version (er_id r)))
      /\ (pc_next_edge_id self <= er_id r -> unchanged (node_version (er_from r)) /\ unchanged (node_version (er_to r)))
  | DeleteEdge e _ => pc_next_edge_id self <= e \/ unchanged (edge_version e)
  | DeleteNode n _ => unchanged (node_version n) /\ (forall e, at_node current n e -> DeleteEdge e now ∈ ops)
      /\ forall e, at_node snapshot n e -> unchanged (edge_version e)
  | _ => True
  end.
Proof.
  intros ([[resolution label_ops] changed'] & El & (cache & Ec & E)%bind_Ok_inv)%bind_Ok_inv Hop.
  set (start := mkPlanning no_plan cache (pc_next_node_id self) (pc_next_edge_id self) (mkCounter (tr_graph_op_budget request) 0) label_ops) in E.
  assert (planned start) as Hstart.
  { split; cbn; [by eapply build_cache_ok|done|done| | |].
    - split; cbn [no_plan ps_nodes_by_key ps_edges_by_triple ps_edge_records_by_id ps_deleted_edge_ids];
        [intros ? ? ?; rewrite lookup_empty; by intros ?..|intros ? ?; by rewrite lookup_empty|by intros e ?%elem_of_empty].
    - intros o Ho. by eapply label_ops_clean.
    - intros id t Ho. by destruct (proj2 (label_ops_clean _ _ _ _ El Ho) id t). }
  pose proof (keeps_steps resolution start Hstart) as Hw. unfold wp in Hw.
  apply bind_Ok_inv in E as ([[] p] & Ep & E). rewrite Ep in Hw. apply Ok_inj in E as [= _ <- _ _].
  pose proof (pl_ops p Hw op Hop) as Hc. destruct op; try exact Hc; try done.
  split; [exact Hc|]. by eapply pl_takes.
Qed.
End Commit.
