(* ===== verification/WriteCascade.v ===== *)
(** The cascade of a node delete: which edges [plan_delete_node] deletes with
    the node.  The walk over the layers is that of a frontier of one node, so
    the theorems on frontiers apply to it. *)
From S2P Require Import Prelude Types PropertyValue Slots Memtable MemtableReads MemtableSnapshots MemtableNeighbors Manifest LabelCatalog Vectors DegreeEngine FilterBase NodeFilter NodeQuery SourceList SourceListFacts SourceKeys Adjacency AdjacencyFacts WritePlan.
Import SourceList.

(** What the planner relies on in a segment: its neighbours are the postings it
    holds at the node. *)
Class SegmentScanLaws {Segment : Type} `{SegmentReads Segment, SegmentAdjacency Segment, SegmentScans Segment}
    (edge_in : Segment -> Z -> option EdgeRecord) : Prop := {
  neighbors_deleted_nodes seg id : id ∈ deleted_node_ids seg <-> is_node_deleted seg id = true;
  neighbors_deleted_edges seg id : id ∈ deleted_edge_ids seg <-> is_edge_deleted seg id = true;
  neighbors_edge_id seg id r : edge_in seg id = Some r -> er_id r = id;
  neighbors_law seg n dir labels entries p : segment_neighbors seg n dir labels 0 = Ok entries ->
    p ∈ nb_posting <$> entries <-> segment_posting edge_in seg dir labels n p
}.

Section Cascade.
Context {Segment : Type} `{SegmentReads Segment, SegmentKeys Segment} {adjacency : SegmentAdjacency Segment} `{SegmentScans Segment} `{RmpValue, HashOrderLaws, UnstableSort}.
Context (edge_in : Segment -> Z -> option EdgeRecord) {laws : SegmentScanLaws edge_in}.
Abbreviation Sources := (SourceList (Segment := Segment)).

(** The neighbours of one node after the other, as postings of a batch. *)
Fixpoint one_by_one (seg : Segment) (direction : Direction) (labels : option (list Z)) (ids : list Z) : list (Z * Posting) * option EngineError :=
  match ids with
  | [] => ([], None)
  | n :: ids =>
      match segment_neighbors seg n direction labels 0 with
      | Err e => ([], Some e)
      | Ok entries => let '(more, failure) := one_by_one seg direction labels ids in ((tag n <$> entries) ++ more, failure)
      end
  end.
#[local] Instance node_by_node : SegmentAdjacency Segment := {|
  adj_postings_batch seg ids direction labels := one_by_one seg direction labels ids;
  deleted_node_ids := @deleted_node_ids _ adjacency;
  deleted_edge_ids := @deleted_edge_ids _ adjacency
|}.
Lemma tag_elem n n' p (entries : list NeighborRecord) : (n', p) ∈ tag n <$> entries <-> n' = n /\ p ∈ nb_posting <$> entries.
Proof. rewrite !list_elem_of_fmap. unfold tag. naive_solver. Qed.
#[local] Instance node_by_node_laws : SegmentAdjacencyLaws edge_in.
Proof.
  split.
  - exact (@neighbors_deleted_nodes _ _ adjacency _ _ laws).
  - exact (@neighbors_deleted_edges _ _ adjacency _ _ laws).
  - exact (@neighbors_edge_id _ _ adjacency _ _ laws).
  - intros seg ids dir labels n p. cbn. induction ids as [|m ids IH]; cbn [one_by_one]; [by intros ?%not_elem_of_nil|].
    destruct (segment_neighbors seg m dir labels 0) as [entries|e] eqn:E; [|by intros ?%not_elem_of_nil].
    destruct (one_by_one seg dir labels ids) as [more failure]. cbn [fst] in *. rewrite elem_of_app, tag_elem. intros [[-> Hp]|Hp].
    + split; [left|]. by apply (@neighbors_law _ _ adjacency _ _ laws seg m dir labels entries).
    + destruct (IH Hp). split; [by right|done].
  - intros seg ids dir labels n p. cbn. induction ids as [|m ids IH]; cbn [one_by_one]; [by intros _ ?%not_elem_of_nil|].
    destruct (segment_neighbors seg m dir labels 0) as [entries|e] eqn:E; [|done].
    destruct (one_by_one seg dir labels ids) as [more failure]. cbn [fst snd] in *. rewrite elem_of_app, tag_elem.
    intros -> [->|Hn]%elem_of_cons Hp; [left; split; [done|by apply (@neighbors_law _ _ adjacency _ _ laws seg m dir labels entries)]|right; by apply IH].
Qed.

Lemma bool_decide_reflects P `{Decision P} b : (P <-> b = true) -> bool_decide P = b.
Proof. intros E. destruct b; [by apply bool_decide_true, E|apply bool_decide_false]. by rewrite E. Qed.
Context (self : Sources) (n : Z).
Hypothesis Hn : node_tombstoned self n = false.
Abbreviation deleted_nodes := (fst (collect_tombstones self)).
Abbreviation deleted_edges := (snd (collect_tombstones self)).
Abbreviation matches seen tagged := (forall e, e ∈ seen <-> (n, e) ∈ tagged).

(** The walk of one layer keeps what an expansion keeps. *)
Lemma add_neighbors_spec entries results seen tagged :
  matches seen tagged ->
  exists rs seen', add_neighbors deleted_nodes deleted_edges (results, seen) entries = (results ++ rs, seen')
  /\ tag n <$> rs = base.filter (fun q => untombed self q = true) (unseen tagged (tag n <$> entries))
  /\ matches seen' (edge_keys (tag n <$> entries) ∪ tagged).
Proof.
  revert results seen tagged. induction entries as [|nb entries IH]; intros results seen tagged Hm.
  { exists [], seen. split_and!; [by rewrite app_nil_r|done|]. intros e. rewrite Hm. unfold edge_keys. cbn. set_solver. }
  unfold add_neighbors. cbn [foldl]. rewrite fmap_cons. cbn [unseen].
  change (edge_key (tag n nb)) with (n, nb_edge_id nb).
  assert (edge_keys (tag n nb :: (tag n <$> entries)) = {[(n, nb_edge_id nb)]} ∪ edge_keys (tag n <$> entries)) as Ek by done. rewrite Ek.
  destruct (decide (nb_edge_id nb ∈ seen)) as [Hs|Hs].
  - rewrite !bool_decide_true by (done || by apply Hm). destruct (IH results seen tagged Hm) as (rs & seen' & Ha & Ers & Hm').
    exists rs, seen'. split; [exact Ha|]. split; [done|]. intros e. rewrite Hm'. apply Hm in Hs. set_solver.
  - rewrite (bool_decide_false (nb_edge_id nb ∈ seen)) by done. rewrite (bool_decide_false ((n, nb_edge_id nb) ∈ tagged)) by (by rewrite <- Hm).
    assert (matches ({[nb_edge_id nb]} ∪ seen) ({[(n, nb_edge_id nb)]} ∪ tagged)) as Hm1.
    { intros e. rewrite !elem_of_union, !elem_of_singleton, Hm. naive_solver. }
    rewrite filter_bool_cons. change (untombed self (tag n nb))
      with (negb (edge_tombstoned self (nb_edge_id nb)) && negb (node_tombstoned self (nb_node_id nb)) && negb (node_tombstoned self n)).
    rewrite Hn. cbn [negb]. rewrite andb_true_r.
    assert (bool_decide (nb_edge_id nb ∈ deleted_edges) = edge_tombstoned self (nb_edge_id nb)) as ->.
    { apply bool_decide_reflects, (collect_deleted_edges_elem edge_in self). }
    assert (bool_decide (nb_node_id nb ∈ deleted_nodes) = node_tombstoned self (nb_node_id nb)) as ->.
    { apply bool_decide_reflects, (collect_deleted_nodes_elem edge_in self). }
    destruct (edge_tombstoned self (nb_edge_id nb) || node_tombstoned self (nb_node_id nb)) eqn:Et; rewrite <- negb_orb, Et; cbn [negb app].
    + destruct (IH results _ _ Hm1) as (rs & seen' & Ha & Ers & Hm'). exists rs, seen'. split; [exact Ha|]. split; [done|].
      intros e. rewrite Hm'. set_solver.
    + destruct (IH (results ++ [nb]) _ _ Hm1) as (rs & seen' & Ha & Ers & Hm'). exists (nb :: rs), seen'.
      split; [unfold add_neighbors in Ha; by rewrite Ha, <- app_assoc|]. rewrite fmap_cons, Ers. split; [done|]. intros e. rewrite Hm'. set_solver.
Qed.
Context (dir : Direction) (labels : option (list Z)).
Lemma memtable_neighbors st : tag n <$> neighbors_at st n dir labels 0 (snapshot_seq self) = memtable_postings self dir labels st [n].
Proof. unfold memtable_postings. cbn. by rewrite app_nil_r. Qed.
Lemma immutable_neighbors epochs results seen tagged :
  matches seen tagged ->
  exists rs seen', foldl (fun acc epoch => add_neighbors deleted_nodes deleted_edges acc (neighbors_at epoch n dir labels 0 (snapshot_seq self)))
      (results, seen) epochs = (results ++ rs, seen')
  /\ tag n <$> rs = base.filter (fun q => untombed self q = true) (unseen tagged (mjoin ((fun epoch => memtable_postings self dir labels epoch [n]) <$> epochs)))
  /\ matches seen' (edge_keys (mjoin ((fun epoch => memtable_postings self dir labels epoch [n]) <$> epochs)) ∪ tagged).
Proof.
  revert results seen tagged. induction epochs as [|epoch epochs IH]; intros results seen tagged Hm.
  { exists [], seen. split_and!; [by rewrite app_nil_r|done|]. intros e. rewrite Hm. unfold edge_keys. cbn. set_solver. }
  cbn [foldl]. rewrite join_fmap_cons, unseen_app, filter_app, <- memtable_neighbors.
  destruct (add_neighbors_spec (neighbors_at epoch n dir labels 0 (snapshot_seq self)) results seen tagged Hm) as (rs & seen' & -> & Ers & Hm').
  destruct (IH (results ++ rs) seen' _ Hm') as (rs' & seen'' & -> & Ers' & Hm''). exists (rs ++ rs'), seen''.
  split; [by rewrite app_assoc|]. rewrite fmap_app, Ers, Ers'. split; [done|]. intros e. rewrite Hm''. unfold edge_keys. rewrite fmap_app, list_to_set_app. set_solver.
Qed.
Lemma segments_neighbors segs results seen tagged :
  matches seen tagged ->
  match add_segment_neighbors deleted_nodes deleted_edges n dir labels segs (results, seen) with
  | Ok (results', _) => exists rs, results' = results ++ rs /\ snd (segment_stream dir labels [n] segs) = None
      /\ tag n <$> rs = base.filter (fun q => untombed self q = true) (unseen tagged (fst (segment_stream dir labels [n] segs)))
  | Err e => snd (segment_stream dir labels [n] segs) = Some e
  end.
Proof.
  revert results seen tagged. induction segs as [|seg segs IH]; intros results seen tagged Hm.
  { exists []. by rewrite app_nil_r. }
  cbn [add_segment_neighbors segment_stream adj_postings_batch node_by_node one_by_one].
  destruct (segment_neighbors seg n dir labels 0) as [entries|e]; [|done]. cbn [mbind result_bind]. rewrite app_nil_r.
  destruct (add_neighbors_spec entries results seen tagged Hm) as (rs & seen' & -> & Ers & Hm').
  specialize (IH (results ++ rs) seen' _ Hm'). destruct (segment_stream dir labels [n] segs) as [more failure]. cbn [fst snd] in *.
  destruct (add_segment_neighbors _ _ _ _ _ _ _) as [[results' seen'']|e]; [|done].
  destruct IH as (rs' & -> & -> & Ers'). exists (rs ++ rs'). rewrite app_assoc, unseen_app, filter_app, fmap_app, Ers, Ers'. done.
Qed.

Abbreviation arc_to := (fun nb => (n, nb_node_id nb, nb_edge_id nb)).
Lemma valid_neighbors time (l : list NeighborRecord) :
  arc_of <$> base.filter (fun q => in_time time q = true) (tag n <$> l)
  = arc_to <$> base.filter (fun nb => is_edge_valid_at (nb_valid_from nb) (nb_valid_to nb) time = true) l.
Proof.
  induction l as [|nb l IH]; [done|]. rewrite fmap_cons, !filter_bool_cons, !fmap_app, IH. f_equal.
  change (in_time time (tag n nb)) with (is_edge_valid_at (nb_valid_from nb) (nb_valid_to nb) time). by destruct (is_edge_valid_at _ _ _).
Qed.
Lemma untombed_first time (l : list (Z * Posting)) (rs : list NeighborRecord) :
  tag n <$> rs = base.filter (fun q => untombed self q = true) l ->
  base.filter (fun q => in_time time q && untombed self q = true) l = base.filter (fun q => in_time time q = true) (tag n <$> rs).
Proof.
  intros ->. induction l as [|q l IH]; [done|]. rewrite !filter_bool_cons, IH.
  destruct (untombed self q); rewrite ?andb_false_r, ?andb_true_r; cbn [app]; [|done]. by rewrite filter_bool_cons.
Qed.

(** [neighbors_raw] and the expansion of a frontier of one node agree, failures
    included. *)
Lemma neighbors_raw_arcs now at_epoch tombstones :
  default (collect_tombstones self) tombstones = collect_tombstones self ->
  match neighbors_raw now self n dir labels 0 at_epoch tombstones with
  | Ok entries => expansion_arcs self dir labels (default now at_epoch) [n] = ((fun nb => (n, nb_node_id nb, nb_edge_id nb)) <$> entries, None)
  | Err e => snd (expansion_arcs self dir labels (default now at_epoch) [n]) = Some e
  end.
Proof.
  intros Et. unfold neighbors_raw, expansion_arcs. rewrite Et, (surjective_pairing (collect_tombstones self)).
  change (sort_ids [n]) with [n]. cbn zeta. rewrite <- memtable_neighbors.
  set (newest := neighbors_at (active self) n dir labels 0 (snapshot_seq self)).
  assert (matches (list_to_set (nb_edge_id <$> newest) : gset Z) (edge_keys (tag n <$> newest))) as Hm.
  { intros e. rewrite elem_of_list_to_set, edge_keys_elem, list_elem_of_fmap. setoid_rewrite list_elem_of_fmap. unfold tag, edge_key. split.
    - intros (nb & -> & Hin). by exists (n, nb_posting nb); split; [exists nb|].
    - intros (q & (nb & -> & Hin) & [= <-]). by exists nb. }
  destruct (immutable_neighbors (immutable self) newest _ _ Hm) as (rs & seen' & -> & Ers & Hm').
  pose proof (segments_neighbors (segments self) (newest ++ rs) seen' _ Hm') as Hs.
  destruct (segment_stream dir labels [n] (segments self)) as [postings failure]. cbn [fst snd] in *.
  destruct (add_segment_neighbors _ _ _ _ _ _ _) as [[results' seen'']|e]; cbn [mbind result_bind]; [|done].
  destruct Hs as (rs' & -> & -> & Ers'). cbn [Z.ltb Z.compare andb]. f_equal. unfold immutable_postings.
  rewrite unseen_app, !filter_app, !fmap_app, (untombed_first _ _ rs Ers), (untombed_first _ _ rs' Ers'), !valid_neighbors. by rewrite app_assoc.
Qed.

(** The walk meets each edge of the node once. *)
Lemma nodup_filter {A B} (f : A -> B) (P : A -> bool) (l : list A) : NoDup (f <$> l) -> NoDup (f <$> base.filter (fun x => P x = true) l).
Proof. intros Hl. eapply sublist_NoDup; [exact Hl|]. apply fmap_sublist, sublist_filter. Qed.
Lemma arc_keys (l : list (Z * Posting)) : (fun a => (fst (fst a), snd a)) <$> (arc_of <$> l) = edge_key <$> l.
Proof. rewrite <- list_fmap_compose. by apply list_fmap_ext; intros i [m p] _. Qed.
Lemma walk_nodup ops time : built ops (active self) -> NoDup ((fun a => (fst (fst a), snd a)) <$> fst (expansion_arcs self dir labels time [n])).
Proof.
  intros (st0 & Hf & Hs & Hr). unfold expansion_arcs. change (sort_ids [n]) with [n]. cbn zeta. destruct (segment_stream dir labels [n] (segments self)) as [postings failure].
  cbn [fst]. rewrite fmap_app, !arc_keys. set (newest := memtable_postings self dir labels (active self) [n]).
  set (older := unseen (edge_keys newest) _). apply NoDup_app. split_and!.
  - apply nodup_filter. unfold newest. rewrite <- memtable_neighbors. unfold neighbors_at.
    pose proof (adjacent_nodup ops st0 (active self) Hf Hs Hr true n dir labels (snapshot_seq self)) as Hd.
    apply (NoDup_fmap_2 (fun e => (n, e))) in Hd.
    rewrite <- list_fmap_compose. rewrite <- list_fmap_compose in Hd. exact Hd.
  - intros k Hk Hk'. apply list_elem_of_fmap in Hk as (q & -> & [_ Hq]%list_elem_of_filter).
    apply list_elem_of_fmap in Hk' as (q' & E & [_ [_ Hq']%unseen_elem]%list_elem_of_filter).
    apply Hq', edge_keys_elem. by exists q.
  - apply nodup_filter, unseen_nodup.
Qed.

Lemma walk_exact now at_epoch tombstones entries :
  steady edge_in self -> default (collect_tombstones self) tombstones = collect_tombstones self ->
  neighbors_raw now self n dir labels 0 at_epoch tombstones = Ok entries ->
  NoDup (nb_edge_id <$> entries)
  /\ forall e, e ∈ nb_edge_id <$> entries <-> exists m, edge_arc edge_in self dir labels (default now at_epoch) n m e.
Proof.
  intros Hst Et E. pose proof (neighbors_raw_arcs now at_epoch tombstones Et) as Ha. rewrite E in Ha.
  destruct (ly_built _ _ Hst (active self) (active_in self)) as [ops Hb].
  pose proof (walk_nodup ops (default now at_epoch) Hb) as Hd. rewrite Ha in Hd. cbn [fst] in Hd. split.
  - apply (NoDup_fmap_1 (fun e => (n, e))). rewrite <- list_fmap_compose. rewrite <- list_fmap_compose in Hd. exact Hd.
  - intros e. pose proof (fun m => arcs_sound edge_in self Hst dir labels (default now at_epoch) [n] n m e) as Hs.
    pose proof (fun m => arcs_complete edge_in self Hst dir labels (default now at_epoch) [n] n m e) as Hc.
    rewrite Ha in Hs, Hc. cbn [fst snd] in Hs, Hc. split.
    + intros (nb & -> & Hin)%list_elem_of_fmap. exists (nb_node_id nb). apply Hs, list_elem_of_fmap. by exists nb.
    + intros [m Harc]. specialize (Hc m eq_refl ltac:(left) Harc). apply list_elem_of_fmap in Hc as (nb & [= -> ->] & Hin).
      by apply list_elem_of_fmap_2.
Qed.
End Cascade.

(** ** The cascade *)
Section DeleteNode.
Context {Segment : Type} `{SegmentReads Segment, SegmentKeys Segment, SegmentAdjacency Segment, SegmentScans Segment} `{RmpValue, HashOrderLaws, UnstableSort}.
Context (edge_in : Segment -> Z -> option EdgeRecord) `{!SegmentScanLaws edge_in}.

(** C13.  The cascade of a node delete.  Over memtables and segments in which ids
    are never given out twice, no edge of the active memtable being at a deleted
    node, planning the delete of a node that is not
    deleted yet answers the node's delete preceded by one delete for each live
    edge that starts or ends at the node, is valid at the time of the plan, and
    whose other end is not deleted -- however often the layers hold the edge;
    no other edge is deleted. *)
Theorem delete_cascade_exact now self n plan :
  steady edge_in (pc_sources self) -> node_tombstoned (pc_sources self) n = false ->
  plan_delete_node now self n = Ok plan ->
  exists edge_ids, pl_ops plan = ((fun e => DeleteEdge e now) <$> edge_ids) ++ [DeleteNode n now] /\ NoDup edge_ids
  /\ forall e, e ∈ edge_ids <-> exists m, edge_arc edge_in (pc_sources self) Both None now n m e.
Proof.
  intros Hst Hn (entries & E & [= <-])%bind_Ok_inv. exists (nb_edge_id <$> entries).
  split; [cbn; by rewrite <- list_fmap_compose|].
  exact (walk_exact edge_in (pc_sources self) n Hn Both None now None None entries Hst eq_refl E).
Qed.
End DeleteNode.
