(* ===== verification/GraphWitness.v ===== *)
(** The theorems on graph searches, on the endpoint scan and on the cascade of a
    node delete, applied to a view of two memtables and a segment: an edge is
    shadowed, one is deleted, and a policy prunes a node. *)
From S2P Require Import Prelude Types Encoding PropertyValue EdgeMetadata Slots Memtable MemtableReads MemtableCells MemtableSteps MemtableFacts MemtableEdges MemtableSnapshots MemtableNeighbors MemtableWitness DegreeEngine FilterBase NodeFilter NodeQuery SourceList SourceListFacts Walks Adjacency AdjacencyFacts Freeze GraphSearch GraphSearchFacts Components ComponentsFacts NodeQueryFacts EndpointScan EndpointFacts Manifest LabelCatalog Vectors Engine SourceKeys WritePlan WriteCascade.
Import SourceList.

Module GraphWitness.
#[local] Existing Instance MemtableWitness.rmp.
#[local] Existing Instance MemtableWitness.hash_order.
#[local] Existing Instance MemtableWitness.hash_order_laws.

#[local] Instance direction_eq_dec : EqDecision Direction.
Proof. solve_decision. Defined.

(** ** A segment: its nodes and edges, and those it deletes. *)
Record Segment : Type := mkSegment {
  sg_nodes : gmap Z NodeRecord;
  sg_edges : list EdgeRecord;
  sg_deleted_nodes : list Z;
  sg_deleted_edges : list Z
}.
Definition node_in (seg : Segment) (id : Z) : option NodeRecord := sg_nodes seg !! id.
Definition edge_in (seg : Segment) (id : Z) : option EdgeRecord := head (base.filter (fun r => er_id r = id) (sg_edges seg)).
#[local] Instance segment_reads : SegmentReads Segment := {|
  is_node_deleted seg id := bool_decide (id ∈ sg_deleted_nodes seg);
  is_edge_deleted seg id := bool_decide (id ∈ sg_deleted_edges seg);
  get_node seg id := Ok (node_in seg id);
  get_edge seg id := Ok (edge_in seg id);
  get_nodes_batch seg lookups results := Ok (fill (node_in seg) lookups results);
  get_edges_batch seg lookups results := Ok (fill (edge_in seg) lookups results);
  get_edge_metadata_batch seg lookups results := Ok (fill (fun id => from_edge <$> edge_in seg id) lookups results);
  get_node_meta_batch seg lookups results := Ok (fill (fun id => NodeQuery.visibility_meta <$> node_in seg id) lookups results);
  get_node_selected_fields_batch needs seg lookups results :=
    Ok (fill (fun id => NodeQuery.selected_node_fields needs <$> node_in seg id) lookups results);
  get_edge_selected_fields_batch needs seg lookups results :=
    Ok (fill (fun id => selected_edge_fields needs <$> edge_in seg id) lookups results)
|}.
#[local] Instance segment_laws : SegmentLaws node_in edge_in.
Proof. split; intros; by match goal with E : _ = Ok _ |- _ => apply Ok_inj in E as <- end. Qed.

(** The postings of an edge at a node: two for a self loop in both directions. *)
Definition ends_at (dir : Direction) (n : Z) (r : EdgeRecord) : list Z :=
  (if bool_decide (dir ≠ Incoming /\ er_from r = n) then [er_to r] else [])
  ++ (if bool_decide (dir ≠ Outgoing /\ er_to r = n) then [er_from r] else []).
Definition postings_at (seg : Segment) (dir : Direction) (labels : option (list Z)) (n id : Z) : list (Z * Posting) :=
  match edge_in seg id with
  | Some r =>
      if bool_decide (passes_filter labels (er_label_id r) /\ id ∉ sg_deleted_edges seg) then
        (fun m => (n, posting r m)) <$> base.filter (fun m => m ∉ sg_deleted_nodes seg) (ends_at dir n r)
      else []
  | None => []
  end.
#[local] Instance segment_adjacency : SegmentAdjacency Segment := {|
  adj_postings_batch seg ids dir labels :=
    (mjoin ((fun n => mjoin (postings_at seg dir labels n <$> (er_id <$> sg_edges seg))) <$> ids), None);
  deleted_node_ids := sg_deleted_nodes;
  deleted_edge_ids := sg_deleted_edges
|}.
Lemma ends_touch dir n r m : m ∈ ends_at dir n r <-> touches dir r n m.
Proof.
  unfold ends_at, touches. rewrite elem_of_app. repeat case_bool_decide; rewrite ?list_elem_of_singleton, ?elem_of_nil; naive_solver.
Qed.
Lemma edge_in_spec seg id r : edge_in seg id = Some r -> r ∈ sg_edges seg /\ er_id r = id.
Proof.
  unfold edge_in. intros E. assert (r ∈ base.filter (fun r => er_id r = id) (sg_edges seg)) as Hin.
  { destruct (base.filter _ _) as [|r' l]; [done|]. injection E as ->. left. }
  apply list_elem_of_filter in Hin. naive_solver.
Qed.
Lemma postings_elem seg ids dir labels n p :
  (n, p) ∈ fst (adj_postings_batch seg ids dir labels) <-> n ∈ ids /\ segment_posting edge_in seg dir labels n p.
Proof.
  cbn. rewrite list_elem_of_join. setoid_rewrite list_elem_of_fmap. split.
  - intros (l & Hin & n' & -> & Hn). apply list_elem_of_join in Hin as (l & Hin & Hl). apply list_elem_of_fmap in Hl as (id & -> & _).
    unfold postings_at in Hin. destruct (edge_in seg id) as [r|] eqn:Er; [|by apply not_elem_of_nil in Hin].
    case_bool_decide as Hc; [|by apply not_elem_of_nil in Hin]. destruct Hc as (Hlab & Hd). destruct (edge_in_spec _ _ _ Er) as [_ Hid].
    apply list_elem_of_fmap in Hin as (m & [= -> ->] & Hm). apply list_elem_of_filter in Hm as [Hm Ht%ends_touch]. split; [done|].
    exists r. cbn [posting ps_edge_id ps_neighbor_id]. rewrite Hid. split_and!; [done..| |]; by apply bool_decide_eq_false.
  - intros (Hn & r & Hr & Ht & Ep & Hlab & Hd%bool_decide_eq_false & Hm%bool_decide_eq_false).
    eexists. split; [|exists n; split; [reflexivity|done]]. apply list_elem_of_join. destruct (edge_in_spec _ _ _ Hr) as [Hin Hid].
    eexists. split; [|apply list_elem_of_fmap; exists (er_id r); split; [reflexivity|by apply list_elem_of_fmap_2]].
    unfold postings_at. rewrite Hid, Hr, bool_decide_true by done.
    apply list_elem_of_fmap. exists (ps_neighbor_id p). split; [by rewrite <- Ep|]. apply list_elem_of_filter. split; [done|]. by apply ends_touch.
Qed.
#[local] Instance segment_adjacency_laws : SegmentAdjacencyLaws edge_in.
Proof.
  split.
  - intros seg id. cbn. by rewrite bool_decide_eq_true.
  - intros seg id. cbn. by rewrite bool_decide_eq_true.
  - intros seg id r ?%edge_in_spec. naive_solver.
  - intros seg ids dir labels n p. apply postings_elem.
  - intros seg ids dir labels n p _ Hn Hp. by apply postings_elem.
Qed.

(** ** The view *)
Definition node (id label : Z) : NodeRecord := MemtableWitness.node id [label] "n" 1.
Definition edge (id from to : Z) : EdgeRecord := MemtableWitness.edge id from to 4.
(** Nodes 1 to 6, and 7 under the pruned label; 1-2-3-6 in the segment. *)
Definition segment : Segment :=
  mkSegment (list_to_map ((fun id => (id, node id (if id =? 7 then 7 else 3))) <$> [1; 2; 3; 4; 5; 6; 7]))
    [edge 20 1 2; edge 21 2 3; edge 22 3 6; edge 13 7 6] [9] [24].
(** 1-4-6, whose second edge the active memtable deletes. *)
Definition older : list (Z * WalOp) := [(1, UpsertEdge (edge 10 1 4)); (2, UpsertEdge (edge 11 4 6)); (3, UpsertEdge (edge 12 1 7))].
Definition newer : list (Z * WalOp) := [(4, DeleteEdge 11 5); (5, UpsertEdge (edge 20 1 2)); (6, UpsertEdge (edge 14 4 5))].
Definition run (ops : list (Z * WalOp)) : MemtableState := default empty_state (apply_ops ops empty_state).
Definition view : SourceList := mkSources (run newer) [run older] [segment] 9.
Definition policies : list NodeQuery.ResolvedPrunePolicy := [NodeQuery.mkPolicy None None (Some 7)].
Definition catalog : gmap str Z := {[ str_of "knows" := 4 ]}.
Definition options : HopOptions := mkConnectedOptions Outgoing (Some [str_of "knows"]) (Some 3) (Some 4).

Lemma edge_op_ok seq id from to : u64 id -> u64 from -> u64 to -> seq <= u64_max ->
  op_ok (snd (seq, UpsertEdge (edge id from to))) /\ fst (seq, UpsertEdge (edge id from to)) <= u64_max.
Proof. intros. split; [by apply MemtableWitness.edge_sample_ok|done]. Qed.
Lemma older_sequenced : sequenced older.
Proof. split; [by repeat constructor|]. repeat (apply Forall_cons; split; [by apply edge_op_ok|]). constructor. Qed.
Lemma newer_sequenced : sequenced newer.
Proof. split; [by repeat constructor|]. apply Forall_cons. split; [done|]. repeat (apply Forall_cons; split; [by apply edge_op_ok|]). constructor. Qed.
Lemma built_graph_run ops : sequenced ops -> bool_decide (is_Some (apply_ops ops empty_state)) = true -> built ops (run ops).
Proof.
  intros Hs [st E]%bool_decide_eq_true. exists empty_state. split; [exact MemtableWitness.fresh_empty|]. split; [done|]. unfold run. by rewrite E.
Qed.
Definition segment_edges (seg : Segment) : list (Z * EdgeRecord) := (fun r => (er_id r, r)) <$> sg_edges seg.
Lemma segment_edges_complete seg e r : edge_in seg e = Some r -> (e, r) ∈ segment_edges seg.
Proof. intros [? <-]%edge_in_spec. apply list_elem_of_fmap. by exists r. Qed.
Lemma view_steady : steady edge_in view.
Proof.
  apply (steady_checked edge_in segment_edges segment_edges_complete); [|vm_compute; reflexivity]. intros st [->|Hst]%elem_of_cons.
  - exists newer. apply built_graph_run; [exact newer_sequenced|vm_compute; reflexivity].
  - apply list_elem_of_singleton in Hst as ->. exists older. apply built_graph_run; [exact older_sequenced|vm_compute; reflexivity].
Qed.

Lemma shortest_path_witness :
  (exists path, shortest_path view catalog policies 8 5 1 6 options = Some (Ok (Some path)) /\ sp_nodes path = [1; 2; 3; 6] /\ sp_edges path = [20; 21; 22])
  /\ exists r, shortest_path view catalog policies 8 5 1 6 options = Some r /\
     match r with
     | Ok (Some path) => reports (hop_arcs node_in edge_in view catalog policies 8 options) 1 6 4 path
     | _ => False
     end.
Proof.
  split; [eexists; split; [vm_compute; reflexivity|done]|].
  destruct (shortest_path_exact node_in edge_in view catalog policies 8 5 1 6 options view_steady) as (r & Er & Hr);
    [vm_compute; split; [discriminate|reflexivity]|vm_compute; reflexivity|].
  exists r. split; [exact Er|]. assert (exists path, shortest_path view catalog policies 8 5 1 6 options = Some (Ok (Some path))) as [path E] by (eexists; vm_compute; reflexivity).
  rewrite E in Er. injection Er as <-. exact (proj2 (proj2 Hr)).
Defined.
Lemma is_connected_witness :
  is_connected view catalog policies 8 5 1 7 (mkConnectedOptions MemtableReads.Both None None None) = Some (Ok false).
Proof.
  assert (exists r, shortest_path view catalog policies 8 5 1 7 (mkConnectedOptions MemtableReads.Both None None None) = Some r /\ found_path r = Ok false) as (r & E & Hf)
    by (eexists; split; vm_compute; reflexivity).
  rewrite <- Hf. exact (is_connected_agrees edge_in view catalog policies 8 5 1 7 (mkConnectedOptions MemtableReads.Both None None None) r E).
Defined.

Definition labelled (r : option (res (gmap Z Z))) (ids : list Z) : list (option Z) :=
  match r with Some (Ok result) => (fun id => result !! id) <$> ids | _ => [] end.
Lemma components_witness :
  labelled (connected_components view (Some [4]) 3 [2; 4; 5; 6; 7]) [2; 4; 5; 6; 7; 8] = [Some 2; Some 4; Some 4; Some 6; Some 6; None]
  /\ exists r, connected_components view (Some [4]) 3 [2; 4; 5; 6; 7] = Some r /\
     match r with
     | Ok result => forall id, id ∉ [2; 4; 5; 6; 7] -> result !! id = None
     | Err _ => True
     end.
Proof.
  split; [vm_compute; reflexivity|].
  assert (forall id, id ∈ [2; 4; 5; 6; 7] -> node_tombstoned view id = false) as Hlive.
  { intros id Hin. apply (forallb_elem (fun id => negb (node_tombstoned view id)) [2; 4; 5; 6; 7]) in Hin; [by apply negb_true_iff in Hin|vm_compute; reflexivity]. }
  destruct (connected_components_exact edge_in view (Some [4]) 3 [2; 4; 5; 6; 7] view_steady ltac:(repeat constructor; lia) Hlive) as (r & E & Hr).
  exists r. split; [exact E|]. destruct r as [result|e]; [exact (proj1 Hr)|exact I].
Defined.

(** ** An active edge at a node deleted before *)
Definition to_deleted : list (Z * WalOp) := [(4, UpsertEdge (edge 30 1 9)); (5, UpsertEdge (edge 31 9 6))].
Definition before_freeze : SourceList := mkSources (run to_deleted) [] [segment] 9.
Definition after_freeze : SourceList := mkSources (run []) [run to_deleted] [segment] 9.
(** The path through the node deleted in the segment is there until the freeze. *)
Lemma freezing_changes_paths :
  (option_map sp_nodes <$> default (Ok None) (shortest_path before_freeze catalog [] 8 5 1 6 options)) = Ok (Some [1; 9; 6])
  /\ (option_map sp_nodes <$> default (Ok None) (shortest_path after_freeze catalog [] 8 5 1 6 options)) = Ok (Some [1; 2; 3; 6]).
Proof. split; vm_compute; reflexivity. Qed.
Lemma before_layered : layered edge_in before_freeze.
Proof.
  apply (layered_checked edge_in segment_edges segment_edges_complete); [|vm_compute; reflexivity]. intros st [->|Hst]%elem_of_cons; [|by apply not_elem_of_nil in Hst].
  exists to_deleted. apply built_graph_run; [|vm_compute; reflexivity]. split; [by repeat constructor|].
  repeat (apply Forall_cons; split; [by apply edge_op_ok|]). constructor.
Qed.
Lemma freezing_hides_arcs_witness :
  freeze_memtable (run []) before_freeze = after_freeze
  /\ exists before after, collected Outgoing None 5 before_freeze [1] = Ok before /\ collected Outgoing None 5 after_freeze [1] = Ok after
     /\ (1, 9, 30) ∈ before /\ (1, 9, 30) ∉ after.
Proof.
  assert (freeze_memtable (run []) before_freeze = after_freeze) as Ef by (vm_compute; reflexivity). split; [exact Ef|].
  destruct (freezing_hides_arcs edge_in before_freeze (run []) Outgoing None 5 [1] before_layered MemtableWitness.fresh_empty)
    as (before & after & Eb & Ea & Hheld & Hafter); [reflexivity|].
  rewrite Ef in Ea.
  exists before, after. split; [exact Eb|]. split; [exact Ea|]. split.
  - apply (Hheld 1 9 30 (with_edge_seq (edge 30 1 9) 4)); [left|vm_compute; reflexivity|left; by split_and!|exact I|vm_compute; reflexivity..].
  - intros (_ & _ & Ht)%Hafter. revert Ht. vm_compute. discriminate.
Defined.
End GraphWitness.

(** ** The endpoint scan on the view of the graph searches. *)
Module EndpointWitness.
Import GraphWitness.
#[local] Existing Instance MemtableWitness.rmp.
#[local] Existing Instance MemtableWitness.hash_order.
#[local] Existing Instance MemtableWitness.hash_order_laws.
#[local] Existing Instance segment_reads.
#[local] Existing Instance segment_adjacency.
#[local] Existing Instance segment_adjacency_laws.

(** One cursor for each node. *)
Definition cursor_at (seg : Segment) (dir : Direction) (labels : option (list Z)) (n : Z) : SegCursor :=
  (NodeQuery.sorted_dedup_u64 ((fun q => ps_edge_id (snd q)) <$> fst (adj_postings_batch seg [n] dir labels)), None).
#[local] Instance segment_endpoints : SegmentEndpoints Segment := {|
  endpoint_adj_posting_cursors seg ids dir labels := Ok (cursor_at seg dir labels <$> ids);
  has_edge seg e := bool_decide (is_Some (edge_in seg e))
|}.
Lemma cursor_elem seg ids dir labels e :
  e ∈ mjoin (fst <$> (cursor_at seg dir labels <$> ids)) <-> exists n p, n ∈ ids /\ ps_edge_id p = e /\ segment_posting edge_in seg dir labels n p.
Proof.
  rewrite list_elem_of_join. setoid_rewrite list_elem_of_fmap. setoid_rewrite list_elem_of_fmap. split.
  - intros (l & He & c & -> & n & -> & Hn). apply NodeQueryFacts.sorted_dedup_spec, list_elem_of_fmap in He as ([n' p] & -> & Hp).
    assert (n' = n) as ->. { cbn in Hp. rewrite app_nil_r in Hp. apply list_elem_of_join in Hp as (l & Hp & Hl). apply list_elem_of_fmap in Hl as (id & -> & _).
      unfold postings_at in Hp. destruct (edge_in seg id); [|by apply not_elem_of_nil in Hp]. case_bool_decide; [|by apply not_elem_of_nil in Hp].
      by apply list_elem_of_fmap in Hp as (m & [= -> _] & _). }
    apply postings_elem in Hp as [_ Hp]. by exists n, p.
  - intros (n & p & Hn & <- & Hp). eexists. split; [|eexists; split; [done|by exists n]]. cbn [fst cursor_at]. apply NodeQueryFacts.sorted_dedup_spec, list_elem_of_fmap.
    exists (n, p). split; [done|]. apply postings_elem. split; [left|done].
Qed.
#[local] Instance segment_endpoint_laws : SegmentEndpointLaws edge_in.
Proof.
  split.
  - intros seg e. cbn. apply bool_decide_eq_true.
  - intros seg ids dir labels cursors c E Hc. apply Ok_inj in E as <-. apply list_elem_of_fmap in Hc as (n & -> & _). apply NodeQueryFacts.sorted_dedup_spec.
  - intros seg ids dir labels cursors e E He. apply Ok_inj in E as <-. by apply cursor_elem.
  - intros seg ids dir labels cursors n p E _ Hn Hp. apply Ok_inj in E as <-. apply cursor_elem. by exists n, p.
Qed.

Lemma endpoint_scan_exact_witness :
  edge_ids_by_endpoints_limited view [3; 1] MemtableReads.Both None 100 = Some (Ok [10; 12; 20; 21; 22])
  /\ exists out, edge_ids_by_endpoints_limited view [3; 1] MemtableReads.Both None 2 = Some out /\
  match out with
  | Err _ => segments view ≠ []
  | Ok edges => ascending edges /\ len edges <= 2
      /\ (forall e, e ∈ edges -> exists n m r, shown ms_edges is_edge_deleted edge_in view e = Some r /\ n ∈ [3; 1] /\ touches MemtableReads.Both r n m /\ passes_filter None (er_label_id r))
      /\ (len edges < 2 -> forall e n m r, shown ms_edges is_edge_deleted edge_in view e = Some r -> n ∈ [3; 1] -> touches MemtableReads.Both r n m -> passes_filter None (er_label_id r) ->
            standing view n m -> e ∈ edges)
  end.
Proof.
  split; [vm_compute; reflexivity|]. exact (endpoint_scan_exact edge_in view view_steady MemtableReads.Both None 2 [3; 1] ltac:(lia)).
Defined.
End EndpointWitness.

(** ** The cascade of a node delete on the view of the graph searches, and an edge
    it leaves behind. *)
Module CascadeWitness.
Import GraphWitness.
#[local] Existing Instance MemtableWitness.rmp.
#[local] Existing Instance MemtableWitness.hash_order.
#[local] Existing Instance MemtableWitness.hash_order_laws.
#[local] Existing Instance segment_reads.
#[local] Existing Instance segment_adjacency.

Definition neighbor (r : EdgeRecord) (m : Z) : NeighborRecord :=
  mkNeighbor m (er_id r) (er_label_id r) (er_weight r) (er_valid_from r) (er_valid_to r).
Definition neighbors_of (seg : Segment) (n : Z) (dir : Direction) (labels : option (list Z)) : list NeighborRecord :=
  mjoin ((fun id =>
    match edge_in seg id with
    | Some r =>
        if bool_decide (passes_filter labels (er_label_id r) /\ id ∉ sg_deleted_edges seg) then
          neighbor r <$> base.filter (fun m => m ∉ sg_deleted_nodes seg) (ends_at dir n r)
        else []
    | None => []
    end) <$> (er_id <$> sg_edges seg)).
#[local] Instance segment_scans : SegmentScans Segment := {|
  segment_neighbors seg n dir labels limit := Ok (neighbors_of seg n dir labels);
  segment_nodes_by_label_id seg l :=
    Ok (omap (fun '(id, r) => if NodeLabels.contains (nr_label_ids r) l then Some id else None) (map_to_list (sg_nodes seg)));
  segment_node_metas seg := Ok (fst <$> map_to_list (sg_nodes seg))
|}.
Lemma neighbors_postings seg n dir labels : tag n <$> neighbors_of seg n dir labels = fst (adj_postings_batch seg [n] dir labels).
Proof.
  cbn. rewrite app_nil_r. unfold neighbors_of. induction (er_id <$> sg_edges seg) as [|id ids IH]; [done|].
  rewrite !join_fmap_cons, fmap_app, IH. f_equal. unfold postings_at. destruct (edge_in seg id) as [r|]; [|done].
  case_bool_decide; [|done]. by rewrite <- list_fmap_compose.
Qed.
#[local] Instance segment_scan_laws : SegmentScanLaws edge_in.
Proof.
  split.
  - intros seg id. cbn. by rewrite bool_decide_eq_true.
  - intros seg id. cbn. by rewrite bool_decide_eq_true.
  - intros seg id r ?%edge_in_spec. naive_solver.
  - intros seg n dir labels entries p E. apply Ok_inj in E as <-.
    pose proof (postings_elem seg [n] dir labels n p) as Hp. rewrite <- neighbors_postings, tag_elem, list_elem_of_singleton in Hp. naive_solver.
Qed.

Definition core (sl : SourceList (Segment := Segment)) : PlanCore (Segment := Segment) := mkPlanCore sl (mkCatalog (mkTokens ∅ ∅ ∅ 8) (mkTokens ∅ ∅ ∅ 8)) None false 50 50.
Definition ops_of (r : res CoreWritePlan) : list WalOp := match r with Ok plan => pl_ops plan | Err _ => [] end.

Lemma delete_cascade_exact_witness :
  ops_of (plan_delete_node 5 (core view) 1) = [DeleteEdge 20 5; DeleteEdge 10 5; DeleteEdge 12 5; DeleteNode 1 5]
  /\ exists edge_ids, ops_of (plan_delete_node 5 (core view) 1) = ((fun e => DeleteEdge e 5) <$> edge_ids) ++ [DeleteNode 1 5]
     /\ NoDup edge_ids /\ forall e, e ∈ edge_ids <-> exists m, edge_arc edge_in view MemtableReads.Both None 5 1 m e.
Proof.
  split; [vm_compute; reflexivity|].
  destruct (plan_delete_node 5 (core view) 1) as [plan|e] eqn:E; [|exfalso; revert E; vm_compute; discriminate].
  apply (delete_cascade_exact edge_in 5 (core view) 1 plan view_steady); [vm_compute; reflexivity|exact E].
Defined.

(** ** An edge left behind *)
Definition expired : EdgeRecord := with_valid_to (edge 32 1 3) 1 3.
Definition written : list (Z * WalOp) := [(4, UpsertEdge expired)].
Definition before : SourceList := mkSources (run written) [] [segment] 20.
Definition after (now : Z) : SourceList :=
  mkSources (run (written ++ sequence_from 4 (ops_of (plan_delete_node now (core before) 1)))) [] [segment] 20.
(** Deleting a node leaves its expired edges.  The walk that collects the
    edges of a deleted node keeps only those valid at the time of the delete.
    At time 2 the delete of node 1 takes the edge with it; at time 5, when the
    validity of the edge has ended, the node is gone afterwards and the edge
    that starts at it is still read as live. *)
Theorem delete_leaves_expired_edge :
  (find_node (after 2) 1, option_map er_from <$> find_edge (after 2) 32) = (Ok None, Ok None)
  /\ (find_node (after 5) 1, option_map er_from <$> find_edge (after 5) 32) = (Ok None, Ok (Some 1)).
Proof. split; vm_compute; reflexivity. Qed.
End CascadeWitness.
