(* ===== verification/WriteWitness.v ===== *)
(** Writes over the view of the lookups by name: a session of two batches, the
    memtable frozen between them, and the commit of a transaction. *)
From S2P Require Import Prelude Types Encoding PropertyValue EdgeMetadata Slots Memtable MemtableCells MemtableFacts MemtableReads MemtableSnapshots MemtableKeys MemtableWitness Manifest LabelCatalog Vectors DegreeEngine Engine EngineWitness FilterBase NodeFilter NodeQuery SourceList SourceListFacts LayeredKeysWitness SourceKeys SourceKeysFacts LayeredKeys Adjacency WritePlan WritePlanFacts WritePatchFacts WriteSession MemtableNeighbors NodeQueryFacts AdjacencyFacts GraphWitness GraphSearch EndpointScan EndpointFacts Txn TxnPlan TxnFacts.
Import SourceList.

Module WriteWitness.
Import LayeredKeysWitness.
#[local] Existing Instance MemtableWitness.rmp.
#[local] Existing Instance MemtableWitness.hash_order.
#[local] Existing Instance EngineWitness.sort.
#[local] Existing Instance segment_reads.
#[local] Existing Instance segment_laws.
#[local] Existing Instance segment_key_reads.
#[local] Existing Instance segment_key_laws.

(** The edges a segment holds at a node, and what it deletes. *)
Definition ends (seg : Segment) (n : Z) (direction : Direction) (label_filter_ids : option (list Z)) : list NeighborRecord :=
  omap (fun '(_, o) =>
    r ← o;
    if match label_filter_ids with Some ids => bool_decide (er_label_id r ∈ ids) | None => true end
    then match direction with
         | MemtableReads.Incoming => if er_to r =? n then Some (mkNeighbor (er_from r) (er_id r) (er_label_id r) (er_weight r) (er_valid_from r) (er_valid_to r)) else None
         | _ => if er_from r =? n then Some (mkNeighbor (er_to r) (er_id r) (er_label_id r) (er_weight r) (er_valid_from r) (er_valid_to r))
                else if (match direction with MemtableReads.Both => true | _ => false end) && (er_to r =? n)
                     then Some (mkNeighbor (er_from r) (er_id r) (er_label_id r) (er_weight r) (er_valid_from r) (er_valid_to r)) else None
         end
    else None) (map_to_list (snd seg)).
Definition removed {R} (m : gmap Z (option R)) : list Z :=
  omap (fun '(id, o) => match o with None => Some id | Some _ => None end) (map_to_list m).
#[local] Instance segment_adjacency : SegmentAdjacency Segment := {|
  adj_postings_batch seg ids direction label_filter_ids :=
    (mjoin ((fun n => (fun r => (n, mkPosting (nb_edge_id r) (nb_node_id r) (nb_weight r) (nb_valid_from r) (nb_valid_to r)))
                      <$> ends seg n direction label_filter_ids) <$> ids), None);
  deleted_node_ids seg := removed (fst seg);
  deleted_edge_ids seg := removed (snd seg)
|}.
#[local] Instance segment_scans : SegmentScans Segment := {|
  segment_neighbors seg n direction label_filter_ids limit := Ok (ends seg n direction label_filter_ids);
  segment_nodes_by_label_id seg l :=
    Ok (omap (fun '(id, o) => r ← o; if bool_decide (l ∈ labels_of r) then Some id else None) (map_to_list (fst seg)));
  segment_node_metas seg := Ok (omap (fun '(id, o) => (fun _ : NodeRecord => id) <$> o) (map_to_list (fst seg)))
|}.

Definition segs : list Segment := [segment].
Lemma held_segs : opened node_in edge_in segs true 6 15 triple_for.
Proof.
  split; [lia|..].
  - intros seg n r Hin Hn. apply list_elem_of_singleton in Hin as ->. rewrite (node_held_ok n r Hn).
    pose proof (held_check (fst segment) (fun n _ => n <? 6) ltac:(vm_compute; reflexivity) n r Hn) as Hlt. cbn beta in Hlt.
    apply node_held in Hn. unfold named in Hn. apply (proj1 (bool_decide_eq_true _)) in Hn as [? _]. split; [done|]. split; [|lia].
    apply MemtableWitness.labels_wf, MemtableWitness.labels_sample.
  - intros seg e r Hin He. apply list_elem_of_singleton in Hin as ->. pose proof (edge_held e r He) as Ht.
    unfold tripled in Ht. apply (proj1 (bool_decide_eq_true _)) in Ht as [? _].
    unfold edge_in in He. destruct (mjoin (snd segment !! e)) as [r'|] eqn:Em; [|done]. cbn in He.
    destruct (er_id r' =? e) eqn:Ee; [|done]. apply (inj Some) in He as ->.
    pose proof (held_check (snd segment) (fun e _ => e <? 15) ltac:(vm_compute; reflexivity) e r Em) as Hlt. cbn beta in Hlt. split; [lia|]. split; [lia|done].
  - intros j. unfold unique_keys. apply (named_unique (fun n r => show _ n = Some r)). intros n r Hn%segment_shown. by apply node_held.
  - intros j _. unfold unique_triples. apply (tripled_unique (fun n r => show _ n = Some r)). intros e r He%segment_shown. by apply edge_held.
Qed.

(** The first batch names node 2 of the segment, a new node by a new label, and
    that node again; the second writes one triple twice. *)
Definition catalog : RuntimeLabelCatalog :=
  mkCatalog (mkTokens {[str_of "Person" := 3]} {[3 := str_of "Person"]} ∅ 4) (mkTokens ∅ ∅ ∅ 6).
Definition input (labels : list str) (key : str) : NodeInput := mkNodeInput labels key [] 0 None None.
Definition nodes_request : CoreWriteRequest :=
  ReqBatchUpsertNodes [input [str_of "Person"] (str_of "old"); input [str_of "Person"; str_of "New"] (str_of "x"); input [str_of "New"] (str_of "x")].
Definition edge_input : EdgeInput := mkEdgeInput 2 6 (str_of "KNOWS") [] 0 (Some 0) None.
Definition edges_request : CoreWriteRequest := ReqBatchUpsertEdges [edge_input; edge_input].
Definition nodes_ops : list WalOp :=
  [EnsureNodeLabel (str_of "New") 4; UpsertNode (MemtableWitness.node 2 [3] "old" 5);
   UpsertNode (MemtableWitness.node 6 [3; 4] "x" 5); UpsertNode (MemtableWitness.node 6 [4] "x" 5)].
Definition edges_ops : list WalOp :=
  [EnsureEdgeLabel (str_of "KNOWS") 6; UpsertEdge (MemtableWitness.edge 15 2 6 6); UpsertEdge (MemtableWitness.edge 15 2 6 6)].
Definition nodes_run : list (Z * WalOp) := sequence_from 9 nodes_ops.
Definition edges_run : list (Z * WalOp) := sequence_from 13 edges_ops.
Definition view (newer older : list (Z * WalOp)) : SourceList :=
  mkSources (SourceListWitness.run newer) [SourceListWitness.run older] segs 20.

Lemma sequenced_all : sequenced (nodes_run ++ edges_run).
Proof.
  split; [by repeat constructor|].
  assert (NodeLabels.canonical [3] /\ NodeLabels.canonical [3; 4] /\ NodeLabels.canonical [4]) as (H3 & H34 & H4).
  { unfold NodeLabels.canonical, MAX_NODE_LABELS_PER_NODE. split_and!; try done; try (cbn; lia); try (repeat constructor); set_solver by lia. }
  apply Forall_forall. intros o Ho. unfold nodes_run, edges_run, nodes_ops, edges_ops, sequence_from in Ho. cbn -[MemtableWitness.node MemtableWitness.edge str_of] in Ho.
  repeat (apply elem_of_cons in Ho as [->|Ho]; [split; [cbn [fst snd op_ok]; try done |done]|]);
    try (by apply MemtableWitness.edge_sample_ok); try (by apply not_elem_of_nil in Ho);
    apply MemtableWitness.node_sample_ok; try done; by repeat constructor.
Qed.
Lemma view_ok newer older :
  older ++ newer ++ drop (length older + length newer) (nodes_run ++ edges_run) = nodes_run ++ edges_run ->
  bool_decide (is_Some (apply_ops newer empty_state)) = true -> bool_decide (is_Some (apply_ops older empty_state)) = true ->
  bool_decide (is_Some (apply_ops (older ++ newer) empty_state)) = true ->
  views segs (view newer older) (older ++ newer).
Proof.
  intros Es En Eo Er. pose proof sequenced_all as Hs. rewrite <- Es, app_assoc in Hs.
  set (rest := drop (length older + length newer) (nodes_run ++ edges_run)) in *. clearbody rest.
  pose proof (proj1 (SourceListWitness.sequenced_part _ Hs (length (older ++ newer)))) as Hon. rewrite take_app_length in Hon.
  destruct (SourceListWitness.sequenced_part _ Hon (length older)) as [Ho Hn]. rewrite take_app_length in Ho. rewrite drop_app_length in Hn.
  split; [done|..].
  - exists [newer; older], (SourceListWitness.run (older ++ newer)). split; [cbn; by rewrite app_nil_r|]. split.
    + apply Forall2_cons. split; [by apply SourceListWitness.built_run, SourceListWitness.ran|].
      apply Forall2_cons. split; [by apply SourceListWitness.built_run, SourceListWitness.ran|]. constructor.
    + by apply SourceListWitness.built_run, SourceListWitness.ran.
  - assert (Forall (fun o : Z * WalOp => fst o <= 20) (nodes_run ++ edges_run)) as Hall by by repeat constructor.
    rewrite <- Es, app_assoc in Hall. by apply Forall_app in Hall as [? _].
Qed.
Lemma planned : session segs true 6 15 (nodes_run ++ edges_run) 7 16.
Proof.
  assert (session segs true 6 15 nodes_run 7 15) as Hs.
  { eapply (session_commit segs true 6 15 [] 6 15 (view [] []) catalog None 5 nodes_request
              (mkPlanCore (view [] []) catalog None true 7 15) (mkPlan nodes_ops (ReplyVecU64 [2; 6; 6]) true false true) 9).
    - apply session_open.
    - apply (view_ok [] []); [done|vm_compute; reflexivity..].
    - done.
    - done.
    - vm_compute. reflexivity. }
  eapply (session_commit segs true 6 15 nodes_run 7 15 (view [] nodes_run) catalog None 5 edges_request
            (mkPlanCore (view [] nodes_run) catalog None true 7 16) (mkPlan edges_ops (ReplyVecU64 [15; 15]) true false true) 13).
  - exact Hs.
  - rewrite <- (app_nil_r nodes_run) at 2. apply (view_ok [] nodes_run); [done|vm_compute; reflexivity..].
  - done.
  - done.
  - vm_compute. reflexivity.
Qed.

Lemma session_keeps_names_unique_witness :
  find_node_ids_by_label_keys (view edges_run nodes_run) [(3, str_of "old"); (4, str_of "x"); (3, str_of "x")] = Ok [Some 2; Some 6; None]
  /\ unique_keys (nodes_after (take 5 (nodes_run ++ edges_run)) (show (segment_says is_node_deleted node_in None Some <$> segs))).
Proof.
  split; [vm_compute; reflexivity|].
  exact (proj1 (proj1 (session_keeps_names_unique node_in edge_in key_in triple_in segs true 6 15 triple_for held_segs
    (nodes_run ++ edges_run) 7 16 planned) 5%nat)).
Defined.
End WriteWitness.

(** ** A transaction planned over the view of the lookups by name. *)
Module TxnWitness.
Import LayeredKeysWitness.
#[local] Existing Instance MemtableWitness.rmp.
#[local] Existing Instance MemtableWitness.hash_order.
#[local] Existing Instance MemtableWitness.hash_order_laws.
#[local] Existing Instance EngineWitness.sort.
#[local] Existing Instance segment_reads.
#[local] Existing Instance segment_laws.
#[local] Existing Instance segment_key_reads.
#[local] Existing Instance segment_key_laws.

(** ** The edges of a segment at a node *)
Definition deleted_in {R} (m : gmap Z (option R)) : list Z := fst <$> base.filter (fun e => snd e = None) (map_to_list m).
Lemma deleted_in_elem {R} (m : gmap Z (option R)) id : id ∈ deleted_in m <-> match m !! id with Some None => true | _ => false end = true.
Proof.
  unfold deleted_in. rewrite list_elem_of_fmap. setoid_rewrite list_elem_of_filter. split.
  - intros ([i o] & -> & Ho & E%elem_of_map_to_list). cbn in *. by rewrite E, Ho.
  - destruct (m !! id) as [[r|]|] eqn:E; try done. intros _. exists (id, None). by rewrite elem_of_map_to_list.
Qed.
Definition postings_of (seg : Segment) (dir : Direction) (labels : option (list Z)) (n id : Z) : list (Z * Posting) :=
  match edge_in seg id with
  | Some r =>
      if bool_decide (passes_filter labels (er_label_id r) /\ is_edge_deleted seg id = false) then
        (fun m => (n, posting r m)) <$> base.filter (fun m => is_node_deleted seg m = false) (GraphWitness.ends_at dir n r)
      else []
  | None => []
  end.
Definition edge_keys_of (seg : Segment) : list Z := fst <$> map_to_list (snd seg).
#[local] Instance segment_adjacency : SegmentAdjacency Segment := {|
  adj_postings_batch seg ids dir labels := (mjoin ((fun n => mjoin (postings_of seg dir labels n <$> edge_keys_of seg)) <$> ids), None);
  deleted_node_ids seg := deleted_in (fst seg);
  deleted_edge_ids seg := deleted_in (snd seg)
|}.
Lemma named_edge_spec seg id r : edge_in seg id = Some r -> er_id r = id /\ id ∈ edge_keys_of seg.
Proof.
  unfold edge_in, edge_keys_of. destruct (snd seg !! id) as [[r'|]|] eqn:E; [|done..]. cbn. destruct (er_id r' =? id) eqn:Ei; [|done]. intros [= ->].
  split; [lia|]. apply list_elem_of_fmap. exists (id, Some r). split; [done|]. by apply elem_of_map_to_list.
Qed.
Lemma postings_of_elem seg dir labels n id n' p : (n', p) ∈ postings_of seg dir labels n id ->
  n' = n /\ ps_edge_id p = id /\ segment_posting edge_in seg dir labels n p.
Proof.
  unfold postings_of. destruct (edge_in seg id) as [r|] eqn:Er; [|by intros ?%not_elem_of_nil]. case_bool_decide as Hc; [|by intros ?%not_elem_of_nil].
  intros (m & [= -> ->] & Hm)%list_elem_of_fmap. apply list_elem_of_filter in Hm as [Hm Ht%GraphWitness.ends_touch]. destruct Hc as [Hl Hd].
  destruct (named_edge_spec _ _ _ Er) as [Hid _]. split_and!; [done|done|]. exists r. cbn [posting ps_edge_id ps_neighbor_id]. rewrite Hid. by split_and!.
Qed.
Lemma txn_postings_elem seg ids dir labels n p :
  (n, p) ∈ fst (adj_postings_batch seg ids dir labels) <-> n ∈ ids /\ segment_posting edge_in seg dir labels n p.
Proof.
  cbn [adj_postings_batch segment_adjacency fst]. rewrite list_elem_of_join. setoid_rewrite list_elem_of_fmap. split.
  - intros (l & Hin & n' & -> & Hn). apply list_elem_of_join in Hin as (l & Hin & Hl). apply list_elem_of_fmap in Hl as (id & -> & _).
    by apply postings_of_elem in Hin as (-> & _ & Hp).
  - intros (Hn & r & Hr & Ht & Ep & Hlab & Hd & Hm). eexists. split; [|exists n; split; [reflexivity|done]]. apply list_elem_of_join.
    destruct (named_edge_spec _ _ _ Hr) as [Hid Hin]. eexists. split; [|apply list_elem_of_fmap; exists (ps_edge_id p); split; [reflexivity|done]].
    unfold postings_of. rewrite Hr, bool_decide_true by done. apply list_elem_of_fmap. exists (ps_neighbor_id p). split; [by rewrite <- Ep|].
    apply list_elem_of_filter. split; [done|]. by apply GraphWitness.ends_touch.
Qed.
#[local] Instance segment_adjacency_laws : SegmentAdjacencyLaws edge_in.
Proof.
  split.
  - intros seg id. apply deleted_in_elem.
  - intros seg id. apply deleted_in_elem.
  - intros seg id r. apply named_edge_spec.
  - intros seg ids dir labels n p. apply txn_postings_elem.
  - intros seg ids dir labels n p _ Hn Hp. by apply txn_postings_elem.
Qed.
(** One cursor for each node. *)
Definition cursor_at (seg : Segment) (dir : Direction) (labels : option (list Z)) (n : Z) : SegCursor :=
  (NodeQuery.sorted_dedup_u64 ((fun q => ps_edge_id (snd q)) <$> mjoin (postings_of seg dir labels n <$> edge_keys_of seg)), None).
#[local] Instance segment_endpoints : SegmentEndpoints Segment := {|
  endpoint_adj_posting_cursors seg ids dir labels := Ok (cursor_at seg dir labels <$> ids);
  has_edge seg e := bool_decide (is_Some (edge_in seg e))
|}.
Lemma txn_cursor_elem seg ids dir labels e :
  e ∈ mjoin (fst <$> (cursor_at seg dir labels <$> ids)) <-> exists n p, n ∈ ids /\ ps_edge_id p = e /\ segment_posting edge_in seg dir labels n p.
Proof.
  rewrite list_elem_of_join. setoid_rewrite list_elem_of_fmap. setoid_rewrite list_elem_of_fmap. split.
  - intros (l & He & c & -> & n & -> & Hn). apply NodeQueryFacts.sorted_dedup_spec, list_elem_of_fmap in He as ([n' p] & -> & Hp).
    apply list_elem_of_join in Hp as (l & Hp & Hl). apply list_elem_of_fmap in Hl as (id & -> & _). apply postings_of_elem in Hp as (-> & _ & Hp). by exists n, p.
  - intros (n & p & Hn & <- & Hp). eexists. split; [|eexists; split; [done|by exists n]]. cbn [fst cursor_at]. apply NodeQueryFacts.sorted_dedup_spec, list_elem_of_fmap.
    exists (n, p). split; [done|]. pose proof (proj2 (txn_postings_elem seg [n] dir labels n p) (conj (list_elem_of_here n []) Hp)) as Hin.
    cbn [adj_postings_batch segment_adjacency fst] in Hin. cbn in Hin. by rewrite app_nil_r in Hin.
Qed.
#[local] Instance segment_endpoint_laws : SegmentEndpointLaws edge_in.
Proof.
  split.
  - intros seg e. cbn. apply bool_decide_eq_true.
  - intros seg ids dir labels cursors c E Hc. apply Ok_inj in E as <-. apply list_elem_of_fmap in Hc as (n & -> & _). apply NodeQueryFacts.sorted_dedup_spec.
  - intros seg ids dir labels cursors e E He. apply Ok_inj in E as <-. by apply txn_cursor_elem.
  - intros seg ids dir labels cursors n p E _ Hn Hp. apply Ok_inj in E as <-. apply txn_cursor_elem. by exists n, p.
Qed.
(** Every tombstone of a segment was written first. *)
Definition first_seq {R} (m : gmap Z (option R)) (id : Z) : option Z := match m !! id with Some None => Some 1 | _ => None end.
#[local] Instance segment_tombstones : SegmentTombstones Segment := {|
  deleted_node_tombstones seg := first_seq (fst seg);
  deleted_edge_tombstones seg := first_seq (snd seg)
|}.
#[local] Instance segment_tombstone_laws : SegmentTombstoneLaws.
Proof.
  split; intros seg id; cbn; unfold first_seq; [destruct (fst seg !! id) as [[]|]|destruct (snd seg !! id) as [[]|]]; split; try done; try (by intros [? ?]); by eexists.
Qed.

Definition segment_edges (seg : Segment) : list (Z * EdgeRecord) := omap (fun id => pair id <$> edge_in seg id) (edge_keys_of seg).
Lemma named_edges_complete seg e r : edge_in seg e = Some r -> (e, r) ∈ segment_edges seg.
Proof. intros E. apply list_elem_of_omap. exists e. split; [by apply (named_edge_spec _ _ _ E)|]. by rewrite E. Qed.
(** ** The views *)
Definition current : SourceList := sources 9.
Definition snapshot : SourceList := sources 7.
Lemma mem_built st : st ∈ active sl :: immutable sl -> exists ops, built ops st.
Proof.
  destruct sources_built as [Hf _]. intros [i Hi]%list_elem_of_lookup. destruct (Forall2_lookup_r _ _ _ _ _ Hf Hi) as (ops & _ & Hb). by exists ops.
Qed.
Lemma current_steady : steady edge_in current.
Proof. apply (steady_checked edge_in segment_edges named_edges_complete); [exact mem_built|vm_compute; reflexivity]. Qed.
Lemma snapshot_steady : steady edge_in snapshot.
Proof. apply (steady_checked edge_in segment_edges named_edges_complete); [exact mem_built|vm_compute; reflexivity]. Qed.
Lemma current_nodes : node_indexed node_in current.
Proof.
  destruct sources_built as [Hp Hw]. apply (run_node_indexed current [newer; older] MemtableWitness.st Hp Hw node_in).
  - intros k. apply named_unique. apply node_then.
  - intros j. unfold unique_keys. apply (named_unique (fun n r => show _ n = Some r)). intros n r Hn%segment_shown. by apply node_held.
  - intros seg n r Hin Hn. apply list_elem_of_singleton in Hin as ->. rewrite (node_held_ok n r Hn).
    apply node_held in Hn. unfold named in Hn. apply (proj1 (bool_decide_eq_true _)) in Hn as [? _]. split; [done|]. apply MemtableWitness.labels_wf, MemtableWitness.labels_sample.
Qed.
Lemma current_edges : edge_indexed edge_in current.
Proof.
  destruct sources_built as [Hp Hw]. apply (run_edge_indexed current [newer; older] MemtableWitness.st Hp Hw edge_in triple_for).
  - intros k. apply tripled_unique. apply edge_then.
  - intros j. unfold unique_triples. apply (tripled_unique (fun n r => show _ n = Some r)). intros e r He%segment_shown. by apply edge_held.
  - intros k e r He%edge_then. by apply bool_decide_eq_true in He as [? _].
  - intros seg e r Hin He. apply list_elem_of_singleton in Hin as ->. apply edge_held in He. by apply (proj1 (bool_decide_eq_true _)) in He as [? _].
Qed.
Definition core : PlanCore :=
  mkPlanCore current (mkCatalog (mkTokens {[str_of "Person" := 3]} {[3 := str_of "Person"]} ∅ 8) (mkTokens {[str_of "KNOWS" := 4]} {[4 := str_of "KNOWS"]} ∅ 6)) None true 6 15.
Definition no_options : UpsertNodeOptions := mkNodeOptions [] 0 None None.
Definition staged (intent : TxnIntent) : StagedTxnIntent := mkStagedIntent intent None None.
(** Write node 1 by its key, create a node of a new label and an edge to it,
    then delete node 3 with its self loop. *)
Definition intents : list StagedTxnIntent :=
  [staged (TxnUpsertNode None [str_of "Person"] (str_of "a") no_options);
   mkStagedIntent (TxnUpsertNode None [str_of "New"] (str_of "n") no_options) (Some (Slot 0)) None;
   staged (TxnUpsertEdge None (NodeKey (str_of "Person") (str_of "a")) (NodeLocal (Slot 0)) (str_of "KNOWS") (mkEdgeOptions [] 0 None None));
   staged (TxnDeleteNode (NodeKey (str_of "Person") (str_of "c")))].
Definition request (entries : list StagedTxnIntent) : TxnCommitRequest := mkTxnRequest snapshot 7 entries [] (mkReadSet ∅ ∅) None.
Definition show_op (op : WalOp) : Z * Z :=
  match op with UpsertNode r => (1, nr_id r) | UpsertEdge r => (2, er_id r) | DeleteNode id _ => (3, id) | DeleteEdge id _ => (4, id) | _ => (0, 0) end.
Definition outcome (entries : list StagedTxnIntent) : res (list (Z * Z)) :=
  match plan_txn_commit core (request entries) 40 with Ok (_, (ops, _, _)) => Ok (map show_op ops) | Err e => Err e end.

Definition deletes (id t : Z) (op : WalOp) : bool := match op with DeleteNode id' t' => (id' =? id) && (t' =? t) | _ => false end.
Lemma deletes_elem id t ops : existsb (deletes id t) ops = true -> DeleteNode id t ∈ ops.
Proof.
  intros (op & Hin & Hd)%existsb_exists. destruct op; try done. cbn in Hd. apply andb_true_iff in Hd as [->%Z.eqb_eq ->%Z.eqb_eq]. by apply list_elem_of_In.
Qed.

Lemma commit_ops (r : res (@PlanCore Segment * (list WalOp * TxnCommitResult * bool))) (test : list WalOp -> bool) :
  match r with Ok (_, (ops, _, _)) => test ops | Err _ => false end = true ->
  exists self' ops result changed, r = Ok (self', (ops, result, changed)) /\ test ops = true.
Proof. destruct r as [[self' [[ops result] changed]]|]; [|done]. intros Ht. by exists self', ops, result, changed. Qed.

Lemma first_committer_wins_witness :
  outcome intents = Ok [(0, 0); (1, 1); (1, 6); (2, 15); (4, 13); (3, 3)]
  /\ (exists msg, outcome [staged (TxnDeleteEdge (EdgeId 12))] = Err (TxnConflict msg))
  /\ unchanged (request intents) (version nr_last_write_seq ms_nodes deleted_node_tombstones node_in current 3).
Proof.
  split; [vm_compute; reflexivity|]. split; [eexists; vm_compute; reflexivity|].
  assert (match plan_txn_commit core (request intents) 40 with Ok (_, (ops, _, _)) => existsb (deletes 3 40) ops | Err _ => false end = true) as Hin by (vm_compute; reflexivity).
  apply commit_ops in Hin as (self' & ops & result & changed & E & Hop%deletes_elem).
  refine (proj1 (first_committer_wins node_in edge_in key_in triple_in core (request intents) 40 current_nodes (fun _ => current_edges) current_steady snapshot_steady _ _ self' ops result changed (DeleteNode 3 40) E Hop)).
  - intros e r Hs%(shown_listed edge_in segment_edges named_edges_complete).
    assert (forallb (fun a => fst a <? 15) (all_edges segment_edges current) = true) as Hall by (vm_compute; reflexivity).
    pose proof (forallb_elem _ _ _ Hall Hs) as Hlt. cbn [fst] in Hlt. cbn [pc_next_edge_id core]. lia.
  - intros view ids Hview Hd Hs.
    assert (len ids < Z.of_nat 100) as Hlen.
    { apply (shown_bounded edge_in segment_edges named_edges_complete view ids 100); [|done|done]. by destruct Hview as [-> | ->]; vm_compute; repeat constructor. }
    unfold NodeQuery.usize_max. lia.
Defined.
End TxnWitness.
